(* ===== verification/_CoqProject ===== *)
-Q . S2P
Prelude.v
Codec.v
Pb.v
Engine.v
RaftMeta.v
Storage.v
EngineCF.v
Mvcc.v
MvccSpec.v
Latches.v
Commands.v
TxnSpec.v
TxnInv.v
TxnProps.v
Concurrent.v
Server.v
RaftPb.v
RaftStorage.v
RaftLog.v
RaftLogSpec.v
Raft.v
RawNode.v
RaftProps.v
RaftLogType.v
PeerStorage.v
PeerStorageSpec.v
RaftCmd.v
EngineStorage.v
Applier.v
ApplierSpec.v
ApplierWorker.v
ApplierProps.v
Bootstrap.v
WireFormat.v
WireCmd.v
Election.v
RaftTree.v
RaftSafety.v
RaftSteps.v
Cluster.v
RaftLogSteps.v
RaftGroup.v
Peer.v
PeerLog.v
PeerSave.v
PeerWorkers.v
PeerReady.v
PeerStart.v
PeerGroup.v
RaftRun.v
PeerRun.v
Replicas.v
ReplicasRun.v
SqlNumber.v
SqlBytes.v
SqlCodec.v
SqlKey.v
TableCodec.v
BTree.v
BTreeSpec.v
BTreeQuery.v
BTreeRefine.v
RegionTree.v
RegionTreeSpec.v
RegionsSpec.v
RegionsRefine.v
Tso.v
TsoSystem.v
TsoSpec.v
TsoInv.v
TsoProps.v
