(* ===== verification/Prelude.v ===== *)
(** A verification of SarDB.

    SarDB is a distributed SQL database in three programs under src/: TinyKV
    (src/tinykv/kv, src/tinykv/raft), a replicated transactional key-value
    store; TinyScheduler (src/tinykv/scheduler), which places the store's
    regions and hands out timestamps; and TinySQL (src/tinysql), the SQL layer
    that keeps tables in the store.  A request of the SQL layer is encoded into
    keys and values, reaches a TinyKV server, becomes a transaction command or a
    raw operation, is replicated by the raft group of its region, and is applied
    to a storage engine.

    Go is translated as follows.  A [uint64] or [int64] is a [Z] whose wrap-around
    is written out ([u64], [i64]); a byte slice is a list of bytes; a struct is a
    [Record], an enum or a tagged union an [Inductive]; a map is a [gmap], or a
    sorted association list where the order is observed; a pointer that may be
    nil is an [option].  A method that changes its receiver returns the new one.
    A function that can fail returns an [outcome]: [Ok], [Err] for a Go error,
    [Panic] for a panic, a failed slice or index expression and log.Fatal, and
    [OutOfFuel] where a loop is given fuel.  Logging and metrics are left out.

    *** The files and the code they model

    - Prelude: outcomes and their notation, Go's slice and index expressions,
      machine integers, byte order, tactics and hints, generic lemmas.

    Transactions (src/tinykv/kv):
    - Codec: util/codec/codec.go, memory-comparable byte strings.
    - Pb: the messages of proto/{metapb,errorpb,kvrpcpb}.proto.
    - Storage: storage/{storage,modify,mem_storage}.go; the interfaces as the
      classes [Storage], [StorageReader], [DBIterator] with their laws, and
      [MemStorage] as an instance over a sorted list (the LLRB tree is a library).
    - Mvcc, MvccSpec: transaction/mvcc; the searches against the version history
      of a key, [write_at].
    - Latches: transaction/latches, with any number of threads as a step relation.
    - Commands: transaction/commands, every command with its driver [RunCommand].
    - TxnSpec, TxnInv, TxnProps: the accessors [lock_of], [rec_of], [val_of], the
      protocol invariant [store_inv], and what the commands promise.
    - Concurrent: commands of many threads interleaving over one store.
    - Server: server/server.go, the transactional and the raw handlers.

    Replication (src/tinykv/raft, src/tinykv/kv/raftstore):
    - RaftPb, RaftStorage: proto/eraftpb.proto, raft/storage.go.
    - RaftLog, RaftLogSpec, RaftLogType: raft/log.go, read through [entry_at] and
      [term_at], and its operations as one typed step function.
    - Raft: raft/raft.go and util.go, every message handler; RawNode:
      raft/rawnode.go; RaftProps: properties of one peer.
    - Election, Cluster: votes of a group under an asynchronous network with
      crashes, when only the hard states are saved.
    - RaftLogSteps: how the storage under a log may change while raft runs, which
      RaftGroup uses.
    - RaftTree: the tree of log positions of a group and its history of votes,
      leaders and acknowledgements; RaftSafety, RaftSteps: every step of a peer
      keeps the peer consistent with the history; RaftGroup: the group with its
      disks and the safety theorems; RaftRun: a concrete run.
    - Engine, RaftMeta, PeerStorage: util/engine_util over the badger database,
      raftstore/meta, raftstore/peer_storage.go; PeerStorageSpec: the stored log
      they implement; WireFormat: a serialization that meets what they ask of
      protocol buffers.
    - EngineCF: the column families, range deletion and iterators of
      util/engine_util; EngineStorage: storage/standalone_storage and
      storage/raft_storage/region_reader.go.
    - RaftCmd: proto/raft_cmdpb.proto, raftstore/util, raftstore/cmd_resp.go, the
      commands a region executes with their checks, errors and responses.
    - Applier: raftstore/applier.go and the apply worker of
      raftstore/raft_worker.go, with callbacks as cells of a heap.  ApplierSpec:
      what one entry does to the state of a region ([rstate]) and that the applier
      does that; ApplierWorker: the same for the worker with its batches and the
      regions of a store; ApplierProps: callbacks, splits, epochs, truncation.
    - Bootstrap: raftstore/bootstrap.go; WireCmd: a serialization for the
      commands.
    - Peer: raftstore/peer.go and ticker.go, a peer with its raft node, its storage
      and what it sends.  PeerLog: when engines hold the log of a raft node
      ([stores]); PeerSave: that SaveReadyState keeps that; PeerWorkers:
      runner/raftlog_gc.go and the snapshots of runner/region_task.go; PeerReady:
      HandleRaftReady; PeerStart: NewPeer on fresh and on used engines; PeerGroup:
      the peers of a region as a step relation and its refinement of RaftGroup;
      PeerRun: a concrete run.
    - Replicas, ReplicasRun: the raft group and the apply workers of its stores
      together, and concrete runs.

    Keys and values of the SQL layer (src/tinysql):
    - SqlNumber, SqlBytes, SqlCodec: util/codec; SqlKey: kv/key.go; TableCodec:
      tablecodec/tablecodec.go and the index keys of table/tables/index.go.

    The scheduler (src/tinykv/scheduler):
    - BTree: pkg/btree/btree.go, the tree with item counts; BTreeSpec, BTreeQuery:
      insertion, deletion and the walks on a balanced tree; BTreeRefine: the tree
      as a sorted sequence.
    - RegionTree: server/core/region.go and region_tree.go, the regions of the
      cluster by id, by key range and by store; RegionTreeSpec, RegionsSpec: its
      parts; RegionsRefine: the cache as a list of disjoint regions.
    - Tso: server/tso/tso.go, server/id/id.go and the leader key of
      server/member/leader.go over etcd; TsoSystem: the servers of a cluster with
      the leader loop of server/server.go; TsoSpec, TsoInv: the lemmas and the
      invariant of the timestamps; TsoProps: timestamps and ids.

    *** What the theorems show

    - Raft: two peers never disagree about a committed or an applied entry
      ([state_machine_safety]); logs that agree at an index agree below it
      ([log_matching]); a leader has all that was committed
      ([leader_completes]); at most one leader per term ([election_safety]).
      They hold for every interleaving of ticks, proposals, deliveries in any
      order and number, saves, crashes and restarts, and although a leader sends
      its messages before it saves what they announce (raftstore/peer.go).
    - One peer: what a follower answers, what a leader commits, what [Ready]
      hands out, when an election starts, where the code panics.
    - The peer storage refines an abstract log that survives restarts.
    - The peers of a region, over their engines, implement the raft group with its
      disks ([peers_refine]), so its safety is theirs ([peers_safe]);
      HandleRaftReady returns and what it acknowledges is durable
      ([ready_durable]); the workers beside it do not disturb them
      ([workers_serve]).
    - The raft store: the apply worker of a store leaves each region as its
      committed entries make it, one by one, however they come in batches
      ([apply_worker_refines]); with state machine safety, two replicas that
      applied up to the same index hold the same region and the same data
      ([replicas_agree]).  Every callback is called once; a split divides the key
      range; a command of another epoch has no effect; bootstrapping yields a
      region the worker can start on.
    - Storages: the standalone engine satisfies the laws the transactions rely on,
      and the reader of a region sees that region only.
    - Transactions: a prewrite and commit take effect atomically at the commit
      timestamp, snapshot reads are stable, decided transactions stay decided,
      each command answers as the API documents; the invariant holds in every
      interleaving of commands under latches; latches exclude and make progress.
    - Encodings: round trips in both directions, order preservation, exact
      acceptance, termination, and the inputs on which a decoder fails.
    - The scheduler: the B-tree behaves as a sorted sequence and stays balanced; the
      region cache behaves as a list of disjoint regions under any sequence of
      heartbeats; timestamps and ids are never given twice, and a later leader's
      timestamps are later, whatever fails.
    - Some theorems state defects of the code, each named as such.

    *** Bounds and fuel

    The loops of the code that are not structural are given fuel: a scan of the
    store one step per remaining key, a decoder one step per remaining byte; the
    theorems prove the loops return, with the fuel their callers pass.  The raft
    theorems assume that terms stay below 2^64 - 1 and indices below 2^63 - 1, and
    that the group's members do not change.  The timestamp theorems assume clocks
    and saved times between 1970 and 2043, ids below 2^64, and that a request to
    etcd that failed was applied before it returned or never.

    *** Interfaces to other code

    Code outside the repository is a class with laws and an instance that
    satisfies them: the badger database ([Badger]), protocol buffers ([Proto]),
    the values badger returns ([ItemValues]), the messages of the applier
    ([ApplyMessages]) and of the log ([EntryMessages]), the random numbers and map orders of Go ([GoEnv]), etcd ([Etcd]), the
    marshalling of configuration changes (an argument).

    *** Not modelled

    The raft store's message loops (peer_msg_handler.go, store_worker.go) and
    snapshot files, the coprocessor, the scheduler's stores,
    placement and HTTP interface, and of the SQL layer the parser,
    planner, executor, schema changes, transaction client and server: they are file
    and network I/O, generated code, or evaluation over the types of other packages.
    Configuration changes are modelled in a peer and in the applier but not in the
    group. *)

From Stdlib Require Export ZArith Lia.
From Stdlib Require Export Strings.Byte.
From stdpp Require Export base list gmap strings sorting.
From stdpp Require Export ssreflect.

#[export] Set Warnings "-rewrite-rw,-clear-no-such-hyp,-notation-for-abbreviation".
#[export] Set Default Goal Selector "!".
#[global] Open Scope Z_scope.
#[global] Arguments Z.compare : simpl never.
#[global] Arguments Z.pow : simpl never.
#[global] Arguments Z.modulo : simpl never.

(** ** Go control flow *)

(** The outcome of running a Go function: it returns normally, it returns a
    non-nil [error] of type [E], the goroutine dies ([panic], [log.Fatal], an
    out-of-range index or a nil dereference), or a loop is still running when
    the model's fuel is used up.  Termination theorems exclude the last case. *)
Inductive outcome (E A : Type) : Type :=
| Ok (a : A)
| Err (e : E)
| Panic (why : string)
| OutOfFuel.
Arguments Ok {E A} a.
Arguments Err {E A} e.
Arguments Panic {E A} why.
Arguments OutOfFuel {E A}.

(** Sequencing: an error is returned to the caller at once, as
    [if err != nil { return err }] does; a panic unwinds. *)
#[export] Instance outcome_bind E : MBind (outcome E) := λ A B f c,
  match c with Ok a => f a | Err e => Err e | Panic w => Panic w | OutOfFuel => OutOfFuel end.
#[export] Instance outcome_ret E : MRet (outcome E) := λ A, Ok.
#[export] Instance outcome_fmap E : FMap (outcome E) := λ A B f c,
  match c with Ok a => Ok (f a) | Err e => Err e | Panic w => Panic w | OutOfFuel => OutOfFuel end.

Definition is_ok {E A} (c : outcome E A) : bool :=
  match c with Ok _ => true | _ => false end.

(** The function returns to its caller, with a result or with an error. *)
Definition returns {E A} (c : outcome E A) : Prop :=
  match c with Ok _ | Err _ => True | _ => False end.

Lemma bind_Ok {E A B} (c : outcome E A) (f : A → outcome E B) b :
  (c ≫= f) = Ok b ↔ ∃ a, c = Ok a ∧ f a = Ok b.
Proof. destruct c; cbn; naive_solver. Qed.

Lemma bind_Err {E A B} (c : outcome E A) (f : A → outcome E B) e :
  (c ≫= f) = Err e ↔ c = Err e ∨ ∃ a, c = Ok a ∧ f a = Err e.
Proof. destruct c; cbn; naive_solver. Qed.

(** [inv_ok] takes apart the hypotheses that say a function returned normally:
    every call before the end returned normally, and no early exit was taken. *)
Ltac inv_ok_step :=
  match goal with
  | H : Ok _ = Ok _ |- _ => injection H; clear H; intros; subst
  | H : Err _ = Ok _ |- _ => discriminate H
  | H : Panic _ = Ok _ |- _ => discriminate H
  | H : OutOfFuel = Ok _ |- _ => discriminate H
  | H : mbind _ _ = Ok _ |- _ => apply bind_Ok in H; destruct H as (? & ? & ?)
  | H : (if decide ?P then _ else _) = Ok _ |- _ => destruct (decide P)
  | H : match ?x with _ => _ end = Ok _ |- _ => destruct x eqn:?
  end.
Ltac inv_ok := repeat inv_ok_step.

(** Index and slice expressions of Go on a list, with their run-time checks. *)
Definition go_index {E A} (l : list A) (i : Z) : outcome E A :=
  if decide (0 ≤ i) then
    match l !! Z.to_nat i with
    | Some x => Ok x
    | None => Panic "index out of range"
    end
  else Panic "index out of range".

(** [l[lo:hi]] *)
Definition go_slice {E A} (l : list A) (lo hi : Z) : outcome E (list A) :=
  if decide (0 ≤ lo ∧ lo ≤ hi ∧ hi ≤ Z.of_nat (length l)) then
    Ok (take (Z.to_nat (hi - lo)) (drop (Z.to_nat lo) l))
  else Panic "slice bounds out of range".

Definition zlen {A} (l : list A) : Z := Z.of_nat (length l).

Lemma zlen_nonneg {A} (l : list A) : 0 ≤ zlen l.
Proof. unfold zlen. lia. Qed.
Lemma zlen_cons {A} (x : A) l : zlen (x :: l) = 1 + zlen l.
Proof. unfold zlen. cbn [length]. lia. Qed.
Lemma zlen_app {A} (l k : list A) : zlen (l ++ k) = zlen l + zlen k.
Proof. unfold zlen. rewrite length_app. lia. Qed.

Lemma go_slice_ok {E A} (l : list A) lo hi :
  0 ≤ lo → lo ≤ hi → hi ≤ zlen l →
  go_slice (E:=E) l lo hi = Ok (take (Z.to_nat (hi - lo)) (drop (Z.to_nat lo) l)).
Proof. intros. unfold go_slice. by case_decide; [|unfold zlen in *; lia]. Qed.

(** A slice expression that returned was in range. *)
Lemma go_slice_inv {E A} (l : list A) lo hi r :
  go_slice (E:=E) l lo hi = Ok r → 0 ≤ lo ≤ hi ∧ hi ≤ zlen l ∧ r = take (Z.to_nat (hi - lo)) (drop (Z.to_nat lo) l).
Proof. unfold go_slice. case_decide; intros [= <-]. unfold zlen. split_and!; [lia..|done]. Qed.

(** [l[n:]] *)
Lemma go_slice_drop {E A} (l : list A) n :
  0 ≤ n ≤ zlen l → go_slice (E:=E) l n (zlen l) = Ok (drop (Z.to_nat n) l).
Proof.
  intros Hn. rewrite go_slice_ok; [|lia..]. rewrite take_ge //. unfold zlen in *. rewrite length_drop. lia.
Qed.
Lemma go_slice_rest {E A} (a rest : list A) :
  go_slice (E:=E) (a ++ rest) (zlen a) (zlen (a ++ rest)) = Ok rest.
Proof.
  rewrite go_slice_drop; [|rewrite zlen_app; pose proof (zlen_nonneg a); pose proof (zlen_nonneg rest); lia].
  by rewrite /zlen Nat2Z.id drop_app_length.
Qed.
Lemma go_slice_tail {E A} (l : list A) n r :
  go_slice (E:=E) l n (zlen l) = Ok r → ∃ p, l = p ++ r ∧ zlen p = n.
Proof.
  intros (Hn & _ & ->)%go_slice_inv. exists (take (Z.to_nat n) l). unfold zlen in *.
  rewrite (take_ge (drop _ l)); [|rewrite length_drop; lia]. rewrite take_drop length_take. split; [done|lia].
Qed.
(** [l[:n]] *)
Lemma go_slice_first {E A} (a rest : list A) : go_slice (E:=E) (a ++ rest) 0 (zlen a) = Ok a.
Proof.
  rewrite go_slice_ok; [|rewrite ?zlen_app; pose proof (zlen_nonneg a); pose proof (zlen_nonneg rest); lia..].
  by rewrite Z.sub_0_r /zlen Nat2Z.id drop_0 take_app_length.
Qed.
Lemma go_slice_1 {E A} (c : A) k : go_slice (E:=E) (c :: k) 1 (zlen (c :: k)) = Ok k.
Proof. rewrite go_slice_drop //. rewrite zlen_cons. pose proof (zlen_nonneg k). lia. Qed.
Lemma go_slice_2 {E A} (c d : A) k : go_slice (E:=E) (c :: d :: k) 2 (zlen (c :: d :: k)) = Ok k.
Proof. rewrite go_slice_drop //. rewrite !zlen_cons. pose proof (zlen_nonneg k). lia. Qed.

Lemma go_index_ok {E A} (l : list A) i x :
  0 ≤ i → l !! Z.to_nat i = Some x → go_index (E:=E) l i = Ok x.
Proof. intros ? E1. unfold go_index. case_decide; [|done]. by rewrite E1. Qed.

(** ** Returning *)

(** That a computation returns ([OutOfFuel] is excluded) is proved by going
    through its steps; the database [returns] holds what is known of the callees. *)
Create HintDb returns discriminated.

Lemma go_slice_returns {E A} (l : list A) lo hi : go_slice (E:=E) l lo hi ≠ OutOfFuel.
Proof. unfold go_slice. by case_decide. Qed.
Lemma go_index_returns {E A} (l : list A) i : go_index (E:=E) l i ≠ OutOfFuel.
Proof. unfold go_index. case_decide; [|done]. by destruct (l !! _). Qed.
Lemma bind_returns {E A B} (c : outcome E A) (k : A → outcome E B) :
  c ≠ OutOfFuel → (∀ x, k x ≠ OutOfFuel) → c ≫= k ≠ OutOfFuel.
Proof. destruct c; naive_solver. Qed.
#[export] Hint Resolve go_slice_returns go_index_returns : returns.

Ltac solve_returns :=
  repeat first
    [ done | solve [eauto with returns]
    | apply bind_returns; [|let x := fresh in intros x; try destruct x]
    | case_decide | case_match ].

(** ** Machine integers *)

Definition two64 : Z := 2 ^ 64.
Definition max64 : Z := two64 - 1.
(** Reduction of a mathematical integer to [uint64]. *)
Definition u64 (z : Z) : Z := z mod two64.
Definition is_u64 (z : Z) : Prop := 0 ≤ z < two64.
#[export] Instance is_u64_dec z : Decision (is_u64 z).
Proof. unfold is_u64. apply _. Defined.

Lemma u64_small z : is_u64 z → u64 z = z.
Proof. intros [? ?]. by apply Z.mod_small. Qed.
Lemma u64_range z : is_u64 (u64 z).
Proof. by apply Z.mod_pos_bound. Qed.

(** Conversion of a [uint64] to [int]. *)
Definition i64 (z : Z) : Z := if decide (u64 z < 2 ^ 63) then u64 z else u64 z - two64.

Lemma i64_small z : 0 ≤ z < 2 ^ 63 → i64 z = z.
Proof.
  intros ?. unfold i64. rewrite u64_small; [|split; unfold two64; lia]. case_decide; lia.
Qed.

(** ** Bytes *)

Notation bytes := (list byte).

Definition b2z (b : byte) : Z := Z.of_N (Byte.to_N b).
(** Conversion [byte(z)]: truncation modulo 256. *)
Definition z2b (z : Z) : byte :=
  default x00 (Byte.of_N (Z.to_N (z mod 256))).

Lemma b2z_range b : 0 ≤ b2z b < 256.
Proof.
  unfold b2z. pose proof (Byte.to_N_bounded b) as H. lia.
Qed.

Lemma b2z_z2b z : b2z (z2b z) = z mod 256.
Proof.
  unfold b2z, z2b. pose proof (Z.mod_pos_bound z 256 ltac:(lia)) as Hz.
  destruct (Byte.of_N (Z.to_N (z mod 256))) as [b|] eqn:E; cbn.
  - apply Byte.to_of_N in E. rewrite E. lia.
  - apply Byte.of_N_None_iff in E. lia.
Qed.

#[export] Instance b2z_inj : Inj (=) (=) b2z.
Proof.
  intros x y H. unfold b2z in H. apply N2Z.inj in H.
  pose proof (Byte.of_to_N x) as Hx. rewrite H (Byte.of_to_N y) in Hx. congruence.
Qed.

Lemma z2b_b2z b : z2b (b2z b) = b.
Proof.
  apply (inj b2z). rewrite b2z_z2b. apply Z.mod_small, b2z_range.
Qed.

#[export] Instance byte_eq_dec : EqDecision byte.
Proof.
  intros x y. destruct (decide (b2z x = b2z y)) as [H|H].
  - left. by apply (inj b2z).
  - right. congruence.
Defined.

#[export] Instance byte_countable : Countable byte.
Proof. apply (inj_countable' b2z z2b), z2b_b2z. Defined.

(** [bytes.Compare]: lexicographic on unsigned bytes. *)
Fixpoint Compare (a b : bytes) : comparison :=
  match a, b with
  | [], [] => Eq
  | [], _ :: _ => Lt
  | _ :: _, [] => Gt
  | x :: a', y :: b' =>
    match b2z x ?= b2z y with
    | Eq => Compare a' b'
    | c => c
    end
  end.

Definition blt (a b : bytes) : Prop := Compare a b = Lt.
Definition ble (a b : bytes) : Prop := Compare a b ≠ Gt.
Definition bltb (a b : bytes) : bool := match Compare a b with Lt => true | _ => false end.
Definition bleb (a b : bytes) : bool := match Compare a b with Gt => false | _ => true end.
#[export] Instance blt_dec : RelDecision blt.
Proof. intros a b. unfold blt. apply _. Defined.
#[export] Instance ble_dec : RelDecision ble.
Proof. intros a b. unfold ble. apply _. Defined.

Lemma bltb_spec a b : bltb a b = true ↔ blt a b.
Proof. unfold bltb, blt. destruct (Compare a b); naive_solver. Qed.
Lemma bleb_spec a b : bleb a b = true ↔ ble a b.
Proof. unfold bleb, ble. destruct (Compare a b); naive_solver. Qed.

Lemma Compare_refl a : Compare a a = Eq.
Proof. induction a as [|x a IH]; cbn; [done|]. by rewrite Z.compare_refl. Qed.

Lemma Compare_eq a b : Compare a b = Eq ↔ a = b.
Proof.
  split; [|intros ->; apply Compare_refl].
  revert b. induction a as [|x a IH]; intros [|y b]; cbn; try done.
  destruct (Z.compare_spec (b2z x) (b2z y)) as [E| |]; try done.
  intros H. apply (inj b2z) in E. subst. f_equal. auto.
Qed.

Lemma Compare_antisym a b : Compare b a = CompOpp (Compare a b).
Proof.
  revert b. induction a as [|x a IH]; intros [|y b]; cbn; try done.
  rewrite (Z.compare_antisym (b2z x)). destruct (b2z x ?= b2z y); cbn; auto.
Qed.

Lemma blt_trans a b c : blt a b → blt b c → blt a c.
Proof.
  unfold blt. revert b c.
  induction a as [|x a IH]; intros [|y b] [|z c]; cbn; try done.
  destruct (Z.compare_spec (b2z x) (b2z y)), (Z.compare_spec (b2z y) (b2z z)),
    (Z.compare_spec (b2z x) (b2z z)); try done; try lia. eauto.
Qed.

Lemma blt_irrefl a : ¬ blt a a.
Proof. unfold blt. by rewrite Compare_refl. Qed.

Lemma blt_not_ble a b : blt a b ↔ ¬ ble b a.
Proof.
  unfold blt, ble. rewrite (Compare_antisym a b). destruct (Compare a b); cbn; naive_solver.
Qed.
Lemma ble_not_blt a b : ble a b ↔ ¬ blt b a.
Proof.
  unfold blt, ble. rewrite (Compare_antisym a b). destruct (Compare a b); cbn; naive_solver.
Qed.
Lemma ble_lteq a b : ble a b ↔ blt a b ∨ a = b.
Proof. unfold ble, blt. rewrite <-Compare_eq. destruct (Compare a b); naive_solver. Qed.
Lemma ble_refl a : ble a a.
Proof. apply ble_lteq. by right. Qed.
Lemma ble_blt_trans a b c : ble a b → blt b c → blt a c.
Proof. intros [?| ->]%ble_lteq ?; eauto using blt_trans. Qed.
Lemma blt_ble_trans a b c : blt a b → ble b c → blt a c.
Proof. intros ? [?|<-]%ble_lteq; eauto using blt_trans. Qed.
Lemma blt_ble a b : blt a b → ble a b.
Proof. intros. apply ble_lteq. by left. Qed.
Lemma ble_trans a b c : ble a b → ble b c → ble a c.
Proof. intros [?| ->]%ble_lteq ?; eauto using blt_ble, blt_ble_trans. Qed.
Lemma blt_ne a b : blt a b → a ≠ b.
Proof. intros H ->. by apply blt_irrefl in H. Qed.

(** Strict lexicographic comparison is decided by the first block in which
    two strings differ. *)
Lemma Compare_app a b x y :
  length a = length b →
  Compare (a ++ x) (b ++ y) = match Compare a b with Eq => Compare x y | c => c end.
Proof.
  revert b. induction a as [|p a IH]; intros [|q b] Hl; simplify_eq/=; [done|].
  destruct (b2z p ?= b2z q); auto.
Qed.

Lemma Compare_app_same a x y : Compare (a ++ x) (a ++ y) = Compare x y.
Proof. by rewrite Compare_app // Compare_refl. Qed.

Lemma Compare_nil_l a : Compare [] a ≠ Gt.
Proof. by destruct a. Qed.

(** ** Big-endian integers ([encoding/binary]) *)

(** [binary.BigEndian.PutUint64] and its narrower versions: [n] bytes, the
    most significant first; byte [i] from the end is [byte(v >> (8*i))]. *)
Fixpoint put_be (n : nat) (v : Z) : bytes :=
  match n with
  | O => []
  | S n' => z2b (Z.shiftr v (8 * Z.of_nat n')) :: put_be n' v
  end.

(** [b[7] | b[6]<<8 | ...] as a left fold. *)
Definition get_be (b : bytes) : Z :=
  fold_left (λ acc x, Z.lor (Z.shiftl acc 8) (b2z x)) b 0.

Definition PutUint64 (v : Z) : bytes := put_be 8 v.
(** [binary.BigEndian.Uint64(b)] reads the first eight bytes and panics on a
    shorter slice. *)
Definition Uint64 {E} (b : bytes) : outcome E Z :=
  if decide (8 ≤ length b)%nat then Ok (get_be (take 8 b))
  else Panic "index out of range".

Lemma length_put_be n v : length (put_be n v) = n.
Proof. induction n; cbn; auto. Qed.

Lemma land_shiftl_8 a b : 0 ≤ b < 256 → Z.land (Z.shiftl a 8) b = 0.
Proof.
  intros Hb. apply Z.bits_inj'. intros i Hi. rewrite Z.land_spec Z.bits_0.
  destruct (decide (i < 8)).
  - by rewrite Z.shiftl_spec_low.
  - rewrite -(Z.mod_small b (2 ^ 8)) //.
    rewrite Z.mod_pow2_bits_high ?andb_false_r //; lia.
Qed.

Lemma lor_shiftl_8 a b : 0 ≤ b < 256 → Z.lor (Z.shiftl a 8) b = a * 256 + b.
Proof.
  intros Hb. rewrite -Z.lxor_lor ?land_shiftl_8 // -Z.add_nocarry_lxor ?land_shiftl_8 //.
  by rewrite Z.shiftl_mul_pow2.
Qed.

Lemma get_be_snoc b x : get_be (b ++ [x]) = get_be b * 256 + b2z x.
Proof. unfold get_be. rewrite fold_left_app /=. apply lor_shiftl_8, b2z_range. Qed.

Lemma get_be_app a b : get_be (a ++ b) = get_be a * 256 ^ zlen b + get_be b.
Proof.
  unfold zlen. induction b as [|x b IH] using rev_ind.
  - rewrite app_nil_r /= /get_be /=. lia.
  - rewrite assoc !get_be_snoc IH length_app /=.
    rewrite Nat2Z.inj_add Z.pow_add_r; [|lia..]. lia.
Qed.

Lemma get_be_nonneg b : 0 ≤ get_be b.
Proof.
  induction b as [|x b IH] using rev_ind; [done|].
  rewrite get_be_snoc. pose proof (b2z_range x). lia.
Qed.

Lemma get_be_bound b : 0 ≤ get_be b < 256 ^ zlen b.
Proof.
  split; [apply get_be_nonneg|]. unfold zlen.
  induction b as [|x b IH] using rev_ind; [done|].
  rewrite get_be_snoc length_app Nat2Z.inj_add Z.pow_add_r; [|lia..].
  pose proof (b2z_range x). cbn. lia.
Qed.

Lemma get_be_cons x b : get_be (x :: b) = b2z x * 256 ^ zlen b + get_be b.
Proof. by rewrite -[x :: b]/([x] ++ b) get_be_app. Qed.

Lemma put_be_step v n : 0 ≤ n → Z.shiftr v (8 * n) = v / 256 ^ n.
Proof. intros. rewrite Z.shiftr_div_pow2; [|lia]. by rewrite Z.pow_mul_r; [|lia..]. Qed.

Lemma get_put_be n v : get_be (put_be n v) = v mod 256 ^ Z.of_nat n.
Proof.
  induction n as [|n IH]; [by rewrite Z.mod_1_r|].
  cbn [put_be]. rewrite get_be_cons IH b2z_z2b put_be_step; [|lia].
  unfold zlen. rewrite length_put_be Nat2Z.inj_succ Z.pow_succ_r; [|lia].
  rewrite (Z.mul_comm 256) Z.rem_mul_r; [|lia..]. lia.
Qed.

(** Two strings of the same length that denote the same number are equal, so
    [put_be] is determined by its value. *)
Lemma get_be_inj a b : length a = length b → get_be a = get_be b → a = b.
Proof.
  revert b. induction a as [|x a IH]; intros [|y b] Hl; simplify_eq/=; [done|].
  rewrite !get_be_cons. unfold zlen. rewrite Hl. intros Hg.
  pose proof (get_be_bound a) as Ha. pose proof (get_be_bound b) as Hb.
  unfold zlen in Ha, Hb. rewrite Hl in Ha.
  remember (256 ^ Z.of_nat (length b)) as P eqn:HP.
  assert (b2z x = b2z y) as Hxy by nia.
  rewrite Hxy in Hg. apply (inj b2z) in Hxy. subst. f_equal. apply IH; [done|lia].
Qed.

Lemma put_get_be b : put_be (length b) (get_be b) = b.
Proof.
  apply get_be_inj; [by rewrite length_put_be|].
  rewrite get_put_be. apply Z.mod_small, get_be_bound.
Qed.

(** Big-endian encoding turns numeric order into byte order. *)
Lemma Compare_get_be a b :
  length a = length b → Compare a b = (get_be a ?= get_be b).
Proof.
  revert b. induction a as [|x a IH]; intros [|y b] Hl; simplify_eq/=; [done|].
  rewrite !get_be_cons IH //. unfold zlen. rewrite Hl.
  pose proof (get_be_bound a) as Ha. pose proof (get_be_bound b) as Hb.
  unfold zlen in Ha, Hb. rewrite Hl in Ha.
  remember (256 ^ Z.of_nat (length b)) as P eqn:HP.
  destruct (Z.compare_spec (b2z x) (b2z y)) as [E|E|E].
  - rewrite E. destruct (Z.compare_spec (get_be a) (get_be b)); symmetry;
      [apply Z.compare_eq_iff|apply Z.compare_lt_iff|apply Z.compare_gt_iff]; lia.
  - symmetry. apply Z.compare_lt_iff. nia.
  - symmetry. apply Z.compare_gt_iff. nia.
Qed.

Lemma length_PutUint64 v : length (PutUint64 v) = 8%nat.
Proof. apply length_put_be. Qed.

Lemma Uint64_PutUint64 {E} v rest : is_u64 v → Uint64 (E:=E) (PutUint64 v ++ rest) = Ok v.
Proof.
  intros Hv. unfold Uint64. case_decide as Hd; [|rewrite length_app length_PutUint64 in Hd; lia].
  rewrite take_app_length' ?length_PutUint64 // /PutUint64 get_put_be.
  f_equal. by apply Z.mod_small.
Qed.

Lemma Uint64_returns {E} b : Uint64 (E:=E) b ≠ OutOfFuel.
Proof. unfold Uint64. by case_decide. Qed.
#[export] Hint Resolve Uint64_returns : returns.

Lemma Compare_PutUint64 v w :
  is_u64 v → is_u64 w → Compare (PutUint64 v) (PutUint64 w) = (v ?= w).
Proof.
  intros Hv Hw. rewrite Compare_get_be ?length_PutUint64 // /PutUint64 !get_put_be.
  f_equal; by apply Z.mod_small.
Qed.

(** ** Loops

    [loop p f s] runs the body [f] at most [p] times, stopping at the first
    [inr].  The bound is binary, so a bound of 2^64 rounds costs nothing to
    state and the function still computes. *)
Fixpoint loop {S R} (p : positive) (f : S → S + R) (s : S) : S + R :=
  match p with
  | xH => f s
  | xO p' => match loop p' f s with inl s' => loop p' f s' | inr r => inr r end
  | xI p' =>
    match f s with
    | inl s' => match loop p' f s' with inl s'' => loop p' f s'' | inr r => inr r end
    | inr r => inr r
    end
  end.

(** A Go [for] loop whose body may also fail or panic. *)
Definition go_loop {S E A} (p : positive) (f : S → S + outcome E A) (s : S) : outcome E A :=
  match loop p f s with inl _ => OutOfFuel | inr r => r end.

(** The rule for loops: an invariant kept by every round, and a measure that
    decreases; the loop then ends within its bound, with a result the body
    produced in a state satisfying the invariant. *)
Lemma loop_rule {S R} (I : S → Prop) (m : S → Z) (f : S → S + R) (Q : R → Prop) :
  (∀ s, I s → 0 ≤ m s ∧ match f s with inl s' => I s' ∧ m s' < m s | inr r => Q r end) →
  ∀ p s, I s → match loop p f s with
    | inl s' => I s' ∧ m s' + Z.pos p ≤ m s
    | inr r => Q r
    end.
Proof.
  intros Hf p. induction p as [p IH|p IH|]; intros s HI; cbn.
  - pose proof (Hf s HI) as [_ Hs]. destruct (f s) as [s1|r]; [|done]. destruct Hs as [H1 ?].
    specialize (IH s1 H1) as IH1. destruct (loop p f s1) as [s2|r]; [|done]. destruct IH1 as [H2 ?].
    specialize (IH s2 H2). destruct (loop p f s2); [|done]. destruct IH. split; [done|lia].
  - specialize (IH s HI) as IH1. destruct (loop p f s) as [s2|r]; [|done]. destruct IH1 as [H2 ?].
    specialize (IH s2 H2). destruct (loop p f s2); [|done]. destruct IH. split; [done|lia].
  - pose proof (Hf s HI) as [_ Hs]. destruct (f s); [|done]. destruct Hs. split; [done|lia].
Qed.

Lemma go_loop_rule {S E A} (I : S → Prop) (m : S → Z) (f : S → S + outcome E A)
    (Q : outcome E A → Prop) p s :
  (∀ s, I s → 0 ≤ m s ∧ match f s with inl s' => I s' ∧ m s' < m s | inr r => Q r end) →
  I s → m s < Z.pos p → Q (go_loop p f s).
Proof.
  intros Hf HI Hm. unfold go_loop. pose proof (loop_rule I m f Q Hf p s HI) as Hl.
  destruct (loop p f s) as [s'|r]; [|done]. destruct Hl as [HI' ?].
  destruct (Hf s' HI'). lia.
Qed.

(** ** Majorities *)

Lemma majorities_meet (M Q1 Q2 : gset Z) :
  Q1 ⊆ M → Q2 ⊆ M → (size M < 2 * size Q1)%nat → (size M < 2 * size Q2)%nat → ∃ v, v ∈ Q1 ∧ v ∈ Q2.
Proof.
  intros H1 H2 S1 S2. destruct (decide (Q1 ∩ Q2 = ∅)) as [E|E].
  - assert (Hs : size (Q1 ∪ Q2) = (size Q1 + size Q2)%nat) by (apply size_union; set_solver).
    assert (Hle : (size (Q1 ∪ Q2) ≤ size M)%nat) by (apply subseteq_size; set_solver). lia.
  - apply set_choose_L in E as [v Hv]. exists v. set_solver.
Qed.
