(* ===== verification/Codec.v ===== *)
(** Memory-comparable byte strings: kv/util/codec/codec.go.

    [EncodeBytes] and [DecodeBytes] are the two loops of the file.  The
    reference encoder [enc] describes the format group by group; the theorems
    show that the loop computes it, that decoding inverts encoding in both
    directions, and that the encoding preserves byte order even when further
    bytes (a timestamp) follow. *)

From S2P Require Import Prelude.

Definition encGroupSize : Z := 8.
Definition encMarker : byte := xff.
Definition encPad : byte := x00.
Definition pads : bytes := replicate 8 encPad.

Inductive codec_error :=
| InsufficientBytes (n : Z)
| InvalidMarker (group : bytes)
| InvalidPadding (group : bytes).

(** The loop of [EncodeBytes] at [idx]; it runs [dLen/8 + 1] times. *)
Fixpoint EncodeBytes_loop (fuel : nat) (data : bytes) (idx : Z) (result : bytes) : bytes :=
  match fuel with
  | O => result
  | S fuel' =>
    let dLen := zlen data in
    if decide (idx ≤ dLen) then
      let remain := dLen - idx in
      let '(padCount, result) :=
        if decide (encGroupSize ≤ remain) then
          (0, result ++ take 8 (drop (Z.to_nat idx) data))
        else
          let padCount := encGroupSize - remain in
          (padCount, (result ++ drop (Z.to_nat idx) data) ++ take (Z.to_nat padCount) pads) in
      let marker := z2b (b2z encMarker - padCount) in
      EncodeBytes_loop fuel' data (idx + encGroupSize) (result ++ [marker])
    else result
  end.

Definition EncodeBytes (data : bytes) : bytes :=
  EncodeBytes_loop (length data / 8 + 2) data 0 [].

(** The loop of [DecodeBytes]; every round consumes nine bytes. *)
Fixpoint DecodeBytes_loop (fuel : nat) (b data : bytes) : outcome codec_error (bytes * bytes) :=
  match fuel with
  | O => OutOfFuel
  | S fuel' =>
    if decide (zlen b < encGroupSize + 1) then Err (InsufficientBytes (zlen b))
    else
      let groupBytes := take 9 b in
      let group := take 8 groupBytes in
      marker ← go_index groupBytes encGroupSize;
      let padCount := (b2z encMarker - b2z marker) mod 256 in
      if decide (encGroupSize < padCount) then Err (InvalidMarker groupBytes)
      else
        let realGroupSize := encGroupSize - padCount in
        let data := data ++ take (Z.to_nat realGroupSize) group in
        let b := drop 9 b in
        if decide (padCount = 0) then DecodeBytes_loop fuel' b data
        else if forallb (λ v, bool_decide (v = encPad)) (drop (Z.to_nat realGroupSize) group)
        then Ok (b, data)
        else Err (InvalidPadding groupBytes)
  end.

Definition DecodeBytes (b : bytes) : outcome codec_error (bytes * bytes) :=
  DecodeBytes_loop (S (length b)) b [].

(** ** Reference encoder *)

Definition enc_last (d : bytes) : bytes :=
  d ++ replicate (8 - length d) x00 ++ [z2b (247 + zlen d)].

Fixpoint enc (d : bytes) : bytes :=
  match d with
  | a0 :: a1 :: a2 :: a3 :: a4 :: a5 :: a6 :: a7 :: rest =>
    [a0; a1; a2; a3; a4; a5; a6; a7; xff] ++ enc rest
  | _ => enc_last d
  end.

(** Induction by groups of eight bytes. *)
Lemma group_ind (P : bytes → Prop) :
  (∀ d, (length d < 8)%nat → P d) →
  (∀ g r, length g = 8%nat → P r → P (g ++ r)) →
  ∀ d, P d.
Proof.
  intros Hs Hl d. remember (length d) as n eqn:Hn. revert d Hn.
  induction n as [n IH] using lt_wf_ind. intros d ->.
  destruct (decide (length d < 8)%nat); [auto|].
  rewrite -(take_drop 8 d). apply Hl; [rewrite length_take; lia|].
  eapply IH; [|done]. rewrite length_drop. lia.
Qed.

Lemma enc_short d : (length d < 8)%nat → enc d = enc_last d.
Proof. intros H. do 8 (destruct d as [|? d]; [done|]). cbn in H. lia. Qed.

Lemma enc_group g r : length g = 8%nat → enc (g ++ r) = g ++ xff :: enc r.
Proof.
  intros H. do 8 (destruct g as [|? g]; [done|]). destruct g; [done|]. cbn in H. lia.
Qed.

Lemma length_enc_last d : (length d < 8)%nat → length (enc_last d) = 9%nat.
Proof. intros. unfold enc_last. rewrite !length_app length_replicate /=. lia. Qed.

Lemma b2z_marker (d : bytes) : (length d ≤ 8)%nat → b2z (z2b (247 + zlen d)) = 247 + zlen d.
Proof. intros. unfold zlen. rewrite b2z_z2b Z.mod_small //. lia. Qed.

(** ** The loops compute the reference *)

Lemma EncodeBytes_loop_spec fuel data idx res :
  (length data - idx < 8 * fuel)%nat → (idx ≤ length data)%nat →
  EncodeBytes_loop (S fuel) data (Z.of_nat idx) res = res ++ enc (drop idx data).
Proof.
  revert idx res. induction fuel as [|fuel IH]; intros idx res Hf Hi; [lia|].
  remember (S fuel) as fuel' eqn:Hfuel. cbn [EncodeBytes_loop].
  unfold encGroupSize, zlen in *. case_decide; [|lia]. rewrite Nat2Z.id.
  case_decide as Hr.
  - replace (Z.of_nat idx + 8) with (Z.of_nat (idx + 8)) by lia.
    rewrite IH; [|lia..].
    rewrite -{2}(take_drop 8 (drop idx data)) enc_group; [|rewrite length_take length_drop; lia].
    by rewrite drop_drop -!assoc.
  - rewrite Hfuel. cbn [EncodeBytes_loop]. case_decide as Hx; [unfold zlen in Hx; lia|].
    rewrite enc_short; [|rewrite length_drop; lia].
    unfold enc_last, pads, zlen. rewrite length_drop -!assoc take_replicate. do 4 f_equal; [lia|].
    do 2 f_equal. change (b2z encMarker) with 255. lia.
Qed.

Theorem EncodeBytes_enc data : EncodeBytes data = enc data.
Proof.
  unfold EncodeBytes. pose proof (Nat.div_mod_eq (length data) 8) as Hd.
  pose proof (Nat.mod_upper_bound (length data) 8 ltac:(lia)).
  replace (length data / 8 + 2)%nat with (S (S (length data / 8))) by lia.
  rewrite (EncodeBytes_loop_spec _ _ 0); [|lia..]. done.
Qed.

Lemma DecodeBytes_step fuel g m rest data :
  length g = 8%nat →
  DecodeBytes_loop (S fuel) (g ++ m :: rest) data =
    let padCount := 255 - b2z m in
    if decide (8 < padCount) then Err (InvalidMarker (g ++ [m]))
    else
      let n := Z.to_nat (8 - padCount) in
      if decide (padCount = 0) then DecodeBytes_loop fuel rest (data ++ take n g)
      else if forallb (λ v, bool_decide (v = encPad)) (drop n g)
      then Ok (rest, data ++ take n g) else Err (InvalidPadding (g ++ [m])).
Proof.
  intros Hg. cbn [DecodeBytes_loop]. unfold zlen, encGroupSize.
  case_decide as Hd; [rewrite length_app /= in Hd; lia|].
  assert (take 9 (g ++ m :: rest) = g ++ [m]) as ->.
  { by rewrite take_app_ge ?Hg //; lia. }
  assert (drop 9 (g ++ m :: rest) = rest) as ->.
  { by rewrite drop_app_ge ?Hg //; lia. }
  assert (take 8 (g ++ [m]) = g) as -> by (by rewrite take_app_length').
  assert (go_index (E:=codec_error) (g ++ [m]) 8 = Ok m) as ->.
  { unfold go_index. case_decide; [|lia]. by rewrite lookup_app_r ?Hg. }
  cbn. change (b2z encMarker) with 255.
  pose proof (b2z_range m). by rewrite Z.mod_small; [|lia].
Qed.

(** Every call of [DecodeBytes] returns: the loop consumes its input. *)
Lemma DecodeBytes_loop_returns fuel b acc :
  (length b < fuel)%nat → returns (DecodeBytes_loop fuel b acc).
Proof.
  revert b acc. induction fuel as [|fuel IH]; intros b acc Hf; [lia|].
  destruct (decide (length b < 9)%nat) as [Hb|Hb].
  { cbn. unfold zlen, encGroupSize. case_decide; [done|lia]. }
  destruct (drop 8 b) as [|m r] eqn:Hdrop.
  { apply (f_equal length) in Hdrop. rewrite length_drop /= in Hdrop. lia. }
  rewrite -(take_drop 8 b) Hdrop DecodeBytes_step; [|rewrite length_take; lia].
  cbn zeta. repeat case_decide; [done| |by destruct (forallb _ _)].
  apply IH. apply (f_equal length) in Hdrop. rewrite length_drop /= in Hdrop. lia.
Qed.

Lemma DecodeBytes_returns b : returns (DecodeBytes b).
Proof. apply DecodeBytes_loop_returns. lia. Qed.

Lemma DecodeBytes_loop_enc d fuel acc rest :
  (length (enc d) < fuel)%nat →
  DecodeBytes_loop fuel (enc d ++ rest) acc = Ok (rest, acc ++ d).
Proof.
  revert fuel acc. induction d as [d Hd|g r Hg IH] using group_ind; intros [|fuel] acc Hf; try lia.
  - rewrite enc_short // in Hf |- *. unfold enc_last. rewrite assoc -app_assoc.
    rewrite DecodeBytes_step; [|rewrite length_app length_replicate; lia].
    rewrite b2z_marker; [|lia]. cbn -[Z.to_nat Z.sub]. unfold zlen.
    case_decide; [lia|]. case_decide; [lia|].
    replace (Z.to_nat _) with (length d) by lia.
    rewrite take_app_length drop_app_length.
    replace (forallb _ _) with true; [done|]. symmetry. apply Is_true_true, forallb_True, Forall_replicate.
    by apply bool_decide_pack.
  - rewrite enc_group // in Hf |- *. rewrite -app_assoc -app_comm_cons DecodeBytes_step //.
    cbn zeta. change (b2z xff) with 255. case_decide; [lia|]. case_decide; [|lia].
    replace (Z.to_nat _) with 8%nat by lia.
    rewrite take_ge ?Hg // IH ?app_assoc //. rewrite length_app /= in Hf. lia.
Qed.

Lemma decode_encode data rest : DecodeBytes (EncodeBytes data ++ rest) = Ok (rest, data).
Proof.
  unfold DecodeBytes. rewrite EncodeBytes_enc DecodeBytes_loop_enc //.
  rewrite length_app. lia.
Qed.

Lemma DecodeBytes_loop_Ok fuel b acc rest d :
  DecodeBytes_loop fuel b acc = Ok (rest, d) →
  ∃ d', d = acc ++ d' ∧ b = enc d' ++ rest.
Proof.
  revert b acc. induction fuel as [|fuel IH]; intros b acc; [done|].
  destruct (decide (length b < 9)%nat) as [Hb|Hb].
  { cbn. unfold zlen, encGroupSize. case_decide; [done|lia]. }
  rewrite -(take_drop 8 b). destruct (drop 8 b) as [|m r] eqn:Hdrop.
  { apply (f_equal length) in Hdrop. rewrite length_drop /= in Hdrop. lia. }
  assert (length (take 8 b) = 8%nat) as Hg by (rewrite length_take; lia).
  generalize dependent (take 8 b). intros g Hg.
  rewrite DecodeBytes_step //. cbn zeta. pose proof (b2z_range m).
  case_decide; [done|]. case_decide as Hp.
  - intros (d' & -> & ->)%IH. exists (g ++ d').
    split; [rewrite take_ge; [by rewrite app_assoc|lia]|].
    rewrite enc_group // -app_assoc /=. f_equal. f_equal.
    apply (inj b2z). change (b2z xff) with 255. lia.
  - destruct (forallb _ _) eqn:Hpad; [|done]. intros [= -> <-].
    remember (Z.to_nat (8 - (255 - b2z m))) as n eqn:Hn.
    exists (take n g). split; [done|].
    rewrite enc_short ?length_take; [|lia]. unfold enc_last, zlen. rewrite length_take -!app_assoc /=.
    rewrite -{1}(take_drop n g) -app_assoc. f_equal.
    assert (drop n g = replicate (8 - n `min` length g) x00) as ->.
    { symmetry. apply replicate_as_Forall. rewrite length_drop. split; [lia|].
      apply Forall_forall. intros v Hv. apply Is_true_true, forallb_True in Hpad.
      rewrite Forall_forall in Hpad. apply Hpad in Hv. by apply bool_decide_unpack in Hv. }
    do 2 f_equal. apply (inj b2z). rewrite b2z_z2b Z.mod_small; lia.
Qed.

(** the format is self-delimiting and canonical: [DecodeBytes] succeeds on
    exactly the strings that start with an encoding, and returns the encoded
    value and the bytes that follow it. *)
Theorem DecodeBytes_iff_EncodeBytes b rest d :
  DecodeBytes b = Ok (rest, d) ↔ b = EncodeBytes d ++ rest.
Proof.
  split; [|intros ->; apply decode_encode].
  intros (d' & -> & ->)%DecodeBytes_loop_Ok. by rewrite EncodeBytes_enc.
Qed.

(** ** Order preservation *)

Lemma Compare_zeros n b : length b = n → Compare (replicate n x00) b ≠ Gt.
Proof.
  revert b. induction n as [|n IH]; intros [|y b] Hl; simplify_eq/=; [done|].
  change (b2z x00) with 0. pose proof (b2z_range y).
  destruct (Z.compare_spec 0 (b2z y)); [by apply IH|congruence|lia].
Qed.

(** One group: padded contents followed by a marker that grows with the number
    of real bytes compare like the contents themselves. *)
Lemma Compare_group a b n m p q x y :
  (length a + n = length b + m)%nat →
  (b2z p ?= b2z q) = (zlen a ?= zlen b) →
  Compare (a ++ replicate n x00 ++ p :: x) (b ++ replicate m x00 ++ q :: y) =
    match Compare a b with Eq => Compare x y | c => c end.
Proof.
  assert (∀ b m q n p x y, (n = length b + m)%nat → b2z p < b2z q →
    Compare (replicate n x00 ++ p :: x) (b ++ replicate m x00 ++ q :: y) = Lt) as Hlt.
  { clear. intros b m q n p x y Hn Hpq. rewrite app_assoc Compare_app; [|rewrite length_app !length_replicate; lia].
    pose proof (Compare_zeros n (b ++ replicate m x00)) as Hz.
    rewrite length_app length_replicate in Hz.
    destruct (Compare _ _); [|done|by destruct Hz; [lia|]]. cbn.
    by apply Z.compare_lt_iff in Hpq as ->. }
  unfold zlen. revert b. induction a as [|u a IH]; intros [|v b] Hl Hpq; cbn in Hl, Hpq.
  - assert (n = m) as -> by lia. cbn. rewrite Compare_app_same. cbn. by rewrite Hpq.
  - destruct n as [|n]; [lia|]. cbn. change (b2z x00) with 0.
    pose proof (b2z_range v). destruct (Z.compare_spec 0 (b2z v)); [|done|lia].
    apply Hlt; [lia|]. by apply Z.compare_lt_iff.
  - destruct m as [|m]; [lia|]. cbn. change (b2z x00) with 0.
    pose proof (b2z_range u). destruct (Z.compare_spec (b2z u) 0); [|lia|done].
    rewrite Compare_antisym Hlt //; [lia|]. by apply Z.compare_gt_iff in Hpq.
  - cbn. destruct (b2z u ?= b2z v); [|done|done]. apply IH; [lia|].
    rewrite Hpq !Nat2Z.inj_succ. apply Zcompare_succ_compat.
Qed.

Lemma Compare_longer g r b :
  (length b < length g)%nat → Compare (g ++ r) b = Compare g b.
Proof.
  revert b. induction g as [|u g IH]; intros [|v b] Hl; cbn in *; try lia; [done|].
  destruct (b2z u ?= b2z v); [|done|done]. apply IH. lia.
Qed.

Lemma enc_compare a b x y :
  Compare (enc a ++ x) (enc b ++ y) = match Compare a b with Eq => Compare x y | c => c end.
Proof.
  assert (∀ g r b, length g = 8%nat → (length b < 8)%nat → ∀ x y,
    Compare (enc (g ++ r) ++ x) (enc b ++ y) =
      match Compare (g ++ r) b with Eq => Compare x y | c => c end) as Hmix.
  { clear. intros g r b Hg Hb x y. rewrite enc_group // (enc_short b) //. unfold enc_last.
    rewrite (Compare_longer g r b) -?app_assoc /=; [|lia].
    pose proof (Compare_group g b 0 (8 - length b) xff (z2b (247 + zlen b)) (enc r ++ x) y) as Hc.
    cbn in Hc. rewrite Hc; [|lia|].
    2: { rewrite b2z_marker; [|lia]. change (b2z xff) with 255. unfold zlen. rewrite Hg.
      destruct (Z.compare_spec 255 (247 + Z.of_nat (length b))),
        (Z.compare_spec (Z.of_nat 8) (Z.of_nat (length b))); done || lia. }
    destruct (Compare g b) eqn:E; [|done|done]. apply Compare_eq in E. subst. lia. }
  revert b. induction a as [a Ha|g r Hg IH] using group_ind; intros b.
  - induction b as [b Hb|g r Hg _] using group_ind.
    + rewrite !enc_short //. unfold enc_last. rewrite -!app_assoc /=.
      apply Compare_group; [lia|]. rewrite !b2z_marker; [|lia..].
      destruct (Z.compare_spec (zlen a) (zlen b));
        destruct (Z.compare_spec (247 + zlen a) (247 + zlen b)); done || lia.
    + rewrite Compare_antisym Hmix // (Compare_antisym (g ++ r) a) (Compare_antisym y x).
      by destruct (Compare (g ++ r) a).
  - induction b as [b Hb|g' r' Hg' _] using group_ind; [by apply Hmix|].
    rewrite !enc_group // -!app_assoc !(Compare_app g g'); [|by rewrite Hg Hg'..].
    destruct (Compare g g'); [apply IH|done..].
Qed.

Lemma EncodeBytes_compare a b x y :
  Compare (EncodeBytes a ++ x) (EncodeBytes b ++ y) =
    match Compare a b with Eq => Compare x y | c => c end.
Proof. rewrite !EncodeBytes_enc. apply enc_compare. Qed.

(** The length of the output is the one [EncodeBytes] allocates for. *)
Lemma length_EncodeBytes a : length (EncodeBytes a) = ((length a / 8 + 1) * 9)%nat.
Proof.
  rewrite EncodeBytes_enc. induction a as [d Hd|g r Hg IH] using group_ind.
  - rewrite enc_short // length_enc_last // Nat.div_small; lia.
  - rewrite enc_group // length_app length_cons IH length_app Hg.
    pose proof (Nat.div_add (length r) 1 8 ltac:(lia)) as Hd.
    replace (8 + length r)%nat with (length r + 1 * 8)%nat by lia. lia.
Qed.
