(* ===== verification/Pb.v ===== *)
(** The protocol-buffer messages the modelled components exchange, field for
    field (tinykv/proto/proto/{metapb,errorpb,kvrpcpb}.proto).  A pointer field
    is an [option]; a formatted string is kept as its template and arguments. *)

From S2P Require Import Prelude.

Module metapb.
Record RegionEpoch := mkRegionEpoch { ConfVer : Z; Version : Z }.
Record Peer := mkPeer { Peer_Id : Z; StoreId : Z }.
Record Region := mkRegion {
  Id : Z;
  StartKey : bytes;
  EndKey : bytes;
  Epoch : RegionEpoch;
  Peers : list Peer
}.
#[export] Instance RegionEpoch_eq_dec : EqDecision RegionEpoch.
Proof. solve_decision. Defined.
#[export] Instance Peer_eq_dec : EqDecision Peer.
Proof. solve_decision. Defined.
#[export] Instance Region_eq_dec : EqDecision Region.
Proof. solve_decision. Defined.
End metapb.

(** The result of [fmt.Sprintf]: nothing in the modelled code looks inside. *)
Inductive fmt_arg :=
| FZ (z : Z)
| FBytes (b : bytes)
| FEpoch (e : metapb.RegionEpoch)
| FPeer (p : metapb.Peer)
| FRegion (r : metapb.Region).
Record text := Sprintf { template : string; fmt_args : list fmt_arg }.
Definition no_text : text := Sprintf "" [].
Definition text_app (a b : text) : text := Sprintf (template a +:+ template b) (fmt_args a ++ fmt_args b).

Module errorpb.
Record NotLeader := mkNotLeader { nl_RegionId : Z; nl_Leader : option metapb.Peer }.
Record StoreNotMatch := mkStoreNotMatch { RequestStoreId : Z; ActualStoreId : Z }.
Record KeyNotInRegion := mkKeyNotInRegion {
  kn_Key : bytes; kn_RegionId : Z; kn_StartKey : bytes; kn_EndKey : bytes }.
Record Error := mkError {
  Message : text;
  e_NotLeader : option NotLeader;
  e_RegionNotFound : option Z;
  e_KeyNotInRegion : option KeyNotInRegion;
  e_EpochNotMatch : option (list metapb.Region);
  e_StaleCommand : bool;
  e_StoreNotMatch : option StoreNotMatch
}.
Definition empty : Error := mkError no_text None None None None false None.
End errorpb.

Module kvrpcpb.
Record LockInfo := mkLockInfo {
  PrimaryLock : bytes; LockVersion : Z; li_Key : bytes; LockTtl : Z }.
Record WriteConflict := mkWriteConflict {
  wc_StartTs : Z; ConflictTs : Z; wc_Key : bytes; wc_Primary : bytes }.
Record KeyError := mkKeyError {
  Locked : option LockInfo;
  Retryable : text;
  Abort : text;
  Conflict : option WriteConflict
}.
Definition no_key_error : KeyError := mkKeyError None no_text no_text None.

(** The generated enum is an [int32]; the four named values are 0 to 3. *)
Definition Op_Put : Z := 0.
Definition Op_Del : Z := 1.
Definition Op_Rollback : Z := 2.
Definition Op_Lock : Z := 3.

Inductive Action := NoAction | TTLExpireRollback | LockNotExistRollback.

Record Context := mkContext {
  RegionId : Z;
  ctx_Epoch : option metapb.RegionEpoch;
  ctx_Peer : option metapb.Peer;
  ctx_Term : Z
}.

Record Mutation := mkMutation { Op : Z; m_Key : bytes; m_Value : option bytes }.

Record GetRequest := mkGetRequest { get_Context : Context; get_Key : bytes; Version : Z }.
Record GetResponse := mkGetResponse {
  get_RegionError : option errorpb.Error; get_Error : option KeyError;
  Value : option bytes; NotFound : bool }.

Record ScanRequest := mkScanRequest {
  scan_Context : Context; StartKey : bytes; Limit : Z; scan_Version : Z }.
Record KvPair := mkKvPair { pair_Error : option KeyError; pair_Key : bytes; pair_Value : option bytes }.
Record ScanResponse := mkScanResponse {
  scan_RegionError : option errorpb.Error; Pairs : list KvPair }.

Record PrewriteRequest := mkPrewriteRequest {
  pw_Context : Context; Mutations : list Mutation; pw_PrimaryLock : bytes;
  pw_StartVersion : Z; pw_LockTtl : Z }.
Record PrewriteResponse := mkPrewriteResponse {
  pw_RegionError : option errorpb.Error; Errors : list KeyError }.

(** [Keys] is nil ([None]) when the request carries no key. *)
Record CommitRequest := mkCommitRequest {
  cm_Context : Context; cm_StartVersion : Z; cm_Keys : option (list bytes); CommitVersion : Z }.
Record CommitResponse := mkCommitResponse {
  cm_RegionError : option errorpb.Error; cm_Error : option KeyError }.

Record BatchRollbackRequest := mkBatchRollbackRequest {
  rb_Context : Context; rb_StartVersion : Z; rb_Keys : option (list bytes) }.
Record BatchRollbackResponse := mkBatchRollbackResponse {
  rb_RegionError : option errorpb.Error; rb_Error : option KeyError }.

Record CheckTxnStatusRequest := mkCheckTxnStatusRequest {
  ck_Context : Context; PrimaryKey : bytes; LockTs : Z; CurrentTs : Z }.
Record CheckTxnStatusResponse := mkCheckTxnStatusResponse {
  ck_RegionError : option errorpb.Error; ck_LockTtl : Z; ck_CommitVersion : Z; ck_Action : Action }.

Record ResolveLockRequest := mkResolveLockRequest {
  rl_Context : Context; rl_StartVersion : Z; rl_CommitVersion : Z }.
Record ResolveLockResponse := mkResolveLockResponse {
  rl_RegionError : option errorpb.Error; rl_Error : option KeyError }.

Record RawGetRequest := mkRawGetRequest { rg_Context : Context; rg_Key : bytes; rg_Cf : string }.
Record RawGetResponse := mkRawGetResponse {
  rg_RegionError : option errorpb.Error; rg_Error : text; rg_Value : option bytes; rg_NotFound : bool }.
Record RawPutRequest := mkRawPutRequest {
  rp_Context : Context; rp_Key : bytes; rp_Value : option bytes; rp_Cf : string }.
Record RawPutResponse := mkRawPutResponse { rp_RegionError : option errorpb.Error; rp_Error : text }.
Record RawDeleteRequest := mkRawDeleteRequest { rd_Context : Context; rd_Key : bytes; rd_Cf : string }.
Record RawDeleteResponse := mkRawDeleteResponse { rd_RegionError : option errorpb.Error; rd_Error : text }.
Record RawScanRequest := mkRawScanRequest {
  rs_Context : Context; rs_StartKey : bytes; rs_Limit : Z; rs_Cf : string }.
Record RawScanResponse := mkRawScanResponse {
  rs_RegionError : option errorpb.Error; rs_Error : text; Kvs : list KvPair }.
End kvrpcpb.

(** The Go [error] values of the storage and transaction layers: a plain
    message, the region error raft storage wraps, or the scanner's key error. *)
Inductive go_error :=
| ErrorString (msg : text)
| RegionError (requestErr : option errorpb.Error)
| MvccKeyError (e : kvrpcpb.KeyError).

(** The [Error] method; the text of a wrapped message is its rendering. *)
Definition Error_text (e : go_error) : text :=
  match e with
  | ErrorString m => m
  | RegionError _ => Sprintf "RequestErr.String()" []
  | MvccKeyError _ => Sprintf "KeyError.String()" []
  end.

Definition Errorf (t : string) (args : list fmt_arg) : go_error := ErrorString (Sprintf t args).
