(* ===== verification/Engine.v ===== *)
(** The key-value engine below the raft store: kv/util/engine_util (util.go,
    write_batch.go) over the badger database, with the serialization of protocol
    buffers.

    Badger and the generated protocol-buffer code are not part of the
    repository.  They enter as the classes [Badger] and [Proto] with their
    documented behaviour: a database is a sorted map from keys to values whose
    transactions succeed, and a message that was marshalled unmarshals to itself.
    [bdb] at the end is a database that satisfies the class. *)

From S2P Require Import Prelude.

(** ** Badger *)

(** [db_from d k] is what an iterator visits after [Seek(k)]. *)
Class Badger (D : Type) := {
  db_get : D → bytes → option bytes;
  db_set : D → bytes → bytes → D;
  db_delete : D → bytes → D;
  db_from : D → bytes → list (bytes * bytes);
  db_ok : D → Prop;
  db_set_ok d k v : db_ok d → db_ok (db_set d k v);
  db_delete_ok d k : db_ok d → db_ok (db_delete d k);
  db_get_set d k v k' : db_ok d → db_get (db_set d k v) k' = if decide (k' = k) then Some v else db_get d k';
  db_get_delete d k k' : db_ok d → db_get (db_delete d k) k' = if decide (k' = k) then None else db_get d k';
  db_from_elem d k k' v : db_ok d → (k', v) ∈ db_from d k ↔ db_get d k' = Some v ∧ ble k k';
  db_from_sorted d k : db_ok d → StronglySorted (λ a b, blt a.1 b.1) (db_from d k)
}.
#[export] Hint Resolve db_set_ok db_delete_ok : core.

(** ** Protocol buffers *)

(** The zero message marshals to nothing; a message that holds an empty byte
    string where it could hold nil does not come back as it was, so it is not
    [wire]. *)
Class Proto (A : Type) := {
  proto_zero : A;
  Marshal : A → bytes;
  Unmarshal : bytes → option A;
  wire : A → Prop;
  Unmarshal_Marshal m : wire m → Unmarshal (Marshal m) = Some m;
  Marshal_nil m : wire m → Marshal m = [] → m = proto_zero
}.

(** ** util.go *)

Inductive engine_error := ErrKeyNotFound | ErrUnmarshal.
#[export] Instance engine_error_eq_dec : EqDecision engine_error.
Proof. solve_decision. Defined.

Section Engine.
Context {D : Type} `{!Badger D}.

Definition GetMeta {A} `{!Proto A} (engine : D) (key : bytes) : outcome engine_error A :=
  match db_get engine key with
  | None => Err ErrKeyNotFound
  | Some val => match Unmarshal val with Some m => Ok m | None => Err ErrUnmarshal end
  end.

Definition PutMeta {A} `{!Proto A} (engine : D) (key : bytes) (msg : A) : D := db_set engine key (Marshal msg).

Definition ExceedEndKey (current endKey : bytes) : bool :=
  if decide (endKey = []) then false else bleb endKey current.

(** ** write_batch.go *)

Record WriteBatch := mkWriteBatch { wb_entries : list (bytes * bytes); wb_size : Z; safePoint : Z; safePointSize : Z }.
Definition empty_wb : WriteBatch := mkWriteBatch [] 0 0 0.

Definition wb_Len (wb : WriteBatch) : Z := zlen (wb_entries wb).

Definition wb_add (wb : WriteBatch) (key val : bytes) : WriteBatch :=
  mkWriteBatch (wb_entries wb ++ [(key, val)]) (wb_size wb + zlen key + zlen val) (safePoint wb) (safePointSize wb).
(** An entry without a value deletes its key. *)
Definition DeleteMeta (wb : WriteBatch) (key : bytes) : WriteBatch := wb_add wb key [].
Definition SetMeta {A} `{!Proto A} (wb : WriteBatch) (key : bytes) (msg : A) : WriteBatch := wb_add wb key (Marshal msg).

Definition SetSafePoint (wb : WriteBatch) : WriteBatch :=
  mkWriteBatch (wb_entries wb) (wb_size wb) (zlen (wb_entries wb)) (wb_size wb).
Definition RollbackToSafePoint {E} (wb : WriteBatch) : outcome E WriteBatch :=
  es ← go_slice (wb_entries wb) 0 (safePoint wb);
  Ok (mkWriteBatch es (safePointSize wb) (safePoint wb) (safePointSize wb)).

(** The turn of [WriteToDB] for one entry. *)
Definition write_entry (db : D) (e : bytes * bytes) : D :=
  if decide (e.2 = []) then db_delete db e.1 else db_set db e.1 e.2.
Definition WriteToDB (wb : WriteBatch) (db : D) : D := foldl write_entry db (wb_entries wb).

(** ** What a batch leaves *)

Lemma write_entry_ok db e : db_ok db → db_ok (write_entry db e).
Proof. intros H. unfold write_entry. case_decide; auto. Qed.
Lemma foldl_write_ok es db : db_ok db → db_ok (foldl write_entry db es).
Proof. revert db. induction es as [|e es IH]; intros db H; cbn; auto using write_entry_ok. Qed.
Lemma WriteToDB_ok wb db : db_ok db → db_ok (WriteToDB wb db).
Proof. apply foldl_write_ok. Qed.

Lemma write_entry_get db e k :
  db_ok db → db_get (write_entry db e) k =
    if decide (k = e.1) then (if decide (e.2 = []) then None else Some e.2) else db_get db k.
Proof. intros H. unfold write_entry. case_decide; rewrite ?db_get_delete ?db_get_set //. Qed.

(** The last entry of a key decides. *)
Definition wb_last (es : list (bytes * bytes)) (k : bytes) : option bytes :=
  foldl (λ o e, if decide (k = e.1) then Some e.2 else o) None es.

Lemma foldl_last_default (es : list (bytes * bytes)) k (o : option bytes) :
  foldl (λ o e, if decide (k = e.1) then Some e.2 else o) o es =
    match wb_last es k with Some v => Some v | None => o end.
Proof.
  unfold wb_last. revert o. induction es as [|e es IH]; intros o; [by destruct o|]. cbn.
  rewrite IH (IH (if decide (k = e.1) then Some e.2 else None)). destruct (foldl _ None es); [done|]. by case_decide.
Qed.

Lemma wb_last_app es es' k :
  wb_last (es ++ es') k = match wb_last es' k with Some v => Some v | None => wb_last es k end.
Proof. unfold wb_last. rewrite foldl_app. apply foldl_last_default. Qed.
Lemma wb_last_single k v k' : wb_last [(k, v)] k' = if decide (k' = k) then Some v else None.
Proof. done. Qed.

Lemma WriteToDB_get wb db k :
  db_ok db → db_get (WriteToDB wb db) k =
    match wb_last (wb_entries wb) k with
    | Some v => if decide (v = []) then None else Some v
    | None => db_get db k
    end.
Proof.
  intros H. unfold WriteToDB. revert db H. generalize (wb_entries wb) as es. intros es.
  induction es as [|e es IH] using rev_ind; intros db H; [done|].
  rewrite foldl_app. cbn [foldl]. rewrite write_entry_get; [|by apply foldl_write_ok].
  rewrite wb_last_app. destruct e as [k' v]. cbn [fst snd]. rewrite wb_last_single. case_decide; [done|]. by apply IH.
Qed.

Lemma GetMeta_Marshal {A} `{!Proto A} (db : D) k (m : A) :
  db_get db k = Some (Marshal m) → wire m → GetMeta db k = Ok m.
Proof. intros Hg Hw. unfold GetMeta. by rewrite Hg Unmarshal_Marshal. Qed.
End Engine.

(** ** A database in memory: the pairs in key order *)

Definition bdb : Type := list (bytes * bytes).

Fixpoint bdb_get (d : bdb) (k : bytes) : option bytes :=
  match d with [] => None | (k', v) :: d => if decide (k = k') then Some v else bdb_get d k end.
Fixpoint bdb_set (d : bdb) (k v : bytes) : bdb :=
  match d with
  | [] => [(k, v)]
  | (k', v') :: d' =>
    match Compare k k' with Lt => (k, v) :: d | Eq => (k, v) :: d' | Gt => (k', v') :: bdb_set d' k v end
  end.
Definition bdb_delete (d : bdb) (k : bytes) : bdb := filter (λ e, e.1 ≠ k) d.
Definition bdb_from (d : bdb) (k : bytes) : list (bytes * bytes) := filter (λ e, ble k e.1) d.
Notation bdb_ok := (StronglySorted (λ a b : bytes * bytes, blt a.1 b.1)).

Lemma bdb_get_set d k v k' : bdb_ok d → bdb_get (bdb_set d k v) k' = if decide (k' = k) then Some v else bdb_get d k'.
Proof.
  induction d as [|[k1 v1] d IH]; intros Hs; cbn; [by case_decide|]. apply StronglySorted_inv in Hs as [Hs _].
  destruct (Compare k k1) eqn:E; cbn.
  - apply Compare_eq in E as ->. by repeat case_decide.
  - done.
  - rewrite IH //. destruct (decide (k' = k1)) as [->|]; [|done]. rewrite decide_False //. intros ->. by rewrite Compare_refl in E.
Qed.

Lemma bdb_set_ok d k v : bdb_ok d → bdb_ok (bdb_set d k v).
Proof.
  induction d as [|[k1 v1] d IH]; intros Hs; cbn; [repeat constructor|].
  pose proof Hs as [Hs1 Hh]%StronglySorted_inv. destruct (Compare k k1) eqn:E.
  - apply Compare_eq in E as ->. by constructor.
  - constructor; [done|]. constructor; [done|]. eapply Forall_impl; [exact Hh|]. cbn. intros e. by apply blt_trans.
  - constructor; [by apply IH|]. clear IH Hs Hs1. assert (Hlt : blt k1 k) by (unfold blt; by rewrite Compare_antisym E).
    induction d as [|[k2 v2] d IH]; cbn; [by repeat constructor|]. apply Forall_cons in Hh as [H2 Hh].
    destruct (Compare k k2); repeat constructor; auto.
Qed.

Lemma bdb_filter_ok (P : bytes * bytes → Prop) `{∀ e, Decision (P e)} d : bdb_ok d → bdb_ok (filter P d).
Proof.
  induction d as [|e d IH]; intros Hs; [constructor|]. apply StronglySorted_inv in Hs as [Hs Hh].
  rewrite filter_cons. case_decide; [|by apply IH]. constructor; [by apply IH|].
  rewrite Forall_forall in Hh. apply Forall_forall. intros x [_ Hx]%list_elem_of_filter. by apply Hh.
Qed.

Lemma bdb_get_elem d k v : bdb_ok d → (k, v) ∈ d ↔ bdb_get d k = Some v.
Proof.
  induction d as [|[k1 v1] d IH]; intros Hs; cbn; [split; [by intros ?%not_elem_of_nil|done]|].
  apply StronglySorted_inv in Hs as [Hs Hh]. rewrite elem_of_cons IH //. case_decide as Hk.
  - subst k1. split; [|intros [= ->]; by left]. intros [[= <-]|Hin]; [done|]. apply IH in Hin; [|done].
    rewrite Forall_forall in Hh. apply Hh in Hin. by apply blt_irrefl in Hin.
  - split; [intros [[= -> ->]|?]; done|by right].
Qed.

Lemma bdb_get_filter (P : bytes * bytes → Prop) `{∀ e, Decision (P e)} d k v :
  bdb_ok d → bdb_get (filter P d) k = Some v ↔ bdb_get d k = Some v ∧ P (k, v).
Proof.
  intros Hs. rewrite -!bdb_get_elem //; [|by apply bdb_filter_ok]. rewrite list_elem_of_filter. tauto.
Qed.

#[export] Program Instance bdb_Badger : Badger bdb := {|
  db_get := bdb_get;
  db_set := bdb_set;
  db_delete := bdb_delete;
  db_from := bdb_from;
  db_ok := bdb_ok
|}.
Next Obligation. intros. by apply bdb_set_ok. Qed.
Next Obligation. intros. by apply bdb_filter_ok. Qed.
Next Obligation. intros. by apply bdb_get_set. Qed.
Next Obligation.
  intros d k k' Hs. cbn. apply option_eq. intros v. unfold bdb_delete. rewrite bdb_get_filter // . cbn.
  destruct (decide (k' = k)); naive_solver.
Qed.
Next Obligation.
  intros d k k' v Hs. cbn. unfold bdb_from. rewrite bdb_get_elem; [|by apply bdb_filter_ok]. by rewrite bdb_get_filter.
Qed.
Next Obligation. intros. by apply bdb_filter_ok. Qed.
