(* ===== verification/RaftMeta.v ===== *)
(** The local keys of the raft store: kv/raftstore/meta/keys.go. *)

From S2P Require Import Prelude.

Definition LocalPrefix : byte := x01.
Definition RegionRaftPrefix : byte := x02.
Definition RegionMetaPrefix : byte := x03.
Definition RegionRaftLogLen : Z := 19.
Definition RaftLogSuffix : byte := x01.
Definition RaftStateSuffix : byte := x02.
Definition ApplyStateSuffix : byte := x03.
Definition RegionStateSuffix : byte := x01.

(** A key buffer is filled with its prefix bytes and big-endian fields. *)
Definition makeRegionPrefix (regionID : Z) (suffix : byte) : bytes :=
  [LocalPrefix; RegionRaftPrefix] ++ PutUint64 regionID ++ [suffix].
Definition makeRegionKey (regionID : Z) (suffix : byte) (subID : Z) : bytes :=
  [LocalPrefix; RegionRaftPrefix] ++ PutUint64 regionID ++ [suffix] ++ PutUint64 subID.

Definition RegionRaftPrefixKey (regionID : Z) : bytes := [LocalPrefix; RegionRaftPrefix] ++ PutUint64 regionID.
Definition RaftLogKey (regionID index : Z) : bytes := makeRegionKey regionID RaftLogSuffix index.
Definition RaftStateKey (regionID : Z) : bytes := makeRegionPrefix regionID RaftStateSuffix.
Definition ApplyStateKey (regionID : Z) : bytes := makeRegionPrefix regionID ApplyStateSuffix.
Definition RegionMetaPrefixKey (regionID : Z) : bytes := [LocalPrefix; RegionMetaPrefix] ++ PutUint64 regionID.
Definition RegionStateKey (regionID : Z) : bytes :=
  [LocalPrefix; RegionMetaPrefix] ++ PutUint64 regionID ++ [RegionStateSuffix].

Definition IsRaftStateKey (key : bytes) : bool :=
  bool_decide (zlen key = 11 ∧ key !! 0%nat = Some LocalPrefix ∧ key !! 1%nat = Some RegionRaftPrefix).

Definition DecodeRegionMetaKey (key : bytes) : outcome string (Z * byte) :=
  if decide (2 + 8 + 1 ≠ zlen key) then Err "invalid region meta key length"
  else if decide (¬ [LocalPrefix; RegionMetaPrefix] `prefix_of` key) then Err "invalid region meta key prefix"
  else
    field ← go_slice key 2 (zlen key);
    regionID ← Uint64 field;
    suffix ← go_index key (zlen key - 1);
    Ok (regionID, suffix).

Definition RaftLogIndex (key : bytes) : outcome string Z :=
  if decide (zlen key ≠ RegionRaftLogLen) then Err "not a valid raft log key"
  else field ← go_slice key (RegionRaftLogLen - 8) (zlen key); Uint64 field.

(** ** The layout *)

Lemma RaftLogKey_app r i : RaftLogKey r i = ([LocalPrefix; RegionRaftPrefix] ++ PutUint64 r ++ [RaftLogSuffix]) ++ PutUint64 i.
Proof. unfold RaftLogKey, makeRegionKey. by rewrite -!app_assoc. Qed.

(** The entries of a region's log lie in index order. *)
Lemma RaftLogKey_compare r i j : is_u64 i → is_u64 j → Compare (RaftLogKey r i) (RaftLogKey r j) = (i ?= j).
Proof. intros Hi Hj. by rewrite !RaftLogKey_app Compare_app_same Compare_PutUint64. Qed.

Lemma RaftLogKey_blt r i j : is_u64 i → is_u64 j → blt (RaftLogKey r i) (RaftLogKey r j) ↔ i < j.
Proof. intros Hi Hj. unfold blt. by rewrite RaftLogKey_compare. Qed.
Lemma RaftLogKey_ble r i j : is_u64 i → is_u64 j → ble (RaftLogKey r i) (RaftLogKey r j) ↔ i ≤ j.
Proof. intros Hi Hj. unfold ble. by rewrite RaftLogKey_compare. Qed.

Lemma RaftLogKey_inj r i j : is_u64 i → is_u64 j → RaftLogKey r i = RaftLogKey r j → i = j.
Proof.
  intros Hi Hj E. apply Z.compare_eq. rewrite -(RaftLogKey_compare r i j) // E. apply Compare_refl.
Qed.
Lemma RaftLogKey_eq r i j : is_u64 i → is_u64 j → RaftLogKey r i = RaftLogKey r j ↔ i = j.
Proof. intros Hi Hj. split; [by apply RaftLogKey_inj|by intros ->]. Qed.

Lemma length_RaftLogKey r i : length (RaftLogKey r i) = 19%nat.
Proof. unfold RaftLogKey, makeRegionKey. by rewrite !length_app !length_PutUint64. Qed.
Lemma length_RaftStateKey r : length (RaftStateKey r) = 11%nat.
Proof. unfold RaftStateKey, makeRegionPrefix. by rewrite !length_app length_PutUint64. Qed.

Lemma RaftLogKey_not_state r i r' : RaftLogKey r i ≠ RaftStateKey r'.
Proof. intros E. apply (f_equal length) in E. by rewrite length_RaftLogKey length_RaftStateKey in E. Qed.

(** They precede the region's other keys. *)
Lemma RaftLogKey_below r i : blt (RaftLogKey r i) (RaftStateKey r).
Proof.
  unfold blt, RaftStateKey, makeRegionPrefix. rewrite RaftLogKey_app -app_assoc Compare_app_same -app_assoc Compare_app_same. done.
Qed.

Lemma RaftLogIndex_key r i : is_u64 i → RaftLogIndex (RaftLogKey r i) = Ok i.
Proof.
  intros Hi. unfold RaftLogIndex, RegionRaftLogLen. assert (Hz : zlen (RaftLogKey r i) = 19) by (unfold zlen; by rewrite length_RaftLogKey).
  destruct (decide (zlen (RaftLogKey r i) ≠ 19)) as [|_]; [done|]. rewrite go_slice_drop; [|rewrite Hz; lia]. cbn [mbind outcome_bind].
  rewrite RaftLogKey_app drop_app_length'; [|by rewrite !length_app length_PutUint64].
  rewrite -(app_nil_r (PutUint64 i)). by apply Uint64_PutUint64.
Qed.

(** The keys of different regions, or of different kinds, differ. *)
Lemma ApplyStateKey_inj r r' : is_u64 r → is_u64 r' → ApplyStateKey r = ApplyStateKey r' → r = r'.
Proof.
  intros Hr Hr' E. unfold ApplyStateKey, makeRegionPrefix in E. apply app_inv_head in E.
  apply app_inj_1 in E as [E _]; [|by rewrite !length_PutUint64].
  apply Z.compare_eq. rewrite -(Compare_PutUint64 r r') // E. apply Compare_refl.
Qed.
Lemma ApplyStateKey_not_region r r' : ApplyStateKey r ≠ RegionStateKey r'.
Proof. done. Qed.
Lemma RegionStateKey_inj r r' : is_u64 r → is_u64 r' → RegionStateKey r = RegionStateKey r' → r = r'.
Proof.
  intros Hr Hr' E. unfold RegionStateKey in E. apply app_inv_head in E.
  apply app_inj_1 in E as [E _]; [|by rewrite !length_PutUint64].
  apply Z.compare_eq. rewrite -(Compare_PutUint64 r r') // E. apply Compare_refl.
Qed.
