(* ===== verification/Storage.v ===== *)
(** The storage layer below the transactions: kv/storage (modify.go,
    storage.go, mem_storage.go), kv/util/engine_util (column families).

    - [Modify] and the column families;
    - the interfaces [Storage], [StorageReader] and [DBIterator] as type
      classes, and [StorageLaws], what an implementation promises: a reader is
      a fixed snapshot, [GetCF] looks a key up, an iterator visits the keys of
      a column family in byte order, [Write] applies a batch in order;
    - [MemStorage] over the LLRB tree of the GoLLRB package, which is not part
      of the repository and enters as the class [Llrb] with its documented
      behaviour; [MemStorage] is proved to satisfy [StorageLaws].

    Keys are non-nil slices; a value may be nil ([None]).  The counter of open
    iterators of [memReader], a check for tests, is not modelled. *)

From S2P Require Import Prelude Pb.

(** ** Column families and modifications *)

Definition CfDefault : string := "default".
Definition CfWrite : string := "write".
Definition CfLock : string := "lock".
Definition CFs : list string := [CfDefault; CfWrite; CfLock].
Lemma CfWrite_CFs : CfWrite ∈ CFs.
Proof. unfold CFs. set_solver. Qed.
Lemma CfLock_CFs : CfLock ∈ CFs.
Proof. unfold CFs. set_solver. Qed.
Lemma CfDefault_CFs : CfDefault ∈ CFs.
Proof. unfold CFs. set_solver. Qed.

(** [Modify.Data] is a [Put] or a [Delete]. *)
Inductive Modify :=
| Put (Key : bytes) (Value : option bytes) (Cf : string)
| Delete (Key : bytes) (Cf : string).

Definition Modify_Key (m : Modify) : bytes :=
  match m with Put k _ _ => k | Delete k _ => k end.
Definition Modify_Value (m : Modify) : option bytes :=
  match m with Put _ v _ => v | Delete _ _ => None end.
Definition Modify_Cf (m : Modify) : string :=
  match m with Put _ _ cf => cf | Delete _ cf => cf end.

(** ** Snapshots: what a store holds, one finite map per column family *)

Notation cfmap := (gmap bytes (option bytes)).
Notation snapshot := (string → cfmap).

Definition upd (s : snapshot) (cf : string) (f : cfmap → cfmap) : snapshot :=
  λ cf', if decide (cf' = cf) then f (s cf') else s cf'.

Definition apply_modify (s : snapshot) (m : Modify) : snapshot :=
  match m with
  | Put k v cf => upd s cf (λ c, <[k := v]> c)
  | Delete k cf => upd s cf (λ c, delete k c)
  end.

Definition apply_batch (s : snapshot) (batch : list Modify) : snapshot :=
  foldl apply_modify s batch.

(** The entry of a map with the least key among those satisfying [P]. *)
Definition least {V} (m : gmap bytes V) (P : bytes → Prop) (o : option (bytes * V)) : Prop :=
  match o with
  | None => ∀ k v, m !! k = Some v → ¬ P k
  | Some (k, v) => m !! k = Some v ∧ P k ∧ ∀ k' v', m !! k' = Some v' → P k' → ble k k'
  end.

Lemma least_fun {V} (m : gmap bytes V) P o1 o2 : least m P o1 → least m P o2 → o1 = o2.
Proof.
  destruct o1 as [[k1 v1]|], o2 as [[k2 v2]|]; cbn; [|naive_solver..].
  intros (H1 & HP1 & Hl1) (H2 & HP2 & Hl2).
  assert (k1 = k2) as ->; [|congruence].
  destruct (ble_lteq k1 k2) as [[Hlt|?] _]; [eauto| |done].
  exfalso. apply blt_not_ble in Hlt. eauto.
Qed.

(** ** Interfaces *)

(** [StorageReader] with its [DBIterator]; [IterCF] is nil on an unknown
    column family. *)
Class StorageReader (R I : Type) := {
  GetCF : R → string → bytes → outcome go_error (option bytes);
  IterCF : R → string → option I;
  Seek : I → bytes → outcome go_error I;
  Valid : I → bool;
  ItemKey : I → bytes;
  ItemValue : I → outcome go_error (option bytes);
  Next : I → I
}.

(** [Storage]; [Write] reports its error beside the state it leaves. *)
Class Storage (S R : Type) := {
  Reader : S → kvrpcpb.Context → outcome go_error R;
  Write : S → kvrpcpb.Context → list Modify → S * option go_error
}.

(** Use an iterator; a nil one is dereferenced by its first method call. *)
Definition with_iter {R I A} `{StorageReader R I} (r : R) (cf : string)
    (k : I → outcome go_error A) : outcome go_error A :=
  match IterCF r cf with Some it => k it | None => Panic "nil pointer dereference" end.

(** What the transaction layer relies on.  [view] is the snapshot a reader
    reads, [src] the column family an iterator walks, [pos] its position; the
    laws hold for the iterators obtained from [IterCF]. *)
Class ReaderLaws (R I : Type) `{!StorageReader R I} := {
  view : R → snapshot;
  src : I → cfmap;
  pos : I → option (bytes * option bytes);
  iter_ok : I → Prop;
  get_law r cf k : cf ∈ CFs → GetCF r cf k = Ok (mjoin (view r cf !! k));
  iter_law r cf : cf ∈ CFs → ∃ it, IterCF r cf = Some it ∧ iter_ok it ∧ src it = view r cf;
  seek_law it k : iter_ok it → ∃ it', Seek it k = Ok it' ∧ iter_ok it' ∧ src it' = src it ∧
    least (src it) (ble k) (pos it');
  valid_law it : iter_ok it → Valid it = bool_decide (is_Some (pos it));
  key_law it k v : iter_ok it → pos it = Some (k, v) → ItemKey it = k;
  value_law it k v : iter_ok it → pos it = Some (k, v) → ItemValue it = Ok v;
  next_law it k v : iter_ok it → pos it = Some (k, v) →
    iter_ok (Next it) ∧ src (Next it) = src it ∧ least (src it) (blt k) (pos (Next it))
}.

Class StorageLaws (S R I : Type) `{!StorageReader R I, !Storage S R, !ReaderLaws R I} := {
  contents : S → snapshot;
  reader_law s ctx : ∃ r, Reader s ctx = Ok r ∧ view r = contents s;
  write_law s ctx batch : Forall (λ m, Modify_Cf m ∈ CFs) batch →
    (Write s ctx batch).2 = None ∧
    ∀ cf, cf ∈ CFs → contents (Write s ctx batch).1 cf = apply_batch (contents s) batch cf
}.

(** ** MemStorage *)

Record memItem := MemItem { ikey : bytes; mi_value : option bytes; mi_fresh : bool }.
(** The pivot below every key. *)
Definition zeroItem : memItem := MemItem [] None false.
Definition memItem_Less (a b : memItem) : bool := bltb (ikey a) (ikey b).

(** The LLRB tree of package llrb, ordered by [Less], which for [memItem]
    compares keys: documented behaviour of the operations MemStorage calls.
    [AscendGreaterOrEqual] is the sequence of items its callback is offered. *)
Class Llrb (T : Type) := {
  llrb_New : T;
  llrb_ReplaceOrInsert : T → memItem → T;
  llrb_Delete : T → memItem → T;
  llrb_Get : T → memItem → option memItem;
  llrb_Min : T → option memItem;
  llrb_AscendGreaterOrEqual : T → memItem → list memItem;
  llrb_Len : T → Z;
  llrb_items : T → gmap bytes memItem;
  llrb_key t k i : llrb_items t !! k = Some i → ikey i = k;
  llrb_New_law : llrb_items llrb_New = ∅;
  llrb_Insert_law t i : llrb_items (llrb_ReplaceOrInsert t i) = <[ikey i := i]> (llrb_items t);
  llrb_Delete_law t i : llrb_items (llrb_Delete t i) = delete (ikey i) (llrb_items t);
  llrb_Get_law t i : llrb_Get t i = llrb_items t !! ikey i;
  llrb_Min_law t : least (llrb_items t) (λ _, True) ((λ i, (ikey i, i)) <$> llrb_Min t);
  llrb_Ascend_elem t p i : i ∈ llrb_AscendGreaterOrEqual t p ↔
    llrb_items t !! ikey i = Some i ∧ ble (ikey p) (ikey i);
  llrb_Ascend_sorted t p : StronglySorted (λ a b, blt (ikey a) (ikey b)) (llrb_AscendGreaterOrEqual t p);
  llrb_Len_law t : llrb_Len t = Z.of_nat (size (llrb_items t))
}.

Section MemStorage.
Context {T : Type} `{!Llrb T}.

Record MemStorage := mkMemStorage { ms_CfDefault : T; ms_CfLock : T; ms_CfWrite : T }.

Definition NewMemStorage : MemStorage := mkMemStorage llrb_New llrb_New llrb_New.

(** The [switch cf] that every method of MemStorage starts with. *)
Definition ms_tree (s : MemStorage) (cf : string) : option T :=
  if decide (cf = CfDefault) then Some (ms_CfDefault s)
  else if decide (cf = CfLock) then Some (ms_CfLock s)
  else if decide (cf = CfWrite) then Some (ms_CfWrite s)
  else None.

Definition ms_alter (s : MemStorage) (cf : string) (f : T → T) : MemStorage :=
  if decide (cf = CfDefault) then mkMemStorage (f (ms_CfDefault s)) (ms_CfLock s) (ms_CfWrite s)
  else if decide (cf = CfLock) then mkMemStorage (ms_CfDefault s) (f (ms_CfLock s)) (ms_CfWrite s)
  else if decide (cf = CfWrite) then mkMemStorage (ms_CfDefault s) (ms_CfLock s) (f (ms_CfWrite s))
  else s.

Definition MemStorage_Write1 (s : MemStorage) (m : Modify) : MemStorage :=
  match m with
  | Put k v cf => ms_alter s cf (λ t, llrb_ReplaceOrInsert t (MemItem k v false))
  | Delete k cf => ms_alter s cf (λ t, llrb_Delete t (MemItem k None false))
  end.

Definition MemStorage_Write (s : MemStorage) (ctx : kvrpcpb.Context) (batch : list Modify)
  : MemStorage * option go_error := (foldl MemStorage_Write1 s batch, None).

Definition MemStorage_Get (s : MemStorage) (cf : string) (key : bytes) : option bytes :=
  match ms_tree s cf ≫= λ t, llrb_Get t (MemItem key None false) with
  | None => None
  | Some result => mi_value result
  end.

Definition MemStorage_Set (s : MemStorage) (cf : string) (key : bytes) (value : option bytes)
  : MemStorage := ms_alter s cf (λ t, llrb_ReplaceOrInsert t (MemItem key value true)).

Definition MemStorage_HasChanged (s : MemStorage) (cf : string) (key : bytes) : bool :=
  match ms_tree s cf ≫= λ t, llrb_Get t (MemItem key None false) with
  | None => true
  | Some result => negb (mi_fresh result)
  end.

Definition MemStorage_Len (s : MemStorage) (cf : string) : Z :=
  match ms_tree s cf with Some t => llrb_Len t | None => -1 end.

Definition MemStorage_Reader (s : MemStorage) (ctx : kvrpcpb.Context)
  : outcome go_error MemStorage := Ok s.

Definition memReader_GetCF (mr : MemStorage) (cf : string) (key : bytes)
  : outcome go_error (option bytes) :=
  match ms_tree mr cf with
  | None => Err (Errorf "mem-server: bad CF %s" [])
  | Some t =>
    match llrb_Get t (MemItem key None false) with
    | None => Ok None
    | Some result => Ok (mi_value result)
    end
  end.

(** [it_item] is [None] for [memItem{}], the only item with a nil key. *)
Record memIter := MemIter { it_data : T; it_item : option memItem }.

Definition memReader_IterCF (mr : MemStorage) (cf : string) : option memIter :=
  match ms_tree mr cf with
  | None => None
  | Some data => Some (MemIter data (llrb_Min data))
  end.

Definition memIter_Valid (it : memIter) : bool := bool_decide (is_Some (it_item it)).

(** The callback skips the first item it is offered and stops at the second;
    a nil pivot compares as the empty key. *)
Definition memIter_Next (it : memIter) : memIter :=
  let oldItem := default zeroItem (it_item it) in
  match llrb_AscendGreaterOrEqual (it_data it) oldItem with
  | _ :: i :: _ => MemIter (it_data it) (Some i)
  | _ => MemIter (it_data it) None
  end.

Definition memIter_Seek (it : memIter) (key : bytes) : memIter :=
  match llrb_AscendGreaterOrEqual (it_data it) (MemItem key None false) with
  | i :: _ => MemIter (it_data it) (Some i)
  | [] => MemIter (it_data it) None
  end.

Definition memIter_Key (it : memIter) : bytes :=
  match it_item it with Some i => ikey i | None => [] end.
Definition memIter_Value (it : memIter) : outcome go_error (option bytes) :=
  Ok (it_item it ≫= mi_value).

#[export] Instance mem_reader : StorageReader MemStorage memIter := {|
  GetCF := memReader_GetCF;
  IterCF := memReader_IterCF;
  Seek it k := Ok (memIter_Seek it k);
  Valid := memIter_Valid;
  ItemKey := memIter_Key;
  ItemValue := memIter_Value;
  Next := memIter_Next
|}.

#[export] Instance mem_storage : Storage MemStorage MemStorage := {|
  Reader := MemStorage_Reader;
  Write := MemStorage_Write
|}.

(** *** MemStorage keeps the promises of the interface *)

Definition ms_contents (s : MemStorage) : snapshot := λ cf,
  match ms_tree s cf with Some t => mi_value <$> llrb_items t | None => ∅ end.

Lemma sorted_least t (P : bytes → Prop) l :
  (∀ i, i ∈ l ↔ llrb_items t !! ikey i = Some i ∧ P (ikey i)) →
  StronglySorted (λ a b, blt (ikey a) (ikey b)) l →
  least (mi_value <$> llrb_items t) P ((λ i, (ikey i, mi_value i)) <$> head l).
Proof.
  intros He Hs. destruct l as [|i l]; cbn.
  - intros k v. rewrite lookup_fmap fmap_Some. intros (j & Hj & _) Hk.
    pose proof (llrb_key _ _ _ Hj) as <-. by apply (not_elem_of_nil j), He.
  - destruct (proj1 (He i)) as [Hi Hp]; [by left|].
    rewrite lookup_fmap Hi. split; [done|]. split; [done|].
    intros k' v'. rewrite lookup_fmap fmap_Some. intros (j & Hj & _) Hk'.
    pose proof (llrb_key _ _ _ Hj) as <-.
    apply StronglySorted_inv in Hs as [_ Hs]. rewrite Forall_forall in Hs.
    assert (j ∈ i :: l) as [->|Hin]%elem_of_cons by (by apply He); [apply ble_refl|].
    by apply blt_ble, Hs.
Qed.

(** Ascending from an item of the tree starts with that item. *)
Lemma ascend_cons t i :
  llrb_items t !! ikey i = Some i → ∃ l, llrb_AscendGreaterOrEqual t i = i :: l.
Proof.
  intros Hi. pose proof (llrb_Ascend_sorted t i) as Hs. pose proof (llrb_Ascend_elem t i) as He.
  assert (i ∈ llrb_AscendGreaterOrEqual t i) as Hin by (apply He; auto using ble_refl).
  destruct (llrb_AscendGreaterOrEqual t i) as [|j l]; [by apply not_elem_of_nil in Hin|].
  exists l. f_equal. apply StronglySorted_inv in Hs as [_ Hs]. rewrite Forall_forall in Hs.
  apply elem_of_cons in Hin as [->|Hin]; [done|].
  exfalso. destruct (proj1 (He j)) as [_ Hle]; [by left|].
  apply (blt_irrefl (ikey i)). eapply ble_blt_trans; [done|]. by apply Hs.
Qed.

Lemma ascend_tail t i l :
  llrb_AscendGreaterOrEqual t i = i :: l →
  (∀ j, j ∈ l ↔ llrb_items t !! ikey j = Some j ∧ blt (ikey i) (ikey j)) ∧
  StronglySorted (λ a b, blt (ikey a) (ikey b)) l.
Proof.
  intros Hl. pose proof (llrb_Ascend_sorted t i) as Hs. pose proof (llrb_Ascend_elem t i) as He.
  rewrite Hl in Hs He. apply StronglySorted_inv in Hs as [Hs Hi]. rewrite Forall_forall in Hi.
  split; [|done]. intros j. split.
  - intros Hj. split; [|by apply Hi]. apply He. by right.
  - intros [Hj Hlt]. assert (j ∈ i :: l) as [->|?]%elem_of_cons; [|by apply blt_irrefl in Hlt|done].
    apply He. split; [done|by apply blt_ble].
Qed.

Definition memIter_ok (it : memIter) : Prop :=
  match it_item it with Some i => llrb_items (it_data it) !! ikey i = Some i | None => True end.

#[export] Program Instance mem_reader_laws : ReaderLaws MemStorage memIter := {|
  view := ms_contents;
  src it := mi_value <$> llrb_items (it_data it);
  pos it := (λ i, (ikey i, mi_value i)) <$> it_item it;
  iter_ok := memIter_ok
|}.
Next Obligation.
  intros r cf k Hcf. cbn. unfold memReader_GetCF, ms_contents, ms_tree.
  unfold CFs in Hcf. repeat case_decide; [| | |set_solver];
    rewrite llrb_Get_law lookup_fmap; cbn; by destruct (_ !! k).
Qed.
Next Obligation.
  intros r cf Hcf. cbn. unfold memReader_IterCF, ms_contents, ms_tree.
  unfold CFs in Hcf. repeat case_decide; [| | |set_solver];
    (eexists; split_and!; [done| |done]); unfold memIter_ok; cbn;
    match goal with |- context [llrb_Min ?t] => pose proof (llrb_Min_law t) as Hm end;
    (destruct (llrb_Min _); [apply Hm|done]).
Qed.
Next Obligation.
  intros it k _. cbn. eexists. split; [done|]. unfold memIter_ok, memIter_Seek.
  pose proof (llrb_Ascend_elem (it_data it) (MemItem k None false)) as He.
  pose proof (sorted_least _ (ble k) _ He (llrb_Ascend_sorted _ _)) as Hl.
  destruct (llrb_AscendGreaterOrEqual _ _) as [|i l]; [done|]. cbn in *.
  split; [|done]. apply He. by left.
Qed.
Next Obligation. intros it _. cbn. unfold memIter_Valid. by destruct (it_item it). Qed.
Next Obligation.
  intros it k v _. cbn. unfold memIter_Key. by destruct (it_item it); intros; simplify_eq/=.
Qed.
Next Obligation.
  intros it k v _. cbn. unfold memIter_Value. by destruct (it_item it); intros; simplify_eq/=.
Qed.
Next Obligation.
  intros it k v Hok. cbn. unfold memIter_Next, memIter_ok in *.
  destruct (it_item it) as [i|]; intros; simplify_eq/=.
  destruct (ascend_cons _ _ Hok) as [l Hl]. rewrite Hl.
  destruct (ascend_tail _ _ _ Hl) as [He Hs].
  pose proof (sorted_least _ _ _ He Hs) as Hl'.
  destruct l as [|j l]; [done|]. cbn in *. split; [|done]. apply He. by left.
Qed.

Lemma ms_contents_alter s cf f g cf' :
  cf ∈ CFs → (∀ t, mi_value <$> llrb_items (f t) = g (mi_value <$> llrb_items t)) →
  ms_contents (ms_alter s cf f) cf' = upd (ms_contents s) cf g cf'.
Proof.
  intros Hcf Hf. unfold CFs in Hcf. unfold upd, ms_contents, ms_tree, ms_alter.
  repeat (case_decide; simplify_eq/=; try done; try set_solver).
Qed.

Lemma ms_Write1_contents s m cf :
  Modify_Cf m ∈ CFs →
  ms_contents (MemStorage_Write1 s m) cf = apply_modify (ms_contents s) m cf.
Proof.
  destruct m as [k v cf'|k cf']; cbn; intros Hcf; apply ms_contents_alter; try done; intros t.
  - by rewrite llrb_Insert_law fmap_insert.
  - by rewrite llrb_Delete_law fmap_delete.
Qed.

Lemma apply_batch_ext (s1 s2 : snapshot) batch cf :
  (∀ cf, s1 cf = s2 cf) → apply_batch s1 batch cf = apply_batch s2 batch cf.
Proof.
  unfold apply_batch. revert s1 s2. induction batch as [|m batch IH]; intros s1 s2 Hs; cbn; [done|].
  apply IH. intros cf'. destruct m; cbn; unfold upd; case_decide; by rewrite Hs.
Qed.

(** MemStorage implements the storage interface: its reader is a snapshot of
    the three trees, and a batch is applied modification by modification. *)
#[export] Program Instance mem_storage_laws : StorageLaws MemStorage MemStorage memIter := {|
  contents := ms_contents
|}.
Next Obligation. intros s ctx. by eexists. Qed.
Next Obligation.
  intros s ctx batch Hb. split; [done|]. intros cf _. cbn.
  induction Hb as [|m batch Hm _ IH] in s |- *; [done|]. cbn. rewrite IH.
  apply apply_batch_ext. intros cf'. by apply ms_Write1_contents.
Qed.
End MemStorage.
Arguments MemStorage : clear implicits.
Arguments memIter : clear implicits.

(** ** A concrete tree

    A finite map satisfies the behaviour asked of LLRB, so [MemStorage] over it
    can be run; the witnesses use it. *)
Section MapTree.
Notation mtree := (gmap bytes (option bytes * bool)).

Definition mt_items (t : mtree) : gmap bytes memItem :=
  map_imap (λ k vf, Some (MemItem k vf.1 vf.2)) t.

Definition key_le (a b : memItem) : Prop := ble (ikey a) (ikey b).
#[local] Instance key_le_dec : RelDecision key_le.
Proof. intros a b. unfold key_le. apply _. Defined.
#[local] Instance key_le_total : Total key_le.
Proof.
  intros a b. unfold key_le. destruct (decide (ble (ikey a) (ikey b))); [by left|right].
  apply ble_not_blt. intros H. apply blt_ble in H. done.
Qed.
#[local] Instance key_le_trans : Transitive key_le.
Proof. intros a b c. unfold key_le. apply ble_trans. Qed.

Definition mt_ascend (t : mtree) (p : memItem) : list memItem :=
  merge_sort key_le (filter (λ i, ble (ikey p) (ikey i)) (map_to_list (mt_items t)).*2).

Lemma mt_items_key t k i : mt_items t !! k = Some i → ikey i = k.
Proof.
  unfold mt_items. rewrite map_lookup_imap. destruct (t !! k); naive_solver.
Qed.

Lemma mt_elem t i : i ∈ (map_to_list (mt_items t)).*2 ↔ mt_items t !! ikey i = Some i.
Proof.
  rewrite list_elem_of_fmap. split.
  - intros ([k j] & -> & Hj%elem_of_map_to_list). cbn. by rewrite (mt_items_key _ _ _ Hj).
  - intros H. exists (ikey i, i). by rewrite elem_of_map_to_list.
Qed.

Lemma mt_ascend_elem t p i :
  i ∈ mt_ascend t p ↔ mt_items t !! ikey i = Some i ∧ ble (ikey p) (ikey i).
Proof.
  unfold mt_ascend. rewrite merge_sort_Permutation list_elem_of_filter mt_elem. tauto.
Qed.

Lemma mt_keys_NoDup t p : NoDup (ikey <$> mt_ascend t p).
Proof.
  apply NoDup_fmap_2_strong.
  - intros i j [Hi _]%mt_ascend_elem [Hj _]%mt_ascend_elem E. rewrite E in Hi. congruence.
  - unfold mt_ascend. rewrite merge_sort_Permutation. apply NoDup_filter, NoDup_fmap_2_strong.
    + intros [k i] [k' j] Hi%elem_of_map_to_list Hj%elem_of_map_to_list E. cbn in *. subst.
      by rewrite -(mt_items_key _ _ _ Hi) -(mt_items_key _ _ _ Hj).
    + apply NoDup_map_to_list.
Qed.

Lemma mt_ascend_sorted t p : StronglySorted (λ a b, blt (ikey a) (ikey b)) (mt_ascend t p).
Proof.
  assert (StronglySorted key_le (mt_ascend t p)) as Hs by (apply StronglySorted_merge_sort; apply _).
  pose proof (mt_keys_NoDup t p) as Hnd.
  induction Hs as [|i l Hs IH Hi]; [constructor|]. apply NoDup_cons in Hnd as [Hni Hnd].
  constructor; [auto|]. apply Forall_forall. intros j Hj. rewrite Forall_forall in Hi.
  specialize (Hi j Hj). apply ble_lteq in Hi as [?|E]; [done|].
  exfalso. apply Hni. rewrite E. by apply list_elem_of_fmap_2.
Qed.

#[export] Program Instance map_llrb : Llrb mtree := {|
  llrb_New := ∅;
  llrb_ReplaceOrInsert t i := <[ikey i := (mi_value i, mi_fresh i)]> t;
  llrb_Delete t i := delete (ikey i) t;
  llrb_Get t i := mt_items t !! ikey i;
  llrb_Min t := head (mt_ascend t zeroItem);
  llrb_AscendGreaterOrEqual := mt_ascend;
  llrb_Len t := Z.of_nat (size (mt_items t));
  llrb_items := mt_items
|}.
Next Obligation. apply mt_items_key. Qed.
Next Obligation. done. Qed.
Next Obligation.
  intros t [k v f]. unfold mt_items. apply map_eq. intros j.
  rewrite map_lookup_imap !lookup_insert. case_decide; subst; cbn; [done|].
  by rewrite map_lookup_imap.
Qed.
Next Obligation.
  intros t i. unfold mt_items. apply map_eq. intros j.
  rewrite map_lookup_imap !lookup_delete. case_decide; [done|]. by rewrite map_lookup_imap.
Qed.
Next Obligation. done. Qed.
Next Obligation.
  intros t. pose proof (mt_ascend_elem t zeroItem) as He.
  pose proof (mt_ascend_sorted t zeroItem) as Hs.
  revert He Hs. cbn -[mt_ascend]. generalize (mt_ascend t zeroItem). intros [|i l] He Hs; cbn.
  - intros k i Hi Ht. clear Ht. apply (not_elem_of_nil i), He. rewrite (mt_items_key _ _ _ Hi).
    split; [done|apply Compare_nil_l].
  - destruct (proj1 (He i)) as [Hi _]; [by left|]. split_and!; [done..|]. intros k j Hj _.
    apply StronglySorted_inv in Hs as [_ Hs]. rewrite Forall_forall in Hs.
    pose proof (mt_items_key _ _ _ Hj) as <-.
    assert (j ∈ i :: l) as [->|Hin]%elem_of_cons; [|apply ble_refl|by apply blt_ble, Hs].
    apply He. split; [done|apply Compare_nil_l].
Qed.
Next Obligation. apply mt_ascend_elem. Qed.
Next Obligation. apply mt_ascend_sorted. Qed.
Next Obligation. done. Qed.
End MapTree.

Notation map_tree := (gmap bytes (option bytes * bool)).
Notation map_store := (MemStorage map_tree).
