(* ===== verification/EngineCF.v ===== *)
(** Column families over the badger database: the rest of kv/util/engine_util
    (util.go, write_batch.go, cf_iterator.go).

    A key of a column family is stored under the family's name, an underscore
    and the key. *)

From S2P Require Import Prelude Pb Storage Engine.

Module engine_util.
Section CF.
Context {D : Type} `{!Badger D}.

(** [[]byte(cf + "_")] *)
Definition cf_prefix (cf : string) : bytes := String.list_byte_of_string (cf +:+ "_").
Definition KeyWithCF (cf : string) (key : bytes) : bytes := cf_prefix cf ++ key.

(** A transaction reads the database as it was when it started. *)
Definition GetCFFromTxn (txn : D) (cf : string) (key : bytes) : outcome engine_error bytes :=
  match db_get txn (KeyWithCF cf key) with
  | Some val => Ok val
  | None => Err ErrKeyNotFound
  end.
Definition GetCF (db : D) (cf : string) (key : bytes) : outcome engine_error bytes := GetCFFromTxn db cf key.
Definition PutCF (engine : D) (cf : string) (key val : bytes) : D := db_set engine (KeyWithCF cf key) val.
Definition DeleteCF (engine : D) (cf : string) (key : bytes) : D := db_delete engine (KeyWithCF cf key).

(** The size counts the key without its prefix. *)
Definition wb_SetCF (wb : WriteBatch) (cf : string) (key val : bytes) : WriteBatch :=
  mkWriteBatch (wb_entries wb ++ [(KeyWithCF cf key, val)]) (wb_size wb + zlen key + zlen val) (safePoint wb) (safePointSize wb).
Definition wb_DeleteCF (wb : WriteBatch) (cf : string) (key : bytes) : WriteBatch :=
  mkWriteBatch (wb_entries wb ++ [(KeyWithCF cf key, [])]) (wb_size wb + zlen key) (safePoint wb) (safePointSize wb).

(** ** cf_iterator.go *)

(** A badger iterator: the database it walks and the items it has yet to
    visit, the current one first. *)
Record BadgerIterator := mkBadgerIterator { bi_txn : D; bi_items : list (bytes * bytes); prefix : bytes }.

(** A new iterator has not been positioned. *)
Definition NewCFIterator (cf : string) (txn : D) : BadgerIterator := mkBadgerIterator txn [] (cf_prefix cf).
Definition bi_Seek (it : BadgerIterator) (key : bytes) : BadgerIterator :=
  mkBadgerIterator (bi_txn it) (db_from (bi_txn it) (prefix it ++ key)) (prefix it).
Definition bi_Rewind (it : BadgerIterator) : BadgerIterator :=
  mkBadgerIterator (bi_txn it) (db_from (bi_txn it) []) (prefix it).
(** [iter.ValidForPrefix(prefix)] *)
Definition bi_ValidForPrefix (it : BadgerIterator) (p : bytes) : bool :=
  match bi_items it with [] => false | (k, _) :: _ => bool_decide (p `prefix_of` k) end.
Definition bi_Valid (it : BadgerIterator) : bool := bi_ValidForPrefix it (prefix it).
(** The method of [BadgerIterator], which puts the family's prefix last. *)
Definition ValidForPrefix (it : BadgerIterator) (p : bytes) : bool := bi_ValidForPrefix it (p ++ prefix it).
Definition bi_Next (it : BadgerIterator) : BadgerIterator := mkBadgerIterator (bi_txn it) (tail (bi_items it)) (prefix it).

(** [Item().Key()] and [Item().Value()]; the item of an iterator at its end is
    nil. *)
Definition bi_ItemKey {E} (it : BadgerIterator) : outcome E bytes :=
  match bi_items it with
  | [] => Panic "nil pointer dereference"
  | (k, _) :: _ => go_slice k (zlen (prefix it)) (zlen k)
  end.
Definition bi_ItemValue {E} (it : BadgerIterator) : outcome E bytes :=
  match bi_items it with [] => Panic "nil pointer dereference" | (_, v) :: _ => Ok v end.

(** The loop of [deleteRangeCF], one turn per item. *)
Fixpoint deleteRangeCF_loop (fuel : nat) (it : BadgerIterator) (batch : WriteBatch) (cf : string) (endKey : bytes) :
    outcome engine_error WriteBatch :=
  match fuel with
  | O => OutOfFuel
  | S fuel =>
    if bi_Valid it then
      key ← bi_ItemKey it;
      if ExceedEndKey key endKey then Ok batch
      else deleteRangeCF_loop fuel (bi_Next it) (wb_DeleteCF batch cf key) cf endKey
    else Ok batch
  end.
Definition deleteRangeCF (txn : D) (batch : WriteBatch) (cf : string) (startKey endKey : bytes) : outcome engine_error WriteBatch :=
  let it := bi_Seek (NewCFIterator cf txn) startKey in
  deleteRangeCF_loop (S (length (bi_items it))) it batch cf endKey.

Fixpoint deleteRange_CFs (cfs : list string) (txn : D) (batch : WriteBatch) (startKey endKey : bytes) : outcome engine_error WriteBatch :=
  match cfs with
  | [] => Ok batch
  | cf :: cfs => batch ← deleteRangeCF txn batch cf startKey endKey; deleteRange_CFs cfs txn batch startKey endKey
  end.
Definition DeleteRange (db : D) (startKey endKey : bytes) : outcome engine_error D :=
  batch ← deleteRange_CFs CFs db empty_wb startKey endKey;
  Ok (WriteToDB batch db).
End CF.
Arguments BadgerIterator : clear implicits.
End engine_util.

(** ** Keys of column families *)

(** No name of a family is a prefix of another, and none starts like the local
    keys of the raft store. *)
Lemma KeyWithCF_inj cf cf' k k' :
  cf ∈ CFs → cf' ∈ CFs → engine_util.KeyWithCF cf k = engine_util.KeyWithCF cf' k' → cf = cf' ∧ k = k'.
Proof.
  unfold CFs. intros H H' E.
  apply elem_of_cons in H as [->|[->|[->|[]%not_elem_of_nil]%elem_of_cons]%elem_of_cons];
  apply elem_of_cons in H' as [->|[->|[->|[]%not_elem_of_nil]%elem_of_cons]%elem_of_cons];
  unfold engine_util.KeyWithCF in E; (split; [done|by simplify_list_eq]) || by simplify_list_eq.
Qed.
Lemma KeyWithCF_eq cf cf' k k' :
  cf ∈ CFs → cf' ∈ CFs → engine_util.KeyWithCF cf k = engine_util.KeyWithCF cf' k' ↔ (cf, k) = (cf', k').
Proof. intros H H'. split; [|by intros [= -> ->]]. intros [-> ->]%KeyWithCF_inj; done. Qed.

Lemma KeyWithCF_not_local cf k rest : cf ∈ CFs → engine_util.KeyWithCF cf k ≠ x01 :: rest.
Proof.
  unfold CFs. intros H. apply elem_of_cons in H as [->|[->|[->|[]%not_elem_of_nil]%elem_of_cons]%elem_of_cons]; done.
Qed.

(** ** Ranges *)

(** A key without the prefix compares alike with all keys that have it. *)
Lemma Compare_no_prefix p a b k : ¬ p `prefix_of` k → Compare (p ++ a) k = Compare (p ++ b) k.
Proof.
  revert k. induction p as [|x p IH]; intros k Hp; [destruct Hp; apply prefix_nil|]. destruct k as [|y k]; [done|]. cbn.
  destruct (b2z x ?= b2z y) eqn:E; try done. apply IH. intros Hk. apply Hp. apply Z.compare_eq, (inj b2z) in E as ->. by apply prefix_cons.
Qed.

Lemma prefix_before p a k k' : ble (p ++ a) k → ¬ p `prefix_of` k → blt k k' → ¬ p `prefix_of` k'.
Proof.
  intros Hle Hp Hlt [b ->]. unfold ble in Hle. rewrite (Compare_no_prefix p a b k Hp) in Hle.
  apply (blt_irrefl k). eapply blt_ble_trans; [exact Hlt|exact Hle].
Qed.

Lemma prefix_drop (p k : bytes) : p `prefix_of` k → k = p ++ drop (length p) k.
Proof. intros [b ->]. by rewrite drop_app_length. Qed.

Section Range.
Context {D : Type} `{!Badger D}.
Import engine_util.

Lemma ExceedEndKey_spec key endKey : ExceedEndKey key endKey = true ↔ endKey ≠ [] ∧ ble endKey key.
Proof. unfold ExceedEndKey. destruct (decide _) as [->|]; [naive_solver|]. rewrite bleb_spec. naive_solver. Qed.

(** The keys the loop of [deleteRangeCF] deletes. *)
Lemma deleteRangeCF_loop_spec items fuel (txn : D) p batch cf startKey endKey :
  p = cf_prefix cf → StronglySorted (λ a b : bytes * bytes, blt a.1 b.1) items → (∀ k v, (k, v) ∈ items → ble (p ++ startKey) k) →
  (length items < fuel)%nat →
  ∃ batch' ks, deleteRangeCF_loop fuel (mkBadgerIterator txn items p) batch cf endKey = Ok batch' ∧
    wb_entries batch' = wb_entries batch ++ ((λ key, (KeyWithCF cf key, [])) <$> ks) ∧
    (∀ key, key ∈ ks → ble startKey key ∧ ExceedEndKey key endKey = false) ∧
    (∀ key v, (KeyWithCF cf key, v) ∈ items → ExceedEndKey key endKey = false → key ∈ ks).
Proof.
  intros -> Hs Hlo. revert fuel batch. induction Hs as [|[k v] items Hs IH Hk]; intros [|fuel] batch Hf; cbn in Hf; try lia.
  { exists batch, []. cbn. rewrite app_nil_r. split_and!; [done|done|by intros key H%not_elem_of_nil|by intros key v H%not_elem_of_nil]. }
  cbn [deleteRangeCF_loop]. unfold bi_Valid, bi_ValidForPrefix. cbn [bi_items prefix]. rewrite Forall_forall in Hk.
  assert (Hle : ble (cf_prefix cf ++ startKey) k) by (apply (Hlo k v); by left).
  destruct (bool_decide_reflect (cf_prefix cf `prefix_of` k)) as [Hp|Hp].
  - apply prefix_drop in Hp. set (key := drop (length (cf_prefix cf)) k) in *. clearbody key. unfold bi_ItemKey. cbn [bi_items prefix].
    assert (Hsl : go_slice (E := engine_error) k (zlen (cf_prefix cf)) (zlen k) = Ok key) by (rewrite Hp; apply go_slice_rest).
    rewrite Hsl. cbn [mbind outcome_bind].
    assert (Hsk : ble startKey key) by (rewrite Hp in Hle; unfold ble in *; by rewrite Compare_app_same in Hle).
    destruct (ExceedEndKey key endKey) eqn:Ex.
    + exists batch, []. cbn. rewrite app_nil_r. split_and!; [done|done|by intros key' H%not_elem_of_nil|].
      intros key' v' Hin Hex. exfalso. apply ExceedEndKey_spec in Ex as [He1 He2]. apply not_true_iff_false in Hex. apply Hex.
      apply ExceedEndKey_spec. split; [done|]. eapply ble_trans; [exact He2|].
      apply elem_of_cons in Hin as [[= E _]|Hin]; [rewrite Hp in E; apply app_inv_head in E as <-; apply ble_refl|].
      apply Hk in Hin. cbn in Hin. rewrite Hp in Hin. unfold KeyWithCF, blt in Hin. rewrite Compare_app_same in Hin. by apply blt_ble.
    + destruct (IH ltac:(intros; eapply Hlo; by right) fuel (wb_DeleteCF batch cf key)) as (batch' & ks & Hr & He & H1 & H2); [lia|].
      exists batch', (key :: ks). split; [exact Hr|]. split; [rewrite He; cbn; by rewrite -app_assoc|]. split.
      * intros key' [->|Hin]%elem_of_cons; [done|by apply H1].
      * intros key' v' Hin Hex. apply elem_of_cons in Hin as [[= E _]|Hin]; [|right; by eapply H2].
        rewrite Hp in E. apply app_inv_head in E as <-. by left.
  - exists batch, []. cbn. rewrite app_nil_r. split_and!; [done|done|by intros key' H%not_elem_of_nil|].
    intros key' v' [[= <- _]|Hin]%elem_of_cons; [by destruct Hp; apply prefix_app_r|]. apply Hk in Hin. cbn in Hin.
    exfalso. eapply (prefix_before _ _ _ _ Hle Hp Hin). by apply prefix_app_r.
Qed.

Lemma deleteRangeCF_spec (db : D) batch cf startKey endKey :
  db_ok db → ∃ batch' ks, deleteRangeCF db batch cf startKey endKey = Ok batch' ∧
    wb_entries batch' = wb_entries batch ++ ((λ key, (KeyWithCF cf key, [])) <$> ks) ∧
    (∀ key, key ∈ ks → ble startKey key ∧ ExceedEndKey key endKey = false) ∧
    (∀ key v, db_get db (KeyWithCF cf key) = Some v → ble startKey key → ExceedEndKey key endKey = false → key ∈ ks).
Proof.
  intros Hok. unfold deleteRangeCF, bi_Seek, NewCFIterator. cbn [bi_txn prefix bi_items].
  destruct (deleteRangeCF_loop_spec (db_from db (cf_prefix cf ++ startKey)) (S (length (db_from db (cf_prefix cf ++ startKey)))) db (cf_prefix cf)
    batch cf startKey endKey eq_refl (db_from_sorted _ _ Hok)) as (batch' & ks & Hr & He & H1 & H2); [|lia|].
  - intros k v [_ H]%db_from_elem; done.
  - exists batch', ks. split_and!; [done|done|done|]. intros key v Hg Hle Hex. eapply (H2 key v); [|done]. apply db_from_elem; [done|].
    split; [done|]. unfold KeyWithCF, ble. by rewrite Compare_app_same.
Qed.

(** A batch of deletions. *)
Lemma wb_last_deletes es k : Forall (λ e : bytes * bytes, e.2 = []) es → wb_last es k = if decide (k ∈ es.*1) then Some [] else None.
Proof.
  induction es as [|[k' v'] es IH] using rev_ind; intros H; [by destruct (decide _) as [?%not_elem_of_nil|]|].
  apply Forall_app in H as [H Hv]. rewrite Forall_singleton in Hv. cbn in Hv. rewrite Hv wb_last_app wb_last_single IH //.
  rewrite fmap_app. cbn. destruct (decide (k = k')) as [->|Hne].
  - destruct (decide (k' ∈ es.*1 ++ [k'])) as [|Hn]; [done|]. destruct Hn. apply elem_of_app. right. by left.
  - apply decide_ext. rewrite elem_of_app list_elem_of_singleton. naive_solver.
Qed.

(** [DeleteRange] deletes exactly the keys of the range, in the three column
    families, and keeps every other key of the engine. *)
Theorem DeleteRange_spec (db : D) startKey endKey :
  db_ok db → ∃ db', DeleteRange db startKey endKey = Ok db' ∧ db_ok db' ∧
    (∀ cf key, cf ∈ CFs → ble startKey key → ExceedEndKey key endKey = false → db_get db' (KeyWithCF cf key) = None) ∧
    (∀ k, (∀ cf key, cf ∈ CFs → ble startKey key → ExceedEndKey key endKey = false → k ≠ KeyWithCF cf key) → db_get db' k = db_get db k).
Proof.
  intros Hok. unfold DeleteRange.
  assert (Hall : ∀ cfs batch, (∀ cf, cf ∈ cfs → cf ∈ CFs) → ∃ batch' ws, deleteRange_CFs cfs db batch startKey endKey = Ok batch' ∧
    wb_entries batch' = wb_entries batch ++ ws ∧ Forall (λ e, e.2 = []) ws ∧
    (∀ k, k ∈ ws.*1 → ∃ cf key, cf ∈ CFs ∧ ble startKey key ∧ ExceedEndKey key endKey = false ∧ k = KeyWithCF cf key) ∧
    (∀ cf key v, cf ∈ cfs → db_get db (KeyWithCF cf key) = Some v → ble startKey key → ExceedEndKey key endKey = false → KeyWithCF cf key ∈ ws.*1)).
  { induction cfs as [|cf cfs IH]; intros batch Hcfs; cbn [deleteRange_CFs].
    { exists batch, []. rewrite app_nil_r. split_and!; [done|done|constructor|by intros k H%not_elem_of_nil|by intros cf key v H%not_elem_of_nil]. }
    destruct (deleteRangeCF_spec db batch cf startKey endKey Hok) as (b1 & ks & -> & He & H1 & H2). cbn [mbind outcome_bind].
    destruct (IH b1) as (b2 & ws & -> & He2 & Hv & H3 & H4); [intros; apply Hcfs; by right|].
    exists b2, (((λ key, (KeyWithCF cf key, [])) <$> ks) ++ ws). split; [done|]. split; [by rewrite He2 He app_assoc|].
    split; [apply Forall_app; split; [by apply Forall_fmap, Forall_true|done]|]. rewrite fmap_app -list_fmap_compose. split.
    - intros k [(key & -> & Hin)%list_elem_of_fmap|Hin]%elem_of_app; [|by apply H3]. exists cf, key. destruct (H1 _ Hin). split_and!; [apply Hcfs; by left|done..].
    - intros cf' key v [->|Hcf]%elem_of_cons Hg Hle Hex; apply elem_of_app; [left|right; by eapply H4]. apply list_elem_of_fmap. exists key. split; [done|]. by eapply H2. }
  destruct (Hall CFs empty_wb) as (b & ws & -> & He & Hv & H1 & H2); [done|]. cbn [mbind outcome_bind]. eexists. split; [done|]. cbn in He.
  split; [by apply WriteToDB_ok|]. split.
  - intros cf key Hcf Hle Hex. rewrite WriteToDB_get // He wb_last_deletes //. destruct (decide _) as [|Hn]; [done|].
    destruct (db_get db (KeyWithCF cf key)) as [v|] eqn:Eg; [|done]. destruct Hn. by eapply H2.
  - intros k Hk. rewrite WriteToDB_get // He wb_last_deletes //. destruct (decide _) as [Hin|]; [|done].
    destruct (H1 _ Hin) as (cf & key & Hcf & Hle & Hex & ->). by destruct (Hk cf key Hcf Hle Hex).
Qed.
End Range.

Lemma DeleteRange_spec_witness :
  ∃ db', engine_util.DeleteRange (D := bdb) [(engine_util.KeyWithCF CfDefault [x61], [x76]); (engine_util.KeyWithCF CfDefault [x63], [x77])] [x61] [x62] = Ok db' ∧
    db_get db' (engine_util.KeyWithCF CfDefault [x61]) = None ∧ db_get db' (engine_util.KeyWithCF CfDefault [x63]) = Some [x77].
Proof.
  destruct (DeleteRange_spec (D := bdb) [(engine_util.KeyWithCF CfDefault [x61], [x76]); (engine_util.KeyWithCF CfDefault [x63], [x77])] [x61] [x62])
    as (db' & E & _ & H1 & H2); [repeat constructor|].
  exists db'. split; [exact E|]. split; [by apply H1; [apply CfDefault_CFs|..]|]. rewrite H2; [done|].
  intros cf key Hcf _ Hex [_ <-]%KeyWithCF_inj; [|apply CfDefault_CFs|done]. done.
Defined.
