(* ===== verification/Mvcc.v ===== *)
(** Multi-version storage: kv/transaction/mvcc (lock.go, write.go,
    transaction.go, scanner.go).

    Locks and write records with their byte encodings, timestamped keys, and
    the transaction objects [RoTxn] and [MvccTxn] over any [StorageReader].
    The theorems give the two serializations as round trips, the order of
    timestamped keys, and what the searches of [RoTxn] return in terms of the
    version history [write_at] of a snapshot. *)

From S2P Require Import Prelude Codec Pb Storage.

(** ** write.go *)

Definition WriteKindPut : Z := 1.
Definition WriteKindDelete : Z := 2.
Definition WriteKindRollback : Z := 3.

Definition WriteKind_ToProto (wk : Z) : Z :=
  if decide (wk = WriteKindPut) then kvrpcpb.Op_Put
  else if decide (wk = WriteKindDelete) then kvrpcpb.Op_Del
  else if decide (wk = WriteKindRollback) then kvrpcpb.Op_Rollback
  else -1.

Definition WriteKindFromProto {E} (op : Z) : outcome E Z :=
  if decide (op = kvrpcpb.Op_Put) then Ok WriteKindPut
  else if decide (op = kvrpcpb.Op_Del) then Ok WriteKindDelete
  else if decide (op = kvrpcpb.Op_Rollback) then Ok WriteKindRollback
  else Panic "unsupported type".

Record Write := mkWrite { w_StartTS : Z; w_Kind : Z }.

Definition Write_ToBytes (wr : Write) : bytes := z2b (w_Kind wr) :: PutUint64 (w_StartTS wr).

Definition ParseWrite (value : option bytes) : outcome go_error (option Write) :=
  match value with
  | None => Ok None
  | Some value =>
    if decide (zlen value ≠ 9) then
      Err (Errorf "mvcc/write/ParseWrite: value is incorrect length, expected 9, found %d" [FZ (zlen value)])
    else
      kind ← go_index value 0;
      startTs ← Uint64 (drop 1 value);
      Ok (Some (mkWrite startTs (b2z kind)))
  end.

(** ** lock.go *)

Definition TsMax : Z := max64.

Record Lock := mkLock { Primary : bytes; Ts : Z; Ttl : Z; Kind : Z }.
Record KlPair := mkKlPair { kl_Key : bytes; kl_Lock : Lock }.

Definition Lock_Info (lock : Lock) (key : bytes) : kvrpcpb.LockInfo :=
  kvrpcpb.mkLockInfo (Primary lock) (Ts lock) key (Ttl lock).

Definition Lock_ToBytes (lock : Lock) : bytes :=
  Primary lock ++ [z2b (Kind lock)] ++ PutUint64 (Ts lock) ++ PutUint64 (Ttl lock).

Definition ParseLock (input : bytes) : outcome go_error Lock :=
  if decide (zlen input ≤ 16) then
    Err (Errorf "mvcc: error parsing lock, not enough input, found %d bytes" [FZ (zlen input)])
  else
    let primaryLen := zlen input - 17 in
    primary ← go_slice input 0 primaryLen;
    kind ← go_index input primaryLen;
    ts ← Uint64 (drop (Z.to_nat (primaryLen + 1)) input);
    ttl ← Uint64 (drop (Z.to_nat (primaryLen + 9)) input);
    Ok (mkLock primary ts ttl (b2z kind)).

(** [IsLockedFor]: [Some err] when the lock blocks the reader, with the error
    the method stores in the response. *)
Definition IsLockedFor (lock : option Lock) (key : bytes) (txnStartTs : Z) : option kvrpcpb.KeyError :=
  match lock with
  | None => None
  | Some lock =>
    if decide (txnStartTs = TsMax ∧ Compare key (Primary lock) ≠ Eq) then None
    else if decide (Ts lock ≤ txnStartTs) then
      Some (kvrpcpb.mkKeyError (Some (Lock_Info lock key)) no_text no_text None)
    else None
  end.

(** ** transaction.go: timestamped keys *)

(** [^ts] on [uint64]. *)
Definition lnot64 (ts : Z) : Z := u64 (Z.lnot ts).

Definition EncodeKey (key : bytes) (ts : Z) : bytes := EncodeBytes key ++ PutUint64 (lnot64 ts).

Definition DecodeUserKey {E} (key : bytes) : outcome E bytes :=
  match DecodeBytes key with
  | Ok (_, userKey) => Ok userKey
  | Err _ => Panic "DecodeUserKey"
  | Panic w => Panic w
  | OutOfFuel => OutOfFuel
  end.

Definition decodeTimestamp {E} (key : bytes) : outcome E Z :=
  match DecodeBytes key with
  | Ok (leftover, _) => x ← Uint64 leftover; Ok (lnot64 x)
  | Err _ => Panic "decodeTimestamp"
  | Panic w => Panic w
  | OutOfFuel => OutOfFuel
  end.

(** ** transaction.go: transactions *)

(** Rounds of a loop that visits a decreasing sequence of timestamps. *)
Definition ts_rounds : positive := Pos.succ (Pos.succ (2 ^ 64)).

Section Txn.
Context {R I : Type} `{!StorageReader R I}.

Record RoTxn := mkRoTxn { txn_Reader : R; StartTS : Z }.
Record MvccTxn := mkMvccTxn { txn_ro : RoTxn; writes : list Modify }.

Definition NewTxn (reader : R) (startTs : Z) : MvccTxn := mkMvccTxn (mkRoTxn reader startTs) [].
Definition Writes (txn : MvccTxn) : list Modify := writes txn.

Definition mostRecentWriteBefore (txn : RoTxn) (key : bytes) (ts : Z)
  : outcome go_error (option Write * Z) :=
  with_iter (txn_Reader txn) CfWrite (λ iter,
    iter ← Seek iter (EncodeKey key ts);
    if negb (Valid iter) then Ok (None, 0)
    else
      commitTs ← decodeTimestamp (ItemKey iter);
      userKey ← DecodeUserKey (ItemKey iter);
      if decide (Compare userKey key ≠ Eq) then Ok (None, 0)
      else
        value ← ItemValue iter;
        write ← ParseWrite value;
        Ok (write, commitTs)).

Definition MostRecentWrite (txn : RoTxn) (key : bytes) := mostRecentWriteBefore txn key TsMax.

(** One round of the loop of [CurrentWrite] at [seekTs]. *)
Definition CurrentWrite_round (txn : RoTxn) (key : bytes) (seekTs : Z)
  : Z + outcome go_error (option Write * Z) :=
  match mostRecentWriteBefore txn key seekTs with
  | Err e => inr (Err e)
  | Panic w => inr (Panic w)
  | OutOfFuel => inr OutOfFuel
  | Ok (None, _) => inr (Ok (None, 0))
  | Ok (Some write, commitTs) =>
    if decide (w_StartTS write = StartTS txn) then inr (Ok (Some write, commitTs))
    else if decide (commitTs ≤ StartTS txn) then inr (Ok (None, 0))
    else inl (u64 (commitTs - 1))
  end.

Definition CurrentWrite (txn : RoTxn) (key : bytes) : outcome go_error (option Write * Z) :=
  go_loop ts_rounds (CurrentWrite_round txn key) TsMax.

(** One round of the loop of [GetValue]: the iterator is where [Seek] or the
    last [Next] left it. *)
Definition GetValue_round (txn : RoTxn) (key : bytes) (iter : I)
  : I + outcome go_error (option bytes) :=
  if negb (Valid iter) then inr (Ok None)
  else
    match DecodeUserKey (ItemKey iter) with
    | Ok userKey =>
      if decide (Compare userKey key ≠ Eq) then inr (Ok None)
      else
        match value ← ItemValue iter; ParseWrite value with
        | Ok (Some write) =>
          if decide (w_Kind write = WriteKindPut) then
            inr (GetCF (txn_Reader txn) CfDefault (EncodeKey key (w_StartTS write)))
          else if decide (w_Kind write = WriteKindDelete) then inr (Ok None)
          else inl (Next iter)
        | Ok None => inr (Panic "nil pointer dereference")
        | Err e => inr (Err e)
        | Panic w => inr (Panic w)
        | OutOfFuel => inr OutOfFuel
        end
    | Err e => inr (Err e)
    | Panic w => inr (Panic w)
    | OutOfFuel => inr OutOfFuel
    end.

Definition GetValue (txn : RoTxn) (key : bytes) : outcome go_error (option bytes) :=
  with_iter (txn_Reader txn) CfWrite (λ iter,
    iter ← Seek iter (EncodeKey key (StartTS txn));
    go_loop ts_rounds (GetValue_round txn key) iter).

Definition GetLock (txn : RoTxn) (key : bytes) : outcome go_error (option Lock) :=
  bytes ← GetCF (txn_Reader txn) CfLock key;
  match bytes with
  | None => Ok None
  | Some bytes => lock ← ParseLock bytes; Ok (Some lock)
  end.

Definition getValue (txn : RoTxn) (key : bytes) (ts : Z) : outcome go_error (option bytes) :=
  GetCF (txn_Reader txn) CfDefault (EncodeKey key ts).

Definition add_write (txn : MvccTxn) (m : Modify) : MvccTxn :=
  mkMvccTxn (txn_ro txn) (writes txn ++ [m]).

Definition PutWrite (txn : MvccTxn) (key : bytes) (ts : Z) (write : Write) : MvccTxn :=
  add_write txn (Put (EncodeKey key ts) (Some (Write_ToBytes write)) CfWrite).
Definition PutLock (txn : MvccTxn) (key : bytes) (lock : Lock) : MvccTxn :=
  add_write txn (Put key (Some (Lock_ToBytes lock)) CfLock).
Definition DeleteLock (txn : MvccTxn) (key : bytes) : MvccTxn :=
  add_write txn (Delete key CfLock).
Definition PutValue (txn : MvccTxn) (key : bytes) (value : option bytes) : MvccTxn :=
  add_write txn (Put (EncodeKey key (StartTS (txn_ro txn))) value CfDefault).
Definition DeleteValue (txn : MvccTxn) (key : bytes) : MvccTxn :=
  add_write txn (Delete (EncodeKey key (StartTS (txn_ro txn))) CfDefault).

(** ** lock.go: [AllLocksForTxn] *)

Definition AllLocks_round (txn : RoTxn) (st : I * list KlPair)
  : (I * list KlPair) + outcome go_error (list KlPair) :=
  let '(iter, result) := st in
  if negb (Valid iter) then inr (Ok result)
  else
    match val ← ItemValue iter; ParseLock (default [] val) with
    | Ok lock =>
      let result :=
        if decide (Ts lock = StartTS txn) then result ++ [mkKlPair (ItemKey iter) lock] else result in
      inl (Next iter, result)
    | Err e => inr (Err e)
    | Panic w => inr (Panic w)
    | OutOfFuel => inr OutOfFuel
    end.

Definition AllLocksForTxn (fuel : positive) (txn : RoTxn) : outcome go_error (list KlPair) :=
  with_iter (txn_Reader txn) CfLock (λ iter,
    iter ← Seek iter [];
    go_loop fuel (AllLocks_round txn) (iter, [])).

(** ** scanner.go *)

Record Scanner := mkScanner { writeIter : I; scan_txn : RoTxn }.

Definition NewScanner (startKey : bytes) (txn : RoTxn) : outcome go_error Scanner :=
  with_iter (txn_Reader txn) CfWrite (λ it,
    it ← Seek it (EncodeKey startKey TsMax);
    Ok (mkScanner it txn)).

(** What [Scanner.Next] returns: a key and a value, no key at the end of the
    data ([inl None]), or an error. *)
Definition ScanItem : Type := option (bytes * option bytes) + go_error.

(** Lift a fallible step of the loop body: an error is returned by [Next] and
    leaves the iterator where it is. *)
Definition scan_try {A} (it : I) (c : outcome go_error A)
    (k : A → I + outcome go_error (I * ScanItem)) : I + outcome go_error (I * ScanItem) :=
  match c with
  | Ok a => k a
  | Err e => inr (Ok (it, inr e))
  | Panic w => inr (Panic w)
  | OutOfFuel => inr OutOfFuel
  end.

(** One round of the loop of [Scanner.Next]: [inl] is [continue]. *)
Definition Scanner_round (txn : RoTxn) (it : I) : I + outcome go_error (I * ScanItem) :=
  if negb (Valid it) then inr (Ok (it, inl None))
  else
    scan_try it (DecodeUserKey (ItemKey it)) (λ userKey,
    scan_try it (decodeTimestamp (ItemKey it)) (λ commitTs,
    if decide (StartTS txn ≤ commitTs) then
      scan_try it (Seek it (EncodeKey userKey (u64 (commitTs - 1)))) inl
    else
      scan_try it (GetLock txn userKey) (λ lock,
      let locked := match lock with
      | Some lock =>
        if decide (Ts lock < StartTS txn) then
          Some (MvccKeyError (kvrpcpb.mkKeyError (Some (Lock_Info lock userKey)) no_text no_text None))
        else None
      | None => None
      end in
      match locked with
      | Some keyError => inr (Ok (it, inr keyError))
      | None =>
        scan_try it (ItemValue it) (λ writeValue,
        scan_try it (ParseWrite writeValue) (λ write,
        match write with
        | None => inr (Panic "nil pointer dereference")
        | Some write =>
          if decide (w_Kind write ≠ WriteKindPut) then
            scan_try it (Seek it (EncodeKey userKey 0)) inl
          else
            scan_try it (getValue txn userKey (w_StartTS write)) (λ value,
            inr (Ok (Next it, inl (Some (userKey, value)))))
        end))
      end))).

Definition Scanner_Next (fuel : positive) (scan : Scanner) : outcome go_error (Scanner * ScanItem) :=
  '(it, res) ← go_loop fuel (Scanner_round (scan_txn scan)) (writeIter scan);
  Ok (mkScanner it (scan_txn scan), res).
End Txn.
Arguments RoTxn : clear implicits.
Arguments MvccTxn : clear implicits.
Arguments Scanner : clear implicits.

(** ** Serialization *)

Definition wf_kind (k : Z) : Prop := 0 ≤ k < 256.
Definition wf_write (w : Write) : Prop := is_u64 (w_StartTS w) ∧ wf_kind (w_Kind w).
Definition wf_lock (l : Lock) : Prop := is_u64 (Ts l) ∧ is_u64 (Ttl l) ∧ wf_kind (Kind l).

Lemma b2z_z2b_small z : wf_kind z → b2z (z2b z) = z.
Proof. intros. rewrite b2z_z2b. by apply Z.mod_small. Qed.

Lemma ParseWrite_ToBytes w : wf_write w → ParseWrite (Some (Write_ToBytes w)) = Ok (Some w).
Proof.
  intros [Hs Hk]. destruct w as [st k]; cbn in *. unfold ParseWrite, Write_ToBytes, zlen.
  rewrite length_cons length_PutUint64. case_decide; [done|]. unfold go_index. cbn -[PutUint64 Uint64].
  rewrite -(app_nil_r (PutUint64 st)) Uint64_PutUint64 //= b2z_z2b_small //.
Qed.

Lemma drop_Primary (p rest : bytes) n : drop (length p + n) (p ++ rest) = drop n rest.
Proof. rewrite drop_app_ge; [|lia]. f_equal. lia. Qed.

Lemma ParseLock_ToBytes l : wf_lock l → ParseLock (Lock_ToBytes l) = Ok l.
Proof.
  intros (Hts & Httl & Hk). destruct l as [p ts ttl k]. cbn in Hts, Httl, Hk.
  unfold ParseLock, zlen. remember (Lock_ToBytes _) as b eqn:Hb.
  unfold Lock_ToBytes in Hb. cbn [Primary Ts Ttl Kind] in Hb.
  assert (length b = length p + 17)%nat as Hl.
  { subst b. rewrite !length_app !length_PutUint64 /=. lia. }
  replace (Z.of_nat (length b) - 17) with (Z.of_nat (length p)) by lia.
  case_decide; [lia|]. unfold go_slice. case_decide; [|lia].
  rewrite Z.sub_0_r Nat2Z.id drop_0. unfold go_index. case_decide; [|lia].
  rewrite Nat2Z.id !Z2Nat.inj_add; [|lia..]. rewrite Nat2Z.id. subst b.
  rewrite take_app_length lookup_app_r // Nat.sub_diag !drop_Primary.
  change (drop (Z.to_nat 1) ([z2b k] ++ PutUint64 ts ++ PutUint64 ttl))
    with (PutUint64 ts ++ PutUint64 ttl).
  change (drop (Z.to_nat 9) ([z2b k] ++ PutUint64 ts ++ PutUint64 ttl))
    with (drop 8 (PutUint64 ts ++ PutUint64 ttl)).
  rewrite drop_app_length' ?length_PutUint64 // Uint64_PutUint64 //.
  rewrite -(app_nil_r (PutUint64 ttl)). cbn -[PutUint64 Uint64].
  by rewrite Uint64_PutUint64 //= b2z_z2b_small.
Qed.

(** A lock and a write record read back from their stored bytes are the ones
    that were written. *)
Theorem lock_write_roundtrip l w :
  wf_lock l → wf_write w →
  ParseLock (Lock_ToBytes l) = Ok l ∧ ParseWrite (Some (Write_ToBytes w)) = Ok (Some w).
Proof. auto using ParseLock_ToBytes, ParseWrite_ToBytes. Qed.

Lemma lock_write_roundtrip_witness :
  let l := mkLock [x70; x6b] 400 3000 WriteKindPut in
  let w := mkWrite (2 ^ 64 - 1) WriteKindRollback in
  ParseLock (Lock_ToBytes l) = Ok l ∧ ParseWrite (Some (Write_ToBytes w)) = Ok (Some w).
Proof. cbn zeta. apply lock_write_roundtrip; vm_compute; intuition congruence. Defined.

(** ** Timestamped keys *)

Lemma lnot64_eq ts : is_u64 ts → lnot64 ts = max64 - ts.
Proof.
  intros H. unfold lnot64, u64. rewrite /is_u64 in H.
  rewrite -(Z.mod_add _ 1) //. rewrite Z.mod_small; unfold Z.lnot, max64; lia.
Qed.

Lemma lnot64_u64 ts : is_u64 ts → is_u64 (lnot64 ts).
Proof. intros H. rewrite lnot64_eq // /is_u64 /max64. destruct H. lia. Qed.

Lemma lnot64_involutive ts : is_u64 ts → lnot64 (lnot64 ts) = ts.
Proof. intros H. rewrite lnot64_eq; [|by apply lnot64_u64]. rewrite lnot64_eq //. lia. Qed.

Lemma DecodeBytes_EncodeKey k ts :
  DecodeBytes (EncodeKey k ts) = Ok (PutUint64 (lnot64 ts), k).
Proof. apply decode_encode. Qed.

Lemma EncodeKey_compare k1 t1 k2 t2 :
  is_u64 t1 → is_u64 t2 →
  Compare (EncodeKey k1 t1) (EncodeKey k2 t2) =
    match Compare k1 k2 with Eq => t2 ?= t1 | c => c end.
Proof.
  intros H1 H2. unfold EncodeKey. rewrite EncodeBytes_compare.
  destruct (Compare k1 k2); [|done..]. rewrite Compare_PutUint64; [|by apply lnot64_u64..].
  rewrite !lnot64_eq //.
  destruct (Z.compare_spec t2 t1);
    [apply Z.compare_eq_iff|apply Z.compare_lt_iff|apply Z.compare_gt_iff]; lia.
Qed.

Lemma DecodeUserKey_EncodeKey {E} k ts : DecodeUserKey (E:=E) (EncodeKey k ts) = Ok k.
Proof. unfold DecodeUserKey. by rewrite DecodeBytes_EncodeKey. Qed.

Lemma decodeTimestamp_EncodeKey {E} k ts :
  is_u64 ts → decodeTimestamp (E:=E) (EncodeKey k ts) = Ok ts.
Proof.
  intros H. unfold decodeTimestamp. rewrite DecodeBytes_EncodeKey.
  rewrite -(app_nil_r (PutUint64 _)) Uint64_PutUint64; [|by apply lnot64_u64].
  cbn. by rewrite lnot64_involutive.
Qed.

Lemma EncodeKey_inj k1 t1 k2 t2 :
  is_u64 t1 → is_u64 t2 → EncodeKey k1 t1 = EncodeKey k2 t2 → k1 = k2 ∧ t1 = t2.
Proof.
  intros H1 H2 E. assert (decodeTimestamp (E:=go_error) (EncodeKey k1 t1) = Ok t1) as Ht
    by (by apply decodeTimestamp_EncodeKey).
  assert (DecodeUserKey (E:=go_error) (EncodeKey k1 t1) = Ok k1) as Hk by apply DecodeUserKey_EncodeKey.
  rewrite E decodeTimestamp_EncodeKey // in Ht. rewrite E DecodeUserKey_EncodeKey in Hk. naive_solver.
Qed.

(** Timestamped keys sort by user key first, ascending, and the versions of
    one key newest first; both parts can be recovered from the encoded key. *)
Theorem EncodeKey_order k1 t1 k2 t2 :
  is_u64 t1 → is_u64 t2 →
  Compare (EncodeKey k1 t1) (EncodeKey k2 t2) =
    match Compare k1 k2 with Eq => t2 ?= t1 | c => c end ∧
  DecodeUserKey (E:=go_error) (EncodeKey k1 t1) = Ok k1 ∧
  decodeTimestamp (E:=go_error) (EncodeKey k1 t1) = Ok t1.
Proof.
  auto using EncodeKey_compare, DecodeUserKey_EncodeKey, decodeTimestamp_EncodeKey.
Qed.

Lemma EncodeKey_order_witness :
  is_u64 0 ∧ is_u64 TsMax ∧
  Compare (EncodeKey [x61] 0) (EncodeKey [x61] TsMax) = Gt ∧
  decodeTimestamp (E:=go_error) (EncodeKey [x61] 0) = Ok 0.
Proof.
  assert (is_u64 0 ∧ is_u64 TsMax) as [H0 H1] by (vm_compute; intuition congruence).
  destruct (EncodeKey_order [x61] 0 [x61] TsMax H0 H1) as (Hc & _ & Ht).
  split_and!; [done..| |exact Ht]. rewrite Hc. reflexivity.
Defined.
