(* ===== verification/MvccSpec.v ===== *)
(** What the searches of kv/transaction/mvcc compute.

    [write_at] reads a column family of timestamped keys as a version history:
    for a user key and a commit timestamp, the write record committed there.
    Against any reader that keeps the promises of [ReaderLaws], the theorems
    describe [mostRecentWriteBefore], [CurrentWrite] and [GetValue] by that
    history alone, and show that their loops end. *)

From S2P Require Import Prelude Codec Pb Storage Mvcc.

#[local] Opaque Write_ToBytes ParseWrite Lock_ToBytes ParseLock EncodeKey DecodeUserKey decodeTimestamp.

(** ** Version histories *)

(** Every entry of the write column family is a record under a timestamped key. *)
Definition wf_writes (c : cfmap) : Prop :=
  ∀ ek v, c !! ek = Some v →
  ∃ k ts w, ek = EncodeKey k ts ∧ is_u64 ts ∧ v = Some (Write_ToBytes w) ∧ wf_write w.

Definition write_at (c : cfmap) (k : bytes) (ts : Z) : option Write :=
  match c !! EncodeKey k ts with
  | Some v => match ParseWrite v with Ok w => w | _ => None end
  | None => None
  end.

Lemma write_at_Some c k ts w :
  wf_writes c → write_at c k ts = Some w →
  c !! EncodeKey k ts = Some (Some (Write_ToBytes w)) ∧ wf_write w.
Proof.
  intros Hwf. unfold write_at. destruct (c !! EncodeKey k ts) as [v|] eqn:E; [|done].
  destruct (Hwf _ _ E) as (? & ? & w' & _ & _ & -> & Hw). rewrite ParseWrite_ToBytes //. naive_solver.
Qed.

Lemma write_at_lookup c k ts w :
  wf_write w → c !! EncodeKey k ts = Some (Some (Write_ToBytes w)) → write_at c k ts = Some w.
Proof. intros Hw E. unfold write_at. by rewrite E ParseWrite_ToBytes. Qed.

(** The newest record of [k] committed strictly before [b]. *)
Definition newest (c : cfmap) (k : bytes) (b : Z) (o : option (Z * Write)) : Prop :=
  match o with
  | Some (t, w) => is_u64 t ∧ t < b ∧ write_at c k t = Some w ∧
      ∀ t', is_u64 t' → t < t' < b → write_at c k t' = None
  | None => ∀ t', is_u64 t' → t' < b → write_at c k t' = None
  end.

(** Position of an iterator that looks for the versions of [k] below [b]:
    either on the newest one, or past them. *)
Definition at_newest (c : cfmap) (k : bytes) (b : Z) (o : option (bytes * option bytes)) : Prop :=
  (∃ t w, o = Some (EncodeKey k t, Some (Write_ToBytes w)) ∧ wf_write w ∧ newest c k b (Some (t, w))) ∨
  (newest c k b None ∧
   (o = None ∨ ∃ k' t v, o = Some (EncodeKey k' t, v) ∧ is_u64 t ∧ k' ≠ k)).

Lemma least_at_newest c k b P o :
  wf_writes c →
  (∀ k' t, is_u64 t → P (EncodeKey k' t) ↔ (k' = k ∧ t < b) ∨ blt k k') →
  least c P o → at_newest c k b o.
Proof.
  intros Hwf HP Hl. destruct o as [[ek v]|]; cbn in Hl.
  - destruct Hl as (Hv & HPe & Hmin).
    destruct (Hwf _ _ Hv) as (k' & t & w & -> & Ht & -> & Hw).
    assert (∀ t', is_u64 t' → t' < b → ∀ w', write_at c k t' = Some w' →
      ble (EncodeKey k' t) (EncodeKey k t')) as Hmin'.
    { intros t' Ht' Hb w' [Hw' _]%write_at_Some; [|done]. eapply Hmin; [done|]. apply HP; auto. }
    apply HP in HPe as [[-> Hb]|Hlt]; [left|right|done].
    + exists t, w. do 2 (split; [done|]). split_and!; try done; [by apply write_at_lookup|].
      intros t' Ht' [? ?]. destruct (write_at c k t') as [w'|] eqn:E; [exfalso|done].
      apply (Hmin' t') in E; [|done..]. unfold ble in E.
      rewrite EncodeKey_compare // Compare_refl in E. by destruct (Z.compare_spec t' t); try lia.
    + split; [|right; exists k', t, (Some (Write_ToBytes w)); split_and!; [done..|];
        intros ->; by apply blt_irrefl in Hlt].
      intros t' Ht' Hb. destruct (write_at c k t') as [w'|] eqn:E; [exfalso|done].
      apply (Hmin' t') in E; [|done..]. unfold ble in E. rewrite EncodeKey_compare // in E.
      rewrite Compare_antisym Hlt in E. done.
  - right. split; [|by left]. intros t' Ht' Hb.
    destruct (write_at c k t') as [w'|] eqn:E; [exfalso|done].
    apply write_at_Some in E as [E _]; [|done]. eapply Hl; [done|]. apply HP; auto.
Qed.

Lemma seek_bound k ts k' t :
  is_u64 ts → is_u64 t → ble (EncodeKey k ts) (EncodeKey k' t) ↔ (k' = k ∧ t < ts + 1) ∨ blt k k'.
Proof.
  intros Hts Ht. unfold ble, blt. rewrite EncodeKey_compare //.
  destruct (Compare k k') eqn:E; [|naive_solver|].
  - apply Compare_eq in E as ->. destruct (Z.compare_spec t ts); naive_solver lia.
  - split; [done|]. intros [[-> _]|]; [by rewrite Compare_refl in E|congruence].
Qed.

Lemma next_bound k ts k' t :
  is_u64 ts → is_u64 t → blt (EncodeKey k ts) (EncodeKey k' t) ↔ (k' = k ∧ t < ts) ∨ blt k k'.
Proof.
  intros Hts Ht. unfold blt. rewrite EncodeKey_compare //.
  destruct (Compare k k') eqn:E; [|naive_solver|].
  - apply Compare_eq in E as ->. destruct (Z.compare_spec t ts); naive_solver lia.
  - split; [done|]. intros [[-> _]|]; [by rewrite Compare_refl in E|congruence].
Qed.

(** Records that carry data: a rollback (and any other kind) is skipped by a
    reader. *)
Definition is_data (w : Write) : Prop := w_Kind w = WriteKindPut ∨ w_Kind w = WriteKindDelete.
#[export] Instance is_data_dec w : Decision (is_data w).
Proof. unfold is_data. apply _. Defined.

(** The version of [k] a reader sees strictly before [b]. *)
Definition visible (c : cfmap) (k : bytes) (b : Z) (o : option (Z * Write)) : Prop :=
  match o with
  | Some (t, w) => is_u64 t ∧ t < b ∧ write_at c k t = Some w ∧ is_data w ∧
      ∀ t' w', is_u64 t' → t < t' < b → write_at c k t' = Some w' → ¬ is_data w'
  | None => ∀ t' w', is_u64 t' → t' < b → write_at c k t' = Some w' → ¬ is_data w'
  end.

(** The value that version stands for: the data column family at its start
    timestamp for a put, nothing for a deletion. *)
Definition version_value (d : cfmap) (k : bytes) (o : option (Z * Write)) : option bytes :=
  match o with
  | Some (_, w) => if decide (w_Kind w = WriteKindPut) then mjoin (d !! EncodeKey k (w_StartTS w)) else None
  | None => None
  end.

Section Searches.
Context {R I : Type} `{!StorageReader R I, !ReaderLaws R I}.
Implicit Types (txn : RoTxn R) (k : bytes).

(** The write column family a transaction reads. *)
Definition history txn : cfmap := view (txn_Reader txn) CfWrite.


(** Opening an iterator on the write column family and seeking [k] at [ts]
    puts it on the newest version of [k] not after [ts]. *)
Lemma seek_write txn k ts :
  wf_writes (history txn) → is_u64 ts →
  ∃ it0 it, IterCF (txn_Reader txn) CfWrite = Some it0 ∧ Seek it0 (EncodeKey k ts) = Ok it ∧
    iter_ok it ∧ src it = history txn ∧ at_newest (history txn) k (ts + 1) (pos it).
Proof.
  intros Hwf Hts. destruct (iter_law (txn_Reader txn) CfWrite CfWrite_CFs) as (it0 & E0 & Hok0 & Hsrc0).
  destruct (seek_law it0 (EncodeKey k ts) Hok0) as (it & E & Hok & Hsrc & Hl).
  exists it0, it. split_and!; [done..|by rewrite Hsrc|].
  rewrite Hsrc0 in Hl. eapply least_at_newest; [done| |exact Hl].
  intros k' t Ht. by apply seek_bound.
Qed.

Lemma mostRecentWriteBefore_newest txn k ts :
  wf_writes (history txn) → is_u64 ts →
  ∃ o, newest (history txn) k (ts + 1) o ∧
    mostRecentWriteBefore txn k ts =
      Ok match o with Some (t, w) => (Some w, t) | None => (None, 0) end.
Proof.
  intros Hwf Hts. unfold mostRecentWriteBefore, with_iter.
  destruct (seek_write txn k ts Hwf Hts) as (it0 & it & -> & E & Hok & Hsrc & Hat).
  rewrite E. cbn. rewrite valid_law //.
  destruct Hat as [(t & w & Hp & Hw & Hn)|[Hn [Hp|(k' & t & v & Hp & Ht & Hne)]]]; rewrite Hp.
  - exists (Some (t, w)). split; [done|]. destruct Hn as (Ht & _). cbn.
    rewrite (key_law _ _ _ Hok Hp) (value_law _ _ _ Hok Hp) decodeTimestamp_EncodeKey //=.
    rewrite DecodeUserKey_EncodeKey /= Compare_refl. case_decide; [done|].
    by rewrite ParseWrite_ToBytes.
  - by exists None.
  - exists None. split; [done|]. cbn.
    rewrite (key_law _ _ _ Hok Hp) decodeTimestamp_EncodeKey //= DecodeUserKey_EncodeKey /=.
    case_decide as Hc; [done|]. by apply Compare_eq in Hc.
Qed.

(** A transaction commits after it starts. *)
Definition commit_after_start (c : cfmap) (k : bytes) : Prop :=
  ∀ t w, is_u64 t → write_at c k t = Some w → w_StartTS w ≤ t.

(** The record of transaction [st] on [k], if it left one. *)
Definition own_record (c : cfmap) (k : bytes) (st : Z) (o : option (Z * Write)) : Prop :=
  match o with
  | Some (t, w) => is_u64 t ∧ write_at c k t = Some w ∧ w_StartTS w = st
  | None => ∀ t w, is_u64 t → write_at c k t = Some w → w_StartTS w ≠ st
  end.

Lemma CurrentWrite_own txn k :
  wf_writes (history txn) → commit_after_start (history txn) k → is_u64 (StartTS txn) →
  ∃ o, own_record (history txn) k (StartTS txn) o ∧
    CurrentWrite txn k = Ok match o with Some (t, w) => (Some w, t) | None => (None, 0) end.
Proof.
  intros Hwf Hcas Hst. unfold CurrentWrite.
  set (Q := λ r, ∃ o, own_record (history txn) k (StartTS txn) o ∧
    r = Ok (E:=go_error) match o with Some (t, w) => (Some w, t) | None => (None, 0) end).
  apply (go_loop_rule
    (λ s, is_u64 s ∧ ∀ t w, is_u64 t → s < t → write_at (history txn) k t = Some w → w_StartTS w ≠ StartTS txn)
    (λ s, s) _ Q).
  - intros s [Hs Hsk]. split; [by destruct Hs|]. unfold CurrentWrite_round.
    destruct (mostRecentWriteBefore_newest txn k s Hwf Hs) as ([[t w]|] & Hn & ->).
    + destruct Hn as (Ht & Hts & Hw & Hbetween). repeat case_decide; subst Q; cbn.
      * by exists (Some (t, w)).
      * exists None. split; [|done]. intros t' w' Ht' Hw'.
        destruct (decide (s < t')) as [?|Hle]; [by eapply Hsk|].
        destruct (decide (t < t')); [rewrite Hbetween // in Hw'; lia|].
        destruct (decide (t' = t)) as [->|]; [congruence|].
        pose proof (Hcas _ _ Ht' Hw'). lia.
      * destruct Hst, Ht. rewrite u64_small; [|split; lia]. split; [split; [split; lia|]|lia].
        intros t' w' Ht' Hlt Hw'.
        destruct (decide (s < t')) as [?|Hle]; [by eapply Hsk|].
        destruct (decide (t < t')); [rewrite Hbetween // in Hw'; lia|].
        assert (t' = t) as -> by lia. congruence.
    + exists None. split; [|done]. intros t' w' Ht' Hw'.
      destruct (decide (s < t')) as [?|Hle]; [by eapply Hsk|].
      rewrite Hn // in Hw'. lia.
  - split; [split; [done|]|]; [unfold TsMax, max64, two64; lia|].
    intros t w [_ Ht] Hlt. exfalso. revert Hlt. unfold TsMax, max64. lia.
  - unfold TsMax, max64, ts_rounds, two64. lia.
Qed.

(** How far an iterator on versions of [k] still has to go. *)
Definition versions_left k (it : I) : Z :=
  match pos it with
  | Some (ek, _) =>
    match DecodeUserKey (E:=go_error) ek, decodeTimestamp (E:=go_error) ek with
    | Ok k', Ok t => if decide (k' = k) then t + 1 else 0
    | _, _ => 0
    end
  | None => 0
  end.

Lemma versions_left_at k it t v :
  is_u64 t → pos it = Some (EncodeKey k t, v) → versions_left k it = t + 1.
Proof.
  intros Ht Hp. unfold versions_left. rewrite Hp DecodeUserKey_EncodeKey decodeTimestamp_EncodeKey //.
  by case_decide.
Qed.

Lemma versions_left_nonneg k it b c : at_newest c k b (pos it) → 0 ≤ versions_left k it.
Proof.
  intros [(t & w & Hp & _ & [[??] _])|[_ [Hp|(k' & t & v & Hp & Ht & Hne)]]].
  - rewrite (versions_left_at _ _ t _ _ Hp); [|done]. lia.
  - unfold versions_left. by rewrite Hp.
  - unfold versions_left. rewrite Hp DecodeUserKey_EncodeKey decodeTimestamp_EncodeKey //.
    by case_decide.
Qed.

Lemma versions_left_next k it t c :
  0 ≤ t → at_newest c k t (pos it) → versions_left k it < t + 1.
Proof.
  intros ? [(t' & w & Hp & _ & (? & ? & _))|[_ [Hp|(k' & t' & v & Hp & Ht & Hne)]]].
  - rewrite (versions_left_at _ _ t' _ _ Hp); [|done]. lia.
  - unfold versions_left. rewrite Hp. lia.
  - unfold versions_left. rewrite Hp DecodeUserKey_EncodeKey decodeTimestamp_EncodeKey //.
    case_decide; [done|lia].
Qed.

Lemma GetValue_visible txn k :
  wf_writes (history txn) → is_u64 (StartTS txn) →
  ∃ o, visible (history txn) k (StartTS txn + 1) o ∧
    GetValue txn k = Ok (version_value (view (txn_Reader txn) CfDefault) k o).
Proof.
  intros Hwf Hst. unfold GetValue, with_iter.
  destruct (seek_write txn k (StartTS txn) Hwf Hst) as (it0 & it & -> & E & Hok & Hsrc & Hat).
  rewrite E. cbn.
  set (Q := λ r, ∃ o, visible (history txn) k (StartTS txn + 1) o ∧
    r = Ok (E:=go_error) (version_value (view (txn_Reader txn) CfDefault) k o)).
  apply (go_loop_rule
    (λ it, iter_ok it ∧ src it = history txn ∧ ∃ b, b ≤ StartTS txn + 1 ∧
       at_newest (history txn) k b (pos it) ∧
       ∀ t w, is_u64 t → b ≤ t < StartTS txn + 1 → write_at (history txn) k t = Some w → ¬ is_data w)
    (versions_left k) _ Q).
  - clear dependent it. intros it (Hok & Hsrc & b & Hb & Hat & Hskip).
    split; [by eapply versions_left_nonneg|]. unfold GetValue_round. rewrite valid_law //.
    destruct Hat as [(t & w & Hp & Hw & Hn)|[Hn Hp]].
    + rewrite Hp (key_law _ _ _ Hok Hp) DecodeUserKey_EncodeKey (value_law _ _ _ Hok Hp).
      cbn. rewrite Compare_refl. case_decide; [done|]. rewrite ParseWrite_ToBytes //.
      destruct Hn as (Ht & Htb & Hwt & Hbetween).
      assert (∀ t' w', is_u64 t' → t < t' < StartTS txn + 1 →
        write_at (history txn) k t' = Some w' → ¬ is_data w') as Habove.
      { intros t' w' Ht' ? Hw'. destruct (decide (b ≤ t')); [eapply Hskip; [done|lia|done]|].
        rewrite Hbetween // in Hw'. lia. }
      repeat case_decide; subst Q; cbn.
      * exists (Some (t, w)). split.
        { split_and!; [done|lia|done|by left|done]. }
        rewrite (get_law _ _ _ CfDefault_CFs). unfold version_value. by case_decide.
      * exists (Some (t, w)). split.
        { split_and!; [done|lia|done|by right|done]. }
        unfold version_value. by case_decide.
      * destruct (next_law it _ _ Hok Hp) as (Hok' & Hsrc' & Hl).
        assert (at_newest (history txn) k t (pos (Next it))) as Hat'.
        { rewrite Hsrc in Hl. eapply least_at_newest; [done| |exact Hl].
          intros k' t' Ht'. by apply next_bound. }
        rewrite (versions_left_at k it t _ Ht Hp). split_and!.
        -- done.
        -- congruence.
        -- exists t. split_and!; [lia|done|]. intros t' w' Ht' ? Hw'.
           destruct (decide (t' = t)) as [->|]; [|eapply Habove; [done|lia|done]].
           intros [|]; congruence.
        -- destruct Ht. by eapply versions_left_next.
    + assert (Q (Ok None)) as HQ.
      { exists None. split; [|done]. intros t w Ht Hlt Hw Hd.
        destruct (decide (b ≤ t)); [by eapply Hskip|]. rewrite Hn // in Hw. lia. }
      destruct Hp as [->|(k' & t & v & Hp & Ht & Hne)]; [done|].
      rewrite Hp (key_law _ _ _ Hok Hp) DecodeUserKey_EncodeKey. cbn.
      case_decide as Hc; [done|]. by apply Compare_eq in Hc.
  - split_and!; [done..|]. exists (StartTS txn + 1). split_and!; [lia|done|]. intros. lia.
  - apply versions_left_next in Hat; [|destruct Hst; lia]. destruct Hst as [_ Hst].
    unfold two64 in Hst. unfold ts_rounds. lia.
Qed.
End Searches.
