(* ===== verification/Latches.v ===== *)
(** Latches: kv/transaction/latches/latches.go.

    [Latches] is the map from keys to wait groups; a wait group is a counter in
    the store [wgs], named by its address.  [AcquireLatches] and
    [ReleaseLatches] run under the mutex, so each is one atomic step.  The
    second half is the concurrent system: any number of threads calling
    [WaitForLatches], working, and releasing, as a step relation, with mutual
    exclusion, absence of crashes and absence of deadlock as invariants of
    every reachable state. *)

From S2P Require Import Prelude.

Record Latches := mkLatches {
  latchMap : gmap bytes nat;   (* key -> address of its wait group *)
  wgs : gmap nat Z;            (* address -> counter of the wait group *)
  next_wg : nat                (* first unused address *)
}.

Definition NewLatches : Latches := mkLatches ∅ ∅ 0.

(** The first key of the list that is latched decides which wait group is
    returned. *)
Fixpoint first_latched (m : gmap bytes nat) (keys : list bytes) : option nat :=
  match keys with
  | [] => None
  | key :: keys => match m !! key with Some wg => Some wg | None => first_latched m keys end
  end.

Definition AcquireLatches (l : Latches) (keysToLatch : list bytes) : Latches * option nat :=
  match first_latched (latchMap l) keysToLatch with
  | Some latchWg => (l, Some latchWg)
  | None =>
    let wg := next_wg l in
    (mkLatches (foldl (λ m key, <[key := wg]> m) (latchMap l) keysToLatch)
       (<[wg := 1]> (wgs l)) (S wg), None)
  end.

(** [wg.Done()] on a nil pointer or below zero panics. *)
Definition Done (w : gmap nat Z) (wg : option nat) : outcome unit (gmap nat Z) :=
  match wg with
  | None => Panic "nil pointer dereference"
  | Some a =>
    let n := default 0 (w !! a) - 1 in
    if decide (n < 0) then Panic "sync: negative WaitGroup counter" else Ok (<[a := n]> w)
  end.

Definition ReleaseLatches (l : Latches) (keysToUnlatch : list bytes) : outcome unit Latches :=
  match keysToUnlatch with
  | [] => Ok l
  | key :: _ =>
    w ← Done (wgs l) (latchMap l !! key);
    Ok (mkLatches (foldl (λ m key, delete key m) (latchMap l) keysToUnlatch) w (next_wg l))
  end.

(** ** Threads *)

Inductive thread :=
| Wanting (keys : list bytes)             (* in WaitForLatches, about to try *)
| Waiting (keys : list bytes) (wg : nat)  (* in wg.Wait() *)
| Holding (keys : list bytes)             (* WaitForLatches returned *)
| Finished.                               (* ReleaseLatches returned *)

Record system := mkSystem { latches : Latches; threads : gmap nat thread }.

Inductive step : system → system → Prop :=
| step_arrive l ths tid keys :
    ths !! tid = None →
    step (mkSystem l ths) (mkSystem l (<[tid := Wanting keys]> ths))
| step_acquire l l' ths tid keys :
    ths !! tid = Some (Wanting keys) →
    AcquireLatches l keys = (l', None) →
    step (mkSystem l ths) (mkSystem l' (<[tid := Holding keys]> ths))
| step_blocked l l' ths tid keys wg :
    ths !! tid = Some (Wanting keys) →
    AcquireLatches l keys = (l', Some wg) →
    step (mkSystem l ths) (mkSystem l' (<[tid := Waiting keys wg]> ths))
| step_wake l ths tid keys wg :
    ths !! tid = Some (Waiting keys wg) →
    wgs l !! wg = Some 0 →
    step (mkSystem l ths) (mkSystem l (<[tid := Wanting keys]> ths))
| step_release l l' ths tid keys :
    ths !! tid = Some (Holding keys) →
    ReleaseLatches l keys = Ok l' →
    step (mkSystem l ths) (mkSystem l' (<[tid := Finished]> ths)).

Definition init_system : system := mkSystem NewLatches ∅.
Definition reachable (s : system) : Prop := rtc step init_system s.

(** ** Facts about the two operations *)

Lemma first_latched_None m keys :
  first_latched m keys = None ↔ ∀ k, k ∈ keys → m !! k = None.
Proof.
  induction keys as [|k keys IH]; cbn; [set_solver|].
  destruct (m !! k) eqn:E; [|rewrite IH; set_solver].
  split; [done|]. intros H. rewrite (H k) in E; [done|set_solver].
Qed.

Lemma first_latched_Some m keys wg :
  first_latched m keys = Some wg → ∃ k, k ∈ keys ∧ m !! k = Some wg.
Proof.
  induction keys as [|k keys IH]; cbn; [done|].
  destruct (m !! k) eqn:E; intros H; [|set_solver]. exists k. split; [set_solver|congruence].
Qed.

Lemma foldl_insert_lookup (m : gmap bytes nat) keys wg k :
  foldl (λ m key, <[key := wg]> m) m keys !! k = if decide (k ∈ keys) then Some wg else m !! k.
Proof.
  induction keys as [|k' keys IH] in m |- *; cbn; [done|]. rewrite IH lookup_insert.
  repeat case_decide; set_solver.
Qed.

Lemma foldl_delete_lookup (m : gmap bytes nat) keys k :
  foldl (λ m key, delete key m) m keys !! k = if decide (k ∈ keys) then None else m !! k.
Proof.
  induction keys as [|k' keys IH] in m |- *; cbn; [done|]. rewrite IH lookup_delete.
  repeat case_decide; set_solver.
Qed.

Lemma AcquireLatches_None l keys l' :
  AcquireLatches l keys = (l', None) →
  (∀ k, k ∈ keys → latchMap l !! k = None) ∧
  (∀ k, latchMap l' !! k = if decide (k ∈ keys) then Some (next_wg l) else latchMap l !! k) ∧
  wgs l' = <[next_wg l := 1]> (wgs l) ∧ next_wg l' = S (next_wg l).
Proof.
  unfold AcquireLatches. destruct (first_latched _ _) eqn:E; intros [= <-]. cbn.
  split_and!; [by apply first_latched_None|apply foldl_insert_lookup|done..].
Qed.

Lemma AcquireLatches_Some l keys l' wg :
  AcquireLatches l keys = (l', Some wg) →
  l' = l ∧ ∃ k, k ∈ keys ∧ latchMap l !! k = Some wg.
Proof.
  unfold AcquireLatches. destruct (first_latched _ _) eqn:E; intros [= <- <-].
  split; [done|]. by apply first_latched_Some.
Qed.

Lemma ReleaseLatches_held l keys wg :
  (∀ k, k ∈ keys → latchMap l !! k = Some wg) → wgs l !! wg = Some 1 →
  ∃ l', ReleaseLatches l keys = Ok l' ∧ next_wg l' = next_wg l ∧
    (∀ k, latchMap l' !! k = if decide (k ∈ keys) then None else latchMap l !! k) ∧
    wgs l' = if decide (keys = []) then wgs l else <[wg := 0]> (wgs l).
Proof.
  intros Hk Hw. destruct keys as [|k keys]; cbn; [eauto|].
  rewrite (Hk k); [|set_solver]. cbn. rewrite Hw. cbn.
  eexists. split_and!; [done..| |done]. intros k'. apply (foldl_delete_lookup _ (k :: keys)).
Qed.

(** A thread alone: free keys are latched and released again. *)
Lemma acquire_release l keys :
  (∀ k, k ∈ keys → latchMap l !! k = None) →
  ∃ l1 l2, AcquireLatches l keys = (l1, None) ∧ ReleaseLatches l1 keys = Ok l2.
Proof.
  intros Hfree. destruct (AcquireLatches l keys) as [l1 [wg|]] eqn:E.
  - apply AcquireLatches_Some in E as (_ & k & Hk & Hl). by rewrite Hfree in Hl.
  - destruct (AcquireLatches_None _ _ _ E) as (_ & Hmap & Hw & _). exists l1.
    destruct (ReleaseLatches_held l1 keys (next_wg l)) as (l2 & Hr & _); [| |by eauto].
    + intros k Hk. rewrite Hmap. by case_decide.
    + by rewrite Hw lookup_insert_eq.
Qed.

(** ** The invariant

    [own] assigns to every thread the wait group it created. *)

Record latch_inv (s : system) (own : nat → nat) : Prop := {
  inv_held tid keys :
    threads s !! tid = Some (Holding keys) →
    wgs (latches s) !! own tid = Some 1 ∧ (own tid < next_wg (latches s))%nat ∧
    ∀ k, k ∈ keys → latchMap (latches s) !! k = Some (own tid);
  inv_latched k wg :
    latchMap (latches s) !! k = Some wg →
    ∃ tid keys, threads s !! tid = Some (Holding keys) ∧ k ∈ keys ∧ own tid = wg;
  inv_own t1 t2 keys1 keys2 :
    threads s !! t1 = Some (Holding keys1) → threads s !! t2 = Some (Holding keys2) →
    own t1 = own t2 → t1 = t2;
  inv_waiting tid keys wg :
    threads s !! tid = Some (Waiting keys wg) →
    (wg < next_wg (latches s))%nat ∧
    (wgs (latches s) !! wg = Some 0 ∨
     ∃ tid' keys', threads s !! tid' = Some (Holding keys') ∧ keys' ≠ [] ∧ own tid' = wg)
}.

(** Replacing a thread that is not holding by one that is not holding keeps
    the parts of the invariant about holders. *)
Lemma inv_park s own tid th :
  latch_inv s own →
  (∀ keys, threads s !! tid ≠ Some (Holding keys)) → (∀ keys, th ≠ Holding keys) →
  (∀ keys wg, th = Waiting keys wg → ∃ k, latchMap (latches s) !! k = Some wg) →
  latch_inv (mkSystem (latches s) (<[tid := th]> (threads s))) own.
Proof.
  intros [H1 H2 H3 H4] Hold Hnew Hwait.
  assert (Hh : ∀ t keys, <[tid := th]> (threads s) !! t = Some (Holding keys) ↔
                         threads s !! t = Some (Holding keys)).
  { intros t keys. rewrite lookup_insert. case_decide as E; [subst t|done].
    split; [intros [= E]; by destruct (Hnew keys)|intros E; by destruct (Hold keys)]. }
  split; cbn.
  - intros t keys E%Hh. by apply H1.
  - intros k wg (t & keys & E & ?)%H2. exists t, keys. by rewrite Hh.
  - intros t1 t2 k1 k2 E1%Hh E2%Hh. by eapply H3.
  - assert (Hl : ∀ wg, (∃ t' keys', threads s !! t' = Some (Holding keys') ∧ keys' ≠ [] ∧ own t' = wg) →
      ∃ t' keys', <[tid := th]> (threads s) !! t' = Some (Holding keys') ∧ keys' ≠ [] ∧ own t' = wg).
    { intros wg (t' & keys' & E & ?). exists t', keys'. by rewrite Hh. }
    intros t keys wg. rewrite lookup_insert. case_decide as E; [intros [= ->]|].
    + destruct (Hwait keys wg eq_refl) as [k Hk]. apply H2 in Hk as (t' & keys' & E' & Hk & <-).
      split; [by eapply H1|]. right. apply Hl. exists t', keys'. split_and!; [done| |done].
      intros ->. by apply not_elem_of_nil in Hk.
    + intros [? [?|?]]%H4; eauto.
Qed.

Lemma inv_acquire s own tid keys l' :
  latch_inv s own → threads s !! tid = Some (Wanting keys) →
  AcquireLatches (latches s) keys = (l', None) →
  latch_inv (mkSystem l' (<[tid := Holding keys]> (threads s)))
    (λ t, if decide (t = tid) then next_wg (latches s) else own t).
Proof.
  intros [H1 H2 H3 H4] Ht (Hfree & Hmap & Hw & Hn)%AcquireLatches_None.
  assert (Hne : ∀ t ks, threads s !! t = Some (Holding ks) → t ≠ tid) by (intros ???; congruence).
  assert (Hfresh : ∀ t ks, threads s !! t = Some (Holding ks) → own t ≠ next_wg (latches s)).
  { intros t ks E. pose proof (H1 _ _ E) as (_ & ? & _). lia. }
  split; cbn; rewrite ?Hw ?Hn.
  - intros t ks. rewrite lookup_insert. case_decide as E; [subst t; intros [= ->]|intros E'].
    + case_decide; [|done]. rewrite lookup_insert_eq. split_and!; [done|lia|].
      intros k Hk. rewrite Hmap. by case_decide.
    + case_decide; [congruence|]. pose proof (H1 _ _ E') as (? & ? & Hks).
      rewrite lookup_insert_ne; [|by apply not_eq_sym; eapply Hfresh]. split_and!; [done|lia|].
      intros k Hk. rewrite Hmap. case_decide as Hin; [|by apply Hks].
      specialize (Hks _ Hk). by rewrite (Hfree _ Hin) in Hks.
  - intros k wg. rewrite Hmap. case_decide; [intros [= <-]|intros (t & ks & E & ? & <-)%H2].
    + exists tid, keys. rewrite lookup_insert_eq. by case_decide.
    + exists t, ks. pose proof (Hne _ _ E). rewrite lookup_insert_ne; [|done]. by case_decide.
  - intros t1 t2 k1 k2. rewrite !lookup_insert. repeat case_decide; try congruence; intros E1 E2 E.
    + by destruct (Hfresh _ _ E2).
    + by destruct (Hfresh _ _ E1).
    + by eapply H3.
  - intros t ks wg. rewrite lookup_insert. case_decide; [intros [=]|].
    intros [Hlt [E|(t' & ks' & E & ? & <-)]]%H4; split; [lia| |lia|].
    + left. rewrite lookup_insert_ne; [done|lia].
    + right. exists t', ks'. pose proof (Hne _ _ E). rewrite lookup_insert_ne; [|done]. by case_decide.
Qed.

Lemma inv_release s own tid keys l' :
  latch_inv s own → threads s !! tid = Some (Holding keys) →
  ReleaseLatches (latches s) keys = Ok l' →
  latch_inv (mkSystem l' (<[tid := Finished]> (threads s))) own.
Proof.
  intros [H1 H2 H3 H4] Ht Hr. pose proof (H1 _ _ Ht) as (Hw1 & Hlt & Hks).
  destruct (ReleaseLatches_held _ _ _ Hks Hw1) as (l2 & Hr2 & Hn & Hmap & Hw).
  rewrite Hr in Hr2. injection Hr2 as <-.
  assert (Hother : ∀ t ks, t ≠ tid → threads s !! t = Some (Holding ks) → own t ≠ own tid).
  { intros t ks Hne E Ho. by destruct Hne; eapply H3. }
  assert (Hw' : ∀ a, a ≠ own tid → wgs l' !! a = wgs (latches s) !! a).
  { intros a Ha. rewrite Hw. destruct (decide (keys = [])); [done|]. by rewrite lookup_insert_ne. }
  split; cbn.
  - intros t ks. rewrite lookup_insert. destruct (decide (tid = t)) as [E|E]; [done|intros E'].
    pose proof (H1 _ _ E') as (? & ? & Hks'). pose proof (Hother _ _ (not_eq_sym E) E').
    rewrite Hw' // Hn. split_and!; [done..|]. intros k Hk. rewrite Hmap.
    destruct (decide (k ∈ keys)) as [Hin|Hin]; [|by apply Hks']. specialize (Hks _ Hin). specialize (Hks' _ Hk). congruence.
  - intros k wg. rewrite Hmap. destruct (decide (k ∈ keys)) as [Hin|Hin]; [done|]. intros (t & ks & E & Hk & <-)%H2.
    exists t, ks. rewrite lookup_insert_ne; [done|]. intros <-. congruence.
  - intros t1 t2 k1 k2. rewrite !lookup_insert.
    destruct (decide (tid = t1)), (decide (tid = t2)); try congruence. apply H3.
  - intros t ks wg. rewrite lookup_insert. destruct (decide (tid = t)); [done|].
    intros [Hlt' Hor]%H4. rewrite Hn. split; [done|]. destruct (decide (wg = own tid)) as [->|Hne].
    + destruct Hor as [E|(t' & ks' & E & Hnil & Ho)]; [congruence|].
      assert (t' = tid) as -> by (by eapply H3). assert (ks' = keys) as -> by congruence.
      left. rewrite Hw. destruct (decide (keys = [])); [done|]. by rewrite lookup_insert_eq.
    + rewrite Hw' //. destruct Hor as [E|(t' & ks' & E & Hnil & <-)]; [by left|right].
      exists t', ks'. rewrite lookup_insert_ne; [done|]. by intros <-.
Qed.

Lemma inv_step s s' own : latch_inv s own → step s s' → ∃ own', latch_inv s' own'.
Proof.
  intros Hinv Hs. destruct Hs as [l ths tid keys Ht|l l' ths tid keys Ht Ha
    |l l' ths tid keys wg Ht Ha|l ths tid keys wg Ht Hw|l l' ths tid keys Ht Hr].
  - exists own. apply (inv_park (mkSystem l ths)); cbn; congruence.
  - eexists. by apply (inv_acquire (mkSystem l ths) own tid keys).
  - apply AcquireLatches_Some in Ha as [-> (k & _ & Hk)]. exists own.
    apply (inv_park (mkSystem l ths)); cbn; [done|congruence|congruence|].
    intros ?? [= <- <-]. eauto.
  - exists own. apply (inv_park (mkSystem l ths)); cbn; congruence.
  - exists own. by eapply (inv_release (mkSystem l ths)).
Qed.

Lemma inv_init : latch_inv init_system (λ _, 0%nat).
Proof. split; cbn; intros *; rewrite lookup_empty; done. Qed.

Lemma inv_reachable s : reachable s → ∃ own, latch_inv s own.
Proof.
  intros Hr. assert (∃ own, latch_inv init_system own) as [own0 H0] by eauto using inv_init.
  revert own0 H0. induction Hr as [|s1 s2 s3 Hs Hr IH]; intros own0 H0; [eauto|].
  destruct (inv_step _ _ _ H0 Hs) as [own' H']. by eapply IH.
Qed.

Lemma holder_releases s own tid keys :
  latch_inv s own → threads s !! tid = Some (Holding keys) →
  ∃ l', ReleaseLatches (latches s) keys = Ok l' ∧
    step s (mkSystem l' (<[tid := Finished]> (threads s))).
Proof.
  intros [H1 _ _ _] Ht. pose proof (H1 _ _ Ht) as (Hw & _ & Hk).
  destruct (ReleaseLatches_held _ _ _ Hk Hw) as (l' & Hr & _). exists l'. split; [done|].
  destruct s as [l ths]. by eapply step_release.
Qed.

Lemma holders_disjoint s t1 t2 keys1 keys2 :
  reachable s → t1 ≠ t2 →
  threads s !! t1 = Some (Holding keys1) → threads s !! t2 = Some (Holding keys2) →
  ∀ k, ¬ (k ∈ keys1 ∧ k ∈ keys2).
Proof.
  intros [own [H1 _ H3 _]]%inv_reachable Hne E1 E2 k [Hk1 Hk2].
  pose proof (H1 _ _ E1) as (_ & _ & Ho1). pose proof (H1 _ _ E2) as (_ & _ & Ho2).
  specialize (Ho1 _ Hk1). specialize (Ho2 _ Hk2). apply Hne. eapply H3; [done..|congruence].
Qed.

(** ** Properties *)

(** C28: Mutual exclusion.  In every reachable state of any number of threads
    using the latches, two different threads that hold latches hold disjoint
    sets of keys. *)
Theorem latches_mutual_exclusion s t1 t2 keys1 keys2 :
  reachable s → t1 ≠ t2 →
  threads s !! t1 = Some (Holding keys1) → threads s !! t2 = Some (Holding keys2) →
  ∀ k, ¬ (k ∈ keys1 ∧ k ∈ keys2).
Proof. apply holders_disjoint. Qed.

(** C29: No crash, no lost wake-up, no deadlock.  In every reachable state a
    thread that holds latches can release them without a panic, and whenever
    some thread has not finished, some thread already in the system can take
    a step. *)
Theorem latches_progress s tid th :
  reachable s → threads s !! tid = Some th →
  match th with
  | Finished => True
  | Holding keys => ∃ l', ReleaseLatches (latches s) keys = Ok l'
  | Wanting _ | Waiting _ _ => ∃ s', step s s' ∧ dom (threads s') = dom (threads s)
  end.
Proof.
  intros [own Hinv]%inv_reachable Ht. destruct th as [keys|keys wg|keys|]; [| | |done].
  - destruct (AcquireLatches (latches s) keys) as [l' [wg|]] eqn:E; destruct s as [l ths]; cbn in *;
      eexists; (split; [by econstructor|]); cbn; rewrite dom_insert_lookup_L //.
  - pose proof (inv_waiting _ _ Hinv _ _ _ Ht) as [_ [E|(t' & ks' & E & _)]].
    + destruct s as [l ths]; cbn in *. eexists. split; [by eapply step_wake|].
      cbn. rewrite dom_insert_lookup_L //.
    + destruct (holder_releases _ _ _ _ Hinv E) as (l' & _ & Hs). eexists. split; [done|].
      cbn. rewrite dom_insert_lookup_L //.
  - destruct (holder_releases _ _ _ _ Hinv Ht) as (l' & Hr & _). eauto.
Qed.

(** Two holders of different keys, and a third thread parked on the first
    one's key. *)
Definition example_a : bytes := [x61%byte].
Definition example_b : bytes := [x62%byte].
Definition example_latches1 : Latches := (AcquireLatches NewLatches [example_a]).1.
Definition example_latches2 : Latches := (AcquireLatches example_latches1 [example_b]).1.
Definition example_arrived : gmap nat thread :=
  <[2%nat := Wanting [example_a]]> (<[1%nat := Wanting [example_b]]> (<[0%nat := Wanting [example_a]]> ∅)).
Definition example_system : system :=
  mkSystem example_latches2
    (<[2%nat := Waiting [example_a] 0]> (<[1%nat := Holding [example_b]]> (<[0%nat := Holding [example_a]]> example_arrived))).

Lemma example_reachable : reachable example_system.
Proof.
  unfold reachable, example_system, example_arrived.
  eapply rtc_l; [apply (step_arrive _ _ 0 [example_a]); reflexivity|].
  eapply rtc_l; [apply (step_arrive _ _ 1 [example_b]); reflexivity|].
  eapply rtc_l; [apply (step_arrive _ _ 2 [example_a]); reflexivity|].
  eapply rtc_l; [apply (step_acquire _ example_latches1 _ 0 [example_a]); vm_compute; reflexivity|].
  eapply rtc_l; [apply (step_acquire _ example_latches2 _ 1 [example_b]); vm_compute; reflexivity|].
  eapply rtc_l; [apply (step_blocked _ example_latches2 _ 2 [example_a] 0); vm_compute; reflexivity|].
  apply rtc_refl.
Qed.

Lemma latches_mutual_exclusion_witness :
  ∃ k : bytes, k ∈ [example_a] ∧ ¬ (k ∈ [example_a] ∧ k ∈ [example_b]).
Proof.
  exists example_a. split; [by left|].
  apply (latches_mutual_exclusion example_system 0 1); [apply example_reachable|done|reflexivity..].
Defined.

Lemma latches_progress_witness :
  ∃ s', step example_system s' ∧ dom (threads s') = dom (threads example_system).
Proof. apply (latches_progress example_system 2 (Waiting [example_a] 0)); [apply example_reachable|reflexivity]. Defined.
