(* ===== verification/Commands.v ===== *)
(** The transactional commands: kv/transaction/commands (command.go, get.go,
    scan.go, prewrite.go, commit.go, rollback.go, checkTxn.go, resolve.go).

    [Command] is the sum of the command structs and the methods of the Go
    interface are functions on it; [RunCommand] is the driver of command.go.
    The helpers [commitKey] and [rollbackKey], which store a key error in the
    response object through reflection and return that object, return the
    error they stored: [Some e] stands for a non-nil result. *)

From S2P Require Import Prelude Pb Storage Mvcc Latches.

Inductive Command :=
| Get (request : kvrpcpb.GetRequest)
| Scan (request : kvrpcpb.ScanRequest)
| Prewrite (request : kvrpcpb.PrewriteRequest)
| Commit (request : kvrpcpb.CommitRequest)
| Rollback (request : kvrpcpb.BatchRollbackRequest)
| CheckTxnStatus (request : kvrpcpb.CheckTxnStatusRequest)
| ResolveLock (request : kvrpcpb.ResolveLockRequest) (keyLocks : list KlPair).

Inductive Response :=
| GetResp (r : kvrpcpb.GetResponse)
| ScanResp (r : kvrpcpb.ScanResponse)
| PrewriteResp (r : kvrpcpb.PrewriteResponse)
| CommitResp (r : kvrpcpb.CommitResponse)
| RollbackResp (r : kvrpcpb.BatchRollbackResponse)
| CheckTxnStatusResp (r : kvrpcpb.CheckTxnStatusResponse)
| ResolveLockResp (r : kvrpcpb.ResolveLockResponse).

(** [CommandBase]. *)
Definition cmd_Context (cmd : Command) : kvrpcpb.Context :=
  match cmd with
  | Get r => kvrpcpb.get_Context r
  | Scan r => kvrpcpb.scan_Context r
  | Prewrite r => kvrpcpb.pw_Context r
  | Commit r => kvrpcpb.cm_Context r
  | Rollback r => kvrpcpb.rb_Context r
  | CheckTxnStatus r => kvrpcpb.ck_Context r
  | ResolveLock r _ => kvrpcpb.rl_Context r
  end.

Definition StartTs (cmd : Command) : Z :=
  match cmd with
  | Get r => kvrpcpb.Version r
  | Scan r => kvrpcpb.scan_Version r
  | Prewrite r => kvrpcpb.pw_StartVersion r
  | Commit r => kvrpcpb.cm_StartVersion r
  | Rollback r => kvrpcpb.rb_StartVersion r
  | CheckTxnStatus r => kvrpcpb.LockTs r
  | ResolveLock r _ => kvrpcpb.rl_StartVersion r
  end.

Definition WillWrite (cmd : Command) : option (list bytes) :=
  match cmd with
  | Get _ | Scan _ | ResolveLock _ _ => None
  | Prewrite r => Some (kvrpcpb.m_Key <$> kvrpcpb.Mutations r)
  | Commit r => kvrpcpb.cm_Keys r
  | Rollback r => kvrpcpb.rb_Keys r
  | CheckTxnStatus r => Some [kvrpcpb.PrimaryKey r]
  end.

Definition PhysicalShiftBits : Z := 18.
Definition physical (ts : Z) : Z := Z.shiftr ts PhysicalShiftBits.

Section Commands.
Context {R I : Type} `{!StorageReader R I}.

(** ** get.go *)

Definition Get_Read (request : kvrpcpb.GetRequest) (txn : RoTxn R) : outcome go_error kvrpcpb.GetResponse :=
  let key := kvrpcpb.get_Key request in
  lock ← GetLock txn key;
  match IsLockedFor lock key (kvrpcpb.Version request), lock with
  | Some e, Some lock =>
    Ok (kvrpcpb.mkGetResponse None
         (Some (kvrpcpb.mkKeyError (Some (Lock_Info lock key)) (kvrpcpb.Retryable e)
                  (kvrpcpb.Abort e) (kvrpcpb.Conflict e))) None false)
  | _, _ =>
    value ← GetValue txn key;
    Ok (kvrpcpb.mkGetResponse None None value (bool_decide (value = None)))
  end.

(** ** scan.go *)

Definition Scan_round (fuel : positive) (st : Scanner R I * Z * list kvrpcpb.KvPair)
  : (Scanner R I * Z * list kvrpcpb.KvPair) + outcome go_error kvrpcpb.ScanResponse :=
  let '(scanner, limit, pairs) := st in
  if decide (limit = 0) then inr (Ok (kvrpcpb.mkScanResponse None pairs))
  else
    let limit := limit - 1 in
    match Scanner_Next fuel scanner with
    | Ok (scanner, inr (MvccKeyError e)) =>
      inl (scanner, limit, pairs ++ [kvrpcpb.mkKvPair (Some e) [] None])
    | Ok (_, inr err) => inr (Err err)
    | Ok (_, inl None) => inr (Ok (kvrpcpb.mkScanResponse None pairs))
    | Ok (scanner, inl (Some (key, value))) =>
      inl (scanner, limit, pairs ++ [kvrpcpb.mkKvPair None key value])
    | Err e => inr (Err e)
    | Panic w => inr (Panic w)
    | OutOfFuel => inr OutOfFuel
    end.

(** The loop runs once per pair, at most [Limit] times and once more to stop. *)
Definition Scan_Read (fuel : positive) (request : kvrpcpb.ScanRequest) (txn : RoTxn R)
  : outcome go_error kvrpcpb.ScanResponse :=
  scanner ← NewScanner (kvrpcpb.StartKey request) txn;
  let limit := kvrpcpb.Limit request in
  go_loop (Z.to_pos (limit + 1)) (Scan_round fuel) (scanner, limit, []).

(** ** prewrite.go *)

(** [Some keyError] when the mutation is refused. *)
Definition prewriteMutation (request : kvrpcpb.PrewriteRequest) (txn : MvccTxn R) (mut : kvrpcpb.Mutation)
  : outcome go_error (option kvrpcpb.KeyError * MvccTxn R) :=
  let key := kvrpcpb.m_Key mut in
  let startTS := StartTS (txn_ro txn) in
  let conflict ts :=
    Some (kvrpcpb.mkWriteConflict startTS ts key (kvrpcpb.pw_PrimaryLock request)) in
  '(write, commitTs) ← MostRecentWrite (txn_ro txn) key;
  if decide (is_Some write ∧ startTS ≤ commitTs) then
    Ok (Some (kvrpcpb.mkKeyError None no_text no_text (conflict commitTs)), txn)
  else
    keyLock ← GetLock (txn_ro txn) key;
    let locked := match keyLock with
    | Some keyLock =>
      if decide (Ts keyLock ≠ startTS) then
        Some (kvrpcpb.mkKeyError (Some (Lock_Info keyLock key)) no_text no_text (conflict (Ts keyLock)))
      else None
    | None => None
    end in
    match locked with
    | Some keyError => Ok (Some keyError, txn)
    | None =>
      let keyLock := mkLock (kvrpcpb.pw_PrimaryLock request) startTS (kvrpcpb.pw_LockTtl request)
                       (kvrpcpb.Op mut + 1) in
      let txn := PutLock txn key keyLock in
      let txn :=
        if decide (kvrpcpb.Op mut = kvrpcpb.Op_Put) then PutValue txn key (kvrpcpb.m_Value mut)
        else if decide (kvrpcpb.Op mut = kvrpcpb.Op_Del) then DeleteValue txn key
        else txn in
      Ok (None, txn)
    end.

Fixpoint prewrite_all (request : kvrpcpb.PrewriteRequest) (txn : MvccTxn R) (muts : list kvrpcpb.Mutation)
    (errs : list kvrpcpb.KeyError) : outcome go_error (list kvrpcpb.KeyError * MvccTxn R) :=
  match muts with
  | [] => Ok (errs, txn)
  | m :: muts =>
    '(keyError, txn) ← prewriteMutation request txn m;
    prewrite_all request txn muts (match keyError with Some e => errs ++ [e] | None => errs end)
  end.

Definition Prewrite_PrepareWrites (request : kvrpcpb.PrewriteRequest) (txn : MvccTxn R)
  : outcome go_error (kvrpcpb.PrewriteResponse * MvccTxn R) :=
  '(errs, txn) ← prewrite_all request txn (kvrpcpb.Mutations request) [];
  Ok (kvrpcpb.mkPrewriteResponse None errs, txn).

(** The test [lock != nil && lock.Ts == txn.StartTS]. *)
Definition held_lock (lock : option Lock) (startTS : Z) : option Lock :=
  match lock with
  | Some l => if decide (Ts l = startTS) then Some l else None
  | None => None
  end.

(** ** commit.go *)

Definition commitKey (key : bytes) (commitTs : Z) (txn : MvccTxn R)
  : outcome go_error (option kvrpcpb.KeyError * MvccTxn R) :=
  let startTS := StartTS (txn_ro txn) in
  lock ← GetLock (txn_ro txn) key;
  match held_lock lock startTS with
  | None =>
    '(write, _) ← CurrentWrite (txn_ro txn) key;
    let found := match write with
    | Some write => bool_decide (w_Kind write ≠ WriteKindRollback)
    | None => false
    end in
    if found then Ok (None, txn)
    else Ok (Some (kvrpcpb.mkKeyError None (Sprintf "lock not found for key %v" [FBytes key]) no_text None), txn)
  | Some lock =>
    Ok (None, DeleteLock (PutWrite txn key commitTs (mkWrite startTS (Kind lock))) key)
  end.

(** The loop over the keys of a commit or rollback request: it stops at the
    first key error, and the writes prepared before stay in the transaction. *)
Fixpoint each_key (f : bytes → MvccTxn R → outcome go_error (option kvrpcpb.KeyError * MvccTxn R))
    (keys : list bytes) (txn : MvccTxn R) : outcome go_error (option kvrpcpb.KeyError * MvccTxn R) :=
  match keys with
  | [] => Ok (None, txn)
  | k :: keys =>
    '(e, txn) ← f k txn;
    match e with
    | Some e => Ok (Some e, txn)
    | None => each_key f keys txn
    end
  end.

Definition Commit_PrepareWrites (request : kvrpcpb.CommitRequest) (txn : MvccTxn R)
  : outcome go_error (kvrpcpb.CommitResponse * MvccTxn R) :=
  let commitTs := kvrpcpb.CommitVersion request in
  if decide (commitTs ≤ StartTS (txn_ro txn)) then Err (Errorf "" [])
  else
    '(e, txn) ← each_key (λ k, commitKey k commitTs) (default [] (kvrpcpb.cm_Keys request)) txn;
    Ok (kvrpcpb.mkCommitResponse None e, txn).

(** ** rollback.go *)

Definition rollback_record (startTS : Z) : Mvcc.Write := mkWrite startTS WriteKindRollback.

Definition rollbackKey (key : bytes) (txn : MvccTxn R)
  : outcome go_error (option kvrpcpb.KeyError * MvccTxn R) :=
  let startTS := StartTS (txn_ro txn) in
  lock ← GetLock (txn_ro txn) key;
  match held_lock lock startTS with
  | None =>
    '(existingWrite, ts) ← CurrentWrite (txn_ro txn) key;
    match existingWrite with
    | None => Ok (None, PutWrite txn key startTS (rollback_record startTS))
    | Some existingWrite =>
      if decide (w_Kind existingWrite = WriteKindRollback) then Ok (None, txn)
      else
        Ok (Some (kvrpcpb.mkKeyError None no_text
                    (Sprintf "key has already been committed: %v at %d" [FBytes key; FZ ts]) None), txn)
    end
  | Some lock =>
    let txn := if decide (Kind lock = WriteKindPut) then DeleteValue txn key else txn in
    Ok (None, DeleteLock (PutWrite txn key startTS (rollback_record startTS)) key)
  end.

Definition Rollback_PrepareWrites (request : kvrpcpb.BatchRollbackRequest) (txn : MvccTxn R)
  : outcome go_error (kvrpcpb.BatchRollbackResponse * MvccTxn R) :=
  '(e, txn) ← each_key rollbackKey (default [] (kvrpcpb.rb_Keys request)) txn;
  Ok (kvrpcpb.mkBatchRollbackResponse None e, txn).

(** ** checkTxn.go *)

Definition CheckTxnStatus_PrepareWrites (request : kvrpcpb.CheckTxnStatusRequest) (txn : MvccTxn R)
  : outcome go_error (kvrpcpb.CheckTxnStatusResponse * MvccTxn R) :=
  let key := kvrpcpb.PrimaryKey request in
  let startTS := StartTS (txn_ro txn) in
  lock ← GetLock (txn_ro txn) key;
  match held_lock lock startTS with
  | Some lock =>
    if decide (u64 (physical (Ts lock) + Ttl lock) < physical (kvrpcpb.CurrentTs request)) then
      let txn := PutWrite txn key (Ts lock) (rollback_record (Ts lock)) in
      let txn := if decide (Kind lock = WriteKindPut) then DeleteValue txn key else txn in
      let txn := DeleteLock txn key in
      Ok (kvrpcpb.mkCheckTxnStatusResponse None 0 0 kvrpcpb.TTLExpireRollback, txn)
    else Ok (kvrpcpb.mkCheckTxnStatusResponse None (Ttl lock) 0 kvrpcpb.NoAction, txn)
  | None =>
    '(existingWrite, commitTs) ← CurrentWrite (txn_ro txn) key;
    match existingWrite with
    | None =>
      Ok (kvrpcpb.mkCheckTxnStatusResponse None 0 0 kvrpcpb.LockNotExistRollback,
          PutWrite txn key startTS (rollback_record startTS))
    | Some existingWrite =>
      if decide (w_Kind existingWrite = WriteKindRollback) then
        Ok (kvrpcpb.mkCheckTxnStatusResponse None 0 0 kvrpcpb.NoAction, txn)
      else Ok (kvrpcpb.mkCheckTxnStatusResponse None 0 commitTs kvrpcpb.NoAction, txn)
    end
  end.

(** ** resolve.go *)

(** [commitKey] and [rollbackKey] store their key error in the response; the
    loop goes on, so the last error stored is the one that is returned. *)
Fixpoint resolve_all (request : kvrpcpb.ResolveLockRequest) (keyLocks : list KlPair) (txn : MvccTxn R)
    (err : option kvrpcpb.KeyError) : outcome go_error (option kvrpcpb.KeyError * MvccTxn R) :=
  let commitTs := kvrpcpb.rl_CommitVersion request in
  match keyLocks with
  | [] => Ok (err, txn)
  | kl :: keyLocks =>
    '(e, txn) ←
      (if decide (Ts (kl_Lock kl) ≤ commitTs ∧ kvrpcpb.rl_StartVersion request ≤ Ts (kl_Lock kl))
       then commitKey (kl_Key kl) commitTs txn
       else rollbackKey (kl_Key kl) txn);
    resolve_all request keyLocks txn (match e with Some e => Some e | None => err end)
  end.

Definition ResolveLock_PrepareWrites (request : kvrpcpb.ResolveLockRequest) (keyLocks : list KlPair)
    (txn : MvccTxn R) : outcome go_error (kvrpcpb.ResolveLockResponse * MvccTxn R) :=
  '(e, txn) ← resolve_all request keyLocks txn None;
  Ok (kvrpcpb.mkResolveLockResponse None e, txn).

Definition ResolveLock_Read (fuel : positive) (request : kvrpcpb.ResolveLockRequest) (txn : RoTxn R)
  : outcome go_error (list KlPair * list bytes) :=
  let txn := mkRoTxn (txn_Reader txn) (kvrpcpb.rl_StartVersion request) in
  keyLocks ← AllLocksForTxn fuel txn;
  Ok (keyLocks, map kl_Key keyLocks).

(** ** The methods of the interface *)

(** [Read] returns the command it leaves ([ResolveLock] stores the locks it
    found), the response and the keys to write. *)
Definition cmd_Read (fuel : positive) (cmd : Command) (txn : RoTxn R)
  : outcome go_error (Command * option Response * option (list bytes)) :=
  match cmd with
  | Get r => resp ← Get_Read r txn; Ok (cmd, Some (GetResp resp), None)
  | Scan r => resp ← Scan_Read fuel r txn; Ok (cmd, Some (ScanResp resp), None)
  | ResolveLock r _ =>
    '(keyLocks, keys) ← ResolveLock_Read fuel r txn;
    Ok (ResolveLock r keyLocks, None, Some keys)
  | Prewrite _ | Commit _ | Rollback _ | CheckTxnStatus _ => Ok (cmd, None, None)
  end.

Definition PrepareWrites (cmd : Command) (txn : MvccTxn R)
  : outcome go_error (option Response * MvccTxn R) :=
  match cmd with
  | Get _ | Scan _ => Ok (None, txn)
  | Prewrite r => '(resp, txn) ← Prewrite_PrepareWrites r txn; Ok (Some (PrewriteResp resp), txn)
  | Commit r => '(resp, txn) ← Commit_PrepareWrites r txn; Ok (Some (CommitResp resp), txn)
  | Rollback r => '(resp, txn) ← Rollback_PrepareWrites r txn; Ok (Some (RollbackResp resp), txn)
  | CheckTxnStatus r =>
    '(resp, txn) ← CheckTxnStatus_PrepareWrites r txn; Ok (Some (CheckTxnStatusResp resp), txn)
  | ResolveLock r keyLocks =>
    '(resp, txn) ← ResolveLock_PrepareWrites r keyLocks txn; Ok (Some (ResolveLockResp resp), txn)
  end.

(** ** command.go: the driver *)

Context {St : Type} `{!Storage St R}.

(** A command finishes with a response or an error, and leaves the storage and
    the latches; or it waits for a latch that is held. *)
Inductive run :=
| Blocked (wg : nat)
| Ran (result : outcome go_error (option Response)) (st : St) (l : Latches).

(** [defer latches.ReleaseLatches]: a panic of the release replaces the result. *)
Definition with_release (keys : list bytes) (result : outcome go_error (option Response)) (st : St)
    (l : Latches) : run :=
  match ReleaseLatches l keys with
  | Ok l => Ran result st l
  | Panic w => Ran (Panic w) st l
  | Err _ | OutOfFuel => Ran OutOfFuel st l
  end.

(** The first part: determine the keys to write, reading the store if the
    command does not know them. *)
Definition Run_read (fuel : positive) (cmd : Command) (st : St)
  : outcome go_error (Command * option Response * option (list bytes)) :=
  match WillWrite cmd with
  | Some keysToWrite => Ok (cmd, None, Some keysToWrite)
  | None =>
    reader ← Reader st (cmd_Context cmd);
    cmd_Read fuel cmd (mkRoTxn reader (StartTs cmd))
  end.

(** The second part, under the latches. *)
Definition Run_write (cmd : Command) (st : St) : outcome go_error (option Response) * St :=
  match reader ← Reader st (cmd_Context cmd); PrepareWrites cmd (NewTxn reader (StartTs cmd)) with
  | Ok (resp, txn) =>
    let '(st, err) := Storage.Write st (cmd_Context cmd) (Writes txn) in
    match err with
    | Some err => (Err err, st)
    | None => (Ok resp, st)
    end
  | Err e => (Err e, st)
  | Panic w => (Panic w, st)
  | OutOfFuel => (OutOfFuel, st)
  end.

Definition RunCommand (fuel : positive) (cmd : Command) (st : St) (l : Latches) : run :=
  match Run_read fuel cmd st with
  | Ok (cmd, resp, None) => Ran (Ok resp) st l
  | Ok (cmd, _, Some keysToWrite) =>
    match AcquireLatches l keysToWrite with
    | (_, Some wg) => Blocked wg
    | (l, None) => let '(res, st) := Run_write cmd st in with_release keysToWrite res st l
    end
  | Err e => Ran (Err e) st l
  | Panic w => Ran (Panic w) st l
  | OutOfFuel => Ran OutOfFuel st l
  end.
End Commands.
Arguments run : clear implicits.
