(* ===== verification/TxnSpec.v ===== *)
(** What a transaction does to a store.

    A snapshot is read through three accessors: the lock on a key
    ([lock_of]), the record a key has at a commit timestamp ([rec_of]) and the
    value a transaction wrote for a key ([val_of]).  The commands of
    kv/transaction/commands are described by what they return and by what the
    accessors read afterwards, for any reader that keeps [ReaderLaws].
    [store_inv] is the invariant of the transaction protocol. *)

From S2P Require Import Prelude Codec Pb Storage Mvcc MvccSpec Latches Commands.

#[local] Opaque Write_ToBytes ParseWrite Lock_ToBytes ParseLock EncodeKey DecodeUserKey decodeTimestamp.

(** ** Reading a snapshot *)

Definition lock_of (s : snapshot) (k : bytes) : option Lock :=
  match mjoin (s CfLock !! k) with
  | Some b => match ParseLock b with Ok l => Some l | _ => None end
  | None => None
  end.

Definition rec_of (s : snapshot) (k : bytes) (ts : Z) : option Mvcc.Write := write_at (s CfWrite) k ts.

Definition val_of (s : snapshot) (k : bytes) (ts : Z) : option (option bytes) := s CfDefault !! EncodeKey k ts.

(** The lock transaction [st] holds on [k]. *)
Definition held (s : snapshot) (k : bytes) (st : Z) : option Lock := held_lock (lock_of s k) st.

Lemma held_Some s k st l : held s k st = Some l ↔ lock_of s k = Some l ∧ Ts l = st.
Proof.
  unfold held, held_lock. destruct (lock_of s k); [case_decide|]; naive_solver.
Qed.

Definition wf_locks (c : cfmap) : Prop :=
  ∀ k v, c !! k = Some v → ∃ l, v = Some (Lock_ToBytes l) ∧ wf_lock l.

Record wf_store (s : snapshot) : Prop := {
  wfs_writes : wf_writes (s CfWrite);
  wfs_locks : wf_locks (s CfLock)
}.

Lemma lock_of_wf s k l : wf_store s → lock_of s k = Some l → wf_lock l.
Proof.
  intros [_ Hl]. unfold lock_of. destruct (s CfLock !! k) as [v|] eqn:E; [|done]. cbn.
  destruct (Hl _ _ E) as (l' & -> & Hwf). cbn. rewrite ParseLock_ToBytes //. naive_solver.
Qed.

Lemma rec_of_wf s k ts w : wf_store s → rec_of s k ts = Some w → wf_write w.
Proof. intros [Hw _] E. by eapply write_at_Some. Qed.

(** ** Batches

    What a batch leaves at a place of the store is decided by its last
    modification of that place; it is enough that all of them agree. *)

Definition m_out (m : Modify) : option (option bytes) :=
  match m with Put _ v _ => Some v | Delete _ _ => None end.

Definition touches (cf : string) (k : bytes) (m : Modify) : Prop := Modify_Cf m = cf ∧ Modify_Key m = k.
#[export] Instance touches_dec cf k m : Decision (touches cf k m).
Proof. unfold touches. apply _. Defined.

Lemma apply_modify_lookup s m cf k :
  apply_modify s m cf !! k = if decide (touches cf k m) then m_out m else s cf !! k.
Proof.
  unfold touches. destruct m as [mk v mcf|mk mcf]; cbn; unfold upd;
    (destruct (decide (cf = mcf)) as [->|]; [|case_decide; naive_solver]);
    rewrite ?lookup_insert ?lookup_delete; repeat case_decide; naive_solver.
Qed.

Lemma apply_batch_untouched s batch cf k :
  (∀ m, m ∈ batch → ¬ touches cf k m) → apply_batch s batch cf !! k = s cf !! k.
Proof.
  unfold apply_batch. induction batch as [|m batch IH] in s |- *; cbn; [done|]. intros H.
  rewrite IH; [|set_solver]. rewrite apply_modify_lookup. case_decide as Ht; [|done].
  exfalso. apply (H m); [set_solver|done].
Qed.

Lemma apply_batch_agree s batch cf k x :
  (∀ m, m ∈ batch → touches cf k m → m_out m = x) →
  (s cf !! k = x ∨ ∃ m, m ∈ batch ∧ touches cf k m) →
  apply_batch s batch cf !! k = x.
Proof.
  unfold apply_batch. induction batch as [|m batch IH] in s |- *; cbn; intros H Hor; [set_solver|].
  apply IH; [set_solver|]. rewrite apply_modify_lookup. case_decide as Ht.
  - left. apply H; [set_solver|done].
  - destruct Hor as [?|(m' & Hin & Ht')]; [by left|right]. exists m'. set_solver.
Qed.

Lemma apply_batch_or s batch cf k v :
  apply_batch s batch cf !! k = Some v →
  s cf !! k = Some v ∨ ∃ m, m ∈ batch ∧ touches cf k m ∧ m_out m = Some v.
Proof.
  unfold apply_batch. induction batch as [|m batch IH] in s |- *; cbn; [auto|].
  intros [E|(m' & ? & ?)]%IH; [|right; exists m'; set_solver].
  rewrite apply_modify_lookup in E. case_decide; [right|by left]. exists m. set_solver.
Qed.

(** A modification a transaction makes: a record or a value under a timestamped
    key, a lock, or the removal of one. *)
Inductive txn_modify : Modify → Prop :=
| tm_write k ts w : is_u64 ts → wf_write w → txn_modify (Put (EncodeKey k ts) (Some (Write_ToBytes w)) CfWrite)
| tm_lock k l : wf_lock l → txn_modify (Put k (Some (Lock_ToBytes l)) CfLock)
| tm_unlock k : txn_modify (Delete k CfLock)
| tm_put k ts v : is_u64 ts → txn_modify (Put (EncodeKey k ts) v CfDefault)
| tm_del k ts : is_u64 ts → txn_modify (Delete (EncodeKey k ts) CfDefault).

Lemma txn_modify_Cf m : txn_modify m → Modify_Cf m ∈ CFs.
Proof. destruct 1; unfold CFs; cbn; set_solver. Qed.

Lemma wf_store_batch s batch :
  wf_store s → Forall txn_modify batch → wf_store (apply_batch s batch).
Proof.
  intros [Hw Hl] Hb. rewrite Forall_forall in Hb. split.
  - intros ek v [E|(m & Hin & [Hcf Hk] & Ho)]%apply_batch_or; [by apply Hw|].
    apply Hb in Hin. destruct Hin; cbn in *; simplify_eq; eauto 10.
  - intros ek v [E|(m & Hin & [Hcf Hk] & Ho)]%apply_batch_or; [exact (Hl _ _ E)|].
    apply Hb in Hin. destruct Hin; cbn in *; simplify_eq; eauto 10.
Qed.

(** The accessors after a batch. *)
Lemma rec_of_untouched s batch k ts :
  (∀ m, m ∈ batch → ¬ touches CfWrite (EncodeKey k ts) m) →
  rec_of (apply_batch s batch) k ts = rec_of s k ts.
Proof. intros H. unfold rec_of, write_at. by rewrite apply_batch_untouched. Qed.

Lemma rec_of_put s batch k ts w :
  wf_write w → Put (EncodeKey k ts) (Some (Write_ToBytes w)) CfWrite ∈ batch →
  (∀ m, m ∈ batch → touches CfWrite (EncodeKey k ts) m → m_out m = Some (Some (Write_ToBytes w))) →
  rec_of (apply_batch s batch) k ts = Some w.
Proof.
  intros Hw Hin H. apply write_at_lookup; [done|]. apply apply_batch_agree; [done|]. right.
  eexists. by split.
Qed.

Lemma lock_of_untouched s batch k :
  (∀ m, m ∈ batch → ¬ touches CfLock k m) → lock_of (apply_batch s batch) k = lock_of s k.
Proof. intros H. unfold lock_of. by rewrite apply_batch_untouched. Qed.

Lemma lock_of_delete s batch k :
  Delete k CfLock ∈ batch → (∀ m, m ∈ batch → touches CfLock k m → m_out m = None) →
  lock_of (apply_batch s batch) k = None.
Proof.
  intros Hin H. unfold lock_of. rewrite (apply_batch_agree _ _ _ _ None); [done..|]. right.
  eexists. by split.
Qed.

Lemma val_of_untouched s batch k ts :
  (∀ m, m ∈ batch → ¬ touches CfDefault (EncodeKey k ts) m) →
  val_of (apply_batch s batch) k ts = val_of s k ts.
Proof. apply apply_batch_untouched. Qed.

(** ** The invariant *)

(** A key keeps at most one record of each transaction, written no earlier
    than the transaction started; a lock is held only while its transaction
    has no record on the key and no later version is committed; a put, locked
    or committed, has its value. *)
Record store_inv (s : snapshot) : Prop := {
  si_wf : wf_store s;
  si_after k : commit_after_start (s CfWrite) k;
  si_unique k t1 t2 w1 w2 : is_u64 t1 → is_u64 t2 →
    rec_of s k t1 = Some w1 → rec_of s k t2 = Some w2 → w_StartTS w1 = w_StartTS w2 → t1 = t2;
  si_undecided k l t w : lock_of s k = Some l → is_u64 t → rec_of s k t = Some w → w_StartTS w ≠ Ts l;
  si_newest k l t w : lock_of s k = Some l → is_u64 t → rec_of s k t = Some w → is_data w → t < Ts l;
  si_lock_value k l : lock_of s k = Some l → Kind l = WriteKindPut → is_Some (val_of s k (Ts l));
  si_value k t w : is_u64 t → rec_of s k t = Some w → w_Kind w = WriteKindPut →
    is_Some (val_of s k (w_StartTS w))
}.

(** Timestamps come from one oracle: a record at [ts] can only be one of
    transaction [st]. *)
Definition ts_of_txn (s : snapshot) (k : bytes) (ts st : Z) : Prop :=
  ∀ w, rec_of s k ts = Some w → w_StartTS w = st.

(** ** What the helpers of the commands return *)

Definition add_writes {R} (txn : MvccTxn R) (ws : list Modify) : MvccTxn R :=
  mkMvccTxn (txn_ro txn) (writes txn ++ ws).

Lemma add_writes_nil {R} (txn : MvccTxn R) : add_writes txn [] = txn.
Proof. destruct txn. unfold add_writes. by rewrite app_nil_r. Qed.
Lemma add_writes_app {R} (txn : MvccTxn R) ws ws' :
  add_writes (add_writes txn ws) ws' = add_writes txn (ws ++ ws').
Proof. unfold add_writes. cbn. by rewrite app_assoc. Qed.
Lemma add_write_eq {R} (txn : MvccTxn R) m : add_write txn m = add_writes txn [m].
Proof. done. Qed.

Definition commit_record (k : bytes) (cts st kind : Z) : Modify :=
  Put (EncodeKey k cts) (Some (Write_ToBytes (mkWrite st kind))) CfWrite.

Definition lock_not_found (k : bytes) : kvrpcpb.KeyError :=
  kvrpcpb.mkKeyError None (Sprintf "lock not found for key %v" [FBytes k]) no_text None.
Definition already_committed (k : bytes) (ts : Z) : kvrpcpb.KeyError :=
  kvrpcpb.mkKeyError None no_text
    (Sprintf "key has already been committed: %v at %d" [FBytes k; FZ ts]) None.

(** Committing one key of transaction [st]: the outcome and the writes. *)
Inductive commit_key (s : snapshot) (st cts : Z) (k : bytes) : option kvrpcpb.KeyError → list Modify → Prop :=
| ck_locked l :
    held s k st = Some l →
    commit_key s st cts k None [commit_record k cts st (Kind l); Delete k CfLock]
| ck_committed t w :
    held s k st = None → own_record (s CfWrite) k st (Some (t, w)) → w_Kind w ≠ WriteKindRollback →
    commit_key s st cts k None []
| ck_lost o :
    held s k st = None → own_record (s CfWrite) k st o →
    (∀ t w, o = Some (t, w) → w_Kind w = WriteKindRollback) →
    commit_key s st cts k (Some (lock_not_found k)) [].

(** Rolling one key back. *)
Inductive rollback_key (s : snapshot) (st : Z) (k : bytes) : option kvrpcpb.KeyError → list Modify → Prop :=
| rk_locked l ws :
    held s k st = Some l →
    ws ≡ₚ (if decide (Kind l = WriteKindPut) then [Delete (EncodeKey k st) CfDefault] else []) ++
          [commit_record k st st WriteKindRollback; Delete k CfLock] →
    rollback_key s st k None ws
| rk_lost :
    held s k st = None → own_record (s CfWrite) k st None →
    rollback_key s st k None [commit_record k st st WriteKindRollback]
| rk_done t w :
    held s k st = None → own_record (s CfWrite) k st (Some (t, w)) → w_Kind w = WriteKindRollback →
    rollback_key s st k None []
| rk_committed t w :
    held s k st = None → own_record (s CfWrite) k st (Some (t, w)) → w_Kind w ≠ WriteKindRollback →
    rollback_key s st k (Some (already_committed k t)) [].

(** No version of the key was written at or after [st]. *)
Definition no_later (s : snapshot) (k : bytes) (st : Z) : Prop :=
  ∀ t w, is_u64 t → rec_of s k t = Some w → t < st.

Definition prewrite_lock (req : kvrpcpb.PrewriteRequest) (st : Z) (m : kvrpcpb.Mutation) : Lock :=
  mkLock (kvrpcpb.pw_PrimaryLock req) st (kvrpcpb.pw_LockTtl req) (kvrpcpb.Op m + 1).

Definition prewrite_data (st : Z) (m : kvrpcpb.Mutation) : list Modify :=
  let ek := EncodeKey (kvrpcpb.m_Key m) st in
  if decide (kvrpcpb.Op m = kvrpcpb.Op_Put) then [Put ek (kvrpcpb.m_Value m) CfDefault]
  else if decide (kvrpcpb.Op m = kvrpcpb.Op_Del) then [Delete ek CfDefault]
  else [].

Definition prewrite_writes (req : kvrpcpb.PrewriteRequest) (st : Z) (m : kvrpcpb.Mutation) : list Modify :=
  Put (kvrpcpb.m_Key m) (Some (Lock_ToBytes (prewrite_lock req st m))) CfLock :: prewrite_data st m.

(** Prewriting one mutation. *)
Inductive prewrite_mut (s : snapshot) (st : Z) (req : kvrpcpb.PrewriteRequest) (m : kvrpcpb.Mutation)
  : option kvrpcpb.KeyError → list Modify → Prop :=
| pm_conflict t w :
    newest (s CfWrite) (kvrpcpb.m_Key m) two64 (Some (t, w)) → st ≤ t →
    prewrite_mut s st req m (Some (kvrpcpb.mkKeyError None no_text no_text
      (Some (kvrpcpb.mkWriteConflict st t (kvrpcpb.m_Key m) (kvrpcpb.pw_PrimaryLock req))))) []
| pm_locked l :
    no_later s (kvrpcpb.m_Key m) st → lock_of s (kvrpcpb.m_Key m) = Some l → Ts l ≠ st →
    prewrite_mut s st req m (Some (kvrpcpb.mkKeyError (Some (Lock_Info l (kvrpcpb.m_Key m))) no_text no_text
      (Some (kvrpcpb.mkWriteConflict st (Ts l) (kvrpcpb.m_Key m) (kvrpcpb.pw_PrimaryLock req))))) []
| pm_ok :
    no_later s (kvrpcpb.m_Key m) st →
    (∀ l, lock_of s (kvrpcpb.m_Key m) = Some l → Ts l = st) →
    prewrite_mut s st req m None (prewrite_writes req st m).

(** Prewriting all of them: the errors and the writes, in order. *)
Inductive prewrite_muts (s : snapshot) (st : Z) (req : kvrpcpb.PrewriteRequest)
  : list kvrpcpb.Mutation → list kvrpcpb.KeyError → list Modify → Prop :=
| pms_nil : prewrite_muts s st req [] [] []
| pms_cons m e ws muts errs ws' :
    prewrite_mut s st req m e ws → prewrite_muts s st req muts errs ws' →
    prewrite_muts s st req (m :: muts) (option_list e ++ errs) (ws ++ ws').

(** The loop of a lock resolution goes over all keys; the last error counts. *)
Inductive resolve_spec (f : bytes → option kvrpcpb.KeyError → list Modify → Prop)
  : list bytes → option kvrpcpb.KeyError → option kvrpcpb.KeyError → list Modify → Prop :=
| resolve_nil e : resolve_spec f [] e e []
| resolve_cons k keys e0 e1 e2 ws ws' :
    f k e1 ws → resolve_spec f keys (match e1 with Some e => Some e | None => e0 end) e2 ws' →
    resolve_spec f (k :: keys) e0 e2 (ws ++ ws').

(** A loop over keys: the keys processed and the writes collected. *)
Inductive each_spec (f : bytes → option kvrpcpb.KeyError → list Modify → Prop)
  : list bytes → option kvrpcpb.KeyError → list bytes → list Modify → Prop :=
| each_nil : each_spec f [] None [] []
| each_stop k keys e ws : f k (Some e) ws → each_spec f (k :: keys) (Some e) [k] ws
| each_cons k keys ws e done ws' :
    f k None ws → each_spec f keys e done ws' → each_spec f (k :: keys) e (k :: done) (ws ++ ws').

Section Helpers.
Context {R I : Type} `{!StorageReader R I, !ReaderLaws R I}.
Implicit Types (txn : MvccTxn R) (k : bytes).

Definition snap (txn : MvccTxn R) : snapshot := view (txn_Reader (txn_ro txn)).

Lemma GetLock_lock_of (txn : RoTxn R) k :
  wf_store (view (txn_Reader txn)) → GetLock txn k = Ok (lock_of (view (txn_Reader txn)) k).
Proof.
  intros [_ Hl]. unfold GetLock, lock_of. rewrite (get_law _ _ _ CfLock_CFs). cbn.
  destruct (view (txn_Reader txn) CfLock !! k) as [v|] eqn:E; cbn; [|done].
  destruct (Hl _ _ E) as (l & -> & Hwf). cbn. by rewrite ParseLock_ToBytes.
Qed.

Lemma commitKey_spec txn k cts :
  store_inv (snap txn) → is_u64 (StartTS (txn_ro txn)) →
  ∃ e ws, commit_key (snap txn) (StartTS (txn_ro txn)) cts k e ws ∧
    commitKey k cts txn = Ok (e, add_writes txn ws).
Proof.
  intros Hinv Hst. unfold commitKey. rewrite GetLock_lock_of; [|apply Hinv]. cbn.
  change (held_lock _ _) with (held (snap txn) k (StartTS (txn_ro txn))).
  destruct (held (snap txn) k _) as [l|] eqn:Hh.
  - eexists _, _. split; [by apply ck_locked|]. unfold DeleteLock, PutWrite.
    by rewrite !add_write_eq add_writes_app.
  - destruct (CurrentWrite_own (txn_ro txn) k) as (o & Ho & ->); [apply Hinv|apply Hinv|done|].
    destruct o as [[t w]|]; cbn; [case_bool_decide as Hk|].
    + exists None, []. rewrite add_writes_nil. split; [exact (ck_committed _ _ _ _ t w Hh Ho Hk)|done].
    + eexists _, []. rewrite add_writes_nil. split; [|done]. apply (ck_lost _ _ _ _ _ Hh Ho).
      intros ?? [= <- <-]. by destruct (decide (w_Kind w = WriteKindRollback)).
    + eexists _, []. rewrite add_writes_nil. split; [|done]. by apply (ck_lost _ _ _ _ _ Hh Ho).
Qed.

Lemma rollbackKey_spec txn k :
  store_inv (snap txn) → is_u64 (StartTS (txn_ro txn)) →
  ∃ e ws, rollback_key (snap txn) (StartTS (txn_ro txn)) k e ws ∧
    rollbackKey k txn = Ok (e, add_writes txn ws).
Proof.
  intros Hinv Hst. unfold rollbackKey. rewrite GetLock_lock_of; [|apply Hinv]. cbn.
  change (held_lock _ _) with (held (snap txn) k (StartTS (txn_ro txn))).
  destruct (held (snap txn) k _) as [l|] eqn:Hh.
  - eexists _, _. split; [by apply (rk_locked _ _ _ _ _ Hh)|]. unfold DeleteLock, PutWrite, DeleteValue.
    case_decide; by rewrite !add_write_eq !add_writes_app.
  - destruct (CurrentWrite_own (txn_ro txn) k) as (o & Ho & ->); [apply Hinv|apply Hinv|done|].
    destruct o as [[t w]|]; cbn; [case_decide as Hk|].
    + exists None, []. rewrite add_writes_nil. split; [exact (rk_done _ _ _ t w Hh Ho Hk)|done].
    + eexists _, []. rewrite add_writes_nil. split; [exact (rk_committed _ _ _ t w Hh Ho Hk)|done].
    + eexists _, _. split; [exact (rk_lost _ _ _ Hh Ho)|]. unfold PutWrite. by rewrite add_write_eq.
Qed.

Lemma each_key_spec f (F : bytes → option kvrpcpb.KeyError → list Modify → Prop) keys txn :
  (∀ k ws0, ∃ e ws, F k e ws ∧ f k (add_writes txn ws0) = Ok (e, add_writes txn (ws0 ++ ws))) →
  ∃ e done ws, each_spec F keys e done ws ∧ each_key f keys txn = Ok (e, add_writes txn ws).
Proof.
  intros Hf. assert (∀ ws0, ∃ e done ws, each_spec F keys e done ws ∧
    each_key f keys (add_writes txn ws0) = Ok (e, add_writes txn (ws0 ++ ws))) as H.
  { induction keys as [|k keys IH]; intros ws0.
    - eexists _, _, []. split; [constructor|]. by rewrite app_nil_r.
    - cbn. destruct (Hf k ws0) as ([e|] & ws & HF & ->); cbn.
      + eexists _, _, _. split; [by apply each_stop|done].
      + destruct (IH (ws0 ++ ws)) as (e & d & ws' & Hs & ->). rewrite -app_assoc.
        eexists _, _, _. split; [by eapply each_cons|done]. }
  destruct (H []) as (e & d & ws & Hs & E). rewrite add_writes_nil in E. eauto.
Qed.

Lemma newest_no_later s k st o :
  newest (s CfWrite) k two64 o → (∀ t w, o = Some (t, w) → t < st) → no_later s k st.
Proof.
  intros Hn Ho t w Ht Hw. unfold rec_of in Hw. destruct o as [[t' w']|]; cbn in Hn.
  - destruct Hn as (? & ? & ? & Hb). specialize (Ho _ _ eq_refl).
    destruct (decide (t' < t)); [|lia]. rewrite Hb // in Hw. destruct Ht. lia.
  - rewrite Hn // in Hw. by destruct Ht.
Qed.

Lemma prewriteMutation_spec req txn m :
  wf_store (snap txn) → is_u64 (StartTS (txn_ro txn)) →
  ∃ e ws, prewrite_mut (snap txn) (StartTS (txn_ro txn)) req m e ws ∧
    prewriteMutation req txn m = Ok (e, add_writes txn ws).
Proof.
  intros Hwf Hst. unfold prewriteMutation, MostRecentWrite.
  destruct (mostRecentWriteBefore_newest (txn_ro txn) (kvrpcpb.m_Key m) TsMax) as (o & Hn & ->);
    [apply Hwf|unfold is_u64, TsMax, max64, two64; lia|].
  replace (TsMax + 1) with two64 in Hn by done. change (history (txn_ro txn)) with (snap txn CfWrite) in Hn.
  assert (∀ p : (option Mvcc.Write * Z),
    p = match o with Some (t, w) => (Some w, t) | None => (None, 0) end →
    ¬ (is_Some p.1 ∧ StartTS (txn_ro txn) ≤ p.2) → no_later (snap txn) (kvrpcpb.m_Key m) (StartTS (txn_ro txn))) as Hno.
  { intros p -> Hp. eapply newest_no_later; [done|]. intros t w ->. cbn in Hp.
    destruct (decide (t < StartTS (txn_ro txn))); [done|]. destruct Hp. split; [done|lia]. }
  cbn. destruct (match o with Some (t, w) => (Some w, t) | None => (None, 0) end) as [write cts] eqn:Ep.
  case_decide as Hc.
  { destruct Hc as [[w ->] Hle]. destruct o as [[t' w']|]; [|done]. injection Ep as -> ->.
    eexists _, []. rewrite add_writes_nil. split; [by eapply pm_conflict|done]. }
  specialize (Hno _ eq_refl Hc). rewrite GetLock_lock_of //. cbn.
  change (view (txn_Reader (txn_ro txn))) with (snap txn).
  destruct (lock_of (snap txn) (kvrpcpb.m_Key m)) as [l|] eqn:El; [case_decide as Ht|].
  - eexists _, []. rewrite add_writes_nil. split; [by eapply pm_locked|done].
  - eexists _, _. split; [apply pm_ok; [done|naive_solver lia]|].
    unfold prewrite_writes, prewrite_data, PutLock, PutValue, DeleteValue.
    repeat case_decide; by rewrite !add_write_eq ?add_writes_app.
  - eexists _, _. split; [apply pm_ok; [done|naive_solver]|].
    unfold prewrite_writes, prewrite_data, PutLock, PutValue, DeleteValue.
    repeat case_decide; by rewrite !add_write_eq ?add_writes_app.
Qed.

Lemma prewrite_all_spec req txn muts :
  wf_store (snap txn) → is_u64 (StartTS (txn_ro txn)) →
  ∃ errs ws, prewrite_muts (snap txn) (StartTS (txn_ro txn)) req muts errs ws ∧
    prewrite_all req txn muts [] = Ok (errs, add_writes txn ws).
Proof.
  intros Hwf Hst.
  assert (∀ errs0 ws0, ∃ errs ws, prewrite_muts (snap txn) (StartTS (txn_ro txn)) req muts errs ws ∧
    prewrite_all req (add_writes txn ws0) muts errs0 = Ok (errs0 ++ errs, add_writes txn (ws0 ++ ws))) as H.
  { induction muts as [|m muts IH]; intros errs0 ws0.
    - exists [], []. rewrite !app_nil_r. split; [constructor|done].
    - destruct (prewriteMutation_spec req (add_writes txn ws0) m Hwf Hst) as (e & ws & Hm & E).
      cbn. rewrite E. cbn. rewrite add_writes_app.
      destruct (IH (match e with Some e => errs0 ++ [e] | None => errs0 end) (ws0 ++ ws))
        as (errs & ws' & Hms & ->).
      eexists _, _. split; [by eapply pms_cons|]. rewrite -app_assoc. f_equal. f_equal.
      destruct e; cbn; by rewrite -?app_assoc. }
  destruct (H [] []) as (errs & ws & Hs & E). rewrite add_writes_nil in E. eauto.
Qed.
End Helpers.

(** Checking the status of transaction [st] at its primary key. *)
Inductive check_status (s : snapshot) (st now : Z) (k : bytes)
  : kvrpcpb.CheckTxnStatusResponse → list Modify → Prop :=
| cs_alive l :
    held s k st = Some l → physical now ≤ u64 (physical (Ts l) + Ttl l) →
    check_status s st now k (kvrpcpb.mkCheckTxnStatusResponse None (Ttl l) 0 kvrpcpb.NoAction) []
| cs_expired l ws :
    held s k st = Some l → u64 (physical (Ts l) + Ttl l) < physical now → rollback_key s st k None ws →
    check_status s st now k (kvrpcpb.mkCheckTxnStatusResponse None 0 0 kvrpcpb.TTLExpireRollback) ws
| cs_lost ws :
    held s k st = None → own_record (s CfWrite) k st None → rollback_key s st k None ws →
    check_status s st now k (kvrpcpb.mkCheckTxnStatusResponse None 0 0 kvrpcpb.LockNotExistRollback) ws
| cs_rolled_back t w :
    held s k st = None → own_record (s CfWrite) k st (Some (t, w)) → w_Kind w = WriteKindRollback →
    check_status s st now k (kvrpcpb.mkCheckTxnStatusResponse None 0 0 kvrpcpb.NoAction) []
| cs_committed t w :
    held s k st = None → own_record (s CfWrite) k st (Some (t, w)) → w_Kind w ≠ WriteKindRollback →
    check_status s st now k (kvrpcpb.mkCheckTxnStatusResponse None 0 t kvrpcpb.NoAction) [].

Section Status.
Context {R I : Type} `{!StorageReader R I, !ReaderLaws R I}.
Implicit Types txn : MvccTxn R.

Lemma CheckTxnStatus_spec req txn :
  store_inv (snap txn) → is_u64 (StartTS (txn_ro txn)) →
  ∃ resp ws, check_status (snap txn) (StartTS (txn_ro txn)) (kvrpcpb.CurrentTs req) (kvrpcpb.PrimaryKey req) resp ws ∧
    CheckTxnStatus_PrepareWrites req txn = Ok (resp, add_writes txn ws).
Proof.
  intros Hinv Hst. unfold CheckTxnStatus_PrepareWrites. rewrite GetLock_lock_of; [|apply Hinv]. cbn.
  change (held_lock _ _) with (held (snap txn) (kvrpcpb.PrimaryKey req) (StartTS (txn_ro txn))).
  destruct (held (snap txn) _ _) as [l|] eqn:Hh; [case_decide as Hexp|].
  - eexists _, (commit_record _ _ _ _ ::
      (if decide (Kind l = WriteKindPut) then [Delete (EncodeKey _ _) CfDefault] else []) ++ [Delete _ CfLock]).
    split.
    + eapply cs_expired; [done..|]. apply (rk_locked _ _ _ _ _ Hh). case_decide; cbn; [apply perm_swap|done].
    + apply held_Some in Hh as [_ ->]. unfold DeleteLock, PutWrite, DeleteValue.
      case_decide; by rewrite !add_write_eq !add_writes_app.
  - eexists _, []. rewrite add_writes_nil. split; [|done]. eapply cs_alive; [done|lia].
  - destruct (CurrentWrite_own (txn_ro txn) (kvrpcpb.PrimaryKey req)) as (o & Ho & ->); [apply Hinv|apply Hinv|done|].
    destruct o as [[t w]|]; cbn; [case_decide as Hk|].
    + eexists _, []. rewrite add_writes_nil. split; [exact (cs_rolled_back _ _ _ _ t w Hh Ho Hk)|done].
    + eexists _, []. rewrite add_writes_nil. split; [exact (cs_committed _ _ _ _ t w Hh Ho Hk)|done].
    + eexists _, _. split; [exact (cs_lost _ _ _ _ _ Hh Ho (rk_lost _ _ _ Hh Ho))|].
      unfold PutWrite. by rewrite add_write_eq.
Qed.

Lemma resolve_all_spec req keyLocks txn (F : bytes → option kvrpcpb.KeyError → list Modify → Prop) :
  (∀ kl ws0, kl ∈ keyLocks → ∃ e ws, F (kl_Key kl) e ws ∧
    (if decide (Ts (kl_Lock kl) ≤ kvrpcpb.rl_CommitVersion req ∧ kvrpcpb.rl_StartVersion req ≤ Ts (kl_Lock kl))
     then commitKey (kl_Key kl) (kvrpcpb.rl_CommitVersion req) (add_writes txn ws0)
     else rollbackKey (kl_Key kl) (add_writes txn ws0)) = Ok (e, add_writes txn (ws0 ++ ws))) →
  ∃ e ws, resolve_spec F (map kl_Key keyLocks) None e ws ∧
    resolve_all req keyLocks txn None = Ok (e, add_writes txn ws).
Proof.
  intros HF. assert (∀ e0 ws0, ∃ e ws, resolve_spec F (map kl_Key keyLocks) e0 e ws ∧
    resolve_all req keyLocks (add_writes txn ws0) e0 = Ok (e, add_writes txn (ws0 ++ ws))) as H.
  { induction keyLocks as [|kl kls IH]; intros e0 ws0.
    - eexists _, []. split; [constructor|]. by rewrite app_nil_r.
    - destruct (HF kl ws0) as (e & ws & HFk & E); [set_solver|]. cbn. rewrite E. cbn.
      destruct (IH ltac:(set_solver) (match e with Some e => Some e | None => e0 end) (ws0 ++ ws))
        as (e' & ws' & Hs & ->). rewrite -app_assoc.
      eexists _, _. split; [by eapply resolve_cons|done]. }
  destruct (H None []) as (e & ws & Hs & E). rewrite add_writes_nil in E. eauto.
Qed.
End Status.

(** ** Scanning the locks *)

(** Keys of [c] an iterator at [o] has still to visit. *)
Definition keys_left {V} (c : gmap bytes V) (o : option (bytes * V)) : Z :=
  match o with
  | Some (k, _) => Z.of_nat (size (filter (λ p, ble k p.1) c))
  | None => 0
  end.

Lemma keys_left_nonneg {V} (c : gmap bytes V) o : 0 ≤ keys_left c o.
Proof. destruct o as [[]|]; cbn; lia. Qed.

Lemma keys_left_bound {V} (c : gmap bytes V) o : keys_left c o ≤ Z.of_nat (size c).
Proof.
  destruct o as [[k v]|]; cbn; [|lia]. apply Nat2Z.inj_le, map_subseteq_size, map_filter_subseteq.
Qed.

Lemma keys_left_next {V} (c : gmap bytes V) k v o :
  c !! k = Some v → least c (blt k) o → keys_left c o < keys_left c (Some (k, v)).
Proof.
  intros Hk Hl. assert (∀ m : gmap bytes V, m ⊆ filter (λ p, ble k p.1) c → m !! k = None →
    (size m < size (filter (λ p, ble k p.1) c))%nat) as Hsub.
  { intros m Hm Hn. apply map_subset_size. split; [done|]. intros Hm'.
    rewrite (lookup_weaken _ _ k v _ Hm') in Hn; [done|].
    apply map_lookup_filter_Some. split; [done|]. cbn. apply ble_refl. }
  destruct o as [[k' v']|]; cbn.
  - destruct Hl as (Hk' & Hlt & _). apply Nat2Z.inj_lt, Hsub.
    + apply map_filter_subseteq_ext. intros i x _. cbn. intros Hle.
      apply blt_ble. by eapply blt_ble_trans.
    + apply map_lookup_filter_None. right. intros x _. cbn. by apply blt_not_ble.
  - apply (Nat2Z.inj_lt 0). rewrite -(map_size_empty (M:=gmap bytes) (A:=V)).
    apply Hsub; [apply map_empty_subseteq|apply lookup_empty].
Qed.

Section LockScan.
Context {R I : Type} `{!StorageReader R I, !ReaderLaws R I}.
Implicit Types txn : RoTxn R.

(** The locks of transaction [st] before the position [o]. *)
Definition locks_before (s : snapshot) (st : Z) (o : option (bytes * option bytes)) (result : list KlPair) : Prop :=
  NoDup (map kl_Key result) ∧
  ∀ k l, mkKlPair k l ∈ result ↔
    lock_of s k = Some l ∧ Ts l = st ∧ match o with Some (k0, _) => blt k k0 | None => True end.

Lemma locks_before_step s st k0 l0 o result :
  lock_of s k0 = Some l0 → least (s CfLock) (blt k0) o →
  locks_before s st (Some (k0, Some (Lock_ToBytes l0))) result →
  locks_before s st o (if decide (Ts l0 = st) then result ++ [mkKlPair k0 l0] else result).
Proof.
  intros Hl0 Hleast [Hnd Hin].
  assert (Hpos : ∀ k l, lock_of s k = Some l →
    match o with Some (k1, _) => blt k k1 | None => True end ↔ blt k k0 ∨ k = k0).
  { intros k l Hl. assert (∃ v, s CfLock !! k = Some v) as [v Hv].
    { unfold lock_of in Hl. destruct (s CfLock !! k); [eauto|done]. }
    destruct o as [[k1 v1]|]; cbn in Hleast.
    - destruct Hleast as (_ & Hlt & Hmin). split.
      + intros Hk. destruct (decide (ble k k0)) as [Hle|Hgt]; [by apply ble_lteq in Hle|].
        exfalso. apply blt_not_ble in Hk. apply Hk. apply (Hmin _ _ Hv). by apply blt_not_ble.
      + intros [Hk| ->]; [by eapply blt_trans|done].
    - split; [|done]. intros _. destruct (decide (ble k k0)) as [Hle|Hgt]; [by apply ble_lteq in Hle|].
      exfalso. apply (Hleast _ _ Hv). by apply blt_not_ble. }
  split.
  - case_decide; [|done]. rewrite map_app NoDup_app. split_and!; [done| |by apply NoDup_singleton].
    intros k Hkl Hk. apply list_elem_of_fmap in Hkl as ([k1 l1] & -> & Hkl).
    apply Hin in Hkl as (_ & _ & Hlt). cbn in Hk. apply list_elem_of_singleton in Hk as ->.
    by apply blt_irrefl in Hlt.
  - intros k l. case_decide as Hst; [rewrite elem_of_app list_elem_of_singleton|]; rewrite Hin.
    + split.
      * intros [(Hl & ? & Hlt)|[= -> ->]]; (split_and!; [done..|]); eapply Hpos; eauto.
      * intros (Hl & ? & Hp). apply (Hpos _ _ Hl) in Hp as [?| ->]; [by left|right; congruence].
    + split; intros (Hl & Ht & Hp); (split_and!; [done..|]).
      * eapply Hpos; eauto.
      * apply (Hpos _ _ Hl) in Hp as [?| ->]; [done|congruence].
Qed.

Lemma AllLocksForTxn_locks fuel txn :
  wf_store (view (txn_Reader txn)) → Z.of_nat (size (view (txn_Reader txn) CfLock)) < Z.pos fuel →
  ∃ result, AllLocksForTxn fuel txn = Ok result ∧
    locks_before (view (txn_Reader txn)) (StartTS txn) None result.
Proof.
  intros Hwf Hfuel. set (s := view (txn_Reader txn)) in *. unfold AllLocksForTxn, with_iter.
  destruct (iter_law (txn_Reader txn) CfLock CfLock_CFs) as (it0 & -> & Hok0 & Hsrc0).
  destruct (seek_law it0 [] Hok0) as (it & -> & Hok & Hsrc & Hl). cbn.
  apply (go_loop_rule
    (λ x, iter_ok x.1 ∧ src x.1 = s CfLock ∧ (∀ k v, pos x.1 = Some (k, v) → s CfLock !! k = Some v) ∧
          locks_before s (StartTS txn) (pos x.1) x.2)
    (λ x, keys_left (s CfLock) (pos x.1)) _
    (λ r, ∃ result, r = Ok result ∧ locks_before s (StartTS txn) None result)).
  - clear dependent it. intros [it result] (Hok & Hsrc & Hpos & Hres). cbn in *.
    split; [apply keys_left_nonneg|]. unfold AllLocks_round. rewrite valid_law //.
    destruct (pos it) as [[k0 v0]|] eqn:Hp; cbn; [|eauto].
    pose proof (Hpos _ _ eq_refl) as Hk0. destruct (wfs_locks _ Hwf _ _ Hk0) as (l0 & -> & Hwl).
    rewrite (value_law _ _ _ Hok Hp) (key_law _ _ _ Hok Hp). cbn. rewrite ParseLock_ToBytes //=.
    destruct (next_law it _ _ Hok Hp) as (Hok' & Hsrc' & Hl'). rewrite Hsrc in Hl'.
    assert (lock_of s k0 = Some l0) as Hl0 by (unfold lock_of; by rewrite Hk0 /= ParseLock_ToBytes).
    split_and!; [done|congruence| |by eapply locks_before_step|by eapply keys_left_next].
    intros k v E. rewrite E in Hl'. apply Hl'.
  - cbn. rewrite Hsrc Hsrc0 in Hl |- *. fold s in Hl |- *. split_and!; [done..| |].
    + intros k v E. rewrite E in Hl. apply Hl.
    + split; [constructor|]. intros k l. split; [set_solver|]. intros (Hlk & _ & Hp). exfalso.
      unfold lock_of in Hlk. destruct (s CfLock !! k) eqn:E; [|done].
      destruct (pos it) as [[k1 v1]|]; cbn in Hl.
      * apply blt_not_ble in Hp. apply Hp. eapply Hl; [done|]. by destruct k.
      * eapply Hl; [done|]. by destruct k.
  - cbn. pose proof (keys_left_bound (s CfLock) (pos it)). lia.
Qed.
End LockScan.
