(* ===== verification/TxnInv.v ===== *)
(** The commands of kv/transaction/commands keep the protocol invariant
    [store_inv], and what they change. *)

From S2P Require Import Prelude Codec Pb Storage Mvcc MvccSpec Latches Commands TxnSpec.

#[local] Opaque Write_ToBytes ParseWrite Lock_ToBytes ParseLock EncodeKey DecodeUserKey decodeTimestamp.

(** ** Settling keys

    A batch of transaction [st] that settles keys: [rk k kind] says that the
    batch leaves a record of that kind at [ts] on [k]. *)

Record settle_batch (s : snapshot) (st ts : Z) (rk : bytes → Z → Prop) (batch : list Modify) : Prop := {
  sb_in m : m ∈ batch → ∃ k kind, rk k kind ∧
    (m = commit_record k ts st kind ∨ (m = Delete k CfLock ∧ is_Some (held s k st)) ∨
     (m = Delete (EncodeKey k st) CfDefault ∧ kind = WriteKindRollback));
  sb_rec k kind : rk k kind → commit_record k ts st kind ∈ batch;
  sb_unlock k kind : rk k kind → is_Some (held s k st) → Delete k CfLock ∈ batch
}.

Record settle_ok (s : snapshot) (st ts : Z) (rk : bytes → Z → Prop) : Prop := {
  so_st : is_u64 st;
  so_ts : is_u64 ts;
  so_le : st ≤ ts;
  so_fun k a b : rk k a → rk k b → a = b;
  so_kind k kind : rk k kind → wf_kind kind;
  so_new k kind : rk k kind → own_record (s CfWrite) k st None;
  so_own k kind : rk k kind → ts_of_txn s k ts st;
  so_why k kind : rk k kind → kind = WriteKindRollback ∨ ∃ l, held s k st = Some l ∧ Kind l = kind
}.

Section Settle.
Context {s : snapshot} {st ts : Z} {rk : bytes → Z → Prop} {batch : list Modify}.
Context (Hb : settle_batch s st ts rk batch) (Ho : settle_ok s st ts rk).
#[local] Notation s' := (apply_batch s batch).

Lemma settle_touch_write m k t :
  is_u64 t → m ∈ batch → touches CfWrite (EncodeKey k t) m →
  t = ts ∧ ∃ kind, rk k kind ∧ m = commit_record k ts st kind.
Proof.
  intros Ht Hm [Hcf Hk]. destruct (sb_in _ _ _ _ _ Hb _ Hm) as (k' & kind & Hr & [->|[[-> _]|[-> _]]]); [|done..].
  cbn in Hk. apply EncodeKey_inj in Hk as [-> ->]; [|apply Ho|done]. eauto.
Qed.

Lemma settle_touch_lock m k :
  m ∈ batch → touches CfLock k m → m = Delete k CfLock ∧ is_Some (held s k st) ∧ ∃ kind, rk k kind.
Proof.
  intros Hm [Hcf Hk]. destruct (sb_in _ _ _ _ _ Hb _ Hm) as (k' & kind & Hr & [->|[[-> ?]|[-> _]]]);
    cbn in *; [done| |done]. subst k'. eauto.
Qed.

Lemma settle_touch_val m k t :
  is_u64 t → m ∈ batch → touches CfDefault (EncodeKey k t) m → t = st ∧ rk k WriteKindRollback.
Proof.
  intros Ht Hm [Hcf Hk]. destruct (sb_in _ _ _ _ _ Hb _ Hm) as (k' & kind & Hr & [->|[[-> ?]|[-> ->]]]);
    cbn in *; [done..|]. apply EncodeKey_inj in Hk as [-> ->]; [done|apply Ho|done].
Qed.

Lemma settle_wf_write k kind : rk k kind → wf_write (mkWrite st kind).
Proof. intros Hr. split; [apply Ho|]. by eapply so_kind. Qed.

Lemma settle_txn_modify : Forall txn_modify batch.
Proof.
  apply Forall_forall. intros m Hm.
  destruct (sb_in _ _ _ _ _ Hb _ Hm) as (k & kind & Hr & [->|[[-> ?]|[-> ?]]]); constructor;
    [apply Ho|by eapply settle_wf_write|apply Ho].
Qed.

Lemma settle_rec k kind : rk k kind → rec_of s' k ts = Some (mkWrite st kind).
Proof.
  intros Hr. apply rec_of_put; [by eapply settle_wf_write|by eapply sb_rec|].
  intros m Hm (_ & kind' & Hr' & ->)%settle_touch_write; [|apply Ho|done].
  by rewrite (so_fun _ _ _ _ Ho _ _ _ Hr Hr').
Qed.

Lemma settle_rec_old k t :
  is_u64 t → (t = ts → ∀ kind, ¬ rk k kind) → rec_of s' k t = rec_of s k t.
Proof.
  intros Ht Hn. apply rec_of_untouched. intros m Hm (-> & kind & Hr & _)%settle_touch_write; [|done..].
  by eapply Hn.
Qed.

Lemma settle_rec_inv k t w :
  is_u64 t → rec_of s' k t = Some w →
  rec_of s k t = Some w ∨ (t = ts ∧ ∃ kind, rk k kind ∧ w = mkWrite st kind).
Proof.
  intros Ht E. pose proof (wf_store_batch s batch) as Hwf. unfold rec_of, write_at in *.
  destruct (s' CfWrite !! EncodeKey k t) as [v|] eqn:Ev; [|done].
  apply apply_batch_or in Ev as [Ev|(m & Hm & Ht' & Hv)]; [left; by rewrite Ev|right].
  apply settle_touch_write in Ht' as (-> & kind & Hr & ->); [|done..]. split; [done|]. exists kind.
  split; [done|]. cbn in Hv. injection Hv as <-.
  rewrite ParseWrite_ToBytes in E; [|by eapply settle_wf_write]. congruence.
Qed.

Lemma settle_lock_inv k l :
  lock_of s' k = Some l → lock_of s k = Some l ∧ ∀ kind, rk k kind → Ts l ≠ st.
Proof.
  intros E. assert (lock_of s k = Some l) as Hl.
  { unfold lock_of in *. destruct (s' CfLock !! k) as [v|] eqn:Ev; [|done].
    apply apply_batch_or in Ev as [Ev|(m & Hm & (-> & _)%settle_touch_lock & Hv)]; [by rewrite Ev|done..]. }
  split; [done|]. intros kind Hr Hts. assert (Hh : held s k st = Some l) by (by apply held_Some).
  rewrite lock_of_delete in E; [done|by eapply sb_unlock|].
  by intros m Hm (-> & _)%settle_touch_lock.
Qed.

Lemma settle_lock_old k :
  (∀ kind, rk k kind → held s k st = None) → lock_of s' k = lock_of s k.
Proof.
  intros Hn. apply lock_of_untouched. intros m Hm (-> & [l Hl] & kind & Hr)%settle_touch_lock; [|done].
  by rewrite (Hn _ Hr) in Hl.
Qed.

Lemma settle_unlock k kind : rk k kind → is_Some (held s k st) → lock_of s' k = None.
Proof.
  intros Hr Hh. apply lock_of_delete; [by eapply sb_unlock|]. by intros m Hm (-> & _)%settle_touch_lock.
Qed.

Lemma settle_val_old k t :
  is_u64 t → (t = st → ¬ rk k WriteKindRollback) → val_of s' k t = val_of s k t.
Proof.
  intros Ht Hn. apply val_of_untouched. intros m Hm [-> Hr]%settle_touch_val; [by apply Hn|done..].
Qed.

Lemma settle_inv : store_inv s → store_inv s'.
Proof.
  intros Hinv. split.
  - apply wf_store_batch; [apply Hinv|apply settle_txn_modify].
  - intros k t w Ht [E|(-> & kind & Hr & ->)]%settle_rec_inv; [by eapply si_after|apply Ho|done].
  - assert (Hnew : ∀ k kind t w, rk k kind → is_u64 t → rec_of s k t = Some w → w_StartTS w ≠ st).
    { intros k kind t w Hr Ht Hw. by eapply (so_new _ _ _ _ Ho _ _ Hr). }
    intros k t1 t2 w1 w2 Ht1 Ht2 E1 E2 Heq.
    destruct (settle_rec_inv _ _ _ Ht1 E1) as [E1'|(-> & a & Hr1 & ->)],
      (settle_rec_inv _ _ _ Ht2 E2) as [E2'|(-> & b & Hr2 & ->)].
    + by eapply si_unique.
    + by destruct (Hnew _ _ _ _ Hr2 Ht1 E1').
    + by destruct (Hnew _ _ _ _ Hr1 Ht2 E2').
    + done.
  - intros k l t w [Hl Hne]%settle_lock_inv Ht [E|(-> & kind & Hr & ->)]%settle_rec_inv; [|cbn|done].
    + by eapply si_undecided.
    + apply not_eq_sym. by eapply Hne.
  - intros k l t w [Hl Hne]%settle_lock_inv Ht [E|(-> & kind & Hr & ->)]%settle_rec_inv Hd; [| |done].
    + by eapply si_newest.
    + exfalso. destruct (so_why _ _ _ _ Ho _ _ Hr) as [->|(l' & [Hl' Hts]%held_Some & _)].
      * by destruct Hd.
      * by destruct (Hne _ Hr); simplify_eq.
  - intros k l [Hl Hne]%settle_lock_inv Hk. rewrite settle_val_old; [by eapply si_lock_value| |].
    + by apply (lock_of_wf _ _ _ (si_wf _ Hinv) Hl).
    + intros E Hr. by eapply Hne.
  - intros k t w Ht [E|(-> & kind & Hr & ->)]%settle_rec_inv Hk; [..|done].
    + rewrite settle_val_old; [by eapply si_value| |].
      * by apply (rec_of_wf _ _ _ _ (si_wf _ Hinv) E).
      * intros Hst Hr. by destruct (so_new _ _ _ _ Ho _ _ Hr _ _ Ht E).
    + cbn in *. subst kind. destruct (so_why _ _ _ _ Ho _ _ Hr) as [?|(l & [Hl Hts]%held_Some & Hk)]; [done|].
      rewrite settle_val_old; [|apply Ho|].
      * rewrite -Hts. by eapply si_lock_value.
      * intros _ Hr'. by pose proof (so_fun _ _ _ _ Ho _ _ _ Hr Hr').
Qed.
End Settle.

(** ** Commit and rollback settle keys *)

Definition commits (s : snapshot) (st : Z) (k : bytes) (kind : Z) : Prop :=
  ∃ l, held s k st = Some l ∧ Kind l = kind.
Definition rolls_back (s : snapshot) (st : Z) (k : bytes) (kind : Z) : Prop :=
  kind = WriteKindRollback ∧ (is_Some (held s k st) ∨ own_record (s CfWrite) k st None).

Definition settle_piece (s : snapshot) (st ts : Z) (rk : bytes → Z → Prop) (k : bytes) (ws : list Modify) : Prop :=
  (∀ m, m ∈ ws → ∃ kind, rk k kind ∧
    (m = commit_record k ts st kind ∨ (m = Delete k CfLock ∧ is_Some (held s k st)) ∨
     (m = Delete (EncodeKey k st) CfDefault ∧ kind = WriteKindRollback))) ∧
  ∀ kind, rk k kind → commit_record k ts st kind ∈ ws ∧ (is_Some (held s k st) → Delete k CfLock ∈ ws).

Lemma commit_key_piece s st cts k e ws :
  commit_key s st cts k e ws → settle_piece s st cts (commits s st) k ws.
Proof.
  unfold commits. destruct 1 as [l Hl|t w Hl|o Hl]; split.
  - intros m Hm. exists (Kind l). split; [eauto|]. set_solver.
  - intros kind (l' & Hl' & <-). simplify_eq. set_solver.
  - set_solver.
  - intros kind (l' & Hl' & <-). congruence.
  - set_solver.
  - intros kind (l' & Hl' & <-). congruence.
Qed.

Lemma rollback_key_piece s st k e ws :
  rollback_key s st k e ws → settle_piece s st st (rolls_back s st) k ws.
Proof.
  unfold rolls_back. destruct 1 as [l ws Hl Hws|Hl Ho|t w Hl Ho|t w Hl Ho]; split.
  - intros m Hm. exists WriteKindRollback. split; [eauto|]. rewrite Hws in Hm. case_decide; set_solver.
  - intros kind [-> _]. rewrite Hws. set_solver.
  - intros m Hm. exists WriteKindRollback. split; [eauto|]. set_solver.
  - intros kind [-> _]. rewrite Hl. split; [set_solver|]. by intros [? ?].
  - set_solver.
  - intros kind [-> [[? ?]|Hn]]; [congruence|]. destruct Ho as (Ht & Hw & Hst). by destruct (Hn _ _ Ht Hw).
  - set_solver.
  - intros kind [-> [[? ?]|Hn]]; [congruence|]. destruct Ho as (Ht & Hw & Hst). by destruct (Hn _ _ Ht Hw).
Qed.

Lemma settle_batch_nil s st ts rk : settle_batch s st ts (λ k kind, k ∈ [] ∧ rk k kind) [].
Proof. split; set_solver. Qed.

Lemma settle_batch_cons s st ts rk k ws keys ws' :
  settle_piece s st ts rk k ws → settle_batch s st ts (λ k kind, k ∈ keys ∧ rk k kind) ws' →
  settle_batch s st ts (λ k' kind, k' ∈ k :: keys ∧ rk k' kind) (ws ++ ws').
Proof.
  intros [Hin Hrk] [H1 H2 H3]. split.
  - intros m [Hm|Hm]%elem_of_app.
    + destruct (Hin _ Hm) as (kind & ? & ?). exists k, kind. set_solver.
    + destruct (H1 _ Hm) as (k' & kind & ? & ?). exists k', kind. set_solver.
  - intros k' kind [[->|Hk]%elem_of_cons Hr]; rewrite elem_of_app; [left; by apply Hrk|right; by apply H2].
  - intros k' kind [[->|Hk]%elem_of_cons Hr] Hh; rewrite elem_of_app; [left; by eapply Hrk|].
    right. by eapply H3.
Qed.

Lemma each_settle s st ts rk F keys e done ws :
  (∀ k e ws, F k e ws → settle_piece s st ts rk k ws) → each_spec F keys e done ws →
  settle_batch s st ts (λ k kind, k ∈ done ∧ rk k kind) ws.
Proof.
  intros HF. induction 1 as [|k keys e ws HFk|k keys ws e d ws' HFk _ IH].
  - apply settle_batch_nil.
  - rewrite -(app_nil_r ws). apply settle_batch_cons; [by eapply HF|apply settle_batch_nil].
  - apply settle_batch_cons; [by eapply HF|done].
Qed.

Lemma resolve_settle s st ts rk F keys e0 e ws :
  (∀ k e ws, F k e ws → settle_piece s st ts rk k ws) → resolve_spec F keys e0 e ws →
  settle_batch s st ts (λ k kind, k ∈ keys ∧ rk k kind) ws.
Proof.
  intros HF. induction 1 as [|k keys e0 e1 e2 ws ws' HFk _ IH]; [apply settle_batch_nil|].
  apply settle_batch_cons; [by eapply HF|done].
Qed.

Lemma held_undecided s k st l :
  store_inv s → held s k st = Some l → own_record (s CfWrite) k st None.
Proof. intros Hinv [Hl <-]%held_Some t w Ht Hw. by eapply si_undecided. Qed.

Lemma commits_ok s st ts (P : bytes → Prop) :
  store_inv s → is_u64 st → is_u64 ts → st ≤ ts → (∀ k, P k → ts_of_txn s k ts st) →
  settle_ok s st ts (λ k kind, P k ∧ commits s st k kind).
Proof.
  intros Hinv Hst Hts Hle Hown. split; [done..| | | | |].
  - intros k a b [_ (l & Hl & <-)] [_ (l' & Hl' & <-)]. congruence.
  - intros k kind [_ (l & [Hl _]%held_Some & <-)]. by apply (lock_of_wf _ _ _ (si_wf _ Hinv) Hl).
  - intros k kind [_ (l & Hl & _)]. by eapply held_undecided.
  - intros k kind [? _]. by apply Hown.
  - intros k kind [_ ?]. by right.
Qed.

Lemma rolls_back_ok s st (P : bytes → Prop) :
  store_inv s → is_u64 st → (∀ k, P k → ts_of_txn s k st st) →
  settle_ok s st st (λ k kind, P k ∧ rolls_back s st k kind).
Proof.
  intros Hinv Hst Hown. split; [done..| | | | | |].
  - lia.
  - intros k a b [_ [-> _]] [_ [-> _]]. done.
  - intros k kind [_ [-> _]]. done.
  - intros k kind [_ [_ [[l Hl]|Hn]]]; [by eapply held_undecided|done].
  - intros k kind [? _]. by apply Hown.
  - intros k kind [_ [-> _]]. by left.
Qed.

(** ** Prewrite *)

Definition wf_prewrite (req : kvrpcpb.PrewriteRequest) (m : kvrpcpb.Mutation) : Prop :=
  is_u64 (kvrpcpb.pw_LockTtl req) ∧ wf_kind (kvrpcpb.Op m + 1).

Lemma prewrite_lock_wf req st m : is_u64 st → wf_prewrite req m → wf_lock (prewrite_lock req st m).
Proof. by intros ? []. Qed.

Lemma prewrite_touches req st m w :
  w ∈ prewrite_writes req st m →
  (w = Put (kvrpcpb.m_Key m) (Some (Lock_ToBytes (prewrite_lock req st m))) CfLock) ∨
  (w = Put (EncodeKey (kvrpcpb.m_Key m) st) (kvrpcpb.m_Value m) CfDefault ∧ kvrpcpb.Op m = kvrpcpb.Op_Put) ∨
  (w = Delete (EncodeKey (kvrpcpb.m_Key m) st) CfDefault ∧ kvrpcpb.Op m = kvrpcpb.Op_Del).
Proof. unfold prewrite_writes, prewrite_data. repeat case_decide; set_solver. Qed.

Lemma prewrite_rec_of s req st m k t :
  rec_of (apply_batch s (prewrite_writes req st m)) k t = rec_of s k t.
Proof.
  apply rec_of_untouched. intros w [->|[[-> _]|[-> _]]]%prewrite_touches [Hcf _]; done.
Qed.

Lemma prewrite_lock_of s req st m k :
  is_u64 st → wf_prewrite req m →
  lock_of (apply_batch s (prewrite_writes req st m)) k =
    if decide (k = kvrpcpb.m_Key m) then Some (prewrite_lock req st m) else lock_of s k.
Proof.
  intros Hst Hwf. case_decide as Hk; [subst k|].
  - unfold lock_of.
    rewrite (apply_batch_agree _ _ _ _ (Some (Some (Lock_ToBytes (prewrite_lock req st m))))).
    + cbn. by rewrite ParseLock_ToBytes; [|by apply prewrite_lock_wf].
    + by intros w [->|[[-> _]|[-> _]]]%prewrite_touches [Hcf _].
    + right. eexists. split; [by left|done].
  - apply lock_of_untouched. intros w [->|[[-> _]|[-> _]]]%prewrite_touches [Hcf Hk']; cbn in *; done.
Qed.

Lemma prewrite_val_of s req st m k t :
  is_u64 st → is_u64 t → ¬ (k = kvrpcpb.m_Key m ∧ t = st) →
  val_of (apply_batch s (prewrite_writes req st m)) k t = val_of s k t.
Proof.
  intros Hst Ht Hne. apply val_of_untouched.
  intros w [->|[[-> _]|[-> _]]]%prewrite_touches [Hcf Hk]; cbn in *; [done|..];
    apply EncodeKey_inj in Hk as [<- <-]; naive_solver.
Qed.

Lemma prewrite_val_put s req st m :
  kvrpcpb.Op m = kvrpcpb.Op_Put →
  val_of (apply_batch s (prewrite_writes req st m)) (kvrpcpb.m_Key m) st = Some (kvrpcpb.m_Value m).
Proof.
  intros Hop. unfold val_of. apply apply_batch_agree.
  - intros w [->|[[-> _]|[-> Hd]]]%prewrite_touches [Hcf Hk]; cbn in *; [done..|]. by rewrite Hop in Hd.
  - right. exists (Put (EncodeKey (kvrpcpb.m_Key m) st) (kvrpcpb.m_Value m) CfDefault).
    split; [|done]. unfold prewrite_writes, prewrite_data. case_decide; [|done]. set_solver.
Qed.

Lemma prewrite_inv s req st m :
  store_inv s → is_u64 st → wf_prewrite req m → no_later s (kvrpcpb.m_Key m) st →
  store_inv (apply_batch s (prewrite_writes req st m)).
Proof.
  intros Hinv Hst Hwf Hno. split.
  - apply wf_store_batch; [apply Hinv|]. apply Forall_forall.
    intros w [->|[[-> _]|[-> _]]]%prewrite_touches; constructor; [by apply prewrite_lock_wf|done..].
  - intros k t w Ht. fold (rec_of (apply_batch s (prewrite_writes req st m)) k t).
    rewrite prewrite_rec_of. by apply (si_after _ Hinv).
  - intros k t1 t2 w1 w2. rewrite !prewrite_rec_of. apply (si_unique _ Hinv).
  - intros k l t w. rewrite prewrite_rec_of prewrite_lock_of //. case_decide as Hk; [|by apply si_undecided].
    subst k. intros [= <-] Ht Hw. cbn. pose proof (Hno _ _ Ht Hw). pose proof (si_after _ Hinv _ _ _ Ht Hw). lia.
  - intros k l t w. rewrite prewrite_rec_of prewrite_lock_of //. case_decide as Hk; [|by apply si_newest].
    subst k. intros [= <-] Ht Hw _. by eapply Hno.
  - intros k l. rewrite prewrite_lock_of //. case_decide as Hk.
    + subst k. intros [= <-] Hop. cbn in *. rewrite prewrite_val_put; [done|].
      unfold kvrpcpb.Op_Put, WriteKindPut in *. lia.
    + intros Hl Hkind. rewrite prewrite_val_of; [by eapply si_lock_value|done| |naive_solver].
      by apply (lock_of_wf _ _ _ (si_wf _ Hinv) Hl).
  - intros k t w Ht. rewrite prewrite_rec_of. intros Hw Hkind.
    rewrite prewrite_val_of; [by eapply si_value|done| |].
    + by apply (rec_of_wf _ _ _ _ (si_wf _ Hinv) Hw).
    + intros [-> Hs]. pose proof (Hno _ _ Ht Hw). pose proof (si_after _ Hinv _ _ _ Ht Hw). lia.
Qed.

Lemma apply_batch_app s b1 b2 : apply_batch s (b1 ++ b2) = apply_batch (apply_batch s b1) b2.
Proof. apply foldl_app. Qed.

(** A prewrite of a whole request: the invariant is kept, no record changes,
    and a lock that appears is one of the request, on a key no later version
    was written to. *)
Lemma prewrite_muts_inv s st req muts errs ws :
  prewrite_muts s st req muts errs ws → is_u64 st → Forall (wf_prewrite req) muts →
  ∀ s0, store_inv s0 → (∀ k t, rec_of s0 k t = rec_of s k t) →
  store_inv (apply_batch s0 ws) ∧
  (∀ k t, rec_of (apply_batch s0 ws) k t = rec_of s k t) ∧
  (∀ k l, lock_of (apply_batch s0 ws) k = Some l → lock_of s0 k = Some l ∨
     ∃ m, m ∈ muts ∧ k = kvrpcpb.m_Key m ∧ l = prewrite_lock req st m ∧ no_later s k st) ∧
  (∀ k t, is_u64 t → (t = st → ¬ no_later s k st) → val_of (apply_batch s0 ws) k t = val_of s0 k t).
Proof.
  intros Hms Hst. induction Hms as [|m e ws muts errs ws' Hm _ IH]; intros Hwf s0 Hinv Hrec; [auto|].
  apply Forall_cons in Hwf as [Hwf Hwfs]. rewrite apply_batch_app.
  destruct Hm as [t w|l|Hno Hl]; [| |].
  1-2: destruct (IH Hwfs s0 Hinv Hrec) as (? & ? & Hlock & ?); split_and!; [done..| |done];
    intros k l' Hl'; destruct (Hlock _ _ Hl') as [?|(m' & ? & ?)]; [by left|right; exists m'; set_solver].
  destruct (IH Hwfs (apply_batch s0 (prewrite_writes req st m))) as (? & ? & Hlock & Hval).
  { apply prewrite_inv; [done..|]. intros t w Ht. rewrite Hrec. by apply Hno. }
  { intros k t. by rewrite prewrite_rec_of. }
  split_and!; [done..| |].
  - intros k l Hl'. destruct (Hlock _ _ Hl') as [E|(m' & ? & ?)]; [|right; exists m'; set_solver].
    rewrite prewrite_lock_of // in E. case_decide; [|by left]. right. exists m. simplify_eq. set_solver.
  - intros k t Ht Hne. rewrite Hval // prewrite_val_of //. naive_solver.
Qed.

(** ** Stores that agree on the column families *)

Definition same_cfs (s s' : snapshot) : Prop := ∀ cf, cf ∈ CFs → s cf = s' cf.

#[export] Instance same_cfs_equiv : Equivalence same_cfs.
Proof.
  split.
  - by intros s cf _.
  - intros s s' H cf Hcf. by rewrite H.
  - intros s s' s'' H H' cf Hcf. by rewrite H // H'.
Qed.

#[export] Instance lock_of_proper : Proper (same_cfs ==> eq ==> eq) lock_of.
Proof. intros s s' H k _ <-. unfold lock_of. by rewrite (H _ CfLock_CFs). Qed.
#[export] Instance rec_of_proper : Proper (same_cfs ==> eq ==> eq ==> eq) rec_of.
Proof. intros s s' H k _ <- t _ <-. unfold rec_of. by rewrite (H _ CfWrite_CFs). Qed.
#[export] Instance val_of_proper : Proper (same_cfs ==> eq ==> eq ==> eq) val_of.
Proof. intros s s' H k _ <- t _ <-. unfold val_of. by rewrite (H _ CfDefault_CFs). Qed.

Lemma store_inv_same s s' : same_cfs s s' → store_inv s → store_inv s'.
Proof.
  intros H [[Hw Hl] Ha Hu Hd Hn Hlv Hv]. split.
  - split; [by rewrite -(H _ CfWrite_CFs)|by rewrite -(H _ CfLock_CFs)].
  - intros k. rewrite -(H _ CfWrite_CFs). apply Ha.
  - intros k t1 t2 w1 w2. rewrite -!H. apply Hu.
  - intros k l t w. rewrite -!H. apply Hd.
  - intros k l t w. rewrite -!H. apply Hn.
  - intros k l. rewrite -!H. apply Hlv.
  - intros k t w. rewrite -!H. apply Hv.
Qed.

#[export] Instance store_inv_proper : Proper (same_cfs ==> iff) store_inv.
Proof. intros s s' H. split; apply store_inv_same; [done|by symmetry]. Qed.

(** ** Running a command that writes *)

(** What a command may assume of its request: timestamps are 64-bit, a commit
    comes after the start, and the timestamps are the transaction's own. *)
Definition cmd_ok (s : snapshot) (cmd : Command) : Prop :=
  is_u64 (StartTs cmd) ∧
  match cmd with
  | Get _ | Scan _ => False
  | Prewrite r => Forall (wf_prewrite r) (kvrpcpb.Mutations r)
  | Commit r =>
    is_u64 (kvrpcpb.CommitVersion r) ∧ StartTs cmd < kvrpcpb.CommitVersion r ∧
    ∀ k, k ∈ default [] (kvrpcpb.cm_Keys r) → ts_of_txn s k (kvrpcpb.CommitVersion r) (StartTs cmd)
  | Rollback r => ∀ k, k ∈ default [] (kvrpcpb.rb_Keys r) → ts_of_txn s k (StartTs cmd) (StartTs cmd)
  | CheckTxnStatus r => ts_of_txn s (kvrpcpb.PrimaryKey r) (StartTs cmd) (StartTs cmd)
  | ResolveLock r keyLocks =>
    is_u64 (kvrpcpb.rl_CommitVersion r) ∧
    ∀ kl, kl ∈ keyLocks → Ts (kl_Lock kl) = StartTs cmd ∧
      ts_of_txn s (kl_Key kl) (StartTs cmd) (StartTs cmd) ∧
      ts_of_txn s (kl_Key kl) (kvrpcpb.rl_CommitVersion r) (StartTs cmd)
  end.

(** What a command returns and writes. *)
Inductive cmd_effect (s : snapshot) : Command → Response → list Modify → Prop :=
| ce_prewrite r errs ws :
    prewrite_muts s (kvrpcpb.pw_StartVersion r) r (kvrpcpb.Mutations r) errs ws →
    cmd_effect s (Prewrite r) (PrewriteResp (kvrpcpb.mkPrewriteResponse None errs)) ws
| ce_commit r e done ws :
    each_spec (commit_key s (kvrpcpb.cm_StartVersion r) (kvrpcpb.CommitVersion r))
      (default [] (kvrpcpb.cm_Keys r)) e done ws →
    cmd_effect s (Commit r) (CommitResp (kvrpcpb.mkCommitResponse None e)) ws
| ce_rollback r e done ws :
    each_spec (rollback_key s (kvrpcpb.rb_StartVersion r)) (default [] (kvrpcpb.rb_Keys r)) e done ws →
    cmd_effect s (Rollback r) (RollbackResp (kvrpcpb.mkBatchRollbackResponse None e)) ws
| ce_check r resp ws :
    check_status s (kvrpcpb.LockTs r) (kvrpcpb.CurrentTs r) (kvrpcpb.PrimaryKey r) resp ws →
    cmd_effect s (CheckTxnStatus r) (CheckTxnStatusResp resp) ws
| ce_resolve_commit r keyLocks e ws :
    kvrpcpb.rl_StartVersion r ≤ kvrpcpb.rl_CommitVersion r →
    resolve_spec (commit_key s (kvrpcpb.rl_StartVersion r) (kvrpcpb.rl_CommitVersion r))
      (map kl_Key keyLocks) None e ws →
    cmd_effect s (ResolveLock r keyLocks) (ResolveLockResp (kvrpcpb.mkResolveLockResponse None e)) ws
| ce_resolve_rollback r keyLocks e ws :
    kvrpcpb.rl_CommitVersion r < kvrpcpb.rl_StartVersion r →
    resolve_spec (rollback_key s (kvrpcpb.rl_StartVersion r)) (map kl_Key keyLocks) None e ws →
    cmd_effect s (ResolveLock r keyLocks) (ResolveLockResp (kvrpcpb.mkResolveLockResponse None e)) ws.

Lemma each_done F keys e done ws : each_spec F keys e done ws → ∀ k, k ∈ done → k ∈ keys.
Proof. induction 1; set_solver. Qed.

(** The commit timestamp a command may give new versions. *)
Definition commit_ts (cmd : Command) : option Z :=
  match cmd with
  | Commit r => Some (kvrpcpb.CommitVersion r)
  | ResolveLock r _ => Some (kvrpcpb.rl_CommitVersion r)
  | _ => None
  end.

(** The keys a command latches and writes. *)
Definition cmd_keys (cmd : Command) : list bytes :=
  match cmd with
  | Get _ | Scan _ => []
  | Prewrite r => kvrpcpb.m_Key <$> kvrpcpb.Mutations r
  | Commit r => default [] (kvrpcpb.cm_Keys r)
  | Rollback r => default [] (kvrpcpb.rb_Keys r)
  | CheckTxnStatus r => [kvrpcpb.PrimaryKey r]
  | ResolveLock _ keyLocks => map kl_Key keyLocks
  end.

Lemma check_rollback s st k ws :
  rollback_key s st k None ws → settle_batch s st st (λ k' kind, k' ∈ [k] ∧ rolls_back s st k' kind) ws.
Proof.
  intros Hrb. rewrite -(app_nil_r ws). apply settle_batch_cons; [|apply settle_batch_nil].
  by eapply rollback_key_piece.
Qed.

(** Every command but a prewrite settles keys: the timestamp it settles them
    at, and which. *)
Lemma cmd_effect_settle s cmd resp ws :
  store_inv s → cmd_ok s cmd → cmd_effect s cmd resp ws →
  (∃ r errs, cmd = Prewrite r ∧ prewrite_muts s (kvrpcpb.pw_StartVersion r) r (kvrpcpb.Mutations r) errs ws) ∨
  ∃ ts rk, settle_batch s (StartTs cmd) ts rk ws ∧ settle_ok s (StartTs cmd) ts rk ∧
    (∀ k kind, rk k kind → k ∈ cmd_keys cmd) ∧
    (commit_ts cmd = Some ts ∨ ∀ k kind, rk k kind → kind = WriteKindRollback).
Proof.
  intros Hinv [Hst Hok] He.
  destruct He as [r errs ws Hms|r e d ws Hs|r e d ws Hs|r resp ws Hc|r kls e ws Hle Hs|r kls e ws Hlt Hs];
    [left; eauto|right..]; cbn in *.
  - destruct Hok as (Hcts & Hlt & Hown). pose proof (each_done _ _ _ _ _ Hs) as Hd.
    exists (kvrpcpb.CommitVersion r), (λ k kind, k ∈ d ∧ commits s (kvrpcpb.cm_StartVersion r) k kind).
    split_and!; [eapply each_settle; [apply commit_key_piece|done]| |naive_solver|by left].
    apply commits_ok; [done..|lia|auto].
  - pose proof (each_done _ _ _ _ _ Hs) as Hd.
    exists (kvrpcpb.rb_StartVersion r), (λ k kind, k ∈ d ∧ rolls_back s (kvrpcpb.rb_StartVersion r) k kind).
    split_and!; [eapply each_settle; [apply rollback_key_piece|done]| |naive_solver|].
    + apply rolls_back_ok; auto.
    + right. by intros k kind [_ [-> _]].
  - assert (∀ ws', rollback_key s (kvrpcpb.LockTs r) (kvrpcpb.PrimaryKey r) None ws' →
      settle_batch s (kvrpcpb.LockTs r) (kvrpcpb.LockTs r)
        (λ k kind, k ∈ [kvrpcpb.PrimaryKey r] ∧ rolls_back s (kvrpcpb.LockTs r) k kind) ws') as Hrb
      by apply check_rollback.
    assert (∀ P : bytes → Prop, (∀ k, P k → k ∈ [kvrpcpb.PrimaryKey r]) → settle_ok s (kvrpcpb.LockTs r) (kvrpcpb.LockTs r)
      (λ k kind, P k ∧ rolls_back s (kvrpcpb.LockTs r) k kind)) as Hso.
    { intros P HP. apply rolls_back_ok; [done..|]. by intros k ->%HP%list_elem_of_singleton. }
    destruct Hc; eexists _, (λ k kind, k ∈ _ ∧ rolls_back s (kvrpcpb.LockTs r) k kind);
      (split_and!; [first [by apply Hrb|apply settle_batch_nil]|apply Hso; set_solver|set_solver|
         right; by intros k kind [_ [-> _]]]).
  - destruct Hok as [Hcts Hkl].
    exists (kvrpcpb.rl_CommitVersion r), (λ k kind, k ∈ map kl_Key kls ∧ commits s (kvrpcpb.rl_StartVersion r) k kind).
    split_and!; [eapply resolve_settle; [apply commit_key_piece|done]| |naive_solver|by left].
    apply commits_ok; [done..|]. intros k (kl & -> & Hin)%list_elem_of_fmap. by apply Hkl.
  - destruct Hok as [Hcts Hkl].
    exists (kvrpcpb.rl_StartVersion r), (λ k kind, k ∈ map kl_Key kls ∧ rolls_back s (kvrpcpb.rl_StartVersion r) k kind).
    split_and!; [eapply resolve_settle; [apply rollback_key_piece|done]| |naive_solver|].
    + apply rolls_back_ok; [done..|]. intros k (kl & -> & Hin)%list_elem_of_fmap. by apply Hkl.
    + right. by intros k kind [_ [-> _]].
Qed.

Lemma prewrite_txn_modify s st req muts errs ws :
  is_u64 st → Forall (wf_prewrite req) muts → prewrite_muts s st req muts errs ws → Forall txn_modify ws.
Proof.
  intros Hst Hwf Hms. induction Hms as [|m e ws muts errs ws' Hm _ IH]; [constructor|].
  apply Forall_cons in Hwf as [Hwf Hwfs]. apply Forall_app. split; [|auto].
  destruct Hm; [constructor..|]. apply Forall_forall.
  intros w [->|[[-> _]|[-> _]]]%prewrite_touches; constructor; [by apply prewrite_lock_wf|done..].
Qed.

Lemma cmd_effect_inv s cmd resp ws :
  store_inv s → cmd_ok s cmd → cmd_effect s cmd resp ws →
  store_inv (apply_batch s ws) ∧ Forall txn_modify ws.
Proof.
  intros Hinv Hok He.
  destruct (cmd_effect_settle _ _ _ _ Hinv Hok He) as [(r & errs & -> & Hms)|(ts & rk & Hb & Hso & _)].
  - destruct Hok as [Hst Hwf]. split; [|by eapply prewrite_txn_modify]. by eapply prewrite_muts_inv.
  - split; [by eapply settle_inv|by eapply settle_txn_modify].
Qed.

Section Run.
Context {St R I : Type} `{!StorageReader R I, !Storage St R, !ReaderLaws R I, !StorageLaws St R I}.

Lemma PrepareWrites_effect cmd (r : R) :
  store_inv (view r) → cmd_ok (view r) cmd →
  ∃ resp ws, cmd_effect (view r) cmd resp ws ∧
    PrepareWrites cmd (NewTxn r (StartTs cmd)) = Ok (Some resp, add_writes (NewTxn r (StartTs cmd)) ws).
Proof.
  intros Hinv [Hst Hok]. set (txn := NewTxn r (StartTs cmd)). change (view r) with (snap txn) in *.
  destruct cmd as [?|?|req|req|req|req|req kls]; [done|done|..]; cbn in *.
  - destruct (prewrite_all_spec req txn (kvrpcpb.Mutations req)) as (errs & ws & Hs & E); [apply Hinv|done|].
    unfold Prewrite_PrepareWrites. rewrite E. eexists _, _. split; [by apply ce_prewrite|done].
  - unfold Commit_PrepareWrites. case_decide as Hle; [cbn in Hle; lia|].
    destruct (each_key_spec (λ k, commitKey k (kvrpcpb.CommitVersion req))
      (commit_key (snap txn) (kvrpcpb.cm_StartVersion req) (kvrpcpb.CommitVersion req))
      (default [] (kvrpcpb.cm_Keys req)) txn) as (e & d & ws & Hs & E).
    { intros k ws0. destruct (commitKey_spec (add_writes txn ws0) k (kvrpcpb.CommitVersion req) Hinv Hst)
        as (e & ws & ? & ->). rewrite add_writes_app. eauto. }
    rewrite E. eexists _, _. split; [by eapply ce_commit|done].
  - destruct (each_key_spec rollbackKey (rollback_key (snap txn) (kvrpcpb.rb_StartVersion req))
      (default [] (kvrpcpb.rb_Keys req)) txn) as (e & d & ws & Hs & E).
    { intros k ws0. destruct (rollbackKey_spec (add_writes txn ws0) k Hinv Hst) as (e & ws & ? & ->).
      rewrite add_writes_app. eauto. }
    unfold Rollback_PrepareWrites. rewrite E. eexists _, _. split; [by eapply ce_rollback|done].
  - destruct (CheckTxnStatus_spec req txn Hinv Hst) as (resp & ws & Hc & E). rewrite E.
    eexists _, _. split; [by apply ce_check|done].
  - destruct Hok as [_ Hkl]. unfold ResolveLock_PrepareWrites.
    destruct (decide (kvrpcpb.rl_StartVersion req ≤ kvrpcpb.rl_CommitVersion req)) as [Hle|Hgt].
    + destruct (resolve_all_spec req kls txn
        (commit_key (snap txn) (kvrpcpb.rl_StartVersion req) (kvrpcpb.rl_CommitVersion req)))
        as (e & ws & Hs & E).
      { intros kl ws0 [-> _]%Hkl. case_decide; [|lia].
        destruct (commitKey_spec (add_writes txn ws0) (kl_Key kl) (kvrpcpb.rl_CommitVersion req) Hinv Hst)
          as (e & ws & ? & ->). rewrite add_writes_app. eauto. }
      rewrite E. eexists _, _. split; [by apply ce_resolve_commit|done].
    + destruct (resolve_all_spec req kls txn (rollback_key (snap txn) (kvrpcpb.rl_StartVersion req)))
        as (e & ws & Hs & E).
      { intros kl ws0 [-> _]%Hkl. case_decide; [lia|].
        destruct (rollbackKey_spec (add_writes txn ws0) (kl_Key kl) Hinv Hst) as (e & ws & ? & ->).
        rewrite add_writes_app. eauto. }
      rewrite E. eexists _, _. split; [apply ce_resolve_rollback; [lia|done]|done].
Qed.

Lemma Run_write_effect cmd (st : St) :
  store_inv (contents st) → cmd_ok (contents st) cmd →
  ∃ resp ws st', cmd_effect (contents st) cmd resp ws ∧ Run_write cmd st = (Ok (Some resp), st') ∧
    same_cfs (contents st') (apply_batch (contents st) ws) ∧ store_inv (contents st').
Proof.
  intros Hinv Hok. destruct (reader_law st (cmd_Context cmd)) as (r & Er & Hv). rewrite -Hv in Hinv, Hok.
  destruct (PrepareWrites_effect cmd r Hinv Hok) as (resp & ws & He & E). rewrite Hv in Hinv, Hok, He.
  destruct (cmd_effect_inv _ _ _ _ Hinv Hok He) as [Hinv' Htm].
  assert (Forall (λ m, Modify_Cf m ∈ CFs) ws) as Hcf.
  { eapply Forall_impl; [exact Htm|]. apply txn_modify_Cf. }
  destruct (write_law st (cmd_Context cmd) ws Hcf) as [Hnone Hst']. unfold Run_write. rewrite Er. cbn.
  rewrite E. cbn. destruct (Storage.Write st (cmd_Context cmd) ws) as [st' err]. cbn in *. subst err.
  exists resp, ws, st'. split_and!; [done..|]. by rewrite (Hst' : same_cfs _ _).
Qed.
End Run.
