(* ===== verification/TxnProps.v ===== *)
(** Properties of the transaction layer: snapshot reads, two-phase commit,
    and the behaviour of transactions whose fate is decided. *)

From S2P Require Import Prelude Codec Pb Storage Mvcc MvccSpec Latches Commands TxnSpec TxnInv.

#[local] Opaque Write_ToBytes ParseWrite Lock_ToBytes ParseLock EncodeKey DecodeUserKey decodeTimestamp.

(** ** Snapshot reads *)

(** The value a reader at [v] sees, locks aside. *)
Definition reads (s : snapshot) (k : bytes) (v : Z) (x : option bytes) : Prop :=
  ∃ o, visible (s CfWrite) k (v + 1) o ∧ x = version_value (s CfDefault) k o.

Lemma visible_fun c k b o1 o2 : visible c k b o1 → visible c k b o2 → o1 = o2.
Proof.
  destruct o1 as [[t1 w1]|], o2 as [[t2 w2]|]; cbn; [|naive_solver..].
  intros (H1 & Hb1 & Hw1 & Hd1 & Ha1) (H2 & Hb2 & Hw2 & Hd2 & Ha2).
  destruct (decide (t1 = t2)) as [->|]; [congruence|].
  destruct (decide (t1 < t2)); [by destruct (Ha1 t2 w2 H2 ltac:(lia) Hw2)|].
  by destruct (Ha2 t1 w1 H1 ltac:(lia) Hw1).
Qed.

Lemma reads_fun s k v x y : reads s k v x → reads s k v y → x = y.
Proof. intros (o & Ho & ->) (o' & Ho' & ->). by rewrite (visible_fun _ _ _ _ _ Ho Ho'). Qed.

(** Two stores a reader at [v] cannot tell apart on [k]: the same data records
    up to [v], with the same values. *)
Definition same_data (s s' : snapshot) (k : bytes) (v : Z) : Prop :=
  (∀ t w, is_u64 t → t ≤ v → is_data w → rec_of s k t = Some w ↔ rec_of s' k t = Some w) ∧
  (∀ t w, is_u64 t → t ≤ v → rec_of s k t = Some w → w_Kind w = WriteKindPut →
    val_of s k (w_StartTS w) = val_of s' k (w_StartTS w)).

Lemma reads_same s s' k v x : same_data s s' k v → reads s k v x → reads s' k v x.
Proof.
  intros [Hrec Hval] (o & Ho & ->). exists o. destruct o as [[t w]|]; cbn in Ho |- *.
  - destruct Ho as (Ht & Hb & Hw & Hd & Ha). split.
    + split_and!; [done..|apply Hrec; [done|lia|done..]|done|].
      intros t' w' Ht' ? Hw' Hd'. eapply (Ha t'); [done..| |done]. apply Hrec; [done|lia|done..].
    + case_decide as Hk; [|done]. f_equal. apply Hval with t; [done|lia|done..].
  - split; [|done]. intros t' w' Ht' ? Hw' Hd'. eapply (Ho t'); [done..| |done]. apply Hrec; [done|lia|done..].
Qed.

#[export] Instance reads_proper : Proper (same_cfs ==> eq ==> eq ==> eq ==> iff) reads.
Proof.
  assert (∀ s s' k v x, same_cfs s s' → reads s k v x → reads s' k v x) as H.
  { intros s s' k v x H. apply reads_same. split; intros *; by rewrite ?H. }
  intros s s' Hs k _ <- v _ <- x _ <-. split; apply H; [done|by symmetry].
Qed.

Lemma settle_same_data s st ts rk batch k v :
  store_inv s → settle_batch s st ts rk batch → settle_ok s st ts rk →
  (∀ k kind, rk k kind → kind = WriteKindRollback ∨ v < ts) →
  same_data s (apply_batch s batch) k v.
Proof.
  intros Hinv Hb Hok Hv. split.
  - intros t w Ht Hle Hd. split; intros E.
    + rewrite (settle_rec_old Hb Hok) //. intros -> kind Hr.
      destruct (so_new _ _ _ _ Hok _ _ Hr ts w Ht E). by apply (so_own _ _ _ _ Hok _ _ Hr).
    + destruct (settle_rec_inv Hb Hok _ _ _ Ht E) as [?|(-> & kind & Hr & ->)]; [done|].
      destruct (Hv _ _ Hr) as [->|]; [by destruct Hd|lia].
  - intros t w Ht Hle Hw Hk. symmetry. apply (settle_val_old Hb Hok).
    + by apply (rec_of_wf _ _ _ _ (si_wf _ Hinv) Hw).
    + intros Hst Hr. by destruct (so_new _ _ _ _ Hok _ _ Hr t w Ht Hw).
Qed.

Lemma cmd_same_data s cmd resp ws k v :
  store_inv s → cmd_ok s cmd → cmd_effect s cmd resp ws →
  (∀ ts, commit_ts cmd = Some ts → v < ts) → same_data s (apply_batch s ws) k v.
Proof.
  intros Hinv Hok He Hv.
  destruct (cmd_effect_settle _ _ _ _ Hinv Hok He) as [(r & errs & -> & Hms)|(ts & rk & Hb & Hso & _ & Hor)].
  - destruct Hok as [Hst Hwf].
    destruct (prewrite_muts_inv _ _ _ _ _ _ Hms Hst Hwf s Hinv ltac:(done)) as (_ & Hrec & _ & Hval).
    split; [intros; by rewrite Hrec|]. intros t w Ht Hle Hw Hk. symmetry. apply Hval.
    + by apply (rec_of_wf _ _ _ _ (si_wf _ Hinv) Hw).
    + intros Hs Hno. pose proof (Hno _ _ Ht Hw). pose proof (si_after _ Hinv _ _ _ Ht Hw). lia.
  - eapply settle_same_data; [done..|]. intros k' kind Hr.
    destruct Hor as [Hc|Hr']; [right; by apply Hv|left; by eapply Hr'].
Qed.

(** ** A prewrite without errors *)

(** The mutation finds neither a version written since the transaction
    started nor a lock of another transaction. *)
Definition prewritable (s : snapshot) (st : Z) (m : kvrpcpb.Mutation) : Prop :=
  no_later s (kvrpcpb.m_Key m) st ∧ ∀ l, lock_of s (kvrpcpb.m_Key m) = Some l → Ts l = st.

Lemma prewrite_mut_ok s st req m e ws :
  prewrite_mut s st req m e ws → e = None ↔ prewritable s st m.
Proof.
  intros [t w (Ht & _ & Hw & _) Hle|l Hno Hl Hne|Hno Hl]; split; try done.
  - intros [Hno _]. pose proof (Hno _ _ Ht Hw). lia.
  - intros [_ Hown]. by destruct (Hne (Hown _ Hl)).
Qed.

Lemma prewrite_errs s st req muts errs ws :
  prewrite_muts s st req muts errs ws → errs = [] ↔ ∀ m, m ∈ muts → prewritable s st m.
Proof.
  induction 1 as [|m e ws muts errs ws' Hm _ IH]; [set_solver|].
  rewrite app_nil. assert (option_list e = [] ↔ e = None) as -> by (by destruct e).
  rewrite (prewrite_mut_ok _ _ _ _ _ _ Hm) IH. set_solver.
Qed.

Lemma prewrite_muts_other s st req muts errs ws s0 k :
  prewrite_muts s st req muts errs ws → is_u64 st → Forall (wf_prewrite req) muts →
  k ∉ kvrpcpb.m_Key <$> muts →
  lock_of (apply_batch s0 ws) k = lock_of s0 k ∧ val_of (apply_batch s0 ws) k st = val_of s0 k st.
Proof.
  intros Hms Hst. revert s0. induction Hms as [|m e ws muts errs ws' Hm _ IH]; intros s0 Hwf Hk; [done|].
  apply Forall_cons in Hwf as [Hwf Hwfs]. rewrite fmap_cons not_elem_of_cons in Hk. destruct Hk as [Hne Hk].
  rewrite apply_batch_app. destruct Hm; [by apply IH..|].
  destruct (IH (apply_batch s0 (prewrite_writes req st m)) Hwfs Hk) as [-> ->].
  rewrite prewrite_lock_of // prewrite_val_of //; [|naive_solver]. by case_decide.
Qed.

(** A mutation that can be prewritten is, whatever happens to the others. *)
Lemma prewrite_one s st req muts errs ws :
  prewrite_muts s st req muts errs ws → is_u64 st → Forall (wf_prewrite req) muts →
  NoDup (kvrpcpb.m_Key <$> muts) →
  ∀ m s0, m ∈ muts → prewritable s st m →
  lock_of (apply_batch s0 ws) (kvrpcpb.m_Key m) = Some (prewrite_lock req st m) ∧
  (kvrpcpb.Op m = kvrpcpb.Op_Put → val_of (apply_batch s0 ws) (kvrpcpb.m_Key m) st = Some (kvrpcpb.m_Value m)).
Proof.
  intros Hms Hst. induction Hms as [|m0 e ws muts errs ws' Hm Hms IH]; intros Hwf Hnd m s0 Hin Hp; [set_solver|].
  apply Forall_cons in Hwf as [Hwf Hwfs]. rewrite fmap_cons NoDup_cons in Hnd. destruct Hnd as [Hm0 Hnd].
  rewrite apply_batch_app. apply elem_of_cons in Hin as [->|Hin]; [|by apply IH].
  pose proof (proj2 (prewrite_mut_ok _ _ _ _ _ _ Hm) Hp) as ->. inversion_clear Hm.
  destruct (prewrite_muts_other _ _ _ _ _ _ (apply_batch s0 (prewrite_writes req st m0)) _ Hms Hst Hwfs Hm0)
    as [-> ->].
  rewrite prewrite_lock_of //. split; [by case_decide|]. apply prewrite_val_put.
Qed.

Lemma prewrite_refused s st req muts errs ws :
  prewrite_muts s st req muts errs ws → is_u64 st → Forall (wf_prewrite req) muts →
  NoDup (kvrpcpb.m_Key <$> muts) →
  ∀ m s0, m ∈ muts → ¬ prewritable s st m →
  lock_of (apply_batch s0 ws) (kvrpcpb.m_Key m) = lock_of s0 (kvrpcpb.m_Key m).
Proof.
  intros Hms Hst. induction Hms as [|m0 e ws muts errs ws' Hm Hms IH]; intros Hwf Hnd m s0 Hin Hp; [set_solver|].
  apply Forall_cons in Hwf as [Hwf Hwfs]. rewrite fmap_cons NoDup_cons in Hnd. destruct Hnd as [Hm0 Hnd].
  rewrite apply_batch_app. apply elem_of_cons in Hin as [->|Hin].
  - rewrite (proj1 (prewrite_muts_other _ _ _ _ _ _ _ _ Hms Hst Hwfs Hm0)).
    destruct Hm; [done..|]. by destruct Hp.
  - rewrite IH //. destruct Hm; [done..|]. rewrite prewrite_lock_of //. case_decide as Hk; [|done].
    destruct Hm0. rewrite -Hk. by apply list_elem_of_fmap_2.
Qed.

(** Committing keys whose locks are all held. *)
Lemma commit_clean s st cts keys e done ws :
  each_spec (commit_key s st cts) keys e done ws → (∀ k, k ∈ keys → is_Some (held s k st)) →
  e = None ∧ done = keys.
Proof.
  induction 1 as [|k keys e ws Hc|k keys ws e d ws' Hc Hs IH]; intros Hh; [done|..].
  - destruct (Hh k) as [l Hl]; [set_solver|]. inversion Hc; congruence.
  - destruct IH as [-> ->]; [set_solver|done].
Qed.

Lemma committed_reads s st cts rk batch k kind x :
  store_inv s → settle_batch s st cts rk batch → settle_ok s st cts rk → rk k kind →
  no_later s k st →
  (kind = WriteKindPut → val_of s k st = Some x) → (kind = WriteKindPut ∨ kind = WriteKindDelete ∧ x = None) →
  ∀ v, cts ≤ v → reads (apply_batch s batch) k v x.
Proof.
  intros Hinv Hb Hok Hr Hno Hval Hkind v Hv. pose proof (settle_rec Hb Hok _ _ Hr) as Hrec.
  exists (Some (cts, mkWrite st kind)). split.
  - split_and!; [apply Hok|lia|done|destruct Hkind as [->|[-> _]]; [by left|by right]|].
    intros t w Ht ? Hw. fold (rec_of (apply_batch s batch) k t) in Hw. rewrite (settle_rec_old Hb Hok) // in Hw.
    + pose proof (Hno _ _ Ht Hw). pose proof (so_le _ _ _ _ Hok). lia.
    + lia.
  - cbn. destruct Hkind as [->|[-> ->]]; [|done]. case_decide; [|done].
    fold (val_of (apply_batch s batch) k st). rewrite (settle_val_old Hb Hok); [by rewrite Hval|apply Hok|].
    intros _ Hr'. by pose proof (so_fun _ _ _ _ Hok _ _ _ Hr Hr').
Qed.

Section Run.
Context {St R I : Type} `{!StorageReader R I, !Storage St R, !ReaderLaws R I, !StorageLaws St R I}.

Lemma Run_write_is cmd (st st' : St) r :
  store_inv (contents st) → cmd_ok (contents st) cmd → Run_write cmd st = (r, st') →
  ∃ resp ws, r = Ok (Some resp) ∧ cmd_effect (contents st) cmd resp ws ∧
    same_cfs (contents st') (apply_batch (contents st) ws) ∧ store_inv (contents st').
Proof.
  intros Hinv Hok E. destruct (Run_write_effect cmd st Hinv Hok) as (resp & ws & st2 & He & E2 & Hs & Hi).
  rewrite E in E2. injection E2 as -> ->. eauto 10.
Qed.

(** C11: Every writing command keeps the protocol invariant, on any storage that
    honours its interface, and always answers: it neither fails nor panics.
    The invariant says that a key holds at most one record per transaction (a
    transaction is never both committed and rolled back on a key), that a
    lock's transaction is undecided on the key and newer than every committed
    version, and that every put has its value. *)
Theorem command_keeps_invariant cmd (st : St) :
  store_inv (contents st) → cmd_ok (contents st) cmd →
  ∃ resp st', Run_write cmd st = (Ok (Some resp), st') ∧ store_inv (contents st').
Proof.
  intros Hinv Hok. destruct (Run_write_effect cmd st Hinv Hok) as (resp & ws & st' & _ & E & _ & Hi). eauto.
Qed.


(** The state a clean prewrite leaves. *)
Definition prewritten (s : snapshot) (pr : kvrpcpb.PrewriteRequest) : Prop :=
  ∀ m, m ∈ kvrpcpb.Mutations pr →
  no_later s (kvrpcpb.m_Key m) (kvrpcpb.pw_StartVersion pr) ∧
  held s (kvrpcpb.m_Key m) (kvrpcpb.pw_StartVersion pr) = Some (prewrite_lock pr (kvrpcpb.pw_StartVersion pr) m) ∧
  (kvrpcpb.Op m = kvrpcpb.Op_Put →
   val_of s (kvrpcpb.m_Key m) (kvrpcpb.pw_StartVersion pr) = Some (kvrpcpb.m_Value m)).

Lemma prewrite_run (st st1 : St) pr resp :
  store_inv (contents st) → cmd_ok (contents st) (Prewrite pr) →
  NoDup (kvrpcpb.m_Key <$> kvrpcpb.Mutations pr) →
  Run_write (Prewrite pr) st = (Ok (Some (PrewriteResp resp)), st1) → kvrpcpb.Errors resp = [] →
  store_inv (contents st1) ∧ prewritten (contents st1) pr ∧
  ∀ k v x, reads (contents st) k v x → reads (contents st1) k v x.
Proof.
  intros Hinv Hok Hnd E Herr.
  destruct (Run_write_is _ _ _ _ Hinv Hok E) as (resp' & ws & [= <-] & He & Hs & Hinv1).
  split_and!; [done| |].
  - inversion He as [? errs ? Hms| | | | |]; subst; cbn in Herr; subst errs. destruct Hok as [Hst Hwf].
    destruct (prewrite_muts_inv _ _ _ _ _ _ Hms Hst Hwf _ Hinv ltac:(done)) as (_ & Hrec & _).
    intros m Hm. pose proof (proj1 (prewrite_errs _ _ _ _ _ _ Hms) eq_refl m Hm) as Hp.
    destruct (prewrite_one _ _ _ _ _ _ Hms Hst Hwf Hnd m (contents st) Hm Hp) as (Hl & Hv).
    split_and!.
    + intros t w Ht. rewrite Hs Hrec. by apply Hp.
    + apply held_Some. by rewrite Hs Hl.
    + by rewrite Hs.
  - intros k v x Hr. rewrite Hs. eapply reads_same; [|done]. by eapply cmd_same_data.
Qed.

Lemma commit_prewritten_ok s pr cr :
  prewritten s pr → is_u64 (kvrpcpb.pw_StartVersion pr) →
  kvrpcpb.cm_StartVersion cr = kvrpcpb.pw_StartVersion pr →
  kvrpcpb.cm_Keys cr = Some (kvrpcpb.m_Key <$> kvrpcpb.Mutations pr) →
  is_u64 (kvrpcpb.CommitVersion cr) → kvrpcpb.pw_StartVersion pr < kvrpcpb.CommitVersion cr →
  cmd_ok s (Commit cr).
Proof.
  intros Hpre Hst Hstart Hkeys Hcts Hlt. split; cbn; rewrite Hstart; [done|]. split_and!; [done..|].
  rewrite Hkeys. cbn. intros k (m & -> & Hm)%list_elem_of_fmap w Hw.
  pose proof (proj1 (Hpre m Hm) _ _ Hcts Hw). lia.
Qed.

Lemma commit_run (st1 : St) pr cr :
  store_inv (contents st1) → prewritten (contents st1) pr → is_u64 (kvrpcpb.pw_StartVersion pr) →
  kvrpcpb.cm_StartVersion cr = kvrpcpb.pw_StartVersion pr →
  kvrpcpb.cm_Keys cr = Some (kvrpcpb.m_Key <$> kvrpcpb.Mutations pr) →
  is_u64 (kvrpcpb.CommitVersion cr) → kvrpcpb.pw_StartVersion pr < kvrpcpb.CommitVersion cr →
  ∃ st2, Run_write (Commit cr) st1 = (Ok (Some (CommitResp (kvrpcpb.mkCommitResponse None None))), st2) ∧
    (∀ m v, m ∈ kvrpcpb.Mutations pr → kvrpcpb.CommitVersion cr ≤ v →
      (kvrpcpb.Op m = kvrpcpb.Op_Put → reads (contents st2) (kvrpcpb.m_Key m) v (kvrpcpb.m_Value m)) ∧
      (kvrpcpb.Op m = kvrpcpb.Op_Del → reads (contents st2) (kvrpcpb.m_Key m) v None)) ∧
    (∀ k v x, v < kvrpcpb.CommitVersion cr → reads (contents st1) k v x → reads (contents st2) k v x) ∧
    (∀ m, m ∈ kvrpcpb.Mutations pr → lock_of (contents st2) (kvrpcpb.m_Key m) = None).
Proof.
  intros Hinv Hpre Hst Hstart Hkeys Hcts Hlt.
  pose proof (commit_prewritten_ok _ _ _ Hpre Hst Hstart Hkeys Hcts Hlt) as Hok.
  destruct (Run_write_effect (Commit cr) st1 Hinv Hok) as (resp & ws & st2 & He & E & Hs & _).
  exists st2. rewrite E.
  assert (Hstable : ∀ k v x, v < kvrpcpb.CommitVersion cr → reads (contents st1) k v x → reads (contents st2) k v x).
  { intros k v x Hv Hr. rewrite Hs. eapply reads_same; [|done]. eapply cmd_same_data; [done..|].
    by intros ? [= <-]. }
  inversion He as [|? e d ? Heach| | | |]; subst. rewrite Hstart Hkeys in Heach. cbn in Heach.
  destruct (commit_clean _ _ _ _ _ _ _ Heach) as [-> ->].
  { intros k (m & -> & Hm)%list_elem_of_fmap. by rewrite (proj1 (proj2 (Hpre m Hm))). }
  pose proof (each_settle _ _ _ _ _ _ _ _ _ (commit_key_piece _ _ _) Heach) as Hb.
  assert (Hso : settle_ok (contents st1) (kvrpcpb.pw_StartVersion pr) (kvrpcpb.CommitVersion cr) (λ k kind,
    k ∈ kvrpcpb.m_Key <$> kvrpcpb.Mutations pr ∧ commits (contents st1) (kvrpcpb.pw_StartVersion pr) k kind)).
  { destruct Hok as (_ & _ & _ & Hown). cbn in Hown. rewrite Hkeys Hstart in Hown.
    apply commits_ok; [done..|lia|done]. }
  assert (Hrk : ∀ m, m ∈ kvrpcpb.Mutations pr → kvrpcpb.m_Key m ∈ kvrpcpb.m_Key <$> kvrpcpb.Mutations pr ∧
    commits (contents st1) (kvrpcpb.pw_StartVersion pr) (kvrpcpb.m_Key m) (kvrpcpb.Op m + 1)).
  { intros m Hm. split; [by apply list_elem_of_fmap_2|]. eexists. by split; [apply Hpre|]. }
  split_and!; [done| |done|].
  - intros m v Hm Hv. destruct (Hpre m Hm) as (Hno & _ & Hval). split; intros Hop; rewrite Hs.
    + eapply (committed_reads _ _ _ _ _ _ _ _ Hinv Hb Hso (Hrk m Hm)); [done| |rewrite Hop; by left|done].
      intros _. by apply Hval.
    + eapply (committed_reads _ _ _ _ _ _ _ _ Hinv Hb Hso (Hrk m Hm)); [done|by rewrite Hop| |done].
      rewrite Hop. by right.
  - intros m Hm. rewrite Hs. eapply (settle_unlock Hb); [by apply Hrk|]. by rewrite (proj1 (proj2 (Hpre m Hm))).
Qed.

(** C9: Two-phase commit.  After a prewrite that reported no error, the commit
    of its keys succeeds; then every reader at or after the commit timestamp
    sees the written values and deletions, every earlier reader sees what it
    saw before the transaction, and no lock is left. *)
Theorem two_phase_commit (st st1 : St) pr cr resp1 :
  let muts := kvrpcpb.Mutations pr in
  store_inv (contents st) → cmd_ok (contents st) (Prewrite pr) → NoDup (kvrpcpb.m_Key <$> muts) →
  Run_write (Prewrite pr) st = (Ok (Some (PrewriteResp resp1)), st1) → kvrpcpb.Errors resp1 = [] →
  kvrpcpb.cm_StartVersion cr = kvrpcpb.pw_StartVersion pr →
  kvrpcpb.cm_Keys cr = Some (kvrpcpb.m_Key <$> muts) →
  is_u64 (kvrpcpb.CommitVersion cr) → kvrpcpb.pw_StartVersion pr < kvrpcpb.CommitVersion cr →
  ∃ st2, Run_write (Commit cr) st1 = (Ok (Some (CommitResp (kvrpcpb.mkCommitResponse None None))), st2) ∧
    (∀ m v, m ∈ muts → kvrpcpb.CommitVersion cr ≤ v →
      (kvrpcpb.Op m = kvrpcpb.Op_Put → reads (contents st2) (kvrpcpb.m_Key m) v (kvrpcpb.m_Value m)) ∧
      (kvrpcpb.Op m = kvrpcpb.Op_Del → reads (contents st2) (kvrpcpb.m_Key m) v None)) ∧
    (∀ k v x, v < kvrpcpb.CommitVersion cr → reads (contents st) k v x → reads (contents st2) k v x) ∧
    (∀ m, m ∈ muts → lock_of (contents st2) (kvrpcpb.m_Key m) = None).
Proof.
  intros muts Hinv Hok Hnd E1 Herr Hstart Hkeys Hcts Hlt.
  destruct (prewrite_run _ _ _ _ Hinv Hok Hnd E1 Herr) as (Hinv1 & Hpre & Hsame).
  destruct (commit_run st1 pr cr Hinv1 Hpre (proj1 Hok) Hstart Hkeys Hcts Hlt) as (st2 & E2 & Hnew & Hold & Hl).
  exists st2. split_and!; [done..| |done]. eauto.
Qed.
(** ** Point reads *)

(** The lock stops a reader at [v]. *)
Definition blocks (l : Lock) (k : bytes) (v : Z) : Prop := Ts l ≤ v ∧ ¬ (v = TsMax ∧ k ≠ Primary l).
#[export] Instance blocks_dec l k v : Decision (blocks l k v).
Proof. unfold blocks. apply _. Defined.

Lemma IsLockedFor_blocks l k v :
  IsLockedFor (Some l) k v = if decide (blocks l k v)
    then Some (kvrpcpb.mkKeyError (Some (Lock_Info l k)) no_text no_text None) else None.
Proof.
  unfold IsLockedFor, blocks. pose proof (Compare_eq k (Primary l)) as Hc. repeat case_decide; naive_solver.
Qed.

(** C13: A point read returns either the lock that blocks it (one taken at or
    before the read timestamp; a read at the maximal timestamp is stopped by
    the lock on the primary key only) or exactly the value visible at its
    timestamp; it changes nothing. *)
Theorem Get_reads fuel req (st : St) l :
  store_inv (contents st) → is_u64 (kvrpcpb.Version req) →
  ∃ x, reads (contents st) (kvrpcpb.get_Key req) (kvrpcpb.Version req) x ∧
    RunCommand fuel (Get req) st l =
      Ran (Ok (Some (GetResp
        match lock_of (contents st) (kvrpcpb.get_Key req) with
        | Some lk =>
          if decide (blocks lk (kvrpcpb.get_Key req) (kvrpcpb.Version req)) then
            kvrpcpb.mkGetResponse None (Some (kvrpcpb.mkKeyError
              (Some (Lock_Info lk (kvrpcpb.get_Key req))) no_text no_text None)) None false
          else kvrpcpb.mkGetResponse None None x (bool_decide (x = None))
        | None => kvrpcpb.mkGetResponse None None x (bool_decide (x = None))
        end))) st l.
Proof.
  intros Hinv Hv. destruct (reader_law st (kvrpcpb.get_Context req)) as (r & Er & Hview).
  set (txn := mkRoTxn r (kvrpcpb.Version req)).
  destruct (GetValue_visible txn (kvrpcpb.get_Key req)) as (o & Ho & E); [|done|].
  { unfold history. cbn. rewrite Hview. apply Hinv. }
  assert (GetLock txn (kvrpcpb.get_Key req) = Ok (lock_of (contents st) (kvrpcpb.get_Key req))) as El.
  { rewrite GetLock_lock_of; cbn; rewrite Hview; [done|apply Hinv]. }
  eexists. split; [exists o; split; [|reflexivity]; unfold history in Ho; cbn in Ho; by rewrite Hview in Ho|].
  unfold RunCommand, Run_read. cbn. rewrite Er. cbn. unfold Get_Read. fold txn. rewrite El. cbn.
  rewrite E /= Hview. destruct (lock_of _ _) as [lk|]; [|done].
  rewrite IsLockedFor_blocks. by case_decide.
Qed.

(** ** Decided transactions *)

(** A decision is permanent: no command removes or replaces a record of a
    key, so a transaction committed or rolled back on a key stays so. *)
Theorem records_permanent cmd (st : St) k t w :
  store_inv (contents st) → cmd_ok (contents st) cmd → is_u64 t →
  rec_of (contents st) k t = Some w → rec_of (contents (Run_write cmd st).2) k t = Some w.
Proof.
  intros Hinv Hok Ht Hw. destruct (Run_write cmd st) as [r st'] eqn:E.
  destruct (Run_write_is _ _ _ _ Hinv Hok E) as (resp & ws & _ & He & Hs & _). cbn. rewrite Hs.
  destruct (cmd_effect_settle _ _ _ _ Hinv Hok He) as [(rq & errs & -> & Hms)|(ts & rk & Hb & Hso & _ & _)].
  - destruct Hok as [Hst Hwf].
    by destruct (prewrite_muts_inv _ _ _ _ _ _ Hms Hst Hwf _ Hinv ltac:(done)) as (_ & -> & _).
  - rewrite (settle_rec_old Hb Hso) //. intros -> kind Hr.
    destruct (so_new _ _ _ _ Hso _ _ Hr ts w Ht Hw). by apply (so_own _ _ _ _ Hso _ _ Hr).
Qed.

Lemma own_record_unique s k st t w o :
  store_inv s → own_record (s CfWrite) k st (Some (t, w)) → own_record (s CfWrite) k st o → o = Some (t, w).
Proof.
  intros Hinv (Ht & Hw & Hst) Ho. destruct o as [[t' w']|]; [|by destruct (Ho _ _ Ht Hw)].
  destruct Ho as (Ht' & Hw' & Hst'). assert (t' = t) as ->; [|congruence].
  eapply (si_unique _ Hinv); [done..|congruence].
Qed.

Lemma decided_not_held s k st t w :
  store_inv s → own_record (s CfWrite) k st (Some (t, w)) → held s k st = None.
Proof.
  intros Hinv (Ht & Hw & Hst). destruct (held s k st) as [l|] eqn:E; [|done].
  by destruct (held_undecided _ _ _ _ Hinv E t w Ht Hw).
Qed.

Lemma each_single F k e d ws : each_spec F [k] e d ws → F k e ws.
Proof.
  inversion_clear 1 as [| |? ? ws1 ? ? ws2 Hf Hn]; [done|]. inversion Hn; subst. by rewrite app_nil_r.
Qed.

Section Decided.
Context (st : St) (k : bytes) (start t : Z) (w : Mvcc.Write).
Context (Hinv : store_inv (contents st)) (Hst : is_u64 start).
Context (Hown : own_record (contents st CfWrite) k start (Some (t, w))).

Lemma decided_commit_key cts e ws :
  commit_key (contents st) start cts k e ws →
  ws = [] ∧ e = if decide (w_Kind w = WriteKindRollback) then Some (lock_not_found k) else None.
Proof.
  pose proof (decided_not_held _ _ _ _ _ Hinv Hown) as Hnh.
  intros [l Hl|t' w' _ Ho Hk|o _ Ho Hk]; [congruence|..].
  - pose proof (own_record_unique _ _ _ _ _ _ Hinv Hown Ho). simplify_eq. by case_decide.
  - rewrite (own_record_unique _ _ _ _ _ _ Hinv Hown Ho) in Hk. case_decide as Hw; [done|].
    by destruct Hw; eapply Hk.
Qed.

Lemma decided_rollback_key e ws :
  rollback_key (contents st) start k e ws →
  ws = [] ∧ e = if decide (w_Kind w = WriteKindRollback) then None else Some (already_committed k t).
Proof.
  pose proof (decided_not_held _ _ _ _ _ Hinv Hown) as Hnh.
  intros [l ? Hl|_ Ho|t' w' _ Ho Hk|t' w' _ Ho Hk]; [congruence|..];
    pose proof (own_record_unique _ _ _ _ _ _ Hinv Hown Ho); simplify_eq; by case_decide.
Qed.

Lemma decided_prewrite_mut req m e ws :
  kvrpcpb.m_Key m = k → prewrite_mut (contents st) start req m e ws →
  ws = [] ∧ ∃ e' c, e = Some e' ∧ kvrpcpb.Conflict e' = Some c ∧ start ≤ kvrpcpb.ConflictTs c.
Proof.
  intros Hk Hm. destruct Hown as (Ht & Hw & Hsw). assert (Hle := si_after _ Hinv _ _ _ Ht Hw).
  rewrite -Hk in Hw, Hle. destruct Hm as [t' w' Hn Hle'|l Hno|Hno].
  - split; [done|]. eexists _, _. by split_and!.
  - pose proof (Hno _ _ Ht Hw). lia.
  - pose proof (Hno _ _ Ht Hw). lia.
Qed.

Lemma decided_prewrite ctx m primary ttl :
  kvrpcpb.m_Key m = k → wf_kind (kvrpcpb.Op m + 1) → is_u64 ttl →
  ∃ st' e c, Run_write (Prewrite (kvrpcpb.mkPrewriteRequest ctx [m] primary start ttl)) st =
      (Ok (Some (PrewriteResp (kvrpcpb.mkPrewriteResponse None [e]))), st') ∧
    kvrpcpb.Conflict e = Some c ∧ start ≤ kvrpcpb.ConflictTs c ∧ same_cfs (contents st') (contents st).
Proof.
  intros Hk Hop Httl.
  destruct (Run_write_effect (Prewrite (kvrpcpb.mkPrewriteRequest ctx [m] primary start ttl)) st Hinv)
    as (resp & ws & st' & He & E & Hs & _).
  { split; [done|]. apply Forall_singleton. by split. }
  revert Hk. inversion He as [? errs ? Hms| | | | |]; subst. cbn in Hms.
  inversion Hms as [|? e ws1 ? errs1 ws2 Hm Hnil]; subst. inversion Hnil; subst. intros Hk.
  destruct (decided_prewrite_mut _ _ _ _ Hk Hm) as (-> & e' & c & -> & ? & ?).
  exists st', e', c. split_and!; [exact E|done..].
Qed.

Lemma decided_commit ctx cts :
  is_u64 cts → start < cts → ts_of_txn (contents st) k cts start →
  ∃ st', Run_write (Commit (kvrpcpb.mkCommitRequest ctx start (Some [k]) cts)) st =
      (Ok (Some (CommitResp (kvrpcpb.mkCommitResponse None
        (if decide (w_Kind w = WriteKindRollback) then Some (lock_not_found k) else None)))), st') ∧
    same_cfs (contents st') (contents st).
Proof.
  intros Hcts Hlt Hts.
  destruct (Run_write_effect (Commit (kvrpcpb.mkCommitRequest ctx start (Some [k]) cts)) st Hinv)
    as (resp & ws & st' & He & E & Hs & _).
  { split; [done|]. cbn. split_and!; [done..|]. by intros k' ->%list_elem_of_singleton. }
  exists st'. rewrite E. inversion He as [|? e d ? Heach| | | |]; subst.
  by destruct (decided_commit_key _ _ _ (each_single _ _ _ _ _ Heach)) as [-> ->].
Qed.

Lemma decided_rollback ctx :
  ts_of_txn (contents st) k start start →
  ∃ st', Run_write (Rollback (kvrpcpb.mkBatchRollbackRequest ctx start (Some [k]))) st =
      (Ok (Some (RollbackResp (kvrpcpb.mkBatchRollbackResponse None
        (if decide (w_Kind w = WriteKindRollback) then None else Some (already_committed k t))))), st') ∧
    same_cfs (contents st') (contents st).
Proof.
  intros Hts.
  destruct (Run_write_effect (Rollback (kvrpcpb.mkBatchRollbackRequest ctx start (Some [k]))) st Hinv)
    as (resp & ws & st' & He & E & Hs & _).
  { split; [done|]. cbn. by intros k' ->%list_elem_of_singleton. }
  exists st'. rewrite E. inversion He as [| |? e d ? Heach| | |]; subst.
  by destruct (decided_rollback_key _ _ (each_single _ _ _ _ _ Heach)) as [-> ->].
Qed.
End Decided.

(** Stale requests of a decided transaction.  If transaction [start] has the
    record [w] at [t] on the key, then on that key: a prewrite is refused with
    a write conflict, a commit succeeds without effect if [w] is a commit and
    fails with "lock not found" if it is a rollback, and a rollback does
    nothing after a rollback and is refused after a commit.  In all cases the
    store is unchanged. *)
Theorem decided_requests (st : St) k start t w ctx :
  store_inv (contents st) → is_u64 start → own_record (contents st CfWrite) k start (Some (t, w)) →
  (∀ m primary ttl, kvrpcpb.m_Key m = k → wf_kind (kvrpcpb.Op m + 1) → is_u64 ttl →
     ∃ st' e c, Run_write (Prewrite (kvrpcpb.mkPrewriteRequest ctx [m] primary start ttl)) st =
         (Ok (Some (PrewriteResp (kvrpcpb.mkPrewriteResponse None [e]))), st') ∧
       kvrpcpb.Conflict e = Some c ∧ start ≤ kvrpcpb.ConflictTs c ∧ same_cfs (contents st') (contents st)) ∧
  (∀ cts, is_u64 cts → start < cts → ts_of_txn (contents st) k cts start →
     ∃ st', Run_write (Commit (kvrpcpb.mkCommitRequest ctx start (Some [k]) cts)) st =
         (Ok (Some (CommitResp (kvrpcpb.mkCommitResponse None
           (if decide (w_Kind w = WriteKindRollback) then Some (lock_not_found k) else None)))), st') ∧
       same_cfs (contents st') (contents st)) ∧
  (ts_of_txn (contents st) k start start →
     ∃ st', Run_write (Rollback (kvrpcpb.mkBatchRollbackRequest ctx start (Some [k]))) st =
         (Ok (Some (RollbackResp (kvrpcpb.mkBatchRollbackResponse None
           (if decide (w_Kind w = WriteKindRollback) then None else Some (already_committed k t))))), st') ∧
       same_cfs (contents st') (contents st)).
Proof.
  intros Hinv Hst Hown. split_and!.
  - intros. by eapply decided_prewrite.
  - intros. by eapply decided_commit.
  - intros. by eapply decided_rollback.
Qed.


Lemma resolve_clean F keys e0 e ws :
  resolve_spec F keys e0 e ws → (∀ k e ws, k ∈ keys → F k e ws → e = None) → e0 = None → e = None.
Proof.
  induction 1 as [|k keys e0 e1 e2 ws ws' Hf _ IH]; intros HF He0; [done|].
  apply IH; [set_solver|]. rewrite (HF _ _ _ _ Hf); [done|set_solver].
Qed.

(** The scan found the locks of the transaction, no more and no less. *)
Definition all_locks (s : snapshot) (start : Z) (kls : list KlPair) : Prop :=
  ∀ k l, mkKlPair k l ∈ kls ↔ held s k start = Some l.

Lemma all_locks_keys s start kls k : all_locks s start kls → k ∈ map kl_Key kls ↔ is_Some (held s k start).
Proof.
  intros H. rewrite list_elem_of_fmap. split.
  - intros ([k' l] & -> & Hin). exists l. by apply H.
  - intros [l Hl]. exists (mkKlPair k l). split; [done|]. by apply H.
Qed.

Lemma resolve_effect s req kls resp ws :
  store_inv s → cmd_ok s (ResolveLock req kls) → all_locks s (kvrpcpb.rl_StartVersion req) kls →
  cmd_effect s (ResolveLock req kls) resp ws →
  resp = ResolveLockResp (kvrpcpb.mkResolveLockResponse None None) ∧
  (∀ k, held (apply_batch s ws) k (kvrpcpb.rl_StartVersion req) = None) ∧
  (∀ k l, held s k (kvrpcpb.rl_StartVersion req) = Some l →
    if decide (kvrpcpb.rl_StartVersion req ≤ kvrpcpb.rl_CommitVersion req)
    then rec_of (apply_batch s ws) k (kvrpcpb.rl_CommitVersion req)
         = Some (mkWrite (kvrpcpb.rl_StartVersion req) (Kind l))
    else rec_of (apply_batch s ws) k (kvrpcpb.rl_StartVersion req)
         = Some (rollback_record (kvrpcpb.rl_StartVersion req))).
Proof.
  intros Hinv (Hst & Hcm & Hkl) Hall He. cbn in Hst, Hcm, Hkl.
  assert (Hown : ∀ k, k ∈ map kl_Key kls → ts_of_txn s k (kvrpcpb.rl_StartVersion req) (kvrpcpb.rl_StartVersion req) ∧
    ts_of_txn s k (kvrpcpb.rl_CommitVersion req) (kvrpcpb.rl_StartVersion req)).
  { intros k (kl & -> & Hin)%list_elem_of_fmap. by apply Hkl. }
  assert (Hfree : ∀ ts rk, settle_batch s (kvrpcpb.rl_StartVersion req) ts rk ws →
    (∀ k l, held s k (kvrpcpb.rl_StartVersion req) = Some l → ∃ kind, rk k kind) →
    ∀ k, held (apply_batch s ws) k (kvrpcpb.rl_StartVersion req) = None).
  { intros ts rk Hb Hrk k. destruct (held (apply_batch s ws) k _) as [l|] eqn:E; [|done].
    apply held_Some in E as [El Hl]. destruct (settle_lock_inv Hb _ _ El) as [El' Hne].
    destruct (Hrk k l) as [kind Hr]; [by apply held_Some|]. by destruct (Hne _ Hr). }
  inversion He as [| | | |? ? e ? Hle Hs|? ? e ? Hlt Hs]; subst.
  - pose proof (resolve_settle _ _ _ _ _ _ _ _ _ (commit_key_piece _ _ _) Hs) as Hb.
    pose proof (commits_ok _ _ _ (λ k, k ∈ map kl_Key kls) Hinv Hst Hcm Hle (λ k Hk, proj2 (Hown k Hk))) as Hso.
    assert (Hrk : ∀ k l, held s k (kvrpcpb.rl_StartVersion req) = Some l →
      k ∈ map kl_Key kls ∧ commits s (kvrpcpb.rl_StartVersion req) k (Kind l)).
    { intros k l Hl. split; [|by exists l]. by apply (all_locks_keys _ _ _ _ Hall); eauto. }
    split_and!; [do 2 f_equal|by eapply (Hfree _ _ Hb); eauto|].
    + eapply resolve_clean; [done| |done]. intros k e' ws' [l Hl]%(all_locks_keys _ _ _ _ Hall) Hc.
      inversion Hc; congruence.
    + intros k l Hl. case_decide; [|lia]. eapply (settle_rec Hb Hso). by apply Hrk.
  - pose proof (resolve_settle _ _ _ _ _ _ _ _ _ (rollback_key_piece _ _) Hs) as Hb.
    pose proof (rolls_back_ok _ _ (λ k, k ∈ map kl_Key kls) Hinv Hst (λ k Hk, proj1 (Hown k Hk))) as Hso.
    assert (Hrk : ∀ k l, held s k (kvrpcpb.rl_StartVersion req) = Some l →
      k ∈ map kl_Key kls ∧ rolls_back s (kvrpcpb.rl_StartVersion req) k WriteKindRollback).
    { intros k l Hl. split; [by apply (all_locks_keys _ _ _ _ Hall); eauto|]. split; eauto. }
    split_and!; [do 2 f_equal|by eapply (Hfree _ _ Hb); eauto|].
    + eapply resolve_clean; [done| |done]. intros k e' ws' [l Hl]%(all_locks_keys _ _ _ _ Hall) Hc.
      inversion Hc; congruence.
    + intros k l Hl. case_decide; [lia|]. eapply (settle_rec Hb Hso). by eapply Hrk.
Qed.

End Run.

(** ** A transaction on two keys, on the in-memory store *)

Lemma store_inv_empty s : (∀ cf, cf ∈ CFs → s cf = ∅) → store_inv s.
Proof.
  intros H. assert (Hr : ∀ k t, rec_of s k t = None).
  { intros k t. unfold rec_of, write_at. by rewrite (H _ CfWrite_CFs) lookup_empty. }
  assert (Hl : ∀ k, lock_of s k = None).
  { intros k. unfold lock_of. by rewrite (H _ CfLock_CFs) lookup_empty. }
  split; [split|..]; try (intros *; rewrite ?Hr ?Hl; done).
  - intros ek v. by rewrite (H _ CfWrite_CFs) lookup_empty.
  - intros ek v. by rewrite (H _ CfLock_CFs) lookup_empty.
  - intros k t w Ht. fold (rec_of s k t). by rewrite Hr.
Qed.

Lemma no_records_reads s k v : s CfWrite = ∅ → reads s k v None.
Proof.
  intros H. exists None. split; [|done]. intros t w Ht Hv. unfold write_at. by rewrite H lookup_empty.
Qed.

Definition ex_ctx : kvrpcpb.Context := kvrpcpb.mkContext 1 None None 0.
Definition ex_a : bytes := [x61%byte].
Definition ex_b : bytes := [x62%byte].
Definition ex_value : option bytes := Some [x76%byte].
Definition ex_put : kvrpcpb.Mutation := kvrpcpb.mkMutation kvrpcpb.Op_Put ex_a ex_value.
Definition ex_del : kvrpcpb.Mutation := kvrpcpb.mkMutation kvrpcpb.Op_Del ex_b None.
Definition ex_prewrite : kvrpcpb.PrewriteRequest :=
  kvrpcpb.mkPrewriteRequest ex_ctx [ex_put; ex_del] ex_a 10 100.
Definition ex_commit : kvrpcpb.CommitRequest := kvrpcpb.mkCommitRequest ex_ctx 10 (Some [ex_a; ex_b]) 20.
Definition ex_store0 : map_store := NewMemStorage.
Definition ex_store1 : map_store := (Run_write (Prewrite ex_prewrite) ex_store0).2.
Definition ex_store2 : map_store := (Run_write (Commit ex_commit) ex_store1).2.

Lemma ex_inv0 : store_inv (contents ex_store0).
Proof. apply store_inv_empty. intros cf Hcf. unfold CFs in Hcf. set_unfold. naive_solver. Qed.

Lemma ex_prewrite_ok : cmd_ok (contents ex_store0) (Prewrite ex_prewrite).
Proof. split; [done|]. repeat constructor; done. Qed.

Lemma run_result {A B} (p : A * B) a : p.1 = a → p = (a, p.2).
Proof. by destruct p; intros <-. Qed.

Lemma ex_prewrite_run :
  Run_write (Prewrite ex_prewrite) ex_store0 =
    (Ok (Some (PrewriteResp (kvrpcpb.mkPrewriteResponse None []))), ex_store1).
Proof. apply run_result. vm_compute. reflexivity. Qed.

Lemma ex_inv1 : store_inv (contents ex_store1).
Proof. by destruct (Run_write_is _ _ _ _ ex_inv0 ex_prewrite_ok ex_prewrite_run) as (? & ? & _ & _ & _ & ?). Qed.

Lemma ex_commit_ok : cmd_ok (contents ex_store1) (Commit ex_commit).
Proof.
  split; [done|]. split_and!; [done..|]. intros k _ w. unfold rec_of, write_at.
  replace (contents ex_store1 CfWrite) with (∅ : cfmap) by (vm_compute; reflexivity).
  by rewrite lookup_empty.
Qed.

Lemma ex_commit_run :
  Run_write (Commit ex_commit) ex_store1 =
    (Ok (Some (CommitResp (kvrpcpb.mkCommitResponse None None))), ex_store2).
Proof. apply run_result. vm_compute. reflexivity. Qed.

Lemma ex_inv2 : store_inv (contents ex_store2).
Proof. by destruct (Run_write_is _ _ _ _ ex_inv1 ex_commit_ok ex_commit_run) as (? & ? & _ & _ & _ & ?). Qed.

Lemma command_keeps_invariant_witness :
  ∃ resp st', Run_write (Commit ex_commit) ex_store1 = (Ok (Some resp), st') ∧ store_inv (contents st').
Proof. apply (command_keeps_invariant (Commit ex_commit) ex_store1); [exact ex_inv1|exact ex_commit_ok]. Defined.


Lemma two_phase_commit_witness : ∃ st2 : map_store, reads (contents st2) ex_a 20 ex_value.
Proof.
  destruct (two_phase_commit ex_store0 ex_store1 ex_prewrite ex_commit (kvrpcpb.mkPrewriteResponse None []))
    as (st2 & _ & Hnew & _).
  - exact ex_inv0.
  - exact ex_prewrite_ok.
  - apply (bool_decide_unpack _). vm_compute. reflexivity.
  - exact ex_prewrite_run.
  - reflexivity.
  - reflexivity.
  - reflexivity.
  - vm_compute. split; congruence.
  - reflexivity.
  - exists st2. apply (Hnew ex_put 20); [by left|done|reflexivity].
Defined.

Definition ex_get : kvrpcpb.GetRequest := kvrpcpb.mkGetRequest ex_ctx ex_a 25.

Lemma Get_reads_witness :
  ∃ x, reads (contents ex_store2) ex_a 25 x ∧
    RunCommand 1 (Get ex_get) ex_store2 NewLatches =
      Ran (Ok (Some (GetResp (kvrpcpb.mkGetResponse None None x (bool_decide (x = None)))))) ex_store2 NewLatches.
Proof.
  destruct (Get_reads 1 ex_get ex_store2 NewLatches) as (x & Hx & E); [exact ex_inv2|done|].
  exists x. split; [exact Hx|]. rewrite E.
  replace (lock_of (contents ex_store2) (kvrpcpb.get_Key ex_get)) with (None : option Lock)
    by (vm_compute; reflexivity). reflexivity.
Defined.

Definition ex_rollback : kvrpcpb.BatchRollbackRequest := kvrpcpb.mkBatchRollbackRequest ex_ctx 30 (Some [ex_a]).

Lemma ex_rollback_ok : cmd_ok (contents ex_store2) (Rollback ex_rollback).
Proof.
  split; [done|]. intros k ->%list_elem_of_singleton w.
  replace (rec_of (contents ex_store2) ex_a _) with (None : option Mvcc.Write) by (vm_compute; reflexivity).
  done.
Qed.

Lemma records_permanent_witness :
  rec_of (contents (Run_write (Rollback ex_rollback) ex_store2).2) ex_a 20 = Some (mkWrite 10 WriteKindPut).
Proof.
  apply (records_permanent (Rollback ex_rollback) ex_store2); [exact ex_inv2|exact ex_rollback_ok|done|].
  vm_compute. reflexivity.
Defined.

Lemma decided_requests_witness :
  ∃ st' : map_store, Run_write (Commit (kvrpcpb.mkCommitRequest ex_ctx 10 (Some [ex_a]) 40)) ex_store2 =
    (Ok (Some (CommitResp (kvrpcpb.mkCommitResponse None None))), st').
Proof.
  destruct (decided_requests ex_store2 ex_a 10 20 (mkWrite 10 WriteKindPut) ex_ctx) as (_ & Hc & _);
    [exact ex_inv2|done|split_and!; [done|vm_compute; reflexivity|done]|].
  destruct (Hc 40) as (st' & E & _); [done|done| |by exists st'].
  intros w. replace (rec_of (contents ex_store2) ex_a 40) with (None : option Mvcc.Write) by (vm_compute; reflexivity).
  done.
Defined.

Definition ex_check : kvrpcpb.CheckTxnStatusRequest :=
  kvrpcpb.mkCheckTxnStatusRequest ex_ctx ex_a 10 (Z.shiftl 200 18).



Definition ex_resolve : kvrpcpb.ResolveLockRequest := kvrpcpb.mkResolveLockRequest ex_ctx 10 20.

