(* ===== verification/Concurrent.v ===== *)
(** Transaction commands running concurrently: [RunCommand] of
    kv/transaction/commands/command.go, taken apart into its steps.

    Any number of threads run writing commands over one store.  A thread
    latches its keys, takes a reader and prepares its writes, writes them, and
    releases; the steps of different threads interleave freely.  Because a
    command reads and writes only the keys it has latched, every write takes
    effect as if the whole command had run at that moment, and the protocol
    invariant holds in every reachable state. *)

From S2P Require Import Prelude Codec Pb Storage Mvcc MvccSpec Latches Commands TxnSpec TxnInv TxnProps.

(** ** Commands are local to their keys *)

Definition agree_on (keys : list bytes) (s s' : snapshot) : Prop :=
  ∀ k, k ∈ keys → lock_of s k = lock_of s' k ∧ ∀ t, is_u64 t → rec_of s k t = rec_of s' k t.

Section Local.
Context {s s' : snapshot} {k : bytes}.
Context (Hlock : lock_of s k = lock_of s' k) (Hrec : ∀ t, is_u64 t → rec_of s k t = rec_of s' k t).

Lemma held_local st : held s' k st = held s k st.
Proof. unfold held. by rewrite Hlock. Qed.

Lemma own_record_local st o : own_record (s CfWrite) k st o → own_record (s' CfWrite) k st o.
Proof.
  destruct o as [[t w]|]; cbn.
  - intros (Ht & Hw & ?). split_and!; [done| |done]. by rewrite -(Hrec t Ht : write_at _ _ _ = write_at _ _ _).
  - intros H t w Ht Hw. apply (H t); [done|]. by rewrite (Hrec t Ht : write_at _ _ _ = write_at _ _ _).
Qed.

Lemma newest_local b o : newest (s CfWrite) k b o → newest (s' CfWrite) k b o.
Proof.
  assert (E : ∀ t, is_u64 t → write_at (s CfWrite) k t = write_at (s' CfWrite) k t) by exact Hrec.
  destruct o as [[t w]|]; cbn.
  - intros (Ht & ? & Hw & Hb). split_and!; [done..|by rewrite -E|]. intros t' Ht' ?. rewrite -E //. by apply Hb.
  - intros H t' Ht' ?. rewrite -E //. by apply H.
Qed.

Lemma no_later_local st : no_later s k st → no_later s' k st.
Proof. intros H t w Ht. rewrite -Hrec //. by apply H. Qed.

Lemma commit_key_local st cts e ws : commit_key s st cts k e ws → commit_key s' st cts k e ws.
Proof.
  destruct 1 as [l Hl|t w Hl Ho Hk|o Hl Ho Hk].
  - apply ck_locked. by rewrite held_local.
  - eapply ck_committed; [by rewrite held_local|by apply own_record_local|done].
  - eapply ck_lost; [by rewrite held_local|by apply own_record_local|done].
Qed.

Lemma rollback_key_local st e ws : rollback_key s st k e ws → rollback_key s' st k e ws.
Proof.
  destruct 1 as [l ws Hl Hws|Hl Ho|t w Hl Ho Hk|t w Hl Ho Hk].
  - eapply rk_locked; [by rewrite held_local|done].
  - apply rk_lost; [by rewrite held_local|by apply own_record_local].
  - eapply rk_done; [by rewrite held_local|by apply own_record_local|done].
  - eapply rk_committed; [by rewrite held_local|by apply own_record_local|done].
Qed.

Lemma check_status_local st now resp ws : check_status s st now k resp ws → check_status s' st now k resp ws.
Proof.
  destruct 1 as [l Hl ?|l ws Hl ? Hr|ws Hl Ho Hr|t w Hl Ho Hk|t w Hl Ho Hk].
  - apply cs_alive; [by rewrite held_local|done].
  - eapply cs_expired; [by rewrite held_local|done|by apply rollback_key_local].
  - apply cs_lost; [by rewrite held_local|by apply own_record_local|by apply rollback_key_local].
  - eapply cs_rolled_back; [by rewrite held_local|by apply own_record_local|done].
  - eapply cs_committed; [by rewrite held_local|by apply own_record_local|done].
Qed.

End Local.

Lemma prewrite_mut_local s s' st req m e ws :
  agree_on [kvrpcpb.m_Key m] s s' → prewrite_mut s st req m e ws → prewrite_mut s' st req m e ws.
Proof.
  intros Ha. destruct (Ha (kvrpcpb.m_Key m)) as [Hlock Hrec]; [set_solver|].
  intros [t w Hn Hle|l Hno Hl Hne|Hno Hl].
  - eapply pm_conflict; [by eapply newest_local|done].
  - apply pm_locked; [by eapply no_later_local|by rewrite -Hlock|done].
  - apply pm_ok; [by eapply no_later_local|by rewrite -Hlock].
Qed.

Lemma each_spec_local F G keys e done ws :
  (∀ k e ws, k ∈ keys → F k e ws → G k e ws) → each_spec F keys e done ws → each_spec G keys e done ws.
Proof.
  intros HFG. induction 1 as [|k keys e ws Hf|k keys ws e d ws' Hf _ IH]; constructor.
  - apply HFG; [by left|done].
  - apply HFG; [by left|done].
  - apply IH. intros k' ???. apply HFG. by right.
Qed.

Lemma resolve_spec_local F G keys e0 e ws :
  (∀ k e ws, k ∈ keys → F k e ws → G k e ws) → resolve_spec F keys e0 e ws → resolve_spec G keys e0 e ws.
Proof.
  intros HFG. induction 1 as [|k keys e0 e1 e2 ws ws' Hf _ IH]; [constructor|].
  eapply resolve_cons; [apply HFG; [by left|done]|]. apply IH. intros k' ???. apply HFG. by right.
Qed.

Lemma prewrite_muts_local s s' st req muts errs ws :
  agree_on (kvrpcpb.m_Key <$> muts) s s' →
  prewrite_muts s st req muts errs ws → prewrite_muts s' st req muts errs ws.
Proof.
  intros Ha Hms. induction Hms as [|m e ws muts errs ws' Hm _ IH]; [constructor|].
  rewrite fmap_cons in Ha. constructor.
  - eapply prewrite_mut_local; [|done]. intros k Hk. apply Ha. set_solver.
  - apply IH. intros k Hk. apply Ha. set_solver.
Qed.

Lemma cmd_effect_local s s' cmd resp ws :
  agree_on (cmd_keys cmd) s s' → cmd_effect s cmd resp ws → cmd_effect s' cmd resp ws.
Proof.
  intros Ha. destruct 1 as [r errs ws Hms|r e d ws Hs|r e d ws Hs|r resp ws Hc|r kls e ws Hle Hs|r kls e ws Hlt Hs];
    cbn in Ha.
  - apply ce_prewrite. by eapply prewrite_muts_local.
  - eapply ce_commit, each_spec_local; [|done]. intros k ?? [??]%Ha. by apply commit_key_local.
  - eapply ce_rollback, each_spec_local; [|done]. intros k ?? [??]%Ha. by apply rollback_key_local.
  - apply ce_check. destruct (Ha (kvrpcpb.PrimaryKey r)) as [??]; [set_solver|]. by eapply check_status_local.
  - apply ce_resolve_commit; [done|]. eapply resolve_spec_local; [|done].
    intros k ?? [??]%Ha. by apply commit_key_local.
  - apply ce_resolve_rollback; [done|]. eapply resolve_spec_local; [|done].
    intros k ?? [??]%Ha. by apply rollback_key_local.
Qed.

Lemma cmd_ok_local s s' cmd : agree_on (cmd_keys cmd) s s' → cmd_ok s cmd → cmd_ok s' cmd.
Proof.
  intros Ha [Hst Hok]. split; [done|].
  assert (Hts : ∀ k ts st, k ∈ cmd_keys cmd → is_u64 ts → ts_of_txn s k ts st → ts_of_txn s' k ts st).
  { intros k ts st [_ Hrec]%Ha Hts H w. rewrite -Hrec //. apply H. }
  destruct cmd as [?|?|?|?|?|?|? kls]; cbn in *; [done..| | | |].
  - destruct Hok as (? & ? & Hk). split_and!; auto.
  - auto.
  - apply Hts; [set_solver|done..].
  - destruct Hok as (? & Hk). split; [done|]. intros kl Hkl. destruct (Hk _ Hkl) as (? & ? & ?).
    assert (kl_Key kl ∈ map kl_Key kls) by (by apply list_elem_of_fmap_2). auto.
Qed.

(** The keys a command has not latched are left alone. *)
Lemma cmd_effect_frame s cmd resp ws keys :
  store_inv s → cmd_ok s cmd → cmd_effect s cmd resp ws → (∀ k, ¬ (k ∈ keys ∧ k ∈ cmd_keys cmd)) →
  agree_on keys s (apply_batch s ws).
Proof.
  intros Hinv Hok He Hdisj k Hk. assert (Hn : k ∉ cmd_keys cmd) by naive_solver.
  destruct (cmd_effect_settle _ _ _ _ Hinv Hok He) as [(r & errs & -> & Hms)|(ts & rk & Hb & Hso & Hkeys & _)].
  - destruct Hok as [Hst Hwf]. cbn in Hn.
    destruct (prewrite_muts_inv _ _ _ _ _ _ Hms Hst Hwf s Hinv ltac:(done)) as (_ & Hrec & _).
    destruct (prewrite_muts_other _ _ _ _ _ _ s k Hms Hst Hwf Hn) as [-> _].
    split; [done|]. intros t Ht. by rewrite Hrec.
  - split.
    + rewrite (settle_lock_old Hb) //. intros kind Hr. by destruct Hn; eapply Hkeys.
    + intros t Ht. rewrite (settle_rec_old Hb Hso) //. intros _ kind Hr. by destruct Hn; eapply Hkeys.
Qed.

#[export] Instance agree_on_proper keys : Proper (eq ==> same_cfs ==> iff) (agree_on keys).
Proof.
  intros s _ <- s1 s2 H. split; intros Ha k Hk; destruct (Ha k Hk) as [Hl Hr];
    (split; [by rewrite Hl H|intros t Ht; by rewrite Hr // H]).
Qed.

(** ** The system *)

Section System.
Context {St R I : Type} `{!StorageReader R I, !Storage St R, !ReaderLaws R I, !StorageLaws St R I}.

(** Where a thread is in the second part of [RunCommand]. *)
Inductive txn_thread :=
| TWant (cmd : Command)                                        (* about to try the latches *)
| TWait (cmd : Command) (wg : nat)                             (* parked on a wait group *)
| THold (cmd : Command)                                        (* has the latches *)
| TPrepared (cmd : Command) (resp : option Response) (ws : list Modify)
| TWritten (cmd : Command) (resp : option Response)            (* the batch is written *)
| TDone (resp : option Response).                              (* the latches are released *)

Record csystem := mkCSystem { cstore : St; clatches : Latches; cthreads : gmap nat txn_thread }.

Inductive cstep : csystem → csystem → Prop :=
| cs_arrive st l ths tid cmd :
    ths !! tid = None →
    cstep (mkCSystem st l ths) (mkCSystem st l (<[tid := TWant cmd]> ths))
| cs_acquire st l l' ths tid cmd :
    ths !! tid = Some (TWant cmd) → AcquireLatches l (cmd_keys cmd) = (l', None) →
    cstep (mkCSystem st l ths) (mkCSystem st l' (<[tid := THold cmd]> ths))
| cs_blocked st l l' ths tid cmd wg :
    ths !! tid = Some (TWant cmd) → AcquireLatches l (cmd_keys cmd) = (l', Some wg) →
    cstep (mkCSystem st l ths) (mkCSystem st l' (<[tid := TWait cmd wg]> ths))
| cs_wake st l ths tid cmd wg :
    ths !! tid = Some (TWait cmd wg) → wgs l !! wg = Some 0 →
    cstep (mkCSystem st l ths) (mkCSystem st l (<[tid := TWant cmd]> ths))
| cs_prepare st l ths tid cmd r resp txn :
    ths !! tid = Some (THold cmd) → cmd_ok (contents st) cmd →
    Reader st (cmd_Context cmd) = Ok r →
    PrepareWrites cmd (NewTxn r (StartTs cmd)) = Ok (resp, txn) →
    cstep (mkCSystem st l ths) (mkCSystem st l (<[tid := TPrepared cmd resp (Writes txn)]> ths))
| cs_write st st' l ths tid cmd resp ws :
    ths !! tid = Some (TPrepared cmd resp ws) →
    Storage.Write st (cmd_Context cmd) ws = (st', None) →
    cstep (mkCSystem st l ths) (mkCSystem st' l (<[tid := TWritten cmd resp]> ths))
| cs_release st l l' ths tid cmd resp :
    ths !! tid = Some (TWritten cmd resp) → ReleaseLatches l (cmd_keys cmd) = Ok l' →
    cstep (mkCSystem st l ths) (mkCSystem st l' (<[tid := TDone resp]> ths)).

Definition creachable (st0 : St) : csystem → Prop := rtc cstep (mkCSystem st0 NewLatches ∅).

(** What the latches see of a thread. *)
Definition latch_view (t : txn_thread) : thread :=
  match t with
  | TWant cmd => Wanting (cmd_keys cmd)
  | TWait cmd wg => Waiting (cmd_keys cmd) wg
  | THold cmd | TPrepared cmd _ _ | TWritten cmd _ => Holding (cmd_keys cmd)
  | TDone _ => Finished
  end.

Definition latch_system (c : csystem) : system := mkSystem (clatches c) (latch_view <$> cthreads c).

Lemma cstep_latch c c' : cstep c c' → step (latch_system c) (latch_system c') ∨ latch_system c' = latch_system c.
Proof.
  unfold latch_system. destruct 1 as [st l ths tid cmd Ht|st l l' ths tid cmd Ht Ha|st l l' ths tid cmd wg Ht Ha
    |st l ths tid cmd wg Ht Hw|st l ths tid cmd r resp txn Ht _ _ _|st st' l ths tid cmd resp ws Ht _
    |st l l' ths tid cmd resp Ht Hr]; cbn; rewrite fmap_insert.
  - left. apply step_arrive. by rewrite lookup_fmap Ht.
  - left. apply step_acquire; [by rewrite lookup_fmap Ht|done].
  - left. eapply step_blocked; [by rewrite lookup_fmap Ht|done].
  - left. eapply step_wake; [by rewrite lookup_fmap Ht|done].
  - right. f_equal. apply insert_id. by rewrite lookup_fmap Ht.
  - right. f_equal. apply insert_id. by rewrite lookup_fmap Ht.
  - left. eapply step_release; [by rewrite lookup_fmap Ht|done].
Qed.

Lemma creachable_latch st0 c : creachable st0 c → reachable (latch_system c).
Proof.
  intros Hr. eapply (rtc_ind_r (λ c, reachable (latch_system c)) (mkCSystem st0 NewLatches ∅)); [| |exact Hr].
  - unfold latch_system, reachable. cbn. rewrite fmap_empty. apply rtc_refl.
  - intros c1 c2 _ Hs IH. destruct (cstep_latch _ _ Hs) as [Hl|E]; [by eapply rtc_r|by rewrite E].
Qed.

Definition cinv (c : csystem) : Prop :=
  store_inv (contents (cstore c)) ∧
  ∀ tid cmd resp ws, cthreads c !! tid = Some (TPrepared cmd resp ws) →
    cmd_ok (contents (cstore c)) cmd ∧
    ∃ r, resp = Some r ∧ cmd_effect (contents (cstore c)) cmd r ws.

(** A step that leaves the store alone and prepares nothing. *)
Lemma cinv_thread st l l' ths tid t :
  cinv (mkCSystem st l ths) → (∀ cmd resp ws, t ≠ TPrepared cmd resp ws) →
  cinv (mkCSystem st l' (<[tid := t]> ths)).
Proof.
  intros [Hinv Hp] Ht. split; [done|]. cbn in *. intros tid' cmd resp ws.
  rewrite lookup_insert. destruct (decide (tid = tid')); [|by apply Hp]. intros [= E]. by destruct (Ht _ _ _ E).
Qed.

Lemma cinv_prepare st l ths tid cmd r resp txn :
  cinv (mkCSystem st l ths) → cmd_ok (contents st) cmd → Reader st (cmd_Context cmd) = Ok r →
  PrepareWrites cmd (NewTxn r (StartTs cmd)) = Ok (resp, txn) →
  cinv (mkCSystem st l (<[tid := TPrepared cmd resp (Writes txn)]> ths)).
Proof.
  intros [Hinv Hp] Hok Er E. split; [done|]. cbn in *. intros tid' cmd' resp' ws'.
  rewrite lookup_insert. destruct (decide (tid = tid')); [|by apply Hp]. intros [= <- <- <-]. split; [done|].
  destruct (reader_law st (cmd_Context cmd)) as (r' & Er' & Hv). rewrite Er in Er'. injection Er' as <-.
  rewrite -Hv in Hinv, Hok |- *. destruct (PrepareWrites_effect cmd r Hinv Hok) as (re & ws & He & E2).
  rewrite E in E2. injection E2 as -> ->. by exists re.
Qed.

Lemma cinv_write st st' l ths tid cmd resp ws :
  reachable (latch_system (mkCSystem st l ths)) → cinv (mkCSystem st l ths) →
  ths !! tid = Some (TPrepared cmd resp ws) → Storage.Write st (cmd_Context cmd) ws = (st', None) →
  cinv (mkCSystem st' l (<[tid := TWritten cmd resp]> ths)).
Proof.
  intros Hl [Hinv Hp] Ht E. cbn in *. destruct (Hp _ _ _ _ Ht) as (Hok & re & -> & He).
  destruct (cmd_effect_inv _ _ _ _ Hinv Hok He) as [Hinv' Htm].
  assert (Hcf : Forall (λ m, Modify_Cf m ∈ CFs) ws) by (eapply Forall_impl; [exact Htm|apply txn_modify_Cf]).
  pose proof (proj2 (write_law st (cmd_Context cmd) ws Hcf) : same_cfs _ _) as Hs. rewrite E in Hs. cbn in Hs.
  split; cbn; [by rewrite Hs|]. intros tid' cmd' resp' ws'. rewrite lookup_insert.
  destruct (decide (tid = tid')) as [|Hne]; [done|]. intros Ht'.
  destruct (Hp _ _ _ _ Ht') as (Hok' & re' & -> & He').
  assert (Ha : agree_on (cmd_keys cmd') (contents st) (contents st')).
  { rewrite Hs. apply (cmd_effect_frame _ cmd re ws _ Hinv Hok He). intros k [??].
    eapply (holders_disjoint _ tid tid' (cmd_keys cmd) (cmd_keys cmd') Hl Hne); cbn; [| |by split];
      by rewrite lookup_fmap ?Ht ?Ht'. }
  split; [by eapply cmd_ok_local|]. exists re'. split; [done|]. by eapply cmd_effect_local.
Qed.

Lemma cinv_step c c' : reachable (latch_system c) → cinv c → cstep c c' → cinv c'.
Proof.
  intros Hl Hc Hs. destruct Hs; try (by eapply cinv_thread).
  - by eapply cinv_prepare.
  - by eapply cinv_write.
Qed.

Lemma cinv_reachable st0 c : store_inv (contents st0) → creachable st0 c → cinv c.
Proof.
  intros Hinv. apply (rtc_ind_r cinv (mkCSystem st0 NewLatches ∅)).
  - split; [done|]. cbn. intros *. by rewrite lookup_empty.
  - intros c1 c2 Hr Hs Hc. eapply cinv_step; [|done..]. by eapply creachable_latch.
Qed.

(** C10: Concurrent commands.  However the steps of any number of commands
    interleave, the store satisfies the protocol invariant in every reachable
    state, and a command that has prepared its writes, on a snapshot that may
    be old by now, has prepared exactly what it would prepare on the current
    store: its write takes effect as if the command ran at that moment. *)
Theorem concurrent_commands (st0 : St) c :
  store_inv (contents st0) → creachable st0 c →
  store_inv (contents (cstore c)) ∧
  ∀ tid cmd resp ws, cthreads c !! tid = Some (TPrepared cmd resp ws) →
    cmd_ok (contents (cstore c)) cmd ∧
    ∃ r, resp = Some r ∧ cmd_effect (contents (cstore c)) cmd r ws.
Proof. intros Hinv Hr. by eapply cinv_reachable. Qed.
End System.

(** The example transaction on the in-memory store, its prewrite prepared but
    not yet written. *)
Definition ex_latched : Latches := (AcquireLatches NewLatches [ex_a; ex_b]).1.
Definition ex_writes : list Modify := [ex_put; ex_del] ≫= prewrite_writes ex_prewrite 10.
Definition ex_csystem : csystem (St:=map_store) :=
  mkCSystem ex_store0 ex_latched
    (<[0%nat := TPrepared (Prewrite ex_prewrite)
         (Some (PrewriteResp (kvrpcpb.mkPrewriteResponse None []))) ex_writes]>
       (<[0%nat := THold (Prewrite ex_prewrite)]> (<[0%nat := TWant (Prewrite ex_prewrite)]> ∅))).

Lemma ex_creachable : creachable ex_store0 ex_csystem.
Proof.
  unfold creachable, ex_csystem.
  eapply rtc_l; [apply (cs_arrive _ _ _ 0 (Prewrite ex_prewrite)); reflexivity|].
  eapply rtc_l; [apply (cs_acquire _ _ ex_latched _ 0 (Prewrite ex_prewrite)); vm_compute; reflexivity|].
  eapply rtc_l; [|apply rtc_refl].
  apply (cs_prepare _ _ _ 0 (Prewrite ex_prewrite) ex_store0 _ (mkMvccTxn (mkRoTxn ex_store0 10) ex_writes)).
  - reflexivity.
  - exact ex_prewrite_ok.
  - reflexivity.
  - vm_compute. reflexivity.
Qed.

Lemma concurrent_commands_witness : store_inv (contents (cstore ex_csystem)).
Proof. apply (concurrent_commands ex_store0 ex_csystem); [exact ex_inv0|exact ex_creachable]. Defined.
