(* ===== verification/Server.v ===== *)
(** The TinyKV server: kv/server/server.go.

    The transactional handlers build a command, run it, and turn a region error
    into the response's field; the raw handlers talk to the storage directly.
    The streams of the raft and snapshot services and the coprocessor are not
    modelled. *)

From S2P Require Import Prelude Codec Pb Storage Mvcc MvccSpec Latches Commands TxnSpec TxnInv TxnProps.

(** ** Errors *)

(** [regionError]: a region error becomes the response [resp] builds from it;
    every response of the service has the field, and its value is a valid
    (possibly nil) pointer, so the two reflection guards do not fire. *)
Definition regionError {A} (err : go_error) (resp : option errorpb.Error → A) : outcome go_error A :=
  match err with
  | RegionError requestErr => Ok (resp requestErr)
  | _ => Err err
  end.

(** [rawRegionError]: what it stores in the fields RegionError and Error. *)
Definition rawRegionError (err : go_error) : option errorpb.Error * text :=
  match err with
  | RegionError requestErr => (requestErr, no_text)
  | _ => (None, Error_text err)
  end.

Section Server.
Context {St R I : Type} `{!StorageReader R I, !Storage St R}.

Record Server := mkServer { storage : St; sv_Latches : Latches }.
Definition NewServer (st : St) : Server := mkServer st NewLatches.

(** A handler answers and leaves the server, or waits for a latch. *)
Inductive served (A : Type) :=
| Waits (wg : nat)
| Serves (result : outcome go_error A) (server : Server).
Arguments Waits {A}.
Arguments Serves {A}.

Definition Run (fuel : positive) (server : Server) (cmd : Command) : run St :=
  RunCommand fuel cmd (storage server) (sv_Latches server).

(** The common shape of the transactional handlers: run the command, handle an
    error, and assert the type of the response. *)
Definition handle {A} (empty : option errorpb.Error → A) (cast : Response → option A) (r : run St) : served A :=
  match r with
  | Blocked wg => Waits wg
  | Ran (Ok (Some resp)) st l =>
    Serves match cast resp with Some a => Ok a | None => Panic "interface conversion" end (mkServer st l)
  | Ran (Ok None) st l => Serves (Panic "interface conversion: interface is nil") (mkServer st l)
  | Ran (Err err) st l => Serves (regionError err empty) (mkServer st l)
  | Ran (Panic w) st l => Serves (Panic w) (mkServer st l)
  | Ran OutOfFuel st l => Serves OutOfFuel (mkServer st l)
  end.

Definition KvGet (fuel : positive) (server : Server) (req : kvrpcpb.GetRequest) : served kvrpcpb.GetResponse :=
  handle (λ e, kvrpcpb.mkGetResponse e None None false)
    (λ r, match r with GetResp x => Some x | _ => None end) (Run fuel server (Get req)).

Definition KvScan (fuel : positive) (server : Server) (req : kvrpcpb.ScanRequest) : served kvrpcpb.ScanResponse :=
  handle (λ e, kvrpcpb.mkScanResponse e [])
    (λ r, match r with ScanResp x => Some x | _ => None end) (Run fuel server (Scan req)).

Definition KvPrewrite (fuel : positive) (server : Server) (req : kvrpcpb.PrewriteRequest)
  : served kvrpcpb.PrewriteResponse :=
  handle (λ e, kvrpcpb.mkPrewriteResponse e [])
    (λ r, match r with PrewriteResp x => Some x | _ => None end) (Run fuel server (Prewrite req)).

Definition KvCommit (fuel : positive) (server : Server) (req : kvrpcpb.CommitRequest)
  : served kvrpcpb.CommitResponse :=
  handle (λ e, kvrpcpb.mkCommitResponse e None)
    (λ r, match r with CommitResp x => Some x | _ => None end) (Run fuel server (Commit req)).

Definition KvCheckTxnStatus (fuel : positive) (server : Server) (req : kvrpcpb.CheckTxnStatusRequest)
  : served kvrpcpb.CheckTxnStatusResponse :=
  handle (λ e, kvrpcpb.mkCheckTxnStatusResponse e 0 0 kvrpcpb.NoAction)
    (λ r, match r with CheckTxnStatusResp x => Some x | _ => None end) (Run fuel server (CheckTxnStatus req)).

Definition KvBatchRollback (fuel : positive) (server : Server) (req : kvrpcpb.BatchRollbackRequest)
  : served kvrpcpb.BatchRollbackResponse :=
  handle (λ e, kvrpcpb.mkBatchRollbackResponse e None)
    (λ r, match r with RollbackResp x => Some x | _ => None end) (Run fuel server (Rollback req)).

Definition KvResolveLock (fuel : positive) (server : Server) (req : kvrpcpb.ResolveLockRequest)
  : served kvrpcpb.ResolveLockResponse :=
  handle (λ e, kvrpcpb.mkResolveLockResponse e None)
    (λ r, match r with ResolveLockResp x => Some x | _ => None end) (Run fuel server (ResolveLock req [])).

(** ** Raw API *)

(** A panic in the storage is the handler's panic. *)
Definition or_err {A B} (c : outcome go_error A) (err : go_error → B) (ok : A → outcome go_error B)
  : outcome go_error B :=
  match c with
  | Ok a => ok a
  | Err e => Ok (err e)
  | Panic w => Panic w
  | OutOfFuel => OutOfFuel
  end.

Definition RawGet (server : Server) (req : kvrpcpb.RawGetRequest) : outcome go_error kvrpcpb.RawGetResponse :=
  let failed err := let '(re, e) := rawRegionError err in kvrpcpb.mkRawGetResponse re e None false in
  or_err (Reader (storage server) (kvrpcpb.rg_Context req)) failed (λ reader,
  or_err (GetCF reader (kvrpcpb.rg_Cf req) (kvrpcpb.rg_Key req)) failed (λ val,
  match val with
  | None => Ok (kvrpcpb.mkRawGetResponse None no_text None true)
  | Some val => Ok (kvrpcpb.mkRawGetResponse None no_text (Some val) false)
  end)).

Definition RawPut (server : Server) (req : kvrpcpb.RawPutRequest) : kvrpcpb.RawPutResponse * Server :=
  let '(st, err) := Storage.Write (storage server) (kvrpcpb.rp_Context req)
    [Put (kvrpcpb.rp_Key req) (kvrpcpb.rp_Value req) (kvrpcpb.rp_Cf req)] in
  let '(re, e) := match err with Some err => rawRegionError err | None => (None, no_text) end in
  (kvrpcpb.mkRawPutResponse re e, mkServer st (sv_Latches server)).

Definition RawDelete (server : Server) (req : kvrpcpb.RawDeleteRequest) : kvrpcpb.RawDeleteResponse * Server :=
  let '(st, err) := Storage.Write (storage server) (kvrpcpb.rd_Context req)
    [Delete (kvrpcpb.rd_Key req) (kvrpcpb.rd_Cf req)] in
  let '(re, e) := match err with Some err => rawRegionError err | None => (None, no_text) end in
  (kvrpcpb.mkRawDeleteResponse re e, mkServer st (sv_Latches server)).

(** One round of the loop of [RawScan]. *)
Definition RawScan_round (limit : Z) (st : I * list kvrpcpb.KvPair)
  : (I * list kvrpcpb.KvPair) + outcome go_error kvrpcpb.RawScanResponse :=
  let '(it, kvs) := st in
  if negb (Valid it && bool_decide (zlen kvs < limit)) then inr (Ok (kvrpcpb.mkRawScanResponse None no_text kvs))
  else
    match ItemValue it with
    | Ok value => inl (Next it, kvs ++ [kvrpcpb.mkKvPair None (ItemKey it) value])
    | Err err => let '(re, e) := rawRegionError err in inr (Ok (kvrpcpb.mkRawScanResponse re e kvs))
    | Panic w => inr (Panic w)
    | OutOfFuel => inr OutOfFuel
    end.

(** The loop adds a pair per round, so it ends after at most [Limit] of them. *)
Definition RawScan (server : Server) (req : kvrpcpb.RawScanRequest) : outcome go_error kvrpcpb.RawScanResponse :=
  or_err (Reader (storage server) (kvrpcpb.rs_Context req))
    (λ err, let '(re, e) := rawRegionError err in kvrpcpb.mkRawScanResponse re e []) (λ reader,
  with_iter reader (kvrpcpb.rs_Cf req) (λ it,
    it ← Seek it (kvrpcpb.rs_StartKey req);
    go_loop (Z.to_pos (kvrpcpb.rs_Limit req + 1)) (RawScan_round (kvrpcpb.rs_Limit req)) (it, []))).
End Server.
Arguments Server : clear implicits.
Arguments served : clear implicits.
Arguments Waits {_ _}.
Arguments Serves {_ _}.

(** ** Properties *)

Section Raw.
Context {St R I : Type} `{!StorageReader R I, !Storage St R, !ReaderLaws R I, !StorageLaws St R I}.

Definition raw_pair (p : bytes * option bytes) : kvrpcpb.KvPair := kvrpcpb.mkKvPair None p.1 p.2.

(** [p] is what a scan of [m] from [start] returns when it stops at [o]. *)
Record scanned (m : cfmap) (start : bytes) (p : list (bytes * option bytes)) (o : option (bytes * option bytes)) : Prop := {
  sc_sorted : StronglySorted (λ a b, blt a.1 b.1) p;
  sc_sound k v : (k, v) ∈ p → m !! k = Some v ∧ ble start k;
  sc_pos k v : o = Some (k, v) → m !! k = Some v ∧ ble start k ∧ ∀ q, q ∈ p → blt q.1 k;
  sc_rest k v : m !! k = Some v → ble start k → (k, v) ∈ p ∨ ∃ k0 v0, o = Some (k0, v0) ∧ ble k0 k
}.

Lemma sorted_snoc (p : list (bytes * option bytes)) q :
  StronglySorted (λ a b, blt a.1 b.1) p → (∀ x, x ∈ p → blt x.1 q.1) →
  StronglySorted (λ a b, blt a.1 b.1) (p ++ [q]).
Proof.
  induction 1 as [|x p Hs IH Hall]; intros Hq; cbn; [by repeat constructor|]. constructor.
  - apply IH. intros y Hy. apply Hq. by right.
  - apply Forall_app. split; [done|]. apply Forall_singleton. apply Hq. by left.
Qed.

Lemma scanned_next m start p k v o :
  scanned m start p (Some (k, v)) → least m (blt k) o → scanned m start (p ++ [(k, v)]) o.
Proof.
  intros [Hs Hin Hpos Hrest] Hl. destruct (Hpos _ _ eq_refl) as (Hk & Hst & Hlt). split.
  - by apply sorted_snoc.
  - intros k' v' [?|E%list_elem_of_singleton]%elem_of_app; [by apply Hin|]. by injection E as -> ->.
  - intros k' v' ->. destruct Hl as (Hk' & Hlt' & _). split_and!; [done|by eapply ble_trans, blt_ble|].
    intros q [Hq| ->%list_elem_of_singleton]%elem_of_app; [|done]. eapply blt_trans; [by apply Hlt|done].
  - intros k' v' Hk' Hst'. rewrite elem_of_app list_elem_of_singleton.
    destruct (Hrest _ _ Hk' Hst') as [?|(k0 & v0 & [= <- <-] & Hle)]; [by left; left|].
    apply ble_lteq in Hle as [Hlt'|<-]; [|left; right; congruence].
    right. destruct o as [[k1 v1]|]; cbn in Hl; [|by destruct (Hl _ _ Hk')].
    exists k1, v1. split; [done|]. by eapply Hl.
Qed.

Lemma RawScan_scanned server req r it :
  0 ≤ kvrpcpb.rs_Limit req → kvrpcpb.rs_Cf req ∈ CFs →
  Reader (storage server) (kvrpcpb.rs_Context req) = Ok r → IterCF r (kvrpcpb.rs_Cf req) = Some it →
  iter_ok it → src it = view r (kvrpcpb.rs_Cf req) →
  ∃ p o, RawScan server req = Ok (kvrpcpb.mkRawScanResponse None no_text (map raw_pair p)) ∧
    zlen p ≤ kvrpcpb.rs_Limit req ∧ (o = None ∨ zlen p = kvrpcpb.rs_Limit req) ∧
    scanned (view r (kvrpcpb.rs_Cf req)) (kvrpcpb.rs_StartKey req) p o.
Proof.
  intros Hlim Hcf Er Ei Hok Hsrc. set (m := view r (kvrpcpb.rs_Cf req)) in *. set (lim := kvrpcpb.rs_Limit req) in *.
  unfold RawScan, or_err, with_iter. rewrite Er Ei.
  destruct (seek_law it (kvrpcpb.rs_StartKey req) Hok) as (it' & -> & Hok' & Hsrc' & Hl). cbn. rewrite Hsrc in Hl, Hsrc'.
  apply (go_loop_rule
    (λ x, ∃ p, x.2 = map raw_pair p ∧ zlen p ≤ lim ∧ iter_ok x.1 ∧ src x.1 = m ∧
          scanned m (kvrpcpb.rs_StartKey req) p (pos x.1))
    (λ x, lim - zlen x.2) _
    (λ res, ∃ p o, res = Ok (kvrpcpb.mkRawScanResponse None no_text (map raw_pair p)) ∧
       zlen p ≤ lim ∧ (o = None ∨ zlen p = lim) ∧ scanned m (kvrpcpb.rs_StartKey req) p o)).
  - clear dependent it it'. intros [it kvs] (p & Hkvs & Hlen & Hok & Hsrc & Hsc). cbn in *. subst kvs.
    assert (Hzl : zlen (map raw_pair p) = zlen p) by (unfold zlen; by rewrite length_map).
    rewrite Hzl. split; [lia|]. rewrite valid_law //.
    destruct (pos it) as [[k v]|] eqn:Hp; cbn; [|exists p, None; split_and!; [done..|by left|done]].
    case_bool_decide as Hlt; cbn; [|exists p, (Some (k, v)); split_and!; [done..| |done]; right; lia].
    rewrite (value_law _ _ _ Hok Hp) (key_law _ _ _ Hok Hp).
    destruct (next_law it _ _ Hok Hp) as (Hok' & Hsrc' & Hl). rewrite Hsrc in Hl. split.
    + exists (p ++ [(k, v)]). rewrite map_app. split_and!; [done| |done|by rewrite -Hsrc -Hsrc'|by apply scanned_next].
      unfold zlen in *. rewrite length_app /=. lia.
    + unfold zlen in *. rewrite length_app length_map /=. lia.
  - exists []. cbn. split_and!; [done|unfold zlen; cbn; lia|done|done|]. split; [constructor|set_solver| |].
    + intros k v E. rewrite E in Hl. destruct Hl as (? & ? & _). split_and!; [done..|]. set_solver.
    + intros k v Hk Hst. right. destruct (pos it') as [[k0 v0]|]; cbn in Hl; [|by destruct (Hl _ _ Hk)].
      exists k0, v0. split; [done|]. by eapply Hl.
  - unfold zlen. cbn. rewrite Z2Pos.id; lia.
Qed.

(** A raw scan returns, in strictly ascending key order and with their
    stored values, the keys of the column family from the start key on: all of
    them, or the first [Limit] of them when there are more. *)
Theorem RawScan_spec (server : Server St) req :
  let m := contents (storage server) (kvrpcpb.rs_Cf req) in
  0 ≤ kvrpcpb.rs_Limit req → kvrpcpb.rs_Cf req ∈ CFs →
  ∃ p, RawScan server req = Ok (kvrpcpb.mkRawScanResponse None no_text (map raw_pair p)) ∧
    zlen p ≤ kvrpcpb.rs_Limit req ∧ StronglySorted (λ a b, blt a.1 b.1) p ∧
    (∀ k v, (k, v) ∈ p → m !! k = Some v ∧ ble (kvrpcpb.rs_StartKey req) k) ∧
    (∀ k v, m !! k = Some v → ble (kvrpcpb.rs_StartKey req) k →
      (k, v) ∈ p ∨ (zlen p = kvrpcpb.rs_Limit req ∧ ∀ q, q ∈ p → blt q.1 k)).
Proof.
  intros m Hlim Hcf. destruct (reader_law (storage server) (kvrpcpb.rs_Context req)) as (r & Er & Hv).
  destruct (iter_law r _ Hcf) as (it & Ei & Hok & Hsrc).
  destruct (RawScan_scanned server req r it Hlim Hcf Er Ei Hok Hsrc) as (p & o & E & Hlen & Hor & Hsc).
  rewrite Hv in Hsc. exists p. split_and!; [done|done|apply Hsc|apply (sc_sound _ _ _ _ Hsc)|].
  intros k v Hk Hst. destruct (sc_rest _ _ _ _ Hsc _ _ Hk Hst) as [?|(k0 & v0 & -> & Hle)]; [by left|right].
  destruct Hor as [|Hz]; [done|]. split; [done|]. intros q Hq. eapply blt_ble_trans; [|done].
  by apply (sc_pos _ _ _ _ Hsc _ _ eq_refl).
Qed.

(** The raw API is a key-value map per column family: after a put the key
    reads back the value, after a delete it is not found, and other keys and
    column families read as before. *)
Theorem Raw_put_get_delete (server : Server St) ctx cf k v :
  cf ∈ CFs →
  let get s cf' k' := RawGet s (kvrpcpb.mkRawGetRequest ctx k' cf') in
  let put := (RawPut server (kvrpcpb.mkRawPutRequest ctx k v cf)).2 in
  let del := (RawDelete server (kvrpcpb.mkRawDeleteRequest ctx k cf)).2 in
  get put cf k = Ok (kvrpcpb.mkRawGetResponse None no_text v (bool_decide (v = None))) ∧
  get del cf k = Ok (kvrpcpb.mkRawGetResponse None no_text None true) ∧
  (∀ cf' k', cf' ∈ CFs → (cf', k') ≠ (cf, k) → get put cf' k' = get server cf' k' ∧ get del cf' k' = get server cf' k').
Proof.
  intros Hcf get put del.
  assert (Hget : ∀ s cf' k', cf' ∈ CFs → get s cf' k' = Ok
    (let o := mjoin (contents (storage s) cf' !! k') in
     kvrpcpb.mkRawGetResponse None no_text o (bool_decide (o = None)))).
  { intros s cf' k' Hcf'. unfold get, RawGet, or_err. cbn. destruct (reader_law (storage s) ctx) as (r & -> & Hv).
    rewrite (get_law r _ _ Hcf') Hv. by destruct (mjoin _). }
  assert (Hw : ∀ m, Modify_Cf m ∈ CFs → same_cfs (contents (Storage.Write (storage server) ctx [m]).1)
    (apply_modify (contents (storage server)) m)).
  { intros m Hm. destruct (write_law (storage server) ctx [m]) as [_ Hs]; [by apply Forall_singleton|exact Hs]. }
  assert (Hp : same_cfs (contents (storage put)) (apply_modify (contents (storage server)) (Put k v cf))).
  { etransitivity; [|by apply Hw]. unfold put, RawPut. cbn. destruct (Storage.Write _ _ _) as [? [[]|]]; reflexivity. }
  assert (Hd : same_cfs (contents (storage del)) (apply_modify (contents (storage server)) (Delete k cf))).
  { etransitivity; [|by apply Hw]. unfold del, RawDelete. cbn. destruct (Storage.Write _ _ _) as [? [[]|]]; reflexivity. }
  split_and!.
  - rewrite Hget // Hp // apply_modify_lookup. by case_decide as Ht; [|destruct Ht].
  - rewrite Hget // Hd // apply_modify_lookup. by case_decide as Ht; [|destruct Ht].
  - intros cf' k' Hcf' Hne. rewrite !Hget // Hp // Hd // !apply_modify_lookup.
    split; (case_decide as Ht; [destruct Ht; cbn in *; congruence|done]).
Qed.
End Raw.

Definition ex_server : Server map_store := mkServer ex_store2 NewLatches.
Definition ex_rawscan : kvrpcpb.RawScanRequest := kvrpcpb.mkRawScanRequest ex_ctx [] 10 CfWrite.

Lemma RawScan_spec_witness :
  ∃ p, RawScan ex_server ex_rawscan = Ok (kvrpcpb.mkRawScanResponse None no_text (map raw_pair p)) ∧ zlen p ≤ 10.
Proof.
  destruct (RawScan_spec ex_server ex_rawscan) as (p & E & Hlen & _); [done|exact CfWrite_CFs|].
  exists p. split; [exact E|exact Hlen].
Defined.

Lemma Raw_put_get_delete_witness :
  RawGet (RawPut ex_server (kvrpcpb.mkRawPutRequest ex_ctx ex_a ex_value CfDefault)).2
    (kvrpcpb.mkRawGetRequest ex_ctx ex_a CfDefault) = Ok (kvrpcpb.mkRawGetResponse None no_text ex_value false).
Proof. apply (Raw_put_get_delete ex_server ex_ctx CfDefault ex_a ex_value CfDefault_CFs). Defined.

(** ** Two defects *)

Definition answer {St A} (s : served St A) : option (outcome go_error A) :=
  match s with Serves r _ => Some r | Waits _ => None end.

(** A commit or rollback request without keys crashes its handler.  The keys
    of such a request are nil, which [RunCommand] takes for a read-only
    command: the command's [Read] returns no response, and the handler's type
    assertion on the nil response panics. *)
Theorem nil_keys_panic {St R I} `{!StorageReader R I, !Storage St R, !ReaderLaws R I, !StorageLaws St R I}
    fuel (server : Server St) ctx start cts :
  answer (KvCommit fuel server (kvrpcpb.mkCommitRequest ctx start None cts)) =
    Some (Panic "interface conversion: interface is nil") ∧
  answer (KvBatchRollback fuel server (kvrpcpb.mkBatchRollbackRequest ctx start None)) =
    Some (Panic "interface conversion: interface is nil").
Proof.
  unfold KvCommit, KvBatchRollback, Run, RunCommand, Run_read. cbn.
  destruct (reader_law (storage server) ctx) as (r & -> & _). by split.
Qed.

(** A second version of the first key of the example. *)
Definition ex_value2 : option bytes := Some [x77%byte].
Definition ex_store3 : map_store :=
  (Run_write (Prewrite (kvrpcpb.mkPrewriteRequest ex_ctx
    [kvrpcpb.mkMutation kvrpcpb.Op_Put ex_a ex_value2] ex_a 30 100)) ex_store2).2.
Definition ex_store4 : map_store :=
  (Run_write (Commit (kvrpcpb.mkCommitRequest ex_ctx 30 (Some [ex_a]) 40)) ex_store3).2.

(** A scan returns a key once per visible version.  After reporting a key the
    scanner moves to the next entry of the write column family, which is the
    key's previous version: with the values committed at 20 and 40, a scan at
    50 returns the key twice, first with the new value and then with the old
    one, while a point read at 50 returns the new one. *)
Theorem scan_repeats_key :
  answer (KvScan 10 (mkServer ex_store4 NewLatches) (kvrpcpb.mkScanRequest ex_ctx ex_a 10 50)) =
    Some (Ok (kvrpcpb.mkScanResponse None
      [kvrpcpb.mkKvPair None ex_a ex_value2; kvrpcpb.mkKvPair None ex_a ex_value])) ∧
  answer (KvGet 10 (mkServer ex_store4 NewLatches) (kvrpcpb.mkGetRequest ex_ctx ex_a 50)) =
    Some (Ok (kvrpcpb.mkGetResponse None None ex_value2 false)).
Proof. split; vm_compute; reflexivity. Qed.
