(* ===== verification/RaftPb.v ===== *)
(** The messages of the raft library (tinykv/proto/proto/eraftpb.proto) and its
    error values.  A pointer field is an [option]. *)

From S2P Require Import Prelude.

Inductive EntryType := EntryNormal | EntryConfChange.
#[export] Instance EntryType_eq_dec : EqDecision EntryType.
Proof. solve_decision. Defined.

Module eraftpb.
Record Entry := mkEntry { e_Type : EntryType; e_Term : Z; e_Index : Z; e_Data : option bytes }.
Record ConfState := mkConfState { Nodes : list Z }.
Record SnapshotMetadata := mkSnapshotMetadata { md_ConfState : option ConfState; md_Index : Z; md_Term : Z }.
Record Snapshot := mkSnapshot { sp_Data : option bytes; sp_Metadata : option SnapshotMetadata }.
Record HardState := mkHardState { hs_Term : Z; hs_Vote : Z; hs_Commit : Z }.

Inductive MessageType :=
| MsgHup | MsgBeat | MsgPropose | MsgAppend | MsgAppendResponse | MsgRequestVote | MsgRequestVoteResponse
| MsgSnapshot | MsgHeartbeat | MsgHeartbeatResponse | MsgTransferLeader | MsgTimeoutNow.

Record Message := mkMessage {
  MsgType : MessageType;
  To : Z;
  From : Z;
  m_Term : Z;
  LogTerm : Z;
  m_Index : Z;
  m_Entries : list Entry;
  m_Commit : Z;
  m_Snapshot : option Snapshot;
  Reject : bool;
  RejectHint : Z
}.

Inductive ConfChangeType := AddNode | RemoveNode.
Record ConfChange := mkConfChange { ChangeType : ConfChangeType; NodeId : Z; cc_Context : option bytes }.
End eraftpb.
Export eraftpb.

#[export] Instance Entry_eq_dec : EqDecision Entry.
Proof. solve_decision. Defined.
#[export] Instance MessageType_eq_dec : EqDecision MessageType.
Proof. solve_decision. Defined.
#[export] Instance HardState_eq_dec : EqDecision HardState.
Proof. solve_decision. Defined.

(** The zero message: the fields a composite literal leaves out. *)
Definition zero_msg (t : MessageType) : Message := mkMessage t 0 0 0 0 0 [] 0 None false 0.

Definition empty_snap : Snapshot := mkSnapshot None None.
Definition empty_hs : HardState := mkHardState 0 0 0.

(** The error values of package raft. *)
Inductive raft_error :=
| ErrCompacted
| ErrSnapOutOfDate
| ErrUnavailable
| ErrSnapshotTemporarilyUnavailable
| ErrProposalDropped
| ErrStepLocalMsg
| ErrStepPeerNotFound
| ErrConfig (why : string)
| ErrOther (why : string).
#[export] Instance raft_error_eq_dec : EqDecision raft_error.
Proof. solve_decision. Defined.

(** Dereferencing the metadata of a snapshot. *)
Definition snap_meta {E} (s : Snapshot) : outcome E SnapshotMetadata :=
  match sp_Metadata s with Some m => Ok m | None => Panic "nil pointer dereference" end.

(** ** util.go *)

Definition go_min (a b : Z) : Z := if decide (b < a) then b else a.
Definition go_max (a b : Z) : Z := if decide (b < a) then a else b.

Definition isHardStateEqual (a b : HardState) : bool :=
  bool_decide (hs_Term a = hs_Term b ∧ hs_Vote a = hs_Vote b ∧ hs_Commit a = hs_Commit b).
Definition IsEmptyHardState (st : HardState) : bool := isHardStateEqual st empty_hs.

(** A nil snapshot is [None]. *)
Definition IsEmptySnap (sp : option Snapshot) : bool :=
  match sp with
  | None => true
  | Some sp => match sp_Metadata sp with None => true | Some m => bool_decide (md_Index m = 0) end
  end.

Definition IsLocalMsg (msgt : MessageType) : bool :=
  match msgt with MsgHup | MsgBeat => true | _ => false end.
Definition IsResponseMsg (msgt : MessageType) : bool :=
  match msgt with MsgAppendResponse | MsgRequestVoteResponse | MsgHeartbeatResponse => true | _ => false end.

(** An error the caller panics on. *)
Definition or_panic {E A} (c : outcome raft_error A) : outcome E A :=
  match c with
  | Ok a => Ok a
  | Err _ => Panic "panic(err)"
  | Panic w => Panic w
  | OutOfFuel => OutOfFuel
  end.

(** The two results of a call whose error the caller inspects. *)
Definition catch {A} (c : outcome raft_error A) : outcome raft_error (A + raft_error) :=
  match c with
  | Ok a => Ok (inl a)
  | Err e => Ok (inr e)
  | Panic w => Panic w
  | OutOfFuel => OutOfFuel
  end.
