(* ===== verification/RaftStorage.v ===== *)
(** The storage interface of the raft library and its in-memory implementation:
    raft/storage.go. *)

From S2P Require Import Prelude RaftPb.

(** [Storage]; [Snapshot] may change the implementation's own state. *)
Class RaftStorage (T : Type) := {
  st_InitialState : T → outcome raft_error (HardState * ConfState);
  st_Entries : T → Z → Z → outcome raft_error (list Entry);
  st_Term : T → Z → outcome raft_error Z;
  st_LastIndex : T → outcome raft_error Z;
  st_FirstIndex : T → outcome raft_error Z;
  st_Snapshot : T → T * outcome raft_error Snapshot
}.

(** ** MemoryStorage *)

Record MemoryStorage := mkMemoryStorage { ms_hardState : HardState; ms_snapshot : Snapshot; ms_ents : list Entry }.

Definition zero_entry : Entry := mkEntry EntryNormal 0 0 None.

Definition NewMemoryStorage : MemoryStorage :=
  mkMemoryStorage empty_hs (mkSnapshot None (Some (mkSnapshotMetadata (Some (mkConfState [])) 0 0))) [zero_entry].

Definition ms_InitialState (ms : MemoryStorage) : outcome raft_error (HardState * ConfState) :=
  md ← snap_meta (ms_snapshot ms);
  match md_ConfState md with
  | Some cs => Ok (ms_hardState ms, cs)
  | None => Panic "nil pointer dereference"
  end.

Definition SetHardState (ms : MemoryStorage) (st : HardState) : MemoryStorage :=
  mkMemoryStorage st (ms_snapshot ms) (ms_ents ms).

(** [ms.ents[0].Index] *)
Definition ms_offset (ms : MemoryStorage) : outcome raft_error Z :=
  e ← go_index (ms_ents ms) 0; Ok (e_Index e).

Definition ms_lastIndex (ms : MemoryStorage) : outcome raft_error Z :=
  offset ← ms_offset ms; Ok (u64 (offset + zlen (ms_ents ms) - 1)).
Definition ms_firstIndex (ms : MemoryStorage) : outcome raft_error Z :=
  offset ← ms_offset ms; Ok (u64 (offset + 1)).

Definition ms_Entries (ms : MemoryStorage) (lo hi : Z) : outcome raft_error (list Entry) :=
  offset ← ms_offset ms;
  if decide (lo ≤ offset) then Err ErrCompacted
  else
    last ← ms_lastIndex ms;
    if decide (u64 (last + 1) < hi) then Panic "entries' hi is out of bound lastindex"
    else
      ents ← go_slice (ms_ents ms) (u64 (lo - offset)) (u64 (hi - offset));
      if decide (length (ms_ents ms) = 1%nat ∧ ents ≠ []) then Err ErrUnavailable else Ok ents.

Definition ms_Term (ms : MemoryStorage) (i : Z) : outcome raft_error Z :=
  offset ← ms_offset ms;
  if decide (i < offset) then Err ErrCompacted
  else if decide (zlen (ms_ents ms) ≤ i64 (u64 (i - offset))) then Err ErrUnavailable
  else e ← go_index (ms_ents ms) (u64 (i - offset)); Ok (e_Term e).

Definition ApplySnapshot (ms : MemoryStorage) (snap : Snapshot) : outcome raft_error MemoryStorage :=
  md ← snap_meta (ms_snapshot ms);
  smd ← snap_meta snap;
  if decide (md_Index smd ≤ md_Index md) then Err ErrSnapOutOfDate
  else Ok (mkMemoryStorage (ms_hardState ms) snap [mkEntry EntryNormal (md_Term smd) (md_Index smd) None]).

Definition CreateSnapshot (ms : MemoryStorage) (i : Z) (cs : option ConfState) (data : option bytes)
  : outcome raft_error (MemoryStorage * Snapshot) :=
  md ← snap_meta (ms_snapshot ms);
  if decide (i ≤ md_Index md) then Err ErrSnapOutOfDate
  else
    offset ← ms_offset ms;
    last ← ms_lastIndex ms;
    if decide (last < i) then Panic "snapshot is out of bound lastindex"
    else
      e ← go_index (ms_ents ms) (u64 (i - offset));
      let cs := match cs with Some cs => Some cs | None => md_ConfState md end in
      let snap := mkSnapshot data (Some (mkSnapshotMetadata cs i (e_Term e))) in
      Ok (mkMemoryStorage (ms_hardState ms) snap (ms_ents ms), snap).

Definition Compact (ms : MemoryStorage) (compactIndex : Z) : outcome raft_error MemoryStorage :=
  offset ← ms_offset ms;
  if decide (compactIndex ≤ offset) then Err ErrCompacted
  else
    last ← ms_lastIndex ms;
    if decide (last < compactIndex) then Panic "compact is out of bound lastindex"
    else
      let i := u64 (compactIndex - offset) in
      e ← go_index (ms_ents ms) i;
      rest ← go_slice (ms_ents ms) (u64 (i + 1)) (zlen (ms_ents ms));
      Ok (mkMemoryStorage (ms_hardState ms) (ms_snapshot ms)
            (mkEntry EntryNormal (e_Term e) (e_Index e) None :: rest)).

Definition ms_Append (ms : MemoryStorage) (entries : list Entry) : outcome raft_error MemoryStorage :=
  match entries with
  | [] => Ok ms
  | e0 :: _ =>
    first ← ms_firstIndex ms;
    let last := u64 (e_Index e0 + zlen entries - 1) in
    if decide (last < first) then Ok ms
    else
      entries ← (if decide (e_Index e0 < first)
                 then go_slice entries (u64 (first - e_Index e0)) (zlen entries) else Ok entries);
      e0 ← go_index entries 0;
      base ← ms_offset ms;
      let offset := u64 (e_Index e0 - base) in
      if decide (offset < zlen (ms_ents ms)) then
        prefix ← go_slice (ms_ents ms) 0 offset;
        Ok (mkMemoryStorage (ms_hardState ms) (ms_snapshot ms) (prefix ++ entries))
      else if decide (zlen (ms_ents ms) = offset) then
        Ok (mkMemoryStorage (ms_hardState ms) (ms_snapshot ms) (ms_ents ms ++ entries))
      else Panic "missing log entry"
  end.

#[export] Instance MemoryStorage_RaftStorage : RaftStorage MemoryStorage := {|
  st_InitialState := ms_InitialState;
  st_Entries := ms_Entries;
  st_Term := ms_Term;
  st_LastIndex := ms_lastIndex;
  st_FirstIndex := ms_firstIndex;
  st_Snapshot ms := (ms, Ok (ms_snapshot ms))
|}.
