(* ===== verification/RaftLog.v ===== *)
(** The log of a raft peer: raft/log.go.

    [RaftLog] is the struct with its storage; a method that changes the log
    returns the new one.  [log.Fatal], [panic], and a slice or index expression
    out of range are [Panic]; the errors ErrCompacted and ErrUnavailable are
    [Err]. *)

From S2P Require Import Prelude RaftPb RaftStorage.

Section Log.
Context {T : Type} `{!RaftStorage T}.

Record RaftLog := mkRaftLog {
  storage : T;
  committed : Z;
  applied : Z;
  stabled : Z;
  entries : list Entry;
  offset : Z;
  snapTerm : Z;
  snapIndex : Z;
  pending_snapshot : option Snapshot
}.
Implicit Types l : RaftLog.

Definition set_storage (x : T) l : RaftLog :=
  mkRaftLog x (committed l) (applied l) (stabled l) (entries l) (offset l) (snapTerm l) (snapIndex l) (pending_snapshot l).
Definition set_committed (x : Z) l : RaftLog :=
  mkRaftLog (storage l) x (applied l) (stabled l) (entries l) (offset l) (snapTerm l) (snapIndex l) (pending_snapshot l).
Definition set_applied (x : Z) l : RaftLog :=
  mkRaftLog (storage l) (committed l) x (stabled l) (entries l) (offset l) (snapTerm l) (snapIndex l) (pending_snapshot l).
Definition set_stabled (x : Z) l : RaftLog :=
  mkRaftLog (storage l) (committed l) (applied l) x (entries l) (offset l) (snapTerm l) (snapIndex l) (pending_snapshot l).
Definition set_entries (x : list Entry) l : RaftLog :=
  mkRaftLog (storage l) (committed l) (applied l) (stabled l) x (offset l) (snapTerm l) (snapIndex l) (pending_snapshot l).
Definition set_pending (x : option Snapshot) l : RaftLog :=
  mkRaftLog (storage l) (committed l) (applied l) (stabled l) (entries l) (offset l) (snapTerm l) (snapIndex l) x.

Definition newLog (st : T) : outcome raft_error RaftLog :=
  firstIndex ← or_panic (st_FirstIndex st);
  lastIndex ← or_panic (st_LastIndex st);
  snapTerm ← or_panic (st_Term st (u64 (firstIndex - 1)));
  entries ← or_panic (st_Entries st firstIndex (u64 (lastIndex + 1)));
  let snapIndex := u64 (firstIndex - 1) in
  Ok (mkRaftLog st snapIndex snapIndex lastIndex entries firstIndex snapTerm snapIndex None).

(** [pending_snapshot.Metadata.Index], or [snapIndex] without one. *)
Definition base_index l : outcome raft_error Z :=
  match pending_snapshot l with
  | Some s => md ← snap_meta s; Ok (md_Index md)
  | None => Ok (snapIndex l)
  end.

Definition firstIndex l : outcome raft_error Z :=
  match entries l with
  | e :: _ => Ok (e_Index e)
  | [] => base_index l
  end.

Definition LastIndex l : outcome raft_error Z :=
  match last (entries l) with
  | Some e => Ok (e_Index e)
  | None => base_index l
  end.

Definition Term l (i : Z) : outcome raft_error Z :=
  if decide (i = snapIndex l) then Ok (snapTerm l)
  else if decide (entries l = []) then Err ErrCompacted
  else if decide (i < offset l) then Err ErrCompacted
  else if decide (u64 (offset l + zlen (entries l) - 1) < i) then Err ErrUnavailable
  else e ← go_index (entries l) (u64 (i - offset l)); Ok (e_Term e).

Definition lastTerm l : outcome raft_error Z :=
  i ← LastIndex l;
  or_panic (Term l i).

Definition matchTerm l (i term : Z) : outcome raft_error bool :=
  t ← catch (Term l i);
  match t with
  | inl t => Ok (bool_decide (t = term))
  | inr _ => Ok false
  end.

(** The log message of a conflict below the last index evaluates
    [zeroTermOnRangeErr], which is zero on either range error. *)
Fixpoint findConflict l (ents : list Entry) : outcome raft_error Z :=
  match ents with
  | [] => Ok 0
  | ne :: ents =>
    ok ← matchTerm l (e_Index ne) (e_Term ne);
    if negb ok then
      _ ← LastIndex l;
      Ok (e_Index ne)
    else findConflict l ents
  end.

Definition truncateAndAppend l (ents : list Entry) : outcome raft_error RaftLog :=
  e0 ← go_index ents 0;
  let after := e_Index e0 in
  li ← LastIndex l;
  if decide (after = u64 (li + 1)) then Ok (set_entries (entries l ++ ents) l)
  else
    let l := if decide (u64 (after - 1) < stabled l) then set_stabled (u64 (after - 1)) l else l in
    prefix ← go_slice (entries l) 0 (u64 (after - offset l));
    Ok (set_entries (prefix ++ ents) l).

(** The storage does not change while the method runs, so the loop that retries
    when it was compacted meanwhile runs once; when the term of the index
    before the first one has been compacted it would retry only if the first
    index changed, and panics otherwise. *)
Definition maybeCompact l : outcome raft_error RaftLog :=
  fi ← or_panic (st_FirstIndex (storage l));
  ft ← or_panic (st_Term (storage l) (u64 (fi - 1)));
  let compactSize := u64 (fi - offset l) in
  if decide (0 < compactSize ∧ compactSize < zlen (entries l)) then
    rest ← go_slice (entries l) compactSize (zlen (entries l));
    Ok (mkRaftLog (storage l) (committed l) (applied l) (stabled l) rest fi ft (u64 (fi - 1)) (pending_snapshot l))
  else Ok l.

(** [append]: the new log and the last index. *)
Definition append l (ents : list Entry) : outcome raft_error (RaftLog * Z) :=
  match ents with
  | [] => li ← LastIndex l; Ok (l, li)
  | e0 :: _ =>
    if decide (u64 (e_Index e0 - 1) < committed l) then Panic "after is out of range [committed]"
    else
      l ← truncateAndAppend l ents;
      l ← maybeCompact l;
      li ← LastIndex l;
      Ok (l, li)
  end.

Definition commitTo l (tocommit : Z) : outcome raft_error RaftLog :=
  if decide (committed l < tocommit) then
    li ← LastIndex l;
    if decide (li < tocommit) then Panic "tocommit is out of range [lastIndex]"
    else Ok (set_committed tocommit l)
  else Ok l.

(** [maybeAppend]: [Some lastnewi] when the entries were appended. *)
Definition maybeAppend l (index logTerm leaderCommit : Z) (ents : list Entry)
  : outcome raft_error (RaftLog * option Z) :=
  ok ← matchTerm l index logTerm;
  if negb ok then Ok (l, None)
  else
    let lastnewi := u64 (index + zlen ents) in
    ci ← findConflict l ents;
    l ← (if decide (ci = 0) then Ok l
         else if decide (ci ≤ committed l) then Panic "entry conflict with committed entry"
         else
           new ← go_slice ents (u64 (ci - u64 (index + 1))) (zlen ents);
           '(l, _) ← append l new;
           Ok l);
    l ← commitTo l (go_min leaderCommit lastnewi);
    Ok (l, Some lastnewi).

Definition unstableEntries l : outcome raft_error (list Entry) :=
  let i := u64 (stabled l + 1 - offset l) in
  if decide (zlen (entries l) < i64 i) then Ok []
  else go_slice (entries l) i (zlen (entries l)).

Definition mustCheckOutOfBounds l (lo hi : Z) : outcome raft_error unit :=
  if decide (hi < lo) then Panic "invalid slice"
  else
    fi ← firstIndex l;
    if decide (lo < fi) then Err ErrCompacted
    else
      li ← LastIndex l;
      if decide (u64 (li + 1) < hi) then Panic "slice out of bound" else Ok tt.

Definition slice l (lo hi : Z) : outcome raft_error (list Entry) :=
  _ ← mustCheckOutOfBounds l lo hi;
  if decide (entries l = []) then Ok []
  else go_slice (entries l) (u64 (lo - offset l)) (u64 (hi - offset l)).

Definition nextEntsSince l (sinceIdx : Z) : outcome raft_error (list Entry) :=
  fi ← firstIndex l;
  let off := go_max (u64 (sinceIdx + 1)) fi in
  if decide (off < u64 (committed l + 1)) then
    ents ← or_panic (slice l off (u64 (committed l + 1)));
    Ok ents
  else Ok [].
Definition nextEnts l : outcome raft_error (list Entry) := nextEntsSince l (applied l).

Definition hasNextEntsSince l (sinceIdx : Z) : outcome raft_error bool :=
  fi ← firstIndex l;
  Ok (bool_decide (go_max (u64 (sinceIdx + 1)) fi < u64 (committed l + 1))).
Definition hasNextEnts l : outcome raft_error bool := hasNextEntsSince l (applied l).

Definition snapshot l : outcome raft_error (RaftLog * (Snapshot + raft_error)) :=
  match pending_snapshot l with
  | Some s => Ok (l, inl s)
  | None =>
    let '(st, r) := st_Snapshot (storage l) in
    r ← catch r;
    Ok (set_storage st l, r)
  end.

Definition appliedTo l (i : Z) : outcome raft_error RaftLog :=
  if decide (i = 0) then Ok l
  else if decide (committed l < i ∨ i < applied l) then Panic "applied is out of range"
  else Ok (set_applied i l).

Definition stableTo l (idx term : Z) : outcome raft_error RaftLog :=
  ok ← matchTerm l idx term;
  Ok (if decide (ok = true ∧ stabled l < idx) then set_stabled idx l else l).

Definition stableSnapTo l (i : Z) : outcome raft_error RaftLog :=
  match pending_snapshot l with
  | Some s => md ← snap_meta s; Ok (if decide (md_Index md = i) then set_pending None l else l)
  | None => Ok l
  end.

Definition Entries l (i : Z) : outcome raft_error (list Entry) :=
  fi ← firstIndex l;
  if decide (i < fi) then Err ErrCompacted
  else
    li ← LastIndex l;
    if decide (li < i) then Ok []
    else go_slice (entries l) (u64 (i - offset l)) (zlen (entries l)).

Definition isUpToDate l (lasti term : Z) : outcome raft_error bool :=
  lt ← lastTerm l;
  li ← LastIndex l;
  Ok (bool_decide (lt < term ∨ (term = lt ∧ li ≤ lasti))).

Definition log_maybeCommit l (maxIndex term : Z) : outcome raft_error (RaftLog * bool) :=
  if decide (committed l < maxIndex) then
    ok ← matchTerm l maxIndex term;
    if ok : bool then l ← commitTo l maxIndex; Ok (l, true) else Ok (l, false)
  else Ok (l, false).

Definition log_restore l (s : Snapshot) : outcome raft_error RaftLog :=
  md ← snap_meta s;
  Ok (mkRaftLog (storage l) (md_Index md) (applied l) (md_Index md) [] (u64 (md_Index md + 1))
        (md_Term md) (md_Index md) (Some s)).
End Log.
Arguments RaftLog : clear implicits.
