(* ===== verification/RaftLogSpec.v ===== *)
(** Correctness of the raft log (raft/log.go).

    [entry_at] and [term_at] read a log by index.  On a well-formed log whose
    storage has been compacted no further than what was applied, the methods
    never panic and are described by those two readers. *)

From S2P Require Import Prelude RaftPb RaftStorage RaftLog.

(** ** Bounded indices *)

(** Log indices stay below 2^63 - 1, so that neither their successors nor their
    conversion to [int] overflow. *)
Definition idx_ok (n : Z) : Prop := 0 ≤ n < 2 ^ 63 - 1.

Lemma u64_idx n : 0 ≤ n ≤ 2 ^ 63 → u64 n = n.
Proof. intros. apply u64_small. split; [lia|]. unfold two64. lia. Qed.

Lemma u64_neg n : - 2 ^ 63 ≤ n < 0 → u64 n = n + two64.
Proof.
  intros. unfold u64. rewrite -(Z.mod_add n 1 two64); [|done]. rewrite Z.mul_1_l Z.mod_small //.
  unfold two64. lia.
Qed.

(** Entries numbered consecutively from [from]. *)
Definition numbered (from : Z) (ents : list Entry) : Prop :=
  ∀ i e, ents !! i = Some e → e_Index e = from + Z.of_nat i.

Lemma numbered_cons from e ents :
  numbered from (e :: ents) ↔ e_Index e = from ∧ numbered (from + 1) ents.
Proof.
  split.
  - intros H. split; [rewrite (H 0%nat e eq_refl); lia|]. intros i e' E. rewrite (H (S i) e' E). lia.
  - intros [He H] [|i] e' E; cbn in E; [injection E as <-; lia|]. rewrite (H _ _ E). lia.
Qed.

Lemma numbered_app from a b :
  numbered from (a ++ b) ↔ numbered from a ∧ numbered (from + Z.of_nat (length a)) b.
Proof.
  revert from. induction a as [|e a IH]; intros from; cbn.
  - rewrite Z.add_0_r. split; [|by intros []]. split; [|done]. intros i e. by rewrite lookup_nil.
  - rewrite !numbered_cons IH. replace (from + 1 + Z.of_nat (length a)) with (from + Z.of_nat (S (length a))) by lia.
    naive_solver.
Qed.

Lemma numbered_drop from n ents : (n ≤ length ents)%nat → numbered from ents → numbered (from + Z.of_nat n) (drop n ents).
Proof. intros Hn H i e. rewrite lookup_drop. intros E. rewrite (H _ _ E). lia. Qed.

Section LogSpec.
Context {T : Type} `{!RaftStorage T}.
Implicit Types l : RaftLog T.

Definition last_index l : Z := snapIndex l + zlen (entries l).

Definition entry_at l (i : Z) : option Entry :=
  if decide (offset l ≤ i) then entries l !! Z.to_nat (i - offset l) else None.

Definition term_at l (i : Z) : option Z :=
  if decide (i = snapIndex l) then Some (snapTerm l) else e_Term <$> entry_at l i.

Record log_wf l : Prop := {
  lw_snap : 0 ≤ snapIndex l;
  lw_last : idx_ok (last_index l);
  lw_off : offset l = snapIndex l + 1;
  lw_num : numbered (offset l) (entries l);
  lw_pend s : pending_snapshot l = Some s →
    ∃ md, sp_Metadata s = Some md ∧ (entries l = [] → md_Index md = snapIndex l);
  lw_commit : snapIndex l ≤ committed l ≤ last_index l;
  lw_applied : 0 ≤ applied l ≤ committed l;
  lw_stable : snapIndex l ≤ stabled l ≤ last_index l
}.

(** The application compacts the storage no further than what it has applied
    and persisted, and the storage knows the term before its first index. *)
Definition storage_ok l : Prop :=
  ∃ fi ft, st_FirstIndex (storage l) = Ok fi ∧ st_Term (storage l) (fi - 1) = Ok ft ∧
    1 ≤ fi ≤ Z.min (applied l) (stabled l) + 1 ∧ (snapIndex l ≤ fi - 1 → term_at l (fi - 1) = Some ft).

Lemma last_index_offset l : log_wf l → last_index l = offset l + zlen (entries l) - 1.
Proof. intros H. unfold last_index. rewrite (lw_off _ H). lia. Qed.

Lemma base_index_wf l : log_wf l → entries l = [] → base_index l = Ok (snapIndex l).
Proof.
  intros H He. unfold base_index. destruct (pending_snapshot l) as [s|] eqn:E; [|done].
  destruct (lw_pend _ H s E) as (md & Hm & Hi). unfold snap_meta. rewrite Hm. cbn. by rewrite Hi.
Qed.

Lemma LastIndex_wf l : log_wf l → LastIndex l = Ok (last_index l).
Proof.
  intros H. unfold LastIndex. destruct (last (entries l)) as [e|] eqn:E.
  - rewrite last_lookup in E. pose proof (lookup_lt_Some _ _ _ E). rewrite (lw_num _ H _ _ E).
    rewrite last_index_offset // /zlen. f_equal. lia.
  - apply last_None in E. rewrite base_index_wf //. unfold last_index, zlen. rewrite E. cbn. f_equal. lia.
Qed.

Lemma firstIndex_wf l : log_wf l → firstIndex l = Ok (if decide (entries l = []) then snapIndex l else offset l).
Proof.
  intros H. unfold firstIndex. destruct (entries l) as [|e es] eqn:E.
  - rewrite base_index_wf //.
  - pose proof (lw_num _ H) as Hn. rewrite E numbered_cons in Hn. destruct Hn as [-> _]. by case_decide.
Qed.

Lemma entry_at_Some l i e : log_wf l → entry_at l i = Some e → offset l ≤ i ≤ last_index l ∧ e_Index e = i.
Proof.
  intros H. unfold entry_at. case_decide; [|done]. intros E. pose proof (lookup_lt_Some _ _ _ E).
  rewrite (lw_num _ H _ _ E) last_index_offset // /zlen. lia.
Qed.

Lemma entry_at_is_Some l i : log_wf l → offset l ≤ i ≤ last_index l → is_Some (entry_at l i).
Proof.
  intros H Hi. rewrite last_index_offset // in Hi. unfold entry_at. case_decide; [|lia].
  apply lookup_lt_is_Some. unfold zlen in Hi. lia.
Qed.

Lemma term_at_is_Some l i : log_wf l → is_Some (term_at l i) ↔ snapIndex l ≤ i ≤ last_index l.
Proof.
  intros H. pose proof (zlen_nonneg (entries l)). pose proof (lw_off _ H). unfold term_at. split.
  - case_decide; [unfold last_index; lia|]. intros [t Ht]. apply fmap_Some in Ht as (e & Ht & _).
    apply entry_at_Some in Ht as [? _]; [|done]. lia.
  - intros Hi. case_decide; [done|]. destruct (entry_at_is_Some l i) as [e ->]; [done|lia|done].
Qed.

(** [Term] reads the log. *)
Lemma Term_wf l i :
  log_wf l → 0 ≤ i ≤ 2 ^ 63 →
  match term_at l i with Some t => Term l i = Ok t | None => ∃ e, Term l i = Err e end.
Proof.
  intros H Hi. pose proof (lw_off _ H). pose proof (lw_snap _ H). pose proof (lw_last _ H) as [_ Hl].
  pose proof (last_index_offset _ H) as Hlo. pose proof (zlen_nonneg (entries l)).
  unfold Term, term_at. case_decide; [done|]. unfold entry_at.
  destruct (decide (entries l = [])) as [He|He]; [rewrite He; case_decide; rewrite ?lookup_nil; cbn; eauto|].
  destruct (decide (i < offset l)); [case_decide; [lia|cbn; eauto]|].
  destruct (decide (offset l ≤ i)); [|lia]. rewrite u64_idx; [|lia].
  destruct (decide (offset l + zlen (entries l) - 1 < i)) as [Hlt|Hlt].
  - rewrite lookup_ge_None_2; [cbn; eauto|]. unfold zlen in *. lia.
  - rewrite u64_idx; [|lia]. unfold go_index. case_decide; [|lia].
    destruct (lookup_lt_is_Some_2 (entries l) (Z.to_nat (i - offset l))) as [e ->]; [unfold zlen in *; lia|done].
Qed.

Lemma matchTerm_wf l i t :
  log_wf l → 0 ≤ i ≤ 2 ^ 63 → matchTerm l i t = Ok (bool_decide (term_at l i = Some t)).
Proof.
  intros H Hi. pose proof (Term_wf l i H Hi) as Ht. unfold matchTerm.
  destruct (term_at l i) as [t'|]; [rewrite Ht|destruct Ht as [e ->]]; cbn; [|done].
  f_equal. apply bool_decide_ext. naive_solver.
Qed.

(** [findConflict] returns the first entry the log does not have. *)
Lemma findConflict_wf l from ents :
  log_wf l → 1 ≤ from → numbered from ents → from + zlen ents ≤ 2 ^ 63 →
  ∃ n, (n ≤ length ents)%nat ∧
    (∀ e, e ∈ take n ents → term_at l (e_Index e) = Some (e_Term e)) ∧
    (∀ e, ents !! n = Some e → term_at l (e_Index e) ≠ Some (e_Term e)) ∧
    findConflict l ents = Ok (if decide (n = length ents) then 0 else from + Z.of_nat n).
Proof.
  intros H. revert from. induction ents as [|e ents IH]; intros from Hf Hn Hb.
  - exists 0%nat. split_and!; [done|set_solver|done|done].
  - apply numbered_cons in Hn as [He Hn]. unfold zlen in *. cbn [length] in Hb. cbn [findConflict].
    rewrite matchTerm_wf //; [|lia]. cbn. case_bool_decide as Hm; cbn.
    + destruct (IH (from + 1)) as (n & Hle & Hall & Hbad & ->); [lia|done|lia|].
      exists (S n). split_and!; [lia| |done|].
      * intros e' [->|Hin]%elem_of_cons; [done|by apply Hall].
      * f_equal. repeat case_decide; try lia; done.
    + rewrite LastIndex_wf //. cbn. exists 0%nat. split_and!; [lia|set_solver|naive_solver|].
      f_equal. case_decide; [done|lia].
Qed.

(** ** Appending *)

(** The log with everything from [after] on replaced by [ents]. *)
Definition spliced l (after : Z) (ents : list Entry) : RaftLog T :=
  set_stabled (Z.min (stabled l) (after - 1))
    (set_entries (take (Z.to_nat (after - offset l)) (entries l) ++ ents) l).

Lemma truncateAndAppend_wf l after e0 ents :
  log_wf l → numbered after (e0 :: ents) → snapIndex l < after ≤ last_index l + 1 →
  truncateAndAppend l (e0 :: ents) = Ok (spliced l after (e0 :: ents)).
Proof.
  intros H [He _]%numbered_cons Ha. pose proof (lw_off _ H). pose proof (lw_last _ H) as [? Hl].
  pose proof (lw_snap _ H). pose proof (lw_stable _ H) as Hst. pose proof (last_index_offset _ H).
  unfold truncateAndAppend. change (go_index (e0 :: ents) 0) with (Ok (E:=raft_error) e0). cbn.
  rewrite LastIndex_wf //. cbn. rewrite He u64_idx; [|lia]. unfold spliced. case_decide as Hlast.
  - rewrite take_ge; [|unfold zlen in *; lia]. rewrite Z.min_l; [|lia]. by destruct l.
  - rewrite u64_idx; [|lia].
    assert (Hoff : offset (if decide (after - 1 < stabled l) then set_stabled (after - 1) l else l) = offset l)
      by (by case_decide).
    rewrite Hoff u64_idx; [|lia].
    assert (Hent : entries (if decide (after - 1 < stabled l) then set_stabled (after - 1) l else l) = entries l)
      by (by case_decide).
    rewrite Hent go_slice_ok; [|lia..]. cbn. rewrite Z.sub_0_r drop_0. f_equal.
    case_decide; cbn; [by rewrite Z.min_r; [|lia]|rewrite Z.min_l; [by destruct l|lia]].
Qed.

Lemma spliced_len l after ents :
  log_wf l → snapIndex l < after ≤ last_index l + 1 →
  last_index (spliced l after ents) = after - 1 + zlen ents.
Proof.
  intros H Ha. pose proof (lw_off _ H). pose proof (last_index_offset _ H).
  unfold last_index, spliced, zlen in *. cbn. rewrite length_app length_take. lia.
Qed.

Lemma spliced_entry_at l after ents i :
  log_wf l → snapIndex l < after ≤ last_index l + 1 →
  entry_at (spliced l after ents) i = if decide (i < after) then entry_at l i else ents !! Z.to_nat (i - after).
Proof.
  intros H Ha. pose proof (lw_off _ H). pose proof (last_index_offset _ H).
  unfold entry_at, spliced, zlen in *. cbn. case_decide; [|case_decide; [done|lia]].
  case_decide.
  - rewrite lookup_app_l; [rewrite lookup_take_lt //; lia|]. rewrite length_take. lia.
  - rewrite lookup_app_r; rewrite length_take; [|lia]. f_equal. lia.
Qed.

Lemma spliced_term_at l after ents i :
  log_wf l → snapIndex l < after ≤ last_index l + 1 → i < after →
  term_at (spliced l after ents) i = term_at l i.
Proof. intros H Ha Hi. unfold term_at. rewrite spliced_entry_at //. cbn. by destruct (decide (i < after)); [|lia]. Qed.

Lemma spliced_wf l after e0 ents :
  log_wf l → numbered after (e0 :: ents) → snapIndex l < after ≤ last_index l + 1 → committed l < after →
  idx_ok (after - 1 + zlen (e0 :: ents)) → log_wf (spliced l after (e0 :: ents)).
Proof.
  intros H Hn Ha Hc Hb. pose proof (spliced_len l after (e0 :: ents) H Ha) as Hlen.
  pose proof (lw_off _ H). pose proof (last_index_offset _ H). pose proof (lw_stable _ H).
  assert (1 ≤ zlen (e0 :: ents)) by (unfold zlen; cbn; lia).
  split; rewrite ?Hlen; cbn; try apply H; try done.
  - apply numbered_app. split.
    + intros i e E. apply lookup_take_Some in E as [E _]. by apply (lw_num _ H).
    + rewrite length_take. replace (offset l + _) with after; [done|]. unfold zlen in *. lia.
  - intros s Hs. destruct (lw_pend _ H s Hs) as (md & Hmd & _). exists md. split; [done|].
    intros E. by apply app_eq_nil in E as [_ ?].
  - pose proof (lw_commit _ H). lia.
  - lia.
Qed.

(** [l'] is [l] compacted: the entries up to its new snapshot index are gone. *)
Record compacted l l' : Prop := {
  cp_snap : snapIndex l ≤ snapIndex l' ≤ applied l;
  cp_last : last_index l' = last_index l;
  cp_entry i : snapIndex l' < i → entry_at l' i = entry_at l i;
  cp_term i : snapIndex l' ≤ i → term_at l' i = term_at l i;
  cp_same : committed l' = committed l ∧ applied l' = applied l ∧ stabled l' = stabled l ∧ storage l' = storage l ∧
    pending_snapshot l' = pending_snapshot l
}.

Lemma compacted_refl l : log_wf l → snapIndex l ≤ applied l → compacted l l.
Proof. intros H ?. split; [lia|done..|by split_and!]. Qed.

(** The log whose entries before [fi] are dropped. *)
Definition dropped l (fi ft : Z) : RaftLog T :=
  mkRaftLog (storage l) (committed l) (applied l) (stabled l) (drop (Z.to_nat (fi - offset l)) (entries l))
    fi ft (fi - 1) (pending_snapshot l).

Lemma dropped_wf l fi ft :
  log_wf l → 0 < fi - offset l < zlen (entries l) → fi ≤ Z.min (applied l) (stabled l) + 1 →
  term_at l (fi - 1) = Some ft → log_wf (dropped l fi ft) ∧ compacted l (dropped l fi ft).
Proof.
  intros H Hc Hap Hterm. pose proof (lw_off _ H). pose proof (lw_snap _ H).
  pose proof (lw_commit _ H). pose proof (lw_applied _ H). pose proof (last_index_offset _ H). pose proof (lw_stable _ H).
  assert (Hlen : zlen (drop (Z.to_nat (fi - offset l)) (entries l)) = zlen (entries l) - (fi - offset l)).
  { unfold zlen in *. rewrite length_drop. lia. }
  assert (Hli : last_index (dropped l fi ft) = last_index l).
  { unfold last_index. cbn. rewrite Hlen. lia. }
  assert (Hent : ∀ i, fi - 1 < i → entry_at (dropped l fi ft) i = entry_at l i).
  { intros i Hi. unfold entry_at. cbn. destruct (decide (fi ≤ i)); [|lia].
    destruct (decide (offset l ≤ i)); [|lia]. rewrite lookup_drop. f_equal. lia. }
  split.
  - split; rewrite ?Hli; cbn; try apply H; try lia.
    + intros i e E. rewrite lookup_drop in E. rewrite (lw_num _ H _ _ E). lia.
    + intros s Hs. destruct (lw_pend _ H s Hs) as (md & Hmd & _). exists md. split; [done|].
      intros E. rewrite E in Hlen. unfold zlen in *. cbn in Hlen. lia.
  - split; cbn; [lia|done|done| |by split_and!].
    intros i Hi. unfold term_at at 1. cbn. case_decide as Hi'; [by rewrite Hi'|].
    rewrite Hent; [|lia]. unfold term_at. by destruct (decide (i = snapIndex l)); [lia|].
Qed.

Lemma maybeCompact_wf l :
  log_wf l → storage_ok l →
  ∃ l', maybeCompact l = Ok l' ∧ log_wf l' ∧ (l' = l ∨ compacted l l' ∧ st_FirstIndex (storage l) = Ok (snapIndex l' + 1)).
Proof.
  intros H (fi & ft & Hfi & Hft & Hb & Hterm). pose proof (lw_off _ H). pose proof (lw_snap _ H).
  pose proof (lw_last _ H) as [_ Hl]. pose proof (lw_commit _ H). pose proof (lw_applied _ H).
  pose proof (last_index_offset _ H). pose proof (lw_stable _ H). pose proof (zlen_nonneg (entries l)).
  unfold maybeCompact. rewrite Hfi. cbn. rewrite (u64_idx (fi - 1)); [|lia]. rewrite Hft. cbn.
  case_decide as Hc; [|by exists l; auto].
  assert (offset l ≤ fi) as Hge.
  { destruct (decide (offset l ≤ fi)); [done|]. rewrite u64_neg in Hc; [|lia]. unfold two64 in Hc. lia. }
  rewrite u64_idx in Hc; [|lia]. rewrite u64_idx; [|lia]. rewrite go_slice_ok; [|lia..]. cbn.
  rewrite take_ge; [|rewrite length_drop; unfold zlen; lia]. exists (dropped l fi ft). split; [done|].
  destruct (dropped_wf l fi ft) as [? ?]; [done|lia|lia|apply Hterm; lia|]. split; [done|]. right. split; [done|]. cbn. f_equal. lia.
Qed.

Lemma spliced_storage_ok l after ents :
  log_wf l → storage_ok l → snapIndex l < after ≤ last_index l + 1 → committed l < after →
  storage_ok (spliced l after ents).
Proof.
  intros H (fi & ft & Hfi & Hft & Hb & Hterm) Ha Hc. pose proof (lw_applied _ H). exists fi, ft. cbn.
  split_and!; [done..|lia|lia|]. intros Hs. rewrite spliced_term_at //; [by apply Hterm|lia].
Qed.

(** [append] keeps everything below the first new index and has the new
    entries from there on; only applied entries may be compacted away. *)
Record appended l (after : Z) (ents : list Entry) l' : Prop := {
  ap_wf : log_wf l';
  ap_last : last_index l' = after - 1 + zlen ents;
  ap_snap : snapIndex l ≤ snapIndex l' ≤ Z.max (snapIndex l) (applied l);
  ap_entry i : snapIndex l' < i →
    entry_at l' i = if decide (i < after) then entry_at l i else ents !! Z.to_nat (i - after);
  ap_term i : snapIndex l' ≤ i → i < after → term_at l' i = term_at l i;
  ap_committed : committed l' = committed l;
  ap_applied : applied l' = applied l;
  ap_stabled : stabled l' = Z.min (stabled l) (after - 1);
  ap_pending : pending_snapshot l' = pending_snapshot l;
  ap_storage : storage l' = storage l;
  ap_first : snapIndex l' = snapIndex l ∨ st_FirstIndex (storage l) = Ok (snapIndex l' + 1)
}.

Lemma append_wf l after e0 ents :
  log_wf l → storage_ok l → numbered after (e0 :: ents) →
  snapIndex l < after ≤ last_index l + 1 → committed l < after → idx_ok (after - 1 + zlen (e0 :: ents)) →
  ∃ l', append l (e0 :: ents) = Ok (l', last_index l') ∧ appended l after (e0 :: ents) l'.
Proof.
  intros H Hs Hn Ha Hc Hb. pose proof (lw_commit _ H). pose proof (lw_snap _ H). pose proof (lw_last _ H) as [_ ?].
  unfold append. pose proof (proj1 (numbered_cons _ _ _) Hn) as [He _]. rewrite He u64_idx; [|lia].
  case_decide; [lia|]. rewrite (truncateAndAppend_wf l after) //. cbn -[last_index].
  pose proof (spliced_wf l after e0 ents H Hn Ha Hc Hb) as Hwf.
  pose proof (spliced_storage_ok l after (e0 :: ents) H Hs Ha Hc) as Hst.
  pose proof (spliced_len l after (e0 :: ents) H Ha) as Hlen.
  destruct (maybeCompact_wf _ Hwf Hst) as (l' & -> & Hwf' & Hor). cbn -[last_index].
  rewrite LastIndex_wf //. cbn -[last_index]. exists l'. split; [done|]. destruct Hor as [->|[Hcp Hfi]].
  - split; [done..| | | | | | |done|done|by left]; cbn; try lia; intros i; [by rewrite spliced_entry_at|].
    intros _ ?. by apply spliced_term_at.
  - destruct Hcp as [Hsn Hla Hen Hte (Hco & Hap & Hsta & Hsto & Hpe)].
    split; rewrite ?Hla ?Hco ?Hap ?Hsta ?Hpe; cbn in *; try done; [lia| | |by right].
    + intros i Hi. rewrite Hen // spliced_entry_at //.
    + intros i Hi ?. rewrite Hte // spliced_term_at //.
Qed.

Lemma commitTo_wf l i :
  log_wf l → i ≤ last_index l →
  commitTo l i = Ok (set_committed (Z.max (committed l) i) l) ∧ log_wf (set_committed (Z.max (committed l) i) l).
Proof.
  intros H Hi. unfold commitTo. pose proof (lw_commit _ H). pose proof (lw_applied _ H). split.
  - case_decide.
    + rewrite LastIndex_wf //. cbn -[last_index]. case_decide; [lia|]. by rewrite Z.max_r; [|lia].
    + rewrite Z.max_l; [|lia]. by destruct l.
  - destruct H. split; cbn; try done; unfold last_index in *; cbn; lia.
Qed.

Lemma go_min_min a b : go_min a b = Z.min a b.
Proof. unfold go_min. case_decide; lia. Qed.
Lemma go_max_max a b : go_max a b = Z.max a b.
Proof. unfold go_max. case_decide; lia. Qed.

(** The log has an entry of the same term at the index of [e]. *)
Definition agrees l (e : Entry) : Prop := term_at l (e_Index e) = Some (e_Term e).

(** What an accepted append leaves: the new entries follow [index], nothing at
    or below it or already committed has changed, and the log is cut only
    when an entry disagreed. *)
Record accepted l (index : Z) (ents : list Entry) (lc : Z) l' : Prop := {
  ac_wf : log_wf l';
  ac_new e : e ∈ ents → snapIndex l' ≤ e_Index e → agrees l' e;
  ac_old i : snapIndex l' ≤ i ≤ Z.max index (committed l) → term_at l' i = term_at l i;
  ac_snap : snapIndex l ≤ snapIndex l' ≤ Z.max (snapIndex l) (applied l);
  ac_committed : committed l' = Z.max (committed l) (Z.min lc (index + zlen ents));
  ac_same : Forall (agrees l) ents → l' = set_committed (committed l') l;
  ac_cut : ¬ Forall (agrees l) ents → last_index l' = index + zlen ents;
  ac_from i e : entry_at l' i = Some e → entry_at l i = Some e ∨ e ∈ ents;
  ac_applied : applied l' = applied l;
  ac_stabled : Z.min (stabled l) (committed l) ≤ stabled l' ≤ stabled l;
  ac_pending : pending_snapshot l' = pending_snapshot l
}.

Lemma numbered_elem from ents e :
  numbered from ents → e ∈ ents → ∃ i, ents !! i = Some e ∧ e_Index e = from + Z.of_nat i ∧ from ≤ e_Index e < from + zlen ents.
Proof.
  intros Hn [i Hi]%list_elem_of_lookup. exists i. pose proof (Hn _ _ Hi). pose proof (lookup_lt_Some _ _ _ Hi).
  unfold zlen. split_and!; [done..|lia|lia].
Qed.

Lemma agreeing_within l index t ents :
  log_wf l → numbered (index + 1) ents → term_at l index = Some t → Forall (agrees l) ents →
  index + zlen ents ≤ last_index l.
Proof.
  intros H Hn Ht Hall. destruct (last ents) as [e|] eqn:E.
  - assert (Hin : e ∈ ents) by (apply last_Some in E as [? ->]; set_solver).
    pose proof (proj1 (Forall_forall _ _) Hall e Hin) as Ha. rewrite last_lookup in E.
    pose proof (Hn _ _ E). pose proof (lookup_lt_Some _ _ _ E).
    assert (Hs : is_Some (term_at l (e_Index e))) by (by rewrite Ha). apply term_at_is_Some in Hs; [|done].
    unfold zlen. lia.
  - apply last_None in E as ->. assert (Hs : is_Some (term_at l index)) by (by rewrite Ht).
    apply term_at_is_Some in Hs; [|done]. cbn. unfold zlen. cbn. lia.
Qed.

Lemma accepted_same l index t ents lc :
  log_wf l → numbered (index + 1) ents → term_at l index = Some t → Forall (agrees l) ents →
  commitTo l (Z.min lc (index + zlen ents)) = Ok (set_committed (Z.max (committed l) (Z.min lc (index + zlen ents))) l) ∧
  accepted l index ents lc (set_committed (Z.max (committed l) (Z.min lc (index + zlen ents))) l).
Proof.
  intros H Hn Ht Hall. pose proof (agreeing_within _ _ _ _ H Hn Ht Hall).
  destruct (commitTo_wf l (Z.min lc (index + zlen ents)) H) as [-> Hwf]; [lia|]. split; [done|].
  split; cbn; try done; try lia; [|by left]. intros e He _. exact (proj1 (Forall_forall _ _) Hall e He).
Qed.

Lemma accepted_cut l index t (n : nat) e0 new ents lc l' :
  log_wf l → 0 ≤ lc → numbered (index + 1) ents → term_at l index = Some t →
  drop n ents = e0 :: new → (∀ e, e ∈ take n ents → agrees l e) → ¬ agrees l e0 →
  committed l < index + 1 + Z.of_nat n →
  appended l (index + 1 + Z.of_nat n) (e0 :: new) l' →
  commitTo l' (Z.min lc (index + zlen ents)) = Ok (set_committed (Z.max (committed l) (Z.min lc (index + zlen ents))) l') ∧
  accepted l index ents lc (set_committed (Z.max (committed l) (Z.min lc (index + zlen ents))) l').
Proof.
  intros H Hlc Hn Ht Hd Hpre Hbad Hc Hap. pose proof (lw_stable _ H).
  assert (Hlen : (length ents = n + S (length new))%nat).
  { assert (Hl : length (drop n ents) = S (length new)) by (by rewrite Hd). rewrite length_drop in Hl. lia. }
  pose proof (ap_last _ _ _ _ Hap) as Hla. assert (Hlast : last_index l' = index + zlen ents).
  { rewrite Hla. unfold zlen. cbn. lia. }
  destruct (commitTo_wf l' (Z.min lc (index + zlen ents)) (ap_wf _ _ _ _ Hap)) as [-> Hwf]; [lia|].
  rewrite (ap_committed _ _ _ _ Hap) in Hwf |- *. split; [done|].
  pose proof (ap_snap _ _ _ _ Hap). pose proof (ap_applied _ _ _ _ Hap). pose proof (ap_stabled _ _ _ _ Hap).
  pose proof (ap_pending _ _ _ _ Hap).
  assert (Hno : ¬ Forall (agrees l) ents).
  { intros Hall. apply Hbad. apply (proj1 (Forall_forall _ _) Hall). rewrite -(take_drop n ents) Hd. set_solver. }
  split; cbn; try done; try lia.
  - intros e He Hsn. destruct (numbered_elem _ _ _ Hn He) as (i & Hi & Hei & _). unfold agrees.
    change (term_at l' (e_Index e) = Some (e_Term e)).
    destruct (decide (i < n)%nat) as [Hlt|Hge].
    + rewrite (ap_term _ _ _ _ Hap); [|done|lia]. apply Hpre. apply list_elem_of_lookup. exists i. by rewrite lookup_take_lt.
    + unfold term_at. pose proof (ap_entry _ _ _ _ Hap (e_Index e)) as He'.
      pose proof (lw_applied _ H). pose proof (lw_commit _ H).
      rewrite decide_False; [|lia]. rewrite He'; [|lia]. rewrite decide_False; [|lia].
      rewrite -Hd lookup_drop. replace (n + _)%nat with i by lia. by rewrite Hi.
  - intros i Hi. change (term_at l' i = term_at l i). apply (ap_term _ _ _ _ Hap); lia.
  - intros i e He. change (entry_at l' i = Some e) in He.
    destruct (entry_at_Some _ _ _ (ap_wf _ _ _ _ Hap) He) as [Hin _]. pose proof (lw_off _ (ap_wf _ _ _ _ Hap)).
    rewrite (ap_entry _ _ _ _ Hap) in He; [|lia]. case_decide; [by left|right].
    rewrite -(take_drop n ents) Hd. apply elem_of_app. right. by eapply list_elem_of_lookup_2.
Qed.

(** The branch that found a conflict, at position [n] of the new entries. *)
Lemma append_conflict l index t (n : nat) e0 ents lc :
  log_wf l → storage_ok l → 0 ≤ index → 0 ≤ lc →
  numbered (index + 1) ents → idx_ok (index + zlen ents) → term_at l index = Some t →
  ents !! n = Some e0 → (∀ e, e ∈ take n ents → agrees l e) → ¬ agrees l e0 →
  committed l < index + 1 + Z.of_nat n →
  ∃ l' l'' li,
    go_slice (E:=raft_error) ents (index + 1 + Z.of_nat n - (index + 1)) (zlen ents) = Ok (drop n ents) ∧
    append l (drop n ents) = Ok (l', li) ∧
    commitTo l' (Z.min lc (index + zlen ents)) = Ok l'' ∧ accepted l index ents lc l''.
Proof.
  intros H Hs Hi Hlc Hn [Hb1 Hb] Ht He0 Hpre Hna Hcm. pose proof (lookup_lt_Some _ _ _ He0) as Hlt.
  pose proof (drop_S ents e0 n He0) as Hd.
  pose proof (numbered_drop _ n ents (Nat.lt_le_incl _ _ Hlt) Hn) as Hnd. rewrite Hd in Hnd.
  assert (Hz : index + 1 + Z.of_nat n - 1 + zlen (e0 :: drop (S n) ents) = index + zlen ents).
  { rewrite -Hd. unfold zlen. rewrite length_drop. lia. }
  assert (Hlast : index + zlen (take n ents) ≤ last_index l).
  { eapply agreeing_within; [done| |done|by apply Forall_forall].
    rewrite -(take_drop n ents) numbered_app in Hn. apply Hn. }
  unfold zlen in Hlast at 1. rewrite length_take_le in Hlast; [|lia].
  assert (snapIndex l ≤ index) by (apply (term_at_is_Some l index H); by rewrite Ht).
  destruct (append_wf l (index + 1 + Z.of_nat n) e0 (drop (S n) ents)) as (l' & Happ & Hap);
    [done..|lia|lia|rewrite Hz; by split|].
  destruct (accepted_cut l index t n e0 (drop (S n) ents) ents lc l') as [Hct Hacc]; try done.
  rewrite -Hd in Happ. eexists l', _, _. split_and!; [|done..].
  rewrite go_slice_ok; [|unfold zlen in *; lia..]. f_equal.
  replace (Z.to_nat (index + 1 + Z.of_nat n - (index + 1))) with n by lia.
  apply take_ge. rewrite length_drop. unfold zlen in *. lia.
Qed.

(** [maybeAppend] is the receiver's half of log replication.  When the log
    does not have the previous entry it refuses and changes nothing; when an
    entry contradicts a committed one it panics; otherwise it accepts: all the
    leader's entries are in the log, nothing at or below the previous index or
    already committed has changed, the commit index becomes the largest of the
    old one and what the leader has committed of these entries, and the log is
    cut only if an entry disagreed. *)
Lemma maybeAppend_wf l index t lc ents :
  log_wf l → storage_ok l → 0 ≤ index → 0 ≤ lc →
  numbered (index + 1) ents → idx_ok (index + zlen ents) →
  (term_at l index ≠ Some t → maybeAppend l index t lc ents = Ok (l, None)) ∧
  (term_at l index = Some t →
   (∃ e, e ∈ ents ∧ e_Index e ≤ committed l ∧ ¬ agrees l e) →
   ∃ why, maybeAppend l index t lc ents = Panic why) ∧
  (term_at l index = Some t →
   (∀ e, e ∈ ents → e_Index e ≤ committed l → agrees l e) →
   ∃ l', maybeAppend l index t lc ents = Ok (l', Some (index + zlen ents)) ∧ accepted l index ents lc l').
Proof.
  intros H Hs Hi Hlc Hn [Hb1 Hb]. pose proof (zlen_nonneg ents). unfold maybeAppend. rewrite matchTerm_wf //; [|lia].
  split; [intros Ht; by rewrite bool_decide_eq_false_2|].
  assert (term_at l index = Some t → snapIndex l ≤ index ≤ last_index l) as Hin.
  { intros Ht. apply term_at_is_Some; [done|]. by rewrite Ht. }
  destruct (findConflict_wf l (index + 1) ents H) as (n & Hle & Hpre & Hbad & ->); [lia|done|lia|].
  assert (Hbadn : ∀ e i, ents !! i = Some e → ¬ agrees l e → (n ≤ i)%nat).
  { intros e i He Hna. destruct (decide (n ≤ i)%nat) as [|Hlt]; [done|]. destruct Hna. apply Hpre.
    apply list_elem_of_lookup. exists i. rewrite lookup_take_lt; [done|lia]. }
  split; intros Ht; specialize (Hin Ht); rewrite bool_decide_eq_true_2 //; cbn -[last_index zlen go_slice].
  - intros (e & He & Hec & Hna). destruct (numbered_elem _ _ _ Hn He) as (i & Hie & Hei & _).
    pose proof (Hbadn _ _ Hie Hna). pose proof (lookup_lt_Some _ _ _ Hie).
    destruct (decide (n = length ents)); [lia|]. rewrite decide_False; [|lia]. rewrite decide_True; [|lia]. cbn. eauto.
  - intros Hok. rewrite (u64_idx (index + zlen ents)); [|lia]. rewrite go_min_min.
    destruct (decide (n = length ents)) as [->|Hne].
    + rewrite take_ge // in Hpre. change (decide (0 = 0)) with (@left (0 = 0) (0 ≠ 0) eq_refl). cbn -[last_index zlen]. pose proof (proj2 (Forall_forall _ _) Hpre) as Hall.
      destruct (accepted_same l index t ents lc H Hn Ht Hall) as [Hct Hacc].
      rewrite Hct. cbn -[zlen]. eauto.
    + rewrite decide_False; [|lia]. destruct (lookup_lt_is_Some_2 ents n) as [e0 He0]; [lia|].
      pose proof (Hbad _ He0) as Hna. pose proof (Hn _ _ He0) as Hidx.
      assert (Hcm : committed l < e_Index e0).
      { destruct (decide (committed l < e_Index e0)) as [|Hge]; [done|]. destruct Hna. apply Hok; [|lia].
        apply list_elem_of_lookup. eauto. }
      rewrite decide_False; [|lia]. rewrite (u64_idx (index + 1)); [|lia]. rewrite u64_idx; [|unfold zlen in *; lia].
      destruct (append_conflict l index t n e0 ents lc) as (l' & l'' & li & -> & Ha & Hct & Hacc);
        [done..|lia|]. cbn -[last_index zlen]. rewrite Ha. cbn -[last_index zlen]. rewrite Hct. cbn. eauto.
Qed.

(** The storage stays fit for a log that has kept its applied entries. *)
Lemma storage_ok_kept l l' :
  storage_ok l → storage l' = storage l → snapIndex l ≤ snapIndex l' →
  Z.min (applied l) (stabled l) ≤ Z.min (applied l') (stabled l') →
  (∀ i, snapIndex l' ≤ i ≤ applied l → term_at l' i = term_at l i) → storage_ok l'.
Proof.
  intros (fi & ft & Hfi & Hft & Hb & Hterm) Hs Hsn Hmin Hkeep. exists fi, ft. rewrite Hs.
  split_and!; [done|done|lia|lia|]. intros H. rewrite Hkeep; [|lia]. apply Hterm. lia.
Qed.

(** ** Reading ranges *)

(** [ents] is the part of the log with indices [lo], ..., [hi - 1]. *)
Definition is_range l (lo hi : Z) (ents : list Entry) : Prop :=
  zlen ents = Z.max 0 (hi - lo) ∧
  ∀ i, lo ≤ i < hi → ents !! Z.to_nat (i - lo) = entry_at l i.

Lemma go_slice_range l lo hi :
  log_wf l → offset l ≤ lo ≤ hi → hi ≤ last_index l + 1 →
  ∃ ents, go_slice (E:=raft_error) (entries l) (lo - offset l) (hi - offset l) = Ok ents ∧ is_range l lo hi ents.
Proof.
  intros H Hlo Hhi. pose proof (last_index_offset _ H). rewrite go_slice_ok; [|lia..]. eexists. split; [done|].
  unfold is_range, zlen in *. rewrite length_take length_drop. split; [lia|]. intros i Hi.
  rewrite lookup_take_lt; [|lia]. rewrite lookup_drop. unfold entry_at. rewrite decide_True; [|lia]. f_equal. lia.
Qed.

Lemma is_range_nil l lo hi : hi ≤ lo → is_range l lo hi [].
Proof. intros. split; [unfold zlen; cbn; lia|]. intros i Hi. lia. Qed.

Lemma mustCheckOutOfBounds_wf l lo hi :
  log_wf l → (if decide (entries l = []) then snapIndex l else offset l) ≤ lo ≤ hi → hi ≤ last_index l + 1 →
  mustCheckOutOfBounds l lo hi = Ok tt.
Proof.
  intros H Hlo Hhi. pose proof (lw_last _ H) as [? ?]. unfold mustCheckOutOfBounds.
  destruct (decide (hi < lo)); [lia|]. rewrite firstIndex_wf //. cbn -[last_index].
  destruct (decide (lo < _)); [lia|]. rewrite LastIndex_wf //. cbn -[last_index]. rewrite u64_idx; [|lia].
  by destruct (decide (last_index l + 1 < hi)); [lia|].
Qed.

Lemma slice_wf l lo hi :
  log_wf l → offset l ≤ lo < hi → hi ≤ last_index l + 1 →
  ∃ ents, slice l lo hi = Ok ents ∧ is_range l lo hi ents.
Proof.
  intros H Hlo Hhi. pose proof (last_index_offset _ H). pose proof (lw_last _ H) as [? ?].
  pose proof (lw_snap _ H). pose proof (lw_off _ H).
  destruct (go_slice_range l lo hi) as (ents & Hg & Hr); [done|lia|done|]. exists ents. split; [|done].
  assert (Hne : entries l ≠ []) by (intros He; unfold last_index, zlen in *; rewrite He in Hhi; cbn in Hhi; lia).
  unfold slice. rewrite mustCheckOutOfBounds_wf //; [|rewrite decide_False //; lia]. cbn -[last_index]. rewrite decide_False //.
  rewrite (u64_idx (lo - offset l)); [|lia]. rewrite u64_idx; [|lia]. done.
Qed.

Lemma nextEnts_wf l :
  log_wf l → ∃ ents, nextEnts l = Ok ents ∧ is_range l (Z.max (applied l) (snapIndex l) + 1) (committed l + 1) ents.
Proof.
  intros H. pose proof (lw_applied _ H). pose proof (lw_commit _ H). pose proof (lw_last _ H) as [? ?].
  pose proof (lw_off _ H). pose proof (lw_snap _ H). unfold nextEnts, nextEntsSince. rewrite firstIndex_wf //. cbn -[last_index].
  rewrite !(u64_idx (_ + 1)); [|lia..]. rewrite go_max_max. destruct (decide (entries l = [])) as [He|Hne].
  - assert (last_index l = snapIndex l) by (unfold last_index; rewrite He; unfold zlen; cbn; lia).
    exists []. split; [|apply is_range_nil; lia]. case_decide; [|done].
    unfold slice. rewrite mustCheckOutOfBounds_wf //; [|rewrite decide_True //; lia|lia]. cbn. by rewrite decide_True.
  - replace (Z.max (applied l + 1) (offset l)) with (Z.max (applied l) (snapIndex l) + 1) by lia. case_decide.
    + destruct (slice_wf l (Z.max (applied l) (snapIndex l) + 1) (committed l + 1)) as (ents & Hg & Hr); [done|lia|lia|].
      rewrite Hg. cbn. eauto.
    + exists []. split; [done|apply is_range_nil; lia].
Qed.

Lemma unstableEntries_wf l :
  log_wf l → ∃ ents, unstableEntries l = Ok ents ∧ is_range l (stabled l + 1) (last_index l + 1) ents.
Proof.
  intros H. pose proof (lw_last _ H) as [? ?]. pose proof (lw_off _ H). pose proof (lw_snap _ H).
  pose proof (lw_stable _ H). pose proof (last_index_offset _ H). unfold unstableEntries.
  rewrite u64_idx; [|lia]. rewrite i64_small; [|lia]. rewrite decide_False; [|lia].
  replace (zlen (entries l)) with (last_index l + 1 - offset l) by lia. apply go_slice_range; [done|lia|lia].
Qed.

Lemma Entries_wf l i :
  log_wf l → offset l ≤ i → ∃ ents, Entries l i = Ok ents ∧ is_range l i (last_index l + 1) ents.
Proof.
  intros H Hi. pose proof (lw_last _ H) as [? ?]. pose proof (lw_off _ H). pose proof (lw_snap _ H).
  pose proof (last_index_offset _ H). unfold Entries. rewrite firstIndex_wf //. cbn -[last_index].
  rewrite decide_False; [|case_decide; lia]. rewrite LastIndex_wf //. cbn -[last_index].
  case_decide; [exists []; split; [done|apply is_range_nil; lia]|]. rewrite u64_idx; [|lia].
  replace (zlen (entries l)) with (last_index l + 1 - offset l) by lia. apply go_slice_range; [done|lia|lia].
Qed.

(** ** The other operations keep the log well formed *)

Lemma appliedTo_wf l i :
  log_wf l → applied l ≤ i ≤ committed l →
  ∃ l', appliedTo l i = Ok l' ∧ l' = set_applied (if decide (i = 0) then applied l else i) l ∧ log_wf l'.
Proof.
  intros H Hi. unfold appliedTo. pose proof (lw_applied _ H). case_decide as E.
  - exists l. split_and!; [done|by destruct l|done].
  - rewrite decide_False; [|lia]. eexists. split_and!; [done..|]. destruct H. split; cbn; try done; lia.
Qed.

Lemma stableTo_wf l i t :
  log_wf l → 0 ≤ i ≤ 2 ^ 63 →
  ∃ l', stableTo l i t = Ok l' ∧ log_wf l' ∧
    l' = if decide (term_at l i = Some t) then set_stabled (Z.max (stabled l) i) l else l.
Proof.
  intros H Hi. unfold stableTo. rewrite matchTerm_wf //. cbn -[bool_decide]. eexists. split; [done|].
  pose proof (lw_stable _ H). assert (Hin : term_at l i = Some t → snapIndex l ≤ i ≤ last_index l).
  { intros E. apply term_at_is_Some; [done|]. by rewrite E. }
  destruct (decide (term_at l i = Some t)) as [E|E].
  - rewrite bool_decide_eq_true_2 //. destruct (decide (true = true ∧ stabled l < i)) as [[_ Hlt]|Hge].
    + specialize (Hin E). rewrite Z.max_r; [|lia]. split; [|done]. destruct H. split; cbn; try done; unfold last_index in *; cbn; lia.
    + rewrite Z.max_l; [|destruct (decide (stabled l < i)); [by destruct Hge|lia]]. split; [done|by destruct l].
  - rewrite bool_decide_eq_false_2 //.
Qed.

Lemma log_maybeCommit_wf l i t :
  log_wf l → i ≤ 2 ^ 63 →
  log_maybeCommit l i t =
    Ok (if decide (committed l < i ∧ term_at l i = Some t) then (set_committed i l, true) else (l, false)) ∧
  (committed l < i → term_at l i = Some t → log_wf (set_committed i l)).
Proof.
  intros H Hi. pose proof (lw_commit _ H). pose proof (lw_snap _ H). unfold log_maybeCommit.
  assert (Hin : term_at l i = Some t → snapIndex l ≤ i ≤ last_index l).
  { intros E. apply term_at_is_Some; [done|]. by rewrite E. }
  destruct (decide (committed l < i)) as [Hlt|Hge]; [|split; [by rewrite decide_False; [|tauto]|done]].
  rewrite matchTerm_wf //; [|lia]. cbn -[bool_decide]. destruct (decide (term_at l i = Some t)) as [E|E].
  - rewrite bool_decide_eq_true_2 // decide_True; [|done]. destruct (commitTo_wf l i H) as [-> Hwf]; [naive_solver|].
    rewrite Z.max_r in Hwf |- *; [|lia]. done.
  - rewrite bool_decide_eq_false_2 // decide_False; [|tauto]. done.
Qed.

Lemma log_restore_wf l s md :
  log_wf l → sp_Metadata s = Some md → committed l ≤ md_Index md → idx_ok (md_Index md) →
  ∃ l', log_restore l s = Ok l' ∧ log_wf l' ∧ entries l' = [] ∧ snapIndex l' = md_Index md ∧ snapTerm l' = md_Term md ∧
    committed l' = md_Index md ∧ stabled l' = md_Index md ∧ applied l' = applied l ∧ pending_snapshot l' = Some s.
Proof.
  intros H Hm Hc [? ?]. unfold log_restore, snap_meta. rewrite Hm. cbn. eexists. split; [done|].
  pose proof (lw_applied _ H). split_and!; try done. rewrite u64_idx; [|lia].
  split; unfold last_index, zlen; cbn; try done; try lia; [split; lia|].
  intros s' [= <-]. exists md. done.
Qed.
End LogSpec.
