(* ===== verification/Raft.v ===== *)
(** The raft state machine of a peer: raft/raft.go, raft/util.go.

    [Raft] is the struct; a method returns the struct it leaves.  Two things in
    the code are not determined by the state, and come from a parameter, the
    class [GoEnv]: the random number of an election timeout, and the order in
    which Go ranges over a map when it sends to the peers.  The field [tape]
    counts how often the parameter has been consulted, so that no two draws
    are assumed equal.  Tick counters are unbounded integers. *)

From S2P Require Import Prelude RaftPb RaftStorage RaftLog.

(** [rand.Intn n] is in [0, n); ranging over a map visits each key once. *)
Class GoEnv := {
  go_Intn : nat → Z → Z;
  go_Intn_range k n : 0 < n → 0 ≤ go_Intn k n < n;
  go_range : nat → list Z → list Z;
  go_range_perm k ks : go_range k ks ≡ₚ ks
}.

Definition None' : Z := 0.

Inductive StateType := StateFollower | StateCandidate | StateLeader.
#[export] Instance StateType_eq_dec : EqDecision StateType.
Proof. solve_decision. Defined.

(** ** Progress *)

Record Progress := mkProgress { Match : Z; Next : Z }.
#[export] Instance Progress_eq_dec : EqDecision Progress.
Proof. solve_decision. Defined.

Definition maybeUpdate (pr : Progress) (n : Z) : Progress * bool :=
  let updated := bool_decide (Match pr < n) in
  let mtch := if decide (Match pr < n) then n else Match pr in
  let next := if decide (Next pr < u64 (n + 1)) then u64 (n + 1) else Next pr in
  (mkProgress mtch next, updated).

Definition maybeDecrTo (pr : Progress) (rejected last : Z) : Progress * bool :=
  if decide (rejected ≤ Match pr) then (pr, false)
  else
    let next := go_min rejected (u64 (last + 1)) in
    (mkProgress (Match pr) (if decide (next < 1) then 1 else next), true).

(** ** Config *)

Section Raft.
Context {T : Type} {HS : RaftStorage T} {HG : GoEnv}.

(** A nil storage is [None]. *)
Record Config := mkConfig {
  ID : Z;
  peers : list Z;
  ElectionTick : Z;
  HeartbeatTick : Z;
  cfg_Storage : option T;
  Applied : Z
}.

Definition validate (c : Config) : option raft_error :=
  if decide (ID c = None') then Some (ErrConfig "cannot use none as id")
  else if decide (HeartbeatTick c ≤ 0) then Some (ErrConfig "heartbeat tick must be greater than 0")
  else if decide (ElectionTick c ≤ HeartbeatTick c) then
    Some (ErrConfig "election tick must be greater than heartbeat tick")
  else match cfg_Storage c with None => Some (ErrConfig "storage cannot be nil") | Some _ => None end.

Record Raft := mkRaft {
  r_id : Z;
  r_Term : Z;
  r_Vote : Z;
  r_raftLog : RaftLog T;
  r_Prs : gmap Z Progress;
  r_State : StateType;
  r_votes : gmap Z bool;
  r_msgs : list Message;
  r_Lead : Z;
  r_heartbeatTimeout : Z;
  r_electionTimeout : Z;
  r_randomizedElectionTimeout : Z;
  r_leadTransferee : Z;
  r_PendingConfIndex : Z;
  r_electionElapsed : Z;
  r_heartbeatElapsed : Z;
  r_tape : nat
}.
Implicit Types r : Raft.

Definition set_Term (x : Z) r : Raft :=
    mkRaft (r_id r) x (r_Vote r) (r_raftLog r) (r_Prs r) (r_State r) (r_votes r) (r_msgs r) (r_Lead r)
    (r_heartbeatTimeout r) (r_electionTimeout r) (r_randomizedElectionTimeout r) (r_leadTransferee r)
    (r_PendingConfIndex r) (r_electionElapsed r) (r_heartbeatElapsed r) (r_tape r).
Definition set_Vote (x : Z) r : Raft :=
    mkRaft (r_id r) (r_Term r) x (r_raftLog r) (r_Prs r) (r_State r) (r_votes r) (r_msgs r) (r_Lead r)
    (r_heartbeatTimeout r) (r_electionTimeout r) (r_randomizedElectionTimeout r) (r_leadTransferee r)
    (r_PendingConfIndex r) (r_electionElapsed r) (r_heartbeatElapsed r) (r_tape r).
Definition set_raftLog (x : RaftLog T) r : Raft :=
    mkRaft (r_id r) (r_Term r) (r_Vote r) x (r_Prs r) (r_State r) (r_votes r) (r_msgs r) (r_Lead r)
    (r_heartbeatTimeout r) (r_electionTimeout r) (r_randomizedElectionTimeout r) (r_leadTransferee r)
    (r_PendingConfIndex r) (r_electionElapsed r) (r_heartbeatElapsed r) (r_tape r).
Definition set_Prs (x : gmap Z Progress) r : Raft :=
    mkRaft (r_id r) (r_Term r) (r_Vote r) (r_raftLog r) x (r_State r) (r_votes r) (r_msgs r) (r_Lead r)
    (r_heartbeatTimeout r) (r_electionTimeout r) (r_randomizedElectionTimeout r) (r_leadTransferee r)
    (r_PendingConfIndex r) (r_electionElapsed r) (r_heartbeatElapsed r) (r_tape r).
Definition set_State (x : StateType) r : Raft :=
    mkRaft (r_id r) (r_Term r) (r_Vote r) (r_raftLog r) (r_Prs r) x (r_votes r) (r_msgs r) (r_Lead r)
    (r_heartbeatTimeout r) (r_electionTimeout r) (r_randomizedElectionTimeout r) (r_leadTransferee r)
    (r_PendingConfIndex r) (r_electionElapsed r) (r_heartbeatElapsed r) (r_tape r).
Definition set_votes (x : gmap Z bool) r : Raft :=
    mkRaft (r_id r) (r_Term r) (r_Vote r) (r_raftLog r) (r_Prs r) (r_State r) x (r_msgs r) (r_Lead r)
    (r_heartbeatTimeout r) (r_electionTimeout r) (r_randomizedElectionTimeout r) (r_leadTransferee r)
    (r_PendingConfIndex r) (r_electionElapsed r) (r_heartbeatElapsed r) (r_tape r).
Definition set_msgs (x : list Message) r : Raft :=
    mkRaft (r_id r) (r_Term r) (r_Vote r) (r_raftLog r) (r_Prs r) (r_State r) (r_votes r) x (r_Lead r)
    (r_heartbeatTimeout r) (r_electionTimeout r) (r_randomizedElectionTimeout r) (r_leadTransferee r)
    (r_PendingConfIndex r) (r_electionElapsed r) (r_heartbeatElapsed r) (r_tape r).
Definition set_Lead (x : Z) r : Raft :=
    mkRaft (r_id r) (r_Term r) (r_Vote r) (r_raftLog r) (r_Prs r) (r_State r) (r_votes r) (r_msgs r) x
    (r_heartbeatTimeout r) (r_electionTimeout r) (r_randomizedElectionTimeout r) (r_leadTransferee r)
    (r_PendingConfIndex r) (r_electionElapsed r) (r_heartbeatElapsed r) (r_tape r).
Definition set_randomizedElectionTimeout (x : Z) r : Raft :=
    mkRaft (r_id r) (r_Term r) (r_Vote r) (r_raftLog r) (r_Prs r) (r_State r) (r_votes r) (r_msgs r) (r_Lead
    r) (r_heartbeatTimeout r) (r_electionTimeout r) x (r_leadTransferee r) (r_PendingConfIndex r)
    (r_electionElapsed r) (r_heartbeatElapsed r) (r_tape r).
Definition set_leadTransferee (x : Z) r : Raft :=
    mkRaft (r_id r) (r_Term r) (r_Vote r) (r_raftLog r) (r_Prs r) (r_State r) (r_votes r) (r_msgs r) (r_Lead
    r) (r_heartbeatTimeout r) (r_electionTimeout r) (r_randomizedElectionTimeout r) x (r_PendingConfIndex r)
    (r_electionElapsed r) (r_heartbeatElapsed r) (r_tape r).
Definition set_PendingConfIndex (x : Z) r : Raft :=
    mkRaft (r_id r) (r_Term r) (r_Vote r) (r_raftLog r) (r_Prs r) (r_State r) (r_votes r) (r_msgs r) (r_Lead
    r) (r_heartbeatTimeout r) (r_electionTimeout r) (r_randomizedElectionTimeout r) (r_leadTransferee r) x
    (r_electionElapsed r) (r_heartbeatElapsed r) (r_tape r).
Definition set_electionElapsed (x : Z) r : Raft :=
    mkRaft (r_id r) (r_Term r) (r_Vote r) (r_raftLog r) (r_Prs r) (r_State r) (r_votes r) (r_msgs r) (r_Lead
    r) (r_heartbeatTimeout r) (r_electionTimeout r) (r_randomizedElectionTimeout r) (r_leadTransferee r)
    (r_PendingConfIndex r) x (r_heartbeatElapsed r) (r_tape r).
Definition set_heartbeatElapsed (x : Z) r : Raft :=
    mkRaft (r_id r) (r_Term r) (r_Vote r) (r_raftLog r) (r_Prs r) (r_State r) (r_votes r) (r_msgs r) (r_Lead
    r) (r_heartbeatTimeout r) (r_electionTimeout r) (r_randomizedElectionTimeout r) (r_leadTransferee r)
    (r_PendingConfIndex r) (r_electionElapsed r) x (r_tape r).
Definition set_tape (x : nat) r : Raft :=
    mkRaft (r_id r) (r_Term r) (r_Vote r) (r_raftLog r) (r_Prs r) (r_State r) (r_votes r) (r_msgs r) (r_Lead
    r) (r_heartbeatTimeout r) (r_electionTimeout r) (r_randomizedElectionTimeout r) (r_leadTransferee r)
    (r_PendingConfIndex r) (r_electionElapsed r) (r_heartbeatElapsed r) x.

(** ** Sending *)

Definition map_keys {A} (m : gmap Z A) : list Z := (map_to_list m).*1.

(** Ranging over the peers' ids: one draw of the order. *)
Definition range_ids r : list Z * Raft := (go_range (r_tape r) (map_keys (r_Prs r)), set_tape (S (r_tape r)) r).

Definition quorum r : Z := Z.of_nat (size (r_Prs r)) / 2 + 1.

Definition set_From_Term (m : Message) (from term : Z) : Message :=
  mkMessage (MsgType m) (To m) from term (LogTerm m) (m_Index m) (m_Entries m) (m_Commit m) (m_Snapshot m)
    (Reject m) (RejectHint m).

Definition send r (m : Message) : outcome raft_error Raft :=
  let queue term := Ok (set_msgs (r_msgs r ++ [set_From_Term m (r_id r) term]) r) in
  match MsgType m with
  | MsgRequestVote | MsgRequestVoteResponse =>
    if decide (m_Term m = 0) then Panic "term should be set when sending" else queue (m_Term m)
  | MsgPropose => if decide (m_Term m ≠ 0) then Panic "term should not be set when sending" else queue 0
  | _ => if decide (m_Term m ≠ 0) then Panic "term should not be set when sending" else queue (r_Term r)
  end.

(** A nil [*Progress] is dereferenced by its user. *)
Definition getProgress r (id : Z) : option Progress := r_Prs r !! id.
Definition deref_pr (pr : option Progress) : outcome raft_error Progress :=
  match pr with Some pr => Ok pr | None => Panic "nil pointer dereference" end.

Definition msg_append (to index logTerm commit : Z) (ents : list Entry) : Message :=
  mkMessage MsgAppend to 0 0 logTerm index ents commit None false 0.
Definition msg_snapshot (to : Z) (s : Snapshot) : Message :=
  mkMessage MsgSnapshot to 0 0 0 0 [] 0 (Some s) false 0.

(** The boolean result says whether a message was sent. *)
Definition sendAppend r (to : Z) : outcome raft_error (Raft * bool) :=
  pr ← deref_pr (getProgress r to);
  term ← catch (RaftLog.Term (r_raftLog r) (u64 (Next pr - 1)));
  ents ← catch (Entries (r_raftLog r) (Next pr));
  match term, ents with
  | inl term, inl ents =>
    r ← send r (msg_append to (u64 (Next pr - 1)) term (committed (r_raftLog r)) ents);
    Ok (r, true)
  | _, _ =>
    '(l, s) ← snapshot (r_raftLog r);
    let r := set_raftLog l r in
    match s with
    | inr ErrSnapshotTemporarilyUnavailable => Ok (r, false)
    | inr _ => Panic "panic(err)"
    | inl s =>
      if IsEmptySnap (Some s) then Panic "need non-empty snapshot"
      else r ← send r (msg_snapshot to s); Ok (r, true)
    end
  end.

Definition sendHeartbeat r (to : Z) : outcome raft_error Raft :=
  pr ← deref_pr (getProgress r to);
  let commit := go_min (Match pr) (committed (r_raftLog r)) in
  send r (mkMessage MsgHeartbeat to 0 0 0 0 [] commit None false 0).

(** [forEachProgress] with a callback that sends. *)
Fixpoint for_each (f : Raft → Z → outcome raft_error Raft) (ids : list Z) r : outcome raft_error Raft :=
  match ids with
  | [] => Ok r
  | to :: ids => r ← f r to; for_each f ids r
  end.

Definition bcastAppend r : outcome raft_error Raft :=
  let '(ids, r) := range_ids r in
  for_each (λ r to, if decide (to = r_id r) then Ok r else '(r, _) ← sendAppend r to; Ok r) ids r.

Definition bcastHeartbeat r : outcome raft_error Raft :=
  let '(ids, r) := range_ids r in
  for_each (λ r to, if decide (to = r_id r) then Ok r else sendHeartbeat r to) ids r.

Definition sendTimeoutNow r (to : Z) : outcome raft_error Raft :=
  send r (mkMessage MsgTimeoutNow to 0 0 0 0 [] 0 None false 0).

(** ** Committing and appending *)

(** [uint64Slice] with [sort.Sort]. *)
Definition sort_u64 (l : list Z) : list Z := merge_sort Z.le l.

Definition maybeCommit r : outcome raft_error (Raft * bool) :=
  let matchIndex := sort_u64 (Match <$> (map_to_list (r_Prs r)).*2) in
  mci ← go_index matchIndex (zlen matchIndex - quorum r);
  '(l, ok) ← log_maybeCommit (r_raftLog r) mci (r_Term r);
  Ok (set_raftLog l r, ok).

Definition abortLeaderTransfer r : Raft := set_leadTransferee None' r.

Definition resetRandomizedElectionTimeout r : Raft :=
  set_randomizedElectionTimeout (r_electionTimeout r + go_Intn (r_tape r) (r_electionTimeout r))
    (set_tape (S (r_tape r)) r).

Definition reset r (term : Z) : outcome raft_error Raft :=
  let r := if decide (r_Term r ≠ term) then set_Vote None' (set_Term term r) else r in
  let r := set_Lead None' r in
  let r := set_heartbeatElapsed 0 (set_electionElapsed 0 r) in
  let r := resetRandomizedElectionTimeout r in
  let r := abortLeaderTransfer r in
  let r := set_votes ∅ r in
  li ← (if decide (r_Prs r = ∅) then Ok 0 else LastIndex (r_raftLog r));
  let r := set_Prs (map_imap (λ id _, Some (mkProgress (if decide (id = r_id r) then li else 0) (u64 (li + 1))))
                      (r_Prs r)) r in
  Ok (set_PendingConfIndex 0 r).

(** The entries get the leader's term and the next indices. *)
Definition number_entries (term li : Z) (es : list Entry) : list Entry :=
  imap (λ i e, mkEntry (e_Type e) term (u64 (li + 1 + Z.of_nat i)) (e_Data e)) es.

Definition appendEntry r (es : list Entry) : outcome raft_error Raft :=
  li ← LastIndex (r_raftLog r);
  '(l, li) ← append (r_raftLog r) (number_entries (r_Term r) li es);
  let r := set_raftLog l r in
  pr ← deref_pr (getProgress r (r_id r));
  let r := set_Prs (<[r_id r := (maybeUpdate pr li).1]> (r_Prs r)) r in
  '(r, _) ← maybeCommit r;
  Ok r.

(** ** Changing role *)

Definition becomeFollower r (term lead : Z) : outcome raft_error Raft :=
  r ← reset r term;
  Ok (set_State StateFollower (set_Lead lead r)).

Definition becomeCandidate r : outcome raft_error Raft :=
  r ← reset r (u64 (r_Term r + 1));
  Ok (set_State StateCandidate (set_Vote (r_id r) r)).

Definition becomeLeader r : outcome raft_error Raft :=
  r ← reset r (r_Term r);
  let r := set_State StateLeader (set_Lead (r_id r) r) in
  li ← LastIndex (r_raftLog r);
  let r := set_PendingConfIndex li r in
  appendEntry r [mkEntry EntryNormal 0 0 None].

(** [poll]: the number of granted votes. *)
Definition granted_votes (votes : gmap Z bool) : Z :=
  zlen (filter (λ v, v = true) (map_to_list votes).*2).

Definition poll r (id : Z) (v : bool) : Raft * Z :=
  let votes := match r_votes r !! id with None => <[id := v]> (r_votes r) | Some _ => r_votes r end in
  (set_votes votes r, granted_votes votes).

Definition campaign r : outcome raft_error Raft :=
  r ← becomeCandidate r;
  let term := r_Term r in
  let '(r, granted) := poll r (r_id r) true in
  if decide (quorum r = granted) then becomeLeader r
  else
    let '(ids, r) := range_ids r in
    for_each (λ r to,
      if decide (to = r_id r) then Ok r
      else
        lt ← lastTerm (r_raftLog r);
        li ← LastIndex (r_raftLog r);
        send r (mkMessage MsgRequestVote to 0 term lt li [] 0 None false 0)) ids r.

Definition promotable r : bool := bool_decide (is_Some (r_Prs r !! r_id r)).
Definition pastElectionTimeout r : bool := bool_decide (r_randomizedElectionTimeout r ≤ r_electionElapsed r).

(** ** Configuration *)

Definition setProgress r (id mtch next : Z) : Raft := set_Prs (<[id := mkProgress mtch next]> (r_Prs r)) r.

Definition addNode r (id : Z) : outcome raft_error Raft :=
  match getProgress r id with
  | None => li ← LastIndex (r_raftLog r); Ok (setProgress r id 0 (u64 (li + 1)))
  | Some _ => Ok r
  end.

Definition removeNode r (id : Z) : outcome raft_error Raft :=
  let r := set_Prs (delete id (r_Prs r)) r in
  if decide (r_Prs r = ∅) then Ok r
  else
    '(r, ok) ← maybeCommit r;
    r ← (if ok : bool then bcastAppend r else Ok r);
    Ok (if decide (r_State r = StateLeader ∧ r_leadTransferee r = id) then abortLeaderTransfer r else r).

Fixpoint restoreNode r (nodes : list Z) : outcome raft_error Raft :=
  match nodes with
  | [] => Ok r
  | n :: nodes =>
    li ← LastIndex (r_raftLog r);
    let next := u64 (li + 1) in
    let mtch := if decide (n = r_id r) then u64 (next - 1) else 0 in
    restoreNode (setProgress r n mtch next) nodes
  end.

(** [restore]: whether the snapshot was installed.  Both branches first write a
    log line that evaluates the last index and term. *)
Definition restore r (s : Snapshot) : outcome raft_error (Raft * bool) :=
  md ← snap_meta s;
  if decide (md_Index md ≤ committed (r_raftLog r)) then Ok (r, false)
  else
    ok ← matchTerm (r_raftLog r) (md_Index md) (md_Term md);
    _ ← LastIndex (r_raftLog r);
    _ ← lastTerm (r_raftLog r);
    if ok : bool then
      l ← commitTo (r_raftLog r) (md_Index md);
      Ok (set_raftLog l r, false)
    else
      l ← log_restore (r_raftLog r) s;
      let r := set_Prs ∅ (set_raftLog l r) in
      cs ← (match md_ConfState md with Some cs => Ok cs | None => Panic "nil pointer dereference" end);
      r ← restoreNode r (Nodes cs);
      Ok (r, true).

(** ** Handlers *)

Definition msg_append_resp (to index : Z) (reject : bool) (hint : Z) : Message :=
  mkMessage MsgAppendResponse to 0 0 0 index [] 0 None reject hint.

Definition handleAppendEntries r (m : Message) : outcome raft_error Raft :=
  if decide (m_Index m < committed (r_raftLog r)) then
    send r (msg_append_resp (From m) (committed (r_raftLog r)) false 0)
  else
    '(l, ok) ← maybeAppend (r_raftLog r) (m_Index m) (LogTerm m) (m_Commit m) (m_Entries m);
    let r := set_raftLog l r in
    match ok with
    | Some mlastIndex => send r (msg_append_resp (From m) mlastIndex false 0)
    | None =>
      li ← LastIndex (r_raftLog r);
      send r (msg_append_resp (From m) (m_Index m) true li)
    end.

Definition handleHeartbeat r (m : Message) : outcome raft_error Raft :=
  l ← commitTo (r_raftLog r) (m_Commit m);
  send (set_raftLog l r) (mkMessage MsgHeartbeatResponse (From m) 0 0 0 0 [] 0 None false 0).

Definition handleSnapshot r (m : Message) : outcome raft_error Raft :=
  match m_Snapshot m with
  | None => Panic "nil pointer dereference"
  | Some s =>
    '(r, ok) ← restore r s;
    if ok : bool then
      li ← LastIndex (r_raftLog r);
      send r (msg_append_resp (From m) li false 0)
    else send r (msg_append_resp (From m) (committed (r_raftLog r)) false 0)
  end.

(** ** Stepping *)

(** A step returns the state and the error of the Go method, if any. *)
Definition stepped : Type := Raft * option raft_error.
Definition fine (c : outcome raft_error Raft) : outcome raft_error stepped := r ← c; Ok (r, None).

(** Configuration entries of a proposal: one that comes while another is
    pending becomes an empty normal entry, otherwise its index is recorded. *)
Fixpoint propose_conf (li : Z) (i : Z) (es : list Entry) r : list Entry * Raft :=
  match es with
  | [] => ([], r)
  | e :: es =>
    if decide (e_Type e = EntryConfChange) then
      if decide (applied (r_raftLog r) < r_PendingConfIndex r) then
        let '(es, r) := propose_conf li (i + 1) es r in
        (mkEntry EntryNormal 0 0 None :: es, r)
      else
        let '(es, r) := propose_conf li (i + 1) es (set_PendingConfIndex (u64 (li + i + 1)) r) in
        (e :: es, r)
    else
      let '(es, r) := propose_conf li (i + 1) es r in
      (e :: es, r)
  end.

Definition leader_propose r (m : Message) : outcome raft_error stepped :=
  if decide (m_Entries m = []) then Panic "stepped empty MessageType_MsgPropose"
  else if decide (r_Prs r !! r_id r = None) then Ok (r, Some ErrProposalDropped)
  else if decide (r_leadTransferee r ≠ None') then Ok (r, Some ErrProposalDropped)
  else
    li ← LastIndex (r_raftLog r);
    let '(es, r) := propose_conf li 0 (m_Entries m) r in
    r ← appendEntry r es;
    fine (bcastAppend r).

Definition leader_append_response r (m : Message) (pr : Progress) : outcome raft_error stepped :=
  if Reject m then
    let '(pr, ok) := maybeDecrTo pr (m_Index m) (RejectHint m) in
    let r := set_Prs (<[From m := pr]> (r_Prs r)) r in
    if ok : bool then '(r, _) ← sendAppend r (From m); Ok (r, None) else Ok (r, None)
  else
    let '(pr, ok) := maybeUpdate pr (m_Index m) in
    let r := set_Prs (<[From m := pr]> (r_Prs r)) r in
    if ok : bool then
      '(r, ok) ← maybeCommit r;
      r ← (if ok : bool then bcastAppend r else Ok r);
      li ← LastIndex (r_raftLog r);
      if decide (From m = r_leadTransferee r ∧ Match pr = li) then fine (sendTimeoutNow r (From m))
      else Ok (r, None)
    else Ok (r, None).

Definition leader_transfer r (m : Message) (pr : Progress) : outcome raft_error stepped :=
  let leadTransferee := From m in
  let lastLeadTransferee := r_leadTransferee r in
  if decide (lastLeadTransferee ≠ None' ∧ lastLeadTransferee = leadTransferee) then Ok (r, None)
  else
    let r := if decide (lastLeadTransferee ≠ None') then abortLeaderTransfer r else r in
    if decide (leadTransferee = r_id r) then Ok (r, None)
    else
      let r := set_leadTransferee leadTransferee (set_electionElapsed 0 r) in
      li ← LastIndex (r_raftLog r);
      if decide (Match pr = li) then fine (sendTimeoutNow r leadTransferee)
      else '(r, _) ← sendAppend r leadTransferee; Ok (r, None).

Definition stepLeader r (m : Message) : outcome raft_error stepped :=
  match MsgType m, getProgress r (From m) with
  | MsgBeat, _ => fine (bcastHeartbeat r)
  | MsgPropose, _ => leader_propose r m
  | _, None => Ok (r, None)
  | MsgAppendResponse, Some pr => leader_append_response r m pr
  | MsgHeartbeatResponse, Some pr =>
    li ← LastIndex (r_raftLog r);
    if decide (Match pr < li) then '(r, _) ← sendAppend r (From m); Ok (r, None) else Ok (r, None)
  | MsgTransferLeader, Some pr => leader_transfer r m pr
  | _, Some _ => Ok (r, None)
  end.

Definition candidate_vote r (m : Message) : outcome raft_error stepped :=
  let '(r, gr) := poll r (From m) (negb (Reject m)) in
  if decide (quorum r = gr) then r ← becomeLeader r; fine (bcastAppend r)
  else if decide (quorum r = Z.of_nat (size (r_votes r)) - gr) then fine (becomeFollower r (r_Term r) None')
  else Ok (r, None).

Definition stepCandidate r (m : Message) : outcome raft_error stepped :=
  match MsgType m with
  | MsgPropose => Ok (r, Some ErrProposalDropped)
  | MsgAppend => r ← becomeFollower r (m_Term m) (From m); fine (handleAppendEntries r m)
  | MsgHeartbeat => r ← becomeFollower r (m_Term m) (From m); fine (handleHeartbeat r m)
  | MsgSnapshot => r ← becomeFollower r (m_Term m) (From m); fine (handleSnapshot r m)
  | MsgRequestVoteResponse => candidate_vote r m
  | _ => Ok (r, None)
  end.

Definition set_To (m : Message) (to : Z) : Message :=
  mkMessage (MsgType m) to (From m) (m_Term m) (LogTerm m) (m_Index m) (m_Entries m) (m_Commit m) (m_Snapshot m)
    (Reject m) (RejectHint m).

Definition stepFollower r (m : Message) : outcome raft_error stepped :=
  let heard := set_Lead (From m) (set_electionElapsed 0 r) in
  match MsgType m with
  | MsgPropose => Ok (r, Some ErrProposalDropped)
  | MsgAppend => fine (handleAppendEntries heard m)
  | MsgHeartbeat => fine (handleHeartbeat heard m)
  | MsgSnapshot => fine (handleSnapshot heard m)
  | MsgTransferLeader =>
    if decide (r_Lead r = None') then Ok (r, None) else fine (send r (set_To m (r_Lead r)))
  | MsgTimeoutNow => if promotable r then fine (campaign r) else Ok (r, None)
  | _ => Ok (r, None)
  end.

Definition numOfPendingConf (ents : list Entry) : Z :=
  zlen (filter (λ e, e_Type e = EntryConfChange) ents).

Definition step_hup r : outcome raft_error stepped :=
  if decide (r_State r ≠ StateLeader) then
    let l := r_raftLog r in
    ents ← or_panic (slice l (u64 (applied l + 1)) (u64 (committed l + 1)));
    if decide (numOfPendingConf ents ≠ 0 ∧ applied l < committed l) then Ok (r, None)
    else fine (campaign r)
  else Ok (r, None).

Definition msg_vote_resp (to term : Z) (reject : bool) : Message :=
  mkMessage MsgRequestVoteResponse to 0 term 0 0 [] 0 None reject 0.

(** The log line of either answer evaluates the last term and index. *)
Definition step_request_vote r (m : Message) : outcome raft_error stepped :=
  let canVote := bool_decide (r_Vote r = From m ∨ (r_Vote r = None' ∧ r_Lead r = None')) in
  ok ← (if canVote then isUpToDate (r_raftLog r) (m_Index m) (LogTerm m) else Ok false);
  _ ← lastTerm (r_raftLog r);
  _ ← LastIndex (r_raftLog r);
  if ok : bool then
    r ← send r (msg_vote_resp (From m) (m_Term m) false);
    Ok (set_Vote (From m) (set_electionElapsed 0 r), None)
  else fine (send r (msg_vote_resp (From m) (r_Term r) true)).

(** The dispatch on the message type, after the term has been handled. *)
Definition step_main r (m : Message) : outcome raft_error stepped :=
  match MsgType m with
  | MsgHup => step_hup r
  | MsgRequestVote => step_request_vote r m
  | _ =>
    match r_State r with
    | StateFollower => stepFollower r m
    | StateCandidate => stepCandidate r m
    | StateLeader => stepLeader r m
    end
  end.

Definition from_leader (t : MessageType) : bool :=
  match t with MsgAppend | MsgHeartbeat | MsgSnapshot => true | _ => false end.

Definition Step r (m : Message) : outcome raft_error stepped :=
  if decide (m_Term m = 0) then step_main r m
  else if decide (r_Term r < m_Term m) then
    r ← becomeFollower r (m_Term m) (if from_leader (MsgType m) then From m else None');
    step_main r m
  else if decide (m_Term m < r_Term r) then Ok (r, None)
  else step_main r m.

(** ** Ticks *)

(** The error of the [Step] a tick makes is dropped. *)
Definition ignore_err (c : outcome raft_error stepped) : outcome raft_error Raft := '(r, _) ← c; Ok r.

Definition tickElection r : outcome raft_error Raft :=
  let r := set_electionElapsed (r_electionElapsed r + 1) r in
  if promotable r && pastElectionTimeout r then
    let r := set_electionElapsed 0 r in
    ignore_err (Step r (set_From_Term (zero_msg MsgHup) (r_id r) 0))
  else Ok r.

Definition tickHeartbeat r : outcome raft_error Raft :=
  let r := set_heartbeatElapsed (r_heartbeatElapsed r + 1) r in
  let r := set_electionElapsed (r_electionElapsed r + 1) r in
  let r :=
    if decide (r_electionTimeout r ≤ r_electionElapsed r) then
      let r := set_electionElapsed 0 r in
      if decide (r_State r = StateLeader ∧ r_leadTransferee r ≠ None') then abortLeaderTransfer r else r
    else r in
  if decide (r_State r ≠ StateLeader) then Ok r
  else if decide (r_heartbeatTimeout r ≤ r_heartbeatElapsed r) then
    let r := set_heartbeatElapsed 0 r in
    ignore_err (Step r (set_From_Term (zero_msg MsgBeat) (r_id r) 0))
  else Ok r.

Definition tick r : outcome raft_error Raft :=
  match r_State r with
  | StateFollower | StateCandidate => tickElection r
  | StateLeader => tickHeartbeat r
  end.

(** ** Construction *)

Definition hardState r : HardState := mkHardState (r_Term r) (r_Vote r) (committed (r_raftLog r)).
Definition GetSnap r : option Snapshot := pending_snapshot (r_raftLog r).
Definition nodes r : list Z := sort_u64 (map_keys (r_Prs r)).

Definition loadState r (state : HardState) : outcome raft_error Raft :=
  li ← LastIndex (r_raftLog r);
  if decide (hs_Commit state < committed (r_raftLog r) ∨ li < hs_Commit state) then
    Panic "state.commit is out of range"
  else
    Ok (set_Vote (hs_Vote state) (set_Term (hs_Term state) (set_raftLog (set_committed (hs_Commit state) (r_raftLog r)) r))).

Definition newRaft (c : Config) : outcome raft_error Raft :=
  match validate c, cfg_Storage c with
  | Some _, _ | None, None => Panic "invalid config"
  | None, Some st =>
    raftlog ← newLog st;
    '(hs, cs) ← or_panic (st_InitialState st);
    peers ← (if decide (Nodes cs = []) then Ok (peers c)
             else if decide (peers c = []) then Ok (Nodes cs)
             else Panic "cannot specify both newRaft (peers) and ConfState.(Nodes)");
    let prs := list_to_map (map (λ p, (p, mkProgress 0 1)) peers) in
    let r := mkRaft (ID c) 0 0 raftlog prs StateFollower ∅ [] None' (HeartbeatTick c) (ElectionTick c) 0 0 0 0 0 0 in
    r ← (if IsEmptyHardState hs then Ok r else loadState r hs);
    r ← (if decide (0 < Applied c) then l ← appliedTo (r_raftLog r) (Applied c); Ok (set_raftLog l r) else Ok r);
    r ← becomeFollower r (r_Term r) None';
    _ ← lastTerm (r_raftLog r);
    Ok r
  end.
End Raft.
Arguments Raft : clear implicits.
Arguments Config : clear implicits.
Arguments stepped : clear implicits.
