(* ===== verification/RawNode.v ===== *)
(** The wrapper the store drives a raft peer with: raft/rawnode.go.

    A call that changes the peer returns the new [RawNode]; a method whose
    error the caller sees returns it beside.  [Marshal] of a configuration
    change belongs to the protobuf runtime and is an argument. *)

From S2P Require Import Prelude RaftPb RaftStorage RaftLog RaftLogSpec Raft.

Record SoftState := mkSoftState { Lead : Z; RaftState : StateType }.
#[export] Instance SoftState_eq_dec : EqDecision SoftState.
Proof. solve_decision. Defined.

Definition soft_equal (a b : SoftState) : bool :=
  bool_decide (Lead a = Lead b ∧ RaftState a = RaftState b).

(** A nil [*SoftState] is [None]. *)
Record Ready := mkReady {
  rd_SoftState : option SoftState;
  rd_HardState : HardState;
  rd_Entries : list Entry;
  rd_Snapshot : Snapshot;
  rd_CommittedEntries : list Entry;
  rd_Messages : list Message
}.

Section RawNode.
Context {T : Type} {HS : RaftStorage T} {HG : GoEnv}.
Notation Raft := (Raft T).

Definition softState (r : Raft) : SoftState := mkSoftState (r_Lead r) (r_State r).

(** [newReady] also takes the peer's messages from it. *)
Definition newReady (r : Raft) (prevSoftSt : SoftState) (prevHardSt : HardState) : outcome raft_error (Raft * Ready) :=
  ents ← unstableEntries (r_raftLog r);
  committed ← nextEnts (r_raftLog r);
  let msgs := r_msgs r in
  let r := if decide (zlen msgs ≠ 0) then set_msgs [] r else r in
  let softSt := softState r in
  let soft := if negb (soft_equal softSt prevSoftSt) then Some softSt else None in
  let hardSt := hardState r in
  let hard := if negb (isHardStateEqual hardSt prevHardSt) then hardSt else empty_hs in
  let snap := match pending_snapshot (r_raftLog r) with Some s => s | None => empty_snap end in
  Ok (r, mkReady soft hard ents snap committed msgs).

Record RawNode := mkRawNode { rn_Raft : Raft; prevSoftSt : SoftState; prevHardSt : HardState }.
Implicit Types rn : RawNode.

Definition set_Raft (r : Raft) rn : RawNode := mkRawNode r (prevSoftSt rn) (prevHardSt rn).

Definition NewRawNode (c : Config T) : outcome raft_error RawNode :=
  if decide (ID c = 0) then Panic "config.ID must not be zero"
  else
    r ← newRaft c;
    Ok (mkRawNode r (softState r) (hardState r)).

Definition Tick rn : outcome raft_error RawNode :=
  r ← tick (rn_Raft rn); Ok (set_Raft r rn).

(** [rn.Raft.Step(m)] with its error. *)
Definition raft_step rn (m : Message) : outcome raft_error (RawNode * option raft_error) :=
  '(r, e) ← Step (rn_Raft rn) m;
  Ok (set_Raft r rn, e).

Definition Campaign rn : outcome raft_error (RawNode * option raft_error) := raft_step rn (zero_msg MsgHup).

Definition msg_propose (from : Z) (e : Entry) : Message :=
  mkMessage MsgPropose 0 from 0 0 0 [e] 0 None false 0.

Definition Propose rn (data : option bytes) : outcome raft_error (RawNode * option raft_error) :=
  raft_step rn (msg_propose (r_id (rn_Raft rn)) (mkEntry EntryNormal 0 0 data)).

Definition ProposeConfChange (Marshal : ConfChange → bytes + raft_error) rn (cc : ConfChange)
  : outcome raft_error (RawNode * option raft_error) :=
  match Marshal cc with
  | inr e => Ok (rn, Some e)
  | inl data => raft_step rn (msg_propose 0 (mkEntry EntryConfChange 0 0 (Some data)))
  end.

Definition ApplyConfChange rn (cc : ConfChange) : outcome raft_error (RawNode * ConfState) :=
  if decide (NodeId cc = None') then Ok (rn, mkConfState (nodes (rn_Raft rn)))
  else
    r ← (match ChangeType cc with
         | AddNode => addNode (rn_Raft rn) (NodeId cc)
         | RemoveNode => removeNode (rn_Raft rn) (NodeId cc)
         end);
    Ok (set_Raft r rn, mkConfState (nodes r)).

Definition rn_Step rn (m : Message) : outcome raft_error (RawNode * option raft_error) :=
  if IsLocalMsg (MsgType m) then Ok (rn, Some ErrStepLocalMsg)
  else
    match getProgress (rn_Raft rn) (From m) with
    | Some _ => raft_step rn m
    | None => if negb (IsResponseMsg (MsgType m)) then raft_step rn m else Ok (rn, Some ErrStepPeerNotFound)
    end.

Definition rn_Ready rn : outcome raft_error (RawNode * Ready) :=
  '(r, rd) ← newReady (rn_Raft rn) (prevSoftSt rn) (prevHardSt rn);
  Ok (set_Raft (set_msgs [] r) rn, rd).

Definition rn_GetSnap rn : option Snapshot := GetSnap (rn_Raft rn).

(** The conditions are evaluated left to right and stop at the first true. *)
Definition HasReady rn : outcome raft_error bool :=
  let r := rn_Raft rn in
  if negb (soft_equal (softState r) (prevSoftSt rn)) then Ok true
  else if negb (IsEmptyHardState (hardState r)) && negb (isHardStateEqual (hardState r) (prevHardSt rn)) then Ok true
  else if negb (IsEmptySnap (rn_GetSnap rn)) then Ok true
  else if decide (0 < zlen (r_msgs r)) then Ok true
  else
    ents ← unstableEntries (r_raftLog r);
    if decide (0 < zlen ents) then Ok true else hasNextEnts (r_raftLog r).

Definition Advance rn (rd : Ready) : outcome raft_error RawNode :=
  let soft := match rd_SoftState rd with Some s => s | None => prevSoftSt rn end in
  let hard := if negb (IsEmptyHardState (rd_HardState rd)) then rd_HardState rd else prevHardSt rn in
  let l := r_raftLog (rn_Raft rn) in
  l ← (if decide (hs_Commit hard ≠ 0) then appliedTo l (hs_Commit hard) else Ok l);
  l ← (if decide (0 < zlen (rd_Entries rd)) then
         e ← go_index (rd_Entries rd) (zlen (rd_Entries rd) - 1);
         stableTo l (e_Index e) (e_Term e)
       else Ok l);
  l ← (if negb (IsEmptySnap (Some (rd_Snapshot rd))) then
         md ← snap_meta (rd_Snapshot rd);
         stableSnapTo l (md_Index md)
       else Ok l);
  Ok (mkRawNode (set_raftLog l (rn_Raft rn)) soft hard).

Definition GetProgress rn : gmap Z Progress :=
  if decide (r_State (rn_Raft rn) = StateLeader) then r_Prs (rn_Raft rn) else ∅.

(** The error of the step is dropped. *)
Definition TransferLeader rn (transferee : Z) : outcome raft_error RawNode :=
  '(rn, _) ← raft_step rn (set_From_Term (zero_msg MsgTransferLeader) transferee 0);
  Ok rn.

(** ** Ready and Advance *)

Lemma soft_equal_refl s : soft_equal s s = true.
Proof. by apply bool_decide_eq_true_2. Qed.
Lemma isHardStateEqual_eq a b : isHardStateEqual a b = bool_decide (a = b).
Proof. apply bool_decide_ext. destruct a, b; cbn. naive_solver. Qed.

Lemma newReady_wf r ps ph :
  log_wf (r_raftLog r) →
  ∃ rd, newReady r ps ph = Ok (set_msgs [] r, rd) ∧
    rd_SoftState rd = (if soft_equal (softState r) ps then None else Some (softState r)) ∧
    rd_HardState rd = (if bool_decide (hardState r = ph) then empty_hs else hardState r) ∧
    is_range (r_raftLog r) (stabled (r_raftLog r) + 1) (last_index (r_raftLog r) + 1) (rd_Entries rd) ∧
    is_range (r_raftLog r) (Z.max (applied (r_raftLog r)) (snapIndex (r_raftLog r)) + 1)
      (committed (r_raftLog r) + 1) (rd_CommittedEntries rd) ∧
    rd_Snapshot rd = default empty_snap (pending_snapshot (r_raftLog r)) ∧ rd_Messages rd = r_msgs r.
Proof.
  intros H. destruct (unstableEntries_wf _ H) as (ue & Hu & Hur). destruct (nextEnts_wf _ H) as (ne & Hn & Hnr).
  unfold newReady. rewrite Hu. cbn -[last_index]. rewrite Hn. cbn -[last_index]. rewrite isHardStateEqual_eq.
  assert (Hr : (if decide (zlen (r_msgs r) ≠ 0) then set_msgs [] r else r) = set_msgs [] r).
  { case_decide as E; [done|]. destruct (r_msgs r) as [|m ms] eqn:Em; [by destruct r; cbn in *; subst|].
    unfold zlen in E. cbn in E. lia. }
  rewrite Hr. eexists (mkReady _ _ ue _ ne _). split; [done|]. cbn -[last_index].
  split_and!; [by destruct (soft_equal _ _)| |exact Hur|exact Hnr|done|done].
  destruct (decide (hardState r = ph)); [rewrite !bool_decide_eq_true_2 //|rewrite !bool_decide_eq_false_2 //].
Qed.

Lemma last_in_range (l : RaftLog T) lo ents :
  log_wf l → snapIndex l < lo → is_range l lo (last_index l + 1) ents → 0 < zlen ents →
  ∃ e, go_index (E:=raft_error) ents (zlen ents - 1) = Ok e ∧ e_Index e = last_index l ∧
    term_at l (e_Index e) = Some (e_Term e).
Proof.
  intros H Hlo [Hlen Hr] Hpos. pose proof (lw_snap _ H).
  assert (Hz : zlen ents = last_index l + 1 - lo) by lia.
  assert (Hin : lo ≤ last_index l < last_index l + 1) by lia. specialize (Hr _ Hin).
  destruct (lookup_lt_is_Some_2 ents (Z.to_nat (last_index l - lo))) as [e He]; [unfold zlen in *; lia|].
  exists e. rewrite He in Hr. symmetry in Hr. pose proof (entry_at_Some _ _ _ H Hr) as [_ Hi]. split_and!; [|done|].
  - apply go_index_ok; [lia|]. by replace (zlen ents - 1) with (last_index l - lo) by lia.
  - rewrite Hi. unfold term_at. rewrite decide_False; [|lia]. by rewrite Hr.
Qed.

Lemma Advance_log (l l1 : RaftLog T) ue :
  log_wf l → l1 = set_applied (committed l) l →
  is_range l (stabled l + 1) (last_index l + 1) ue →
  log_wf l1 ∧ ∃ l2, (if decide (0 < zlen ue) then
         e ← go_index ue (zlen ue - 1);
         stableTo l1 (e_Index e) (e_Term e)
       else Ok l1) = Ok l2 ∧ l2 = set_stabled (last_index l) l1 ∧ log_wf l2.
Proof.
  intros H -> Hur. pose proof (lw_applied _ H). pose proof (lw_stable _ H). pose proof (lw_last _ H) as [??].
  assert (Hw1 : log_wf (set_applied (committed l) l)) by (destruct H; split; cbn; try done; lia).
  split; [done|]. case_decide as Hpos.
  - destruct (last_in_range l (stabled l + 1) ue) as (e & -> & Hi & Ht); [done|lia|done|done|]. cbn -[last_index].
    destruct (stableTo_wf _ (e_Index e) (e_Term e) Hw1) as (l2 & -> & Hwf & ->); [rewrite Hi; lia|].
    rewrite decide_True // in Hwf |- *. eexists. split_and!; [done| |done]. cbn. rewrite Hi. f_equal. lia.
  - destruct Hur as [Hlen _]. assert (stabled l = last_index l) as Hst by lia.
    exists (set_applied (committed l) l). split_and!; [done| |done]. rewrite -Hst. by destruct l.
Qed.

Lemma stableSnapTo_wf (l : RaftLog T) s :
  log_wf l → s = default empty_snap (pending_snapshot l) →
  ∃ l', (if negb (IsEmptySnap (Some s)) then md ← snap_meta s; stableSnapTo l (md_Index md) else Ok l) = Ok l' ∧
    (l' = l ∨ l' = set_pending None l) ∧ log_wf l' ∧ IsEmptySnap (pending_snapshot l') = true.
Proof.
  intros H ->. destruct (IsEmptySnap (Some (default empty_snap (pending_snapshot l)))) eqn:E; cbn -[IsEmptySnap].
  - exists l. split_and!; [done|by left|done|]. by destruct (pending_snapshot l).
  - unfold stableSnapTo. destruct (pending_snapshot l) as [s|] eqn:Ep; [|done]. cbn in *.
    destruct (lw_pend _ H s Ep) as (md & Hm & _). unfold snap_meta. rewrite Hm. cbn. rewrite decide_True //.
    eexists. split; [done|]. split_and!; [by right| |done]. destruct H. split; cbn; try done.
Qed.

Lemma empty_zlen {A} (l : list A) : zlen l = 0 → l = [].
Proof. destruct l; [done|]. unfold zlen. cbn. lia. Qed.

(** A node with everything applied, saved and sent has nothing ready. *)
Lemma HasReady_drained rn :
  let r := rn_Raft rn in
  log_wf (r_raftLog r) → softState r = prevSoftSt rn → (hardState r = prevHardSt rn ∨ hardState r = empty_hs) →
  IsEmptySnap (pending_snapshot (r_raftLog r)) = true → r_msgs r = [] →
  applied (r_raftLog r) = committed (r_raftLog r) → stabled (r_raftLog r) = last_index (r_raftLog r) →
  HasReady rn = Ok false.
Proof.
  intros r H Hs Hh Hp Hm Ha Hst. unfold HasReady. fold r. rewrite Hs soft_equal_refl. cbn [negb].
  rewrite /IsEmptyHardState !isHardStateEqual_eq.
  assert (Hhs : negb (bool_decide (hardState r = empty_hs)) && negb (bool_decide (hardState r = prevHardSt rn)) = false).
  { destruct Hh; [rewrite (bool_decide_eq_true_2 (_ = prevHardSt rn)) //; apply andb_false_r|].
    by rewrite (bool_decide_eq_true_2 (_ = empty_hs)). }
  rewrite Hhs. rewrite /rn_GetSnap /GetSnap. fold r. rewrite Hp Hm. cbn -[zlen].
  destruct (unstableEntries_wf _ H) as (ue & -> & [Hlen _]). cbn -[zlen last_index].
  rewrite decide_False; [|lia]. unfold hasNextEnts, hasNextEntsSince. rewrite firstIndex_wf //. cbn -[last_index].
  pose proof (lw_applied _ H). pose proof (lw_commit _ H). pose proof (lw_last _ H) as [??].
  f_equal. apply bool_decide_eq_false_2. rewrite !(u64_idx (_ + 1)); [|lia..]. rewrite go_max_max. lia.
Qed.

(** The log after [Advance]: all of it saved, everything committed applied. *)
Definition advanced (l l' : RaftLog T) : Prop :=
  let l1 := set_stabled (last_index l) (set_applied (committed l) l) in
  (l' = l1 ∨ l' = set_pending None l1) ∧ log_wf l' ∧ IsEmptySnap (pending_snapshot l') = true.

Lemma Ready_Advance_state rn :
  let r := rn_Raft rn in let l := r_raftLog r in
  log_wf l → (hardState r = empty_hs → prevHardSt rn = empty_hs) →
  ∃ rd l' soft,
    rn_Ready rn = Ok (set_Raft (set_msgs [] r) rn, rd) ∧
    Advance (set_Raft (set_msgs [] r) rn) rd = Ok (mkRawNode (set_raftLog l' (set_msgs [] r)) soft (hardState r)) ∧
    soft = softState r ∧ advanced l l' ∧
    is_range l (stabled l + 1) (last_index l + 1) (rd_Entries rd) ∧
    is_range l (Z.max (applied l) (snapIndex l) + 1) (committed l + 1) (rd_CommittedEntries rd) ∧
    rd_Messages rd = r_msgs r.
Proof.
  intros r l H Hemp. destruct (newReady_wf r (prevSoftSt rn) (prevHardSt rn) H) as (rd & Hrd & Hs & Hh & Hu & Hn & Hsn & Hm).
  set (hard := if negb (IsEmptyHardState (rd_HardState rd)) then rd_HardState rd else prevHardSt rn).
  assert (Hhard : hard = hardState r).
  { subst hard. rewrite Hh /IsEmptyHardState isHardStateEqual_eq. destruct (decide (hardState r = prevHardSt rn)) as [E|E].
    - by rewrite (bool_decide_eq_true_2 (hardState r = _)) // bool_decide_eq_true_2.
    - rewrite (bool_decide_eq_false_2 (hardState r = _)) // bool_decide_eq_false_2 //.
      intros E2. apply E. by rewrite (Hemp E2). }
  pose proof (lw_applied _ H).
  destruct (Advance_log l _ (rd_Entries rd) H eq_refl Hu) as [H1 (l2 & Hl2 & -> & H2)].
  destruct (stableSnapTo_wf (set_stabled (last_index l) (set_applied (committed l) l)) (rd_Snapshot rd) H2 Hsn)
    as (l3 & Hl3 & Hor & H3 & Hemp3).
  assert (Happ : (if decide (hs_Commit hard ≠ 0) then appliedTo l (hs_Commit hard) else Ok l) = Ok (set_applied (committed l) l)).
  { rewrite Hhard. cbn. fold l. destruct (appliedTo_wf l (committed l) H) as (l' & Hl' & -> & _); [lia|].
    rewrite Hl'. destruct (decide (committed l = 0)) as [E|E]; [|by rewrite decide_True].
    rewrite decide_False; [|by intros []]. replace (committed l) with (applied l) by lia. by destruct l. }
  exists rd, l3. eexists. split; [unfold rn_Ready; fold r; by rewrite Hrd|].
  unfold Advance. cbn -[IsEmptyHardState IsEmptySnap zlen]. fold l. fold hard.
  rewrite Happ. cbn -[IsEmptyHardState IsEmptySnap zlen]. rewrite Hl2. cbn -[IsEmptyHardState IsEmptySnap zlen].
  rewrite Hl3. cbn -[IsEmptySnap]. rewrite Hhard. split; [done|]. split; [|done].
  rewrite Hs. destruct (soft_equal _ _) eqn:E; [|done]. apply bool_decide_eq_true in E as [??].
  destruct (prevSoftSt rn); cbn in *. by subst.
Qed.

(** C21: The contract between a raft peer and the store around it.  [Ready]
    hands out exactly the entries that are not yet persisted, the committed
    entries that are not yet applied and the queued messages; [Advance] then
    records all of them as done without panicking, keeps the log well formed,
    and leaves a node that has nothing more to hand out. *)
Theorem Ready_Advance rn :
  let r := rn_Raft rn in let l := r_raftLog r in
  log_wf l → (hardState r = empty_hs → prevHardSt rn = empty_hs) →
  ∃ rn1 rd rn2,
    rn_Ready rn = Ok (rn1, rd) ∧ Advance rn1 rd = Ok rn2 ∧ HasReady rn2 = Ok false ∧
    is_range l (stabled l + 1) (last_index l + 1) (rd_Entries rd) ∧
    is_range l (Z.max (applied l) (snapIndex l) + 1) (committed l + 1) (rd_CommittedEntries rd) ∧
    rd_Messages rd = r_msgs r ∧ hs_Commit (prevHardSt rn2) = committed l ∧
    log_wf (r_raftLog (rn_Raft rn2)) ∧ entries (r_raftLog (rn_Raft rn2)) = entries l ∧
    applied (r_raftLog (rn_Raft rn2)) = committed l ∧ stabled (r_raftLog (rn_Raft rn2)) = last_index l.
Proof.
  intros r l H Hemp. destruct (Ready_Advance_state rn H Hemp) as (rd & l3 & soft & HR & HA & -> & (Hor & Hw & Hp) & Hu & Hn & Hm).
  assert (entries l3 = entries l ∧ applied l3 = committed l ∧ stabled l3 = last_index l ∧ committed l3 = committed l
    ∧ last_index l3 = last_index l) as (He & Ha & Hst & Hc & Hla) by (by destruct Hor as [->| ->]).
  eexists _, rd, _. split; [exact HR|]. split; [exact HA|]. split; [|by split_and!; try done; try apply Hu; try apply Hn].
  apply HasReady_drained; cbn; try done; [|by rewrite Ha Hc|by rewrite Hst Hla]. left. unfold hardState. cbn. by rewrite Hc.
Qed.
End RawNode.
Arguments RawNode : clear implicits.
