(* ===== verification/RaftProps.v ===== *)
(** Properties of one raft peer: what the leader commits, how a follower
    answers the leader, the randomised election timeout, and the fate of a
    forwarded leader transfer. *)

From S2P Require Import Prelude RaftPb RaftStorage RaftLog RaftLogSpec Raft RawNode.

(** ** Order statistics *)

Lemma size_filter_list {A} (P : Z * A → Prop) `{Hdec : !∀ x, Decision (P x)} (m : gmap Z A) :
  size (filter P m) = length (filter P (map_to_list m)).
Proof.
  rewrite -length_map_to_list. apply Permutation_length, NoDup_Permutation.
  - apply NoDup_map_to_list.
  - apply list.NoDup_filter, NoDup_map_to_list.
  - intros [k b]. rewrite list_elem_of_filter !elem_of_map_to_list map_lookup_filter_Some. naive_solver.
Qed.

Lemma filter_all {A} (P : A → Prop) `{Hdec : !∀ x, Decision (P x)} (l : list A) :
  (∀ x, x ∈ l → P x) → filter P l = l.
Proof.
  induction l as [|a l IH]; intros H; [done|]. rewrite filter_cons decide_True; [|apply H; set_solver].
  f_equal. apply IH. set_solver.
Qed.
Lemma filter_none {A} (P : A → Prop) `{Hdec : !∀ x, Decision (P x)} (l : list A) :
  (∀ x, x ∈ l → ¬ P x) → filter P l = [].
Proof.
  induction l as [|a l IH]; intros H; [done|]. rewrite filter_cons decide_False; [|apply H; set_solver].
  apply IH. set_solver.
Qed.

(** In an ascending list, at least the elements from position [k] on reach the
    [k]-th, and only those after [k] can exceed it. *)
Lemma sorted_reach (l : list Z) (k : nat) (x : Z) :
  StronglySorted Z.le l → l !! k = Some x →
  (length l - k ≤ length (filter (λ y, x ≤ y)%Z l))%nat ∧
  ∀ i, x < i → (length (filter (λ y, i ≤ y)%Z l) < length l - k)%nat.
Proof.
  intros Hs Hk. pose proof (lookup_lt_Some _ _ _ Hk) as Hlt.
  pose proof (list_elem_of_lookup_2 _ _ _ Hk) as Hin.
  assert (Hsplit : ∀ j, l = take j l ++ drop j l) by (intros; by rewrite take_drop). split.
  - rewrite {2}(Hsplit k) filter_app length_app. assert (Hd : filter (λ y, x ≤ y) (drop k l) = drop k l).
    { apply filter_all. intros y Hy. rewrite (Hsplit k) in Hs. rewrite (drop_S _ _ _ Hk) in Hs Hy.
      apply elem_of_cons in Hy as [->|Hy]; [lia|]. apply StronglySorted_app_1_r in Hs.
      apply StronglySorted_inv in Hs as [_ Hall]. rewrite Forall_forall in Hall. by apply Hall. }
    rewrite Hd length_drop. lia.
  - intros i Hi. rewrite {1}(Hsplit (S k)) filter_app length_app.
    assert (Ht : filter (λ y, i ≤ y) (take (S k) l) = []).
    { apply filter_none. intros y Hy. rewrite (take_S_r _ _ _ Hk) in Hy.
      apply elem_of_app in Hy as [Hy|Hy%list_elem_of_singleton]; [|lia].
      rewrite (Hsplit k) (drop_S _ _ _ Hk) in Hs.
      assert (y ≤ x) by (eapply (StronglySorted_app_1_elem_of _ _ _ y x Hs Hy); set_solver). lia. }
    rewrite Ht. cbn. pose proof (length_filter (λ y, i ≤ y) (drop (S k) l)) as Hf. rewrite length_drop in Hf. lia.
Qed.

Section Peer.
Context {T : Type} {HS : RaftStorage T} {HG : GoEnv}.
Implicit Types (r : Raft T) (m : Message).

(** ** Committing *)

(** The number of peers, the leader included, whose log is known to reach [i]. *)
Definition holders r (i : Z) : Z := Z.of_nat (size (filter (λ kv, i ≤ Match kv.2) (r_Prs r))).
Definition majority_at r (i : Z) : Prop := quorum r ≤ holders r i.

Lemma holders_list r i :
  holders r i = Z.of_nat (length (filter (λ y, i ≤ y) (sort_u64 (Match <$> (map_to_list (r_Prs r)).*2)))).
Proof.
  unfold holders, sort_u64. rewrite size_filter_list. f_equal.
  rewrite (merge_sort_Permutation Z.le (Match <$> (map_to_list (r_Prs r)).*2)).
  induction (map_to_list (r_Prs r)) as [|[k p] l IH]; [done|]. rewrite !fmap_cons !filter_cons. cbn [snd].
  destruct (decide (i ≤ Match p)); cbn [length]; [by f_equal|done].
Qed.

Lemma median_index r :
  r_Prs r ≠ ∅ →
  let matchIndex := sort_u64 (Match <$> (map_to_list (r_Prs r)).*2) in
  ∃ mci, go_index (E:=raft_error) matchIndex (zlen matchIndex - quorum r) = Ok mci ∧
    majority_at r mci ∧ (∀ i, majority_at r i → i ≤ mci) ∧ mci ∈ (Match <$> (map_to_list (r_Prs r)).*2).
Proof.
  intros Hne mi. assert (Hlen : length mi = size (r_Prs r)).
  { unfold mi, sort_u64. rewrite merge_sort_Permutation !length_fmap. apply length_map_to_list. }
  assert (Hpos : (0 < size (r_Prs r))%nat).
  { destruct (decide (size (r_Prs r) = 0%nat)) as [E|]; [by apply map_size_empty_inv in E|lia]. }
  assert (Hq : quorum r ≤ Z.of_nat (length mi) ∧ 0 < quorum r).
  { unfold quorum. rewrite Hlen. pose proof (Z.mul_div_le (Z.of_nat (size (r_Prs r))) 2). split; [|pose proof (Z.div_pos (Z.of_nat (size (r_Prs r))) 2); lia].
    pose proof (Z.div_le_upper_bound (Z.of_nat (size (r_Prs r))) 2 (Z.of_nat (size (r_Prs r)) - 1)).
    destruct (decide (size (r_Prs r) = 1%nat)) as [->|]; [done|]. lia. }
  destruct (lookup_lt_is_Some_2 mi (Z.to_nat (zlen mi - quorum r))) as [mci Hm]; [unfold zlen; lia|].
  assert (Hs : StronglySorted Z.le mi) by (apply StronglySorted_merge_sort; apply _).
  destruct (sorted_reach _ _ _ Hs Hm) as [H1 H2]. exists mci. unfold majority_at. split_and!.
  - apply go_index_ok; [unfold zlen; lia|done].
  - rewrite holders_list. fold mi. unfold zlen in H1. lia.
  - intros i Hi. destruct (decide (i ≤ mci)) as [|Hgt]; [done|]. rewrite holders_list in Hi. fold mi in Hi.
    assert (Hlt : mci < i) by lia. specialize (H2 i Hlt). unfold zlen in H2. lia.
  - apply list_elem_of_lookup_2 in Hm. unfold mi, sort_u64 in Hm. by rewrite merge_sort_Permutation in Hm.
Qed.

(** The commit rule of a leader.  [maybeCommit] considers the largest index
    that a majority of the group is known to hold, and commits it exactly when
    it is above the commit index and the entry there is of the leader's own
    term; otherwise nothing changes. *)
Theorem maybeCommit_spec r :
  log_wf (r_raftLog r) → r_Prs r ≠ ∅ → (∀ id pr, r_Prs r !! id = Some pr → Match pr ≤ 2 ^ 63) →
  ∃ mci, majority_at r mci ∧ (∀ i, majority_at r i → i ≤ mci) ∧
    maybeCommit r =
      Ok (if decide (committed (r_raftLog r) < mci ∧ term_at (r_raftLog r) mci = Some (r_Term r))
          then (set_raftLog (set_committed mci (r_raftLog r)) r, true) else (r, false)).
Proof.
  intros Hwf Hne Hb. destruct (median_index r Hne) as (mci & Hgo & Hmaj & Hmax & Hin).
  exists mci. split; [done|]. split; [done|]. unfold maybeCommit. rewrite Hgo. cbn [mbind outcome_bind].
  assert (Hmb : mci ≤ 2 ^ 63).
  { apply list_elem_of_fmap in Hin as (pr & -> & Hin). apply list_elem_of_fmap in Hin as ([k p] & -> & Hin).
    apply elem_of_map_to_list in Hin. by eapply Hb. }
  destruct (log_maybeCommit_wf _ mci (r_Term r) Hwf Hmb) as [-> _]. cbn.
  case_decide; [done|]. f_equal. by destruct r.
Qed.

(** ** Following *)

(** The answer to an append, as it is queued. *)
Definition append_reply r m (index : Z) (reject : bool) (hint : Z) : Message :=
  set_From_Term (msg_append_resp (From m) index reject hint) (r_id r) (r_Term r).

Lemma send_append_resp r m index reject hint :
  send r (msg_append_resp (From m) index reject hint) =
    Ok (set_msgs (r_msgs r ++ [append_reply r m index reject hint]) r).
Proof. done. Qed.

(** C20: A follower and the leader's entries.  Given a well-formed log and a
    message whose entries are numbered from its index on, the follower never
    panics and queues exactly one answer.  A message below its commit index is
    answered with that commit index; when its log lacks the leader's previous
    entry it refuses, reporting its last index, and its log is unchanged;
    otherwise all the entries are in its log, nothing at or below the previous
    index or committed has changed, and its commit index follows the leader's
    as far as these entries go. *)
Theorem handleAppendEntries_spec r m :
  let l := r_raftLog r in
  log_wf l → storage_ok l → 0 ≤ m_Index m → 0 ≤ m_Commit m →
  numbered (m_Index m + 1) (m_Entries m) → idx_ok (m_Index m + zlen (m_Entries m)) →
  ∃ r' index reject hint,
    handleAppendEntries r m = Ok r' ∧ r_msgs r' = r_msgs r ++ [append_reply r m index reject hint] ∧
    log_wf (r_raftLog r') ∧
    (m_Index m < committed l → r_raftLog r' = l ∧ index = committed l ∧ reject = false) ∧
    (committed l ≤ m_Index m → term_at l (m_Index m) ≠ Some (LogTerm m) →
      r_raftLog r' = l ∧ index = m_Index m ∧ reject = true ∧ hint = last_index l) ∧
    (committed l ≤ m_Index m → term_at l (m_Index m) = Some (LogTerm m) →
      accepted l (m_Index m) (m_Entries m) (m_Commit m) (r_raftLog r') ∧
      index = m_Index m + zlen (m_Entries m) ∧ reject = false).
Proof.
  intros l Hwf Hst Hi Hc Hn Hb. unfold handleAppendEntries. fold l.
  destruct (decide (m_Index m < committed l)) as [Hlt|Hge].
  { rewrite send_append_resp. eexists _, _, _, _. split_and!; [done..| | |]; intros; try lia; done. }
  destruct (maybeAppend_wf l (m_Index m) (LogTerm m) (m_Commit m) (m_Entries m) Hwf Hst Hi Hc Hn Hb) as (H1 & _ & H3).
  destruct (decide (term_at l (m_Index m) = Some (LogTerm m))) as [Ht|Ht].
  - destruct H3 as (l' & -> & Hacc); [done| |].
    { intros e He Hle. destruct (numbered_elem _ _ _ Hn He) as (i & _ & _ & ?). lia. }
    cbn -[zlen]. eexists _, _, _, _. split_and!; [done|done|apply Hacc|lia|done|done].
  - rewrite (H1 Ht). cbn -[send last_index]. rewrite LastIndex_wf //. cbn -[send last_index]. rewrite send_append_resp.
    eexists _, _, _, _. split_and!; [done|done|done|lia|done|done].
Qed.

(** ** The election timer *)

(** [k] ticks of the clock. *)
Fixpoint ticks (k : nat) r : outcome raft_error (Raft T) :=
  match k with O => Ok r | S k => r ← ticks k r; tick r end.

Lemma tick_waits r e :
  r_State r ≠ StateLeader → r_electionElapsed r = e → e + 1 < r_randomizedElectionTimeout r →
  tick r = Ok (set_electionElapsed (e + 1) r).
Proof.
  intros Hs <- He. assert (Hp : pastElectionTimeout (set_electionElapsed (r_electionElapsed r + 1) r) = false).
  { apply bool_decide_eq_false_2. cbn. lia. }
  unfold tick, tickElection. destruct (r_State r); [| |done]. all: by rewrite Hp andb_false_r.
Qed.

Lemma tick_fires r e :
  r_State r ≠ StateLeader → promotable r = true → r_electionElapsed r = e → r_randomizedElectionTimeout r ≤ e + 1 →
  tick r = ignore_err (Step (set_electionElapsed 0 r) (set_From_Term (zero_msg MsgHup) (r_id r) 0)).
Proof.
  intros Hs Hpr <- He. assert (Hp : pastElectionTimeout (set_electionElapsed (r_electionElapsed r + 1) r) = true).
  { apply bool_decide_eq_true_2. cbn. lia. }
  assert (Hpr' : promotable (set_electionElapsed (r_electionElapsed r + 1) r) = true) by done.
  unfold tick, tickElection. destruct (r_State r); [| |done]. all: by rewrite Hp Hpr'.
Qed.

Lemma ticks_wait r (k : nat) :
  r_State r ≠ StateLeader → r_electionElapsed r = 0 → Z.of_nat k < r_randomizedElectionTimeout r →
  ticks k r = Ok (set_electionElapsed (Z.of_nat k) r).
Proof.
  intros Hs H0. induction k as [|k IH]; intros Hk; cbn [ticks].
  - change (Z.of_nat 0) with 0. rewrite -H0. by destruct r.
  - rewrite IH; [|lia]. cbn [mbind outcome_bind]. rewrite (tick_waits _ (Z.of_nat k)); [|done|done|cbn; lia].
    f_equal. replace (Z.of_nat (S k)) with (Z.of_nat k + 1) by lia. done.
Qed.

Lemma becomeFollower_timer r t lead r' :
  becomeFollower r t lead = Ok r' → 0 < r_electionTimeout r →
  r_State r' = StateFollower ∧ r_electionElapsed r' = 0 ∧
  r_electionTimeout r ≤ r_randomizedElectionTimeout r' < 2 * r_electionTimeout r.
Proof.
  unfold becomeFollower, reset. intros H Hpos. apply bind_Ok in H as (r1 & H1 & H). apply bind_Ok in H1 as (li & _ & H1).
  injection H1 as <-. injection H as <-. cbn. split; [done|]. split; [done|].
  case_decide; cbn; match goal with |- context [go_Intn ?k ?n] => pose proof (go_Intn_range k n Hpos) end; lia.
Qed.

(** The election timer.  A member that becomes follower and then hears
    nothing waits [d] ticks, where [d] lies between the configured election
    timeout and twice it; before the [d]-th tick only its clock has advanced,
    and at that tick it starts a campaign. *)
Theorem election_timer r t lead r' :
  becomeFollower r t lead = Ok r' → 0 < r_electionTimeout r → promotable r' = true →
  ∃ d, r_electionTimeout r ≤ d < 2 * r_electionTimeout r ∧
    (∀ k : nat, Z.of_nat k < d → ticks k r' = Ok (set_electionElapsed (Z.of_nat k) r')) ∧
    ticks (Z.to_nat d) r' =
      ignore_err (Step (set_electionElapsed 0 r') (set_From_Term (zero_msg MsgHup) (r_id r') 0)).
Proof.
  intros H Hpos Hpr. exists (r_randomizedElectionTimeout r').
  assert (Hf : r_State r' = StateFollower ∧ r_electionElapsed r' = 0 ∧
    r_electionTimeout r ≤ r_randomizedElectionTimeout r' < 2 * r_electionTimeout r) by (by apply becomeFollower_timer in H).
  destruct Hf as (Hs & H0 & Hb). assert (Hnl : r_State r' ≠ StateLeader) by (by rewrite Hs). split; [done|].
  split; [intros k Hk; by apply ticks_wait|].
  destruct (Z.to_nat (r_randomizedElectionTimeout r')) as [|k] eqn:Ek; [lia|]. cbn [ticks].
  rewrite ticks_wait //; [|lia]. cbn [mbind outcome_bind]. rewrite (tick_fires _ (Z.of_nat k)) //. cbn. lia.
Qed.

(** ** Transferring leadership through a follower *)

(** The request a follower passes on to its leader. *)
Definition forwarded_transfer r : Message :=
  mkMessage MsgTransferLeader (r_Lead r) (r_id r) (r_Term r) 0 0 [] 0 None false 0.

(** A follower asked to transfer leadership to peer [to] forwards a request
    that does not mention [to]: [send] overwrites the sender, which names the
    transferee, so a leader that receives it would hand over to the follower
    itself.  And a follower of the same term that receives the forwarded
    request, for example one the sender still takes for the leader, panics,
    because the message already carries a term. *)
Theorem transfer_forward rn r2 to :
  let r := rn_Raft rn in
  r_State r = StateFollower → r_Lead r ≠ None' → r_Term r ≠ 0 →
  r_State r2 = StateFollower → r_Lead r2 ≠ None' → r_Term r2 = r_Term r →
  TransferLeader rn to = Ok (set_Raft (set_msgs (r_msgs r ++ [forwarded_transfer r]) r) rn) ∧
  ∃ why, Step r2 (forwarded_transfer r) = Panic why.
Proof.
  intros r Hs Hl Ht Hs2 Hl2 Ht2. split.
  - unfold TransferLeader, raft_step, Step, step_main. fold r. cbn. rewrite Hs. unfold stepFollower. cbn.
    by rewrite decide_False.
  - unfold Step, step_main. cbn. rewrite decide_False // Ht2 decide_False; [|lia]. rewrite decide_False; [|lia].
    rewrite Hs2. unfold stepFollower. cbn. rewrite decide_False // decide_True //. cbn. eauto.
Qed.
End Peer.

(** ** Concrete peers *)

#[local] Instance ex_env : GoEnv.
Proof.
  refine {| go_Intn k n := 0; go_range k ks := ks |}; [lia|done].
Defined.

(** Peer 2 of a group of three in term 2, with entries 1 and 2 of term 1 of
    which the first is committed and applied. *)
Definition ex_entry (i t : Z) : Entry := mkEntry EntryNormal t i None.
Definition ex_ms : MemoryStorage := mkMemoryStorage empty_hs empty_snap [zero_entry; ex_entry 1 1; ex_entry 2 1].
Definition ex_log : RaftLog MemoryStorage := mkRaftLog ex_ms 1 1 2 [ex_entry 1 1; ex_entry 2 1] 1 0 0 None.
Definition ex_prs : gmap Z Progress := <[1 := mkProgress 2 3]> (<[2 := mkProgress 2 3]> {[3 := mkProgress 0 3]}).
Definition ex_peer (st : StateType) (term : Z) : Raft MemoryStorage :=
  mkRaft 2 term 0 ex_log ex_prs st ∅ [] 1 1 10 10 0 0 0 0 0.

Lemma ex_log_wf : log_wf ex_log.
Proof.
  split; try done.
  intros i e. do 2 (destruct i as [|i]; [intros [= <-]; done|]). by rewrite /= lookup_nil.
Qed.

Lemma ex_storage_ok : storage_ok ex_log.
Proof. exists 1, 0. split_and!; try done. Qed.

Lemma maybeCommit_spec_witness :
  ∃ mci, majority_at (ex_peer StateLeader 1) mci ∧ (∀ i, majority_at (ex_peer StateLeader 1) i → i ≤ mci) ∧
    maybeCommit (ex_peer StateLeader 1) =
      Ok (if decide (1 < mci ∧ term_at ex_log mci = Some 1)
          then (set_raftLog (set_committed mci ex_log) (ex_peer StateLeader 1), true) else (ex_peer StateLeader 1, false)).
Proof.
  apply (maybeCommit_spec (ex_peer StateLeader 1)); [apply ex_log_wf|by vm_compute|].
  intros id pr H. change (ex_prs !! id = Some pr) in H. unfold ex_prs in H.
  repeat (apply lookup_insert_Some in H as [[_ <-]|[_ H]]; [done|]).
  apply lookup_singleton_Some in H as [_ <-]. done.
Defined.

(** The leader of term 2 replaces entry 2 and commits it. *)
Definition ex_append : Message := mkMessage MsgAppend 2 1 2 1 1 [ex_entry 2 2; ex_entry 3 2] 2 None false 0.

Lemma handleAppendEntries_spec_witness :
  ∃ r' index reject hint,
    handleAppendEntries (ex_peer StateFollower 2) ex_append = Ok r' ∧
    r_msgs r' = [append_reply (ex_peer StateFollower 2) ex_append index reject hint] ∧
    accepted ex_log 1 [ex_entry 2 2; ex_entry 3 2] 2 (r_raftLog r') ∧ index = 3 ∧ reject = false.
Proof.
  destruct (handleAppendEntries_spec (ex_peer StateFollower 2) ex_append) as (r' & i & rj & h & H1 & H2 & _ & _ & _ & H3).
  - apply ex_log_wf.
  - apply ex_storage_ok.
  - done.
  - done.
  - intros i e. do 2 (destruct i as [|i]; [intros [= <-]; done|]). by rewrite /= lookup_nil.
  - done.
  - exists r', i, rj, h. destruct H3 as (? & ? & ?); done.
Defined.

Lemma election_timer_witness :
  ∃ r', becomeFollower (ex_peer StateLeader 1) 3 None' = Ok r' ∧
    ∃ d, 10 ≤ d < 20 ∧
      (∀ k : nat, Z.of_nat k < d → ticks k r' = Ok (set_electionElapsed (Z.of_nat k) r')) ∧
      ticks (Z.to_nat d) r' =
        ignore_err (Step (set_electionElapsed 0 r') (set_From_Term (zero_msg MsgHup) (r_id r') 0)).
Proof.
  destruct (becomeFollower (ex_peer StateLeader 1) 3 None') as [r'| | |] eqn:E; [|by vm_compute in E..].
  exists r'. split; [done|]. apply (election_timer (ex_peer StateLeader 1) 3 None' r' E); [done|].
  cut (from_option promotable false (match becomeFollower (ex_peer StateLeader 1) 3 None' with Ok r => Some r | _ => None end) = true);
    [by rewrite E|by vm_compute].
Defined.

Lemma transfer_forward_witness :
  let rn := mkRawNode (ex_peer StateFollower 2) (mkSoftState 1 StateFollower) empty_hs in
  (∃ rn', TransferLeader rn 3 = Ok rn' ∧ r_msgs (rn_Raft rn') = [forwarded_transfer (ex_peer StateFollower 2)]) ∧
  ∃ why, Step (ex_peer StateFollower 2) (forwarded_transfer (ex_peer StateFollower 2)) = Panic why.
Proof.
  intros rn. destruct (transfer_forward rn (ex_peer StateFollower 2) 3) as [H1 H2]; [done..|]. split; [|done].
  eexists. split; [exact H1|done].
Defined.

Lemma Ready_Advance_witness :
  let r := set_msgs [ex_append] (ex_peer StateFollower 2) in
  let rn := mkRawNode r (mkSoftState 1 StateFollower) empty_hs in
  ∃ rn1 rd rn2, rn_Ready rn = Ok (rn1, rd) ∧ Advance rn1 rd = Ok rn2 ∧ HasReady rn2 = Ok false ∧
    rd_Messages rd = [ex_append] ∧ applied (r_raftLog (rn_Raft rn2)) = 1.
Proof.
  intros r rn. destruct (Ready_Advance rn ex_log_wf) as (rn1 & rd & rn2 & H1 & H2 & H3 & _ & _ & H4 & _ & _ & _ & H5 & _);
    [done|]. by exists rn1, rd, rn2.
Defined.
