(* ===== verification/RaftLogType.v ===== *)
(** The operations of the raft log (raft/log.go) as one step function, and that
    each of them keeps the shape of the log. *)

From S2P Require Import Prelude RaftPb RaftStorage RaftLog RaftLogSpec RaftProps.

Section Typed.
Context {T : Type} `{!RaftStorage T}.
Implicit Types l : RaftLog T.

(** The calls that change a log. *)
Inductive log_op :=
| CallAppend (ents : list Entry)
| CallMaybeAppend (index logTerm leaderCommit : Z) (ents : list Entry)
| CallCommitTo (i : Z)
| CallMaybeCommit (maxIndex term : Z)
| CallAppliedTo (i : Z)
| CallStableTo (i term : Z)
| CallStableSnapTo (i : Z)
| CallSnapshot
| CallRestore (s : Snapshot).

Definition log_run l (op : log_op) : outcome raft_error (RaftLog T) :=
  match op with
  | CallAppend ents => '(l, _) ← append l ents; Ok l
  | CallMaybeAppend i t c ents => '(l, _) ← maybeAppend l i t c ents; Ok l
  | CallCommitTo i => commitTo l i
  | CallMaybeCommit i t => '(l, _) ← log_maybeCommit l i t; Ok l
  | CallAppliedTo i => appliedTo l i
  | CallStableTo i t => stableTo l i t
  | CallStableSnapTo i => stableSnapTo l i
  | CallSnapshot => '(l, _) ← snapshot l; Ok l
  | CallRestore s => log_restore l s
  end.

(** Arguments of the right shape: entries with consecutive indexes, which for
    [append] follow an index of the log, and indexes below 2^63.  A snapshot
    restored is ahead of what was applied; the storage makes one without stopping
    the process. *)
Definition op_typed l (op : log_op) : Prop :=
  match op with
  | CallAppend [] => True
  | CallAppend (e :: ents) =>
    numbered (e_Index e) (e :: ents) ∧ snapIndex l < e_Index e ≤ last_index l + 1 ∧ idx_ok (e_Index e + zlen ents)
  | CallMaybeAppend i _ c ents => 0 ≤ i ∧ 0 ≤ c ∧ numbered (i + 1) ents ∧ idx_ok (i + zlen ents)
  | CallMaybeCommit i _ | CallStableTo i _ => 0 ≤ i ≤ 2 ^ 63
  | CallAppliedTo i => 0 ≤ i
  | CallCommitTo _ | CallStableSnapTo _ => True
  | CallSnapshot => pending_snapshot l = None → ∃ r, catch (st_Snapshot (storage l)).2 = Ok (E := raft_error) r
  | CallRestore s => ∃ md, sp_Metadata s = Some md ∧ applied l ≤ md_Index md ∧ idx_ok (md_Index md)
  end.

(** The calls the log refuses by stopping the process: they would rewrite
    committed entries, commit what it does not have, or apply out of order. *)
Definition op_refused l (op : log_op) : Prop :=
  match op with
  | CallAppend (e :: _) => e_Index e ≤ committed l
  | CallMaybeAppend i t _ ents => term_at l i = Some t ∧ ∃ e, e ∈ ents ∧ e_Index e ≤ committed l ∧ ¬ agrees l e
  | CallCommitTo i => last_index l < i
  | CallAppliedTo i => committed l < i ∨ 0 < i < applied l
  | _ => False
  end.

#[local] Instance agrees_dec l e : Decision (agrees l e).
Proof. unfold agrees. apply _. Defined.

Lemma append_typed l ents :
  log_wf l → storage_ok l → op_typed l (CallAppend ents) →
  match log_run l (CallAppend ents) with Ok l' => log_wf l' ∧ ¬ op_refused l (CallAppend ents) | Panic _ => op_refused l (CallAppend ents) | _ => False end.
Proof.
  intros H Hs. destruct ents as [|e ents]; cbn [log_run op_refused op_typed].
  { intros _. unfold append. rewrite LastIndex_wf //=. tauto. }
  intros (Hn & He & Hi). pose proof (lw_snap _ H). pose proof (lw_last _ H) as [_ ?].
  destruct (decide (e_Index e ≤ committed l)) as [Hc|Hc].
  - unfold append. rewrite u64_idx; [|lia]. by destruct (decide (e_Index e - 1 < committed l)); [|lia].
  - destruct (append_wf l (e_Index e) e ents) as (l' & -> & Ha); [done|done|done|done|lia| |cbn; split; [apply Ha|done]].
    replace (e_Index e - 1 + zlen (e :: ents)) with (e_Index e + zlen ents); [done|]. unfold zlen. cbn [length]. lia.
Qed.

Lemma maybeAppend_typed l i t c ents :
  log_wf l → storage_ok l → op_typed l (CallMaybeAppend i t c ents) →
  match log_run l (CallMaybeAppend i t c ents) with
  | Ok l' => log_wf l' ∧ ¬ op_refused l (CallMaybeAppend i t c ents)
  | Panic _ => op_refused l (CallMaybeAppend i t c ents) | _ => False end.
Proof.
  intros H Hs (Hi & Hc & Hn & Hb). cbn [log_run op_refused]. destruct (maybeAppend_wf l i t c ents) as (H1 & H2 & H3); [done..|].
  destruct (decide (term_at l i = Some t)) as [Ht|Ht]; [|rewrite (H1 Ht); split; [done|tauto]].
  destruct (decide (Exists (λ e, e_Index e ≤ committed l ∧ ¬ agrees l e) ents)) as [Hx|Hx].
  - apply Exists_exists in Hx as (e & He & Hx). destruct H2 as [w ->]; [done|by exists e|]. cbn. split; [done|by exists e].
  - destruct H3 as (l' & -> & Ha); [done| |].
    + intros e He Hle. destruct (decide (agrees l e)) as [|Hn']; [done|]. destruct Hx. apply Exists_exists. by exists e.
    + cbn. split; [apply Ha|]. intros [_ (e & He & Hx')]. apply Hx, Exists_exists. by exists e.
Qed.

(** Moving a mark of the log within its bounds. *)
Lemma set_applied_wf l i : log_wf l → applied l ≤ i ≤ committed l → log_wf (set_applied i l).
Proof. intros [] ?. split; cbn; try done; unfold last_index in *; cbn; lia. Qed.
Lemma set_stabled_wf l i : log_wf l → snapIndex l ≤ i ≤ last_index l → log_wf (set_stabled i l).
Proof. intros [] ?. split; cbn; try done; unfold last_index in *; cbn; lia. Qed.
Lemma set_pending_None_wf l : log_wf l → log_wf (set_pending None l).
Proof. intros []. split; cbn; done. Qed.
Lemma set_storage_wf l st : log_wf l → log_wf (set_storage st l).
Proof. intros []. by split. Qed.

Lemma restored_log_wf l s md :
  log_wf l → sp_Metadata s = Some md → applied l ≤ md_Index md → idx_ok (md_Index md) →
  ∃ l', log_restore l s = Ok l' ∧ log_wf l'.
Proof.
  intros H Hm Ha [H1 H2]. unfold log_restore, snap_meta. rewrite Hm. cbn. rewrite u64_idx; [|lia]. eexists. split; [done|].
  pose proof (lw_applied _ H). split; cbn; unfold last_index, zlen, idx_ok; cbn; try lia.
  - intros i e. by rewrite lookup_nil.
  - intros s' [= <-]. by exists md.
Qed.

(** C27: Every operation of the raft log keeps its shape.  On a well-formed log
    (entries numbered from the snapshot on, snapshot <= stabled, committed <= last,
    applied <= committed, all below 2^63), a call with arguments of the right shape
    either returns a well-formed log or stops the process, and it stops the process
    exactly when it was asked to rewrite committed entries, to commit what the log
    does not have, or to move the applied index out of order. *)
Theorem raft_log_typed l op :
  log_wf l → storage_ok l → op_typed l op →
  match log_run l op with
  | Ok l' => log_wf l' ∧ ¬ op_refused l op
  | Panic _ => op_refused l op
  | _ => False
  end.
Proof.
  intros H Hs Ht. destruct op as [ents|i t c ents|i|i t|i|i t|i| |s].
  - by apply append_typed.
  - by apply maybeAppend_typed.
  - cbn [log_run op_refused]. destruct (decide (last_index l < i)) as [Hi|Hi]; [|destruct (commitTo_wf l i) as [-> Hw]; [done|lia|by split]].
    pose proof (lw_commit _ H). unfold commitTo. destruct (decide (committed l < i)); [|lia]. rewrite LastIndex_wf //=. by destruct (decide _).
  - cbn [log_run op_refused]. unfold log_maybeCommit. destruct (decide (committed l < i)); [|by split; [|tauto]]. rewrite matchTerm_wf //=. case_bool_decide as Hm; [|by split; [|tauto]].
    destruct (commitTo_wf l i H) as [-> Hw]; [|split; [done|tauto]]. apply mk_is_Some, term_at_is_Some in Hm; [lia|done].
  - cbn [log_run op_refused op_typed] in *. unfold appliedTo. destruct (decide (i = 0)) as [->|]; [split; [done|]; pose proof (lw_commit _ H); pose proof (lw_snap _ H); lia|].
    destruct (decide (committed l < i ∨ i < applied l)) as [Hr|Hr]; [lia|]. split; [apply set_applied_wf; [done|lia]|lia].
  - cbn [log_run op_refused op_typed] in *. unfold stableTo. rewrite matchTerm_wf //=. split; [|tauto]. destruct (decide _) as [[Hm Hi]|]; [|done].
    apply bool_decide_eq_true in Hm. apply set_stabled_wf; [done|]. by apply mk_is_Some, term_at_is_Some in Hm.
  - cbn [log_run op_refused]. unfold stableSnapTo. destruct (pending_snapshot l) as [s|] eqn:Ep; [|by split; [|tauto]]. unfold snap_meta.
    destruct (lw_pend _ H s Ep) as (md & -> & _). cbn. split; [|tauto]. destruct (decide _); [by apply set_pending_None_wf|done].
  - cbn [log_run op_refused op_typed] in *. unfold snapshot. destruct (pending_snapshot l); [by split; [|tauto]|]. destruct Ht as [r Hr]; [done|]. destruct (st_Snapshot _) as [st o].
    cbn in Hr |- *. rewrite Hr. cbn. split; [by apply set_storage_wf|tauto].
  - destruct Ht as (md & Hm & Ha & Hi). cbn [log_run op_refused]. destruct (restored_log_wf l s md) as (l' & -> & Hw); [done..|]. by split; [|tauto].
Qed.
End Typed.

(** A follower takes a conflicting suffix. *)
Lemma raft_log_typed_witness :
  op_typed ex_log (CallMaybeAppend 1 1 2 [ex_entry 2 2; ex_entry 3 2]) ∧
  match log_run ex_log (CallMaybeAppend 1 1 2 [ex_entry 2 2; ex_entry 3 2]) with Ok l' => log_wf l' | _ => False end.
Proof.
  assert (Ht : op_typed ex_log (CallMaybeAppend 1 1 2 [ex_entry 2 2; ex_entry 3 2])).
  { cbn. split_and!; [lia|lia| |unfold idx_ok, zlen; cbn; lia].
    intros i e. do 2 (destruct i as [|i]; [intros [= <-]; done|]). by rewrite /= lookup_nil. }
  split; [exact Ht|].
  pose proof (raft_log_typed ex_log (CallMaybeAppend 1 1 2 [ex_entry 2 2; ex_entry 3 2]) ex_log_wf ex_storage_ok Ht) as H.
  destruct (log_run ex_log (CallMaybeAppend 1 1 2 [ex_entry 2 2; ex_entry 3 2])) eqn:E; [apply H|vm_compute in E; discriminate E|vm_compute in E; discriminate E|vm_compute in E; discriminate E].
Defined.
