(* ===== verification/PeerStorage.v ===== *)
(** The persistent storage of a raft peer: kv/raftstore/peer_storage.go and
    kv/raftstore/meta/values.go.

    [PeerStorage] keeps a region's log and hard state in the raft engine and its
    apply state in the kv engine.  Channels are modelled by what has been sent
    on them; the region worker has answered a snapshot task when the peer waits
    for it.  Logging is left out. *)

From S2P Require Import Prelude Pb RaftPb RaftStorage Engine RaftMeta RawNode.

(** ** Messages of raft_serverpb *)

Inductive PeerState := PeerState_Normal | PeerState_Tombstone.
Record RaftLocalState := mkRaftLocalState { rl_HardState : option HardState; rl_LastIndex : Z; rl_LastTerm : Z }.
Record RaftTruncatedState := mkRaftTruncatedState { tr_Index : Z; tr_Term : Z }.
Record RaftApplyState := mkRaftApplyState { AppliedIndex : Z; TruncatedState : option RaftTruncatedState }.
Record RegionLocalState := mkRegionLocalState { rg_State : PeerState; rg_Region : option metapb.Region }.
Record RaftSnapshotData := mkRaftSnapshotData { sd_Region : option metapb.Region }.

#[export] Instance RaftLocalState_eq_dec : EqDecision RaftLocalState.
Proof. solve_decision. Defined.

Definition RaftInitLogTerm : Z := 5.
Definition RaftInitLogIndex : Z := 5.

(** Tasks for the region worker. *)
Inductive region_task :=
| RegionTaskGen (RegionId : Z)
| RegionTaskApply (RegionId : Z) (SnapMeta : SnapshotMetadata) (StartKey EndKey : bytes)
| RegionTaskDestroy (RegionId : Z) (StartKey EndKey : bytes).

(** [SnapState_Generating] with what is in the receiver's channel: nothing yet,
    or a snapshot that may be nil. *)
Inductive SnapState := SnapState_Relax | SnapState_Generating (Receiver : option (option Snapshot)) | SnapState_Applying.

(** [ConfStateFromRegion] (kv/raftstore/util/util.go) *)
Definition ConfStateFromRegion (region : metapb.Region) : ConfState :=
  mkConfState (metapb.Peer_Id <$> metapb.Peers region).

Section PeerStorage.
Context {D : Type} `{!Badger D}.
Context `{!Proto Entry, !Proto RaftLocalState, !Proto RaftApplyState, !Proto RegionLocalState, !Proto RaftSnapshotData}.

Record Engines := mkEngines { Kv : D; RaftDB : D }.

Record PeerStorage := mkPeerStorage {
  peerID : Z;
  region : metapb.Region;
  raftState : RaftLocalState;
  snapState : SnapState;
  regionSched : list region_task;
  snapTriedCnt : Z;
  ps_Engines : Engines
}.
Implicit Types ps : PeerStorage.

Definition set_raftState (x : RaftLocalState) ps : PeerStorage :=
  mkPeerStorage (peerID ps) (region ps) x (snapState ps) (regionSched ps) (snapTriedCnt ps) (ps_Engines ps).
Definition set_region (x : metapb.Region) ps : PeerStorage :=
  mkPeerStorage (peerID ps) x (raftState ps) (snapState ps) (regionSched ps) (snapTriedCnt ps) (ps_Engines ps).
Definition set_snapState (x : SnapState) ps : PeerStorage :=
  mkPeerStorage (peerID ps) (region ps) (raftState ps) x (regionSched ps) (snapTriedCnt ps) (ps_Engines ps).
Definition set_snapTriedCnt (x : Z) ps : PeerStorage :=
  mkPeerStorage (peerID ps) (region ps) (raftState ps) (snapState ps) (regionSched ps) x (ps_Engines ps).
Definition schedule (t : region_task) ps : PeerStorage :=
  mkPeerStorage (peerID ps) (region ps) (raftState ps) (snapState ps) (regionSched ps ++ [t]) (snapTriedCnt ps) (ps_Engines ps).
Definition set_Engines (x : Engines) ps : PeerStorage :=
  mkPeerStorage (peerID ps) (region ps) (raftState ps) (snapState ps) (regionSched ps) (snapTriedCnt ps) x.
Definition set_RaftDB (x : D) ps : PeerStorage := set_Engines (mkEngines (Kv (ps_Engines ps)) x) ps.

(** An error of the engine seen through the raft interface. *)
Definition engine_err {A} (c : outcome engine_error A) : outcome raft_error A :=
  match c with
  | Ok a => Ok a
  | Err ErrKeyNotFound => Err (ErrOther "Key not found")
  | Err ErrUnmarshal => Err (ErrOther "proto: cannot parse")
  | Panic w => Panic w
  | OutOfFuel => OutOfFuel
  end.

(** ** meta/values.go *)

Definition GetRaftLocalState (db : D) (regionId : Z) : outcome engine_error RaftLocalState :=
  GetMeta db (RaftStateKey regionId).
Definition GetApplyState (db : D) (regionId : Z) : outcome engine_error RaftApplyState :=
  GetMeta db (ApplyStateKey regionId).
Definition GetRegionLocalState (db : D) (regionId : Z) : outcome engine_error RegionLocalState :=
  GetMeta db (RegionStateKey regionId).
Definition GetRaftEntry (db : D) (regionId idx : Z) : outcome engine_error Entry := GetMeta db (RaftLogKey regionId idx).

Definition InitRaftLocalState (raftEngine : D) (rg : metapb.Region) : outcome engine_error (D * RaftLocalState) :=
  match GetRaftLocalState raftEngine (metapb.Id rg) with
  | Ok raftState => Ok (raftEngine, raftState)
  | Err ErrKeyNotFound =>
    if decide (0 < zlen (metapb.Peers rg)) then
      let raftState := mkRaftLocalState (Some (mkHardState RaftInitLogTerm 0 RaftInitLogIndex)) RaftInitLogIndex RaftInitLogTerm in
      Ok (PutMeta raftEngine (RaftStateKey (metapb.Id rg)) raftState, raftState)
    else Ok (raftEngine, mkRaftLocalState (Some empty_hs) 0 0)
  | Err e => Err e
  | Panic w => Panic w
  | OutOfFuel => OutOfFuel
  end.

Definition InitApplyState (kvEngine : D) (rg : metapb.Region) : outcome engine_error (D * RaftApplyState) :=
  match GetApplyState kvEngine (metapb.Id rg) with
  | Ok applyState => Ok (kvEngine, applyState)
  | Err ErrKeyNotFound =>
    let applyState :=
      if decide (0 < zlen (metapb.Peers rg))
      then mkRaftApplyState RaftInitLogIndex (Some (mkRaftTruncatedState RaftInitLogIndex RaftInitLogTerm))
      else mkRaftApplyState 0 (Some (mkRaftTruncatedState 0 0)) in
    Ok (PutMeta kvEngine (ApplyStateKey (metapb.Id rg)) applyState, applyState)
  | Err e => Err e
  | Panic w => Panic w
  | OutOfFuel => OutOfFuel
  end.

Definition WriteRegionState (kvWB : WriteBatch) (rg : metapb.Region) (state : PeerState) : WriteBatch :=
  SetMeta kvWB (RegionStateKey (metapb.Id rg)) (mkRegionLocalState state (Some rg)).

(** ** peer_storage.go *)

Definition NewPeerStorage (engines : Engines) (rg : metapb.Region) (peerID : Z) : outcome engine_error PeerStorage :=
  '(raft, raftState) ← InitRaftLocalState (RaftDB engines) rg;
  '(kv, applyState) ← InitApplyState (Kv engines) rg;
  if decide (rl_LastIndex raftState < AppliedIndex applyState) then Panic "unexpected raft log index"
  else Ok (mkPeerStorage peerID rg raftState SnapState_Relax [] 0 (mkEngines kv raft)).

Definition isInitialized ps : bool := bool_decide (0 < zlen (metapb.Peers (region ps))).

Definition ps_InitialState ps : outcome raft_error (HardState * ConfState) :=
  match rl_HardState (raftState ps) with
  | None => Panic "nil pointer dereference"
  | Some hs =>
    if IsEmptyHardState hs then
      if isInitialized ps then Panic "peer is initialized but has empty hard state" else Ok (empty_hs, mkConfState [])
    else Ok (hs, ConfStateFromRegion (region ps))
  end.

(** [applyState] drops the error of the engine; a nil state is dereferenced. *)
Definition truncatedState ps : outcome raft_error RaftTruncatedState :=
  match GetApplyState (Kv (ps_Engines ps)) (metapb.Id (region ps)) with
  | Ok st => match TruncatedState st with Some t => Ok t | None => Panic "nil pointer dereference" end
  | _ => Panic "nil pointer dereference"
  end.
Definition truncatedIndex ps : outcome raft_error Z := t ← truncatedState ps; Ok (tr_Index t).
Definition truncatedTerm ps : outcome raft_error Z := t ← truncatedState ps; Ok (tr_Term t).
Definition ps_AppliedIndex ps : outcome raft_error Z :=
  match GetApplyState (Kv (ps_Engines ps)) (metapb.Id (region ps)) with
  | Ok st => Ok (AppliedIndex st)
  | _ => Panic "nil pointer dereference"
  end.

Definition checkRange ps (low high : Z) : outcome raft_error unit :=
  if decide (high < low) then Err (ErrOther "low is greater than high")
  else
    ti ← truncatedIndex ps;
    if decide (low ≤ ti) then Err ErrCompacted
    else if decide (u64 (rl_LastIndex (raftState ps) + 1) < high) then Err (ErrOther "entries' high is out of bound")
    else Ok tt.

(** The loop of [Entries] over the items of the iterator. *)
Fixpoint Entries_loop (items : list (bytes * bytes)) (endKey : bytes) (nextIndex : Z) (buf : list Entry) :
    outcome raft_error (list Entry) :=
  match items with
  | [] => Ok buf
  | (key, val) :: items =>
    if bleb endKey key then Ok buf
    else
      match Unmarshal val with
      | None => Err (ErrOther "proto: cannot parse")
      | Some entry =>
        if decide (e_Index entry ≠ nextIndex) then Ok buf
        else Entries_loop items endKey (u64 (nextIndex + 1)) (buf ++ [entry])
      end
  end.

Definition ps_Entries ps (low high : Z) : outcome raft_error (list Entry) :=
  _ ← checkRange ps low high;
  if decide (low = high) then Ok []
  else
    let startKey := RaftLogKey (metapb.Id (region ps)) low in
    let endKey := RaftLogKey (metapb.Id (region ps)) high in
    buf ← Entries_loop (db_from (RaftDB (ps_Engines ps)) startKey) endKey low [];
    if decide (zlen buf = i64 (u64 (high - low))) then Ok buf else Err ErrUnavailable.

Definition ps_Term ps (idx : Z) : outcome raft_error Z :=
  ti ← truncatedIndex ps;
  if decide (idx = ti) then truncatedTerm ps
  else
    _ ← checkRange ps idx (u64 (idx + 1));
    tt ← truncatedTerm ps;
    if decide (tt = rl_LastTerm (raftState ps) ∨ idx = rl_LastIndex (raftState ps)) then Ok (rl_LastTerm (raftState ps))
    else
      entry ← engine_err (GetMeta (A := Entry) (RaftDB (ps_Engines ps)) (RaftLogKey (metapb.Id (region ps)) idx));
      Ok (e_Term entry).

Definition ps_LastIndex ps : outcome raft_error Z := Ok (rl_LastIndex (raftState ps)).
Definition ps_FirstIndex ps : outcome raft_error Z := ti ← truncatedIndex ps; Ok (u64 (ti + 1)).

(** A nil [Metadata] reads as index 0, a nil region as the zero epoch. *)
Definition validateSnap ps (snap : Snapshot) : outcome raft_error bool :=
  let idx := match sp_Metadata snap with Some md => md_Index md | None => 0 end in
  ti ← truncatedIndex ps;
  if decide (idx < ti) then Ok false
  else
    match Unmarshal (A := RaftSnapshotData) (default [] (sp_Data snap)) with
    | None => Ok false
    | Some snapData =>
      let snapConfVer := match sd_Region snapData with Some r => metapb.ConfVer (metapb.Epoch r) | None => 0 end in
      Ok (negb (bool_decide (snapConfVer < metapb.ConfVer (metapb.Epoch (region ps)))))
    end.

(** The second half of [Snapshot]: ask the region worker for a snapshot. *)
Definition request_snapshot ps : PeerStorage * outcome raft_error Snapshot :=
  if decide (5 ≤ snapTriedCnt ps) then (set_snapTriedCnt 0 ps, Err (ErrOther "failed to get snapshot"))
  else
    let ps := set_snapTriedCnt (snapTriedCnt ps + 1) ps in
    let ps := set_snapState (SnapState_Generating None) ps in
    (schedule (RegionTaskGen (metapb.Id (region ps))) ps, Err ErrSnapshotTemporarilyUnavailable).

Definition ps_Snapshot ps : PeerStorage * outcome raft_error Snapshot :=
  match snapState ps with
  | SnapState_Generating None => (ps, Err ErrSnapshotTemporarilyUnavailable)
  | SnapState_Generating (Some s) =>
    let snapshot := default empty_snap s in
    let ps := set_snapState SnapState_Relax ps in
    match sp_Metadata snapshot with
    | Some _ =>
      let ps := set_snapTriedCnt 0 ps in
      match validateSnap ps snapshot with
      | Ok true => (ps, Ok snapshot)
      | Ok false => request_snapshot ps
      | Err e => (ps, Err e)
      | Panic w => (ps, Panic w)
      | OutOfFuel => (ps, OutOfFuel)
      end
    | None => request_snapshot ps
    end
  | _ => request_snapshot ps
  end.

#[export] Instance PeerStorage_RaftStorage : RaftStorage PeerStorage := {|
  st_InitialState := ps_InitialState;
  st_Entries := ps_Entries;
  st_Term := ps_Term;
  st_LastIndex := ps_LastIndex;
  st_FirstIndex := ps_FirstIndex;
  st_Snapshot := ps_Snapshot
|}.

(** The indices of a loop [for i := from; i <= to; i++]. *)
Definition index_range (from to : Z) : list Z := seqZ from (to + 1 - from).

(** [Append]: the entries go into the batch; the entries they cut off are deleted
    from the engine at once. *)
Definition ps_Append ps (entries : list Entry) (raftWB : WriteBatch) : PeerStorage * WriteBatch :=
  match last entries with
  | None => (ps, raftWB)
  | Some lastEntry =>
    let rid := metapb.Id (region ps) in
    let prevLastIndex := rl_LastIndex (raftState ps) in
    let raftWB := foldl (λ wb e, SetMeta wb (RaftLogKey rid (e_Index e)) e) raftWB entries in
    let lastIndex := e_Index lastEntry in
    let lastTerm := e_Term lastEntry in
    let raft := foldl (λ db i, db_delete db (RaftLogKey rid i)) (RaftDB (ps_Engines ps))
      (index_range (u64 (lastIndex + 1)) prevLastIndex) in
    (set_raftState (mkRaftLocalState (rl_HardState (raftState ps)) lastIndex lastTerm) (set_RaftDB raft ps), raftWB)
  end.

(** [ClearMeta]: the two batches, with the region's log from its first key on. *)
Definition ClearMeta (engines : Engines) (kvWB raftWB : WriteBatch) (regionID lastIndex : Z) :
    outcome string (WriteBatch * WriteBatch) :=
  let kvWB := DeleteMeta (DeleteMeta kvWB (RegionStateKey regionID)) (ApplyStateKey regionID) in
  let beginLogKey := RaftLogKey regionID 0 in
  let endLogKey := RaftLogKey regionID (u64 (lastIndex + 1)) in
  firstIndex ← match db_from (RaftDB engines) beginLogKey with
               | (k, _) :: _ => if bltb k endLogKey then RaftLogIndex k else Ok (u64 (lastIndex + 1))
               | [] => Ok (u64 (lastIndex + 1))
               end;
  let raftWB := foldl (λ wb i, DeleteMeta wb (RaftLogKey regionID i)) raftWB (index_range firstIndex lastIndex) in
  Ok (kvWB, DeleteMeta raftWB (RaftStateKey regionID)).

Definition clearMeta ps (kvWB raftWB : WriteBatch) : outcome string (WriteBatch * WriteBatch) :=
  ClearMeta (ps_Engines ps) kvWB raftWB (metapb.Id (region ps)) (rl_LastIndex (raftState ps)).

Definition clearRange ps (regionID : Z) (start end' : bytes) : PeerStorage :=
  schedule (RegionTaskDestroy regionID start end') ps.

Definition clearExtraData ps (newRegion : metapb.Region) : PeerStorage :=
  let oldStartKey := metapb.StartKey (region ps) in
  let oldEndKey := metapb.EndKey (region ps) in
  let newStartKey := metapb.StartKey newRegion in
  let newEndKey := metapb.EndKey newRegion in
  let ps := if bltb oldStartKey newStartKey then clearRange ps (metapb.Id newRegion) oldStartKey newStartKey else ps in
  if bltb newEndKey oldEndKey then clearRange ps (metapb.Id newRegion) newEndKey oldEndKey else ps.

(** An empty end key, which means no bound, sorts before every other: a region
    that loses everything from [x] on clears none of it. *)
Lemma clearExtraData_unbounded ps newRegion :
  metapb.EndKey (region ps) = [] → metapb.StartKey (region ps) = metapb.StartKey newRegion →
  clearExtraData ps newRegion = ps.
Proof.
  intros He Hs. unfold clearExtraData. rewrite He Hs. unfold bltb. rewrite Compare_refl.
  by destruct (metapb.EndKey newRegion).
Qed.

Record ApplySnapResult := mkApplySnapResult { PrevRegion : metapb.Region; ar_Region : metapb.Region }.

Definition ps_ApplySnapshot ps (snapshot : Snapshot) (kvWB raftWB : WriteBatch) :
    outcome string (PeerStorage * WriteBatch * WriteBatch * ApplySnapResult) :=
  match Unmarshal (A := RaftSnapshotData) (default [] (sp_Data snapshot)) with
  | None => Err "proto: cannot parse"
  | Some snapData =>
    match sd_Region snapData with
    | None => Panic "nil pointer dereference"
    | Some rg =>
      if decide (metapb.Id rg ≠ metapb.Id (region ps)) then Err "mismatch region id"
      else
        '(kvWB, raftWB) ← (if isInitialized ps then clearMeta ps kvWB raftWB else Ok (kvWB, raftWB));
        let ps := if isInitialized ps then clearExtraData ps rg else ps in
        md ← snap_meta snapshot;
        let ps := set_raftState (mkRaftLocalState (rl_HardState (raftState ps)) (md_Index md) (md_Term md)) ps in
        let applyRes := mkApplySnapResult (region ps) rg in
        let ps := set_region rg ps in
        let applyState := mkRaftApplyState (md_Index md) (Some (mkRaftTruncatedState (md_Index md) (md_Term md))) in
        let kvWB := SetMeta kvWB (ApplyStateKey (metapb.Id rg)) applyState in
        let kvWB := WriteRegionState kvWB rg PeerState_Normal in
        let ps := set_snapState SnapState_Applying ps in
        let ps := schedule (RegionTaskApply (metapb.Id rg) md (metapb.StartKey rg) (metapb.EndKey rg)) ps in
        Ok (ps, kvWB, raftWB, applyRes)
    end
  end.

(** [SaveReadyState] from [ps.Append] on. *)
Definition save_rest ps (ready : Ready) (prevRaftState : RaftLocalState) (kvWB raftWB : WriteBatch) : PeerStorage :=
  let '(ps, raftWB) := ps_Append ps (rd_Entries ready) raftWB in
  let ps :=
    if decide (0 < rl_LastIndex (raftState ps) ∧ IsEmptyHardState (rd_HardState ready) = false)
    then set_raftState (mkRaftLocalState (Some (rd_HardState ready)) (rl_LastIndex (raftState ps)) (rl_LastTerm (raftState ps))) ps
    else ps in
  let raftWB :=
    if decide (prevRaftState ≠ raftState ps)
    then SetMeta raftWB (RaftStateKey (metapb.Id (region ps))) (raftState ps) else raftWB in
  let kv := WriteToDB kvWB (Kv (ps_Engines ps)) in
  let raft := WriteToDB raftWB (RaftDB (ps_Engines ps)) in
  set_Engines (mkEngines kv raft) ps.

Definition SaveReadyState ps (ready : Ready) : outcome string (PeerStorage * option ApplySnapResult) :=
  let prevRaftState := raftState ps in
  '(ps, kvWB, raftWB, applyRes) ←
    (if negb (IsEmptySnap (Some (rd_Snapshot ready))) then
       '(ps, kvWB, raftWB, res) ← ps_ApplySnapshot ps (rd_Snapshot ready) empty_wb empty_wb;
       Ok (ps, kvWB, raftWB, Some res)
     else Ok (ps, empty_wb, empty_wb, None));
  Ok (save_rest ps ready prevRaftState kvWB raftWB, applyRes).

Definition SetRegion (rg : metapb.Region) ps : PeerStorage := set_region rg ps.
Definition ClearData ps : PeerStorage :=
  clearRange ps (metapb.Id (region ps)) (metapb.StartKey (region ps)) (metapb.EndKey (region ps)).
End PeerStorage.
Arguments Engines : clear implicits.
Arguments PeerStorage : clear implicits.
