(* ===== verification/PeerStorageSpec.v ===== *)
(** [PeerStorage] implements a stored log: [represents] relates the engines and
    the cached state to the log they hold, the reads of the raft interface
    return what the log holds, and [SaveReadyState] saves a [Ready] into it. *)

From S2P Require Import Prelude Pb RaftPb RaftStorage RaftLogSpec Engine RaftMeta RawNode PeerStorage.

(** ** The specification: a log from an index on, with the index applied *)

Record slog := mkSlog { sl_index : Z; sl_term : Z; sl_applied : Z; sl_ents : list Entry }.
Implicit Types s : slog.

Definition sl_last s : Z := sl_index s + zlen (sl_ents s).
Definition sl_last_term s : Z := match last (sl_ents s) with Some e => e_Term e | None => sl_term s end.
Definition sl_entry s (i : Z) : option Entry :=
  if decide (sl_index s < i) then sl_ents s !! Z.to_nat (i - sl_index s - 1) else None.
Definition sl_term_at s (i : Z) : option Z :=
  if decide (i = sl_index s) then Some (sl_term s) else e_Term <$> sl_entry s i.
(** The entries [lo], ..., [hi - 1]. *)
Definition sl_range s (lo hi : Z) : list Entry :=
  take (Z.to_nat (hi - lo)) (drop (Z.to_nat (lo - sl_index s - 1)) (sl_ents s)).

(** Saving entries cuts the log where they start. *)
Definition sl_splice s (ents : list Entry) : slog :=
  match ents with
  | [] => s
  | e :: _ => mkSlog (sl_index s) (sl_term s) (sl_applied s) (take (Z.to_nat (e_Index e - sl_index s - 1)) (sl_ents s) ++ ents)
  end.
(** A snapshot replaces the log. *)
Definition sl_restore s (snap : Snapshot) : slog :=
  if IsEmptySnap (Some snap) then s
  else match sp_Metadata snap with Some md => mkSlog (md_Index md) (md_Term md) (md_Index md) [] | None => s end.
Definition sl_save s (rd : Ready) : slog := sl_splice (sl_restore s (rd_Snapshot rd)) (rd_Entries rd).
(** The hard state is not saved while the log is at index 0. *)
Definition hs_save s (hs : HardState) (rd : Ready) : HardState :=
  if decide (0 < sl_last (sl_save s rd) ∧ IsEmptyHardState (rd_HardState rd) = false) then rd_HardState rd else hs.

Definition hs_u64 (hs : HardState) : Prop := is_u64 (hs_Term hs) ∧ is_u64 (hs_Vote hs) ∧ is_u64 (hs_Commit hs).

Lemma StronglySorted_last (l : list Z) x y : StronglySorted Z.le l → last l = Some y → x ∈ l → x ≤ y.
Proof.
  induction l as [|a l IH]; [done|]. intros [Hs Hh]%StronglySorted_inv. rewrite last_cons. destruct (last l) as [z|] eqn:El.
  - intros [= <-] [->|Hx]%elem_of_cons; [|by apply IH]. rewrite Forall_forall in Hh. apply Hh. by apply last_Some_elem_of.
  - intros [= <-] [->|Hx]%elem_of_cons; [lia|]. apply last_None in El as ->. by apply not_elem_of_nil in Hx.
Qed.

(** Messages without byte strings come back as they were if their numbers are
    [uint64]s, and the zero messages have nothing set. *)
Class StoreMessages `{!Proto Entry, !Proto RaftLocalState, !Proto RaftApplyState} : Prop := {
  wire_local hs li lt : hs_u64 hs → is_u64 li → is_u64 lt → wire (mkRaftLocalState (Some hs) li lt);
  wire_apply ai ti tt : is_u64 ai → is_u64 ti → is_u64 tt → wire (mkRaftApplyState ai (Some (mkRaftTruncatedState ti tt)));
  zero_local : proto_zero (A := RaftLocalState) = mkRaftLocalState None 0 0;
  zero_apply : proto_zero (A := RaftApplyState) = mkRaftApplyState 0 None;
  zero_entry : proto_zero (A := Entry) = mkEntry EntryNormal 0 0 None
}.

Section Spec.
Context {D : Type} `{!Badger D}.
Context `{!Proto Entry, !Proto RaftLocalState, !Proto RaftApplyState, !Proto RegionLocalState, !Proto RaftSnapshotData}.
Context {messages : StoreMessages}.

Record slog_wf s : Prop := {
  sw_index : 0 ≤ sl_index s;
  sw_applied : sl_index s ≤ sl_applied s ≤ sl_last s;
  sw_last : idx_ok (sl_last s);
  sw_num : numbered (sl_index s + 1) (sl_ents s);
  sw_wire : Forall wire (sl_ents s);
  sw_terms : StronglySorted Z.le (sl_term s :: (e_Term <$> sl_ents s));
  sw_range : Forall is_u64 (sl_term s :: (e_Term <$> sl_ents s))
}.

Definition apply_state s : RaftApplyState :=
  mkRaftApplyState (sl_applied s) (Some (mkRaftTruncatedState (sl_index s) (sl_term s))).

Implicit Types ps : PeerStorage D.
Notation rid ps := (metapb.Id (region ps)).
Notation raft ps := (RaftDB (ps_Engines ps)).
Notation kv ps := (Kv (ps_Engines ps)).

(** The engine holds the entries of the log, none after them, and only entries
    where a region's entries are. *)
Record log_at (r : Z) (db : D) s : Prop := {
  la_entry i e : sl_entry s i = Some e → db_get db (RaftLogKey r i) = Some (Marshal e);
  la_after i : sl_last s < i → is_u64 i → db_get db (RaftLogKey r i) = None;
  la_keys k v : db_get db k = Some v → ble (RaftLogKey r 0) k → blt k (RaftStateKey r) →
    ∃ i, is_u64 i ∧ k = RaftLogKey r i
}.

Record represents ps s (hs : HardState) : Prop := {
  rp_wf : slog_wf s;
  rp_kv : db_ok (kv ps);
  rp_raft : db_ok (raft ps);
  rp_hs : hs_u64 hs;
  rp_state : raftState ps = mkRaftLocalState (Some hs) (sl_last s) (sl_last_term s);
  rp_disk : 0 < sl_last s → db_get (raft ps) (RaftStateKey (rid ps)) = Some (Marshal (raftState ps));
  rp_apply : db_get (kv ps) (ApplyStateKey (rid ps)) = Some (Marshal (apply_state s));
  rp_log : log_at (rid ps) (raft ps) s;
  rp_fresh : isInitialized ps = false → sl_last s = 0
}.

(** ** The log *)

Lemma sl_entry_Some s i e : slog_wf s → sl_entry s i = Some e → sl_index s < i ≤ sl_last s ∧ e_Index e = i.
Proof.
  intros [] H. unfold sl_entry in H. case_decide; [|done]. pose proof (lookup_lt_Some _ _ _ H). apply sw_num0 in H.
  unfold sl_last, zlen. lia.
Qed.
Lemma sl_entry_is_Some s i : sl_index s < i ≤ sl_last s → is_Some (sl_entry s i).
Proof. intros H. unfold sl_entry, sl_last, zlen in *. rewrite decide_True; [|lia]. apply lookup_lt_is_Some. lia. Qed.

Lemma sl_last_term_at s : slog_wf s → sl_term_at s (sl_last s) = Some (sl_last_term s).
Proof.
  intros []. unfold sl_term_at, sl_last_term, sl_entry, sl_last, zlen. rewrite last_lookup. destruct (sl_ents s) as [|e es] eqn:E.
  - cbn. by rewrite decide_True; [|lia].
  - cbn [length]. rewrite decide_False; [|lia]. rewrite decide_True; [|lia].
    replace (Z.to_nat _) with (pred (S (length es))) by lia.
    destruct ((e :: es) !! pred (S (length es))) eqn:El; [done|]. apply lookup_ge_None in El. cbn in El. lia.
Qed.

(** Where the first and the last term agree, so do all between. *)
Lemma sl_term_at_elem s i t : sl_term_at s i = Some t → t ∈ sl_term s :: (e_Term <$> sl_ents s).
Proof.
  unfold sl_term_at, sl_entry. case_decide; [intros [= <-]; by left|]. case_decide; [|done].
  intros (e & He & ->)%fmap_Some. right. apply list_elem_of_fmap_2. by eapply list_elem_of_lookup_2.
Qed.

Lemma sl_last_term_last s : last (sl_term s :: (e_Term <$> sl_ents s)) = Some (sl_last_term s).
Proof. unfold sl_last_term. rewrite last_cons fmap_last. by destruct (last (sl_ents s)). Qed.

Lemma sl_terms_between s i t : slog_wf s → sl_term_at s i = Some t → sl_term s ≤ t ≤ sl_last_term s.
Proof.
  intros Hw Ht%sl_term_at_elem. pose proof (sw_terms _ Hw) as Hs. split.
  - apply StronglySorted_inv in Hs as [_ Hh]. rewrite Forall_forall in Hh. apply elem_of_cons in Ht as [->|?]; [lia|by apply Hh].
  - eapply StronglySorted_last; [exact Hs|apply sl_last_term_last|done].
Qed.

Lemma sl_term_u64 s i t : slog_wf s → sl_term_at s i = Some t → is_u64 t.
Proof. intros Hw Ht%sl_term_at_elem. pose proof (sw_range _ Hw) as Hr. rewrite Forall_forall in Hr. by apply Hr. Qed.
Lemma sl_last_term_u64 s : slog_wf s → is_u64 (sl_last_term s).
Proof. intros Hw. eapply sl_term_u64; [done|by apply sl_last_term_at]. Qed.

(** ** The reads *)

Lemma apply_state_u64 s : slog_wf s → is_u64 (sl_applied s) ∧ is_u64 (sl_index s) ∧ is_u64 (sl_term s).
Proof.
  intros Hw. pose proof (sw_last _ Hw). pose proof (sw_index _ Hw). pose proof (sw_applied _ Hw). unfold idx_ok, is_u64, two64 in *.
  pose proof (sw_range _ Hw) as [Hr _]%Forall_cons. unfold is_u64, two64 in Hr. lia.
Qed.
Lemma apply_state_wire s : slog_wf s → wire (apply_state s).
Proof. intros (? & ? & ?)%apply_state_u64. by apply wire_apply. Qed.

Lemma truncatedState_spec ps s hs :
  represents ps s hs → truncatedState ps = Ok (mkRaftTruncatedState (sl_index s) (sl_term s)).
Proof.
  intros R. pose proof (rp_wf _ _ _ R) as Hw. unfold truncatedState, GetApplyState. by rewrite (GetMeta_Marshal _ _ _ (rp_apply _ _ _ R)); [|by apply apply_state_wire].
Qed.
Lemma truncatedIndex_spec ps s hs : represents ps s hs → truncatedIndex ps = Ok (sl_index s).
Proof. intros R. unfold truncatedIndex. by rewrite (truncatedState_spec _ _ _ R). Qed.
Lemma truncatedTerm_spec ps s hs : represents ps s hs → truncatedTerm ps = Ok (sl_term s).
Proof. intros R. unfold truncatedTerm. by rewrite (truncatedState_spec _ _ _ R). Qed.

Lemma represents_bounds ps s hs :
  represents ps s hs → 0 ≤ sl_index s ≤ sl_last s ∧ sl_last s < 2 ^ 63 - 1 ∧ u64 (sl_last s + 1) = sl_last s + 1 ∧
  u64 (sl_index s + 1) = sl_index s + 1.
Proof.
  intros R. pose proof (rp_wf _ _ _ R) as Hw. pose proof (sw_last _ Hw) as Hl. pose proof (sw_index _ Hw).
  unfold idx_ok in Hl. unfold sl_last, zlen in *. rewrite !u64_small; [lia|unfold is_u64, two64; lia..].
Qed.

Lemma checkRange_spec ps s hs lo hi :
  represents ps s hs → lo ≤ hi →
  checkRange ps lo hi =
    if decide (lo ≤ sl_index s) then Err ErrCompacted
    else if decide (sl_last s + 1 < hi) then Err (ErrOther "entries' high is out of bound") else Ok tt.
Proof.
  intros R Hle. unfold checkRange. rewrite decide_False; [|lia]. rewrite (truncatedIndex_spec _ _ _ R). cbn [mbind outcome_bind].
  pose proof (represents_bounds _ _ _ R) as (_ & _ & Hu & _). by rewrite (rp_state _ _ _ R) /= Hu.
Qed.

Lemma FirstIndex_spec ps s hs : represents ps s hs → ps_FirstIndex ps = Ok (sl_index s + 1).
Proof.
  intros R. unfold ps_FirstIndex. rewrite (truncatedIndex_spec _ _ _ R). cbn [mbind outcome_bind].
  by pose proof (represents_bounds _ _ _ R) as (_ & _ & _ & ->).
Qed.
Lemma LastIndex_spec ps s hs : represents ps s hs → ps_LastIndex ps = Ok (sl_last s).
Proof. intros R. unfold ps_LastIndex. by rewrite (rp_state _ _ _ R). Qed.

Lemma Entry_meta ps s hs i e :
  represents ps s hs → sl_entry s i = Some e → GetMeta (raft ps) (RaftLogKey (rid ps) i) = Ok e.
Proof.
  intros R He. apply GetMeta_Marshal; [by apply (la_entry _ _ _ (rp_log _ _ _ R))|].
  pose proof (sw_wire _ (rp_wf _ _ _ R)) as Hf. rewrite Forall_forall in Hf. apply Hf.
  unfold sl_entry in He. case_decide; [|done]. by eapply list_elem_of_lookup_2.
Qed.

(** [Term] answers inside the log, and says how it misses outside of it. *)
Lemma Term_spec ps s hs i :
  represents ps s hs → is_u64 i → i < two64 - 1 →
  ps_Term ps i = match sl_term_at s i with
                 | Some t => Ok t
                 | None => if decide (i < sl_index s) then Err ErrCompacted else Err (ErrOther "entries' high is out of bound")
                 end.
Proof.
  intros R Hi Hm. pose proof (rp_wf _ _ _ R) as Hw. unfold ps_Term. rewrite (truncatedIndex_spec _ _ _ R).
  cbn [mbind outcome_bind]. unfold sl_term_at at 1. case_decide as Hti; [by apply (truncatedTerm_spec _ _ _ R)|].
  assert (Hu : u64 (i + 1) = i + 1) by (apply u64_small; unfold is_u64 in *; lia).
  rewrite Hu (checkRange_spec _ _ _ _ _ R); [|lia]. destruct (decide (i ≤ sl_index s)) as [Hlo|Hlo].
  { unfold sl_entry. rewrite decide_False; [|lia]. cbn. by rewrite decide_True; [|lia]. }
  case_decide as Hhi.
  { destruct (sl_entry s i) as [e|] eqn:He; [apply (sl_entry_Some _ _ _ Hw) in He; lia|]. cbn. by rewrite decide_False; [|lia]. }
  destruct (sl_entry_is_Some s i) as [e He]; [lia|]. cbn [mbind outcome_bind].
  rewrite (truncatedTerm_spec _ _ _ R) (rp_state _ _ _ R). cbn [mbind outcome_bind rl_LastTerm rl_LastIndex]. rewrite He. cbn [fmap option_fmap option_map].
  assert (Ht : sl_term_at s i = Some (e_Term e)) by (unfold sl_term_at; rewrite decide_False // He //).
  case_decide as Hs.
  - f_equal. destruct Hs as [Hs| ->]; [pose proof (sl_terms_between _ _ _ Hw Ht); lia|]. rewrite sl_last_term_at // in Ht. by injection Ht.
  - by rewrite (Entry_meta _ _ _ _ _ R He).
Qed.

(** An iterator that stands at entry [i]: what it has still to visit. *)
Definition items_from (db : D) (k : bytes) (items : list (bytes * bytes)) : Prop :=
  StronglySorted (λ a b, blt a.1 b.1) items ∧ ∀ k' v, (k', v) ∈ items ↔ db_get db k' = Some v ∧ ble k k'.

Lemma items_from_head db k v items :
  items_from db k items → db_get db k = Some v → ∃ rest, items = (k, v) :: rest.
Proof.
  intros [Hs He] Hg. assert (Hin : (k, v) ∈ items) by (apply He; auto using ble_refl).
  destruct items as [|[k1 v1] rest]; [by apply not_elem_of_nil in Hin|].
  assert (Hk : ble k k1) by (apply (He k1 v1); by left).
  apply elem_of_cons in Hin as [[= <- <-]|Hin]; [by exists rest|].
  apply StronglySorted_inv in Hs as [_ Hh]. rewrite Forall_forall in Hh. apply Hh in Hin. cbn in Hin. by apply blt_not_ble in Hin.
Qed.

(** Between two entries of the log the engine holds nothing. *)
Lemma items_from_next ps s hs i v rest :
  represents ps s hs → 0 ≤ i → i < two64 - 1 →
  items_from (raft ps) (RaftLogKey (rid ps) i) ((RaftLogKey (rid ps) i, v) :: rest) →
  items_from (raft ps) (RaftLogKey (rid ps) (i + 1)) rest.
Proof.
  intros R H0 H1 [Hs He]. apply StronglySorted_inv in Hs as [Hs Hh]. split; [done|]. intros k' v'. rewrite Forall_forall in Hh.
  assert (Hlt : blt (RaftLogKey (rid ps) i) (RaftLogKey (rid ps) (i + 1))).
  { apply RaftLogKey_blt; unfold is_u64; lia. }
  split.
  - intros Hin. pose proof (Hh _ Hin) as Hb. cbn in Hb. assert (Hg : db_get (raft ps) k' = Some v') by (apply (He k' v'); by right).
    split; [done|]. apply ble_not_blt. intros Hb'.
    destruct (la_keys _ _ _ (rp_log _ _ _ R) _ _ Hg) as (j & Hj & ->).
    + apply blt_ble. eapply ble_blt_trans; [|exact Hb]. apply RaftLogKey_ble; unfold is_u64, two64 in *; lia.
    + eapply blt_trans; [exact Hb'|apply RaftLogKey_below].
    + apply RaftLogKey_blt in Hb; [|unfold is_u64 in *; lia..]. apply RaftLogKey_blt in Hb'; unfold is_u64 in *; lia.
  - intros [Hg Hb]. assert (Hin : (k', v') ∈ (RaftLogKey (rid ps) i, v) :: rest) by (apply He; eauto using blt_ble, blt_ble_trans).
    apply elem_of_cons in Hin as [[= -> ->]|?]; [|done]. by apply blt_not_ble in Hlt.
Qed.

Lemma Entries_loop_spec ps s hs n i items buf :
  represents ps s hs → sl_index s < i → i + Z.of_nat n ≤ sl_last s + 1 →
  items_from (raft ps) (RaftLogKey (rid ps) i) items →
  Entries_loop items (RaftLogKey (rid ps) (i + Z.of_nat n)) i buf =
    Ok (buf ++ take n (drop (Z.to_nat (i - sl_index s - 1)) (sl_ents s))).
Proof.
  intros R. pose proof (represents_bounds _ _ _ R) as (H0 & H1 & _ & _). pose proof (rp_wf _ _ _ R) as Hw.
  revert i items buf. induction n as [|n IH]; intros i items buf Hi Hn Hit.
  - rewrite Z.add_0_r app_nil_r. destruct items as [|[k v] items]; [done|]. cbn.
    assert (Hb : ble (RaftLogKey (rid ps) i) k) by (destruct Hit as [_ Hit]; apply (Hit k v); by left).
    apply bleb_spec in Hb. by rewrite Hb.
  - destruct (sl_entry_is_Some s i) as [e He]; [lia|]. pose proof (la_entry _ _ _ (rp_log _ _ _ R) _ _ He) as Hg.
    destruct (items_from_head _ _ _ _ Hit Hg) as [rest ->]. cbn [Entries_loop].
    destruct (bleb _ _) eqn:Hb.
    { apply bleb_spec, RaftLogKey_ble in Hb; unfold is_u64, two64; lia. }
    pose proof (Entry_meta _ _ _ _ _ R He) as Hm. unfold GetMeta in Hm. rewrite Hg in Hm. destruct (Unmarshal (Marshal e)) as [e'|]; [|done].
    injection Hm as ->. destruct (decide (e_Index e ≠ i)) as [Hne|_]; [by apply (sl_entry_Some _ _ _ Hw) in He as [_ ?]|].
    rewrite u64_small; [|unfold is_u64, two64; lia]. replace (i + Z.of_nat (S n)) with (i + 1 + Z.of_nat n) by lia.
    rewrite IH; [|lia|lia|eapply items_from_next; [exact R|lia|unfold two64; lia|exact Hit]].
    rewrite -app_assoc. do 2 f_equal. unfold sl_entry in He. case_decide; [|done].
    rewrite (drop_S _ _ _ He). cbn. do 3 f_equal. lia.
Qed.

Lemma Entries_spec ps s hs lo hi :
  represents ps s hs → sl_index s < lo ≤ hi → hi ≤ sl_last s + 1 → ps_Entries ps lo hi = Ok (sl_range s lo hi).
Proof.
  intros R Hlo Hhi. pose proof (represents_bounds _ _ _ R) as (H0 & H1 & _ & _). unfold ps_Entries.
  rewrite (checkRange_spec _ _ _ _ _ R); [|lia].
  rewrite (decide_False (P := lo ≤ sl_index s)); [|lia]. rewrite (decide_False (P := sl_last s + 1 < hi)); [|lia]. cbn [mbind outcome_bind].
  unfold sl_range. case_decide as E; [subst; by rewrite Z.sub_diag|].
  replace (RaftLogKey (rid ps) hi) with (RaftLogKey (rid ps) (lo + Z.of_nat (Z.to_nat (hi - lo)))) by (f_equal; lia).
  rewrite (Entries_loop_spec _ _ _ _ _ _ _ R); [|lia|lia|].
  2:{ split; [apply db_from_sorted|intros; apply db_from_elem]; apply (rp_raft _ _ _ R). }
  cbn [app mbind outcome_bind]. rewrite u64_small; [|unfold is_u64, two64; lia]. rewrite i64_small; [|lia].
  rewrite decide_True //. unfold zlen, sl_last, zlen in *. rewrite length_take length_drop. lia.
Qed.

Lemma Entries_errors ps s hs lo hi :
  represents ps s hs → lo ≤ hi → (lo ≤ sl_index s ∨ sl_last s + 1 < hi) →
  ps_Entries ps lo hi = Err (if decide (lo ≤ sl_index s) then ErrCompacted else ErrOther "entries' high is out of bound").
Proof.
  intros R Hle Hout. unfold ps_Entries. rewrite (checkRange_spec _ _ _ _ _ R) //.
  destruct (decide (lo ≤ sl_index s)); [done|]. by rewrite (decide_True (P := sl_last s + 1 < hi)); [|lia].
Qed.

(** ** Batches *)

Lemma foldl_SetMeta_entries (K : Entry → bytes) ents wb :
  wb_entries (foldl (λ wb e, SetMeta wb (K e) e) wb ents) = wb_entries wb ++ ((λ e, (K e, Marshal e)) <$> ents).
Proof. revert wb. induction ents as [|e ents IH]; intros wb; cbn; [by rewrite app_nil_r|]. rewrite IH /= -app_assoc //. Qed.

Lemma foldl_DeleteMeta_entries (K : Z → bytes) js wb :
  wb_entries (foldl (λ wb i, DeleteMeta wb (K i)) wb js) = wb_entries wb ++ ((λ i, (K i, [])) <$> js).
Proof. revert wb. induction js as [|i js IH]; intros wb; cbn; [by rewrite app_nil_r|]. rewrite IH /= -app_assoc //. Qed.

Lemma wb_last_elem es k v : wb_last es k = Some v → (k, v) ∈ es.
Proof.
  induction es as [|[k' v'] es IH] using rev_ind; [done|]. rewrite wb_last_app wb_last_single elem_of_app.
  case_decide; [intros [= ->]; subst; right; by left|left; auto].
Qed.
Lemma wb_last_is_Some es k v : (k, v) ∈ es → is_Some (wb_last es k).
Proof.
  induction es as [|[k' v'] es IH] using rev_ind; [by intros ?%not_elem_of_nil|]. rewrite wb_last_app wb_last_single elem_of_app.
  case_decide; [by eexists|]. intros [?|[= -> ->]%list_elem_of_singleton]; [auto|done].
Qed.

Definition deletes (wb : WriteBatch) : Prop := Forall (λ e, e.2 = []) (wb_entries wb).

Lemma WriteToDB_deletes wb db k :
  deletes wb → db_ok db →
  db_get (WriteToDB wb db) k = if decide (k ∈ (wb_entries wb).*1) then None else db_get db k.
Proof.
  intros Hd Hok. rewrite WriteToDB_get //. unfold deletes in Hd. rewrite Forall_forall in Hd. case_decide as Hk.
  - apply list_elem_of_fmap in Hk as ([k' v] & -> & Hin). destruct (wb_last_is_Some _ _ _ Hin) as [v' Hl]. cbn. rewrite Hl.
    pose proof (Hd _ (wb_last_elem _ _ _ Hl)) as Hv. cbn in Hv. by subst v'.
  - destruct (wb_last (wb_entries wb) k) as [v|] eqn:Hl; [|done]. destruct Hk. apply list_elem_of_fmap. exists (k, v). eauto using wb_last_elem.
Qed.

Lemma foldl_delete_ok (K : Z → bytes) js (db : D) : db_ok db → db_ok (foldl (λ db i, db_delete db (K i)) db js).
Proof. revert db. induction js as [|i js IH]; intros db H; cbn; auto. Qed.
Lemma foldl_delete_get (K : Z → bytes) js (db : D) k :
  db_ok db → db_get (foldl (λ db i, db_delete db (K i)) db js) k = if decide (k ∈ K <$> js) then None else db_get db k.
Proof.
  revert db. induction js as [|i js IH]; intros db H.
  { case_decide as Hin; [by apply not_elem_of_nil in Hin|done]. }
  rewrite /= IH; [|auto]. rewrite db_get_delete //. repeat case_decide; set_solver.
Qed.

(** ** Saving entries *)

Record ents_ok s (ents : list Entry) : Prop := {
  eo_from e : head ents = Some e → sl_applied s < e_Index e ≤ sl_last s + 1 ∧ numbered (e_Index e) ents;
  eo_last e : last ents = Some e → idx_ok (e_Index e);
  eo_wire : Forall wire ents;
  eo_terms : StronglySorted Z.le (e_Term <$> ents);
  eo_after e t : head ents = Some e → sl_term_at s (e_Index e - 1) = Some t → t ≤ e_Term e;
  eo_range : Forall is_u64 (e_Term <$> ents)
}.

Lemma sl_splice_last s ents e :
  slog_wf s → ents_ok s ents → last ents = Some e → sl_last (sl_splice s ents) = e_Index e ∧ sl_last_term (sl_splice s ents) = e_Term e.
Proof.
  intros Hw Ho Hl. pose proof (sw_applied _ Hw). destruct ents as [|e0 ents]; [done|]. destruct (eo_from _ _ Ho e0 eq_refl) as [Hr Hn].
  cbn [sl_splice]. unfold sl_last_term. cbn [sl_ents]. rewrite last_app Hl. split; [|done].
  rewrite last_lookup in Hl. apply Hn in Hl. unfold sl_last, zlen in *. cbn [sl_index sl_ents]. rewrite length_app length_take.
  cbn [length] in *. lia.
Qed.

(** The terms up to a cut are at most the term before it. *)
Lemma sl_terms_take s n t :
  slog_wf s → (n ≤ length (sl_ents s))%nat → t ∈ sl_term s :: (e_Term <$> take n (sl_ents s)) →
  ∃ t', sl_term_at s (sl_index s + Z.of_nat n) = Some t' ∧ t ≤ t'.
Proof.
  intros Hw Hn Ht. set (s' := mkSlog (sl_index s) (sl_term s) 0 (take n (sl_ents s))).
  exists (sl_last_term s'). split.
  - unfold sl_term_at, sl_entry, sl_last_term. cbn [sl_ents s']. rewrite last_lookup length_take_le //. destruct n as [|n].
    + rewrite decide_True; [done|lia].
    + rewrite decide_False; [|lia]. rewrite decide_True; [|lia]. cbn [pred]. rewrite lookup_take_lt; [|lia].
      replace (Z.to_nat _) with n by lia. destruct (sl_ents s !! n) eqn:E; [done|]. apply lookup_ge_None in E. lia.
  - eapply StronglySorted_last; [|apply (sl_last_term_last s')|exact Ht]. pose proof (sw_terms _ Hw) as Hs.
    rewrite -(take_drop n (sl_ents s)) fmap_app app_comm_cons in Hs. by apply StronglySorted_app_1_l in Hs.
Qed.

Lemma sl_splice_wf s ents : slog_wf s → ents_ok s ents → slog_wf (sl_splice s ents).
Proof.
  intros Hw Ho. destruct ents as [|e0 ents]; [done|]. pose proof (eo_from _ _ Ho e0 eq_refl) as [Hr Hn].
  pose proof (sw_applied _ Hw) as Hap.
  cbn [sl_splice]. set (n := Z.to_nat (e_Index e0 - sl_index s - 1)).
  assert (Hlen : (n ≤ length (sl_ents s))%nat) by (unfold sl_last, zlen in Hr; lia).
  split; cbn [sl_index sl_term sl_applied sl_ents].
  - apply (sw_index _ Hw).
  - unfold sl_last, zlen in *. cbn [sl_index sl_ents]. rewrite length_app length_take. cbn [length]. lia.
  - destruct (last (e0 :: ents)) as [el|] eqn:El; [|by apply last_None in El].
    pose proof (sl_splice_last _ _ _ Hw Ho El) as [Hl _]. cbn [sl_splice] in Hl. rewrite Hl. by apply (eo_last _ _ Ho).
  - apply numbered_app. split.
    { pose proof (sw_num _ Hw) as Hnum. rewrite -(take_drop n (sl_ents s)) in Hnum. by apply numbered_app in Hnum as [? _]. }
     rewrite length_take_le //.
    by replace (sl_index s + 1 + Z.of_nat n) with (e_Index e0) by lia.
  - apply Forall_app. split; [apply Forall_take, (sw_wire _ Hw)|apply (eo_wire _ _ Ho)].
  - rewrite fmap_app app_comm_cons. apply StronglySorted_app_2; [| |apply (eo_terms _ _ Ho)].
    + intros t t' Ht Ht'. destruct (sl_terms_take _ _ _ Hw Hlen Ht) as (t1 & Ht1 & Hle).
      replace (sl_index s + Z.of_nat n) with (e_Index e0 - 1) in Ht1 by lia. pose proof (eo_after _ _ Ho e0 _ eq_refl Ht1) as Ha.
      pose proof (eo_terms _ _ Ho) as Hs. cbn in Hs, Ht'. apply StronglySorted_inv in Hs as [_ Hh]. rewrite Forall_forall in Hh.
      apply elem_of_cons in Ht' as [->|Ht']; [lia|]. apply Hh in Ht'. lia.
    + pose proof (sw_terms _ Hw) as Hs. rewrite -(take_drop n (sl_ents s)) fmap_app app_comm_cons in Hs. by apply StronglySorted_app_1_l in Hs.
  - pose proof (sw_range _ Hw) as Hf. apply Forall_cons in Hf as [? Hf]. rewrite fmap_app. constructor; [done|].
    apply Forall_app. split; [|apply (eo_range _ _ Ho)]. rewrite fmap_take. by apply Forall_take.
Qed.
(** The batch of numbered entries holds each under its index. *)
Notation log_items r ents := ((λ e, (RaftLogKey r (e_Index e), Marshal e)) <$> ents).

Lemma wb_last_ents r from ents i :
  numbered from ents → 0 ≤ from → from + zlen ents < two64 → is_u64 i →
  wb_last (log_items r ents) (RaftLogKey r i) =
    if decide (from ≤ i) then Marshal <$> ents !! Z.to_nat (i - from) else None.
Proof.
  intros Hn H0 H1 Hi.
  assert (Hix : ∀ j e, ents !! j = Some e → e_Index e = from + Z.of_nat j ∧ is_u64 (e_Index e)).
  { intros j e He. pose proof (lookup_lt_Some _ _ _ He). rewrite (Hn _ _ He). unfold zlen, is_u64 in *. lia. }
  destruct (wb_last _ _) as [v|] eqn:Hl.
  - apply wb_last_elem, list_elem_of_fmap in Hl as (e & [Hk ->]%pair_eq & [j Hj]%list_elem_of_lookup_1).
    destruct (Hix _ _ Hj) as [He Hu]. apply RaftLogKey_inj in Hk; [|done..]. subst i. rewrite decide_True; [|lia].
    replace (Z.to_nat _) with j by lia. by rewrite Hj.
  - case_decide; [|done]. destruct (ents !! _) as [e|] eqn:He; [|done]. destruct (Hix _ _ He) as [Hx _].
    destruct (wb_last_is_Some (log_items r ents) (RaftLogKey r i) (Marshal e)) as [v Hv]; [|by rewrite Hv in Hl].
    apply list_elem_of_fmap. exists e. split; [|by eapply list_elem_of_lookup_2]. do 2 f_equal. lia.
Qed.

Lemma Entry_nonempty e : wire e → e_Index e ≠ 0 → Marshal e ≠ [].
Proof. intros Hw Hi Hm. apply Marshal_nil in Hm; [|done]. subst e. by rewrite zero_entry in Hi. Qed.

(** What the engine holds once the batch of [Append] is written. *)
Lemma Append_get r wb db ents a b k :
  deletes wb → db_ok db →
  db_get (WriteToDB (foldl (λ wb e, SetMeta wb (RaftLogKey r (e_Index e)) e) wb ents)
            (foldl (λ db i, db_delete db (RaftLogKey r i)) db (index_range a b))) k =
    match wb_last (log_items r ents) k with
    | Some v => if decide (v = []) then None else Some v
    | None => if decide (k ∈ RaftLogKey r <$> index_range a b) then None else db_get (WriteToDB wb db) k
    end.
Proof.
  intros Hd Hok. rewrite WriteToDB_get; [|by apply foldl_delete_ok].
  rewrite (foldl_SetMeta_entries (λ e, RaftLogKey r (e_Index e))) wb_last_app. destruct (wb_last (log_items r ents) k) as [v|]; [done|].
  rewrite WriteToDB_get // foldl_delete_get //. destruct (wb_last (wb_entries wb) k) as [v|] eqn:Hl; [|done].
  unfold deletes in Hd. rewrite Forall_forall in Hd. apply wb_last_elem, Hd in Hl. cbn in Hl. subst v. by destruct (decide (k ∈ _)).
Qed.

Lemma elem_log_range r a b i :
  0 ≤ a → b < two64 → is_u64 i → RaftLogKey r i ∈ RaftLogKey r <$> index_range a b ↔ a ≤ i ≤ b.
Proof.
  intros Ha Hb Hi. rewrite list_elem_of_fmap. unfold index_range. split.
  - intros (j & Hk & Hj%elem_of_seqZ). apply RaftLogKey_inj in Hk; unfold is_u64 in *; lia.
  - intros H. exists i. split; [done|]. apply elem_of_seqZ. lia.
Qed.

Lemma sl_splice_entry s e0 ents i :
  slog_wf s → ents_ok s (e0 :: ents) →
  sl_entry (sl_splice s (e0 :: ents)) i =
    if decide (e_Index e0 ≤ i) then (e0 :: ents) !! Z.to_nat (i - e_Index e0) else sl_entry s i.
Proof.
  intros Hw Ho. pose proof (sw_applied _ Hw). destruct (eo_from _ _ Ho e0 eq_refl) as [Hr _]. unfold sl_entry, sl_last, zlen in *. cbn [sl_splice sl_index sl_ents].
  case_decide as H1.
  - case_decide as H2.
    + rewrite lookup_app_r; rewrite length_take; [|lia]. f_equal. lia.
    + rewrite lookup_app_l; [|rewrite length_take; lia]. rewrite lookup_take_lt //. lia.
  - by rewrite decide_False; [|lia].
Qed.

Lemma log_at_Append r wb db s e0 ents el :
  slog_wf s → ents_ok s (e0 :: ents) → last (e0 :: ents) = Some el → deletes wb → db_ok db →
  log_at r (WriteToDB wb db) s →
  log_at r (WriteToDB (foldl (λ wb e, SetMeta wb (RaftLogKey r (e_Index e)) e) wb (e0 :: ents))
              (foldl (λ db i, db_delete db (RaftLogKey r i)) db (index_range (e_Index el + 1) (sl_last s))))
    (sl_splice s (e0 :: ents)).
Proof.
  intros Hw Ho Hel Hd Hok [He Ha Hk]. destruct (eo_from _ _ Ho e0 eq_refl) as [Hr Hn].
  destruct (sl_splice_last _ _ _ Hw Ho Hel) as [Hlast _]. pose proof (sw_index _ Hw) as H0. pose proof (sw_applied _ Hw) as Hap. pose proof (sw_last _ Hw) as Hwl.
  pose proof (eo_last _ _ Ho _ Hel) as Hl. assert (Hlen : e_Index el = e_Index e0 + zlen ents).
  { rewrite last_lookup in Hel. apply Hn in Hel. unfold zlen. cbn [length] in Hel. lia. }
  pose proof (zlen_nonneg ents). unfold idx_ok in *. assert (Hz : zlen (e0 :: ents) = zlen ents + 1) by (unfold zlen; cbn [length]; lia).
  assert (Hlook : ∀ i, is_u64 i → wb_last (log_items r (e0 :: ents)) (RaftLogKey r i) =
    if decide (e_Index e0 ≤ i) then Marshal <$> (e0 :: ents) !! Z.to_nat (i - e_Index e0) else None).
  { intros i Hi. apply wb_last_ents; [done|lia|unfold two64; lia|done]. }
  split.
  - intros i e Hi. assert (Hu : is_u64 i).
    { apply (sl_entry_Some _ _ _ (sl_splice_wf _ _ Hw Ho)) in Hi as [Hi _]. rewrite Hlast in Hi. cbn in Hi. unfold is_u64, two64. lia. }
    rewrite Append_get // Hlook //. rewrite sl_splice_entry // in Hi. case_decide as Hle.
    + rewrite Hi. cbn. destruct (decide (Marshal e = [])) as [Hm|]; [|done]. exfalso. revert Hm.
      apply Entry_nonempty; [|rewrite (Hn _ _ Hi); lia]. pose proof (eo_wire _ _ Ho) as Hf. by eapply Forall_lookup_1 in Hf.
    + rewrite decide_False; [by apply He|]. rewrite elem_log_range; [lia..|unfold two64; lia|done].
  - rewrite Hlast. intros i Hi Hu. rewrite Append_get // Hlook //. rewrite decide_True; [|lia].
    destruct (_ !! _) as [e|] eqn:E; cbn [fmap option_fmap option_map].
    { apply lookup_lt_Some in E. unfold zlen in *. cbn [length] in *. lia. }
    case_decide as Hin; [done|]. apply Ha; [|done]. rewrite elem_log_range in Hin; [lia..|unfold two64; lia|done].
  - intros k v. rewrite Append_get //. destruct (wb_last _ k) as [v'|] eqn:Hwl'; [|case_decide; eauto; done].
    intros _ _ _. apply wb_last_elem, list_elem_of_fmap in Hwl' as (e & [-> ->]%pair_eq & [j Hj]%list_elem_of_lookup_1).
    exists (e_Index e). split; [|done]. pose proof (lookup_lt_Some _ _ _ Hj). rewrite (Hn _ _ Hj). cbn [length] in *. unfold is_u64, two64, zlen in *. lia.
Qed.
Lemma wb_last_ents_other r ents k : (∀ i, k ≠ RaftLogKey r i) → wb_last (log_items r ents) k = None.
Proof.
  intros Hk. destruct (wb_last _ k) as [v|] eqn:Hl; [|done].
  apply wb_last_elem, list_elem_of_fmap in Hl as (e & [-> _]%pair_eq & _). by destruct (Hk (e_Index e)).
Qed.

Lemma ps_Append_spec ps s hs wb ents :
  slog_wf s → ents_ok s ents → deletes wb → db_ok (raft ps) →
  raftState ps = mkRaftLocalState hs (sl_last s) (sl_last_term s) → log_at (rid ps) (WriteToDB wb (raft ps)) s →
  let '(ps', wb') := ps_Append ps ents wb in
  region ps' = region ps ∧ kv ps' = kv ps ∧ db_ok (raft ps') ∧
  raftState ps' = mkRaftLocalState hs (sl_last (sl_splice s ents)) (sl_last_term (sl_splice s ents)) ∧
  log_at (rid ps) (WriteToDB wb' (raft ps')) (sl_splice s ents) ∧
  ∀ r, db_get (WriteToDB wb' (raft ps')) (RaftStateKey r) = db_get (WriteToDB wb (raft ps)) (RaftStateKey r).
Proof.
  intros Hw Ho Hd Hok Hs Hlog. unfold ps_Append. destruct ents as [|e0 ents]; [done|].
  destruct (last (e0 :: ents)) as [el|] eqn:Hel; [|by apply last_None in Hel].
  destruct (sl_splice_last _ _ _ Hw Ho Hel) as [Hl Ht]. pose proof (eo_last _ _ Ho _ Hel) as Hi. unfold idx_ok in Hi.
  rewrite Hs. cbn [rl_LastIndex rl_HardState]. rewrite u64_small; [|unfold is_u64, two64; lia]. rewrite Hl Ht.
  split_and!; try done.
  - by apply foldl_delete_ok.
  - by apply log_at_Append.
  - intros r. cbn [set_raftState set_RaftDB ps_Engines RaftDB]. rewrite Append_get //.
    rewrite wb_last_ents_other; [|intros i E; by eapply RaftLogKey_not_state].
    case_decide as Hin; [|done]. apply list_elem_of_fmap in Hin as (i & E & _). by destruct (RaftLogKey_not_state (rid ps) i r).
Qed.

(** ** Saving the state *)

Lemma WriteToDB_add wb k v db : WriteToDB (wb_add wb k v) db = write_entry (WriteToDB wb db) (k, v).
Proof. unfold WriteToDB. cbn. by rewrite foldl_app. Qed.
Lemma SetMeta_get {A} `{!Proto A} wb k (m : A) db k' :
  db_ok db → Marshal m ≠ [] →
  db_get (WriteToDB (SetMeta wb k m) db) k' = if decide (k' = k) then Some (Marshal m) else db_get (WriteToDB wb db) k'.
Proof.
  intros Hok Hm. unfold SetMeta. rewrite WriteToDB_add write_entry_get; [|by apply WriteToDB_ok]. cbn. by rewrite (decide_False (P := Marshal m = [])).
Qed.
Lemma SetMeta_get_ne {A} `{!Proto A} wb k (m : A) db k' :
  db_ok db → k' ≠ k → db_get (WriteToDB (SetMeta wb k m) db) k' = db_get (WriteToDB wb db) k'.
Proof.
  intros Hok Hk. unfold SetMeta. rewrite WriteToDB_add write_entry_get; [|by apply WriteToDB_ok]. cbn. by rewrite (decide_False (P := k' = k)).
Qed.

Lemma local_nonempty hs li lt : hs_u64 hs → is_u64 li → is_u64 lt → Marshal (mkRaftLocalState (Some hs) li lt) ≠ [].
Proof. intros H1 H2 H3 Hm. apply Marshal_nil in Hm; [|by apply wire_local]. by rewrite zero_local in Hm. Qed.
Lemma apply_nonempty ai ti tt :
  is_u64 ai → is_u64 ti → is_u64 tt → Marshal (mkRaftApplyState ai (Some (mkRaftTruncatedState ti tt))) ≠ [].
Proof. intros H1 H2 H3 Hm. apply Marshal_nil in Hm; [|by apply wire_apply]. by rewrite zero_apply in Hm. Qed.

(** A log does not depend on the keys of the state. *)
Lemma log_at_ext r db db' s :
  (∀ k, k ≠ RaftStateKey r → db_get db' k = db_get db k) → log_at r db s → log_at r db' s.
Proof.
  intros Heq [He Ha Hk]. split.
  - intros i e Hi. rewrite Heq; [by apply He|apply RaftLogKey_not_state].
  - intros i Hi Hu. rewrite Heq; [by apply Ha|apply RaftLogKey_not_state].
  - intros k v Hg Hlo Hhi. rewrite Heq in Hg; [by eapply Hk|]. intros ->. by apply blt_irrefl in Hhi.
Qed.

(** The peer with its batches not yet written. *)
Record staged ps (kvWB raftWB : WriteBatch) s (hs : HardState) : Prop := {
  sg_wf : slog_wf s;
  sg_kv : db_ok (kv ps);
  sg_raft : db_ok (raft ps);
  sg_hs : hs_u64 hs;
  sg_deletes : deletes raftWB;
  sg_state : raftState ps = mkRaftLocalState (Some hs) (sl_last s) (sl_last_term s);
  sg_apply : db_get (WriteToDB kvWB (kv ps)) (ApplyStateKey (rid ps)) = Some (Marshal (apply_state s));
  sg_log : log_at (rid ps) (WriteToDB raftWB (raft ps)) s;
  sg_fresh : isInitialized ps = false → sl_last s = 0
}.
Lemma save_rest_spec ps kvWB raftWB s hs rd prev s' hs' :
  staged ps kvWB raftWB s hs → ents_ok s (rd_Entries rd) → hs_u64 (rd_HardState rd) →
  (isInitialized ps = false → rd_Entries rd = []) →
  s' = sl_splice s (rd_Entries rd) →
  hs' = (if decide (0 < sl_last s' ∧ IsEmptyHardState (rd_HardState rd) = false) then rd_HardState rd else hs) →
  (prev = mkRaftLocalState (Some hs') (sl_last s') (sl_last_term s') → 0 < sl_last s' →
    db_get (WriteToDB raftWB (raft ps)) (RaftStateKey (rid ps)) = Some (Marshal prev)) →
  represents (save_rest ps rd prev kvWB raftWB) s' hs'.
Proof.
  intros G Ho Hu Hf Hs' Hhs' Hdisk. pose proof (sg_wf _ _ _ _ _ G) as Hw. unfold save_rest.
  pose proof (ps_Append_spec ps s (Some hs) raftWB (rd_Entries rd) Hw Ho (sg_deletes _ _ _ _ _ G) (sg_raft _ _ _ _ _ G)
    (sg_state _ _ _ _ _ G) (sg_log _ _ _ _ _ G)) as HA.
  destruct (ps_Append ps (rd_Entries rd) raftWB) as [ps1 wb1]. destruct HA as (Hreg & Hkv & Hok & Hst & Hlog & Hkey).
  rewrite -Hs' in Hst, Hlog. pose proof (sl_splice_wf _ _ Hw Ho) as Hw'. rewrite -Hs' in Hw'.
  set (ps2 := if decide _ then _ else ps1).
  assert (H2 : raftState ps2 = mkRaftLocalState (Some hs') (sl_last s') (sl_last_term s') ∧ region ps2 = region ps ∧ ps_Engines ps2 = ps_Engines ps1).
  { unfold ps2. rewrite Hst. cbn [rl_LastIndex rl_LastTerm]. rewrite Hhs'. by case_decide. }
  destruct H2 as (Hst2 & Hreg2 & Hen2). clearbody ps2.
  assert (Hhs : hs_u64 hs') by (subst hs'; case_decide; [done|apply (sg_hs _ _ _ _ _ G)]).
  assert (Hne : Marshal (raftState ps2) ≠ []).
  { rewrite Hst2. apply local_nonempty; [done| |by apply sl_last_term_u64]. pose proof (sw_last _ Hw') as Hl. unfold idx_ok, is_u64, two64 in *. lia. }
  split; cbn [set_Engines region ps_Engines Kv RaftDB raftState]; rewrite ?Hen2 ?Hreg2.
  - done.
  - rewrite Hkv. apply WriteToDB_ok, (sg_kv _ _ _ _ _ G).
  - by apply WriteToDB_ok.
  - done.
  - done.
  - intros Hpos. destruct (decide (prev ≠ raftState ps2)) as [Hd|Hd].
    + rewrite SetMeta_get //. by rewrite decide_True.
    + apply dec_stable in Hd. rewrite Hkey -Hd. apply Hdisk; [by rewrite Hd|done].
  - rewrite Hkv. rewrite (sg_apply _ _ _ _ _ G). rewrite Hs'. unfold apply_state. by destruct (rd_Entries rd).
  - destruct (decide (prev ≠ raftState ps2)); [|done]. eapply log_at_ext; [|exact Hlog]. intros k Hk. rewrite SetMeta_get //. by rewrite decide_False.
  - unfold isInitialized. cbn. rewrite Hreg2. intros Hi. rewrite Hs' (Hf Hi). by apply (sg_fresh _ _ _ _ _ G).
Qed.
(** ** Applying a snapshot *)

(** Where [ClearMeta] starts: at or before every entry of the engine. *)
Lemma ClearMeta_first ps s hs :
  represents ps s hs →
  ∃ fi, match db_from (raft ps) (RaftLogKey (rid ps) 0) with
        | (k, _) :: _ => if bltb k (RaftLogKey (rid ps) (sl_last s + 1)) then RaftLogIndex k else Ok (sl_last s + 1)
        | [] => Ok (sl_last s + 1)
        end = Ok fi ∧ is_u64 fi ∧
    ∀ i v, is_u64 i → db_get (raft ps) (RaftLogKey (rid ps) i) = Some v → fi ≤ i ≤ sl_last s.
Proof.
  intros R. pose proof (represents_bounds _ _ _ R) as (H0 & H1 & _ & _). pose proof (rp_log _ _ _ R) as Hlog.
  assert (H00 : is_u64 0) by (unfold is_u64, two64; lia). assert (Hu1 : is_u64 (sl_last s + 1)) by (unfold is_u64, two64; lia).
  assert (Hlast : ∀ i v, is_u64 i → db_get (raft ps) (RaftLogKey (rid ps) i) = Some v → i ≤ sl_last s).
  { intros i v Hi Hg. destruct (decide (i ≤ sl_last s)); [done|]. by rewrite (la_after _ _ _ Hlog) in Hg; [|lia|]. }
  pose proof (db_from_elem (raft ps) (RaftLogKey (rid ps) 0)) as Hel. pose proof (db_from_sorted (raft ps) (RaftLogKey (rid ps) 0)) as Hso.
  destruct (db_from _ _) as [|[k v] items].
  { exists (sl_last s + 1). split_and!; [done..|]. intros i v Hi Hg.
    assert (Hin : (RaftLogKey (rid ps) i, v) ∈ []) by (apply Hel; [apply (rp_raft _ _ _ R)|split; [done|apply RaftLogKey_ble; unfold is_u64 in *; lia]]).
    by apply not_elem_of_nil in Hin. }
  assert (Hmin : ∀ i v, is_u64 i → db_get (raft ps) (RaftLogKey (rid ps) i) = Some v → ble k (RaftLogKey (rid ps) i)).
  { intros i v' Hi Hg. assert (Hin : (RaftLogKey (rid ps) i, v') ∈ (k, v) :: items).
    { apply Hel; [apply (rp_raft _ _ _ R)|split; [done|apply RaftLogKey_ble; unfold is_u64 in *; lia]]. }
    apply elem_of_cons in Hin as [[<- _]%pair_eq|Hin]; [apply ble_refl|]. specialize (Hso (rp_raft _ _ _ R)).
    apply StronglySorted_inv in Hso as [_ Hh]. rewrite Forall_forall in Hh. by apply blt_ble, (Hh _ Hin). }
  destruct (bltb k _) eqn:Hb.
  - apply bltb_spec in Hb. destruct (Hel k v (rp_raft _ _ _ R)) as [Hk _]. destruct Hk as [Hg Hge]; [by left|].
    destruct (la_keys _ _ _ Hlog _ _ Hg Hge) as (j & Hj & ->); [eapply blt_trans; [exact Hb|apply RaftLogKey_below]|].
    exists j. split_and!; [by apply RaftLogIndex_key|done|]. intros i v' Hi Hgi. split; [|by eapply Hlast].
    apply (RaftLogKey_ble (rid ps)); eauto.
  - exists (sl_last s + 1). split_and!; [done..|]. intros i v' Hi Hgi. pose proof (Hlast _ _ Hi Hgi). exfalso.
    assert (Hb' : blt k (RaftLogKey (rid ps) (sl_last s + 1))); [|apply bltb_spec in Hb'; by rewrite Hb' in Hb].
    eapply ble_blt_trans; [by eapply Hmin|]. apply RaftLogKey_blt; [done..|lia].
Qed.

Lemma clearMeta_spec ps s hs :
  represents ps s hs →
  ∃ raftWB, clearMeta ps empty_wb empty_wb =
      Ok (DeleteMeta (DeleteMeta empty_wb (RegionStateKey (rid ps))) (ApplyStateKey (rid ps)), raftWB) ∧
    deletes raftWB ∧ ∀ i, is_u64 i → db_get (WriteToDB raftWB (raft ps)) (RaftLogKey (rid ps) i) = None.
Proof.
  intros R. pose proof (represents_bounds _ _ _ R) as (H0 & H1 & Hu & _). unfold clearMeta, ClearMeta.
  rewrite (rp_state _ _ _ R). cbn [rl_LastIndex]. rewrite Hu. destruct (ClearMeta_first _ _ _ R) as (fi & -> & Hfi & Hall).
  cbn [mbind outcome_bind]. eexists. split; [done|].
  match goal with |- deletes ?wb ∧ _ => set (raftWB := wb) end.
  assert (Hd : deletes raftWB).
  { unfold deletes, raftWB. cbn [DeleteMeta wb_add wb_entries]. rewrite (foldl_DeleteMeta_entries (RaftLogKey (rid ps))).
    apply Forall_app. split; [|by repeat constructor]. cbn. by apply Forall_fmap, Forall_true. }
  split; [done|]. intros i Hi. rewrite WriteToDB_deletes //; [|apply (rp_raft _ _ _ R)]. case_decide as Hin; [done|].
  destruct (db_get (raft ps) _) as [v|] eqn:Hg; [|done]. destruct Hin. apply Hall in Hg; [|done].
  unfold raftWB. cbn [DeleteMeta wb_add wb_entries]. rewrite (foldl_DeleteMeta_entries (RaftLogKey (rid ps))). cbn [empty_wb wb_entries app].
  rewrite fmap_app elem_of_app -list_fmap_compose. left. apply list_elem_of_fmap. exists i. split; [done|].
  unfold index_range. apply elem_of_seqZ. lia.
Qed.
(** A snapshot that may be applied: of the peer's region, which has peers, and
    with a new hard state, as its commit index moves. *)
Record snap_ok (r : Z) (hs : HardState) (rd : Ready) (md : SnapshotMetadata) (rg : metapb.Region) : Prop := {
  so_meta : sp_Metadata (rd_Snapshot rd) = Some md;
  so_data : sd_Region <$> Unmarshal (A := RaftSnapshotData) (default [] (sp_Data (rd_Snapshot rd))) = Some (Some rg);
  so_id : metapb.Id rg = r;
  so_peers : metapb.Peers rg ≠ [];
  so_index : 0 < md_Index md ∧ idx_ok (md_Index md);
  so_term : is_u64 (md_Term md);
  so_hs : rd_HardState rd ≠ hs;
  so_hs_set : IsEmptyHardState (rd_HardState rd) = false
}.

Lemma snap_nonempty r hs rd md rg : snap_ok r hs rd md rg → IsEmptySnap (Some (rd_Snapshot rd)) = false.
Proof.
  intros S. unfold IsEmptySnap. rewrite (so_meta _ _ _ _ _ S). destruct (so_index _ _ _ _ _ S). case_bool_decide; [lia|done].
Qed.
Lemma sl_restore_snap s r hs rd md rg :
  snap_ok r hs rd md rg → sl_restore s (rd_Snapshot rd) = mkSlog (md_Index md) (md_Term md) (md_Index md) [].
Proof. intros S. unfold sl_restore. by rewrite (snap_nonempty _ _ _ _ _ S) (so_meta _ _ _ _ _ S). Qed.

Lemma restored_wf i t : idx_ok i → is_u64 t → slog_wf (mkSlog i t i []).
Proof.
  intros Hi Ht. unfold idx_ok in Hi. split; unfold sl_last; cbn; unfold idx_ok, zlen; cbn; try lia.
  - intros ?? H. by rewrite lookup_nil in H.
  - apply Forall_nil_2.
  - constructor; [constructor|apply Forall_nil_2].
  - by apply Forall_singleton.
Qed.

(** An engine from which a batch deletes the log holds a log without entries. *)
Lemma log_at_cleared r db wb i t s :
  db_ok db → deletes wb → log_at r db s → (∀ j, i < j → is_u64 j → db_get (WriteToDB wb db) (RaftLogKey r j) = None) →
  log_at r (WriteToDB wb db) (mkSlog i t i []).
Proof.
  intros Hok Hd Hlog Hno. split.
  - intros j e He. unfold sl_entry in He. cbn in He. by case_decide.
  - intros j Hj. unfold sl_last, zlen in Hj. cbn in Hj. apply Hno. lia.
  - intros k v. rewrite WriteToDB_deletes //. case_decide; [done|]. apply (la_keys _ _ _ Hlog).
Qed.

Lemma clearExtraData_keeps ps rg :
  region (clearExtraData ps rg) = region ps ∧ raftState (clearExtraData ps rg) = raftState ps ∧
  ps_Engines (clearExtraData ps rg) = ps_Engines ps.
Proof. unfold clearExtraData. by repeat case_match. Qed.

(** The batches of the cleared metadata, or none for a fresh peer. *)
Lemma cleared_batches ps s hs i :
  represents ps s hs → 0 < i →
  ∃ kvWB raftWB, (if isInitialized ps then clearMeta ps empty_wb empty_wb else Ok (empty_wb, empty_wb)) = Ok (kvWB, raftWB) ∧
    deletes raftWB ∧ ∀ j, i < j → is_u64 j → db_get (WriteToDB raftWB (raft ps)) (RaftLogKey (rid ps) j) = None.
Proof.
  intros R Hi. destruct (isInitialized ps) eqn:Ei.
  - destruct (clearMeta_spec _ _ _ R) as (raftWB & -> & Hd & Hno). eexists _, raftWB. eauto.
  - exists empty_wb, empty_wb. split_and!; [done|by constructor|]. intros j Hj Hu. unfold WriteToDB. cbn.
    apply (la_after _ _ _ (rp_log _ _ _ R)); [|done]. rewrite (rp_fresh _ _ _ R Ei). lia.
Qed.

Lemma ps_ApplySnapshot_spec ps s hs rd md rg :
  represents ps s hs → snap_ok (rid ps) hs rd md rg →
  ∃ ps' kvWB raftWB, ps_ApplySnapshot ps (rd_Snapshot rd) empty_wb empty_wb =
      Ok (ps', kvWB, raftWB, mkApplySnapResult (region ps) rg) ∧
    staged ps' kvWB raftWB (sl_restore s (rd_Snapshot rd)) hs ∧ region ps' = rg.
Proof.
  intros R S. destruct S as [Hmd Hdata Hid Hpeers [Hpos Hidx] Hterm Hne Hset] eqn:ES. clear ES.
  rewrite (sl_restore_snap _ _ _ _ _ _ S). unfold ps_ApplySnapshot.
  apply fmap_Some in Hdata as (sd & -> & Hsd). rewrite -Hsd. destruct (decide (metapb.Id rg ≠ rid ps)) as [|_]; [done|].
  destruct (cleared_batches _ _ _ (md_Index md) R Hpos) as (kvWB & raftWB & -> & Hd & Hno). cbn [mbind outcome_bind].
  unfold snap_meta. rewrite Hmd. cbn [mbind outcome_bind].
  set (ps1 := if isInitialized ps then clearExtraData ps rg else ps).
  assert (H1 : region ps1 = region ps ∧ raftState ps1 = raftState ps ∧ ps_Engines ps1 = ps_Engines ps).
  { unfold ps1. destruct (isInitialized ps); [apply clearExtraData_keeps|done]. }
  destruct H1 as (Hreg & Hst & Hen). clearbody ps1. eexists _, _, _. rewrite Hreg Hst. split; [done|]. split; [|done].
  pose proof (restored_wf _ _ Hidx Hterm) as Hw. destruct (apply_state_u64 _ Hw) as (Hu1 & Hu2 & Hu3).
  split; cbn [schedule set_snapState set_region set_raftState ps_Engines region raftState]; rewrite ?Hen.
  - done.
  - apply (rp_kv _ _ _ R).
  - apply (rp_raft _ _ _ R).
  - apply (rp_hs _ _ _ R).
  - done.
  - rewrite (rp_state _ _ _ R). unfold sl_last, sl_last_term. cbn. f_equal. unfold zlen. cbn. lia.
  - unfold WriteRegionState. rewrite SetMeta_get_ne; [|apply (rp_kv _ _ _ R)|apply ApplyStateKey_not_region]. rewrite SetMeta_get; [|apply (rp_kv _ _ _ R)|by apply apply_nonempty].
    by rewrite decide_True.
  - rewrite Hid. eapply log_at_cleared; [apply (rp_raft _ _ _ R)|done|apply (rp_log _ _ _ R)|done].
  - unfold isInitialized. cbn. intros Hi. apply bool_decide_eq_false in Hi. destruct (metapb.Peers rg); [done|]. unfold zlen in Hi. cbn in Hi. lia.
Qed.
(** ** Saving a [Ready] *)

Record ready_ok ps s hs (rd : Ready) : Prop := {
  ro_snap : IsEmptySnap (Some (rd_Snapshot rd)) = false → ∃ md rg, snap_ok (rid ps) hs rd md rg;
  ro_ents : ents_ok (sl_restore s (rd_Snapshot rd)) (rd_Entries rd);
  ro_hs : hs_u64 (rd_HardState rd);
  ro_fresh : isInitialized ps = false → IsEmptySnap (Some (rd_Snapshot rd)) = true → rd_Entries rd = []
}.

Lemma represents_staged ps s hs : represents ps s hs → staged ps empty_wb empty_wb s hs.
Proof. intros []. split; try done. by constructor. Qed.

Lemma SaveReadyState_spec ps s hs rd :
  represents ps s hs → ready_ok ps s hs rd →
  ∃ ps' r, SaveReadyState ps rd = Ok (ps', r) ∧ represents ps' (sl_save s rd) (hs_save s hs rd).
Proof.
  intros R [Hsnap Ho Hu Hf]. unfold SaveReadyState. destruct (IsEmptySnap (Some (rd_Snapshot rd))) eqn:Es; cbn [negb].
  - cbn [mbind outcome_bind]. eexists _, _. split; [done|].
    assert (Hr : sl_restore s (rd_Snapshot rd) = s) by (unfold sl_restore; by rewrite Es). rewrite Hr in Ho.
    eapply save_rest_spec; [by apply represents_staged|done..|auto|unfold sl_save; by rewrite Hr|done|].
    intros Hprev Hpos. apply (rp_disk _ _ _ R). rewrite (rp_state _ _ _ R) in Hprev. injection Hprev as _ -> _. done.
  - destruct (Hsnap eq_refl) as (md & rg & S).
    destruct (ps_ApplySnapshot_spec _ _ _ _ _ _ R S) as (ps1 & kvWB & raftWB & -> & G & Hreg). cbn [mbind outcome_bind].
    eexists _, _. split; [done|]. eapply save_rest_spec; [exact G|done..| |done|done|].
    + unfold isInitialized. rewrite Hreg. intros Hi%bool_decide_eq_false. pose proof (so_peers _ _ _ _ _ S).
      destruct (metapb.Peers rg); [done|]. unfold zlen in Hi. cbn in Hi. lia.
    + rewrite (rp_state _ _ _ R). intros [= Hhs _ _] Hpos. exfalso. apply (so_hs _ _ _ _ _ S). rewrite Hhs. unfold hs_save.
      by rewrite decide_True; [|split; [|apply (so_hs_set _ _ _ _ _ S)]].
Qed.

(** ** Starting again *)

Lemma NewPeerStorage_spec ps s hs pid :
  represents ps s hs → 0 < sl_last s →
  ∃ ps', NewPeerStorage (ps_Engines ps) (region ps) pid = Ok ps' ∧ represents ps' s hs.
Proof.
  intros R Hpos. pose proof (rp_wf _ _ _ R) as Hw. pose proof (sw_last _ Hw) as Hl. unfold NewPeerStorage, InitRaftLocalState, GetRaftLocalState.
  rewrite (GetMeta_Marshal _ _ _ (rp_disk _ _ _ R Hpos)).
  2:{ rewrite (rp_state _ _ _ R). unfold idx_ok in Hl. apply wire_local; [apply (rp_hs _ _ _ R)|unfold is_u64, two64; lia|by apply sl_last_term_u64]. }
  cbn [mbind outcome_bind]. unfold InitApplyState, GetApplyState.
  rewrite (GetMeta_Marshal _ _ _ (rp_apply _ _ _ R)); [|by apply apply_state_wire]. cbn [mbind outcome_bind].
  assert (Hli : rl_LastIndex (raftState ps) = sl_last s) by (by rewrite (rp_state _ _ _ R)). pose proof (sw_applied _ Hw).
  rewrite decide_False; [|rewrite Hli; cbn; lia]. eexists. split; [done|]. by destruct R; split.
Qed.

(** A peer on engines that hold nothing of its region starts with an empty log:
    at index 5 if the region has peers, at 0 if the peer waits for a snapshot. *)
Definition no_region (kdb rdb : D) (r : Z) : Prop :=
  db_get kdb (ApplyStateKey r) = None ∧ db_get rdb (RaftStateKey r) = None ∧
  ∀ k v, db_get rdb k = Some v → ble (RaftLogKey r 0) k → ¬ blt k (RaftStateKey r).

Lemma no_region_log kdb rdb r i t : no_region kdb rdb r → log_at r rdb (mkSlog i t i []).
Proof.
  intros (_ & _ & Hno). split.
  - intros j e He. unfold sl_entry in He. cbn in He. by case_decide.
  - intros j _ Hu. apply eq_None_not_Some. intros [v Hg]. eapply Hno; [exact Hg| |apply RaftLogKey_below].
    apply RaftLogKey_ble; unfold is_u64, two64 in *; lia.
  - intros k v Hg Hge Hlt. by destruct (Hno _ _ Hg Hge).
Qed.

Lemma NewPeerStorage_initial kdb rdb rg pid :
  db_ok kdb → db_ok rdb → no_region kdb rdb (metapb.Id rg) → metapb.Peers rg ≠ [] →
  ∃ ps, NewPeerStorage (mkEngines kdb rdb) rg pid = Ok ps ∧ region ps = rg ∧
    represents ps (mkSlog 5 5 5 []) (mkHardState 5 0 5).
Proof.
  intros Hk Hr Hno Hp. pose proof Hno as (Ha & Hs & _).
  unfold NewPeerStorage, InitRaftLocalState, InitApplyState, GetRaftLocalState, GetApplyState, GetMeta. cbn [RaftDB Kv]. rewrite Ha Hs.
  assert (Hpos : 0 < zlen (metapb.Peers rg)) by (destruct (metapb.Peers rg); [done|unfold zlen; cbn; lia]).
  rewrite !decide_True //. eexists. split; [done|]. split; [done|].
  split; cbn [region ps_Engines Kv RaftDB raftState]; unfold PutMeta; auto.
  - apply restored_wf; by unfold idx_ok, is_u64, two64.
  - by unfold hs_u64, is_u64, two64.
  - intros _. by rewrite db_get_set // decide_True.
  - by rewrite db_get_set // decide_True.
  - eapply log_at_ext; [|by eapply no_region_log]. intros k Hne. by rewrite db_get_set // decide_False.
  - unfold isInitialized. cbn. intros Hf%bool_decide_eq_false. done.
Qed.

Lemma NewPeerStorage_uninitialized kdb rdb rg pid :
  db_ok kdb → db_ok rdb → no_region kdb rdb (metapb.Id rg) → metapb.Peers rg = [] →
  ∃ ps, NewPeerStorage (mkEngines kdb rdb) rg pid = Ok ps ∧ region ps = rg ∧ represents ps (mkSlog 0 0 0 []) empty_hs.
Proof.
  intros Hk Hr Hno Hp. pose proof Hno as (Ha & Hs & _).
  unfold NewPeerStorage, InitRaftLocalState, InitApplyState, GetRaftLocalState, GetApplyState, GetMeta. cbn [RaftDB Kv]. rewrite Ha Hs. rewrite Hp.
  destruct (decide (0 < zlen (@nil metapb.Peer))) as [|_]; [done|]. eexists. split; [done|]. split; [done|].
  split; cbn [region ps_Engines Kv RaftDB raftState]; unfold PutMeta; auto.
  - apply restored_wf; by unfold idx_ok, is_u64, two64.
  - by unfold hs_u64, is_u64, two64.
  - done.
  - by rewrite db_get_set // decide_True.
  - by eapply no_region_log.
Qed.
(** ** The refinement *)

Lemma InitialState_spec ps s hs :
  represents ps s hs → IsEmptyHardState hs = false → ps_InitialState ps = Ok (hs, ConfStateFromRegion (region ps)).
Proof. intros R He. unfold ps_InitialState. by rewrite (rp_state _ _ _ R) /= He. Qed.

(** What a storage answers that holds the log [s]. *)
Definition out_of_log s (i : Z) : raft_error :=
  if decide (i ≤ sl_index s) then ErrCompacted else ErrOther "entries' high is out of bound".
Record answers ps s (hs : HardState) : Prop := {
  an_first : ps_FirstIndex ps = Ok (sl_index s + 1);
  an_last : ps_LastIndex ps = Ok (sl_last s);
  an_term i : 0 ≤ i < max64 → ps_Term ps i = match sl_term_at s i with Some t => Ok t | None => Err (out_of_log s i) end;
  an_entries lo hi : lo ≤ hi →
    ps_Entries ps lo hi =
      if decide (sl_index s < lo ∧ hi ≤ sl_last s + 1) then Ok (sl_range s lo hi) else Err (out_of_log s lo);
  an_initial : IsEmptyHardState hs = false → ps_InitialState ps = Ok (hs, ConfStateFromRegion (region ps))
}.

Lemma represents_answers ps s hs : represents ps s hs → answers ps s hs.
Proof.
  intros R. split.
  - by eapply FirstIndex_spec.
  - by eapply LastIndex_spec.
  - intros i Hi. rewrite (Term_spec _ _ _ _ R); [|unfold is_u64, max64 in *; lia..]. unfold out_of_log.
    destruct (sl_term_at s i) eqn:Ht; [done|]. unfold sl_term_at in Ht. case_decide; [done|]. repeat case_decide; done || lia.
  - intros lo hi Hle. case_decide; [apply (Entries_spec _ _ _ _ _ R); lia|]. apply (Entries_errors _ _ _ _ _ R); [done|lia].
  - by eapply InitialState_spec.
Qed.

(** C22: [PeerStorage] implements a stored log.  Where its engines hold a log,
    [FirstIndex], [LastIndex], [Term], [Entries] and [InitialState] answer what
    the log says, with the errors for what it does not hold.  [SaveReadyState]
    succeeds on every proper [Ready] and leaves engines that hold the log with
    the entries spliced in, or the snapshot in its place, and the new hard
    state.  A peer that starts again on the same engines finds the same log. *)
Theorem peer_storage_refines ps s hs :
  represents ps s hs →
  answers ps s hs ∧
  (∀ rd, ready_ok ps s hs rd →
    ∃ ps' r, SaveReadyState ps rd = Ok (ps', r) ∧ represents ps' (sl_save s rd) (hs_save s hs rd)) ∧
  (∀ pid, 0 < sl_last s → ∃ ps', NewPeerStorage (ps_Engines ps) (region ps) pid = Ok ps' ∧ represents ps' s hs).
Proof.
  intros R. split; [by apply represents_answers|]. split.
  - intros rd. by apply SaveReadyState_spec.
  - intros pid. by apply NewPeerStorage_spec.
Qed.
End Spec.
