(* ===== verification/RaftCmd.v ===== *)
(** Raft commands: the messages of tinykv/proto/proto/raft_cmdpb.proto, the
    errors of the raft store (kv/raftstore/util/error.go), the checks a command
    goes through (kv/raftstore/util/util.go) and the responses
    (kv/raftstore/cmd_resp.go). *)

From S2P Require Import Prelude Pb RaftPb RaftMeta Engine PeerStorage.

(** ** raft_cmdpb *)

Module raft_cmdpb.
Inductive CmdType := CmdType_Invalid | CmdType_Get | CmdType_Put | CmdType_Delete | CmdType_Snap.
Inductive AdminCmdType :=
| AdminCmdType_InvalidAdmin | AdminCmdType_ChangePeer | AdminCmdType_CompactLog | AdminCmdType_TransferLeader | AdminCmdType_Split.
#[export] Instance CmdType_eq_dec : EqDecision CmdType.
Proof. solve_decision. Defined.
#[export] Instance AdminCmdType_eq_dec : EqDecision AdminCmdType.
Proof. solve_decision. Defined.

Record GetRequest := mkGetRequest { get_Cf : string; get_Key : bytes }.
Record PutRequest := mkPutRequest { put_Cf : string; put_Key : bytes; put_Value : bytes }.
Record DeleteRequest := mkDeleteRequest { delete_Cf : string; delete_Key : bytes }.
(** [Snap] is a message without fields. *)
Record Request := mkRequest {
  rq_CmdType : CmdType;
  rq_Get : option GetRequest;
  rq_Put : option PutRequest;
  rq_Delete : option DeleteRequest;
  rq_Snap : option unit
}.
Record GetResponse := mkGetResponse { get_Value : option bytes }.
Record SnapResponse := mkSnapResponse { snap_Region : option metapb.Region }.
Record Response := mkResponse {
  rs_CmdType : CmdType;
  rs_Get : option GetResponse;
  rs_Put : option unit;
  rs_Delete : option unit;
  rs_Snap : option SnapResponse
}.

Record ChangePeerRequest := mkChangePeerRequest { cp_ChangeType : ConfChangeType; cp_Peer : option metapb.Peer }.
Record ChangePeerResponse := mkChangePeerResponse { cp_Region : option metapb.Region }.
Record SplitRequest := mkSplitRequest { SplitKey : bytes; NewRegionId : Z; NewPeerIds : list Z }.
Record SplitResponse := mkSplitResponse { Regions : list metapb.Region }.
Record CompactLogRequest := mkCompactLogRequest { CompactIndex : Z; CompactTerm : Z }.
Record TransferLeaderRequest := mkTransferLeaderRequest { tl_Peer : option metapb.Peer }.
Record AdminRequest := mkAdminRequest {
  ar_CmdType : AdminCmdType;
  ar_ChangePeer : option ChangePeerRequest;
  ar_CompactLog : option CompactLogRequest;
  ar_TransferLeader : option TransferLeaderRequest;
  ar_Split : option SplitRequest
}.
Record AdminResponse := mkAdminResponse {
  as_CmdType : AdminCmdType;
  as_ChangePeer : option ChangePeerResponse;
  as_CompactLog : option unit;
  as_TransferLeader : option unit;
  as_Split : option SplitResponse
}.
Definition empty_AdminResponse : AdminResponse := mkAdminResponse AdminCmdType_InvalidAdmin None None None None.

Record RaftRequestHeader := mkRaftRequestHeader {
  rh_RegionId : Z; rh_Peer : option metapb.Peer; rh_RegionEpoch : option metapb.RegionEpoch; rh_Term : Z }.
Record RaftResponseHeader := mkRaftResponseHeader { h_Error : option errorpb.Error; h_Uuid : bytes; CurrentTerm : Z }.
Definition empty_header : RaftResponseHeader := mkRaftResponseHeader None [] 0.

Record RaftCmdRequest := mkRaftCmdRequest {
  rc_Header : option RaftRequestHeader; rc_Requests : list Request; rc_AdminRequest : option AdminRequest }.
(** A response of a command may be nil. *)
Record RaftCmdResponse := mkRaftCmdResponse {
  rr_Header : option RaftResponseHeader; rr_Responses : list (option Response); rr_AdminResponse : option AdminResponse }.
End raft_cmdpb.
Export raft_cmdpb.

(** ** util/error.go *)

(** [ErrMsg] is an error of package errors or fmt. *)
Inductive cmd_error :=
| ErrNotLeader (RegionId : Z) (Leader : option metapb.Peer)
| ErrRegionNotFound (RegionId : Z)
| ErrKeyNotInRegion (Key : bytes) (Region : metapb.Region)
| ErrEpochNotMatch (Message : text) (Regions : list metapb.Region)
| ErrStaleCommand
| ErrStoreNotMatch (RequestStoreId ActualStoreId : Z)
| ErrMsg (msg : text).

Definition RaftstoreErrToPbError (e : cmd_error) : errorpb.Error :=
  match e with
  | ErrNotLeader id l => errorpb.mkError no_text (Some (errorpb.mkNotLeader id l)) None None None false None
  | ErrRegionNotFound id => errorpb.mkError no_text None (Some id) None None false None
  | ErrKeyNotInRegion k r =>
    errorpb.mkError no_text None None
      (Some (errorpb.mkKeyNotInRegion k (metapb.Id r) (metapb.StartKey r) (metapb.EndKey r))) None false None
  | ErrEpochNotMatch _ rs => errorpb.mkError no_text None None None (Some rs) false None
  | ErrStaleCommand => errorpb.mkError no_text None None None None true None
  | ErrStoreNotMatch q a => errorpb.mkError no_text None None None None false (Some (errorpb.mkStoreNotMatch q a))
  | ErrMsg m => errorpb.mkError m None None None None false None
  end.

(** ** util/util.go *)

Definition RaftInvalidIndex : Z := 0.

Definition IsInitialMsg (msg : Message) : bool :=
  bool_decide (MsgType msg = MsgRequestVote ∨ (MsgType msg = MsgHeartbeat ∧ m_Commit msg = RaftInvalidIndex)).

Definition CheckKeyInRegion (key : bytes) (region : metapb.Region) : option cmd_error :=
  if bleb (metapb.StartKey region) key && (bool_decide (metapb.EndKey region = []) || bltb key (metapb.EndKey region))
  then None else Some (ErrKeyNotInRegion key region).
Definition CheckKeyInRegionExclusive (key : bytes) (region : metapb.Region) : option cmd_error :=
  if bltb (metapb.StartKey region) key && (bool_decide (metapb.EndKey region = []) || bltb key (metapb.EndKey region))
  then None else Some (ErrKeyNotInRegion key region).
Definition CheckKeyInRegionInclusive (key : bytes) (region : metapb.Region) : option cmd_error :=
  if bleb (metapb.StartKey region) key && (bool_decide (metapb.EndKey region = []) || bleb key (metapb.EndKey region))
  then None else Some (ErrKeyNotInRegion key region).

Definition IsEpochStale (epoch checkEpoch : metapb.RegionEpoch) : bool :=
  bool_decide (metapb.Version epoch < metapb.Version checkEpoch ∨ metapb.ConfVer epoch < metapb.ConfVer checkEpoch).

Definition IsVoteMessage (msg : Message) : bool := bool_decide (MsgType msg = MsgRequestVote).
Definition IsFirstVoteMessage (msg : Message) : bool := IsVoteMessage msg && bool_decide (m_Term msg = RaftInitLogTerm + 1).

(** Which parts of the epoch a command must match: the version, the conf
    version. *)
Definition epoch_checks (req : RaftCmdRequest) : bool * bool :=
  match rc_AdminRequest req with
  | None => (true, false)
  | Some a =>
    match ar_CmdType a with
    | AdminCmdType_CompactLog | AdminCmdType_InvalidAdmin => (false, false)
    | AdminCmdType_ChangePeer => (false, true)
    | AdminCmdType_Split | AdminCmdType_TransferLeader => (true, true)
    end
  end.

Definition CheckRegionEpoch (req : RaftCmdRequest) (region : metapb.Region) (includeRegion : bool) : option cmd_error :=
  let '(checkVer, checkConfVer) := epoch_checks req in
  if negb checkVer && negb checkConfVer then None
  else
    match rc_Header req with
    | None => Some (ErrMsg (Sprintf "missing header!" []))
    | Some h =>
      match rh_RegionEpoch h with
      | None => Some (ErrMsg (Sprintf "missing epoch!" []))
      | Some fromEpoch =>
        let currentEpoch := metapb.Epoch region in
        if (checkConfVer && negb (bool_decide (metapb.ConfVer fromEpoch = metapb.ConfVer currentEpoch))) ||
           (checkVer && negb (bool_decide (metapb.Version fromEpoch = metapb.Version currentEpoch)))
        then Some (ErrEpochNotMatch
          (Sprintf "current epoch of region %v is %v, but you sent %v" [FZ (metapb.Id region); FEpoch currentEpoch; FEpoch fromEpoch])
          (if includeRegion then [region] else []))
        else None
      end
    end.

Definition FindPeer (region : metapb.Region) (storeID : Z) : option metapb.Peer :=
  head (filter (λ p, metapb.StoreId p = storeID) (metapb.Peers region)).

(** The loop of [RemovePeer]: the first peer on the store, and the others. *)
Fixpoint remove_peer (peers : list metapb.Peer) (storeID : Z) : list metapb.Peer * option metapb.Peer :=
  match peers with
  | [] => ([], None)
  | p :: ps =>
    if decide (metapb.StoreId p = storeID) then (ps, Some p)
    else let '(ps, o) := remove_peer ps storeID in (p :: ps, o)
  end.
Definition set_Peers (ps : list metapb.Peer) (r : metapb.Region) : metapb.Region :=
  metapb.mkRegion (metapb.Id r) (metapb.StartKey r) (metapb.EndKey r) (metapb.Epoch r) ps.
Definition RemovePeer (region : metapb.Region) (storeID : Z) : metapb.Region * option metapb.Peer :=
  let '(ps, o) := remove_peer (metapb.Peers region) storeID in (set_Peers ps region, o).

(** A nil peer of the header is dereferenced. *)
Definition header_peer {E} (req : RaftCmdRequest) : outcome E metapb.Peer :=
  match rc_Header req with
  | None => Panic "nil pointer dereference"
  | Some h => match rh_Peer h with None => Panic "nil pointer dereference" | Some p => Ok p end
  end.

Definition CheckStoreID (req : RaftCmdRequest) (storeID : Z) : outcome cmd_error unit :=
  peer ← header_peer req;
  if decide (metapb.StoreId peer = storeID) then Ok tt
  else Err (ErrMsg (Sprintf "store not match %d %d" [FZ (metapb.StoreId peer); FZ storeID])).
Definition CheckTerm (req : RaftCmdRequest) (term : Z) : outcome cmd_error unit :=
  match rc_Header req with
  | None => Panic "nil pointer dereference"
  | Some h => if decide (rh_Term h = 0 ∨ term ≤ u64 (rh_Term h + 1)) then Ok tt else Err ErrStaleCommand
  end.
Definition CheckPeerID (req : RaftCmdRequest) (peerID : Z) : outcome cmd_error unit :=
  peer ← header_peer req;
  if decide (metapb.Peer_Id peer = peerID) then Ok tt
  else Err (ErrMsg (Sprintf "mismatch peer id %d != %d" [FZ (metapb.Peer_Id peer); FZ peerID])).

(** [CloneMsg]: through the wire format and back. *)
Definition CloneMsg {A} `{!Proto A} (origin : A) : option A := Unmarshal (Marshal origin).

Definition PeerEqual (l r : metapb.Peer) : bool :=
  bool_decide (metapb.Peer_Id l = metapb.Peer_Id r ∧ metapb.StoreId l = metapb.StoreId r).
Definition RegionEqual (l r : option metapb.Region) : bool :=
  match l, r with
  | Some l, Some r =>
    bool_decide (metapb.Id l = metapb.Id r ∧ metapb.Version (metapb.Epoch l) = metapb.Version (metapb.Epoch r) ∧
      metapb.ConfVer (metapb.Epoch l) = metapb.ConfVer (metapb.Epoch r))
  | _, _ => false
  end.

(** [GetChangePeerCmd] (peer.go) *)
Definition GetChangePeerCmd (msg : RaftCmdRequest) : option ChangePeerRequest := rc_AdminRequest msg ≫= ar_ChangePeer.

(** ** cmd_resp.go *)

Definition ensureRespHeader (resp : RaftCmdResponse) : RaftResponseHeader := default empty_header (rr_Header resp).
Definition set_header (h : RaftResponseHeader) (resp : RaftCmdResponse) : RaftCmdResponse :=
  mkRaftCmdResponse (Some h) (rr_Responses resp) (rr_AdminResponse resp).
Definition BindRespTerm (resp : RaftCmdResponse) (term : Z) : RaftCmdResponse :=
  if decide (term = 0) then resp
  else let h := ensureRespHeader resp in set_header (mkRaftResponseHeader (h_Error h) (h_Uuid h) term) resp.
Definition BindRespError (resp : RaftCmdResponse) (err : cmd_error) : RaftCmdResponse :=
  let h := ensureRespHeader resp in
  set_header (mkRaftResponseHeader (Some (RaftstoreErrToPbError err)) (h_Uuid h) (CurrentTerm h)) resp.
Definition newCmdResp : RaftCmdResponse := mkRaftCmdResponse (Some empty_header) [] None.
Definition ErrResp (err : cmd_error) : RaftCmdResponse := BindRespError newCmdResp err.
Definition ErrRespWithTerm (err : cmd_error) (term : Z) : RaftCmdResponse := BindRespTerm (ErrResp err) term.
Definition ErrRespStaleCommand (term : Z) : RaftCmdResponse := ErrRespWithTerm ErrStaleCommand term.
Definition ErrRespRegionNotFound (regionID : Z) : RaftCmdResponse :=
  mkRaftCmdResponse (Some (mkRaftResponseHeader
    (Some (errorpb.mkError (Sprintf "region is not found" []) None (Some regionID) None None false None)) [] 0)) [] None.

(** ** Regions *)

(** The key range of a region: from its start key on, below its end key unless
    that is empty. *)
Definition in_region (r : metapb.Region) (key : bytes) : Prop :=
  ble (metapb.StartKey r) key ∧ (metapb.EndKey r = [] ∨ blt key (metapb.EndKey r)).
#[export] Instance in_region_dec r key : Decision (in_region r key).
Proof. unfold in_region. apply _. Defined.

Lemma CheckKeyInRegion_spec key r :
  CheckKeyInRegion key r = if decide (in_region r key) then None else Some (ErrKeyNotInRegion key r).
Proof.
  unfold CheckKeyInRegion, in_region. destruct (decide _) as [[H1 H2]|H].
  - apply bleb_spec in H1 as ->. destruct H2 as [->|H2]; [done|]. apply bltb_spec in H2 as ->. by rewrite orb_true_r.
  - destruct (_ && _) eqn:E; [|done]. apply andb_true_iff in E as [H1%bleb_spec [H2%bool_decide_eq_true|H2%bltb_spec]%orb_true_iff]; tauto.
Qed.

Lemma FindPeer_None r s : FindPeer r s = None ↔ ∀ p, p ∈ metapb.Peers r → metapb.StoreId p ≠ s.
Proof.
  unfold FindPeer. destruct (filter _ _) as [|p ps] eqn:E; cbn.
  - split; [|done]. intros _ p Hp Hs. apply (not_elem_of_nil p). rewrite -E. by apply list_elem_of_filter.
  - split; [done|]. intros H. assert (p ∈ filter (λ p, metapb.StoreId p = s) (metapb.Peers r)) as [Hs Hp]%list_elem_of_filter.
    { rewrite E. by left. }
    by apply H in Hp.
Qed.

(** [RemovePeer] removes the first peer on the store. *)
Lemma remove_peer_spec ps s :
  match remove_peer ps s with
  | (ps', Some p) => metapb.StoreId p = s ∧ ∃ a b, ps = a ++ p :: b ∧ ps' = a ++ b ∧ Forall (λ q, metapb.StoreId q ≠ s) a
  | (ps', None) => ps' = ps ∧ Forall (λ q, metapb.StoreId q ≠ s) ps
  end.
Proof.
  induction ps as [|p ps IH]; cbn; [done|]. destruct (decide _) as [E|E]; [split; [done|]; by exists [], ps|].
  destruct (remove_peer ps s) as [ps' [q|]].
  - destruct IH as (Hq & a & b & -> & -> & Ha). split; [done|]. exists (p :: a), b. split_and!; [done..|by constructor].
  - destruct IH as [-> Ha]. split; [done|by constructor].
Qed.
