(* ===== verification/EngineStorage.v ===== *)
(** Storages on badger: StandAloneStorage and its reader
    (kv/storage/standalone_storage), and the reader of a region
    (kv/storage/raft_storage/region_reader.go).

    StandAloneStorage is proved to be a storage the transactions can run on, as
    long as no value is empty; the reader of a region is one whose keys are those
    of the region. *)

From S2P Require Import Prelude Pb Storage Engine EngineCF RaftCmd.

(** What an iterator of badger returns for an item: [ValueCopy] of an empty value
    may be nil or empty. *)
Class ItemValues := {
  value_copy : bytes → option bytes;
  value_copy_some v : v ≠ [] → value_copy v = Some v
}.

Section Badger.
Context {D : Type} `{!Badger D} `{!ItemValues}.
Import engine_util.

(** ** standalone_storage.go *)

(** A badger database, which keeps its keys in order. *)
Record StandAloneStorage := mkStandAloneStorage { sa_db : D; sa_ok : db_ok sa_db }.
Record BadgerReader := mkBadgerReader { br_txn : D; br_ok : db_ok br_txn }.

Definition sa_Reader (s : StandAloneStorage) (ctx : kvrpcpb.Context) : outcome go_error BadgerReader :=
  Ok (mkBadgerReader (sa_db s) (sa_ok s)).

(** The turn of the loop of [Write] for one modification. *)
Definition sa_write1 (db : D) (m : Modify) : D :=
  match m with
  | Put k v cf => PutCF db cf k (default [] v)
  | Delete k cf => DeleteCF db cf k
  end.
Lemma sa_write_ok db batch : db_ok db → db_ok (foldl sa_write1 db batch).
Proof. revert db. induction batch as [|[] batch IH]; intros db Hdb; cbn; [done|apply IH; by apply db_set_ok|apply IH; by apply db_delete_ok]. Qed.
Definition sa_Write (s : StandAloneStorage) (ctx : kvrpcpb.Context) (batch : list Modify) : StandAloneStorage * option go_error :=
  (mkStandAloneStorage (foldl sa_write1 (sa_db s) batch) (sa_write_ok _ _ (sa_ok s)), None).

Definition br_GetCF (b : BadgerReader) (cf : string) (key : bytes) : outcome go_error (option bytes) :=
  match GetCFFromTxn (br_txn b) cf key with
  | Ok val => Ok (value_copy val)
  | Err ErrKeyNotFound => Ok None
  | Err _ => Err (Errorf "badger error" [])
  | Panic w => Panic w
  | OutOfFuel => OutOfFuel
  end.
Definition br_IterCF (b : BadgerReader) (cf : string) : option (BadgerIterator D) := Some (NewCFIterator cf (br_txn b)).

Definition bi_key (it : BadgerIterator D) : bytes := match bi_ItemKey (E := Empty_set) it with Ok k => k | _ => [] end.
Definition bi_value (it : BadgerIterator D) : outcome go_error (option bytes) := v ← bi_ItemValue it; Ok (value_copy v).

#[export] Instance badger_reader : StorageReader BadgerReader (BadgerIterator D) := {|
  Storage.GetCF := br_GetCF;
  IterCF := br_IterCF;
  Seek it k := Ok (bi_Seek it k);
  Valid := bi_Valid;
  ItemKey := bi_key;
  ItemValue := bi_value;
  Next := bi_Next
|}.
#[export] Instance standalone_storage : Storage StandAloneStorage BadgerReader := {| Reader := sa_Reader; Write := sa_Write |}.

(** ** What the database holds under a prefix *)

Definition item_of (p : bytes) (e : bytes * bytes) : option (bytes * option bytes) :=
  if decide (p `prefix_of` e.1) then Some (drop (length p) e.1, value_copy e.2) else None.
Definition view_of (d : D) (p : bytes) : cfmap := list_to_map (omap (item_of p) (db_from d p)).

Lemma item_of_Some p k v x : item_of p (k, v) = Some x ↔ ∃ key, k = p ++ key ∧ x = (key, value_copy v).
Proof.
  unfold item_of. cbn. destruct (decide _) as [Hp|Hp].
  - apply prefix_drop in Hp. split; [intros [= <-]; by eexists|]. intros (key & -> & ->). by rewrite drop_app_length.
  - split; [done|]. intros (key & -> & _). destruct Hp. by apply prefix_app_r.
Qed.

Lemma view_of_elem d p key v' :
  db_ok d → (key, v') ∈ omap (item_of p) (db_from d p) ↔ ∃ v, db_get d (p ++ key) = Some v ∧ v' = value_copy v.
Proof.
  intros Hok. rewrite list_elem_of_omap. split.
  - intros ([k v] & Hin & (key' & -> & [= <- ->])%item_of_Some). apply db_from_elem in Hin as [Hg _]; [|done]. by exists v.
  - intros (v & Hg & ->). exists (p ++ key, v). split; [|apply item_of_Some; by exists key]. apply db_from_elem; [done|]. split; [done|].
    rewrite -{1}(app_nil_r p). unfold ble. rewrite Compare_app_same. apply Compare_nil_l.
Qed.

Lemma view_of_NoDup d p : db_ok d → NoDup (omap (item_of p) (db_from d p)).*1.
Proof.
  intros Hok. pose proof (db_from_sorted d p Hok) as Hs. induction Hs as [|[k v] l Hs IH Hk]; [constructor|]. cbn.
  destruct (item_of p (k, v)) as [[key v']|] eqn:E; [|done]. apply item_of_Some in E as (key0 & -> & [= -> ->]). cbn. constructor; [|done].
  intros ([key1 v1] & -> & ([k2 v2] & Hin & (key2 & -> & [= -> ->])%item_of_Some)%list_elem_of_omap)%list_elem_of_fmap.
  rewrite Forall_forall in Hk. apply Hk in Hin. by apply blt_irrefl in Hin.
Qed.

Lemma view_of_lookup d p key : db_ok d → view_of d p !! key = value_copy <$> db_get d (p ++ key).
Proof.
  intros Hok. apply option_eq. intros v'. unfold view_of. rewrite -elem_of_list_to_map; [|by apply view_of_NoDup].
  rewrite view_of_elem // fmap_Some. done.
Qed.

(** ** Iterators *)

Definition pos_of (p : bytes) (items : list (bytes * bytes)) : option (bytes * option bytes) := head items ≫= item_of p.

(** The first item with the prefix is the least one. *)
Lemma head_least d p items (P : bytes → Prop) :
  db_ok d → StronglySorted (λ a b : bytes * bytes, blt a.1 b.1) items → (∀ k v, (k, v) ∈ items → db_get d k = Some v ∧ ble p k) →
  (∀ key v, (p ++ key, v) ∈ items → P key) → (∀ key v, db_get d (p ++ key) = Some v → P key → (p ++ key, v) ∈ items) →
  least (view_of d p) P (pos_of p items).
Proof.
  intros Hok Hs Hin HP Hall. unfold pos_of. destruct items as [|[k0 v0] items]; cbn [head mbind option_bind].
  { intros key v'. rewrite view_of_lookup // fmap_Some. intros (v & Hg & _) Hk. by apply (not_elem_of_nil (p ++ key, v)), Hall. }
  apply StronglySorted_inv in Hs as [Hs Hk0]. rewrite Forall_forall in Hk0. destruct (Hin k0 v0) as [Hg0 Hp0]; [by left|].
  destruct (item_of p (k0, v0)) as [[key0 v']|] eqn:E.
  - apply item_of_Some in E as (key & -> & [= -> ->]). split; [by rewrite view_of_lookup // Hg0|]. split; [apply (HP key v0); by left|].
    intros key' v''. rewrite view_of_lookup // fmap_Some. intros (v & Hg & _) Hk. apply Hall in Hg; [|done].
    apply elem_of_cons in Hg as [[= E _]|Hg]; [apply app_inv_head in E as ->; apply ble_refl|]. apply Hk0 in Hg. cbn in Hg. unfold blt in Hg.
    rewrite Compare_app_same in Hg. by apply blt_ble.
  - intros key v''. rewrite view_of_lookup // fmap_Some. intros (v & Hg & _) Hk. apply Hall in Hg; [|done].
    assert (Hn : ¬ p `prefix_of` k0) by (intros Hp; unfold item_of in E; cbn in E; by rewrite decide_True in E).
    apply elem_of_cons in Hg as [[= <- _]|Hg]; [by destruct Hn; apply prefix_app_r|]. apply Hk0 in Hg. cbn in Hg.
    eapply (prefix_before p [] k0 _ ltac:(by rewrite app_nil_r) Hn Hg). by apply prefix_app_r.
Qed.

(** The items are those of the database from the first one on. *)
Record iter_good (it : BadgerIterator D) : Prop := {
  ig_ok : db_ok (bi_txn it);
  ig_sorted : StronglySorted (λ a b, blt a.1 b.1) (bi_items it);
  ig_elem k v : (k, v) ∈ bi_items it → db_get (bi_txn it) k = Some v ∧ ble (prefix it) k;
  ig_rest x rest k v : bi_items it = x :: rest → db_get (bi_txn it) k = Some v → blt x.1 k → (k, v) ∈ rest
}.

Lemma NewCFIterator_good cf d : db_ok d → iter_good (NewCFIterator cf d).
Proof. intros Hok. split; cbn; [done|apply SSorted_nil|by intros k v Hin%not_elem_of_nil|done]. Qed.

Lemma bi_Seek_good it k : db_ok (bi_txn it) → iter_good (bi_Seek it k) ∧ least (view_of (bi_txn it) (prefix it)) (ble k) (pos_of (prefix it) (bi_items (bi_Seek it k))).
Proof.
  intros Hok. pose proof (db_from_sorted _ (prefix it ++ k) Hok) as Hs.
  assert (Hin : ∀ k' v, (k', v) ∈ db_from (bi_txn it) (prefix it ++ k) → db_get (bi_txn it) k' = Some v ∧ ble (prefix it) k').
  { intros k' v [Hg Hle]%db_from_elem; [|done]. split; [done|]. eapply ble_trans; [|exact Hle]. rewrite -{1}(app_nil_r (prefix it)).
    unfold ble. rewrite Compare_app_same. apply Compare_nil_l. }
  split.
  - split; cbn; [done|done|done|]. intros x rest k' v E Hg Hlt. assert ((k', v) ∈ x :: rest) as [<-|]%elem_of_cons; [|by apply blt_irrefl in Hlt|done].
    rewrite -E. apply db_from_elem; [done|]. split; [done|]. assert (x ∈ x :: rest) as Hx by (by left). rewrite -E in Hx. destruct x as [kx vx].
    apply db_from_elem in Hx as [_ Hx]; [|done]. eapply ble_trans; [exact Hx|by apply blt_ble].
  - apply head_least; [done|done|done| |]; cbn.
    + intros key v [_ Hle]%db_from_elem; [|done]. unfold ble in *. by rewrite Compare_app_same in Hle.
    + intros key v Hg Hle. apply db_from_elem; [done|]. split; [done|]. unfold ble in *. by rewrite Compare_app_same.
Qed.

Lemma bi_Next_good it key v :
  iter_good it → pos_of (prefix it) (bi_items it) = Some (key, v) →
  iter_good (bi_Next it) ∧ least (view_of (bi_txn it) (prefix it)) (blt key) (pos_of (prefix it) (bi_items (bi_Next it))).
Proof.
  intros [Hok Hs Hin Hrest]. unfold pos_of at 1. destruct (bi_items it) as [|[k0 v0] items] eqn:Ei; [done|]. cbn [head mbind option_bind].
  intros (key' & -> & [= <- ->])%item_of_Some. apply StronglySorted_inv in Hs as [Hs Hk0]. rewrite Forall_forall in Hk0.
  assert (Hin' : ∀ k v, (k, v) ∈ items → db_get (bi_txn it) k = Some v ∧ ble (prefix it) k) by (intros k' v' Hx; apply Hin; by right).
  unfold bi_Next. rewrite Ei. cbn [tail]. split.
  - split; cbn; [done|done|done|]. intros x rest k v -> Hg Hlt. assert (Hx : blt (prefix it ++ key) x.1) by (apply Hk0; by left).
    assert ((k, v) ∈ x :: rest) as [<-|]%elem_of_cons; [|by apply blt_irrefl in Hlt|done]. eapply Hrest; [done|done|]. by eapply blt_trans.
  - cbn. apply head_least; [done|done|done| |].
    + intros key2 v2 Hlt%Hk0. cbn in Hlt. unfold blt in *. by rewrite Compare_app_same in Hlt.
    + intros key2 v2 Hg Hlt. eapply Hrest; [done|done|]. cbn. unfold blt in *. by rewrite Compare_app_same.
Qed.

#[export] Program Instance badger_reader_laws : ReaderLaws BadgerReader (BadgerIterator D) := {|
  view r cf := view_of (br_txn r) (cf_prefix cf);
  src it := view_of (bi_txn it) (prefix it);
  pos it := pos_of (prefix it) (bi_items it);
  iter_ok := iter_good
|}.
Next Obligation.
  intros [d Hok] cf k _. cbn. unfold br_GetCF, GetCFFromTxn, KeyWithCF. cbn. rewrite view_of_lookup //. by destruct (db_get d _).
Qed.
Next Obligation. intros [d Hok] cf _. cbn. eexists. split; [done|]. split; [by apply NewCFIterator_good|done]. Qed.
Next Obligation. intros it k [Hok _ _ _]. cbn. eexists. split; [done|]. by destruct (bi_Seek_good it k Hok). Qed.
Next Obligation.
  intros it _. cbn. unfold bi_Valid, bi_ValidForPrefix, pos_of. destruct (bi_items it) as [|[k v] l]; [done|]. cbn. unfold item_of. cbn.
  destruct (decide _) as [Hp|Hp]; [by rewrite !bool_decide_eq_true_2|]. by rewrite !bool_decide_eq_false_2.
Qed.
Next Obligation.
  intros it k v _. cbn. unfold pos_of, bi_key, bi_ItemKey. destruct (bi_items it) as [|[k0 v0] l]; [done|]. cbn [head mbind option_bind].
  intros (key & -> & [= -> _])%item_of_Some. by rewrite go_slice_rest.
Qed.
Next Obligation.
  intros it k v _. cbn. unfold pos_of, bi_value, bi_ItemValue. destruct (bi_items it) as [|[k0 v0] l]; [done|]. cbn [head mbind option_bind].
  by intros (key & -> & [= _ ->])%item_of_Some.
Qed.
Next Obligation. intros it k v Hg Hp. cbn in *. by destruct (bi_Next_good it k v Hg Hp). Qed.

(** ** StandAloneStorage is a storage *)

Definition sa_contents (s : StandAloneStorage) : snapshot := λ cf, view_of (sa_db s) (cf_prefix cf).

(** Values that are read back as they were written. *)
Definition plain_modify (m : Modify) : Prop :=
  Modify_Cf m ∈ CFs ∧ match m with Put _ v _ => ∃ b, v = Some b ∧ b ≠ [] | Delete _ _ => True end.

Lemma sa_write1_contents db m cf :
  db_ok db → plain_modify m → cf ∈ CFs →
  view_of (sa_write1 db m) (cf_prefix cf) = apply_modify (λ cf, view_of db (cf_prefix cf)) m cf.
Proof.
  intros Hok [Hcf Hm] Hcf'. apply map_eq. intros key. destruct m as [k v cf0|k cf0]; cbn [Modify_Cf] in Hcf; cbn [sa_write1 apply_modify]; unfold upd.
  - destruct Hm as (b & -> & Hb). rewrite view_of_lookup; [|by apply db_set_ok]. unfold PutCF. rewrite db_get_set //. cbn [default from_option id].
    destruct (decide (cf_prefix cf ++ key = _)) as [E|E].
    + apply KeyWithCF_inj in E as [-> ->]; [|done..]. rewrite decide_True // lookup_insert_eq /=. by rewrite value_copy_some.
    + rewrite -view_of_lookup //. destruct (decide (cf = cf0)) as [->|]; [|done]. rewrite lookup_insert_ne //. by intros ->.
  - rewrite view_of_lookup; [|by apply db_delete_ok]. unfold DeleteCF. rewrite db_get_delete //.
    destruct (decide (cf_prefix cf ++ key = _)) as [E|E].
    + apply KeyWithCF_inj in E as [-> ->]; [|done..]. by rewrite decide_True // lookup_delete_eq.
    + rewrite -view_of_lookup //. destruct (decide (cf = cf0)) as [->|]; [|done]. rewrite lookup_delete_ne //. by intros ->.
Qed.

(** C25: StandAloneStorage keeps the promises of the storage interface, for
    batches whose values are not empty: its reader is a snapshot of the database,
    by keys and in order (the laws of readers), and a write applies the batch,
    modification by modification. *)
Theorem standalone_storage_laws (s : StandAloneStorage) ctx batch :
  (∃ r, Reader s ctx = Ok r ∧ view r = sa_contents s) ∧
  (Forall plain_modify batch →
    (Storage.Write s ctx batch).2 = None ∧
    ∀ cf, cf ∈ CFs → sa_contents (Storage.Write s ctx batch).1 cf = apply_batch (sa_contents s) batch cf).
Proof.
  split; [by eexists|]. intros Hb. split; [done|]. intros cf Hcf. unfold sa_contents. cbn.
  assert (Hfold : ∀ db (m0 : snapshot), db_ok db → (∀ cf, cf ∈ CFs → view_of db (cf_prefix cf) = m0 cf) →
    view_of (foldl sa_write1 db batch) (cf_prefix cf) = apply_batch m0 batch cf); [|apply Hfold; [apply s|done]].
  induction Hb as [|m batch Hm _ IH]; intros db m0 Hok Heq; [by apply Heq|]. cbn. apply IH; [by apply (sa_write_ok _ [m])|].
  intros cf' Hcf'. rewrite sa_write1_contents //. destruct m as [k v cf0|k cf0]; cbn; unfold upd; by rewrite Heq.
Qed.

(** ** region_reader.go *)

Record RegionReader := mkRegionReader { rr_txn : D; rr_region : metapb.Region }.
Record RegionIterator := mkRegionIterator { ri_iter : BadgerIterator D; ri_region : metapb.Region }.

Definition rr_GetCF (r : RegionReader) (cf : string) (key : bytes) : outcome cmd_error (option bytes) :=
  match CheckKeyInRegion key (rr_region r) with
  | Some err => Err err
  | None =>
      match GetCFFromTxn (rr_txn r) cf key with
      | Ok val => Ok (value_copy val)
      | Err ErrKeyNotFound => Ok None
      | Err _ => Err (ErrMsg (Sprintf "badger error" []))
      | Panic w => Panic w
      | OutOfFuel => OutOfFuel
      end
  end.
Definition rr_IterCF (r : RegionReader) (cf : string) : RegionIterator :=
  mkRegionIterator (NewCFIterator cf (rr_txn r)) (rr_region r).
Definition ri_Valid (it : RegionIterator) : bool :=
  if negb (bi_Valid (ri_iter it)) || ExceedEndKey (bi_key (ri_iter it)) (metapb.EndKey (ri_region it)) then false else true.
Definition ri_Next (it : RegionIterator) : RegionIterator := mkRegionIterator (bi_Next (ri_iter it)) (ri_region it).
Definition ri_Seek (it : RegionIterator) (key : bytes) : outcome cmd_error RegionIterator :=
  match CheckKeyInRegion key (ri_region it) with
  | Some err => Panic "key is not in region"
  | None => Ok (mkRegionIterator (bi_Seek (ri_iter it) key) (ri_region it))
  end.
Definition ri_Rewind (it : RegionIterator) : RegionIterator := mkRegionIterator (bi_Rewind (ri_iter it)) (ri_region it).

(** The part of a column family a region holds. *)
Definition region_cf (d : D) (r : metapb.Region) (cf : string) : cfmap :=
  filter (λ e, in_region r e.1) (view_of d (cf_prefix cf)).

(** [for ; it.Valid(); it.Next()] with the items it meets. *)
Fixpoint ri_visits (fuel : nat) (it : RegionIterator) : list (bytes * option bytes) :=
  match fuel with
  | O => []
  | S fuel =>
    if ri_Valid it then
      match pos_of (prefix (ri_iter it)) (bi_items (ri_iter it)) with
      | Some x => x :: ri_visits fuel (ri_Next it)
      | None => []
      end
    else []
  end.

Lemma ri_Valid_cons d k v items p r :
  ri_Valid (mkRegionIterator (mkBadgerIterator d ((k, v) :: items) p) r) = true ↔
  ∃ key, k = p ++ key ∧ ExceedEndKey key (metapb.EndKey r) = false.
Proof.
  unfold ri_Valid, bi_Valid, bi_ValidForPrefix, bi_key, bi_ItemKey. cbn. destruct (decide (p `prefix_of` k)) as [Hp|Hp].
  - rewrite bool_decide_eq_true_2 //. apply prefix_drop in Hp. rewrite Hp go_slice_rest /=. destruct (ExceedEndKey _ _) eqn:E.
    + split; [done|]. intros (key & Ek%app_inv_head & E2). congruence.
    + split; [|done]. intros _. by eexists.
  - rewrite bool_decide_eq_false_2 //=. split; [done|]. intros (key & -> & _). destruct Hp. by apply prefix_app_r.
Qed.

(** The items visited are those of the family below the end of the region. *)
Lemma ri_visits_spec d items p r fuel :
  StronglySorted (λ a b : bytes * bytes, blt a.1 b.1) items → (∀ k v, (k, v) ∈ items → ble p k) → (length items < fuel)%nat →
  StronglySorted (λ a b : bytes * option bytes, blt a.1 b.1) (ri_visits fuel (mkRegionIterator (mkBadgerIterator d items p) r)) ∧
  ∀ key v', (key, v') ∈ ri_visits fuel (mkRegionIterator (mkBadgerIterator d items p) r) ↔
    ∃ v, (p ++ key, v) ∈ items ∧ v' = value_copy v ∧ ExceedEndKey key (metapb.EndKey r) = false.
Proof.
  revert items. induction fuel as [|fuel IH]; intros items Hs Hp Hlen; [lia|]. destruct items as [|[k v] items].
  { cbn. split; [constructor|]. intros key v'. split; [by intros ?%not_elem_of_nil|]. by intros (? & ?%not_elem_of_nil & _). }
  apply StronglySorted_inv in Hs as [Hs Hk]. rewrite Forall_forall in Hk. cbn [length] in Hlen.
  destruct (IH items Hs) as [IHs IHe]; [intros k' v' Hx; apply (Hp k' v'); by right|lia|]. cbn [ri_visits].
  destruct (ri_Valid _) eqn:Ev.
  - apply ri_Valid_cons in Ev as (key & -> & Ex). unfold pos_of. cbn [ri_iter bi_items head mbind option_bind prefix].
    rewrite (proj2 (item_of_Some p (p ++ key) v (key, value_copy v))); [|by exists key]. unfold ri_Next, bi_Next. cbn [ri_iter bi_items tail bi_txn prefix ri_region].
    assert (Hlt : ∀ key2 v2, (p ++ key2, v2) ∈ items → blt key key2).
    { intros key2 v2 Hx%Hk. cbn in Hx. unfold blt in *. by rewrite Compare_app_same in Hx. }
    split.
    + constructor; [done|]. apply Forall_forall. intros [key2 v2] (v3 & Hx & _ & _)%IHe. cbn. by eapply Hlt.
    + intros key2 v2. rewrite elem_of_cons IHe. split.
      * intros [[= -> ->]|(v3 & Hx & -> & Hx2)]; [exists v|exists v3]; (split; [|done]); [by left|by right].
      * intros (v3 & [[= E ->]|Hx]%elem_of_cons & -> & Hx2); [apply app_inv_head in E as ->; by left|]. right. by exists v3.
  - split; [constructor|]. intros key v'. split; [by intros ?%not_elem_of_nil|]. intros (v3 & Hx & -> & Ex). exfalso.
    apply not_true_iff_false in Ev. apply Ev, ri_Valid_cons. apply elem_of_cons in Hx as [[= <- _]|Hx]; [by exists key|].
    apply Hk in Hx. cbn in Hx. destruct (decide (p `prefix_of` k)) as [Hk2%prefix_drop|Hn].
    + eexists. split; [exact Hk2|]. rewrite Hk2 in Hx. unfold blt in Hx. rewrite Compare_app_same in Hx.
      apply not_true_iff_false. rewrite ExceedEndKey_spec. intros [He1 He2]. apply not_true_iff_false in Ex. apply Ex, ExceedEndKey_spec.
      split; [done|]. eapply ble_trans; [exact He2|by apply blt_ble].
    + exfalso. eapply (prefix_before p [] k _ ltac:(rewrite app_nil_r; apply (Hp k v); by left) Hn Hx). by apply prefix_app_r.
Qed.

(** C26: The reader of a region reads that region and nothing else.  A key outside
    the region is answered with the error of such keys; a key inside with its value
    in the column family.  An iterator sought to a key of the region visits, in
    order, exactly the pairs of the region from that key on, though the database
    holds other regions and families; a key outside stops it by a panic. *)
Theorem region_reader_confined (d : D) (r : metapb.Region) (cf : string) (key : bytes) :
  db_ok d →
  let reader := mkRegionReader d r in
  rr_GetCF reader cf key = (if decide (in_region r key) then Ok (mjoin (region_cf d r cf !! key)) else Err (ErrKeyNotInRegion key r)) ∧
  match ri_Seek (rr_IterCF reader cf) key with
  | Ok it =>
    in_region r key ∧
    let l := ri_visits (S (length (bi_items (ri_iter it)))) it in
    StronglySorted (λ a b, blt a.1 b.1) l ∧
    ∀ k v, (k, v) ∈ l ↔ region_cf d r cf !! k = Some v ∧ ble key k
  | Panic _ => ¬ in_region r key
  | _ => False
  end.
Proof.
  intros Hok. cbv zeta. unfold rr_GetCF, ri_Seek. cbn [rr_region rr_txn rr_IterCF ri_region ri_iter].
  rewrite CheckKeyInRegion_spec. destruct (decide (in_region r key)) as [Hin|Hin]; [|done]. split.
  { unfold GetCFFromTxn, KeyWithCF, region_cf. rewrite map_lookup_filter view_of_lookup //. destruct (db_get d _); cbn; [|done].
    by rewrite option_guard_True. }
  split; [done|]. unfold bi_Seek, NewCFIterator. cbn [bi_txn prefix ri_iter bi_items].
  destruct (ri_visits_spec d (db_from d (cf_prefix cf ++ key)) (cf_prefix cf) r (S (length (db_from d (cf_prefix cf ++ key))))) as [Hs He].
  { by apply db_from_sorted. }
  { intros k v [_ Hle]%db_from_elem; [|done]. eapply ble_trans; [|exact Hle]. rewrite -{1}(app_nil_r (cf_prefix cf)). unfold ble.
    rewrite Compare_app_same. apply Compare_nil_l. }
  { lia. }
  split; [exact Hs|]. intros k v'. rewrite He. unfold region_cf. rewrite map_lookup_filter_Some view_of_lookup // fmap_Some. cbn.
  assert (Hend : ble key k → ExceedEndKey k (metapb.EndKey r) = false ↔ in_region r k).
  { intros Hle. rewrite -not_true_iff_false ExceedEndKey_spec. unfold in_region. destruct Hin as [H1 _]. split.
    - intros Hn. split; [by eapply ble_trans|]. destruct (decide (metapb.EndKey r = [])); [by left|]. right. apply blt_not_ble. tauto.
    - intros [_ [->|Hlt]] [Hne Hle']; [done|]. by apply blt_not_ble in Hlt. }
  split.
  - intros (v & [Hg Hle]%db_from_elem & -> & Hx); [|done]. unfold ble in Hle. rewrite Compare_app_same in Hle. rewrite -(Hend Hle). split; [|done].
    split; [by exists v|done].
  - intros [[(v & Hg & ->) Hr] Hle]. exists v. rewrite (Hend Hle) db_from_elem //. unfold ble. by rewrite Compare_app_same.
Qed.
End Badger.

(** ** On a concrete database *)

#[local] Instance plain_values : ItemValues := {| value_copy := Some; value_copy_some v _ := eq_refl |}.

Definition small_db : StandAloneStorage (D := bdb) := mkStandAloneStorage [] (SSorted_nil _).
Definition small_ctx : kvrpcpb.Context := kvrpcpb.mkContext 1 None None 0.
Definition small_batch : list Modify :=
  [Put [x61] (Some [x01]) CfDefault; Put [x62] (Some [x02]) CfDefault; Put [x62] (Some [x03]) CfLock; Delete [x61] CfDefault; Put [x63] (Some [x04]) CfDefault].
Definition small_written : bdb := sa_db (Storage.Write small_db small_ctx small_batch).1.

Lemma standalone_storage_laws_witness :
  Forall plain_modify small_batch ∧ sa_contents (Storage.Write small_db small_ctx small_batch).1 CfLock !! [x62] = Some (Some [x03]).
Proof.
  assert (Hb : Forall plain_modify small_batch).
  { repeat apply Forall_cons_2; try apply Forall_nil_2; (split; [cbn; unfold CFs; set_solver|]); cbn; eauto. }
  split; [exact Hb|]. destruct (standalone_storage_laws small_db small_ctx small_batch) as [_ H].
  destruct (H Hb) as [_ Hc]. rewrite (Hc CfLock CfLock_CFs). vm_compute. reflexivity.
Defined.

(** A region from "b" to "c" of the family "default". *)
Definition small_region : metapb.Region := metapb.mkRegion 1 [x62] [x63] (metapb.mkRegionEpoch 1 1) [].
Lemma region_reader_confined_witness :
  rr_GetCF (mkRegionReader small_written small_region) CfDefault [x62] = Ok (Some [x02]) ∧
  match ri_Seek (rr_IterCF (mkRegionReader small_written small_region) CfDefault) [x62] with
  | Ok it => ri_visits 5 it = [([x62], Some [x02])]
  | _ => False
  end.
Proof.
  assert (Hok : db_ok small_written) by (apply sa_write_ok, SSorted_nil).
  destruct (region_reader_confined small_written small_region CfDefault [x62] Hok) as [Hg _].
  split; [|vm_compute; reflexivity]. rewrite Hg. vm_compute. reflexivity.
Defined.
