(* ===== verification/Applier.v ===== *)
(** The applier of a region: kv/raftstore/applier.go.

    It executes the committed entries of a region's log: puts and deletes go to
    the kv engine together with the index of the last applied entry, admin
    commands change the region.  A command that this peer proposed answers its
    callback.

    Callbacks are pointers that proposals, the queue of pending commands and the
    context share; they are numbers here, and [heap] holds what they point to.
    Logging and sizeDiffHint, which the applier never sets, are left out. *)

From S2P Require Import Prelude Pb RaftPb RaftMeta Engine Storage EngineCF PeerStorage RaftCmd.

(** An error value that never occurs. *)
Notation pure_outcome := (outcome Empty_set).

Section Applier.
Context {D : Type} `{!Badger D}.
Context `{!Proto RaftApplyState, !Proto RegionLocalState, !Proto metapb.Region, !Proto RaftCmdRequest, !Proto ConfChange}.

(** ** message/callback.go *)

(** [cb_done] counts the signals sent on the channel, which has room for one. *)
Record Callback := mkCallback { cb_Resp : option RaftCmdResponse; cb_Txn : option D; cb_done : Z }.
Definition NewCallback : Callback := mkCallback None None 0.
Notation heap := (gmap Z Callback).

Definition cb_Done (cb : option Z) (resp : option RaftCmdResponse) (h : heap) : heap :=
  match cb with
  | None => h
  | Some p =>
    alter (λ c, mkCallback (match resp with Some _ => resp | None => cb_Resp c end) (cb_Txn c) (cb_done c + 1)) p h
  end.

(** ** Types *)

Record pendingCmd := mkPendingCmd { pc_index : Z; pc_term : Z; pc_cb : option Z }.
Record proposal := mkProposal { isConfChange : bool; p_index : Z; p_term : Z; p_cb : option Z }.
Record pendingCmdQueue := mkPendingCmdQueue { normals : list pendingCmd; confChange : option pendingCmd }.
Definition empty_queue : pendingCmdQueue := mkPendingCmdQueue [] None.

Inductive execResult :=
| execResultChangePeer (cc : ConfChange) (peer : option metapb.Peer) (rg : option metapb.Region)
| execResultCompactLog (truncatedIndex firstIndex : Z)
| execResultSplitRegion (regions : list metapb.Region) (derived : metapb.Region).
(** [applyResult]: [applyResultTypeNone] or a result. *)
Notation applyResult := (option execResult).

Record MsgApplyRes := mkMsgApplyRes { ar_regionID : Z; execResults : list execResult }.
Inductive apply_task :=
| MsgApplyProposal (Id : Z) (Props : list proposal)
| MsgApplyCommitted (term : Z) (entries : list Entry)
| MsgApplyRefresh (id term : Z) (rg : metapb.Region).

Record applier := mkApplier {
  a_id : Z;
  a_term : Z;
  a_region : metapb.Region;
  a_tag : text;
  pendingRemove : bool;
  pendingCmds : pendingCmdQueue;
  a_applyState : RaftApplyState
}.
Implicit Types a d : applier.
Definition set_a_term (x : Z) a : applier :=
  mkApplier (a_id a) x (a_region a) (a_tag a) (pendingRemove a) (pendingCmds a) (a_applyState a).
Definition set_a_region (x : metapb.Region) a : applier :=
  mkApplier (a_id a) (a_term a) x (a_tag a) (pendingRemove a) (pendingCmds a) (a_applyState a).
Definition set_pendingRemove (x : bool) a : applier :=
  mkApplier (a_id a) (a_term a) (a_region a) (a_tag a) x (pendingCmds a) (a_applyState a).
Definition set_pendingCmds (x : pendingCmdQueue) a : applier :=
  mkApplier (a_id a) (a_term a) (a_region a) (a_tag a) (pendingRemove a) x (a_applyState a).
Definition set_a_applyState (x : RaftApplyState) a : applier :=
  mkApplier (a_id a) (a_term a) (a_region a) (a_tag a) (pendingRemove a) (pendingCmds a) x.
Definition set_AppliedIndex (x : Z) a : applier :=
  set_a_applyState (mkRaftApplyState x (TruncatedState (a_applyState a))) a.

Definition applier_tag (regionId id : Z) : text := Sprintf "[region %d] %d" [FZ regionId; FZ id].
Definition zero_applyState : RaftApplyState := mkRaftApplyState 0 None.

(** [newApplierFromPeer], from the parts of the peer it reads. *)
Definition newApplierFromPeer (peerId term : Z) (rg : metapb.Region) : applier :=
  mkApplier peerId term rg (applier_tag (metapb.Id rg) peerId) false empty_queue zero_applyState.

Record applyExecContext := mkExecContext { ex_index : Z; ex_term : Z; ex_applyState : RaftApplyState }.
Record applyCallback := mkApplyCallback { apc_region : metapb.Region; apc_cbs : list (option Z) }.

(** [ac_notifier] is what has been sent on the channel, [ac_heap] the store of
    callbacks; the write batch is created with the context and never nil. *)
Record applyContext := mkApplyContext {
  ac_notifier : list MsgApplyRes;
  ac_engines : Engines D;
  ac_cbs : list applyCallback;
  applyTaskResList : list MsgApplyRes;
  execCtx : option applyExecContext;
  ac_wb : WriteBatch;
  lastAppliedIndex : Z;
  committedCount : Z;
  ac_heap : heap
}.
Implicit Types c : applyContext.
Definition set_ac_notifier (x : list MsgApplyRes) c : applyContext :=
  mkApplyContext x (ac_engines c) (ac_cbs c) (applyTaskResList c) (execCtx c) (ac_wb c) (lastAppliedIndex c) (committedCount c) (ac_heap c).
Definition set_ac_engines (x : Engines D) c : applyContext :=
  mkApplyContext (ac_notifier c) x (ac_cbs c) (applyTaskResList c) (execCtx c) (ac_wb c) (lastAppliedIndex c) (committedCount c) (ac_heap c).
Definition set_ac_cbs (x : list applyCallback) c : applyContext :=
  mkApplyContext (ac_notifier c) (ac_engines c) x (applyTaskResList c) (execCtx c) (ac_wb c) (lastAppliedIndex c) (committedCount c) (ac_heap c).
Definition set_applyTaskResList (x : list MsgApplyRes) c : applyContext :=
  mkApplyContext (ac_notifier c) (ac_engines c) (ac_cbs c) x (execCtx c) (ac_wb c) (lastAppliedIndex c) (committedCount c) (ac_heap c).
Definition set_execCtx (x : option applyExecContext) c : applyContext :=
  mkApplyContext (ac_notifier c) (ac_engines c) (ac_cbs c) (applyTaskResList c) x (ac_wb c) (lastAppliedIndex c) (committedCount c) (ac_heap c).
Definition set_ac_wb (x : WriteBatch) c : applyContext :=
  mkApplyContext (ac_notifier c) (ac_engines c) (ac_cbs c) (applyTaskResList c) (execCtx c) x (lastAppliedIndex c) (committedCount c) (ac_heap c).
Definition set_lastAppliedIndex (x : Z) c : applyContext :=
  mkApplyContext (ac_notifier c) (ac_engines c) (ac_cbs c) (applyTaskResList c) (execCtx c) (ac_wb c) x (committedCount c) (ac_heap c).
Definition set_committedCount (x : Z) c : applyContext :=
  mkApplyContext (ac_notifier c) (ac_engines c) (ac_cbs c) (applyTaskResList c) (execCtx c) (ac_wb c) (lastAppliedIndex c) x (ac_heap c).
Definition set_ac_heap (x : heap) c : applyContext :=
  mkApplyContext (ac_notifier c) (ac_engines c) (ac_cbs c) (applyTaskResList c) (execCtx c) (ac_wb c) (lastAppliedIndex c) (committedCount c) x.
Definition ac_Kv c : D := Kv (ac_engines c).
Definition set_ac_Kv (x : D) c : applyContext := set_ac_engines (mkEngines x (RaftDB (ac_engines c))) c.

Definition newApplyContext (engines : Engines D) (h : heap) : applyContext :=
  mkApplyContext [] engines [] [] None empty_wb 0 0 h.

(** ** Pending commands *)

Definition notifyRegionRemoved (regionID : Z) (cmd : pendingCmd) (h : heap) : heap :=
  cb_Done (pc_cb cmd) (Some (ErrRespRegionNotFound regionID)) h.
Definition notifyStaleCommand (term : Z) (cmd : pendingCmd) (h : heap) : heap :=
  cb_Done (pc_cb cmd) (Some (ErrRespStaleCommand term)) h.

Definition popNormal (q : pendingCmdQueue) (term : Z) : option (pendingCmd * pendingCmdQueue) :=
  match normals q with
  | [] => None
  | cmd :: rest => if decide (term < pc_term cmd) then None else Some (cmd, mkPendingCmdQueue rest (confChange q))
  end.
Definition appendNormal (q : pendingCmdQueue) (cmd : pendingCmd) : pendingCmdQueue :=
  mkPendingCmdQueue (normals q ++ [cmd]) (confChange q).
Definition takeConfChange (q : pendingCmdQueue) : option pendingCmd * pendingCmdQueue :=
  (confChange q, mkPendingCmdQueue (normals q) None).
Definition setConfChange (q : pendingCmdQueue) (cmd : pendingCmd) : pendingCmdQueue :=
  mkPendingCmdQueue (normals q) (Some cmd).

(** Every pending command is told. *)
Definition notify_all (notify : pendingCmd → heap → heap) (q : pendingCmdQueue) (h : heap) : heap :=
  let h := foldl (λ h cmd, notify cmd h) h (normals q) in
  match (takeConfChange q).1 with Some cmd => notify cmd h | None => h end.

Definition destroy a (h : heap) : applier * heap :=
  (set_pendingCmds empty_queue a, notify_all (notifyRegionRemoved (metapb.Id (a_region a))) (pendingCmds a) h).

Definition handleRefresh a (h : heap) (id term : Z) (rg : metapb.Region) : pure_outcome (applier * heap) :=
  if decide (a_id a ≠ id) then Panic "assertion failed"
  else
    let h := notify_all (notifyStaleCommand term) (pendingCmds a) h in
    Ok (mkApplier id term rg (applier_tag (metapb.Id rg) id) false empty_queue zero_applyState, h).

(** The turn of the loop of [handleProposal]. *)
Definition add_proposal (term : Z) (qh : pendingCmdQueue * heap) (p : proposal) : pendingCmdQueue * heap :=
  let '(q, h) := qh in
  let cmd := mkPendingCmd (p_index p) (p_term p) (p_cb p) in
  if isConfChange p then
    let '(old, q) := takeConfChange q in
    let h := match old with Some confCmd => notifyStaleCommand term confCmd h | None => h end in
    (setConfChange q cmd, h)
  else (appendNormal q cmd, h).

Definition handleProposal a (h : heap) (id : Z) (props : list proposal) : pure_outcome (applier * heap) :=
  if decide (a_id a ≠ id) then Panic "assertion failed"
  else if pendingRemove a then
    Ok (a, foldl (λ h p, notifyStaleCommand (a_term a) (mkPendingCmd (p_index p) (p_term p) (p_cb p)) h) h props)
  else
    let '(q, h) := foldl (add_proposal (a_term a)) (pendingCmds a, h) props in
    Ok (set_pendingCmds q a, h).

(** The loop of [findCallback] over the queue. *)
Fixpoint find_normal (index term : Z) (cmds : list pendingCmd) (h : heap) : option Z * list pendingCmd * heap :=
  match cmds with
  | [] => (None, [], h)
  | head :: rest =>
    if decide (term < pc_term head) then (None, cmds, h)
    else if decide (pc_index head = index ∧ pc_term head = term) then (pc_cb head, rest, h)
    else find_normal index term rest (notifyStaleCommand term head h)
  end.

Definition findCallback a (h : heap) (index term : Z) (isConfChange : bool) : option Z * applier * heap :=
  let q := pendingCmds a in
  if isConfChange then
    match takeConfChange q with
    | (None, q) => (None, set_pendingCmds q a, h)
    | (Some cmd, q) =>
      if decide (pc_index cmd = index ∧ pc_term cmd = term) then (pc_cb cmd, set_pendingCmds q a, h)
      else (None, set_pendingCmds q a, notifyStaleCommand term cmd h)
    end
  else
    let '(cb, rest, h) := find_normal index term (normals q) h in
    (cb, set_pendingCmds (mkPendingCmdQueue rest (confChange q)) a, h).

(** ** The apply context *)

Definition invokeAll (cb : applyCallback) (h : heap) : heap := foldl (λ h cb, cb_Done cb None h) h (apc_cbs cb).

(** [push] on the last element of [cbs]. *)
Definition push_last c (cb : option Z) (resp : RaftCmdResponse) (txn : option D) : pure_outcome applyContext :=
  match last (ac_cbs c) with
  | None => Panic "index out of range"
  | Some l =>
    let h := match cb with
             | Some p => alter (λ x, mkCallback (Some resp) txn (cb_done x)) p (ac_heap c)
             | None => ac_heap c
             end in
    Ok (set_ac_heap h (set_ac_cbs (take (length (ac_cbs c) - 1) (ac_cbs c) ++ [mkApplyCallback (apc_region l) (apc_cbs l ++ [cb])]) c))
  end.

(** The error of the engine is dropped and a nil state dereferenced. *)
Definition prepareFor c d : pure_outcome (applyContext * applier) :=
  let c := set_ac_cbs (ac_cbs c ++ [mkApplyCallback (a_region d) []]) c in
  match GetApplyState (ac_Kv c) (metapb.Id (a_region d)) with
  | Ok st => Ok (set_lastAppliedIndex (AppliedIndex st) c, set_a_applyState st d)
  | _ => Panic "nil pointer dereference"
  end.

Definition writeApplyState a (wb : WriteBatch) : WriteBatch := SetMeta wb (ApplyStateKey (metapb.Id (a_region a))) (a_applyState a).

Definition writeToDB c : applyContext :=
  let c := set_ac_wb empty_wb (set_ac_Kv (WriteToDB (ac_wb c) (ac_Kv c)) c) in
  set_ac_cbs [] (set_ac_heap (foldl (λ h cb, invokeAll cb h) (ac_heap c) (ac_cbs c)) c).

Definition commitOpt c d (persistent : bool) : pure_outcome (applyContext * applier) :=
  if persistent then prepareFor (writeToDB c) d else Ok (c, d).

Definition ac_commit c d : pure_outcome (applyContext * applier) :=
  let c := if decide (lastAppliedIndex c < AppliedIndex (a_applyState d)) then set_ac_wb (writeApplyState d (ac_wb c)) c else c in
  commitOpt c d true.

Definition finishFor c d (results : list execResult) : pure_outcome (applyContext * applier) :=
  let c := if pendingRemove d then c else set_ac_wb (writeApplyState d (ac_wb c)) c in
  '(c, d) ← commitOpt c d false;
  Ok (set_applyTaskResList (applyTaskResList c ++ [mkMsgApplyRes (metapb.Id (a_region d)) results]) c, d).

Definition flush c : applyContext :=
  let c := writeToDB c in
  let c := set_applyTaskResList [] (set_ac_notifier (ac_notifier c ++ applyTaskResList c) c) in
  set_committedCount 0 c.

(** ** Executing a command *)

(** What executing a command returns. *)
Record exec_ret := mkExecRet {
  er_resp : option RaftCmdResponse; er_txn : option D; er_result : applyResult; er_err : option cmd_error }.

Definition handlePut a c (req : option PutRequest) : applyContext * option Response * option cmd_error :=
  let '(mkPutRequest cf key value) := default (mkPutRequest "" [] []) req in
  match CheckKeyInRegion key (a_region a) with
  | Some err => (c, None, Some err)
  | None =>
    let wb := engine_util.wb_SetCF (ac_wb c) (if decide (cf = "") then CfDefault else cf) key value in
    (set_ac_wb wb c, Some (mkResponse CmdType_Put None None None None), None)
  end.

Definition handleDelete a c (req : option DeleteRequest) : applyContext * option Response * option cmd_error :=
  let '(mkDeleteRequest cf key) := default (mkDeleteRequest "" []) req in
  match CheckKeyInRegion key (a_region a) with
  | Some err => (c, None, Some err)
  | None =>
    let wb := engine_util.wb_DeleteCF (ac_wb c) (if decide (cf = "") then CfDefault else cf) key in
    (set_ac_wb wb c, Some (mkResponse CmdType_Delete None None None None), None)
  end.

(** A key that is not found has the value nil. *)
Definition handleGet a c (req : option GetRequest) : option Response * option cmd_error :=
  let '(mkGetRequest cf key) := default (mkGetRequest "" []) req in
  match CheckKeyInRegion key (a_region a) with
  | Some err => (None, Some err)
  | None =>
    let val := match engine_util.GetCF (ac_Kv c) (if decide (cf = "") then CfDefault else cf) key with
               | Ok v => Some v
               | _ => None
               end in
    (Some (mkResponse CmdType_Get (Some (mkGetResponse val)) None None None), None)
  end.

(** The variables of the loop of [execNormalCmd]. *)
Record normal_state := mkNormalState {
  ns_ctx : applyContext; ns_resps : list (option Response); ns_txn : option D; ns_err : option cmd_error;
  hasWrite : bool; hasRead : bool }.

Definition exec_request a (s : normal_state) (req : Request) : pure_outcome normal_state :=
  match rq_CmdType req with
  | CmdType_Put =>
    let '(c, r, err) := handlePut a (ns_ctx s) (rq_Put req) in
    Ok (mkNormalState c (ns_resps s ++ [r]) (ns_txn s) err true (hasRead s))
  | CmdType_Delete =>
    let '(c, r, err) := handleDelete a (ns_ctx s) (rq_Delete req) in
    Ok (mkNormalState c (ns_resps s ++ [r]) (ns_txn s) err true (hasRead s))
  | CmdType_Get =>
    let '(r, err) := handleGet a (ns_ctx s) (rq_Get req) in
    Ok (mkNormalState (ns_ctx s) (ns_resps s ++ [r]) (ns_txn s) err (hasWrite s) true)
  | CmdType_Snap =>
    let r := mkResponse CmdType_Snap None None None (Some (mkSnapResponse (Some (a_region a)))) in
    Ok (mkNormalState (ns_ctx s) (ns_resps s ++ [Some r]) (Some (ac_Kv (ns_ctx s))) (ns_err s) (hasWrite s) true)
  | CmdType_Invalid => Panic "invalid cmd type"
  end.

Fixpoint exec_requests a (s : normal_state) (reqs : list Request) : pure_outcome normal_state :=
  match reqs with
  | [] => Ok s
  | req :: reqs => s ← exec_request a s req; exec_requests a s reqs
  end.

Definition execNormalCmd a c (req : RaftCmdRequest) : pure_outcome (applyContext * exec_ret) :=
  s ← exec_requests a (mkNormalState c [] None None false false) (rc_Requests req);
  if hasWrite s && hasRead s then Panic "mixed write and read in one request"
  else
    let resp := mkRaftCmdResponse (rr_Header newCmdResp) (ns_resps s) None in
    Ok (ns_ctx s, mkExecRet (Some resp) (ns_txn s) None (ns_err s)).

(** What the handlers of admin commands return. *)
Notation admin_ret := (option AdminResponse * applyResult * option cmd_error)%type.

Definition set_Epoch (e : metapb.RegionEpoch) (r : metapb.Region) : metapb.Region :=
  metapb.mkRegion (metapb.Id r) (metapb.StartKey r) (metapb.EndKey r) e (metapb.Peers r).
Definition set_StartKey (k : bytes) (r : metapb.Region) : metapb.Region :=
  metapb.mkRegion (metapb.Id r) k (metapb.EndKey r) (metapb.Epoch r) (metapb.Peers r).

(** The [switch changeType] of [execChangePeer]: the region changed, whether the
    peer removes itself, or an error. *)
Definition change_peers a (region : metapb.Region) (changeType : ConfChangeType) (peer : metapb.Peer) :
    (metapb.Region * bool) + cmd_error :=
  match changeType with
  | AddNode =>
    match FindPeer region (metapb.StoreId peer) with
    | Some p =>
      inr (ErrMsg (text_app (a_tag a) (Sprintf " can't add duplicated peer, peer %s, region %s" [FPeer p; FRegion (a_region a)])))
    | None => inl (set_Peers (metapb.Peers region ++ [peer]) region, pendingRemove a)
    end
  | RemoveNode =>
    match RemovePeer region (metapb.StoreId peer) with
    | (region, Some p) =>
      if negb (PeerEqual p peer) then
        inr (ErrMsg (text_app (a_tag a) (Sprintf " ignore remove unmatched peer, expected_peer %s, got_peer %s" [FPeer peer; FPeer p])))
      else inl (region, if decide (a_id a = metapb.Peer_Id peer) then true else pendingRemove a)
    | (_, None) =>
      inr (ErrMsg (text_app (a_tag a) (Sprintf " removing missing peers, peer %s, region %s" [FPeer peer; FRegion (a_region a)])))
    end
  end.

Definition execChangePeer a c (req : AdminRequest) : pure_outcome (applier * applyContext * admin_ret) :=
  match ar_ChangePeer req with
  | None => Panic "nil pointer dereference"
  | Some request =>
    match cp_Peer request with
    | None => Panic "nil pointer dereference"
    | Some peer =>
      match CloneMsg (a_region a) with
      | None => Ok (a, c, (None, None, Some (ErrMsg (Sprintf "proto: cannot parse" []))))
      | Some region =>
        let e := metapb.Epoch region in
        let region := set_Epoch (metapb.mkRegionEpoch (u64 (metapb.ConfVer e + 1)) (metapb.Version e)) region in
        match change_peers a region (cp_ChangeType request) peer with
        | inr err => Ok (a, c, (None, None, Some err))
        | inl (region, removed) =>
          let a := set_pendingRemove removed a in
          let state := if pendingRemove a then PeerState_Tombstone else PeerState_Normal in
          let c := set_ac_wb (WriteRegionState (ac_wb c) region state) c in
          let resp := mkAdminResponse AdminCmdType_InvalidAdmin (Some (mkChangePeerResponse (Some region))) None None None in
          Ok (a, c, (Some resp, Some (execResultChangePeer (mkConfChange AddNode 0 None) (Some peer) (Some region)), None))
        end
      end
    end
  end.

(** [writeInitialApplyState] (bootstrap.go) *)
Definition initial_applyState : RaftApplyState :=
  mkRaftApplyState RaftInitLogIndex (Some (mkRaftTruncatedState RaftInitLogIndex RaftInitLogTerm)).
Definition writeInitialApplyState (kvWB : WriteBatch) (regionID : Z) : WriteBatch :=
  SetMeta kvWB (ApplyStateKey regionID) initial_applyState.

(** The checks of [execSplit]. *)
Definition check_split (region derived : metapb.Region) (splitReq : SplitRequest) : option cmd_error :=
  let splitKey := SplitKey splitReq in
  if decide (splitKey = []) then Some (ErrMsg (Sprintf "missing split key" []))
  else if bleb splitKey (metapb.StartKey derived) then
    Some (ErrMsg (Sprintf "invalid split request:%s" (FBytes splitKey :: FZ (NewRegionId splitReq) :: map FZ (NewPeerIds splitReq))))
  else if decide (zlen (NewPeerIds splitReq) ≠ zlen (metapb.Peers derived)) then
    Some (ErrMsg (Sprintf "invalid new peer id count, need %d but got %d"
      [FZ (zlen (metapb.Peers derived)); FZ (zlen (NewPeerIds splitReq))]))
  else CheckKeyInRegion splitKey region.

(** The two regions: the new one below the split key and the derived one above. *)
Definition split_regions (derived : metapb.Region) (splitReq : SplitRequest) : metapb.Region * metapb.Region :=
  let e := metapb.Epoch derived in
  let derived := set_Epoch (metapb.mkRegionEpoch (metapb.ConfVer e) (u64 (metapb.Version e + 1))) derived in
  let newRegion := metapb.mkRegion (NewRegionId splitReq) (metapb.StartKey derived) (SplitKey splitReq) (metapb.Epoch derived)
    (zip_with (λ id p, metapb.mkPeer id (metapb.StoreId p)) (NewPeerIds splitReq) (metapb.Peers derived)) in
  (newRegion, set_StartKey (SplitKey splitReq) derived).

Definition execSplit a c (req : AdminRequest) : pure_outcome (applyContext * admin_ret) :=
  match CloneMsg (a_region a) with
  | None => Panic "panic(err)"
  | Some derived =>
    match ar_Split req with
    | None => Panic "nil pointer dereference"
    | Some splitReq =>
      match check_split (a_region a) derived splitReq with
      | Some err => Ok (c, (None, None, Some err))
      | None =>
        let '(newRegion, derived) := split_regions derived splitReq in
        let wb := WriteRegionState (ac_wb c) newRegion PeerState_Normal in
        let wb := writeInitialApplyState wb (metapb.Id newRegion) in
        let wb := WriteRegionState wb derived PeerState_Normal in
        let regions := [newRegion; derived] in
        let resp := mkAdminResponse AdminCmdType_InvalidAdmin None None None (Some (mkSplitResponse regions)) in
        Ok (set_ac_wb wb c, (Some resp, Some (execResultSplitRegion regions derived), None))
      end
    end
  end.

Definition execCompactLog c (req : AdminRequest) : pure_outcome (applyContext * admin_ret) :=
  match ar_CompactLog req, execCtx c with
  | Some (mkCompactLogRequest compactIndex compactTerm), Some (mkExecContext index term applyState) =>
    let resp := Some empty_AdminResponse in
    match TruncatedState applyState with
    | None => Panic "nil pointer dereference"
    | Some truncated =>
      let firstIndex := u64 (tr_Index truncated + 1) in
      if decide (compactIndex ≤ firstIndex) then Ok (c, (resp, None, None))
      else if decide (compactTerm = 0) then
        Ok (c, (resp, None, Some (ErrMsg (Sprintf "command format is outdated, please upgrade leader" []))))
      else if decide (compactIndex ≤ tr_Index truncated ∨ AppliedIndex applyState < compactIndex) then Ok (c, (resp, None, None))
      else
        let applyState := mkRaftApplyState (AppliedIndex applyState) (Some (mkRaftTruncatedState compactIndex compactTerm)) in
        Ok (set_execCtx (Some (mkExecContext index term applyState)) c, (resp, Some (execResultCompactLog compactIndex firstIndex), None))
    end
  | _, _ => Panic "nil pointer dereference"
  end.

Definition execAdminCmd a c (adminReq : AdminRequest) : pure_outcome (applier * applyContext * exec_ret) :=
  '(a, c, ret) ←
    match ar_CmdType adminReq with
    | AdminCmdType_ChangePeer => execChangePeer a c adminReq
    | AdminCmdType_Split => '(c, ret) ← execSplit a c adminReq; Ok (a, c, ret)
    | AdminCmdType_CompactLog => '(c, ret) ← execCompactLog c adminReq; Ok (a, c, ret)
    | AdminCmdType_TransferLeader => Ok (a, c, (None, None, Some (ErrMsg (Sprintf "transfer leader won't execute" []))))
    | AdminCmdType_InvalidAdmin => Ok (a, c, (None, None, Some (ErrMsg (Sprintf "unsupported command type" []))))
    end;
  match ret with
  | (_, result, Some err) => Ok (a, c, mkExecRet None None result (Some err))
  | (None, _, None) => Panic "nil pointer dereference"
  | (Some r, result, None) =>
    let r := mkAdminResponse (ar_CmdType adminReq) (as_ChangePeer r) (as_CompactLog r) (as_TransferLeader r) (as_Split r) in
    Ok (a, c, mkExecRet (Some (mkRaftCmdResponse (rr_Header newCmdResp) [] (Some r))) None result None)
  end.

Definition execRaftCmd a c (req : RaftCmdRequest) : pure_outcome (applier * applyContext * exec_ret) :=
  match CheckRegionEpoch req (a_region a) false with
  | Some err => Ok (a, c, mkExecRet None None None (Some err))
  | None =>
    match rc_AdminRequest req with
    | Some adminReq => execAdminCmd a c adminReq
    | None => '(c, ret) ← execNormalCmd a c req; Ok (a, c, ret)
    end
  end.

(** ** Applying entries *)

Definition newCtx a (index term : Z) : applyExecContext := mkExecContext index term (a_applyState a).

(** The response, the transaction of a snapshot, and the result. *)
Definition applyRaftCmd a c (index term : Z) (req : RaftCmdRequest) :
    pure_outcome (applier * applyContext * (option RaftCmdResponse * option D * applyResult)) :=
  if pendingRemove a then Panic "assertion failed"
  else
    let c := set_execCtx (Some (newCtx a index term)) c in
    let c := set_ac_wb (SetSafePoint (ac_wb c)) c in
    '(a, c, ret) ← execRaftCmd a c req;
    '(c, resp, txn, result) ←
      match er_err ret with
      | Some err => wb ← RollbackToSafePoint (ac_wb c); Ok (set_ac_wb wb c, Some (ErrResp err), None, None)
      | None => Ok (c, er_resp ret, er_txn ret, er_result ret)
      end;
    match execCtx c with
    | None => Panic "nil pointer dereference"
    | Some ctx =>
      let a := set_AppliedIndex index (set_a_applyState (ex_applyState ctx) a) in
      let c := set_execCtx None c in
      match result with
      (* the region of a change that was executed is not nil *)
      | Some (execResultChangePeer _ _ None) => Panic "nil pointer dereference"
      | Some (execResultChangePeer _ _ (Some region)) => Ok (set_a_region region a, c, (resp, txn, result))
      | Some (execResultSplitRegion _ derived) => Ok (set_a_region derived a, c, (resp, txn, result))
      | _ => Ok (a, c, (resp, txn, result))
      end
    end.

Definition processRaftCmd a c (index term : Z) (cmd : RaftCmdRequest) : pure_outcome (applier * applyContext * applyResult) :=
  if decide (index = 0) then Panic "process raft cmd need a none zero index"
  else
    let isConfChange := bool_decide (is_Some (GetChangePeerCmd cmd)) in
    '(a, c, (resp, txn, result)) ← applyRaftCmd a c index term cmd;
    match resp with
    | None => Panic "nil pointer dereference"
    | Some resp =>
      let resp := BindRespTerm resp term in
      let '(cb, a, h) := findCallback a (ac_heap c) index term isConfChange in
      c ← push_last (set_ac_heap h c) cb resp txn;
      Ok (a, c, result)
    end.

(** The loop of [handleRaftEntryNormal]: the stale commands of a new term. *)
Fixpoint pop_stale (bound term : Z) (cmds : list pendingCmd) c : pure_outcome (list pendingCmd * applyContext) :=
  match cmds with
  | [] => Ok ([], c)
  | cmd :: rest =>
    if decide (bound < pc_term cmd) then Ok (cmds, c)
    else c ← push_last c (pc_cb cmd) (ErrRespStaleCommand term) None; pop_stale bound term rest c
  end.

Definition handleRaftEntryNormal a c (entry : Entry) : pure_outcome (applier * applyContext * applyResult) :=
  let index := e_Index entry in
  let term := e_Term entry in
  if decide (0 < zlen (default [] (e_Data entry))) then
    match Unmarshal (default [] (e_Data entry)) with
    | None => Panic "panic(err)"
    | Some cmd => processRaftCmd a c index term cmd
    end
  else
    let a := set_AppliedIndex index a in
    if decide (term ≤ 0) then Panic "assertion failed"
    else
      '(rest, c) ← pop_stale (term - 1) term (normals (pendingCmds a)) c;
      Ok (set_pendingCmds (mkPendingCmdQueue rest (confChange (pendingCmds a))) a, c, None).

Definition handleRaftEntryConfChange a c (entry : Entry) : pure_outcome (applier * applyContext * applyResult) :=
  match Unmarshal (default [] (e_Data entry)) with
  | None => Panic "panic(err)"
  | Some confChange =>
    match Unmarshal (default [] (cc_Context confChange)) with
    | None => Panic "panic(err)"
    | Some cmd =>
      '(a, c, result) ← processRaftCmd a c (e_Index entry) (e_Term entry) cmd;
      match result with
      | None => Ok (a, c, Some (execResultChangePeer (mkConfChange AddNode 0 None) None None))
      | Some (execResultChangePeer _ peer region) => Ok (a, c, Some (execResultChangePeer confChange peer region))
      | Some _ => Panic "interface conversion"
      end
    end
  end.

(** The loop of [handleRaftCommittedEntries]. *)
Fixpoint apply_entries a c (entries : list Entry) (results : list execResult) : pure_outcome (applier * applyContext * list execResult) :=
  match entries with
  | [] => Ok (a, c, results)
  | entry :: entries =>
    if pendingRemove a then Ok (a, c, results)
    else if decide (u64 (AppliedIndex (a_applyState a) + 1) ≠ e_Index entry) then Panic "expect index"
    else
      '(a, c, res) ← match e_Type entry with
                     | EntryNormal => handleRaftEntryNormal a c entry
                     | EntryConfChange => handleRaftEntryConfChange a c entry
                     end;
      let results := match res with Some r => results ++ [r] | None => results end in
      '(c, a) ← ac_commit c a;
      apply_entries a c entries results
  end.

(** The number of entries is added twice. *)
Definition handleRaftCommittedEntries a c (committedEntries : list Entry) : pure_outcome (applier * applyContext) :=
  if decide (committedEntries = []) then Ok (a, c)
  else
    '(c, a) ← prepareFor c a;
    let c := set_committedCount (committedCount c + zlen committedEntries + zlen committedEntries) c in
    '(a, c, results) ← apply_entries a c committedEntries [];
    '(c, a) ← finishFor c a results;
    Ok (a, c).

Definition handleApply a c (term : Z) (entries : list Entry) : pure_outcome (applier * applyContext) :=
  if decide (entries = []) then Ok (a, c)
  else if pendingRemove a then Ok (a, c)
  else handleRaftCommittedEntries (set_a_term term a) c entries.

Definition handleTask a c (msg : apply_task) : pure_outcome (applier * applyContext) :=
  match msg with
  | MsgApplyProposal id props => '(a, h) ← handleProposal a (ac_heap c) id props; Ok (a, set_ac_heap h c)
  | MsgApplyCommitted term entries => handleApply a c term entries
  | MsgApplyRefresh id term rg => '(a, h) ← handleRefresh a (ac_heap c) id term rg; Ok (a, set_ac_heap h c)
  end.

(** ** The apply worker (raft_worker.go) *)

(** One message of [applyWorker.run]; the router knows the regions of the store. *)
Definition worker_msg (pr : gmap Z applier) c (m : Z * apply_task) : pure_outcome (gmap Z applier * applyContext) :=
  match pr !! m.1 with
  | None => Ok (pr, c)
  | Some a => '(a, c) ← handleTask a c m.2; Ok (<[m.1 := a]> pr, c)
  end.
Fixpoint worker_msgs (pr : gmap Z applier) c (msgs : list (Z * apply_task)) : pure_outcome (gmap Z applier * applyContext) :=
  match msgs with
  | [] => Ok (pr, c)
  | m :: msgs => '(pr, c) ← worker_msg pr c m; worker_msgs pr c msgs
  end.
(** The messages received from the channel, one batch after the other. *)
Fixpoint applyWorker_run (pr : gmap Z applier) c (batches : list (list (Z * apply_task))) : pure_outcome (gmap Z applier * applyContext) :=
  match batches with
  | [] => Ok (pr, c)
  | msgs :: batches => '(pr, c) ← worker_msgs pr c msgs; applyWorker_run pr (flush c) batches
  end.
End Applier.
