(* ===== verification/ApplierSpec.v ===== *)
(** What the applier promises: [spec_entry] says what a committed entry does to
    a region, without batches, engines, callbacks or the peer that applies it,
    and the apply worker is proved to implement it, whatever the division of
    the entries into tasks. *)

From S2P Require Import Prelude Pb RaftPb RaftMeta Engine Storage EngineCF PeerStorage RaftCmd Applier.

(** ** The messages *)

(** The numbers of a region are uint64. *)
Definition region_fits (r : metapb.Region) : Prop :=
  is_u64 (metapb.Id r) ∧ is_u64 (metapb.ConfVer (metapb.Epoch r)) ∧ is_u64 (metapb.Version (metapb.Epoch r)) ∧
  Forall (λ p, is_u64 (metapb.Peer_Id p) ∧ is_u64 (metapb.StoreId p)) (metapb.Peers r).
Definition cmd_fits (cmd : RaftCmdRequest) : Prop :=
  ∀ a, rc_AdminRequest cmd = Some a →
    (∀ cp p, ar_ChangePeer a = Some cp → cp_Peer cp = Some p → is_u64 (metapb.Peer_Id p) ∧ is_u64 (metapb.StoreId p)) ∧
    (∀ sp, ar_Split a = Some sp → is_u64 (NewRegionId sp) ∧ Forall is_u64 (NewPeerIds sp)) ∧
    (∀ cl, ar_CompactLog a = Some cl → is_u64 (CompactIndex cl) ∧ is_u64 (CompactTerm cl)).

(** The behaviour of the protocol buffers used: a message whose numbers fit comes
    back as it was, and a decoded command has numbers that fit. *)
Class ApplyMessages `{!Proto RaftApplyState, !Proto RegionLocalState, !Proto metapb.Region, !Proto RaftCmdRequest} : Prop := {
  am_apply ai ti tt : is_u64 ai → is_u64 ti → is_u64 tt → wire (mkRaftApplyState ai (Some (mkRaftTruncatedState ti tt)));
  am_zero_apply : TruncatedState (proto_zero (A := RaftApplyState)) = None;
  am_region r : region_fits r → wire r;
  am_state st r : region_fits r → wire (mkRegionLocalState st (Some r));
  am_zero_state : rg_Region (proto_zero (A := RegionLocalState)) = None;
  am_cmd b cmd : Unmarshal (A := RaftCmdRequest) b = Some cmd → cmd_fits cmd
}.

(** ** The specification *)

Notation data := (gmap (string * bytes) bytes).
Record rstate := mkRState { s_region : metapb.Region; s_apply : RaftApplyState; s_data : data }.

(** An empty value deletes. *)
Definition data_put (d : data) (cf : string) (key v : bytes) : data :=
  if decide (v = []) then delete (cf, key) d else <[(cf, key) := v]> d.
Definition family (cf : string) : string := if decide (cf = "") then CfDefault else cf.

Definition is_write (req : Request) : bool := bool_decide (rq_CmdType req = CmdType_Put ∨ rq_CmdType req = CmdType_Delete).
Definition is_read (req : Request) : bool := bool_decide (rq_CmdType req = CmdType_Get ∨ rq_CmdType req = CmdType_Snap).
Definition is_invalid (req : Request) : bool := bool_decide (rq_CmdType req = CmdType_Invalid).

(** One request: the data, and whether the last key was outside the region. *)
Definition spec_request (r : metapb.Region) (df : data * bool) (req : Request) : data * bool :=
  let '(d, failed) := df in
  match rq_CmdType req with
  | CmdType_Put =>
    let p := default (mkPutRequest "" [] []) (rq_Put req) in
    if decide (in_region r (put_Key p)) then (data_put d (family (put_Cf p)) (put_Key p) (put_Value p), false) else (d, true)
  | CmdType_Delete =>
    let p := default (mkDeleteRequest "" []) (rq_Delete req) in
    if decide (in_region r (delete_Key p)) then (delete (family (delete_Cf p), delete_Key p) d, false) else (d, true)
  | CmdType_Get => (d, bool_decide (¬ in_region r (get_Key (default (mkGetRequest "" []) (rq_Get req)))))
  | CmdType_Snap | CmdType_Invalid => df
  end.

Definition set_s_data (d : data) (s : rstate) : rstate := mkRState (s_region s) (s_apply s) d.
Definition set_s_region (r : metapb.Region) (s : rstate) : rstate := mkRState r (s_apply s) (s_data s).
Definition set_s_apply (x : RaftApplyState) (s : rstate) : rstate := mkRState (s_region s) x (s_data s).

(** [None] is a command that fails and changes nothing. *)
Definition spec_normal (s : rstate) (reqs : list Request) : pure_outcome (option rstate) :=
  if existsb is_invalid reqs || (existsb is_write reqs && existsb is_read reqs) then Panic "invalid command"
  else let '(d, failed) := foldl (spec_request (s_region s)) (s_data s, false) reqs in
    Ok (if failed then None else Some (set_s_data d s)).

(** What a command did beside writing: it changed the peers, perhaps removing
    one, or it split the region or cut its log. *)
Inductive effect := Plain | PeerChange (removed : option Z) | Reshaped.
#[export] Instance effect_eq_dec : EqDecision effect.
Proof. solve_decision. Defined.

Definition spec_change (r : metapb.Region) (ct : ConfChangeType) (peer : metapb.Peer) : option (metapb.Region * option Z) :=
  let e := metapb.Epoch r in
  let e' := metapb.mkRegionEpoch (u64 (metapb.ConfVer e + 1)) (metapb.Version e) in
  match ct, FindPeer r (metapb.StoreId peer) with
  | AddNode, None => Some (set_Peers (metapb.Peers r ++ [peer]) (set_Epoch e' r), None)
  | RemoveNode, Some p =>
    if PeerEqual p peer then Some (set_Peers (remove_peer (metapb.Peers r) (metapb.StoreId peer)).1 (set_Epoch e' r), Some (metapb.Peer_Id peer))
    else None
  | _, _ => None
  end.

(** The upper part of the region keeps its id. *)
Definition can_split (r : metapb.Region) (sp : SplitRequest) : Prop :=
  blt (metapb.StartKey r) (SplitKey sp) ∧ in_region r (SplitKey sp) ∧ length (NewPeerIds sp) = length (metapb.Peers r).
#[export] Instance can_split_dec r sp : Decision (can_split r sp).
Proof. unfold can_split. apply _. Defined.

Definition can_compact (st : RaftApplyState) (tr : RaftTruncatedState) (cl : CompactLogRequest) : Prop :=
  u64 (tr_Index tr + 1) < CompactIndex cl ≤ AppliedIndex st ∧ tr_Index tr < CompactIndex cl.
#[export] Instance can_compact_dec st tr cl : Decision (can_compact st tr cl).
Proof. unfold can_compact. apply _. Defined.

Definition nil_deref {A} : pure_outcome A := Panic "nil pointer dereference".

Definition spec_admin (s : rstate) (a : AdminRequest) : pure_outcome (option (rstate * effect)) :=
  match ar_CmdType a with
  | AdminCmdType_ChangePeer =>
    match ar_ChangePeer a ≫= λ cp, (λ p, (cp_ChangeType cp, p)) <$> cp_Peer cp with
    | None => nil_deref
    | Some (ct, peer) => Ok ((λ '(r, o), (set_s_region r s, PeerChange o)) <$> spec_change (s_region s) ct peer)
    end
  | AdminCmdType_Split =>
    match ar_Split a with
    | None => nil_deref
    | Some sp =>
      if decide (can_split (s_region s) sp) then Ok (Some (set_s_region (split_regions (s_region s) sp).2 s, Reshaped)) else Ok None
    end
  | AdminCmdType_CompactLog =>
    match ar_CompactLog a, TruncatedState (s_apply s) with
    | Some cl, Some tr =>
      if decide (u64 (tr_Index tr + 1) < CompactIndex cl ∧ CompactTerm cl = 0) then Ok None
      else if decide (can_compact (s_apply s) tr cl)
      then Ok (Some (set_s_apply (mkRaftApplyState (AppliedIndex (s_apply s)) (Some (mkRaftTruncatedState (CompactIndex cl) (CompactTerm cl)))) s,
        Reshaped))
      else Ok (Some (s, Plain))
    | _, _ => nil_deref
    end
  | AdminCmdType_TransferLeader | AdminCmdType_InvalidAdmin => Ok None
  end.

(** A command is executed when it was sent for the region's epoch. *)
Definition spec_exec (s : rstate) (cmd : RaftCmdRequest) : pure_outcome (option (rstate * effect)) :=
  match CheckRegionEpoch cmd (s_region s) false, rc_AdminRequest cmd with
  | Some _, _ => Ok None
  | None, Some a => spec_admin s a
  | None, None => spec_normal s (rc_Requests cmd) ≫= λ o : option rstate, Ok ((λ s, (s, Plain)) <$> o)
  end.

Definition applied_to (index : Z) (s : rstate) : rstate :=
  set_s_apply (mkRaftApplyState index (TruncatedState (s_apply s))) s.

Definition spec_cmd (s : rstate) (index : Z) (cmd : RaftCmdRequest) : pure_outcome (rstate * effect) :=
  spec_exec s cmd ≫= λ o : option (rstate * effect), let '(s, eff) := default (s, Plain) o in Ok (applied_to index s, eff).

Section Spec.
Context {D : Type} `{!Badger D}.
Context `{!Proto RaftApplyState, !Proto RegionLocalState, !Proto metapb.Region, !Proto RaftCmdRequest, !Proto ConfChange}.

(** Entries are applied in the order of their indices; the empty one marks a
    new leader. *)
Definition spec_entry (s : rstate) (e : Entry) : pure_outcome (rstate * effect) :=
  if decide (u64 (AppliedIndex (s_apply s) + 1) ≠ e_Index e) then Panic "unexpected index"
  else
    match e_Type e, e_Data e with
    | EntryNormal, Some (b :: bs) => match Unmarshal (b :: bs) with None => Panic "unmarshal" | Some cmd => spec_cmd s (e_Index e) cmd end
    | EntryNormal, _ => if decide (e_Term e ≤ 0) then Panic "no term" else Ok (applied_to (e_Index e) s, Plain)
    | EntryConfChange, d =>
      match Unmarshal (A := ConfChange) (default [] d) with
      | None => Panic "unmarshal"
      | Some cc =>
        match Unmarshal (default [] (cc_Context cc)) with
        | None => Panic "unmarshal"
        | Some cmd =>
          '(s, eff) ← spec_cmd s (e_Index e) cmd;
          match eff with Reshaped => Panic "not a change of peers" | _ => Ok (s, eff) end
        end
      end
    end.

(** A peer stops at the entry that removes it. *)
Fixpoint spec_entries (id : Z) (s : rstate) (es : list Entry) : pure_outcome (rstate * bool) :=
  match es with
  | [] => Ok (s, false)
  | e :: es =>
    '(s, eff) ← spec_entry s e;
    if decide (eff = PeerChange (Some id)) then Ok (s, true) else spec_entries id s es
  end.

(** ** The engine of a region *)

Context {messages : ApplyMessages}.

(** The other regions whose data is in the same engine. *)
Context (others : gset Z).
Context (others_u64 : ∀ id, id ∈ others → is_u64 id).

Definition data_rel (kv : D) (r : metapb.Region) (d : data) : Prop :=
  ∀ cf key, cf ∈ CFs → in_region r key → db_get kv (engine_util.KeyWithCF cf key) = d !! (cf, key).
Definition state_of (removed : bool) : PeerState := if removed then PeerState_Tombstone else PeerState_Normal.

(** The engine holds the region's state and its data. *)
Record kv_core (kv : D) (s : rstate) (removed : bool) : Prop := {
  kc_ok : db_ok kv;
  kc_state : db_get kv (RegionStateKey (metapb.Id (s_region s))) = Some (Marshal (mkRegionLocalState (state_of removed) (Some (s_region s))));
  kc_data : data_rel kv (s_region s) (s_data s)
}.

Record rstate_ok (s : rstate) : Prop := {
  ro_own : metapb.Id (s_region s) ∉ others;
  ro_region : region_fits (s_region s);
  ro_applied : is_u64 (AppliedIndex (s_apply s));
  ro_truncated : ∃ tr, TruncatedState (s_apply s) = Some tr ∧ is_u64 (tr_Index tr) ∧ is_u64 (tr_Term tr)
}.

(** A batch that writes what the engine already holds. *)
Definition neutral (kv : D) (es : list (bytes * bytes)) : Prop := Forall (λ e, e.2 ≠ [] ∧ db_get kv e.1 = Some e.2) es.

Lemma neutral_get kv es k : db_ok kv → neutral kv es → db_get (foldl write_entry kv es) k = db_get kv k.
Proof.
  intros Hok Hn. revert kv Hok Hn. induction es as [|[k1 v1] es IH]; intros kv Hok Hn; [done|]. cbn.
  apply Forall_cons in Hn as [[Hv Hk] Hn].
  assert (Hsame : ∀ k', db_get (write_entry kv (k1, v1)) k' = db_get kv k').
  { intros k'. rewrite write_entry_get //. cbn in *. destruct (decide (k' = k1)) as [->|]; [|done]. by rewrite decide_False. }
  rewrite IH; [done|by apply write_entry_ok|]. eapply Forall_impl; [exact Hn|]. intros e [He1 He2]. by rewrite Hsame.
Qed.

Lemma kv_core_get kv kv' s removed : kv_core kv s removed → db_ok kv' → (∀ k, db_get kv' k = db_get kv k) → kv_core kv' s removed.
Proof. intros [Hok Hs Hd] Hok' Hg. split; [done|by rewrite Hg|]. intros cf key Hcf Hk. rewrite Hg. by apply Hd. Qed.

Lemma region_marshal st r : region_fits r → Marshal (mkRegionLocalState st (Some r)) ≠ [].
Proof. intros Hr E. apply Marshal_nil in E; [|by apply am_state]. pose proof am_zero_state as Hz. by rewrite -E in Hz. Qed.
Lemma apply_marshal s : rstate_ok s → wire (s_apply s) ∧ Marshal (s_apply s) ≠ [].
Proof.
  intros [_ _ Ha (tr & Ht & Hti & Htt)]. destruct (s_apply s) as [ai o]. cbn in *. subst o. destruct tr as [ti tt].
  assert (wire (mkRaftApplyState ai (Some (mkRaftTruncatedState ti tt)))) as Hw by (by apply am_apply).
  split; [done|]. intros E%Marshal_nil; [|done]. pose proof am_zero_apply as Hz. by rewrite -E in Hz.
Qed.

(** ** What a batch of a command does *)

(** A key of another region: its local state, or data outside this region. *)
Definition foreign (s : rstate) (k : bytes) : Prop :=
  (∃ id, id ∈ others ∧ (k = RegionStateKey id ∨ k = ApplyStateKey id)) ∨
  (∃ cf key, cf ∈ CFs ∧ ¬ in_region (s_region s) key ∧ k = engine_util.KeyWithCF cf key).

Lemma foreign_data s cf key : cf ∈ CFs → in_region (s_region s) key → ¬ foreign s (engine_util.KeyWithCF cf key).
Proof.
  intros Hcf Hk [(id & _ & [E|E])|(cf' & key' & Hcf' & Hk' & E)].
  - by apply KeyWithCF_not_local in E.
  - by apply KeyWithCF_not_local in E.
  - apply KeyWithCF_inj in E as [-> ->]; done.
Qed.
Lemma foreign_state s id : is_u64 id → id ∉ others → ¬ foreign s (RegionStateKey id) ∧ ¬ foreign s (ApplyStateKey id).
Proof.
  intros Hid Hn. split; intros [(id' & Hin & [E|E])|(cf' & key' & Hcf' & _ & E)];
    try (symmetry in E; by apply KeyWithCF_not_local in E); try done.
  - apply RegionStateKey_inj in E as ->; [done|done|by apply others_u64].
  - apply ApplyStateKey_inj in E as ->; [done|done|by apply others_u64].
Qed.

(** The entries [ws] take the engine from [s] to [s'], and none is for another
    region. *)
Record commits (s s' : rstate) (removed : bool) (ws : list (bytes * bytes)) : Prop := {
  cm_core kv : kv_core kv s false → kv_core (foldl write_entry kv ws) s' removed;
  cm_frame e : e ∈ ws → ¬ foreign s e.1
}.

Lemma foldl_write_other kv es k : db_ok kv → (∀ e, e ∈ es → e.1 ≠ k) → db_get (foldl write_entry kv es) k = db_get kv k.
Proof.
  intros Hok Hes. revert kv Hok. induction es as [|e es IH]; intros kv Hok; [done|]. cbn. rewrite IH; [| |by apply write_entry_ok].
  - rewrite write_entry_get // decide_False //. intros ->. by apply (Hes e); [left|].
  - intros e' He'. apply Hes. by right.
Qed.

Lemma commits_same s s' s'' removed ws :
  s_region s'' = s_region s' → s_data s'' = s_data s' → commits s s' removed ws → commits s s'' removed ws.
Proof.
  intros Hr Hd [Hc Hf]. split; [|done]. intros kv Hk. destruct (Hc kv Hk) as [Hok Hs Hdd]. split; [done|by rewrite Hr|by rewrite Hr Hd].
Qed.
Lemma commits_nil s : commits s s false [].
Proof. split; [by intros kv H|by intros e He%not_elem_of_nil]. Qed.

(** Writing a key of the data. *)
Lemma data_write kv r d cf key v :
  db_ok kv → cf ∈ CFs → data_rel kv r d → data_rel (write_entry kv (engine_util.KeyWithCF cf key, v)) r (data_put d cf key v).
Proof.
  intros Hok Hcf Hd cf' key' Hcf' Hk'. rewrite write_entry_get //. cbn [fst snd]. unfold data_put.
  destruct (decide (engine_util.KeyWithCF cf' key' = _)) as [E|E].
  - apply KeyWithCF_inj in E as [-> ->]; [|done..]. destruct (decide (v = [])); by rewrite ?lookup_delete_eq ?lookup_insert_eq.
  - assert ((cf, key) ≠ (cf', key')) by (intros [= -> ->]; by apply E).
    rewrite Hd //. destruct (decide (v = [])); by rewrite ?lookup_delete_ne ?lookup_insert_ne.
Qed.
Lemma core_write kv s cf key v :
  cf ∈ CFs → kv_core kv s false → kv_core (write_entry kv (engine_util.KeyWithCF cf key, v)) (set_s_data (data_put (s_data s) cf key v) s) false.
Proof.
  intros Hcf [Hok Hs Hd]. split; [by apply write_entry_ok| |by apply data_write]. cbn. rewrite write_entry_get //. cbn.
  rewrite decide_False //. intros E. symmetry in E. by apply KeyWithCF_not_local in E.
Qed.

(** Writing a local key leaves the data alone. *)
Lemma data_local kv r d rest v : db_ok kv → data_rel kv r d → data_rel (write_entry kv (x01 :: rest, v)) r d.
Proof.
  intros Hok Hd cf key Hcf Hk. rewrite write_entry_get //. cbn [fst]. rewrite decide_False; [|by apply KeyWithCF_not_local]. by apply Hd.
Qed.
Lemma data_smaller kv r r' d : data_rel kv r d → (∀ key, in_region r' key → in_region r key) → data_rel kv r' d.
Proof. intros Hd Hin cf key Hcf Hk. by apply Hd, Hin. Qed.

(** ** Normal commands *)

(** A batch that has grown by [ws] since its safe point. *)
Definition grown (wb wb' : WriteBatch) (ws : list (bytes * bytes)) : Prop :=
  wb_entries wb' = wb_entries wb ++ ws ∧ safePoint wb' = safePoint wb.
Lemma grown_refl wb : grown wb wb [].
Proof. split; [by rewrite app_nil_r|done]. Qed.
Lemma grown_add wb wb' ws k v sz ssz : grown wb wb' ws → grown wb (mkWriteBatch (wb_entries wb' ++ [(k, v)]) sz (safePoint wb') ssz) (ws ++ [(k, v)]).
Proof. intros [E1 E2]. split; [|done]. cbn. by rewrite E1 app_assoc. Qed.

(** The families a command uses are the three known ones. *)
Definition request_cfs (req : Request) : Prop :=
  family (put_Cf (default (mkPutRequest "" [] []) (rq_Put req))) ∈ CFs ∧
  family (delete_Cf (default (mkDeleteRequest "" []) (rq_Delete req))) ∈ CFs.

(** The loop so far: the batch grown by [ws] holds the data [df.1]. *)
Record normal_rel (c : applyContext (D := D)) (s : rstate) (ns : normal_state (D := D)) (df : data * bool) (w r : bool) : Prop := {
  nr_ctx : ∃ wb ws, ns_ctx ns = set_ac_wb wb c ∧ grown (ac_wb c) wb ws ∧ commits s (set_s_data df.1 s) false ws;
  nr_err : bool_decide (is_Some (ns_err ns)) = df.2;
  nr_write : hasWrite ns = w;
  nr_read : hasRead ns = r
}.

Lemma commits_write s d ws cf key v :
  cf ∈ CFs → in_region (s_region s) key → commits s (set_s_data d s) false ws →
  commits s (set_s_data (data_put d cf key v) s) false (ws ++ [(engine_util.KeyWithCF cf key, v)]).
Proof.
  intros Hcf Hin [Hc Hf]. split.
  - intros kv Hk. rewrite foldl_app. cbn. exact (core_write _ (set_s_data d s) cf key v Hcf (Hc kv Hk)).
  - intros e [He| ->%list_elem_of_singleton]%elem_of_app; [by apply Hf|]. by apply foreign_data.
Qed.

Lemma exec_request_spec a c s ns df w r req :
  a_region a = s_region s → request_cfs req → normal_rel c s ns df w r →
  if is_invalid req then ∃ p, exec_request a ns req = Panic p
  else ∃ ns', exec_request a ns req = Ok ns' ∧ normal_rel c s ns' (spec_request (s_region s) df req) (w || is_write req) (r || is_read req).
Proof.
  intros Hr [Hp Hd] [(wb & ws & Ec & Hg & Hw) He <- <-]. unfold exec_request, is_invalid, is_write, is_read, spec_request, handleGet, handlePut, handleDelete.
  destruct df as [d f]. cbn [fst snd] in He, Hw.
  destruct (default (mkGetRequest _ _) _) as [gcf gkey], (default (mkPutRequest _ _ _) _) as [pcf pkey pv], (default (mkDeleteRequest _ _) _) as [dcf dkey].
  rewrite !CheckKeyInRegion_spec Hr.
  destruct (rq_CmdType req) eqn:T; cbn -[family]; [by eexists| | | |].
  - destruct (decide (in_region _ gkey)) as [Hi|Hi]; (eexists; split; [done|]; split; cbn; [eauto| |by rewrite orb_false_r|by rewrite orb_true_r]).
    + by rewrite bool_decide_eq_false_2; [|naive_solver].
    + by rewrite !bool_decide_eq_true_2.
  - destruct (decide (in_region _ pkey)) as [Hi|Hi]; (eexists; split; [done|]; split; cbn -[family]; [|done|by rewrite orb_true_r|by rewrite orb_false_r]); [|eauto].
    rewrite Ec. eexists _, _. split; [done|]. split; [by apply grown_add|]. by apply commits_write.
  - destruct (decide (in_region _ dkey)) as [Hi|Hi]; (eexists; split; [done|]; split; cbn -[family]; [|done|by rewrite orb_true_r|by rewrite orb_false_r]); [|eauto].
    rewrite Ec. eexists _, _. split; [done|]. split; [by apply grown_add|]. by apply (commits_write _ _ _ _ _ []).
  - eexists. split; [done|]. split; cbn; [eauto|done|by rewrite orb_false_r|by rewrite orb_true_r].
Qed.

Lemma exec_requests_spec a c s reqs ns df w r :
  a_region a = s_region s → Forall request_cfs reqs → normal_rel c s ns df w r →
  if existsb is_invalid reqs then ∃ p, exec_requests a ns reqs = Panic p
  else ∃ ns', exec_requests a ns reqs = Ok ns' ∧
    normal_rel c s ns' (foldl (spec_request (s_region s)) df reqs) (w || existsb is_write reqs) (r || existsb is_read reqs).
Proof.
  intros Hr Hcf. revert ns df w r. induction Hcf as [|req reqs Hq _ IH]; intros ns df w r Hn.
  - exists ns. split; [done|]. cbn. by rewrite !orb_false_r.
  - pose proof (exec_request_spec a c s ns df w r req Hr Hq Hn) as H. cbn. destruct (is_invalid req).
    + destruct H as [p ->]. by eexists.
    + destruct H as (ns' & -> & Hn'). cbn. specialize (IH _ _ _ _ Hn'). rewrite !orb_assoc. exact IH.
Qed.

(** ** Executing a command *)

Definition leaves (id : Z) (eff : effect) : bool := bool_decide (eff = PeerChange (Some id)).

Definition res_ok (s s' : rstate) (eff : effect) (res : option execResult) : Prop :=
  match eff with
  | Plain => res = None ∧ s_region s' = s_region s
  | PeerChange _ => ∃ cc p, res = Some (execResultChangePeer cc p (Some (s_region s')))
  | Reshaped =>
    (∃ rs, res = Some (execResultSplitRegion rs (s_region s'))) ∨
    (∃ ti fi, res = Some (execResultCompactLog ti fi)) ∧ s_region s' = s_region s
  end.

(** Executing a command of [s] and what the specification says of it. *)
Definition exec_sim (a : applier) (c : applyContext (D := D)) (s : rstate) (index term : Z)
    (spec : pure_outcome (option (rstate * effect))) (code : pure_outcome (applier * applyContext (D := D) * exec_ret (D := D))) : Prop :=
  match spec with
  | Ok None => ∃ wb ws ret err, code = Ok (a, set_ac_wb wb c, ret) ∧ er_err ret = Some err ∧ grown (ac_wb c) wb ws
  | Ok (Some (s', eff)) =>
    ∃ wb ws ret resp,
      code = Ok (set_pendingRemove (leaves (a_id a) eff) a, set_execCtx (Some (mkExecContext index term (s_apply s'))) (set_ac_wb wb c), ret) ∧
      er_err ret = None ∧ er_resp ret = Some resp ∧ res_ok s s' eff (er_result ret) ∧
      grown (ac_wb c) wb ws ∧ commits s s' (leaves (a_id a) eff) ws
  | Panic _ => ∃ p, code = Panic p
  | _ => False
  end.

(** Before a command is executed. *)
Record executing (a : applier) (c : applyContext (D := D)) (s : rstate) (index term : Z) : Prop := {
  xg_region : a_region a = s_region s;
  xg_stay : pendingRemove a = false;
  xg_ctx : execCtx c = Some (mkExecContext index term (s_apply s));
  xg_ok : rstate_ok s
}.

Lemma stays a : pendingRemove a = false → set_pendingRemove false a = a.
Proof. intros H. destruct a; cbn in *. by subst. Qed.
Lemma same_ctx (c : applyContext (D := D)) x : execCtx c = x → set_execCtx x c = c.
Proof. intros <-. by destruct c. Qed.
Lemma same_wb (c : applyContext (D := D)) : set_ac_wb (ac_wb c) c = c.
Proof. by destruct c. Qed.

Lemma execNormalCmd_spec a c s index term cmd :
  executing a c s index term → Forall request_cfs (rc_Requests cmd) →
  exec_sim a c s index term (spec_normal s (rc_Requests cmd) ≫= λ o : option rstate, Ok ((λ s, (s, Plain)) <$> o))
    (execNormalCmd a c cmd ≫= λ '(c, ret), Ok (a, c, ret)).
Proof.
  intros [Hr Hst Hx _] Hcf. unfold execNormalCmd, spec_normal.
  assert (H0 : normal_rel c s (mkNormalState c [] None None false false) (s_data s, false) false false).
  { split; [|done..]. exists (ac_wb c), []. rewrite same_wb. split; [done|]. split; [apply grown_refl|]. destruct s. apply commits_nil. }
  pose proof (exec_requests_spec a c s (rc_Requests cmd) _ _ _ _ Hr Hcf H0) as H. cbn [orb] in H.
  destruct (existsb is_invalid _); [destruct H as [p ->]; by eexists|]. cbn [orb].
  destruct H as (ns & -> & [(wb & ws & Ec & Hg & Hw) He <- <-]). cbn. destruct (hasWrite ns && hasRead ns); [by eexists|].
  destruct (foldl _ _ _) as [d f]. cbn in *. destruct f; cbn.
  - apply bool_decide_eq_true in He as [err He]. rewrite Ec. exists wb, ws. by eexists _, err.
  - apply bool_decide_eq_false, eq_None_not_Some in He. rewrite Ec. eexists wb, ws, _, _.
    rewrite (stays a Hst) (same_ctx (set_ac_wb wb c)) //.
Qed.

(** ** Admin commands *)

Lemma CloneMsg_region r : region_fits r → CloneMsg r = Some r.
Proof. intros H. by apply Unmarshal_Marshal, am_region. Qed.

Lemma FindPeer_RemovePeer r s :
  FindPeer r s = (RemovePeer r s).2 ∧ (RemovePeer r s).1 = set_Peers (remove_peer (metapb.Peers r) s).1 r.
Proof.
  unfold FindPeer, RemovePeer. split; [|by destruct (remove_peer _ _)].
  induction (metapb.Peers r) as [|p ps IH]; [done|]. rewrite filter_cons. cbn [remove_peer]. destruct (decide _); [done|].
  destruct (remove_peer ps s). exact IH.
Qed.

Lemma region_written kv s s' removed :
  kv_core kv s false → metapb.Id (s_region s') = metapb.Id (s_region s) → region_fits (s_region s') → data_rel kv (s_region s') (s_data s') →
  kv_core (write_entry kv (RegionStateKey (metapb.Id (s_region s')), Marshal (mkRegionLocalState (state_of removed) (Some (s_region s'))))) s' removed.
Proof.
  intros [Hok Hs Hd] Hid Hf Hd'. split; [by apply write_entry_ok| |by apply data_local].
  rewrite write_entry_get //. cbn [fst snd]. rewrite decide_True // decide_False //. by apply region_marshal.
Qed.

Lemma change_peers_spec a r ct peer :
  match spec_change r ct peer with
  | Some (r', o) => change_peers a (set_Epoch (metapb.mkRegionEpoch (u64 (metapb.ConfVer (metapb.Epoch r) + 1)) (metapb.Version (metapb.Epoch r))) r) ct peer
      = inl (r', if decide (o = Some (a_id a)) then true else pendingRemove a)
  | None => ∃ err, change_peers a (set_Epoch (metapb.mkRegionEpoch (u64 (metapb.ConfVer (metapb.Epoch r) + 1)) (metapb.Version (metapb.Epoch r))) r) ct peer = inr err
  end.
Proof.
  unfold spec_change, change_peers. set (r1 := set_Epoch _ r). assert (EF : FindPeer r1 (metapb.StoreId peer) = FindPeer r (metapb.StoreId peer)) by done.
  destruct (FindPeer_RemovePeer r1 (metapb.StoreId peer)) as [E1 E2]. rewrite EF in E1. rewrite EF. destruct ct.
  - destruct (FindPeer r _); [by eexists|done].
  - rewrite E1. destruct (RemovePeer r1 _) as [r2 [p|]]; cbn in *; [|by eexists].
    destruct (PeerEqual p peer); [|by eexists]. cbn. rewrite E2. f_equal. f_equal. destruct (decide _) as [->|Hne]; [by rewrite decide_True|].
    rewrite decide_False //. congruence.
Qed.

Lemma spec_change_fits r ct peer r' o :
  region_fits r → is_u64 (metapb.Peer_Id peer) ∧ is_u64 (metapb.StoreId peer) → spec_change r ct peer = Some (r', o) →
  region_fits r' ∧ metapb.Id r' = metapb.Id r ∧ metapb.StartKey r' = metapb.StartKey r ∧ metapb.EndKey r' = metapb.EndKey r.
Proof.
  intros (Hid & Hcv & Hv & Hps) Hp. unfold spec_change, region_fits. pose proof (remove_peer_spec (metapb.Peers r) (metapb.StoreId peer)) as Hrm.
  destruct ct, (FindPeer r _) as [p|]; [done| | |done].
  - intros [= <- <-]. cbn. split_and!; try done; [apply u64_range|]. apply Forall_app. split; [done|by constructor].
  - destruct (PeerEqual p peer); [|done]. intros [= <- <-]. cbn. split_and!; try done; [apply u64_range|].
    destruct (remove_peer _ _) as [ps' [q|]]; [|destruct Hrm as [-> _]; done].
    destruct Hrm as (_ & a & b & Ep & -> & _). rewrite Ep in Hps. apply Forall_app in Hps as [? [_ ?]%Forall_cons]. by apply Forall_app.
Qed.

Lemma leaves_change id o : leaves id (PeerChange o) = if decide (o = Some id) then true else false.
Proof. unfold leaves. destruct (decide _) as [->|H]; [by apply bool_decide_eq_true|]. apply bool_decide_eq_false. congruence. Qed.

Lemma grown_meta wb k v : grown wb (wb_add wb k v) [(k, v)].
Proof. by split. Qed.

Lemma execChangePeer_spec a c s index term req cmd :
  executing a c s index term → cmd_fits cmd → rc_AdminRequest cmd = Some req → ar_CmdType req = AdminCmdType_ChangePeer →
  exec_sim a c s index term (spec_admin s req) (execAdminCmd a c req).
Proof.
  intros [Hr Hst Hx Hok] Hf Hreq Ht. unfold spec_admin, execAdminCmd, execChangePeer. rewrite Ht.
  destruct (ar_ChangePeer req) as [cp|] eqn:Ecp; [|by eexists]. cbn. destruct (cp_Peer cp) as [peer|] eqn:Ep; [|by eexists]. cbn.
  destruct (Hf _ Hreq) as (Hfp & _). specialize (Hfp _ _ Ecp Ep). rewrite CloneMsg_region; [|rewrite Hr; apply Hok]. rewrite Hr.
  pose proof (change_peers_spec a (s_region s) (cp_ChangeType cp) peer) as H.
  pose proof (spec_change_fits (s_region s) (cp_ChangeType cp) peer) as Hfit.
  destruct (spec_change _ _ _) as [[r' o]|]; cbn.
  - destruct (Hfit r' o (ro_region _ Hok) Hfp eq_refl) as (Hfr & Hid & Hsk & Hek). rewrite H. cbn. rewrite Hst leaves_change.
    eexists _, _, _, _. split; [by rewrite (same_ctx (set_ac_wb _ c))|]. cbn.
    split_and!; [done|done|by eexists _, _|apply grown_meta|].
    split.
    + intros kv Hkv. cbn. eapply (region_written kv s (set_s_region r' s)); [done|done|done|].
      eapply data_smaller; [apply Hkv|]. unfold in_region. cbn. by rewrite Hsk Hek.
    + intros e ->%list_elem_of_singleton. cbn. rewrite Hid. apply foreign_state; apply Hok.
  - destruct H as [err ->]. cbn. exists (ac_wb c), []. rewrite same_wb. eexists _, err. split_and!; [done|done|apply grown_refl].
Qed.

Lemma check_split_spec r sp : check_split r r sp = None ↔ can_split r sp.
Proof.
  unfold check_split, can_split. rewrite CheckKeyInRegion_spec. unfold zlen.
  destruct (decide (SplitKey sp = [])) as [E|E].
  { rewrite E. split; [done|]. intros [H _]. by destruct (metapb.StartKey r). }
  destruct (bleb (SplitKey sp) (metapb.StartKey r)) eqn:B.
  { apply bleb_spec, ble_not_blt in B. split; [done|]. intros (? & _). done. }
  assert (blt (metapb.StartKey r) (SplitKey sp)) by (apply blt_not_ble; rewrite -bleb_spec B; done).
  destruct (decide (Z.of_nat _ ≠ _)) as [L|L]; [split; [done|]; intros (_ & _ & H'); by rewrite H' in L|].
  destruct (decide (in_region _ _)); [|split; [done|]; by intros (_ & ? & _)]. split; [|done]. intros _. split_and!; [done|done|lia].
Qed.

(** The part above the split key. *)
Lemma split_derived r sp :
  can_split r sp → let r' := (split_regions r sp).2 in
  metapb.Id r' = metapb.Id r ∧ metapb.EndKey r' = metapb.EndKey r ∧ ∀ key, in_region r' key → in_region r key.
Proof.
  intros (Hlt & Hin & _). cbn. split_and!; [done|done|]. intros key [H1 H2]. cbn in *. split; [|done].
  eapply ble_trans; [apply blt_ble, Hlt|done].
Qed.
Lemma split_fits r sp :
  region_fits r → is_u64 (NewRegionId sp) ∧ Forall is_u64 (NewPeerIds sp) → region_fits (split_regions r sp).1 ∧ region_fits (split_regions r sp).2.
Proof.
  intros (Hid & Hcv & Hv & Hps) [Hn Hids]. unfold region_fits. cbn. pose proof (u64_range (metapb.Version (metapb.Epoch r) + 1)).
  split_and!; try done. apply Forall_lookup. intros i p (id & q & -> & Hi & Hq)%lookup_zip_with_Some. cbn.
  rewrite !Forall_lookup in Hids, Hps. split; [by eapply Hids|by apply (Hps i q)].
Qed.

(** A split does not name one of the other regions. *)
Definition cmd_fresh (cmd : RaftCmdRequest) : Prop :=
  ∀ a sp, rc_AdminRequest cmd = Some a → ar_Split a = Some sp → NewRegionId sp ∉ others.

Lemma execSplit_spec a c s index term req cmd :
  executing a c s index term → cmd_fits cmd → cmd_fresh cmd → rc_AdminRequest cmd = Some req → ar_CmdType req = AdminCmdType_Split →
  exec_sim a c s index term (spec_admin s req) (execAdminCmd a c req).
Proof.
  intros [Hr Hst Hx Hok] Hf Hfresh Hreq Ht. unfold spec_admin, execAdminCmd, execSplit. rewrite Ht CloneMsg_region Hr; [|apply Hok].
  destruct (ar_Split req) as [sp|] eqn:Esp; [|by eexists]. destruct (Hf _ Hreq) as (_ & Hfs & _). specialize (Hfs _ Esp).
  pose proof (check_split_spec (s_region s) sp) as H. destruct (decide (can_split _ _)) as [Hc|Hc].
  - rewrite (proj2 H Hc). destruct (split_derived _ _ Hc) as (Hid & _ & Hin). destruct (split_fits _ _ (ro_region _ Hok) Hfs) as [_ Hfit].
    assert (Hnid : metapb.Id (split_regions (s_region s) sp).1 = NewRegionId sp) by done.
    destruct (split_regions _ _) as [nr dr]. cbn in *. eexists _, _, _, _. split; [by rewrite (stays a Hst) (same_ctx (set_ac_wb _ c))|]. cbn.
    split_and!; [done|done|left; by eexists|split; [cbn; rewrite -!app_assoc; reflexivity|done]|].
    split.
    + intros kv Hkv. cbn. set (kv2 := write_entry (write_entry kv _) _).
      assert (Hok2 : db_ok kv2) by (apply write_entry_ok, write_entry_ok, Hkv).
      assert (Hd2 : data_rel kv2 (s_region s) (s_data s)) by (apply data_local, data_local, Hkv; [apply write_entry_ok|]; apply Hkv).
      split; cbn; [by apply write_entry_ok| |by apply data_local; [|eapply data_smaller]].
      rewrite write_entry_get //. cbn [fst snd]. rewrite decide_True // decide_False //. by apply region_marshal.
    + destruct (foreign_state s (NewRegionId sp)) as [Hn1 Hn2]; [apply Hfs|by eapply Hfresh|].
      destruct (foreign_state s (metapb.Id (s_region s))) as [Ho _]; [apply Hok..|].
      intros e [->|[->|[->|[]%not_elem_of_nil]%elem_of_cons]%elem_of_cons]%elem_of_cons; cbn; [by rewrite Hnid|by rewrite Hnid|by rewrite Hid].
  - destruct (check_split _ _ _) as [err|]; [|tauto]. cbn. exists (ac_wb c), []. rewrite same_wb. eexists _, err. split_and!; [done|done|apply grown_refl].
Qed.

Lemma execCompactLog_spec a c s index term req :
  executing a c s index term → ar_CmdType req = AdminCmdType_CompactLog → exec_sim a c s index term (spec_admin s req) (execAdminCmd a c req).
Proof.
  intros [Hr Hst Hx Hok] Ht. unfold spec_admin, execAdminCmd, execCompactLog, can_compact. rewrite Ht Hx.
  destruct (ar_CompactLog req) as [[ci ct]|]; [|by eexists]. destruct (TruncatedState (s_apply s)) as [tr|]; [|by eexists]. cbn.
  destruct (decide (ci ≤ u64 (tr_Index tr + 1))) as [Hfi|Hfi]; [|destruct (decide (ct = 0)) as [Hct|Hct]; [|destruct (decide (_ ∨ _)) as [Hap|Hap]]].
  1, 3: rewrite !decide_False; [|lia..]; cbn; eexists (ac_wb c), [], _, _; rewrite same_wb (stays a Hst) same_ctx //;
    split; [reflexivity|]; (split_and!; try done; [apply grown_refl|apply commits_nil]).
  - rewrite decide_True; [|lia]. cbn. exists (ac_wb c), []. rewrite same_wb. eexists _, _. split_and!; [done|done|apply grown_refl].
  - rewrite decide_False; [|lia]. rewrite decide_True; [|lia]. cbn. eexists (ac_wb c), [], _, _. rewrite same_wb (stays a Hst). split; [reflexivity|]. cbn.
    split_and!; [done|done|right; split; [by eexists _, _|done]|apply grown_refl|by apply (commits_same s s); [| |apply commits_nil]].
Qed.

Definition cmd_cfs (cmd : RaftCmdRequest) : Prop := Forall request_cfs (rc_Requests cmd).

Lemma execRaftCmd_spec a c s index term cmd :
  executing a c s index term → cmd_fits cmd → cmd_fresh cmd → cmd_cfs cmd → exec_sim a c s index term (spec_exec s cmd) (execRaftCmd a c cmd).
Proof.
  intros Hx Hf Hfr Hcf. unfold spec_exec, execRaftCmd. rewrite (xg_region _ _ _ _ _ Hx).
  destruct (CheckRegionEpoch _ _ _) as [err|].
  { cbn. exists (ac_wb c), []. rewrite same_wb. eexists _, err. split_and!; [done|done|apply grown_refl]. }
  destruct (rc_AdminRequest cmd) as [req|] eqn:Ereq; [|by apply execNormalCmd_spec].
  destruct (ar_CmdType req) eqn:T.
  - unfold execAdminCmd, spec_admin. rewrite T. cbn. exists (ac_wb c), []. rewrite same_wb. eexists _, _. split_and!; [done|done|apply grown_refl].
  - by eapply execChangePeer_spec.
  - by eapply execCompactLog_spec.
  - unfold execAdminCmd, spec_admin. rewrite T. cbn. exists (ac_wb c), []. rewrite same_wb. eexists _, _. split_and!; [done|done|apply grown_refl].
  - by eapply execSplit_spec.
Qed.

(** The specification keeps its state well-formed, and the region its id. *)
Lemma spec_exec_ok s cmd s' eff :
  rstate_ok s → cmd_fits cmd → spec_exec s cmd = Ok (Some (s', eff)) →
  rstate_ok s' ∧ metapb.Id (s_region s') = metapb.Id (s_region s) ∧ AppliedIndex (s_apply s') = AppliedIndex (s_apply s).
Proof.
  intros Hok Hf. pose proof Hok as [Hown Hreg Hap Htr]. unfold spec_exec. destruct (CheckRegionEpoch _ _ _); [done|].
  destruct (rc_AdminRequest cmd) as [req|] eqn:Ereq.
  - destruct (Hf _ Ereq) as (Hfp & Hfs & Hfc). unfold spec_admin. destruct (ar_CmdType req); try done.
    + destruct (ar_ChangePeer req) as [cp|]; [|done]. cbn. destruct (cp_Peer cp) as [peer|] eqn:Ep; [|done]. cbn.
      destruct (spec_change _ _ _) as [[r' o]|] eqn:Ec; [|done]. intros [= <- <-].
      destruct (spec_change_fits _ _ _ _ _ Hreg (Hfp _ _ eq_refl Ep) Ec) as (? & Hid & _). split_and!; [|done|done]. split; cbn; [by rewrite Hid|done..].
    + destruct (ar_CompactLog req) as [cl|]; [|done]. destruct (TruncatedState (s_apply s)) as [tr|] eqn:Etr; [|done].
      destruct (decide _); [done|]. destruct (decide _); intros [= <- <-]; (split_and!; [|done|done]); [|done].
      split; [done|done|done|]. exists (mkRaftTruncatedState (CompactIndex cl) (CompactTerm cl)). split; [done|]. by apply Hfc.
    + destruct (ar_Split req) as [sp|]; [|done]. destruct (decide _); [|done]. intros [= <- <-].
      destruct (split_fits _ _ Hreg (Hfs _ eq_refl)) as [_ ?]. by split_and!.
  - unfold spec_normal. destruct (_ || _); [done|]. destruct (foldl _ _ _) as [d []]; [done|]. intros [= <- <-]. by split_and!.
Qed.

(** The region keeps its id, and its range does not grow. *)
Definition shrinks (r r' : metapb.Region) : Prop := metapb.Id r' = metapb.Id r ∧ ∀ key, in_region r' key → in_region r key.
Lemma spec_exec_shrinks s cmd s' eff : spec_exec s cmd = Ok (Some (s', eff)) → shrinks (s_region s) (s_region s').
Proof.
  unfold spec_exec. destruct (CheckRegionEpoch _ _ _); [done|]. destruct (rc_AdminRequest cmd) as [req|].
  - unfold spec_admin. destruct (ar_CmdType req); try done.
    + destruct (ar_ChangePeer req) as [cp|]; [|done]. cbn. destruct (cp_Peer cp) as [peer|]; [|done]. cbn. unfold spec_change.
      destruct (cp_ChangeType cp), (FindPeer _ _) as [p|]; try done; [by intros [= <- <-]|]. destruct (PeerEqual p peer); [|done]. by intros [= <- <-].
    + destruct (ar_CompactLog req) as [cl|]; [|done]. destruct (TruncatedState (s_apply s)); [|done]. destruct (decide _); [done|]. by destruct (decide _); intros [= <- <-].
    + destruct (ar_Split req) as [sp|]; [|done]. destruct (decide _) as [Hc|]; [|done]. intros [= <- <-]. by destruct (split_derived _ _ Hc) as (? & _ & ?).
  - unfold spec_normal. destruct (_ || _); [done|]. destruct (foldl _ _ _) as [d []]; [done|]. by intros [= <- <-].
Qed.

(** ** Applying a command *)

(** What applying an entry has changed before it is committed. *)
Record applied_rel (a : applier) (c : applyContext (D := D)) (s : rstate) (a' : applier) (c' : applyContext (D := D)) (s' : rstate) (eff : effect) : Prop := {
  al_region : a_region a' = s_region s';
  al_state : a_applyState a' = s_apply s';
  al_leaves : pendingRemove a' = leaves (a_id a) eff;
  al_id : a_id a' = a_id a;
  al_Kv : ac_Kv c' = ac_Kv c;
  al_last : lastAppliedIndex c' = lastAppliedIndex c;
  al_cbs : ac_cbs c ≠ [] → ac_cbs c' ≠ [];
  al_wb : ∃ ws, wb_entries (ac_wb c') = wb_entries (ac_wb c) ++ ws ∧ commits s s' (leaves (a_id a) eff) ws
}.

Lemma Rollback_grown {E} wb wb' ws :
  grown (SetSafePoint wb) wb' ws → ∃ wb2, RollbackToSafePoint (E := E) wb' = Ok wb2 ∧ wb_entries wb2 = wb_entries wb.
Proof.
  intros [E1 E2]. unfold RollbackToSafePoint. rewrite E1 E2. cbn. rewrite go_slice_first. by eexists.
Qed.

Lemma applyRaftCmd_spec a c s index term cmd :
  a_region a = s_region s → a_applyState a = s_apply s → pendingRemove a = false → rstate_ok s → cmd_fits cmd → cmd_fresh cmd → cmd_cfs cmd →
  match spec_cmd s index cmd with
  | Ok (s', eff) => ∃ a' c' resp txn res, applyRaftCmd a c index term cmd = Ok (a', c', (Some resp, txn, res)) ∧
      applied_rel a c s a' c' s' eff ∧ res_ok s s' eff res
  | Panic _ => ∃ p, applyRaftCmd a c index term cmd = Panic p
  | _ => False
  end.
Proof.
  intros Hr Hs Hst Hok Hf Hfr Hcf. unfold spec_cmd, applyRaftCmd. rewrite Hst. set (c1 := set_ac_wb _ (set_execCtx _ c)).
  assert (Hx : executing a c1 s index term) by (split; cbn; [done|done|by rewrite /newCtx Hs|done]).
  pose proof (execRaftCmd_spec a c1 s index term cmd Hx Hf Hfr Hcf) as H. pose proof (spec_exec_ok s cmd) as Hsok.
  destruct (spec_exec s cmd) as [[[s' eff]|]| | |]; cbn in H |- *; try done.
  - destruct H as (wb & ws & ret & resp & -> & He & Hresp & Hres & Hg & Hc). cbn. rewrite He. cbn. rewrite Hresp.
    assert (Hal : applied_rel a c s (set_a_region (s_region s') (set_AppliedIndex index (set_a_applyState (s_apply s') (set_pendingRemove (leaves (a_id a) eff) a))))
      (set_execCtx None (set_execCtx (Some (mkExecContext index term (s_apply s'))) (set_ac_wb wb c1))) (applied_to index s') eff).
    { split; cbn; try done. exists ws. split; [apply Hg|]. by apply (commits_same s s'). }
    destruct eff; cbn in Hres.
    + destruct Hres as [-> Hre]. eexists _, _, _, _, _. split; [done|]. split; [|done]. destruct Hal. split; try done. cbn. by rewrite Hre -Hr.
    + destruct Hres as (cc & p & ->). eexists _, _, _, _, _. split; [done|]. split; [done|]. by eexists _, _.
    + destruct Hres as [(rs & ->)|[(ti & fi & ->) Hre]].
      * eexists _, _, _, _, _. split; [done|]. split; [done|]. left. by eexists.
      * eexists _, _, _, _, _. split; [done|]. split; [|right; split; [by eexists _, _|done]]. destruct Hal. split; try done. cbn. by rewrite Hre -Hr.
  - destruct H as (wb & ws & ret & err & -> & He & Hg). cbn. rewrite He. cbn.
    destruct (Rollback_grown (E := Empty_set) _ _ _ Hg) as (wb2 & -> & Ewb). cbn.
    eexists _, _, _, _, _. split; [done|]. split; [|done]. split; cbn; try done; [by rewrite /newCtx Hs|].
    exists []. rewrite app_nil_r. split; [done|]. by apply (commits_same s s); [| |apply commits_nil].
  - destruct H as [p ->]. by eexists.
Qed.

(** ** Callbacks do not matter *)

(** The parts of the context an entry is applied with are the same. *)
Record ctx_same (c c' : applyContext (D := D)) : Prop := {
  cs_Kv : ac_Kv c' = ac_Kv c;
  cs_wb : ac_wb c' = ac_wb c;
  cs_last : lastAppliedIndex c' = lastAppliedIndex c;
  cs_cbs : ac_cbs c ≠ [] → ac_cbs c' ≠ []
}.
Lemma ctx_same_trans c1 c2 c3 : ctx_same c1 c2 → ctx_same c2 c3 → ctx_same c1 c3.
Proof. intros [? ? ? ?] [? ? ? ?]. split; [congruence..|auto]. Qed.

Lemma push_last_ok c cb resp txn : ac_cbs c ≠ [] → ∃ c', push_last c cb resp txn = Ok c' ∧ ctx_same c c'.
Proof.
  intros Hne. unfold push_last. destruct (last (ac_cbs c)) eqn:E; [|by apply last_None in E].
  eexists. split; [done|]. split; cbn; [done..|]. intros _ H. by apply app_eq_nil in H as [_ H].
Qed.

Lemma findCallback_applier a (h : gmap Z (Callback (D := D))) index term b :
  ∃ cb q h', findCallback a h index term b = (cb, set_pendingCmds q a, h').
Proof.
  unfold findCallback, takeConfChange. destruct b.
  - destruct (confChange (pendingCmds a)); [case_decide|]; eauto.
  - destruct (find_normal _ _ _ _) as [[cb rest] h']. eauto.
Qed.

Lemma pop_stale_ok bound term cmds c : ac_cbs c ≠ [] → ∃ rest c', pop_stale bound term cmds c = Ok (rest, c') ∧ ctx_same c c'.
Proof.
  revert c. induction cmds as [|cmd cmds IH]; intros c Hne; cbn; [by eexists _, _|]. case_decide; [by eexists _, _|].
  destruct (push_last_ok c (pc_cb cmd) (ErrRespStaleCommand term) None Hne) as (c1 & -> & Hs). cbn.
  destruct (IH c1) as (rest & c2 & -> & Hs2); [by apply Hs|]. eexists _, _. split; [done|]. by eapply ctx_same_trans.
Qed.

Lemma applied_rel_same a c s a' c' s' eff c'' q :
  applied_rel a c s a' c' s' eff → ctx_same c' c'' → applied_rel a c s (set_pendingCmds q a') c'' s' eff.
Proof. intros [? ? ? ? ? ? ? ?] [? Ewb ? ?]. split; cbn; [done|done|done|done|congruence|congruence|auto|by rewrite Ewb]. Qed.

(** ** Entries *)

Record entry_ok (e : Entry) : Prop := {
  eo_index : 1 ≤ e_Index e < two64;
  eo_normal cmd : e_Type e = EntryNormal → Unmarshal (default [] (e_Data e)) = Some cmd → cmd_fresh cmd ∧ cmd_cfs cmd;
  eo_conf cc cmd : e_Type e = EntryConfChange → Unmarshal (A := ConfChange) (default [] (e_Data e)) = Some cc →
    Unmarshal (default [] (cc_Context cc)) = Some cmd → cmd_fresh cmd ∧ cmd_cfs cmd
}.

Lemma processRaftCmd_spec a c s index term cmd :
  a_region a = s_region s → a_applyState a = s_apply s → pendingRemove a = false → rstate_ok s → cmd_fits cmd → cmd_fresh cmd → cmd_cfs cmd →
  index ≠ 0 → ac_cbs c ≠ [] →
  match spec_cmd s index cmd with
  | Ok (s', eff) => ∃ a' c' res, processRaftCmd a c index term cmd = Ok (a', c', res) ∧ applied_rel a c s a' c' s' eff ∧ res_ok s s' eff res
  | Panic _ => ∃ p, processRaftCmd a c index term cmd = Panic p
  | _ => False
  end.
Proof.
  intros Hr Hs Hst Hok Hf Hfr Hcf Hi Hne. unfold processRaftCmd. rewrite decide_False //.
  pose proof (applyRaftCmd_spec a c s index term cmd Hr Hs Hst Hok Hf Hfr Hcf) as H. destruct (spec_cmd s index cmd) as [[s' eff]| | |]; try done.
  - destruct H as (a' & c' & resp & txn & res & -> & Hal & Hres). cbn.
    destruct (findCallback_applier a' (ac_heap c') index term (bool_decide (is_Some (GetChangePeerCmd cmd)))) as (cb & q & h & ->).
    destruct (push_last_ok (set_ac_heap h c') cb (BindRespTerm resp term) txn) as (c'' & -> & Hsame); [by apply (al_cbs _ _ _ _ _ _ _ Hal)|].
    cbn. eexists _, _, _. split; [done|]. split; [|done]. eapply applied_rel_same; [done|]. destruct Hsame. by split.
  - destruct H as [p ->]. by eexists.
Qed.

(** The state of the applier while it applies entries. *)
Record ready (a : applier) (c : applyContext (D := D)) (s : rstate) (removed : bool) : Prop := {
  rd_region : a_region a = s_region s;
  rd_state : a_applyState a = s_apply s;
  rd_removed : pendingRemove a = removed;
  rd_kv : kv_core (ac_Kv c) s removed;
  rd_apply : db_get (ac_Kv c) (ApplyStateKey (metapb.Id (s_region s))) = Some (Marshal (s_apply s));
  rd_neutral : neutral (ac_Kv c) (wb_entries (ac_wb c));
  rd_last : lastAppliedIndex c = AppliedIndex (s_apply s);
  rd_cbs : ac_cbs c ≠ [];
  rd_ok : rstate_ok s
}.

Definition handle_entry (a : applier) (c : applyContext (D := D)) (e : Entry) : pure_outcome (applier * applyContext (D := D) * option execResult) :=
  match e_Type e with EntryNormal => handleRaftEntryNormal a c e | EntryConfChange => handleRaftEntryConfChange a c e end.

Lemma spec_cmd_ok s index cmd s' eff :
  rstate_ok s → cmd_fits cmd → is_u64 index → spec_cmd s index cmd = Ok (s', eff) →
  rstate_ok s' ∧ metapb.Id (s_region s') = metapb.Id (s_region s) ∧ AppliedIndex (s_apply s') = index.
Proof.
  intros Hok Hf Hi. unfold spec_cmd. pose proof (spec_exec_ok s cmd) as H. destruct (spec_exec s cmd) as [[[s1 eff1]|]| | |]; cbn; try done; intros [= <- <-].
  - destruct (H s1 eff1 Hok Hf eq_refl) as ([? ? ? ?] & ? & _). by split_and!.
  - destruct Hok. by split_and!.
Qed.

Lemma applied_empty a c s q c' index :
  a_region a = s_region s → a_applyState a = s_apply s → pendingRemove a = false → ctx_same c c' →
  applied_rel a c s (set_pendingCmds q (set_AppliedIndex index a)) c' (applied_to index s) Plain.
Proof.
  intros Hr Hs Hst [? Ewb ? ?]. split; cbn; [done|by rewrite Hs|done|done|done|done|done|]. exists []. rewrite app_nil_r Ewb. split; [done|].
  by apply (commits_same s s); [| |apply commits_nil].
Qed.

Lemma handle_entry_spec a c s e :
  ready a c s false → entry_ok e → e_Index e = AppliedIndex (s_apply s) + 1 → is_u64 (e_Index e) →
  match spec_entry s e with
  | Ok (s', eff) => ∃ a' c' res, handle_entry a c e = Ok (a', c', res) ∧ applied_rel a c s a' c' s' eff ∧
      rstate_ok s' ∧ metapb.Id (s_region s') = metapb.Id (s_region s) ∧ AppliedIndex (s_apply s') = e_Index e
  | Panic _ => ∃ p, handle_entry a c e = Panic p
  | _ => False
  end.
Proof.
  intros [Hr Hs Hst _ _ _ _ Hne Hok] [_ Hen Hec] Hi Hu. pose proof (ro_applied _ Hok) as [Ha _].
  unfold spec_entry, handle_entry. rewrite -Hi u64_small //. rewrite decide_False; [|by intros []]. assert (Hi0 : e_Index e ≠ 0) by lia.
  destruct (e_Type e).
  - unfold handleRaftEntryNormal. destruct (e_Data e) as [[|b bs]|]; cbn [from_option id].
    2: { destruct (decide (0 < zlen (b :: bs))) as [_|Hz]; [|rewrite zlen_cons in Hz; pose proof (zlen_nonneg bs); lia]. cbn [from_option id] in Hen.
      destruct (Unmarshal (b :: bs)) as [cmd|] eqn:Eu; [|by eexists]. destruct (Hen cmd eq_refl eq_refl) as [Hfr Hcf].
      pose proof (processRaftCmd_spec a c s (e_Index e) (e_Term e) cmd Hr Hs Hst Hok (am_cmd _ _ Eu) Hfr Hcf Hi0 Hne) as H.
      pose proof (spec_cmd_ok s (e_Index e) cmd) as Hsok.
      destruct (spec_cmd _ _ _) as [[s' eff]| | |]; try done. destruct H as (a' & c' & res & -> & Hal & _).
      destruct (Hsok s' eff Hok (am_cmd _ _ Eu) Hu eq_refl). by eexists _, _, _. }
    all: cbn; destruct (decide (e_Term e ≤ 0)); [by eexists|];
      destruct (pop_stale_ok (e_Term e - 1) (e_Term e) (normals (pendingCmds a)) c Hne) as (rest & c' & -> & Hsame); cbn;
      eexists _, _, _; (split; [done|]); (split; [by apply applied_empty|]); destruct Hok; by split_and!.
  - unfold handleRaftEntryConfChange. destruct (Unmarshal (A := ConfChange) _) as [cc|] eqn:Ecc; [|by eexists].
    destruct (Unmarshal (A := RaftCmdRequest) (default [] (cc_Context cc))) as [cmd|] eqn:Eu; [|by eexists]. destruct (Hec cc cmd eq_refl eq_refl Eu) as [Hfr Hcf].
    pose proof (processRaftCmd_spec a c s (e_Index e) (e_Term e) cmd Hr Hs Hst Hok (am_cmd _ _ Eu) Hfr Hcf Hi0 Hne) as H.
    pose proof (spec_cmd_ok s (e_Index e) cmd) as Hsok.
    destruct (spec_cmd _ _ _) as [[s' eff]| | |]; try done; cbn; [|destruct H as [p ->]; by eexists].
    destruct H as (a' & c' & res & -> & Hal & Hres). destruct (Hsok s' eff Hok (am_cmd _ _ Eu) Hu eq_refl). cbn. destruct eff; cbn in Hres |- *.
    + destruct Hres as [-> _]. by eexists _, _, _.
    + destruct Hres as (cc' & p & ->). by eexists _, _, _.
    + destruct Hres as [(rs & ->)|[(ti & fi & ->) _]]; by eexists.
Qed.

(** ** Committing *)

Lemma core_apply kv s removed v :
  kv_core kv s removed → kv_core (write_entry kv (ApplyStateKey (metapb.Id (s_region s)), v)) s removed.
Proof.
  intros [Hok Hs Hd]. split; [by apply write_entry_ok| |by apply data_local]. rewrite write_entry_get // decide_False //.
Qed.

Lemma GetApplyState_holds kv s :
  rstate_ok s → db_get kv (ApplyStateKey (metapb.Id (s_region s))) = Some (Marshal (s_apply s)) →
  GetApplyState kv (metapb.Id (s_region s)) = Ok (s_apply s).
Proof. intros Hok Hg. unfold GetApplyState. apply GetMeta_Marshal; [done|]. by apply apply_marshal. Qed.

(** What holds of a region between two tasks. *)
Record holds (a : applier) (c : applyContext (D := D)) (s : rstate) (removed : bool) : Prop := {
  hd_region : a_region a = s_region s;
  hd_removed : pendingRemove a = removed;
  hd_kv : kv_core (ac_Kv c) s removed;
  hd_apply : db_get (ac_Kv c) (ApplyStateKey (metapb.Id (s_region s))) = Some (Marshal (s_apply s));
  hd_neutral : neutral (ac_Kv c) (wb_entries (ac_wb c));
  hd_ok : rstate_ok s
}.
Lemma ready_holds a c s removed : ready a c s removed → holds a c s removed.
Proof. by intros []. Qed.

Lemma prepareFor_spec a c s removed :
  holds a c s removed → ∃ c' a', prepareFor c a = Ok (c', a') ∧ ready a' c' s removed ∧ a_id a' = a_id a ∧ ac_Kv c' = ac_Kv c.
Proof.
  intros [Hr Hrm Hkv Hap Hn Hok]. unfold prepareFor. cbn. rewrite Hr (GetApplyState_holds _ _ Hok Hap). eexists _, _. split; [done|].
  split; [|done]. split; cbn; try done. intros H. by apply app_eq_nil in H as [_ H].
Qed.

(** The keys of the others are as they were. *)
Definition untouched (s : rstate) (c c' : applyContext (D := D)) : Prop :=
  ∀ k, foreign s k → db_get (ac_Kv c') k = db_get (ac_Kv c) k.

Lemma commit_spec a c s a' c' s' eff :
  ready a c s false → applied_rel a c s a' c' s' eff → rstate_ok s' → metapb.Id (s_region s') = metapb.Id (s_region s) →
  AppliedIndex (s_apply s) < AppliedIndex (s_apply s') →
  ∃ c'' a'', ac_commit c' a' = Ok (c'', a'') ∧ ready a'' c'' s' (leaves (a_id a) eff) ∧ a_id a'' = a_id a ∧ untouched s c c''.
Proof.
  intros Hrd Hal Hok' Hid Hlt. pose proof (rd_ok _ _ _ _ Hrd) as Hok. destruct (al_wb _ _ _ _ _ _ _ Hal) as (ws & Ews & Hc).
  destruct (apply_marshal _ Hok') as [_ Hm]. pose proof (kc_ok _ _ _ (rd_kv _ _ _ _ Hrd)) as Hdb.
  unfold ac_commit, commitOpt. rewrite (al_last _ _ _ _ _ _ _ Hal) (rd_last _ _ _ _ Hrd) (al_state _ _ _ _ _ _ _ Hal) decide_True //.
  set (c2 := writeToDB _).
  set (kv1 := foldl write_entry (ac_Kv c) (wb_entries (ac_wb c))). set (kv2 := foldl write_entry kv1 ws).
  assert (Hg1 : ∀ k, db_get kv1 k = db_get (ac_Kv c) k) by (intros k; apply neutral_get; [done|apply Hrd]).
  assert (H1 : kv_core kv1 s false) by (eapply kv_core_get; [apply Hrd|by apply foldl_write_ok|done]).
  pose proof (cm_core _ _ _ _ Hc _ H1 : kv_core kv2 _ _) as H2.
  assert (E2 : ac_Kv c2 = write_entry kv2 (ApplyStateKey (metapb.Id (s_region s')), Marshal (s_apply s'))).
  { subst c2. cbn. unfold WriteToDB. cbn. rewrite (al_region _ _ _ _ _ _ _ Hal) (al_state _ _ _ _ _ _ _ Hal).
    pose proof (al_Kv _ _ _ _ _ _ _ Hal) as EK. unfold kv2, kv1, ac_Kv in *. cbn. by rewrite EK Ews !foldl_app. }
  assert (Hh : holds a' c2 s' (leaves (a_id a) eff)).
  { split; [apply Hal|apply Hal| | |by constructor|done].
    - rewrite E2. by apply core_apply.
    - rewrite E2 write_entry_get; [|apply H2]. cbn [fst snd]. by rewrite decide_True // decide_False. }
  destruct (prepareFor_spec _ _ _ _ Hh) as (c3 & a3 & Ep & Hr3 & Hi3 & Hk3). exists c3, a3. split; [done|]. split; [done|].
  split; [rewrite Hi3; apply Hal|]. intros k Hk. rewrite Hk3 E2 write_entry_get; [|apply H2]. cbn [fst].
  destruct (foreign_state s (metapb.Id (s_region s))) as [_ Hf]; [apply Hok..|]. rewrite decide_False; [|intros ->; rewrite Hid in Hk; done].
  unfold kv2. rewrite foldl_write_other; [apply Hg1|apply H1|]. intros e He E. rewrite -E in Hk. by apply (cm_frame _ _ _ _ Hc _ He).
Qed.

(** ** The loop *)

Lemma spec_entry_shrinks s e s' eff : spec_entry s e = Ok (s', eff) → shrinks (s_region s) (s_region s').
Proof.
  assert (Hcmd : ∀ index cmd, spec_cmd s index cmd = Ok (s', eff) → shrinks (s_region s) (s_region s')).
  { intros index cmd. unfold spec_cmd. destruct (spec_exec s cmd) as [[[s1 eff1]|]| | |] eqn:E; cbn; try done; intros [= <- <-]; [|done].
    exact (spec_exec_shrinks _ _ _ _ E). }
  unfold spec_entry. destruct (decide _); [done|]. intros H. destruct (e_Type e).
  - destruct (e_Data e) as [[|b bs]|]; [|destruct (Unmarshal (b :: bs)) as [cmd|]; [|done]; by eapply Hcmd|];
      (destruct (decide (e_Term e ≤ 0)); [done|]); by injection H as <- <-.
  - destruct (Unmarshal (A := ConfChange) _) as [cc|]; [|done]. destruct (Unmarshal (A := RaftCmdRequest) _) as [cmd|]; [|done].
    apply bind_Ok in H as ([s1 eff1] & Hc & Hm). destruct eff1; [| |done]; injection Hm as <- <-; by eapply Hcmd.
Qed.

Lemma apply_entries_spec es a c s results :
  ready a c s false → Forall entry_ok es →
  match spec_entries (a_id a) s es with
  | Ok (s', removed) => ∃ a' c' res, apply_entries a c es results = Ok (a', c', res) ∧ ready a' c' s' removed ∧ a_id a' = a_id a ∧ untouched s c c'
  | Panic _ => ∃ p, apply_entries a c es results = Panic p
  | _ => False
  end.
Proof.
  intros Hr Hes. revert a c s results Hr. induction Hes as [|e es He _ IH]; intros a c s results Hr; cbn [apply_entries spec_entries].
  { eexists _, _, _. split; [done|]. split; [done|]. split; [done|]. by intros k _. }
  rewrite (rd_removed _ _ _ _ Hr) (rd_state _ _ _ _ Hr). destruct (decide (u64 (AppliedIndex (s_apply s) + 1) ≠ e_Index e)) as [Hi|Hi].
  { unfold spec_entry. rewrite decide_True //. by eexists. }
  apply dec_stable in Hi. pose proof (eo_index _ He) as Hi1. pose proof (ro_applied _ (rd_ok _ _ _ _ Hr)) as Hap.
  assert (Hi2 : e_Index e = AppliedIndex (s_apply s) + 1 ∧ is_u64 (e_Index e)).
  { destruct (decide (AppliedIndex (s_apply s) + 1 = two64)) as [E|E]; [rewrite E in Hi; unfold u64 in Hi; rewrite Z.mod_same in Hi; unfold two64 in *; lia|].
    rewrite u64_small in Hi; unfold is_u64 in *; lia. }
  destruct Hi2 as [Hi2 Hu].
  pose proof (handle_entry_spec a c s e Hr He Hi2 Hu) as H. pose proof (spec_entry_shrinks s e) as Hsh. unfold handle_entry in H.
  destruct (spec_entry s e) as [[s' eff]| | |]; try done; [|destruct H as [p ->]; by eexists].
  destruct H as (a' & c' & res & -> & Hal & Hok' & Hid & Happ). cbn [mbind outcome_bind].
  destruct (commit_spec _ _ _ _ _ _ _ Hr Hal Hok' Hid) as (c2 & a2 & -> & Hr2 & Hid2 & Hun); [lia|]. cbn [mbind outcome_bind].
  unfold leaves in Hr2. destruct (decide (eff = _)) as [E|E].
  - rewrite bool_decide_eq_true_2 // in Hr2. assert (Eend : ∀ res, apply_entries a2 c2 es res = Ok (a2, c2, res)).
    { intros res'. destruct es; [done|]. cbn. by rewrite (rd_removed _ _ _ _ Hr2). }
    rewrite Eend. by eexists _, _, _.
  - rewrite bool_decide_eq_false_2 // in Hr2. rewrite -Hid2.
    specialize (IH a2 c2 s' (match res with Some r => results ++ [r] | None => results end) Hr2).
    destruct (spec_entries _ _ _) as [[s'' rem]| | |]; try done. destruct IH as (a3 & c3 & res3 & -> & Hr3 & Hid3 & Hun3).
    eexists _, _, _. split; [done|]. split; [done|]. split; [congruence|]. intros k Hk. rewrite Hun3; [by apply Hun|].
    destruct Hk as [Hk|(cf & key & Hcf & Hk & ->)]; [by left|right]. exists cf, key. split_and!; [done| |done]. by intros ?%(proj2 (Hsh s' eff eq_refl)).
Qed.

Lemma finishFor_spec a c s removed results :
  ready a c s removed → ∃ c', finishFor c a results = Ok (c', a) ∧ holds a c' s removed ∧ ac_Kv c' = ac_Kv c.
Proof.
  intros [Hr Hs Hrm Hkv Hap Hn Hl Hcb Hok]. unfold finishFor. cbn. eexists. split; [done|]. rewrite Hrm. destruct removed; (split; [|done]); [by split|].
  split; cbn; try done. apply Forall_app. split; [done|]. apply Forall_singleton. cbn. rewrite Hr Hs. split; [by apply apply_marshal|done].
Qed.

Lemma handleApply_spec a c s removed term es :
  holds a c s removed → Forall entry_ok es →
  match (if removed then Ok (s, true) else spec_entries (a_id a) s es) with
  | Ok (s', removed') => ∃ a' c', handleApply a c term es = Ok (a', c') ∧ holds a' c' s' removed' ∧ a_id a' = a_id a ∧ untouched s c c'
  | Panic _ => ∃ p, handleApply a c term es = Panic p
  | _ => False
  end.
Proof.
  intros Hh Hes. unfold handleApply, handleRaftCommittedEntries. rewrite (hd_removed _ _ _ _ Hh).
  destruct (decide (es = [])) as [->|Hne]; [by destruct removed; eexists _, _|]. destruct removed; [by eexists _, _|].
  assert (Hh1 : holds (set_a_term term a) c s false) by (destruct Hh; by split).
  destruct (prepareFor_spec _ _ _ _ Hh1) as (c1 & a1 & -> & Hr1 & Hid1 & Hk1). cbn in Hid1. cbn [mbind outcome_bind]. set (c2 := set_committedCount _ c1).
  assert (Hr2 : ready a1 c2 s false) by (destruct Hr1; by split).
  pose proof (apply_entries_spec es a1 c2 s [] Hr2 Hes) as H. rewrite Hid1 in H.
  destruct (spec_entries _ _ _) as [[s' rem]| | |]; try done; [|destruct H as [p ->]; by eexists].
  destruct H as (a3 & c3 & res & -> & Hr3 & Hid3 & Hun). cbn [mbind outcome_bind].
  destruct (finishFor_spec _ _ _ _ res Hr3) as (c4 & -> & Hh4 & Hk4). cbn [mbind outcome_bind]. eexists _, _. split; [done|]. split; [done|]. split; [done|].
  intros k Hk. rewrite Hk4 Hun //. by rewrite -Hk1.
Qed.
End Spec.
