(* ===== verification/ApplierWorker.v ===== *)
(** The apply worker of a store (kv/raftstore/raft_worker.go): the regions of a
    store share an engine, a write batch and a context, yet each ends as if its
    committed entries had been applied one by one, alone; so do the replicas of
    a region on different stores. *)

From S2P Require Import Prelude Pb RaftPb RaftMeta Engine Storage EngineCF PeerStorage RaftCmd Applier ApplierSpec.

(** ** The regions of a store *)

Record region_view := mkView { v_peer : Z; v_state : rstate; v_removed : bool }.
Notation v_region v := (s_region (v_state v)).

Section Worker.
Context {D : Type} `{!Badger D}.
Context `{!Proto RaftApplyState, !Proto RegionLocalState, !Proto metapb.Region, !Proto RaftCmdRequest, !Proto ConfChange}.
Context {messages : ApplyMessages}.
Implicit Types (c : applyContext (D := D)) (pr : gmap Z applier) (V : gmap Z region_view).

Definition spec_view (v : region_view) (es : list Entry) : pure_outcome region_view :=
  if v_removed v then Ok v
  else spec_entries (v_peer v) (v_state v) es ≫= λ '(s, removed), Ok (mkView (v_peer v) s removed).

(** The entries a task brings. *)
Definition task_entries (t : apply_task) : list Entry := match t with MsgApplyCommitted _ es => es | _ => [] end.
Definition spec_msg V (m : Z * apply_task) : pure_outcome (gmap Z region_view) :=
  match V !! m.1 with
  | None => Ok V
  | Some v => spec_view v (task_entries m.2) ≫= λ v, Ok (<[m.1 := v]> V)
  end.
Fixpoint spec_msgs V (msgs : list (Z * apply_task)) : pure_outcome (gmap Z region_view) :=
  match msgs with
  | [] => Ok V
  | m :: msgs => spec_msg V m ≫= λ V, spec_msgs V msgs
  end.
(** All the entries of one region. *)
Definition entries_of (rid : Z) (msgs : list (Z * apply_task)) : list Entry :=
  concat ((λ m, if decide (m.1 = rid) then task_entries m.2 else []) <$> msgs).

Lemma spec_entries_app id s es es' :
  spec_entries id s (es ++ es') =
    (spec_entries id s es ≫= λ '(s, removed), if removed : bool then Ok (s, true) else spec_entries id s es').
Proof.
  revert s. induction es as [|e es IH]; intros s; [done|]. cbn [app spec_entries]. destruct (spec_entry s e) as [[s' eff]| | |]; try done.
  cbn [mbind outcome_bind]. destruct (decide _); [done|]. apply IH.
Qed.
Lemma spec_view_app v es es' : spec_view v (es ++ es') = (spec_view v es ≫= λ v, spec_view v es').
Proof.
  unfold spec_view. destruct (v_removed v) eqn:E; [cbn; by rewrite E|]. rewrite spec_entries_app.
  destruct (spec_entries _ _ es) as [[s []]| | |]; done.
Qed.
Lemma spec_view_nil v : spec_view v [] = Ok v.
Proof. unfold spec_view. by destruct v as [? ? []]. Qed.
Lemma spec_view_peer v es v' : spec_view v es = Ok v' → v_peer v' = v_peer v.
Proof. unfold spec_view. destruct (v_removed v); [by intros [= <-]|]. destruct (spec_entries _ _ _) as [[]| | |]; try done. by intros [= <-]. Qed.

(** An entry is the next one. *)
Lemma spec_entry_index s e s' eff :
  spec_entry s e = Ok (s', eff) → 1 ≤ e_Index e → is_u64 (AppliedIndex (s_apply s)) →
  e_Index e = AppliedIndex (s_apply s) + 1 ∧ AppliedIndex (s_apply s') = e_Index e ∧ is_u64 (e_Index e).
Proof.
  intros H Hpos Hu. revert H.
  assert (Hcmd : ∀ index cmd s' eff, spec_cmd s index cmd = Ok (s', eff) → AppliedIndex (s_apply s') = index).
  { intros index cmd s1 eff1. unfold spec_cmd. intros (o & _ & H)%bind_Ok. destruct (default (s, Plain) o). by injection H as <- <-. }
  unfold spec_entry. destruct (decide _) as [|Hi]; [done|]. apply dec_stable in Hi. intros H.
  assert (Hnext : e_Index e = AppliedIndex (s_apply s) + 1).
  { destruct (decide (AppliedIndex (s_apply s) + 1 = two64)) as [E|E]; [rewrite E /u64 Z.mod_same in Hi; [lia|by unfold two64]|].
    rewrite u64_small in Hi; [lia|]. unfold is_u64 in *. lia. }
  assert (is_u64 (e_Index e)) by (rewrite -Hi; apply u64_range). cut (AppliedIndex (s_apply s') = e_Index e); [done|]. destruct (e_Type e).
  - destruct (e_Data e) as [[|b bs]|]; [|destruct (Unmarshal (b :: bs)) as [cmd|]; [|done]; by eapply Hcmd|];
      (destruct (decide (e_Term e ≤ 0)); [done|]); by injection H as <- <-.
  - destruct (Unmarshal (A := ConfChange) _) as [cc|]; [|done]. destruct (Unmarshal (A := RaftCmdRequest) _) as [cmd|]; [|done].
    apply bind_Ok in H as ([s1 eff1] & Hc & Hm). destruct eff1; [| |done]; injection Hm as <- <-; by eapply Hcmd.
Qed.

(** The regions do not meet. *)
Lemma spec_msgs_lookup V msgs V' rid v :
  spec_msgs V msgs = Ok V' → V !! rid = Some v → ∃ v', V' !! rid = Some v' ∧ spec_view v (entries_of rid msgs) = Ok v'.
Proof.
  revert V v. induction msgs as [|[i t] msgs IH]; intros V v HV Hv; cbn in HV.
  { injection HV as <-. exists v. split; [done|]. apply spec_view_nil. }
  apply bind_Ok in HV as (V1 & H1 & HV). unfold entries_of. cbn [fmap list_fmap concat]. rewrite spec_view_app. unfold spec_msg in H1. cbn in H1 |- *.
  destruct (decide (i = rid)) as [->|Hne].
  - rewrite Hv in H1. apply bind_Ok in H1 as (v1 & -> & [= <-]). cbn. eapply IH; [done|]. apply lookup_insert_eq.
  - rewrite spec_view_nil. cbn. destruct (V !! i) as [vi|]; [|injection H1 as <-; by eapply IH].
    apply bind_Ok in H1 as (v1 & _ & [= <-]). eapply IH; [done|]. by rewrite lookup_insert_ne.
Qed.

(** ** The store holds its regions *)

Record store_rel pr c V : Prop := {
  sr_dom : dom pr = dom V;
  sr_holds rid a v : pr !! rid = Some a → V !! rid = Some v →
    a_id a = v_peer v ∧ metapb.Id (v_region v) = rid ∧ holds (dom V ∖ {[rid]}) a c (v_state v) (v_removed v);
  sr_disjoint r1 r2 v1 v2 key : V !! r1 = Some v1 → V !! r2 = Some v2 → r1 ≠ r2 → in_region (v_region v1) key → ¬ in_region (v_region v2) key
}.

(** A message the worker may get: committed entries, or proposals of the peer. *)
Definition task_ok V (m : Z * apply_task) : Prop :=
  ∀ v, V !! m.1 = Some v →
    match m.2 with
    | MsgApplyCommitted _ es => Forall (entry_ok (dom V ∖ {[m.1]})) es
    | MsgApplyProposal id _ => id = v_peer v
    | MsgApplyRefresh _ _ _ => False
    end.

Lemma entries_of_ok V rid v batches :
  Forall (Forall (task_ok V)) batches → V !! rid = Some v → Forall (λ e, 1 ≤ e_Index e) (entries_of rid (concat batches)).
Proof.
  intros Hb Hv. unfold entries_of. apply Forall_concat. apply Forall_fmap. apply Forall_concat. eapply Forall_impl; [exact Hb|].
  intros msgs Hm. eapply Forall_impl; [exact Hm|]. intros [i t] Hok. cbn. destruct (decide (i = rid)) as [->|]; [|constructor].
  specialize (Hok v Hv). destruct t; cbn in *; [constructor| |constructor]. eapply Forall_impl; [exact Hok|]. intros e He. apply He.
Qed.

Lemma store_rel_u64 pr c V rid : store_rel pr c V → ∀ id, id ∈ dom V ∖ {[rid]} → is_u64 id.
Proof.
  intros [Hd Hh _] id [Hid _]%elem_of_difference. assert (is_Some (pr !! id)) as [a Ha] by (apply elem_of_dom; by rewrite Hd).
  apply elem_of_dom in Hid as [v Hv]. destruct (Hh _ _ _ Ha Hv) as (_ & <- & H). apply (ro_region _ _ (hd_ok _ _ _ _ _ H)).
Qed.

(** A region whose keys have not been touched. *)
Lemma holds_kept others a c c' s removed :
  holds others a c s removed → db_ok (ac_Kv c') → neutral (ac_Kv c') (wb_entries (ac_wb c')) →
  (∀ k, k = RegionStateKey (metapb.Id (s_region s)) ∨ k = ApplyStateKey (metapb.Id (s_region s)) ∨
     (∃ cf key, cf ∈ CFs ∧ in_region (s_region s) key ∧ k = engine_util.KeyWithCF cf key) → db_get (ac_Kv c') k = db_get (ac_Kv c) k) →
  holds others a c' s removed.
Proof.
  intros [Hr Hrm [Hok Hs Hd] Hap Hn Hro] Hok' Hn' Hg. split; [done|done| |rewrite Hg; [done|tauto]|done|done].
  split; [done|rewrite Hg; [done|tauto]|]. intros cf key Hcf Hk. rewrite Hg; [by apply Hd|]. right. right. by exists cf, key.
Qed.

Lemma handleTask_spec pr c V rid a v t :
  store_rel pr c V → pr !! rid = Some a → V !! rid = Some v → task_ok V (rid, t) →
  match spec_view v (task_entries t) with
  | Ok v' => ∃ a' c', handleTask a c t = Ok (a', c') ∧ a_id a' = a_id a ∧ holds (dom V ∖ {[rid]}) a' c' (v_state v') (v_removed v') ∧
      untouched (dom V ∖ {[rid]}) (v_state v) c c'
  | Panic _ => ∃ p, handleTask a c t = Panic p
  | _ => False
  end.
Proof.
  intros Hst Ha Hv Hm. specialize (Hm v Hv). destruct (sr_holds _ _ _ Hst _ _ _ Ha Hv) as (Hid & Hrid & Hh).
  destruct t as [id props|term es|id term rg]; cbn [snd task_entries] in *; [| |done].
  - rewrite spec_view_nil. subst id. cbn. unfold handleProposal. rewrite decide_False; [|congruence].
    destruct (pendingRemove a).
    + cbn. eexists _, _. split; [done|]. split; [done|]. split; [by destruct Hh|by intros k _].
    + destruct (foldl _ _ _) as [q h]. cbn. eexists _, _. split; [done|]. split; [done|]. split; [by destruct Hh|by intros k _].
  - pose proof (handleApply_spec (dom V ∖ {[rid]}) (store_rel_u64 _ _ _ _ Hst) a c (v_state v) (v_removed v) term es Hh Hm) as H.
    unfold spec_view. cbn [handleTask]. destruct (v_removed v) eqn:Erm.
    { destruct H as (a' & c' & -> & Hh' & Hid' & Hun). eexists _, _. by rewrite Erm. }
    rewrite Hid in H. destruct (spec_entries _ _ _) as [[s' rem]| | |]; try done. destruct H as (a' & c' & -> & Hh' & Hid' & Hun). cbn.
    eexists _, _. split; [done|]. by rewrite Hid' Hid.
Qed.

Lemma spec_view_shrinks v es v' : spec_view v es = Ok v' → shrinks (v_region v) (v_region v').
Proof.
  unfold spec_view. destruct (v_removed v); [by intros [= <-]|]. intros ([s' rem] & H & [= <-])%bind_Ok. cbn. clear -H.
  revert H. generalize (v_state v) as s. induction es as [|e es IH]; intros s H; cbn in H; [by injection H as <- <-|].
  apply bind_Ok in H as ([s1 eff] & H1 & H). apply spec_entry_shrinks in H1 as [Hi1 Hk1]. destruct (decide _); [by injection H as <- <-|].
  destruct (IH s1 H) as [Hi2 Hk2]. split; [congruence|auto].
Qed.

Lemma worker_msg_spec pr c V m :
  store_rel pr c V → task_ok V m →
  match spec_msg V m with
  | Ok V' => ∃ pr' c', worker_msg pr c m = Ok (pr', c') ∧ store_rel pr' c' V'
  | Panic _ => ∃ p, worker_msg pr c m = Panic p
  | _ => False
  end.
Proof.
  intros Hst Hm. destruct m as [rid t]. unfold spec_msg, worker_msg. cbn [fst snd]. destruct (V !! rid) as [v|] eqn:Hv.
  2: { assert (pr !! rid = None) as ->; [|by eexists _, _]. apply not_elem_of_dom. rewrite (sr_dom _ _ _ Hst). by apply not_elem_of_dom. }
  assert (is_Some (pr !! rid)) as [a Ha] by (apply elem_of_dom; rewrite (sr_dom _ _ _ Hst); by apply elem_of_dom_2 in Hv). rewrite Ha.
  pose proof (handleTask_spec pr c V rid a v t Hst Ha Hv Hm) as H. pose proof (spec_view_shrinks v (task_entries t)) as Hsh.
  pose proof (spec_view_peer v (task_entries t)) as Hpe. destruct (spec_view v _) as [v'| | |]; try done; [|destruct H as [p ->]; by eexists].
  destruct H as (a' & c' & -> & Hid & Hh & Hun). cbn. eexists _, _. split; [done|]. destruct (Hsh v' eq_refl) as [Hsi Hsk].
  destruct Hst as [Hdom Hholds Hdisj]. assert (Ed : dom (<[rid := v']> V) = dom V) by (by apply dom_insert_lookup_L).
  split; [by rewrite !dom_insert_L Hdom| |].
  - intros r2 a2 v2 H1 H2. rewrite Ed. destruct (decide (r2 = rid)) as [->|Hne].
    + rewrite !lookup_insert_eq in H1, H2. injection H1 as <-. injection H2 as <-. destruct (Hholds _ _ _ Ha Hv) as (Hp & Hr & _).
      split_and!; [|congruence|done]. by rewrite Hid Hp (Hpe v' eq_refl).
    + rewrite !lookup_insert_ne // in H1, H2. destruct (Hholds _ _ _ H1 H2) as (Hp & Hr & Hh2). split_and!; [done..|].
      eapply holds_kept; [done|apply Hh|apply Hh|]. rewrite Hr.
      assert (Hin : r2 ∈ dom V ∖ {[rid]}) by (apply elem_of_dom_2 in H2; set_solver).
      intros k [->|[->|(cf & key & Hcf & Hk & ->)]]; apply Hun; [left; eauto..|right].
      exists cf, key. split_and!; [done| |done]. eapply Hdisj; [exact H2|exact Hv|done|done].
  - intros r1 r2 v1 v2 key E1 E2 Hne Hk1.
    destruct (decide (r1 = rid)) as [->|H1]; [rewrite lookup_insert_eq in E1; injection E1 as <-|rewrite lookup_insert_ne // in E1];
      (destruct (decide (r2 = rid)) as [->|H2]; [rewrite lookup_insert_eq in E2; injection E2 as <-|rewrite lookup_insert_ne // in E2]).
    + done.
    + eapply Hdisj; [exact Hv|exact E2|done|by apply Hsk].
    + intros Hk2%Hsk. eapply Hdisj; [exact E1|exact Hv|done|done|done].
    + eapply Hdisj; [exact E1|exact E2|done|done].
Qed.

Lemma flush_spec pr c V : store_rel pr c V → store_rel pr (flush c) V.
Proof.
  intros [Hd Hh Hdj]. split; [done| |done]. intros rid a v Ha Hv. destruct (Hh _ _ _ Ha Hv) as (Hp & Hr & H). split_and!; [done..|].
  eapply holds_kept; [done|cbn; apply WriteToDB_ok, H|by constructor|]. intros k _. apply neutral_get; apply H.
Qed.

Lemma task_ok_same V V' m : dom V' = dom V → (∀ r v v', V !! r = Some v → V' !! r = Some v' → v_peer v' = v_peer v) → task_ok V m → task_ok V' m.
Proof.
  intros Hd Hp Hm v' Hv'. assert (is_Some (V !! m.1)) as [v Hv] by (apply elem_of_dom; rewrite -Hd; by apply elem_of_dom_2 in Hv').
  specialize (Hm v Hv). rewrite Hd. destruct m.2; [|done|done]. by rewrite (Hp _ _ _ Hv Hv').
Qed.
Lemma spec_msg_same V m V' : spec_msg V m = Ok V' → dom V' = dom V ∧ ∀ r v v', V !! r = Some v → V' !! r = Some v' → v_peer v' = v_peer v.
Proof.
  unfold spec_msg. destruct (V !! m.1) as [v0|] eqn:H0; [|intros [= <-]; split; [done|intros; by simplify_eq]].
  intros (v1 & H1 & [= <-])%bind_Ok. split; [by apply dom_insert_lookup_L|]. intros r v v' Hv. destruct (decide (r = m.1)) as [->|Hne].
  - rewrite lookup_insert_eq. intros [= <-]. simplify_eq. by eapply spec_view_peer.
  - rewrite lookup_insert_ne //. intros. by simplify_eq.
Qed.

Lemma worker_msgs_spec msgs pr c V :
  store_rel pr c V → Forall (task_ok V) msgs →
  match spec_msgs V msgs with
  | Ok V' => (∃ pr' c', worker_msgs pr c msgs = Ok (pr', c') ∧ store_rel pr' c' V') ∧
      dom V' = dom V ∧ ∀ r v v', V !! r = Some v → V' !! r = Some v' → v_peer v' = v_peer v
  | Panic _ => ∃ p, worker_msgs pr c msgs = Panic p
  | _ => False
  end.
Proof.
  revert pr c V. induction msgs as [|m msgs IH]; intros pr c V Hst Hms; cbn.
  { split; [by eexists _, _|]. split; [done|]. intros; by simplify_eq. }
  apply Forall_cons in Hms as [Hm Hms]. pose proof (worker_msg_spec pr c V m Hst Hm) as H. pose proof (spec_msg_same V m) as Hs.
  destruct (spec_msg V m) as [V1| | |]; try done; [|destruct H as [p ->]; by eexists]. destruct (Hs V1 eq_refl) as [Hd Hp].
  destruct H as (pr1 & c1 & -> & Hst1). cbn.
  assert (Hms1 : Forall (task_ok V1) msgs) by (eapply Forall_impl; [exact Hms|]; intros; by eapply task_ok_same).
  specialize (IH pr1 c1 V1 Hst1 Hms1).
  destruct (spec_msgs V1 msgs) as [V2| | |]; try done. destruct IH as (H2 & Hd2 & Hp2). split; [done|]. split; [congruence|].
  intros r v v' Hv Hv'. assert (is_Some (V1 !! r)) as [v1 Hv1] by (apply elem_of_dom; rewrite Hd; by apply elem_of_dom_2 in Hv).
  rewrite (Hp2 _ _ _ Hv1 Hv'). by eapply Hp.
Qed.

Lemma spec_msgs_app V msgs msgs' : spec_msgs V (msgs ++ msgs') = (spec_msgs V msgs ≫= λ V, spec_msgs V msgs').
Proof. revert V. induction msgs as [|m msgs IH]; intros V; [done|]. cbn. destruct (spec_msg V m); try done. apply IH. Qed.

Lemma applyWorker_run_spec batches pr c V :
  store_rel pr c V → Forall (Forall (task_ok V)) batches →
  match spec_msgs V (concat batches) with
  | Ok V' => ∃ pr' c', applyWorker_run pr c batches = Ok (pr', c') ∧ store_rel pr' c' V'
  | Panic _ => ∃ p, applyWorker_run pr c batches = Panic p
  | _ => False
  end.
Proof.
  revert pr c V. induction batches as [|msgs batches IH]; intros pr c V Hst Hms; cbn; [by eexists _, _|].
  apply Forall_cons in Hms as [Hm Hms]. rewrite spec_msgs_app. pose proof (worker_msgs_spec msgs pr c V Hst Hm) as H.
  destruct (spec_msgs V msgs) as [V1| | |]; try done; [|destruct H as [p ->]; by eexists].
  destruct H as ((pr1 & c1 & -> & Hst1) & Hd & Hp). cbn. apply IH; [by apply flush_spec|].
  eapply Forall_impl; [exact Hms|]. intros l Hl. eapply Forall_impl; [exact Hl|]. intros. by eapply task_ok_same.
Qed.

(** C8: The apply worker runs its batches of tasks, for the regions of a store
    interleaved in any way, to the end, unless an entry makes the code panic
    that would do so by itself.  Afterwards each region, its apply state and its
    data in the engine are what its own committed entries make of them, applied
    one by one from the region's state, however they were divided into tasks and
    batches, and whatever was proposed. *)
Theorem apply_worker_refines batches pr c V :
  store_rel pr c V → Forall (Forall (task_ok V)) batches →
  match spec_msgs V (concat batches) with
  | Ok V' =>
    (∃ pr' c', applyWorker_run pr c batches = Ok (pr', c') ∧ store_rel pr' c' V') ∧
    ∀ rid v, V !! rid = Some v → ∃ v', V' !! rid = Some v' ∧ spec_view v (entries_of rid (concat batches)) = Ok v'
  | Panic _ => ∃ p, applyWorker_run pr c batches = Panic p
  | _ => False
  end.
Proof.
  intros Hst Hms. pose proof (applyWorker_run_spec batches pr c V Hst Hms) as H. pose proof (spec_msgs_lookup V (concat batches)) as Hl.
  destruct (spec_msgs V _) as [V'| | |]; try done. split; [done|]. intros rid v Hv. by eapply Hl.
Qed.
End Worker.
