(* ===== verification/ApplierProps.v ===== *)
(** More about the applier: callbacks are answered exactly once, a command that
    fails changes nothing, a split divides the region, a compaction stays below
    what has been applied. *)

From S2P Require Import Prelude Pb RaftPb RaftMeta Engine Storage EngineCF PeerStorage RaftCmd Applier ApplierSpec ApplierWorker.

(** ** Callbacks *)

Section Callbacks.
Context {D : Type} `{!Badger D}.
Context `{!Proto RaftApplyState, !Proto RegionLocalState, !Proto metapb.Region, !Proto RaftCmdRequest, !Proto ConfChange}.
Notation heap := (gmap Z (Callback (D := D))).
Implicit Types (a : applier) (c : applyContext (D := D)) (h : heap) (live : list Z).

(** Of the callbacks [tracked], those in [live] have not been called, the
    others once. *)
Definition accounted (tracked : gset Z) live h : Prop :=
  NoDup live ∧ (∀ p, p ∈ live → p ∈ tracked) ∧
  ∀ p, p ∈ tracked → ∃ cb, h !! p = Some cb ∧ cb_done cb = if decide (p ∈ live) then 0 else 1.

Lemma accounted_perm tr live live' h : live ≡ₚ live' → accounted tr live h → accounted tr live' h.
Proof.
  intros Hp (Hnd & Hin & Hcb). split_and!; [by rewrite -Hp|intros p; rewrite -Hp; apply Hin|]. intros p Ht.
  destruct (Hcb p Ht) as (cb & ? & Hd). exists cb. split; [done|]. rewrite Hd. apply decide_ext. by rewrite Hp.
Qed.

Lemma accounted_done tr o live h r : accounted tr (option_list o ++ live) h → accounted tr live (cb_Done o r h).
Proof.
  destruct o as [p|]; [|done]. intros (Hnd & Hin & Hcb). cbn in *. apply NoDup_cons in Hnd as [Hp Hnd].
  split_and!; [done|intros q Hq; apply Hin; by right|]. intros q Ht. destruct (Hcb q Ht) as (cb & Hq & Hd). destruct (decide (q = p)) as [->|Hne].
  - rewrite lookup_alter_eq Hq. eexists. split; [done|]. cbn. rewrite Hd decide_True; [|by left]. by rewrite decide_False.
  - rewrite lookup_alter_ne // Hq. eexists. split; [done|]. rewrite Hd. apply decide_ext. rewrite elem_of_cons. tauto.
Qed.

Definition ptrs_of (cmds : list pendingCmd) : list Z := cmds ≫= λ cmd, option_list (pc_cb cmd).
Definition pending (q : pendingCmdQueue) : list Z := ptrs_of (normals q ++ option_list (confChange q)).
Definition pushed c : list Z := concat (apc_cbs <$> ac_cbs c) ≫= option_list.

Lemma ptrs_of_app l l' : ptrs_of (l ++ l') = ptrs_of l ++ ptrs_of l'.
Proof. apply bind_app. Qed.

Lemma find_normal_accounted tr index term cmds F h :
  accounted tr (ptrs_of cmds ++ F) h →
  let '(cb, rest, h') := find_normal index term cmds h in accounted tr (option_list cb ++ ptrs_of rest ++ F) h'.
Proof.
  revert h. induction cmds as [|cmd cmds IH]; intros h H; cbn; [done|]. destruct (decide _); [done|].
  change (ptrs_of (cmd :: cmds)) with (option_list (pc_cb cmd) ++ ptrs_of cmds) in H. rewrite -app_assoc in H.
  destruct (decide _); [done|]. apply IH. by apply accounted_done.
Qed.

Lemma findCallback_accounted tr a h index term b F cb a' h' :
  findCallback a h index term b = (cb, a', h') → accounted tr (pending (pendingCmds a) ++ F) h →
  accounted tr (option_list cb ++ pending (pendingCmds a') ++ F) h'.
Proof.
  unfold findCallback, pending, takeConfChange. destruct b.
  - destruct (confChange (pendingCmds a)) as [cmd|] eqn:Ec; cbn; [|intros [= <- <- <-]; by rewrite app_nil_r].
    assert (Hp : ∀ F', ptrs_of (normals (pendingCmds a) ++ [cmd]) ++ F' ≡ₚ option_list (pc_cb cmd) ++ ptrs_of (normals (pendingCmds a) ++ []) ++ F').
    { intros F'. rewrite !ptrs_of_app. cbn. rewrite !app_nil_r. solve_Permutation. }
    intros H Hacc. apply (accounted_perm _ _ _ _ (Hp F)) in Hacc. destruct (decide _); injection H as <- <- <-; [done|].
    cbn. by apply accounted_done.
  - pose proof (find_normal_accounted tr index term (normals (pendingCmds a)) (ptrs_of (option_list (confChange (pendingCmds a))) ++ F) h) as Hf.
    destruct (find_normal _ _ _ _) as [[cb1 rest] h1]. intros [= <- <- <-] Hacc. cbn [pendingCmds set_pendingCmds normals confChange]. rewrite ptrs_of_app -app_assoc. apply Hf.
    by rewrite ptrs_of_app -app_assoc in Hacc.
Qed.

Lemma push_last_pushed c cb resp txn c' :
  push_last c cb resp txn = Ok c' → pushed c' = pushed c ++ option_list cb ∧
    ∀ tr live, accounted tr live (ac_heap c) → accounted tr live (ac_heap c').
Proof.
  unfold push_last. destruct (last (ac_cbs c)) as [l|] eqn:El; [|done]. intros [= <-]. apply last_Some in El as [l' El].
  split.
  - unfold pushed. cbn. rewrite El length_app. cbn. replace (length l' + 1 - 1)%nat with (length l') by lia. rewrite take_app_length.
    rewrite !fmap_app !concat_app. cbn [fmap list_fmap concat apc_cbs]. rewrite !app_nil_r app_assoc bind_app. cbn. by rewrite app_nil_r.
  - intros tr live (Hnd & Hin & Hcb). split_and!; [done|done|]. intros q Hq. destruct (Hcb q Hq) as (x & Hx & Hd). cbn. destruct cb as [p|]; [|eauto].
    destruct (decide (q = p)) as [->|Hne]; [rewrite lookup_alter_eq Hx; by eexists|rewrite lookup_alter_ne //; eauto].
Qed.

Lemma pop_stale_accounted tr bound term cmds c rest c' F :
  pop_stale bound term cmds c = Ok (rest, c') → accounted tr (ptrs_of cmds ++ F ++ pushed c) (ac_heap c) →
  accounted tr (ptrs_of rest ++ F ++ pushed c') (ac_heap c').
Proof.
  revert c. induction cmds as [|cmd cmds IH]; intros c; cbn; [by intros [= <- <-]|]. destruct (decide _); [by intros [= <- <-]|].
  intros (c1 & H1 & H)%bind_Ok Hacc. destruct (push_last_pushed _ _ _ _ _ H1) as [Hp Hh]. apply (IH c1 H). apply Hh. rewrite Hp.
  eapply accounted_perm; [|exact Hacc]. change (ptrs_of (cmd :: cmds)) with (option_list (pc_cb cmd) ++ ptrs_of cmds). solve_Permutation.
Qed.

(** The callbacks pushed are called. *)
Lemma writeToDB_accounted tr c F : accounted tr (F ++ pushed c) (ac_heap c) → accounted tr F (ac_heap (writeToDB c)) ∧ pushed (writeToDB c) = [].
Proof.
  intros Hacc. split; [|done]. cbn.
  assert (Hall : ∀ l h, accounted tr ((concat (apc_cbs <$> l) ≫= option_list) ++ F) h → accounted tr F (foldl (λ h cb, invokeAll cb h) h l)).
  { induction l as [|[r cbs] l IH]; intros h H; [done|]. cbn in H |- *. apply IH. rewrite bind_app -app_assoc in H. clear IH. revert h H.
    induction cbs as [|cb cbs IH]; intros h H; [done|]. cbn in H |- *. apply IH. rewrite -app_assoc in H. by apply accounted_done. }
  apply Hall. eapply accounted_perm; [|exact Hacc]. unfold pushed. solve_Permutation.
Qed.

(** Executing a command does not touch the callbacks. *)
Definition quiet a c a' c' : Prop := pendingCmds a' = pendingCmds a ∧ ac_cbs c' = ac_cbs c ∧ ac_heap c' = ac_heap c.

Lemma exec_requests_quiet a reqs (s s' : normal_state (D := D)) :
  exec_requests a s reqs = Ok s' → ac_cbs (ns_ctx s') = ac_cbs (ns_ctx s) ∧ ac_heap (ns_ctx s') = ac_heap (ns_ctx s).
Proof.
  revert s. induction reqs as [|req reqs IH]; intros s; cbn; [by intros [= <-]|]. intros (s1 & H1 & H)%bind_Ok. apply IH in H as [-> ->]. clear IH.
  unfold exec_request in H1. destruct (rq_CmdType req); [done|..].
  - destruct (handleGet _ _ _). by injection H1 as <-.
  - unfold handlePut in H1. destruct (default _ _). destruct (CheckKeyInRegion _ _); by injection H1 as <-.
  - unfold handleDelete in H1. destruct (default _ _). destruct (CheckKeyInRegion _ _); by injection H1 as <-.
  - by injection H1 as <-.
Qed.

Lemma execRaftCmd_quiet a c cmd a' c' ret : execRaftCmd a c cmd = Ok (a', c', ret) → quiet a c a' c'.
Proof.
  unfold execRaftCmd, execAdminCmd. destruct (CheckRegionEpoch _ _ _); [by intros [= <- <- <-]|]. destruct (rc_AdminRequest cmd) as [req|].
  - intros ([[a1 c1] [[r res] err]] & H1 & H)%bind_Ok.
    assert (quiet a c a1 c1).
    { destruct (ar_CmdType req); [by injection H1 as <- <- _| | |by injection H1 as <- <- _|].
      - unfold execChangePeer in H1. by inv_ok.
      - apply bind_Ok in H1 as ([c2 ret2] & H1 & [= <- <- ->]). unfold execCompactLog in H1. by inv_ok.
      - apply bind_Ok in H1 as ([c2 ret2] & H1 & [= <- <- ->]). unfold execSplit in H1. destruct (CloneMsg _); [|done].
        destruct (ar_Split req); [|done]. destruct (check_split _ _ _); [by injection H1 as <- _|]. destruct (split_regions _ _). by injection H1 as <- _. }
    destruct r, err; try done; by injection H as <- <- _.
  - intros ([c1 ret1] & H1 & [= <- <- _])%bind_Ok. unfold execNormalCmd in H1. apply bind_Ok in H1 as (ns & H1 & H).
    apply exec_requests_quiet in H1 as [H1 H2]. destruct (_ && _); [done|]. injection H as <- _. by split.
Qed.

Lemma applyRaftCmd_quiet a c index term cmd a' c' ret : applyRaftCmd a c index term cmd = Ok (a', c', ret) → quiet a c a' c'.
Proof.
  unfold applyRaftCmd. destruct (pendingRemove a); [done|]. intros ([[a1 c1] ret1] & H1%execRaftCmd_quiet & H)%bind_Ok.
  apply bind_Ok in H as ([[[c2 resp] txn] res] & H2 & H). assert (quiet a c a1 c2) as Hq.
  { destruct (er_err ret1); [|by injection H2 as <- _ _ _]. apply bind_Ok in H2 as (wb & _ & H2). by injection H2 as <- _ _ _. }
  destruct (execCtx c2); [|done]. destruct res as [[cc p [rg|]|ti fi|rs d]|]; try done; by injection H as <- <- _.
Qed.

(** ** Applying keeps the account *)

Definition acc (tr : gset Z) a c (F : list Z) : Prop := accounted tr (pending (pendingCmds a) ++ F ++ pushed c) (ac_heap c).

Lemma processRaftCmd_acc tr a c index term cmd a' c' res F : processRaftCmd a c index term cmd = Ok (a', c', res) → acc tr a c F → acc tr a' c' F.
Proof.
  unfold processRaftCmd, acc. destruct (decide _); [done|]. intros ([[a1 c1] [[[resp|] txn] r]] & H1%applyRaftCmd_quiet & H)%bind_Ok Hacc; [|done].
  destruct H1 as (Hq & Hcb & Hh). destruct (findCallback _ _ _ _ _) as [[cb a2] h] eqn:Ef. apply bind_Ok in H as (c3 & Hp & [= <- <- _]).
  destruct (push_last_pushed _ _ _ _ _ Hp) as [Ep Hk]. apply Hk. cbn. rewrite Ep. unfold pushed at 1. cbn.
  assert (Epush : pushed c1 = pushed c) by (unfold pushed; by rewrite Hcb). fold (pushed c1). rewrite Epush.
  eapply accounted_perm; [|eapply (findCallback_accounted _ _ _ _ _ _ (F ++ pushed c)); [exact Ef|by rewrite Hh Hq]]. solve_Permutation.
Qed.

Lemma handle_entry_acc tr a c e a' c' res F : handle_entry a c e = Ok (a', c', res) → acc tr a c F → acc tr a' c' F.
Proof.
  unfold handle_entry. destruct (e_Type e).
  - unfold handleRaftEntryNormal. destruct (decide _).
    + destruct (Unmarshal _); [|done]. apply processRaftCmd_acc.
    + destruct (decide _); [done|]. intros ([rest c1] & H & [= <- <- _])%bind_Ok Hacc. unfold acc, pending in *.
      cbn [pendingCmds set_pendingCmds normals confChange set_AppliedIndex set_a_applyState] in *. rewrite ptrs_of_app -app_assoc.
      rewrite ptrs_of_app -app_assoc in Hacc. rewrite (app_assoc _ F). rewrite (app_assoc _ F) in Hacc. by eapply pop_stale_accounted.
  - unfold handleRaftEntryConfChange. destruct (Unmarshal _) as [cc|]; [|done]. destruct (Unmarshal _) as [cmd|]; [|done].
    intros ([[a1 c1] r] & H & Hr)%bind_Ok Hacc. eapply processRaftCmd_acc in H; [|done]. destruct r as [[]|]; try done; by injection Hr as <- <- _.
Qed.

Lemma prepareFor_quiet c a c' a' : prepareFor c a = Ok (c', a') → pendingCmds a' = pendingCmds a ∧ pushed c' = pushed c ∧ ac_heap c' = ac_heap c.
Proof.
  unfold prepareFor. cbn. destruct (GetApplyState _ _); try done. intros [= <- <-]. split_and!; [done| |done]. unfold pushed. cbn.
  rewrite fmap_app concat_app bind_app. cbn. by rewrite app_nil_r.
Qed.

Lemma ac_commit_acc tr a c c' a' F : ac_commit c a = Ok (c', a') → acc tr a c F → acc tr a' c' F.
Proof.
  unfold ac_commit, commitOpt, acc. set (c1 := if decide _ then _ else _). intros (Hp & Hpu & Hh)%prepareFor_quiet Hacc. rewrite Hp Hpu Hh.
  assert (accounted tr ((pending (pendingCmds a) ++ F) ++ pushed c1) (ac_heap c1)) as H1 by (rewrite -app_assoc; subst c1; by destruct (decide _)).
  destruct (writeToDB_accounted _ _ _ H1) as [H2 ->]. by rewrite app_nil_r.
Qed.

Lemma apply_entries_acc tr es a c results a' c' res F : apply_entries a c es results = Ok (a', c', res) → acc tr a c F → acc tr a' c' F.
Proof.
  revert a c results. induction es as [|e es IH]; intros a c results; cbn [apply_entries]; [by intros [= <- <- _]|].
  destruct (pendingRemove a); [by intros [= <- <- _]|]. destruct (decide _); [done|].
  intros ([[a1 c1] r] & H1 & H)%bind_Ok Hacc. apply bind_Ok in H as ([c2 a2] & H2 & H). eapply IH; [exact H|]. eapply ac_commit_acc; [exact H2|].
  by eapply (handle_entry_acc _ a c e).
Qed.

Lemma handleApply_acc tr a c term es a' c' F : handleApply a c term es = Ok (a', c') → acc tr a c F → acc tr a' c' F.
Proof.
  unfold handleApply, handleRaftCommittedEntries. destruct (decide _); [by intros [= <- <-]|]. destruct (pendingRemove a); [by intros [= <- <-]|].
  intros ([c1 a1] & (Hp & Hpu & Hh)%prepareFor_quiet & H)%bind_Ok Hacc. apply bind_Ok in H as ([[a2 c2] results] & H2 & H).
  apply bind_Ok in H as ([c3 a3] & H3 & [= <- <-]). eapply (apply_entries_acc tr _ _ _ _ _ _ _ F) in H2.
  - unfold finishFor in H3. cbn in H3. injection H3 as <- <-. by destruct (pendingRemove a2).
  - unfold acc in *. change (accounted tr (pending (pendingCmds a1) ++ F ++ pushed c1) (ac_heap c1)). by rewrite Hp Hpu Hh.
Qed.

(** ** Tasks *)

Definition prop_ptrs (props : list proposal) : list Z := props ≫= λ p, option_list (p_cb p).
Definition task_ptrs (t : apply_task) : list Z := match t with MsgApplyProposal _ props => prop_ptrs props | _ => [] end.

Lemma notify_list tr (f : pendingCmd → heap → heap) cmds F h :
  (∀ cmd F h, accounted tr (option_list (pc_cb cmd) ++ F) h → accounted tr F (f cmd h)) →
  accounted tr (ptrs_of cmds ++ F) h → accounted tr F (foldl (λ h cmd, f cmd h) h cmds).
Proof.
  intros Hf. revert h. induction cmds as [|cmd cmds IH]; intros h H; [done|]. cbn. apply IH.
  change (ptrs_of (cmd :: cmds)) with (option_list (pc_cb cmd) ++ ptrs_of cmds) in H. rewrite -app_assoc in H. by apply Hf.
Qed.

Lemma handleProposal_acc tr a h id props a' h' F :
  handleProposal a h id props = Ok (a', h') → accounted tr (pending (pendingCmds a) ++ prop_ptrs props ++ F) h →
  accounted tr (pending (pendingCmds a') ++ F) h'.
Proof.
  unfold handleProposal. destruct (decide _); [done|]. destruct (pendingRemove a).
  - intros [= <- <-] Hacc. set (cmd_of := λ p, mkPendingCmd (p_index p) (p_term p) (p_cb p)).
    assert (Hmap : ∀ l h, foldl (λ h p, notifyStaleCommand (a_term a) (cmd_of p) h) h l = foldl (λ h cmd, notifyStaleCommand (a_term a) cmd h) h (cmd_of <$> l)).
    { intros l h0. by rewrite foldl_fmap. }
    rewrite Hmap. apply notify_list; [intros cmd F' h'; apply accounted_done|].
    assert (Ep : ptrs_of (cmd_of <$> props) = prop_ptrs props) by (clear; induction props as [|p l IH]; [done|]; unfold ptrs_of, prop_ptrs in *; cbn; by rewrite IH).
    rewrite Ep. eapply accounted_perm; [|exact Hacc]. solve_Permutation.
  - intros H Hacc. destruct (foldl _ _ _) as [q h1] eqn:Ef. injection H as <- <-. cbn. revert Hacc Ef. generalize (pendingCmds a) as q0. revert h.
    induction props as [|p props IH]; intros h q0 Hacc Ef; cbn [foldl] in Ef; [by injection Ef as <- <-|]. unfold prop_ptrs in Hacc. cbn in Hacc.
    destruct (add_proposal (a_term a) (q0, h) p) as [q1 h2] eqn:Ea. eapply IH; [|exact Ef]. clear IH Ef. fold (prop_ptrs props) in Hacc. rewrite -app_assoc in Hacc.
    unfold add_proposal, takeConfChange in Ea. destruct (isConfChange p); cbn in Ea; injection Ea as <- <-.
    + unfold pending. cbn [normals confChange setConfChange option_list]. rewrite ptrs_of_app.
      unfold pending in Hacc. rewrite ptrs_of_app in Hacc. destruct (confChange q0) as [old|]; cbn in Hacc |- *; rewrite ?app_nil_r in Hacc |- *.
      * apply accounted_done. eapply accounted_perm; [|exact Hacc]. solve_Permutation.
      * eapply accounted_perm; [|exact Hacc]. solve_Permutation.
    + unfold pending in *. cbn [normals confChange appendNormal]. rewrite !ptrs_of_app. rewrite ptrs_of_app in Hacc. cbn. rewrite app_nil_r.
      eapply accounted_perm; [|exact Hacc]. solve_Permutation.
Qed.

Lemma handleTask_acc tr a c t a' c' F : handleTask a c t = Ok (a', c') → acc tr a c (task_ptrs t ++ F) → acc tr a' c' F.
Proof.
  destruct t as [id props|term es|id term rg]; cbn.
  - intros ([a1 h1] & H & [= <- <-])%bind_Ok Hacc. unfold acc in *. rewrite -app_assoc in Hacc. exact (handleProposal_acc _ _ _ _ _ _ _ _ H Hacc).
  - apply handleApply_acc.
  - unfold handleRefresh. destruct (decide _); [done|]. intros [= <- <-] Hacc. unfold acc, pending, notify_all in *. cbn -[ptrs_of] in *.
    rewrite ptrs_of_app in Hacc. change (ptrs_of []) with (@nil Z). cbn [app].
    assert (H : accounted tr (ptrs_of (option_list (confChange (pendingCmds a))) ++ F ++ pushed c)
      (foldl (λ h cmd, notifyStaleCommand term cmd h) (ac_heap c) (normals (pendingCmds a)))).
    { apply notify_list; [intros cmd F' h'; apply accounted_done|]. by rewrite -app_assoc in Hacc. }
    destruct (confChange (pendingCmds a)) as [cmd|]; [|done]. cbn in H. rewrite app_nil_r in H. by apply accounted_done.
Qed.

(** ** The worker *)

Definition all_pending (pr : gmap Z applier) : list Z := map_to_list pr ≫= λ x, pending (pendingCmds x.2).
Definition proposed (msgs : list (Z * apply_task)) : list Z := msgs ≫= λ m, task_ptrs m.2.

Lemma all_pending_insert pr rid a : all_pending (<[rid := a]> pr) ≡ₚ pending (pendingCmds a) ++ all_pending (delete rid pr).
Proof.
  unfold all_pending. rewrite -insert_delete_eq. rewrite map_to_list_insert; [|apply lookup_delete_eq]. done.
Qed.

Lemma worker_msgs_acc tr msgs pr c pr' c' F :
  worker_msgs pr c msgs = Ok (pr', c') → Forall (λ m, m.1 ∈ dom pr) msgs →
  accounted tr (all_pending pr ++ proposed msgs ++ F ++ pushed c) (ac_heap c) →
  dom pr' = dom pr ∧ accounted tr (all_pending pr' ++ F ++ pushed c') (ac_heap c').
Proof.
  revert pr c. induction msgs as [|[rid t] msgs IH]; intros pr c; cbn [worker_msgs]; [intros [= <- <-] _; done|].
  intros ([pr1 c1] & H1 & H)%bind_Ok [Hin Hms]%Forall_cons Hacc. cbn in Hin. apply elem_of_dom in Hin as [a Ha].
  unfold worker_msg in H1. cbn in H1. rewrite Ha in H1. apply bind_Ok in H1 as ([a1 c2] & H1 & [= <- <-]).
  assert (Ed : dom (<[rid := a1]> pr) = dom pr) by (by apply dom_insert_lookup_L). rewrite -Ed. apply (IH _ c2); [done|by rewrite Ed|].
  eapply accounted_perm; [|eapply (handleTask_acc tr a c t a1 c2 (all_pending (delete rid pr) ++ proposed msgs ++ F)); [done|]].
  - rewrite all_pending_insert. solve_Permutation.
  - unfold acc. eapply accounted_perm; [|exact Hacc]. rewrite -{1}(insert_id pr rid a Ha) all_pending_insert. cbn. solve_Permutation.
Qed.

End Callbacks.

(** ** Commands *)

Section Commands.
Context {D : Type} `{!Badger D}.
Context `{!Proto RaftApplyState, !Proto RegionLocalState, !Proto metapb.Region, !Proto RaftCmdRequest, !Proto ConfChange}.
Context {messages : ApplyMessages}.
Implicit Types (a : applier) (c : applyContext (D := D)).


(** A command for another epoch has no effect.  When the epoch check fails,
    the entry is counted as applied, the error is the response, and region, log
    truncation, write batch and engine are as they were. *)
Theorem wrong_epoch_rejected a c index term cmd err :
  pendingRemove a = false → CheckRegionEpoch cmd (a_region a) false = Some err →
  ∃ c', applyRaftCmd a c index term cmd = Ok (set_AppliedIndex index a, c', (Some (ErrResp err), None, None)) ∧
    wb_entries (ac_wb c') = wb_entries (ac_wb c) ∧ ac_engines c' = ac_engines c.
Proof.
  intros Hst He. unfold applyRaftCmd, execRaftCmd. rewrite Hst He. cbn [mbind outcome_bind er_err].
  assert (Hg : grown (SetSafePoint (ac_wb c)) (SetSafePoint (ac_wb c)) []) by apply grown_refl.
  destruct (Rollback_grown (E := Empty_set) (ac_wb c) _ _ Hg) as (wb & E & Ewb). cbn [ac_wb set_ac_wb set_execCtx]. rewrite E. cbn.
  eexists. split; [by destruct a|]. by split.
Qed.

(** The epoch a command must come with. *)
Lemma CheckRegionEpoch_normal cmd h e r :
  rc_AdminRequest cmd = None → rc_Header cmd = Some h → rh_RegionEpoch h = Some e →
  CheckRegionEpoch cmd r false = None ↔ metapb.Version e = metapb.Version (metapb.Epoch r).
Proof.
  intros Ha Hh He. unfold CheckRegionEpoch, epoch_checks. rewrite Ha Hh He. cbn. destruct (bool_decide _) eqn:E; cbn.
  - by apply bool_decide_eq_true in E.
  - apply bool_decide_eq_false in E. done.
Qed.

(** The log is cut only below what has been applied. *)
Definition cut_below (st : RaftApplyState) : Prop :=
  ∃ tr, TruncatedState st = Some tr ∧ 0 ≤ tr_Index tr ≤ AppliedIndex st.

Lemma spec_entry_cut s e s' eff :
  spec_entry s e = Ok (s', eff) → e_Index e = AppliedIndex (s_apply s) + 1 → cut_below (s_apply s) →
  cut_below (s_apply s') ∧
  ∀ tr tr', TruncatedState (s_apply s) = Some tr → TruncatedState (s_apply s') = Some tr' → tr_Index tr ≤ tr_Index tr'.
Proof.
  intros H Hi (tr & Htr & Hle).
  assert (Hexec : ∀ cmd s1 eff1, spec_exec s cmd = Ok (Some (s1, eff1)) → ∃ tr1, TruncatedState (s_apply s1) = Some tr1 ∧
    tr_Index tr ≤ tr_Index tr1 ≤ AppliedIndex (s_apply s)).
  { intros cmd s1 eff1. unfold spec_exec. destruct (CheckRegionEpoch _ _ _); [done|]. destruct (rc_AdminRequest cmd) as [req|].
    - unfold spec_admin. destruct (ar_CmdType req); try done.
      + destruct (ar_ChangePeer req) as [cp|]; [|done]. cbn. destruct (cp_Peer cp) as [peer|]; [|done]. cbn.
        destruct (spec_change _ _ _) as [[r' o]|]; [|done]. intros [= <- <-]. exists tr. split; [done|]. lia.
      + destruct (ar_CompactLog req) as [cl|]; [|done]. rewrite Htr. destruct (decide _); [done|].
        destruct (decide _) as [[Hc1 Hc2]|]; intros [= <- <-]; [|exists tr; split; [done|lia]]. eexists. split; [done|]. cbn. lia.
      + destruct (ar_Split req) as [sp|]; [|done]. destruct (decide _); [|done]. intros [= <- <-]. exists tr. split; [done|]. lia.
    - unfold spec_normal. destruct (_ || _); [done|]. destruct (foldl _ _ _) as [d []]; [done|]. intros [= <- <-]. exists tr. split; [done|]. lia. }
  assert (Hcmd : ∀ cmd s1 eff1, spec_cmd s (e_Index e) cmd = Ok (s1, eff1) → ∃ tr1, TruncatedState (s_apply s1) = Some tr1 ∧
    tr_Index tr ≤ tr_Index tr1 ≤ AppliedIndex (s_apply s1)).
  { intros cmd s1 eff1. unfold spec_cmd. intros (o & Ho & H1)%bind_Ok. destruct o as [[s2 eff2]|]; cbn in H1; injection H1 as <- <-.
    - destruct (Hexec _ _ _ Ho) as (tr1 & H1 & H2). exists tr1. split; [done|]. cbn. lia.
    - exists tr. split; [done|]. cbn. lia. }
  assert (∃ tr1, TruncatedState (s_apply s') = Some tr1 ∧ tr_Index tr ≤ tr_Index tr1 ≤ AppliedIndex (s_apply s')) as (tr1 & H1 & H2).
  { unfold spec_entry in H. destruct (decide _); [done|]. destruct (e_Type e).
    - destruct (e_Data e) as [[|b bs]|]; [|destruct (Unmarshal (b :: bs)) as [cmd|]; [|done]; by eapply Hcmd|];
        (destruct (decide (e_Term e ≤ 0)); [done|]); injection H as <- <-; exists tr; cbn; (split; [done|lia]).
    - destruct (Unmarshal (A := ConfChange) _) as [cc|]; [|done]. destruct (Unmarshal (A := RaftCmdRequest) _) as [cmd|]; [|done].
      apply bind_Ok in H as ([s1 eff1] & Hc & Hm). destruct eff1; [| |done]; injection Hm as <- <-; by eapply Hcmd. }
  split; [exists tr1; split; [done|]; lia|]. intros t t' Ht Ht'. rewrite Htr in Ht. rewrite H1 in Ht'. by injection Ht as <-; injection Ht' as <-; lia.
Qed.

Lemma spec_entries_cut id s es s' rem :
  spec_entries id s es = Ok (s', rem) → is_u64 (AppliedIndex (s_apply s)) → Forall (λ e, 1 ≤ e_Index e) es → cut_below (s_apply s) →
  cut_below (s_apply s') ∧ AppliedIndex (s_apply s) ≤ AppliedIndex (s_apply s') ∧
  ∀ tr tr', TruncatedState (s_apply s) = Some tr → TruncatedState (s_apply s') = Some tr' → tr_Index tr ≤ tr_Index tr'.
Proof.
  revert s. induction es as [|e es IH]; intros s H Hu Hes Hcut; cbn in H.
  { injection H as <- <-. split_and!; [done|lia|]. intros tr tr' E1 E2. rewrite E1 in E2. injection E2 as <-. lia. }
  apply Forall_cons in Hes as [He Hes]. apply bind_Ok in H as ([s1 eff] & H1 & H).
  destruct (spec_entry_index _ _ _ _ H1 He Hu) as (Hi & Ha & Hu1). destruct (spec_entry_cut _ _ _ _ H1 Hi Hcut) as [Hcut1 Hm1].
  destruct (decide _); [injection H as <- <-; split_and!; [done|lia|done]|]. rewrite -Ha in Hu1. destruct (IH s1 H Hu1 Hes Hcut1) as (Hcut2 & Hle & Hm2).
  split_and!; [done|lia|]. intros tr tr2 E E2. destruct Hcut1 as (tr1 & E1 & _). etransitivity; [by apply (Hm1 tr tr1)|by apply (Hm2 tr1 tr2)].
Qed.

(** The log of a region is cut only below what has been applied, whatever
    the commands ask for: in the engine the truncated index never exceeds the
    applied index, and neither ever goes back. *)
Theorem truncated_below_applied batches pr c V pr' c' :
  store_rel pr c V → Forall (Forall (task_ok V)) batches → applyWorker_run pr c batches = Ok (pr', c') →
  ∀ rid v, V !! rid = Some v → cut_below (s_apply (v_state v)) →
  ∃ st, GetApplyState (ac_Kv c') rid = Ok st ∧ cut_below st ∧ AppliedIndex (s_apply (v_state v)) ≤ AppliedIndex st ∧
    ∀ tr tr', TruncatedState (s_apply (v_state v)) = Some tr → TruncatedState st = Some tr' → tr_Index tr ≤ tr_Index tr'.
Proof.
  intros Hst Hms Hrun rid v Hv Hcut. pose proof (applyWorker_run_spec batches pr c V Hst Hms) as H. pose proof (spec_msgs_lookup V (concat batches)) as Hl.
  destruct (spec_msgs V _) as [V'| | |]; try done; [|destruct H as [p H]; by rewrite H in Hrun].
  destruct H as (pr2 & c2 & H & Hst'). rewrite H in Hrun. injection Hrun as -> ->. destruct (Hl V' rid v eq_refl Hv) as (v' & Hv' & Hview).
  assert (is_Some (pr' !! rid)) as [a Ha] by (apply elem_of_dom; rewrite (sr_dom _ _ _ Hst'); by apply elem_of_dom_2 in Hv').
  assert (is_Some (pr !! rid)) as [a0 Ha0] by (apply elem_of_dom; rewrite (sr_dom _ _ _ Hst); by apply elem_of_dom_2 in Hv).
  destruct (sr_holds _ _ _ Hst' _ _ _ Ha Hv') as (_ & Hid & Hh). destruct (sr_holds _ _ _ Hst _ _ _ Ha0 Hv) as (_ & _ & Hh0).
  exists (s_apply (v_state v')). split; [rewrite -Hid; eapply GetApplyState_holds; [by eapply hd_ok|by eapply hd_apply]|].
  unfold spec_view in Hview. destruct (v_removed v).
  - injection Hview as <-. split_and!; [done|lia|]. intros tr tr' E1 E2. rewrite E1 in E2. injection E2 as <-. lia.
  - apply bind_Ok in Hview as ([s' rem] & Hs & [= <-]). eapply spec_entries_cut; [done|apply (hd_ok _ _ _ _ _ Hh0)| |done]. by eapply entries_of_ok.
Qed.

(** ** Errors of requests *)

Definition put_request (p : PutRequest) : Request := mkRequest CmdType_Put None (Some p) None None.
Definition put_response a (p : PutRequest) : option Response :=
  if decide (in_region (a_region a) (put_Key p)) then Some (mkResponse CmdType_Put None None None None) else None.

Lemma exec_puts a ps (s : normal_state (D := D)) :
  ∃ s', exec_requests a s (put_request <$> ps) = Ok s' ∧ ns_resps s' = ns_resps s ++ (put_response a <$> ps) ∧ hasRead s' = hasRead s.
Proof.
  revert s. induction ps as [|p ps IH]; intros s; [exists s; by rewrite app_nil_r|]. cbn [fmap list_fmap exec_requests]. unfold exec_request. cbn [rq_CmdType put_request].
  destruct (handlePut a (ns_ctx s) (rq_Put (put_request p))) as [[c r] err] eqn:E. cbn [mbind outcome_bind].
  destruct (IH (mkNormalState c (ns_resps s ++ [r]) (ns_txn s) err true (hasRead s))) as (s' & -> & Hr & Hrd). exists s'. split; [done|]. split; [|done].
  rewrite Hr. cbn. rewrite -app_assoc. cbn. do 2 f_equal. unfold handlePut in E. cbn in E. destruct p as [cf key v]. rewrite CheckKeyInRegion_spec in E.
  unfold put_response. cbn. destruct (decide _); by injection E as _ <- _.
Qed.
Lemma exec_requests_app a (s : normal_state (D := D)) reqs reqs' :
  exec_requests a s (reqs ++ reqs') = (exec_requests a s reqs ≫= λ s, exec_requests a s reqs').
Proof. revert s. induction reqs as [|q reqs IH]; intros s; [done|]. cbn. destruct (exec_request a s q); try done. apply IH. Qed.

(** An error of a request is lost when a later one succeeds.  A command of
    puts whose last key is in the region succeeds, whatever the other keys: a put
    of a key outside the region is skipped, and its response is nil. *)
Theorem lost_request_errors a c h ps p :
  in_region (a_region a) (put_Key p) →
  ∃ c' ret, execNormalCmd a c (mkRaftCmdRequest h (put_request <$> ps ++ [p]) None) = Ok (c', ret) ∧ er_err ret = None ∧
    rr_Responses <$> er_resp ret = Some (put_response a <$> ps ++ [p]).
Proof.
  intros Hin. unfold execNormalCmd. cbn [rc_Requests]. rewrite !fmap_app exec_requests_app.
  destruct (exec_puts a ps (mkNormalState c [] None None false false)) as (s1 & -> & Hr & Hrd). cbn [mbind outcome_bind]. cbn in Hr, Hrd.
  unfold put_request at 1, put_response at 2. destruct p as [cf key v]. cbn in Hin |- *. unfold exec_request. cbn. unfold handlePut. cbn.
  rewrite CheckKeyInRegion_spec decide_True //. cbn. rewrite Hrd. eexists _, _. split; [done|]. split; [done|]. cbn. by rewrite Hr decide_True.
Qed.
End Commands.
