(* ===== verification/Bootstrap.v ===== *)
(** Starting a cluster: kv/raftstore/bootstrap.go. *)

From S2P Require Import Prelude Pb RaftPb RaftMeta Engine Storage EngineCF PeerStorage RaftCmd Applier ApplierSpec ApplierWorker.

Definition InitEpochVer : Z := 1.
Definition InitEpochConfVer : Z := 1.
Definition MinKey : bytes := [].
Definition MaxKey : bytes := [xff].
Definition PrepareBootstrapKey : bytes := [LocalPrefix; x01].
Definition StoreIdentKey : bytes := [LocalPrefix; x02].

Record StoreIdent := mkStoreIdent { ClusterId : Z; si_StoreId : Z }.

Section Bootstrap.
Context {D : Type} `{!Badger D}.
Context `{!Proto RaftApplyState, !Proto RegionLocalState, !Proto RaftLocalState, !Proto StoreIdent}.

Definition isRangeEmpty (engine : D) (startKey endKey : bytes) : bool :=
  match db_from engine startKey with
  | [] => true
  | (k, _) :: _ => negb (bltb k endKey)
  end.

Definition BootstrapStore (engines : Engines D) (clusterID storeID : Z) : outcome string (Engines D) :=
  if negb (isRangeEmpty (Kv engines) MinKey MaxKey) then Err "kv store is not empty and ahs alread had data."
  else if negb (isRangeEmpty (RaftDB engines) MinKey MaxKey) then Err "raft store is not empty and has already had data."
  else Ok (mkEngines (PutMeta (Kv engines) StoreIdentKey (mkStoreIdent clusterID storeID)) (RaftDB engines)).

Definition writeInitialRaftState (raftWB : WriteBatch) (regionID : Z) : WriteBatch :=
  SetMeta raftWB (RaftStateKey regionID)
    (mkRaftLocalState (Some (mkHardState RaftInitLogTerm 0 RaftInitLogIndex)) RaftInitLogIndex 0).

Definition PrepareBootstrapCluster (engines : Engines D) (region : metapb.Region) : Engines D :=
  let state := mkRegionLocalState PeerState_Normal (Some region) in
  let kvWB := SetMeta empty_wb PrepareBootstrapKey state in
  let kvWB := SetMeta kvWB (RegionStateKey (metapb.Id region)) state in
  let kvWB := writeInitialApplyState kvWB (metapb.Id region) in
  let kv := WriteToDB kvWB (Kv engines) in
  let raftWB := writeInitialRaftState empty_wb (metapb.Id region) in
  mkEngines kv (WriteToDB raftWB (RaftDB engines)).

Definition PrepareBootstrap (engines : Engines D) (storeID regionID peerID : Z) : Engines D * metapb.Region :=
  let region := metapb.mkRegion regionID [] [] (metapb.mkRegionEpoch InitEpochConfVer InitEpochVer) [metapb.mkPeer peerID storeID] in
  (PrepareBootstrapCluster engines region, region).

Definition ClearPrepareBootstrap (engines : Engines D) (regionID : Z) : Engines D :=
  let raft := db_delete (RaftDB engines) (RaftStateKey regionID) in
  let wb := DeleteMeta empty_wb PrepareBootstrapKey in
  let wb := DeleteMeta wb (RegionStateKey regionID) in
  let wb := DeleteMeta wb (ApplyStateKey regionID) in
  mkEngines (WriteToDB wb (Kv engines)) raft.

Definition ClearPrepareBootstrapState (engines : Engines D) : Engines D :=
  mkEngines (db_delete (Kv engines) PrepareBootstrapKey) (RaftDB engines).

(** ** The first region *)

(** [isRangeEmpty] looks at the first key. *)
Lemma isRangeEmpty_spec (db : D) lo hi : db_ok db → isRangeEmpty db lo hi = true ↔ ∀ k v, db_get db k = Some v → ble lo k → ¬ blt k hi.
Proof.
  intros Hok. unfold isRangeEmpty. pose proof (db_from_sorted db lo Hok) as Hs. pose proof (db_from_elem db lo) as He.
  destruct (db_from db lo) as [|[k0 v0] l].
  - split; [|done]. intros _ k v Hk Hle _. by apply (not_elem_of_nil (k, v)), He.
  - destruct (proj1 (He k0 v0 Hok)) as [H0 Hle0]; [by left|]. apply StronglySorted_inv in Hs as [_ Hs]. rewrite Forall_forall in Hs.
    rewrite negb_true_iff. split.
    + intros Hb k v Hk Hle Hlt. assert ((k, v) ∈ (k0, v0) :: l) as [E|Hin]%elem_of_cons by (by apply He).
      * injection E as -> ->. by apply bltb_spec in Hlt; rewrite Hlt in Hb.
      * apply Hs in Hin. assert (Hb' : blt k0 hi) by (eapply blt_trans; [exact Hin|exact Hlt]). by apply bltb_spec in Hb'; rewrite Hb' in Hb.
    + intros H. apply not_true_iff_false. rewrite bltb_spec. by apply (H k0 v0).
Qed.
End Bootstrap.

Section Start.
Context {D : Type} `{!Badger D}.
Context `{!Proto RaftApplyState, !Proto RegionLocalState, !Proto metapb.Region, !Proto RaftCmdRequest, !Proto ConfChange, !Proto RaftLocalState, !Proto StoreIdent}.
Context {messages : ApplyMessages}.

(** A store with one region. *)
Lemma single_store a (c : applyContext (D := D)) v rid :
  a_id a = v_peer v → a_region a = v_region v → pendingRemove a = v_removed v → metapb.Id (v_region v) = rid →
  kv_core (ac_Kv c) (v_state v) (v_removed v) → db_get (ac_Kv c) (ApplyStateKey rid) = Some (Marshal (s_apply (v_state v))) →
  ac_wb c = empty_wb → rstate_ok ∅ (v_state v) → store_rel {[rid := a]} c {[rid := v]}.
Proof.
  intros Hp Hr Hrm Hid Hkv Hap Hwb Hok. split; [by rewrite !dom_singleton_L| |].
  - intros r a' v' Ha Hv. apply lookup_singleton_Some in Ha as [-> <-]. apply lookup_singleton_Some in Hv as [_ <-].
    split_and!; [done|done|]. rewrite dom_singleton_L difference_diag_L. split; [done|done|done|by rewrite Hid|by rewrite Hwb; constructor|done].
  - intros r1 r2 v1 v2 key H1 H2. apply lookup_singleton_Some in H1 as [-> _]. by apply lookup_singleton_Some in H2 as [-> _].
Qed.

(** An engine that holds a region's state and nothing else but local keys. *)
Lemma fresh_core (kv : D) s :
  db_ok kv → db_get kv (RegionStateKey (metapb.Id (s_region s))) = Some (Marshal (mkRegionLocalState PeerState_Normal (Some (s_region s)))) →
  s_data s = ∅ → (∀ k v, db_get kv k = Some v → ∃ rest, k = x01 :: rest) → kv_core kv s false.
Proof.
  intros Hok Hs Hd Hl. split; [done|done|]. intros cf key Hcf _. rewrite Hd lookup_empty. apply eq_None_not_Some. intros [v Hv].
  apply Hl in Hv as [rest E]. by apply KeyWithCF_not_local in E.
Qed.

(** What is in the kv engine after [PrepareBootstrapCluster]. *)
Lemma PrepareBootstrapCluster_get (e : Engines D) region k :
  db_ok (Kv e) → region_fits region →
  let state := Marshal (mkRegionLocalState PeerState_Normal (Some region)) in
  db_ok (Kv (PrepareBootstrapCluster e region)) ∧
  db_get (Kv (PrepareBootstrapCluster e region)) k =
    if decide (k = ApplyStateKey (metapb.Id region)) then Some (Marshal initial_applyState)
    else if decide (k = RegionStateKey (metapb.Id region)) then Some state
    else if decide (k = PrepareBootstrapKey) then Some state else db_get (Kv e) k.
Proof.
  intros Hok Hf state. cbn. split; [by repeat apply write_entry_ok|].
  assert (Hs : state ≠ []) by (by apply region_marshal).
  assert (Hi : Marshal initial_applyState ≠ []).
  { intros E%Marshal_nil; [|by apply am_apply]. pose proof am_zero_apply as Hz. by rewrite -E in Hz. }
  rewrite !write_entry_get; try done; try (by repeat apply write_entry_ok). cbn [fst snd].
  by rewrite (decide_False (P := Marshal _ = [])) // !(decide_False (P := state = [])).
Qed.

(** Bootstrapping.  On empty engines [BootstrapStore] succeeds, and after
    [PrepareBootstrap] the store holds the first region: the whole key range,
    with the initial apply state and no data, so the apply worker can start on
    it; [ClearPrepareBootstrap] leaves only the store's identity. *)
Theorem bootstrap_first_region (kv raft : D) clusterID storeID regionID peerID :
  db_ok kv → db_ok raft → (∀ k, db_get kv k = None) → (∀ k, db_get raft k = None) →
  is_u64 storeID → is_u64 regionID → is_u64 peerID →
  ∃ e1, BootstrapStore (mkEngines kv raft) clusterID storeID = Ok e1 ∧
  let '(e2, region) := PrepareBootstrap e1 storeID regionID peerID in
  (∀ key, in_region region key) ∧
  (∀ h, store_rel {[regionID := newApplierFromPeer peerID RaftInitLogTerm region]} (newApplyContext e2 h)
     {[regionID := mkView peerID (mkRState region initial_applyState ∅) false]}) ∧
  (∀ k, k ≠ StoreIdentKey → db_get (Kv (ClearPrepareBootstrap e2 regionID)) k = None ∧ db_get (RaftDB (ClearPrepareBootstrap e2 regionID)) k = None).
Proof.
  intros Hk Hr Hkn Hrn Hs Hreg Hp. exists (mkEngines (PutMeta kv StoreIdentKey (mkStoreIdent clusterID storeID)) raft).
  unfold BootstrapStore. cbn [Kv RaftDB]. rewrite !(proj2 (isRangeEmpty_spec _ _ _ _)) //; [|intros ? ?; by rewrite ?Hkn ?Hrn..].
  split; [done|]. cbn [PrepareBootstrap]. set (region := metapb.mkRegion _ _ _ _ _). set (e1 := mkEngines _ raft).
  assert (Hfit : region_fits region) by (split_and!; [done|done|done|by apply Forall_singleton]).
  assert (Hok1 : db_ok (Kv e1)) by (by apply db_set_ok). set (e2 := PrepareBootstrapCluster e1 region).
  pose proof (PrepareBootstrapCluster_get e1 region) as Hget. split_and!.
  - intros key. split; [apply Compare_nil_l|by left].
  - intros h. apply single_store; try done.
    + destruct (Hget [] Hok1 Hfit) as [Hok2 _]. apply fresh_core; [done| |done|].
      * destruct (Hget (RegionStateKey regionID) Hok1 Hfit) as [_ Hg]. etransitivity; [exact Hg|]. destruct (decide _) as [E|_]; [done|]. by destruct (decide _).
      * intros k v Hv. destruct (Hget k Hok1 Hfit) as [_ Hg]. cbn in Hv, Hg. rewrite Hg in Hv.
        destruct (decide _) as [->|]; [by eexists|]. destruct (decide _) as [->|]; [by eexists|]. destruct (decide _) as [->|]; [by eexists|].
        rewrite db_get_set // Hkn in Hv. destruct (decide _) as [->|]; [by eexists|done].
    + destruct (Hget (ApplyStateKey regionID) Hok1 Hfit) as [_ Hg]. etransitivity; [exact Hg|]. by destruct (decide _).
    + split; [set_solver|done|done|]. by eexists.
  - intros k Hne. destruct (Hget k Hok1 Hfit) as [Hok2 Hg]. fold e2 in Hok2, Hg.
    assert (Hraft : db_get (db_delete (RaftDB e2) (RaftStateKey regionID)) k = None).
    { unfold e2, PrepareBootstrapCluster, WriteToDB. cbn [RaftDB writeInitialRaftState SetMeta wb_add wb_entries empty_wb app foldl].
      rewrite db_get_delete; [|by apply write_entry_ok]. destruct (decide (k = RaftStateKey regionID)) as [|Hk2]; [reflexivity|]. by rewrite write_entry_get // decide_False. }
    split; [|exact Hraft]. clearbody e2. unfold ClearPrepareBootstrap, WriteToDB. cbn [Kv DeleteMeta wb_add wb_entries empty_wb app foldl].
    rewrite !write_entry_get; try done; try (by repeat apply write_entry_ok). cbn [fst snd].
    rewrite Hg. cbn [metapb.Id region Kv e1]. unfold PutMeta. rewrite db_get_set // Hkn. by repeat (destruct (decide _); [done|]).
Qed.
End Start.
