(* ===== verification/WireFormat.v ===== *)
(** A wire format for the messages the raft store keeps: an instance of [Proto]
    for each of them, built from codecs for their parts.  It shows that what
    PeerStorageSpec asks of the protocol buffers can be had. *)

From S2P Require Import Prelude Pb RaftPb RaftLogSpec Engine RawNode PeerStorage PeerStorageSpec.

(** ** Codecs *)

#[local] Obligation Tactic := idtac.
#[local] Unset Program Cases.

(** A codec writes a value and reads it back from the front of a buffer; what it
    reads from any buffer is a value it can write. *)
Record codec (A : Type) := mkCodec {
  c_put : A → bytes;
  c_get : bytes → option (A * bytes);
  c_ok : A → Prop;
  c_law a rest : c_ok a → c_get (c_put a ++ rest) = Some (a, rest);
  c_reads b a rest : c_get b = Some (a, rest) → c_ok a
}.
Arguments mkCodec {A}.
Arguments c_put {A}.
Arguments c_get {A}.
Arguments c_ok {A}.
Arguments c_law {A}.
Arguments c_reads {A}.

Program Definition c_u64 : codec Z := mkCodec PutUint64
  (λ b, match Uint64 (E := unit) b with Ok v => Some (u64 v, drop 8 b) | _ => None end) is_u64 _ _.
Next Obligation. intros v rest Hv. cbn beta. by rewrite Uint64_PutUint64 // u64_small // drop_app_length' // length_PutUint64. Qed.
Next Obligation. intros b a rest. cbn beta. destruct (Uint64 b); try done. intros [= <- _]. apply u64_range. Qed.

Program Definition c_bool : codec bool := mkCodec (λ b : bool, [if b then x01 else x00])
  (λ b, match b with x :: rest => Some (bool_decide (x = x01), rest) | [] => None end) (λ _, True) _ _.
Next Obligation. by intros []. Qed.
Next Obligation. done. Qed.

Program Definition c_unit : codec unit := mkCodec (λ _, []) (λ b, Some (tt, b)) (λ _, True) _ _.
Next Obligation. by intros []. Qed.
Next Obligation. done. Qed.

Section Codecs.
Context {A B : Type} (ca : codec A) (cb : codec B).

Program Definition c_pair : codec (A * B) := mkCodec
  (λ p, c_put ca p.1 ++ c_put cb p.2)
  (λ b, '(x, b) ← c_get ca b; '(y, b) ← c_get cb b; Some ((x, y), b))
  (λ p, c_ok ca p.1 ∧ c_ok cb p.2) _ _.
Next Obligation. intros [x y] rest [Hx Hy]. cbn. rewrite -app_assoc c_law //= c_law //. Qed.
Next Obligation.
  intros b p rest ([x b1] & H1 & ([y b2] & H2 & [= <- _])%bind_Some)%bind_Some. cbn. by split; eapply c_reads.
Qed.

Program Definition c_option : codec (option A) := mkCodec
  (λ o, match o with Some x => x01 :: c_put ca x | None => [x00] end)
  (λ b, match b with
        | x01 :: b => '(x, b) ← c_get ca b; Some (Some x, b)
        | _ :: b => Some (None, b)
        | [] => None
        end)
  (λ o, match o with Some x => c_ok ca x | None => True end) _ _.
Next Obligation. intros [x|] rest Hx; [|done]. cbn. rewrite c_law //. Qed.
Next Obligation.
  intros [|x b] o rest; [done|]. destruct x; try (by intros [= <- _]). intros ([y b1] & H1 & [= <- _])%bind_Some. by eapply c_reads.
Qed.

(** Each element of a list is announced; the length of the buffer bounds their
    number. *)
Fixpoint get_list (fuel : nat) (b : bytes) : option (list A * bytes) :=
  match fuel, b with
  | S fuel, x01 :: b => '(x, b) ← c_get ca b; '(xs, b) ← get_list fuel b; Some (x :: xs, b)
  | S fuel, _ :: b => Some ([], b)
  | _, _ => None
  end.
Fixpoint put_list (xs : list A) : bytes := match xs with [] => [x00] | x :: xs => x01 :: c_put ca x ++ put_list xs end.
Lemma get_list_law xs fuel rest :
  Forall (c_ok ca) xs → (length (put_list xs) ≤ fuel)%nat → get_list fuel (put_list xs ++ rest) = Some (xs, rest).
Proof.
  intros Hx. revert fuel. induction Hx as [|x xs Hx _ IH]; intros [|fuel] Hf; cbn in Hf; try lia; [done|]. cbn. rewrite -app_assoc c_law //=.
  rewrite IH //. rewrite length_app in Hf. lia.
Qed.
Lemma get_list_reads fuel b xs rest : get_list fuel b = Some (xs, rest) → Forall (c_ok ca) xs.
Proof.
  revert b xs rest. induction fuel as [|fuel IH]; intros [|y b] xs rest; cbn; try done.
  destruct y; try (intros [= <- _]; constructor).
  intros ([x b1] & H1 & ([ys b2] & H2 & [= <- _])%bind_Some)%bind_Some. constructor; [by eapply c_reads|by eapply IH].
Qed.

Program Definition c_list : codec (list A) := mkCodec put_list (λ b, get_list (length b) b) (Forall (c_ok ca)) _ _.
Next Obligation. intros xs rest Hx. cbn. apply get_list_law; [done|]. rewrite length_app. lia. Qed.
Next Obligation. intros b xs rest. apply get_list_reads. Qed.

Program Definition c_map (f : A → B) (g : B → A) (Hfg : ∀ b, f (g b) = b) (Hgf : ∀ a, c_ok ca a → c_ok ca (g (f a))) : codec B := mkCodec
  (λ b, c_put ca (g b)) (λ b, '(a, b) ← c_get ca b; Some (f a, b)) (λ b, c_ok ca (g b)) _ _.
Next Obligation. intros f g Hfg Hgf b rest Hb. cbn. rewrite c_law //= Hfg //. Qed.
Next Obligation. intros f g Hfg Hgf b x rest ([y b1] & H1 & [= <- _])%bind_Some. apply Hgf. by eapply c_reads. Qed.

Program Definition codec_Proto (zero : A) : Proto A := {|
  proto_zero := zero;
  Marshal m := x01 :: c_put ca m;
  Unmarshal b := match b with [] => None | _ :: b => fst <$> c_get ca b end;
  wire := c_ok ca
|}.
Next Obligation. intros zero m Hm. cbn. rewrite -(app_nil_r (c_put ca m)) c_law //. Qed.
Next Obligation. done. Qed.
End Codecs.

Program Definition c_byte : codec byte := mkCodec (λ b, [b])
  (λ b, match b with x :: rest => Some (x, rest) | [] => None end) (λ _, True) _ _.
Next Obligation. done. Qed.
Next Obligation. done. Qed.

Definition c_string : codec string :=
  c_map (c_list c_byte) String.string_of_list_byte String.list_byte_of_string String.string_of_list_byte_of_string
    ltac:(intros l _; apply Forall_true; done).
Lemma bytes_ok (b : bytes) : Forall (c_ok c_byte) b.
Proof. by apply Forall_true. Qed.

(** The second inverse of a map between a record and the tuple of its fields. *)
Ltac codec_ok := intros ? ?; repeat match goal with x : (_ * _)%type |- _ => destruct x end; done.

(** ** The messages *)

Definition c_Entry : codec Entry :=
  c_map (c_pair (c_pair (c_pair c_bool c_u64) c_u64) (c_option (c_list c_byte)))
    (λ '(ty, t, i, d), mkEntry (if (ty : bool) then EntryConfChange else EntryNormal) t i d)
    (λ e, (bool_decide (e_Type e = EntryConfChange), e_Term e, e_Index e, e_Data e))
    ltac:(by intros [[] ???]) ltac:(by intros [[[[] ?] ?] ?]).
Definition c_HardState : codec HardState :=
  c_map (c_pair (c_pair c_u64 c_u64) c_u64) (λ '(t, v, c), mkHardState t v c) (λ h, (hs_Term h, hs_Vote h, hs_Commit h))
    ltac:(by intros []) ltac:(codec_ok).
Definition c_RaftLocalState : codec RaftLocalState :=
  c_map (c_pair (c_pair (c_option c_HardState) c_u64) c_u64) (λ '(h, i, t), mkRaftLocalState h i t)
    (λ s, (rl_HardState s, rl_LastIndex s, rl_LastTerm s)) ltac:(by intros []) ltac:(codec_ok).
Definition c_RaftTruncatedState : codec RaftTruncatedState :=
  c_map (c_pair c_u64 c_u64) (λ '(i, t), mkRaftTruncatedState i t) (λ s, (tr_Index s, tr_Term s)) ltac:(by intros []) ltac:(codec_ok).
Definition c_RaftApplyState : codec RaftApplyState :=
  c_map (c_pair c_u64 (c_option c_RaftTruncatedState)) (λ '(a, t), mkRaftApplyState a t)
    (λ s, (AppliedIndex s, TruncatedState s)) ltac:(by intros []) ltac:(codec_ok).
Definition c_RegionEpoch : codec metapb.RegionEpoch :=
  c_map (c_pair c_u64 c_u64) (λ '(c, v), metapb.mkRegionEpoch c v) (λ e, (metapb.ConfVer e, metapb.Version e)) ltac:(by intros []) ltac:(codec_ok).
Definition c_Peer : codec metapb.Peer :=
  c_map (c_pair c_u64 c_u64) (λ '(i, s), metapb.mkPeer i s) (λ p, (metapb.Peer_Id p, metapb.StoreId p)) ltac:(by intros []) ltac:(codec_ok).
Definition c_Region : codec metapb.Region :=
  c_map (c_pair (c_pair (c_pair (c_pair c_u64 (c_list c_byte)) (c_list c_byte)) c_RegionEpoch) (c_list c_Peer))
    (λ '(i, s, e, ep, ps), metapb.mkRegion i s e ep ps)
    (λ r, (metapb.Id r, metapb.StartKey r, metapb.EndKey r, metapb.Epoch r, metapb.Peers r)) ltac:(by intros []) ltac:(codec_ok).
Definition c_RegionLocalState : codec RegionLocalState :=
  c_map (c_pair c_bool (c_option c_Region))
    (λ '(t, r), mkRegionLocalState (if (t : bool) then PeerState_Tombstone else PeerState_Normal) r)
    (λ s, (match rg_State s with PeerState_Tombstone => true | PeerState_Normal => false end, rg_Region s))
    ltac:(by intros [[] ?]) ltac:(by intros [[] ?]).
Definition c_RaftSnapshotData : codec RaftSnapshotData :=
  c_map (c_option c_Region) mkRaftSnapshotData sd_Region ltac:(by intros []) ltac:(codec_ok).

#[export] Instance Entry_Proto : Proto Entry := codec_Proto c_Entry (mkEntry EntryNormal 0 0 None).
#[export] Instance RaftLocalState_Proto : Proto RaftLocalState := codec_Proto c_RaftLocalState (mkRaftLocalState None 0 0).
#[export] Instance RaftApplyState_Proto : Proto RaftApplyState := codec_Proto c_RaftApplyState (mkRaftApplyState 0 None).
#[export] Instance RegionLocalState_Proto : Proto RegionLocalState :=
  codec_Proto c_RegionLocalState (mkRegionLocalState PeerState_Normal None).
#[export] Instance RaftSnapshotData_Proto : Proto RaftSnapshotData := codec_Proto c_RaftSnapshotData (mkRaftSnapshotData None).

#[export] Instance messages_laws : StoreMessages.
Proof. split; try done; cbn; unfold hs_u64; tauto. Qed.

(** ** A peer on an engine in memory *)

Definition example_region : metapb.Region :=
  metapb.mkRegion 1 [] [] (metapb.mkRegionEpoch 1 1) [metapb.mkPeer 1 1; metapb.mkPeer 2 2; metapb.mkPeer 3 3].
Definition example_ready : Ready :=
  mkReady None (mkHardState 6 1 5) [mkEntry EntryNormal 6 6 None; mkEntry EntryNormal 6 7 (Some [x61])] empty_snap [] [].

Lemma peer_storage_refines_witness :
  ∃ (ps ps' ps'' : PeerStorage bdb) r,
    NewPeerStorage (mkEngines [] []) example_region 1 = Ok ps ∧ answers ps (mkSlog 5 5 5 []) (mkHardState 5 0 5) ∧
    SaveReadyState ps example_ready = Ok (ps', r) ∧
    NewPeerStorage (ps_Engines ps') (region ps') 1 = Ok ps'' ∧
    represents ps'' (mkSlog 5 5 5 (rd_Entries example_ready)) (mkHardState 6 1 5).
Proof.
  destruct (NewPeerStorage_initial (D := bdb) [] [] example_region 1) as (ps & Hnew & Hreg & R);
    [constructor|constructor|by repeat split|done|].
  destruct (peer_storage_refines _ _ _ R) as (Ha & Hsave & _). destruct (Hsave example_ready) as (ps' & r & Hs & R').
  { split; [done| |by unfold hs_u64, is_u64, two64|unfold isInitialized; by rewrite Hreg].
    split; cbn.
    - intros e [= <-]. split; [done|]. apply numbered_cons. split; [done|]. apply numbered_cons. split; [done|]. intros ?? H. by rewrite lookup_nil in H.
    - by intros e [= <-].
    - repeat constructor; done.
    - repeat constructor; done.
    - intros e t [= <-] [= <-]. done.
    - repeat constructor; done. }
  destruct (peer_storage_refines _ _ _ R') as (_ & _ & Hre). destruct (Hre 1) as (ps'' & Hnew' & R''); [done|].
  exists ps, ps', ps'', r. auto.
Defined.
