(* ===== verification/WireCmd.v ===== *)
(** The wire format of raft commands and configuration changes: instances of
    [Proto] that satisfy what ApplierSpec asks of the protocol buffers. *)

From S2P Require Import Prelude Pb RaftPb Engine PeerStorage RaftCmd ApplierSpec WireFormat.

(** ** Codecs *)

Definition c_CmdType : codec CmdType :=
  c_map c_byte
    (λ b, match b with x01 => CmdType_Get | x03 => CmdType_Put | x04 => CmdType_Delete | x05 => CmdType_Snap | _ => CmdType_Invalid end)
    (λ t, match t with CmdType_Invalid => x00 | CmdType_Get => x01 | CmdType_Put => x03 | CmdType_Delete => x04 | CmdType_Snap => x05 end)
    ltac:(by intros []) ltac:(done).
Definition c_AdminCmdType : codec AdminCmdType :=
  c_map c_byte
    (λ b, match b with
          | x01 => AdminCmdType_ChangePeer | x03 => AdminCmdType_CompactLog | x04 => AdminCmdType_TransferLeader
          | x0a => AdminCmdType_Split | _ => AdminCmdType_InvalidAdmin end)
    (λ t, match t with
          | AdminCmdType_InvalidAdmin => x00 | AdminCmdType_ChangePeer => x01 | AdminCmdType_CompactLog => x03
          | AdminCmdType_TransferLeader => x04 | AdminCmdType_Split => x0a end)
    ltac:(by intros []) ltac:(done).
Definition c_ConfChangeType : codec ConfChangeType :=
  c_map c_bool (λ b : bool, if b then RemoveNode else AddNode) (λ t, match t with RemoveNode => true | AddNode => false end)
    ltac:(by intros []) ltac:(done).

Definition c_GetRequest : codec GetRequest :=
  c_map (c_pair c_string (c_list c_byte)) (λ '(c, k), mkGetRequest c k) (λ r, (get_Cf r, get_Key r)) ltac:(by intros []) ltac:(codec_ok).
Definition c_PutRequest : codec PutRequest :=
  c_map (c_pair (c_pair c_string (c_list c_byte)) (c_list c_byte)) (λ '(c, k, v), mkPutRequest c k v) (λ r, (put_Cf r, put_Key r, put_Value r))
    ltac:(by intros []) ltac:(codec_ok).
Definition c_DeleteRequest : codec DeleteRequest :=
  c_map (c_pair c_string (c_list c_byte)) (λ '(c, k), mkDeleteRequest c k) (λ r, (delete_Cf r, delete_Key r)) ltac:(by intros []) ltac:(codec_ok).
Definition c_Request : codec Request :=
  c_map (c_pair (c_pair (c_pair (c_pair c_CmdType (c_option c_GetRequest)) (c_option c_PutRequest)) (c_option c_DeleteRequest)) (c_option c_unit))
    (λ '(t, g, p, d, s), mkRequest t g p d s) (λ r, (rq_CmdType r, rq_Get r, rq_Put r, rq_Delete r, rq_Snap r)) ltac:(by intros []) ltac:(codec_ok).

Definition c_ChangePeerRequest : codec ChangePeerRequest :=
  c_map (c_pair c_ConfChangeType (c_option c_Peer)) (λ '(t, p), mkChangePeerRequest t p) (λ r, (cp_ChangeType r, cp_Peer r))
    ltac:(by intros []) ltac:(codec_ok).
Definition c_SplitRequest : codec SplitRequest :=
  c_map (c_pair (c_pair (c_list c_byte) c_u64) (c_list c_u64)) (λ '(k, i, ps), mkSplitRequest k i ps)
    (λ r, (SplitKey r, NewRegionId r, NewPeerIds r)) ltac:(by intros []) ltac:(codec_ok).
Definition c_CompactLogRequest : codec CompactLogRequest :=
  c_map (c_pair c_u64 c_u64) (λ '(i, t), mkCompactLogRequest i t) (λ r, (CompactIndex r, CompactTerm r)) ltac:(by intros []) ltac:(codec_ok).
Definition c_TransferLeaderRequest : codec TransferLeaderRequest :=
  c_map (c_option c_Peer) mkTransferLeaderRequest tl_Peer ltac:(by intros []) ltac:(codec_ok).
Definition c_AdminRequest : codec AdminRequest :=
  c_map (c_pair (c_pair (c_pair (c_pair c_AdminCmdType (c_option c_ChangePeerRequest)) (c_option c_CompactLogRequest))
      (c_option c_TransferLeaderRequest)) (c_option c_SplitRequest))
    (λ '(t, c, l, f, s), mkAdminRequest t c l f s)
    (λ r, (ar_CmdType r, ar_ChangePeer r, ar_CompactLog r, ar_TransferLeader r, ar_Split r)) ltac:(by intros []) ltac:(codec_ok).

Definition c_RaftRequestHeader : codec RaftRequestHeader :=
  c_map (c_pair (c_pair (c_pair c_u64 (c_option c_Peer)) (c_option c_RegionEpoch)) c_u64)
    (λ '(i, p, e, t), mkRaftRequestHeader i p e t) (λ h, (rh_RegionId h, rh_Peer h, rh_RegionEpoch h, rh_Term h)) ltac:(by intros []) ltac:(codec_ok).
Definition c_RaftCmdRequest : codec RaftCmdRequest :=
  c_map (c_pair (c_pair (c_option c_RaftRequestHeader) (c_list c_Request)) (c_option c_AdminRequest))
    (λ '(h, rs, a), mkRaftCmdRequest h rs a) (λ r, (rc_Header r, rc_Requests r, rc_AdminRequest r)) ltac:(by intros []) ltac:(codec_ok).
Definition c_ConfChange : codec ConfChange :=
  c_map (c_pair (c_pair c_ConfChangeType c_u64) (c_option (c_list c_byte))) (λ '(t, n, c), mkConfChange t n c)
    (λ r, (ChangeType r, NodeId r, cc_Context r)) ltac:(by intros []) ltac:(codec_ok).

#[export] Instance Region_Proto : Proto metapb.Region :=
  codec_Proto c_Region (metapb.mkRegion 0 [] [] (metapb.mkRegionEpoch 0 0) []).
#[export] Instance RaftCmdRequest_Proto : Proto RaftCmdRequest := codec_Proto c_RaftCmdRequest (mkRaftCmdRequest None [] None).
#[export] Instance ConfChange_Proto : Proto ConfChange := codec_Proto c_ConfChange (mkConfChange AddNode 0 None).

Lemma region_wire r : region_fits r → c_ok c_Region r.
Proof.
  intros (Hid & Hc & Hv & Hps). cbn. split_and!; [done|apply bytes_ok|apply bytes_ok|done|done|exact Hps].
Qed.

(** What is decoded has numbers that fit. *)
Lemma cmd_reads b cmd : Unmarshal b = Some cmd → cmd_fits cmd.
Proof.
  destruct b as [|x b]; [done|]. intros ([cmd' rest] & H%c_reads & ->)%fmap_Some. cbn [fst]. destruct H as [_ H]. cbn in H.
  intros a Ha. rewrite Ha in H. destruct H as [[[[_ H1] H2] _] H3]. cbn in H1, H2, H3. split_and!.
  - intros cp p Hcp Hp. rewrite Hcp in H1. destruct H1 as [_ H1]. cbn in H1. rewrite Hp in H1. exact H1.
  - intros sp Hsp. rewrite Hsp in H3. destruct H3 as [[_ H3] H4]. by split.
  - intros cl Hcl. rewrite Hcl in H2. exact H2.
Qed.

#[export] Instance apply_messages : ApplyMessages.
Proof.
  split; try done; [intros r; apply region_wire|intros st r Hr; split; [done|by apply region_wire]|intros b cmd; apply cmd_reads].
Qed.
