(* ===== verification/Election.v ===== *)
(** Election safety: in every term at most one peer of a raft group becomes
    leader.

    [node_ok] relates one peer to [C], the votes the group has ever cast; every
    method of raft.go keeps it, letting the peer cast at most its own new vote.
    A method that neither votes nor changes term or role is [quiet].  Cluster
    runs any number of peers over a network and concludes. *)

From S2P Require Import Prelude RaftPb RaftStorage RaftLog RaftLogSpec Raft RawNode.

(** ** What the log operations leave alone *)

Section LogKeeps.
Context {T : Type} {HS : RaftStorage T}.
Implicit Types l : RaftLog T.

Definition log_keeps l l' : Prop := storage l' = storage l ∧ pending_snapshot l' = pending_snapshot l.

Lemma log_keeps_trans l1 l2 l3 : log_keeps l1 l2 → log_keeps l2 l3 → log_keeps l1 l3.
Proof. unfold log_keeps. intuition congruence. Qed.

Lemma truncateAndAppend_keeps l ents l' : truncateAndAppend l ents = Ok l' → log_keeps l l'.
Proof. unfold truncateAndAppend. intros H. inv_ok; [done|]. by case_decide. Qed.

Lemma maybeCompact_keeps l l' : maybeCompact l = Ok l' → log_keeps l l'.
Proof. unfold maybeCompact. intros H. inv_ok; done. Qed.

Lemma append_keeps l ents l' li : append l ents = Ok (l', li) → log_keeps l l'.
Proof.
  unfold append. intros H. inv_ok; [done|].
  eapply log_keeps_trans; [by eapply truncateAndAppend_keeps|by eapply maybeCompact_keeps].
Qed.

Lemma commitTo_keeps l i l' : commitTo l i = Ok l' → log_keeps l l'.
Proof. unfold commitTo. intros H. inv_ok; done. Qed.

Lemma maybeAppend_keeps l i t c ents l' ok : maybeAppend l i t c ents = Ok (l', ok) → log_keeps l l'.
Proof.
  unfold maybeAppend. intros H. inv_ok; [done|by eapply commitTo_keeps|].
  eapply log_keeps_trans; [by eapply append_keeps|by eapply commitTo_keeps].
Qed.

Lemma log_maybeCommit_keeps l i t l' ok : log_maybeCommit l i t = Ok (l', ok) → log_keeps l l'.
Proof. unfold log_maybeCommit. intros H. inv_ok; [by eapply commitTo_keeps|done|done]. Qed.
End LogKeeps.

(** ** What the methods do to the fields of a peer *)

Section Fields.
Context {T : Type} {HS : RaftStorage T}.
Implicit Types (r : Raft T) (m : Message).

Lemma send_sent r m r' :
  send r m = Ok r' →
  ∃ t, r' = set_msgs (r_msgs r ++ [set_From_Term m (r_id r) t]) r ∧
    (MsgType m = MsgRequestVote ∨ MsgType m = MsgRequestVoteResponse → t = m_Term m ∧ t ≠ 0) ∧
    (from_leader (MsgType m) = true → t = r_Term r).
Proof.
  unfold send. intros H. destruct (MsgType m) eqn:E; inv_ok; eexists; (split; [done|]); split; cbn; naive_solver.
Qed.

Lemma restoreNode_same r ns r' :
  restoreNode r ns = Ok r' →
  r_id r' = r_id r ∧ r_Term r' = r_Term r ∧ r_Vote r' = r_Vote r ∧ r_State r' = r_State r ∧
  r_votes r' = r_votes r ∧ r_msgs r' = r_msgs r ∧ r_raftLog r' = r_raftLog r ∧
  dom (r_Prs r') = list_to_set ns ∪ dom (r_Prs r).
Proof.
  revert r. induction ns as [|n ns IH]; intros r H; cbn in H; inv_ok.
  - split_and!; try done. set_solver.
  - apply IH in H0 as (? & ? & ? & ? & ? & ? & ? & Hd). split_and!; try done.
    rewrite Hd. cbn. rewrite dom_insert_L. set_solver.
Qed.
End Fields.

(** The members that have granted their vote. *)
Definition granted (votes : gmap Z bool) : gset Z := dom (filter (λ kv, kv.2 = true) votes).

Lemma elem_of_granted votes v : v ∈ granted votes ↔ votes !! v = Some true.
Proof.
  unfold granted. rewrite elem_of_dom. split.
  - intros [b [H1 H2]%map_lookup_filter_Some]. by cbn in H2; subst.
  - intros H. exists true. by apply map_lookup_filter_Some.
Qed.

Lemma filter_snd (l : list (Z * bool)) :
  length (filter (λ v, v = true) l.*2) = length (filter (λ kv, kv.2 = true) l).
Proof.
  induction l as [|[k b] l IH]; [done|]. cbn [fmap list_fmap]. rewrite !filter_cons.
  cbn. repeat case_decide; cbn; lia.
Qed.

Lemma granted_votes_size votes : granted_votes votes = Z.of_nat (size (granted votes)).
Proof.
  unfold granted_votes, zlen, granted. rewrite filter_snd size_dom -length_map_to_list. f_equal.
  apply Permutation_length. symmetry. apply NoDup_Permutation.
  - apply NoDup_map_to_list.
  - apply list.NoDup_filter, NoDup_map_to_list.
  - intros [k b]. rewrite list_elem_of_filter !elem_of_map_to_list map_lookup_filter_Some. naive_solver.
Qed.

(** ** One peer *)

Section Election.
Context {T : Type} {HS : RaftStorage T} {HG : GoEnv}.

(** The members of the group, which no configuration change alters here, and
    the storages whose snapshots carry those members. *)
Context (M : gset Z) (good : T → Prop).

Definition snap_members (s : Snapshot) : Prop :=
  ∀ md cs, sp_Metadata s = Some md → md_ConfState md = Some cs → list_to_set (Nodes cs) = M.

Context (M_none : None' ∉ M)
  (good_snapshot : ∀ st, good st → good (st_Snapshot st).1 ∧ ∀ s, (st_Snapshot st).2 = Ok s → snap_members s).

Implicit Types (r : Raft T) (m : Message).

(** [C v t c]: member [v] voted for [c] in term [t]. *)
Implicit Types C : Z → Z → Z → Prop.

(** Candidate [c] has the votes of a majority in term [t]. *)
Definition won C (t c : Z) : Prop :=
  ∃ Q : gset Z, Q ⊆ M ∧ (size M < 2 * size Q)%nat ∧ ∀ v, v ∈ Q → C v t c.

Definition msg_ok C m : Prop :=
  From m ∈ M ∧
  (from_leader (MsgType m) = true → m_Term m ≠ 0 ∧ won C (m_Term m) (From m)) ∧
  (MsgType m = MsgRequestVoteResponse → Reject m = false → m_Term m ≠ 0 ∧ C (From m) (m_Term m) (To m)) ∧
  (∀ s, m_Snapshot m = Some s → snap_members s).

Definition sane r : Prop :=
  good (storage (r_raftLog r)) ∧ ∀ s, pending_snapshot (r_raftLog r) = Some s → snap_members s.

Record node_ok C (n : Z) r : Prop := {
  no_id : r_id r = n;
  no_mem : n ∈ M;
  no_prs : dom (r_Prs r) = M;
  no_sane : sane r;
  no_range : 0 ≤ r_Term r;
  no_msgs m : m ∈ r_msgs r → msg_ok C m ∧ From m = n;
  no_vote : r_Vote r ≠ None' → C n (r_Term r) (r_Vote r);
  no_past t c : C n t c → c ≠ None' ∧ (t < r_Term r ∨ t = r_Term r ∧ c = r_Vote r);
  no_fun t c c' : C n t c → C n t c' → c = c';
  no_cand : r_State r ≠ StateFollower → r_Vote r = n ∧ r_Term r ≠ 0;
  no_votes v : r_State r = StateCandidate → r_votes r !! v = Some true → v ∈ M ∧ C v (r_Term r) n;
  no_lead : r_State r = StateLeader → won C (r_Term r) n
}.

(** Messages that cast no vote: those only a leader sends carry its term. *)
Definition plain r m : Prop :=
  From m = r_id r ∧
  (from_leader (MsgType m) = true → m_Term m = r_Term r ∧ r_State r = StateLeader) ∧
  (MsgType m = MsgRequestVoteResponse → Reject m = true) ∧
  (∀ s, m_Snapshot m = Some s → snap_members s).

Record quiet r r' : Prop := {
  q_id : r_id r' = r_id r;
  q_term : r_Term r' = r_Term r;
  q_vote : r_Vote r' = r_Vote r;
  q_state : r_State r' = r_State r;
  q_votes : r_votes r' = r_votes r;
  q_prs : dom (r_Prs r') = dom (r_Prs r);
  q_sane : sane r';
  q_msgs m : m ∈ r_msgs r' → m ∈ r_msgs r ∨ plain r m
}.

Lemma quiet_refl r : sane r → quiet r r.
Proof. intros Hs. split; try done. by left. Qed.

Lemma quiet_trans r1 r2 r3 : quiet r1 r2 → quiet r2 r3 → quiet r1 r3.
Proof.
  intros [I1 T1 V1 S1 W1 P1 G1 Q1] [I2 T2 V2 S2 W2 P2 G2 Q2]. split; try congruence.
  intros m [Hm|Hp]%Q2; [by apply Q1|]. right. unfold plain in *. by rewrite -I1 -T1 -S1.
Qed.

Lemma quiet_node_ok C n r r' : node_ok C n r → quiet r r' → node_ok C n r'.
Proof.
  intros [ ] [I1 T1 V1 S1 W1 P1 G1 Q1]. split; rewrite ?I1 ?T1 ?V1 ?S1 ?W1 ?P1 //.
  intros m [Hm|(Hf & Hl & Hr & Hsn)]%Q1; [by apply no_msgs0|]. split; [|congruence].
  unfold msg_ok. rewrite Hf. split_and!; [congruence| | |done].
  - intros [-> Hs]%Hl. split; [apply no_cand0; by rewrite Hs|]. rewrite no_id0. by apply no_lead0.
  - intros E1 E2. specialize (Hr E1). congruence.
Qed.

(** Assignments to the other fields. *)
Definition same_election r r' : Prop :=
  r_id r' = r_id r ∧ r_Term r' = r_Term r ∧ r_Vote r' = r_Vote r ∧ r_State r' = r_State r ∧
  r_votes r' = r_votes r ∧ dom (r_Prs r') = dom (r_Prs r) ∧ r_msgs r' = r_msgs r ∧
  log_keeps (r_raftLog r) (r_raftLog r').

Lemma quiet_same r r' : sane r → same_election r r' → quiet r r'.
Proof.
  intros Hs (I & Tm & V & S & W & P & Ms & Ls & Lp). split; try done.
  - unfold sane. by rewrite Ls Lp.
  - rewrite Ms. by left.
Qed.

Lemma quiet_then r1 r2 r3 : quiet r1 r2 → same_election r2 r3 → quiet r1 r3.
Proof. intros H1 H2. eapply quiet_trans; [done|apply quiet_same; [apply H1|done]]. Qed.

Lemma same_insert r id pr : id ∈ dom (r_Prs r) → same_election r (set_Prs (<[id := pr]> (r_Prs r)) r).
Proof. intros H. unfold same_election. split_and!; try done. cbn. rewrite dom_insert_L. set_solver. Qed.

Lemma same_log r l : log_keeps (r_raftLog r) l → same_election r (set_raftLog l r).
Proof. by intros H. Qed.

(** [m] may be sent without casting a vote. *)
Definition sendable r m : Prop :=
  (from_leader (MsgType m) = true → r_State r = StateLeader) ∧
  (MsgType m = MsgRequestVoteResponse → Reject m = true) ∧
  (∀ s, m_Snapshot m = Some s → snap_members s).

Lemma quiet_send r m r' : sane r → send r m = Ok r' → sendable r m → quiet r r'.
Proof.
  intros Hs (t & -> & _ & Ht)%send_sent (Hl & Hr & Hsn). split; try done. cbn. intros m'.
  rewrite elem_of_app list_elem_of_singleton. intros [Hm| ->]; [by left|right].
  unfold plain. cbn. split_and!; [done|naive_solver|done..].
Qed.

Lemma quiet_snapshot r l x :
  sane r → snapshot (r_raftLog r) = Ok (l, x) →
  quiet r (set_raftLog l r) ∧ ∀ s, x = inl s → snap_members s.
Proof.
  intros Hs. pose proof Hs as [Hg Hp]. unfold snapshot. destruct (pending_snapshot (r_raftLog r)) as [p|] eqn:Ep.
  - intros [= <- <-]. split; [by apply quiet_same, same_log|]. intros s [= <-]. by apply Hp.
  - destruct (st_Snapshot (storage (r_raftLog r))) as [st o] eqn:Es. intros H. inv_ok.
    apply good_snapshot in Hg as [Hg Hm]. rewrite Es in Hg Hm. cbn in *. split.
    + split; try done; [|by left]. split; cbn; [done|]. by rewrite Ep.
    + intros s ->. apply Hm. destruct o; by simplify_eq/=.
Qed.

Lemma quiet_sendAppend r to r' b : sane r → r_State r = StateLeader → sendAppend r to = Ok (r', b) → quiet r r'.
Proof.
  unfold sendAppend. intros Hsa Hst H. apply bind_Ok in H as (pr & _ & H).
  apply bind_Ok in H as (t & _ & H). apply bind_Ok in H as (es & _ & H).
  assert (Hsnap : snapshot (r_raftLog r) ≫= (λ '(l, s),
     match s with
     | inr ErrSnapshotTemporarilyUnavailable => Ok (set_raftLog l r, false)
     | inr _ => Panic "panic(err)"
     | inl s => if IsEmptySnap (Some s) then Panic "need non-empty snapshot"
                else r ← send (set_raftLog l r) (msg_snapshot to s); Ok (r, true)
     end) = Ok (r', b) → quiet r r').
  { intros Hs. inv_ok.
    all: match goal with H : snapshot _ = _ |- _ => apply quiet_snapshot in H as [Hq Hm]; try done end.
    eapply quiet_trans; [done|]. eapply quiet_send; [apply Hq|done|].
    split_and!; [done..|]. intros s' Hs'. cbn in Hs'. simplify_eq. by apply Hm. }
  destruct t, es; [|by apply Hsnap..]. inv_ok. by eapply quiet_send.
Qed.

(** The broadcasts send as long as each message does. *)
Lemma quiet_for_each f ids r r' :
  sane r → for_each f ids r = Ok r' →
  (∀ r1 r2 to, quiet r r1 → f r1 to = Ok r2 → quiet r1 r2) → quiet r r'.
Proof.
  intros Hs H Hf. assert (Hgen : ∀ r1, quiet r r1 → for_each f ids r1 = Ok r' → quiet r r').
  { clear H. induction ids as [|to ids IH]; intros r1 Hq H; cbn in H; inv_ok; [done|].
    eapply IH; [|done]. eapply quiet_trans; [done|by eapply Hf]. }
  apply (Hgen r); [by apply quiet_refl|done].
Qed.

Lemma quiet_range r ids r1 : sane r → range_ids r = (ids, r1) → quiet r r1.
Proof. intros Hs [= _ <-]. by apply quiet_same. Qed.

Lemma quiet_bcastAppend r r' : sane r → r_State r = StateLeader → bcastAppend r = Ok r' → quiet r r'.
Proof.
  unfold bcastAppend. intros Hs Hst H. inv_ok. pose proof (quiet_range _ _ _ Hs Heqp) as Hq.
  eapply quiet_trans; [done|]. eapply quiet_for_each; [apply Hq|done|]. cbn.
  intros r1 r2 to Hq1 H1. inv_ok; [by apply quiet_refl, Hq1|]. eapply quiet_sendAppend; [apply Hq1| |done].
  by rewrite (q_state _ _ Hq1) (q_state _ _ Hq).
Qed.

Lemma quiet_bcastHeartbeat r r' : sane r → r_State r = StateLeader → bcastHeartbeat r = Ok r' → quiet r r'.
Proof.
  unfold bcastHeartbeat. intros Hs Hst H. inv_ok. pose proof (quiet_range _ _ _ Hs Heqp) as Hq.
  eapply quiet_trans; [done|]. eapply quiet_for_each; [apply Hq|done|]. cbn.
  intros r1 r2 to Hq1 H1. inv_ok; [by apply quiet_refl, Hq1|]. unfold sendHeartbeat in H1. inv_ok.
  eapply quiet_send; [apply Hq1|done|]. split_and!; [|done..]. by rewrite (q_state _ _ Hq1) (q_state _ _ Hq).
Qed.

Lemma quiet_maybeCommit r r' b : sane r → maybeCommit r = Ok (r', b) → quiet r r'.
Proof.
  unfold maybeCommit. intros Hs H. inv_ok. apply quiet_same; [done|]. apply same_log. by eapply log_maybeCommit_keeps.
Qed.

Lemma quiet_appendEntry r es r' : sane r → appendEntry r es = Ok r' → quiet r r'.
Proof.
  unfold appendEntry. intros Hs H. inv_ok. eapply quiet_trans.
  - apply quiet_same; [done|]. apply same_log. by eapply append_keeps.
  - match goal with H : append _ _ = _ |- _ => apply append_keeps in H as [Hk1 Hk2] end.
    match goal with H : deref_pr _ = _ |- _ => unfold deref_pr, getProgress in H; cbn in H end.
    destruct (r_Prs r !! r_id r) as [pr|] eqn:E; [|done]. inv_ok.
    assert (Hs1 : sane (set_raftLog r0 r)) by (destruct Hs; split; cbn; by rewrite ?Hk1 ?Hk2).
    eapply quiet_trans; [|eapply quiet_maybeCommit; [|done]].
    + apply quiet_same; [done|]. apply (same_insert (set_raftLog r0 r)). cbn. by apply elem_of_dom.
    + done.
Qed.

(** ** The handlers of a follower *)

Lemma append_resp_sendable r to i b h : sendable r (msg_append_resp to i b h).
Proof. done. Qed.

Lemma quiet_set_log r l : sane r → log_keeps (r_raftLog r) l → quiet r (set_raftLog l r).
Proof. intros Hs Hk. by apply quiet_same. Qed.

Lemma sane_log r l : sane r → log_keeps (r_raftLog r) l → sane (set_raftLog l r).
Proof. intros [Hg Hp] [H1 H2]. split; cbn; by rewrite ?H1 ?H2. Qed.

Lemma quiet_handleAppendEntries r m r' : sane r → handleAppendEntries r m = Ok r' → quiet r r'.
Proof.
  unfold handleAppendEntries. intros Hs H. inv_ok; [by eapply quiet_send|..].
  all: match goal with H : maybeAppend _ _ _ _ _ = _ |- _ => apply maybeAppend_keeps in H end.
  all: eapply quiet_trans; [by apply quiet_set_log|eapply quiet_send; [|eassumption|done]].
  all: by apply sane_log.
Qed.

Lemma quiet_handleHeartbeat r m r' : sane r → handleHeartbeat r m = Ok r' → quiet r r'.
Proof.
  unfold handleHeartbeat. intros Hs H. inv_ok.
  match goal with H : commitTo _ _ = _ |- _ => apply commitTo_keeps in H as Hk end.
  eapply quiet_trans; [by apply quiet_set_log|]. eapply quiet_send; [by apply sane_log|eassumption|done].
Qed.

Lemma quiet_restore r s r' b :
  sane r → dom (r_Prs r) = M → snap_members s → restore r s = Ok (r', b) → quiet r r'.
Proof.
  unfold restore, log_restore. intros Hs HM Hsn H. inv_ok.
  - by apply quiet_refl.
  - apply quiet_set_log; [done|by eapply commitTo_keeps].
  - match goal with H : restoreNode _ _ = _ |- _ => apply restoreNode_same in H as (I & Tm & V & S & W & Ms & L & D) end.
    cbn in *. unfold snap_meta in *. destruct (sp_Metadata s) as [md|] eqn:Em; [|done]. inv_ok.
    split; try done.
    + rewrite D HM dom_empty_L right_id_L. by eapply Hsn.
    + destruct Hs as [Hg _]. split; rewrite L; cbn; [done|]. by intros s' [= <-].
    + rewrite Ms. by left.
Qed.

Lemma quiet_handleSnapshot r m r' :
  sane r → dom (r_Prs r) = M → (∀ s, m_Snapshot m = Some s → snap_members s) →
  handleSnapshot r m = Ok r' → quiet r r'.
Proof.
  unfold handleSnapshot. intros Hs HM Hsn H. inv_ok.
  all: match goal with H : restore _ _ = _ |- _ => apply quiet_restore in H as Hq; [|by eauto..] end.
  all: eapply quiet_trans; [done|eapply quiet_send; [apply Hq|done|done]].
Qed.

(** ** Changes of term and role *)

Lemma reset_turn r t r' :
  reset r t = Ok r' →
  r_id r' = r_id r ∧ r_Term r' = t ∧ r_Vote r' = (if decide (r_Term r = t) then r_Vote r else None') ∧
  r_State r' = r_State r ∧ r_votes r' = ∅ ∧ dom (r_Prs r') = dom (r_Prs r) ∧ r_msgs r' = r_msgs r ∧
  r_raftLog r' = r_raftLog r.
Proof.
  unfold reset. intros H. apply bind_Ok in H as (li & _ & H). inv_ok. cbn.
  repeat case_decide; simplify_eq/=; split_and!; try done.
  all: apply set_eq; intros i; rewrite !elem_of_dom map_lookup_imap; by destruct (r_Prs r !! i).
Qed.

Lemma becomeFollower_turn r t lead r' :
  becomeFollower r t lead = Ok r' →
  r_id r' = r_id r ∧ r_Term r' = t ∧ r_Vote r' = (if decide (r_Term r = t) then r_Vote r else None') ∧
  r_State r' = StateFollower ∧ r_votes r' = ∅ ∧ dom (r_Prs r') = dom (r_Prs r) ∧ r_msgs r' = r_msgs r ∧
  r_raftLog r' = r_raftLog r.
Proof.
  unfold becomeFollower. intros H. inv_ok.
  match goal with H : reset _ _ = _ |- _ => apply reset_turn in H as (I & Tm & V & _ & W & P & Ms & L) end. done.
Qed.

Lemma becomeFollower_ok C n r t lead r' :
  node_ok C n r → r_Term r ≤ t → becomeFollower r t lead = Ok r' → node_ok C n r' ∧ r_Term r' = t ∧ r_State r' = StateFollower.
Proof.
  intros Hok Ht (I & Tm & V & S & W & P & Ms & L)%becomeFollower_turn.
  split; [|done]. destruct Hok. split; rewrite ?Tm ?V ?W ?P ?Ms ?S; try done; try congruence; try lia.
  - unfold sane. rewrite L. done.
  - case_decide as E; [|done]. by rewrite -E.
  - intros t' c Hc. apply no_past0 in Hc. case_decide; naive_solver lia.
Qed.

(** [C] with one more vote. *)
Definition ext C (n t c : Z) : Z → Z → Z → Prop := λ v t' c', C v t' c' ∨ v = n ∧ t' = t ∧ c' = c.

(** Only [n] has voted between [C] and [C']. *)
Definition grows (n : Z) C C' : Prop :=
  (∀ v t c, C v t c → C' v t c) ∧ ∀ v t c, C' v t c → C v t c ∨ v = n.

Lemma grows_refl n C : grows n C C.
Proof. split; auto. Qed.
Lemma grows_trans n C1 C2 C3 : grows n C1 C2 → grows n C2 C3 → grows n C1 C3.
Proof. intros [A1 B1] [A2 B2]. split; [naive_solver|]. intros v t c H. destruct (B2 _ _ _ H); naive_solver. Qed.
Lemma grows_ext n C t c : grows n C (ext C n t c).
Proof. split; unfold ext; naive_solver. Qed.

Lemma won_mono C C' t c : (∀ v t c, C v t c → C' v t c) → won C t c → won C' t c.
Proof. intros H (Q & A & B & D). exists Q. split_and!; auto. Qed.
Lemma msg_ok_mono C C' m : (∀ v t c, C v t c → C' v t c) → msg_ok C m → msg_ok C' m.
Proof.
  intros H (A & B & D & E). split_and!; [done| | |done].
  - intros Hf. destruct (B Hf). split; [done|by eapply won_mono].
  - intros Hv Hr. destruct (D Hv Hr). auto.
Qed.

(** [n] votes for [c], in its current term. *)
Lemma vote_ok C n r c r' :
  node_ok C n r → c ≠ None' → (r_Vote r = c ∨ r_Vote r = None') →
  r_id r' = r_id r → r_Term r' = r_Term r → r_Vote r' = c → r_State r' = r_State r → r_votes r' = r_votes r →
  dom (r_Prs r') = dom (r_Prs r) → r_raftLog r' = r_raftLog r →
  (∀ m, m ∈ r_msgs r' → m ∈ r_msgs r ∨ (msg_ok (ext C n (r_Term r) c) m ∧ From m = n)) →
  node_ok (ext C n (r_Term r) c) n r'.
Proof.
  intros Hok Hc Hv I Tm V S W P L Ms. pose proof (grows_ext n C (r_Term r) c) as [Hmono _]. destruct Hok.
  assert (Hn : n ≠ None') by (by intros ->).
  split; rewrite ?Tm ?V ?W ?P ?S; try done; try congruence.
  - unfold sane. by rewrite L.
  - intros m [Hm|Hm]%Ms; [|done]. split; [eapply msg_ok_mono; [done|]|]; by apply no_msgs0.
  - intros _. by right.
  - intros t c' [Hc'|(_ & -> & ->)]; [|naive_solver]. apply no_past0 in Hc'. destruct Hv; naive_solver.
  - assert (Hone : ∀ c', C n (r_Term r) c' → c' = c).
    { intros c' [? [?|[_ ->]]]%no_past0; [lia|]. destruct Hv; congruence. }
    intros t c1 c2 [H1|(_ & -> & ->)] [H2|(_ & E & ->)]; subst; eauto using eq_sym.
  - intros Hs. destruct (no_cand0 Hs) as [E ?]. split; [|done]. destruct Hv; congruence.
  - intros v Hs Hvt. destruct (no_votes0 v Hs Hvt). auto.
  - intros Hs. eapply won_mono; [done|auto].
Qed.

Lemma becomeLeader_ok C n r r' :
  node_ok C n r → r_State r = StateCandidate → won C (r_Term r) n → becomeLeader r = Ok r' →
  node_ok C n r' ∧ r_State r' = StateLeader.
Proof.
  unfold becomeLeader. intros Hok Hst Hwon H. inv_ok.
  match goal with H : reset _ _ = _ |- _ => apply reset_turn in H as (I & Tm & V & S & W & P & Ms & L) end.
  rewrite decide_True // in V. destruct (no_cand _ _ _ Hok) as [Hvn Ht0]; [by rewrite Hst|].
  match goal with H : appendEntry ?r0 _ = _ |- _ =>
    assert (Hok1 : node_ok C n r0); [|assert (Hq : quiet r0 r') by (by eapply quiet_appendEntry; [apply Hok1|])] end;
    [|split; [by eapply quiet_node_ok|by rewrite (q_state _ _ Hq)]].
  destruct Hok. split; cbn; rewrite ?I ?Tm ?V ?W ?P ?Ms; try done. unfold sane. cbn. by rewrite L.
Qed.

Lemma won_quorum C n r :
  node_ok C n r → r_State r = StateCandidate → quorum r = granted_votes (r_votes r) → won C (r_Term r) n.
Proof.
  intros Hok Hst Hq. exists (granted (r_votes r)). rewrite granted_votes_size /quorum in Hq.
  rewrite -size_dom (no_prs _ _ _ Hok) in Hq. split_and!.
  - intros v Hv%elem_of_granted. by destruct (no_votes _ _ _ Hok v Hst Hv).
  - pose proof (Z.mul_div_le (Z.of_nat (size M)) 2). pose proof (Z.mul_succ_div_gt (Z.of_nat (size M)) 2). lia.
  - intros v Hv%elem_of_granted. by destruct (no_votes _ _ _ Hok v Hst Hv).
Qed.

Lemma becomeCandidate_ok C n r r' :
  node_ok C n r → r_Term r < max64 → becomeCandidate r = Ok r' →
  node_ok (ext C n (r_Term r') n) n r' ∧ r_State r' = StateCandidate ∧ r_id r' = n.
Proof.
  unfold becomeCandidate. intros Hok Hmax H. inv_ok. pose proof (no_range _ _ _ Hok).
  match goal with H : reset _ _ = _ |- _ => apply reset_turn in H as (I & Tm & V & S & W & P & Ms & L) end.
  rewrite u64_small in Tm; [|split; [lia|unfold max64 in Hmax; lia]].
  cbn. rewrite Tm. pose proof (grows_ext n C (r_Term r + 1) n) as [Hmono _]. destruct Hok.
  split; [|split; [done|congruence]].
  assert (Hn : n ≠ None') by (by intros ->).
  split; cbn; rewrite ?Tm ?W ?P ?Ms ?I; try done; try lia.
  - unfold sane. cbn. by rewrite L.
  - intros m Hm. split; [eapply msg_ok_mono; [done|]|]; by apply no_msgs0.
  - intros _. right. by rewrite no_id0.
  - intros t c [Hc%no_past0|(_ & -> & ->)]; [|by rewrite no_id0; auto]. naive_solver lia.
  - assert (Hnew : ∀ c', ¬ C n (r_Term r + 1) c') by (intros c' Hc%no_past0; lia).
    intros t c1 c2 [H1|(_ & -> & ->)] [H2|(_ & E & ->)]; subst; eauto; by destruct (Hnew _ ltac:(eassumption)).
Qed.

Lemma poll_ok C n r v b r' g :
  node_ok C n r → r_State r = StateCandidate → (b = true → v ∈ M ∧ C v (r_Term r) n) → poll r v b = (r', g) →
  node_ok C n r' ∧ r_State r' = StateCandidate ∧ r_Term r' = r_Term r ∧ r_id r' = r_id r ∧ g = granted_votes (r_votes r').
Proof.
  unfold poll. intros Hok Hst Hv [= <- <-]. split; [|done].
  destruct Hok. split; cbn; try done. intros w _. destruct (r_votes r !! v) as [b'|] eqn:E; [by apply no_votes0|].
  destruct (decide (w = v)) as [->|Hne].
  - rewrite lookup_insert_eq. intros [= ->]. by apply Hv.
  - rewrite lookup_insert_ne //. by apply no_votes0.
Qed.

(** What a step may do: the peer keeps its invariant and only the peer votes. *)
Definition stays C n r' : Prop := ∃ C', grows n C C' ∧ node_ok C' n r'.

Lemma stays_quiet C n r r' : node_ok C n r → quiet r r' → stays C n r'.
Proof. intros H Hq. exists C. split; [apply grows_refl|by eapply quiet_node_ok]. Qed.

Lemma stays_trans C n r' C1 : grows n C C1 → stays C1 n r' → stays C n r'.
Proof. intros Hg (C2 & Hg2 & Hok). exists C2. split; [by eapply grows_trans|done]. Qed.

Lemma campaign_ok C n r r' : node_ok C n r → r_Term r < max64 → campaign r = Ok r' → stays C n r'.
Proof.
  unfold campaign. intros Hok Hmax H. apply bind_Ok in H as (r1 & H1 & H).
  destruct (becomeCandidate_ok _ _ _ _ Hok Hmax H1) as (Hok1 & Hst1 & Hid1).
  eapply stays_trans; [apply grows_ext|]. destruct (poll r1 (r_id r1) true) as [r2 g] eqn:Hp.
  assert (Hself : true = true → r_id r1 ∈ M ∧ ext C n (r_Term r1) n (r_id r1) (r_Term r1) n).
  { intros _. rewrite Hid1. split; [apply Hok1|by right]. }
  destruct (poll_ok _ _ _ _ _ _ _ Hok1 Hst1 Hself Hp) as (Hok2 & Hst2 & Ht2 & _ & ->).
  destruct (decide (quorum r2 = granted_votes (r_votes r2))) as [Hq|Hq].
  - eexists. split; [apply grows_refl|]. eapply becomeLeader_ok; [done..| |done]. by apply won_quorum.
  - destruct (range_ids r2) as [ids r3] eqn:Hr. pose proof (quiet_range _ _ _ (no_sane _ _ _ Hok2) Hr) as Hq3.
    eapply stays_quiet; [done|]. eapply quiet_trans; [done|]. eapply quiet_for_each; [apply Hq3|done|].
    intros ra rb to Hqa Hab. cbv beta in Hab. inv_ok; [apply quiet_refl, Hqa|]. by eapply quiet_send; [apply Hqa|..].
Qed.

(** What a peer may be given: a message of the group addressed to it, or a
    request of its own store. *)
Definition input_ok C n m : Prop :=
  (from_leader (MsgType m) = true → m_Term m ≠ 0) ∧
  (MsgType m = MsgRequestVoteResponse → Reject m = false → m_Term m ≠ 0 ∧ From m ∈ M ∧ C (From m) (m_Term m) n) ∧
  (MsgType m = MsgRequestVote → From m ≠ None') ∧
  (∀ s, m_Snapshot m = Some s → snap_members s).

Lemma step_request_vote_ok C n r m r' e :
  node_ok C n r → input_ok C n m → (m_Term m = 0 ∨ m_Term m = r_Term r) → MsgType m = MsgRequestVote →
  step_request_vote r m = Ok (r', e) → stays C n r'.
Proof.
  unfold step_request_vote. intros Hok (_ & _ & Hfrom & _) Hterm Hty H. specialize (Hfrom Hty).
  apply bind_Ok in H as (ok & Hcan & H). apply bind_Ok in H as (lt & _ & H). apply bind_Ok in H as (li & _ & H).
  destruct ok; [|clear Hcan].
  - case_bool_decide as Hv; [|done]. inv_ok. match goal with H : send _ _ = _ |- _ => apply send_sent in H as (t & -> & Ht & _) end.
    destruct Ht as [Ht Ht0]; [by right|]. cbn in Ht. subst t. destruct Hterm as [|Hterm]; [done|].
    exists (ext C n (r_Term r) (From m)). split; [apply grows_ext|].
    eapply (vote_ok C n r (From m)); try done; [destruct Hv as [?|[? _]]; auto|]. cbn. intros m'.
    rewrite elem_of_app list_elem_of_singleton. intros [Hm| ->]; [by left|right]. pose proof (no_id _ _ _ Hok) as Hid.
    split; [|done]. unfold msg_ok. cbn. rewrite Hid. split_and!; [apply Hok|done| |done].
    intros _ _. split; [done|]. right. done.
  - unfold fine in *. inv_ok. eapply stays_quiet; [done|]. by eapply quiet_send; [apply Hok|..].
Qed.

(** ** The steps of each role *)

Lemma propose_conf_same li i es r es' r' : propose_conf li i es r = (es', r') → same_election r r'.
Proof.
  revert i r es' r'. induction es as [|e es IH]; intros i r es' r' H; cbn in H; [by simplify_eq|].
  repeat case_decide.
  - destruct (propose_conf li (i + 1) es r) as [es1 r1] eqn:E. simplify_eq. by eapply IH.
  - destruct (propose_conf li (i + 1) es _) as [es1 r1] eqn:E. simplify_eq. exact (IH _ _ _ _ E).
  - destruct (propose_conf li (i + 1) es r) as [es1 r1] eqn:E. simplify_eq. by eapply IH.
Qed.

Lemma quiet_leader_propose r m r' e :
  sane r → r_State r = StateLeader → leader_propose r m = Ok (r', e) → quiet r r'.
Proof.
  unfold leader_propose, fine. intros Hs Hst H. inv_ok; try by apply quiet_refl.
  match goal with H : propose_conf _ _ _ _ = _ |- _ => apply propose_conf_same in H; apply (quiet_same _ _ Hs) in H as Hq1 end.
  match goal with H : appendEntry _ _ = _ |- _ => apply quiet_appendEntry in H as Hq2; [|apply Hq1] end.
  eapply quiet_trans; [exact Hq1|]. eapply quiet_trans; [exact Hq2|]. eapply quiet_bcastAppend; [apply Hq2| |done].
  by rewrite (q_state _ _ Hq2) (q_state _ _ Hq1).
Qed.

Lemma quiet_insert r id pr pr' : sane r → getProgress r id = Some pr → quiet r (set_Prs (<[id := pr']> (r_Prs r)) r).
Proof. intros Hs Hp. apply quiet_same; [done|]. apply same_insert. by apply elem_of_dom. Qed.

Lemma quiet_sendTimeoutNow r to r' : sane r → sendTimeoutNow r to = Ok r' → quiet r r'.
Proof. unfold sendTimeoutNow. intros Hs H. by eapply quiet_send. Qed.

Lemma quiet_leader_append_response r m pr r' e :
  sane r → r_State r = StateLeader → getProgress r (From m) = Some pr →
  leader_append_response r m pr = Ok (r', e) → quiet r r'.
Proof.
  unfold leader_append_response, fine. intros Hs Hst Hp H. destruct (Reject m).
  - destruct (maybeDecrTo pr (m_Index m) (RejectHint m)) as [pr' b].
    pose proof (quiet_insert r (From m) pr pr' Hs Hp) as Hq. eapply quiet_trans; [done|].
    inv_ok; [|by apply quiet_refl, Hq]. eapply quiet_sendAppend; [apply Hq| |done]. done.
  - destruct (maybeUpdate pr (m_Index m)) as [pr' b].
    pose proof (quiet_insert r (From m) pr pr' Hs Hp) as Hq. eapply quiet_trans; [done|].
    destruct b; [|inv_ok; by apply quiet_refl, Hq].
    apply bind_Ok in H as ([r1 ok] & H1 & H). apply quiet_maybeCommit in H1 as Hq1; [|apply Hq].
    apply bind_Ok in H as (r2 & H2 & H). assert (Hq2 : quiet r1 r2).
    { clear H. destruct ok; inv_ok; [|by apply quiet_refl, Hq1]. eapply quiet_bcastAppend; [apply Hq1| |done].
      by rewrite (q_state _ _ Hq1). }
    clear H2. eapply quiet_trans; [done|]. eapply quiet_trans; [done|]. inv_ok; [|by apply quiet_refl, Hq2].
    eapply quiet_sendTimeoutNow; [apply Hq2|done].
Qed.

Lemma quiet_leader_transfer r m pr r' e :
  sane r → r_State r = StateLeader → leader_transfer r m pr = Ok (r', e) → quiet r r'.
Proof.
  unfold leader_transfer, fine. intros Hs Hst H.
  set (r0 := if decide (r_leadTransferee r ≠ None') then abortLeaderTransfer r else r) in *.
  assert (Hq0 : quiet r r0) by (unfold r0; destruct (decide _); [apply quiet_same|apply quiet_refl]; done).
  assert (Hq1 : quiet r0 (set_leadTransferee (From m) (set_electionElapsed 0 r0))) by (apply quiet_same; [apply Hq0|done]).
  inv_ok; [by apply quiet_refl|done|..]; (eapply quiet_trans; [exact Hq0|]); (eapply quiet_trans; [exact Hq1|]).
  - eapply quiet_sendTimeoutNow; [apply Hq1|done].
  - eapply quiet_sendAppend; [apply Hq1| |done]. by rewrite (q_state _ _ Hq1) (q_state _ _ Hq0).
Qed.

Lemma quiet_stepLeader r m r' e : sane r → r_State r = StateLeader → stepLeader r m = Ok (r', e) → quiet r r'.
Proof.
  unfold stepLeader, fine. intros Hs Hst H. destruct (MsgType m), (getProgress r (From m)) as [pr|] eqn:Hp; inv_ok.
  all: try by apply quiet_refl.
  all: try by eapply quiet_bcastHeartbeat.
  all: try by eapply quiet_leader_propose.
  all: try by eapply quiet_leader_append_response.
  all: try by eapply quiet_leader_transfer.
  all: by eapply quiet_sendAppend.
Qed.

Lemma candidate_vote_ok C n r m r' e :
  node_ok C n r → r_State r = StateCandidate → input_ok C n m → MsgType m = MsgRequestVoteResponse →
  (m_Term m = 0 ∨ m_Term m = r_Term r) → candidate_vote r m = Ok (r', e) → stays C n r'.
Proof.
  unfold candidate_vote, fine. intros Hok Hst (_ & Hresp & _) Hty Hterm H.
  destruct (poll r (From m) (negb (Reject m))) as [r1 g] eqn:Hp.
  assert (Hv : negb (Reject m) = true → From m ∈ M ∧ C (From m) (r_Term r) n).
  { intros Hr%negb_true_iff. destruct (Hresp Hty Hr) as (? & ? & ?). destruct Hterm as [|<-]; done. }
  destruct (poll_ok _ _ _ _ _ _ _ Hok Hst Hv Hp) as (Hok1 & Hst1 & Ht1 & _ & ->).
  inv_ok.
  - match goal with H : becomeLeader _ = _ |- _ => eapply becomeLeader_ok in H as Hok2; [|done..|by apply won_quorum] end.
    eapply stays_quiet; [apply Hok2|]. eapply quiet_bcastAppend; [apply Hok2|apply Hok2|done].
  - exists C. split; [apply grows_refl|]. by eapply becomeFollower_ok.
  - exists C. split; [apply grows_refl|done].
Qed.

Lemma handlers_ok C n r m r' :
  node_ok C n r → (∀ s, m_Snapshot m = Some s → snap_members s) →
  (handleAppendEntries r m = Ok r' ∨ handleHeartbeat r m = Ok r' ∨ handleSnapshot r m = Ok r') → stays C n r'.
Proof.
  intros Hok Hsn Hor. eapply stays_quiet; [done|]. destruct Hor as [H|[H|H]].
  - eapply quiet_handleAppendEntries; [apply Hok|done].
  - eapply quiet_handleHeartbeat; [apply Hok|done].
  - eapply quiet_handleSnapshot; [apply Hok|apply Hok|done|done].
Qed.

Lemma stepCandidate_ok C n r m r' e :
  node_ok C n r → r_State r = StateCandidate → input_ok C n m → (m_Term m = 0 ∨ m_Term m = r_Term r) →
  stepCandidate r m = Ok (r', e) → stays C n r'.
Proof.
  intros Hok Hst Hin Hterm H. pose proof Hin as (Hl & _ & _ & Hsn). unfold stepCandidate, fine in H.
  assert (Hfol : ∀ r1, from_leader (MsgType m) = true → becomeFollower r (m_Term m) (From m) = Ok r1 → node_ok C n r1).
  { intros r1 Hf%Hl H1. destruct Hterm as [|Hterm]; [done|]. eapply becomeFollower_ok; [done| |done]. lia. }
  destruct (MsgType m) eqn:Hty; try (inv_ok; exists C; by split; [apply grows_refl|]).
  - inv_ok. eapply handlers_ok; [eapply Hfol; [done|eassumption]|done|by left].
  - by eapply candidate_vote_ok.
  - inv_ok. eapply handlers_ok; [eapply Hfol; [done|eassumption]|done|by right; right].
  - inv_ok. eapply handlers_ok; [eapply Hfol; [done|eassumption]|done|by right; left].
Qed.

Lemma fine_Ok (c : outcome raft_error (Raft T)) r' e : fine c = Ok (r', e) → c = Ok r'.
Proof. unfold fine. intros H. by inv_ok. Qed.

Lemma heard_ok C n r from : node_ok C n r → node_ok C n (set_Lead from (set_electionElapsed 0 r)).
Proof. intros Hok. eapply quiet_node_ok; [done|]. apply quiet_same; [apply Hok|done]. Qed.

Lemma quiet_forward r m to r' :
  sane r → (∀ s, m_Snapshot m = Some s → snap_members s) → MsgType m = MsgTransferLeader →
  send r (set_To m to) = Ok r' → quiet r r'.
Proof.
  intros Hs Hsn Hty H. eapply quiet_send; [done..|]. unfold sendable. cbn. rewrite Hty. by split_and!.
Qed.

Lemma stays_refl C n r : node_ok C n r → stays C n r.
Proof. intros Hok. exists C. by split; [apply grows_refl|]. Qed.

Lemma stepFollower_ok C n r m r' e :
  node_ok C n r → r_Term r < max64 → input_ok C n m → MsgType m ≠ MsgRequestVoteResponse →
  stepFollower r m = Ok (r', e) → stays C n r'.
Proof.
  intros Hok Hmax (Hl & _ & _ & Hsn) Hnr H. pose proof (heard_ok C n r (From m) Hok) as Hok1.
  unfold stepFollower in H. destruct (MsgType m) eqn:Hty.
  4,8,9: apply fine_Ok in H; eapply handlers_ok; [exact Hok1|exact Hsn|tauto].
  9: { destruct (promotable r); [|injection H as -> _; by apply stays_refl].
        apply fine_Ok in H. exact (campaign_ok C n r r' Hok Hmax H). }
  8: { destruct (decide (r_Lead r = None')); [injection H as -> _; by apply stays_refl|].
       apply fine_Ok in H. eapply stays_quiet; [exact Hok|].
       exact (quiet_forward _ _ _ _ (no_sane _ _ _ Hok) Hsn Hty H). }
  all: injection H as -> _; by apply stays_refl.
Qed.

Lemma step_main_ok C n r m r' e :
  node_ok C n r → r_Term r < max64 → input_ok C n m → (m_Term m = 0 ∨ m_Term m = r_Term r) →
  step_main r m = Ok (r', e) → stays C n r'.
Proof.
  intros Hok Hmax Hin Hterm H. unfold step_main in H.
  assert (Hhup : step_hup r = Ok (r', e) → stays C n r').
  { unfold step_hup, fine. intros H'. clear H. inv_ok.
    - exists C. by split; [apply grows_refl|].
    - by eapply campaign_ok.
    - exists C. by split; [apply grows_refl|]. }
  assert (Hrole : match r_State r with StateFollower => stepFollower r m | StateCandidate => stepCandidate r m
    | StateLeader => stepLeader r m end = Ok (r', e) → stays C n r').
  { clear H. destruct (r_State r) eqn:Hst; intros H.
    - destruct (decide (MsgType m = MsgRequestVoteResponse)) as [Hty|Hty]; [|by eapply stepFollower_ok].
      unfold stepFollower in H. rewrite Hty in H. inv_ok. exists C. by split; [apply grows_refl|].
    - by eapply stepCandidate_ok.
    - eapply stays_quiet; [done|]. by eapply quiet_stepLeader; [apply Hok|..]. }
  destruct (MsgType m) eqn:Hty; try by apply Hrole.
  - by apply Hhup.
  - by eapply step_request_vote_ok.
Qed.

Lemma Step_ok C n r m r' e :
  node_ok C n r → r_Term r < max64 → m_Term m < max64 → input_ok C n m → Step r m = Ok (r', e) → stays C n r'.
Proof.
  unfold Step. intros Hok Hmax Hm Hin H. destruct (decide (m_Term m = 0)) as [E|E]; [by eapply step_main_ok; eauto|].
  destruct (decide (r_Term r < m_Term m)) as [Hlt|Hge].
  - apply bind_Ok in H as (r1 & H1 & H). pose proof (Z.lt_le_incl _ _ Hlt) as Hle.
    destruct (becomeFollower_ok C n r (m_Term m) _ r1 Hok Hle H1) as (Hok1 & Ht1 & _).
    eapply step_main_ok; [done|lia|done|by right|done].
  - destruct (decide (m_Term m < r_Term r)); [inv_ok; exists C; by split; [apply grows_refl|]|].
    eapply step_main_ok; [done..| |done]. right. lia.
Qed.

Lemma tick_ok C n r r' : node_ok C n r → r_Term r < max64 → tick r = Ok r' → stays C n r'.
Proof.
  intros Hok Hmax H. assert (Hsame : ∀ r1, same_election r r1 → node_ok C n r1 ∧ r_Term r1 < max64).
  { intros r1 Hr1. split; [eapply quiet_node_ok; [done|]; apply quiet_same; [apply Hok|done]|]. by destruct Hr1 as (_ & -> & _). }
  assert (Hstep : ∀ r1 m e, same_election r r1 → (MsgType m = MsgHup ∨ MsgType m = MsgBeat) → m_Term m = 0 →
    m_Snapshot m = None → Step r1 m = Ok (r', e) → stays C n r').
  { intros r1 m e Hr1 Hty Ht Hsn Hs. destruct (Hsame r1 Hr1). eapply Step_ok; [done..| | |exact Hs]; [rewrite Ht; done|].
    unfold input_ok. rewrite Hsn. destruct Hty as [->| ->]; done. }
  unfold tick in H. destruct (r_State r) eqn:Hst.
  1,2: unfold tickElection, ignore_err in H; inv_ok; [|exists C; split; [apply grows_refl|by apply Hsame]];
    match goal with H : Step ?a ?b = Ok (_, ?c) |- _ => apply (Hstep a b c); [done|by left|done|done|exact H] end.
  unfold tickHeartbeat, ignore_err in H. cbv zeta in H.
  match type of H with (if decide (r_State ?x ≠ StateLeader) then _ else _) = _ => set (r1 := x) in H end.
  assert (Hr1 : same_election r r1) by (unfold r1; repeat case_decide; done). clearbody r1. inv_ok.
  - exists C. split; [apply grows_refl|by apply Hsame].
  - match goal with H : Step ?a ?b = Ok (_, ?c) |- _ => apply (Hstep a b c); [done|by right|done|done|exact H] end.
  - exists C. split; [apply grows_refl|by apply Hsame].
Qed.
End Election.
