(* ===== verification/RaftTree.v ===== *)
(** The history of a raft group, and why committed entries stay.

    A position is an index with the term of the entry there.  Every entry a
    leader ever appends becomes an edge from the position before it, so the
    positions form a tree and a log is a path in it, known by its last position.
    A [history] collects what the peers have done: who led a term from which
    position, who voted with which log, who acknowledged which position.
    [history_ok] is what the protocol maintains; [leader_completeness] and
    [committed_linear] follow from it alone. *)

From S2P Require Import Prelude RaftPb.

(** An index and a term. *)
Notation pos := (Z * Z)%type.

(** - [h_edge c i t e pt]: as leader of term [t], [c] appended [e] at index [i]
      after an entry of term [pt];
    - [h_lead t c h]: [c] became leader of term [t] with a log ending at [h];
    - [h_cand t c h]: [c] asked for votes in term [t] with a log ending at [h];
    - [h_vote v t c h late]: [v] voted for [c] in term [t] with a log ending at
      [h]; [late] if it may have heard of a leader of that term before;
    - [h_ack v t p]: in term [t], [v] told the leader that its log holds [p];
    - [h_left v t]: [v] was a follower in term [t]. *)
Record history := mkHistory {
  h_edge : Z → Z → Z → Entry → Z → Prop;
  h_lead : Z → Z → pos → Prop;
  h_cand : Z → Z → pos → Prop;
  h_vote : Z → Z → Z → pos → bool → Prop;
  h_ack : Z → Z → pos → Prop;
  h_left : Z → Z → Prop
}.
Implicit Types (S : history) (p q h : pos).

(** [S'] adds to [S] only what [n] did. *)
Record extends (n : Z) S S' : Prop := {
  gr_edge c i t e pt : h_edge S c i t e pt → h_edge S' c i t e pt;
  gr_lead t c h : h_lead S t c h → h_lead S' t c h;
  gr_cand t c h : h_cand S t c h → h_cand S' t c h;
  gr_vote v t c h b : h_vote S v t c h b → h_vote S' v t c h b;
  gr_ack v t p : h_ack S v t p → h_ack S' v t p;
  gr_left v t : h_left S v t → h_left S' v t;
  gr_edge_by c i t e pt : h_edge S' c i t e pt → h_edge S c i t e pt ∨ c = n;
  gr_lead_by t c h : h_lead S' t c h → h_lead S t c h ∨ c = n;
  gr_cand_by t c h : h_cand S' t c h → h_cand S t c h ∨ c = n;
  gr_vote_by v t c h b : h_vote S' v t c h b → h_vote S v t c h b ∨ v = n;
  gr_ack_by v t p : h_ack S' v t p → h_ack S v t p ∨ v = n;
  gr_left_by v t : h_left S' v t → h_left S v t ∨ v = n
}.

Lemma extends_refl n S : extends n S S.
Proof. split; auto. Qed.
Lemma extends_trans n S1 S2 S3 : extends n S1 S2 → extends n S2 S3 → extends n S1 S3.
Proof.
  intros [] []. split; auto.
  - intros c i t e pt [?|?]%gr_edge_by1; auto.
  - intros t c h [?|?]%gr_lead_by1; auto.
  - intros t c h [?|?]%gr_cand_by1; auto.
  - intros v t c h b [?|?]%gr_vote_by1; auto.
  - intros v t p [?|?]%gr_ack_by1; auto.
  - intros v t [?|?]%gr_left_by1; auto.
Qed.

(** [p] is on the path to [q]. *)
Inductive anc S p : pos → Prop :=
| anc_refl : anc S p p
| anc_step c i t e pt : h_edge S c i t e pt → anc S p (i - 1, pt) → anc S p (i, t).

Section Tree.
(** The members of the group and the position all their logs start from. *)
Context (M : gset Z) (base : pos).

Definition valid S p : Prop := anc S base p.

(** The last positions the leader of [t] has had. *)
Definition tip S (t : Z) p : Prop := (∃ c, h_lead S t c p) ∨ (p.2 = t ∧ ∃ c e pt, h_edge S c p.1 t e pt).
Definition onpath S (t : Z) p : Prop := ∃ q, tip S t q ∧ anc S p q.

(** A leader with a term in [(t, T]] had another entry where [p] passes. *)
Definition lost S p (t T : Z) : Prop :=
  ∃ t2 k u u', t < t2 ≤ T ∧ anc S (k, u) p ∧ onpath S t2 (k, u') ∧ u ≠ u'.

(** [h] is at least as up to date as [h']. *)
Definition uptodate h h' : Prop := h'.2 < h.2 ∨ h.2 = h'.2 ∧ h'.1 ≤ h.1.

(** [v] has acknowledged [p] or an entry after it in term [t]. *)
Definition held S (v t : Z) p : Prop := ∃ q, h_ack S v t q ∧ anc S p q.

Definition majority (Q : gset Z) : Prop := Q ⊆ M ∧ (size M < 2 * size Q)%nat.

Record history_ok S : Prop := {
  ho_edge_fun c c' i t e e' pt pt' : h_edge S c i t e pt → h_edge S c' i t e' pt' → e = e' ∧ pt = pt';
  ho_edge c i t e pt : h_edge S c i t e pt →
    e_Term e = t ∧ e_Index e = i ∧ valid S (i - 1, pt) ∧ ∃ h, h_lead S t c h ∧ ((i - 1, pt) = h ∨ pt = t);
  ho_lead_fun t c c' h h' : h_lead S t c h → h_lead S t c' h' → c = c' ∧ h = h';
  ho_lead t c h : h_lead S t c h →
    valid S h ∧ h.2 < t ∧ base.2 < t ∧ h_cand S t c h ∧
    ∃ Q, majority Q ∧ ∀ v, v ∈ Q → ∃ hv, h_vote S v t c hv false ∧ uptodate h hv;
  ho_cand_fun t c h h' : h_cand S t c h → h_cand S t c h' → h = h';
  ho_vote_fun v t c c' h h' b b' : h_vote S v t c h b → h_vote S v t c' h' b' → c = c' ∧ h = h' ∧ b = b';
  ho_vote v t c h b : h_vote S v t c h b →
    valid S h ∧ (b = true → ∃ c' h', h_lead S t c' h') ∧ ∃ hc, h_cand S t c hc ∧ uptodate hc h;
  ho_ack v t p : h_ack S v t p → onpath S t p;
  ho_ack_vote v t p t' c h : held S v t p → h_vote S v t' c h false → t < t' → anc S p h ∨ lost S p t (t' - 1)
}.

(** ** Paths *)

Lemma anc_trans S p q r : anc S p q → anc S q r → anc S p r.
Proof. intros Hpq. induction 1; [done|]. by eapply anc_step. Qed.

Lemma anc_mono n S S' p q : extends n S S' → anc S p q → anc S' p q.
Proof. intros [] . induction 1 as [|c i t e pt He _ IH]; [apply anc_refl|]. eapply anc_step; eauto. Qed.
Lemma valid_mono n S S' p : extends n S S' → valid S p → valid S' p.
Proof. apply anc_mono. Qed.
Lemma tip_mono n S S' t p : extends n S S' → tip S t p → tip S' t p.
Proof. intros []. unfold tip. intros [[c H]|(E & c & e & pt & H)]; [left; eauto|right; eauto 6]. Qed.
Lemma onpath_mono n S S' t p : extends n S S' → onpath S t p → onpath S' t p.
Proof. intros Hg (q & Ht & Ha). exists q. eauto using tip_mono, anc_mono. Qed.
Lemma lost_mono n S S' p t T T' : extends n S S' → T ≤ T' → lost S p t T → lost S' p t T'.
Proof. intros Hg HT (t2 & k & u & u' & ? & ? & ? & ?). exists t2, k, u, u'. split_and!; eauto using anc_mono, onpath_mono; lia. Qed.

Lemma anc_index S p q : anc S p q → p.1 ≤ q.1.
Proof. induction 1; cbn in *; lia. Qed.

Lemma onpath_anc S t p q : anc S p q → onpath S t q → onpath S t p.
Proof. intros Ha (r & Ht & Hr). exists r. eauto using anc_trans. Qed.
Lemma tip_onpath S t p : tip S t p → onpath S t p.
Proof. intros H. exists p. split; [done|apply anc_refl]. Qed.

Section Ok.
Context (S : history) (OK : history_ok S).

(** The positions on a path are ordered. *)
Lemma anc_linear p q r : anc S p r → anc S q r → p.1 ≤ q.1 → anc S p q.
Proof.
  intros Hp Hq. revert p Hp. induction Hq as [|c i t e pt He Hq IH]; intros p Hp Hle; [done|].
  inversion Hp as [E|c' i' t' e' pt' He' Hp' E]; subst.
  - apply anc_index in Hq. cbn in *. lia.
  - destruct (ho_edge_fun _ OK _ _ _ _ _ _ _ _ He He') as [_ <-]. auto.
Qed.
Lemma anc_same i t t' r : anc S (i, t) r → anc S (i, t') r → t = t'.
Proof.
  intros H1 H2. assert (Ha : anc S (i, t) (i, t')) by (eapply anc_linear; [done..|cbn; lia]).
  inversion Ha as [E|c i' t1 e pt He Hp E]; subst; [done|]. apply anc_index in Hp. cbn in Hp. lia.
Qed.
Lemma anc_antisym p q r : anc S p r → anc S q r → p.1 = q.1 → p = q.
Proof. destruct p as [i t], q as [j u]. cbn. intros H1 H2 <-. f_equal. by eapply anc_same. Qed.

Lemma anc_term p q : anc S p q → p.2 ≤ q.2.
Proof.
  induction 1 as [|c i t e pt He _ IH]; [lia|]. cbn in *.
  destruct (ho_edge _ OK _ _ _ _ _ He) as (_ & _ & _ & h & Hl & Hh). destruct (ho_lead _ OK _ _ _ Hl) as (_ & Hlt & _).
  destruct Hh as [<-|Hpt]; cbn in *; lia.
Qed.

Lemma anc_valid p q : anc S p q → valid S q → base.1 ≤ p.1 → valid S p.
Proof. intros Hp Hq Hi. eapply anc_linear; [exact Hq|exact Hp|lia]. Qed.

(** A path has a position at every index. *)
Lemma anc_at q i : valid S q → base.1 ≤ i ≤ q.1 → ∃ t, anc S (i, t) q.
Proof.
  intros Hv. induction Hv as [|c j t e pt He Hv IH]; intros Hi.
  - exists base.2. replace (i, base.2) with base; [apply anc_refl|]. destruct base as [bi bt]. cbn in *. f_equal. lia.
  - cbn in Hi. destruct (decide (i = j)) as [->|]; [exists t; apply anc_refl|].
    destruct IH as [u Hu]; [cbn; lia|]. exists u. by eapply anc_step.
Qed.

(** The edge into a position with a term above the start's. *)
Lemma valid_edge i t : valid S (i, t) → base.2 < t → ∃ c e pt, h_edge S c i t e pt.
Proof. intros Hv Hb. inversion Hv as [E|c i' t' e pt He _ [E1 E2]]; [rewrite E in Hb; cbn in Hb; lia|subst; eauto]. Qed.

(** ** The path of a leader *)

(** Entries of a term follow the log its leader started from. *)
Lemma lead_anc t c h i c' e pt : h_lead S t c h → h_edge S c' i t e pt → anc S h (i, t) ∧ h.1 < i.
Proof.
  intros Hl He. pose proof (ho_edge _ OK _ _ _ _ _ He) as (_ & _ & Hv & h' & Hl' & Hh).
  destruct (ho_lead _ OK _ _ _ Hl) as (_ & Hlt & Hb & _).
  destruct (ho_lead_fun _ OK _ _ _ _ _ Hl Hl') as [_ <-]. clear Hl'. remember (i - 1, pt) as p eqn:Ep.
  revert i c' e pt He Ep Hh. induction Hv as [|c0 j u e0 pt0 He0 Hv IH]; intros i c' e pt He Ep Hh.
  - destruct Hh as [<-|Hpt]; [|rewrite Ep in Hb; cbn in Hb; lia]. rewrite Ep. split; [eapply anc_step; [exact He|apply anc_refl]|cbn; lia].
  - injection Ep as -> ->. destruct Hh as [E|Hpt].
    + rewrite -E. split; [eapply anc_step; [exact He|apply anc_refl]|cbn; lia].
    + subst pt. pose proof (ho_edge _ OK _ _ _ _ _ He0) as (_ & _ & _ & h1 & Hl1 & Hh1).
      destruct (ho_lead_fun _ OK _ _ _ _ _ Hl Hl1) as [_ <-].
      destruct (IH _ _ _ _ He0 eq_refl Hh1) as [Ha Hi]. split; [by eapply anc_step|lia].
Qed.

(** Two entries of one term are on one path. *)
Lemma same_term i j t : valid S (i, t) → valid S (j, t) → i ≤ j → anc S (i, t) (j, t).
Proof.
  intros Hi Hj Hle. destruct (decide (base.2 < t)) as [Hb|Hb].
  2:{ assert (E : ∀ k, valid S (k, t) → (k, t) = base).
      { intros k Hk. inversion Hk as [|c i' t' e pt He]; subst; [done|].
        destruct (ho_edge _ OK _ _ _ _ _ He) as (_ & _ & _ & h & Hl & _). destruct (ho_lead _ OK _ _ _ Hl) as (_ & _ & ? & _). lia. }
      rewrite (E _ Hi) (E _ Hj). apply anc_refl. }
  destruct (valid_edge _ _ Hi Hb) as (c1 & e1 & pt1 & He1).
  destruct (ho_edge _ OK _ _ _ _ _ He1) as (_ & _ & _ & h & Hl & _). destruct (lead_anc _ _ _ _ _ _ _ Hl He1) as [_ Hhi].
  remember (j, t) as q eqn:Eq. revert j Eq Hle. induction Hj as [|c j' u e pt He Hj IH]; intros j Eq Hle.
  - rewrite Eq in Hb. cbn in Hb. lia.
  - injection Eq as -> ->. destruct (decide (i = j)) as [->|Hne]; [apply anc_refl|].
    eapply anc_step; [exact He|]. destruct (ho_edge _ OK _ _ _ _ _ He) as (_ & _ & _ & h' & Hl' & Hh).
    destruct (ho_lead_fun _ OK _ _ _ _ _ Hl Hl') as [_ <-].
    destruct Hh as [E| ->]; [rewrite -E in Hhi; cbn in Hhi; lia|]. apply (IH (j - 1)); [done|lia].
Qed.

Lemma tip_valid t p : tip S t p → valid S p ∧ p.2 ≤ t ∧ base.2 < t.
Proof.
  intros [[c Hl]|(Ep & c & e & pt & He)].
  - destruct (ho_lead _ OK _ _ _ Hl) as (? & ? & ? & _). split_and!; [done|lia|done].
  - destruct p as [i u]. cbn in *. subst u. destruct (ho_edge _ OK _ _ _ _ _ He) as (_ & _ & Hv & h & Hl & _).
    destruct (ho_lead _ OK _ _ _ Hl) as (_ & _ & ? & _). split_and!; [by eapply anc_step|lia|done].
Qed.

Lemma tip_linear t p q : tip S t p → tip S t q → p.1 ≤ q.1 → anc S p q.
Proof.
  intros Hp Hq Hle. pose proof (tip_valid _ _ Hp) as [Hvp _]. pose proof (tip_valid _ _ Hq) as [Hvq _].
  destruct Hp as [[c Hp]|(Ep & c & e & pt & Hp)], Hq as [[c' Hq]|(Eq & c' & e' & pt' & Hq)].
  - destruct (ho_lead_fun _ OK _ _ _ _ _ Hp Hq) as [_ <-]. apply anc_refl.
  - destruct q as [j u]. cbn in *. subst u. by destruct (lead_anc _ _ _ _ _ _ _ Hp Hq).
  - destruct p as [i u]. cbn in *. subst u. destruct (lead_anc _ _ _ _ _ _ _ Hq Hp). lia.
  - destruct p as [i u], q as [j w]. cbn in *. subst u w. by apply same_term.
Qed.

Lemma onpath_linear t p q : onpath S t p → onpath S t q → p.1 ≤ q.1 → anc S p q.
Proof.
  intros (p' & Hp & Hpa) (q' & Hq & Hqa) Hle. destruct (decide (p'.1 ≤ q'.1)).
  - eapply anc_linear; [eapply anc_trans; [exact Hpa|]|exact Hqa|done]. by eapply tip_linear.
  - eapply anc_linear; [exact Hpa|eapply anc_trans; [exact Hqa|]|done]. eapply tip_linear; [done..|lia].
Qed.
Lemma onpath_term t p : onpath S t p → p.2 ≤ t.
Proof. intros (q & Hq & Ha). apply tip_valid in Hq as (_ & ? & _). apply anc_term in Ha. lia. Qed.

(** Two positions are on one path, or their paths part. *)
Lemma part p q :
  valid S p → valid S q → anc S p q ∨ anc S q p ∨ ∃ k u u', anc S (k, u) p ∧ anc S (k, u') q ∧ u ≠ u'.
Proof.
  intros Hp Hq. pose proof (anc_index _ _ _ Hp). pose proof (anc_index _ _ _ Hq). destruct (decide (p.1 ≤ q.1)).
  - destruct (anc_at q p.1 Hq) as [u Hu]; [lia|]. destruct (decide (u = p.2)) as [->|Hne].
    + left. by rewrite -surjective_pairing in Hu.
    + right. right. exists p.1, p.2, u. split_and!; [rewrite -surjective_pairing; apply anc_refl|done|done].
  - destruct (anc_at p q.1 Hp) as [u Hu]; [lia|]. destruct (decide (u = q.2)) as [->|Hne].
    + right. left. by rewrite -surjective_pairing in Hu.
    + right. right. exists q.1, u, q.2. split_and!; [done|rewrite -surjective_pairing; apply anc_refl|done].
Qed.

Lemma onpath_same t i u u' : onpath S t (i, u) → onpath S t (i, u') → u = u'.
Proof.
  intros H H'. eapply anc_same; [eapply onpath_linear; [exact H|exact H'|cbn; lia]|apply anc_refl].
Qed.
Lemma onpath_lead t p : onpath S t p → ∃ c h, h_lead S t c h.
Proof.
  intros (q & [[c Hl]|(_ & c & e & pt & He)] & _); [eauto|].
  destruct (ho_edge _ OK _ _ _ _ _ He) as (_ & _ & _ & h & Hl & _). eauto.
Qed.

(** Nothing precedes the start. *)
Lemma below_base p q : anc S p q → valid S q → p.1 ≤ base.1 → anc S p base.
Proof. intros Hp Hq Hle. by eapply anc_linear. Qed.
Lemma anc_base p : anc S p base → p = base.
Proof.
  intros H. remember base as b eqn:Eb in H. destruct H as [|c i t e pt He _]; [done|]. exfalso.
  destruct (ho_edge _ OK _ _ _ _ _ He) as (_ & _ & _ & h & Hl & _). destruct (ho_lead _ OK _ _ _ Hl) as (_ & _ & Hb & _).
  rewrite -Eb in Hb. cbn in Hb. lia.
Qed.
Lemma anc_is_valid p q : anc S p q → valid S q → valid S p.
Proof.
  intros Hp Hq. destruct (decide (base.1 ≤ p.1)); [by eapply anc_valid|].
  rewrite (anc_base p); [apply anc_refl|]. eapply below_base; [done..|lia].
Qed.

(** ** Committed entries *)

(** [p] is an entry of term [t] that a majority has acknowledged to its leader. *)
Definition chosen (S : history) (t : Z) p : Prop :=
  p.2 = t ∧ tip S t p ∧ ∃ Q, majority Q ∧ ∀ v, v ∈ Q → held S v t p.

(** Known to be committed by a peer in term [T]. *)
Definition com (S : history) (T : Z) p : Prop := p = base ∨ ∃ q u, u ≤ T ∧ chosen S u q ∧ anc S p q.

(** Leader completeness: whoever leads a later term started with the entry. *)
Lemma leader_completeness u q t c h : chosen S u q → h_lead S t c h → u < t → anc S q h.
Proof.
  intros (Eq & Htip & Q & HQ & Hack). destruct (tip_valid _ _ Htip) as (_ & _ & Hb). remember (Z.to_nat (t - u)) as n eqn:En.
  revert t c h En. induction n as [n IH] using lt_wf_ind. intros t c h En Hl Hlt.
  assert (Hother : ∀ t2 c2 h2, u < t2 < t → h_lead S t2 c2 h2 → anc S q h2).
  { intros t2 c2 h2 Ht2 Hl2. eapply (IH (Z.to_nat (t2 - u))); [lia|done|exact Hl2|lia]. }
  destruct (ho_lead _ OK _ _ _ Hl) as (Hvh & Hht & _ & _ & Q2 & HQ2 & Hvote).
  destruct (majorities_meet M Q Q2) as (v & Hv & Hv2); [apply HQ|apply HQ2|apply HQ|apply HQ2|].
  destruct (Hvote v Hv2) as (hv & Hw & Hup). destruct (ho_vote _ OK _ _ _ _ _ Hw) as (Hvhv & _ & _).
  assert (Hhv : anc S q hv).
  { destruct (ho_ack_vote _ OK _ _ _ _ _ _ (Hack v Hv) Hw Hlt) as [H|(t2 & k & x & x' & Ht2 & Hx & Hx' & Hne)]; [done|].
    exfalso. destruct (onpath_lead _ _ Hx') as (c2 & h2 & Hl2). apply Hne.
    eapply onpath_same; [|exact Hx']. eapply onpath_anc; [exact Hx|]. eapply onpath_anc; [by eapply (Hother t2); [lia|]|].
    apply tip_onpath. left. by exists c2. }
  pose proof (anc_term _ _ Hhv) as Hterm. destruct Hup as [Hgt|[Heq Hge]].
  - destruct h as [hi ht]. cbn in *. destruct (valid_edge _ _ Hvh) as (c2 & e & pt & He); [lia|].
    destruct (ho_edge _ OK _ _ _ _ _ He) as (_ & _ & _ & h2 & Hl2 & _). destruct (lead_anc _ _ _ _ _ _ _ Hl2 He) as [Ha _].
    eapply anc_trans; [|exact Ha]. eapply (Hother ht); [lia|exact Hl2].
  - eapply anc_trans; [exact Hhv|]. destruct h as [hi ht], hv as [vi vt]. cbn in *. subst vt. by apply same_term.
Qed.

(** What is committed is on the path of every leader that follows. *)
Lemma com_onpath T p c h t : com S T p → h_lead S t c h → T ≤ t → onpath S t p.
Proof.
  intros [->|(q & u & Hu & Hch & Ha)] Hl HT.
  - exists h. split; [left; eauto|]. by destruct (ho_lead _ OK _ _ _ Hl).
  - eapply onpath_anc; [exact Ha|]. destruct (decide (u = t)) as [->|Hne]; [by apply tip_onpath, Hch|].
    exists h. split; [left; eauto|]. eapply leader_completeness; [exact Hch|exact Hl|lia].
Qed.

(** State machine safety: committed positions are on one path. *)
Lemma committed_linear T T' p p' : com S T p → com S T' p' → p.1 ≤ p'.1 → anc S p p'.
Proof.
  intros Hp Hp' Hle.
  assert (Hone : ∀ q u q' u', u ≤ u' → chosen S u q → chosen S u' q' → onpath S u' q).
  { intros q u q' u' Hu Hq Hq'. destruct (decide (u = u')) as [->|Hne]; [by apply tip_onpath, Hq|].
    destruct Hq' as (_ & Htip & _). apply tip_onpath, onpath_lead in Htip as (c & h & Hl).
    exists h. split; [left; eauto|]. eapply leader_completeness; [exact Hq|exact Hl|lia]. }
  assert (Hbase : ∀ q u, chosen S u q → valid S q) by (intros q u (_ & Htip & _); by destruct (tip_valid _ _ Htip)).
  destruct Hp as [->|(q & u & _ & Hq & Ha)], Hp' as [->|(q' & u' & _ & Hq' & Ha')].
  - apply anc_refl.
  - eapply anc_linear; [by eapply Hbase|exact Ha'|done].
  - by eapply below_base; [eapply anc_trans; [exact Ha|apply anc_refl]|eapply Hbase|].
  - destruct (decide (u ≤ u')).
    + eapply (onpath_linear u'); [eapply onpath_anc; [exact Ha|by eapply Hone]|eapply onpath_anc; [exact Ha'|by apply tip_onpath, Hq']|done].
    + eapply (onpath_linear u); [eapply onpath_anc; [exact Ha|by apply tip_onpath, Hq]|eapply onpath_anc; [exact Ha'|eapply Hone; [|exact Hq'|exact Hq]; lia]|done].
Qed.
End Ok.

(** ** What the peers add *)

Lemma held_mono n S S' v t p : extends n S S' → held S v t p → held S' v t p.
Proof. intros Hg (q & Ha & Hp). exists q. split; [by apply (gr_ack _ _ _ Hg)|by eapply anc_mono]. Qed.
Lemma chosen_mono n S S' t p : extends n S S' → chosen S t p → chosen S' t p.
Proof. intros Hg (E & Ht & Q & HQ & Hh). split_and!; [done|by eapply tip_mono|]. exists Q. split; [done|]. intros v Hv. eapply held_mono; eauto. Qed.
Lemma com_mono n S S' T T' p : extends n S S' → T ≤ T' → com S T p → com S' T' p.
Proof.
  intros Hg HT [->|(q & u & Hu & Hc & Ha)]; [by left|right]. exists q, u. split_and!; [lia|by eapply chosen_mono|by eapply anc_mono].
Qed.

Definition add_ack S (v t : Z) p : history :=
  mkHistory (h_edge S) (h_lead S) (h_cand S) (h_vote S) (λ v' t' p', h_ack S v' t' p' ∨ (v', t', p') = (v, t, p)) (h_left S).
Definition add_cand S (t c : Z) h : history :=
  mkHistory (h_edge S) (h_lead S) (λ t' c' h', h_cand S t' c' h' ∨ (t', c', h') = (t, c, h)) (h_vote S) (h_ack S) (h_left S).
Definition add_vote S (v t c : Z) h (b : bool) : history :=
  mkHistory (h_edge S) (h_lead S) (h_cand S) (λ v' t' c' h' b', h_vote S v' t' c' h' b' ∨ (v', t', c', h', b') = (v, t, c, h, b)) (h_ack S) (h_left S).
Definition add_lead S (t c : Z) h : history :=
  mkHistory (h_edge S) (λ t' c' h', h_lead S t' c' h' ∨ (t', c', h') = (t, c, h)) (h_cand S) (h_vote S) (h_ack S) (h_left S).
Definition add_edge S (c i t : Z) (e : Entry) (pt : Z) : history :=
  mkHistory (λ c' i' t' e' pt', h_edge S c' i' t' e' pt' ∨ (c', i', t', e', pt') = (c, i, t, e, pt))
    (h_lead S) (h_cand S) (h_vote S) (h_ack S) (h_left S).
Definition add_left S (v t : Z) : history :=
  mkHistory (h_edge S) (h_lead S) (h_cand S) (h_vote S) (h_ack S) (λ v' t', h_left S v' t' ∨ (v', t') = (v, t)).

Lemma extends_ack S v t p : extends v S (add_ack S v t p).
Proof. split; cbn; auto; naive_solver. Qed.
Lemma extends_cand S t c h : extends c S (add_cand S t c h).
Proof. split; cbn; auto; naive_solver. Qed.
Lemma extends_vote S v t c h b : extends v S (add_vote S v t c h b).
Proof. split; cbn; auto; naive_solver. Qed.
Lemma extends_lead S t c h : extends c S (add_lead S t c h).
Proof. split; cbn; auto; naive_solver. Qed.
Lemma extends_edge S c i t e pt : extends c S (add_edge S c i t e pt).
Proof. split; cbn; auto; naive_solver. Qed.
Lemma extends_left S v t : extends v S (add_left S v t).
Proof. split; cbn; auto; naive_solver. Qed.

(** What an extension keeps of the facts about old votes, acknowledgements and
    leaders. *)
Lemma ho_edge_mono n S S' c i t e pt :
  history_ok S → extends n S S' → h_edge S c i t e pt →
  e_Term e = t ∧ e_Index e = i ∧ valid S' (i - 1, pt) ∧ ∃ h, h_lead S' t c h ∧ ((i - 1, pt) = h ∨ pt = t).
Proof.
  intros OK Hg He. destruct (ho_edge _ OK _ _ _ _ _ He) as (? & ? & ? & h & ? & ?). split_and!; [done..|by eapply valid_mono|].
  exists h. split; [by apply (gr_lead _ _ _ Hg)|done].
Qed.
Lemma ho_lead_mono n S S' t c h :
  history_ok S → extends n S S' → h_lead S t c h →
  valid S' h ∧ h.2 < t ∧ base.2 < t ∧ h_cand S' t c h ∧ ∃ Q, majority Q ∧ ∀ v, v ∈ Q → ∃ hv, h_vote S' v t c hv false ∧ uptodate h hv.
Proof.
  intros OK Hg Hl. destruct (ho_lead _ OK _ _ _ Hl) as (? & ? & ? & ? & Q & ? & HQ). split_and!; [by eapply valid_mono|done|done|by apply (gr_cand _ _ _ Hg)|].
  exists Q. split; [done|]. intros v Hv. destruct (HQ v Hv) as (hv & ? & ?). exists hv. split; [by apply (gr_vote _ _ _ Hg)|done].
Qed.
Lemma ho_vote_mono n S S' v t c h b :
  history_ok S → extends n S S' → h_vote S v t c h b →
  valid S' h ∧ (b = true → ∃ c' h', h_lead S' t c' h') ∧ ∃ hc, h_cand S' t c hc ∧ uptodate hc h.
Proof.
  intros OK Hg Hv. destruct (ho_vote _ OK _ _ _ _ _ Hv) as (? & Hb & hc & ? & ?). split_and!; [by eapply valid_mono| |].
  - intros E. destruct (Hb E) as (c' & h' & Hl). exists c', h'. by apply (gr_lead _ _ _ Hg).
  - exists hc. split; [by apply (gr_cand _ _ _ Hg)|done].
Qed.
Lemma ho_ack_vote_mono n S S' v t q p t' c h :
  history_ok S → extends n S S' → h_ack S v t q → anc S p q → h_vote S v t' c h false → t < t' →
  anc S' p h ∨ lost S' p t (t' - 1).
Proof.
  intros OK Hg Ha Hp Hv Ht. destruct (ho_ack_vote _ OK v t p t' c h) as [H|H]; [by exists q|done..|left; by eapply anc_mono|right].
  eapply lost_mono; [done| |done]. lia.
Qed.

(** A path that was complete has not changed. *)
Lemma anc_back n S S' p q : history_ok S' → extends n S S' → valid S q → anc S' p q → anc S p q.
Proof.
  intros OK Hg Hv Ha. induction Ha as [|c i t e pt He Ha IH]; [apply anc_refl|].
  inversion Hv as [E|c' i' t' e' pt' He' Hv' [E1 E2]].
  - exfalso. assert (Hb : base.2 < t); [|rewrite E in Hb; cbn in Hb; lia].
    destruct (ho_edge _ OK _ _ _ _ _ He) as (_ & _ & _ & h & Hl & _). by destruct (ho_lead _ OK _ _ _ Hl) as (_ & _ & ? & _).
  - subst. destruct (ho_edge_fun _ OK _ _ _ _ _ _ _ _ He (gr_edge _ _ _ Hg _ _ _ _ _ He')) as [-> ->]. eapply anc_step; [exact He'|auto].
Qed.
Lemma held_back n S S' v t p : history_ok S → history_ok S' → extends n S S' → n ≠ v → held S' v t p → held S v t p.
Proof.
  intros OK OK' Hg Hne (q & Ha & Hp). destruct (gr_ack_by _ _ _ Hg _ _ _ Ha) as [Ha'|]; [|congruence]. exists q. split; [done|].
  eapply anc_back; [done..| |exact Hp]. destruct (ho_ack _ OK _ _ _ Ha') as (q' & Ht & Hq). eapply anc_is_valid; [done|exact Hq|].
  by destruct (tip_valid _ OK _ _ Ht).
Qed.

(** Paths only change where edges do. *)
Lemma anc_same_edges S S' p q :
  (∀ c i t e pt, h_edge S' c i t e pt → h_edge S c i t e pt) → anc S' p q → anc S p q.
Proof. intros HE. induction 1; [apply anc_refl|]. eapply anc_step; eauto. Qed.

Lemma add_ack_ok S v t p :
  history_ok S → onpath S t p → (∀ t' c h b, h_vote S v t' c h b → t' ≤ t) → history_ok (add_ack S v t p).
Proof.
  intros OK Hp Hv. pose proof (extends_ack S v t p) as Hg. split; cbn [add_ack h_edge h_lead h_cand h_vote h_ack h_left].
  - apply (ho_edge_fun _ OK).
  - intros c i t' e pt. exact (ho_edge_mono _ _ _ _ _ _ _ _ OK Hg).
  - apply (ho_lead_fun _ OK).
  - intros t' c h. exact (ho_lead_mono _ _ _ _ _ _ OK Hg).
  - apply (ho_cand_fun _ OK).
  - apply (ho_vote_fun _ OK).
  - intros v' t' c h b. exact (ho_vote_mono _ _ _ _ _ _ _ _ OK Hg).
  - intros v' t' p' [Ha|[= -> -> ->]]; (eapply onpath_mono; [done|]); [by apply (ho_ack _ OK) in Ha|done].
  - intros v' t1 p1 t2 c h (q & [Ha|[= -> -> ->]] & Hq) Hvt Hlt; [|apply Hv in Hvt; lia].
    eapply (ho_ack_vote_mono v S); [done|done|exact Ha| |done..]. by eapply anc_same_edges; [|exact Hq].
Qed.

Lemma add_cand_ok S t c h : history_ok S → (∀ h', ¬ h_cand S t c h') → history_ok (add_cand S t c h).
Proof.
  intros OK Hnew. pose proof (extends_cand S t c h) as Hg. split; cbn [add_cand h_edge h_lead h_cand h_vote h_ack].
  - apply (ho_edge_fun _ OK).
  - intros c' i t' e pt. exact (ho_edge_mono _ _ _ _ _ _ _ _ OK Hg).
  - apply (ho_lead_fun _ OK).
  - intros t' c' h'. exact (ho_lead_mono _ _ _ _ _ _ OK Hg).
  - intros t' c' h1 h2 [H1|E1] [H2|E2]; [by eapply (ho_cand_fun _ OK)|simplify_eq; by apply Hnew in H1|simplify_eq; by apply Hnew in H2|by simplify_eq].
  - apply (ho_vote_fun _ OK).
  - intros v' t' c' h' b. exact (ho_vote_mono _ _ _ _ _ _ _ _ OK Hg).
  - intros v' t' p' Ha. eapply onpath_mono; [done|]. by apply (ho_ack _ OK) in Ha.
  - intros v' t1 p1 t2 c' h' (q & Ha & Hq) Hvt Hlt.
    eapply (ho_ack_vote_mono c S); [done|done|exact Ha| |done..]. by eapply anc_same_edges; [|exact Hq].
Qed.

(** A vote: of a peer that has not voted in the term, whose acknowledged entries
    are in its log unless a leader of an earlier term replaced them. *)
Lemma add_vote_ok S v t c h b :
  history_ok S → valid S h → (∀ c' h' b', ¬ h_vote S v t c' h' b') → (b = true → ∃ c' h', h_lead S t c' h') →
  (∃ hc, h_cand S t c hc ∧ uptodate hc h) →
  (b = false → ∀ u p, held S v u p → u < t → anc S p h ∨ lost S p u (t - 1)) → history_ok (add_vote S v t c h b).
Proof.
  intros OK Hh Hnew Hb Hcand Hheld. pose proof (extends_vote S v t c h b) as Hg. split; cbn [add_vote h_edge h_lead h_cand h_vote h_ack].
  - apply (ho_edge_fun _ OK).
  - intros c' i t' e pt. exact (ho_edge_mono _ _ _ _ _ _ _ _ OK Hg).
  - apply (ho_lead_fun _ OK).
  - intros t' c' h'. exact (ho_lead_mono _ _ _ _ _ _ OK Hg).
  - apply (ho_cand_fun _ OK).
  - intros v' t' c1 c2 h1 h2 b1 b2 [H1|E1] [H2|E2]; [by eapply (ho_vote_fun _ OK)|simplify_eq; by apply Hnew in H1|simplify_eq; by apply Hnew in H2|by simplify_eq].
  - intros v' t' c' h' b' [H|H]; [exact (ho_vote_mono _ _ _ _ _ _ _ _ OK Hg H)|simplify_eq].
    split_and!; [by eapply valid_mono| |done]. intros E. destruct (Hb E) as (c' & h' & ?). eauto.
  - intros v' t' p' Ha. eapply onpath_mono; [done|]. by apply (ho_ack _ OK) in Ha.
  - intros v' t1 p1 t2 c' h' (q & Ha & Hq) [Hvt|Hnv] Hlt.
    + eapply (ho_ack_vote_mono v S); [done|done|exact Ha| |done..]. by eapply anc_same_edges; [|exact Hq].
    + simplify_eq. destruct (Hheld eq_refl t1 p1) as [H|H]; [exists q; split; [done|by eapply anc_same_edges; [|exact Hq]]|done|left; by eapply anc_mono|right].
      eapply lost_mono; [done| |done]. lia.
Qed.

(** A leader: of a term that had none, with the votes of a majority. *)
Lemma add_lead_ok S t c h Q :
  history_ok S → valid S h → h.2 < t → base.2 < t → h_cand S t c h → (∀ c' h', ¬ h_lead S t c' h') → majority Q →
  (∀ v, v ∈ Q → ∃ hv, h_vote S v t c hv false ∧ uptodate h hv) → history_ok (add_lead S t c h).
Proof.
  intros OK Hh Ht Hb Hcd Hnew HQ Hvotes. pose proof (extends_lead S t c h) as Hg. split; cbn [add_lead h_edge h_lead h_cand h_vote h_ack].
  - apply (ho_edge_fun _ OK).
  - intros c' i t' e pt. exact (ho_edge_mono _ _ _ _ _ _ _ _ OK Hg).
  - intros t' c1 c2 h1 h2 [H1|E1] [H2|E2]; [by eapply (ho_lead_fun _ OK)|simplify_eq; by apply Hnew in H1|simplify_eq; by apply Hnew in H2|by simplify_eq].
  - intros t' c' h' [H|H]; [exact (ho_lead_mono _ _ _ _ _ _ OK Hg H)|simplify_eq].
    split_and!; [by eapply valid_mono|done|done|done|]. by exists Q.
  - apply (ho_cand_fun _ OK).
  - apply (ho_vote_fun _ OK).
  - intros v' t' c' h' b. exact (ho_vote_mono _ _ _ _ _ _ _ _ OK Hg).
  - intros v' t' p' Ha. eapply onpath_mono; [done|]. by apply (ho_ack _ OK) in Ha.
  - intros v' t1 p1 t2 c' h' (q & Ha & Hq) Hvt Hlt.
    eapply (ho_ack_vote_mono c S); [done|done|exact Ha| |done..]. by eapply anc_same_edges; [|exact Hq].
Qed.

(** A follower. *)
Lemma add_left_ok S v t : history_ok S → history_ok (add_left S v t).
Proof.
  intros OK. pose proof (extends_left S v t) as Hg. split; cbn [add_left h_edge h_lead h_cand h_vote h_ack h_left].
  - apply (ho_edge_fun _ OK).
  - intros c' i t' e pt. exact (ho_edge_mono _ _ _ _ _ _ _ _ OK Hg).
  - apply (ho_lead_fun _ OK).
  - intros t' c' h'. exact (ho_lead_mono _ _ _ _ _ _ OK Hg).
  - apply (ho_cand_fun _ OK).
  - apply (ho_vote_fun _ OK).
  - intros v' t' c' h' b. exact (ho_vote_mono _ _ _ _ _ _ _ _ OK Hg).
  - intros v' t' p' Ha. eapply onpath_mono; [done|]. by apply (ho_ack _ OK) in Ha.
  - intros v' t1 p1 t2 c' h' (q & Ha & Hq) Hvt Hlt.
    eapply (ho_ack_vote_mono v S); [done|done|exact Ha| |done..]. by eapply anc_same_edges; [|exact Hq].
Qed.

(** An entry: a leader's, after its last one. *)
Lemma anc_fresh_edge S c i t e pt p q :
  history_ok S → base.2 < t → (∀ c' e' pt', ¬ h_edge S c' i t e' pt') → valid S q →
  anc (add_edge S c i t e pt) p q → anc S p q.
Proof.
  intros OK Hb Hnew Hv Ha. induction Ha as [|c' i' t' e' pt' He Ha IH]; [apply anc_refl|].
  destruct He as [He|He]; [|simplify_eq].
  - eapply anc_step; [exact He|]. apply IH. by destruct (ho_edge _ OK _ _ _ _ _ He) as (_ & _ & ? & _).
  - destruct (valid_edge _ _ _ Hv Hb) as (c2 & e2 & pt2 & He). by apply Hnew in He.
Qed.
Lemma add_edge_ok S c i t e pt h :
  history_ok S → h_lead S t c h → valid S (i - 1, pt) → ((i - 1, pt) = h ∨ pt = t) → e_Term e = t → e_Index e = i →
  (∀ c' e' pt', ¬ h_edge S c' i t e' pt') → history_ok (add_edge S c i t e pt).
Proof.
  intros OK Hl Hv Hh Et Ei Hnew. pose proof (extends_edge S c i t e pt) as Hg.
  destruct (ho_lead _ OK _ _ _ Hl) as (_ & _ & Hb & _). split; cbn [add_edge h_edge h_lead h_cand h_vote h_ack].
  - intros c1 c2 i' t' e1 e2 pt1 pt2 [H1|E1] [H2|E2]; [by eapply (ho_edge_fun _ OK)|simplify_eq; by apply Hnew in H1|simplify_eq; by apply Hnew in H2|by simplify_eq].
  - intros c' i' t' e' pt' [H|H]; [exact (ho_edge_mono _ _ _ _ _ _ _ _ OK Hg H)|simplify_eq].
    split_and!; [done..|by eapply valid_mono|]. by exists h.
  - apply (ho_lead_fun _ OK).
  - intros t' c' h'. exact (ho_lead_mono _ _ _ _ _ _ OK Hg).
  - apply (ho_cand_fun _ OK).
  - apply (ho_vote_fun _ OK).
  - intros v' t' c' h' b. exact (ho_vote_mono _ _ _ _ _ _ _ _ OK Hg).
  - intros v' t' p' Ha. eapply onpath_mono; [done|]. by apply (ho_ack _ OK) in Ha.
  - intros v' t1 p1 t2 c' h' (q & Ha & Hq) Hvt Hlt.
    eapply (ho_ack_vote_mono c S); [done|done|exact Ha| |done..]. eapply anc_fresh_edge; [done..| |exact Hq].
    apply (ho_ack _ OK) in Ha as (q' & Htip & Hq'). eapply anc_is_valid; [done|exact Hq'|]. by destruct (tip_valid _ OK _ _ Htip).
Qed.

(** A run of entries. *)
Fixpoint add_path S (c t i pt : Z) (ents : list Entry) : history :=
  match ents with
  | [] => S
  | e :: ents => add_path (add_edge S c i t e pt) c t (i + 1) t ents
  end.
(** Where the run ends. *)
Definition path_end (t i pt : Z) (ents : list Entry) : pos :=
  match ents with [] => (i - 1, pt) | _ => (i - 1 + zlen ents, t) end.

Lemma add_path_ok S c t i pt ents h :
  history_ok S → h_lead S t c h → tip S t (i - 1, pt) → (∀ c' j e' pt', h_edge S c' j t e' pt' → j ≤ i - 1) →
  (∀ k e, ents !! k = Some e → e_Index e = i + Z.of_nat k ∧ e_Term e = t) →
  let S' := add_path S c t i pt ents in let q := path_end t i pt ents in
  history_ok S' ∧ extends c S S' ∧ tip S' t q ∧ (∀ c' j e' pt', h_edge S' c' j t e' pt' → j ≤ q.1) ∧ anc S' (i - 1, pt) q ∧
  (∀ e, e ∈ ents → anc S' (e_Index e, e_Term e) q ∧ ∃ pt', h_edge S' c (e_Index e) (e_Term e) e pt') ∧
  (∀ v u p, h_ack S' v u p → h_ack S v u p) ∧ (∀ v u a b x, h_vote S' v u a b x → h_vote S v u a b x) ∧
  (∀ u a b, h_lead S' u a b → h_lead S u a b) ∧ (∀ u a b, h_cand S' u a b → h_cand S u a b) ∧ (∀ v u, h_left S' v u → h_left S v u).
Proof.
  revert S i pt. induction ents as [|e ents IH]; intros S i pt OK Hl Htip Hmax Hents; cbn zeta.
  - split_and!; [done|apply extends_refl|done|done|apply anc_refl|by intros e ?%not_elem_of_nil|done..].
  - destruct (Hents 0%nat e eq_refl) as [Hi Ht]. rewrite Z.add_0_r in Hi.
    assert (Hnew : ∀ c' e' pt', ¬ h_edge S c' i t e' pt') by (intros c' e' pt' ?%Hmax; lia).
    assert (OK1 : history_ok (add_edge S c i t e pt)).
    { eapply add_edge_ok; [done|exact Hl|by destruct (tip_valid _ OK _ _ Htip)| |done..].
      destruct Htip as [[c' Hl']|[E _]]; [left; by destruct (ho_lead_fun _ OK _ _ _ _ _ Hl Hl')|by right]. }
    pose proof (extends_edge S c i t e pt) as Hg1.
    assert (He1 : h_edge (add_edge S c i t e pt) c i t e pt) by (by right).
    destruct (IH (add_edge S c i t e pt) (i + 1) t) as (OK2 & Hg2 & Htip2 & Hmax2 & Hanc2 & Hents2 & Ha2 & Hv2 & Hl2 & Hc2 & Hf2).
    { done. }
    { done. }
    { right. replace (i + 1 - 1) with i by lia. split; [done|]. eauto. }
    { intros c' j e' pt' [H|H]; [apply Hmax in H; lia|simplify_eq; lia]. }
    { intros k e' Hk. destruct (Hents (Datatypes.S k) e' Hk). split; [lia|done]. }
    assert (Hq : path_end t (i + 1) t ents = path_end t i pt (e :: ents)).
    { unfold path_end, zlen. destruct ents; cbn [length]; f_equal; lia. }
    cbn [add_path]. rewrite -Hq. replace (i + 1 - 1) with i in Hanc2 by lia.
    split_and!; [done|by eapply extends_trans|done|done| | |auto..].
    + eapply anc_trans; [|exact Hanc2]. eapply anc_step; [by apply (gr_edge _ _ _ Hg2)|apply anc_refl].
    + intros e' [->|Hin]%elem_of_cons; [|by apply Hents2]. rewrite Hi Ht. split; [done|]. exists pt. by apply (gr_edge _ _ _ Hg2).
Qed.
End Tree.
