(* ===== verification/RaftSafety.v ===== *)
(** One raft peer and the history of its group.

    [peer_inv S n r] relates the state of peer [n] to the history [S] of
    RaftTree: its log is a path of the tree, what it has committed is committed
    in the group, its votes and acknowledgements are those [S] records.  Every
    method of raft.go keeps it, extending the history only by what [n] does
    ([moves]). *)

From S2P Require Import Prelude RaftPb RaftStorage RaftLog RaftLogSpec Raft RawNode RaftProps Election RaftTree.

(** Taking a snapshot leaves the log of a storage alone. *)
Class SnapshotKeeps (T : Type) `{!RaftStorage T} : Prop := {
  sk_FirstIndex st : st_FirstIndex (st_Snapshot st).1 = st_FirstIndex st;
  sk_LastIndex st : st_LastIndex (st_Snapshot st).1 = st_LastIndex st;
  sk_Term st i : st_Term (st_Snapshot st).1 i = st_Term st i;
  sk_Entries st lo hi : st_Entries (st_Snapshot st).1 lo hi = st_Entries st lo hi;
  sk_InitialState st : st_InitialState (st_Snapshot st).1 = st_InitialState st
}.

(** The storages after some snapshots, and the snapshots they give. *)
Definition later {T} `{!RaftStorage T} : relation T := rtc (λ st st', st' = (st_Snapshot st).1).
Definition gives {T} `{!RaftStorage T} (st : T) (s : Snapshot) : Prop := ∃ st', later st st' ∧ (st_Snapshot st').2 = Ok s.

Section Safety.
Context {T : Type} {HS : RaftStorage T} {HG : GoEnv} {HK : SnapshotKeeps T}.
Context {M : gset Z} {base : pos}.

Notation valid := (valid base).
Notation com := (com M base).
Notation chosen := (chosen M).
Notation history_ok := (history_ok M base).
Notation snap_members := (snap_members M).
Implicit Types (S : history) (l : RaftLog T) (r : Raft T) (m : Message).

(** ** The log *)

Definition last_term l : Z := match term_at l (last_index l) with Some t => t | None => 0 end.
(** The last position of a log. *)
Definition tail l : pos := (last_index l, last_term l).

Record log_inv S l : Prop := {
  li_wf : log_wf l;
  li_storage : storage_ok l;
  li_valid : valid S (tail l);
  li_term i t : term_at l i = Some t → anc S (i, t) (tail l);
  li_entry i e : entry_at l i = Some e → ∃ c pt, h_edge S c i (e_Term e) e pt
}.

Lemma last_index_range l : log_wf l → snapIndex l ≤ last_index l.
Proof. intros H. pose proof (lw_commit _ H). lia. Qed.
Lemma term_at_last l : log_wf l → term_at l (last_index l) = Some (last_term l).
Proof.
  intros H. unfold last_term. pose proof (last_index_range _ H). destruct (proj2 (term_at_is_Some l (last_index l) H)) as [t Ht]; [lia|]. by rewrite Ht.
Qed.
Lemma term_at_anc S l i t :
  history_ok S → log_inv S l → snapIndex l ≤ i → anc S (i, t) (tail l) → term_at l i = Some t.
Proof.
  intros OK L Hi Ha. pose proof (anc_index _ _ _ Ha) as Hle. cbn in Hle.
  destruct (proj2 (term_at_is_Some l i (li_wf _ _ L))) as [u Hu]; [lia|]. rewrite Hu. f_equal.
  eapply anc_same; [done|by apply (li_term _ _ L)|exact Ha].
Qed.

Lemma log_inv_mono n S S' l : extends n S S' → log_inv S l → log_inv S' l.
Proof.
  intros Hg []. split; [done|done|by eapply valid_mono|intros; eapply anc_mono; eauto|].
  intros i e (c & pt & He)%li_entry0. exists c, pt. by apply (gr_edge _ _ _ Hg).
Qed.

(** ** Snapshots *)

Definition snap_fine S (t : Z) (s : Snapshot) : Prop :=
  snap_members s ∧ ∃ md, sp_Metadata s = Some md ∧ idx_ok (md_Index md) ∧ com S t (md_Index md, md_Term md).

Lemma snap_fine_mono n S S' t t' s : extends n S S' → t ≤ t' → snap_fine S t s → snap_fine S' t' s.
Proof. intros Hg Ht [? (md & ? & ? & ?)]. split; [done|]. exists md. split_and!; [done..|by eapply com_mono]. Qed.

(** ** Messages *)

Definition append_fine S (t : Z) m : Prop :=
  0 ≤ m_Index m ∧ 0 ≤ m_Commit m ∧ numbered (m_Index m + 1) (m_Entries m) ∧ idx_ok (m_Index m + zlen (m_Entries m)) ∧
  (∃ q, tip S t q ∧ q.1 = m_Index m + zlen (m_Entries m) ∧ anc S (m_Index m, LogTerm m) q ∧
    ∀ e, e ∈ m_Entries m → anc S (e_Index e, e_Term e) q ∧ ∃ c pt, h_edge S c (e_Index e) (e_Term e) e pt) ∧
  ∃ p, p.1 = m_Commit m ∧ com S t p ∧ onpath S t p.

Definition msg_inv S m : Prop :=
  (From m ∈ M ∧ (from_leader (MsgType m) = true → ∃ h, h_lead S (m_Term m) (From m) h)) ∧
  match MsgType m with
  | MsgAppend => m_Term m ≠ 0 ∧ append_fine S (m_Term m) m
  | MsgHeartbeat => m_Term m ≠ 0 ∧ To m ≠ From m ∧ 0 ≤ m_Commit m ∧
      (m_Commit m = 0 ∨ ∃ p, p.1 = m_Commit m ∧ com S (m_Term m) p ∧ held S (To m) (m_Term m) p)
  | MsgSnapshot => m_Term m ≠ 0 ∧ ∃ s md, m_Snapshot m = Some s ∧ sp_Metadata s = Some md ∧ snap_fine S (m_Term m) s ∧
      onpath S (m_Term m) (md_Index md, md_Term md)
  | MsgRequestVote => m_Term m ≠ 0 ∧ h_cand S (m_Term m) (From m) (m_Index m, LogTerm m)
  | MsgRequestVoteResponse => Reject m = false → m_Term m ≠ 0 ∧
      ∃ h b, h_vote S (From m) (m_Term m) (To m) h b
  | MsgAppendResponse => Reject m = false → m_Term m ≠ 0 ∧ h_left S (From m) (m_Term m) ∧ ∃ q, h_ack S (From m) (m_Term m) q ∧ q.1 = m_Index m
  | MsgPropose => False
  | _ => True
  end.

Lemma append_fine_mono n S S' t m : extends n S S' → append_fine S t m → append_fine S' t m.
Proof.
  intros Hg (? & ? & ? & ? & (q & ? & ? & ? & He) & (p & ? & ? & ?)). split_and!; [done..| |].
  - exists q. split_and!; [by eapply tip_mono|done|by eapply anc_mono|]. intros e Hin.
    destruct (He e Hin) as [? (c & pt & ?)]. split; [by eapply anc_mono|]. exists c, pt. by apply (gr_edge _ _ _ Hg).
  - exists p. split_and!; [done|by eapply com_mono|by eapply onpath_mono].
Qed.
Lemma msg_inv_mono n S S' m : extends n S S' → msg_inv S m → msg_inv S' m.
Proof.
  intros Hg [[Hf Hl] H]. split; [split; [done|]; intros [h ?]%Hl; exists h; by apply (gr_lead _ _ _ Hg)|]. clear Hl. destruct (MsgType m); try done.
  - destruct H. split; [done|by eapply append_fine_mono].
  - intros Hr. destruct (H Hr) as (? & ? & q & ? & ?). split_and!; [done|by apply (gr_left _ _ _ Hg)|]. exists q. split; [by apply (gr_ack _ _ _ Hg)|done].
  - destruct H. split; [done|by apply (gr_cand _ _ _ Hg)].
  - intros Hr. destruct (H Hr) as [? (h & b & ?)]. split; [done|]. exists h, b. by apply (gr_vote _ _ _ Hg).
  - destruct H as (? & s & md & ? & ? & ? & ?). split; [done|]. exists s, md. split_and!; [done..|by eapply snap_fine_mono|by eapply onpath_mono].
  - destruct H as (? & ? & ? & H). split_and!; [done..|]. destruct H as [?|(p & ? & ? & ?)]; [by left|right].
    exists p. split_and!; [done|by eapply com_mono|by eapply held_mono].
Qed.

(** ** The peer *)

(** What [n] has done is in its past. *)
Record past_inv S (n : Z) r : Prop := {
  pa_vote t c h b : h_vote S n t c h b → c ≠ None' ∧ t ≤ r_Term r ∧ (t = r_Term r → c = r_Vote r);
  pa_cand t h : h_cand S t n h → t ≤ r_Term r ∧ (t = r_Term r → r_State r = StateCandidate → h = tail (r_raftLog r));
  pa_lead t h : h_lead S t n h → t ≤ r_Term r ∧ (t = r_Term r → r_State r ≠ StateCandidate);
  pa_ack t p : h_ack S n t p → t ≤ r_Term r;
  pa_held t p : held S n t p → anc S p (tail (r_raftLog r)) ∨ lost S p t (r_Term r);
  pa_strict : (∀ t p, held S n t p → t < r_Term r → anc S p (tail (r_raftLog r)) ∨ lost S p t (r_Term r - 1)) ∨
    ∃ c h, h_lead S (r_Term r) c h;
  pa_left t : h_left S n t → t ≤ r_Term r ∧ (t = r_Term r → r_State r = StateFollower)
}.

Record lead_inv S (n : Z) r : Prop := {
  le_lead : ∃ h, h_lead S (r_Term r) n h;
  le_tip : tip S (r_Term r) (tail (r_raftLog r));
  le_last c i e pt : h_edge S c i (r_Term r) e pt → i ≤ last_index (r_raftLog r);
  le_match v pr : r_Prs r !! v = Some pr →
    (0 ≤ Match pr ∧ is_u64 (Next pr)) ∧ (Match pr = 0 ∨ ∃ q, h_ack S v (r_Term r) q ∧ Match pr = q.1);
  le_self : h_ack S n (r_Term r) (tail (r_raftLog r))
}.

Record peer_inv S (n : Z) r : Prop := {
  pi_id : r_id r = n;
  pi_mem : n ∈ M;
  pi_prs : dom (r_Prs r) = M;
  pi_log : log_inv S (r_raftLog r);
  pi_term : last_term (r_raftLog r) ≤ r_Term r ∧ base.2 ≤ r_Term r ∧ 0 ≤ r_Term r;
  pi_commit t : term_at (r_raftLog r) (committed (r_raftLog r)) = Some t → com S (r_Term r) (committed (r_raftLog r), t);
  pi_pending s : pending_snapshot (r_raftLog r) = Some s → snap_fine S (r_Term r) s;
  pi_gives s : gives (storage (r_raftLog r)) s → snap_fine S (r_Term r) s;
  pi_vote : r_Vote r ≠ None' → ∃ h b, h_vote S n (r_Term r) (r_Vote r) h b;
  pi_past : past_inv S n r;
  pi_cand : r_State r = StateCandidate → h_cand S (r_Term r) n (tail (r_raftLog r)) ∧
    last_term (r_raftLog r) < r_Term r ∧ base.2 < r_Term r ∧ r_Term r ≠ 0 ∧
    ∀ v, r_votes r !! v = Some true → v ∈ M ∧ ∃ hv b, h_vote S v (r_Term r) n hv b;
  pi_lead : r_State r = StateLeader → r_Term r ≠ 0 ∧ lead_inv S n r;
  pi_msgs m : m ∈ r_msgs r → msg_inv S m ∧ From m = n;
  pi_voted : r_State r ≠ StateFollower → r_Vote r ≠ None'
}.

(** What others do does not disturb [n]. *)
Lemma past_inv_others S S' n n' r :
  history_ok S → history_ok S' → extends n' S S' → n' ≠ n → past_inv S n r → past_inv S' n r.
Proof.
  intros OK OK' Hg Hne [].
  assert (Hb : ∀ t p, held S' n t p → held S n t p) by (intros t p; by eapply held_back).
  split.
  - intros t c h b [?|?]%(gr_vote_by _ _ _ Hg); [eauto|congruence].
  - intros t h [?|?]%(gr_cand_by _ _ _ Hg); [eauto|congruence].
  - intros t h [?|?]%(gr_lead_by _ _ _ Hg); [eauto|congruence].
  - intros t p [?|?]%(gr_ack_by _ _ _ Hg); [eauto|congruence].
  - intros t p [?|?]%Hb%pa_held0; [left; by eapply anc_mono|right; by eapply lost_mono].
  - destruct pa_strict0 as [Hs|(c & h & Hl)]; [left|right; exists c, h; by apply (gr_lead _ _ _ Hg)].
    intros t p Hh%Hb Ht. destruct (Hs t p Hh Ht); [left; by eapply anc_mono|right; by eapply lost_mono].
  - intros t [?|?]%(gr_left_by _ _ _ Hg); [eauto|congruence].
Qed.

Lemma lead_inv_others S S' n n' r :
  history_ok S' → extends n' S S' → n' ≠ n → lead_inv S n r → lead_inv S' n r.
Proof.
  intros OK' Hg Hne [(h & Hl) ? ? ? ?]. assert (Hl' : h_lead S' (r_Term r) n h) by (by apply (gr_lead _ _ _ Hg)). split.
  - eauto.
  - by eapply tip_mono.
  - intros c i e pt He. destruct (gr_edge_by _ _ _ Hg _ _ _ _ _ He) as [?| ->]; [eauto|]. exfalso. apply Hne.
    destruct (ho_edge _ _ _ OK' _ _ _ _ _ He) as (_ & _ & _ & h' & Hl2 & _). by destruct (ho_lead_fun _ _ _ OK' _ _ _ _ _ Hl2 Hl').
  - intros v pr Hpr. destruct (le_match0 v pr Hpr) as [? [?|(q & ? & ?)]]; (split; [done|]); [by left|right].
    exists q. split; [by apply (gr_ack _ _ _ Hg)|done].
  - by apply (gr_ack _ _ _ Hg).
Qed.

Lemma peer_inv_others S S' n n' r :
  history_ok S → history_ok S' → extends n' S S' → n' ≠ n → peer_inv S n r → peer_inv S' n r.
Proof.
  intros OK OK' Hg Hne []. split; try done.
  - by eapply log_inv_mono.
  - intros t Ht. eapply com_mono; [done| |by apply pi_commit0]. lia.
  - intros s Hs. eapply snap_fine_mono; [done| |by apply pi_pending0]. lia.
  - intros s Hs. eapply snap_fine_mono; [done| |by apply pi_gives0]. lia.
  - intros Hv. destruct (pi_vote0 Hv) as (h & b & ?). exists h, b. by apply (gr_vote _ _ _ Hg).
  - exact (past_inv_others S S' n n' r OK OK' Hg Hne pi_past0).
  - intros Hs. destruct (pi_cand0 Hs) as (? & ? & ? & ? & Hv). split_and!; [by apply (gr_cand _ _ _ Hg)|done..|].
    intros v Hvt. destruct (Hv v Hvt) as [? (hv & b & ?)]. split; [done|]. exists hv, b. by apply (gr_vote _ _ _ Hg).
  - intros Hs. destruct (pi_lead0 Hs). split; [done|by eapply lead_inv_others].
  - intros m Hm. destruct (pi_msgs0 m Hm). split; [by eapply msg_inv_mono|done].
Qed.

(** ** Steps that add nothing to the history *)

(** The fields the invariant does not see may change; a leader may forget where
    to continue sending, not what was acknowledged. *)
Definition unseen r r' : Prop :=
  r_id r' = r_id r ∧ r_Term r' = r_Term r ∧ r_Vote r' = r_Vote r ∧ r_State r' = r_State r ∧
  r_votes r' = r_votes r ∧ dom (r_Prs r') = dom (r_Prs r) ∧ r_msgs r' = r_msgs r ∧ r_raftLog r' = r_raftLog r ∧
  (r_State r = StateLeader → ∀ v pr', r_Prs r' !! v = Some pr' → 
    ∃ pr, r_Prs r !! v = Some pr ∧ Match pr' = Match pr ∧ (is_u64 (Next pr) → is_u64 (Next pr'))).

Lemma unseen_refl r : unseen r r.
Proof. unfold unseen. split_and!; eauto 6. Qed.

Lemma peer_inv_unseen S n r r' : peer_inv S n r → unseen r r' → peer_inv S n r'.
Proof.
  intros [] (I & Tm & V & St & W & P & Ms & L & Pr). split; rewrite ?I ?Tm ?V ?St ?W ?P ?Ms ?L; try done.
  - destruct pi_past0. split; rewrite ?Tm ?V ?St ?L; done.
  - intros Hs. destruct (pi_lead0 Hs) as [? []]. split; [done|]. split; rewrite ?Tm ?L; try done.
    intros v pr' Hpr'. destruct (Pr Hs v pr' Hpr') as (pr & Hpr & -> & Hn). destruct (le_match0 _ _ Hpr) as [[? ?] ?]. auto.
Qed.

(** A log with the same last position. *)
Lemma peer_inv_log S n r l' :
  peer_inv S n r → log_inv S l' → tail l' = tail (r_raftLog r) →
  (∀ t, term_at l' (committed l') = Some t → com S (r_Term r) (committed l', t)) →
  (∀ s, pending_snapshot l' = Some s → snap_fine S (r_Term r) s) →
  (∀ s, gives (storage l') s → snap_fine S (r_Term r) s) → peer_inv S n (set_raftLog l' r).
Proof.
  intros [] L' Ht Hc Hp Hgv. assert (Hlt : last_term l' = last_term (r_raftLog r)) by (unfold tail in Ht; congruence).
  assert (Hli : last_index l' = last_index (r_raftLog r)) by (unfold tail in Ht; congruence).
  split; cbn [set_raftLog r_id r_Term r_Vote r_State r_votes r_Prs r_msgs r_raftLog]; rewrite ?Ht ?Hlt; try done.
  - destruct pi_past0. split; cbn [set_raftLog r_id r_Term r_Vote r_State r_votes r_Prs r_msgs r_raftLog]; rewrite ?Ht; done.
  - intros Hs. destruct (pi_lead0 Hs) as [? []]. split; [done|].
    split; cbn [set_raftLog r_id r_Term r_Vote r_State r_votes r_Prs r_msgs r_raftLog]; rewrite ?Ht ?Hli; done.
Qed.

Lemma peer_inv_send S n r x :
  peer_inv S n r → msg_inv S x → From x = n → peer_inv S n (set_msgs (r_msgs r ++ [x]) r).
Proof.
  intros [] Hx Hf. split; try done.
  - by destruct pi_past0.
  - intros Hs. destruct (pi_lead0 Hs) as [? []]. split; [done|]. done.
  - intros m [Hm|Hm%list_elem_of_singleton]%elem_of_app; [auto|by subst].
Qed.

(** ** The leader *)

(** A leader's log has everything of its term's path. *)
Lemma lead_onpath S n r q :
  history_ok S → peer_inv S n r → r_State r = StateLeader → onpath S (r_Term r) q → anc S q (tail (r_raftLog r)).
Proof.
  intros OK Hp Hs (tp & Htp & Ha). eapply anc_trans; [exact Ha|]. destruct (pi_lead _ _ _ Hp Hs) as [_ [(h & Hl) Htail Hlast _ _]].
  apply (tip_linear _ _ _ OK (r_Term r)); [done..|]. destruct Htp as [[c Hl']|(E & c & e & pt & He)].
  - destruct (ho_lead_fun _ _ _ OK _ _ _ _ _ Hl Hl') as [_ <-]. destruct Htail as [[c' Hl2]|(E & c' & e & pt & He)].
    + destruct (ho_lead_fun _ _ _ OK _ _ _ _ _ Hl Hl2) as [_ ->]. lia.
    + cbn in He. destruct (lead_anc _ _ _ OK _ _ _ _ _ _ _ Hl He). cbn. lia.
  - apply Hlast in He. cbn. lia.
Qed.

Lemma com_lead S n r u p :
  history_ok S → peer_inv S n r → r_State r = StateLeader → com S u p → u ≤ r_Term r → anc S p (tail (r_raftLog r)) ∧ onpath S (r_Term r) p.
Proof.
  intros OK Hp Hs Hc HT. destruct (pi_lead _ _ _ Hp Hs) as [_ [(h & Hl) _ _ _ _]].
  assert (Ho : onpath S (r_Term r) p) by (by eapply com_onpath). split; [by eapply lead_onpath|done].
Qed.

Lemma commit_wf l i : log_wf l → committed l < i → i ≤ last_index l → log_wf (set_committed i l).
Proof. intros [] Hi Hl. split; try done; unfold last_index in *; cbn in *; lia. Qed.

Lemma log_inv_commit S l i : log_inv S l → log_wf (set_committed i l) → log_inv S (set_committed i l).
Proof. intros [] Hw. split; try done. Qed.

Lemma peer_inv_commit S n r i t :
  peer_inv S n r → committed (r_raftLog r) < i → term_at (r_raftLog r) i = Some t → com S (r_Term r) (i, t) →
  peer_inv S n (set_raftLog (set_committed i (r_raftLog r)) r).
Proof.
  intros Hp Hi Ht Hc. pose proof (pi_log _ _ _ Hp) as L. pose proof (li_wf _ _ L) as Hw.
  assert (Hr : snapIndex (r_raftLog r) ≤ i ≤ last_index (r_raftLog r)) by (apply term_at_is_Some; [done|by rewrite Ht]).
  apply peer_inv_log; [done| |done| |apply (pi_pending _ _ _ Hp)|apply (pi_gives _ _ _ Hp)].
  - apply log_inv_commit; [done|]. apply commit_wf; [done..|lia].
  - intros u Hu. change (term_at (r_raftLog r) i = Some u) in Hu. rewrite Ht in Hu. by injection Hu as <-.
Qed.

(** The peers that have acknowledged [i]. *)
Lemma majority_chosen S n r i :
  history_ok S → peer_inv S n r → r_State r = StateLeader → majority_at r i → 0 < i →
  term_at (r_raftLog r) i = Some (r_Term r) → snapIndex (r_raftLog r) < i → chosen S (r_Term r) (i, r_Term r).
Proof.
  intros OK Hp Hs Hmaj Hi Ht Hsn. pose proof (pi_log _ _ _ Hp) as L.
  destruct (pi_lead _ _ _ Hp Hs) as [_ [_ _ _ Hmatch _]]. split_and!; [done| |].
  - right. split; [done|]. cbn. unfold term_at in Ht. rewrite decide_False in Ht; [|lia].
    apply fmap_Some in Ht as (e & He & Ht). destruct (li_entry _ _ L _ _ He) as (c & pt & Hedge). rewrite Ht. eauto.
  - exists (dom (filter (λ kv, i ≤ Match kv.2) (r_Prs r))). split; [split|].
    + rewrite -(pi_prs _ _ _ Hp). apply dom_filter_subseteq.
    + unfold majority_at, holders, quorum in Hmaj. rewrite -(pi_prs _ _ _ Hp) !size_dom.
      pose proof (Z.mul_succ_div_gt (Z.of_nat (size (r_Prs r))) 2). lia.
    + intros v Hv. apply elem_of_dom in Hv as [pr [Hpr Hm]%map_lookup_filter_Some]. cbn in Hm.
      destruct (Hmatch v pr Hpr) as [_ [H0|(q & Ha & Hq)]]; [lia|]. exists q. split; [done|].
      eapply anc_linear; [done|by apply (li_term _ _ L)|eapply lead_onpath; [done..|by eapply ho_ack]|cbn; lia].
Qed.

Lemma match_bound S n r v pr :
  history_ok S → peer_inv S n r → r_State r = StateLeader → r_Prs r !! v = Some pr → Match pr ≤ last_index (r_raftLog r).
Proof.
  intros OK Hp Hs Hpr. destruct (pi_lead _ _ _ Hp Hs) as [_ [_ _ _ Hmatch _]].
  pose proof (lw_last _ (li_wf _ _ (pi_log _ _ _ Hp))) as [? _]. destruct (Hmatch v pr Hpr) as [_ [H0|(q & Ha & Hq)]]; [lia|].
  apply (ho_ack _ _ _ OK) in Ha. apply (lead_onpath _ n r) in Ha; [|done..]. apply anc_index in Ha. cbn in Ha. lia.
Qed.

Lemma maybeCommit_inv S n r r' b :
  history_ok S → peer_inv S n r → r_State r = StateLeader → maybeCommit r = Ok (r', b) →
  peer_inv S n r' ∧ unseen (set_raftLog (r_raftLog r') r) r' ∧ tail (r_raftLog r') = tail (r_raftLog r).
Proof.
  intros OK Hp Hs H. pose proof (pi_log _ _ _ Hp) as L. pose proof (li_wf _ _ L) as Hw. unfold maybeCommit in H.
  destruct (median_index r) as (mci & Hgo & Hmaj & _ & Hin).
  { intros E. pose proof (pi_prs _ _ _ Hp) as HP. rewrite E dom_empty_L in HP. pose proof (pi_mem _ _ _ Hp). set_solver. }
  rewrite Hgo in H. cbn [mbind outcome_bind] in H.
  assert (Hb : mci ≤ 2 ^ 63).
  { apply list_elem_of_fmap in Hin as (pr & -> & Hin). apply list_elem_of_fmap in Hin as ([k p] & -> & Hin).
    apply elem_of_map_to_list in Hin. pose proof (match_bound _ _ _ _ _ OK Hp Hs Hin). pose proof (lw_last _ Hw) as [_ ?]. cbn. lia. }
  destruct (log_maybeCommit_wf _ mci (r_Term r) Hw Hb) as [E _]. rewrite E in H. case_decide as Hc; injection H as <- _.
  - destruct Hc as [Hc Ht]. split; [|split; [apply unseen_refl|done]]. pose proof (lw_commit _ Hw). pose proof (lw_snap _ Hw). eapply peer_inv_commit; [done..|].
    right. exists (mci, r_Term r), (r_Term r). split_and!; [lia| |apply anc_refl]. eapply majority_chosen; [done..|lia|done|lia].
  - assert (Er : set_raftLog (r_raftLog r) r = r) by (by destruct r). rewrite Er. split; [done|]. split; [apply unseen_refl|done].
Qed.

(** ** Sending *)

Lemma later_keeps (st st' : T) :
  later st st' → st_FirstIndex st' = st_FirstIndex st ∧ (∀ i, st_Term st' i = st_Term st i) ∧ st_LastIndex st' = st_LastIndex st ∧
  (∀ lo hi, st_Entries st' lo hi = st_Entries st lo hi) ∧ st_InitialState st' = st_InitialState st.
Proof.
  induction 1 as [|st st1 st2 -> _ (E1 & E2 & E3 & E4 & E5)]; [done|].
  split_and!; intros; rewrite ?E1 ?E2 ?E3 ?E4 ?E5; [apply sk_FirstIndex|apply sk_Term|apply sk_LastIndex|apply sk_Entries|apply sk_InitialState].
Qed.
Lemma gives_later (st st' : T) s : later st st' → gives st' s → gives st s.
Proof. intros H (st2 & H2 & Hs). exists st2. split; [by etrans|done]. Qed.

Lemma peer_inv_storage S n r st :
  peer_inv S n r → later (storage (r_raftLog r)) st → peer_inv S n (set_raftLog (set_storage st (r_raftLog r)) r).
Proof.
  intros Hp Hst. destruct (later_keeps _ _ Hst) as (E1 & E2 & _). pose proof (pi_log _ _ _ Hp) as [Hw Hso Hv Ht He].
  apply peer_inv_log; [done| |done|apply (pi_commit _ _ _ Hp)|apply (pi_pending _ _ _ Hp)|].
  - split; try done; [by destruct Hw|]. destruct Hso as (fi & ft & Hfi & Hft & ? & ?). exists fi, ft. cbn [set_storage storage]. rewrite E1 E2. done.
  - intros s Hs. cbn in Hs. apply (pi_gives _ _ _ Hp). by eapply gives_later.
Qed.

Lemma Term_Ok l i t : log_wf l → Term l i = Ok t → term_at l i = Some t.
Proof.
  intros Hw H. pose proof (lw_last _ Hw) as [? ?]. pose proof (last_index_offset _ Hw). pose proof (lw_off _ Hw). pose proof (lw_snap _ Hw).
  destruct (decide (0 ≤ i ≤ 2 ^ 63)) as [Hi|Hi].
  - pose proof (Term_wf l i Hw Hi) as Ht. destruct (term_at l i); [congruence|]. destruct Ht. congruence.
  - exfalso. unfold Term in H. destruct (decide (i = snapIndex l)); [unfold last_index in *; pose proof (zlen_nonneg (entries l)); lia|].
    destruct (decide (entries l = [])); [done|]. destruct (decide (i < offset l)); [done|].
    rewrite u64_small in H; [|unfold is_u64, two64; pose proof (zlen_nonneg (entries l)); unfold zlen in *; destruct (entries l); [done|cbn [length] in *; lia]].
    destruct (decide (offset l + zlen (entries l) - 1 < i)); [done|]. lia.
Qed.

Lemma range_numbered l lo hi ents : log_wf l → is_range l lo hi ents → numbered lo ents.
Proof.
  intros Hw [Hz Hr] k e He. pose proof (lookup_lt_Some _ _ _ He). unfold zlen in Hz.
  assert (Hk : entry_at l (lo + Z.of_nat k) = Some e) by (rewrite -(Hr (lo + Z.of_nat k)); [by replace (Z.to_nat _) with k by lia|lia]).
  by apply entry_at_Some in Hk as [_ ?].
Qed.
Lemma range_elem l lo hi ents e : is_range l lo hi ents → e ∈ ents → ∃ i, entry_at l i = Some e.
Proof.
  intros [Hz Hr] [k He]%list_elem_of_lookup_1. pose proof (lookup_lt_Some _ _ _ He). unfold zlen in Hz. exists (lo + Z.of_nat k).
  rewrite -(Hr (lo + Z.of_nat k)); [by replace (Z.to_nat _) with k by lia|lia].
Qed.

Lemma send_inv S n r x r' :
  peer_inv S n r → send r x = Ok r' →
  (∀ t, (MsgType x = MsgRequestVote ∨ MsgType x = MsgRequestVoteResponse → t = m_Term x ∧ t ≠ 0) →
    (from_leader (MsgType x) = true ∨ MsgType x = MsgAppendResponse → t = r_Term r) → msg_inv S (set_From_Term x n t)) →
  peer_inv S n r' ∧ r_State r' = r_State r ∧ r_Term r' = r_Term r ∧ r_raftLog r' = r_raftLog r ∧ r_Prs r' = r_Prs r.
Proof.
  intros Hp H Hx. assert (Hs : ∃ t, r' = set_msgs (r_msgs r ++ [set_From_Term x (r_id r) t]) r ∧
    (MsgType x = MsgRequestVote ∨ MsgType x = MsgRequestVoteResponse → t = m_Term x ∧ t ≠ 0) ∧
    (from_leader (MsgType x) = true ∨ MsgType x = MsgAppendResponse → t = r_Term r)).
  { unfold send in H. destruct (MsgType x) eqn:E; inv_ok; eexists; (split; [done|]); split; cbn; naive_solver. }
  destruct Hs as (t & -> & H1 & H2). rewrite (pi_id _ _ _ Hp). split; [|done]. apply peer_inv_send; [done|by apply Hx|done].
Qed.

Lemma leader_from S n r x :
  peer_inv S n r → r_State r = StateLeader →
  From (set_From_Term x n (r_Term r)) ∈ M ∧ (from_leader (MsgType (set_From_Term x n (r_Term r))) = true →
    ∃ h, h_lead S (m_Term (set_From_Term x n (r_Term r))) (From (set_From_Term x n (r_Term r))) h).
Proof. intros Hp Hs. destruct (pi_lead _ _ _ Hp Hs) as [_ [Hl _ _ _ _]]. split; [by apply (pi_mem _ _ _ Hp)|]. by intros _. Qed.

Lemma sendSnapshot_inv S n r to r' (b : bool) :
  history_ok S → peer_inv S n r → r_State r = StateLeader →
  snapshot (r_raftLog r) ≫= (λ '(l, s),
     match s with
     | inr ErrSnapshotTemporarilyUnavailable => Ok (set_raftLog l r, false)
     | inr _ => Panic "panic(err)"
     | inl s => if IsEmptySnap (Some s) then Panic "need non-empty snapshot"
                else r ← send (set_raftLog l r) (msg_snapshot to s); Ok (r, true)
     end) = Ok (r', b) → peer_inv S n r' ∧ r_State r' = StateLeader.
Proof.
  intros OK Hp Hs Hsn. apply bind_Ok in Hsn as ([l o] & Hsn & H').
  destruct (pi_lead _ _ _ Hp Hs) as [Ht0 _].
  assert (Hl : peer_inv S n (set_raftLog l r) ∧ ∀ s, o = inl s → snap_fine S (r_Term r) s).
  { unfold snapshot in Hsn. destruct (pending_snapshot (r_raftLog r)) as [p|] eqn:Ep.
    - injection Hsn as <- <-. split; [by destruct r|]. intros s [= <-]. by apply (pi_pending _ _ _ Hp).
    - destruct (st_Snapshot (storage (r_raftLog r))) as [st x] eqn:Es. apply bind_Ok in Hsn as (y & Hy & [= <- <-]).
      assert (Hst : st = (st_Snapshot (storage (r_raftLog r))).1) by (by rewrite Es). split.
      + apply peer_inv_storage; [done|]. apply rtc_once. done.
      + intros s ->. apply (pi_gives _ _ _ Hp). exists (storage (r_raftLog r)). split; [apply rtc_refl|]. rewrite Es.
        unfold catch in Hy. destruct x; by simplify_eq/=. }
  destruct Hl as [Hp1 Hfine]. destruct o as [s|[]]; try done; [|injection H' as <- <-; done].
  destruct (IsEmptySnap (Some s)); [done|]. apply bind_Ok in H' as (r1 & H' & [= <- <-]).
  destruct (Hfine s eq_refl) as (Hmem & md & Hmd & Hix & Hcom).
  destruct (send_inv _ _ _ _ _ Hp1 H') as (? & HS1 & _); [|split; [done|by rewrite HS1]].
  intros t _ Ht. cbn in Ht. rewrite (Ht (or_introl eq_refl)). split; [by apply leader_from|]. cbn. split; [done|].
  exists s, md. split_and!; [done..|by split; eauto|]. by eapply com_lead.
Qed.

Lemma sendAppend_inv S n r to r' b :
  history_ok S → peer_inv S n r → r_State r = StateLeader → sendAppend r to = Ok (r', b) →
  peer_inv S n r' ∧ r_State r' = StateLeader.
Proof.
  intros OK Hp Hs H. unfold sendAppend in H. apply bind_Ok in H as (pr & Hpr & H).
  apply bind_Ok in H as (ot & Hot & H). apply bind_Ok in H as (oe & Hoe & H).
  pose proof (pi_log _ _ _ Hp) as L. pose proof (li_wf _ _ L) as Hw. pose proof (lw_last _ Hw) as [? ?].
  pose proof (lw_snap _ Hw). pose proof (lw_off _ Hw). pose proof (lw_commit _ Hw). destruct (pi_lead _ _ _ Hp Hs) as [Ht0 [_ Htip _ Hm _]].
  assert (Hpr' : r_Prs r !! to = Some pr) by (unfold deref_pr, getProgress in Hpr; destruct (r_Prs r !! to); by simplify_eq).
  destruct (Hm to pr Hpr') as [[_ Hnx] _].
  destruct ot as [t|], oe as [es|]; [|by eapply sendSnapshot_inv..]. apply bind_Ok in H as (r1 & H & [= <- <-]).
  assert (Ht : term_at (r_raftLog r) (u64 (Next pr - 1)) = Some t).
  { apply Term_Ok; [done|]. unfold catch in Hot. destruct (Term _ _); by simplify_eq. }
  assert (Hin : snapIndex (r_raftLog r) ≤ u64 (Next pr - 1) ≤ last_index (r_raftLog r)) by (apply term_at_is_Some; [done|by rewrite Ht]).
  assert (Hu : u64 (Next pr - 1) = Next pr - 1).
  { destruct (decide (Next pr = 0)) as [E|]; [|apply u64_small; unfold is_u64 in *; lia]. rewrite E in Hin.
    change (u64 (0 - 1)) with (2 ^ 64 - 1) in Hin. lia. }
  rewrite Hu in Ht Hin H. destruct (Entries_wf (r_raftLog r) (Next pr) Hw) as (es' & Hes & Hrange); [lia|].
  assert (es' = es) as -> by (rewrite Hes in Hoe; by injection Hoe).
  assert (Hzl : zlen es = last_index (r_raftLog r) + 1 - Next pr) by (destruct Hrange; lia).
  destruct (send_inv _ _ _ _ _ Hp H) as (? & HS1 & _); [|split; [done|by rewrite HS1]].
  intros u _ Hu'. cbn in Hu'. rewrite (Hu' (or_introl eq_refl)). split; [by apply leader_from|]. cbn. split; [done|].
  split_and!; cbn; try lia.
  - replace (Next pr - 1 + 1) with (Next pr) by lia. by eapply range_numbered.
  - rewrite Hzl. unfold idx_ok. lia.
  - exists (tail (r_raftLog r)). split_and!; [done|cbn; lia|by apply (li_term _ _ L)|].
    intros e He. destruct (range_elem _ _ _ _ _ Hrange He) as (i & Hi). destruct (entry_at_Some _ _ _ Hw Hi) as [Hib <-].
    split; [|by apply (li_entry _ _ L)]. apply (li_term _ _ L). unfold term_at. rewrite decide_False; [|lia]. by rewrite Hi.
  - destruct (proj2 (term_at_is_Some _ (committed (r_raftLog r)) Hw)) as [tc Htc]; [lia|].
    exists (committed (r_raftLog r), tc). pose proof (pi_commit _ _ _ Hp _ Htc) as Hc. split_and!; [done..|]. by eapply com_lead.
Qed.

Lemma for_each_inv (I : Raft T → Prop) f ids r r' :
  (∀ r1 r2 to, I r1 → f r1 to = Ok r2 → I r2) → I r → for_each f ids r = Ok r' → I r'.
Proof.
  intros Hf. revert r. induction ids as [|to ids IH]; intros r Hr H; cbn in H; [by injection H as <-|].
  apply bind_Ok in H as (r1 & H1 & H). eapply IH; [|exact H]. by eapply Hf.
Qed.

Lemma range_unseen r ids r1 : range_ids r = (ids, r1) → unseen r r1.
Proof. intros [= _ <-]. unfold unseen. split_and!; eauto 6. Qed.

Definition leading S n r : Prop := peer_inv S n r ∧ r_State r = StateLeader.

Lemma bcastAppend_inv S n r r' : history_ok S → leading S n r → bcastAppend r = Ok r' → leading S n r'.
Proof.
  intros OK [Hp Hs] H. unfold bcastAppend in H. destruct (range_ids r) as [ids r1] eqn:Er. apply range_unseen in Er.
  eapply (for_each_inv (leading S n)); [|split; [by eapply peer_inv_unseen|by rewrite -Hs; apply Er]|exact H].
  intros r2 r3 to [Hp2 Hs2] H2. cbn in H2. destruct (decide (to = r_id r2)); [by injection H2 as <-|].
  apply bind_Ok in H2 as ([r4 b] & H2 & [= <-]). by eapply sendAppend_inv.
Qed.

(** A commit index and the positions that are known up to it. *)
Lemma committed_pos S n r :
  history_ok S → peer_inv S n r → ∃ t, term_at (r_raftLog r) (committed (r_raftLog r)) = Some t ∧
    com S (r_Term r) (committed (r_raftLog r), t) ∧ anc S (committed (r_raftLog r), t) (tail (r_raftLog r)) ∧
    base.1 ≤ committed (r_raftLog r).
Proof.
  intros OK Hp. pose proof (pi_log _ _ _ Hp) as L. pose proof (lw_commit _ (li_wf _ _ L)).
  destruct (proj2 (term_at_is_Some _ (committed (r_raftLog r)) (li_wf _ _ L))) as [t Ht]; [lia|]. exists t.
  pose proof (li_term _ _ L _ _ Ht) as Ha. split_and!; [done|by apply (pi_commit _ _ _ Hp)|done|].
  apply (anc_is_valid _ _ _ OK) in Ha; [|apply (li_valid _ _ L)]. by apply anc_index in Ha.
Qed.

Lemma com_anc S t p q : history_ok S → anc S p q → com S t q → com S t p.
Proof.
  intros OK Ha [->|(q' & u & ? & ? & ?)]; [left; by eapply anc_base|]. right. exists q', u. split_and!; [done..|by eapply anc_trans].
Qed.

Lemma sendHeartbeat_inv S n r to r' : history_ok S → leading S n r → to ≠ n → sendHeartbeat r to = Ok r' → leading S n r'.
Proof.
  intros OK [Hp Hs] Hto H. unfold sendHeartbeat in H. apply bind_Ok in H as (pr & Hpr & H).
  assert (Hpr' : r_Prs r !! to = Some pr) by (unfold deref_pr, getProgress in Hpr; destruct (r_Prs r !! to); by simplify_eq).
  destruct (pi_lead _ _ _ Hp Hs) as [Ht0 [_ _ _ Hm _]]. destruct (Hm _ _ Hpr') as [[H0 _] Hack].
  destruct (committed_pos _ _ _ OK Hp) as (tc & Htc & Hcom & Hanc & Hbase).
  pose proof (lw_commit _ (li_wf _ _ (pi_log _ _ _ Hp))). pose proof (lw_snap _ (li_wf _ _ (pi_log _ _ _ Hp))).
  destruct (send_inv _ _ _ _ _ Hp H) as (? & HS1 & _); [|split; [done|by rewrite HS1]].
  intros t _ Ht. cbn in Ht. rewrite (Ht (or_introl eq_refl)). split; [by apply leader_from|]. cbn. split; [done|].
  rewrite go_min_min. split; [done|]. split; [lia|]. destruct Hack as [->|(q & Ha & Hq)]; [left; lia|right].
  pose proof (ho_ack _ _ _ OK _ _ _ Ha) as Hon. pose proof (lead_onpath _ _ _ _ OK Hp Hs Hon) as Hqt.
  assert (Hqv : valid S q) by (eapply anc_is_valid; [done|exact Hqt|apply (li_valid _ _ (pi_log _ _ _ Hp))]).
  pose proof (anc_index _ _ _ Hqv).
  destruct (anc_at base S (tail (r_raftLog r)) (Z.min (Match pr) (committed (r_raftLog r)))) as [u Hu];
    [apply (li_valid _ _ (pi_log _ _ _ Hp))|cbn; lia|].
  exists (Z.min (Match pr) (committed (r_raftLog r)), u). split; [done|]. split.
  - eapply com_anc; [done| |exact Hcom]. eapply anc_linear; [done|exact Hu|exact Hanc|cbn; lia].
  - exists q. split; [done|]. eapply anc_linear; [done|exact Hu|exact Hqt|cbn; lia].
Qed.

Lemma bcastHeartbeat_inv S n r r' : history_ok S → leading S n r → bcastHeartbeat r = Ok r' → leading S n r'.
Proof.
  intros OK [Hp Hs] H. unfold bcastHeartbeat in H. destruct (range_ids r) as [ids r1] eqn:Er. apply range_unseen in Er.
  eapply (for_each_inv (leading S n)); [|split; [by eapply peer_inv_unseen|by rewrite -Hs; apply Er]|exact H].
  intros r2 r3 to Hl2 H2. cbn in H2. destruct (decide (to = r_id r2)) as [|Hto]; [by injection H2 as <-|].
  rewrite (pi_id _ _ _ (proj1 Hl2)) in Hto. by eapply sendHeartbeat_inv.
Qed.

Lemma other_msg S n x t :
  n ∈ M → match MsgType x with
          | MsgAppend | MsgHeartbeat | MsgSnapshot | MsgRequestVote | MsgPropose => False
          | MsgRequestVoteResponse | MsgAppendResponse => Reject x = true
          | _ => True
          end → msg_inv S (set_From_Term x n t).
Proof. intros Hn Hx. split; [split; [done|]|]; cbn; destruct (MsgType x); try done; congruence. Qed.

(** ** Appending as leader *)

(** Everyone who extends the history. *)
Definition moves S (n : Z) (P : history → Prop) : Prop := ∃ S', extends n S S' ∧ history_ok S' ∧ P S'.

Lemma moves_trans S n (P Q : history → Prop) :
  moves S n P → (∀ S', history_ok S' → P S' → extends n S S' → moves S' n Q) → moves S n Q.
Proof. intros (S1 & G1 & O1 & H1) H. destruct (H S1 O1 H1 G1) as (S2 & G2 & O2 & H2). exists S2. eauto using extends_trans. Qed.
Lemma moves_here S n (P : history → Prop) : history_ok S → P S → moves S n P.
Proof. intros. exists S. eauto using extends_refl. Qed.

(** The log after the leader appended [ents]. *)
Definition grown l (ents : list Entry) l' : Prop :=
  storage l' = storage l ∧ (ents = [] ∧ l' = l ∨ ents ≠ [] ∧ appended l (last_index l + 1) ents l').

Lemma grown_tail S l ents l' t :
  log_inv S l → grown l ents l' → (∀ e, e ∈ ents → e_Term e = t) →
  tail l' = path_end t (last_index l + 1) (last_term l) ents.
Proof.
  intros L [_ [[-> ->]|[Hne Hap]]] Ht; [unfold tail, path_end; f_equal; lia|].
  pose proof (ap_wf _ _ _ _ Hap) as Hw'. pose proof (ap_last _ _ _ _ Hap) as Hl. pose proof (lw_last _ Hw'). pose proof (ap_snap _ _ _ _ Hap).
  destruct ents as [|e0 es]; [done|]. unfold path_end, tail. f_equal; [lia|].
  assert (Hz : zlen (e0 :: es) = zlen es + 1) by (unfold zlen; cbn [length]; lia). pose proof (zlen_nonneg es).
  pose proof (term_at_last _ Hw') as Htl. pose proof (lw_commit _ (li_wf _ _ L)). pose proof (lw_applied _ (li_wf _ _ L)).
  unfold term_at in Htl. rewrite decide_False in Htl; [|lia]. rewrite (ap_entry _ _ _ _ Hap) in Htl; [|lia].
  rewrite decide_False in Htl; [|lia]. apply fmap_Some in Htl as (e & He & ->). apply Ht. by eapply list_elem_of_lookup_2.
Qed.

Lemma grown_inv S S' l ents l' t n :
  history_ok S → history_ok S' → extends n S S' → log_inv S l → grown l ents l' →
  valid S' (tail l') → anc S' (tail l) (tail l') →
  (∀ e, e ∈ ents → e_Term e = t ∧ anc S' (e_Index e, e_Term e) (tail l') ∧ ∃ pt, h_edge S' n (e_Index e) (e_Term e) e pt) →
  log_inv S' l'.
Proof.
  intros OK OK' Hg L [Hst [[-> ->]|[Hne Hap]]] Hv Ha He; [by eapply log_inv_mono|].
  pose proof (ap_wf _ _ _ _ Hap) as Hw'. pose proof (ap_snap _ _ _ _ Hap). pose proof (li_wf _ _ L) as Hw.
  pose proof (lw_commit _ Hw). pose proof (lw_applied _ Hw). pose proof (lw_off _ Hw'). pose proof (lw_stable _ Hw).
  assert (Hent : ∀ i e, last_index l < i → entry_at l' i = Some e → e ∈ ents ∧ e_Index e = i).
  { intros i e Hi Hat. destruct (entry_at_Some _ _ _ Hw' Hat) as [_ Hix]. rewrite (ap_entry _ _ _ _ Hap) in Hat; [|lia].
    rewrite decide_False in Hat; [|lia]. split; [by eapply list_elem_of_lookup_2|done]. }
  split; [done| |done| |].
  - eapply storage_ok_kept; [apply (li_storage _ _ L)|done|lia| |].
    + rewrite (ap_applied _ _ _ _ Hap) (ap_stabled _ _ _ _ Hap). lia.
    + intros i Hi. apply (ap_term _ _ _ _ Hap); lia.
  - intros i u Hu. assert (Hi : snapIndex l' ≤ i ≤ last_index l') by (apply term_at_is_Some; [done|by rewrite Hu]).
    destruct (decide (i ≤ last_index l)).
    + rewrite (ap_term _ _ _ _ Hap) in Hu; [|lia..]. eapply anc_trans; [|exact Ha]. eapply anc_mono; [done|by apply (li_term _ _ L)].
    + unfold term_at in Hu. rewrite decide_False in Hu; [|lia]. apply fmap_Some in Hu as (e & Hat & ->).
      destruct (Hent i e) as [Hin <-]; [lia|done|]. by apply He.
  - intros i e Hat. destruct (entry_at_Some _ _ _ Hw' Hat) as [Hi _]. destruct (decide (i ≤ last_index l)).
    + rewrite (ap_entry _ _ _ _ Hap) in Hat; [|lia]. rewrite decide_True in Hat; [|lia].
      destruct (li_entry _ _ L _ _ Hat) as (c & pt & ?). exists c, pt. by apply (gr_edge _ _ _ Hg).
    + destruct (Hent i e) as [Hin <-]; [lia|done|]. destruct (He e Hin) as (_ & _ & pt & ?). eauto.
Qed.

Lemma grown_committed l ents l' : log_wf l → grown l ents l' →
  committed l' = committed l ∧ pending_snapshot l' = pending_snapshot l ∧ term_at l' (committed l') = term_at l (committed l).
Proof.
  intros Hw [_ [[-> ->]|[_ Hap]]]; [done|]. rewrite (ap_committed _ _ _ _ Hap) (ap_pending _ _ _ _ Hap). split_and!; [done..|].
  pose proof (lw_commit _ Hw). pose proof (lw_applied _ Hw). pose proof (ap_snap _ _ _ _ Hap). apply (ap_term _ _ _ _ Hap); lia.
Qed.

(** The past of a leader whose log has grown. *)
Lemma past_grown S S' n r r' :
  history_ok S → history_ok S' → extends n S S' → past_inv S n r →
  r_Term r' = r_Term r → r_Vote r' = r_Vote r → r_State r = StateLeader → r_State r' = StateLeader →
  anc S' (tail (r_raftLog r)) (tail (r_raftLog r')) →
  (∀ v u a b x, h_vote S' v u a b x → h_vote S v u a b x) → (∀ u a b, h_lead S' u a b → h_lead S u a b) →
  (∀ u a b, h_cand S' u a b → h_cand S u a b) → (∀ v u, h_left S' v u → h_left S v u) → (∃ h, h_lead S' (r_Term r) n h) →
  (∀ t p, h_ack S' n t p → h_ack S n t p ∨ t = r_Term r ∧ anc S' p (tail (r_raftLog r'))) → past_inv S' n r'.
Proof.
  intros OK OK' Hg [] Tm V St St' Ha Hv Hl Hc Hf (h & Hlead) Hack.
  split; rewrite ?Tm ?V ?St'.
  - intros t c h' b ?%Hv. eauto.
  - intros t h' ?%Hc. split; [by eapply pa_cand0|done].
  - intros t h' ?%Hl. split; [by eapply pa_lead0|done].
  - intros t p [?|[-> _]]%Hack; [eauto|lia].
  - intros t p (q & Hq & Hp). destruct (Hack _ _ Hq) as [Hq'|[-> Hq']]; [|left; by eapply anc_trans].
    assert (Hh : held S n t p).
    { exists q. split; [done|]. eapply anc_back; [exact OK'|exact Hg| |exact Hp].
      destruct (ho_ack _ _ _ OK _ _ _ Hq') as (q' & Ht & Hqq). eapply anc_is_valid; [done|exact Hqq|]. by destruct (tip_valid _ _ _ OK _ _ Ht). }
    destruct (pa_held0 _ _ Hh) as [Hx|Hx]; [left; eapply anc_trans; [by eapply anc_mono|done]|right; by eapply lost_mono].
  - right. eauto.
  - intros t ?%Hf. destruct (pa_left0 t) as [? Hst]; [done|]. split; [done|]. intros E. rewrite (Hst E) in St. done.
Qed.

Lemma lead_grow S n r ents l' prs' :
  history_ok S → leading S n r → grown (r_raftLog r) ents l' →
  (∀ k e, ents !! k = Some e → e_Index e = last_index (r_raftLog r) + 1 + Z.of_nat k ∧ e_Term e = r_Term r) →
  dom prs' = M →
  (∀ v pr', prs' !! v = Some pr' → (0 ≤ Match pr' ∧ is_u64 (Next pr')) ∧
    ((∃ pr, r_Prs r !! v = Some pr ∧ Match pr' = Match pr) ∨ v = n ∧ Match pr' = last_index l')) →
  moves S n (λ S', leading S' n (set_Prs prs' (set_raftLog l' r))).
Proof.
  intros OK [Hp Hs] Hgr Hents Hdom Hprs. pose proof (pi_log _ _ _ Hp) as L. destruct (pi_lead _ _ _ Hp Hs) as [Ht0 [(h & Hl) Htip Hlast Hm _]].
  assert (Hterm : ∀ e, e ∈ ents → e_Term e = r_Term r) by (intros e [k Hk]%list_elem_of_lookup_1; by destruct (Hents k e Hk)).
  pose proof (grown_tail _ _ _ _ _ L Hgr Hterm) as Htail.
  destruct (add_path_ok M base S n (r_Term r) (last_index (r_raftLog r) + 1) (last_term (r_raftLog r)) ents h)
    as (OK1 & Hg1 & Htip1 & Hmax1 & Hanc1 & Hents1 & Ha1 & Hv1 & Hl1 & Hc1 & Hf1); [done..| | |done|].
  { by replace (last_index (r_raftLog r) + 1 - 1) with (last_index (r_raftLog r)) by lia. }
  { intros c j e pt He. apply Hlast in He. lia. }
  set (S1 := add_path _ _ _ _ _ _) in *. rewrite -Htail in Htip1 Hmax1 Hanc1 Hents1.
  replace (last_index (r_raftLog r) + 1 - 1) with (last_index (r_raftLog r)) in Hanc1 by lia. fold (tail (r_raftLog r)) in Hanc1.
  set (S2 := add_ack S1 n (r_Term r) (tail l')). assert (Hg2 : extends n S1 S2) by apply extends_ack.
  assert (OK2 : history_ok S2).
  { apply add_ack_ok; [done|by apply tip_onpath|]. intros t' c h' b Hv%Hv1. by destruct (pa_vote _ _ _ (pi_past _ _ _ Hp) _ _ _ _ Hv) as (_ & ? & _). }
  pose proof (extends_trans _ _ _ _ Hg1 Hg2) as Hg. exists S2. split; [done|]. split; [done|].
  destruct (grown_committed _ _ _ (li_wf _ _ L) Hgr) as (Ec & Epd & Etc).
  assert (L2 : log_inv S2 l').
  { eapply (grown_inv S S2); [done..| | |].
    - eapply valid_mono; [exact Hg2|]. by destruct (tip_valid _ _ _ OK1 _ _ Htip1).
    - eapply anc_mono; [exact Hg2|done].
    - intros e He. destruct (Hents1 e He) as (? & pt & ?). split_and!; [by apply Hterm|by eapply anc_mono; [exact Hg2|]|]. exists pt. by apply (gr_edge _ _ _ Hg2). }
  split; [|done]. destruct Hp. split; cbn [set_Prs set_raftLog r_id r_Term r_Vote r_State r_votes r_Prs r_msgs r_raftLog]; try done.
  - destruct pi_term0. split; [|done]. apply (tip_valid _ _ _ OK1) in Htip1 as (_ & ? & _). done.
  - intros t Ht. rewrite Etc in Ht. rewrite Ec. eapply com_mono; [done| |by apply pi_commit0]. lia.
  - intros s Hsn. rewrite Epd in Hsn. eapply snap_fine_mono; [done| |by apply pi_pending0]. lia.
  - intros s Hsn. destruct Hgr as [Est _]. rewrite Est in Hsn. eapply snap_fine_mono; [done| |by apply pi_gives0]. lia.
  - intros Hv. destruct (pi_vote0 Hv) as (h' & b & ?). exists h', b. by apply (gr_vote _ _ _ Hg).
  - eapply (past_grown S S2); [done..| | | | | | |]; cbn [set_Prs set_raftLog r_raftLog].
    + eapply anc_mono; [exact Hg2|done].
    + done.
    + done.
    + done.
    + done.
    + exists h. by apply (gr_lead _ _ _ Hg).
    + intros t p [?%Ha1|[= -> ->]]; [by left|right]. split; [done|apply anc_refl].
  - rewrite Hs. done.
  - intros _. split; [done|]. split; cbn [set_Prs set_raftLog r_id r_Term r_Vote r_State r_votes r_Prs r_msgs r_raftLog].
    + exists h. by apply (gr_lead _ _ _ Hg).
    + eapply tip_mono; [exact Hg2|done].
    + done.
    + intros v pr' Hpr'. destruct (Hprs v pr' Hpr') as [Hnn [(pr & Hpr & E)|[-> E]]]; rewrite E in Hnn |- *; (split; [done|]).
      * destruct (Hm v pr Hpr) as [_ [?|(q & ? & ?)]]; [by left|right]. exists q. split; [by apply (gr_ack _ _ _ Hg)|done].
      * right. exists (tail l'). split; [by right|done].
    + by right.
  - intros m Hm'. destruct (pi_msgs0 m Hm'). split; [by eapply msg_inv_mono|done].
Qed.

Lemma number_entries_lookup t li es k e :
  idx_ok (li + zlen es) → 0 ≤ li → number_entries t li es !! k = Some e → e_Index e = li + 1 + Z.of_nat k ∧ e_Term e = t.
Proof.
  intros Hi H0 H. unfold number_entries in H. rewrite list_lookup_imap in H. apply fmap_Some in H as (e0 & He & ->).
  apply lookup_lt_Some in He. unfold idx_ok, zlen in Hi. cbn. split; [|done]. apply u64_small. unfold is_u64, two64. lia.
Qed.

Lemma append_grown S l t es l' li :
  log_inv S l → idx_ok (last_index l + zlen es) → append l (number_entries t (last_index l) es) = Ok (l', li) →
  grown l (number_entries t (last_index l) es) l' ∧ li = last_index l'.
Proof.
  intros L Hi H. pose proof (li_wf _ _ L) as Hw. pose proof (lw_last _ Hw) as [? ?]. pose proof (lw_commit _ Hw).
  pose proof (append_keeps _ _ _ _ H) as [Hst _]. unfold grown.
  destruct (number_entries t (last_index l) es) as [|e0 ents] eqn:E.
  - unfold append in H. rewrite LastIndex_wf // in H. injection H as <- <-. eauto.
  - assert (Hlen : zlen (e0 :: ents) = zlen es) by (rewrite -E; unfold zlen, number_entries; by rewrite length_imap).
    destruct (append_wf l (last_index l + 1) e0 ents) as (l2 & Hl2 & Hap); [done|apply (li_storage _ _ L)| |lia|lia| |].
    + intros k e Hk. rewrite -E in Hk. by destruct (number_entries_lookup _ _ _ _ _ Hi ltac:(lia) Hk).
    + rewrite Hlen. by replace (last_index l + 1 - 1 + zlen es) with (last_index l + zlen es) by lia.
    + rewrite Hl2 in H. injection H as <- <-. eauto.
Qed.

Lemma maybeUpdate_inv pr i :
  0 ≤ Match pr → is_u64 (Next pr) →
  (0 ≤ Match (maybeUpdate pr i).1 ∧ is_u64 (Next (maybeUpdate pr i).1)) ∧
  (Match (maybeUpdate pr i).1 = Match pr ∨ Match (maybeUpdate pr i).1 = i).
Proof.
  intros H0 Hn. unfold maybeUpdate. cbn. pose proof (u64_range (i + 1)).
  split; [split|]; repeat case_decide; auto; lia.
Qed.

Lemma appendEntry_inv S n r es r' :
  history_ok S → leading S n r → idx_ok (last_index (r_raftLog r) + zlen es) → appendEntry r es = Ok r' →
  moves S n (λ S', leading S' n r').
Proof.
  intros OK Hlead Hi H. pose proof Hlead as [Hp Hs]. pose proof (pi_log _ _ _ Hp) as L. pose proof (lw_last _ (li_wf _ _ L)) as [? ?].
  unfold appendEntry in H. rewrite LastIndex_wf in H; [|apply (li_wf _ _ L)]. cbn [mbind outcome_bind] in H.
  apply bind_Ok in H as ([l' li'] & Happ & H). destruct (append_grown _ _ _ _ _ _ L Hi Happ) as [Hgr ->].
  apply bind_Ok in H as (pr & Hpr & H). apply bind_Ok in H as ([r2 b] & Hc & [= <-]). cbn [set_raftLog r_id r_Prs getProgress] in Hpr, Hc.
  rewrite (pi_id _ _ _ Hp) in Hpr Hc.
  assert (Hpr' : r_Prs r !! n = Some pr) by (unfold deref_pr, getProgress in Hpr; cbn in Hpr; destruct (r_Prs r !! n); by simplify_eq).
  destruct (pi_lead _ _ _ Hp Hs) as [_ [_ _ _ Hm _]].
  destruct (lead_grow S n r (number_entries (r_Term r) (last_index (r_raftLog r)) es) l' (<[n:=(maybeUpdate pr (last_index l')).1]> (r_Prs r)))
    as (S1 & Hg1 & OK1 & Hlead1); [done..| | | |].
  - intros k e Hk. by eapply number_entries_lookup.
  - rewrite dom_insert_L (pi_prs _ _ _ Hp). pose proof (pi_mem _ _ _ Hp). set_solver.
  - intros v pr' Hv. destruct (decide (v = n)) as [->|Hne].
    + rewrite lookup_insert_eq in Hv. injection Hv as <-. destruct (Hm _ _ Hpr') as [[? ?] _].
      destruct (maybeUpdate_inv pr (last_index l')) as [? [E|E]]; [done..| |]; (split; [done|]); [left; eauto|by right].
    + rewrite lookup_insert_ne // in Hv. destruct (Hm _ _ Hv) as [? _]. split; [done|left; eauto].
  - exists S1. split; [done|]. split; [done|]. destruct Hlead1 as [Hp1 Hs1].
    destruct (maybeCommit_inv _ _ _ _ _ OK1 Hp1 Hs1 Hc) as (? & (_ & _ & _ & E & _) & _). split; [done|]. rewrite E. done.
Qed.
End Safety.
