(* ===== verification/RaftSteps.v ===== *)
(** The steps of a raft peer (raft/raft.go) keep the invariant of RaftSafety:
    changes of role, votes, the follower's handlers, the leader's, [Step] and
    [tick].  Every lemma gives the history after the step ([moves]). *)

From S2P Require Import Prelude RaftPb RaftStorage RaftLog RaftLogSpec Raft RawNode RaftProps Election RaftTree RaftSafety.

Section Steps.
Context {T : Type} {HS : RaftStorage T} {HG : GoEnv} {HK : SnapshotKeeps T}.
Context (M : gset Z) (base : pos) (M_none : None' ∉ M).

Notation valid := (valid base).
Notation com := (com M base).
Notation chosen := (chosen M).
Notation history_ok := (history_ok M base).
Notation log_inv := (log_inv (base := base)).
Notation snap_fine := (snap_fine (M := M) (base := base)).
Notation append_fine := (append_fine (M := M) (base := base)).
Notation msg_inv := (msg_inv (M := M) (base := base)).
Notation peer_inv := (peer_inv (M := M) (base := base)).
Notation leading := (leading (M := M) (base := base)).
Notation moves := (moves (M := M) (base := base)).
Implicit Types (S : history) (l : RaftLog T) (r : Raft T) (m : Message).

(** ** The past *)

Lemma past_raise S n r r' :
  past_inv S n r → r_raftLog r' = r_raftLog r → r_Term r < r_Term r' → past_inv S n r'.
Proof.
  intros [] L Ht. split; rewrite ?L.
  - intros t c h b Hv. destruct (pa_vote _ _ _ _ Hv) as (? & ? & ?). split_and!; [done|lia|lia].
  - intros t h Hc. destruct (pa_cand _ _ Hc). split; [lia|lia].
  - intros t h Hc. destruct (pa_lead _ _ Hc). split; [lia|lia].
  - intros t p Hc%pa_ack. lia.
  - intros t p [?|?]%pa_held; [by left|right]. eapply lost_mono; [apply (extends_refl n)| |done]. lia.
  - left. intros t p [?|?]%pa_held _; [by left|right]. eapply lost_mono; [apply (extends_refl n)| |done]. lia.
  - intros t Hl. destruct (pa_left _ Hl). split; [lia|lia].
Qed.

Lemma past_follow S n r r' :
  past_inv S n r → r_raftLog r' = r_raftLog r → r_Term r' = r_Term r → r_Vote r' = r_Vote r → r_State r' = StateFollower → past_inv S n r'.
Proof.
  intros [] L Tm V St. split; rewrite ?L ?Tm ?V ?St; try done.
  - intros t h Hc. split; [by eapply pa_cand|done].
  - intros t h Hc. split; [by eapply pa_lead|done].
  - intros t Hl. split; [by eapply pa_left|done].
Qed.

Lemma past_vote S n r c : past_inv S n r → r_Vote r = None' → past_inv S n (set_Vote c r).
Proof.
  intros [] V. split; try done. cbn. intros t c' h b Hv. destruct (pa_vote _ _ _ _ Hv) as (Hc & ? & E). split_and!; [done..|].
  intros Et. rewrite V in E. by destruct Hc; apply E.
Qed.

Lemma held_same_edges S S' v t p :
  (∀ c i t e pt, h_edge S' c i t e pt → h_edge S c i t e pt) → (∀ t p, h_ack S' v t p → h_ack S v t p) →
  held S' v t p → held S v t p.
Proof. intros HE HA (q & Hq & Ha). exists q. split; [auto|by eapply anc_same_edges]. Qed.

(** What [n] adds in its current term joins its past. *)
Lemma past_add S S' n r :
  past_inv S n r → extends n S S' → (∀ c i t e pt, h_edge S' c i t e pt → h_edge S c i t e pt) →
  (∀ t c h b, h_vote S' n t c h b → h_vote S n t c h b ∨ (t = r_Term r ∧ c = r_Vote r ∧ c ≠ None')) →
  (∀ t h, h_cand S' t n h → h_cand S t n h ∨ (t = r_Term r ∧ h = tail (r_raftLog r))) →
  (∀ t h, h_lead S' t n h → h_lead S t n h ∨ (t = r_Term r ∧ r_State r ≠ StateCandidate)) →
  (∀ t p, h_ack S' n t p → h_ack S n t p ∨ (t = r_Term r ∧ anc S p (tail (r_raftLog r)))) →
  (∀ t, h_left S' n t → h_left S n t ∨ (t = r_Term r ∧ r_State r = StateFollower)) → past_inv S' n r.
Proof.
  intros [] Hg HE HV HC HL HA HF.
  assert (Hheld : ∀ t p, held S' n t p → held S n t p ∨ t = r_Term r ∧ anc S p (tail (r_raftLog r))).
  { intros t p (q & Hq & Ha). apply (anc_same_edges _ _ _ _ HE) in Ha. destruct (HA _ _ Hq) as [?|[-> ?]]; [left; by exists q|right].
    split; [done|by eapply anc_trans]. }
  split.
  - intros t c h b [Hv|(-> & -> & ?)]%HV; [by eapply pa_vote|done].
  - intros t h [Hc|(-> & ->)]%HC; [by eapply pa_cand|done].
  - intros t h [Hc|(-> & ?)]%HL; [by eapply pa_lead|done].
  - intros t p [?%pa_ack|[-> _]]%HA; lia.
  - intros t p [[?|?]%pa_held|[_ ?]]%Hheld; [left; by eapply anc_mono|right; by eapply lost_mono|left; by eapply anc_mono].
  - destruct pa_strict as [Hs|(c & h & Hl)]; [left|right; exists c, h; by apply (gr_lead _ _ _ Hg)].
    intros t p Hh Ht. destruct (Hheld _ _ Hh) as [Hh'|[-> _]]; [|lia].
    destruct (Hs t p Hh' Ht); [left; by eapply anc_mono|right; by eapply lost_mono].
  - intros t [?|(-> & ?)]%HF; [by eapply pa_left|done].
Qed.

(** ** The invariant after a change of role or of history *)

Lemma peer_inv_turn S S' n r r' :
  peer_inv S n r → extends n S S' → r_id r' = r_id r → dom (r_Prs r') = dom (r_Prs r) → r_raftLog r' = r_raftLog r → r_msgs r' = r_msgs r →
  r_Term r ≤ r_Term r' → (r_Vote r' ≠ None' → ∃ h b, h_vote S' n (r_Term r') (r_Vote r') h b) → past_inv S' n r' →
  (r_State r' = StateCandidate → h_cand S' (r_Term r') n (tail (r_raftLog r')) ∧
    last_term (r_raftLog r') < r_Term r' ∧ base.2 < r_Term r' ∧ r_Term r' ≠ 0 ∧
    ∀ v, r_votes r' !! v = Some true → v ∈ M ∧ ∃ hv b, h_vote S' v (r_Term r') n hv b) →
  (r_State r' = StateLeader → r_Term r' ≠ 0 ∧ lead_inv S' n r') → (r_State r' ≠ StateFollower → r_Vote r' ≠ None') → peer_inv S' n r'.
Proof.
  intros [] Hg I P L Ms Tm V Pa Ca Le Vd. split; rewrite ?I ?P ?Ms; try done; rewrite ?L; try done.
  - by eapply log_inv_mono.
  - lia.
  - intros t Ht. eapply com_mono; [exact Hg|exact Tm|auto].
  - intros s Hs. eapply snap_fine_mono; [exact Hg|exact Tm|auto].
  - intros s Hs. eapply snap_fine_mono; [exact Hg|exact Tm|auto].
  - intros m Hm. destruct (pi_msgs m Hm). split; [by eapply msg_inv_mono|done].
Qed.

(** More history, but no entries, for the same state. *)
Lemma peer_inv_more S S' n r :
  peer_inv S n r → extends n S S' → (∀ c i t e pt, h_edge S' c i t e pt → h_edge S c i t e pt) →
  past_inv S' n r → peer_inv S' n r.
Proof.
  intros Hp Hg HE Pa. pose proof Hp as []. eapply peer_inv_turn; [exact Hp|done..| |done| | |done].
  - intros Hv. destruct (pi_vote Hv) as (h & b & ?). exists h, b. by apply (gr_vote _ _ _ Hg).
  - intros Hs. destruct (pi_cand Hs) as (? & ? & ? & ? & Hv). split_and!; [by apply (gr_cand _ _ _ Hg)|done..|].
    intros v Hvt. destruct (Hv v Hvt) as [? (hv & b & ?)]. split; [done|]. exists hv, b. by apply (gr_vote _ _ _ Hg).
  - intros Hs. destruct (pi_lead Hs) as [? [(h & Hl) ? Hlast Hm Hse]]. split; [done|]. split.
    + exists h. by apply (gr_lead _ _ _ Hg).
    + by eapply tip_mono.
    + intros c i e pt He%HE. eauto.
    + intros v pr Hpr. destruct (Hm v pr Hpr) as [? [?|(q & ? & ?)]]; (split; [done|]); [by left|right].
      exists q. split; [by apply (gr_ack _ _ _ Hg)|done].
    + by apply (gr_ack _ _ _ Hg).
Qed.

Lemma becomeFollower_inv S n r t lead r' :
  peer_inv S n r → r_Term r ≤ t → becomeFollower r t lead = Ok r' → peer_inv S n r' ∧ r_Term r' = t ∧ r_State r' = StateFollower ∧
    r_raftLog r' = r_raftLog r.
Proof.
  intros Hp Ht (I & Tm & V & St & W & P & Ms & L)%becomeFollower_turn. split; [|done].
  eapply peer_inv_turn; [exact Hp|apply extends_refl|done..|lia| | |by rewrite St|by rewrite St|by rewrite St].
  - rewrite V Tm. case_decide as E; [|done]. rewrite -E. apply (pi_vote _ _ _ Hp).
  - rewrite -Tm in Ht. destruct (decide (r_Term r = r_Term r')) as [E|E].
    + eapply past_follow; [apply (pi_past _ _ _ Hp)|done..| |done]. rewrite V -Tm decide_True //.
    + eapply past_raise; [apply (pi_past _ _ _ Hp)|done|lia].
Qed.

Lemma becomeCandidate_turn r r' :
  0 ≤ r_Term r < max64 → becomeCandidate r = Ok r' →
  r_id r' = r_id r ∧ r_Term r' = r_Term r + 1 ∧ r_Vote r' = r_id r ∧
  r_State r' = StateCandidate ∧ r_votes r' = ∅ ∧ dom (r_Prs r') = dom (r_Prs r) ∧ r_msgs r' = r_msgs r ∧
  r_raftLog r' = r_raftLog r.
Proof.
  unfold becomeCandidate. intros H0 H. assert (Hu : u64 (r_Term r + 1) = r_Term r + 1) by (apply u64_small; unfold is_u64, max64 in *; lia).
  apply bind_Ok in H as (r1 & H & [= <-]). rewrite Hu in H.
  by apply reset_turn in H as (I & Tm & V & St & W & P & Ms & L).
Qed.

(** The history after [n] asked for votes in a new term, and voted. *)
Definition run S (n t : Z) (h : pos) : history := add_vote (add_cand S t n h) n t n h false.

Lemma extends_run S n t h : extends n S (run S n t h).
Proof. eapply extends_trans; [apply extends_cand|apply extends_vote]. Qed.

Lemma run_ok S n r :
  history_ok S → peer_inv S n r → history_ok (run S n (r_Term r + 1) (tail (r_raftLog r))).
Proof.
  intros OK Hp. set (t := r_Term r + 1). set (h := tail (r_raftLog r)). pose proof (extends_cand S t n h) as Hg1.
  apply add_vote_ok; [apply add_cand_ok; [done|]; intros h' Hc; destruct (pa_cand _ _ _ (pi_past _ _ _ Hp) _ _ Hc); lia|eapply valid_mono; [exact Hg1|apply (li_valid _ _ (pi_log _ _ _ Hp))]| |done| |].
  - intros c' h' b' Hv. destruct (pa_vote _ _ _ (pi_past _ _ _ Hp) _ _ _ _ Hv) as (_ & ? & _). lia.
  - exists h. split; [by right|]. right. lia.
  - intros _ u p Hh _. destruct (pa_held _ _ _ (pi_past _ _ _ Hp) u p) as [?|?]; [by eapply held_same_edges; [| |exact Hh]| |].
    + left. eapply anc_mono; [exact Hg1|done].
    + right. eapply lost_mono; [exact Hg1| |done]. lia.
Qed.

Lemma becomeCandidate_inv S n r r' :
  history_ok S → peer_inv S n r → r_Term r < max64 → becomeCandidate r = Ok r' →
  moves S n (λ S', peer_inv S' n r' ∧ r_State r' = StateCandidate ∧ r_raftLog r' = r_raftLog r ∧
    ∃ h b, h_vote S' n (r_Term r') n h b).
Proof.
  intros OK Hp Hmax H. pose proof (pi_term _ _ _ Hp) as (Hlt & Hb & H0).
  apply becomeCandidate_turn in H as (I & Tm & V & St & W & P & Ms & L); [|lia].
  pose proof (extends_run S n (r_Term r + 1) (tail (r_raftLog r))) as Hg. pose proof (run_ok S n r OK Hp) as OK'.
  rewrite (pi_id _ _ _ Hp) in V. assert (Hn : n ≠ None') by (intros ->; by apply M_none, (pi_mem _ _ _ Hp)).
  exists (run S n (r_Term r + 1) (tail (r_raftLog r))). split; [done|]. split; [done|].
  assert (Hvote : h_vote (run S n (r_Term r + 1) (tail (r_raftLog r))) n (r_Term r') n (tail (r_raftLog r)) false) by (right; by rewrite Tm).
  split; [|split; [done|split; [done|eauto]]].
  eapply (peer_inv_turn S); [exact Hp|exact Hg|done..|lia| | | |by rewrite St|by rewrite V].
  - intros _. rewrite V. eauto.
  - eapply (past_add S); [eapply past_raise; [apply (pi_past _ _ _ Hp)|done|lia]|exact Hg|done| | |by left|by left|by left].
    + intros t c h' b [?|E]; [by left|right]. assert (t = r_Term r + 1 ∧ c = n) as [-> ->] by (split; congruence). by rewrite V.
    + intros t h' [?|E]; [by left|right]. assert (t = r_Term r + 1 ∧ h' = tail (r_raftLog r)) as [-> ->] by (split; congruence). by rewrite L.
  - intros _. rewrite Tm L W. split; [by right|]. split_and!; [lia..|]. intros v Hv. by rewrite lookup_empty in Hv.
Qed.

(** ** Winning an election *)

(** A candidate's term has no leader yet. *)
Lemma no_leader S n r Q :
  history_ok S → peer_inv S n r → r_State r = StateCandidate → majority M Q →
  (∀ v, v ∈ Q → ∃ hv b, h_vote S v (r_Term r) n hv b) → ∀ c h, ¬ h_lead S (r_Term r) c h.
Proof.
  intros OK Hp Hs HQ Hv c h Hl. destruct (ho_lead _ _ _ OK _ _ _ Hl) as (_ & _ & _ & _ & Q2 & HQ2 & Hv2).
  destruct (majorities_meet M Q Q2) as (v & HvQ & HvQ2); [apply HQ|apply HQ2|apply HQ|apply HQ2|].
  destruct (Hv v HvQ) as (hv & b & H1). destruct (Hv2 v HvQ2) as (hv2 & H2 & _).
  destruct (ho_vote_fun _ _ _ OK _ _ _ _ _ _ _ _ H1 H2) as [<- _].
  destruct (pa_lead _ _ _ (pi_past _ _ _ Hp) _ _ Hl) as [_ Hc]. by apply Hc.
Qed.

Lemma granted_majority S n r :
  peer_inv S n r → r_State r = StateCandidate → quorum r = granted_votes (r_votes r) →
  majority M (granted (r_votes r)) ∧ ∀ v, v ∈ granted (r_votes r) → ∃ hv b, h_vote S v (r_Term r) n hv b.
Proof.
  intros Hp Hs Hq. destruct (pi_cand _ _ _ Hp Hs) as (_ & _ & _ & _ & Hv). rewrite granted_votes_size /quorum in Hq.
  rewrite -size_dom (pi_prs _ _ _ Hp) in Hq. split; [split|].
  - intros v Hg%elem_of_granted. by destruct (Hv v Hg).
  - pose proof (Z.mul_succ_div_gt (Z.of_nat (size M)) 2). lia.
  - intros v Hg%elem_of_granted. by destruct (Hv v Hg).
Qed.

(** The history after [n] became leader: it holds its own log. *)
Definition elected S (n t : Z) (h : pos) : history := add_ack (add_lead S t n h) n t h.

Lemma extends_elected S n t h : extends n S (elected S n t h).
Proof. eapply extends_trans; [apply extends_lead|apply extends_ack]. Qed.

Lemma elected_ok S n r :
  history_ok S → peer_inv S n r → r_State r = StateCandidate → quorum r = granted_votes (r_votes r) →
  history_ok (elected S n (r_Term r) (tail (r_raftLog r))).
Proof.
  intros OK Hp Hs Hq. destruct (granted_majority _ _ _ Hp Hs Hq) as [HQ Hv].
  pose proof (no_leader _ _ _ _ OK Hp Hs HQ Hv) as Hno. destruct (pi_cand _ _ _ Hp Hs) as (Hc & Hlt & Hb & _ & _).
  apply add_ack_ok.
  - eapply add_lead_ok; [done|apply (li_valid _ _ (pi_log _ _ _ Hp))|done|done|done|done|exact HQ|].
    intros v Hg. destruct (Hv v Hg) as (hv & b & Hw). destruct (ho_vote _ _ _ OK _ _ _ _ _ Hw) as (_ & Hlate & hc & Hcand & Hup).
    exists hv. destruct (pa_cand _ _ _ (pi_past _ _ _ Hp) _ _ Hcand) as [_ Htail]. rewrite -Htail //. split; [|done].
    destruct b; [|done]. destruct (Hlate eq_refl) as (c' & h' & Hl). by apply Hno in Hl.
  - apply tip_onpath. left. exists n. by right.
  - intros t' c h b Hw. by destruct (pa_vote _ _ _ (pi_past _ _ _ Hp) _ _ _ _ Hw) as (_ & ? & _).
Qed.

Lemma reset_progress r t r' v pr :
  log_wf (r_raftLog r) → reset r t = Ok r' → r_Prs r' !! v = Some pr →
  pr = mkProgress (if decide (v = r_id r) then last_index (r_raftLog r) else 0) (u64 (last_index (r_raftLog r) + 1)).
Proof.
  unfold reset. intros Hw H. apply bind_Ok in H as (li & Hli & [= <-]). cbn. intros Hpr.
  rewrite map_lookup_imap in Hpr. apply bind_Some in Hpr as (pr0 & Hpr0 & [= <-]).
  assert (li = last_index (r_raftLog r)) as ->.
  { destruct (decide (r_Term r ≠ t)); cbn in Hli, Hpr0; destruct (decide _) as [E|_] in Hli; try (rewrite E in Hpr0; by rewrite lookup_empty in Hpr0);
      rewrite LastIndex_wf in Hli; [by injection Hli|done|by injection Hli|done]. }
  by destruct (decide (r_Term r ≠ t)).
Qed.

Lemma becomeLeader_inv S n r r' :
  history_ok S → peer_inv S n r → r_State r = StateCandidate → quorum r = granted_votes (r_votes r) →
  idx_ok (last_index (r_raftLog r) + 1) → becomeLeader r = Ok r' → moves S n (λ S', leading S' n r').
Proof.
  unfold becomeLeader. intros OK Hp Hs Hq Hroom H. apply bind_Ok in H as (r1 & Hr & H). apply bind_Ok in H as (li & _ & H).
  pose proof (pi_log _ _ _ Hp) as L0. pose proof (λ v pr, reset_progress _ _ _ v pr (li_wf _ _ L0) Hr) as Hprs.
  apply reset_turn in Hr as (I & Tm & V & St & W & P & Ms & L). rewrite decide_True // in V.
  pose proof (elected_ok S n r OK Hp Hs Hq) as OK'. pose proof (extends_elected S n (r_Term r) (tail (r_raftLog r))) as Hg.
  destruct (granted_majority _ _ _ Hp Hs Hq) as [HQ Hv]. pose proof (no_leader _ _ _ _ OK Hp Hs HQ Hv) as Hno.
  destruct (pi_cand _ _ _ Hp Hs) as (Hc & Hlt & Hb & Ht0 & _).
  match type of H with appendEntry ?x _ = _ => set (r2 := x) in H end.
  eapply moves_trans.
  - exists (elected S n (r_Term r) (tail (r_raftLog r))). split; [done|]. split; [done|]. 
    instantiate (1 := λ S', leading S' n r2). split; [|done].
    eapply (peer_inv_turn S); [exact Hp|exact Hg|exact I|exact P|exact L|exact Ms|cbn; lia| | |done| |].
    + cbn. rewrite Tm V. intros Hvn. destruct (pi_vote _ _ _ Hp Hvn) as (h & b & Hw). exists h, b. exact Hw.
    + eapply (past_add S); [|exact Hg|done|by left|by left| | |by left].
      * destruct (pi_past _ _ _ Hp). split; cbn; rewrite ?Tm ?V ?L; try done.
        -- intros t h Hcd. split; [by eapply pa_cand|done].
        -- intros t h Hld. split; [by eapply pa_lead|done].
        -- intros t Hlf. destruct (pa_left t Hlf) as [? Hfo]. split; [done|]. intros E. rewrite (Hfo E) in Hs. done.
      * intros t h [?|E]; [by left|right]. cbn. split; [congruence|done].
      * intros t p [?|E]; [by left|right]. cbn. rewrite Tm L.
        assert (t = r_Term r ∧ p = tail (r_raftLog r)) as [-> ->] by (split; congruence). split; [done|apply anc_refl].
    + intros _. cbn. rewrite Tm. split; [done|]. split; cbn; rewrite ?Tm ?L.
      * exists (tail (r_raftLog r)). by right.
      * left. exists n. by right.
      * intros c i e pt He. exfalso. destruct (ho_edge _ _ _ OK _ _ _ _ _ He) as (_ & _ & _ & h & Hl & _). by eapply Hno.
      * intros v pr ->%Hprs. cbn. rewrite (pi_id _ _ _ Hp). pose proof (lw_last _ (li_wf _ _ L0)) as [? _].
        pose proof (u64_range (last_index (r_raftLog r) + 1)). destruct (decide (v = n)) as [->|Hne]; (split; [done|]); [right|by left].
        exists (tail (r_raftLog r)). split; [by right|done].
      * by right.
    + cbn. rewrite V. intros _. apply (pi_voted _ _ _ Hp). by rewrite Hs.
  - intros S' OK1 Hl1 _. eapply appendEntry_inv; [exact OK1|exact Hl1| |exact H]. cbn. rewrite L. exact Hroom.
Qed.

Lemma past_same S n r r' :
  past_inv S n r → r_raftLog r' = r_raftLog r → r_Term r' = r_Term r → r_Vote r' = r_Vote r → r_State r' = r_State r → past_inv S n r'.
Proof. intros [] L Tm V St. split; rewrite ?L ?Tm ?V ?St; done. Qed.

Lemma poll_inv S n r v b r' g :
  peer_inv S n r → r_State r = StateCandidate → (b = true → v ∈ M ∧ ∃ hv x, h_vote S v (r_Term r) n hv x) →
  poll r v b = (r', g) →
  peer_inv S n r' ∧ r_State r' = StateCandidate ∧ r_raftLog r' = r_raftLog r ∧ r_Term r' = r_Term r ∧ g = granted_votes (r_votes r').
Proof.
  unfold poll. intros Hp Hs Hv [= <- <-]. split; [|done]. destruct (pi_cand _ _ _ Hp Hs) as (? & ? & ? & ? & Hvotes).
  eapply (peer_inv_turn S); [exact Hp|apply extends_refl|done|done|done|done|done| | | |cbn; by rewrite Hs|apply (pi_voted _ _ _ Hp)].
  - apply (pi_vote _ _ _ Hp).
  - eapply past_same; [apply (pi_past _ _ _ Hp)|done..].
  - intros _. cbn. split_and!; [done..|]. intros w. destruct (r_votes r !! v) as [b'|] eqn:E; [apply Hvotes|].
    destruct (decide (w = v)) as [->|Hne].
    + rewrite lookup_insert_eq. intros [= ->]. by apply Hv.
    + rewrite lookup_insert_ne //. apply Hvotes.
Qed.

(** What [lastTerm] and [LastIndex] give is the last position. *)
Lemma last_pos l lt li : log_wf l → lastTerm l = Ok lt → LastIndex l = Ok li → (li, lt) = tail l.
Proof.
  unfold lastTerm. intros Hw Hlt Hli. rewrite LastIndex_wf // in Hli. injection Hli as <-. apply bind_Ok in Hlt as (li & Hli & Ht).
  rewrite LastIndex_wf // in Hli. injection Hli as <-. unfold tail. f_equal.
  assert (Term l (last_index l) = Ok lt) as HT by (unfold or_panic in Ht; destruct (Term l (last_index l)); by simplify_eq).
  apply Term_Ok in HT; [|done]. rewrite term_at_last // in HT. by injection HT.
Qed.

Lemma campaign_inv S n r r' :
  history_ok S → peer_inv S n r → r_Term r < max64 → idx_ok (last_index (r_raftLog r) + 1) → campaign r = Ok r' →
  moves S n (λ S', peer_inv S' n r').
Proof.
  unfold campaign. intros OK Hp Hmax Hroom H. apply bind_Ok in H as (r1 & H1 & H).
  eapply moves_trans; [by eapply becomeCandidate_inv|]. intros S1 OK1 (Hp1 & Hs1 & L1 & Hv1) Hg1.
  destruct (poll r1 (r_id r1) true) as [r2 g] eqn:Hpoll.
  assert (Hself : true = true → r_id r1 ∈ M ∧ ∃ hv x, h_vote S1 (r_id r1) (r_Term r1) n hv x).
  { intros _. rewrite (pi_id _ _ _ Hp1). split; [apply (pi_mem _ _ _ Hp1)|done]. }
  destruct (poll_inv _ _ _ _ _ _ _ Hp1 Hs1 Hself Hpoll) as (Hp2 & Hs2 & L2 & T2 & ->). rewrite -L1 -L2 in Hroom.
  destruct (decide (quorum r2 = granted_votes (r_votes r2))) as [Hq|_].
  - destruct (becomeLeader_inv _ _ _ _ OK1 Hp2 Hs2 Hq Hroom H) as (S2 & Hg2 & OK2 & [? _]). exists S2. done.
  - apply moves_here; [done|]. destruct (range_ids r2) as [ids r3] eqn:Er. apply range_unseen in Er.
    assert (Hst : r_State r3 = StateCandidate ∧ r_Term r3 = r_Term r1).
    { destruct Er as (_ & E & _ & E2 & _). rewrite E E2. done. }
    eapply (for_each_inv (λ r, peer_inv S1 n r ∧ r_State r = StateCandidate ∧ r_Term r = r_Term r1)); [| |exact H].
    + intros ra rb to (Hpa & Hsa & Ha) Hab. cbv beta in Hab. destruct (decide (to = r_id ra)); [by injection Hab as <-|].
      apply bind_Ok in Hab as (lt & Hlt & Hab). apply bind_Ok in Hab as (li & Hli & Hab).
      pose proof (last_pos _ _ _ (li_wf _ _ (pi_log _ _ _ Hpa)) Hlt Hli) as Htail. destruct (pi_cand _ _ _ Hpa Hsa) as (Hc & _ & _ & ? & _).
      destruct (send_inv _ _ _ _ _ Hpa Hab) as (? & E1 & E2 & _); [|split; [done|]; by rewrite E1 E2].
      intros t Ht _. destruct Ht as [-> _]; [by left|]. split; [split; [apply (pi_mem _ _ _ Hpa)|done]|]. cbn. rewrite -Ha. split; [done|].
      by rewrite Htail.
    + split; [by eapply peer_inv_unseen|done].
Qed.

(** ** Voting *)

Lemma isUpToDate_inv l i t : log_wf l → isUpToDate l i t = Ok true → uptodate (i, t) (tail l).
Proof.
  unfold isUpToDate. intros Hw H. apply bind_Ok in H as (lt & Hlt & H). apply bind_Ok in H as (li & Hli & H).
  rewrite -(last_pos _ _ _ Hw Hlt Hli). injection H as H. apply bool_decide_eq_true in H. done.
Qed.

Lemma peer_inv_vote S n r c :
  history_ok S → peer_inv S n r → r_Vote r = None' → c ∈ M → (∃ hc, h_cand S (r_Term r) c hc ∧ uptodate hc (tail (r_raftLog r))) →
  moves S n (λ S', peer_inv S' n (set_Vote c r) ∧ ∃ h b, h_vote S' n (r_Term r) c h b).
Proof.
  intros OK Hp Hv Hc Hcand. pose proof (pi_past _ _ _ Hp) as Hpast.
  assert (Hb : ∃ b : bool, (b = true → ∃ c' h', h_lead S (r_Term r) c' h') ∧
    (b = false → ∀ u p, held S n u p → u < r_Term r → anc S p (tail (r_raftLog r)) ∨ lost S p u (r_Term r - 1))).
  { destruct (pa_strict _ _ _ Hpast) as [Hst|Hl]; [by exists false|by exists true]. }
  destruct Hb as (b & Hb1 & Hb2). pose proof (extends_vote S n (r_Term r) c (tail (r_raftLog r)) b) as Hg.
  assert (Hc0 : c ≠ None') by (intros ->; by apply M_none).
  exists (add_vote S n (r_Term r) c (tail (r_raftLog r)) b). split; [done|]. split.
  { apply add_vote_ok; [done|apply (li_valid _ _ (pi_log _ _ _ Hp))| |done..].
    intros c' h' b' Hw. destruct (pa_vote _ _ _ Hpast _ _ _ _ Hw) as (? & _ & E). rewrite Hv in E. by specialize (E eq_refl). }
  split; [|exists (tail (r_raftLog r)), b; by right].
  assert (Hmore : peer_inv (add_vote S n (r_Term r) c (tail (r_raftLog r)) b) n (set_Vote c r)).
  { eapply (peer_inv_turn S); [exact Hp|exact Hg|done..| | | | |done].
    - intros _. exists (tail (r_raftLog r)), b. by right.
    - eapply (past_add S); [by apply past_vote|exact Hg|done| |by left..]. intros t c' h' b' [?|E]; [by left|right].
      cbn. assert (t = r_Term r ∧ c' = c) as [-> ->] by (split; congruence). done.
    - intros Hs. destruct (pi_cand _ _ _ Hp Hs) as (? & ? & ? & ? & Hvs). split_and!; [done..|].
      intros v Hw. destruct (Hvs v Hw) as (? & hv & x & ?). split; [done|]. exists hv, x. by left.
    - intros Hs. destruct (pi_lead _ _ _ Hp Hs) as [? []]. split; [done|]. done. }
  exact Hmore.
Qed.

Lemma step_request_vote_inv S n r m r' e :
  history_ok S → peer_inv S n r → MsgType m = MsgRequestVote → msg_inv S m → m_Term m = r_Term r →
  step_request_vote r m = Ok (r', e) → moves S n (λ S', peer_inv S' n r').
Proof.
  unfold step_request_vote. intros OK Hp Hty [[Hf _] Hm] Ht H. rewrite Hty in Hm. destruct Hm as [Ht0 Hcand].
  apply bind_Ok in H as (ok & Hcan & H). apply bind_Ok in H as (lt & _ & H). apply bind_Ok in H as (li & _ & H).
  destruct ok.
  - case_bool_decide as Hv; [|done]. apply isUpToDate_inv in Hcan as Hup; [|apply (li_wf _ _ (pi_log _ _ _ Hp))].
    apply bind_Ok in H as (r1 & Hsend & H). injection H as <- <-.
    assert (Hw : moves S n (λ S', peer_inv S' n (set_Vote (From m) (set_electionElapsed 0 r)) ∧ ∃ h b, h_vote S' n (r_Term r) (From m) h b)).
    { destruct (decide (r_Vote r = From m)) as [E|E].
      - apply moves_here; [done|]. assert (Hn : r_Vote r ≠ None') by (rewrite E; intros E0; apply M_none; by rewrite -E0).
        rewrite -E. split; [|by apply (pi_vote _ _ _ Hp)]. eapply peer_inv_unseen; [exact Hp|]. unfold unseen. split_and!; eauto 6.
      - assert (Hp' : peer_inv S n (set_electionElapsed 0 r)) by (eapply peer_inv_unseen; [exact Hp|]; unfold unseen; split_and!; eauto 6).
        apply (peer_inv_vote _ _ (set_electionElapsed 0 r)); [done|exact Hp'|by destruct Hv as [?|[? _]]|done|]. exists (m_Index m, LogTerm m). split; [|done].
        cbn. by rewrite -Ht. }
    destruct Hw as (S' & Hg & OK' & Hp' & h & b & Hvt). exists S'. split; [done|]. split; [done|].
    apply send_sent in Hsend as (t & -> & Htm & _). destruct Htm as [-> _]; [by right|]. rewrite (pi_id _ _ _ Hp).
    eapply (peer_inv_send _ _ (set_Vote (From m) (set_electionElapsed 0 r))); [exact Hp'| |done].
    split; [split; [apply (pi_mem _ _ _ Hp)|done]|]. cbn. intros _. split; [done|]. exists h, b. by rewrite Ht.
  - unfold fine in H. apply bind_Ok in H as (r1 & Hsend & [= <- <-]). apply moves_here; [done|].
    eapply send_inv; [exact Hp|exact Hsend|]. intros t _ _. apply other_msg; [apply (pi_mem _ _ _ Hp)|done].
Qed.

(** ** Following *)

Lemma ack_inv S n r i t to r' :
  history_ok S → peer_inv S n r → r_State r = StateFollower → r_Term r ≠ 0 → onpath S (r_Term r) (i, t) → anc S (i, t) (tail (r_raftLog r)) →
  send r (msg_append_resp to i false 0) = Ok r' → moves S n (λ S', peer_inv S' n r').
Proof.
  intros OK Hp Hs Ht0 Hon Ha H. set (S' := add_left (add_ack S n (r_Term r) (i, t)) n (r_Term r)).
  assert (Hg : extends n S S') by (eapply extends_trans; [apply extends_ack|apply extends_left]). exists S'.
  split; [done|]. split.
  { apply add_left_ok, add_ack_ok; [done..|]. intros u c h b Hv. by destruct (pa_vote _ _ _ (pi_past _ _ _ Hp) _ _ _ _ Hv) as (_ & ? & _). }
  assert (Hp' : peer_inv S' n r).
  { eapply peer_inv_more; [exact Hp|exact Hg|done|]. eapply (past_add S); [apply (pi_past _ _ _ Hp)|exact Hg|done|by left..| |].
    - intros u p [?|E]; [by left|right]. assert (u = r_Term r ∧ p = (i, t)) as [-> ->] by (split; congruence). done.
    - intros u [?|E]; [by left|right]. split; [congruence|done]. }
  eapply send_inv; [exact Hp'|exact H|]. intros u _ Hu. cbn in Hu. rewrite (Hu (or_intror eq_refl)).
  split; [split; [apply (pi_mem _ _ _ Hp)|done]|]. cbn. intros _. split; [done|]. split; [by right|]. exists (i, t). split; [by right|done].
Qed.

(** A follower of a term with a leader may replace its log by one that keeps
    what is committed and holds what it acknowledged. *)
Lemma follower_log S n r l' :
  peer_inv S n r → r_State r = StateFollower → (∃ c h, h_lead S (r_Term r) c h) → log_inv S l' → last_term l' ≤ r_Term r →
  (∀ t p, held S n t p → anc S p (tail l') ∨ lost S p t (r_Term r)) →
  (∀ t, term_at l' (committed l') = Some t → com S (r_Term r) (committed l', t)) →
  (∀ s, pending_snapshot l' = Some s → snap_fine S (r_Term r) s) → storage l' = storage (r_raftLog r) →
  peer_inv S n (set_raftLog l' r).
Proof.
  intros [] Hs Hlead L Hlt Hheld Hc Hpd Hst.
  split; cbn [set_raftLog r_id r_Term r_Vote r_State r_votes r_Prs r_msgs r_raftLog]; try done; try (rewrite Hs; done).
  - lia.
  - by rewrite Hst.
  - destruct pi_past. split; cbn [set_raftLog r_id r_Term r_Vote r_State r_votes r_Prs r_msgs r_raftLog]; try done.
    + intros t h Hcd. split; [by eapply pa_cand|by rewrite Hs].
    + by right.
Qed.

(** Entries that were acknowledged survive a move to [q], the leader's path,
    or a leader has replaced them. *)
Lemma held_moved S n r q :
  history_ok S → peer_inv S n r → onpath S (r_Term r) q → ¬ anc S q (tail (r_raftLog r)) →
  ∀ t p, held S n t p → anc S p q ∨ lost S p t (r_Term r).
Proof.
  intros OK Hp Hq Hn t p Hh. destruct (pa_held _ _ _ (pi_past _ _ _ Hp) _ _ Hh) as [Ha|?]; [|by right].
  assert (Hvq : valid S q).
  { destruct Hq as (q' & Htip & Hq). eapply anc_is_valid; [done|exact Hq|]. by destruct (tip_valid _ _ _ OK _ _ Htip). }
  assert (Hvp : valid S p) by (eapply anc_is_valid; [done|exact Ha|apply (li_valid _ _ (pi_log _ _ _ Hp))]).
  destruct (part _ _ p q Hvp Hvq) as [?|[Hqp|(k & u & u' & Hu & Hu' & Hne)]]; [by left|by destruct Hn; eapply anc_trans|right].
  destruct Hh as (a & Hack & Hpa). pose proof (pa_ack _ _ _ (pi_past _ _ _ Hp) _ _ Hack) as Hle.
  pose proof (onpath_anc _ _ _ _ Hu' Hq) as Hon'. destruct (decide (t = r_Term r)) as [->|Hlt].
  - exfalso. apply Hne. eapply onpath_same; [done| |exact Hon']. eapply onpath_anc; [exact Hu|]. eapply onpath_anc; [exact Hpa|].
    by eapply ho_ack.
  - exists (r_Term r), k, u, u'. split_and!; [lia|lia|done..].
Qed.

(** ** Accepting entries *)

(** The position [q] at which the entries of an append end. *)
Record leads_to S (i t : Z) (ents : list Entry) (q : pos) : Prop := {
  lt_index : q.1 = i + zlen ents;
  lt_prev : anc S (i, t) q;
  lt_num : numbered (i + 1) ents;
  lt_ents e : e ∈ ents → anc S (e_Index e, e_Term e) q ∧ ∃ c pt, h_edge S c (e_Index e) (e_Term e) e pt
}.

Lemma leads_to_end S i t ents q :
  history_ok S → leads_to S i t ents q → (ents = [] ∧ q = (i, t)) ∨ ∃ e, e ∈ ents ∧ q = (e_Index e, e_Term e).
Proof.
  intros OK []. destruct (last ents) as [e|] eqn:El.
  - right. exists e. pose proof El as [ents' Eq]%last_Some. assert (Hin : e ∈ ents) by (rewrite Eq; set_solver). split; [done|].
    destruct (lt_ents0 e Hin) as [Ha _]. symmetry. eapply anc_antisym; [done|exact Ha|apply anc_refl|]. cbn.
    rewrite last_lookup in El. pose proof (lookup_lt_Some _ _ _ El). rewrite (lt_num0 _ _ El) lt_index0 /zlen. lia.
  - left. apply last_None in El. split; [done|]. symmetry. eapply anc_antisym; [done|exact lt_prev0|apply anc_refl|].
    rewrite lt_index0 El /zlen /=. lia.
Qed.

(** The entry of an append at an index. *)
Lemma leads_to_at S i t ents q j :
  leads_to S i t ents q → i < j ≤ q.1 → ∃ e, e ∈ ents ∧ e_Index e = j.
Proof.
  intros [] Hj. rewrite lt_index0 /zlen in Hj. destruct (lookup_lt_is_Some_2 ents (Z.to_nat (j - i - 1))) as [e He]; [lia|].
  exists e. split; [by eapply list_elem_of_lookup_2|]. rewrite (lt_num0 _ _ He). lia.
Qed.

(** When all entries agree the log stays. *)
Lemma accepted_stays S l i t ents lc l' q :
  history_ok S → log_inv S l → leads_to S i t ents q → term_at l i = Some t → accepted l i ents lc l' →
  Forall (agrees l) ents → log_inv S l' ∧ tail l' = tail l ∧ anc S q (tail l').
Proof.
  intros OK L Hq Hi Hacc Hall. pose proof (ac_wf _ _ _ _ _ Hacc) as Hw'. pose proof (ac_same _ _ _ _ _ Hacc Hall) as E. rewrite E in Hw' |- *.
  split_and!; [by apply log_inv_commit|done|]. change (tail (set_committed (committed l') l)) with (tail l).
  destruct (leads_to_end _ _ _ _ _ OK Hq) as [[_ ->]|(e & He & ->)]; [by apply (li_term _ _ L)|].
  apply (li_term _ _ L). rewrite Forall_forall in Hall. by apply Hall.
Qed.

(** When one does not, the log ends where the leader's entries do. *)
Lemma accepted_moves S l i t ents lc l' q :
  history_ok S → log_inv S l → leads_to S i t ents q → valid S q → term_at l i = Some t → accepted l i ents lc l' →
  storage l' = storage l → ¬ Forall (agrees l) ents → log_inv S l' ∧ tail l' = q ∧ ¬ anc S q (tail l).
Proof.
  intros OK L Hq Hv Hi Hacc Hst Hno. pose proof (ac_wf _ _ _ _ _ Hacc) as Hw'. pose proof (ac_cut _ _ _ _ _ Hacc Hno) as Hlast.
  pose proof (ac_snap _ _ _ _ _ Hacc). pose proof (li_wf _ _ L) as Hw. pose proof (lw_commit _ Hw). pose proof (lw_applied _ Hw).
  pose proof (lw_commit _ Hw'). pose proof (lt_index _ _ _ _ _ Hq) as Hqi.
  assert (Hii : snapIndex l ≤ i ≤ last_index l) by (apply term_at_is_Some; [done|by rewrite Hi]).
  assert (Htail : tail l' = q).
  { destruct (leads_to_end _ _ _ _ _ OK Hq) as [[-> _]|(e & He & Eq)]; [by destruct Hno|].
    assert (Hag : agrees l' e) by (apply (ac_new _ _ _ _ _ Hacc); [done|]; rewrite Eq in Hqi; cbn in Hqi; lia).
    unfold agrees in Hag. rewrite Eq in Hqi |- *. cbn in Hqi. unfold tail, last_term. rewrite Hlast -Hqi Hag. done. }
  assert (Hnew : ∀ j u, term_at l' j = Some u → i < j → ∃ e, e ∈ ents ∧ (e_Index e, e_Term e) = (j, u)).
  { intros j u Hu Hj. assert (Hjr : snapIndex l' ≤ j ≤ last_index l') by (apply term_at_is_Some; [done|by rewrite Hu]).
    destruct (leads_to_at _ _ _ _ _ j Hq) as (e & He & Ej); [lia|]. exists e. split; [done|].
    pose proof (ac_new _ _ _ _ _ Hacc e He) as Hag. unfold agrees in Hag. rewrite Ej in Hag |- *. rewrite Hu in Hag.
    f_equal. symmetry. by injection Hag; [|lia]. }
  split_and!; [|done|].
  - split; [done| |by rewrite Htail| |].
    + eapply storage_ok_kept; [apply (li_storage _ _ L)|done|lia| |].
      * rewrite (ac_applied _ _ _ _ _ Hacc). pose proof (ac_stabled _ _ _ _ _ Hacc). lia.
      * intros j Hj. apply (ac_old _ _ _ _ _ Hacc). lia.
    + intros j u Hu. rewrite Htail. destruct (decide (i < j)) as [Hj|Hj].
      * destruct (Hnew j u Hu Hj) as (e & He & <-). by apply (lt_ents _ _ _ _ _ Hq).
      * eapply anc_trans; [|apply (lt_prev _ _ _ _ _ Hq)].
        assert (Hjr : snapIndex l' ≤ j ≤ last_index l') by (apply term_at_is_Some; [done|by rewrite Hu]).
        rewrite (ac_old _ _ _ _ _ Hacc) in Hu; [|lia]. eapply anc_linear; [done|by apply (li_term _ _ L)|by apply (li_term _ _ L)|cbn; lia].
    + intros j e He. destruct (entry_at_Some _ _ _ Hw' He) as [_ Hj]. destruct (ac_from _ _ _ _ _ Hacc _ _ He) as [Ho|Hin].
      * by apply (li_entry _ _ L).
      * destruct (lt_ents _ _ _ _ _ Hq e Hin) as [_ Hed]. by rewrite Hj in Hed.
  - intros Ha. apply Hno, Forall_forall. intros e He. destruct (lt_ents _ _ _ _ _ Hq e He) as [Hae _].
    destruct (numbered_elem _ _ _ (lt_num _ _ _ _ _ Hq) He) as (k & _ & Hk & _).
    eapply term_at_anc; [done|done|lia|]. by eapply anc_trans.
Qed.

(** What the leader has committed of its own path up to [q]. *)
Lemma com_capped S t p q i u :
  history_ok S → com S t p → onpath S t p → onpath S t q → i = Z.min p.1 q.1 → anc S (i, u) q → com S t (i, u).
Proof.
  intros OK Hc Hp Hq -> Ha. destruct (decide (p.1 ≤ q.1)) as [Hle|Hgt].
  - rewrite Z.min_l // in Ha |- *. replace (p.1, u) with p; [done|]. eapply anc_antisym; [done| |exact Ha|done]. by eapply onpath_linear.
  - rewrite Z.min_r in Ha |- *; [|lia]. eapply com_anc; [done| |exact Hc]. eapply anc_trans; [exact Ha|].
    eapply onpath_linear; [done..|lia].
Qed.

Lemma accepted_commit S n r i t ents lc l' q p :
  history_ok S → peer_inv S n r → accepted (r_raftLog r) i ents lc l' → log_inv S l' → anc S q (tail l') → q.1 = i + zlen ents →
  onpath S (r_Term r) q → com S (r_Term r) p → onpath S (r_Term r) p → p.1 = lc →
  term_at l' (committed l') = Some t → com S (r_Term r) (committed l', t).
Proof.
  intros OK Hp Hacc L' Hq Hqi Hon Hc Hpo Hlc Ht. pose proof (ac_committed _ _ _ _ _ Hacc) as Ec. pose proof (lw_commit _ (ac_wf _ _ _ _ _ Hacc)).
  destruct (decide (committed l' = committed (r_raftLog r))) as [E|E].
  - rewrite (ac_old _ _ _ _ _ Hacc) in Ht; [|lia]. rewrite E in Ht |- *. by apply (pi_commit _ _ _ Hp).
  - eapply (com_capped _ _ p q); [done..|lia|]. eapply anc_linear; [done|by apply (li_term _ _ L')|exact Hq|cbn; lia].
Qed.

(** A peer answers with its commit index when it is asked for less. *)
Lemma ack_committed S n r to r' :
  history_ok S → peer_inv S n r → r_State r = StateFollower → r_Term r ≠ 0 → (∃ c h, h_lead S (r_Term r) c h) →
  send r (msg_append_resp to (committed (r_raftLog r)) false 0) = Ok r' → moves S n (λ S', peer_inv S' n r').
Proof.
  intros OK Hp Hs Ht0 (c & h & Hl) H. destruct (committed_pos _ _ _ OK Hp) as (tc & _ & Hcom & Hanc & _).
  eapply ack_inv; [done|exact Hp|done|done| |exact Hanc|exact H]. eapply com_onpath; [done|exact Hcom|exact Hl|lia].
Qed.

#[local] Instance agrees_dec l e : Decision (agrees l e).
Proof. unfold agrees. apply _. Defined.

(** An append that returns was refused or accepted. *)
Lemma maybeAppend_Ok l index t lc ents l' ok :
  log_wf l → storage_ok l → 0 ≤ index → 0 ≤ lc → numbered (index + 1) ents → idx_ok (index + zlen ents) →
  maybeAppend l index t lc ents = Ok (l', ok) →
  (ok = None ∧ l' = l) ∨ (ok = Some (index + zlen ents) ∧ term_at l index = Some t ∧ accepted l index ents lc l').
Proof.
  intros Hw Hst Hi Hlc Hn Hix H. destruct (maybeAppend_wf l index t lc ents Hw Hst Hi Hlc Hn Hix) as (Hrej & Hpan & Hacc).
  destruct (decide (term_at l index = Some t)) as [Ht|Ht]; [right|left; rewrite (Hrej Ht) in H; by injection H as <- <-].
  destruct (decide (Exists (λ e, e_Index e ≤ committed l ∧ ¬ agrees l e) ents)) as [Hx|Hx].
  - apply Exists_exists in Hx as (e & ? & ? & ?). destruct Hpan as [why Hp]; [done|by exists e|]. by rewrite Hp in H.
  - destruct Hacc as (l2 & H2 & Hacc); [done| |rewrite H2 in H; injection H as <- <-; done].
    intros e He Hle. destruct (decide (agrees l e)); [done|]. destruct Hx. apply Exists_exists. by exists e.
Qed.

Lemma handleAppendEntries_inv S n r m r' :
  history_ok S → peer_inv S n r → r_State r = StateFollower → r_Term r ≠ 0 → append_fine S (r_Term r) m →
  handleAppendEntries r m = Ok r' → moves S n (λ S', peer_inv S' n r').
Proof.
  unfold handleAppendEntries. intros OK Hp Hs Ht0 (Hi0 & Hc0 & Hnum & Hix & (q & Htip & Hqi & Hprev & Hents) & (p & Hpc & Hcom & Hpo)) H.
  pose proof (tip_onpath _ _ _ Htip) as Hon. pose proof (onpath_lead _ _ _ OK _ _ Hon) as Hlead. pose proof (pi_log _ _ _ Hp) as L.
  destruct (tip_valid _ _ _ OK _ _ Htip) as (Hv & Hqt & _). assert (Hq : leads_to S (m_Index m) (LogTerm m) (m_Entries m) q) by done.
  destruct (decide (m_Index m < committed (r_raftLog r))); [by eapply ack_committed|].
  apply bind_Ok in H as ([l' ok] & Happ & H). pose proof (maybeAppend_keeps _ _ _ _ _ _ _ Happ) as [Hst Hpd].
  destruct (maybeAppend_Ok _ _ _ _ _ _ _ (li_wf _ _ L) (li_storage _ _ L) Hi0 Hc0 Hnum Hix Happ) as [[-> ->]|(-> & Hi & Hacc)].
  { apply bind_Ok in H as (li & _ & H). apply moves_here; [done|].
    assert (Er : set_raftLog (r_raftLog r) r = r) by (by destruct r). rewrite Er in H. eapply send_inv; [exact Hp|exact H|].
    intros t _ _. apply other_msg; [apply (pi_mem _ _ _ Hp)|done]. }
  rewrite -Hqi in H.
  assert (Hnew : log_inv S l' ∧ anc S q (tail l') ∧ last_term l' ≤ r_Term r ∧
    ∀ t p, held S n t p → anc S p (tail l') ∨ lost S p t (r_Term r)).
  { destruct (decide (Forall (agrees (r_raftLog r)) (m_Entries m))) as [Hall|Hno].
    - destruct (accepted_stays _ _ _ _ _ _ _ _ OK L Hq Hi Hacc Hall) as (L' & Et & Ha). split_and!; [done..| |].
      + change (last_term l') with (tail l').2. rewrite Et. apply (pi_term _ _ _ Hp).
      + rewrite Et. apply (pa_held _ _ _ (pi_past _ _ _ Hp)).
    - destruct (accepted_moves _ _ _ _ _ _ _ _ OK L Hq Hv Hi Hacc Hst Hno) as (L' & Et & Hna). rewrite Et. split_and!; [done|apply anc_refl| |].
      + change (last_term l') with (tail l').2. by rewrite Et.
      + by eapply held_moved. }
  destruct Hnew as (L' & Ha & Hlt & Hheld). destruct q as [qi qt]. eapply (ack_inv _ _ (set_raftLog l' r)); [done| |done|done|exact Hon|exact Ha|exact H].
  eapply follower_log; [done..| | |done].
  - intros t. by eapply accepted_commit.
  - rewrite Hpd. apply (pi_pending _ _ _ Hp).
Qed.

Lemma commitTo_Ok l i l' : log_wf l → commitTo l i = Ok l' → i ≤ last_index l ∧ l' = set_committed (Z.max (committed l) i) l.
Proof.
  intros Hw H. pose proof (lw_commit _ Hw). destruct (decide (i ≤ last_index l)) as [Hi|Hi].
  - destruct (commitTo_wf l i Hw Hi) as [E _]. rewrite E in H. by injection H as <-.
  - exfalso. revert H. unfold commitTo. rewrite decide_True; [|lia]. rewrite LastIndex_wf //. cbn [mbind outcome_bind].
    by rewrite decide_True; [|lia].
Qed.

(** Committing up to a position of the log. *)
Lemma commitTo_inv S n r i l' :
  history_ok S → peer_inv S n r → commitTo (r_raftLog r) i = Ok l' →
  (committed (r_raftLog r) < i → ∃ t, com S (r_Term r) (i, t) ∧ anc S (i, t) (tail (r_raftLog r))) →
  peer_inv S n (set_raftLog l' r) ∧ committed l' = Z.max (committed (r_raftLog r)) i.
Proof.
  intros OK Hp H Hc. pose proof (pi_log _ _ _ Hp) as L. pose proof (lw_commit _ (li_wf _ _ L)).
  apply commitTo_Ok in H as [Hi ->]; [|apply (li_wf _ _ L)]. split; [|done]. destruct (decide (committed (r_raftLog r) < i)) as [Hlt|Hge].
  - rewrite Z.max_r; [|lia]. destruct (Hc Hlt) as (t & Hcom & Ha). eapply peer_inv_commit; [done|done| |done].
    eapply term_at_anc; [done|exact L|lia|done].
  - rewrite Z.max_l; [|lia]. by destruct r as [? ? ? []].
Qed.

Lemma handleHeartbeat_inv S n r m r' :
  history_ok S → peer_inv S n r →
  (m_Commit m = 0 ∨ ∃ p, p.1 = m_Commit m ∧ com S (r_Term r) p ∧ held S n (r_Term r) p) →
  handleHeartbeat r m = Ok r' → moves S n (λ S', peer_inv S' n r').
Proof.
  unfold handleHeartbeat. intros OK Hp Hm H. apply bind_Ok in H as (l' & Hl & H). apply moves_here; [done|].
  destruct (commitTo_inv _ _ _ _ _ OK Hp Hl) as [Hp' _].
  - intros Hlt. pose proof (lw_applied _ (li_wf _ _ (pi_log _ _ _ Hp))). destruct Hm as [E|([i t] & <- & Hcom & Hh)]; [lia|]. exists t. split; [done|].
    destruct (pa_held _ _ _ (pi_past _ _ _ Hp) _ _ Hh) as [?|(t2 & ? & ? & ? & ? & _)]; [done|lia].
  - eapply send_inv; [exact Hp'|exact H|]. intros t _ _. apply other_msg; [apply (pi_mem _ _ _ Hp)|done].
Qed.

(** The log after a snapshot was installed. *)
Lemma restored_log S l s md l' :
  log_inv S l → log_restore l s = Ok l' → sp_Metadata s = Some md → committed l < md_Index md → idx_ok (md_Index md) →
  valid S (md_Index md, md_Term md) →
  log_inv S l' ∧ tail l' = (md_Index md, md_Term md) ∧ committed l' = md_Index md ∧
  term_at l' (md_Index md) = Some (md_Term md) ∧ pending_snapshot l' = Some s ∧ storage l' = storage l.
Proof.
  intros L H Hmd Hc Hix Hv. pose proof (li_wf _ _ L) as Hw. pose proof (lw_applied _ Hw).
  destruct (log_restore_wf l s md Hw Hmd ltac:(lia) Hix) as (l2 & H2 & Hw' & He & Hsi & Hst & Hcm & Hsb & Hap & Hpd).
  rewrite H2 in H. injection H as ->. assert (Hsto : storage l' = storage l).
  { revert H2. unfold log_restore, snap_meta. rewrite Hmd. cbn [mbind outcome_bind]. by intros [= <-]. }
  assert (Hterm : term_at l' (md_Index md) = Some (md_Term md)) by (unfold term_at; rewrite decide_True //; by rewrite Hst).
  assert (Hlast : last_index l' = md_Index md) by (unfold last_index; rewrite He Hsi /zlen /=; lia).
  assert (Htail : tail l' = (md_Index md, md_Term md)) by (unfold tail, last_term; by rewrite Hlast Hterm).
  split; [|done]. split; [done| |by rewrite Htail| |].
  - eapply storage_ok_kept; [apply (li_storage _ _ L)|done| | |]; [pose proof (lw_commit _ Hw); lia|lia|intros i Hi; lia].
  - intros i t Hi. assert (snapIndex l' ≤ i ≤ last_index l') by (apply term_at_is_Some; [done|by rewrite Hi]).
    assert (i = md_Index md) as -> by lia. rewrite Hterm in Hi. injection Hi as <-. rewrite Htail. apply anc_refl.
  - intros i e Hi. apply entry_at_Some in Hi as [Hr _]; [|done]. rewrite (lw_off _ Hw') in Hr. lia.
Qed.

Lemma restore_inv S n r s md r' (b : bool) :
  history_ok S → peer_inv S n r → r_State r = StateFollower → snap_fine S (r_Term r) s → sp_Metadata s = Some md →
  onpath S (r_Term r) (md_Index md, md_Term md) → restore r s = Ok (r', b) →
  peer_inv S n r' ∧ r_State r' = StateFollower ∧ r_Term r' = r_Term r ∧ (b = true → tail (r_raftLog r') = (md_Index md, md_Term md)).
Proof.
  unfold restore. intros OK Hp Hs [Hmem (md' & Hmd' & Hix & Hcom)] Hmd Hon H. rewrite Hmd in Hmd'. injection Hmd' as <-.
  pose proof (pi_log _ _ _ Hp) as L. pose proof (li_wf _ _ L) as Hw. pose proof (lw_commit _ Hw). destruct Hix as [Hix0 Hix1].
  apply bind_Ok in H as (md0 & Hmd0 & H). unfold snap_meta in Hmd0. rewrite Hmd in Hmd0. injection Hmd0 as <-.
  destruct (decide (md_Index md ≤ committed (r_raftLog r))); [by injection H as <- <-|].
  rewrite matchTerm_wf // in H; [|lia]. cbn [mbind outcome_bind] in H. apply bind_Ok in H as (li & _ & H). apply bind_Ok in H as (lt & _ & H).
  case_bool_decide as Ht.
  - apply bind_Ok in H as (l' & Hl & H). injection H as <- <-. split; [|done].
    destruct (commitTo_inv _ _ _ _ _ OK Hp Hl) as [? _]; [|done]. intros _. exists (md_Term md). split; [done|by apply (li_term _ _ L)].
  - apply bind_Ok in H as (l' & Hl & H). apply bind_Ok in H as (cs & Hcs & H). apply bind_Ok in H as (r2 & Hr & H). injection H as <- <-.
    assert (Hv : valid S (md_Index md, md_Term md)).
    { destruct Hon as (q & Hq & Ha). eapply anc_is_valid; [done|exact Ha|]. by destruct (tip_valid _ _ _ OK _ _ Hq). }
    destruct (restored_log _ _ _ _ _ L Hl Hmd ltac:(lia) (conj Hix0 Hix1) Hv) as (L' & Htail & Hcm & Hterm & Hpd & Hst).
    apply restoreNode_same in Hr as (I & Tm & V & St & W & Ms & Lr & P). cbn in I, Tm, V, St, W, Ms, Lr, P.
    split; [|split; [by rewrite St|split; [done|intros _; by rewrite Lr]]]. eapply (peer_inv_unseen _ _ (set_raftLog l' r)).
    + eapply follower_log; [done|done|by eapply onpath_lead|done| | | | |done].
      * change (last_term l') with (tail l').2. rewrite Htail. by apply (onpath_term _ _ _ OK) in Hon.
      * rewrite Htail. eapply held_moved; [done..|]. intros Ha. apply Ht. eapply term_at_anc; [done|exact L|lia|done].
      * intros t. rewrite Hcm Hterm. by intros [= <-].
      * intros s' Hs'. rewrite Hpd in Hs'. injection Hs' as <-. split; [done|]. by exists md.
    + unfold unseen. cbn. split_and!; [done..| |done|done|by rewrite Hs]. rewrite P (pi_prs _ _ _ Hp) dom_empty_L right_id_L.
      eapply Hmem; [exact Hmd|]. destruct (md_ConfState md); by simplify_eq.
Qed.

Lemma handleSnapshot_inv S n r m s md r' :
  history_ok S → peer_inv S n r → r_State r = StateFollower → r_Term r ≠ 0 → m_Snapshot m = Some s → snap_fine S (r_Term r) s →
  sp_Metadata s = Some md → onpath S (r_Term r) (md_Index md, md_Term md) →
  handleSnapshot r m = Ok r' → moves S n (λ S', peer_inv S' n r').
Proof.
  unfold handleSnapshot. intros OK Hp Hs Ht0 Hm Hfine Hmd Hon H. rewrite Hm in H. apply bind_Ok in H as ([r1 b] & Hr & H).
  destruct (restore_inv _ _ _ _ _ _ _ OK Hp Hs Hfine Hmd Hon Hr) as (Hp1 & Hs1 & Tm & Hb). rewrite -Tm in Ht0 Hon. destruct b.
  - apply bind_Ok in H as (li & Hli & H). rewrite LastIndex_wf in Hli; [|apply (li_wf _ _ (pi_log _ _ _ Hp1))]. injection Hli as <-.
    assert (E : last_index (r_raftLog r1) = md_Index md) by (by specialize (Hb eq_refl); unfold tail in Hb; injection Hb).
    rewrite E in H. eapply (ack_inv _ _ r1); [done|done|done|done|exact Hon| |exact H]. rewrite Hb //. apply anc_refl.
  - eapply ack_committed; [done|done|done|done| |exact H]. by eapply onpath_lead.
Qed.

(** ** Leading *)

(** A leader may learn of an acknowledgement, or forget where to send from. *)
Lemma leading_progress S n r v pr' :
  leading S n r → v ∈ M → (0 ≤ Match pr' ∧ is_u64 (Next pr')) ∧ (Match pr' = 0 ∨ ∃ q, h_ack S v (r_Term r) q ∧ Match pr' = q.1) →
  leading S n (set_Prs (<[v := pr']> (r_Prs r)) r).
Proof.
  intros [Hp Hs] Hv Hpr. split; [|done]. eapply (peer_inv_turn S S n r); cbn; rewrite ?Hs; [done|apply extends_refl|done| |done|done|lia|apply Hp| |done| |].
  - rewrite dom_insert_L (pi_prs _ _ _ Hp). set_solver.
  - by eapply past_same; [apply (pi_past _ _ _ Hp)|..].
  - intros _. destruct (pi_lead _ _ _ Hp Hs) as [? []]. split; [done|]. split; [done..| |done]. cbn. intros w pw.
    destruct (decide (w = v)) as [->|Hne]; [rewrite lookup_insert_eq; by intros [= <-]|rewrite lookup_insert_ne //; apply le_match].
  - intros _. apply (pi_voted _ _ _ Hp). by rewrite Hs.
Qed.

Lemma timeoutNow_inv S n r to r' : leading S n r → sendTimeoutNow r to = Ok r' → leading S n r'.
Proof.
  intros [Hp Hs] H. destruct (send_inv _ _ _ _ _ Hp H) as (? & E & _); [|split; [done|by rewrite E]].
  intros t _ _. apply other_msg; [apply (pi_mem _ _ _ Hp)|done].
Qed.

Lemma leader_append_response_inv S n r m pr r' e :
  history_ok S → leading S n r → r_Prs r !! From m = Some pr →
  (Reject m = false → ∃ q, h_ack S (From m) (r_Term r) q ∧ q.1 = m_Index m) →
  leader_append_response r m pr = Ok (r', e) → leading S n r'.
Proof.
  unfold leader_append_response. intros OK Hlead Hpr Hm H. pose proof Hlead as [Hp Hs].
  destruct (pi_lead _ _ _ Hp Hs) as [_ [_ _ _ Hmatch _]]. destruct (Hmatch _ _ Hpr) as [[Hm0 Hnx] Hack].
  assert (HvM : From m ∈ M) by (rewrite -(pi_prs _ _ _ Hp); apply elem_of_dom; eauto).
  destruct (Reject m) eqn:Er.
  - destruct (maybeDecrTo pr (m_Index m) (RejectHint m)) as [pr' b] eqn:Ed.
    assert (Hl' : leading S n (set_Prs (<[From m := pr']> (r_Prs r)) r)).
    { apply leading_progress; [done..|]. unfold maybeDecrTo in Ed. pose proof (u64_range (RejectHint m + 1)) as Hr64.
      case_decide; [injection Ed as <- <-; done|]. injection Ed as <- <-. cbn. split; [|done]. split; [done|].
      rewrite go_min_min. unfold is_u64 in *. clear -Hr64 Hnx. destruct (decide (Z.min _ _ < 1)); unfold two64 in *; lia. }
    destruct b; [|by injection H as <- <-]. apply bind_Ok in H as ([r1 x] & H & [= <- <-]). destruct Hl'. by eapply sendAppend_inv.
  - destruct (maybeUpdate pr (m_Index m)) as [pr' b] eqn:Eu. destruct (maybeUpdate_inv pr (m_Index m) Hm0 Hnx) as [Hu1 Hu2]. rewrite Eu in Hu1 Hu2.
    assert (Hl' : leading S n (set_Prs (<[From m := pr']> (r_Prs r)) r)).
    { apply leading_progress; [done..|]. split; [done|]. cbn in Hu2. destruct Hu2 as [->| ->]; [done|right].
      destruct (Hm eq_refl) as (q & ? & ?). eauto. }
    destruct b; [|by injection H as <- <-]. apply bind_Ok in H as ([r1 ok] & H1 & H). apply bind_Ok in H as (r2 & H2 & H).
    destruct Hl' as [Hp' Hs']. destruct (maybeCommit_inv _ _ _ _ _ OK Hp' Hs' H1) as (Hp1 & (_ & _ & _ & E1 & _) & _).
    assert (Hl2 : leading S n r2).
    { assert (leading S n r1) by (split; [done|by rewrite E1]). destruct ok; [by eapply bcastAppend_inv|by injection H2 as <-]. }
    apply bind_Ok in H as (li & _ & H). destruct (decide _); [|by injection H as <- <-]. apply fine_Ok in H. by eapply timeoutNow_inv.
Qed.

Ltac solve_unseen := unfold unseen; split_and!; eauto 6.

Lemma leading_unseen S n r r' : leading S n r → unseen r r' → leading S n r'.
Proof. intros [Hp Hs] Hu. split; [by eapply peer_inv_unseen|]. destruct Hu as (_ & _ & _ & E & _). by rewrite E. Qed.

Lemma propose_conf_inv li i es r es' r' :
  propose_conf li i es r = (es', r') → length es' = length es ∧ unseen r r'.
Proof.
  assert (Hx : ∀ i es r es' r', propose_conf li i es r = (es', r') → length es' = length es ∧ ∃ x, r' = set_PendingConfIndex x r).
  { clear. intros i es. revert i. induction es as [|e es IH]; intros i r es' r' H; cbn in H.
    - injection H as <- <-. split; [done|]. exists (r_PendingConfIndex r). by destruct r.
    - repeat case_decide.
      + destruct (propose_conf li (i + 1) es r) as [es1 r1] eqn:E. injection H as <- <-. destruct (IH _ _ _ _ E). cbn. auto.
      + destruct (propose_conf li (i + 1) es _) as [es1 r1] eqn:E. injection H as <- <-. destruct (IH _ _ _ _ E) as [? [x ->]]. cbn. eauto.
      + destruct (propose_conf li (i + 1) es r) as [es1 r1] eqn:E. injection H as <- <-. destruct (IH _ _ _ _ E). cbn. auto. }
  intros (Hl & x & ->)%Hx. split; [done|]. solve_unseen.
Qed.

Lemma leader_propose_inv S n r m r' e :
  history_ok S → leading S n r → idx_ok (last_index (r_raftLog r) + zlen (m_Entries m)) → leader_propose r m = Ok (r', e) →
  moves S n (λ S', leading S' n r').
Proof.
  unfold leader_propose. intros OK Hl Hroom H. destruct (decide (m_Entries m = [])); [done|].
  destruct (decide (r_Prs r !! r_id r = None)); [injection H as <- <-; by apply moves_here|].
  destruct (decide (r_leadTransferee r ≠ None')); [injection H as <- <-; by apply moves_here|].
  apply bind_Ok in H as (li & _ & H). destruct (propose_conf li 0 (m_Entries m) r) as [es r1] eqn:Ec.
  apply propose_conf_inv in Ec as [Hlen Hu]. pose proof (leading_unseen _ _ _ _ Hl Hu) as Hl1. apply bind_Ok in H as (r2 & Ha & H). apply fine_Ok in H.
  eapply moves_trans; [eapply appendEntry_inv; [exact OK|exact Hl1| |exact Ha]|].
  - destruct Hu as (_ & _ & _ & _ & _ & _ & _ & -> & _). unfold zlen in *. by rewrite Hlen.
  - intros S' OK' Hl2 _. apply moves_here; [done|]. eapply bcastAppend_inv; [exact OK'|exact Hl2|exact H].
Qed.

Lemma leader_transfer_inv S n r m pr r' e :
  history_ok S → leading S n r → leader_transfer r m pr = Ok (r', e) → leading S n r'.
Proof.
  unfold leader_transfer. intros OK Hl H. destruct (decide _) in H; [by injection H as <- <-|].
  set (r0 := if decide (r_leadTransferee r ≠ None') then abortLeaderTransfer r else r) in *.
  assert (Hl0 : leading S n r0).
  { eapply leading_unseen; [exact Hl|]. unfold r0. destruct (decide _); [solve_unseen|apply unseen_refl]. }
  clearbody r0. destruct (decide _) in H; [by injection H as <- <-|].
  assert (Hl1 : leading S n (set_leadTransferee (From m) (set_electionElapsed 0 r0))) by (eapply leading_unseen; [exact Hl0|solve_unseen]).
  apply bind_Ok in H as (li & _ & H). destruct (decide _) in H.
  - apply fine_Ok in H. by eapply timeoutNow_inv.
  - apply bind_Ok in H as ([r2 b] & H & [= <- <-]). destruct Hl1. by eapply sendAppend_inv.
Qed.

(** ** The steps of each role *)

(** Messages that say nothing of the group's history. *)
Definition ordinary m : bool :=
  match MsgType m with
  | MsgAppend | MsgHeartbeat | MsgSnapshot | MsgRequestVote | MsgRequestVoteResponse | MsgAppendResponse => false
  | _ => true
  end.

(** What a peer may be given: a message of the group addressed to it, or a
    request of its own store. *)
Definition input S n m : Prop := ordinary m = true ∨ msg_inv S m ∧ To m = n.

(** The log has room for a leader's first entry and for a proposal. *)
Definition room r m : Prop :=
  idx_ok (last_index (r_raftLog r) + 1) ∧ (MsgType m = MsgPropose → idx_ok (last_index (r_raftLog r) + zlen (m_Entries m))).

Lemma stepLeader_inv S n r m r' e :
  history_ok S → leading S n r → room r m → input S n m → (m_Term m = 0 ∨ m_Term m = r_Term r) → stepLeader r m = Ok (r', e) →
  moves S n (λ S', peer_inv S' n r').
Proof.
  unfold stepLeader. intros OK Hl Hroom Hin Hterm H.
  assert (Hstay : leading S n r' → moves S n (λ S', peer_inv S' n r')) by (intros [? _]; by apply moves_here).
  destruct (MsgType m) eqn:Hty, (getProgress r (From m)) as [pr|] eqn:Hpr; try (by injection H as <- <-; apply Hstay);
    try (by apply fine_Ok in H; apply Hstay; eapply bcastHeartbeat_inv); try (by apply Hstay; eapply leader_transfer_inv).
  1,2: destruct (leader_propose_inv S n r m r' e OK Hl) as (S' & ? & ? & [? _]); [by apply Hroom|exact H|by exists S'].
  - apply Hstay. eapply leader_append_response_inv; [done|done|exact Hpr| |exact H]. intros Hr.
    destruct Hin as [Ho|[[_ Hm] _]]; [unfold ordinary in Ho; by rewrite Hty in Ho|]. rewrite Hty in Hm. destruct (Hm Hr) as (? & _ & q & ? & ?).
    destruct Hterm as [|<-]; [done|eauto].
  - apply bind_Ok in H as (li & _ & H). apply Hstay. destruct (decide _) in H; [|by injection H as <- <-].
    apply bind_Ok in H as ([r1 b] & H & [= <- <-]). destruct Hl. by eapply sendAppend_inv.
Qed.

Lemma candidate_vote_inv S n r m r' e :
  history_ok S → peer_inv S n r → r_State r = StateCandidate → idx_ok (last_index (r_raftLog r) + 1) →
  (Reject m = false → From m ∈ M ∧ ∃ h b, h_vote S (From m) (r_Term r) n h b) → candidate_vote r m = Ok (r', e) →
  moves S n (λ S', peer_inv S' n r').
Proof.
  unfold candidate_vote. intros OK Hp Hs Hroom Hm H. destruct (poll r (From m) (negb (Reject m))) as [r1 g] eqn:Hpoll.
  destruct (poll_inv _ _ _ _ _ _ _ Hp Hs (λ Hr, Hm (proj1 (negb_true_iff _) Hr)) Hpoll) as (Hp1 & Hs1 & L1 & T1 & ->).
  destruct (decide (quorum r1 = granted_votes (r_votes r1))) as [Hq|_].
  - apply bind_Ok in H as (r2 & H2 & H). apply fine_Ok in H. rewrite -L1 in Hroom.
    eapply moves_trans; [by eapply (becomeLeader_inv S n r1)|]. intros S' OK' Hl _. apply moves_here; [done|].
    by destruct (bcastAppend_inv _ _ _ _ OK' Hl H).
  - apply moves_here; [done|]. destruct (decide _) in H; [|by injection H as <- <-]. apply fine_Ok in H.
    eapply becomeFollower_inv; [exact Hp1| |exact H]. lia.
Qed.

(** Messages of a leader, handled by a follower of its term. *)
Lemma follow_inv S n r m r' :
  history_ok S → peer_inv S n r → r_State r = StateFollower → msg_inv S m → To m = n → m_Term m = r_Term r →
  (MsgType m = MsgAppend ∧ handleAppendEntries r m = Ok r' ∨ MsgType m = MsgHeartbeat ∧ handleHeartbeat r m = Ok r' ∨
   MsgType m = MsgSnapshot ∧ handleSnapshot r m = Ok r') → moves S n (λ S', peer_inv S' n r').
Proof.
  intros OK Hp Hs [_ Hm] Hto Ht Hor. rewrite Ht in Hm. destruct Hor as [[Hty H]|[[Hty H]|[Hty H]]]; rewrite Hty in Hm.
  - destruct Hm. by eapply handleAppendEntries_inv.
  - destruct Hm as (_ & _ & _ & Hm). rewrite Hto in Hm. by eapply handleHeartbeat_inv.
  - destruct Hm as (? & s & md & ? & ? & ? & ?). by eapply handleSnapshot_inv.
Qed.

Lemma input_msg S n m : input S n m → ordinary m = false → msg_inv S m ∧ To m = n.
Proof. intros [H|H] Ho; [congruence|done]. Qed.

Lemma stepCandidate_inv S n r m r' e :
  history_ok S → peer_inv S n r → r_State r = StateCandidate → room r m → input S n m → (m_Term m = 0 ∨ m_Term m = r_Term r) →
  stepCandidate r m = Ok (r', e) → moves S n (λ S', peer_inv S' n r').
Proof.
  unfold stepCandidate. intros OK Hp Hs Hroom Hin Hterm H.
  assert (Hmsg : ordinary m = false → msg_inv S m ∧ To m = n) by (by apply input_msg).
  assert (Hfol : ∀ r1, from_leader (MsgType m) = true → becomeFollower r (m_Term m) (From m) = Ok r1 →
    peer_inv S n r1 ∧ r_State r1 = StateFollower ∧ m_Term m = r_Term r1 ∧ msg_inv S m ∧ To m = n).
  { intros r1 Hf H1. assert (Ho : ordinary m = false) by (unfold ordinary; by destruct (MsgType m)). destruct (Hmsg Ho) as [Hmi Hto].
    assert (Ht : m_Term m = r_Term r).
    { destruct Hterm as [E|]; [|done]. destruct Hmi as [_ Hmi]. by destruct (MsgType m); destruct Hmi. }
    destruct (becomeFollower_inv S n r (m_Term m) (From m) r1 Hp ltac:(lia) H1) as (? & E & ? & _). by rewrite E. }
  destruct (MsgType m) eqn:Hty; try (injection H as <- <-; by apply moves_here).
  - apply bind_Ok in H as (r1 & H1 & H). apply fine_Ok in H. destruct (Hfol r1 eq_refl H1) as (? & ? & ? & ? & ?).
    eapply (follow_inv S n r1 m); [done..|by left].
  - eapply candidate_vote_inv; [done|done|done|apply Hroom| |exact H]. intros Hr.
    destruct Hmsg as [[[Hf _] Hmi] <-]; [unfold ordinary; by rewrite Hty|]. rewrite Hty in Hmi. destruct (Hmi Hr) as [Ht0 Hv].
    destruct Hterm as [|<-]; done.
  - apply bind_Ok in H as (r1 & H1 & H). apply fine_Ok in H. destruct (Hfol r1 eq_refl H1) as (? & ? & ? & ? & ?).
    eapply (follow_inv S n r1 m); [done..|by right; right].
  - apply bind_Ok in H as (r1 & H1 & H). apply fine_Ok in H. destruct (Hfol r1 eq_refl H1) as (? & ? & ? & ? & ?).
    eapply (follow_inv S n r1 m); [done..|by right; left].
Qed.

Lemma stepFollower_inv S n r m r' e :
  history_ok S → peer_inv S n r → r_State r = StateFollower → r_Term r < max64 → room r m → input S n m →
  (m_Term m = 0 ∨ m_Term m = r_Term r) → stepFollower r m = Ok (r', e) → moves S n (λ S', peer_inv S' n r').
Proof.
  unfold stepFollower. intros OK Hp Hs Hmax Hroom Hin Hterm H.
  set (heard := set_Lead (From m) (set_electionElapsed 0 r)) in H.
  assert (Hheard : peer_inv S n heard) by (eapply peer_inv_unseen; [exact Hp|solve_unseen]).
  assert (Hfol : from_leader (MsgType m) = true → m_Term m = r_Term heard ∧ msg_inv S m ∧ To m = n).
  { intros Hf. assert (Ho : ordinary m = false) by (unfold ordinary; by destruct (MsgType m)).
    destruct (input_msg _ _ _ Hin Ho) as [Hmi Hto]. split; [|done]. destruct Hterm as [E|]; [|done].
    destruct Hmi as [_ Hmi]. by destruct (MsgType m); destruct Hmi. }
  destruct (MsgType m) eqn:Hty; try (injection H as <- <-; by apply moves_here).
  - apply fine_Ok in H. destruct (Hfol eq_refl) as (? & ? & ?). eapply (follow_inv S n heard m); [done..|by left].
  - apply fine_Ok in H. destruct (Hfol eq_refl) as (? & ? & ?). eapply (follow_inv S n heard m); [done..|by right; right].
  - apply fine_Ok in H. destruct (Hfol eq_refl) as (? & ? & ?). eapply (follow_inv S n heard m); [done..|by right; left].
  - apply moves_here; [done|]. destruct (decide _) in H; [by injection H as <- <-|]. apply fine_Ok in H.
    eapply send_inv; [exact Hp|exact H|]. intros t _ _. apply other_msg; [apply (pi_mem _ _ _ Hp)|]. cbn. by rewrite Hty.
  - destruct (promotable r); [|injection H as <- <-; by apply moves_here]. apply fine_Ok in H.
    eapply (campaign_inv S n r); [done|done|done|apply Hroom|exact H].
Qed.

Lemma step_main_inv S n r m r' e :
  history_ok S → peer_inv S n r → r_Term r < max64 → room r m → input S n m →
  (m_Term m = 0 ∨ m_Term m = r_Term r) → step_main r m = Ok (r', e) → moves S n (λ S', peer_inv S' n r').
Proof.
  unfold step_main. intros OK Hp Hmax Hroom Hin Hterm H.
  assert (Hhup : step_hup r = Ok (r', e) → moves S n (λ S', peer_inv S' n r')).
  { unfold step_hup. intros Hh. destruct (decide _) in Hh; [|injection Hh as <- <-; by apply moves_here].
    apply bind_Ok in Hh as (ents & _ & Hh). destruct (decide _) in Hh; [injection Hh as <- <-; by apply moves_here|]. apply fine_Ok in Hh.
    eapply campaign_inv; [done|done|done|apply Hroom|exact Hh]. }
  assert (Hrole : match r_State r with StateFollower => stepFollower r m | StateCandidate => stepCandidate r m
    | StateLeader => stepLeader r m end = Ok (r', e) → moves S n (λ S', peer_inv S' n r')).
  { destruct (r_State r) eqn:Hst; intros Hx; [by eapply stepFollower_inv|by eapply stepCandidate_inv|by eapply (stepLeader_inv S n r)]. }
  destruct (MsgType m) eqn:Hty; try (by apply Hrole); [by apply Hhup|].
  destruct (input_msg _ _ _ Hin) as [Hmi _]; [unfold ordinary; by rewrite Hty|].
  eapply step_request_vote_inv; [done..| |exact H]. destruct Hterm as [E|]; [|done]. destruct Hmi as [_ Hmi]. rewrite Hty in Hmi. by destruct Hmi.
Qed.

Lemma Step_inv S n r m r' e :
  history_ok S → peer_inv S n r → r_Term r < max64 → m_Term m < max64 → room r m → input S n m → Step r m = Ok (r', e) →
  moves S n (λ S', peer_inv S' n r').
Proof.
  unfold Step. intros OK Hp Hmax Hmm Hroom Hin H. destruct (decide (m_Term m = 0)); [by eapply (step_main_inv S n r); eauto|].
  destruct (decide (r_Term r < m_Term m)) as [Hlt|Hge].
  - apply bind_Ok in H as (r1 & H1 & H). destruct (becomeFollower_inv _ _ _ _ _ _ Hp (Z.lt_le_incl _ _ Hlt) H1) as (Hp1 & T1 & _ & L1).
    eapply (step_main_inv S n r1); [done|done|lia|unfold room; by rewrite L1|done|by right|exact H].
  - destruct (decide (m_Term m < r_Term r)); [injection H as <- <-; by apply moves_here|].
    eapply (step_main_inv S n r); [done..| |exact H]. right. lia.
Qed.

Lemma tick_inv S n r r' :
  history_ok S → peer_inv S n r → r_Term r < max64 → idx_ok (last_index (r_raftLog r) + 1) → tick r = Ok r' →
  moves S n (λ S', peer_inv S' n r').
Proof.
  intros OK Hp Hmax Hroom.
  assert (Hstep : ∀ r1 m e, unseen r r1 → ordinary m = true → m_Term m = 0 → MsgType m ≠ MsgPropose → Step r1 m = Ok (r', e) →
    moves S n (λ S', peer_inv S' n r')).
  { intros r1 m e Hu Ho Ht He H. pose proof Hu as (_ & Tm & _ & _ & _ & _ & _ & L & _).
    eapply (Step_inv S n r1 m); [done|by eapply peer_inv_unseen|by rewrite Tm|by rewrite Ht| |by left|exact H].
    unfold room. by rewrite L. }
  assert (Hsame : unseen r r' → moves S n (λ S', peer_inv S' n r')) by (intros Hu; apply moves_here; [done|by eapply peer_inv_unseen]).
  unfold tick, tickElection, tickHeartbeat, ignore_err. intros H. destruct (r_State r) eqn:Hst.
  1,2: cbv zeta in H; destruct (_ && _) in H; [|injection H as <-; apply Hsame; solve_unseen];
    apply bind_Ok in H as ([r1 e] & H & [= <-]); refine (Hstep _ _ _ _ _ _ _ H); [solve_unseen|done..].
  cbv zeta in H. match type of H with (if decide (r_State ?x ≠ StateLeader) then _ else _) = _ => set (r1 := x) in H end.
  assert (Hu : unseen r r1) by (unfold r1; repeat case_decide; solve_unseen). clearbody r1.
  destruct (decide _) in H; [injection H as <-; by apply Hsame|]. destruct (decide _) in H; [|injection H as <-; by apply Hsame].
  apply bind_Ok in H as ([r2 e] & H & [= <-]). refine (Hstep _ _ _ _ _ _ _ H); [exact Hu|done..].
Qed.
End Steps.
