(* ===== verification/Cluster.v ===== *)
(** A raft group: any number of peers, driven through raft/rawnode.go, over an
    asynchronous network, with crashes.

    The network keeps every message ever handed to it, so a message may be
    delivered late, repeatedly, out of order or never.  The store around a peer
    calls [Ready], saves what it is given, and only then sends the messages; a
    crash loses everything since the last save.  The group's members are fixed:
    configuration changes may be proposed but are not applied.  Terms do not
    exhaust 64 bits. *)

From S2P Require Import Prelude RaftPb RaftStorage RaftLog RaftLogSpec Raft RawNode Election.

Section Cluster.
Context {T : Type} {HS : RaftStorage T} {HG : GoEnv}.
Context (M : gset Z) (good : T → Prop) (Marshal : ConfChange → bytes + raft_error).

Record cluster := mkCluster { cl_nodes : gmap Z (RawNode T); cl_net : list Message }.
Implicit Types (s : cluster) (rn : RawNode T).

(** The configuration a peer is started with: its id, a storage that gives
    [hs] as the saved hard state, and the members of the group. *)
Definition starts (n : Z) (hs : HardState) (c : Config T) : Prop :=
  ID c = n ∧ ∃ st cs, cfg_Storage c = Some st ∧ good st ∧ st_InitialState st = Ok (hs, cs) ∧
    list_to_set (if decide (Nodes cs = []) then peers c else Nodes cs) = M.

(** What the store may ask of a peer between two saves. *)
Inductive call (net : list Message) (n : Z) rn : RawNode T → Prop :=
| call_tick rn' : Tick rn = Ok rn' → call net n rn rn'
| call_deliver m rn' e :
    m ∈ net → To m = n → m_Term m < max64 → rn_Step rn m = Ok (rn', e) → call net n rn rn'
| call_campaign rn' e : Campaign rn = Ok (rn', e) → call net n rn rn'
| call_propose data rn' e : Propose rn data = Ok (rn', e) → call net n rn rn'
| call_propose_conf cc rn' e : ProposeConfChange Marshal rn cc = Ok (rn', e) → call net n rn rn'
| call_transfer to rn' : TransferLeader rn to = Ok rn' → call net n rn rn'.

Definition set_stored (st : T) rn : RawNode T :=
  set_Raft (set_raftLog (set_storage st (r_raftLog (rn_Raft rn))) (rn_Raft rn)) rn.

Inductive cluster_step s : cluster → Prop :=
| cl_call n rn rn' :
    cl_nodes s !! n = Some rn → r_Term (rn_Raft rn) < max64 → call (cl_net s) n rn rn' →
    cluster_step s (mkCluster (<[n := rn']> (cl_nodes s)) (cl_net s))
| cl_ready n rn rn1 rd rn2 st :
    cl_nodes s !! n = Some rn → rn_Ready rn = Ok (rn1, rd) → Advance rn1 rd = Ok rn2 → good st →
    cluster_step s (mkCluster (<[n := set_stored st rn2]> (cl_nodes s)) (cl_net s ++ rd_Messages rd))
| cl_crash n rn rn' c :
    cl_nodes s !! n = Some rn → starts n (prevHardSt rn) c → NewRawNode c = Ok rn' →
    cluster_step s (mkCluster (<[n := rn']> (cl_nodes s)) (cl_net s)).

Definition cluster_init s : Prop :=
  dom (cl_nodes s) = M ∧ cl_net s = [] ∧
  ∀ n rn, cl_nodes s !! n = Some rn →
    ∃ hs c, starts n hs c ∧ hs_Vote hs = None' ∧ 0 ≤ hs_Term hs ∧ NewRawNode c = Ok rn.

Inductive cluster_reachable : cluster → Prop :=
| reach_init s : cluster_init s → cluster_reachable s
| reach_step s s' : cluster_reachable s → cluster_step s s' → cluster_reachable s'.

(** ** The invariant *)

Context (M_none : None' ∉ M)
  (good_snapshot : ∀ st, good st → good (st_Snapshot st).1 ∧ ∀ sn, (st_Snapshot st).2 = Ok sn → snap_members M sn).

Implicit Types P C : Z → Z → Z → Prop.

(** The votes [n] has saved agree with its saved hard state. *)
Record saved_ok P (n : Z) (hs : HardState) : Prop := {
  sv_range : 0 ≤ hs_Term hs;
  sv_vote : hs_Vote hs ≠ None' → P n (hs_Term hs) (hs_Vote hs);
  sv_past t c : P n t c → c ≠ None' ∧ (t < hs_Term hs ∨ t = hs_Term hs ∧ c = hs_Vote hs);
  sv_fun t c c' : P n t c → P n t c' → c = c'
}.

(** [P]: the votes saved by anyone; [C]: those and the peer's own unsaved one. *)
Record peer_ok P (n : Z) rn : Prop := {
  po_mem : n ∈ M;
  po_saved : saved_ok P n (prevHardSt rn);
  po_node : ∃ C, grows n P C ∧ node_ok M good C n (rn_Raft rn)
}.

Definition cluster_ok P s : Prop :=
  dom (cl_nodes s) = M ∧ (∀ n rn, cl_nodes s !! n = Some rn → peer_ok P n rn) ∧ ∀ m, m ∈ cl_net s → msg_ok M P m.

(** Votes others save do not disturb a peer. *)
Lemma node_ok_others C C' n r :
  node_ok M good C n r → (∀ v t c, C v t c → C' v t c) → (∀ t c, C' n t c → C n t c) → node_ok M good C' n r.
Proof.
  intros [] Hmono Hown. split; try done; eauto.
  - intros m Hm. split; [eapply msg_ok_mono; [done|]|]; by apply no_msgs.
  - intros v Hs Hv. destruct (no_votes v Hs Hv). auto.
  - intros Hs. eapply won_mono; [done|auto].
Qed.

Lemma peer_ok_others P P' n n' rn :
  peer_ok P n rn → grows n' P P' → n' ≠ n → peer_ok P' n rn.
Proof.
  intros [Hm [] (C & [Hg1 Hg2] & Hok)] [Hp1 Hp2] Hne.
  assert (Hback : ∀ t c, P' n t c → P n t c) by (intros t c H; destruct (Hp2 _ _ _ H); [done|congruence]).
  split; try done; [split; eauto|]. exists (λ v t c, P' v t c ∨ C v t c). split.
  - split; [auto|]. intros v t c [?|[?|?]%Hg2]; auto.
  - eapply node_ok_others; [done|auto|]. intros t c [?%Hback%Hg1|?]; done.
Qed.

Lemma raft_step_ok C n rn m rn' e :
  node_ok M good C n (rn_Raft rn) → r_Term (rn_Raft rn) < max64 → m_Term m < max64 → input_ok M C n m →
  raft_step rn m = Ok (rn', e) → stays M good C n (rn_Raft rn') ∧ prevHardSt rn' = prevHardSt rn.
Proof.
  unfold raft_step. intros Hok Hmax Hm Hin H. apply bind_Ok in H as ([r' e'] & H & Heq). injection Heq as <- _.
  split; [|done]. by eapply Step_ok.
Qed.

Lemma msg_input_ok P C n m :
  msg_ok M P m → (∀ v t c, P v t c → C v t c) → To m = n → input_ok M C n m.
Proof.
  intros (Hf & Hl & Hv & Hs) Hmono <-. split_and!; [naive_solver|naive_solver| |done].
  intros _ E. rewrite E in Hf. done.
Qed.

(** A request of the store itself has no term. *)
Lemma local_input_ok C n m :
  MsgType m = MsgHup ∨ MsgType m = MsgPropose ∨ MsgType m = MsgTransferLeader → m_Snapshot m = None →
  input_ok M C n m.
Proof. intros Hty Hs. unfold input_ok. rewrite Hs. destruct Hty as [->|[->| ->]]; done. Qed.

Lemma call_ok P C net n rn rn' :
  (∀ m, m ∈ net → msg_ok M P m) → grows n P C → node_ok M good C n (rn_Raft rn) → r_Term (rn_Raft rn) < max64 →
  call net n rn rn' → stays M good C n (rn_Raft rn') ∧ prevHardSt rn' = prevHardSt rn.
Proof.
  intros Hnet [Hmono _] Hok Hmax Hcall. assert (Hpos : 0 < max64) by done.
  assert (Hstay : stays M good C n (rn_Raft rn)) by (exists C; by split; [apply grows_refl|]).
  assert (Hlocal : ∀ m rn' e,
    MsgType m = MsgHup ∨ MsgType m = MsgPropose ∨ MsgType m = MsgTransferLeader → m_Snapshot m = None → m_Term m = 0 →
    raft_step rn m = Ok (rn', e) → stays M good C n (rn_Raft rn') ∧ prevHardSt rn' = prevHardSt rn).
  { intros m rn1 e Hty Hs Ht. apply raft_step_ok; [done..|by rewrite Ht|by apply local_input_ok]. }
  destruct Hcall as [rn' H|m rn' e Hm Hto Hmt H|rn' e H|data rn' e H|cc rn' e H|to rn' H].
  - unfold Tick in H. apply bind_Ok in H as (r' & H & Heq). injection Heq as <-. split; [|done]. by eapply tick_ok.
  - unfold rn_Step in H. assert (Hin : input_ok M C n m) by (eapply msg_input_ok; eauto).
    destruct (IsLocalMsg _); [by simplify_eq|]. destruct (getProgress _ _); [by eapply raft_step_ok|].
    destruct (negb _); [by eapply raft_step_ok|by simplify_eq].
  - refine (Hlocal _ _ _ _ _ _ H); auto.
  - refine (Hlocal _ _ _ _ _ _ H); auto.
  - unfold ProposeConfChange in H. destruct (Marshal cc); [|by simplify_eq].
    refine (Hlocal _ _ _ _ _ _ H); auto.
  - unfold TransferLeader in H. apply bind_Ok in H as ([r' e'] & H & Heq). injection Heq as <-.
    refine (Hlocal _ _ _ _ _ _ H); auto.
Qed.

(** ** Saving and sending *)

Lemma Advance_keeps rn rd rn' :
  Advance rn rd = Ok rn' →
  ∃ l, rn_Raft rn' = set_raftLog l (rn_Raft rn) ∧
    (pending_snapshot l = None ∨ pending_snapshot l = pending_snapshot (r_raftLog (rn_Raft rn))) ∧
    prevHardSt rn' = if IsEmptyHardState (rd_HardState rd) then prevHardSt rn else rd_HardState rd.
Proof.
  unfold Advance. intros H. apply bind_Ok in H as (l1 & H1 & H). apply bind_Ok in H as (l2 & H2 & H).
  apply bind_Ok in H as (l3 & H3 & H). injection H as <-. exists l3. cbn.
  assert (E1 : pending_snapshot l1 = pending_snapshot (r_raftLog (rn_Raft rn))).
  { clear H2 H3. destruct (decide _); [|by inv_ok]. unfold appliedTo in H1. inv_ok; done. }
  assert (E2 : pending_snapshot l2 = pending_snapshot l1).
  { clear H1 H3. destruct (decide (0 < _)); [|by inv_ok]. apply bind_Ok in H2 as (e & _ & H2). unfold stableTo in H2.
    apply bind_Ok in H2 as (ok & _ & H2). injection H2 as <-. by case_decide. }
  split_and!; [done| |by destruct (IsEmptyHardState _)].
  rewrite -E1 -E2. clear H1 H2. destruct (negb _); [|inv_ok; by right]. apply bind_Ok in H3 as (md & _ & H3).
  unfold stableSnapTo in H3. destruct (pending_snapshot l2) eqn:Ep; [|inv_ok; auto].
  apply bind_Ok in H3 as (md' & _ & H3). injection H3 as <-. case_decide; cbn; auto.
Qed.

Lemma Ready_taken rn rn1 rd :
  rn_Ready rn = Ok (rn1, rd) →
  rn_Raft rn1 = set_msgs [] (rn_Raft rn) ∧ prevHardSt rn1 = prevHardSt rn ∧ rd_Messages rd = r_msgs (rn_Raft rn) ∧
  rd_HardState rd = if isHardStateEqual (hardState (rn_Raft rn)) (prevHardSt rn) then empty_hs else hardState (rn_Raft rn).
Proof.
  unfold rn_Ready, newReady. intros H. apply bind_Ok in H as ([r1 rd1] & H & Heq). injection Heq as <- <-.
  apply bind_Ok in H as (ue & _ & H). apply bind_Ok in H as (ne & _ & H). injection H as <- <-. cbn.
  split_and!; [by case_decide|done|done|]. destruct (decide _); cbn; by destruct (isHardStateEqual _ _).
Qed.

Lemma saved_after P C n rn rn1 rd rn2 :
  saved_ok P n (prevHardSt rn) → grows n P C → node_ok M good C n (rn_Raft rn) →
  rn_Ready rn = Ok (rn1, rd) → Advance rn1 rd = Ok rn2 → saved_ok C n (prevHardSt rn2).
Proof.
  intros [Hr Hv _ _] [Hmono _] [] (_ & Hp & _ & Hhard)%Ready_taken (l & _ & _ & ->)%Advance_keeps.
  rewrite Hp. destruct (isHardStateEqual (hardState (rn_Raft rn)) (prevHardSt rn)) eqn:Eeq.
  - rewrite Hhard. apply bool_decide_eq_true in Eeq as (E1 & E2 & _). cbn in *. split; rewrite -?E1 -?E2; done.
  - rewrite Hhard. destruct (IsEmptyHardState (hardState (rn_Raft rn))) eqn:Eemp; [|by split].
    apply bool_decide_eq_true in Eemp as (E1 & E2 & _). cbn in E1, E2. rewrite E1 E2 in no_past.
    split; [done|auto| |done]. intros t c [? [?|[-> ->]]]%no_past; [|done]. split; [done|]. lia.
Qed.

Lemma ready_ok P s n rn rn1 rd rn2 st :
  cluster_ok P s → cl_nodes s !! n = Some rn → rn_Ready rn = Ok (rn1, rd) → Advance rn1 rd = Ok rn2 → good st →
  ∃ P', cluster_ok P' (mkCluster (<[n := set_stored st rn2]> (cl_nodes s)) (cl_net s ++ rd_Messages rd)).
Proof.
  intros (Hdom & Hnodes & Hnet) Hn HR HA Hst. pose proof (Hnodes n rn Hn) as [Hmem Hsv (C & Hg & Hok)]. exists C.
  pose proof (saved_after P C n rn rn1 rd rn2 Hsv Hg Hok HR HA) as Hsv2.
  apply Ready_taken in HR as (Hr1 & _ & Hms & _). apply Advance_keeps in HA as (l & Hr2 & Hpend & _).
  split; [by rewrite dom_insert_lookup_L|split; cbn].
  - intros n' rn'. destruct (decide (n' = n)) as [->|Hne].
    + rewrite lookup_insert_eq. intros [= <-]. split; [done|done|]. exists C. split; [apply grows_refl|].
      unfold set_stored. cbn. rewrite Hr2 Hr1. rewrite Hr1 in Hpend. cbn in Hpend. destruct Hok.
      split; cbn; try done; [|by intros m Hm%not_elem_of_nil].
      split; cbn; [done|]. intros sn Hsn. destruct no_sane as [_ Hs]. apply Hs. destruct Hpend; congruence.
    + rewrite lookup_insert_ne //. intros H'. by eapply peer_ok_others; [apply Hnodes|..].
  - intros m [Hm|Hm]%elem_of_app; [eapply msg_ok_mono; [apply Hg|by apply Hnet]|].
    rewrite Hms in Hm. by apply Hok.
Qed.

Lemma newLog_fresh (st : T) l : newLog st = Ok l → storage l = st ∧ pending_snapshot l = None.
Proof. unfold newLog. intros H. inv_ok. done. Qed.

(** The fields of a starting peer before [becomeFollower]. *)
Definition fresh n (hs : HardState) (r : Raft T) : Prop :=
  r_id r = n ∧ r_Term r = hs_Term hs ∧ r_Vote r = hs_Vote hs ∧ dom (r_Prs r) = M ∧ r_msgs r = [] ∧
  good (storage (r_raftLog r)) ∧ pending_snapshot (r_raftLog r) = None.

Lemma loadState_fresh n hs r r' :
  fresh n (mkHardState 0 0 0) r → (if IsEmptyHardState hs then Ok r else loadState r hs) = Ok r' → fresh n hs r'.
Proof.
  intros Hf H. destruct (IsEmptyHardState hs) eqn:He.
  - injection H as <-. apply bool_decide_eq_true in He as (E1 & E2 & _). unfold fresh. by rewrite E1 E2.
  - unfold loadState in H. destruct Hf as (? & _ & _ & ?). inv_ok. done.
Qed.

Lemma appliedTo_fresh n hs (c : Config T) r r' :
  fresh n hs r →
  (if decide (0 < Applied c) then l ← appliedTo (r_raftLog r) (Applied c); Ok (set_raftLog l r) else Ok r) = Ok r' →
  fresh n hs r'.
Proof.
  intros Hf H. destruct (decide (0 < Applied c)); [|by injection H as <-].
  apply bind_Ok in H as (l' & H & Heq). injection Heq as <-. unfold appliedTo in H. inv_ok; done.
Qed.

Lemma members_dom (ps : list Z) :
  dom (list_to_map (map (λ p, (p, mkProgress 0 1)) ps) : gmap Z Progress) = list_to_set ps.
Proof. rewrite dom_list_to_map_L. f_equal. rewrite -list_fmap_compose. apply list_fmap_id. Qed.

Lemma newRaft_fresh n hs c r :
  starts n hs c → newRaft c = Ok r → fresh n hs r ∧ r_State r = StateFollower.
Proof.
  intros (Hid & st & cs & Hst & Hgood & Hinit & HM) H. unfold newRaft in H. rewrite Hst in H.
  destruct (validate c); [done|]. apply bind_Ok in H as (l & [Hls Hlp]%newLog_fresh & H).
  apply bind_Ok in H as ([hs' cs'] & E & H). rewrite Hinit in E. injection E as <- <-. apply bind_Ok in H as (ps & Hps & H).
  assert (Hps' : ps = if decide (Nodes cs = []) then peers c else Nodes cs).
  { destruct (decide (Nodes cs = [])); [by injection Hps as <-|]. by destruct (decide (peers c = [])); [injection Hps as <-|]. }
  apply bind_Ok in H as (r1 & H1 & H). apply loadState_fresh with (n := n) in H1.
  2: { split; [exact Hid|]. split; [done|]. split; [done|]. split; [|split; [done|by rewrite -Hls in Hgood]].
       refine (eq_trans (members_dom ps) _). by rewrite Hps'. }
  apply bind_Ok in H as (r2 & H2 & H). apply (appliedTo_fresh n hs) in H2; [|done].
  apply bind_Ok in H as (r3 & H3 & H). apply bind_Ok in H as (lt & _ & H). injection H as <-.
  apply becomeFollower_turn in H3 as (I & Tm & V & S & _ & P & Ms & L).
  split; [|done]. rewrite decide_True // in V. unfold fresh. rewrite I Tm V P Ms L. exact H2.
Qed.

Lemma fresh_node_ok P n hs c r :
  n ∈ M → saved_ok P n hs → starts n hs c → newRaft c = Ok r → node_ok M good P n r.
Proof.
  intros Hm [Hr Hv Hp Hf] Hs H. destruct (newRaft_fresh n hs c r Hs H) as [(I & Tm & V & D & Ms & G & Pe) S].
  split; rewrite ?Tm ?V ?S ?D ?Ms; try done; [|by intros m Hm'%not_elem_of_nil].
  split; [done|]. intros sn. by rewrite Pe.
Qed.

Lemma new_peer_ok P n hs c rn :
  n ∈ M → saved_ok P n hs → starts n hs c → NewRawNode c = Ok rn → peer_ok P n rn.
Proof.
  intros Hm Hsv Hs H. unfold NewRawNode in H. inv_ok.
  match goal with H : newRaft c = Ok ?r |- _ =>
    pose proof (fresh_node_ok P n hs c r Hm Hsv Hs H) as Hok; destruct (newRaft_fresh n hs c r Hs H) as [(_ & Tm & V & _) _] end.
  split; cbn; [done| |exists P; split; [apply grows_refl|done]].
  destruct Hsv. split; cbn; rewrite ?Tm ?V; done.
Qed.

Lemma cluster_step_ok P s s' : cluster_ok P s → cluster_step s s' → ∃ P', cluster_ok P' s'.
Proof.
  intros Hok Hstep. pose proof Hok as (Hdom & Hnodes & Hnet).
  destruct Hstep as [n rn rn' Hn Hmax Hcall|n rn rn1 rd rn2 st Hn HR HA Hst|n rn rn' c Hn Hs HN].
  - exists P. split; [by rewrite dom_insert_lookup_L|split; [|done]]. cbn. intros n' x. destruct (decide (n' = n)) as [->|Hne];
      [|rewrite lookup_insert_ne //; apply Hnodes].
    rewrite lookup_insert_eq. intros [= <-]. pose proof (Hnodes n rn Hn) as [Hmem Hsv (C & Hg & HokC)].
    destruct (call_ok P C (cl_net s) n rn rn' Hnet Hg HokC Hmax Hcall) as [(C' & Hg' & Hok') Hp].
    split; [done|by rewrite Hp|]. exists C'. split; [by eapply grows_trans|done].
  - by eapply ready_ok.
  - exists P. split; [by rewrite dom_insert_lookup_L|split; [|done]]. cbn. intros n' x. destruct (decide (n' = n)) as [->|Hne];
      [|rewrite lookup_insert_ne //; apply Hnodes].
    rewrite lookup_insert_eq. intros [= <-]. pose proof (Hnodes n rn Hn) as [Hmem Hsv _]. by eapply new_peer_ok.
Qed.

Lemma reachable_ok s : cluster_reachable s → ∃ P, cluster_ok P s.
Proof.
  induction 1 as [s (Hdom & Hnet & Hinit)|s s' _ [P IH] Hstep]; [|by eapply cluster_step_ok].
  exists (λ _ _ _, False). split; [done|split; [|rewrite Hnet; by intros m Hm%not_elem_of_nil]].
  intros n rn Hn. destruct (Hinit n rn Hn) as (hs & c & Hs & Hv & Ht & HN). eapply new_peer_ok; [|split|exact Hs|exact HN]; try done.
  rewrite -Hdom. by apply elem_of_dom.
Qed.

(** ** At most one leader per term *)

(** Two elections of the same term, one of them perhaps with the winner's own
    unsaved vote. *)
Lemma won_unique P C1 C2 n1 n2 t :
  (∀ v t c c', v ∈ M → P v t c → P v t c' → c = c') → grows n1 P C1 → grows n2 P C2 →
  (∀ t c c', C1 n1 t c → C1 n1 t c' → c = c') → (∀ t c c', C2 n2 t c → C2 n2 t c' → c = c') →
  won M C1 t n1 → won M C2 t n2 → n1 = n2.
Proof.
  intros Hfun [Hm1 Hb1] [Hm2 Hb2] Hf1 Hf2 (Q1 & S1 & L1 & V1) (Q2 & S2 & L2 & V2).
  destruct (majorities_meet M Q1 Q2 S1 S2 L1 L2) as (v & Hv1 & Hv2).
  pose proof (V1 v Hv1) as W1. pose proof (V2 v Hv2) as W2.
  destruct (Hb1 _ _ _ W1) as [P1| ->], (Hb2 _ _ _ W2) as [P2|E]; try done; eauto.
  subst v. eauto.
Qed.

(** When all is saved before it is sent, only the hard states need to reach the disk, for
    at most one peer to lead in each term. *)
Theorem one_leader_per_term s :
  cluster_reachable s →
  (∀ n1 n2 rn1 rn2, cl_nodes s !! n1 = Some rn1 → cl_nodes s !! n2 = Some rn2 →
    r_State (rn_Raft rn1) = StateLeader → r_State (rn_Raft rn2) = StateLeader →
    r_Term (rn_Raft rn1) = r_Term (rn_Raft rn2) → n1 = n2) ∧
  (∀ m1 m2, m1 ∈ cl_net s → m2 ∈ cl_net s → from_leader (MsgType m1) = true → from_leader (MsgType m2) = true →
    m_Term m1 = m_Term m2 → From m1 = From m2) ∧
  (∀ n rn m, cl_nodes s !! n = Some rn → m ∈ cl_net s → r_State (rn_Raft rn) = StateLeader →
    from_leader (MsgType m) = true → m_Term m = r_Term (rn_Raft rn) → From m = n).
Proof.
  intros [P (Hdom & Hnodes & Hnet)]%reachable_ok.
  assert (Hfun : ∀ v t c c', v ∈ M → P v t c → P v t c' → c = c').
  { intros v t c c' Hv. rewrite -Hdom in Hv. apply elem_of_dom in Hv as [rn Hrn]. apply (po_saved _ _ _ (Hnodes v rn Hrn)). }
  assert (Hmsg : ∀ m, m ∈ cl_net s → from_leader (MsgType m) = true → From m ∈ M ∧ won M P (m_Term m) (From m)).
  { intros m Hm Hf. destruct (Hnet m Hm) as (Hin & Hl & _). by destruct (Hl Hf). }
  assert (Hself : ∀ v, v ∈ M → ∀ t c c', P v t c → P v t c' → c = c') by eauto.
  split_and!.
  - intros n1 n2 rn1 rn2 H1 H2 S1 S2 E. destruct (Hnodes _ _ H1) as [_ _ (C1 & G1 & O1)], (Hnodes _ _ H2) as [_ _ (C2 & G2 & O2)].
    eapply (won_unique P C1 C2); [done|done|done|apply O1|apply O2|by apply O1|]. rewrite E. by apply O2.
  - intros m1 m2 H1 H2 F1 F2 E. destruct (Hmsg _ H1 F1) as [M1 W1], (Hmsg _ H2 F2) as [M2 W2].
    eapply (won_unique P P P); [done|apply grows_refl..|by apply Hself|by apply Hself|exact W1|by rewrite E].
  - intros n rn m Hn Hm S F E. destruct (Hnodes _ _ Hn) as [_ _ (C & G & O)], (Hmsg _ Hm F) as [Mm Wm].
    eapply (won_unique P P C); [done|apply grows_refl|done|by apply Hself|apply O|exact Wm|]. rewrite E. by apply O.
Qed.
End Cluster.

(** ** An election of three peers *)

#[local] Instance ex_env : GoEnv.
Proof.
  refine {| go_Intn k n := 0; go_range k ks := ks |}; [lia|done].
Defined.

Definition ex_members : gset Z := {[1; 2; 3]}.
Definition ex_snapshot : Snapshot := mkSnapshot None (Some (mkSnapshotMetadata (Some (mkConfState [1; 2; 3])) 0 0)).
Definition ex_good (ms : MemoryStorage) : Prop := ms_snapshot ms = ex_snapshot.
Definition ex_storage : MemoryStorage := mkMemoryStorage empty_hs ex_snapshot [zero_entry].
Definition ex_config (n : Z) : Config MemoryStorage := mkConfig n [] 10 1 (Some ex_storage) 0.
Definition ex_marshal (cc : ConfChange) : bytes + raft_error := inl [].

Notation ex_cluster := (@cluster MemoryStorage).
Notation ex_step := (cluster_step ex_members ex_good ex_marshal).
Notation ex_reachable := (cluster_reachable ex_members ex_good ex_marshal).

(** Executable schedules: each returns the cluster one step later. *)
Definition campaign_at (n : Z) (s : ex_cluster) : option ex_cluster :=
  rn ← cl_nodes s !! n;
  match Campaign rn with
  | Ok (rn', _) =>
    if decide (r_Term (rn_Raft rn) < max64) then Some (mkCluster (<[n := rn']> (cl_nodes s)) (cl_net s)) else None
  | _ => None
  end.

Definition deliver_at (n : Z) (i : nat) (s : ex_cluster) : option ex_cluster :=
  rn ← cl_nodes s !! n;
  m ← cl_net s !! i;
  match rn_Step rn m with
  | Ok (rn', _) =>
    if decide (To m = n ∧ m_Term m < max64 ∧ r_Term (rn_Raft rn) < max64)
    then Some (mkCluster (<[n := rn']> (cl_nodes s)) (cl_net s)) else None
  | _ => None
  end.

Definition ready_at (n : Z) (s : ex_cluster) : option ex_cluster :=
  rn ← cl_nodes s !! n;
  match rn_Ready rn with
  | Ok (rn1, rd) =>
    match Advance rn1 rd with
    | Ok rn2 => Some (mkCluster (<[n := set_stored ex_storage rn2]> (cl_nodes s)) (cl_net s ++ rd_Messages rd))
    | _ => None
    end
  | _ => None
  end.

Lemma campaign_at_step n s s' : campaign_at n s = Some s' → ex_step s s'.
Proof.
  unfold campaign_at. intros (rn & Hn & H)%bind_Some. destruct (Campaign rn) as [[rn' e]| | |] eqn:Hc; try done.
  case_decide; [|done]. injection H as <-. eapply cl_call; [exact Hn|done|by eapply call_campaign].
Qed.
Lemma deliver_at_step n i s s' : deliver_at n i s = Some s' → ex_step s s'.
Proof.
  unfold deliver_at. intros (rn & Hn & (m & Hm & H)%bind_Some)%bind_Some.
  destruct (rn_Step rn m) as [[rn' e]| | |] eqn:Hc; try done.
  case_decide as Hd; [|done]. destruct Hd as (? & ? & ?). injection H as <-. eapply cl_call; [exact Hn|done|].
  eapply call_deliver; [|done..]. apply list_elem_of_lookup. eauto.
Qed.
Lemma ready_at_step n s s' : ready_at n s = Some s' → ex_step s s'.
Proof.
  unfold ready_at. intros (rn & Hn & H)%bind_Some. destruct (rn_Ready rn) as [[rn1 rd]| | |] eqn:HR; try done.
  destruct (Advance rn1 rd) as [rn2| | |] eqn:HA; try done. injection H as <-. by eapply cl_ready.
Qed.

Definition ex_start (n : Z) : option (Z * RawNode MemoryStorage) :=
  match NewRawNode (ex_config n) with Ok rn => Some (n, rn) | _ => None end.
Definition ex_init : option ex_cluster :=
  ns ← mapM ex_start [1; 2; 3];
  Some (mkCluster (list_to_map ns) []).

(** Peer 1 campaigns, peer 2 answers, and peer 1 counts the answer; peer 3's
    request is still under way. *)
Definition ex_elected : option ex_cluster :=
  s ← ex_init; s ← campaign_at 1 s; s ← ready_at 1 s; s ← deliver_at 2 1 s; s ← ready_at 2 s; deliver_at 1 2 s.

Lemma ex_good_snapshot (st : MemoryStorage) :
  ex_good st → ex_good (st_Snapshot st).1 ∧ ∀ sn, (st_Snapshot st).2 = Ok sn → snap_members ex_members sn.
Proof.
  intros H. split; [done|]. cbn. rewrite H. intros sn [= <-] md cs [= <-] [= <-]. by vm_compute.
Qed.

Lemma ex_init_ok s : ex_init = Some s → cluster_init ex_members ex_good s.
Proof.
  unfold ex_init. intros (ns & Hns & [= <-])%bind_Some. apply mapM_Some in Hns.
  assert (Hf : ns.*1 = [1; 2; 3] ∧ ∀ n rn, (n, rn) ∈ ns → NewRawNode (ex_config n) = Ok rn).
  { split.
    - clear -Hns. induction Hns as [|x y l k Hxy _ IH]; [done|]. cbn. f_equal; [|exact IH].
      unfold ex_start in Hxy. destruct (NewRawNode _); by simplify_eq.
    - intros n rn Hin. apply list_elem_of_lookup in Hin as [i Hi].
      destruct (Forall2_lookup_r _ _ _ _ _ Hns Hi) as (x & _ & Hx). unfold ex_start in Hx.
      destruct (NewRawNode (ex_config x)) eqn:E; by simplify_eq. }
  destruct Hf as [Hf Hall]. split_and!; [|done|].
  - cbn. rewrite dom_list_to_map_L Hf. by vm_compute.
  - cbn. intros n rn Hn%elem_of_list_to_map_2. exists empty_hs, (ex_config n). split_and!; [|done|done|by apply Hall].
    split; [done|]. exists ex_storage, (mkConfState [1; 2; 3]). by split_and!.
Qed.

Lemma ex_elected_reachable s : ex_elected = Some s → ex_reachable s.
Proof.
  unfold ex_elected.
  intros (s0 & H0 & (s1 & H1 & (s2 & H2 & (s3 & H3 & (s4 & H4 & H5)%bind_Some)%bind_Some)%bind_Some)%bind_Some)%bind_Some.
  eapply reach_step; [|by eapply deliver_at_step]. eapply reach_step; [|by eapply ready_at_step].
  eapply reach_step; [|by eapply deliver_at_step]. eapply reach_step; [|by eapply ready_at_step].
  eapply reach_step; [|by eapply campaign_at_step]. apply reach_init. by apply ex_init_ok.
Qed.

(** Peer 1 leads in term 1 and peer 2 follows it. *)
Definition ex_leads (s : ex_cluster) (n : Z) : bool :=
  match cl_nodes s !! n with
  | Some rn => bool_decide (r_State (rn_Raft rn) = StateLeader ∧ r_Term (rn_Raft rn) = 1)
  | None => false
  end.

(** The theorem on this run. *)
Lemma ex_one_leader :
  ∃ s, ex_elected = Some s ∧ ex_reachable s ∧ ex_leads s 1 = true ∧
    ∀ n rn, cl_nodes s !! n = Some rn → r_State (rn_Raft rn) = StateLeader → r_Term (rn_Raft rn) = 1 → n = 1.
Proof.
  destruct ex_elected as [s|] eqn:E; [|by vm_compute in E].
  assert (H1 : ex_leads s 1 = true).
  { cut (from_option (λ s, ex_leads s 1) false ex_elected = true); [by rewrite E|]. by vm_compute. }
  exists s. split; [done|]. split; [by apply ex_elected_reachable|]. split; [done|].
  intros n rn Hn Hl Ht. unfold ex_leads in H1. destruct (cl_nodes s !! 1) as [rn1|] eqn:E1; [|done].
  apply bool_decide_eq_true in H1 as [Hl1 Ht1]. symmetry.
  apply (proj1 (one_leader_per_term ex_members ex_good ex_marshal ltac:(by vm_compute) ex_good_snapshot s
    (ex_elected_reachable s E)) 1 n rn1 rn E1 Hn Hl1 Hl). congruence.
Defined.
