(* ===== verification/RaftLogSteps.v ===== *)
(** A raft peer changes its log only through the operations of the log, and sends
    entries and snapshots only from it: a property of logs that appending,
    committing, accepting, restoring and taking a snapshot keep is kept by every
    step of the peer, and what it implies of entries and snapshots holds of the
    messages. *)

From S2P Require Import Prelude RaftPb RaftStorage RaftLog RaftLogSpec Raft RawNode Election Cluster.

Section Steps.
Context {T : Type} {HS : RaftStorage T} {HG : GoEnv}.
Implicit Types (l : RaftLog T) (r : Raft T) (m : Message).
(** [P]: the property; [Q]: what is known of a message that is stepped; [R]: of the
    entries and the snapshot of a message that is sent; [Dt]: of the data of an entry
    that is proposed; [Rm]: that the log has room for some more entries. *)
Context (P : RaftLog T → Prop) (Q : Message → Prop) (R : list Entry → option Snapshot → Prop).
Context (Dt : option bytes → Prop) (Rm : RaftLog T → Z → Prop).
Context (Dt_none : Dt None).
Context (P_append : ∀ l t es li l' x, P l → LastIndex l = Ok li → Rm l (zlen es) → (∀ e, e ∈ es → Dt (e_Data e)) → append l (number_entries t li es) = Ok (l', x) → P l').
Context (P_commit : ∀ l i l', P l → commitTo l i = Ok l' → P l').
Context (P_accept : ∀ l m l' ok, P l → Q m → MsgType m = MsgAppend → committed l ≤ m_Index m → maybeAppend l (m_Index m) (LogTerm m) (m_Commit m) (m_Entries m) = Ok (l', ok) → P l').
Context (P_restore : ∀ l m s md l', P l → Q m → MsgType m = MsgSnapshot → m_Snapshot m = Some s → sp_Metadata s = Some md → committed l < md_Index md → log_restore l s = Ok l' → P l').
Context (P_storage : ∀ l, P l → P (set_storage (st_Snapshot (storage l)).1 l)).
Context (Q_local : ∀ m, MsgType m ≠ MsgAppend → MsgType m ≠ MsgSnapshot → MsgType m = MsgPropose ∨ (m_Entries m = [] ∧ m_Snapshot m = None) → Q m).
Context (R_plain : R [] None).
Context (R_append : ∀ l i es, P l → Entries l i = Ok es → R es None).
Context (R_snapshot : ∀ l l' sn, P l → snapshot l = Ok (l', inl sn) → R [] (Some sn)).
Context (R_forward : ∀ m, Q m → MsgType m = MsgTransferLeader → R (m_Entries m) (m_Snapshot m)).

Definition carries r : Prop := P (r_raftLog r) ∧ ∀ m, m ∈ r_msgs r → R (m_Entries m) (m_Snapshot m).
Definition proposable r m : Prop :=
  MsgType m = MsgPropose → Rm (r_raftLog r) (zlen (m_Entries m)) ∧ ∀ e, e ∈ m_Entries m → Dt (e_Data e).

Lemma carries_same r r' : carries r → r_raftLog r' = r_raftLog r → r_msgs r' = r_msgs r → carries r'.
Proof. intros [H1 H2] E1 E2. split; [by rewrite E1|by rewrite E2]. Qed.
Lemma carries_log r l : carries r → P l → carries (set_raftLog l r).
Proof. by intros [_ H] HP. Qed.

Lemma send_log r m r' : send r m = Ok r' → carries r → R (m_Entries m) (m_Snapshot m) → carries r'.
Proof.
  intros (t & -> & _)%send_sent [HP Hm] HR. split; [done|]. cbn. intros x [Hx| ->%list_elem_of_singleton]%elem_of_app; [auto|exact HR].
Qed.
Lemma sendHeartbeat_log r to r' : carries r → sendHeartbeat r to = Ok r' → carries r'.
Proof. unfold sendHeartbeat. intros HP H. apply bind_Ok in H as (pr & _ & H). by eapply send_log. Qed.
Lemma snapshot_log l l' x : P l → snapshot l = Ok (l', x) → P l'.
Proof.
  unfold snapshot. intros HP H. destruct (pending_snapshot l); [by injection H as <- <-|]. specialize (P_storage l HP).
  destruct (st_Snapshot (storage l)) as [st res]. apply bind_Ok in H as (y & _ & [= <- <-]). done.
Qed.
Lemma sendAppend_log r to r' b : carries r → sendAppend r to = Ok (r', b) → carries r'.
Proof.
  unfold sendAppend. intros HP H. apply bind_Ok in H as (pr & _ & H). apply bind_Ok in H as (t & _ & H). apply bind_Ok in H as (es & He & H).
  assert (Hsnap : ('(l, s) ← snapshot (r_raftLog r);
    let r := set_raftLog l r in
    match s with
    | inr ErrSnapshotTemporarilyUnavailable => Ok (r, false)
    | inr _ => Panic "panic(err)"
    | inl s => if IsEmptySnap (Some s) then Panic "need non-empty snapshot" else r ← send r (msg_snapshot to s); Ok (r, true)
    end) = Ok (r', b) → carries r').
  { clear H. intros H. apply bind_Ok in H as ([l s] & H1 & H). pose proof (snapshot_log _ _ _ (proj1 HP) H1) as HPl.
    assert (HP' : carries (set_raftLog l r)) by (by apply carries_log). cbn zeta in H. destruct s as [s|[]]; try done; [|by injection H as <- <-].
    destruct (IsEmptySnap _); [done|]. apply bind_Ok in H as (r1 & H2 & [= <- <-]). eapply send_log; [exact H2|exact HP'|]. by eapply R_snapshot, H1; apply HP. }
  destruct t as [t|]; [|by apply Hsnap]. destruct es as [es|]; [|by apply Hsnap].
  apply bind_Ok in H as (r1 & H1 & [= <- <-]). eapply send_log; [exact H1|exact HP|]. cbn. apply (R_append (r_raftLog r) (Next pr)); [apply HP|].
  unfold catch in He. by destruct (Entries (r_raftLog r) (Next pr)); simplify_eq.
Qed.
Lemma for_each_log f ids r r' : (∀ r to r', carries r → f r to = Ok r' → carries r') → carries r → for_each f ids r = Ok r' → carries r'.
Proof.
  intros Hf. revert r. induction ids as [|to ids IH]; intros r HP H; cbn in H; [by injection H as <-|].
  apply bind_Ok in H as (r1 & H1 & H). eapply IH; [|exact H]. by eapply Hf.
Qed.
Lemma bcastAppend_log r r' : carries r → bcastAppend r = Ok r' → carries r'.
Proof.
  unfold bcastAppend, range_ids. intros HP. apply for_each_log; [|done]. intros r1 to r2 H1 H. destruct (decide _); [by injection H as <-|].
  apply bind_Ok in H as ([r3 b] & H & [= <-]). by eapply sendAppend_log.
Qed.
Lemma bcastHeartbeat_log r r' : carries r → bcastHeartbeat r = Ok r' → carries r'.
Proof.
  unfold bcastHeartbeat, range_ids. intros HP. apply for_each_log; [|done]. intros r1 to r2 H1 H. destruct (decide _); [by injection H as <-|].
  by eapply sendHeartbeat_log.
Qed.
Lemma maybeCommit_log r r' b : carries r → maybeCommit r = Ok (r', b) → carries r'.
Proof.
  unfold maybeCommit, log_maybeCommit. intros HP H. apply bind_Ok in H as (mci & _ & H). apply bind_Ok in H as ([l ok] & H & [= <- <-]).
  apply carries_log; [done|]. destruct HP as [HP _].
  destruct (decide _); [|by injection H as <- <-]. apply bind_Ok in H as ([] & _ & H); [|by injection H as <- <-].
  apply bind_Ok in H as (l1 & H & [= <- <-]). by eapply P_commit.
Qed.
Lemma appendEntry_log r es r' :
  carries r → Rm (r_raftLog r) (zlen es) → (∀ e, e ∈ es → Dt (e_Data e)) → appendEntry r es = Ok r' → carries r'.
Proof.
  unfold appendEntry. intros HP Hr Hd H. apply bind_Ok in H as (li & Hli & H). apply bind_Ok in H as ([l x] & Ha & H). apply bind_Ok in H as (pr & _ & H).
  apply bind_Ok in H as ([r1 b] & H & [= <-]). eapply maybeCommit_log; [|exact H]. split; [|apply HP]. cbn. by eapply P_append, Ha; [apply HP|..].
Qed.
Lemma becomeLeader_log r r' : carries r → Rm (r_raftLog r) 1 → becomeLeader r = Ok r' → carries r'.
Proof.
  unfold becomeLeader. intros HP Hr H. apply bind_Ok in H as (r1 & H1 & H). apply bind_Ok in H as (li & _ & H).
  apply reset_turn in H1 as (_ & _ & _ & _ & _ & _ & Ms & L). eapply appendEntry_log; [| | |exact H].
  - eapply carries_same; [exact HP|done|done].
  - by rewrite /= L.
  - by intros e ->%list_elem_of_singleton.
Qed.
Lemma campaign_log r r' : carries r → Rm (r_raftLog r) 1 → campaign r = Ok r' → carries r'.
Proof.
  unfold campaign, becomeCandidate, poll. intros HP Hr H. apply bind_Ok in H as (r1 & H1 & H). apply bind_Ok in H1 as (r0 & H1 & [= <-]).
  apply reset_turn in H1 as (_ & _ & _ & _ & _ & _ & Ms & L). cbn zeta in H. destruct (decide _).
  - eapply becomeLeader_log; [| |exact H]; [by eapply carries_same; [exact HP|..]|by rewrite /= L].
  - unfold range_ids in H. eapply for_each_log; [| |exact H]; [|by eapply carries_same; [exact HP|..]]. cbv beta. intros r2 to r3 H2 H3.
    destruct (decide _); [by injection H3 as <-|].
    apply bind_Ok in H3 as (lt & _ & H3). apply bind_Ok in H3 as (li & _ & H3). by eapply send_log.
Qed.

Lemma restore_log r m s r' b : carries r → Q m → MsgType m = MsgSnapshot → m_Snapshot m = Some s → restore r s = Ok (r', b) → carries r'.
Proof.
  unfold restore. intros HP HQ Ht Hs H. apply bind_Ok in H as (md & Hmd & H). destruct (decide _); [by injection H as <- <-|].
  apply bind_Ok in H as (ok & _ & H). apply bind_Ok in H as (x & _ & H). apply bind_Ok in H as (y & _ & H). destruct ok.
  - apply bind_Ok in H as (l & H & [= <- <-]). apply carries_log; [done|]. by eapply P_commit, H; apply HP.
  - apply bind_Ok in H as (l & H1 & H). apply bind_Ok in H as (cs & _ & H). apply bind_Ok in H as (r1 & H2 & [= <- <-]).
    apply restoreNode_same in H2 as (_ & _ & _ & _ & _ & Ms & L & _).
    assert (Hm : sp_Metadata s = Some md) by (unfold snap_meta in Hmd; by destruct (sp_Metadata s); simplify_eq/=).
    split; rewrite ?L ?Ms; [|apply HP]. eapply P_restore; [apply HP|done..| |exact H1]. lia.
Qed.
Lemma handlers_log r m r' : carries r → Q m →
  (MsgType m = MsgAppend ∧ handleAppendEntries r m = Ok r') ∨ handleHeartbeat r m = Ok r' ∨ (MsgType m = MsgSnapshot ∧ handleSnapshot r m = Ok r') → carries r'.
Proof.
  intros HP HQ [[Ht H]|[H|[Ht H]]].
  - unfold handleAppendEntries in H. destruct (decide _); [by eapply send_log|]. apply bind_Ok in H as ([l ok] & H1 & H).
    assert (carries (set_raftLog l r)) by (apply carries_log; [done|]; eapply P_accept; [apply HP|done|done| |exact H1]; lia).
    cbn zeta in H. destruct ok; [by eapply send_log|]. apply bind_Ok in H as (li & _ & H). by eapply send_log.
  - unfold handleHeartbeat in H. apply bind_Ok in H as (l & H1 & H). eapply send_log; [exact H| |done]. apply carries_log; [done|]. by eapply P_commit, H1; apply HP.
  - unfold handleSnapshot in H. destruct (m_Snapshot m) as [s|] eqn:Es; [|done]. apply bind_Ok in H as ([r1 ok] & H1 & H).
    eapply restore_log in H1; [|done..]. destruct ok; [apply bind_Ok in H as (li & _ & H)|]; by eapply send_log.
Qed.

Lemma propose_conf_log li i es r es' r' : propose_conf li i es r = (es', r') →
  r_raftLog r' = r_raftLog r ∧ r_msgs r' = r_msgs r ∧ length es' = length es ∧ ((∀ e, e ∈ es → Dt (e_Data e)) → ∀ e, e ∈ es' → Dt (e_Data e)).
Proof.
  revert i r es' r'. induction es as [|e es IH]; intros i r es' r' H; cbn in H; [by simplify_eq|].
  repeat case_decide; (destruct (propose_conf li (i + 1) es _) as [es1 r1] eqn:E); simplify_eq; apply IH in E as (-> & -> & E & Hd); cbn; split_and!; auto;
    intros Hall x [->|Hx]%elem_of_cons; try done; (apply Hall; by left) || (apply Hd; [|done]; intros y Hy; apply Hall; by right).
Qed.
Lemma leader_propose_log r m r' e : carries r → MsgType m = MsgPropose → proposable r m → leader_propose r m = Ok (r', e) → carries r'.
Proof.
  unfold leader_propose, fine. intros HP Ht Hr H. destruct (Hr Ht) as [Hrm Hd]. repeat (destruct (decide _); [by simplify_eq|]). apply bind_Ok in H as (li & _ & H).
  destruct (propose_conf li 0 (m_Entries m) r) as [es r1] eqn:E. apply propose_conf_log in E as (L & Ms & E & Hd'). apply bind_Ok in H as (r2 & H1 & H).
  apply bind_Ok in H as (r3 & H2 & [= <- <-]). eapply bcastAppend_log; [|exact H2]. eapply appendEntry_log; [| | |exact H1].
  - by eapply carries_same.
  - rewrite L. unfold zlen in *. by rewrite E.
  - by apply Hd'.
Qed.
Lemma leader_append_response_log r m pr r' e : carries r → leader_append_response r m pr = Ok (r', e) → carries r'.
Proof.
  unfold leader_append_response, fine. intros HP H. destruct (Reject m).
  - destruct (maybeDecrTo _ _ _) as [pr1 []]; [|by simplify_eq]. apply bind_Ok in H as ([r1 b] & H & [= <- <-]). eapply sendAppend_log; [|exact H]. done.
  - destruct (maybeUpdate _ _) as [pr1 []]; [|by simplify_eq]. apply bind_Ok in H as ([r1 ok] & H1 & H). eapply maybeCommit_log in H1; [|done].
    apply bind_Ok in H as (r2 & H2 & H). assert (carries r2) by (destruct ok; [by eapply bcastAppend_log|by simplify_eq]).
    apply bind_Ok in H as (li & _ & H). destruct (decide _); [|by simplify_eq]. apply bind_Ok in H as (r3 & H & [= <- <-]). by eapply send_log.
Qed.
Lemma leader_transfer_log r m pr r' e : carries r → leader_transfer r m pr = Ok (r', e) → carries r'.
Proof.
  unfold leader_transfer, fine. intros HP H. destruct (decide _); [by simplify_eq|]. cbn zeta in H.
  set (r0 := if decide (r_leadTransferee r ≠ None') then _ else r) in *. assert (H0 : carries r0) by (unfold r0; by destruct (decide _)).
  clearbody r0. destruct (decide _); [by simplify_eq|]. cbn zeta in H. apply bind_Ok in H as (li & _ & H). destruct (decide _).
  - apply bind_Ok in H as (r1 & H & [= <- <-]). eapply send_log; [exact H|exact H0|done].
  - apply bind_Ok in H as ([r1 b] & H & [= <- <-]). eapply sendAppend_log; [|exact H]. exact H0.
Qed.
Lemma stepLeader_log r m r' e : carries r → proposable r m → stepLeader r m = Ok (r', e) → carries r'.
Proof.
  unfold stepLeader. intros HP Hr H. destruct (MsgType m) eqn:Ht, (getProgress r (From m)) as [pr|]; try by simplify_eq.
  all: try by (apply fine_Ok in H; eapply bcastHeartbeat_log).
  all: try by (eapply leader_propose_log).
  - by eapply leader_append_response_log.
  - apply bind_Ok in H as (li & _ & H). destruct (decide _); [|by simplify_eq]. apply bind_Ok in H as ([r1 b] & H & [= <- <-]). by eapply sendAppend_log.
  - by eapply leader_transfer_log.
Qed.
Lemma becomeFollower_log r t lead r' : becomeFollower r t lead = Ok r' → r_raftLog r' = r_raftLog r ∧ (carries r → carries r').
Proof. intros (_ & _ & _ & _ & _ & _ & Ms & L)%becomeFollower_turn. split; [done|]. intros H. by eapply carries_same. Qed.
Lemma candidate_vote_log r m r' e : carries r → Rm (r_raftLog r) 1 → candidate_vote r m = Ok (r', e) → carries r'.
Proof.
  unfold candidate_vote, poll, fine. intros HP Hr H. destruct (decide _).
  - apply bind_Ok in H as (r1 & H1 & H). apply bind_Ok in H as (r2 & H2 & [= <- <-]). eapply bcastAppend_log; [|exact H2]. by eapply becomeLeader_log; [| |exact H1].
  - destruct (decide _); [|by simplify_eq]. apply bind_Ok in H as (r1 & H1 & [= <- <-]). by apply (becomeFollower_log _ _ _ _ H1).
Qed.
Lemma stepCandidate_log r m r' e : carries r → Rm (r_raftLog r) 1 → Q m → stepCandidate r m = Ok (r', e) → carries r'.
Proof.
  unfold stepCandidate. intros HP Hr HQ H. destruct (MsgType m) eqn:Ht; try by simplify_eq.
  all: try by eapply candidate_vote_log.
  all: apply bind_Ok in H as (r1 & H1 & H); apply (becomeFollower_log _ _ _ _ H1) in HP; apply fine_Ok in H; eapply handlers_log; [exact HP|exact HQ|tauto].
Qed.
Lemma stepFollower_log r m r' e : carries r → Rm (r_raftLog r) 1 → Q m → stepFollower r m = Ok (r', e) → carries r'.
Proof.
  unfold stepFollower. intros HP Hr HQ H. destruct (MsgType m) eqn:Ht; try by simplify_eq.
  all: try by (apply fine_Ok in H; eapply (handlers_log (set_Lead (From m) (set_electionElapsed 0 r)) m); [exact HP|exact HQ|tauto]).
  - destruct (decide _); [by simplify_eq|]. apply fine_Ok in H. eapply send_log; [exact H|done|]. exact (R_forward m HQ Ht).
  - destruct (promotable r); [|by simplify_eq]. apply fine_Ok in H. by eapply campaign_log.
Qed.
Lemma step_main_log r m r' e : carries r → Rm (r_raftLog r) 1 → proposable r m → Q m → step_main r m = Ok (r', e) → carries r'.
Proof.
  unfold step_main. intros HP Hr Hm HQ H.
  assert (Hrole : match r_State r with StateFollower => stepFollower r m | StateCandidate => stepCandidate r m | StateLeader => stepLeader r m end = Ok (r', e) → carries r').
  { destruct (r_State r); [by eapply stepFollower_log|by eapply stepCandidate_log|by eapply stepLeader_log]. }
  destruct (MsgType m); try by apply Hrole.
  - unfold step_hup in H. destruct (decide _); [|by simplify_eq]. apply bind_Ok in H as (es & _ & H). destruct (decide _); [by simplify_eq|].
    apply fine_Ok in H. by eapply campaign_log.
  - unfold step_request_vote in H. apply bind_Ok in H as (ok & _ & H). apply bind_Ok in H as (x & _ & H). apply bind_Ok in H as (y & _ & H). destruct ok.
    + apply bind_Ok in H as (r1 & H & [= <- <-]). assert (carries r1) by (by eapply send_log). done.
    + apply fine_Ok in H. by eapply send_log.
Qed.
Lemma Step_log r m r' e : carries r → Rm (r_raftLog r) 1 → proposable r m → Q m → Step r m = Ok (r', e) → carries r'.
Proof.
  unfold Step. intros HP Hr Hm HQ H. destruct (decide _); [by eapply step_main_log|]. destruct (decide _).
  - apply bind_Ok in H as (r1 & H1 & H). apply becomeFollower_log in H1 as [L HP1]. eapply step_main_log; [auto| | |exact HQ|exact H].
    + by rewrite L.
    + unfold proposable. by rewrite L.
  - destruct (decide _); [by simplify_eq|by eapply step_main_log].
Qed.
Lemma tick_log r r' : carries r → Rm (r_raftLog r) 1 → tick r = Ok r' → carries r'.
Proof.
  unfold tick, tickElection, tickHeartbeat, ignore_err. intros HP Hr H.
  assert (Hs : ∀ r1 ty, ty = MsgHup ∨ ty = MsgBeat → carries r1 → r_raftLog r1 = r_raftLog r →
    ('(r, _) ← Step r1 (set_From_Term (zero_msg ty) (r_id r1) 0); Ok r) = Ok r' → carries r').
  { intros r1 ty Ht H1 L H2. apply bind_Ok in H2 as ([r2 e] & H2 & [= <-]). eapply Step_log; [exact H1|by rewrite L| |apply Q_local|exact H2].
    - intros E. cbn in E. destruct Ht; congruence.
    - cbn. destruct Ht; congruence.
    - cbn. destruct Ht; congruence.
    - by right. }
  destruct (r_State r).
  1-2: destruct (_ && _); [|by simplify_eq]; eapply Hs; [| | |exact H]; [by left|done|done].
  cbn zeta in H. set (r0 := if decide (_ ≤ _) then _ else _) in H.
  assert (L0 : r_raftLog r0 = r_raftLog r ∧ r_msgs r0 = r_msgs r) by (unfold r0; repeat destruct (decide _); done). clearbody r0. destruct L0 as [L0 M0].
  assert (HP0 : carries r0) by (by eapply carries_same).
  destruct (decide _); [by injection H as <-|]. destruct (decide _); [|by injection H as <-].
  eapply Hs; [| | |exact H]; [by right|done|done].
Qed.

Lemma raft_step_log rn m rn' e :
  carries (rn_Raft rn) → Rm (r_raftLog (rn_Raft rn)) 1 → proposable (rn_Raft rn) m → Q m → raft_step rn m = Ok (rn', e) → carries (rn_Raft rn').
Proof. unfold raft_step. intros HP Hr Hm HQ H. apply bind_Ok in H as ([r' e'] & H & [= <- <-]). by eapply Step_log. Qed.

(** What the store asks of a peer between two saves; the data it proposes is fine. *)
Inductive fine_call (Marshal : ConfChange → bytes + raft_error) (net : list Message) (n : Z) (rn rn' : RawNode T) : Prop :=
| fine_tick : Tick rn = Ok rn' → fine_call Marshal net n rn rn'
| fine_deliver m e : m ∈ net → To m = n → m_Term m < max64 → rn_Step rn m = Ok (rn', e) → fine_call Marshal net n rn rn'
| fine_campaign e : Campaign rn = Ok (rn', e) → fine_call Marshal net n rn rn'
| fine_propose data e : Dt data → Propose rn data = Ok (rn', e) → fine_call Marshal net n rn rn'
| fine_propose_conf cc e : (∀ d, Marshal cc = inl d → Dt (Some d)) → ProposeConfChange Marshal rn cc = Ok (rn', e) → fine_call Marshal net n rn rn'
| fine_transfer to : TransferLeader rn to = Ok rn' → fine_call Marshal net n rn rn'.

Lemma call_log Marshal net n rn rn' : carries (rn_Raft rn) → Rm (r_raftLog (rn_Raft rn)) 1 →
  (∀ m, m ∈ net → To m = n → Q m ∧ proposable (rn_Raft rn) m) → fine_call Marshal net n rn rn' → carries (rn_Raft rn').
Proof.
  intros HP Hr Hnet Hc.
  assert (Hl : ∀ m rn' e, MsgType m ≠ MsgAppend → MsgType m ≠ MsgSnapshot → MsgType m = MsgPropose ∨ (m_Entries m = [] ∧ m_Snapshot m = None) →
    (MsgType m = MsgPropose → ∃ e, m_Entries m = [e] ∧ Dt (e_Data e)) →
    raft_step rn m = Ok (rn', e) → carries (rn_Raft rn')).
  { intros m rn1 e H1 H2 H3 H4. eapply raft_step_log; [done..| |by apply Q_local]. intros E. destruct (H4 E) as (x & -> & Hx). split; [done|].
    by intros y ->%list_elem_of_singleton. }
  destruct Hc as [H|m e Hm Hto Hmt H|e H|data e Hd H|cc e Hd H|to H].
  - revert H. unfold Tick. intros H. apply bind_Ok in H as (r' & H & [= <-]). by eapply tick_log.
  - destruct (Hnet m Hm Hto). revert H. unfold rn_Step. intros H. destruct (IsLocalMsg _); [by injection H as <- <-|].
    destruct (getProgress _ _); [by eapply raft_step_log|]. destruct (negb _); [by eapply raft_step_log|by injection H as <- <-].
  - refine (Hl _ _ _ _ _ _ _ H); try done. by right.
  - refine (Hl _ _ _ _ _ _ _ H); try done; [by left|]. by eexists.
  - revert H. unfold ProposeConfChange. intros H. destruct (Marshal cc) as [d|]; [|by injection H as <- <-]. refine (Hl _ _ _ _ _ _ _ H); try done; [by left|].
    intros _. eexists. split; [done|]. by apply Hd.
  - revert H. unfold TransferLeader. intros H. apply bind_Ok in H as ([r' e'] & H & [= <-]). refine (Hl _ _ _ _ _ _ _ H); try done. by right.
Qed.
End Steps.

(** No call of the store changes which entries are applied. *)
Section Applied.
Context {T : Type} {HS : RaftStorage T} {HG : GoEnv}.

Lemma commitTo_applied (l : RaftLog T) i l' : commitTo l i = Ok l' → applied l' = applied l.
Proof.
  unfold commitTo. intros H. destruct (decide _); [|by injection H as <-]. apply bind_Ok in H as (li & _ & H). destruct (decide _); [done|by injection H as <-].
Qed.
Lemma append_applied (l : RaftLog T) es l' x : append l es = Ok (l', x) → applied l' = applied l.
Proof.
  unfold append. intros H. destruct es as [|e es]; [by apply bind_Ok in H as (li & _ & [= <- _])|]. destruct (decide _); [done|].
  apply bind_Ok in H as (l1 & H1 & H). apply bind_Ok in H as (l2 & H2 & H). apply bind_Ok in H as (li & _ & [= <- _]). trans (applied l1).
  - unfold maybeCompact in H2. apply bind_Ok in H2 as (fi & _ & H2). apply bind_Ok in H2 as (ft & _ & H2). destruct (decide _); [|by injection H2 as <-].
    by repeat (apply bind_Ok in H2 as (? & _ & H2)); injection H2 as <-.
  - unfold truncateAndAppend in H1. apply bind_Ok in H1 as (e0 & _ & H1). apply bind_Ok in H1 as (li' & _ & H1). destruct (decide _); [by injection H1 as <-|].
    cbn zeta in H1. apply bind_Ok in H1 as (pre & _ & [= <-]). by destruct (decide _).
Qed.
Lemma maybeAppend_applied (l : RaftLog T) i t c es l' ok : maybeAppend l i t c es = Ok (l', ok) → applied l' = applied l.
Proof.
  unfold maybeAppend. intros H. apply bind_Ok in H as (b & _ & H). destruct (negb b); [by injection H as <- _|]. cbn zeta in H.
  apply bind_Ok in H as (ci & _ & H). apply bind_Ok in H as (l1 & H1 & H). apply bind_Ok in H as (l2 & H2 & [= <- _]).
  rewrite (commitTo_applied _ _ _ H2). destruct (decide _); [by injection H1 as <-|]. destruct (decide _); [done|].
  apply bind_Ok in H1 as (new & _ & H1). apply bind_Ok in H1 as ([l3 x] & H1 & [= <-]). by eapply append_applied.
Qed.

Lemma call_applied Marshal net n (rn rn' : RawNode T) :
  call Marshal net n rn rn' → applied (r_raftLog (rn_Raft rn')) = applied (r_raftLog (rn_Raft rn)).
Proof.
  intros Hc. refine (proj1 (call_log (λ l, applied l = applied (r_raftLog (rn_Raft rn))) (λ _, True) (λ _ _, True) (λ _, True) (λ _ _, True) I
    _ _ _ _ _ _ _ _ _ _ Marshal net n rn rn' _ I _ _)); try done.
  - intros l t es li l' x <- _ _ _ H. by eapply append_applied.
  - intros l i l' <- H. by eapply commitTo_applied.
  - intros l m l' ok <- _ _ _ H. by eapply maybeAppend_applied.
  - unfold log_restore. intros l m s md l' <- _ _ _ _ _ H. apply bind_Ok in H as (md' & _ & [= <-]). done.
  - destruct Hc; [by apply fine_tick|by eapply fine_deliver|by eapply fine_campaign|by eapply fine_propose|by eapply fine_propose_conf|by eapply fine_transfer].
Qed.
End Applied.
