(* ===== verification/RaftGroup.v ===== *)
(** A raft group with its disks: election safety, state machine safety, log
    matching and leader completeness.

    A system is the cluster of Cluster together with what each peer has on disk.
    The store saves what [Ready] hands it and sends the messages, a leader's before
    the save and all others after it; a crash restarts the peer from its disk.
    [sy_applied] records every committed entry a peer was ever handed, across
    crashes.  [persisted] says what the disk must hold, which is the
    contract of the store around raft.  Between two saves the store may compact
    the disk and make snapshots ([refitted]).  The group's members are fixed, its logs
    start at a common position, and neither terms nor indices exhaust 64 bits. *)

From S2P Require Import Prelude RaftPb RaftStorage RaftLog RaftLogSpec Raft RawNode RaftProps Election RaftTree RaftSafety RaftSteps Cluster RaftLogSteps.

Section Group.
Context {T : Type} {HS : RaftStorage T} {HG : GoEnv} {HK : SnapshotKeeps T}.
Context (M : gset Z) (base : pos) (Marshal : ConfChange → bytes + raft_error).

(** A restart from the disk [st] finds the hard state [hs] and the entries of
    the log [l], perhaps without some that are applied; the snapshots it gives
    are of committed positions. *)
Definition persisted (hs : HardState) (l : RaftLog T) (st : T) : Prop :=
  (∃ cs, st_InitialState st = Ok (hs, cs)) ∧
  ∃ l0, newLog st = Ok l0 ∧ log_wf l0 ∧ last_index l0 = last_index l ∧ stabled l0 = last_index l ∧
    snapIndex l ≤ snapIndex l0 ≤ Z.min (applied l) (stabled l) ∧
    (∀ i, snapIndex l0 ≤ i → term_at l0 i = term_at l i) ∧
    (∀ i, snapIndex l0 < i → entry_at l0 i = entry_at l i) ∧
    ∀ sn, gives st sn → snap_members M sn ∧ ∃ md, sp_Metadata sn = Some md ∧
      snapIndex l0 ≤ md_Index md ≤ committed l ∧ term_at l (md_Index md) = Some (md_Term md).

(** Between two saves the store compacts the disk [dk] to [dk'], no further than
    what is applied, and replaces the storage under the peer by [st]; snapshots are
    of committed positions on the disk. *)
Definition refitted (hs : HardState) (l : RaftLog T) (st dk dk' : T) : Prop :=
  storage_ok (set_storage st l) ∧ (∃ cs, st_InitialState dk' = Ok (hs, cs)) ∧
  ∃ l0 l1, newLog dk = Ok l0 ∧ newLog dk' = Ok l1 ∧ log_wf l1 ∧ last_index l1 = last_index l0 ∧ stabled l1 = last_index l0 ∧
    snapIndex l0 ≤ snapIndex l1 ≤ applied l ∧
    (∀ i, snapIndex l1 ≤ i → term_at l1 i = term_at l0 i) ∧
    (∀ i, snapIndex l1 < i → entry_at l1 i = entry_at l0 i) ∧
    ∀ sn, gives st sn ∨ gives dk' sn → snap_members M sn ∧ ∃ md, sp_Metadata sn = Some md ∧
      snapIndex l1 ≤ md_Index md ≤ hs_Commit hs ∧ term_at l1 (md_Index md) = Some (md_Term md).

Record system := mkSystem {
  sy_nodes : gmap Z (RawNode T);
  sy_disks : gmap Z T;
  sy_net : list Message;
  sy_applied : list (Z * Entry)
}.
Implicit Types (s : system) (rn : RawNode T) (r : Raft T) (S : history) (st : T).

Definition starts_from (n : Z) st (hs : HardState) (c : Config T) : Prop := starts M (λ st', st' = st) n hs c.

(** A call that neither the term nor the log is too long for. *)
Definition step_call (net : list Message) (n : Z) rn rn' : Prop :=
  r_Term (rn_Raft rn) < max64 ∧ idx_ok (last_index (r_raftLog (rn_Raft rn)) + 1) ∧ call Marshal net n rn rn'.

(** The store makes a call of a peer; it compacts the disk or makes a snapshot; it
    saves what the peer has ready and sends its messages; it crashes and restarts
    from the disk.  A leader's messages are
    sent before the save, so a leader may also crash when some of them are out and
    nothing is saved.  (A group of one has nobody to send to.) *)
Inductive system_step s : system → Prop :=
| sy_call n rn rn' :
    sy_nodes s !! n = Some rn → step_call (sy_net s) n rn rn' →
    system_step s (mkSystem (<[n := rn']> (sy_nodes s)) (sy_disks s) (sy_net s) (sy_applied s))
| sy_store n rn st dk dk' :
    sy_nodes s !! n = Some rn → sy_disks s !! n = Some dk → refitted (prevHardSt rn) (r_raftLog (rn_Raft rn)) st dk dk' →
    system_step s (mkSystem (<[n := set_stored st rn]> (sy_nodes s)) (<[n := dk']> (sy_disks s)) (sy_net s) (sy_applied s))
| sy_ready n rn rn1 rd rn2 st dk :
    sy_nodes s !! n = Some rn → rn_Ready rn = Ok (rn1, rd) → Advance rn1 rd = Ok rn2 →
    persisted (prevHardSt rn2) (r_raftLog (rn_Raft rn2)) st → persisted (prevHardSt rn2) (r_raftLog (rn_Raft rn2)) dk →
    system_step s (mkSystem (<[n := set_stored st rn2]> (sy_nodes s)) (<[n := dk]> (sy_disks s)) (sy_net s ++ rd_Messages rd)
      (sy_applied s ++ map (pair n) (rd_CommittedEntries rd)))
| sy_crash n rn rn' st c :
    sy_nodes s !! n = Some rn → sy_disks s !! n = Some st → starts_from n st (prevHardSt rn) c → NewRawNode c = Ok rn' →
    system_step s (mkSystem (<[n := rn']> (sy_nodes s)) (sy_disks s) (sy_net s) (sy_applied s))
| sy_send n rn rn1 rd ms rn' st c :
    sy_nodes s !! n = Some rn → rn_Ready rn = Ok (rn1, rd) → r_State (rn_Raft rn) = StateLeader → (∃ v, v ∈ M ∧ v ≠ n) →
    (∀ m, m ∈ ms → m ∈ rd_Messages rd) →
    sy_disks s !! n = Some st → starts_from n st (prevHardSt rn) c → NewRawNode c = Ok rn' →
    system_step s (mkSystem (<[n := rn']> (sy_nodes s)) (sy_disks s) (sy_net s ++ ms) (sy_applied s)).

(** A peer that has not voted, with an empty log at [base]. *)
Definition peer_init (n : Z) st rn : Prop :=
  ∃ hs c, starts_from n st hs c ∧ NewRawNode c = Ok rn ∧ hs_Vote hs = None' ∧ base.2 ≤ hs_Term hs ∧ hs_Commit hs = base.1 ∧
  ∃ l0, newLog st = Ok l0 ∧ log_wf l0 ∧ snapIndex l0 = base.1 ∧ snapTerm l0 = base.2 ∧ last_index l0 = base.1 ∧
    ∀ sn, gives st sn → snap_members M sn ∧ ∃ md, sp_Metadata sn = Some md ∧ (md_Index md, md_Term md) = base.

Definition system_init s : Prop :=
  dom (sy_nodes s) = M ∧ sy_net s = [] ∧ sy_applied s = [] ∧
  ∀ n rn, sy_nodes s !! n = Some rn → ∃ st, sy_disks s !! n = Some st ∧ peer_init n st rn.

Inductive system_reachable : system → Prop :=
| sy_reach_init s : system_init s → system_reachable s
| sy_reach_step s s' : system_reachable s → system_step s s' → system_reachable s'.

(** ** Replaying what a peer did since its last save *)

Context (M_none : None' ∉ M) (base_term : 0 ≤ base.2).
Notation history_ok := (history_ok M base).
Notation msg_inv := (msg_inv (M := M) (base := base)).
Notation peer_inv := (peer_inv (M := M) (base := base)).
Notation moves := (moves (M := M) (base := base)).

Lemma raft_step_inv S n rn m rn' e :
  history_ok S → peer_inv S n (rn_Raft rn) → r_Term (rn_Raft rn) < max64 → m_Term m < max64 → room (rn_Raft rn) m →
  input M base S n m → raft_step rn m = Ok (rn', e) → moves S n (λ S', peer_inv S' n (rn_Raft rn')) ∧ prevHardSt rn' = prevHardSt rn.
Proof.
  unfold raft_step. intros OK Hp Hmax Hm Hroom Hin H. apply bind_Ok in H as ([r' e'] & H & Heq). injection Heq as <- <-.
  split; [|done]. by eapply Step_inv.
Qed.

Lemma call_inv S net n rn rn' :
  history_ok S → (∀ m, m ∈ net → msg_inv S m) → peer_inv S n (rn_Raft rn) → step_call net n rn rn' →
  moves S n (λ S', peer_inv S' n (rn_Raft rn')) ∧ prevHardSt rn' = prevHardSt rn.
Proof.
  intros OK Hnet Hp (Hmax & Hroom & Hcall). assert (Hpos : 0 < max64) by done.
  assert (Hstay : moves S n (λ S', peer_inv S' n (rn_Raft rn))) by (by apply moves_here).
  assert (Hlocal : ∀ m rn' e, ordinary m = true → m_Term m = 0 → zlen (m_Entries m) ≤ 1 → raft_step rn m = Ok (rn', e) →
    moves S n (λ S', peer_inv S' n (rn_Raft rn')) ∧ prevHardSt rn' = prevHardSt rn).
  { intros m rn1 e Ho Ht Hz. eapply raft_step_inv; [done..|by rewrite Ht| |by left]. split; [done|]. intros _.
    pose proof (zlen_nonneg (m_Entries m)). pose proof (lw_last _ (li_wf _ _ (pi_log _ _ _ Hp))). unfold idx_ok in *. lia. }
  destruct Hcall as [rn' H|m rn' e Hm Hto Hmt H|rn' e H|data rn' e H|cc rn' e H|to rn' H].
  - revert H. unfold Tick. intros H. apply bind_Ok in H as (r' & H & Heq). injection Heq as <-. split; [|done]. by eapply tick_inv.
  - assert (Hin : input M base S n m) by (right; auto).
    assert (Hrm : room (rn_Raft rn) m).
    { split; [done|]. intros Hty. destruct (Hnet m Hm) as [_ Hx]. by rewrite Hty in Hx. }
    revert H. unfold rn_Step. intros H. destruct (IsLocalMsg _); [by injection H as <- <-|].
    destruct (getProgress _ _); [by eapply raft_step_inv|]. destruct (negb _); [by eapply raft_step_inv|by injection H as <- <-].
  - by refine (Hlocal _ _ _ _ _ _ H).
  - by refine (Hlocal _ _ _ _ _ _ H).
  - revert H. unfold ProposeConfChange. intros H. destruct (Marshal cc); [|by injection H as <- <-]. by refine (Hlocal _ _ _ _ _ _ H).
  - revert H. unfold TransferLeader. intros H. apply bind_Ok in H as ([r' e'] & H & Heq). injection Heq as <-.
    by refine (Hlocal _ _ _ _ _ _ H).
Qed.

(** Between two saves: calls, and new storages that give snapshots of [G]. *)
Definition turn (net : list Message) (G : Snapshot → Prop) (n : Z) rn rn' : Prop :=
  step_call net n rn rn' ∨
  ∃ st, rn' = set_stored st rn ∧ storage_ok (set_storage st (r_raftLog (rn_Raft rn))) ∧ ∀ sn, gives st sn → G sn.
Definition runs (net : list Message) (G : Snapshot → Prop) (n : Z) : relation (RawNode T) := rtc (turn net G n).

Notation snaps_fine S t G := (∀ sn, G sn → snap_fine (M := M) (base := base) S t sn).

Lemma snaps_mono n S S' t t' (G : Snapshot → Prop) : extends n S S' → t ≤ t' → snaps_fine S t G → snaps_fine S' t' G.
Proof. intros Hg Ht H sn Hsn. by eapply snap_fine_mono; [exact Hg| |by apply H]. Qed.

Lemma runs_mono net net' (G G' : Snapshot → Prop) n rn rn' :
  (∀ m, m ∈ net → m ∈ net') → (∀ sn, G sn → G' sn) → runs net G n rn rn' → runs net' G' n rn rn'.
Proof.
  intros Hsub HG'. apply rtc_subrel. intros x y [(? & ? & Hc)|(st & ? & ? & Hs)]; [left|right; exists st; split_and!; eauto]. split_and!; [done..|].
  destruct Hc; [by eapply call_tick|eapply call_deliver; eauto|by eapply call_campaign|by eapply call_propose|by eapply call_propose_conf|by eapply call_transfer].
Qed.

Lemma refit_inv S n rn st :
  peer_inv S n (rn_Raft rn) → storage_ok (set_storage st (r_raftLog (rn_Raft rn))) → (∀ sn, gives st sn → snap_fine (M := M) (base := base) S (r_Term (rn_Raft rn)) sn) →
  peer_inv S n (rn_Raft (set_stored st rn)).
Proof.
  intros Hp Hok Hs. pose proof (pi_log _ _ _ Hp) as L. apply peer_inv_log; [done| |done| | |done].
  - destruct L as [[] ? ? ? ?]. by split.
  - exact (pi_commit _ _ _ Hp).
  - exact (pi_pending _ _ _ Hp).
Qed.

Lemma turn_inv S net G n rn rn' :
  history_ok S → (∀ m, m ∈ net → msg_inv S m) → snaps_fine S (r_Term (rn_Raft rn)) G → peer_inv S n (rn_Raft rn) → turn net G n rn rn' →
  moves S n (λ S', peer_inv S' n (rn_Raft rn')) ∧ prevHardSt rn' = prevHardSt rn.
Proof.
  intros OK Hnet HGf Hp [Hc|(st & -> & Hok & Hs)]; [by eapply call_inv|]. split; [|done]. apply moves_here; [done|]. apply refit_inv; auto.
Qed.

(** A follower of a term stays one; marking it so does not disturb it. *)
Lemma left_inv S n r :
  history_ok S → peer_inv S n r → r_State r = StateFollower →
  history_ok (add_left S n (r_Term r)) ∧ extends n S (add_left S n (r_Term r)) ∧ peer_inv (add_left S n (r_Term r)) n r.
Proof.
  intros OK Hp Hs. pose proof (extends_left S n (r_Term r)) as Hg. split_and!; [by apply add_left_ok|done|].
  eapply peer_inv_more; [exact Hp|exact Hg|done|]. eapply (past_add S); [apply (pi_past _ _ _ Hp)|exact Hg|done|by left..|].
  intros t [?|E]; [by left|right]. split; [congruence|done].
Qed.

(** A term only grows. *)
Lemma moves_term S n r r' :
  history_ok S → peer_inv S n r →
  (∀ S1, history_ok S1 → extends n S S1 → peer_inv S1 n r → moves S1 n (λ S', peer_inv S' n r')) → r_Term r ≤ r_Term r'.
Proof.
  intros OK Hp Hm. destruct (r_State r) eqn:Hs.
  - destruct (left_inv S n _ OK Hp Hs) as (OK1 & Hg1 & Hp1). destruct (Hm _ OK1 Hg1 Hp1) as (S' & Hg' & _ & Hp2).
    apply (pa_left _ _ _ (pi_past _ _ _ Hp2)). apply (gr_left _ _ _ Hg'). by right.
  - destruct (Hm S OK (extends_refl _ _) Hp) as (S' & Hg' & _ & Hp2).
    destruct (pi_cand _ _ _ Hp Hs) as (Hc & _). by apply (gr_cand _ _ _ Hg'), (pa_cand _ _ _ (pi_past _ _ _ Hp2)) in Hc as [? _].
  - destruct (Hm S OK (extends_refl _ _) Hp) as (S' & Hg' & _ & Hp2).
    destruct (pi_lead _ _ _ Hp Hs) as [_ [(h & Hl) _ _ _ _]]. by apply (gr_lead _ _ _ Hg'), (pa_lead _ _ _ (pi_past _ _ _ Hp2)) in Hl as [? _].
Qed.

Lemma turn_term S net G n rn rn' :
  history_ok S → (∀ m, m ∈ net → msg_inv S m) → snaps_fine S (r_Term (rn_Raft rn)) G → peer_inv S n (rn_Raft rn) → turn net G n rn rn' →
  r_Term (rn_Raft rn) ≤ r_Term (rn_Raft rn').
Proof.
  intros OK Hnet HGf Hp Ht. eapply moves_term; [exact OK|exact Hp|]. intros S1 OK1 Hg Hp1. refine (proj1 (turn_inv S1 net G n rn rn' OK1 _ _ Hp1 Ht)).
  - intros m Hm. eapply msg_inv_mono; eauto.
  - by eapply snaps_mono.
Qed.

Lemma runs_inv S net G n rn rn' :
  runs net G n rn rn' → history_ok S → (∀ m, m ∈ net → msg_inv S m) → snaps_fine S (r_Term (rn_Raft rn)) G → peer_inv S n (rn_Raft rn) →
  moves S n (λ S', peer_inv S' n (rn_Raft rn')) ∧ prevHardSt rn' = prevHardSt rn.
Proof.
  intros Hr. revert S. induction Hr as [rn|rn rn1 rn' Hc _ IH]; intros S OK Hnet HGf Hp; [split; [by apply moves_here|done]|].
  destruct (turn_inv _ _ _ _ _ _ OK Hnet HGf Hp Hc) as [(S1 & Hg1 & OK1 & Hp1) E1].
  destruct (IH S1 OK1) as [(S2 & Hg2 & OK2 & Hp2) E2]; [intros m Hm; eapply msg_inv_mono; eauto| |done|].
  { eapply snaps_mono; [exact Hg1| |exact HGf]. exact (turn_term S _ _ _ _ _ OK Hnet HGf Hp Hc). }
  split; [exists S2; split_and!; [by eapply extends_trans|done..]|congruence].
Qed.

Lemma runs_left S net G n rn rn' :
  runs net G n rn rn' → history_ok S → (∀ m, m ∈ net → msg_inv S m) → snaps_fine S (r_Term (rn_Raft rn)) G → peer_inv S n (rn_Raft rn) →
  r_State (rn_Raft rn) = StateFollower →
  r_Term (rn_Raft rn) ≤ r_Term (rn_Raft rn') ∧ (r_Term (rn_Raft rn) = r_Term (rn_Raft rn') → r_State (rn_Raft rn') = StateFollower).
Proof.
  intros Hr OK Hnet HGf Hp Hs. destruct (left_inv S n _ OK Hp Hs) as (OK1 & Hg1 & Hp1).
  destruct (runs_inv _ _ _ _ _ _ Hr OK1) with (3 := Hp1) as [(S' & Hg' & _ & Hp2) _]; [intros m Hm; eapply msg_inv_mono; eauto|by eapply snaps_mono|].
  apply (pa_left _ _ _ (pi_past _ _ _ Hp2)). apply (gr_left _ _ _ Hg'). by right.
Qed.

Lemma runs_term S net G n rn rn' :
  runs net G n rn rn' → history_ok S → (∀ m, m ∈ net → msg_inv S m) → snaps_fine S (r_Term (rn_Raft rn)) G → peer_inv S n (rn_Raft rn) →
  r_Term (rn_Raft rn) ≤ r_Term (rn_Raft rn').
Proof.
  intros Hr OK Hnet HGf Hp. eapply moves_term; [exact OK|exact Hp|]. intros S1 OK1 Hg Hp1.
  refine (proj1 (runs_inv S1 net G n rn rn' Hr OK1 _ _ Hp1)); [intros m Hm; eapply msg_inv_mono; eauto|by eapply snaps_mono].
Qed.

Lemma runs_applied net G n rn rn' : runs net G n rn rn' → applied (r_raftLog (rn_Raft rn')) = applied (r_raftLog (rn_Raft rn)).
Proof.
  induction 1 as [|rn rn1 rn' [(_ & _ & Hc)|(st & -> & _)] _ IH]; [done|rewrite IH; by eapply call_applied|by rewrite IH].
Qed.

(** A hard state that has become empty was empty. *)
Lemma hard_empty S S' n r r' :
  history_ok S → extends n S S' → peer_inv S n r → peer_inv S' n r' → r_Term r ≤ r_Term r' → history_ok S' →
  hardState r' = empty_hs → hardState r = empty_hs.
Proof.
  intros OK Hg Hp Hp' Ht OK' E. unfold hardState, empty_hs in *. assert (E1 : r_Term r' = 0) by congruence.
  assert (E2 : r_Vote r' = 0) by congruence. assert (E3 : committed (r_raftLog r') = 0) by congruence.
  destruct (pi_term _ _ _ Hp) as (_ & _ & H0). assert (Et : r_Term r = 0) by lia. f_equal; [done| |].
  - destruct (decide (r_Vote r = 0)) as [|Hv]; [done|]. exfalso. destruct (pi_vote _ _ _ Hp Hv) as (h & b & Hw).
    apply (gr_vote _ _ _ Hg) in Hw. destruct (pa_vote _ _ _ (pi_past _ _ _ Hp') _ _ _ _ Hw) as (_ & _ & Ev). apply Hv.
    rewrite Ev; [done|congruence].
  - destruct (committed_pos _ _ _ OK Hp) as (tc & _ & Hcom & _ & Hb). destruct (committed_pos _ _ _ OK' Hp') as (tc' & _ & _ & _ & Hb').
    pose proof (lw_applied _ (li_wf _ _ (pi_log _ _ _ Hp))). destruct Hcom as [Eb|(q & u & Hu & (_ & Htip & _) & _)].
    + rewrite -Eb in Hb'. cbn in Hb'. lia.
    + destruct (tip_valid _ _ _ OK _ _ Htip) as (_ & _ & ?). lia.
Qed.

(** ** Saving *)

Lemma newLog_first st l0 :
  newLog st = Ok l0 → log_wf l0 →
  ∃ fi, st_FirstIndex st = Ok fi ∧ st_Term st (fi - 1) = Ok (snapTerm l0) ∧ snapIndex l0 = fi - 1 ∧ storage l0 = st.
Proof.
  unfold newLog. intros H Hw. apply bind_Ok in H as (fi & Hfi & H). apply bind_Ok in H as (li & _ & H).
  apply bind_Ok in H as (t & Ht & H). apply bind_Ok in H as (es & _ & H). injection H as <-. pose proof (lw_off _ Hw) as Ho. cbn in Ho |- *.
  assert (Eu : u64 (fi - 1) = fi - 1) by lia. rewrite Eu in Ht |- *. exists fi.
  split_and!; [by destruct (st_FirstIndex st); simplify_eq/=|by destruct (st_Term st (fi - 1)); simplify_eq/=|done|done].
Qed.

Lemma persisted_storage hs l st : persisted hs l st → storage_ok (set_storage st l).
Proof.
  intros (_ & l0 & Hl & Hw & _ & _ & Hi & Ht & _). destruct (newLog_first _ _ Hl Hw) as (fi & Hfi & Hft & Es & _).
  exists fi, (snapTerm l0). cbn. pose proof (lw_snap _ Hw). split_and!; [done|done|lia|lia|]. intros _.
  change (term_at l (fi - 1) = Some (snapTerm l0)). rewrite -Ht; [|lia]. unfold term_at. by rewrite decide_True.
Qed.

(** A snapshot of a committed position is fine. *)
Lemma pos_fine S n r sn md :
  history_ok S → peer_inv S n r → snap_members M sn → sp_Metadata sn = Some md → 0 ≤ md_Index md ≤ committed (r_raftLog r) →
  term_at (r_raftLog r) (md_Index md) = Some (md_Term md) → snap_fine (M := M) (base := base) S (r_Term r) sn.
Proof.
  intros OK Hp Hm Hmd Hr Ht. split; [done|]. exists md. split; [done|]. pose proof (pi_log _ _ _ Hp) as L.
  pose proof (lw_commit _ (li_wf _ _ L)). pose proof (lw_last _ (li_wf _ _ L)) as [_ ?]. split; [split; lia|].
  destruct (committed_pos _ _ _ OK Hp) as (tc & _ & Hcom & Ha & _). eapply com_anc; [done| |exact Hcom].
  eapply anc_linear; [done|by apply (li_term _ _ L)|exact Ha|cbn; lia].
Qed.

(** Snapshots of the disk are of committed positions. *)
Lemma persisted_gives S n r hs l st sn :
  history_ok S → peer_inv S n r → persisted hs l st → committed l = committed (r_raftLog r) →
  (∀ i, term_at l i = term_at (r_raftLog r) i) → gives st sn → snap_fine (M := M) (base := base) S (r_Term r) sn.
Proof.
  intros OK Hp (_ & l0 & _ & Hw & _ & _ & Hi & _ & _ & Hsn) Ec Et Hg. destruct (Hsn sn Hg) as [Hm (md & Hmd & Hr & Ht)].
  pose proof (lw_snap _ Hw). rewrite Et in Ht. eapply pos_fine; [done..| |done]. lia.
Qed.

Lemma peer_inv_sent S n r : peer_inv S n r → peer_inv S n (set_msgs [] r).
Proof.
  intros []. split; try done.
  - by destruct pi_past.
  - intros Hs. destruct (pi_lead Hs) as [? []]. done.
  - by intros m Hm%not_elem_of_nil.
Qed.

Lemma advanced_same (l l' : RaftLog T) st :
  advanced l l' → (∀ i, term_at (set_storage st l') i = term_at l i) ∧ (∀ i, entry_at (set_storage st l') i = entry_at l i) ∧
    tail (set_storage st l') = tail l ∧ committed l' = committed l ∧ (pending_snapshot l' = None ∨ pending_snapshot l' = pending_snapshot l).
Proof. intros ([->| ->] & _ & _); split_and!; auto. Qed.

Lemma saved_inv S n r hs l' st :
  history_ok S → peer_inv S n r → advanced (r_raftLog r) l' → persisted hs l' st →
  peer_inv S n (set_raftLog (set_storage st l') (set_msgs [] r)).
Proof.
  intros OK Hp Had Hper. destruct (advanced_same _ _ st Had) as (Et & Ee & Ea & Ec & Epd). pose proof (pi_log _ _ _ Hp) as L.
  apply peer_inv_log; [by apply peer_inv_sent| |done| | |].
  - destruct Had as (_ & Hw & _). split; [by destruct Hw|by eapply persisted_storage|rewrite Ea; apply (li_valid _ _ L)| |].
    + intros i t. rewrite Et Ea. apply (li_term _ _ L).
    + intros i e. rewrite Ee. apply (li_entry _ _ L).
  - intros t. rewrite Et. cbn. rewrite Ec. apply (pi_commit _ _ _ Hp).
  - intros sn Hsn. cbn in Hsn. apply (pi_pending _ _ _ Hp). destruct Epd; congruence.
  - intros sn Hsn. eapply (persisted_gives S n r); [done|done|exact Hper|done| |exact Hsn]. intros i. by rewrite -Et.
Qed.

(** ** Restarting *)

(** The log a peer starts with. *)
Definition restarted (hs : HardState) (l0 l : RaftLog T) : Prop :=
  ∃ a, l = set_applied a (set_committed (hs_Commit hs) l0) ∧ snapIndex l0 ≤ a ≤ hs_Commit hs ∧ hs_Commit hs ≤ last_index l0.

Lemma newLog_fields st l0 : newLog st = Ok l0 → committed l0 = snapIndex l0 ∧ applied l0 = snapIndex l0 ∧ pending_snapshot l0 = None.
Proof.
  unfold newLog. intros H. apply bind_Ok in H as (fi & _ & H). apply bind_Ok in H as (li & _ & H).
  apply bind_Ok in H as (t & _ & H). apply bind_Ok in H as (es & _ & H). by injection H as <-.
Qed.

Lemma loadState_log r hs r' :
  log_wf (r_raftLog r) → committed (r_raftLog r) = snapIndex (r_raftLog r) → applied (r_raftLog r) = snapIndex (r_raftLog r) →
  snapIndex (r_raftLog r) ≤ hs_Commit hs → (if IsEmptyHardState hs then Ok r else loadState r hs) = Ok r' →
  r_raftLog r' = set_committed (hs_Commit hs) (r_raftLog r) ∧ hs_Commit hs ≤ last_index (r_raftLog r).
Proof.
  intros Hw Hc Ha Hs. pose proof (lw_commit _ Hw). pose proof (lw_snap _ Hw). unfold loadState. destruct (IsEmptyHardState hs) eqn:E.
  - intros [= <-]. apply bool_decide_eq_true in E as (_ & _ & E). rewrite E in Hs |- *. cbn in Hs.
    assert (committed (r_raftLog r) = 0) as E0 by lia. cbn. rewrite -{1}E0. split; [by destruct (r_raftLog r)|lia].
  - rewrite LastIndex_wf //. cbn [mbind outcome_bind]. destruct (decide _) as [|Hd]; [done|]. intros [= <-]. split; [done|].
    destruct (decide (last_index (r_raftLog r) < hs_Commit hs)); [by destruct Hd; right|lia].
Qed.

Lemma appliedTo_log r (i : Z) r' :
  log_wf (r_raftLog r) →
  (if decide (0 < i) then l ← appliedTo (r_raftLog r) i; Ok (set_raftLog l r) else Ok r) = Ok r' →
  ∃ a, r_raftLog r' = set_applied a (r_raftLog r) ∧ applied (r_raftLog r) ≤ a ≤ committed (r_raftLog r).
Proof.
  intros Hw. pose proof (lw_applied _ Hw) as Hap. destruct (decide (0 < i)); [|intros [= <-]; exists (applied (r_raftLog r)); split; [by destruct (r_raftLog r)|lia]].
  unfold appliedTo. rewrite decide_False; [|lia]. intros H. apply bind_Ok in H as (l1 & H & [= <-]). destruct (decide _) as [|Hd] in H; [done|].
  injection H as <-. exists i. split; [done|]. destruct (decide (committed (r_raftLog r) < i)); [by destruct Hd; left|].
  destruct (decide (i < applied (r_raftLog r))); [by destruct Hd; right|lia].
Qed.

Lemma newRaft_log n st hs c r l0 :
  starts_from n st hs c → newLog st = Ok l0 → log_wf l0 → snapIndex l0 ≤ hs_Commit hs → newRaft c = Ok r → restarted hs l0 (r_raftLog r).
Proof.
  intros (_ & st' & cs & Hst & -> & Hinit & _) Hl Hw Hs H. destruct (newLog_fields _ _ Hl) as (Ec & Ea & _). revert H. unfold newRaft.
  rewrite Hst. intros H. destruct (validate c); [done|]. rewrite Hl in H. cbn [mbind outcome_bind] in H.
  apply bind_Ok in H as ([hs' cs'] & E & H). rewrite Hinit in E. injection E as <- <-. apply bind_Ok in H as (ps & _ & H).
  apply bind_Ok in H as (r1 & H1 & H). 
  match type of H1 with (if _ then Ok ?r0 else _) = _ => destruct (loadState_log r0 hs r1 Hw Ec Ea Hs H1) as [L1 Hle] end. cbn in L1, Hle.
  apply bind_Ok in H as (r2 & H2 & H). apply bind_Ok in H as (r3 & H3 & H). apply bind_Ok in H as (lt & _ & H). injection H as <-.
  assert (Hw1 : log_wf (r_raftLog r1)).
  { rewrite L1. destruct Hw. split; try done; unfold last_index in *; cbn in *; lia. }
  destruct (appliedTo_log _ _ _ Hw1 H2) as (a & L2 & Ha). rewrite L1 in L2 Ha. cbn in Ha. rewrite Ea in Ha.
  apply becomeFollower_turn in H3 as (_ & _ & _ & _ & _ & _ & _ & L3). exists a. by rewrite L3 L2.
Qed.

Lemma restarted_wf hs l0 l : log_wf l0 → committed l0 = snapIndex l0 → restarted hs l0 l → log_wf l.
Proof. intros Hw Ec (a & -> & ? & ?). pose proof (lw_snap _ Hw). destruct Hw. split; try done; unfold last_index in *; cbn in *; lia. Qed.

(** A peer that restarts continues where it was saved. *)
Lemma restarted_log S l hs st l0 l' :
  log_inv (base := base) S l → persisted hs l st → newLog st = Ok l0 → hs_Commit hs = committed l → restarted hs l0 l' →
  log_inv (base := base) S l' ∧ tail l' = tail l ∧ committed l' = committed l ∧ (∀ i, snapIndex l' ≤ i → term_at l' i = term_at l i) ∧
  persisted hs l' st ∧ stabled l' = last_index l'.
Proof.
  intros L (Hin & l1 & Hl & Hw & Elast & Estab & Hi & Et & Ee & Hsn) Hl0 Ec Hre. rewrite Hl0 in Hl. injection Hl as ->.
  destruct (newLog_fields _ _ Hl0) as (Ec0 & _ & Epd). pose proof (restarted_wf _ _ _ Hw Ec0 Hre) as Hw'. destruct Hre as (a & -> & Ha & Hle).
  assert (Ht : ∀ i, snapIndex l1 ≤ i → term_at (set_applied a (set_committed (hs_Commit hs) l1)) i = term_at l i) by exact Et.
  assert (Etail : tail (set_applied a (set_committed (hs_Commit hs) l1)) = tail l).
  { change (tail l1 = tail l). pose proof (lw_commit _ Hw). unfold tail, last_term. rewrite Et; [|lia]. by rewrite Elast. }
  assert (Hper : persisted hs (set_applied a (set_committed (hs_Commit hs) l1)) st).
  { split; [done|]. exists l1. cbn. pose proof (lw_stable _ Hw). split_and!; [done|done|done|change (stabled l1 = last_index l1); by rewrite Elast|lia|lia|done|done|].
    intros sn Hg. destruct (Hsn sn Hg) as [? (md & ? & ? & ?)]. split; [done|]. exists md. split_and!; [done|lia|lia|].
    change (term_at l1 (md_Index md) = Some (md_Term md)). by rewrite Et; [|lia]. }
  split_and!; [|done|done|done|done|change (stabled l1 = last_index l1); by rewrite Elast].
  destruct (newLog_first _ _ Hl0 Hw) as (_ & _ & _ & _ & Est).
  split; [done| |rewrite Etail; apply (li_valid _ _ L)| |].
  - apply persisted_storage in Hper. by rewrite -Est in Hper.
  - intros i t Hit. assert (Hr : snapIndex l1 ≤ i) by (destruct (proj1 (term_at_is_Some _ i Hw')); [by rewrite Hit|done]).
    rewrite Etail. apply (li_term _ _ L). by rewrite -Ht.
  - intros i e Hie. destruct (entry_at_Some _ _ _ Hw' Hie) as [Hr _]. rewrite (lw_off _ Hw') in Hr. apply (li_entry _ _ L).
    rewrite -Ee; [done|]. cbn in Hr. lia.
Qed.

(** ** The invariant of the system *)

(** A peer that has just been saved or started. *)
Record clean S (n : Z) rn st : Prop := {
  cn_inv : peer_inv S n (rn_Raft rn);
  cn_hard : prevHardSt rn = hardState (rn_Raft rn);
  cn_disk : persisted (prevHardSt rn) (r_raftLog (rn_Raft rn)) st;
  cn_stable : stabled (r_raftLog (rn_Raft rn)) = last_index (r_raftLog (rn_Raft rn))
}.

Lemma restart_clean S n rn st c rn' :
  history_ok S → clean S n rn st → starts_from n st (prevHardSt rn) c → NewRawNode c = Ok rn' →
  clean S n rn' st ∧ r_State (rn_Raft rn') = StateFollower ∧ r_Term (rn_Raft rn') = r_Term (rn_Raft rn) ∧
  r_Vote (rn_Raft rn') = r_Vote (rn_Raft rn) ∧ tail (r_raftLog (rn_Raft rn')) = tail (r_raftLog (rn_Raft rn)).
Proof.
  unfold NewRawNode. intros OK [Hp Eh Hper _] Hs H. destruct (decide _); [done|]. apply bind_Ok in H as (r & Hr & [= <-]).
  pose proof Hper as (_ & l0 & Hl & Hw & _ & _ & Hi & _). rewrite Eh in Hs Hper. pose proof (lw_applied _ (li_wf _ _ (pi_log _ _ _ Hp))).
  assert (Hre : restarted (hardState (rn_Raft rn)) l0 (r_raftLog r)) by (eapply newRaft_log; [exact Hs|done|done|cbn; lia|done]).
  destruct (newRaft_fresh _ _ _ _ _ _ Hs Hr) as [(I & Tm & V & D & Ms & Est & Epd) St].
  destruct (restarted_log _ _ _ _ _ _ (pi_log _ _ _ Hp) Hper Hl eq_refl Hre) as (L & Ea & Ec & Et & Hper' & Est').
  assert (Ehs : hardState r = hardState (rn_Raft rn)) by (unfold hardState; by rewrite Tm V Ec).
  split; [|done]. split; [|done|by rewrite /= Ehs|done]. cbn in Tm, V |- *.
  assert (Hp1 : peer_inv S n (set_raftLog (r_raftLog r) (set_msgs [] (rn_Raft rn)))).
  { apply peer_inv_log; [by apply peer_inv_sent|done|done| |by rewrite Epd|].
    - intros t. rewrite Et; [|by destruct (lw_commit _ (li_wf _ _ L))]. rewrite Ec. apply (pi_commit _ _ _ Hp).
    - rewrite Est. intros sn Hg. apply (persisted_gives S n (rn_Raft rn) _ _ _ _ OK Hp Hper eq_refl (λ i, eq_refl) Hg). }
  eapply peer_inv_turn; [exact Hp1|apply extends_refl| |rewrite D; symmetry; apply Hp|done|done|cbn; lia| | |by rewrite St|by rewrite St|by rewrite St].
  - rewrite I. symmetry. apply Hp.
  - rewrite V Tm. apply (pi_vote _ _ _ Hp).
  - eapply past_follow; [apply (pi_past _ _ _ Hp1)|done..].
Qed.

Definition no_history : history := mkHistory (λ _ _ _ _ _, False) (λ _ _ _, False) (λ _ _ _, False) (λ _ _ _ _ _, False) (λ _ _ _, False) (λ _ _, False).

Lemma no_history_ok : history_ok no_history.
Proof. by split. Qed.

Lemma init_log l0 hs l :
  log_wf l0 → committed l0 = snapIndex l0 → snapIndex l0 = base.1 → snapTerm l0 = base.2 → last_index l0 = base.1 → restarted hs l0 l →
  log_wf l ∧ tail l = base ∧ (∀ i t, term_at l i = Some t → (i, t) = base) ∧ (∀ i, entry_at l i = None) ∧
  committed l = hs_Commit hs ∧ stabled l = base.1.
Proof.
  intros Hw Ec Hs Ht Hl Hre. pose proof (restarted_wf _ _ _ Hw Ec Hre) as Hw'. destruct Hre as (a & -> & ? & ?).
  assert (Hterm : term_at l0 base.1 = Some base.2) by (unfold term_at; by rewrite decide_True // Ht).
  split_and!; [done| | | |done|pose proof (lw_stable _ Hw); cbn; lia].
  - change (tail l0 = base). unfold tail, last_term. rewrite Hl Hterm. by destruct base.
  - intros i t Hi. change (term_at l0 i = Some t) in Hi. assert (Hr : snapIndex l0 ≤ i ≤ last_index l0) by (apply term_at_is_Some; [done|by rewrite Hi]).
    assert (i = base.1) as -> by lia. rewrite Hterm in Hi. injection Hi as <-. by destruct base.
  - intros i. change (entry_at l0 i = None). destruct (entry_at l0 i) as [e|] eqn:E; [|done].
    destruct (entry_at_Some _ _ _ Hw E) as [Hr _]. rewrite (lw_off _ Hw) in Hr. lia.
Qed.

Lemma init_clean n st rn : n ∈ M → peer_init n st rn → clean no_history n rn st.
Proof.
  unfold peer_init, NewRawNode. intros Hn (hs & c & Hs & H & Hv & Ht & Hc & l0 & Hl & Hw & Hsi & Hst & Hla & Hsn).
  destruct (decide _); [done|]. apply bind_Ok in H as (r & Hr & [= <-]). destruct (newLog_fields _ _ Hl) as (Ec0 & _ & _).
  assert (Hre : restarted hs l0 (r_raftLog r)) by (eapply newRaft_log; [exact Hs|done|done|lia|done]).
  destruct (init_log _ _ _ Hw Ec0 Hsi Hst Hla Hre) as (Hw' & Etail & Hterm & Hent & Ec & Esb).
  destruct (newRaft_fresh _ _ _ _ _ _ Hs Hr) as [(I & Tm & V & D & Ms & Est & Epd) St].
  assert (Ehs : hardState r = hs) by (unfold hardState; rewrite Tm V Ec; by destruct hs).
  assert (Hper : persisted hs (r_raftLog r) st).
  { pose proof Hs as (_ & st' & cs & _ & -> & Hinit & _). split; [by exists cs|]. exists l0. destruct Hre as (a & El & ? & ?). rewrite El in Esb |- *. cbn in Esb |- *.
    split_and!; [done|done|done|by change (stabled l0 = last_index l0); lia|lia|lia|done|done|]. intros sn Hg. destruct (Hsn sn Hg) as [? (md & ? & Eb)]. split; [done|].
    assert (E1 : md_Index md = base.1) by (by rewrite -Eb). assert (E2 : md_Term md = base.2) by (by rewrite -Eb).
    exists md. split_and!; [done|lia|lia|]. rewrite E1 E2. change (term_at l0 base.1 = Some base.2). unfold term_at. by rewrite decide_True // Hst. }
  split; [|done|by rewrite /= Ehs|cbn; by rewrite Esb -Etail]. cbn. split; rewrite ?St; try done.
  - split; [done| |rewrite Etail; apply anc_refl| |].
    + apply persisted_storage in Hper. rewrite -{1}Est in Hper. by destruct (r_raftLog r).
    + intros i t Hi. rewrite Etail (Hterm _ _ Hi). apply anc_refl.
    + intros i e. by rewrite Hent.
  - change (last_term (r_raftLog r)) with (tail (r_raftLog r)).2. rewrite Etail Tm. lia.
  - intros t Hi. left. by apply Hterm.
  - by rewrite Epd.
  - rewrite Est. intros sn Hg. destruct (Hsn sn Hg) as [? (md & Hmd & Eb)]. split; [done|]. exists md. split; [done|]. rewrite Eb.
    split; [|by left]. assert (md_Index md = base.1) as -> by (by rewrite -Eb). rewrite -Hla. apply (lw_last _ Hw).
  - by rewrite V Hv.
  - split; try done; [by intros t p (q & [] & _)|left; by intros t p (q & [] & _)].
  - rewrite Ms. by intros m Hm%not_elem_of_nil.
Qed.

(** Each peer runs from a clean state on messages of the network. *)
Definition peer_safe S s (n : Z) rn : Prop :=
  ∃ rn0 st G, sy_disks s !! n = Some st ∧ clean S n rn0 st ∧ snaps_fine S (r_Term (rn_Raft rn0)) G ∧ runs (sy_net s) G n rn0 rn.

(** A clean peer runs, with no new snapshots so far. *)
Lemma clean_safe S s n rn st : sy_disks s !! n = Some st → clean S n rn st → peer_safe S s n rn.
Proof. intros Hd Hc. exists rn, st, (λ _, False). split_and!; [done|done|done|apply rtc_refl]. Qed.

Lemma entry_term (l : RaftLog T) i e : log_wf l → entry_at l i = Some e → term_at l i = Some (e_Term e).
Proof.
  intros Hw He. destruct (entry_at_Some _ _ _ Hw He) as [Hr _]. rewrite (lw_off _ Hw) in Hr. unfold term_at.
  rewrite decide_False; [|lia]. by rewrite He.
Qed.

(** A committed entry of a log is committed in the group. *)
Lemma entry_com S n r i t :
  history_ok S → peer_inv S n r → term_at (r_raftLog r) i = Some t → i ≤ committed (r_raftLog r) → com M base S (r_Term r) (i, t).
Proof.
  intros OK Hp Ht Hi. destruct (committed_pos _ _ _ OK Hp) as (tc & _ & Hcom & Ha & _). eapply com_anc; [done| |exact Hcom].
  eapply anc_linear; [done|by apply (li_term _ _ (pi_log _ _ _ Hp))|exact Ha|done].
Qed.

(** An entry of the tree that is committed. *)
Definition settled S (e : Entry) : Prop :=
  (∃ c pt, h_edge S c (e_Index e) (e_Term e) e pt) ∧ ∃ t, com M base S t (e_Index e, e_Term e).

Record system_safe S s : Prop := {
  ss_history : history_ok S;
  ss_dom : dom (sy_nodes s) = M;
  ss_net m : m ∈ sy_net s → msg_inv S m;
  ss_applied n e : (n, e) ∈ sy_applied s → settled S e;
  ss_peer n rn : sy_nodes s !! n = Some rn → peer_safe S s n rn
}.

Lemma settled_mono n S S' e : extends n S S' → settled S e → settled S' e.
Proof. intros Hg [(c & pt & He) (t & Hc)]. split; [exists c, pt; by apply (gr_edge _ _ _ Hg)|exists t; by eapply com_mono]. Qed.

Lemma entry_settled S n r i e :
  history_ok S → peer_inv S n r → entry_at (r_raftLog r) i = Some e → i ≤ committed (r_raftLog r) → settled S e.
Proof.
  intros OK Hp He Hi. pose proof (pi_log _ _ _ Hp) as L. destruct (entry_at_Some _ _ _ (li_wf _ _ L) He) as [_ Ei].
  split; [rewrite Ei; by apply (li_entry _ _ L)|]. exists (r_Term r). rewrite Ei. eapply entry_com; [done|done|by apply entry_term, He; apply L|done].
Qed.

(** Two settled entries with one index are the same. *)
Lemma settled_same S e1 e2 : history_ok S → settled S e1 → settled S e2 → e_Index e1 = e_Index e2 → e1 = e2.
Proof.
  intros OK [(c1 & pt1 & He1) (t1 & Hc1)] [(c2 & pt2 & He2) (t2 & Hc2)] Ei. rewrite Ei in He1 Hc1.
  assert (Et : e_Term e1 = e_Term e2).
  { eapply anc_same; [done|eapply committed_linear; [done|exact Hc1|exact Hc2|cbn; lia]|apply anc_refl]. }
  rewrite Et in He1. by destruct (ho_edge_fun _ _ _ OK _ _ _ _ _ _ _ _ He1 He2).
Qed.

Lemma clean_others S S' n n' rn st :
  history_ok S → history_ok S' → extends n' S S' → n' ≠ n → clean S n rn st → clean S' n rn st.
Proof. intros OK OK' Hg Hne [Hp ? ? ?]. split; [exact (peer_inv_others S S' n n' (rn_Raft rn) OK OK' Hg Hne Hp)|done..]. Qed.

Lemma safe_others S S' s s' n n' rn :
  history_ok S → history_ok S' → extends n' S S' → n' ≠ n → (∀ m, m ∈ sy_net s → m ∈ sy_net s') → sy_disks s' !! n = sy_disks s !! n →
  peer_safe S s n rn → peer_safe S' s' n rn.
Proof.
  intros OK OK' Hg Hne Hsub Ed (rn0 & st & G & Hd & Hc & HGf & Hr). exists rn0, st, G. rewrite Ed. split_and!; [done|by eapply (clean_others S)| |].
  - by eapply snaps_mono.
  - by eapply runs_mono.
Qed.

(** What a peer has done since it was clean, as part of the history. *)
Lemma peer_replay S s n rn :
  history_ok S → (∀ m, m ∈ sy_net s → msg_inv S m) → peer_safe S s n rn →
  ∃ S', extends n S S' ∧ history_ok S' ∧ peer_inv S' n (rn_Raft rn) ∧
    (hardState (rn_Raft rn) = empty_hs → prevHardSt rn = empty_hs).
Proof.
  intros OK Hnet (rn0 & st & G & _ & [Hp Eh _ _] & HGf & Hr). destruct (runs_inv _ _ _ _ _ _ Hr OK Hnet HGf Hp) as [(S' & Hg & OK' & Hp') Epv].
  exists S'. split_and!; [done..|]. rewrite Epv Eh.
  exact (hard_empty S S' n _ _ OK Hg Hp Hp' (runs_term _ _ _ _ _ _ Hr OK Hnet HGf Hp) OK').
Qed.

(** ** A leader that sends before it saves *)

(** After where a leader started, its path has only its own entries. *)
Lemma lead_term S t c h p q : history_ok S → h_lead S t c h → anc S p q → q.2 = t → h.1 < p.1 → p.2 = t.
Proof.
  intros OK Hl. induction 1 as [|c' i u e pt He Ha IH]; [done|]. cbn. intros -> Hlt. destruct (ho_edge _ _ _ OK _ _ _ _ _ He) as (_ & _ & _ & h' & Hl' & Hor).
  destruct (ho_lead_fun _ _ _ OK _ _ _ _ _ Hl Hl') as [_ <-]. destruct Hor as [E| ->]; [|by apply IH]. rewrite E in Ha. apply anc_index in Ha. lia.
Qed.

(** The history when a leader's messages are out and it has lost what it did
    since it was saved in [S]: its acknowledgements of the term are gone. *)
Definition unsaved S S' (n t : Z) : history :=
  mkHistory (h_edge S') (h_lead S') (h_cand S') (h_vote S') (λ v u p, h_ack S' v u p ∧ (v = n → u = t → h_ack S v u p)) (h_left S').

Section Unsaved.
Context (S S' : history) (n t : Z) (OK : history_ok S) (OK' : history_ok S') (Hg : extends n S S').
Notation U := (unsaved S S' n t).

Lemma unsaved_extends : extends n S U.
Proof. destruct Hg. split; cbn; auto. intros v u p [? _]. auto. Qed.
Lemma unsaved_anc p q : anc S' p q → anc U p q.
Proof. by apply anc_same_edges. Qed.
Lemma unsaved_anc_back p q : anc U p q → anc S' p q.
Proof. by apply anc_same_edges. Qed.
Lemma unsaved_onpath u p : onpath S' u p → onpath U u p.
Proof. intros (q & Ht & Ha). exists q. split; [exact Ht|by apply unsaved_anc]. Qed.
Lemma unsaved_lost p u u' : lost S' p u u' → lost U p u u'.
Proof. intros (t2 & k & x & x' & ? & ? & ? & ?). exists t2, k, x, x'. split_and!; [lia|lia|by apply unsaved_anc|by apply unsaved_onpath|done]. Qed.
Lemma unsaved_held v u p : held U v u p → held S' v u p.
Proof. intros (q & [Hq _] & Ha). exists q. split; [done|by apply unsaved_anc_back]. Qed.

Lemma unsaved_ok : history_ok U.
Proof.
  destruct OK' as [E1 E2 L1 L2 C1 V1 V2 A1 A2]. split; cbn.
  - exact E1.
  - intros c i u e pt H. destruct (E2 _ _ _ _ _ H) as (? & ? & ? & ?). split_and!; [done..|by apply unsaved_anc|done].
  - exact L1.
  - intros u c h H. destruct (L2 _ _ _ H) as (? & ? & ? & ? & ?). split_and!; [by apply unsaved_anc|done..].
  - exact C1.
  - exact V1.
  - intros v u c h b H. destruct (V2 _ _ _ _ _ H) as (? & ? & ?). split_and!; [by apply unsaved_anc|done..].
  - intros v u p [H _]. by apply unsaved_onpath, A1 with v.
  - intros v u p u' c h Hh Hv Hlt. destruct (A2 v u p u' c h) as [?|?]; [by apply unsaved_held|done|done|left; by apply unsaved_anc|right; by apply unsaved_lost].
Qed.

Context (net : list Message) (G : Snapshot → Prop) (rn0 rn : RawNode T).
Context (Hp0 : peer_inv S n (rn_Raft rn0)) (Hnet : ∀ m, m ∈ net → msg_inv S m) (HGf : snaps_fine S (r_Term (rn_Raft rn0)) G) (Hrun : runs net G n rn0 rn).
Context (Hp : peer_inv S' n (rn_Raft rn)) (Hlead : r_State (rn_Raft rn) = StateLeader) (Et : t = r_Term (rn_Raft rn)).
Context (Hother : ∃ v, v ∈ M ∧ v ≠ n).

Lemma majority_other Q : majority M Q → ∃ v, v ∈ Q ∧ v ≠ n.
Proof.
  intros [Hsub Hsz]. destruct Hother as (w & Hw & Hwn). destruct (decide (Q ⊆ {[n]})) as [HQ|HQ].
  - exfalso. apply subseteq_size in HQ. rewrite size_singleton in HQ. pose proof (pi_mem _ _ _ Hp) as Hn.
    assert (H2 : (size ({[n]} ∪ {[w]} : gset Z) ≤ size M)%nat).
    { apply subseteq_size. by intros x [->%elem_of_singleton| ->%elem_of_singleton]%elem_of_union. }
    rewrite size_union in H2; [rewrite !size_singleton in H2; lia|]. intros x ->%elem_of_singleton ?%elem_of_singleton. congruence.
  - destruct (set_choose_or_empty (Q ∖ {[n]})) as [[v [Hv Hvn]%elem_of_difference]|He]; [exists v; split; [done|]; intros ->; by apply Hvn, elem_of_singleton|].
    destruct HQ. intros x Hx. destruct (decide (x ∈ ({[n]} : gset Z))); [done|]. exfalso. assert (Hxe : x ∈ (∅ : gset Z)) by (by apply He, elem_of_difference). by apply elem_of_empty in Hxe.
Qed.

(** The term was saved, and the peer was not a follower in it. *)
Lemma unsaved_term : r_Term (rn_Raft rn0) = t.
Proof.
  destruct (pi_lead _ _ _ Hp Hlead) as [_ [(h & Hl) _ _ _ _]]. destruct (ho_lead _ _ _ OK' _ _ _ Hl) as (_ & _ & _ & _ & Q & HQ & Hv).
  destruct (majority_other Q HQ) as (v & HvQ & Hvn). destruct (Hv v HvQ) as (hv & Hvote & _).
  destruct (gr_vote_by _ _ _ Hg _ _ _ _ _ Hvote) as [Hs|]; [|done]. destruct (ho_vote _ _ _ OK _ _ _ _ _ Hs) as (_ & _ & hc & Hc & _).
  destruct (pa_cand _ _ _ (pi_past _ _ _ Hp0) _ _ Hc). pose proof (runs_term _ _ _ _ _ _ Hrun OK Hnet HGf Hp0). lia.
Qed.
Lemma unsaved_role : r_State (rn_Raft rn0) ≠ StateFollower.
Proof.
  intros Hs. destruct (runs_left _ _ _ _ _ _ Hrun OK Hnet HGf Hp0 Hs) as [_ Hf]. pose proof Hlead as Hl. rewrite Hf in Hl; [done|]. by rewrite unsaved_term Et.
Qed.

(** Where its leadership starts is in the saved log. *)
Lemma unsaved_start h : h_lead S' t n h → anc S' h (tail (r_raftLog (rn_Raft rn0))).
Proof.
  intros Hl. pose proof unsaved_term as Et0. destruct (r_State (rn_Raft rn0)) eqn:Hs; [by destruct unsaved_role|..].
  - destruct (pi_cand _ _ _ Hp0 Hs) as (Hc & _). rewrite Et0 in Hc. apply (gr_cand _ _ _ Hg) in Hc.
    destruct (ho_lead _ _ _ OK' _ _ _ Hl) as (_ & _ & _ & Hc' & _). rewrite (ho_cand_fun _ _ _ OK' _ _ _ _ Hc' Hc). apply anc_refl.
  - destruct (pi_lead _ _ _ Hp0 Hs) as [_ [(h0 & Hl0) Htip _ _ _]]. rewrite Et0 in Hl0 Htip. pose proof (gr_lead _ _ _ Hg _ _ _ Hl0) as Hl0'.
    destruct (ho_lead_fun _ _ _ OK' _ _ _ _ _ Hl Hl0') as [_ ->]. eapply anc_mono; [exact Hg|]. destruct Htip as [[c Hl1]|(E & c & e & pt & He)].
    + destruct (ho_lead_fun _ _ _ OK _ _ _ _ _ Hl0 Hl1) as [_ ->]. apply anc_refl.
    + destruct (lead_anc _ _ _ OK _ _ _ _ _ _ _ Hl0 He) as [Ha _]. by rewrite -E -surjective_pairing in Ha.
Qed.

(** Entries of earlier terms in its log were saved. *)
Lemma unsaved_old p : anc S' p (tail (r_raftLog (rn_Raft rn))) → p.2 < t → anc S' p (tail (r_raftLog (rn_Raft rn0))).
Proof.
  intros Ha Hlt. destruct (pi_lead _ _ _ Hp Hlead) as [_ [(h & Hl) Htip _ _ _]]. rewrite -Et in Hl Htip.
  assert (Hht : anc S' h (tail (r_raftLog (rn_Raft rn)))).
  { eapply (tip_linear _ _ _ OK' t); [left; by exists n|exact Htip|]. destruct Htip as [[c Hl1]|(E & c & e & pt & He)].
    - destruct (ho_lead_fun _ _ _ OK' _ _ _ _ _ Hl Hl1) as [_ ->]. lia.
    - destruct (lead_anc _ _ _ OK' _ _ _ _ _ _ _ Hl He). cbn in *. lia. }
  eapply anc_trans; [|by apply unsaved_start]. destruct (decide (p.1 ≤ h.1)) as [Hle|Hgt]; [by eapply anc_linear|].
  exfalso. assert (Hhp : anc S' h p) by (eapply anc_linear; [exact OK'|exact Hht|exact Ha|lia]).
  destruct Htip as [[c Hl1]|[E _]]; [destruct (ho_lead_fun _ _ _ OK' _ _ _ _ _ Hl Hl1) as [_ ->]; apply anc_index in Ha; lia|].
  assert (p.2 = t); [|lia]. eapply (lead_term S'); [exact OK'|exact Hl|exact Ha|exact E|lia].
Qed.

(** What it had acknowledged in the term before the save. *)
Lemma unsaved_held_back p : held U n t p → held S n t p.
Proof.
  intros (q & [_ Hq] & Ha%unsaved_anc_back). specialize (Hq eq_refl eq_refl). exists q. split; [done|].
  eapply anc_back; [exact OK'|exact Hg| |exact Ha]. destruct (ho_ack _ _ _ OK _ _ _ Hq) as (q' & Htip & Hqq).
  eapply anc_is_valid; [exact OK|exact Hqq|]. by destruct (tip_valid _ _ _ OK _ _ Htip).
Qed.

Lemma unsaved_past (r : Raft T) :
  r_State r = StateFollower → r_Term r = t → r_Vote r = r_Vote (rn_Raft rn0) → tail (r_raftLog r) = tail (r_raftLog (rn_Raft rn0)) → past_inv U n r.
Proof.
  intros St Tm V Etl. pose proof (pi_past _ _ _ Hp) as [P1 P2 P3 P4 P5 _ P7]. rewrite -Et in P1 P2 P3 P4 P5 P7. pose proof unsaved_term as Et0.
  split; cbn; rewrite ?Tm ?St ?V ?Etl.
  - intros u c h b Hv. destruct (P1 _ _ _ _ Hv) as (? & ? & Hc). split_and!; [done..|]. intros E. rewrite (Hc E).
    destruct (pi_vote _ _ _ Hp0) as (h0 & b0 & Hv0); [by apply (pi_voted _ _ _ Hp0), unsaved_role|]. rewrite Et0 in Hv0.
    destruct (P1 _ _ _ _ (gr_vote _ _ _ Hg _ _ _ _ _ Hv0)) as (_ & _ & E0). by rewrite -E0.
  - intros u h Hc. split; [by eapply P2|done].
  - intros u h Hl. split; [by eapply P3|done].
  - intros u p [Ha _]. by eapply P4.
  - intros u p Hh. destruct (decide (u = t)) as [->|Hne].
    + destruct (pa_held _ _ _ (pi_past _ _ _ Hp0) t p (unsaved_held_back p Hh)) as [Ha|Hx]; rewrite ?Et0.
      * left. eapply unsaved_anc, anc_mono; [exact Hg|exact Ha].
      * right. rewrite Et0 in Hx. eapply unsaved_lost, lost_mono; [exact Hg| |exact Hx]. lia.
    + apply unsaved_held in Hh. destruct (P5 _ _ Hh) as [Ha|Hx]; [left|right; by apply unsaved_lost]. apply unsaved_anc, unsaved_old; [done|].
      destruct Hh as (q & Hq & Hpq). pose proof (P4 _ _ Hq). pose proof (onpath_term _ _ _ OK' _ _ (ho_ack _ _ _ OK' _ _ _ Hq)).
      pose proof (anc_term _ _ _ OK' _ _ Hpq). lia.
  - right. destruct (pi_lead _ _ _ Hp Hlead) as [_ [(h & Hl) _ _ _ _]]. rewrite -Et in Hl. by exists n, h.
  - intros u Hu. split; [by eapply P7|done].
Qed.

(** What is committed was acknowledged by another peer, so it was saved. *)
Lemma unsaved_chosen u q : chosen M S' u q → chosen M U u q.
Proof.
  intros (Eq & Htip & Q & HQ & Hh). split_and!; [done|exact Htip|]. exists Q. split; [done|]. intros v Hv.
  destruct (Hh v Hv) as (a & Ha & Hqa). destruct (decide (v = n ∧ u = t)) as [[-> ->]|Hne].
  - destruct (majority_other Q HQ) as (w & HwQ & Hwn). destruct (Hh w HwQ) as (b & Hb & Hqb).
    destruct (gr_ack_by _ _ _ Hg _ _ _ Hb) as [Hb0|]; [|done]. pose proof (ho_ack _ _ _ OK _ _ _ Hb0) as Hon.
    pose proof unsaved_term as Et0. destruct (r_State (rn_Raft rn0)) eqn:Hs; [by destruct unsaved_role|..].
    + exfalso. destruct (onpath_lead _ _ _ OK _ _ Hon) as (c & h & Hl0). destruct (pi_lead _ _ _ Hp Hlead) as [_ [(h' & Hl) _ _ _ _]]. rewrite -Et in Hl.
      destruct (ho_lead_fun _ _ _ OK' _ _ _ _ _ Hl (gr_lead _ _ _ Hg _ _ _ Hl0)) as [<- _].
      destruct (pa_lead _ _ _ (pi_past _ _ _ Hp0) _ _ Hl0) as [_ Hx]. by apply Hx.
    + rewrite -Et0 in Hon. pose proof (lead_onpath _ _ _ _ OK Hp0 Hs Hon) as Hbt.
      destruct (pi_lead _ _ _ Hp0 Hs) as [_ [_ _ _ _ Hself]]. rewrite Et0 in Hself.
      exists (tail (r_raftLog (rn_Raft rn0))). split; [split; [by apply (gr_ack _ _ _ Hg)|done]|].
      eapply unsaved_anc, anc_trans; [exact Hqb|]. eapply anc_mono; [exact Hg|exact Hbt].
  - exists a. split; [|by apply unsaved_anc]. split; [done|]. intros -> ->. by destruct Hne.
Qed.
Lemma unsaved_com u p : com M base S' u p → com M base U u p.
Proof.
  intros [->|(q & u' & ? & Hc & Ha)]; [by left|right]. exists q, u'. split_and!; [done|by apply unsaved_chosen|by apply unsaved_anc].
Qed.
Lemma unsaved_snap u sn : snap_fine (M := M) (base := base) S' u sn → snap_fine (M := M) (base := base) U u sn.
Proof. intros [? (md & ? & ? & ?)]. split; [done|]. exists md. split_and!; [done..|by apply unsaved_com]. Qed.

Lemma unsaved_msg m : m ∈ r_msgs (rn_Raft rn) → msg_inv U m.
Proof.
  intros Hm. destruct (pi_msgs _ _ _ Hp m Hm) as [[Hf Hi] Hfrom]. split; [exact Hf|]. destruct (MsgType m) eqn:Hty; try done.
  - destruct Hi as [? (? & ? & ? & ? & (q & Htip & ? & ? & He) & (p & ? & ? & ?))]. split; [done|]. split_and!; [done..| |].
    + exists q. split_and!; [exact Htip|done|by apply unsaved_anc|]. intros e Hin. destruct (He e Hin). split; [by apply unsaved_anc|done].
    + exists p. split_and!; [done|by apply unsaved_com|by apply unsaved_onpath].
  - intros Hr. destruct (Hi Hr) as (? & Hlf & q & Hq & ?). split_and!; [done..|]. exists q. split; [|done]. split; [done|]. intros _ Em. exfalso.
    rewrite Hfrom in Hlf. destruct (pa_left _ _ _ (pi_past _ _ _ Hp) _ Hlf) as [_ Hfo]. pose proof Hlead as Hl. rewrite Hfo in Hl; [done|]. congruence.
  - destruct Hi as (? & sn & md & ? & ? & ? & ?). split; [done|]. exists sn, md. split_and!; [done..|by apply unsaved_snap|by apply unsaved_onpath].
  - destruct Hi as (? & Hto & ? & Hc). split_and!; [done..|]. destruct Hc as [?|(p & ? & ? & (q & Hq & Ha))]; [by left|right].
    exists p. split_and!; [done|by apply unsaved_com|]. exists q. split; [|by apply unsaved_anc]. split; [done|]. congruence.
Qed.
End Unsaved.

Lemma send_safe S s n rn rn1 rd ms rn' st c :
  system_safe S s → sy_nodes s !! n = Some rn → rn_Ready rn = Ok (rn1, rd) → r_State (rn_Raft rn) = StateLeader → (∃ v, v ∈ M ∧ v ≠ n) →
  (∀ m, m ∈ ms → m ∈ rd_Messages rd) → sy_disks s !! n = Some st → starts_from n st (prevHardSt rn) c → NewRawNode c = Ok rn' →
  ∃ S', system_safe S' (mkSystem (<[n := rn']> (sy_nodes s)) (sy_disks s) (sy_net s ++ ms) (sy_applied s)).
Proof.
  intros [OK Hdom Hnet Happ Hnodes] Hn HR Hlead Hother Hms Hd Hs HN. destruct (Hnodes n rn Hn) as (rn0 & st' & G & Hd' & Hcl & HGf & Hr).
  rewrite Hd in Hd'. injection Hd' as <-. pose proof (cn_inv _ _ _ _ Hcl) as Hp0.
  destruct (peer_replay S s n rn OK Hnet (Hnodes n rn Hn)) as (S' & Hg & OK' & Hp & Hemp).
  destruct (Ready_Advance_state rn (li_wf _ _ (pi_log _ _ _ Hp)) Hemp) as (rd' & l' & soft & HR' & _ & _ & _ & _ & _ & Hmsg).
  rewrite HR' in HR. injection HR as _ <-.
  set (t := r_Term (rn_Raft rn)). pose proof (unsaved_extends S S' n t Hg) as HgU. pose proof (unsaved_ok S S' n t OK') as OKU.
  destruct (runs_inv _ _ _ _ _ _ Hr OK Hnet HGf Hp0) as [_ Epv]. rewrite Epv in Hs.
  destruct (restart_clean _ _ _ _ _ _ OK Hcl Hs HN) as (Hcl' & St & Tm & V & Etl). pose proof (cn_inv _ _ _ _ Hcl') as Hp'.
  exists (unsaved S S' n t). split; cbn; [done|by rewrite dom_insert_lookup_L|..].
  - intros m [Hm|Hm%Hms]%elem_of_app; [eapply msg_inv_mono; eauto|]. rewrite Hmsg in Hm. exact (unsaved_msg S S' n t OK OK' Hg _ G rn0 rn Hp0 Hnet HGf Hr Hp Hlead eq_refl Hother m Hm).
  - intros v e He. eapply settled_mono; [exact HgU|by eapply Happ].
  - intros n' x. cbn. destruct (decide (n' = n)) as [->|Hne].
    + rewrite lookup_insert_eq. intros [= <-]. apply (clean_safe _ _ _ _ st); [done|]. destruct Hcl' as [_ Hh Hpd Hst']. split; [|done..].
      eapply (peer_inv_turn M base S); [exact Hp'|exact HgU|done..| | |by rewrite St|by rewrite St|by rewrite St].
      * intros Hv. destruct (pi_vote _ _ _ Hp' Hv) as (h & b & Hw). exists h, b. by apply (gr_vote _ _ _ HgU).
      * refine (unsaved_past S S' n t OK OK' Hg _ G rn0 rn Hp0 Hnet HGf Hr Hp Hlead eq_refl Hother _ St _ V Etl).
        rewrite Tm. exact (unsaved_term S S' n t OK OK' Hg _ G rn0 rn Hp0 Hnet HGf Hr Hp Hlead eq_refl Hother).
    + rewrite lookup_insert_ne //. intros Hx. eapply (safe_others S _ s _ n' n); [done|done|exact HgU|congruence| |done|by apply Hnodes].
      intros m Hm. apply elem_of_app. by left.
Qed.


Lemma ready_safe S s n rn rn1 rd rn2 st dk :
  system_safe S s → sy_nodes s !! n = Some rn → rn_Ready rn = Ok (rn1, rd) → Advance rn1 rd = Ok rn2 →
  persisted (prevHardSt rn2) (r_raftLog (rn_Raft rn2)) st → persisted (prevHardSt rn2) (r_raftLog (rn_Raft rn2)) dk →
  ∃ S', system_safe S' (mkSystem (<[n := set_stored st rn2]> (sy_nodes s)) (<[n := dk]> (sy_disks s)) (sy_net s ++ rd_Messages rd)
      (sy_applied s ++ map (pair n) (rd_CommittedEntries rd))).
Proof.
  intros [OK Hdom Hnet Happ Hnodes] Hn HR HA Hper Hdk. destruct (peer_replay S s n rn OK Hnet (Hnodes n rn Hn)) as (S' & Hg & OK' & Hp & Hemp).
  pose proof (pi_log _ _ _ Hp) as L. destruct (Ready_Advance_state rn (li_wf _ _ L) Hemp) as (rd' & l' & soft & HR' & HA' & _ & Had & _ & Hce & Hms).
  rewrite HR' in HR. injection HR as <- <-. rewrite HA' in HA. injection HA as <-. cbn in Hper, Hdk.
  exists S'. split; cbn; [done|by rewrite dom_insert_lookup_L|..].
  - intros m [Hm|Hm]%elem_of_app; [eapply msg_inv_mono; eauto|]. rewrite Hms in Hm. by apply (pi_msgs _ _ _ Hp).
  - intros v e [He|He]%elem_of_app; [eapply settled_mono; [done|by eapply Happ]|]. apply list_elem_of_fmap in He as (e' & [= -> ->] & He).
    destruct Hce as [Hz Hr]. apply list_elem_of_lookup_1 in He as [k Hk]. pose proof (lookup_lt_Some _ _ _ Hk). unfold zlen in Hz.
    set (lo := Z.max _ _ + 1) in *. eapply (entry_settled S' n (rn_Raft rn) (lo + Z.of_nat k)); [done|done| |lia].
    rewrite -Hr; [|lia]. by replace (Z.to_nat (lo + Z.of_nat k - lo)) with k by lia.
  - intros n' rn'. cbn. destruct (decide (n' = n)) as [->|Hne].
    + rewrite lookup_insert_eq. intros [= <-]. apply (clean_safe _ _ _ _ dk); [cbn; by rewrite lookup_insert_eq|].
      assert (Ec : committed l' = committed (r_raftLog (rn_Raft rn))) by (by destruct Had as ([->| ->] & _)).
      split; cbn; [by eapply saved_inv|unfold hardState; cbn; by rewrite Ec|done|]. by destruct Had as ([->| ->] & _).
    + rewrite lookup_insert_ne //. intros Hn'. eapply (safe_others S S' s _ n' n); [done|done|done|congruence| |by cbn; rewrite lookup_insert_ne|by apply Hnodes].
      intros m Hm. apply elem_of_app. by left.
Qed.

(** ** Compacting *)

(** A compacted disk still persists the log, and its snapshots are fine. *)
Lemma refitted_disk S n rn0 l st dk dk' :
  history_ok S → clean S n rn0 dk → applied l = applied (r_raftLog (rn_Raft rn0)) → refitted (prevHardSt rn0) l st dk dk' →
  clean S n rn0 dk' ∧ ∀ sn, gives st sn → snap_fine (M := M) (base := base) S (r_Term (rn_Raft rn0)) sn.
Proof.
  intros OK [Hp Eh (_ & l0 & Hl & Hw & Ela & Esl & Hi & Et & Ee & _) Hst] Ea (_ & Hin & l0' & l1 & Hl0 & Hl1 & Hw1 & Ela1 & Esl1 & Hi1 & Et1 & Ee1 & Hsn).
  rewrite Hl0 in Hl. injection Hl as ->. pose proof (lw_stable _ Hw1). assert (Ec : hs_Commit (prevHardSt rn0) = committed (r_raftLog (rn_Raft rn0))) by (by rewrite Eh).
  rewrite Ec in Hsn.
  assert (Hpos : ∀ sn, gives st sn ∨ gives dk' sn → snap_members M sn ∧ ∃ md, sp_Metadata sn = Some md ∧
    snapIndex l1 ≤ md_Index md ≤ committed (r_raftLog (rn_Raft rn0)) ∧ term_at (r_raftLog (rn_Raft rn0)) (md_Index md) = Some (md_Term md)).
  { intros sn Hg. destruct (Hsn sn Hg) as [? (md & ? & ? & Ht)]. split; [done|]. exists md. split_and!; [done|lia|lia|]. rewrite -Ht Et1; [|lia]. symmetry. apply Et. lia. }
  split.
  - split; [done|done| |done]. split; [done|]. exists l1. split_and!; [done|done|lia|lia|lia|lia| | |].
    + intros i Hi'. rewrite Et1 // Et //. lia.
    + intros i Hi'. rewrite Ee1 // Ee //. lia.
    + intros sn Hg. by apply Hpos; right.
  - intros sn Hg. destruct (Hpos sn (or_introl Hg)) as [? (md & ? & ? & ?)]. pose proof (lw_snap _ Hw1). eapply pos_fine; [done..| |done]. lia.
Qed.

Lemma store_safe S s n rn st dk dk' :
  system_safe S s → sy_nodes s !! n = Some rn → sy_disks s !! n = Some dk → refitted (prevHardSt rn) (r_raftLog (rn_Raft rn)) st dk dk' →
  system_safe S (mkSystem (<[n := set_stored st rn]> (sy_nodes s)) (<[n := dk']> (sy_disks s)) (sy_net s) (sy_applied s)).
Proof.
  intros [OK Hdom Hnet Happ Hnodes] Hn Hd Href. split; cbn; [done|by rewrite dom_insert_lookup_L|done|done|]. intros n' x.
  destruct (decide (n' = n)) as [->|Hne]; [rewrite lookup_insert_eq; intros [= <-]|rewrite lookup_insert_ne //; intros Hx].
  - destruct (Hnodes n rn Hn) as (rn0 & dk0 & G & Hd' & Hcl & HGf & Hr). rewrite Hd in Hd'. injection Hd' as <-.
    destruct (runs_inv _ _ _ _ _ _ Hr OK Hnet HGf (cn_inv _ _ _ _ Hcl)) as [_ Epv]. rewrite Epv in Href.
    destruct (refitted_disk _ _ _ _ _ _ _ OK Hcl (runs_applied _ _ _ _ _ Hr) Href) as [Hcl' Hsf].
    exists rn0, dk', (λ sn, G sn ∨ gives st sn). split_and!; [by cbn; rewrite lookup_insert_eq|done|intros sn [?|?]; auto|].
    eapply rtc_r; [eapply runs_mono; [| |exact Hr]; [done|auto]|]. right. exists st. split_and!; [done|apply Href|auto].
  - destruct (Hnodes n' x Hx) as (x0 & stx & G & Hdx & Hrest). exists x0, stx, G. split; [by cbn; rewrite lookup_insert_ne|exact Hrest].
Qed.

Lemma system_step_safe S s s' : system_safe S s → system_step s s' → ∃ S', system_safe S' s'.
Proof.
  intros Hsafe Hstep. pose proof Hsafe as [OK Hdom Hnet Happ Hnodes].
  destruct Hstep as [n rn rn' Hn Hc|n rn st dk dk' Hn Hd Href|n rn rn1 rd rn2 st dk Hn HR HA Hper Hdk|n rn rn' st c Hn Hd Hs HN|n rn rn1 rd ms rn' st c Hn HR Hl Ho Hms Hd Hs HN];
    [|exists S; by eapply store_safe|by eapply (ready_safe S s n rn)| |by eapply (send_safe S s n rn)].
  - exists S. split; cbn; [done|by rewrite dom_insert_lookup_L|done|done|]. intros n' x.
    destruct (decide (n' = n)) as [->|Hne]; [rewrite lookup_insert_eq|rewrite lookup_insert_ne //; apply Hnodes].
    intros [= <-]. destruct (Hnodes n rn Hn) as (rn0 & st & G & Hd & Hcl & HGf & Hr). exists rn0, st, G. split_and!; [done..|]. eapply rtc_r; [exact Hr|by left].
  - exists S. split; cbn; [done|by rewrite dom_insert_lookup_L|done|done|]. intros n' x.
    destruct (decide (n' = n)) as [->|Hne]; [rewrite lookup_insert_eq|rewrite lookup_insert_ne //; apply Hnodes].
    intros [= <-]. destruct (Hnodes n rn Hn) as (rn0 & st' & G & Hd' & Hcl & HGf & Hr). rewrite Hd in Hd'. injection Hd' as <-.
    destruct (runs_inv _ _ _ _ _ _ Hr OK Hnet HGf (cn_inv _ _ _ _ Hcl)) as [_ Epv]. rewrite Epv in Hs.
    apply (clean_safe _ _ _ _ st); [done|by eapply restart_clean].
Qed.

Lemma system_reachable_safe s : system_reachable s → ∃ S, system_safe S s.
Proof.
  induction 1 as [s (Hdom & Hnet & Happ & Hinit)|s s' _ [S IH] Hstep]; [|by eapply system_step_safe].
  exists no_history. split; [apply no_history_ok|done|rewrite Hnet; by intros m Hm%not_elem_of_nil|rewrite Happ; by intros n e He%not_elem_of_nil|].
  intros n rn Hn. destruct (Hinit n rn Hn) as (st & Hd & Hp). apply (clean_safe _ _ _ _ st); [done|].
  apply init_clean; [|done]. rewrite -Hdom. by apply elem_of_dom.
Qed.

(** Any two peers belong to one history. *)
Lemma two_peers s n1 n2 rn1 rn2 :
  system_reachable s → sy_nodes s !! n1 = Some rn1 → sy_nodes s !! n2 = Some rn2 →
  ∃ S, history_ok S ∧ peer_inv S n1 (rn_Raft rn1) ∧ peer_inv S n2 (rn_Raft rn2) ∧ ∀ n e, (n, e) ∈ sy_applied s → settled S e.
Proof.
  intros [S [OK _ Hnet Happ Hnodes]]%system_reachable_safe H1 H2.
  destruct (peer_replay S s n1 rn1 OK Hnet (Hnodes _ _ H1)) as (S1 & Hg1 & OK1 & Hp1 & _).
  destruct (decide (n1 = n2)) as [->|Hne]; [rewrite H1 in H2; injection H2 as <-; exists S1; split_and!; [done..|]; intros; eapply settled_mono; [exact Hg1|by eapply Happ]|].
  assert (Hs2 : peer_safe S1 s n2 rn2) by (eapply (safe_others S S1 s s n2 n1); [done|done|done|done|done|done|by apply Hnodes]).
  assert (Hnet1 : ∀ m, m ∈ sy_net s → msg_inv S1 m) by (intros m Hm; eapply msg_inv_mono; eauto).
  destruct (peer_replay S1 s n2 rn2 OK1 Hnet1 Hs2) as (S2 & Hg2 & OK2 & Hp2 & _).
  exists S2. split_and!; [done| |done|intros; eapply settled_mono; [exact Hg2|]; eapply settled_mono; [exact Hg1|by eapply Happ]]. exact (peer_inv_others S1 S2 n1 n2 (rn_Raft rn1) OK1 OK2 Hg2 (not_eq_sym Hne) Hp1).
Qed.

(** ** Safety *)

(** C17: Election safety.  Whatever the peers do, however the network delays,
    loses, repeats or reorders their messages, and wherever they crash, even a
    leader that has sent what it has not saved, at most one peer leads in each
    term: two peers that lead in one term are the same peer, two messages only a
    leader sends that carry one term come from the same peer, and a leader's term
    appears in no other peer's such messages. *)
Theorem election_safety s :
  system_reachable s →
  (∀ n1 n2 rn1 rn2, sy_nodes s !! n1 = Some rn1 → sy_nodes s !! n2 = Some rn2 →
    r_State (rn_Raft rn1) = StateLeader → r_State (rn_Raft rn2) = StateLeader →
    r_Term (rn_Raft rn1) = r_Term (rn_Raft rn2) → n1 = n2) ∧
  (∀ m1 m2, m1 ∈ sy_net s → m2 ∈ sy_net s → from_leader (MsgType m1) = true → from_leader (MsgType m2) = true →
    m_Term m1 = m_Term m2 → From m1 = From m2) ∧
  (∀ n rn m, sy_nodes s !! n = Some rn → m ∈ sy_net s → r_State (rn_Raft rn) = StateLeader →
    from_leader (MsgType m) = true → m_Term m = r_Term (rn_Raft rn) → From m = n).
Proof.
  intros Hs. split_and!.
  - intros n1 n2 rn1 rn2 H1 H2 S1 S2 E. destruct (two_peers _ _ _ _ _ Hs H1 H2) as (S & OK & Hp1 & Hp2 & _).
    destruct (pi_lead _ _ _ Hp1 S1) as [_ [[h1 L1] _ _ _ _]], (pi_lead _ _ _ Hp2 S2) as [_ [[h2 L2] _ _ _ _]].
    rewrite E in L1. by destruct (ho_lead_fun _ _ _ OK _ _ _ _ _ L1 L2).
  - intros m1 m2 H1 H2 F1 F2 E. destruct (system_reachable_safe s Hs) as [S [OK _ Hnet _ _]].
    destruct (Hnet _ H1) as [[_ [h1 L1]%(λ f, f F1)] _], (Hnet _ H2) as [[_ [h2 L2]%(λ f, f F2)] _].
    rewrite E in L1. by destruct (ho_lead_fun _ _ _ OK _ _ _ _ _ L1 L2).
  - intros n rn m Hn Hm St F E. destruct (system_reachable_safe s Hs) as [S [OK _ Hnet _ Hnodes]].
    destruct (Hnet _ Hm) as [[_ [h1 L1]%(λ f, f F)] _].
    destruct (peer_replay S s n rn OK Hnet (Hnodes n rn Hn)) as (S' & Hg & OK' & Hp & _). apply (gr_lead _ _ _ Hg) in L1.
    destruct (pi_lead _ _ _ Hp St) as [_ [[h2 L2] _ _ _ _]]. rewrite E in L1. by destruct (ho_lead_fun _ _ _ OK' _ _ _ _ _ L1 L2).
Qed.

(** What any two peers have handed to their stores. *)
Lemma applied_same s n1 n2 e1 e2 :
  system_reachable s → (n1, e1) ∈ sy_applied s → (n2, e2) ∈ sy_applied s → e_Index e1 = e_Index e2 → e1 = e2.
Proof. intros Hs H1 H2 E. destruct (system_reachable_safe s Hs) as [S [OK _ _ Happ _]]. eauto using settled_same. Qed.

(** Two entries at one position of the tree are the same. *)
Lemma same_entry S l1 l2 i e1 e2 :
  history_ok S → log_inv (base := base) S l1 → log_inv (base := base) S l2 → entry_at l1 i = Some e1 → entry_at l2 i = Some e2 → e_Term e1 = e_Term e2 → e1 = e2.
Proof.
  intros OK L1 L2 H1 H2 E. destruct (li_entry _ _ L1 _ _ H1) as (c1 & pt1 & He1), (li_entry _ _ L2 _ _ H2) as (c2 & pt2 & He2).
  rewrite E in He1. by destruct (ho_edge_fun _ _ _ OK _ _ _ _ _ _ _ _ He1 He2).
Qed.

(** C1: State machine safety.  Whatever the peers of a group do, however the
    network delays, loses, repeats or reorders their messages, and wherever they
    crash and restart from their disks: if some peer has ever handed an entry to
    its store as committed, no peer ever hands out a different entry with the
    same index, and every log that has the index committed holds that entry
    there; two logs agree on every entry both have committed. *)
Theorem state_machine_safety s :
  system_reachable s →
  (∀ n1 n2 e1 e2, (n1, e1) ∈ sy_applied s → (n2, e2) ∈ sy_applied s → e_Index e1 = e_Index e2 → e1 = e2) ∧
  (∀ n1 n2 rn2 e1 e2, (n1, e1) ∈ sy_applied s → sy_nodes s !! n2 = Some rn2 →
    let l2 := r_raftLog (rn_Raft rn2) in
    e_Index e1 ≤ committed l2 → entry_at l2 (e_Index e1) = Some e2 → e1 = e2) ∧
  (∀ n1 n2 rn1 rn2 i e1 e2, sy_nodes s !! n1 = Some rn1 → sy_nodes s !! n2 = Some rn2 →
    let l1 := r_raftLog (rn_Raft rn1) in let l2 := r_raftLog (rn_Raft rn2) in
    i ≤ committed l1 → i ≤ committed l2 → entry_at l1 i = Some e1 → entry_at l2 i = Some e2 → e1 = e2).
Proof.
  intros Hs. split_and!.
  - intros n1 n2 e1 e2 H1 H2 E. by eapply applied_same.
  - intros n1 n2 rn2 e1 e2 H1 H2 l2 Hc He. destruct (two_peers _ _ _ _ _ Hs H2 H2) as (S & OK & Hp & _ & Happ).
    eapply settled_same; [done|by eapply Happ|exact (entry_settled _ _ _ _ _ OK Hp He Hc)|]. by destruct (entry_at_Some _ _ _ (li_wf _ _ (pi_log _ _ _ Hp)) He).
  - intros n1 n2 rn1 rn2 i e1 e2 H1 H2 l1 l2 Hc1 Hc2 He1 He2. destruct (two_peers _ _ _ _ _ Hs H1 H2) as (S & OK & Hp1 & Hp2 & _).
    eapply settled_same; [done|exact (entry_settled _ _ _ _ _ OK Hp1 He1 Hc1)|exact (entry_settled _ _ _ _ _ OK Hp2 He2 Hc2)|].
    destruct (entry_at_Some _ _ _ (li_wf _ _ (pi_log _ _ _ Hp1)) He1) as [_ ->].
    by destruct (entry_at_Some _ _ _ (li_wf _ _ (pi_log _ _ _ Hp2)) He2) as [_ ->].
Qed.

(** C18: Log matching.  In every reachable state, if the logs of two peers have
    the same term at some index, then below that index they have the same term
    at every index and the same entry wherever both still hold one. *)
Theorem log_matching s n1 n2 rn1 rn2 i t :
  system_reachable s → sy_nodes s !! n1 = Some rn1 → sy_nodes s !! n2 = Some rn2 →
  let l1 := r_raftLog (rn_Raft rn1) in let l2 := r_raftLog (rn_Raft rn2) in
  term_at l1 i = Some t → term_at l2 i = Some t →
  ∀ j, j ≤ i → (∀ t1 t2, term_at l1 j = Some t1 → term_at l2 j = Some t2 → t1 = t2) ∧
    ∀ e1 e2, entry_at l1 j = Some e1 → entry_at l2 j = Some e2 → e1 = e2.
Proof.
  intros Hs H1 H2 l1 l2 Ht1 Ht2 j Hj. destruct (two_peers _ _ _ _ _ Hs H1 H2) as (S & OK & Hp1 & Hp2 & _).
  pose proof (pi_log _ _ _ Hp1) as L1. pose proof (pi_log _ _ _ Hp2) as L2.
  assert (Hterm : ∀ t1 t2, term_at l1 j = Some t1 → term_at l2 j = Some t2 → t1 = t2).
  { intros t1 t2 Hj1 Hj2. eapply (anc_same _ _ _ OK j _ _ (i, t)).
    - eapply anc_linear; [done|by apply (li_term _ _ L1)|by apply (li_term _ _ L1)|done].
    - eapply anc_linear; [done|by apply (li_term _ _ L2)|by apply (li_term _ _ L2)|done]. }
  split; [done|]. intros e1 e2 He1 He2. eapply same_entry; [done|exact L1|exact L2|done..|].
  apply Hterm; [apply entry_term, He1; apply L1|apply entry_term, He2; apply L2].
Qed.

(** C19: Leader completeness.  A leader has everything that any peer has
    committed in an earlier term or its own: its log reaches the other's commit
    index, and agrees with the other's committed entries. *)
Theorem leader_completes s n1 n2 rn1 rn2 i t :
  system_reachable s → sy_nodes s !! n1 = Some rn1 → sy_nodes s !! n2 = Some rn2 →
  let l1 := r_raftLog (rn_Raft rn1) in let l2 := r_raftLog (rn_Raft rn2) in
  r_State (rn_Raft rn1) = StateLeader → r_Term (rn_Raft rn2) ≤ r_Term (rn_Raft rn1) →
  i ≤ committed l2 → term_at l2 i = Some t →
  i ≤ last_index l1 ∧ (snapIndex l1 ≤ i → term_at l1 i = Some t) ∧
  ∀ e, entry_at l2 i = Some e → snapIndex l1 < i → entry_at l1 i = Some e.
Proof.
  intros Hs H1 H2 l1 l2 Hst Hle Hi Ht. subst l1 l2. destruct (two_peers _ _ _ _ _ Hs H1 H2) as (S & OK & Hp1 & Hp2 & _).
  pose proof (pi_log _ _ _ Hp1) as L1. pose proof (pi_log _ _ _ Hp2) as L2.
  destruct (com_lead _ _ _ _ _ OK Hp1 Hst (entry_com _ _ _ _ _ OK Hp2 Ht Hi) Hle) as [Ha _].
  assert (Hlast : i ≤ last_index (r_raftLog (rn_Raft rn1))) by (apply anc_index in Ha; done).
  assert (Hterm : snapIndex (r_raftLog (rn_Raft rn1)) ≤ i → term_at (r_raftLog (rn_Raft rn1)) i = Some t) by (intros Hsi; by eapply term_at_anc).
  split_and!; [done..|]. intros e He Hsi. destruct (entry_at_is_Some _ i (li_wf _ _ L1)) as [e1 He1]; [rewrite (lw_off _ (li_wf _ _ L1)); lia|].
  rewrite He1. f_equal. eapply same_entry; [done|exact L1|exact L2|done..|].
  pose proof (entry_term _ _ _ (li_wf _ _ L1) He1) as E1. pose proof (entry_term _ _ _ (li_wf _ _ L2) He) as E2.
  rewrite Hterm in E1; [|lia]. congruence.
Qed.
End Group.
