(* ===== verification/Peer.v ===== *)
(** A peer of a region: kv/raftstore/peer.go, with the tickers of
    kv/raftstore/ticker.go.

    A peer drives a raft node ([RaftGroup]) whose log reads the peer's storage;
    [peerStorage] is the storage under that log, which is the pointer the code keeps
    in both places.  Channels and the transport are modelled by what has been sent on
    them ([outbox]); callbacks live in a heap, as in Applier.  The clock is an
    argument.  Logging is left out. *)

From S2P Require Import Prelude Pb RaftPb RaftStorage RaftLog Raft RawNode Engine RaftMeta PeerStorage RaftCmd Applier Cluster.

(** ** ticker.go *)

Inductive PeerTick := PeerTickRaft | PeerTickRaftLogGC | PeerTickSplitRegionCheck | PeerTickSchedulerHeartbeat.
Inductive StoreTick := StoreTickSchedulerStoreHeartbeat | StoreTickSnapGC.
Definition tick_index (tp : PeerTick) : nat :=
  match tp with PeerTickRaft => 0 | PeerTickRaftLogGC => 1 | PeerTickSplitRegionCheck => 2 | PeerTickSchedulerHeartbeat => 3 end.
Definition store_tick_index (tp : StoreTick) : nat :=
  match tp with StoreTickSchedulerStoreHeartbeat => 1 | StoreTickSnapGC => 2 end.

Record tickSchedule := mkTickSchedule { runAt : Z; interval : Z }.
Record ticker := mkTicker { tk_regionID : Z; tk_tick : Z; schedules : list tickSchedule }.

(** The fields of the configuration that the peers read; durations in nanoseconds. *)
Record config := mkConfiguration {
  RaftElectionTimeoutTicks : Z; RaftHeartbeatTicks : Z; RaftBaseTickInterval : Z; RaftLogGCTickInterval : Z;
  SplitRegionCheckTickInterval : Z; SchedulerHeartbeatTickInterval : Z; SchedulerStoreHeartbeatTickInterval : Z;
  RaftLogGcCountLimit : Z; RegionSplitSize : Z
}.
Definition SnapMgrGcTickInterval : Z := 60 * 10 ^ 9.

Definition set_interval (i : nat) (x : Z) (l : list tickSchedule) : list tickSchedule :=
  alter (λ s, mkTickSchedule (runAt s) x) i l.
(** A quotient of two durations, which truncates and panics on zero. *)
Definition go_quot {E} (a b : Z) : outcome E Z := if decide (b = 0) then Panic "integer divide by zero" else Ok (Z.quot a b).

Definition newTicker {E} (regionID : Z) (cfg : config) : outcome E ticker :=
  let base := RaftBaseTickInterval cfg in
  let ss := set_interval 0 1 (replicate 6 (mkTickSchedule 0 0)) in
  q1 ← go_quot (RaftLogGCTickInterval cfg) base;
  q2 ← go_quot (SplitRegionCheckTickInterval cfg) base;
  q3 ← go_quot (SchedulerHeartbeatTickInterval cfg) base;
  Ok (mkTicker regionID 0 (set_interval 3 q3 (set_interval 2 q2 (set_interval 1 q1 ss)))).

Definition newStoreTicker {E} (cfg : config) : outcome E ticker :=
  let base := RaftBaseTickInterval cfg in
  q1 ← go_quot (SchedulerStoreHeartbeatTickInterval cfg) base;
  q2 ← go_quot SnapMgrGcTickInterval base;
  Ok (mkTicker 0 0 (set_interval 2 q2 (set_interval 1 q1 (replicate 4 (mkTickSchedule 0 0))))).

Definition tickClock (t : ticker) : ticker := mkTicker (tk_regionID t) (tk_tick t + 1) (schedules t).

Definition schedule_at (i : nat) (t : ticker) : ticker :=
  mkTicker (tk_regionID t) (tk_tick t)
    (alter (λ s, if decide (interval s ≤ 0) then mkTickSchedule (-1) (interval s)
                 else mkTickSchedule (tk_tick t + interval s) (interval s)) i (schedules t)).
Definition tick_schedule (tp : PeerTick) (t : ticker) : ticker := schedule_at (tick_index tp) t.
Definition scheduleStore (tp : StoreTick) (t : ticker) : ticker := schedule_at (store_tick_index tp) t.

Definition is_on (i : nat) (t : ticker) : bool :=
  match schedules t !! i with Some s => bool_decide (runAt s = tk_tick t) | None => false end.
Definition isOnTick (tp : PeerTick) (t : ticker) : bool := is_on (tick_index tp) t.
Definition isOnStoreTick (tp : StoreTick) (t : ticker) : bool := is_on (store_tick_index tp) t.

(** ** Messages *)

(** [RaftMessage] of raft_serverpb *)
Record RaftMessage := mkRaftMessage {
  rm_RegionId : Z;
  FromPeer : option metapb.Peer;
  ToPeer : option metapb.Peer;
  rm_Message : option Message;
  rm_RegionEpoch : option metapb.RegionEpoch;
  IsTombstone : bool;
  rm_StartKey : bytes;
  rm_EndKey : bytes
}.

(** Tasks for the scheduler worker and for the other workers. *)
Inductive scheduler_task :=
| SchedulerRegionHeartbeatTask (Region : metapb.Region) (Peer : metapb.Peer) (PendingPeers : list metapb.Peer) (ApproximateSize : option Z)
| SchedulerAskSplitTask (Region : metapb.Region) (SplitKey : bytes) (Peer : metapb.Peer) (Callback : option Z)
| SchedulerStoreHeartbeatTask (StoreId RegionCount : Z).

Record outbox := mkOutbox { o_trans : list RaftMessage; o_scheduler : list scheduler_task }.
Definition send_out (m : RaftMessage) (o : outbox) : outbox := mkOutbox (o_trans o ++ [m]) (o_scheduler o).
Definition send_task (t : scheduler_task) (o : outbox) : outbox := mkOutbox (o_trans o) (o_scheduler o ++ [t]).

(** An error of raft, of the engine or of the peer as an error of the raft store. *)
Definition raft_error_text (e : raft_error) : string :=
  match e with
  | ErrCompacted => "requested index is unavailable due to compaction"
  | ErrSnapOutOfDate => "requested index is older than the existing snapshot"
  | ErrUnavailable => "requested entry at index is unavailable"
  | ErrSnapshotTemporarilyUnavailable => "snapshot is temporarily unavailable"
  | ErrProposalDropped => "raft proposal dropped"
  | ErrStepLocalMsg => "raft: cannot step raft local message"
  | ErrStepPeerNotFound => "raft: cannot step as peer not found"
  | ErrConfig w | ErrOther w => w
  end.
Definition of_raft (e : raft_error) : cmd_error := ErrMsg (Sprintf (raft_error_text e) []).
Definition of_engine (e : engine_error) : cmd_error :=
  ErrMsg (Sprintf match e with ErrKeyNotFound => "Key not found" | ErrUnmarshal => "proto: cannot parse" end []).
Definition with_err {E E' A} (f : E → E') (c : outcome E A) : outcome E' A :=
  match c with Ok a => Ok a | Err e => Err (f e) | Panic w => Panic w | OutOfFuel => OutOfFuel end.
(** A call that has no error to return. *)
Definition must {E E' A} (c : outcome E A) : outcome E' A :=
  match c with Ok a => Ok a | Err _ => Panic "panic(err)" | Panic w => Panic w | OutOfFuel => OutOfFuel end.

Definition Quorum (total : Z) : Z := total / 2 + 1.

Inductive RequestPolicy := RequestPolicy_ProposeNormal | RequestPolicy_ProposeTransferLeader | RequestPolicy_ProposeConfChange | RequestPolicy_Invalid.

Definition getTransferLeaderCmd (req : RaftCmdRequest) : option TransferLeaderRequest := rc_AdminRequest req ≫= ar_TransferLeader.

Definition makeTransferLeaderResponse : RaftCmdResponse :=
  mkRaftCmdResponse (Some empty_header) [] (Some (mkAdminResponse AdminCmdType_TransferLeader None None (Some tt) None)).

(** The loop of [inspect] over the requests. *)
Fixpoint inspect_loop (reqs : list Request) (hasRead hasWrite : bool) : outcome cmd_error RequestPolicy :=
  match reqs with
  | [] => Ok RequestPolicy_ProposeNormal
  | r :: reqs =>
    match rq_CmdType r with
    | CmdType_Invalid => Err (ErrMsg (Sprintf "invalid cmd type %v, message maybe corrupted" [FZ 0]))
    | CmdType_Get | CmdType_Snap =>
      if hasWrite then Err (ErrMsg (Sprintf "read and write can't be mixed in one request." [])) else inspect_loop reqs true hasWrite
    | CmdType_Delete | CmdType_Put =>
      if hasRead then Err (ErrMsg (Sprintf "read and write can't be mixed in one request." [])) else inspect_loop reqs hasRead true
    end
  end.
Definition inspect (req : RaftCmdRequest) : outcome cmd_error RequestPolicy :=
  match rc_AdminRequest req with
  | Some _ =>
    match GetChangePeerCmd req, getTransferLeaderCmd req with
    | Some _, _ => Ok RequestPolicy_ProposeConfChange
    | None, Some _ => Ok RequestPolicy_ProposeTransferLeader
    | None, None => inspect_loop (rc_Requests req) false false
    end
  | None => inspect_loop (rc_Requests req) false false
  end.

(** ** The peer *)

Section Peer.
Context {D : Type} `{!Badger D} {HG : GoEnv}.
Context `{!Proto Entry, !Proto RaftLocalState, !Proto RaftApplyState, !Proto RegionLocalState, !Proto RaftSnapshotData}.
Context `{!Proto RaftCmdRequest, !Proto metapb.Region, !Proto ConfChange}.
Notation heap := (gmap Z (Callback (D := D))).
Notation RawNode := (RawNode (PeerStorage D)).

(** [p_tape] counts how often a map of the peer has been ranged over, for [go_range]. *)
Record peer := mkPeerState {
  stopped : bool;
  p_ticker : ticker;
  Meta : metapb.Peer;
  regionId : Z;
  RaftGroup : RawNode;
  applyProposals : list proposal;
  peerCache : gmap Z metapb.Peer;
  PeersStartPendingTime : gmap Z Z;
  SizeDiffHint : Z;
  ApproximateSize : option Z;
  LastApplyingIdx : Z;
  LastCompactedIdx : Z;
  p_tape : nat
}.
Implicit Types (p : peer) (h : heap) (o : outbox).

Definition set_stopped (x : bool) p : peer :=
  mkPeerState x (p_ticker p) (Meta p) (regionId p) (RaftGroup p) (applyProposals p) (peerCache p) (PeersStartPendingTime p) (SizeDiffHint p) (ApproximateSize p) (LastApplyingIdx p) (LastCompactedIdx p) (p_tape p).
Definition set_ticker (x : ticker) p : peer :=
  mkPeerState (stopped p) x (Meta p) (regionId p) (RaftGroup p) (applyProposals p) (peerCache p) (PeersStartPendingTime p) (SizeDiffHint p) (ApproximateSize p) (LastApplyingIdx p) (LastCompactedIdx p) (p_tape p).
Definition set_RaftGroup (x : RawNode) p : peer :=
  mkPeerState (stopped p) (p_ticker p) (Meta p) (regionId p) x (applyProposals p) (peerCache p) (PeersStartPendingTime p) (SizeDiffHint p) (ApproximateSize p) (LastApplyingIdx p) (LastCompactedIdx p) (p_tape p).
Definition set_applyProposals (x : list proposal) p : peer :=
  mkPeerState (stopped p) (p_ticker p) (Meta p) (regionId p) (RaftGroup p) x (peerCache p) (PeersStartPendingTime p) (SizeDiffHint p) (ApproximateSize p) (LastApplyingIdx p) (LastCompactedIdx p) (p_tape p).
Definition set_peerCache (x : gmap Z metapb.Peer) p : peer :=
  mkPeerState (stopped p) (p_ticker p) (Meta p) (regionId p) (RaftGroup p) (applyProposals p) x (PeersStartPendingTime p) (SizeDiffHint p) (ApproximateSize p) (LastApplyingIdx p) (LastCompactedIdx p) (p_tape p).
Definition set_PendingTime (x : gmap Z Z) p : peer :=
  mkPeerState (stopped p) (p_ticker p) (Meta p) (regionId p) (RaftGroup p) (applyProposals p) (peerCache p) x (SizeDiffHint p) (ApproximateSize p) (LastApplyingIdx p) (LastCompactedIdx p) (p_tape p).
Definition set_SizeDiffHint (x : Z) p : peer :=
  mkPeerState (stopped p) (p_ticker p) (Meta p) (regionId p) (RaftGroup p) (applyProposals p) (peerCache p) (PeersStartPendingTime p) x (ApproximateSize p) (LastApplyingIdx p) (LastCompactedIdx p) (p_tape p).
Definition set_ApproximateSize (x : option Z) p : peer :=
  mkPeerState (stopped p) (p_ticker p) (Meta p) (regionId p) (RaftGroup p) (applyProposals p) (peerCache p) (PeersStartPendingTime p) (SizeDiffHint p) x (LastApplyingIdx p) (LastCompactedIdx p) (p_tape p).
Definition set_LastApplyingIdx (x : Z) p : peer :=
  mkPeerState (stopped p) (p_ticker p) (Meta p) (regionId p) (RaftGroup p) (applyProposals p) (peerCache p) (PeersStartPendingTime p) (SizeDiffHint p) (ApproximateSize p) x (LastCompactedIdx p) (p_tape p).
Definition set_LastCompactedIdx (x : Z) p : peer :=
  mkPeerState (stopped p) (p_ticker p) (Meta p) (regionId p) (RaftGroup p) (applyProposals p) (peerCache p) (PeersStartPendingTime p) (SizeDiffHint p) (ApproximateSize p) (LastApplyingIdx p) x (p_tape p).
Definition set_p_tape (x : nat) p : peer :=
  mkPeerState (stopped p) (p_ticker p) (Meta p) (regionId p) (RaftGroup p) (applyProposals p) (peerCache p) (PeersStartPendingTime p) (SizeDiffHint p) (ApproximateSize p) (LastApplyingIdx p) (LastCompactedIdx p) x.

Definition p_Raft p : Raft (PeerStorage D) := rn_Raft (RaftGroup p).
Definition peerStorage p : PeerStorage D := storage (r_raftLog (p_Raft p)).
Definition set_peerStorage (ps : PeerStorage D) p : peer := set_RaftGroup (set_stored ps (RaftGroup p)) p.

Definition p_Region p : metapb.Region := region (peerStorage p).
Definition p_SetRegion (rg : metapb.Region) p : peer := set_peerStorage (SetRegion rg (peerStorage p)) p.
Definition Tag p : text := Sprintf "[region %v] %v" [FZ (regionId p); FZ (metapb.Peer_Id (Meta p))].
Definition PeerId p : Z := metapb.Peer_Id (Meta p).
Definition storeID p : Z := metapb.StoreId (Meta p).
Definition p_Term p : Z := r_Term (p_Raft p).
Definition LeaderId p : Z := r_Lead (p_Raft p).
Definition IsLeader p : bool := bool_decide (r_State (p_Raft p) = StateLeader).
Definition p_isInitialized p : bool := isInitialized (peerStorage p).
Definition HasPendingSnapshot p : bool := bool_decide (is_Some (rn_GetSnap (RaftGroup p))).
Definition nextProposalIndex p : outcome cmd_error Z := li ← must (LastIndex (r_raftLog (p_Raft p))); Ok (u64 (li + 1)).

Definition NotifyStaleReq (term : Z) (cb : option Z) h : heap := cb_Done cb (Some (ErrRespStaleCommand term)) h.
Definition NotifyReqRegionRemoved (regionId : Z) (cb : option Z) h : heap := cb_Done cb (Some (ErrResp (ErrRegionNotFound regionId))) h.

(** ** Creation *)

Definition NewPeer (storeId : Z) (cfg : config) (engines : Engines D) (rg : metapb.Region) (meta : metapb.Peer) : outcome cmd_error peer :=
  if decide (metapb.Peer_Id meta = 0) then Err (ErrMsg (Sprintf "invalid peer id" []))
  else
    ps ← with_err of_engine (NewPeerStorage engines rg (metapb.Peer_Id meta));
    appliedIndex ← must (ps_AppliedIndex ps);
    raftGroup ← with_err of_raft
      (NewRawNode (mkConfig (metapb.Peer_Id meta) [] (RaftElectionTimeoutTicks cfg) (RaftHeartbeatTicks cfg) (Some ps) appliedIndex));
    tk ← newTicker (metapb.Id rg) cfg;
    let p := mkPeerState false tk meta (metapb.Id rg) raftGroup [] ∅ ∅ 0 None appliedIndex 0 0 in
    match metapb.Peers rg with
    | [peer] =>
      if decide (metapb.StoreId peer = storeId) then
        '(rn, e) ← with_err of_raft (Campaign (RaftGroup p));
        match e with None => Ok (set_RaftGroup rn p) | Some e => Err (of_raft e) end
      else Ok p
    | _ => Ok p
    end.

Definition createPeer (storeID : Z) (cfg : config) (engines : Engines D) (rg : metapb.Region) : outcome cmd_error peer :=
  match FindPeer rg storeID with
  | None => Err (ErrMsg (Sprintf "find no peer for store %d in region %v" [FZ storeID; FRegion rg]))
  | Some metaPeer => NewPeer storeID cfg engines rg metaPeer
  end.

Definition replicatePeer (storeID : Z) (cfg : config) (engines : Engines D) (regionID : Z) (metaPeer : metapb.Peer) : outcome cmd_error peer :=
  NewPeer storeID cfg engines (metapb.mkRegion regionID [] [] (metapb.mkRegionEpoch 0 0) []) metaPeer.

(** ** The cache of peers *)

Definition insertPeerCache (x : metapb.Peer) p : peer := set_peerCache (<[metapb.Peer_Id x := x]> (peerCache p)) p.
Definition removePeerCache (peerID : Z) p : peer := set_peerCache (delete peerID (peerCache p)) p.

Definition getPeerFromCache p (peerID : Z) : peer * option metapb.Peer :=
  match peerCache p !! peerID with
  | Some x => (p, Some x)
  | None =>
    match head (filter (λ x, metapb.Peer_Id x = peerID) (metapb.Peers (p_Region p))) with
    | Some x => (insertPeerCache x p, Some x)
    | None => (p, None)
    end
  end.

(** ** Destroying *)

Definition MaybeDestroy p : bool := negb (stopped p).

(** The two batches are written one after the other. *)
Definition Destroy p h (keepData : bool) : outcome string (peer * heap) :=
  let ps := peerStorage p in
  let rg := p_Region p in
  '(kvWB, raftWB) ← clearMeta ps empty_wb empty_wb;
  let kvWB := WriteRegionState kvWB rg PeerState_Tombstone in
  let ps := set_Engines (mkEngines (WriteToDB kvWB (Kv (ps_Engines ps))) (WriteToDB raftWB (RaftDB (ps_Engines ps)))) ps in
  let ps := if isInitialized ps && negb keepData then ClearData ps else ps in
  let h := foldl (λ h prop, NotifyReqRegionRemoved (metapb.Id rg) (p_cb prop) h) h (applyProposals p) in
  Ok (set_applyProposals [] (set_peerStorage ps p), h).

(** ** Pending peers *)

(** The loop of [CollectPendingPeers]. *)
Fixpoint pending_loop (progress : gmap Z Progress) (truncatedIdx now : Z) (ids : list Z) p (acc : list metapb.Peer) : peer * list metapb.Peer :=
  match ids with
  | [] => (p, acc)
  | id :: ids =>
    if decide (id = PeerId p) then pending_loop progress truncatedIdx now ids p acc
    else
      match progress !! id with
      | Some pr =>
        if decide (Match pr < truncatedIdx) then
          match getPeerFromCache p id with
          | (p, Some x) =>
            let p := match PeersStartPendingTime p !! id with
                     | Some _ => p
                     | None => set_PendingTime (<[id := now]> (PeersStartPendingTime p)) p
                     end in
            pending_loop progress truncatedIdx now ids p (acc ++ [x])
          | (p, None) => pending_loop progress truncatedIdx now ids p acc
          end
        else pending_loop progress truncatedIdx now ids p acc
      | None => pending_loop progress truncatedIdx now ids p acc
      end
  end.
Definition CollectPendingPeers p (now : Z) : outcome cmd_error (peer * list metapb.Peer) :=
  truncatedIdx ← must (truncatedIndex (peerStorage p));
  let progress := GetProgress (RaftGroup p) in
  let ids := go_range (p_tape p) (map_to_list progress).*1 in
  Ok (pending_loop progress truncatedIdx now ids (set_p_tape (S (p_tape p)) p) []).

Definition clearPeersStartPendingTime p : peer := set_PendingTime ∅ p.

Definition AnyNewPeerCatchUp p (peerId : Z) : outcome cmd_error (peer * bool) :=
  if decide (PeersStartPendingTime p = ∅) then Ok (p, false)
  else if negb (IsLeader p) then Ok (clearPeersStartPendingTime p, false)
  else
    match PeersStartPendingTime p !! peerId with
    | None => Ok (p, false)
    | Some _ =>
      truncatedIdx ← must (truncatedIndex (peerStorage p));
      match r_Prs (p_Raft p) !! peerId with
      | Some progress =>
        if decide (truncatedIdx ≤ Match progress)
        then Ok (set_PendingTime (delete peerId (PeersStartPendingTime p)) p, true) else Ok (p, false)
      | None => Ok (p, false)
      end
    end.

Definition HeartbeatScheduler p o (now : Z) : outcome cmd_error (peer * outbox) :=
  match CloneMsg (p_Region p) with
  | None => Ok (p, o)
  | Some clonedRegion =>
    '(p, pending) ← CollectPendingPeers p now;
    Ok (p, send_task (SchedulerRegionHeartbeatTask clonedRegion (Meta p) pending (ApproximateSize p)) o)
  end.

(** ** Sending *)

(** [sendRaftMessage]: an unknown recipient is an error, which [Send] only logs. *)
Definition sendRaftMessage p o (msg : Message) : peer * outbox :=
  let rg := p_Region p in
  match getPeerFromCache p (To msg) with
  | (p, None) => (p, o)
  | (p, Some toPeer) =>
    let initial := p_isInitialized p && IsInitialMsg msg in
    (p, send_out (mkRaftMessage (regionId p) (Some (Meta p)) (Some toPeer) (Some msg) (Some (metapb.Epoch rg)) false
           (if initial then metapb.StartKey rg else []) (if initial then metapb.EndKey rg else [])) o)
  end.
Fixpoint p_Send p o (msgs : list Message) : peer * outbox :=
  match msgs with
  | [] => (p, o)
  | m :: msgs => let '(p, o) := sendRaftMessage p o m in p_Send p o msgs
  end.

(** ** Ready *)

Definition ReadyToHandlePendingSnap p : outcome cmd_error bool :=
  ai ← must (ps_AppliedIndex (peerStorage p));
  Ok (bool_decide (LastApplyingIdx p = ai)).

Definition TakeApplyProposals p : peer * option apply_task :=
  match applyProposals p with
  | [] => (p, None)
  | props => (set_applyProposals [] p, Some (MsgApplyProposal (PeerId p) props))
  end.

(** A nil [Metadata] becomes the zero metadata. *)
Definition with_metadata (s : Snapshot) : Snapshot :=
  match sp_Metadata s with
  | Some _ => s
  | None => mkSnapshot (sp_Data s) (Some (mkSnapshotMetadata None 0 0))
  end.
Definition set_rd_Snapshot (x : Snapshot) (rd : Ready) : Ready :=
  mkReady (rd_SoftState rd) (rd_HardState rd) (rd_Entries rd) x (rd_CommittedEntries rd) (rd_Messages rd).
Definition set_rd_Messages (x : list Message) (rd : Ready) : Ready :=
  mkReady (rd_SoftState rd) (rd_HardState rd) (rd_Entries rd) (rd_Snapshot rd) (rd_CommittedEntries rd) x.
Definition set_rd_CommittedEntries (x : list Entry) (rd : Ready) : Ready :=
  mkReady (rd_SoftState rd) (rd_HardState rd) (rd_Entries rd) (rd_Snapshot rd) x (rd_Messages rd).

(** What goes to the applier: after a snapshot a refresh, otherwise the committed
    entries. *)
Definition ready_messages p (ready : Ready) (res : option ApplySnapResult) (msgs : list (Z * apply_task)) :
    outcome cmd_error (peer * Ready * list (Z * apply_task)) :=
  match res with
  | Some _ =>
    ti ← must (truncatedIndex (peerStorage p));
    Ok (set_LastApplyingIdx ti p, ready, msgs ++ [(regionId p, MsgApplyRefresh (PeerId p) (p_Term p) (p_Region p))])
  | None =>
    let committedEntries := rd_CommittedEntries ready in
    let ready := set_rd_CommittedEntries [] ready in
    match last committedEntries with
    | Some e => Ok (set_LastApplyingIdx (e_Index e) p, ready, msgs ++ [(regionId p, MsgApplyCommitted (p_Term p) committedEntries)])
    | None => Ok (p, ready, msgs)
    end
  end.

(** Nothing is done while the peer is stopped, while a pending snapshot has to wait
    for the applier, or when nothing is ready. *)
Definition idle p : outcome cmd_error bool :=
  if stopped p then Ok true
  else
    wait ← (if HasPendingSnapshot p then ready ← ReadyToHandlePendingSnap p; Ok (negb ready) else Ok false);
    if wait : bool then Ok true
    else has ← must (HasReady (RaftGroup p)); Ok (negb has).

Definition p_HandleRaftReady p o (msgs : list (Z * apply_task)) (now : Z) :
    outcome cmd_error (peer * outbox * option ApplySnapResult * list (Z * apply_task)) :=
  nothing ← idle p;
  if nothing : bool then Ok (p, o, None, msgs)
  else
    '(rn, ready) ← must (rn_Ready (RaftGroup p));
    let p := set_RaftGroup rn p in
    let ready := set_rd_Snapshot (with_metadata (rd_Snapshot ready)) ready in
    let '(p, o, ready) :=
      if IsLeader p then let '(p, o) := p_Send p o (rd_Messages ready) in (p, o, set_rd_Messages [] ready) else (p, o, ready) in
    '(p, o) ← (match rd_SoftState ready with
               | Some ss => if decide (RaftState ss = StateLeader) then HeartbeatScheduler p o now else Ok (p, o)
               | None => Ok (p, o)
               end);
    '(ps, res) ← must (SaveReadyState (peerStorage p) ready);
    let p := set_peerStorage ps p in
    let '(p, o) := if IsLeader p then (p, o) else p_Send p o (rd_Messages ready) in
    '(p, ready, msgs) ← ready_messages p ready res msgs;
    rn ← must (Advance (RaftGroup p) ready);
    Ok (set_RaftGroup rn p, o, res, msgs).

(** The error of [Campaign] is dropped. *)
Definition MaybeCampaign p (parentIsLeader : bool) : outcome cmd_error (peer * bool) :=
  if bool_decide (zlen (metapb.Peers (p_Region p)) ≤ 1) || negb parentIsLeader then Ok (p, false)
  else '(rn, _) ← must (Campaign (RaftGroup p)); Ok (set_RaftGroup rn p, true).

(** ** Proposing *)

Definition PostPropose (index term : Z) (isConfChange : bool) (cb : option Z) p : peer :=
  set_applyProposals (applyProposals p ++ [mkProposal isConfChange index term cb]) p.

(** A method that changes the peer and may return an error. *)
Notation fallible A := (outcome cmd_error (peer * (A + cmd_error))).

(** The proposal went through if it lengthened the log. *)
Definition proposed p (rn : RawNode) (e : option raft_error) : fallible Z :=
  proposeIndex ← nextProposalIndex p;
  let p := set_RaftGroup rn p in
  match e with
  | Some e => Ok (p, inr (of_raft e))
  | None =>
    next ← nextProposalIndex p;
    Ok (p, if decide (proposeIndex = next) then inr (ErrNotLeader (regionId p) None) else inl proposeIndex)
  end.

Definition ProposeNormal p (req : RaftCmdRequest) : fallible Z :=
  '(rn, e) ← must (Propose (RaftGroup p) (Some (Marshal req)));
  proposed p rn e.

(** A nil peer reads as id 0. *)
Definition transferLeader p (peer : option metapb.Peer) : outcome cmd_error _ :=
  rn ← must (TransferLeader (RaftGroup p) (match peer with Some x => metapb.Peer_Id x | None => 0 end));
  Ok (set_RaftGroup rn p).

Definition ProposeTransferLeader p h (req : RaftCmdRequest) (cb : option Z) : outcome cmd_error (peer * heap) :=
  match getTransferLeaderCmd req with
  | None => Panic "nil pointer dereference"
  | Some tl => p ← transferLeader p (tl_Peer tl); Ok (p, cb_Done cb (Some makeTransferLeaderResponse) h)
  end.

Definition countHealthyNode p (progress : gmap Z Progress) : outcome cmd_error Z :=
  if decide (progress = ∅) then Ok 0
  else
    ti ← must (truncatedIndex (peerStorage p));
    Ok (Z.of_nat (size (filter (λ x, ti ≤ Match x.2) progress))).

(** [None] when the change is safe.  The getters read a nil change as an addition of a
    nil peer; a change prints as its type and peer. *)
Definition checkConfChange p (cmd : RaftCmdRequest) : outcome cmd_error (option cmd_error) :=
  let changePeer := GetChangePeerCmd cmd in
  let changeType := default AddNode (cp_ChangeType <$> changePeer) in
  let progress := GetProgress (RaftGroup p) in
  let total := size progress in
  if decide ((total ≤ 1)%nat) then Ok None
  else
    match changePeer ≫= cp_Peer with
    | None => Panic "nil pointer dereference"
    | Some peer =>
      let id := metapb.Peer_Id peer in
      let after := match changeType with
                   | AddNode => Some (<[id := mkProgress 0 0]> progress)
                   | RemoveNode => if decide (is_Some (progress !! id)) then Some (delete id progress) else None
                   end in
      match after with
      | None => Ok None
      | Some progress =>
        healthy ← countHealthyNode p progress;
        let quorumAfterChange := Quorum (Z.of_nat (size progress)) in
        if decide (quorumAfterChange ≤ healthy) then Ok None
        else Ok (Some (ErrMsg (Sprintf "unsafe to perform conf change %v, total %v, healthy %v, quorum after chagne %v"
          [FZ (match changeType with AddNode => 0 | RemoveNode => 1 end); FPeer peer; FZ (Z.of_nat total); FZ healthy; FZ quorumAfterChange])))
      end
    end.

Definition p_ProposeConfChange p (req : RaftCmdRequest) : fallible Z :=
  ai ← must (ps_AppliedIndex (peerStorage p));
  if decide (ai < r_PendingConfIndex (p_Raft p)) then Ok (p, inr (ErrMsg (text_app (Tag p) (Sprintf " there is a pending conf change, try later" []))))
  else
    unsafe ← checkConfChange p req;
    match unsafe, GetChangePeerCmd req with
    | Some e, _ => Ok (p, inr e)
    | None, Some changePeer =>
      match cp_Peer changePeer with
      | None => Panic "nil pointer dereference"
      | Some peer =>
        let cc := mkConfChange (cp_ChangeType changePeer) (metapb.Peer_Id peer) (Some (Marshal req)) in
        '(rn, e) ← must (ProposeConfChange (λ cc, inl (Marshal cc)) (RaftGroup p) cc);
        proposed p rn e
      end
    | None, None => Panic "nil pointer dereference"
    end.

Definition p_Propose p h (cb : option Z) (req : RaftCmdRequest) (errResp : RaftCmdResponse) : outcome cmd_error (peer * heap * bool) :=
  if stopped p then Ok (p, h, false)
  else
    match inspect req with
    | Err e => Ok (p, cb_Done cb (Some (BindRespError errResp e)) h, false)
    | Ok RequestPolicy_ProposeTransferLeader => '(p, h) ← ProposeTransferLeader p h req cb; Ok (p, h, true)
    | Ok policy =>
      let isConfChange := match policy with RequestPolicy_ProposeConfChange => true | _ => false end in
      '(p, r) ← (match policy with
                 | RequestPolicy_ProposeNormal => ProposeNormal p req
                 | RequestPolicy_ProposeConfChange => p_ProposeConfChange p req
                 | _ => Ok (p, inl 0)
                 end);
      match r with
      | inr e => Ok (p, cb_Done cb (Some (BindRespError errResp e)) h, false)
      | inl idx => Ok (PostPropose idx (p_Term p) isConfChange cb p, h, true)
      end
    | Panic w => Panic w
    | OutOfFuel => OutOfFuel
    end.
End Peer.
Arguments peer : clear implicits.
