(* ===== verification/PeerLog.v ===== *)
(** The raft log of a peer and what its storage holds of it: between two saves the
    storage keeps the log as it was saved, the log agrees with it up to what is
    stable, and a [Ready] is fit to be saved. *)

From S2P Require Import Prelude Pb RaftPb RaftStorage RaftLog RaftLogSpec Raft RawNode Engine RaftMeta PeerStorage PeerStorageSpec Election RaftTree RaftSafety Cluster RaftLogSteps RaftGroup.

(** An entry whose data is not the empty string survives the wire format. *)
Class EntryMessages `{!Proto Entry} : Prop :=
  wire_entry e : is_u64 (e_Index e) → is_u64 (e_Term e) → e_Data e ≠ Some [] → wire e.

Section PeerLog.
Context {D : Type} `{!Badger D} {HG : GoEnv}.
Context `{!Proto Entry, !Proto RaftLocalState, !Proto RaftApplyState, !Proto RegionLocalState, !Proto RaftSnapshotData}.
Context {messages : StoreMessages} {entry_messages : EntryMessages}.
Context (M : gset Z) (rid : Z).
Implicit Types (ps : PeerStorage D) (s : slog) (l : RaftLog (PeerStorage D)).

(** ** The storage *)

(** The storage a peer starts with on the engines of [ps]. *)
Definition reopen (pid : Z) ps : PeerStorage D :=
  mkPeerStorage pid (region ps) (raftState ps) SnapState_Relax [] 0 (ps_Engines ps).

Lemma request_snapshot_same pid ps : reopen pid (request_snapshot ps).1 = reopen pid ps.
Proof. unfold request_snapshot. by destruct (decide _). Qed.
Lemma ps_Snapshot_same pid ps : reopen pid (ps_Snapshot ps).1 = reopen pid ps.
Proof.
  unfold ps_Snapshot. destruct (snapState ps) as [|[s|]|]; try apply request_snapshot_same; [|done].
  destruct (sp_Metadata _); [|by rewrite request_snapshot_same]. destruct (validateSnap _ _) as [[]| | |]; try done; by rewrite request_snapshot_same.
Qed.
Lemma reopen_inj pid ps ps' : reopen pid ps = reopen pid ps' → region ps = region ps' ∧ raftState ps = raftState ps' ∧ ps_Engines ps = ps_Engines ps'.
Proof. unfold reopen. naive_solver. Qed.
Lemma represents_same pid ps ps' s hs : reopen pid ps = reopen pid ps' → represents ps s hs → represents ps' s hs.
Proof.
  intros (E1 & E2 & E3)%reopen_inj []. split; rewrite -?E1 -?E2 -?E3; try done. unfold isInitialized in *. by rewrite -E1.
Qed.

#[export] Instance PeerStorage_SnapshotKeeps : SnapshotKeeps (PeerStorage D).
Proof.
  assert (Hs : ∀ ps, region (ps_Snapshot ps).1 = region ps ∧ raftState (ps_Snapshot ps).1 = raftState ps ∧ ps_Engines (ps_Snapshot ps).1 = ps_Engines ps)
    by (intros ps; by apply (reopen_inj 0), ps_Snapshot_same).
  split; intros ps; destruct (Hs ps) as (E1 & E2 & E3); cbn.
  - unfold ps_FirstIndex, truncatedIndex, truncatedState. by rewrite E1 E3.
  - unfold ps_LastIndex. by rewrite E2.
  - intros i. unfold ps_Term, truncatedIndex, truncatedTerm, checkRange, truncatedIndex, truncatedState. by rewrite E1 E2 E3.
  - intros lo hi. unfold ps_Entries, checkRange, truncatedIndex, truncatedState. by rewrite E1 E2 E3.
  - unfold ps_InitialState, isInitialized. by rewrite E1 E2.
Qed.

(** Only a snapshot that waits in the channel is given. *)
Definition waiting ps : option Snapshot := match snapState ps with SnapState_Generating (Some s) => Some (default empty_snap s) | _ => None end.

Lemma request_snapshot_waiting ps : waiting ps = None → waiting (request_snapshot ps).1 = None ∧ ∀ sn, (request_snapshot ps).2 ≠ Ok sn.
Proof. unfold request_snapshot. intros H. by destruct (decide _). Qed.
Lemma ps_Snapshot_waiting ps : waiting (ps_Snapshot ps).1 = None ∧
  ∀ sn, (ps_Snapshot ps).2 = Ok sn → waiting ps = Some sn ∧ is_Some (sp_Metadata sn) ∧ validateSnap ps sn = Ok true.
Proof.
  unfold ps_Snapshot, waiting. destruct (snapState ps) as [|[sn|]|] eqn:E.
  - destruct (request_snapshot_waiting ps) as [H1 H2]; [unfold waiting; by rewrite E|]. split; [exact H1|]. by intros sn Hn%H2.
  - destruct (sp_Metadata (default empty_snap sn)) as [md|] eqn:Em.
    + assert (Hv : validateSnap (set_snapTriedCnt 0 (set_snapState SnapState_Relax ps)) (default empty_snap sn) = validateSnap ps (default empty_snap sn)) by done.
      rewrite Hv. destruct (validateSnap ps _) as [[]| | |] eqn:Ev; try done.
      split; [done|]. intros sn' [= <-]. rewrite Em. split_and!; [done|by eexists|done].
    + destruct (request_snapshot_waiting (set_snapState SnapState_Relax ps) eq_refl) as [H1 H2]. split; [exact H1|]. by intros sn' Hn%H2.
  - split; [by rewrite /= E|done].
  - destruct (request_snapshot_waiting ps) as [H1 H2]; [unfold waiting; by rewrite E|]. split; [exact H1|]. by intros sn Hn%H2.
Qed.
Lemma later_waiting ps ps' : later ps ps' → waiting ps = None → waiting ps' = None.
Proof. induction 1 as [|x y z -> _ IH]; [done|]. intros _. apply IH. apply (ps_Snapshot_waiting x). Qed.

Lemma ps_gives ps s hs sn :
  represents ps s hs → gives ps sn → waiting ps = Some sn ∧ ∃ md, sp_Metadata sn = Some md ∧ sl_index s ≤ md_Index md.
Proof.
  intros R (ps' & Hl & Hs). cbn in Hs. destruct (ps_Snapshot_waiting ps') as [_ Hw]. destruct (Hw sn Hs) as (Hn & [md Hmd] & Hv).
  destruct Hl as [ps|ps ps1 ps2 -> Hl]; [|by rewrite (later_waiting _ _ Hl (proj1 (ps_Snapshot_waiting ps))) in Hn].
  split; [done|]. exists md. split; [done|]. revert Hv. unfold validateSnap. rewrite Hmd (truncatedIndex_spec _ _ _ R). cbn [mbind outcome_bind].
  destruct (decide (md_Index md < sl_index s)); [done|lia].
Qed.

Lemma NewPeerStorage_reopen ps s hs pid :
  represents ps s hs → 0 < sl_last s → NewPeerStorage (ps_Engines ps) (region ps) pid = Ok (reopen pid ps).
Proof.
  intros R Hpos. pose proof (rp_wf _ _ _ R) as Hw. pose proof (sw_last _ Hw) as Hl. unfold NewPeerStorage, InitRaftLocalState, GetRaftLocalState.
  rewrite (GetMeta_Marshal _ _ _ (rp_disk _ _ _ R Hpos)).
  2:{ rewrite (rp_state _ _ _ R). unfold idx_ok in Hl. apply wire_local; [apply (rp_hs _ _ _ R)|unfold is_u64, two64; lia|by apply sl_last_term_u64]. }
  cbn [mbind outcome_bind]. unfold InitApplyState, GetApplyState.
  rewrite (GetMeta_Marshal _ _ _ (rp_apply _ _ _ R)); [|by apply apply_state_wire]. cbn [mbind outcome_bind].
  assert (Hli : rl_LastIndex (raftState ps) = sl_last s) by (by rewrite (rp_state _ _ _ R)). pose proof (sw_applied _ Hw).
  rewrite decide_False; [|rewrite Hli; cbn; lia]. unfold reopen. by destruct (ps_Engines ps).
Qed.

(** The log a node starts with. *)
Lemma newLog_represents ps s hs :
  represents ps s hs →
  newLog ps = Ok (mkRaftLog ps (sl_index s) (sl_index s) (sl_last s) (sl_ents s) (sl_index s + 1) (sl_term s) (sl_index s) None).
Proof.
  intros R. pose proof (rp_wf _ _ _ R) as Hw. pose proof (represents_bounds _ _ _ R) as (H0 & H1 & Hu & _). unfold newLog. cbn [st_FirstIndex st_LastIndex st_Term st_Entries PeerStorage_RaftStorage].
  rewrite (FirstIndex_spec _ _ _ R). cbn [or_panic mbind outcome_bind]. rewrite (LastIndex_spec _ _ _ R). cbn [or_panic mbind outcome_bind].
  assert (Eu : u64 (sl_index s + 1 - 1) = sl_index s) by (rewrite u64_idx; lia). rewrite Eu (Term_spec _ _ _ _ R); [|unfold is_u64, two64; lia..].
  unfold sl_term_at. rewrite decide_True //. cbn [or_panic mbind outcome_bind]. rewrite Hu (Entries_spec _ _ _ _ _ R); [|lia..]. cbn [or_panic mbind outcome_bind].
  unfold sl_range. replace (Z.to_nat (sl_index s + 1 - sl_index s - 1)) with 0%nat by lia. rewrite drop_0 take_ge; [done|]. unfold sl_last, zlen. lia.
Qed.
Lemma opened_wf ps s : slog_wf s → log_wf (mkRaftLog ps (sl_index s) (sl_index s) (sl_last s) (sl_ents s) (sl_index s + 1) (sl_term s) (sl_index s) None).
Proof.
  intros Hw. pose proof (sw_index _ Hw). pose proof (sw_applied _ Hw). pose proof (zlen_nonneg (sl_ents s)). unfold sl_last in *.
  split; unfold last_index; cbn; try done; try lia; try apply Hw.
Qed.
Lemma opened_at ps s i : slog_wf s →
  let l := mkRaftLog ps (sl_index s) (sl_index s) (sl_last s) (sl_ents s) (sl_index s + 1) (sl_term s) (sl_index s) None in
  last_index l = sl_last s ∧ entry_at l i = sl_entry s i ∧ term_at l i = sl_term_at s i.
Proof.
  intros Hw l. assert (He : entry_at l i = sl_entry s i).
  { unfold entry_at, sl_entry. cbn. repeat case_decide; try lia; [|done]. f_equal. lia. }
  split_and!; [done|done|]. unfold term_at, sl_term_at. by rewrite He.
Qed.

(** ** The log between two saves *)

(** The region a snapshot carries. *)
Definition snap_region (sn : Snapshot) (rg : metapb.Region) : Prop :=
  sd_Region <$> Unmarshal (A := RaftSnapshotData) (default [] (sp_Data sn)) = Some (Some rg) ∧
  metapb.Id rg = rid ∧ list_to_set (metapb.Peer_Id <$> metapb.Peers rg) = M.
Definition data_ok (d : option bytes) : Prop := d ≠ Some [].

(** A snapshot that waits in the channel is of an applied position. *)
Definition offered ps s : Prop :=
  ∀ sn md, waiting ps = Some sn → sp_Metadata sn = Some md → sl_index s ≤ md_Index md →
    (∃ rg, snap_region sn rg) ∧ snap_members M sn ∧ md_Index md ≤ sl_applied s ∧ sl_term_at s (md_Index md) = Some (md_Term md).

(** What is stable is stored. *)
Record saved l s : Prop := {
  sv_snap : snapIndex l ≤ sl_index s;
  sv_term : term_at l (sl_index s) = Some (sl_term s);
  sv_entry i : sl_index s < i ≤ stabled l → sl_entry s i = entry_at l i;
  sv_stable : stabled l ≤ sl_last s;
  sv_more : stabled l < sl_last s → stabled l < last_index l
}.
(** A snapshot will replace what is stored. *)
Record arriving l (hs : HardState) (sn : Snapshot) : Prop := {
  av_meta : ∃ md, sp_Metadata sn = Some md ∧ md_Index md = snapIndex l ∧ md_Term md = snapTerm l;
  av_stable : stabled l = snapIndex l;
  av_ahead : hs_Commit hs < snapIndex l;
  av_region : ∃ rg, snap_region sn rg
}.

Record stores (dk : PeerStorage D) s (hs : HardState) l : Prop := {
  so_wf : log_wf l;
  so_rep : represents (storage l) s hs;
  so_same : reopen (peerID dk) (storage l) = dk;
  so_offer : offered (storage l) s;
  so_applied : sl_applied s ≤ applied l ≤ hs_Commit hs;
  so_commit : hs_Commit hs ≤ committed l;
  so_stable : applied l ≤ stabled l;
  so_data e : e ∈ entries l → data_ok (e_Data e);
  so_held : match pending_snapshot l with None => saved l s | Some sn => arriving l hs sn end;
  so_kept e : e ∈ sl_ents s → data_ok (e_Data e)
}.

Section Closure.
Context (dk : PeerStorage D) (s : slog) (hs : HardState).
Notation P := (stores dk s hs).

Lemma stores_storage_ok l : P l → storage_ok l.
Proof.
  intros [Hw R _ _ Ha Hc Hs _ Hh _]. pose proof (rp_wf _ _ _ R) as Hsw. pose proof (sw_applied _ Hsw). pose proof (represents_bounds _ _ _ R) as (H0 & H1 & _ & _).
  exists (sl_index s + 1), (sl_term s). cbn. rewrite (FirstIndex_spec _ _ _ R). replace (sl_index s + 1 - 1) with (sl_index s) by lia.
  rewrite (Term_spec _ _ _ _ R); [|unfold is_u64, two64; lia..]. unfold sl_term_at. rewrite decide_True //. split_and!; [done|done|lia|lia|].
  destruct (pending_snapshot l); [|intros _; apply (sv_term _ _ Hh)]. intros Hx. pose proof (av_ahead _ _ _ Hh). lia.
Qed.

Lemma entry_at_elem l i e : entry_at l i = Some e → e ∈ entries l.
Proof. unfold entry_at. case_decide; [|done]. apply list_elem_of_lookup_2. Qed.
Lemma elem_entry_at l e : log_wf l → e ∈ entries l → snapIndex l < e_Index e ∧ entry_at l (e_Index e) = Some e.
Proof.
  intros Hw [i Hi]%list_elem_of_lookup_1. pose proof (lw_num _ Hw _ _ Hi) as E. pose proof (lw_off _ Hw). split; [lia|].
  unfold entry_at. rewrite decide_True; [|lia]. rewrite -Hi. f_equal. lia.
Qed.

Lemma stores_appended l after ents l' :
  P l → appended l after ents l' → ents ≠ [] → committed l < after → after ≤ last_index l + 1 → (∀ e, e ∈ ents → data_ok (e_Data e)) → P l'.
Proof.
  intros [Hw R Es Ho Ha Hc Hs Hd Hh Hk] Hap Hne Hlt Hle Hde. destruct Hap as [Hw' Hlast Hsn Hen Hte Ec Ea Est Epd Esto Hfi].
  assert (Hpos : 0 < zlen ents) by (destruct ents; [done|unfold zlen; cbn; lia]).
  split; rewrite ?Esto ?Ea ?Ec ?Epd; try done.
  - lia.
  - intros e He. destruct (elem_entry_at _ _ Hw' He) as [Hi He']. rewrite Hen // in He'. destruct (decide _); [apply Hd; by eapply entry_at_elem|].
    apply Hde. by eapply list_elem_of_lookup_2.
  - pose proof (rp_wf _ _ _ R) as Hsw. pose proof (sw_applied _ Hsw). pose proof (lw_commit _ Hw). destruct (pending_snapshot l) as [sn|].
    + destruct Hh as [(md & Hmd & Ei & Et) E1 E2 Hrg]. assert (Esn : snapIndex l' = snapIndex l) by lia. split; [|lia|lia|done].
      exists md. split_and!; [done|lia|]. assert (Ht : term_at l' (snapIndex l') = term_at l (snapIndex l)) by (rewrite Hte; [by rewrite Esn|lia|lia]).
      unfold term_at in Ht. rewrite !decide_True // in Ht. by injection Ht as ->.
    + destruct Hh as [H1 H2 H3 H4 H5]. assert (Hsl : snapIndex l' ≤ sl_index s).
      { destruct Hfi as [->|Hfi]; [lia|]. cbn in Hfi. rewrite (FirstIndex_spec _ _ _ R) in Hfi. injection Hfi as Hfi. lia. }
      split; [done|rewrite Hte //; lia| |lia|lia]. intros i Hi. rewrite Hen; [|lia]. rewrite decide_True; [|lia]. apply H3. lia.
Qed.

Lemma stores_commit l i l' : P l → commitTo l i = Ok l' → P l'.
Proof.
  intros HP H. destruct (decide (i ≤ last_index l)) as [Hi|Hi].
  - destruct (commitTo_wf l i (so_wf _ _ _ _ HP) Hi) as [E Hw']. rewrite E in H. injection H as <-. destruct HP as [Hw R Es Ho Ha Hc Hs Hd Hh Hk]. split; cbn; try done; [lia|].
    by destruct (pending_snapshot l); [destruct Hh|destruct Hh].
  - unfold commitTo in H. destruct (decide _); [|by injection H as <-]. rewrite (LastIndex_wf _ (so_wf _ _ _ _ HP)) in H. cbn [mbind outcome_bind] in H.
    destruct (decide _); [done|lia].
Qed.

Lemma stores_append l after e0 ents l' x :
  P l → numbered after (e0 :: ents) → snapIndex l < after ≤ last_index l + 1 → committed l < after → idx_ok (after - 1 + zlen (e0 :: ents)) →
  (∀ e, e ∈ e0 :: ents → data_ok (e_Data e)) → append l (e0 :: ents) = Ok (l', x) → P l'.
Proof.
  intros HP Hn Hr Hc Hi Hd H. destruct (append_wf l after e0 ents) as (l2 & H2 & Hap); [apply HP|by apply stores_storage_ok|done..|].
  rewrite H2 in H. injection H as <- _. eapply stores_appended; [done|exact Hap|done|done|lia|done].
Qed.

Lemma stores_append_own l t es li l' x :
  P l → LastIndex l = Ok li → idx_ok (last_index l + zlen es) → (∀ e, e ∈ es → data_ok (e_Data e)) → append l (number_entries t li es) = Ok (l', x) → P l'.
Proof.
  intros HP Hli Hi Hd H. pose proof (so_wf _ _ _ _ HP) as Hw. rewrite (LastIndex_wf _ Hw) in Hli. injection Hli as <-.
  pose proof (lw_commit _ Hw). pose proof (lw_last _ Hw) as [? ?]. pose proof (lw_snap _ Hw).
  destruct es as [|e es]; [cbn in H; apply bind_Ok in H as (li & _ & [= <- _]); done|].
  assert (Hz : zlen (number_entries t (last_index l) (e :: es)) = zlen (e :: es)) by (unfold zlen, number_entries; by rewrite length_imap).
  assert (Hn : numbered (last_index l + 1) (number_entries t (last_index l) (e :: es))).
  { intros k y Hy. unfold number_entries in Hy. rewrite list_lookup_imap in Hy. apply fmap_Some in Hy as (y' & Hy & ->). cbn.
    apply lookup_lt_Some in Hy. unfold zlen, idx_ok in *. rewrite u64_idx; lia. }
  assert (Hd' : ∀ y, y ∈ number_entries t (last_index l) (e :: es) → data_ok (e_Data y)).
  { intros y (k & Hk)%list_elem_of_lookup_1. unfold number_entries in Hk. rewrite list_lookup_imap in Hk. apply fmap_Some in Hk as (y' & Hy & ->). cbn.
    apply Hd. by eapply list_elem_of_lookup_2. }
  destruct (number_entries t (last_index l) (e :: es)) as [|e0 ents] eqn:E; [unfold zlen in Hz; cbn in Hz; lia|].
  eapply stores_append; [done|exact Hn|lia|lia|rewrite Hz; by replace (last_index l + 1 - 1 + zlen (e :: es)) with (last_index l + zlen (e :: es)) by lia|done|exact H].
Qed.

Lemma stores_accept l index t lc ents l' ok :
  P l → 0 ≤ index → 0 ≤ lc → numbered (index + 1) ents → idx_ok (index + zlen ents) → (∀ e, e ∈ ents → data_ok (e_Data e)) →
  maybeAppend l index t lc ents = Ok (l', ok) → P l'.
Proof.
  intros HP Hi Hlc Hn Hix Hd H. pose proof (so_wf _ _ _ _ HP) as Hw. pose proof (lw_snap _ Hw). pose proof (lw_last _ Hw) as [? ?].
  pose proof (zlen_nonneg ents). unfold idx_ok in Hix. unfold maybeAppend in H. rewrite matchTerm_wf // in H; [|lia]. cbn [mbind outcome_bind] in H.
  destruct (bool_decide (term_at l index = Some t)) eqn:Ht; [|by injection H as <- _]. apply bool_decide_eq_true in Ht. cbn [negb] in H.
  destruct (findConflict_wf l (index + 1) ents Hw) as (n & Hle & Hpre & Hbad & Hfc); [lia|done|lia|]. rewrite Hfc in H. cbn [mbind outcome_bind] in H.
  apply bind_Ok in H as (l1 & Happ & H). apply bind_Ok in H as (l2 & Hct & [= <- _]). eapply stores_commit; [|exact Hct]. clear Hct.
  destruct (decide (n = length ents)) as [En|En]; [by injection Happ as <-|]. destruct (decide (index + 1 + Z.of_nat n = 0)); [lia|].
  destruct (decide _) as [|Hc]; [done|]. apply bind_Ok in Happ as (new & Hnew & Happ). apply bind_Ok in Happ as ([l3 x] & Happ & [= <-]).
  assert (Hnew' : new = drop n ents).
  { rewrite (u64_idx (index + 1)) in Hnew; [|lia]. rewrite u64_idx in Hnew; [|unfold zlen in *; lia]. rewrite go_slice_drop in Hnew; [|unfold zlen in *; lia].
    injection Hnew as <-. f_equal. lia. }
  destruct (lookup_lt_is_Some_2 ents n) as [e0 He0]; [lia|]. rewrite (drop_S _ _ _ He0) in Hnew'. subst new.
  assert (Hin : snapIndex l ≤ index + Z.of_nat n ≤ last_index l).
  { apply (term_at_is_Some l _ Hw). destruct n as [|n]; [by rewrite Z.add_0_r Ht|]. destruct (lookup_lt_is_Some_2 ents n) as [e1 He1]; [lia|].
    pose proof (Hn _ _ He1) as E1. replace (index + Z.of_nat (S n)) with (e_Index e1) by lia. rewrite (Hpre e1); [by eexists|].
    apply list_elem_of_lookup. exists n. by rewrite lookup_take_lt; [|lia]. }
  assert (Hdr : e0 :: drop (S n) ents = drop n ents) by (by rewrite (drop_S _ _ _ He0)).
  eapply (stores_append l (index + 1 + Z.of_nat n)); [done| |lia|lia| | |exact Happ]; rewrite Hdr.
  - apply numbered_drop; [lia|done].
  - unfold zlen, idx_ok in *. rewrite length_drop. lia.
  - intros e He. apply Hd. exact (subseteq_drop _ _ _ He).
Qed.

Lemma stores_restore l sn md l' :
  P l → sp_Metadata sn = Some md → committed l < md_Index md → idx_ok (md_Index md) → (∃ rg, snap_region sn rg) → log_restore l sn = Ok l' → P l'.
Proof.
  intros [Hw R Es Ho Ha Hc Hs Hd Hh Hk] Hmd Hlt Hi Hrg H. destruct (log_restore_wf l sn md Hw Hmd) as (l2 & H2 & Hw' & Een & Esi & Est & Eco & Esb & Eap & Epd); [lia|done|].
  rewrite H2 in H. injection H as <-. unfold log_restore in H2. apply bind_Ok in H2 as (md' & _ & [= E]).
  assert (Esto : storage l2 = storage l) by (by rewrite -E).
  split; rewrite ?Esto ?Eap ?Eco ?Esb ?Een ?Epd; try done; try lia.
  - by intros e He%not_elem_of_nil.
  - split; [exists md; by rewrite Esi Est|lia|lia|done].
Qed.

Lemma stores_snapshot l : P l → P (set_storage (st_Snapshot (storage l)).1 l).
Proof.
  intros [Hw R Es Ho Ha Hc Hs Hd Hh Hk]. split; cbn; try done.
  - by destruct Hw; split.
  - eapply (represents_same (peerID dk)); [|exact R]. by rewrite ps_Snapshot_same.
  - by rewrite ps_Snapshot_same.
  - intros sn md Hn. by rewrite (proj1 (ps_Snapshot_waiting _)) in Hn.
  - by destruct (pending_snapshot l); destruct Hh.
Qed.

(** ** What peers send *)

Definition carried (es : list Entry) (sn : option Snapshot) : Prop :=
  (∀ e, e ∈ es → data_ok (e_Data e)) ∧ ∀ x, sn = Some x → ∃ rg, snap_region x rg.
Definition message_fit (m : Message) : Prop :=
  (MsgType m ≠ MsgPropose → carried (m_Entries m) (m_Snapshot m)) ∧
  (MsgType m = MsgAppend → 0 ≤ m_Index m ∧ 0 ≤ m_Commit m ∧ numbered (m_Index m + 1) (m_Entries m) ∧ idx_ok (m_Index m + zlen (m_Entries m))) ∧
  (∀ sn md, MsgType m = MsgSnapshot → m_Snapshot m = Some sn → sp_Metadata sn = Some md → idx_ok (md_Index md)).

Lemma carried_entries l i es : P l → Entries l i = Ok es → carried es None.
Proof.
  intros HP H. split; [|done]. intros e He. apply (so_data _ _ _ _ HP). revert H. unfold Entries. intros H. apply bind_Ok in H as (fi & _ & H).
  destruct (decide _); [done|]. apply bind_Ok in H as (li & _ & H). destruct (decide _); [injection H as <-; by apply not_elem_of_nil in He|].
  apply go_slice_inv in H as (_ & _ & ->). exact (subseteq_drop _ _ _ (subseteq_take _ _ _ He)).
Qed.
Lemma carried_snapshot l l' sn : P l → snapshot l = Ok (l', inl sn) → carried [] (Some sn).
Proof.
  intros HP H. split; [by intros e He%not_elem_of_nil|]. intros x [= <-]. revert H. unfold snapshot. pose proof (so_held _ _ _ _ HP) as Hh.
  destruct (pending_snapshot l) as [s0|]; [intros [= _ <-]; apply (av_region _ _ _ Hh)|].
  destruct (st_Snapshot (storage l)) as [st res] eqn:E. intros H. apply bind_Ok in H as (r & Hr & [= _ ->]).
  assert (Hg : gives (storage l) sn). { exists (storage l). split; [apply rtc_refl|]. rewrite E. cbn. unfold catch in Hr. by destruct res; simplify_eq. }
  destruct (ps_gives _ _ _ _ (so_rep _ _ _ _ HP) Hg) as (Hw & md & Hmd & Hi). by apply (so_offer _ _ _ _ HP sn md).
Qed.

(** Whatever the store asks of a peer between two saves, the log stays stored and
    the messages are fit to be stored by others. *)
Lemma call_stores Marshal net n (rn rn' : RawNode (PeerStorage D)) :
  P (r_raftLog (rn_Raft rn)) → (∀ m, m ∈ r_msgs (rn_Raft rn) → carried (m_Entries m) (m_Snapshot m)) → idx_ok (last_index (r_raftLog (rn_Raft rn)) + 1) →
  (∀ m, m ∈ net → To m = n → message_fit m ∧ MsgType m ≠ MsgPropose) → fine_call data_ok Marshal net n rn rn' →
  P (r_raftLog (rn_Raft rn')) ∧ ∀ m, m ∈ r_msgs (rn_Raft rn') → carried (m_Entries m) (m_Snapshot m).
Proof.
  intros HP Hms Hroom Hnet Hc. refine (call_log P message_fit carried data_ok (λ l k, idx_ok (last_index l + k)) _ _ _ _ _ _ _ _ _ _ _ Marshal net n rn rn' _ Hroom _ Hc); try done.
  - intros. by eapply stores_append_own.
  - intros. by eapply stores_commit.
  - intros l m l' ok HPl (Hca & Happ & _) Ht _ H. destruct (Happ Ht) as (? & ? & ? & ?). eapply (stores_accept l (m_Index m) _ (m_Commit m)); [done..| |exact H]. apply Hca. by rewrite Ht.
  - intros l m sn md l' HPl (Hca & _ & Hsn) Ht Hm Hmd Hlt H. eapply stores_restore; [done..|by eapply Hsn| |exact H]. destruct Hca as [_ Hx]; [by rewrite Ht|by apply Hx].
  - intros. by apply stores_snapshot.
  - intros m H1 H2 H3. split; [|split; [done|]].
    + intros H4. destruct H3 as [?|[-> ->]]; [done|]. split; [by intros e He%not_elem_of_nil|done].
    + intros sn md E. done.
  - split; [by intros e He%not_elem_of_nil|done].
  - intros. by eapply carried_entries.
  - intros. by eapply carried_snapshot.
  - intros m [Hca _] Ht. apply Hca. by rewrite Ht.
  - intros m Hm Hto. destruct (Hnet m Hm Hto). split; [done|]. by intros E.
Qed.
End Closure.
End PeerLog.
