(* ===== verification/PeerSave.v ===== *)
(** Saving and servicing a peer's log: the [Ready] of a stored log is saved so that
    the log is stored again and a restart finds it, which is what raft asks of the
    store; compaction and snapshots keep it stored. *)

From S2P Require Import Prelude Pb RaftPb RaftStorage RaftLog RaftLogSpec Raft RawNode Engine RaftMeta PeerStorage PeerStorageSpec Election RaftTree RaftSafety Cluster RaftLogSteps RaftGroup Peer PeerLog.

Section PeerSave.
Context {D : Type} `{!Badger D} {HG : GoEnv}.
Context `{!Proto Entry, !Proto RaftLocalState, !Proto RaftApplyState, !Proto RegionLocalState, !Proto RaftSnapshotData}.
Context {messages : StoreMessages} {entry_messages : EntryMessages}.
Context (M : gset Z) (rid : Z).
Implicit Types (ps : PeerStorage D) (s : slog) (l : RaftLog (PeerStorage D)).
Notation stores := (stores M rid).
Notation offered := (offered M rid).

Lemma reopen_twice pid ps : reopen pid (reopen pid ps) = reopen pid ps.
Proof. done. Qed.
Lemma stores_disk dk s hs l : stores dk s hs l → represents dk s hs ∧ waiting dk = None ∧ reopen (peerID dk) dk = dk.
Proof.
  intros HP. pose proof (so_same _ _ _ _ _ _ HP) as E. split_and!.
  - eapply (represents_same (peerID dk)); [|apply (so_rep _ _ _ _ _ _ HP)]. by rewrite E -{3}E reopen_twice E.
  - by rewrite -E.
  - by rewrite -{2 3}E reopen_twice.
Qed.

(** ** A stored log persists *)

(** Where the stored log and the log in memory meet. *)
Lemma saved_term l s i : log_wf l → slog_wf s → saved l s → sl_index s ≤ i ≤ stabled l → sl_term_at s i = term_at l i.
Proof.
  intros Hw Hsw [H1 H2 H3 H4 H5] Hi. unfold sl_term_at. destruct (decide (i = sl_index s)) as [->|Hne]; [done|]. rewrite H3; [|lia].
  unfold term_at. rewrite decide_False //. lia.
Qed.

Lemma gives_offered ps s hs sn :
  represents ps s hs → offered ps s → gives ps sn →
  snap_members M sn ∧ ∃ md, sp_Metadata sn = Some md ∧ sl_index s ≤ md_Index md ≤ sl_applied s ∧ sl_term_at s (md_Index md) = Some (md_Term md).
Proof.
  intros R Ho Hg. destruct (ps_gives _ _ _ _ R Hg) as (Hw & md & Hmd & Hi). destruct (Ho sn md Hw Hmd Hi) as (_ & Hm & ? & ?). split; [done|]. by exists md.
Qed.

(** Entries that are all stable are all stored. *)
Lemma saved_all l s i : log_wf l → slog_wf s → saved l s → stabled l = last_index l →
  sl_last s = last_index l ∧ (sl_index s < i → sl_entry s i = entry_at l i) ∧ (sl_index s ≤ i → sl_term_at s i = term_at l i).
Proof.
  intros Hw Hsw [H1 H2 H3 H4 H5] Est. assert (Elast : sl_last s = last_index l) by lia.
  assert (He : ∀ i, sl_index s < i → sl_entry s i = entry_at l i).
  { intros j Hj. destruct (decide (j ≤ stabled l)); [by apply H3|]. trans (@None Entry).
    - destruct (sl_entry s j) eqn:E; [|done]. apply (sl_entry_Some _ _ _ Hsw) in E. lia.
    - destruct (entry_at l j) eqn:E; [|done]. apply (entry_at_Some _ _ _ Hw) in E. lia. }
  split_and!; [done|apply He|]. intros Hi. unfold sl_term_at. destruct (decide (i = sl_index s)) as [->|Hne]; [done|]. rewrite He; [|lia].
  unfold term_at. rewrite decide_False //. lia.
Qed.

Lemma represents_persisted ps s hs l :
  represents ps s hs → log_wf l → saved l s → stabled l = last_index l → sl_applied s ≤ applied l → IsEmptyHardState hs = false →
  offered ps s → persisted M hs l ps.
Proof.
  intros R Hw Hs Est Ha He Ho. pose proof (rp_wf _ _ _ R) as Hsw. pose proof (sw_applied _ Hsw). pose proof (lw_applied _ Hw).
  pose proof (sv_snap _ _ Hs). destruct (saved_all l s 0 Hw Hsw Hs Est) as [Elast _]. pose proof (opened_at ps s) as Hop. cbn zeta in Hop.
  split; [eexists; by apply (InitialState_spec _ _ _ R)|]. eexists. split; [apply (newLog_represents _ _ _ R)|]. split; [by apply opened_wf|].
  split; [by rewrite -Elast|]. split; [done|]. split; [cbn; lia|]. split_and!.
  - intros i Hi. destruct (Hop i Hsw) as (_ & _ & ->). by apply saved_all.
  - intros i Hi. destruct (Hop i Hsw) as (_ & -> & _). by apply saved_all.
  - intros sn Hg. destruct (gives_offered _ _ _ _ R Ho Hg) as [Hm (md & Hmd & Hr & Ht)]. split; [done|]. exists md. split_and!; [done|cbn; lia|lia|].
    rewrite -Ht. symmetry. apply saved_all; [done..|lia].
Qed.

Lemma stores_persisted dk s hs l :
  stores dk s hs l → pending_snapshot l = None → stabled l = last_index l → IsEmptyHardState hs = false →
  persisted M hs l (storage l) ∧ persisted M hs l dk.
Proof.
  intros HP Hn Est He. destruct (stores_disk _ _ _ _ HP) as (Rd & Wd & _). destruct HP as [Hw R _ Ho Ha Hc Hs _ Hh _]. rewrite Hn in Hh. split.
  - eapply represents_persisted; [done..|lia|done|done].
  - eapply represents_persisted; [done..|lia|done|]. intros sn md Hsn. by rewrite Wd in Hsn.
Qed.

(** ** Servicing *)

(** The workers of the store apply entries and drop applied ones from the log. *)
Record services s s' : Prop := {
  se_index : sl_index s ≤ sl_index s';
  se_applied : sl_applied s ≤ sl_applied s';
  se_last : sl_last s' = sl_last s;
  se_term : sl_term_at s (sl_index s') = Some (sl_term s');
  se_entry i : sl_index s' < i → sl_entry s' i = sl_entry s i
}.
Lemma services_term s s' i : services s s' → sl_index s' ≤ i → sl_term_at s' i = sl_term_at s i.
Proof.
  intros [H1 H2 H3 H4 H5] Hi. unfold sl_term_at at 1. destruct (decide (i = sl_index s')) as [->|Hne]; [done|]. rewrite H5; [|lia].
  unfold sl_term_at. rewrite decide_False //. lia.
Qed.

(** Entries of a stored log, by index. *)
Lemma sl_ents_entry s e : slog_wf s → e ∈ sl_ents s ↔ sl_entry s (e_Index e) = Some e ∧ sl_index s < e_Index e.
Proof.
  intros Hw. split.
  - intros [k Hk]%list_elem_of_lookup_1. pose proof (sw_num _ Hw _ _ Hk) as E. split; [|lia]. unfold sl_entry. rewrite decide_True; [|lia]. rewrite -Hk. f_equal. lia.
  - intros [H _]. unfold sl_entry in H. case_decide; [|done]. by eapply list_elem_of_lookup_2.
Qed.
Lemma services_kept s s' e : slog_wf s → slog_wf s' → services s s' → e ∈ sl_ents s' → e ∈ sl_ents s.
Proof.
  intros Hw Hw' [E1 _ _ _ E5] [He Hi]%(sl_ents_entry s' e Hw'). apply (sl_ents_entry s e Hw). rewrite E5 in He; [|done]. split; [done|lia].
Qed.

Lemma stores_serviced dk s hs l ps s' pid :
  stores dk s hs l → represents ps s' hs → services s s' → sl_applied s' ≤ applied l → offered ps s' → stores (reopen pid ps) s' hs (set_storage ps l).
Proof.
  intros [Hw R Es Ho Ha Hc Hs Hd Hh Hk] R' Hse Hap Ho'. pose proof (rp_wf _ _ _ R') as Hsw'. pose proof (sw_applied _ Hsw'). pose proof (rp_wf _ _ _ R) as Hsw.
  split; cbn; try done; try lia.
  - by destruct Hw; split.
  - destruct (pending_snapshot l) as [sn|]; [by destruct Hh|]. pose proof Hh as [H1 H2 H3 H4 H5]. destruct Hse as [E1 E2 E3 E4 E5].
    split; cbn; [lia| | |lia|by rewrite E3].
    + change (term_at l (sl_index s') = Some (sl_term s')). rewrite -E4. symmetry. apply saved_term; [done..|lia].
    + intros i Hi. change (sl_entry s' i = entry_at l i). rewrite E5; [|lia]. apply H3. lia.
  - intros e He. apply Hk. exact (services_kept _ _ _ Hsw Hsw' Hse He).
Qed.

Lemma stores_refitted dk s hs l ps s' pid :
  stores dk s hs l → represents ps s' hs → services s s' → sl_applied s' ≤ applied l → offered ps s' → IsEmptyHardState hs = false →
  refitted M hs l ps dk (reopen pid ps).
Proof.
  intros HP R' Hse Hap Ho' He. pose proof (stores_serviced _ _ _ _ _ _ pid HP R' Hse Hap Ho') as HP'.
  pose proof (stores_storage_ok _ _ _ _ _ _ HP') as Hok. destruct (stores_disk _ _ _ _ HP) as (Rd & _ & _). destruct (stores_disk _ _ _ _ HP') as (Rd' & Wd' & _).
  pose proof (rp_wf _ _ _ R') as Hsw'. pose proof (rp_wf _ _ _ Rd) as Hsw. pose proof (sw_applied _ Hsw'). destruct HP as [Hw _ _ _ Ha Hc _ _ _ _].
  split; [done|]. split; [eexists; by apply (InitialState_spec _ _ _ Rd')|]. eexists _, _. split; [apply (newLog_represents _ _ _ Rd)|].
  split; [apply (newLog_represents _ _ _ Rd')|]. split; [by apply opened_wf|]. pose proof (opened_at dk s) as Hop. pose proof (opened_at (reopen pid ps) s') as Hop'. cbn zeta in Hop, Hop'.
  pose proof Hse as [E1 E2 E3 E4 E5]. split; [exact E3|]. split; [exact E3|]. split; [cbn; lia|]. split_and!.
  - intros i Hi. destruct (Hop i Hsw) as (_ & _ & ->), (Hop' i Hsw') as (_ & _ & ->). by apply services_term.
  - intros i Hi. destruct (Hop i Hsw) as (_ & -> & _), (Hop' i Hsw') as (_ & -> & _). by apply E5.
  - intros sn [Hg|Hg].
    + destruct (gives_offered _ _ _ _ R' Ho' Hg) as [Hm (md & Hmd & Hr & Ht)]. split; [done|]. exists md. split_and!; [done|cbn; lia|lia|].
      by destruct (Hop' (md_Index md) Hsw') as (_ & _ & ->).
    + destruct (ps_gives _ _ _ _ Rd' Hg) as [Hx _]. by rewrite Wd' in Hx.
Qed.

(** ** Saving *)

Lemma ps_Append_same ps ents wb : region (ps_Append ps ents wb).1 = region ps ∧ snapState (ps_Append ps ents wb).1 = snapState ps.
Proof. unfold ps_Append. by destruct (last ents). Qed.
Lemma save_rest_same ps rd prev kvWB raftWB :
  region (save_rest ps rd prev kvWB raftWB) = region ps ∧ snapState (save_rest ps rd prev kvWB raftWB) = snapState ps.
Proof.
  unfold save_rest. pose proof (ps_Append_same ps (rd_Entries rd) raftWB) as [H1 H2]. destruct (ps_Append ps (rd_Entries rd) raftWB) as [ps1 wb1]. cbn in H1, H2.
  destruct (decide (0 < rl_LastIndex (raftState ps1) ∧ IsEmptyHardState (rd_HardState rd) = false)); done.
Qed.
Lemma clearExtraData_same ps rg : snapState (clearExtraData ps rg) = snapState ps.
Proof. unfold clearExtraData. by repeat case_match. Qed.

(** A snapshot replaces the region and the state of snapshots. *)
Lemma SaveReadyState_same ps rd ps' res :
  SaveReadyState ps rd = Ok (ps', res) →
  if IsEmptySnap (Some (rd_Snapshot rd)) then region ps' = region ps ∧ waiting ps' = waiting ps ∧ res = None
  else waiting ps' = None ∧ is_Some res ∧ sd_Region <$> Unmarshal (A := RaftSnapshotData) (default [] (sp_Data (rd_Snapshot rd))) = Some (Some (region ps')).
Proof.
  unfold SaveReadyState. intros H. apply bind_Ok in H as ([[[ps1 kvWB] raftWB] r] & H1 & [= <- <-]).
  destruct (save_rest_same ps1 rd (raftState ps) kvWB raftWB) as [E1 E2]. unfold waiting. rewrite E1 E2. destruct (IsEmptySnap _); cbn [negb] in H1; [by injection H1 as <- <- <- <-|].
  apply bind_Ok in H1 as ([[[ps2 kvWB2] raftWB2] r2] & H1 & [= <- <- <- <-]). unfold ps_ApplySnapshot in H1.
  destruct (Unmarshal (default [] (sp_Data (rd_Snapshot rd)))) as [sd|]; [|done]. destruct (sd_Region sd) as [rg|] eqn:Esd; [|done]. destruct (decide _); [done|].
  apply bind_Ok in H1 as ([kv3 raft3] & _ & H1). apply bind_Ok in H1 as (md & _ & [= <- <- <- <-]). cbn. by rewrite Esd.
Qed.

Lemma sorted_lookup {A} (R : A → A → Prop) (xs : list A) :
  (∀ i j x y, (i < j)%nat → xs !! i = Some x → xs !! j = Some y → R x y) → StronglySorted R xs.
Proof.
  induction xs as [|x xs IH]; intros H; [constructor|]. constructor.
  - apply IH. intros i j a b Hij Ha Hb. apply (H (S i) (S j)); [lia|done|done].
  - rewrite Forall_lookup. intros i y Hy. apply (H 0%nat (S i)); [lia|done|done].
Qed.

(** Terms in a log do not decrease, and are 64-bit numbers. *)
Definition terms_ok l : Prop :=
  ∀ i j ti tj, i ≤ j → term_at l i = Some ti → term_at l j = Some tj → ti ≤ tj ∧ is_u64 ti ∧ is_u64 tj.

(** What [Ready] gives of the log. *)
Record ready_of (prev hard : HardState) l (rd : Ready) : Prop := {
  rf_hard : rd_HardState rd = if bool_decide (hard = prev) then empty_hs else hard;
  rf_commit : hs_Commit hard = committed l;
  rf_ents : is_range l (stabled l + 1) (last_index l + 1) (rd_Entries rd);
  rf_snap : rd_Snapshot rd = with_metadata (default empty_snap (pending_snapshot l))
}.

Section Save.
Context (dk : PeerStorage D) (s : slog) (hs hard : HardState) (l : RaftLog (PeerStorage D)) (rd : Ready).
Context (HP : stores dk s hs l) (Hpos : 0 < sl_last s) (Ht : terms_ok l) (Hrd : ready_of hs hard l rd).
Context (Hu : hs_u64 hard) (Hid : metapb.Id (region dk) = rid) (HM : M ≠ ∅) (Hne : IsEmptyHardState hard = false).

Lemma ready_entry k e : rd_Entries rd !! k = Some e → entry_at l (stabled l + 1 + Z.of_nat k) = Some e ∧ e_Index e = stabled l + 1 + Z.of_nat k ∧
  stabled l + 1 + Z.of_nat k ≤ last_index l ∧ term_at l (stabled l + 1 + Z.of_nat k) = Some (e_Term e).
Proof.
  intros He. pose proof (so_wf _ _ _ _ _ _ HP) as Hw. destruct (rf_ents _ _ _ _ Hrd) as [Hz Hr]. pose proof (lookup_lt_Some _ _ _ He). unfold zlen in Hz.
  assert (Hek : entry_at l (stabled l + 1 + Z.of_nat k) = Some e).
  { rewrite -Hr; [|lia]. by replace (Z.to_nat (stabled l + 1 + Z.of_nat k - (stabled l + 1))) with k by lia. }
  split; [done|]. destruct (entry_at_Some _ _ _ Hw Hek) as [? ->]. split_and!; [done|lia|by apply entry_term].
Qed.
Lemma ready_numbered : numbered (stabled l + 1) (rd_Entries rd).
Proof. intros k e He. by apply ready_entry in He as (_ & -> & _). Qed.

(** Entries that follow what is stored can be saved. *)
Lemma ready_ents_ok s1 :
  sl_applied s1 ≤ stabled l ≤ sl_last s1 → (∀ t, sl_term_at s1 (stabled l) = Some t → term_at l (stabled l) = Some t) → ents_ok s1 (rd_Entries rd).
Proof.
  intros Hr Hst. pose proof (so_wf _ _ _ _ _ _ HP) as Hw. pose proof (lw_last _ Hw) as [? ?]. pose proof (lw_stable _ Hw). pose proof (lw_snap _ Hw).
  assert (Hterm : ∀ k e, rd_Entries rd !! k = Some e → is_u64 (e_Term e)) by (intros k e (_ & _ & _ & Hk)%ready_entry; by apply (Ht _ _ _ _ (Z.le_refl _) Hk Hk)).
  assert (Hall : ∀ e, e ∈ rd_Entries rd → ∃ k, rd_Entries rd !! k = Some e) by (intros e; apply list_elem_of_lookup_1). split.
  - intros e Hh. assert (He : rd_Entries rd !! 0%nat = Some e) by (by destruct (rd_Entries rd)). destruct (ready_entry _ _ He) as (_ & E & _).
    split; [lia|]. rewrite E Z.add_0_r. apply ready_numbered.
  - intros e He. rewrite last_lookup in He. destruct (ready_entry _ _ He) as (_ & -> & ? & _). split; lia.
  - rewrite Forall_forall. intros e (k & Hk)%Hall. destruct (ready_entry _ _ Hk) as (Hek & E & ? & _). apply wire_entry; [|by eapply Hterm|].
    + rewrite E. unfold is_u64, two64. lia.
    + apply (so_data _ _ _ _ _ _ HP). by eapply entry_at_elem.
  - apply sorted_lookup. intros i j x y Hij Hx Hy. rewrite !list_lookup_fmap in Hx, Hy.
    apply fmap_Some in Hx as (ex & Hx & ->). apply fmap_Some in Hy as (ey & Hy & ->).
    destruct (ready_entry _ _ Hx) as (_ & _ & _ & Tx), (ready_entry _ _ Hy) as (_ & _ & _ & Ty).
    refine (proj1 (Ht _ _ _ _ _ Tx Ty)). lia.
  - intros e t Hh Hst1. assert (He : rd_Entries rd !! 0%nat = Some e) by (by destruct (rd_Entries rd)). destruct (ready_entry _ _ He) as (_ & E & _ & Te).
    rewrite E in Hst1. replace (stabled l + 1 + Z.of_nat 0 - 1) with (stabled l) in Hst1 by lia. apply Hst in Hst1.
    refine (proj1 (Ht _ _ _ _ _ Hst1 Te)). lia.
  - rewrite Forall_fmap Forall_forall. intros e (k & Hk)%Hall. by eapply Hterm.
Qed.

(** Without a snapshot. *)
Lemma ready_plain : pending_snapshot l = None → IsEmptySnap (Some (rd_Snapshot rd)) = true ∧ ents_ok s (rd_Entries rd).
Proof.
  intros Hn. pose proof (so_wf _ _ _ _ _ _ HP) as Hw. pose proof (so_held _ _ _ _ _ _ HP) as Hh. rewrite Hn in Hh. split.
  - rewrite (rf_snap _ _ _ _ Hrd) Hn. done.
  - pose proof (so_applied _ _ _ _ _ _ HP). pose proof (so_stable _ _ _ _ _ _ HP). pose proof (rp_wf _ _ _ (so_rep _ _ _ _ _ _ HP)) as Hsw.
    pose proof (sw_applied _ Hsw). apply ready_ents_ok; [destruct Hh; lia|]. intros t. rewrite (saved_term l s) //. lia.
Qed.
(** With one. *)
Lemma ready_snap sn : pending_snapshot l = Some sn →
  ∃ md rg, rd_Snapshot rd = sn ∧ IsEmptySnap (Some sn) = false ∧ snap_ok rid hs rd md rg ∧ md_Index md = snapIndex l ∧ md_Term md = snapTerm l ∧
    ents_ok (mkSlog (md_Index md) (md_Term md) (md_Index md) []) (rd_Entries rd) ∧ snap_region M rid sn rg.
Proof.
  intros Hn. pose proof (so_wf _ _ _ _ _ _ HP) as Hw. pose proof (so_held _ _ _ _ _ _ HP) as Hh. rewrite Hn in Hh.
  destruct Hh as [(md & Hmd & Ei & Et) Est Hah (rg & Hrg)]. pose proof (so_applied _ _ _ _ _ _ HP) as Ha. pose proof (lw_applied _ Hw). pose proof (lw_commit _ Hw).
  pose proof (lw_last _ Hw) as [? ?]. assert (Esn : rd_Snapshot rd = sn) by (rewrite (rf_snap _ _ _ _ Hrd) Hn; cbn; unfold with_metadata; by rewrite Hmd).
  assert (Tsn : term_at l (snapIndex l) = Some (snapTerm l)) by (unfold term_at; by rewrite decide_True).
  assert (Hdiff : hard ≠ hs) by (intros E; pose proof (rf_commit _ _ _ _ Hrd); subst; lia).
  assert (Hhard : rd_HardState rd = hard) by (rewrite (rf_hard _ _ _ _ Hrd); by rewrite bool_decide_eq_false_2).
  exists md, rg. split_and!; [done| | |done|done| |done].
  - unfold IsEmptySnap. rewrite Hmd. apply bool_decide_eq_false_2. lia.
  - destruct Hrg as (Hd & Hi & HMr). split; rewrite ?Esn; try done.
    + intros E. rewrite E in HMr. cbn in HMr. done.
    + split; [lia|]. split; lia.
    + rewrite Et. by apply (Ht _ _ _ _ (Z.le_refl _) Tsn Tsn).
    + by rewrite Hhard.
    + by rewrite Hhard.
  - apply ready_ents_ok; unfold sl_last; cbn; [unfold zlen; cbn; lia|]. intros t. unfold sl_term_at. cbn. rewrite decide_True; [|lia]. intros [= <-]. by rewrite Est Tsn Et.
Qed.

(** A [Ready] has a snapshot where the log has one. *)
Lemma ready_kind : IsEmptySnap (Some (rd_Snapshot rd)) = match pending_snapshot l with Some _ => false | None => true end.
Proof.
  destruct (pending_snapshot l) as [sn|] eqn:Epd; [|by apply ready_plain].
  by destruct (ready_snap _ Epd) as (md & rg & -> & ? & _).
Qed.

Lemma ready_fit : PeerStorageSpec.ready_ok (storage l) s hs rd.
Proof.
  assert (Ereg : region (storage l) = region dk) by (by rewrite -(so_same _ _ _ _ _ _ HP)).
  assert (Hfr : isInitialized (storage l) ≠ false) by (intros E; pose proof (rp_fresh _ _ _ (so_rep _ _ _ _ _ _ HP) E); lia).
  assert (Hhu : hs_u64 (rd_HardState rd)).
  { rewrite (rf_hard _ _ _ _ Hrd). destruct (bool_decide _); [|done]. by unfold hs_u64, is_u64, two64. }
  destruct (pending_snapshot l) as [sn|] eqn:Epd.
  - destruct (ready_snap _ Epd) as (md & rg & Esn & Hemp & Hok & _ & _ & He & _). split; [| |done|done].
    + intros _. exists md, rg. by rewrite Ereg Hid.
    + by rewrite (sl_restore_snap _ _ _ _ _ _ Hok).
  - destruct (ready_plain Epd) as [Hemp He]. split; [by rewrite Hemp| |done|done]. unfold sl_restore. by rewrite Hemp.
Qed.

(** After the entries are spliced in, all of the log is stored. *)
Lemma splice_saved s1 :
  slog_wf s1 → saved l s1 → sl_index s1 ≤ stabled l → ents_ok s1 (rd_Entries rd) →
  let s2 := sl_splice s1 (rd_Entries rd) in
  sl_index s2 = sl_index s1 ∧ sl_applied s2 = sl_applied s1 ∧ sl_last s2 = last_index l ∧ saved (set_stabled (last_index l) l) s2 ∧
  (∀ i, i ≤ stabled l → sl_term_at s2 i = sl_term_at s1 i) ∧ ∀ e, e ∈ sl_ents s2 → e ∈ sl_ents s1 ∨ e ∈ entries l.
Proof.
  intros Hw1 Hsv Hi1 Ho. pose proof (so_wf _ _ _ _ _ _ HP) as Hw. pose proof (lw_stable _ Hw) as Hst. destruct (rf_ents _ _ _ _ Hrd) as [Hz Hr]. pose proof Hsv as [H1 H2 H3 H4 H5].
  destruct (rd_Entries rd) as [|e0 ents] eqn:Ees.
  { unfold zlen in Hz. cbn in Hz |- *. assert (Eq : stabled l = last_index l) by lia. split_and!; [done..|lia| |done|by left].
    split; cbn; [done|done| |lia|lia]. intros i Hi. apply H3. lia. }
  assert (E0 : e_Index e0 = stabled l + 1). { destruct (ready_entry 0 e0) as (_ & -> & _); [by rewrite Ees|lia]. }
  assert (Hent : ∀ i, sl_entry (sl_splice s1 (e0 :: ents)) i = if decide (stabled l + 1 ≤ i) then (e0 :: ents) !! Z.to_nat (i - (stabled l + 1)) else sl_entry s1 i)
    by (intros i; rewrite sl_splice_entry // E0; done).
  assert (Hlen : 0 < zlen (e0 :: ents)) by (unfold zlen; cbn; lia).
  assert (Hlast : sl_last (sl_splice s1 (e0 :: ents)) = last_index l).
  { destruct (last (e0 :: ents)) as [e|] eqn:El; [|by apply last_None in El]. destruct (sl_splice_last _ _ _ Hw1 Ho El) as [-> _].
    rewrite last_lookup -Ees in El. destruct (ready_entry _ _ El) as (_ & -> & _). rewrite Ees. unfold zlen in Hz. cbn [length] in *. lia. }
  split_and!; [done|done|done| | |].
  - split; cbn [set_stabled stabled snapIndex]; [done|done| |lia|].
    + intros i Hi. rewrite Hent. case_decide; [rewrite Hr //; lia|]. apply H3. cbn in Hi. lia.
    + rewrite Hlast. done.
  - intros i Hi. unfold sl_term_at. change (sl_index (sl_splice s1 (e0 :: ents))) with (sl_index s1). destruct (decide (i = sl_index s1)); [done|].
    rewrite Hent. destruct (decide (stabled l + 1 ≤ i)); [lia|done].
  - intros e [He|He]%elem_of_app; [left; exact (subseteq_take _ _ _ He)|right]. rewrite -Ees in He. apply list_elem_of_lookup_1 in He as [k Hk].
    destruct (ready_entry _ _ Hk) as (He & _). by eapply entry_at_elem.
Qed.

(** The log that was restored from the snapshot, or the stored one. *)
Lemma restored_saved : let s1 := sl_restore s (rd_Snapshot rd) in
  slog_wf s1 ∧ saved l s1 ∧ sl_index s1 ≤ stabled l ∧ sl_applied s1 ≤ committed l ∧ 0 < sl_last s1 ∧ ∀ e, e ∈ sl_ents s1 → e ∈ sl_ents s.
Proof.
  pose proof (so_wf _ _ _ _ _ _ HP) as Hw. pose proof (so_held _ _ _ _ _ _ HP) as Hh. pose proof (lw_commit _ Hw). pose proof (lw_stable _ Hw).
  pose proof (rp_wf _ _ _ (so_rep _ _ _ _ _ _ HP)) as Hsw. pose proof (sw_applied _ Hsw). pose proof (so_applied _ _ _ _ _ _ HP).
  pose proof (lw_applied _ Hw). pose proof (so_stable _ _ _ _ _ _ HP). destruct (pending_snapshot l) as [sn|] eqn:Epd.
  - destruct (ready_snap _ Epd) as (md & rg & Esn & Hemp & Hok & Ei & Et & _). cbn zeta. rewrite (sl_restore_snap _ _ _ _ _ _ Hok).
    destruct (so_index _ _ _ _ _ Hok) as [? ?]. destruct Hh as [_ Est _ _]. unfold sl_last. cbn. unfold zlen. cbn.
    split; [by apply restored_wf; [done|apply (so_term _ _ _ _ _ Hok)]|]. split_and!; [|lia..|by intros e ?%not_elem_of_nil].
    split; unfold sl_last; cbn; unfold zlen; cbn; try lia. rewrite Ei Et. unfold term_at. by rewrite decide_True.
  - destruct (ready_plain Epd) as [Hemp _]. unfold sl_restore. rewrite Hemp. split_and!; [done..|lia|lia|done|done].
Qed.

Lemma hard_saved : hs_save s hs rd = hard.
Proof.
  destruct restored_saved as (Hw1 & Hsv & Hi & _ & Hp1 & _). destruct (splice_saved _ Hw1 Hsv Hi (ro_ents _ _ _ _ ready_fit)) as (_ & _ & Hl & _).
  unfold hs_save, sl_save. rewrite Hl (rf_hard _ _ _ _ Hrd). destruct (decide (hard = hs)) as [E|E].
  - rewrite bool_decide_eq_true_2 //. rewrite decide_False; [done|]. by intros [_ ?].
  - rewrite bool_decide_eq_false_2 //. rewrite decide_True //. split; [|done]. destruct Hsv as [_ _ _ ? ?]. pose proof (lw_stable _ (so_wf _ _ _ _ _ _ HP)).
    pose proof (lw_snap _ (so_wf _ _ _ _ _ _ HP)). lia.
Qed.
End Save.

(** The region of a peer: its id and its members. *)
Definition region_ok (rg : metapb.Region) : Prop := metapb.Id rg = rid ∧ list_to_set (metapb.Peer_Id <$> metapb.Peers rg) = M.

Lemma advanced_pending (l l' : RaftLog (PeerStorage D)) :
  advanced l l' → (∀ sn, pending_snapshot l = Some sn → IsEmptySnap (Some sn) = false) → pending_snapshot l' = None.
Proof.
  intros ([->| ->] & _ & He) Hp; [|done]. cbn in He |- *. destruct (pending_snapshot l) as [sn|]; [|done]. by rewrite (Hp sn) in He.
Qed.

(** Saving a [Ready] stores the log it came from, and a restart finds it. *)
Lemma save_stores pid dk s hs hard l rd l' :
  stores dk s hs l → 0 < sl_last s → terms_ok l → ready_of hs hard l rd → hs_u64 hard → region_ok (region dk) → M ≠ ∅ → IsEmptyHardState hard = false →
  advanced l l' →
  ∃ ps res s', SaveReadyState (storage l) rd = Ok (ps, res) ∧ stores (reopen pid ps) s' hard (set_storage ps l') ∧ 0 < sl_last s' ∧ region_ok (region ps) ∧
    (res = None ↔ pending_snapshot l = None) ∧ (pending_snapshot l = None → region ps = region (storage l)) ∧
    persisted M hard l' ps ∧ persisted M hard l' (reopen pid ps).
Proof.
  intros HP Hpos Ht Hrd Hu [Hid Hmem] HM Hne Had. pose proof (ready_fit _ _ _ _ _ _ HP Hpos Ht Hrd Hu Hid HM Hne) as Hfit.
  destruct (SaveReadyState_spec _ _ _ _ (so_rep _ _ _ _ _ _ HP) Hfit) as (ps & res & Hsave & R). rewrite (hard_saved _ _ _ _ _ _ HP Hpos Ht Hrd Hu Hid HM Hne) in R.
  destruct (restored_saved _ _ _ _ _ _ HP Hpos Ht Hrd Hu Hid HM Hne) as (Hw1 & Hsv & Hi1 & Ha1 & Hp1 & Hk1).
  destruct (splice_saved _ _ _ _ _ _ HP Hrd _ Hw1 Hsv Hi1 (ro_ents _ _ _ _ Hfit)) as (Ei & Ea & El & Hsv2 & Hterm & Hk2). fold (sl_save s rd) in Ei, Ea, El, Hsv2, Hterm, Hk2.
  pose proof (so_wf _ _ _ _ _ _ HP) as Hw. pose proof (lw_commit _ Hw). pose proof (lw_snap _ Hw). pose proof (lw_stable _ Hw).
  assert (Hpend : ∀ sn, pending_snapshot l = Some sn → IsEmptySnap (Some sn) = false).
  { intros sn Hsn. by destruct (ready_snap _ _ _ _ _ _ HP Ht Hrd Hu Hid HM Hne _ Hsn) as (md & rg & _ & ? & _). }
  pose proof (ready_kind _ _ _ _ _ _ HP Ht Hrd Hu Hid HM Hne) as Hkind. pose proof (advanced_pending _ _ Had Hpend) as Hn'. pose proof (SaveReadyState_same _ _ _ _ Hsave) as Hsame.
  assert (Ereg : region (storage l) = region dk) by (by rewrite -(so_same _ _ _ _ _ _ HP)).
  assert (Hst : stores (reopen pid ps) (sl_save s rd) hard (set_storage ps l')).
  { split; cbn; try done.
    - by destruct Had as (_ & [] & _); split.
    - intros sn md Hwt Hmd Hle. destruct (IsEmptySnap (Some (rd_Snapshot rd))) eqn:Emp; [|by rewrite (proj1 Hsame) in Hwt].
      destruct Hsame as (_ & Ew & _). rewrite Ew in Hwt. assert (Er : sl_restore s (rd_Snapshot rd) = s) by (unfold sl_restore; by rewrite Emp). rewrite Er in Ei Ea Hterm.
      rewrite Ei in Hle. destruct (so_offer _ _ _ _ _ _ HP sn md Hwt Hmd Hle) as (? & ? & ? & ?). pose proof (so_applied _ _ _ _ _ _ HP). pose proof (so_stable _ _ _ _ _ _ HP).
      split_and!; [done..|lia|]. rewrite Hterm //. lia.
    - rewrite Ea (rf_commit _ _ _ _ Hrd). destruct Had as ([->| ->] & _); cbn; lia.
    - rewrite (rf_commit _ _ _ _ Hrd). destruct Had as ([->| ->] & _); cbn; lia.
    - destruct Had as ([->| ->] & _); cbn; lia.
    - destruct Had as ([->| ->] & _); apply (so_data _ _ _ _ _ _ HP).
    - rewrite Hn'. destruct Hsv2 as [? ? ? ? ?]. by destruct Had as ([->| ->] & _); split.
    - intros e [He|He]%Hk2; [by apply (so_kept _ _ _ _ _ _ HP), Hk1|by apply (so_data _ _ _ _ _ _ HP)]. }
  assert (Est : stabled l' = last_index l') by (by destruct Had as ([->| ->] & _)).
  assert (Hps : persisted M hard l' ps ∧ persisted M hard l' (reopen pid ps)) by (exact (stores_persisted _ _ _ _ Hst Hn' Est Hne)).
  exists ps, res, (sl_save s rd). split_and!; [done|done| | | | |by apply Hps|by apply Hps].
  - rewrite El. destruct Hsv. lia.
  - rewrite Hkind in Hsame. destruct (pending_snapshot l) as [sn|] eqn:Epd; [|destruct Hsame as (-> & _); by rewrite Ereg].
    destruct (ready_snap _ _ _ _ _ _ HP Ht Hrd Hu Hid HM Hne _ Epd) as (md & rg & Esn & _ & _ & _ & _ & _ & Hd & Hrg). rewrite Esn Hd in Hsame.
    by destruct Hsame as (_ & _ & [= <-]).
  - rewrite Hkind in Hsame. destruct (pending_snapshot l); cbn in Hsame; [destruct Hsame as (_ & [? ->] & _); done|by destruct Hsame as (_ & _ & ->)].
  - intros Epd. rewrite Hkind Epd in Hsame. by destruct Hsame.
Qed.
End PeerSave.
