(* ===== verification/PeerWorkers.v ===== *)
(** The store's workers on the engines of a peer: the GC of its raft log
    (kv/raftstore/runner/raftlog_gc.go), the making of its snapshots
    (kv/raftstore/runner/region_task.go), and the apply state that its applier
    writes.  Each leaves the stored log as [services] allows. *)

From S2P Require Import Prelude Pb RaftPb RaftStorage RaftLog RaftLogSpec Raft RawNode Engine RaftMeta PeerStorage PeerStorageSpec Election RaftTree RaftSafety Cluster RaftLogSteps RaftGroup Peer PeerLog PeerSave.

Section Workers.
Context {D : Type} `{!Badger D}.
Context `{!Proto Entry, !Proto RaftLocalState, !Proto RaftApplyState, !Proto RegionLocalState, !Proto RaftSnapshotData}.

(** ** raftlog_gc.go *)

(** The index to start from: without one, that of the first key the iterator finds
    from the start of the region's log. *)
Definition gc_first (raftDb : D) (regionId startIdx endIdx : Z) : outcome string Z :=
  if decide (startIdx = 0) then
    match db_from raftDb (RaftLogKey regionId 0) with
    | (k, _) :: _ => RaftLogIndex k
    | [] => Ok endIdx
    end
  else Ok startIdx.

(** The engine afterwards, and the count. *)
Definition gcRaftLog (raftDb : D) (regionId startIdx endIdx : Z) : outcome string (D * Z) :=
  firstIdx ← gc_first raftDb regionId startIdx endIdx;
  if decide (endIdx ≤ firstIdx) then Ok (raftDb, 0)
  else
    let raftWb := foldl (λ wb idx, DeleteMeta wb (RaftLogKey regionId idx)) empty_wb (index_range firstIdx (endIdx - 1)) in
    Ok (if decide (wb_Len raftWb ≠ 0) then WriteToDB raftWb raftDb else raftDb, endIdx - firstIdx).

(** ** region_task.go *)

Definition getAppliedIdxTermForSnapshot (raft kv : D) (regionId : Z) : outcome engine_error (Z * Z) :=
  applyState ← GetMeta (A := RaftApplyState) kv (ApplyStateKey regionId);
  match TruncatedState applyState with
  | None => Panic "nil pointer dereference"
  | Some ts =>
    let idx := AppliedIndex applyState in
    if decide (idx = tr_Index ts) then Ok (idx, tr_Term ts)
    else entry ← GetRaftEntry raft regionId idx; Ok (idx, e_Term entry)
  end.

(** [Build] writes the files of the snapshot. *)
Definition doSnapshot (Build : metapb.Region → outcome string unit) (engines : Engines D) (regionId : Z) : outcome string Snapshot :=
  '(index, term) ← with_err (λ _, "engine error"%string) (getAppliedIdxTermForSnapshot (RaftDB engines) (Kv engines) regionId);
  regionState ← must (GetMeta (A := RegionLocalState) (Kv engines) (RegionStateKey regionId));
  match rg_State regionState, rg_Region regionState with
  | PeerState_Tombstone, _ => Err "snap job seems stale, skip"%string
  | PeerState_Normal, None => Panic "nil pointer dereference"
  | PeerState_Normal, Some rg =>
    _ ← Build rg;
    Ok (mkSnapshot (Some (Marshal (mkRaftSnapshotData (Some rg)))) (Some (mkSnapshotMetadata (Some (ConfStateFromRegion rg)) index term)))
  end.
(** The result goes into the channel that the peer storage waits on. *)
Definition handleGen (Build : metapb.Region → outcome string unit) (engines : Engines D) (regionId : Z) : outcome string (option Snapshot) :=
  match doSnapshot Build engines regionId with
  | Ok snap => Ok (Some snap)
  | Err _ => Ok None
  | Panic w => Panic w
  | OutOfFuel => OutOfFuel
  end.

(** ** What they do to a stored log *)

Context {messages : StoreMessages}.
Context (M : gset Z) (rid : Z).
Implicit Types (ps : PeerStorage D) (s : slog).

Definition set_kv (kdb : D) ps : PeerStorage D := set_Engines (mkEngines kdb (RaftDB (ps_Engines ps))) ps.
Definition set_raft (rdb : D) ps : PeerStorage D := set_Engines (mkEngines (Kv (ps_Engines ps)) rdb) ps.
Definition put_snapshot (sn : option Snapshot) ps : PeerStorage D := set_snapState (SnapState_Generating (Some sn)) ps.

Lemma services_refl s : slog_wf s → services s s.
Proof. intros Hw. split; try done; try lia. unfold sl_term_at. by rewrite decide_True. Qed.

(** *** The applier *)

(** Entries up to [a] applied, those up to [i] dropped. *)
Definition sl_advance (a i t : Z) s : slog := mkSlog i t a (drop (Z.to_nat (i - sl_index s)) (sl_ents s)).

Lemma sl_advance_entry s a i t j : sl_index s ≤ i → i < j → sl_entry (sl_advance a i t s) j = sl_entry s j.
Proof.
  intros Hi Hj. unfold sl_entry, sl_advance. cbn. rewrite !decide_True; [|lia..]. rewrite lookup_drop. f_equal. lia.
Qed.
Lemma sl_advance_last s a i t : sl_index s ≤ i ≤ sl_last s → sl_last (sl_advance a i t s) = sl_last s.
Proof. unfold sl_last, sl_advance, zlen. cbn. rewrite length_drop. lia. Qed.

(** The terms, from the dropped one on. *)
Lemma sl_advance_terms s a i t :
  slog_wf s → sl_index s ≤ i → sl_term_at s i = Some t →
  t :: (e_Term <$> sl_ents (sl_advance a i t s)) = drop (Z.to_nat (i - sl_index s)) (sl_term s :: (e_Term <$> sl_ents s)).
Proof.
  intros Hw Hi Ht. cbn [sl_advance sl_ents]. rewrite fmap_drop. unfold sl_term_at in Ht. destruct (decide (i = sl_index s)) as [->|Hne].
  - injection Ht as <-. replace (Z.to_nat (sl_index s - sl_index s)) with 0%nat by lia. by rewrite !drop_0.
  - apply fmap_Some in Ht as (e & He & ->). unfold sl_entry in He. rewrite decide_True in He; [|lia].
    replace (Z.to_nat (i - sl_index s)) with (S (Z.to_nat (i - sl_index s - 1))) by lia. cbn [drop]. symmetry. apply drop_S. by rewrite list_lookup_fmap He.
Qed.
Lemma sl_advance_wf s a i t :
  slog_wf s → sl_index s ≤ i ≤ a → a ≤ sl_last s → sl_term_at s i = Some t → slog_wf (sl_advance a i t s).
Proof.
  intros Hw Hi Ha Ht. pose proof (sl_advance_terms s a i t Hw (proj1 Hi) Ht) as Et. pose proof (sw_index _ Hw).
  assert (Hl : sl_last (sl_advance a i t s) = sl_last s) by (apply sl_advance_last; lia).
  split; rewrite ?Hl; try (cbn; lia); try apply Hw.
  - intros k e He. cbn in He |- *. rewrite lookup_drop in He. apply (sw_num _ Hw) in He. lia.
  - cbn. apply Forall_drop, Hw.
  - change (sl_term (sl_advance a i t s)) with t. rewrite Et. pose proof (sw_terms _ Hw) as Hs.
    rewrite -(take_drop (Z.to_nat (i - sl_index s)) (sl_term s :: _)) in Hs. by eapply StronglySorted_app_1_r.
  - change (sl_term (sl_advance a i t s)) with t. rewrite Et. apply Forall_drop, Hw.
Qed.
Lemma sl_advance_services s a i t :
  slog_wf s → sl_index s ≤ i ≤ a → sl_applied s ≤ a ≤ sl_last s → sl_term_at s i = Some t → services s (sl_advance a i t s).
Proof.
  intros Hw Hi Ha Ht. split; try (cbn; lia); [apply sl_advance_last; lia|done|]. intros j Hj. apply sl_advance_entry; [lia|done].
Qed.

Lemma sl_advance_last_term s a i t :
  slog_wf s → sl_index s ≤ i ≤ sl_last s → sl_term_at s i = Some t → sl_last_term (sl_advance a i t s) = sl_last_term s.
Proof.
  intros Hw Hi Ht. assert (Hlt : ∀ x, sl_last_term x = default 0 (last (sl_term x :: (e_Term <$> sl_ents x)))).
  { intros x. unfold sl_last_term. rewrite last_cons fmap_last. by destruct (last (sl_ents x)). }
  rewrite !Hlt. change (sl_term (sl_advance a i t s)) with t. rewrite (sl_advance_terms s a i t Hw (proj1 Hi) Ht).
  rewrite !last_lookup lookup_drop length_drop. f_equal. f_equal. cbn [length]. rewrite length_fmap. unfold sl_last, zlen in Hi. lia.
Qed.

(** The apply state that the applier writes moves the applied index and may drop
    applied entries. *)
Lemma represents_applied ps s hs kdb a i t :
  represents ps s hs → db_ok kdb →
  db_get kdb (ApplyStateKey (metapb.Id (region ps))) = Some (Marshal (mkRaftApplyState a (Some (mkRaftTruncatedState i t)))) →
  sl_index s ≤ i ≤ a → sl_applied s ≤ a ≤ sl_last s → sl_term_at s i = Some t →
  represents (set_kv kdb ps) (sl_advance a i t s) hs ∧ services s (sl_advance a i t s).
Proof.
  intros R Hok Hk Hi Ha Ht. pose proof (rp_wf _ _ _ R) as Hw. split; [|by apply sl_advance_services].
  assert (Hl : sl_last (sl_advance a i t s) = sl_last s) by (apply sl_advance_last; lia). destruct R as [_ R1 R2 R3 R4 R5 R6 R7 R8].
  split; rewrite ?Hl ?sl_advance_last_term; try done; try lia; [apply sl_advance_wf; [done..|lia|done]|].
  destruct R7 as [L1 L2 L3]. split; [|by rewrite Hl|done]. intros j e He. apply L1. rewrite -(sl_advance_entry s a i t); [done|lia|].
  apply sl_entry_Some in He; [|apply sl_advance_wf; [done..|lia|done]]. cbn in He. lia.
Qed.

(** *** The GC of the log *)

Lemma gc_first_u64 (rdb : D) r a b i : is_u64 a → is_u64 b → gc_first rdb r a b = Ok i → is_u64 i.
Proof.
  intros Ha Hb. unfold gc_first. destruct (decide _); [|by intros [= <-]]. destruct (db_from _ _) as [|[k v] x]; [by intros [= <-]|].
  unfold RaftLogIndex. destruct (decide _); [done|]. intros H. apply bind_Ok in H as (f & _ & H). unfold Uint64 in H. destruct (decide _); [|done].
  injection H as <-. pose proof (get_be_bound (take 8 f)) as Hr. unfold zlen in Hr. rewrite length_take in Hr. unfold is_u64, two64. replace (8 `min` length f)%nat with 8%nat in Hr by lia. lia.
Qed.

(** It deletes entries below [endIdx] only. *)
Lemma gcRaftLog_get (rdb : D) r a b rdb' c k :
  gcRaftLog rdb r a b = Ok (rdb', c) → db_ok rdb → is_u64 a → is_u64 b →
  db_ok rdb' ∧ (db_get rdb' k = db_get rdb k ∨ db_get rdb' k = None ∧ ∃ j, is_u64 j ∧ j < b ∧ k = RaftLogKey r j).
Proof.
  unfold gcRaftLog. intros H Hok Ha Hb. apply bind_Ok in H as (i & Hi & H). apply gc_first_u64 in Hi; [|done..].
  destruct (decide (b ≤ i)); [injection H as <- <-; auto|]. injection H as <- <-. destruct (decide _); [|auto]. split; [by apply WriteToDB_ok|].
  set (wb := foldl _ _ _). assert (He : wb_entries wb = (λ j, (RaftLogKey r j, [])) <$> index_range i (b - 1)) by (unfold wb; by rewrite (foldl_DeleteMeta_entries (RaftLogKey r))).
  assert (Hd : deletes wb) by (unfold deletes; rewrite He; by apply Forall_fmap, Forall_true). rewrite WriteToDB_deletes //. case_decide as Hin; [right|by left]. split; [done|].
  rewrite He -list_fmap_compose in Hin. apply list_elem_of_fmap in Hin as (j & -> & Hj%elem_of_seqZ). exists j. unfold is_u64 in *. split_and!; [lia|lia|lia|done].
Qed.

Lemma represents_gc ps s hs a b rdb c :
  represents ps s hs → gcRaftLog (RaftDB (ps_Engines ps)) (metapb.Id (region ps)) a b = Ok (rdb, c) → is_u64 a → is_u64 b → b ≤ sl_index s + 1 →
  represents (set_raft rdb ps) s hs ∧ services s s.
Proof.
  intros R H Ha Hb Hle. pose proof (rp_wf _ _ _ R) as Hw. split; [|by apply services_refl]. pose proof (rp_raft _ _ _ R) as Hok.
  pose proof (λ k, gcRaftLog_get _ _ _ _ _ _ k H Hok Ha Hb) as Hg. pose proof (sw_last _ Hw) as Hl. unfold idx_ok in Hl. pose proof (sw_index _ Hw).
  destruct R as [_ R1 R2 R3 R4 R5 R6 [L1 L2 L3] R8]. split; try done.
  - apply (Hg []).
  - intros Hp. destruct (Hg (RaftStateKey (metapb.Id (region ps)))) as [_ [E|[_ (j & _ & _ & E)]]]; [cbn; rewrite E; auto|by symmetry in E; apply RaftLogKey_not_state in E].
  - split.
    + intros j e He. destruct (Hg (RaftLogKey (metapb.Id (region ps)) j)) as [_ [E|[_ (j' & Hu & Hj' & E)]]]; [cbn; rewrite E; auto|]. exfalso.
      apply (sl_entry_Some _ _ _ Hw) in He as [? _]. apply RaftLogKey_inj in E; [lia| |done]. unfold is_u64, two64. lia.
    + intros j Hj Hu. destruct (Hg (RaftLogKey (metapb.Id (region ps)) j)) as [_ [E|[E _]]]; [cbn; rewrite E; auto|done].
    + intros k v Hk. destruct (Hg k) as [_ [E|[E _]]]; cbn in Hk; [rewrite E in Hk; by eapply L3|by rewrite E in Hk].
Qed.

(** *** Snapshots *)

Lemma getAppliedIdxTermForSnapshot_spec ps s hs :
  represents ps s hs → ∃ t, sl_term_at s (sl_applied s) = Some t ∧
    getAppliedIdxTermForSnapshot (RaftDB (ps_Engines ps)) (Kv (ps_Engines ps)) (metapb.Id (region ps)) = Ok (sl_applied s, t).
Proof.
  intros R. pose proof (rp_wf _ _ _ R) as Hw. pose proof (sw_applied _ Hw). unfold getAppliedIdxTermForSnapshot.
  rewrite (GetMeta_Marshal _ _ _ (rp_apply _ _ _ R)); [|by apply apply_state_wire]. cbn [mbind outcome_bind apply_state TruncatedState AppliedIndex tr_Index tr_Term].
  unfold sl_term_at. destruct (decide (sl_applied s = sl_index s)) as [E|Hne]; [by exists (sl_term s)|].
  destruct (sl_entry_is_Some s (sl_applied s)) as [e He]; [lia|]. exists (e_Term e). rewrite He. split; [done|]. unfold GetRaftEntry.
  rewrite (GetMeta_Marshal _ _ e); [done|by apply (la_entry _ _ _ (rp_log _ _ _ R))|]. pose proof (sw_wire _ Hw) as Hx. rewrite Forall_forall in Hx. apply Hx.
  unfold sl_entry in He. case_decide; [|done]. by eapply list_elem_of_lookup_2.
Qed.

(** A snapshot of the region on the disk is of the applied position. *)
Lemma handleGen_offered ps s hs Build rg sn :
  represents ps s hs → GetMeta (Kv (ps_Engines ps)) (RegionStateKey (metapb.Id (region ps))) = Ok (mkRegionLocalState PeerState_Normal (Some rg)) →
  wire (mkRaftSnapshotData (Some rg)) → region_ok M rid rg → handleGen Build (ps_Engines ps) (metapb.Id (region ps)) = Ok sn →
  represents (put_snapshot sn ps) s hs ∧ services s s ∧ offered M rid (put_snapshot sn ps) s.
Proof.
  intros R Hrg Hwire [Hid HM] H. split_and!; [by destruct R|by apply services_refl, (rp_wf _ _ _ R)|]. intros x md Hw Hmd Hle. cbn in Hw. injection Hw as <-.
  revert H. unfold handleGen, doSnapshot. destruct (getAppliedIdxTermForSnapshot_spec _ _ _ R) as (t & Ht & ->). cbn [with_err mbind outcome_bind]. rewrite Hrg. cbn [must mbind outcome_bind rg_State rg_Region].
  destruct (Build rg) as [[]| | |]; cbn [mbind outcome_bind]; intros [= <-]; [|done]. cbn in Hmd. injection Hmd as <-. split_and!; [|intros md cs [= <-] [= <-]; exact HM|cbn; lia|done].
  exists rg. split; [|done]. cbn [sp_Data default]. by rewrite Unmarshal_Marshal.
Qed.
End Workers.
