(* ===== verification/PeerReady.v ===== *)
(** [HandleRaftReady] of a peer whose log is stored: it returns, what it saves is
    the log, and what it sends and hands to the applier is what raft gave it. *)

From S2P Require Import Prelude Pb RaftPb RaftStorage RaftLog RaftLogSpec Raft RawNode Engine RaftMeta PeerStorage PeerStorageSpec RaftCmd Applier Election RaftTree RaftSafety Cluster RaftLogSteps RaftGroup Peer PeerLog PeerSave.

(** ** [Advance] *)

Section Advance.
Context {T : Type} {HS : RaftStorage T} {HG : GoEnv}.
Implicit Types (l : RaftLog T) (rn : RawNode T).

(** It does not look at the storage. *)
Lemma appliedTo_storage st l i : appliedTo (set_storage st l) i = (l' ← appliedTo l i; Ok (set_storage st l')).
Proof. unfold appliedTo. cbn. by repeat destruct (decide _). Qed.
Lemma stableTo_storage st l i t : stableTo (set_storage st l) i t = (l' ← stableTo l i t; Ok (set_storage st l')).
Proof.
  unfold stableTo. change (matchTerm (set_storage st l) i t) with (matchTerm l i t). destruct (matchTerm l i t); [|done..].
  cbn. by destruct (decide _).
Qed.
Lemma stableSnapTo_storage st l i : stableSnapTo (set_storage st l) i = (l' ← stableSnapTo l i; Ok (set_storage st l')).
Proof.
  unfold stableSnapTo. cbn. destruct (pending_snapshot l) as [s|]; [|done]. destruct (snap_meta s); [|done..]. cbn. by destruct (decide _).
Qed.

Lemma Advance_stored st rn rd : Advance (set_stored st rn) rd = (rn' ← Advance rn rd; Ok (set_stored st rn')).
Proof.
  assert (H1 : ∀ i l, (if decide (i ≠ 0) then appliedTo (set_storage st l) i else Ok (set_storage st l)) =
    (l' ← (if decide (i ≠ 0) then appliedTo l i else Ok l); Ok (set_storage st l'))).
  { intros i l. destruct (decide _); [apply appliedTo_storage|done]. }
  assert (H2 : ∀ es l, (if decide (0 < zlen es) then e ← go_index es (zlen es - 1); stableTo (set_storage st l) (e_Index e) (e_Term e) else Ok (set_storage st l)) =
    (l' ← (if decide (0 < zlen es) then e ← go_index es (zlen es - 1); stableTo l (e_Index e) (e_Term e) else Ok l); Ok (set_storage st l'))).
  { intros es l. destruct (decide _); [|done]. destruct (go_index es _); [|done..]. apply stableTo_storage. }
  assert (H3 : ∀ sn l, (if negb (IsEmptySnap (Some sn)) then md ← snap_meta sn; stableSnapTo (set_storage st l) (md_Index md) else Ok (set_storage st l)) =
    (l' ← (if negb (IsEmptySnap (Some sn)) then md ← snap_meta sn; stableSnapTo l (md_Index md) else Ok l); Ok (set_storage st l'))).
  { intros sn l. destruct (negb _); [|done]. destruct (snap_meta sn); [|done..]. apply stableSnapTo_storage. }
  unfold Advance. cbn [set_stored set_Raft rn_Raft set_raftLog r_raftLog prevSoftSt prevHardSt]. rewrite H1.
  destruct (if decide (hs_Commit _ ≠ 0) then _ else _) as [l1| | |]; [|done..]. cbn [mbind outcome_bind]. rewrite H2.
  destruct (if decide (0 < _) then _ else _) as [l2| | |]; [|done..]. cbn [mbind outcome_bind]. rewrite H3.
  by destruct (if negb (IsEmptySnap _) then _ else _).
Qed.

(** Nor at messages and committed entries. *)
Lemma Advance_same rn rd rd' :
  rd_SoftState rd' = rd_SoftState rd → rd_HardState rd' = rd_HardState rd → rd_Entries rd' = rd_Entries rd →
  IsEmptySnap (Some (rd_Snapshot rd')) = IsEmptySnap (Some (rd_Snapshot rd)) →
  (IsEmptySnap (Some (rd_Snapshot rd)) = false → rd_Snapshot rd' = rd_Snapshot rd) → Advance rn rd' = Advance rn rd.
Proof. intros E1 E2 E3 E4 E5. unfold Advance. rewrite E1 E2 E3 E4. by destruct (IsEmptySnap (Some (rd_Snapshot rd))); [|rewrite E5]. Qed.

Lemma with_metadata_same sn :
  IsEmptySnap (Some (with_metadata sn)) = IsEmptySnap (Some sn) ∧ (IsEmptySnap (Some sn) = false → with_metadata sn = sn).
Proof. unfold with_metadata, IsEmptySnap. destruct (sp_Metadata sn) as [md|] eqn:E; [by rewrite E|done]. Qed.
End Advance.

Section PeerReady.
Context {D : Type} `{!Badger D} {HG : GoEnv}.
Context `{!Proto Entry, !Proto RaftLocalState, !Proto RaftApplyState, !Proto RegionLocalState, !Proto RaftSnapshotData}.
Context `{!Proto RaftCmdRequest, !Proto metapb.Region, !Proto ConfChange}.
Context {messages : StoreMessages} {entry_messages : EntryMessages}.
Context (M : gset Z) (rid : Z).
Implicit Types (p : peer D) (s : slog) (o : outbox).
Notation stores := (stores M rid).
Notation region_ok := (region_ok M rid).

(** ** What sending changes *)

(** A peer without its caches. *)
Definition uncached p : peer D := set_p_tape 0 (set_PendingTime ∅ (set_peerCache ∅ p)).

Lemma uncached_same p p' : uncached p' = uncached p →
  RaftGroup p' = RaftGroup p ∧ Meta p' = Meta p ∧ regionId p' = regionId p ∧ stopped p' = stopped p ∧ applyProposals p' = applyProposals p ∧ LastApplyingIdx p' = LastApplyingIdx p.
Proof. unfold uncached. destruct p, p'. cbn. naive_solver. Qed.
Lemma uncached_set_RaftGroup rn p p' : uncached p' = uncached p → uncached (set_RaftGroup rn p') = uncached (set_RaftGroup rn p).
Proof. unfold uncached. destruct p, p'. cbn. naive_solver. Qed.

(** Messages in the transport are among those of raft, for the peer they name. *)
Definition sent_from (ms : list Message) (new : list RaftMessage) : Prop :=
  ∀ rm, rm ∈ new → ∃ m, m ∈ ms ∧ rm_Message rm = Some m ∧ ∃ x, ToPeer rm = Some x ∧ metapb.Peer_Id x = To m.

(** The cache holds peers under their ids. *)
Definition cache_ok p : Prop := ∀ i x, peerCache p !! i = Some x → metapb.Peer_Id x = i.

Lemma getPeerFromCache_same p i p' r : getPeerFromCache p i = (p', r) → uncached p' = uncached p.
Proof. unfold getPeerFromCache. by repeat case_match; intros [= <- <-]. Qed.
Lemma getPeerFromCache_id p i p' r :
  cache_ok p → getPeerFromCache p i = (p', r) → cache_ok p' ∧ ∀ x, r = Some x → metapb.Peer_Id x = i.
Proof.
  unfold getPeerFromCache. intros Hc. destruct (peerCache p !! i) as [x|] eqn:E; [intros [= <- <-]; split; [done|]; intros y [= <-]; by apply Hc|].
  destruct (head _) as [x|] eqn:Eh; intros [= <- <-]; [|by split].
  assert (Hx : metapb.Peer_Id x = i).
  { assert (Hin : x ∈ filter (λ x, metapb.Peer_Id x = i) (metapb.Peers (p_Region p))) by (by apply head_Some_elem_of).
    by apply list_elem_of_filter in Hin as [? _]. }
  split; [|by intros y [= <-]]. intros j y. cbn. rewrite Hx. destruct (decide (j = i)) as [->|Hne]; [rewrite lookup_insert_eq; intros [= <-]; done|].
  rewrite lookup_insert_ne //. apply Hc.
Qed.

Lemma sendRaftMessage_spec p o m p' o' :
  cache_ok p → sendRaftMessage p o m = (p', o') →
  uncached p' = uncached p ∧ cache_ok p' ∧ ∃ new, o_trans o' = o_trans o ++ new ∧ sent_from [m] new.
Proof.
  unfold sendRaftMessage. intros Hc. destruct (getPeerFromCache p (To m)) as [p1 r] eqn:E. pose proof (getPeerFromCache_same _ _ _ _ E) as Hs.
  destruct (getPeerFromCache_id _ _ _ _ Hc E) as [Hc1 Hid]. destruct r as [x|]; intros [= <- <-]; (split_and!; [done..|]).
  - eexists. split; [done|]. intros rm ->%list_elem_of_singleton. exists m. split_and!; [by apply list_elem_of_singleton|done|]. exists x. by split; [|apply Hid].
  - exists []. split; [by rewrite app_nil_r|]. by intros rm ?%not_elem_of_nil.
Qed.
Lemma p_Send_spec ms p o p' o' :
  cache_ok p → p_Send p o ms = (p', o') → uncached p' = uncached p ∧ cache_ok p' ∧ ∃ new, o_trans o' = o_trans o ++ new ∧ sent_from ms new.
Proof.
  revert p o. induction ms as [|m ms IH]; intros p o Hc H; cbn in H.
  { injection H as <- <-. split_and!; [done..|]. exists []. split; [by rewrite app_nil_r|]. by intros rm ?%not_elem_of_nil. }
  destruct (sendRaftMessage p o m) as [p1 o1] eqn:E. destruct (sendRaftMessage_spec _ _ _ _ _ Hc E) as (Hs1 & Hc1 & n1 & E1 & F1).
  destruct (IH _ _ Hc1 H) as (Hs2 & Hc2 & n2 & E2 & F2). split_and!; [congruence|done|]. exists (n1 ++ n2). split; [by rewrite E2 E1 app_assoc|].
  intros rm [Hm|Hm]%elem_of_app.
  - destruct (F1 rm Hm) as (m' & ->%list_elem_of_singleton & ?). exists m. split; [by left|done].
  - destruct (F2 rm Hm) as (m' & ? & ?). exists m'. split; [by right|done].
Qed.

Lemma pending_loop_spec progress ti now ids p acc p' r :
  cache_ok p → pending_loop progress ti now ids p acc = (p', r) → uncached p' = uncached p ∧ cache_ok p'.
Proof.
  revert p acc. induction ids as [|i ids IH]; intros p acc Hc H; cbn in H; [by injection H as <- _|].
  destruct (decide (i = PeerId p)); [by eapply IH|]. destruct (progress !! i); [|by eapply IH]. destruct (decide _); [|by eapply IH].
  destruct (getPeerFromCache p i) as [p1 [x|]] eqn:E; pose proof (getPeerFromCache_same _ _ _ _ E) as Hs; destruct (getPeerFromCache_id _ _ _ _ Hc E) as [Hc1 _].
  - destruct (PeersStartPendingTime p1 !! i); apply IH in H as [Hs2 ?]; try exact Hc1; (split; [|done]); by rewrite Hs2 -Hs.
  - destruct (IH _ _ Hc1 H). split; [congruence|done].
Qed.
Lemma HeartbeatScheduler_spec p o now ti :
  truncatedIndex (peerStorage p) = Ok ti → cache_ok p →
  ∃ p' o', HeartbeatScheduler p o now = Ok (p', o') ∧ uncached p' = uncached p ∧ cache_ok p' ∧ o_trans o' = o_trans o.
Proof.
  intros Ht Hc. unfold HeartbeatScheduler. destruct (CloneMsg (p_Region p)) as [rg|]; [|by exists p, o]. unfold CollectPendingPeers. rewrite Ht. cbn [must mbind outcome_bind].
  destruct (pending_loop _ _ _ _ _ _) as [p1 r] eqn:E. destruct (pending_loop_spec _ _ _ _ (set_p_tape (S (p_tape p)) p) _ _ _ Hc E) as [Hs ?]. eexists _, _. split_and!; [done|exact Hs|done|done].
Qed.

(** ** [HandleRaftReady] *)

(** The committed entries that messages hand to the applier. *)
Definition handed (ms : list (Z * apply_task)) : list Entry :=
  ms ≫= λ x, match x.2 with MsgApplyCommitted _ es => es | _ => [] end.
Lemma handed_app ms ms' : handed (ms ++ ms') = handed ms ++ handed ms'.
Proof. apply bind_app. Qed.

Record peer_stored (n : Z) p s : Prop := {
  pd_id : PeerId p = n;
  pd_stores : stores (reopen n (peerStorage p)) s (prevHardSt (RaftGroup p)) (r_raftLog (p_Raft p));
  pd_last : 0 < sl_last s;
  pd_region : region_ok (p_Region p);
  pd_hard : IsEmptyHardState (prevHardSt (RaftGroup p)) = false;
  pd_msgs m : m ∈ r_msgs (p_Raft p) → carried M rid (m_Entries m) (m_Snapshot m);
  pd_cache : cache_ok p
}.

Lemma stored_uncached n p p' s : uncached p' = uncached p → cache_ok p' → peer_stored n p s → peer_stored n p' s.
Proof.
  intros (E1 & E2 & _)%uncached_same Hc []. split; try done; unfold PeerId, p_Region, peerStorage, p_Raft in *; by rewrite ?E1 ?E2.
Qed.

(** What the invariants of raft add: the numbers are in range, and terms in the
    log do not decrease. *)
Record raft_fit (r : Raft (PeerStorage D)) (hs : HardState) : Prop := {
  ra_terms : terms_ok (r_raftLog r);
  ra_hard : hs_u64 (hardState r);
  ra_empty : hardState r = empty_hs → hs = empty_hs
}.

Lemma ps_AppliedIndex_spec ps s hs : represents ps s hs → ps_AppliedIndex ps = Ok (sl_applied s).
Proof. intros R. unfold ps_AppliedIndex, GetApplyState. rewrite (GetMeta_Marshal _ _ _ (rp_apply _ _ _ R)); [done|]. by apply apply_state_wire, (rp_wf _ _ _ R). Qed.

Lemma HasReady_ok (rn : RawNode (PeerStorage D)) : log_wf (r_raftLog (rn_Raft rn)) → ∃ b, HasReady rn = Ok b.
Proof.
  intros Hw. unfold HasReady. repeat (destruct (negb _); cbn [andb]; [by eexists|]). repeat (match goal with |- context [if ?c then Ok true else _] => destruct c; [by eexists|] end).
  destruct (unstableEntries_wf _ Hw) as (ue & -> & _). cbn [mbind outcome_bind]. destruct (decide _); [by eexists|]. unfold hasNextEnts, hasNextEntsSince.
  rewrite firstIndex_wf //. cbn [mbind outcome_bind]. by eexists.
Qed.

Lemma idle_ok n p s : peer_stored n p s → ∃ b, idle p = Ok b.
Proof.
  intros [_ HP _ _ _ _ _]. unfold idle. destruct (stopped p); [by eexists|].
  assert (Hw : ∃ w, (if HasPendingSnapshot p then ready ← ReadyToHandlePendingSnap p; Ok (negb ready) else Ok false) = Ok (E := cmd_error) w).
  { destruct (HasPendingSnapshot p); [|by eexists]. unfold ReadyToHandlePendingSnap. rewrite (ps_AppliedIndex_spec _ _ _ (so_rep _ _ _ _ _ _ HP)). by eexists. }
  destruct Hw as [w ->]. cbn [mbind outcome_bind]. destruct w; [by eexists|]. destruct (HasReady_ok (RaftGroup p) (so_wf _ _ _ _ _ _ HP)) as [b ->]. by eexists.
Qed.

(** A [Ready] as the peer goes on with it. *)
Record ready_like (rd rd' : Ready) : Prop := {
  rk_soft : rd_SoftState rd' = rd_SoftState rd;
  rk_hard : rd_HardState rd' = rd_HardState rd;
  rk_ents : rd_Entries rd' = rd_Entries rd;
  rk_snap : rd_Snapshot rd' = with_metadata (rd_Snapshot rd)
}.
Lemma Advance_like (rn : RawNode (PeerStorage D)) rd rd' : ready_like rd rd' → Advance rn rd' = Advance rn rd.
Proof.
  intros [E1 E2 E3 E4]. destruct (with_metadata_same (rd_Snapshot rd)). apply Advance_same; rewrite ?E4; done.
Qed.

(** The leader's messages go out before the save. *)
Lemma lead_send p o rd :
  cache_ok p → ∃ p' o' rd', (if IsLeader p then let '(p, o) := p_Send p o (rd_Messages rd) in (p, o, set_rd_Messages [] rd) else (p, o, rd)) = (p', o', rd') ∧
    uncached p' = uncached p ∧ cache_ok p' ∧ rd_SoftState rd' = rd_SoftState rd ∧ rd_HardState rd' = rd_HardState rd ∧ rd_Entries rd' = rd_Entries rd ∧
    rd_Snapshot rd' = rd_Snapshot rd ∧ rd_CommittedEntries rd' = rd_CommittedEntries rd ∧ (∀ m, m ∈ rd_Messages rd' → m ∈ rd_Messages rd) ∧
    ∃ new, o_trans o' = o_trans o ++ new ∧ sent_from (rd_Messages rd) new.
Proof.
  intros Hc. destruct (IsLeader p).
  - destruct (p_Send p o (rd_Messages rd)) as [p1 o1] eqn:E. destruct (p_Send_spec _ _ _ _ _ Hc E) as (? & ? & ?).
    eexists _, _, _. split; [done|]. split_and!; try done. by intros m ?%not_elem_of_nil.
  - eexists _, _, _. split; [done|]. split_and!; try done. exists []. split; [by rewrite app_nil_r|]. by intros rm ?%not_elem_of_nil.
Qed.
(** The others' after it. *)
Lemma follow_send p o ms :
  cache_ok p → ∃ p' o', (if IsLeader p then (p, o) else p_Send p o ms) = (p', o') ∧ uncached p' = uncached p ∧ cache_ok p' ∧
    ∃ new, o_trans o' = o_trans o ++ new ∧ sent_from ms new.
Proof.
  intros Hc. destruct (IsLeader p).
  - eexists _, _. split; [done|]. split_and!; [done..|]. exists []. split; [by rewrite app_nil_r|]. by intros rm ?%not_elem_of_nil.
  - destruct (p_Send p o ms) as [p1 o1] eqn:E. destruct (p_Send_spec _ _ _ _ _ Hc E) as (? & ? & ?). by eexists _, _.
Qed.
(** A new leader tells the scheduler. *)
Lemma lead_heartbeat p o now (ss : option SoftState) ti :
  truncatedIndex (peerStorage p) = Ok ti → cache_ok p →
  ∃ p' o', match ss with Some ss => if decide (RaftState ss = StateLeader) then HeartbeatScheduler p o now else Ok (p, o) | None => Ok (p, o) end = Ok (p', o') ∧
    uncached p' = uncached p ∧ cache_ok p' ∧ o_trans o' = o_trans o.
Proof.
  intros Ht Hc. destruct ss as [ss|]; [|by eexists _, _]. destruct (decide _); [|by eexists _, _]. by eapply HeartbeatScheduler_spec.
Qed.

(** Committed entries are handed on unless a snapshot came with them. *)
Lemma apply_messages_spec p rd res ms ti :
  truncatedIndex (peerStorage p) = Ok ti →
  ∃ p' rd' fresh, ready_messages p rd res ms = Ok (p', rd', ms ++ fresh) ∧ (∃ i, p' = set_LastApplyingIdx i p) ∧
    rd_SoftState rd' = rd_SoftState rd ∧ rd_HardState rd' = rd_HardState rd ∧ rd_Entries rd' = rd_Entries rd ∧ rd_Snapshot rd' = rd_Snapshot rd ∧
    handed fresh = match res with None => rd_CommittedEntries rd | Some _ => [] end.
Proof.
  intros Ht. assert (Hp : ∃ i, p = set_LastApplyingIdx i p) by (exists (LastApplyingIdx p); by destruct p).
  unfold ready_messages. destruct res as [x|].
  - rewrite Ht. cbn [must mbind outcome_bind]. eexists _, _, _. split; [done|]. split; [by eexists|]. done.
  - destruct (last (rd_CommittedEntries rd)) as [e|] eqn:El.
    + eexists _, _, _. split; [done|]. split; [by eexists|]. split_and!; try done. unfold handed. cbn. by rewrite app_nil_r.
    + apply last_None in El. eexists _, _, []. rewrite app_nil_r. split; [done|]. split_and!; try done.
Qed.

(** One run of [HandleRaftReady] with something to do. *)
Definition handles (n : Z) p o (ms : list (Z * apply_task)) p' o' (res : option ApplySnapResult) (ms' : list (Z * apply_task)) : Prop :=
  ∃ rn1 rd rn2 ps s', rn_Ready (RaftGroup p) = Ok (rn1, rd) ∧ Advance rn1 rd = Ok rn2 ∧ RaftGroup p' = set_stored ps rn2 ∧
    prevHardSt rn2 = hardState (p_Raft p) ∧ persisted M (prevHardSt rn2) (r_raftLog (rn_Raft rn2)) ps ∧ persisted M (prevHardSt rn2) (r_raftLog (rn_Raft rn2)) (reopen n ps) ∧
    peer_stored n p' s' ∧ (∃ new, o_trans o' = o_trans o ++ new ∧ sent_from (rd_Messages rd) new) ∧
    (∃ fresh, ms' = ms ++ fresh ∧ handed fresh = match res with None => rd_CommittedEntries rd | Some _ => [] end) ∧
    (res = None ↔ pending_snapshot (r_raftLog (p_Raft p)) = None) ∧
    ∃ l', rn_Raft rn2 = set_raftLog l' (set_msgs [] (p_Raft p)) ∧ advanced (r_raftLog (p_Raft p)) l' ∧ rd_Messages rd = r_msgs (p_Raft p).

(** What [Ready] gives, and what [Advance] makes of it. *)
Lemma rn_Ready_of (rn : RawNode (PeerStorage D)) :
  let r := rn_Raft rn in let l := r_raftLog r in
  log_wf l → (hardState r = empty_hs → prevHardSt rn = empty_hs) →
  ∃ rd l' soft, rn_Ready rn = Ok (set_Raft (set_msgs [] r) rn, rd) ∧
    Advance (set_Raft (set_msgs [] r) rn) rd = Ok (mkRawNode (set_raftLog l' (set_msgs [] r)) soft (hardState r)) ∧ advanced l l' ∧ rd_Messages rd = r_msgs r ∧
    ∀ rd', ready_like rd rd' → ready_of (prevHardSt rn) (hardState r) l rd'.
Proof.
  intros r l Hw Hemp. destruct (Ready_Advance_state rn Hw Hemp) as (rd & l' & soft & HR & HA & _ & Had & _ & _ & Hm). exists rd, l', soft. split_and!; [done..|].
  destruct (newReady_wf r (prevSoftSt rn) (prevHardSt rn) Hw) as (rd0 & Hrd & _ & Hh & Hu & _ & Hs & _). unfold rn_Ready in HR. fold r in HR. rewrite Hrd in HR. injection HR as ->.
  intros rd' [E1 E2 E3 E4]. split; [by rewrite E2|done|by rewrite E3|by rewrite E4 Hs].
Qed.

Lemma HandleRaftReady_stored n p s o ms now :
  peer_stored n p s → raft_fit (p_Raft p) (prevHardSt (RaftGroup p)) → M ≠ ∅ →
  ∃ b p' o' res ms', idle p = Ok b ∧ p_HandleRaftReady p o ms now = Ok (p', o', res, ms') ∧
    if b : bool then (p', o', res, ms') = (p, o, None, ms) else handles n p o ms p' o' res ms'.
Proof.
  intros Hst [Hterms Hu Hemp] HM. pose proof Hst as [Hid HP Hpos Hreg Hhs Hms Hc]. destruct (idle_ok _ _ _ Hst) as [b Hb]. exists b. unfold p_HandleRaftReady. rewrite Hb. cbn [mbind outcome_bind].
  destruct b; [by eexists _, _, _, _|]. pose proof (so_wf _ _ _ _ _ _ HP) as Hw.
  destruct (rn_Ready_of (RaftGroup p) Hw Hemp) as (rd & l' & soft & HR & HA & Had & Hmsg & Hof). rewrite HR. cbn [must mbind outcome_bind].
  set (rn1 := set_Raft (set_msgs [] (rn_Raft (RaftGroup p))) (RaftGroup p)) in *. set (rd1 := set_rd_Snapshot (with_metadata (rd_Snapshot rd)) rd).
  destruct (lead_send (set_RaftGroup rn1 p) o rd1 Hc) as (p2 & o2 & rd2 & -> & U2 & C2 & S2 & H2 & E2 & N2 & K2 & Hsub & new1 & T1 & F1).
  destruct (uncached_same _ _ U2) as (G2 & M2 & _). cbn [RaftGroup set_RaftGroup] in G2. assert (Eps : peerStorage p2 = peerStorage p) by (unfold peerStorage, p_Raft; by rewrite G2).
  pose proof (truncatedIndex_spec _ _ _ (so_rep _ _ _ _ _ _ HP)) as Hti. change (storage _) with (peerStorage p) in Hti.
  destruct (lead_heartbeat p2 o2 now (rd_SoftState rd2) (sl_index s)) as (p3 & o3 & -> & U3 & C3 & T3); [by rewrite Eps|done|]. cbn [mbind outcome_bind].
  destruct (uncached_same _ _ U3) as (G3 & M3 & _). rewrite G2 in G3.
  assert (Hlike : ready_like rd rd2) by (by split; rewrite ?S2 ?H2 ?E2 ?N2).
  assert (Hhe : IsEmptyHardState (hardState (p_Raft p)) = false).
  { unfold IsEmptyHardState. rewrite isHardStateEqual_eq. apply bool_decide_eq_false_2. intros E. by rewrite (Hemp E) in Hhs. }
  destruct (save_stores M rid n _ _ _ _ _ rd2 l' HP Hpos Hterms (Hof _ Hlike) Hu Hreg HM Hhe Had) as (ps & res & s' & Hsave & Hst' & Hpos' & Hreg' & Hres & _ & Hper & Hperd).
  assert (Eps3 : peerStorage p3 = storage (r_raftLog (p_Raft p))) by (unfold peerStorage, p_Raft; by rewrite G3). rewrite Eps3 Hsave. cbn [must mbind outcome_bind].
  destruct (follow_send (set_peerStorage ps p3) o3 (rd_Messages rd2) C3) as (p4 & o4 & -> & U4 & C4 & new2 & T4 & F4).
  destruct (uncached_same _ _ U4) as (G4 & M4 & _). cbn [set_peerStorage set_RaftGroup RaftGroup] in G4. rewrite G3 in G4.
  assert (Eps4 : peerStorage p4 = ps) by (unfold peerStorage, p_Raft; by rewrite G4).
  pose proof (truncatedIndex_spec _ _ _ (so_rep _ _ _ _ _ _ Hst')) as Hti'. change (storage _) with ps in Hti'.
  destruct (apply_messages_spec p4 rd2 res ms (sl_index s')) as (p5 & rd5 & fresh & -> & (i & ->) & S5 & H5 & E5 & N5 & Hha); [by rewrite Eps4|]. cbn [mbind outcome_bind].
  assert (Hlike5 : ready_like rd rd5) by (destruct Hlike; split; congruence).
  assert (HA5 : Advance (RaftGroup p4) rd5 = Ok (set_stored ps (mkRawNode (set_raftLog l' (set_msgs [] (rn_Raft (RaftGroup p)))) soft (hardState (p_Raft p)))))
    by (rewrite (Advance_like _ _ _ Hlike5) G4 Advance_stored HA; done).
  cbn [RaftGroup set_LastApplyingIdx]. rewrite HA5. cbn [must mbind outcome_bind]. eexists _, _, _, _. split; [done|]. split; [done|].
  eexists _, rd, _, ps, s'. split; [done|]. split; [exact HA|]. split_and!; [done..| | | |done|by exists l'].
  - split; [|done|done|done|done|by intros m ?%not_elem_of_nil|done]. rewrite -Hid. unfold PeerId. cbn. by rewrite M4 /= M3 M2.
  - exists (new1 ++ new2). rewrite T4 T3 T1 app_assoc. split; [done|]. intros rm [Hm|Hm]%elem_of_app; [by apply F1|].
    destruct (F4 rm Hm) as (m & Hin & ?). exists m. split; [by apply Hsub|done].
  - exists fresh. split; [done|]. by rewrite Hha K2.
Qed.

(** What is saved is found again. *)
Lemma handles_durable n p o ms p' o' res ms' :
  handles n p o ms p' o' res ms' →
  ∃ dk cs l0, NewPeerStorage (ps_Engines (peerStorage p')) (p_Region p') n = Ok dk ∧ ps_InitialState dk = Ok (hardState (p_Raft p'), cs) ∧
    hardState (p_Raft p') = hardState (p_Raft p) ∧ newLog dk = Ok l0 ∧ last_index l0 = last_index (r_raftLog (p_Raft p)) ∧ snapIndex l0 ≤ applied (r_raftLog (p_Raft p')) ∧
    (∀ i, snapIndex l0 < i → entry_at l0 i = entry_at (r_raftLog (p_Raft p)) i) ∧
    ∃ new, o_trans o' = o_trans o ++ new ∧ sent_from (r_msgs (p_Raft p)) new.
Proof.
  intros (rn1 & rd & rn2 & ps & s' & HR & HA & EG & Eh & _ & Hper & Hst & Hnew & _ & _ & l' & El & Had & Hms).
  assert (Eps : peerStorage p' = ps) by (unfold peerStorage, p_Raft; by rewrite EG).
  assert (Er : p_Raft p' = set_raftLog (set_storage ps l') (set_msgs [] (p_Raft p))) by (unfold p_Raft at 1; rewrite EG; cbn; by rewrite El).
  destruct (advanced_same _ _ ps Had) as (_ & Ee & _ & Ec & _). destruct Hper as ((cs & Hinit) & l0 & Hl0 & _ & Ela & _ & Hi & _ & Hent & _).
  rewrite Eh in Hinit. rewrite El in Ela Hi Hent. cbn in Ela, Hi, Hent.
  assert (Ehs : hardState (p_Raft p') = hardState (p_Raft p)) by (rewrite Er; unfold hardState; cbn; by rewrite Ec).
  exists (reopen n ps), cs, l0. split_and!; [|by rewrite Ehs|done|done| | | |by rewrite -Hms].
  - pose proof (NewPeerStorage_reopen (peerStorage p') s' _ n (so_rep _ _ _ _ _ _ (pd_stores _ _ _ Hst)) (pd_last _ _ _ Hst)) as Hn. by rewrite Eps in Hn |- *; unfold p_Region; rewrite Eps.
  - rewrite Ela. by destruct Had as ([->| ->] & _).
  - rewrite Er. cbn. lia.
  - intros i Hlt. rewrite Hent //. apply Ee.
Qed.
End PeerReady.
