(* ===== verification/PeerStart.v ===== *)
(** Starting a peer: [NewPeer] on engines that hold a log opens that log, with the
    hard state that was saved; the log the engines hold is unique. *)

From S2P Require Import Prelude Pb RaftPb RaftStorage RaftLog RaftLogSpec Raft RawNode Engine RaftMeta PeerStorage PeerStorageSpec RaftCmd Applier Election RaftTree RaftSafety Cluster RaftLogSteps RaftGroup Peer PeerLog PeerSave PeerReady.

Section PeerStart.
Context {D : Type} `{!Badger D} {HG : GoEnv}.
Context `{!Proto Entry, !Proto RaftLocalState, !Proto RaftApplyState, !Proto RegionLocalState, !Proto RaftSnapshotData}.
Context `{!Proto RaftCmdRequest, !Proto metapb.Region, !Proto ConfChange}.
Context {messages : StoreMessages} {entry_messages : EntryMessages}.
Context (M : gset Z) (rid : Z).
Implicit Types (p : peer D) (s : slog) (ps : PeerStorage D).
Notation stores := (stores M rid).
Notation region_ok := (region_ok M rid).

(** ** The log of the engines *)

Lemma Marshal_inj {A} `{!Proto A} (x y : A) : wire x → wire y → Marshal x = Marshal y → x = y.
Proof. intros Hx Hy E. apply Unmarshal_Marshal in Hx, Hy. rewrite E in Hx. rewrite Hx in Hy. by injection Hy. Qed.

Lemma represents_unique ps s s' hs hs' : represents ps s hs → represents ps s' hs' → s = s' ∧ hs = hs'.
Proof.
  intros R R'. pose proof (rp_wf _ _ _ R) as Hw. pose proof (rp_wf _ _ _ R') as Hw'. pose proof (rp_state _ _ _ R) as E. rewrite (rp_state _ _ _ R') in E. injection E as -> El _.
  split; [|done]. pose proof (rp_apply _ _ _ R) as Ea. rewrite (rp_apply _ _ _ R') in Ea. injection Ea as Ea.
  apply Marshal_inj in Ea; [|by apply apply_state_wire..]. injection Ea as E1 E2 E3.
  assert (Ee : ∀ i, sl_entry s i = sl_entry s' i).
  { intros i. destruct (decide (sl_index s < i ≤ sl_last s)) as [Hi|Hi].
    - destruct (sl_entry_is_Some s i Hi) as [e He]. destruct (sl_entry_is_Some s' i) as [e' He']; [lia|]. rewrite He He'. f_equal.
      pose proof (la_entry _ _ _ (rp_log _ _ _ R) _ _ He) as G. rewrite (la_entry _ _ _ (rp_log _ _ _ R') _ _ He') in G. injection G as G. symmetry. apply Marshal_inj; [| |done].
      + pose proof (sw_wire _ Hw') as Hx. rewrite Forall_forall in Hx. apply Hx. unfold sl_entry in He'. case_decide; [|done]. by eapply list_elem_of_lookup_2.
      + pose proof (sw_wire _ Hw) as Hx. rewrite Forall_forall in Hx. apply Hx. unfold sl_entry in He. case_decide; [|done]. by eapply list_elem_of_lookup_2.
    - trans (@None Entry); [|symmetry]; apply eq_None_not_Some; intros [e He]; apply sl_entry_Some in He; [lia|done|lia|done]. }
  destruct s as [i t a es], s' as [i' t' a' es']. cbn in *. subst i' t' a'. f_equal. apply list_eq. intros k. specialize (Ee (i + 1 + Z.of_nat k)). unfold sl_entry in Ee. cbn in Ee.
  rewrite !decide_True in Ee; [|lia..]. by replace (Z.to_nat (i + 1 + Z.of_nat k - i - 1)) with k in Ee by lia.
Qed.

Lemma NewPeerStorage_fresh engines rg pid ps : NewPeerStorage engines rg pid = Ok ps → reopen pid ps = ps ∧ region ps = rg.
Proof.
  unfold NewPeerStorage. intros H. apply bind_Ok in H as ([rdb rs] & _ & H). apply bind_Ok in H as ([kdb as'] & _ & H). destruct (decide _); [done|]. by injection H as <-.
Qed.

(** ** Starting *)

Context (M_many : (1 < size M)%nat).

Lemma region_many rg : region_ok rg → ∃ x y zs, metapb.Peers rg = x :: y :: zs.
Proof.
  intros [_ E]. pose proof M_many as Hm. rewrite -E in Hm. destruct (metapb.Peers rg) as [|x [|y zs]]; cbn in Hm; [by rewrite size_empty in Hm; lia| |by eexists _, _, _].
  rewrite union_empty_r_L size_singleton in Hm. lia.
Qed.

Lemma newRaft_applied (c : Config (PeerStorage D)) r st l0 :
  newRaft c = Ok r → cfg_Storage c = Some st → newLog st = Ok l0 → applied l0 ≤ Applied c → 0 ≤ applied l0 → applied (r_raftLog r) = Applied c.
Proof.
  unfold newRaft. intros H Hst Hl Hle H0. rewrite Hst in H. destruct (validate c); [done|]. rewrite Hl in H. cbn [mbind outcome_bind] in H.
  apply bind_Ok in H as ([hs cs] & _ & H). apply bind_Ok in H as (ids & _ & H). apply bind_Ok in H as (r1 & H1 & H). apply bind_Ok in H as (r2 & H2 & H).
  apply bind_Ok in H as (r3 & H3 & H). apply bind_Ok in H as (lt & _ & [= <-]). apply becomeFollower_turn in H3 as (_ & _ & _ & _ & _ & _ & _ & ->).
  assert (Ea : applied (r_raftLog r1) = applied l0).
  { destruct (IsEmptyHardState hs); [by injection H1 as <-|]. unfold loadState in H1. apply bind_Ok in H1 as (li & _ & H1). destruct (decide _); [done|]. by injection H1 as <-. }
  destruct (decide (0 < Applied c)); [|injection H2 as <-; lia]. apply bind_Ok in H2 as (l1 & H2 & [= <-]). unfold appliedTo in H2.
  destruct (decide (Applied c = 0)); [lia|]. destruct (decide _); [done|]. by injection H2 as <-.
Qed.

(** The log that raft opens on a disk is stored there. *)
Lemma opened_stores n dk s hs l :
  represents dk s hs → reopen n dk = dk → (∀ e, e ∈ sl_ents s → data_ok (e_Data e)) → sl_applied s ≤ applied l → restarted hs (mkRaftLog dk (sl_index s) (sl_index s) (sl_last s) (sl_ents s) (sl_index s + 1) (sl_term s) (sl_index s) None) l →
  storage l = dk ∧ stores (reopen n dk) s hs l ∧ committed l = hs_Commit hs.
Proof.
  intros R Hdk Hk Ha Hre. pose proof (rp_wf _ _ _ R) as Hw. pose proof (opened_wf dk s Hw) as Hlw. set (l0 := mkRaftLog _ _ _ _ _ _ _ _ _) in *.
  assert (Hwf : log_wf l) by (by eapply (restarted_wf hs l0)). destruct Hre as (a & -> & Hr & Hc). change (last_index l0) with (sl_last s) in Hc. cbn in Ha, Hr. split; [done|]. split; [|done].
  pose proof (sw_applied _ Hw). split; cbn; try done; try lia.
  - intros sn md Hn. rewrite -Hdk in Hn. done.
  - pose proof (opened_at dk s) as Hop. cbn zeta in Hop. split; cbn; try lia.
    + change (term_at l0 (sl_index s) = Some (sl_term s)). unfold term_at. by rewrite decide_True.
    + intros i Hi. symmetry. apply (Hop i Hw).
Qed.

Lemma NewPeer_opens n storeId cfg engines rg meta p dk s hs :
  NewPeer storeId cfg engines rg meta = Ok p → metapb.Peer_Id meta = n → NewPeerStorage engines rg n = Ok dk → represents dk s hs → 0 < sl_last s →
  region_ok rg → sl_applied s ≤ hs_Commit hs → IsEmptyHardState hs = false → (∀ e, e ∈ sl_ents s → data_ok (e_Data e)) →
  ∃ c, starts_from M n dk hs c ∧ NewRawNode c = Ok (RaftGroup p) ∧ prevHardSt (RaftGroup p) = hs ∧ peerStorage p = dk ∧ reopen n dk = dk ∧
    Meta p = meta ∧ peer_stored M rid n p s.
Proof.
  intros H Hid Hdk R Hpos Hreg Hap Hhs Hk. destruct (NewPeerStorage_fresh _ _ _ _ Hdk) as [Hre Erg]. unfold NewPeer in H. destruct (decide _) as [|Hn0]; [done|].
  rewrite Hid Hdk in H. cbn [with_err mbind outcome_bind] in H. rewrite (ps_AppliedIndex_spec _ _ _ R) in H. cbn [must mbind outcome_bind] in H.
  set (c := mkConfig n [] (RaftElectionTimeoutTicks cfg) (RaftHeartbeatTicks cfg) (Some dk) (sl_applied s)) in *. apply bind_Ok in H as (rn & HN & H).
  assert (HNc : NewRawNode c = Ok rn) by (by destruct (NewRawNode c); simplify_eq/=). clear HN. apply bind_Ok in H as (tk & _ & H).
  destruct (region_many _ Hreg) as (x & y & zs & Eps). rewrite Eps in H. injection H as <-. cbn [RaftGroup Meta].
  assert (Hst : starts_from M n dk hs c).
  { split; [done|]. exists dk, (ConfStateFromRegion rg). split_and!; [done|done| |].
    - cbn. by rewrite (InitialState_spec _ _ _ R Hhs) Erg.
    - destruct Hreg as [_ <-]. unfold ConfStateFromRegion. cbn. rewrite Eps. done. }
  exists c. unfold NewRawNode in HNc. destruct (decide _); [done|]. apply bind_Ok in HNc as (r & Hr & [= <-]).
  pose proof (newLog_represents _ _ _ R) as Hl. pose proof (rp_wf _ _ _ R) as Hw. pose proof (sw_applied _ Hw). pose proof (sw_index _ Hw).
  assert (Hrst : restarted hs _ (r_raftLog r)) by (eapply newRaft_log; [exact Hst|exact Hl|by apply opened_wf|cbn; lia|exact Hr]).
  assert (Ea : applied (r_raftLog r) = sl_applied s) by (eapply (newRaft_applied c); [exact Hr|done|exact Hl|cbn; lia|cbn; lia]).
  destruct (opened_stores n _ _ _ (r_raftLog r) R Hre Hk (Z.eq_le_incl _ _ (eq_sym Ea)) Hrst) as (Esto & HP & Ec).
  destruct (newRaft_fresh _ _ _ _ _ _ Hst Hr) as [(I & Tm & V & _ & Ms & _) _].
  assert (Eh : hardState r = hs) by (unfold hardState; rewrite Tm V Ec; by destruct hs).
  split_and!; try done; [unfold NewRawNode; destruct (decide _); [done|]; by rewrite Hr|].
  split; cbn; rewrite ?Eh; try done.
  - change (stores (reopen n (storage (r_raftLog r))) s hs (r_raftLog r)). by rewrite Esto.
  - change (region_ok (region (storage (r_raftLog r)))). by rewrite Esto Erg.
  - rewrite Ms. by intros m ?%not_elem_of_nil.
Qed.
End PeerStart.
