(* ===== verification/PeerGroup.v ===== *)
(** A group of peers as the raft store runs them: the peers of kv/raftstore/peer.go
    over the storage of kv/raftstore/peer_storage.go and the engines, refine the raft
    group with disks of RaftGroup; so elections and state machines are safe, and
    [HandleRaftReady] returns.

    The peers are those of a region that a split has just created: their engines hold
    nothing of it, [NewPeer] opens their logs at index 5, and the members are fixed and
    more than one.  A step is a call of the peer, one [HandleRaftReady], work of the
    store's other workers on the engines ([gs_service]: entries are applied, applied
    entries compacted, a snapshot is put in the channel), or a crash, after which
    [NewPeer] starts from the engines; a leader may crash after it has sent some
    messages and saved nothing, any peer after it has saved and sent some.  A save is
    one step.  The transport keeps every message it was handed. *)

From S2P Require Import Prelude Pb RaftPb RaftStorage RaftLog RaftLogSpec Raft RawNode Engine RaftMeta PeerStorage PeerStorageSpec RaftCmd Applier Election RaftTree RaftSafety RaftSteps Cluster RaftLogSteps RaftGroup Peer PeerLog PeerSave PeerWorkers PeerReady PeerStart.

Section PeerGroup.
Context {D : Type} `{!Badger D} {HG : GoEnv}.
Context `{!Proto Entry, !Proto RaftLocalState, !Proto RaftApplyState, !Proto RegionLocalState, !Proto RaftSnapshotData}.
Context `{!Proto RaftCmdRequest, !Proto metapb.Region, !Proto ConfChange}.
Context (M : gset Z) (rid : Z).
Implicit Types (p : peer D) (s : slog) (ps : PeerStorage D) (o : outbox).
Notation stores := (stores M rid).
Notation region_ok := (region_ok M rid).
Notation heap := (gmap Z (Callback (D := D))).

(** [g_net] is what the transport was handed, [g_applied] the committed entries that
    each peer handed to its applier, across crashes. *)
Record group := mkGroup {
  g_peers : gmap Z (peer D);
  g_net : list RaftMessage;
  g_applied : list (Z * Entry)
}.
Implicit Types g : group.
Definition with_peer (n : Z) p g : group := mkGroup (<[n := p]> (g_peers g)) (g_net g) (g_applied g).
Definition no_out : outbox := mkOutbox [] [].

(** Neither terms nor indices exhaust their types, and a vote is a 64-bit number. *)
Definition in_range p : Prop :=
  r_Term (p_Raft p) < max64 ∧ idx_ok (last_index (r_raftLog (p_Raft p)) + 1) ∧ is_u64 (r_Vote (p_Raft p)).

(** A request, and the configuration change that carries it, are not empty on the
    wire. *)
Definition request_ok (req : RaftCmdRequest) : Prop :=
  Marshal req ≠ [] ∧ ∀ t id, Marshal (mkConfChange t id (Some (Marshal req))) ≠ [].

Inductive group_step g : group → Prop :=
| gs_tick n p rn :
    g_peers g !! n = Some p → in_range p → Tick (RaftGroup p) = Ok rn → group_step g (with_peer n (set_RaftGroup rn p) g)
| gs_deliver n p rm m rn e :
    g_peers g !! n = Some p → in_range p → rm ∈ g_net g → rm_Message rm = Some m → To m = n → m_Term m < max64 →
    rn_Step (RaftGroup p) m = Ok (rn, e) → group_step g (with_peer n (set_RaftGroup rn p) g)
| gs_campaign n p lead p' b :
    g_peers g !! n = Some p → in_range p → MaybeCampaign p lead = Ok (p', b) → group_step g (with_peer n p' g)
| gs_propose n p (h : heap) cb req errResp p' h' b :
    g_peers g !! n = Some p → in_range p → request_ok req → p_Propose p h cb req errResp = Ok (p', h', b) → group_step g (with_peer n p' g)
| gs_ready n p now p' o res ms :
    g_peers g !! n = Some p → in_range p → p_HandleRaftReady p no_out [] now = Ok (p', o, res, ms) →
    group_step g (mkGroup (<[n := p']> (g_peers g)) (g_net g ++ o_trans o) (g_applied g ++ map (pair n) (handed ms)))
| gs_service n p ps s s' :
    g_peers g !! n = Some p → represents (peerStorage p) s (prevHardSt (RaftGroup p)) → represents ps s' (prevHardSt (RaftGroup p)) →
    services s s' → sl_applied s' ≤ applied (r_raftLog (p_Raft p)) → offered M rid ps s' → region_ok (region ps) →
    group_step g (with_peer n (set_peerStorage ps p) g)
| gs_crash n p storeId cfg p' :
    g_peers g !! n = Some p → NewPeer storeId cfg (ps_Engines (peerStorage p)) (p_Region p) (Meta p) = Ok p' →
    group_step g (with_peer n p' g)
| gs_crash_lead n p rn rd k p1 o storeId cfg p' :
    g_peers g !! n = Some p → rn_Ready (RaftGroup p) = Ok (rn, rd) → IsLeader p = true →
    p_Send (set_RaftGroup rn p) no_out (take k (rd_Messages rd)) = (p1, o) →
    NewPeer storeId cfg (ps_Engines (peerStorage p)) (p_Region p) (Meta p) = Ok p' →
    group_step g (mkGroup (<[n := p']> (g_peers g)) (g_net g ++ o_trans o) (g_applied g))
| gs_crash_saved n p now p1 o res ms k storeId cfg p' :
    g_peers g !! n = Some p → in_range p → p_HandleRaftReady p no_out [] now = Ok (p1, o, res, ms) →
    NewPeer storeId cfg (ps_Engines (peerStorage p1)) (p_Region p1) (Meta p1) = Ok p' →
    group_step g (mkGroup (<[n := p']> (g_peers g)) (g_net g ++ take k (o_trans o)) (g_applied g)).

Definition group_init g : Prop :=
  dom (g_peers g) = M ∧ g_net g = [] ∧ g_applied g = [] ∧
  ∀ n p, g_peers g !! n = Some p → ∃ storeId cfg kdb rdb rg meta,
    metapb.Peer_Id meta = n ∧ region_ok rg ∧ db_ok kdb ∧ db_ok rdb ∧ no_region kdb rdb rid ∧
    NewPeer storeId cfg (mkEngines kdb rdb) rg meta = Ok p.

Inductive group_reachable : group → Prop :=
| gr_init g : group_init g → group_reachable g
| gr_step g g' : group_reachable g → group_step g g' → group_reachable g'.

(** ** The refinement *)

Context {messages : StoreMessages} {entry_messages : EntryMessages}.
Context (M_none : None' ∉ M) (M_many : (1 < size M)%nat).

Definition start : pos := (RaftInitLogIndex, RaftInitLogTerm).
Definition marshal (cc : ConfChange) : bytes + raft_error := inl (Marshal cc).
Notation system := (system (T := PeerStorage D)).
Notation reachable := (system_reachable M start marshal).

Record refines g (y : system) : Prop := {
  rl_nodes : sy_nodes y = RaftGroup <$> g_peers g;
  rl_disk n p : g_peers g !! n = Some p → sy_disks y !! n = Some (reopen n (peerStorage p));
  rl_net rm : rm ∈ g_net g → ∃ m, rm_Message rm = Some m ∧ m ∈ sy_net y;
  rl_applied x : x ∈ g_applied g → x ∈ sy_applied y;
  rl_carried m : m ∈ sy_net y → carried M rid (m_Entries m) (m_Snapshot m);
  rl_stored n p : g_peers g !! n = Some p → ∃ s, peer_stored M rid n p s
}.

Lemma start_term : 0 ≤ start.2.
Proof. done. Qed.
Lemma M_nonempty : M ≠ ∅.
Proof. intros E. pose proof M_many as Hm. rewrite E size_empty in Hm. lia. Qed.
Lemma M_other n : ∃ v, v ∈ M ∧ v ≠ n.
Proof.
  destruct (set_choose_or_empty (M ∖ {[n]})) as [[v [? Hv]%elem_of_difference]|He]; [exists v; split; [done|]; intros ->; by apply Hv, elem_of_singleton|].
  exfalso. assert (Hs : M ⊆ {[n]}) by (intros x Hx; destruct (decide (x ∈ ({[n]} : gset Z))); [done|exfalso; by apply (not_elem_of_empty (C := gset Z) x), He, elem_of_difference]).
  apply subseteq_size in Hs. rewrite size_singleton in Hs. lia.
Qed.

(** One peer changed. *)
Lemma refines_peer g y n p net app p' disk rn ynet yapp :
  refines g y → g_peers g !! n = Some p → RaftGroup p' = rn → disk = reopen n (peerStorage p') →
  (∀ rm, rm ∈ net → rm ∈ g_net g ∨ ∃ m, rm_Message rm = Some m ∧ m ∈ ynet) → (∀ m, m ∈ sy_net y → m ∈ ynet) →
  (∀ x, x ∈ app → x ∈ g_applied g ∨ x ∈ yapp) → (∀ x, x ∈ sy_applied y → x ∈ yapp) →
  (∀ m, m ∈ ynet → m ∈ sy_net y ∨ carried M rid (m_Entries m) (m_Snapshot m)) → (∃ s, peer_stored M rid n p' s) →
  refines (mkGroup (<[n := p']> (g_peers g)) net app) (mkSystem (<[n := rn]> (sy_nodes y)) (<[n := disk]> (sy_disks y)) ynet yapp).
Proof.
  intros [R1 R2 R3 R4 R5 R6] Hn <- -> Hnet Hsub Happ Hsap Hca Hst. split; cbn.
  - by rewrite fmap_insert R1.
  - intros n' x. destruct (decide (n' = n)) as [->|Hne]; [rewrite !lookup_insert_eq; by intros [= <-]|rewrite !lookup_insert_ne //; apply R2].
  - intros rm [Hm|?]%Hnet; [|done]. destruct (R3 rm Hm) as (m & ? & ?). exists m. auto.
  - intros x [Hx|?]%Happ; [|done]. auto.
  - intros m [Hm|?]%Hca; [|done]. by apply R5.
  - intros n' x. destruct (decide (n' = n)) as [->|Hne]; [rewrite !lookup_insert_eq; by intros [= <-]|rewrite !lookup_insert_ne //; apply R6].
Qed.
(** With its disk as it was. *)
Lemma disk_same (y : system) n disk : sy_disks y !! n = Some disk → sy_disks y = <[n := disk]> (sy_disks y).
Proof. intros H. by rewrite insert_id. Qed.

(** ** What raft's invariants give *)

Lemma peer_terms S n (r : Raft (PeerStorage D)) :
  history_ok M start S → peer_inv (M := M) (base := start) S n r → r_Term r < max64 → terms_ok (r_raftLog r).
Proof.
  intros OK Hp Hmax i j ti tj Hij Hi Hj. pose proof (pi_log _ _ _ Hp) as L. pose proof (li_term _ _ L _ _ Hi) as Ai. pose proof (li_term _ _ L _ _ Hj) as Aj.
  pose proof (anc_linear _ _ _ OK _ _ _ Ai Aj Hij) as Aij. pose proof (anc_term _ _ _ OK _ _ Aij) as Ht. pose proof (anc_term _ _ _ OK _ _ Aj) as Hl.
  destruct (pi_term _ _ _ Hp) as [Hlt _]. pose proof (anc_term _ _ _ OK _ _ (anc_is_valid _ _ _ OK _ _ Ai (li_valid _ _ L))) as Hb.
  change (tj ≤ last_term (r_raftLog r)) in Hl. change (5 ≤ ti) in Hb. change (ti ≤ tj) in Ht. unfold is_u64, max64 in *. lia.
Qed.

Lemma reachable_fit y n p :
  reachable y → sy_nodes y !! n = Some (RaftGroup p) → in_range p → raft_fit (p_Raft p) (prevHardSt (RaftGroup p)).
Proof.
  intros [S [OK _ Hnet _ Hnodes]]%system_reachable_safe Hn (Hmax & _ & Hv); [|done|done].
  destruct (peer_replay M start marshal M_none start_term S y n _ OK Hnet (Hnodes n _ Hn)) as (S' & Hg & OK' & Hp & Hemp).
  split; [by eapply peer_terms|unfold p_Raft in *; split_and!|done].
  - destruct (pi_term _ _ _ Hp) as (_ & _ & ?). cbn. unfold is_u64, max64 in *. lia.
  - done.
  - pose proof (li_wf _ _ (pi_log _ _ _ Hp)) as Hw. pose proof (lw_last _ Hw) as [_ ?]. pose proof (lw_commit _ Hw). pose proof (lw_snap _ Hw). cbn. unfold is_u64, two64, idx_ok in *. lia.
Qed.

Lemma reachable_messages g y m : reachable y → refines g y → m ∈ sy_net y → message_fit M rid m ∧ MsgType m ≠ MsgPropose.
Proof.
  intros [S [_ _ Hnet _ _]]%system_reachable_safe Hr Hm; [|done|done]. destruct (Hnet m Hm) as [_ Hi]. pose proof (rl_carried _ _ Hr m Hm) as Hc.
  split; [split; [done|split]|by intros E; rewrite E in Hi].
  - intros E. rewrite E in Hi. destruct Hi as (_ & ? & ? & ? & ? & _). done.
  - intros sn md E Es Emd. rewrite E in Hi. destruct Hi as (_ & sn' & md' & Es' & Emd' & [_ (md2 & Emd2 & Hok & _)] & _). congruence.
Qed.

(** ** Calls *)

Lemma fine_call_call net n (rn rn' : RawNode (PeerStorage D)) : fine_call data_ok marshal net n rn rn' → call marshal net n rn rn' ∧ prevHardSt rn' = prevHardSt rn.
Proof.
  assert (Hstep : ∀ m rn' e, raft_step rn m = Ok (rn', e) → prevHardSt rn' = prevHardSt rn).
  { unfold raft_step. intros m x e H. by apply bind_Ok in H as ([r1 e1] & _ & [= <- <-]). }
  intros [H|m e ? ? ? H|e H|data e ? H|cc e ? H|to H]; split; try (by econstructor).
  - unfold Tick in H. by apply bind_Ok in H as (r1 & _ & [= <-]).
  - unfold rn_Step in H. destruct (IsLocalMsg _); [by injection H as <- _|]. destruct (getProgress _ _); [by eapply Hstep|]. destruct (negb _); [by eapply Hstep|by injection H as <- _].
  - by eapply Hstep.
  - by eapply Hstep.
  - unfold ProposeConfChange in H. destruct (marshal cc); [by eapply Hstep|by injection H as <- _].
  - unfold TransferLeader in H. apply bind_Ok in H as ([x e1] & H & [= <-]). by eapply Hstep.
Qed.

Lemma stored_call net n p p' s :
  peer_stored M rid n p s → in_range p → (∀ m, m ∈ net → message_fit M rid m ∧ MsgType m ≠ MsgPropose) →
  fine_call data_ok marshal net n (RaftGroup p) (RaftGroup p') → Meta p' = Meta p → peerCache p' = peerCache p →
  peer_stored M rid n p' s ∧ reopen n (peerStorage p') = reopen n (peerStorage p).
Proof.
  intros [Hid HP Hpos Hreg Hhs Hms Hc] (_ & Hroom & _) Hnet Hcall Em Ec. destruct (fine_call_call _ _ _ _ Hcall) as [_ Epv].
  destruct (call_stores M rid _ _ _ marshal net n _ _ HP Hms Hroom ltac:(auto) Hcall) as [HP' Hms'].
  pose proof (so_same _ _ _ _ _ _ HP') as Esame. cbn [reopen peerID] in Esame. change (storage (r_raftLog (rn_Raft (RaftGroup p')))) with (peerStorage p') in Esame.
  assert (Ereg : region (peerStorage p') = region (peerStorage p)) by (by apply reopen_inj in Esame as (? & _)).
  split; [|done]. split; try done.
  - unfold PeerId. by rewrite Em.
  - by rewrite Esame Epv.
  - unfold p_Region. by rewrite Ereg.
  - by rewrite Epv.
  - intros i x. rewrite Ec. apply Hc.
Qed.

(** A call of one peer, or none. *)
Lemma refines_call g y n p p' :
  reachable y → refines g y → g_peers g !! n = Some p → in_range p → Meta p' = Meta p → peerCache p' = peerCache p →
  (RaftGroup p' = RaftGroup p ∨ fine_call data_ok marshal (sy_net y) n (RaftGroup p) (RaftGroup p')) →
  ∃ y', reachable y' ∧ refines (with_peer n p' g) y'.
Proof.
  intros Hy Hr Hn Hin Em Ec Hor. destruct (rl_stored _ _ Hr n p Hn) as [s Hst]. pose proof (rl_disk _ _ Hr n p Hn) as Hd.
  assert (Hnode : sy_nodes y !! n = Some (RaftGroup p)) by (by rewrite (rl_nodes _ _ Hr) lookup_fmap Hn).
  destruct Hor as [E|Hcall].
  - exists y. split; [done|]. assert (Ey : y = mkSystem (<[n := RaftGroup p]> (sy_nodes y)) (<[n := reopen n (peerStorage p)]> (sy_disks y)) (sy_net y) (sy_applied y)).
    { rewrite !insert_id //. by destruct y. }
    rewrite Ey. eapply refines_peer; [exact Hr|exact Hn|done|unfold peerStorage, p_Raft; by rewrite E|auto..|].
    exists s. destruct Hst. split; try done; unfold PeerId, peerStorage, p_Region, peerStorage, p_Raft, cache_ok in *; rewrite ?E ?Em ?Ec; done.
  - destruct (stored_call (sy_net y) n p p' s) as [Hst' Esame]; [done|done|intros m; by eapply reachable_messages|done..|].
    eexists. split; [eapply sy_reach_step; [exact Hy|]; eapply (sy_call _ _ _ n _ (RaftGroup p')); [done|]; destruct Hin as (? & ? & _); split_and!; [done|done|by apply fine_call_call]|].
    rewrite (disk_same _ _ _ Hd). eapply refines_peer; [exact Hr|exact Hn|done|by rewrite Esame|auto..|by exists s].
Qed.

(** A method that at most makes one call of raft. *)
Definition calls net n p p' : Prop :=
  Meta p' = Meta p ∧ peerCache p' = peerCache p ∧ (RaftGroup p' = RaftGroup p ∨ fine_call data_ok marshal net n (RaftGroup p) (RaftGroup p')).

Lemma calls_none net n p : calls net n p p.
Proof. split_and!; auto. Qed.
Lemma must_Ok {E E' A} (c : outcome E A) x : must (E' := E') c = Ok x → c = Ok x.
Proof. by destruct c; intros [= <-]. Qed.

Lemma proposed_peer p rn e p' r : proposed p rn e = Ok (p', r) → p' = set_RaftGroup rn p.
Proof.
  unfold proposed. intros H. apply bind_Ok in H as (i & _ & H). destruct e; [by injection H as <- _|]. by apply bind_Ok in H as (j & _ & [= <- _]).
Qed.
Lemma MaybeCampaign_calls net n p lead p' b : MaybeCampaign p lead = Ok (p', b) → calls net n p p'.
Proof.
  unfold MaybeCampaign. destruct (_ || _); [intros [= <- _]; apply calls_none|]. intros H. apply bind_Ok in H as ([rn e] & H%must_Ok & [= <- _]).
  split_and!; [done..|]. right. by eapply fine_campaign.
Qed.
Lemma ProposeNormal_calls net n p req p' r : request_ok req → ProposeNormal p req = Ok (p', r) → calls net n p p'.
Proof.
  unfold ProposeNormal. intros [Hne _] H. apply bind_Ok in H as ([rn e] & Hp%must_Ok & H). apply proposed_peer in H as ->. split_and!; [done..|]. right.
  eapply fine_propose; [|exact Hp]. intros [= E]. done.
Qed.
Lemma ProposeConfChange_calls net n p req p' r : request_ok req → p_ProposeConfChange p req = Ok (p', r) → calls net n p p'.
Proof.
  unfold p_ProposeConfChange. intros [_ Hne] H. apply bind_Ok in H as (ai & _ & H). destruct (decide _); [injection H as <- _; apply calls_none|].
  apply bind_Ok in H as (u & _ & H). destruct u as [e|]; [injection H as <- _; apply calls_none|]. destruct (GetChangePeerCmd req) as [cp|]; [|done].
  destruct (cp_Peer cp) as [x|]; [|done]. apply bind_Ok in H as ([rn e] & Hp%must_Ok & H). apply proposed_peer in H as ->. split_and!; [done..|]. right.
  eapply fine_propose_conf; [|exact Hp]. intros d [= <-] [= E]. by eapply Hne.
Qed.
Lemma Propose_calls net n p h cb req er p' h' b : request_ok req → p_Propose p h cb req er = Ok (p', h', b) → calls net n p p'.
Proof.
  unfold p_Propose. intros Hok H. destruct (stopped p); [injection H as <- _ _; apply calls_none|].
  assert (Htail : ∀ p1 (r : Z + cmd_error) cc, calls net n p p1 →
    match r with inr e => Ok (p1, cb_Done cb (Some (BindRespError er e)) h, false) | inl idx => Ok (PostPropose idx (p_Term p1) cc cb p1, h, true) end = Ok (E := cmd_error) (p', h', b) →
    calls net n p p').
  { intros p1 r cc Hc. destruct r; intros [= <- _ _]; exact Hc. }
  destruct (inspect req) as [[]| | |]; try done; [apply bind_Ok in H as ([p1 r] & H1 & H); eapply Htail; [|exact H]| |apply bind_Ok in H as ([p1 r] & H1 & H); eapply Htail; [|exact H]|..].
  - by eapply ProposeNormal_calls.
  - apply bind_Ok in H as ([p1 h1] & H1 & [= <- _ _]). unfold ProposeTransferLeader in H1. destruct (getTransferLeaderCmd req) as [tl|]; [|done].
    apply bind_Ok in H1 as (p2 & H1 & [= <- _]). unfold transferLeader in H1. apply bind_Ok in H1 as (rn & H1%must_Ok & [= <-]). split_and!; [done..|]. right. by eapply fine_transfer.
  - by eapply ProposeConfChange_calls.
  - exact (Htail p (inl 0) _ (calls_none _ _ _) H).
  - injection H as <- _ _. apply calls_none.
Qed.

(** ** Saving, servicing and crashing *)

Lemma handles_step g y n p ms p' o' res ms' (rms : list RaftMessage) (es : list Entry) :
  reachable y → refines g y → g_peers g !! n = Some p → handles M rid n p no_out ms p' o' res ms' → ms = [] →
  (∀ rm, rm ∈ rms → rm ∈ o_trans o') → (∀ e, e ∈ es → e ∈ handed ms') →
  ∃ y', reachable y' ∧ refines (mkGroup (<[n := p']> (g_peers g)) (g_net g ++ rms) (g_applied g ++ map (pair n) es)) y'.
Proof.
  intros Hy Hr Hn (rn1 & rd & rn2 & ps & s' & HR & HA & EG & _ & Hper & Hperd & Hst' & (new & Eo & Hnew) & (fresh & Ems & Hfr) & _) Hnil Hrms Hes.
  assert (Hnode : sy_nodes y !! n = Some (RaftGroup p)) by (by rewrite (rl_nodes _ _ Hr) lookup_fmap Hn). destruct (rl_stored _ _ Hr n p Hn) as [s0 Hst].
  eexists. split; [eapply sy_reach_step; [exact Hy|]; by eapply (sy_ready _ _ _ n (RaftGroup p) rn1 rd rn2 ps (reopen n ps))|].
  assert (Eps : peerStorage p' = ps) by (unfold peerStorage, p_Raft; by rewrite EG).
  eapply refines_peer; [exact Hr|exact Hn|done|by rewrite Eps|..|by exists s'].
  - intros rm [?|Hm%Hrms]%elem_of_app; [by left|right]. rewrite Eo in Hm. destruct (Hnew rm Hm) as (m & ? & ? & _). exists m. split; [done|]. apply elem_of_app. by right.
  - intros m Hm. apply elem_of_app. by left.
  - intros x [?|Hx]%elem_of_app; [by left|right]. apply list_elem_of_fmap in Hx as (e & -> & He%Hes). apply elem_of_app. right. apply list_elem_of_fmap. exists e. split; [done|].
    rewrite Ems Hnil Hfr in He. by destruct res; [apply not_elem_of_nil in He|].
  - intros x Hx. apply elem_of_app. by left.
  - intros m [?|Hm]%elem_of_app; [by left|right]. apply Ready_taken in HR as (_ & _ & Hms & _). rewrite Hms in Hm. by apply (pd_msgs _ _ _ _ _ Hst).
Qed.

Lemma refines_ready g y n p now p' o res ms (rms : list RaftMessage) (es : list Entry) :
  reachable y → refines g y → g_peers g !! n = Some p → in_range p → p_HandleRaftReady p no_out [] now = Ok (p', o, res, ms) →
  (∀ rm, rm ∈ rms → rm ∈ o_trans o) → (∀ e, e ∈ es → e ∈ handed ms) →
  ∃ y', reachable y' ∧ refines (mkGroup (<[n := p']> (g_peers g)) (g_net g ++ rms) (g_applied g ++ map (pair n) es)) y'.
Proof.
  intros Hy Hr Hn Hin H Hrms Hes. destruct (rl_stored _ _ Hr n p Hn) as [s Hst].
  assert (Hnode : sy_nodes y !! n = Some (RaftGroup p)) by (by rewrite (rl_nodes _ _ Hr) lookup_fmap Hn).
  destruct (HandleRaftReady_stored M rid n p s no_out [] now Hst (reachable_fit _ _ _ Hy Hnode Hin) M_nonempty) as (b & p1 & o1 & res1 & ms1 & _ & H1 & Hb).
  rewrite H1 in H. injection H as -> -> -> ->. destruct b; [|by eapply handles_step]. injection Hb as -> -> -> ->.
  assert (rms = []) as -> by (destruct rms as [|rm rms]; [done|]; exfalso; by apply (not_elem_of_nil rm), Hrms, list_elem_of_here).
  assert (es = []) as -> by (destruct es as [|e es]; [done|]; exfalso; by apply (not_elem_of_nil e), Hes, list_elem_of_here).
  exists y. split; [done|]. rewrite !app_nil_r insert_id //. by destruct g.
Qed.

Lemma refines_service g y n p ps s s' :
  reachable y → refines g y → g_peers g !! n = Some p → represents (peerStorage p) s (prevHardSt (RaftGroup p)) → represents ps s' (prevHardSt (RaftGroup p)) →
  services s s' → sl_applied s' ≤ applied (r_raftLog (p_Raft p)) → offered M rid ps s' → region_ok (region ps) →
  ∃ y', reachable y' ∧ refines (with_peer n (set_peerStorage ps p) g) y'.
Proof.
  intros Hy Hr Hn R R' Hse Hap Hoff Hreg. destruct (rl_stored _ _ Hr n p Hn) as [s0 [Hid HP Hpos Hreg0 Hhs Hms Hc]].
  destruct (represents_unique _ _ _ _ _ R (so_rep _ _ _ _ _ _ HP)) as [-> _].
  assert (Hnode : sy_nodes y !! n = Some (RaftGroup p)) by (by rewrite (rl_nodes _ _ Hr) lookup_fmap Hn).
  eexists. split.
  - eapply sy_reach_step; [exact Hy|]. eapply (sy_store _ _ _ n (RaftGroup p) ps _ (reopen n ps)); [done|by apply (rl_disk _ _ Hr)|]. by eapply stores_refitted.
  - eapply refines_peer; [exact Hr|exact Hn|done|done|auto..|]. exists s'. split; try done; [by eapply (stores_serviced _ _ _ _ _ _ _ _ n HP)|]. by rewrite (se_last _ _ Hse).
Qed.

(** A peer that restarts from its engines. *)
Lemma refines_restart g y n p storeId cfg p' rms ynet :
  refines g y → g_peers g !! n = Some p → NewPeer storeId cfg (ps_Engines (peerStorage p)) (p_Region p) (Meta p) = Ok p' →
  (∀ rm, rm ∈ rms → ∃ m, rm_Message rm = Some m ∧ m ∈ ynet) → (∀ m, m ∈ ynet → carried M rid (m_Entries m) (m_Snapshot m)) →
  (∃ c, starts_from M n (reopen n (peerStorage p)) (prevHardSt (RaftGroup p)) c ∧ NewRawNode c = Ok (RaftGroup p')) ∧
  refines (mkGroup (<[n := p']> (g_peers g)) (g_net g ++ rms) (g_applied g)) (mkSystem (<[n := RaftGroup p']> (sy_nodes y)) (sy_disks y) (sy_net y ++ ynet) (sy_applied y)).
Proof.
  intros Hr Hn H Hrms Hca. destruct (rl_stored _ _ Hr n p Hn) as [s [Hid HP Hpos Hreg Hhs Hms Hc]]. pose proof (so_rep _ _ _ _ _ _ HP) as R.
  pose proof (NewPeerStorage_reopen (peerStorage p) s _ n R Hpos) as Hdk. pose proof (so_applied _ _ _ _ _ _ HP) as Hap.
  assert (Rd : represents (reopen n (peerStorage p)) s (prevHardSt (RaftGroup p))) by (eapply (represents_same n); [|exact R]; done).
  destruct (NewPeer_opens M rid M_many n _ _ _ _ _ _ _ _ _ H Hid Hdk Rd Hpos Hreg ltac:(lia) Hhs (so_kept _ _ _ _ _ _ HP)) as (c & Hst & HN & Epv & Eps & Edk & _ & Hpd).
  split; [by exists c|]. rewrite (disk_same _ _ _ (rl_disk _ _ Hr n p Hn)). eapply refines_peer; [exact Hr|exact Hn|done|by rewrite Eps Edk|..|by exists s].
  - intros rm [?|Hm]%elem_of_app; [by left|right]. destruct (Hrms rm Hm) as (m & ? & ?). exists m. split; [done|]. apply elem_of_app. by right.
  - intros m Hm. apply elem_of_app. by left.
  - auto.
  - auto.
  - intros m [?|Hm]%elem_of_app; [by left|right; auto].
Qed.

Lemma refines_crash g y n p storeId cfg p' :
  reachable y → refines g y → g_peers g !! n = Some p → NewPeer storeId cfg (ps_Engines (peerStorage p)) (p_Region p) (Meta p) = Ok p' →
  ∃ y', reachable y' ∧ refines (with_peer n p' g) y'.
Proof.
  intros Hy Hr Hn H. destruct (refines_restart g y n p storeId cfg p' [] [] Hr Hn H) as [(c & Hst & HN) Hr']; [by intros rm ?%not_elem_of_nil|by intros m ?%not_elem_of_nil|].
  rewrite !app_nil_r in Hr'. eexists. split; [|exact Hr']. eapply sy_reach_step; [exact Hy|]. eapply (sy_crash _ _ _ n (RaftGroup p)); [|by apply (rl_disk _ _ Hr)|exact Hst|exact HN].
  by rewrite (rl_nodes _ _ Hr) lookup_fmap Hn.
Qed.
Lemma refines_crash_lead g y n p rn rd k p1 o storeId cfg p' :
  reachable y → refines g y → g_peers g !! n = Some p → rn_Ready (RaftGroup p) = Ok (rn, rd) → IsLeader p = true →
  p_Send (set_RaftGroup rn p) no_out (take k (rd_Messages rd)) = (p1, o) →
  NewPeer storeId cfg (ps_Engines (peerStorage p)) (p_Region p) (Meta p) = Ok p' →
  ∃ y', reachable y' ∧ refines (mkGroup (<[n := p']> (g_peers g)) (g_net g ++ o_trans o) (g_applied g)) y'.
Proof.
  intros Hy Hr Hn HR Hlead Hsend H. destruct (rl_stored _ _ Hr n p Hn) as [s Hst0].
  destruct (p_Send_spec _ (set_RaftGroup rn p) _ _ _ (pd_cache _ _ _ _ _ Hst0) Hsend) as (_ & _ & new & Eo & Hnew).
  assert (Hsub : ∀ m, m ∈ take k (rd_Messages rd) → m ∈ rd_Messages rd) by (intros m Hm; exact (subseteq_take _ _ _ Hm)).
  destruct (refines_restart g y n p storeId cfg p' (o_trans o) (take k (rd_Messages rd)) Hr Hn H) as [(c & Hst & HN) Hr'].
  - intros rm Hm. rewrite Eo in Hm. destruct (Hnew rm Hm) as (m & ? & ? & _). by exists m.
  - intros m Hm%Hsub. apply (pd_msgs _ _ _ _ _ Hst0). apply Ready_taken in HR as (_ & _ & Hms & _). by rewrite Hms in Hm.
  - eexists. split; [|exact Hr']. eapply sy_reach_step; [exact Hy|].
    eapply (sy_send _ _ _ n (RaftGroup p) rn rd); [|exact HR|by apply bool_decide_eq_true in Hlead|by apply M_other|exact Hsub|by apply (rl_disk _ _ Hr)|exact Hst|exact HN].
    by rewrite (rl_nodes _ _ Hr) lookup_fmap Hn.
Qed.
Lemma refines_crash_saved g y n p now p1 o res ms k storeId cfg p' :
  reachable y → refines g y → g_peers g !! n = Some p → in_range p → p_HandleRaftReady p no_out [] now = Ok (p1, o, res, ms) →
  NewPeer storeId cfg (ps_Engines (peerStorage p1)) (p_Region p1) (Meta p1) = Ok p' →
  ∃ y', reachable y' ∧ refines (mkGroup (<[n := p']> (g_peers g)) (g_net g ++ take k (o_trans o)) (g_applied g)) y'.
Proof.
  intros Hy Hr Hn Hin H HN. destruct (refines_ready g y n p now p1 o res ms (take k (o_trans o)) [] Hy Hr Hn Hin H) as (y1 & Hy1 & Hr1).
  { intros rm Hm. exact (subseteq_take _ _ _ Hm). } { by intros e ?%not_elem_of_nil. }
  destruct (refines_crash _ y1 n p1 storeId cfg p' Hy1 Hr1) as (y2 & Hy2 & Hr2); [by cbn; rewrite lookup_insert_eq|done|]. exists y2. split; [done|].
  unfold with_peer in Hr2. cbn in Hr2. by rewrite insert_insert_eq app_nil_r in Hr2.
Qed.

Lemma group_step_refines g g' y : reachable y → refines g y → group_step g g' → ∃ y', reachable y' ∧ refines g' y'.
Proof.
  intros Hy Hr Hstep. destruct Hstep as [n p rn Hn Hin H|n p rm m rn e Hn Hin Hrm Em Hto Hmt H|n p lead p' b Hn Hin H|n p h cb req er p' h' b Hn Hin Hok H|
    n p now p' o res ms Hn Hin H|n p ps s s' Hn|n p storeId cfg p' Hn H|n p rn rd k p1 o storeId cfg p' Hn HR Hlead Hsend H|n p now p1 o res ms k storeId cfg p' Hn Hin H HN].
  - eapply refines_call; [done|done|exact Hn|done..|]. right. by apply fine_tick.
  - eapply refines_call; [done|done|exact Hn|done..|]. right. destruct (rl_net _ _ Hr rm Hrm) as (m' & Em' & Hm). rewrite Em in Em'. injection Em' as <-. by eapply fine_deliver.
  - destruct (MaybeCampaign_calls (sy_net y) n _ _ _ _ H) as (? & ? & ?). by eapply refines_call.
  - destruct (Propose_calls (sy_net y) n _ _ _ _ _ _ _ _ Hok H) as (? & ? & ?). by eapply refines_call.
  - eapply refines_ready; [done|done|exact Hn|done|exact H|done|done].
  - by eapply refines_service.
  - by eapply refines_crash.
  - by eapply refines_crash_lead.
  - by eapply refines_crash_saved.
Qed.

(** A peer on fresh engines. *)
Lemma init_opens n p :
  (∃ storeId cfg kdb rdb rg meta, metapb.Peer_Id meta = n ∧ region_ok rg ∧ db_ok kdb ∧ db_ok rdb ∧ no_region kdb rdb rid ∧
    NewPeer storeId cfg (mkEngines kdb rdb) rg meta = Ok p) →
  peer_init M start n (reopen n (peerStorage p)) (RaftGroup p) ∧ ∃ s, peer_stored M rid n p s.
Proof.
  intros (storeId & cfg & kdb & rdb & rg & meta & Hid & Hreg & Hk & Hd & Hno & H).
  destruct (region_many M rid M_many _ Hreg) as (x & z & zs & Ep).
  destruct (NewPeerStorage_initial kdb rdb rg n Hk Hd) as (dk & Hdk & Erg & R); [by rewrite (proj1 Hreg)|by rewrite Ep|].
  destruct (NewPeer_opens M rid M_many n _ _ _ _ _ _ _ _ _ H Hid Hdk R) as (c & Hst & HN & _ & -> & Edk & _ & Hpd); [done..|by intros e ?%not_elem_of_nil|].
  split; [|by eexists]. rewrite Edk. eexists _, c. split; [exact Hst|]. split_and!; [done..|]. eexists. split; [apply (newLog_represents _ _ _ R)|].
  split; [apply opened_wf, (rp_wf _ _ _ R)|]. split_and!; [done..|]. intros sn Hg. destruct (ps_gives _ _ _ _ R Hg) as [Hw _]. by rewrite -Edk in Hw.
Qed.

Lemma group_init_refines g : group_init g → ∃ y, reachable y ∧ refines g y.
Proof.
  intros (Hdom & Hnet & Happ & Hp).
  exists (mkSystem (RaftGroup <$> g_peers g) (map_imap (λ n p, Some (reopen n (peerStorage p))) (g_peers g)) [] []). split.
  - apply sy_reach_init. split_and!; [by cbn; rewrite dom_fmap_L|done|done|]. intros n rn Hn. cbn in Hn. apply lookup_fmap_Some in Hn as (p & <- & Hn).
    eexists. cbn. rewrite map_lookup_imap Hn. split; [done|]. by apply init_opens, Hp.
  - split; cbn; [done| |rewrite Hnet; by intros rm ?%not_elem_of_nil|rewrite Happ; by intros x ?%not_elem_of_nil|by intros m ?%not_elem_of_nil|].
    + intros n p Hn. by rewrite map_lookup_imap Hn.
    + intros n p Hn. by apply init_opens, Hp.
Qed.

Lemma group_reachable_refines g : group_reachable g → ∃ y, reachable y ∧ refines g y.
Proof. induction 1 as [g Hg|g g' _ (y & Hy & Hr) Hstep]; [by apply group_init_refines|by eapply group_step_refines]. Qed.

(** ** The workers *)

Lemma offered_same ps ps' s s' :
  waiting ps' = waiting ps → services s s' → offered M rid ps s → offered M rid ps' s'.
Proof.
  intros Ew Hse Ho sn md Hw Hmd Hle. rewrite Ew in Hw. destruct Hse as [E1 E2 E3 E4 E5] eqn:E. clear E. destruct (Ho sn md Hw Hmd) as (? & ? & ? & Ht); [lia|].
  split_and!; [done..|lia|]. by rewrite (services_term s s').
Qed.

(** The stored log of a reachable peer. *)
Lemma reachable_stored g n p :
  group_reachable g → g_peers g !! n = Some p →
  ∃ s, represents (peerStorage p) s (prevHardSt (RaftGroup p)) ∧ offered M rid (peerStorage p) s ∧ region_ok (p_Region p) ∧ sl_applied s ≤ applied (r_raftLog (p_Raft p)).
Proof.
  intros (y & _ & Hr)%group_reachable_refines Hn. destruct (rl_stored _ _ Hr n p Hn) as [s [_ HP _ Hreg _ _ _]]. exists s.
  split_and!; [apply HP|apply HP|done|apply HP].
Qed.

(** ** The peers of a region *)

(** C2: The raft store implements a raft group with disks.  Every state that the peers
    of a region reach, through their calls of raft, [HandleRaftReady] over
    [PeerStorage], the work of the other workers on the engines, and crashes, is
    one of the raft group of RaftGroup: with the peers' raft nodes, the storages that
    [NewPeerStorage] opens on their engines as its disks, and at least the messages
    and applied entries that the peers have given out. *)
Theorem peers_refine g : group_reachable g → ∃ y, reachable y ∧ refines g y.
Proof. apply group_reachable_refines. Qed.

(** C3: The peers of a region are safe.  However messages are delayed, lost,
    repeated or reordered, and wherever stores crash and start again from their
    engines: two peers that lead in one term are the same, and two entries of one
    index that any peers have ever handed to their appliers are the same. *)
Theorem peers_safe g :
  group_reachable g →
  (∀ n1 n2 p1 p2, g_peers g !! n1 = Some p1 → g_peers g !! n2 = Some p2 → IsLeader p1 = true → IsLeader p2 = true →
    p_Term p1 = p_Term p2 → n1 = n2) ∧
  (∀ n1 n2 e1 e2, (n1, e1) ∈ g_applied g → (n2, e2) ∈ g_applied g → e_Index e1 = e_Index e2 → e1 = e2).
Proof.
  intros (y & Hy & Hr)%group_reachable_refines. split.
  - intros n1 n2 p1 p2 H1 H2 L1%bool_decide_eq_true L2%bool_decide_eq_true. apply (proj1 (election_safety M start marshal M_none start_term y Hy)); [|by rewrite (rl_nodes _ _ Hr) lookup_fmap ?H1 ?H2|done|done].
    by rewrite (rl_nodes _ _ Hr) lookup_fmap H1.
  - intros n1 n2 e1 e2 H1%(rl_applied _ _ Hr) H2%(rl_applied _ _ Hr). by apply (proj1 (state_machine_safety M start marshal M_none start_term y Hy) n1 n2).
Qed.

(** C4: [HandleRaftReady] returns, and what it leaves behind survives a crash.  In every
    reachable state it neither panics nor fails; unless it had nothing to do, a
    storage opened on the engines finds the peer's term, vote and commit index, and
    every entry of its log that is not applied; and what went to the transport came
    from raft and names its recipient. *)
Theorem ready_durable g n p o ms now :
  group_reachable g → g_peers g !! n = Some p → in_range p →
  ∃ b p' o' res ms', idle p = Ok b ∧ p_HandleRaftReady p o ms now = Ok (p', o', res, ms') ∧
    if b : bool then (p', o', res, ms') = (p, o, None, ms)
    else ∃ dk cs l0, NewPeerStorage (ps_Engines (peerStorage p')) (p_Region p') n = Ok dk ∧ ps_InitialState dk = Ok (hardState (p_Raft p'), cs) ∧
      hardState (p_Raft p') = hardState (p_Raft p) ∧ newLog dk = Ok l0 ∧ last_index l0 = last_index (r_raftLog (p_Raft p)) ∧ snapIndex l0 ≤ applied (r_raftLog (p_Raft p')) ∧
      (∀ i, snapIndex l0 < i → entry_at l0 i = entry_at (r_raftLog (p_Raft p)) i) ∧
      ∃ new, o_trans o' = o_trans o ++ new ∧ sent_from (r_msgs (p_Raft p)) new.
Proof.
  intros (y & Hy & Hr)%group_reachable_refines Hn Hin. destruct (rl_stored _ _ Hr n p Hn) as [s Hst].
  assert (Hnode : sy_nodes y !! n = Some (RaftGroup p)) by (by rewrite (rl_nodes _ _ Hr) lookup_fmap Hn).
  destruct (HandleRaftReady_stored M rid n p s o ms now Hst (reachable_fit _ _ _ Hy Hnode Hin) M_nonempty) as (b & p' & o' & res & ms' & Hb & H & Hcase).
  exists b, p', o', res, ms'. split_and!; [done..|]. destruct b; [done|]. by eapply handles_durable.
Qed.

(** What the workers do to the engines of a peer. *)
Lemma workers_reach g n p ai ti :
  group_reachable g → g_peers g !! n = Some p → ps_AppliedIndex (peerStorage p) = Ok ai → truncatedIndex (peerStorage p) = Ok ti →
  (∀ kdb a i t, db_ok kdb → db_get kdb (ApplyStateKey (metapb.Id (p_Region p))) = Some (Marshal (mkRaftApplyState a (Some (mkRaftTruncatedState i t)))) →
    ai ≤ a ≤ applied (r_raftLog (p_Raft p)) → a ≤ rl_LastIndex (raftState (peerStorage p)) → ti ≤ i ≤ a → ps_Term (peerStorage p) i = Ok t →
    group_reachable (with_peer n (set_peerStorage (set_kv kdb (peerStorage p)) p) g)) ∧
  (∀ a b rdb c, gcRaftLog (RaftDB (ps_Engines (peerStorage p))) (metapb.Id (p_Region p)) a b = Ok (rdb, c) → is_u64 a → is_u64 b → b ≤ ti + 1 →
    group_reachable (with_peer n (set_peerStorage (set_raft rdb (peerStorage p)) p) g)) ∧
  (∀ Build rg sn, GetMeta (Kv (ps_Engines (peerStorage p))) (RegionStateKey (metapb.Id (p_Region p))) = Ok (mkRegionLocalState PeerState_Normal (Some rg)) →
    wire (mkRaftSnapshotData (Some rg)) → region_ok rg → handleGen Build (ps_Engines (peerStorage p)) (metapb.Id (p_Region p)) = Ok sn →
    group_reachable (with_peer n (set_peerStorage (put_snapshot sn (peerStorage p)) p) g)).
Proof.
  intros Hg Hn Hai Hti. destruct (reachable_stored _ _ _ Hg Hn) as (s & R & Ho & Hreg & Hap). rewrite (ps_AppliedIndex_spec _ _ _ R) in Hai. injection Hai as <-.
  rewrite (truncatedIndex_spec _ _ _ R) in Hti. injection Hti as <-. pose proof (rp_wf _ _ _ R) as Hw. split_and!.
  - intros kdb a i t Hok Hk Ha Hl Hi Ht. rewrite (rp_state _ _ _ R) in Hl. cbn in Hl. pose proof (represents_bounds _ _ _ R) as (? & ? & _).
    rewrite (Term_spec _ _ _ _ R) in Ht; [|unfold is_u64, two64; lia..].
    assert (Hta : sl_term_at s i = Some t) by (destruct (sl_term_at s i); [by injection Ht as ->|by repeat case_decide]).
    destruct (represents_applied _ _ _ _ _ _ _ R Hok Hk Hi ltac:(lia) Hta) as [R' Hse].
    eapply gr_step; [exact Hg|]. eapply gs_service; [exact Hn|exact R|exact R'|exact Hse|cbn; lia| |done]. by eapply offered_same.
  - intros a b rdb c H Ha Hb Hle. destruct (represents_gc _ _ _ _ _ _ _ R H Ha Hb Hle) as [R' Hse].
    eapply gr_step; [exact Hg|]. eapply gs_service; [exact Hn|exact R|exact R'|exact Hse|lia| |done]. by eapply offered_same.
  - intros Build rg sn Hrg Hwire Hrok H. destruct (handleGen_offered M rid _ _ _ _ _ _ R Hrg Hwire Hrok H) as (R' & Hse & Ho').
    eapply gr_step; [exact Hg|]. by eapply gs_service.
Qed.

(** C5: The store's workers keep to what raft needs of the engines.  From a reachable
    state the group reaches the states in which the applier has written an apply
    state that moves the applied index no further than raft's and drops only applied
    entries; in which the GC worker has deleted the entries below the truncated
    index; and in which the region worker has put a snapshot in the channel. *)
Theorem workers_serve g n p ai ti :
  group_reachable g → g_peers g !! n = Some p → ps_AppliedIndex (peerStorage p) = Ok ai → truncatedIndex (peerStorage p) = Ok ti →
  (∀ kdb a i t, db_ok kdb → db_get kdb (ApplyStateKey (metapb.Id (p_Region p))) = Some (Marshal (mkRaftApplyState a (Some (mkRaftTruncatedState i t)))) →
    ai ≤ a ≤ applied (r_raftLog (p_Raft p)) → a ≤ rl_LastIndex (raftState (peerStorage p)) → ti ≤ i ≤ a → ps_Term (peerStorage p) i = Ok t →
    group_reachable (with_peer n (set_peerStorage (set_kv kdb (peerStorage p)) p) g)) ∧
  (∀ a b rdb c, gcRaftLog (RaftDB (ps_Engines (peerStorage p))) (metapb.Id (p_Region p)) a b = Ok (rdb, c) → is_u64 a → is_u64 b → b ≤ ti + 1 →
    group_reachable (with_peer n (set_peerStorage (set_raft rdb (peerStorage p)) p) g)) ∧
  (∀ Build rg sn, GetMeta (Kv (ps_Engines (peerStorage p))) (RegionStateKey (metapb.Id (p_Region p))) = Ok (mkRegionLocalState PeerState_Normal (Some rg)) →
    wire (mkRaftSnapshotData (Some rg)) → region_ok rg → handleGen Build (ps_Engines (peerStorage p)) (metapb.Id (p_Region p)) = Ok sn →
    group_reachable (with_peer n (set_peerStorage (put_snapshot sn (peerStorage p)) p) g)).
Proof. apply workers_reach. Qed.
End PeerGroup.
