(* ===== verification/RaftRun.v ===== *)
(** A run of a raft group of three peers on MemoryStorage (raft/storage.go): an
    election, a replicated and committed entry, a crash and a restart.  The
    safety theorems of RaftGroup are applied to it. *)

From S2P Require Import Prelude RaftPb RaftStorage RaftLog RaftLogSpec Raft RawNode Election RaftTree RaftSafety RaftSteps Cluster RaftGroup.

#[export] Instance MemoryStorage_SnapshotKeeps : SnapshotKeeps MemoryStorage.
Proof. by split. Qed.

Lemma ms_gives (ms : MemoryStorage) sn : gives ms sn → sn = ms_snapshot ms.
Proof.
  intros (ms' & Hl & Hs). assert (ms' = ms) as -> by (induction Hl as [|x y z -> _ IH]; [done|by apply IH]). by injection Hs as <-.
Qed.

#[export] Instance run_env : GoEnv.
Proof.
  refine {| go_Intn k n := 0; go_range k ks := ks |}; [lia|done].
Defined.

(** ** Saving to MemoryStorage *)

Definition numberedb (from : Z) (ents : list Entry) : bool :=
  bool_decide (imap (λ k _, from + Z.of_nat k) ents = e_Index <$> ents).
Lemma numberedb_ok from ents : numberedb from ents = true → numbered from ents.
Proof.
  intros H%bool_decide_eq_true k e He. assert (Hk : (e_Index <$> ents) !! k = Some (e_Index e)) by (by rewrite list_lookup_fmap He).
  rewrite -H list_lookup_imap He in Hk. by injection Hk as <-.
Qed.

#[local] Instance idx_ok_dec n : Decision (idx_ok n).
Proof. unfold idx_ok. apply _. Defined.

#[local] Instance ConfState_eq_dec : EqDecision ConfState.
Proof. solve_decision. Defined.
#[local] Instance SnapshotMetadata_eq_dec : EqDecision SnapshotMetadata.
Proof. solve_decision. Defined.
#[local] Instance Snapshot_eq_dec : EqDecision Snapshot.
Proof. solve_decision. Defined.

(** The store after a [Ready]: the new entries appended, the hard state set. *)
Definition ms_save (ms : MemoryStorage) (hs : HardState) (ents : list Entry) : outcome raft_error MemoryStorage :=
  ms ← ms_Append ms ents; Ok (SetHardState ms hs).

(** The disk holds the whole log, and its snapshot is the empty one it started
    with. *)
Definition run_persisted (hs : HardState) (l : RaftLog MemoryStorage) (ms : MemoryStorage) : bool :=
  match newLog ms with
  | Ok l0 =>
    bool_decide (ms_hardState ms = hs ∧ ms_snapshot ms = ex_snapshot ∧ snapIndex l0 = 0 ∧ snapTerm l0 = 0 ∧ offset l0 = 1 ∧
      snapIndex l = 0 ∧ snapTerm l = 0 ∧ offset l = 1 ∧ entries l0 = entries l ∧ stabled l0 = zlen (entries l) ∧ idx_ok (zlen (entries l)) ∧
      0 ≤ committed l ∧ 0 ≤ applied l ∧ 0 ≤ stabled l) && numberedb 1 (entries l)
  | _ => false
  end.

Lemma run_persisted_ok hs l ms : run_persisted hs l ms = true → persisted ex_members hs l ms.
Proof.
  unfold run_persisted. destruct (newLog ms) as [l0| | |] eqn:Hl; try done.
  intros [H Hn%numberedb_ok]%andb_true_iff. apply bool_decide_eq_true in H as (Hhs & Hsn & S0 & T0 & O0 & Sl & Tl & Ol & El & Hst & Hix & Hc & Ha & Hb).
  assert (Hent : ∀ i, entry_at l0 i = entry_at l i) by (intros i; unfold entry_at; by rewrite O0 Ol El).
  assert (Hterm : ∀ i, term_at l0 i = term_at l i) by (intros i; unfold term_at; by rewrite S0 Sl T0 Tl Hent).
  destruct (newLog_fields _ _ Hl) as (Ec & Ea & Ep). pose proof (zlen_nonneg (entries l)).
  split.
  - exists (mkConfState [1; 2; 3]). cbn. unfold ms_InitialState. by rewrite Hsn Hhs.
  - exists l0. split; [done|]. split.
    { split; try done; unfold last_index; rewrite ?Ec ?Ea ?S0 ?El ?O0 ?Hst ?Ep; try done; try lia. }
    split; [by unfold last_index; rewrite S0 Sl El|]. split; [by unfold last_index; rewrite Hst Sl|]. rewrite S0 Sl. split; [lia|]. split; [done|]. split; [done|].
    intros sn ->%ms_gives. rewrite Hsn. split; [by intros md cs [= <-] [= <-]; vm_compute|]. eexists. split; [done|]. cbn [md_Index md_Term]. split; [lia|].
    unfold term_at. destruct (decide _) as [|Hne]; [by rewrite Tl|by rewrite Sl in Hne].
Qed.

(** ** Schedules *)

Notation run_system := (@system MemoryStorage).
Notation run_step := (system_step ex_members ex_marshal).
Notation run_reachable := (system_reachable ex_members (0, 0) ex_marshal).

Inductive event :=
| EvCampaign (n : Z)
| EvPropose (n : Z) (data : bytes)
| EvDeliver (n : Z) (i : nat)
| EvReady (n : Z)
| EvCrash (n : Z)
| EvSend (n : Z) (k : nat).

Definition run_config (n : Z) (ms : MemoryStorage) : Config MemoryStorage := mkConfig n [] 10 1 (Some ms) 0.

Definition run_call (s : run_system) (n : Z) (f : RawNode MemoryStorage → outcome raft_error (RawNode MemoryStorage * option raft_error))
  : option run_system :=
  rn ← sy_nodes s !! n;
  match f rn with
  | Ok (rn', _) =>
    if decide (r_Term (rn_Raft rn) < max64 ∧ idx_ok (last_index (r_raftLog (rn_Raft rn)) + 1))
    then Some (mkSystem (<[n := rn']> (sy_nodes s)) (sy_disks s) (sy_net s) (sy_applied s)) else None
  | _ => None
  end.

Definition run_event (e : event) (s : run_system) : option run_system :=
  match e with
  | EvCampaign n => run_call s n Campaign
  | EvPropose n data => run_call s n (λ rn, Propose rn (Some data))
  | EvDeliver n i =>
    m ← sy_net s !! i;
    if decide (To m = n ∧ m_Term m < max64) then run_call s n (λ rn, rn_Step rn m) else None
  | EvReady n =>
    rn ← sy_nodes s !! n;
    ms ← sy_disks s !! n;
    match rn_Ready rn with
    | Ok (rn1, rd) =>
      match Advance rn1 rd with
      | Ok rn2 =>
        match ms_save ms (prevHardSt rn2) (rd_Entries rd) with
        | Ok ms' =>
          if run_persisted (prevHardSt rn2) (r_raftLog (rn_Raft rn2)) ms'
          then Some (mkSystem (<[n := set_stored ms' rn2]> (sy_nodes s)) (<[n := ms']> (sy_disks s)) (sy_net s ++ rd_Messages rd)
            (sy_applied s ++ map (pair n) (rd_CommittedEntries rd)))
          else None
        | _ => None
        end
      | _ => None
      end
    | _ => None
    end
  | EvCrash n =>
    rn ← sy_nodes s !! n;
    ms ← sy_disks s !! n;
    match NewRawNode (run_config n ms) with
    | Ok rn' =>
      if decide (ms_hardState ms = prevHardSt rn ∧ ms_snapshot ms = ex_snapshot)
      then Some (mkSystem (<[n := rn']> (sy_nodes s)) (sy_disks s) (sy_net s) (sy_applied s)) else None
    | _ => None
    end
  | EvSend n k =>
    rn ← sy_nodes s !! n;
    ms ← sy_disks s !! n;
    match rn_Ready rn, NewRawNode (run_config n ms) with
    | Ok (_, rd), Ok rn' =>
      if decide (r_State (rn_Raft rn) = StateLeader ∧ ms_hardState ms = prevHardSt rn ∧ ms_snapshot ms = ex_snapshot)
      then Some (mkSystem (<[n := rn']> (sy_nodes s)) (sy_disks s) (sy_net s ++ take k (rd_Messages rd)) (sy_applied s)) else None
    | _, _ => None
    end
  end.

Lemma run_starts_from n (ms : MemoryStorage) hs :
  ms_hardState ms = hs → ms_snapshot ms = ex_snapshot → starts_from ex_members n ms hs (run_config n ms).
Proof.
  intros Eh Es. split; [done|]. exists ms, (mkConfState [1; 2; 3]). split_and!; [done|done| |by vm_compute].
  cbn. unfold ms_InitialState. by rewrite Es Eh.
Qed.

Lemma run_other n : ∃ v, v ∈ ex_members ∧ v ≠ n.
Proof. destruct (decide (n = 1)) as [->|]; [exists 2|exists 1]; split; done. Qed.

Lemma run_call_step s s' n f :
  run_call s n f = Some s' → (∀ rn rn' e, f rn = Ok (rn', e) → call ex_marshal (sy_net s) n rn rn') → run_step s s'.
Proof.
  unfold run_call. intros (rn & Hn & H)%bind_Some Hf. destruct (f rn) as [[rn' e]| | |] eqn:E; try done.
  destruct (decide _) as [[Ht Hi]|]; [|done]. injection H as <-. eapply sy_call; [exact Hn|]. split_and!; [done..|by eapply Hf].
Qed.

Lemma run_event_step e s s' : run_event e s = Some s' → run_step s s'.
Proof.
  unfold run_event. destruct e as [n|n data|n i|n|n|n k]; intros H.
  - eapply run_call_step; [exact H|]. intros rn rn' e He. eapply call_campaign. exact He.
  - eapply run_call_step; [exact H|]. intros rn rn' e He. eapply call_propose. exact He.
  - apply bind_Some in H as (m & Hm & H). destruct (decide _) as [[Hto Ht]|]; [|done]. eapply run_call_step; [exact H|].
    intros rn rn' e He. eapply call_deliver; [|done|done|exact He]. by eapply list_elem_of_lookup_2.
  - apply bind_Some in H as (rn & Hn & H). apply bind_Some in H as (ms & Hd & H).
    destruct (rn_Ready rn) as [[rn1 rd]| | |] eqn:HR; try done. destruct (Advance rn1 rd) as [rn2| | |] eqn:HA; try done.
    destruct (ms_save _ _ _) as [ms'| | |] eqn:Hs; try done. destruct (run_persisted _ _ _) eqn:Hp; [|done]. injection H as <-.
    eapply sy_ready; [exact Hn|exact HR|exact HA|by apply run_persisted_ok..].
  - apply bind_Some in H as (rn & Hn & H). apply bind_Some in H as (ms & Hd & H).
    destruct (NewRawNode _) as [rn'| | |] eqn:HN; try done. destruct (decide _) as [[Eh Es]|]; [|done]. injection H as <-.
    eapply sy_crash; [exact Hn|exact Hd|by apply run_starts_from|exact HN].
  - apply bind_Some in H as (rn & Hn & H). apply bind_Some in H as (ms & Hd & H). destruct (rn_Ready rn) as [[rn1 rd]| | |] eqn:HR; try done.
    destruct (NewRawNode _) as [rn'| | |] eqn:HN; try done. destruct (decide _) as [(Hl & Eh & Es)|]; [|done]. injection H as <-.
    eapply sy_send; [exact Hn|exact HR|exact Hl|apply run_other| |exact Hd|by apply run_starts_from|exact HN].
    intros m Hm. by eapply elem_of_take in Hm as (? & ?%list_elem_of_lookup_2 & _).
Qed.

Fixpoint run (es : list event) (s : run_system) : option run_system :=
  match es with
  | [] => Some s
  | e :: es => s ← run_event e s; run es s
  end.

Lemma run_is_reachable es s s' : run_reachable s → run es s = Some s' → run_reachable s'.
Proof.
  revert s. induction es as [|e es IH]; intros s Hs H; cbn in H; [by injection H as <-|].
  apply bind_Some in H as (s1 & H1 & H). eapply IH; [|exact H]. eapply sy_reach_step; [exact Hs|by apply run_event_step in H1].
Qed.

(** ** The run *)

Definition run_start (n : Z) : option (Z * RawNode MemoryStorage) :=
  match NewRawNode (run_config n ex_storage) with Ok rn => Some (n, rn) | _ => None end.
Definition run_init : option run_system :=
  ns ← mapM run_start [1; 2; 3];
  Some (mkSystem (list_to_map ns) (list_to_map ((λ x, (x.1, ex_storage)) <$> ns)) [] []).

(** Peer 3 is elected by peer 2 in term 1 and crashes when its first entry is on
    its way but not saved.  Peer 1 gets the entry, is elected by peer 2 in term 2,
    brings peer 2 up to date, proposes an entry with the data, learns that peer 2
    has it and tells it so; peer 2 crashes, restarts and hears again. *)
Definition run_schedule (data : bytes) : list event :=
  [EvCampaign 3; EvReady 3; EvDeliver 2 0; EvReady 2; EvDeliver 3 2; EvSend 3 2;
   EvDeliver 1 4; EvReady 1; EvCampaign 1; EvReady 1; EvDeliver 2 7; EvReady 2; EvDeliver 1 8; EvReady 1;
   EvDeliver 2 10; EvReady 2; EvDeliver 1 11; EvReady 1; EvDeliver 2 12; EvReady 2; EvDeliver 1 13; EvPropose 1 data; EvReady 1;
   EvDeliver 2 17; EvReady 2; EvCrash 2; EvDeliver 1 18; EvReady 1; EvDeliver 2 20; EvReady 2].

Definition run_result (data : bytes) : option run_system := s ← run_init; run (run_schedule data) s.

Lemma run_init_ok s : run_init = Some s → system_init ex_members (0, 0) s.
Proof.
  unfold run_init. intros (ns & Hns & [= <-])%bind_Some. apply mapM_Some in Hns.
  assert (Hf : ns.*1 = [1; 2; 3] ∧ ∀ n rn, (n, rn) ∈ ns → NewRawNode (run_config n ex_storage) = Ok rn).
  { split.
    - clear -Hns. induction Hns as [|x y l k Hxy _ IH]; [done|]. cbn. f_equal; [|exact IH].
      unfold run_start in Hxy. destruct (NewRawNode _); by simplify_eq.
    - intros n rn Hin. apply list_elem_of_lookup in Hin as [i Hi].
      destruct (Forall2_lookup_r _ _ _ _ _ Hns Hi) as (x & _ & Hx). unfold run_start in Hx.
      destruct (NewRawNode (run_config x ex_storage)) eqn:E; by simplify_eq. }
  destruct Hf as [Hf Hall]. split_and!; [|done|done|]; cbn.
  - rewrite dom_list_to_map_L Hf. by vm_compute.
  - intros n rn Hn%elem_of_list_to_map_2. exists ex_storage. split.
    { apply elem_of_list_to_map_1.
      - rewrite -list_fmap_compose. change (NoDup ns.*1). rewrite Hf. apply (bool_decide_unpack _). by vm_compute.
      - apply list_elem_of_fmap. by exists (n, rn). }
    exists empty_hs, (run_config n ex_storage). split; [|split; [by apply Hall|]].
    { split; [done|]. exists ex_storage, (mkConfState [1; 2; 3]). by split_and!. }
    split_and!; [done..|]. eexists. split; [by vm_compute|]. split.
    { by split. }
    split_and!; [done..|]. intros sn ->%ms_gives. split; [by intros md cs [= <-] [= <-]; vm_compute|]. by eexists.
Qed.

Lemma run_result_reachable data s : run_result data = Some s → run_reachable s.
Proof.
  unfold run_result. intros (s0 & H0 & H)%bind_Some. eapply run_is_reachable; [|exact H]. apply sy_reach_init. by apply run_init_ok.
Qed.

(** At the end peers 1 and 2 have committed the proposal, at index 3, and peer 1
    leads. *)
Definition run_check (s : run_system) : bool :=
  match sy_nodes s !! 1, sy_nodes s !! 2 with
  | Some rn1, Some rn2 =>
    let l1 := r_raftLog (rn_Raft rn1) in let l2 := r_raftLog (rn_Raft rn2) in
    bool_decide (r_State (rn_Raft rn1) = StateLeader ∧ r_Term (rn_Raft rn1) = 2 ∧ r_Term (rn_Raft rn2) = 2 ∧
      committed l1 = 3 ∧ committed l2 = 3 ∧ snapIndex l1 = 0 ∧
      entry_at l1 3 = Some (mkEntry EntryNormal 2 3 (Some ["x"%byte])) ∧ is_Some (entry_at l2 3) ∧ is_Some (entry_at l1 1) ∧ is_Some (entry_at l2 1) ∧
      term_at l1 3 = Some 2 ∧ term_at l2 3 = Some 2 ∧
      (1, mkEntry EntryNormal 2 3 (Some ["x"%byte])) ∈ sy_applied s ∧ (2, 3) ∈ ((λ x, (x.1, e_Index x.2)) <$> sy_applied s))
  | _, _ => false
  end.

Lemma run_peers :
  ∃ s rn1 rn2, run_reachable s ∧ sy_nodes s !! 1 = Some rn1 ∧ sy_nodes s !! 2 = Some rn2 ∧ run_check s = true.
Proof.
  destruct (run_result ["x"%byte]) as [s|] eqn:E; [|by vm_compute in E].
  assert (H : run_check s = true) by (cut (from_option run_check false (run_result ["x"%byte]) = true); [by rewrite E|by vm_compute]).
  pose proof H as H'. unfold run_check in H'. destruct (sy_nodes s !! 1) as [rn1|] eqn:E1; [|done]. destruct (sy_nodes s !! 2) as [rn2|] eqn:E2; [|done].
  exists s, rn1, rn2. split; [exact (run_result_reachable _ s E)|]. split; [exact E1|]. split; [exact E2|exact H].
Qed.

Lemma run_checked s rn1 rn2 :
  sy_nodes s !! 1 = Some rn1 → sy_nodes s !! 2 = Some rn2 → run_check s = true →
  let l1 := r_raftLog (rn_Raft rn1) in let l2 := r_raftLog (rn_Raft rn2) in
  r_State (rn_Raft rn1) = StateLeader ∧ r_Term (rn_Raft rn1) = 2 ∧ r_Term (rn_Raft rn2) = 2 ∧
  committed l1 = 3 ∧ committed l2 = 3 ∧ snapIndex l1 = 0 ∧
  entry_at l1 3 = Some (mkEntry EntryNormal 2 3 (Some ["x"%byte])) ∧ is_Some (entry_at l2 3) ∧ is_Some (entry_at l1 1) ∧ is_Some (entry_at l2 1) ∧
  term_at l1 3 = Some 2 ∧ term_at l2 3 = Some 2 ∧
  (1, mkEntry EntryNormal 2 3 (Some ["x"%byte])) ∈ sy_applied s ∧ (2, 3) ∈ ((λ x, (x.1, e_Index x.2)) <$> sy_applied s).
Proof. unfold run_check. intros -> ->. apply bool_decide_eq_true. Qed.

(** Peer 1 is the only leader of its term, and no other peer sent an append of it. *)
Lemma election_safety_witness :
  ∃ s rn1, run_reachable s ∧ sy_nodes s !! 1 = Some rn1 ∧ r_State (rn_Raft rn1) = StateLeader ∧ r_Term (rn_Raft rn1) = 2 ∧
    (∀ n rn, sy_nodes s !! n = Some rn → r_State (rn_Raft rn) = StateLeader → r_Term (rn_Raft rn) = 2 → 1 = n) ∧
    ∀ m, m ∈ sy_net s → MsgType m = MsgAppend → m_Term m = 2 → From m = 1.
Proof.
  destruct run_peers as (s & rn1 & rn2 & Hs & H1 & H2 & Hc). destruct (run_checked s rn1 rn2 H1 H2 Hc) as (St & Tm & _).
  destruct (election_safety ex_members (0, 0) ex_marshal ltac:(by vm_compute) ltac:(done) s Hs) as (Ha & _ & Hm).
  exists s, rn1. split_and!; [done..| |].
  - intros n rn Hn Hst Ht. apply (Ha 1 n rn1 rn H1 Hn St Hst). congruence.
  - intros m Hin Hty Ht. apply (Hm 1 rn1 m H1 Hin St); [by rewrite Hty|congruence].
Defined.

(** Peer 2, restarted, hands out the entry peer 1 proposed and handed out, and
    has it in its log. *)
Lemma state_machine_safety_witness :
  ∃ s rn1 rn2, run_reachable s ∧ sy_nodes s !! 1 = Some rn1 ∧ sy_nodes s !! 2 = Some rn2 ∧
    (2, mkEntry EntryNormal 2 3 (Some ["x"%byte])) ∈ sy_applied s ∧
    entry_at (r_raftLog (rn_Raft rn2)) 3 = Some (mkEntry EntryNormal 2 3 (Some ["x"%byte])).
Proof.
  destruct run_peers as (s & rn1 & rn2 & Hs & H1 & H2 & Hc).
  destruct (run_checked s rn1 rn2 H1 H2 Hc) as (_ & _ & _ & C1 & C2 & _ & E1 & [e2 E2] & _ & _ & _ & _ & A1 & A2).
  apply list_elem_of_fmap in A2 as ([n2 a2] & [= <- Ei] & A2). exists s, rn1, rn2.
  destruct (state_machine_safety ex_members (0, 0) ex_marshal ltac:(by vm_compute) ltac:(done) s Hs) as (Ha & _ & Hl).
  rewrite (Ha 1 2 _ a2 A1 A2 Ei). split_and!; [done..|]. rewrite E2 -(Ha 1 2 _ a2 A1 A2 Ei). f_equal. symmetry.
  apply (Hl 1 2 rn1 rn2 3 _ e2 H1 H2); [lia|lia|exact E1|exact E2].
Defined.

(** The logs agree at index 3, so also at index 1, where the entry is of term 1. *)
Lemma log_matching_witness :
  ∃ s rn1 rn2 e, run_reachable s ∧ sy_nodes s !! 1 = Some rn1 ∧ sy_nodes s !! 2 = Some rn2 ∧
    entry_at (r_raftLog (rn_Raft rn1)) 1 = Some e ∧ entry_at (r_raftLog (rn_Raft rn2)) 1 = Some e.
Proof.
  destruct run_peers as (s & rn1 & rn2 & Hs & H1 & H2 & Hc).
  destruct (run_checked s rn1 rn2 H1 H2 Hc) as (_ & _ & _ & _ & _ & _ & _ & _ & [e1 E1] & [e2 E2] & T1 & T2 & _).
  exists s, rn1, rn2, e1. split_and!; [done..|]. rewrite E2. f_equal. symmetry.
  apply (log_matching ex_members (0, 0) ex_marshal ltac:(by vm_compute) ltac:(done) s 1 2 rn1 rn2 3 2 Hs H1 H2 T1 T2 1 ltac:(lia)); [exact E1|exact E2].
Defined.

(** The leader, peer 1, has the entry peer 2 has committed. *)
Lemma leader_completes_witness :
  ∃ s rn1 rn2 e, run_reachable s ∧ sy_nodes s !! 1 = Some rn1 ∧ sy_nodes s !! 2 = Some rn2 ∧
    entry_at (r_raftLog (rn_Raft rn2)) 3 = Some e ∧ entry_at (r_raftLog (rn_Raft rn1)) 3 = Some e.
Proof.
  destruct run_peers as (s & rn1 & rn2 & Hs & H1 & H2 & Hc).
  destruct (run_checked s rn1 rn2 H1 H2 Hc) as (St & Tm1 & Tm2 & _ & C2 & Sn & _ & [e2 E2] & _ & _ & _ & T2 & _).
  exists s, rn1, rn2, e2. split_and!; [done..|].
  apply (leader_completes ex_members (0, 0) ex_marshal ltac:(by vm_compute) ltac:(done) s 1 2 rn1 rn2 3 2 Hs H1 H2 St); [lia|lia|exact T2|exact E2|lia].
Defined.
