(* ===== verification/PeerRun.v ===== *)
(** A run of three peers of a region on engines in memory: an election, a request
    that is proposed, replicated, committed, handed to the appliers and applied,
    and crashes.  The theorems of PeerGroup are applied to it. *)

From S2P Require Import Prelude Pb RaftPb RaftStorage RaftLog RaftLogSpec Raft RawNode Engine RaftMeta PeerStorage PeerStorageSpec RaftCmd Applier WireFormat WireCmd Election RaftTree RaftSafety RaftSteps Cluster RaftLogSteps RaftGroup Peer PeerLog PeerSave PeerWorkers PeerReady PeerStart PeerGroup RaftRun.

#[export] Instance entry_messages : EntryMessages.
Proof. intros e Hi Ht _. cbn. split_and!; [done|done|done|]. destruct (e_Data e); [apply bytes_ok|done]. Qed.

(** ** Schedules *)

Notation run_peer := (peer bdb).
Notation run_group := (@group bdb).
Definition run_members : gset Z := {[1; 2; 3]}.
Definition run_region : metapb.Region :=
  metapb.mkRegion 7 [] [] (metapb.mkRegionEpoch 1 1) [metapb.mkPeer 1 1; metapb.mkPeer 2 2; metapb.mkPeer 3 3].
Definition run_state : RegionLocalState := mkRegionLocalState PeerState_Normal (Some run_region).
Definition run_cfg : config := mkConfiguration 10 2 (10 ^ 8) (10 ^ 10) (10 ^ 10) (10 ^ 10) (10 ^ 10) 128 (10 ^ 8).

Inductive peer_event :=
| PTick (n : Z)
| PCampaign (n : Z)
| PPropose (n : Z) (req : RaftCmdRequest)
| PDeliver (n : Z) (i : nat)
| PReady (n : Z)
| PApply (n : Z)
| PGc (n a b : Z)
| PGen (n : Z)
| PCrash (n : Z)
| PCrashLead (n : Z) (k : nat)
| PCrashSaved (n : Z) (k : nat).

#[local] Instance in_range_dec (p : run_peer) : Decision (in_range p).
Proof. unfold in_range, idx_ok, is_u64. apply _. Defined.

Definition ranged (p : run_peer) : option unit := if decide (in_range p) then Some tt else None.
Definition ok_of {E A} (c : outcome E A) : option A := match c with Ok a => Some a | _ => None end.

Definition restart (p : run_peer) : option run_peer :=
  ok_of (NewPeer (storeID p) run_cfg (ps_Engines (peerStorage p)) (p_Region p) (Meta p)).

(** The kv engine after the apply worker of the store has been handed the entries. *)
Definition run_applier (n : Z) (p : run_peer) (es : list Entry) : option bdb :=
  '(_, c) ← ok_of (applyWorker_run {[metapb.Id (p_Region p) := newApplierFromPeer n (p_Term p) (p_Region p)]} (newApplyContext (ps_Engines (peerStorage p)) ∅)
    [[(metapb.Id (p_Region p), MsgApplyCommitted (p_Term p) es)]]);
  Some (ac_Kv c).
Definition requested (st : SnapState) : bool := match st with SnapState_Generating None => true | _ => false end.
Fixpoint keys_sorted (d : bdb) : bool :=
  match d with
  | x :: ((y :: _) as d) => bltb x.1 y.1 && keys_sorted d
  | _ => true
  end.

Definition peer_do (e : peer_event) (g : run_group) : option run_group :=
  match e with
  | PTick n => p ← g_peers g !! n; _ ← ranged p; rn ← ok_of (Tick (RaftGroup p)); Some (with_peer n (set_RaftGroup rn p) g)
  | PCampaign n => p ← g_peers g !! n; _ ← ranged p; x ← ok_of (MaybeCampaign p true); Some (with_peer n x.1 g)
  | PPropose n req =>
    p ← g_peers g !! n; _ ← ranged p; x ← ok_of (p_Propose p ∅ None req newCmdResp); Some (with_peer n x.1.1 g)
  | PDeliver n i =>
    p ← g_peers g !! n; _ ← ranged p; rm ← g_net g !! i; m ← rm_Message rm;
    if decide (To m = n ∧ m_Term m < max64) then x ← ok_of (rn_Step (RaftGroup p) m); Some (with_peer n (set_RaftGroup x.1 p) g) else None
  | PReady n =>
    p ← g_peers g !! n; _ ← ranged p; '(p', o, _, ms) ← ok_of (p_HandleRaftReady p no_out [] 0);
    Some (mkGroup (<[n := p']> (g_peers g)) (g_net g ++ o_trans o) (g_applied g ++ map (pair n) (handed ms)))
  | PApply n =>
    p ← g_peers g !! n; let ps := peerStorage p in
    ai ← ok_of (ps_AppliedIndex ps); ti ← ok_of (truncatedIndex ps);
    kdb ← run_applier n p (filter (λ e, ai < e_Index e) (filter (λ x, x.1 = n) (g_applied g)).*2);
    st ← ok_of (GetApplyState kdb (metapb.Id (p_Region p))); tr ← TruncatedState st; t ← ok_of (ps_Term ps (tr_Index tr));
    if decide (keys_sorted kdb = true ∧
      db_get kdb (ApplyStateKey (metapb.Id (p_Region p))) = Some (Marshal (mkRaftApplyState (AppliedIndex st) (Some (mkRaftTruncatedState (tr_Index tr) t)))) ∧
      ai ≤ AppliedIndex st ∧ AppliedIndex st ≤ applied (r_raftLog (p_Raft p)) ∧ AppliedIndex st ≤ rl_LastIndex (raftState ps) ∧ ti ≤ tr_Index tr ∧ tr_Index tr ≤ AppliedIndex st)
    then Some (with_peer n (set_peerStorage (set_kv kdb ps) p) g) else None
  | PGc n a b =>
    p ← g_peers g !! n; let ps := peerStorage p in
    ti ← ok_of (truncatedIndex ps); x ← ok_of (gcRaftLog (RaftDB (ps_Engines ps)) (metapb.Id (p_Region p)) a b);
    if decide (0 ≤ a ∧ a < two64 ∧ 0 ≤ b ∧ b < two64 ∧ b ≤ ti + 1) then Some (with_peer n (set_peerStorage (set_raft x.1 ps) p) g) else None
  | PGen n =>
    p ← g_peers g !! n; let ps := peerStorage p in
    x ← ok_of (handleGen (λ _, Ok tt) (ps_Engines ps) (metapb.Id (p_Region p)));
    if decide (requested (snapState ps) = true ∧ db_get (Kv (ps_Engines ps)) (RegionStateKey (metapb.Id (p_Region p))) = Some (Marshal run_state))
    then Some (with_peer n (set_peerStorage (put_snapshot x ps) p) g) else None
  | PCrash n => p ← g_peers g !! n; p' ← restart p; Some (with_peer n p' g)
  | PCrashLead n k =>
    p ← g_peers g !! n; '(rn, rd) ← ok_of (rn_Ready (RaftGroup p)); p' ← restart p;
    if IsLeader p then
      let '(_, o) := p_Send (set_RaftGroup rn p) no_out (take k (rd_Messages rd)) in
      Some (mkGroup (<[n := p']> (g_peers g)) (g_net g ++ o_trans o) (g_applied g))
    else None
  | PCrashSaved n k =>
    p ← g_peers g !! n; _ ← ranged p; '(p1, o, _, _) ← ok_of (p_HandleRaftReady p no_out [] 0); p' ← restart p1;
    Some (mkGroup (<[n := p']> (g_peers g)) (g_net g ++ take k (o_trans o)) (g_applied g))
  end.

Fixpoint peer_run (es : list peer_event) (g : run_group) : option run_group :=
  match es with [] => Some g | e :: es => g ← peer_do e g; peer_run es g end.

(** The region state that the split wrote. *)
Definition run_kv : bdb := PutMeta [] (RegionStateKey 7) run_state.
Definition run_new (n : Z) : option (Z * run_peer) :=
  p ← ok_of (NewPeer n run_cfg (mkEngines run_kv []) run_region (metapb.mkPeer n n)); Some (n, p).
Definition peer_start : option run_group :=
  ps ← mapM run_new [1; 2; 3]; Some (mkGroup (list_to_map ps) [] []).

Definition run_put : RaftCmdRequest :=
  mkRaftCmdRequest (Some (mkRaftRequestHeader 7 (Some (metapb.mkPeer 1 1)) (Some (metapb.mkRegionEpoch 1 1)) 6))
    [mkRequest CmdType_Put None (Some (mkPutRequest "" [x6b] [x76])) None None] None.
Definition run_compact : RaftCmdRequest :=
  mkRaftCmdRequest (Some (mkRaftRequestHeader 7 (Some (metapb.mkPeer 1 1)) (Some (metapb.mkRegionEpoch 1 1)) 6))
    [] (Some (mkAdminRequest AdminCmdType_CompactLog None (Some (mkCompactLogRequest 7 6)) None None)).


Notation run_reachable := (group_reachable (D := bdb) run_members 7).

Lemma ok_of_Some {E A} (c : outcome E A) x : ok_of c = Some x → c = Ok x.
Proof. by destruct c; intros [= <-]. Qed.
Lemma ranged_Some p x : ranged p = Some x → in_range p.
Proof. unfold ranged. by destruct (decide _). Qed.
Lemma run_request_ok req : request_ok req.
Proof. by split. Qed.

Lemma PutMeta_ok `{Badger D} {A} `{!Proto A} (d : D) k (m : A) : db_ok d → db_ok (PutMeta d k m).
Proof. apply db_set_ok. Qed.

Lemma keys_sorted_ok (d : bdb) : keys_sorted d = true → db_ok d.
Proof.
  intros H. apply Sorted.Sorted_StronglySorted; [intros x y z; apply blt_trans|].
  induction d as [|x [|y d] IH]; [constructor|by repeat constructor|]. apply andb_true_iff in H as [H1%bltb_spec H2].
  constructor; [by apply IH|by constructor].
Qed.

(** The engines hold a proper region state as long as they hold one. *)
Lemma run_region_wire : wire (mkRaftSnapshotData (Some run_region)).
Proof. apply region_wire. split_and!; [done..|]. by repeat (apply Forall_cons; split; [done|]). Qed.
Lemma run_state_wire : wire run_state.
Proof. split; [done|]. apply run_region_wire. Qed.
Lemma run_region_ok : region_ok run_members 7 run_region.
Proof. split; [done|]. by vm_compute. Qed.
Lemma run_many : (1 < size run_members)%nat.
Proof. by vm_compute; lia. Qed.
Lemma run_none : None' ∉ run_members.
Proof. by vm_compute. Qed.

Lemma peer_do_reachable e g g' : run_reachable g → peer_do e g = Some g' → run_reachable g'.
Proof.
  intros Hg. destruct e as [n|n|n req|n i|n|n|n a b|n|n|n k|n k]; cbn [peer_do]; intros H; apply bind_Some in H as (p & Hn & H).
  - apply bind_Some in H as (x & Hr%ranged_Some & H). apply bind_Some in H as (rn & Hrn%ok_of_Some & [= <-]). eapply gr_step; [done|by eapply gs_tick].
  - apply bind_Some in H as (x & Hr%ranged_Some & H). apply bind_Some in H as ([p' b] & Hp%ok_of_Some & [= <-]). eapply gr_step; [done|by eapply gs_campaign].
  - apply bind_Some in H as (x & Hr%ranged_Some & H). apply bind_Some in H as ([[p' h] b] & Hp%ok_of_Some & [= <-]). eapply gr_step; [done|].
    eapply gs_propose; [exact Hn|done|apply run_request_ok|exact Hp].
  - apply bind_Some in H as (x & Hr%ranged_Some & H). apply bind_Some in H as (rm & Hrm & H). apply bind_Some in H as (m & Hm & H). destruct (decide _) as [[Hto Ht]|]; [|done].
    apply bind_Some in H as ([rn e] & Hs%ok_of_Some & [= <-]). eapply gr_step; [done|]. eapply gs_deliver; [exact Hn|done|by eapply list_elem_of_lookup_2|done..].
  - apply bind_Some in H as (x & Hr%ranged_Some & H). apply bind_Some in H as ([[[p' o] res] ms] & Hp%ok_of_Some & [= <-]). eapply gr_step; [done|by eapply gs_ready].
  - apply bind_Some in H as (ai & Hai%ok_of_Some & H). apply bind_Some in H as (ti & Hti%ok_of_Some & H). apply bind_Some in H as (kdb & _ & H).
    apply bind_Some in H as (st & _ & H). apply bind_Some in H as (tr & _ & H). apply bind_Some in H as (t & Ht%ok_of_Some & H).
    destruct (decide _) as [(Hs & Hk & H1 & H2 & H3 & H4 & H5)|]; [|done]. injection H as <-.
    exact (proj1 (workers_reach _ _ run_none run_many g n p ai ti Hg Hn Hai Hti) kdb _ _ t (keys_sorted_ok _ Hs) Hk (conj H1 H2) H3 (conj H4 H5) Ht).
  - apply bind_Some in H as (ti & Hti%ok_of_Some & H). apply bind_Some in H as ([rdb c] & Hgc%ok_of_Some & H). destruct (decide _) as [(H1 & H2 & H3 & H4 & H5)|]; [|done]. injection H as <-.
    destruct (reachable_stored _ _ run_none run_many _ _ _ Hg Hn) as (s & R & _). pose proof (ps_AppliedIndex_spec _ _ _ R) as Hai.
    by refine (proj1 (proj2 (workers_reach _ _ run_none run_many g n p _ ti Hg Hn Hai Hti)) a b rdb c _ _ _ _).
  - apply bind_Some in H as (x & Hx%ok_of_Some & H). destruct (decide _) as [[_ Hk]|]; [|done]. injection H as <-.
    destruct (reachable_stored _ _ run_none run_many _ _ _ Hg Hn) as (s & R & _). pose proof (ps_AppliedIndex_spec _ _ _ R) as Hai. pose proof (truncatedIndex_spec _ _ _ R) as Hti.
    refine (proj2 (proj2 (workers_reach _ _ run_none run_many g n p _ _ Hg Hn Hai Hti)) (λ _, Ok tt) run_region x _ run_region_wire run_region_ok Hx).
    exact (GetMeta_Marshal _ _ _ Hk run_state_wire).
  - apply bind_Some in H as (p' & Hp%ok_of_Some & [= <-]). eapply gr_step; [done|by eapply gs_crash].
  - apply bind_Some in H as ([rn rd] & Hrd%ok_of_Some & H). apply bind_Some in H as (p' & Hp%ok_of_Some & H). destruct (IsLeader p) eqn:Hl; [|done].
    destruct (p_Send _ _ _) as [p1 o] eqn:Hs. injection H as <-. eapply gr_step; [done|by eapply gs_crash_lead].
  - apply bind_Some in H as (x & Hr%ranged_Some & H). apply bind_Some in H as ([[[p1 o] res] ms] & Hp%ok_of_Some & H). apply bind_Some in H as (p' & Hnew%ok_of_Some & [= <-]).
    eapply gr_step; [done|by eapply gs_crash_saved].
Qed.

Lemma peer_run_reachable es g g' : run_reachable g → peer_run es g = Some g' → run_reachable g'.
Proof.
  revert g. induction es as [|e es IH]; intros g Hg; cbn [peer_run]; [by intros [= <-]|].
  intros (g1 & H1 & H2)%bind_Some. eapply IH; [|exact H2]. by eapply peer_do_reachable.
Qed.

Lemma run_kv_ok : db_ok run_kv.
Proof. apply PutMeta_ok. constructor. Qed.
Lemma run_fresh : no_region (D := bdb) run_kv [] 7.
Proof. split_and!; [by vm_compute|done|by intros k v ?]. Qed.

Lemma run_new_opens n x :
  run_new n = Some x →
  ∃ storeId cfg kdb rdb rg meta, metapb.Peer_Id meta = x.1 ∧ region_ok run_members 7 rg ∧ db_ok kdb ∧ db_ok rdb ∧ no_region (D := bdb) kdb rdb 7 ∧
    NewPeer storeId cfg (mkEngines kdb rdb) rg meta = Ok x.2.
Proof.
  intros (p & Hp%ok_of_Some & [= <-])%bind_Some. exists n, run_cfg, run_kv, [], run_region, (metapb.mkPeer n n).
  split_and!; [done|exact run_region_ok|exact run_kv_ok|constructor|exact run_fresh|exact Hp].
Qed.

Lemma run_new_ids l ps : Forall2 (λ n x, run_new n = Some x) l ps → ps.*1 = l.
Proof. induction 1 as [|n x l ps Hx _ IH]; [done|]. apply bind_Some in Hx as (p & _ & [= <-]). by rewrite fmap_cons IH. Qed.

Lemma news_init l ps :
  mapM run_new l = Some ps → list_to_set l = run_members → group_init run_members 7 (mkGroup (list_to_map ps) [] []).
Proof.
  intros Hps%mapM_Some Hl. split_and!; [|done..|]; cbn [g_peers].
  - by rewrite dom_list_to_map_L (run_new_ids l).
  - intros n p Hn%elem_of_list_to_map_2. apply list_elem_of_lookup_1 in Hn as [i Hi].
    destruct (Forall2_lookup_r _ _ _ _ _ Hps Hi) as (m & _ & Hm). exact (run_new_opens m _ Hm).
Qed.
Lemma peer_start_init g : peer_start = Some g → group_init run_members 7 g.
Proof. unfold peer_start. intros (ps & Hps & [= <-])%bind_Some. eapply news_init; [exact Hps|by vm_compute]. Qed.

(** ** The run *)

(** Peer 1 leads term 6 and commits a request and a truncation of the log, which its
    applier executes; it sends peer 3, which is far behind, a snapshot, and crashes
    with two requests that it did not save.  Peer 2 leads term 7, commits a request
    and brings peer 3 up to date. *)
Definition run_events : list peer_event :=
  [PCampaign 1; PReady 1; PDeliver 2 1; PReady 2; PDeliver 1 2; PReady 1; PDeliver 2 4; PReady 2; PDeliver 1 5; PReady 1;
   PPropose 1 run_put; PPropose 1 run_compact; PReady 1; PDeliver 2 9; PDeliver 2 11; PReady 2; PDeliver 1 13; PReady 1;
   PApply 1; PGc 1 0 8; PPropose 1 run_put; PGen 1; PPropose 1 run_put; PCrashLead 1 5;
   PCampaign 2; PReady 2; PDeliver 1 20; PReady 1; PDeliver 2 21; PReady 2; PDeliver 1 23; PReady 1; PDeliver 2 24; PReady 2;
   PDeliver 3 17; PDeliver 3 25; PReady 3; PDeliver 2 28; PPropose 2 run_put; PReady 2; PDeliver 3 29; PReady 3;
   PDeliver 2 31; PReady 2; PDeliver 3 32; PReady 3; PCrash 3; PTick 2].
Definition run_from (o : option run_group) (es : list peer_event) (n : Z) (check : run_group → run_peer → bool) : bool :=
  match o with
  | Some g => match peer_run es g with
              | Some g => match g_peers g !! n with Some p => check g p | None => false end
              | None => false
              end
  | None => false
  end.
(** What holds of peer [n] after [k] events. *)
Notation run_holds k n check := (run_from peer_start (take k run_events) n check).

Lemma run_from_found o es n check :
  (∀ g, o = Some g → run_reachable g) → run_from o es n check = true →
  ∃ g p, run_reachable g ∧ g_peers g !! n = Some p ∧ check g p = true.
Proof.
  intros Ho. unfold run_from. destruct o as [g0|]; [|done]. destruct (peer_run es g0) as [g|] eqn:E; [|done].
  destruct (g_peers g !! n) as [p|] eqn:Hn; [|done]. intros Hc. exists g, p. split_and!; [|done..].
  eapply peer_run_reachable; [|exact E]. by apply Ho.
Qed.
Lemma run_found k n check : run_holds k n check = true → ∃ g p, run_reachable g ∧ g_peers g !! n = Some p ∧ check g p = true.
Proof. apply run_from_found. intros g H. by apply gr_init, peer_start_init. Qed.

(** The leader of term 7 has the group's refinement. *)
Lemma peers_refine_witness :
  ∃ g y p, run_reachable g ∧ system_reachable run_members start marshal y ∧ refines run_members 7 g y ∧
    g_peers g !! 2 = Some p ∧ IsLeader p = true ∧ sy_nodes y !! 2 = Some (RaftGroup p).
Proof.
  destruct (run_found 48 2 (λ _ p, IsLeader p)) as (g & p & Hg & Hn & Hc); [by vm_compute|].
  destruct (peers_refine run_members 7 run_none run_many g Hg) as (y & Hy & Hr). exists g, y, p.
  split_and!; [done..|]. by rewrite (rl_nodes _ _ _ _ Hr) lookup_fmap Hn.
Defined.

(** Peer 2 is the only leader of term 7, and has handed out the request that
    peer 1 handed out before it crashed. *)
Lemma peers_safe_witness :
  ∃ g e, run_reachable g ∧ e_Index e = 7 ∧ (1, e) ∈ g_applied g ∧ (2, e) ∈ g_applied g ∧
    ∀ n p, g_peers g !! n = Some p → IsLeader p = true → p_Term p = 7 → n = 2.
Proof.
  destruct (run_found 48 2 (λ g p, IsLeader p && bool_decide (p_Term p = 7 ∧ (1, 7) ∈ ((λ x, (x.1, e_Index x.2)) <$> g_applied g) ∧
    (2, 7) ∈ ((λ x, (x.1, e_Index x.2)) <$> g_applied g)))) as (g & p & Hg & Hn & Hc); [by vm_compute|].
  apply andb_true_iff in Hc as [Hl (Ht & H1 & H2)%bool_decide_eq_true].
  apply list_elem_of_fmap in H1 as ([n1 e1] & [= <- E1] & H1). apply list_elem_of_fmap in H2 as ([n2 e2] & [= <- E2] & H2).
  destruct (peers_safe run_members 7 run_none run_many g Hg) as [Hlead Happ]. exists g, e1.
  rewrite (Happ 1 2 e1 e2 H1 H2 ltac:(congruence)). split_and!; [done..| |done|].
  - by rewrite -(Happ 1 2 e1 e2 H1 H2 ltac:(congruence)).
  - intros n p' Hn' Hl' Ht'. apply (Hlead n 2 p' p Hn' Hn Hl' Hl). congruence.
Defined.

(** Peer 3, with nothing in its engines and a snapshot and an entry of term 7 in its
    mailbox, saves the term and the log that its answers promise. *)
Lemma ready_durable_witness :
  ∃ g p p' o res ms dk cs l0, run_reachable g ∧ g_peers g !! 3 = Some p ∧ p_HandleRaftReady p no_out [] 0 = Ok (p', o, res, ms) ∧
    NewPeerStorage (ps_Engines (peerStorage p')) (p_Region p') 3 = Ok dk ∧ ps_InitialState dk = Ok (hardState (p_Raft p), cs) ∧
    hs_Term (hardState (p_Raft p)) = 7 ∧ newLog dk = Ok l0 ∧ last_index l0 = 9.
Proof.
  destruct (run_found 36 3 (λ g p, bool_decide (in_range p ∧ hs_Term (hardState (p_Raft p)) = 7 ∧ last_index (r_raftLog (p_Raft p)) = 9) &&
    match idle p with Ok b => negb b | _ => false end)) as (g & p & Hg & Hn & Hc); [by vm_compute|].
  apply andb_true_iff in Hc as [(Hin & Ht & Hl)%bool_decide_eq_true Hi].
  destruct (ready_durable run_members 7 run_none run_many g 3 p no_out [] 0 Hg Hn Hin) as (b & p' & o & res & ms & Hb & H & Hd).
  rewrite Hb in Hi. destruct b; [done|]. destruct Hd as (dk & cs & l0 & H1 & H2 & H3 & H4 & H5 & _).
  exists g, p, p', o, res, ms, dk, cs, l0. rewrite H3 in H2. split_and!; [done..|]. by rewrite H5.
Defined.

(** The applier of peer 1 applies the request and truncates the log. *)
Definition applied_run (g : run_group) (p : run_peer) : option bdb := run_applier 1 p (filter (λ x, x.1 = 1) (g_applied g)).*2.
Definition run_applied : RaftApplyState := mkRaftApplyState 8 (Some (mkRaftTruncatedState 7 6)).
Lemma run_applied_wire : wire run_applied.
Proof. by split_and!. Qed.
Lemma workers_serve_witness :
  ∃ g p kdb, run_reachable g ∧ g_peers g !! 1 = Some p ∧ applied_run g p = Some kdb ∧
    GetApplyState kdb 7 = Ok run_applied ∧ run_reachable (with_peer 1 (set_peerStorage (set_kv kdb (peerStorage p)) p) g).
Proof.
  destruct (run_found 18 1 (λ g p, bool_decide (metapb.Id (p_Region p) = 7 ∧ 8 ≤ applied (r_raftLog (p_Raft p)) ∧ 8 ≤ rl_LastIndex (raftState (peerStorage p)) ∧
    ok_of (ps_AppliedIndex (peerStorage p)) = Some 5 ∧ ok_of (truncatedIndex (peerStorage p)) = Some 5 ∧ ok_of (ps_Term (peerStorage p) 7) = Some 6) &&
    match applied_run g p with Some kdb => keys_sorted kdb && bool_decide (db_get kdb (ApplyStateKey 7) = Some (Marshal run_applied)) | None => false end))
    as (g & p & Hg & Hn & [(Hid & H1 & H2 & Ha%ok_of_Some & Hti%ok_of_Some & Hte%ok_of_Some)%bool_decide_eq_true Hk]%andb_true_iff); [by vm_compute|].
  destruct (applied_run g p) as [kdb|] eqn:Hr; [|done]. apply andb_true_iff in Hk as [Hs%keys_sorted_ok Hk%bool_decide_eq_true].
  destruct (workers_serve run_members 7 run_none run_many g 1 p 5 5 Hg Hn Ha Hti) as (H & _).
  exists g, p, kdb. split_and!; [done..| |].
  - exact (GetMeta_Marshal _ _ _ Hk run_applied_wire).
  - apply (H kdb 8 7 6 Hs); [by rewrite Hid|lia..|exact Hte].
Defined.

(** ** A snapshot and committed entries in one [Ready] *)

Definition skipped (g : run_group) (p : run_peer) : bool :=
  match filter (λ x, x.1 = 3) (g_applied g) with
  | [(_, e)] =>
    bool_decide (e_Index e = 10 ∧ applied (r_raftLog (p_Raft p)) = 10 ∧
      AppliedIndex <$> ok_of (GetApplyState (Kv (ps_Engines (peerStorage p))) 7) = Some 8)
  | _ => false
  end.

Lemma gap_panics (a : applier) (c : applyContext (D := bdb)) t e st :
  GetApplyState (ac_Kv c) (metapb.Id (a_region a)) = Ok st → pendingRemove a = false → u64 (AppliedIndex st + 1) ≠ e_Index e →
  handleTask a c (MsgApplyCommitted t [e]) = Panic "expect index".
Proof.
  intros Hst Hp Hi. cbn [handleTask]. unfold handleApply. rewrite Hp. unfold handleRaftCommittedEntries, prepareFor.
  cbn [a_region set_a_term ac_Kv set_ac_cbs]. rewrite Hst. cbn [mbind outcome_bind apply_entries]. cbn [pendingRemove a_applyState set_a_applyState set_a_term].
  by rewrite Hp decide_True.
Qed.

(** C6: A peer that restores a snapshot loses the committed entries that come in the
    same [Ready].  The peers of a region reach a state in which raft on peer 3 counts
    the entries up to 10 as applied, while its applier has been handed the entry of
    index 10 and nothing else, although its engines hold the data of the snapshot, at
    index 8: the entry of index 9 was dropped, and the applier panics when it takes
    up the entry of index 10. *)
Theorem entries_skipped :
  ∃ g p e, run_reachable g ∧ g_peers g !! 3 = Some p ∧ e_Index e = 10 ∧ (3, e) ∈ g_applied g ∧ (∀ e', (3, e') ∈ g_applied g → e' = e) ∧
    applied (r_raftLog (p_Raft p)) = 10 ∧
    ∀ (a : applier) (c : applyContext (D := bdb)) t,
      metapb.Id (a_region a) = 7 → pendingRemove a = false → ac_Kv c = Kv (ps_Engines (peerStorage p)) →
      handleTask a c (MsgApplyCommitted t [e]) = Panic "expect index".
Proof.
  destruct (run_found 46 3 skipped) as (g & p & Hg & Hn & Hc); [by vm_compute|]. unfold skipped in Hc.
  destruct (filter _ _) as [|[n e] [|]] eqn:Hf; [done| |done]. apply bool_decide_eq_true in Hc as (He & Hap & Hst).
  assert (Hx : ∀ e', (3, e') ∈ g_applied g ↔ (3, e') = (n, e)).
  { intros e'. rewrite -list_elem_of_singleton -Hf list_elem_of_filter. tauto. }
  assert (n = 3) as -> by (apply (list_elem_of_filter (λ x, x.1 = 3) (g_applied g) (n, e)); rewrite Hf; by apply list_elem_of_singleton).
  exists g, p, e. split_and!; [done..|by apply Hx|by intros e' [= ->]%Hx|done|].
  intros a c t Ha Hp Hc. apply fmap_Some in Hst as (st & Hst%ok_of_Some & H6). eapply gap_panics; [by rewrite Hc Ha|done|].
  by rewrite -H6 He.
Qed.
