(* ===== verification/Replicas.v ===== *)
(** The replicas of a region: raft and the appliers together.

    Raft hands every peer the same entries (RaftGroup), and a store makes of a
    region what its entries say (ApplierWorker); so two replicas that have
    applied up to the same index hold the same region and the same data. *)

From S2P Require Import Prelude Pb RaftPb RaftMeta Engine Storage EngineCF PeerStorage RaftCmd Applier ApplierSpec ApplierWorker.
From S2P Require Import RaftStorage RaftLog RaftLogSpec Raft RawNode Election RaftTree RaftSafety RaftSteps Cluster RaftGroup.

Section Applied.
Context {D : Type} `{!Badger D}.
Context `{!Proto RaftApplyState, !Proto RegionLocalState, !Proto metapb.Region, !Proto RaftCmdRequest, !Proto ConfChange}.

(** The entries a peer has applied are numbered on from where it was. *)
Lemma spec_entries_index id s es s' :
  spec_entries id s es = Ok (s', false) → is_u64 (AppliedIndex (s_apply s)) → Forall (λ e, 1 ≤ e_Index e) es →
  AppliedIndex (s_apply s') = AppliedIndex (s_apply s) + zlen es ∧
  ∀ k e, es !! k = Some e → e_Index e = AppliedIndex (s_apply s) + 1 + Z.of_nat k.
Proof.
  revert s. induction es as [|e es IH]; intros s H Hu Hes; cbn in H.
  { injection H as <-. unfold zlen. cbn. split; [lia|done]. }
  apply Forall_cons in Hes as [He Hes]. apply bind_Ok in H as ([s1 eff] & H1 & H). destruct (decide _); [done|].
  destruct (spec_entry_index _ _ _ _ H1 He Hu) as (Hnext & Ha & Hu1).
  rewrite -Ha in Hu1. destruct (IH s1 H Hu1 Hes) as [Ha' Hk]. rewrite zlen_cons. split; [lia|].
  intros [|k] x Hx; cbn in Hx; [injection Hx as <-; lia|]. rewrite (Hk k x Hx). lia.
Qed.

(** The state two peers reach with the same entries does not depend on them. *)
Lemma spec_entries_peer id1 id2 s es s1 s2 : spec_entries id1 s es = Ok (s1, false) → spec_entries id2 s es = Ok (s2, false) → s1 = s2.
Proof.
  revert s. induction es as [|e es IH]; intros s H1 H2; cbn in H1, H2; [congruence|].
  apply bind_Ok in H1 as ([t1 eff1] & E1 & H1). apply bind_Ok in H2 as ([t2 eff2] & E2 & H2). rewrite E1 in E2. injection E2 as <- <-.
  destruct (decide _); [done|]. destruct (decide _); [done|]. by eapply IH.
Qed.

(** What a client reads from two stores that hold the same state. *)
Lemma holds_reads others1 others2 a1 a2 (c1 c2 : applyContext (D := D)) s r1 r2 cf key :
  holds others1 a1 c1 s r1 → holds others2 a2 c2 s r2 → cf ∈ CFs → in_region (s_region s) key →
  engine_util.GetCF (ac_Kv c1) cf key = engine_util.GetCF (ac_Kv c2) cf key.
Proof.
  intros H1 H2 Hcf Hk. unfold engine_util.GetCF, engine_util.GetCFFromTxn.
  rewrite (kc_data _ _ _ (hd_kv _ _ _ _ _ H1)) // (kc_data _ _ _ (hd_kv _ _ _ _ _ H2)) //.
Qed.
End Applied.

Section Replicas.
Context {D : Type} `{!Badger D}.
Context `{!Proto RaftApplyState, !Proto RegionLocalState, !Proto metapb.Region, !Proto RaftCmdRequest, !Proto ConfChange}.
Context {messages : ApplyMessages}.
Context {T : Type} {HS : RaftStorage T} {HG : GoEnv} {HK : SnapshotKeeps T}.
Context (M : gset Z) (base : pos) (ccMarshal : ConfChange → bytes + raft_error).
Context (M_none : None' ∉ M) (base_term : 0 ≤ base.2).

(** The run of a store's apply worker from a state that holds its regions. *)
Record store_run (V : gmap Z region_view) (batches : list (list (Z * apply_task))) (pr' : gmap Z applier) (c' : applyContext (D := D)) : Prop := {
  sn_start : ∃ pr c, store_rel pr c V ∧ applyWorker_run pr c batches = Ok (pr', c');
  sn_msgs : Forall (Forall (task_ok V)) batches
}.

(** The entries of the region are those raft handed to the peer. *)
Definition fed_by (s : system (T := T)) (n rid : Z) (batches : list (list (Z * apply_task))) : Prop :=
  ∀ e, e ∈ entries_of rid (concat batches) → (n, e) ∈ sy_applied s.

(** What a region is at the end of a run in which its peer was not removed. *)
Lemma store_run_region V batches pr' c' rid v a :
  store_run V batches pr' c' → V !! rid = Some v → pr' !! rid = Some a → pendingRemove a = false →
  ∃ s' others, spec_entries (v_peer v) (v_state v) (entries_of rid (concat batches)) = Ok (s', false) ∧
    is_u64 (AppliedIndex (s_apply (v_state v))) ∧ metapb.Id (s_region s') = rid ∧ holds others a c' s' false.
Proof.
  intros [(pr & c & Hst & Hrun) Hms] Hv Ha Hrm. pose proof (applyWorker_run_spec batches pr c V Hst Hms) as H. pose proof (spec_msgs_lookup V (concat batches)) as Hl.
  destruct (spec_msgs V _) as [V'| | |]; try done; [|destruct H as [p H]; by rewrite H in Hrun].
  destruct H as (pr2 & c2 & H & Hst'). rewrite H in Hrun. injection Hrun as -> ->.
  destruct (Hl V' rid v eq_refl Hv) as (v' & Hv' & Hview). destruct (sr_holds _ _ _ Hst' _ _ _ Ha Hv') as (_ & Hid & Hh).
  pose proof (hd_removed _ _ _ _ _ Hh) as Erm. rewrite Hrm in Erm.
  assert (is_Some (pr !! rid)) as [a0 Ha0] by (apply elem_of_dom; rewrite (sr_dom _ _ _ Hst); by apply elem_of_dom_2 in Hv).
  destruct (sr_holds _ _ _ Hst _ _ _ Ha0 Hv) as (_ & _ & Hh0). pose proof (ro_applied _ _ (hd_ok _ _ _ _ _ Hh0)) as Hu.
  unfold spec_view in Hview. destruct (v_removed v) eqn:Ev; [injection Hview as <-; congruence|].
  apply bind_Ok in Hview as ([s' rem] & Hs & [= <-]). cbn in *. subst rem. by exists s', (dom V' ∖ {[rid]}).
Qed.

(** C7: Replicas agree.  Two stores hold replicas of a region that start from the
    same state, and their workers apply what raft hands to the two peers, among
    the entries of other regions, in batches of their own.  When both have
    applied up to the same index, and neither peer has been removed, the regions
    are the same, and every key of the region reads the same from both engines. *)
Theorem replicas_agree s n1 n2 rid V1 V2 b1 b2 pr1 pr2 c1 c2 v1 v2 a1 a2 st1 st2 :
  system_reachable M base ccMarshal s →
  store_run V1 b1 pr1 c1 → store_run V2 b2 pr2 c2 →
  V1 !! rid = Some v1 → V2 !! rid = Some v2 → v_state v1 = v_state v2 →
  fed_by s n1 rid b1 → fed_by s n2 rid b2 →
  pr1 !! rid = Some a1 → pr2 !! rid = Some a2 → pendingRemove a1 = false → pendingRemove a2 = false →
  GetApplyState (ac_Kv c1) rid = Ok st1 → GetApplyState (ac_Kv c2) rid = Ok st2 → AppliedIndex st1 = AppliedIndex st2 →
  a_region a1 = a_region a2 ∧ st1 = st2 ∧
  ∀ cf key, cf ∈ CFs → in_region (a_region a1) key → engine_util.GetCF (ac_Kv c1) cf key = engine_util.GetCF (ac_Kv c2) cf key.
Proof.
  intros Hs R1 R2 Hv1 Hv2 Ev Hf1 Hf2 Ha1 Ha2 Hr1 Hr2 Hst1 Hst2 Hap.
  destruct (store_run_region _ _ _ _ _ _ _ R1 Hv1 Ha1 Hr1) as (s1 & o1 & Hs1 & Hu1 & Hid1 & Hh1).
  destruct (store_run_region _ _ _ _ _ _ _ R2 Hv2 Ha2 Hr2) as (s2 & o2 & Hs2 & _ & Hid2 & Hh2). rewrite -Ev in Hs2.
  pose proof (GetApplyState_holds _ _ _ (hd_ok _ _ _ _ _ Hh1) (hd_apply _ _ _ _ _ Hh1)) as E1. rewrite Hid1 Hst1 in E1. injection E1 as ->.
  pose proof (GetApplyState_holds _ _ _ (hd_ok _ _ _ _ _ Hh2) (hd_apply _ _ _ _ _ Hh2)) as E2. rewrite Hid2 Hst2 in E2. injection E2 as ->.
  destruct (spec_entries_index _ _ _ _ Hs1 Hu1 (entries_of_ok _ _ _ _ (sn_msgs _ _ _ _ R1) Hv1)) as [Hn1 Hk1].
  destruct (spec_entries_index _ _ _ _ Hs2 Hu1 (entries_of_ok _ _ _ _ (sn_msgs _ _ _ _ R2) Hv2)) as [Hn2 Hk2].
  assert (Ees : entries_of rid (concat b1) = entries_of rid (concat b2)).
  { assert (length (entries_of rid (concat b1)) = length (entries_of rid (concat b2))) as Hlen by (unfold zlen in *; lia).
    apply (list_eq_same_length _ _ _ eq_refl Hlen). intros k x y _ Hx Hy. eapply (applied_same M base ccMarshal); [done|done|exact Hs| | |].
    - apply Hf1. by eapply list_elem_of_lookup_2.
    - apply Hf2. by eapply list_elem_of_lookup_2.
    - by rewrite (Hk1 _ _ Hx) (Hk2 _ _ Hy). }
  rewrite -Ees in Hs2. pose proof (spec_entries_peer _ _ _ _ _ _ Hs1 Hs2) as <-.
  rewrite (hd_region _ _ _ _ _ Hh1) (hd_region _ _ _ _ _ Hh2). split_and!; [done..|]. intros cf key Hcf Hk. by eapply holds_reads.
Qed.
End Replicas.
