(* ===== verification/ReplicasRun.v ===== *)
(** Replicas at work: a cluster is bootstrapped, a put is committed by the raft
    group of RaftRun, and two stores apply it. *)

From S2P Require Import Prelude Pb RaftPb RaftMeta Engine Storage EngineCF PeerStorage RaftCmd Applier ApplierSpec ApplierWorker ApplierProps Bootstrap.
From S2P Require Import PeerStorageSpec WireFormat WireCmd.
From S2P Require Import RaftStorage RaftLog RaftLogSpec Raft RawNode Election RaftTree RaftSafety RaftSteps Cluster RaftGroup RaftRun Replicas.

#[export] Instance StoreIdent_Proto : Proto StoreIdent :=
  codec_Proto (c_map (c_pair c_u64 c_u64) (λ '(c, s), mkStoreIdent c s) (λ i, (ClusterId i, si_StoreId i)) ltac:(by intros []) ltac:(codec_ok))
    (mkStoreIdent 0 0).

(** ** Bootstrapping *)

Lemma bootstrap_first_region_witness :
  ∃ e1, BootstrapStore (D := bdb) (mkEngines [] []) 1 2 = Ok e1 ∧
    store_rel {[3 := newApplierFromPeer 4 RaftInitLogTerm (PrepareBootstrap e1 2 3 4).2]} (newApplyContext (PrepareBootstrap e1 2 3 4).1 ∅)
      {[3 := mkView 4 (mkRState (PrepareBootstrap e1 2 3 4).2 initial_applyState ∅) false]}.
Proof.
  destruct (bootstrap_first_region (D := bdb) [] [] 1 2 3 4) as (e1 & H1 & _ & H2 & _); [by constructor|by constructor|done..|].
  exists e1. split; [exact H1|]. apply H2.
Defined.

(** ** Two stores *)

Definition rep_region : metapb.Region := example_region.
Definition rep_apply : RaftApplyState := mkRaftApplyState 0 (Some (mkRaftTruncatedState 0 0)).
Definition rep_state : rstate := mkRState rep_region rep_apply ∅.
Definition rep_kv : bdb :=
  PutMeta (PutMeta [] (RegionStateKey 1) (mkRegionLocalState PeerState_Normal (Some rep_region))) (ApplyStateKey 1) rep_apply.
Definition rep_ctx : applyContext (D := bdb) := newApplyContext (mkEngines rep_kv []) {[7 := NewCallback]}.
Definition rep_router (id : Z) : gmap Z applier := {[1 := newApplierFromPeer id 1 rep_region]}.
Definition rep_views (id : Z) : gmap Z region_view := {[1 := mkView id rep_state false]}.

(** Put [v] at [k]. *)
Definition rep_cmd : RaftCmdRequest :=
  mkRaftCmdRequest (Some (mkRaftRequestHeader 1 (Some (metapb.mkPeer 1 1)) (Some (metapb.mkRegionEpoch 1 1)) 1))
    [mkRequest CmdType_Put None (Some (mkPutRequest "" [x6b] [x76])) None None] None.
Definition rep_entries : list Entry :=
  [mkEntry EntryNormal 1 1 None; mkEntry EntryNormal 2 2 None; mkEntry EntryNormal 2 3 (Some (Marshal rep_cmd))].

(** Store 1 gets the entries at once; store 2 gets them in two batches, with a
    proposal in between that never was committed. *)
Definition rep_batches1 : list (list (Z * apply_task)) := [[(1, MsgApplyCommitted 1 rep_entries)]].
Definition rep_batches2 : list (list (Z * apply_task)) :=
  [[(1, MsgApplyCommitted 1 (take 1 rep_entries))];
   [(1, MsgApplyProposal 2 [mkProposal false 3 0 (Some 7)]); (1, MsgApplyCommitted 1 (drop 1 rep_entries))]].

Lemma rep_store id : store_rel (rep_router id) rep_ctx (rep_views id).
Proof.
  assert (Hok : db_ok rep_kv) by (apply bdb_set_ok, bdb_set_ok; constructor).
  apply single_store; try done.
  - apply fresh_core; [done|by vm_compute|done|]. intros k v. change (db_get rep_kv k) with (bdb_get rep_kv k).
    intros Hv%bdb_get_elem; [|done]. assert (Hl : Forall (λ e : bytes * bytes, head e.1 = Some x01) rep_kv).
    { apply (bool_decide_unpack _). by vm_compute. }
    rewrite Forall_forall in Hl. apply Hl in Hv. cbn in Hv. destruct k as [|x k]; [done|]. injection Hv as ->. by eexists.
  - split; [set_solver| |done|by eexists]. cbn. split_and!; [done..|]. by repeat (apply Forall_cons; split; [done|]).
Qed.

Lemma rep_entries_ok others : Forall (entry_ok others) rep_entries.
Proof.
  assert (Hu : Unmarshal (Marshal rep_cmd) = Some rep_cmd) by (by vm_compute).
  apply Forall_cons. split; [|apply Forall_cons; split; [|apply Forall_singleton]].
  - split; [done|done|done].
  - split; [done|done|done].
  - split; [done| |done]. intros cmd _ H. change (Unmarshal (Marshal rep_cmd) = Some cmd) in H. rewrite Hu in H. injection H as <-.
    split; [by intros a sp|]. apply Forall_singleton. split; apply CfDefault_CFs.
Qed.
Lemma rep_tasks_ok : Forall (Forall (task_ok (rep_views 1))) rep_batches1 ∧ Forall (Forall (task_ok (rep_views 2))) rep_batches2.
Proof.
  pose proof (rep_entries_ok (dom (rep_views 1) ∖ {[1]})) as H1. pose proof (rep_entries_ok (dom (rep_views 2) ∖ {[1]})) as H2.
  split; [apply Forall_singleton, Forall_singleton; by intros v Hv|].
  apply Forall_cons. split; [apply Forall_singleton|apply Forall_singleton, Forall_cons; split; [|apply Forall_singleton]]; intros v Hv; cbn [fst snd].
  - by apply Forall_take.
  - unfold rep_views in Hv. cbn [fst] in Hv. by apply lookup_singleton_Some in Hv as [_ <-].
  - by apply Forall_drop.
Qed.

(** The state both stores reach. *)
Definition rep_end : rstate :=
  mkRState rep_region (mkRaftApplyState 3 (Some (mkRaftTruncatedState 0 0))) {[(CfDefault, [x6b]) := [x76]]}.

Lemma apply_worker_refines_witness :
  ∃ pr c, applyWorker_run (rep_router 2) rep_ctx rep_batches2 = Ok (pr, c) ∧
    store_rel pr c {[1 := mkView 2 rep_end false]}.
Proof.
  pose proof (apply_worker_refines rep_batches2 (rep_router 2) rep_ctx (rep_views 2) (rep_store 2) (proj2 rep_tasks_ok)) as H.
  assert (E : spec_msgs (rep_views 2) (concat rep_batches2) = Ok {[1 := mkView 2 rep_end false]}) by (by vm_compute).
  rewrite E in H. exact (proj1 H).
Defined.


Lemma rep_cut : cut_below rep_apply.
Proof. by eexists. Qed.
Lemma truncated_below_applied_witness :
  ∃ c, (∃ pr, applyWorker_run (rep_router 2) rep_ctx rep_batches2 = Ok (pr, c)) ∧ ∃ st, GetApplyState (ac_Kv c) 1 = Ok st ∧ cut_below st.
Proof.
  destruct (applyWorker_run (rep_router 2) rep_ctx rep_batches2) as [[pr c]| | |] eqn:E; [|by vm_compute in E..]. exists c. split; [by exists pr|].
  destruct (truncated_below_applied rep_batches2 (rep_router 2) rep_ctx (rep_views 2) pr c (rep_store 2) (proj2 rep_tasks_ok) E 1 (mkView 2 rep_state false))
    as (st & Hst & Hcut & _); [apply lookup_singleton_eq|exact rep_cut|]. exists st. split; [exact Hst|exact Hcut].
Defined.

(** The region is split at [m]. *)
Definition rep_split : AdminRequest := mkAdminRequest AdminCmdType_Split None None None (Some (mkSplitRequest [x6d] 9 [11; 12; 13])).
Lemma rep_fits : region_fits rep_region.
Proof. split_and!; [done..|]. by repeat (apply Forall_cons; split; [done|]). Qed.

(** A command of an older version of the region. *)
Definition rep_stale : RaftCmdRequest :=
  mkRaftCmdRequest (Some (mkRaftRequestHeader 1 None (Some (metapb.mkRegionEpoch 1 0)) 1)) (rc_Requests rep_cmd) None.
Lemma wrong_epoch_rejected_witness :
  ∃ err c, applyRaftCmd (newApplierFromPeer 1 1 rep_region) rep_ctx 6 1 rep_stale =
    Ok (set_AppliedIndex 6 (newApplierFromPeer 1 1 rep_region), c, (Some (ErrResp err), None, None)) ∧ wb_entries (ac_wb c) = [].
Proof.
  destruct (CheckRegionEpoch rep_stale rep_region false) as [err|] eqn:E; [|by vm_compute in E]. exists err.
  destruct (wrong_epoch_rejected (newApplierFromPeer 1 1 rep_region) rep_ctx 6 1 rep_stale err eq_refl E) as (c & H & Hwb & _). exists c. by split.
Defined.

(** Of two puts the first is outside the region. *)
Lemma lost_request_errors_witness :
  ∃ c ret, execNormalCmd (newApplierFromPeer 1 1 (set_StartKey [x6d] rep_region)) rep_ctx
    (mkRaftCmdRequest None (put_request <$> [mkPutRequest "" [x61] [x76]] ++ [mkPutRequest "" [x7a] [x76]]) None) = Ok (c, ret) ∧
    er_err ret = None ∧ rr_Responses <$> er_resp ret = Some [None; Some (mkResponse CmdType_Put None None None None)].
Proof.
  destruct (lost_request_errors (newApplierFromPeer 1 1 (set_StartKey [x6d] rep_region)) rep_ctx None [mkPutRequest "" [x61] [x76]] (mkPutRequest "" [x7a] [x76]))
    as (c & ret & H & He & Hr); [apply (bool_decide_unpack _); by vm_compute|]. exists c, ret. split; [exact H|]. split; [exact He|]. exact Hr.
Defined.

(** ** With raft *)

(** The run of RaftRun, with the command as data: peers 1 and 2 hand out the three
    entries. *)
Lemma rep_raft :
  ∃ s : run_system, run_reachable s ∧ (∀ e : Entry, e ∈ rep_entries → (1, e) ∈ sy_applied s) ∧ (∀ e : Entry, e ∈ rep_entries → (2, e) ∈ sy_applied s).
Proof.
  destruct (run_result (Marshal rep_cmd)) as [s|] eqn:E; [|by vm_compute in E]. exists s. split; [exact (run_result_reachable _ s E)|].
  set (check := λ s : run_system, bool_decide (Forall (λ e, (1, e) ∈ sy_applied s ∧ (2, e) ∈ sy_applied s) rep_entries)).
  assert (H : check s = true) by (cut (from_option check false (run_result (Marshal rep_cmd)) = true); [by rewrite E|by vm_compute]).
  apply bool_decide_eq_true in H. rewrite Forall_forall in H. split; intros e He; by apply H.
Qed.

Lemma rep_fed1 s : (∀ e, e ∈ rep_entries → (1, e) ∈ sy_applied s) → fed_by (T := MemoryStorage) s 1 1 rep_batches1.
Proof. intros H e He. apply H. by vm_compute in He |- *. Qed.
Lemma rep_fed2 s : (∀ e, e ∈ rep_entries → (2, e) ∈ sy_applied s) → fed_by (T := MemoryStorage) s 2 1 rep_batches2.
Proof. intros H e He. apply H. by vm_compute in He |- *. Qed.

Definition rep_result (id : Z) (batches : list (list (Z * apply_task))) : gmap Z applier * applyContext (D := bdb) :=
  match applyWorker_run (rep_router id) rep_ctx batches with Ok x => x | _ => (∅, rep_ctx) end.
Lemma rep_run id V batches :
  is_ok (applyWorker_run (rep_router id) rep_ctx batches) = true → V = rep_views id → Forall (Forall (task_ok V)) batches →
  store_run V batches (rep_result id batches).1 (rep_result id batches).2.
Proof.
  intros H -> Hb. split; [|done]. exists (rep_router id), rep_ctx. split; [apply rep_store|]. unfold rep_result.
  destruct (applyWorker_run _ _ _) as [[pr c]| | |]; done.
Qed.

(** The key reads the same from both stores. *)
Lemma replicas_agree_witness :
  engine_util.GetCF (ac_Kv (rep_result 1 rep_batches1).2) CfDefault [x6b] = engine_util.GetCF (ac_Kv (rep_result 2 rep_batches2).2) CfDefault [x6b] ∧
  engine_util.GetCF (ac_Kv (rep_result 1 rep_batches1).2) CfDefault [x6b] = Ok [x76].
Proof.
  destruct rep_raft as (s & Hs & H1 & H2). split; [|by vm_compute].
  destruct (replicas_agree ex_members (0, 0) ex_marshal ltac:(by vm_compute) ltac:(done) s 1 2 1 (rep_views 1) (rep_views 2) rep_batches1 rep_batches2
    (rep_result 1 rep_batches1).1 (rep_result 2 rep_batches2).1 (rep_result 1 rep_batches1).2 (rep_result 2 rep_batches2).2
    (mkView 1 rep_state false) (mkView 2 rep_state false)
    (default (newApplierFromPeer 0 0 rep_region) ((rep_result 1 rep_batches1).1 !! 1)) (default (newApplierFromPeer 0 0 rep_region) ((rep_result 2 rep_batches2).1 !! 1))
    (s_apply rep_end) (s_apply rep_end) Hs) as (_ & _ & H).
  - apply rep_run; [by vm_compute|done|apply rep_tasks_ok].
  - apply rep_run; [by vm_compute|done|apply rep_tasks_ok].
  - apply lookup_singleton_eq.
  - apply lookup_singleton_eq.
  - done.
  - by apply rep_fed1.
  - by apply rep_fed2.
  - by vm_compute.
  - by vm_compute.
  - by vm_compute.
  - by vm_compute.
  - by vm_compute.
  - by vm_compute.
  - done.
  - apply H; [apply CfDefault_CFs|]. split; [apply Compare_nil_l|by left].
Defined.
