(* ===== verification/SqlNumber.v ===== *)
(** Numbers in keys and values of the SQL layer: tinysql/util/codec/number.go
    and float.go, with the parts of Go's encoding/binary they call.

    An [int64] is an integer between -2^63 and 2^63 - 1, a [uint64] one below
    2^64, and a [float64] its bit pattern ([math.Float64bits]).  A function that
    appends to a slice returns the longer slice; the text of an error is its
    value. *)

From S2P Require Import Prelude.

Definition is_i64 (v : Z) : Prop := - 2 ^ 63 ≤ v < 2 ^ 63.
#[export] Instance is_i64_dec v : Decision (is_i64 v).
Proof. unfold is_i64. apply _. Defined.

(** [^u] on [uint64]. *)
Definition not64 (u : Z) : Z := max64 - u.

Definition signMask : Z := 2 ^ 63.
Definition insufficient : string := "insufficient bytes to decode value".
Definition too_large : string := "value larger than 64 bits".
Definition invalid_bytes : string := "invalid bytes to decode value".

(** ** Fixed width *)

Definition EncodeIntToCmpUint (v : Z) : Z := Z.lxor (u64 v) signMask.
Definition DecodeCmpUintToInt (u : Z) : Z := i64 (Z.lxor u signMask).

Definition EncodeInt (b : bytes) (v : Z) : bytes := b ++ PutUint64 (EncodeIntToCmpUint v).
Definition EncodeIntDesc (b : bytes) (v : Z) : bytes := b ++ PutUint64 (not64 (EncodeIntToCmpUint v)).
Definition EncodeUint (b : bytes) (v : Z) : bytes := b ++ PutUint64 v.
Definition EncodeUintDesc (b : bytes) (v : Z) : bytes := b ++ PutUint64 (not64 v).

(** The decoders return the rest of the slice and the value. *)
Definition DecodeUint (b : bytes) : outcome string (bytes * Z) :=
  if decide (zlen b < 8) then Err insufficient
  else v ← Uint64 b; Ok (drop 8 b, v).
Definition DecodeUintDesc (b : bytes) : outcome string (bytes * Z) :=
  if decide (zlen b < 8) then Err insufficient
  else v ← Uint64 b; Ok (drop 8 b, not64 v).
Definition DecodeInt (b : bytes) : outcome string (bytes * Z) :=
  if decide (zlen b < 8) then Err insufficient
  else u ← Uint64 b; Ok (drop 8 b, DecodeCmpUintToInt u).
Definition DecodeIntDesc (b : bytes) : outcome string (bytes * Z) :=
  if decide (zlen b < 8) then Err insufficient
  else u ← Uint64 b; Ok (drop 8 b, DecodeCmpUintToInt (not64 u)).

(** ** Floats *)

(** The value of a finite or infinite [float64] orders like its sign and
    magnitude; the exponent field of a NaN is full and its fraction is not 0. *)
Definition float_mag (f : Z) : Z := f mod signMask.
Definition float_neg (f : Z) : bool := bool_decide (signMask ≤ f).
Definition is_nan (f : Z) : bool := bool_decide (0x7ff0000000000000 < float_mag f).
Definition float_ord (f : Z) : Z := if float_neg f then - float_mag f else float_mag f.
(** [f >= 0]: a comparison with a NaN is false, and -0 equals 0. *)
Definition float_ge0 (f : Z) : bool := negb (is_nan f) && bool_decide (0 ≤ float_ord f).

Definition encodeFloatToCmpUint64 (f : Z) : Z := if float_ge0 f then Z.lor f signMask else not64 f.
Definition decodeCmpUintToFloat (u : Z) : Z :=
  if decide (0 < Z.land u signMask) then Z.land u (not64 signMask) else not64 u.

Definition EncodeFloat (b : bytes) (v : Z) : bytes := EncodeUint b (encodeFloatToCmpUint64 v).
Definition EncodeFloatDesc (b : bytes) (v : Z) : bytes := EncodeUintDesc b (encodeFloatToCmpUint64 v).
Definition DecodeFloat (b : bytes) : outcome string (bytes * Z) :=
  '(b, u) ← DecodeUint b; Ok (b, decodeCmpUintToFloat u).
Definition DecodeFloatDesc (b : bytes) : outcome string (bytes * Z) :=
  '(b, u) ← DecodeUintDesc b; Ok (b, decodeCmpUintToFloat u).

(** ** Variable width (encoding/binary) *)

Definition MaxVarintLen64 : nat := 10.

(** [PutUvarint] into a buffer of ten bytes. *)
Fixpoint PutUvarint_loop (n : nat) (x : Z) : bytes :=
  match n with
  | O => []
  | S n => if decide (128 ≤ x) then z2b (Z.lor (x mod 256) 128) :: PutUvarint_loop n (Z.shiftr x 7) else [z2b x]
  end.
Definition PutUvarint (x : Z) : bytes := PutUvarint_loop MaxVarintLen64 x.
Definition PutVarint (x : Z) : bytes :=
  let ux := u64 (Z.shiftl (u64 x) 1) in
  PutUvarint (if decide (x < 0) then not64 ux else ux).

(** [Uvarint]: the value and the number of bytes read; 0 when the buffer is too
    small, negative on overflow. *)
Fixpoint Uvarint_loop (i : nat) (x s : Z) (buf : bytes) : Z * Z :=
  match buf with
  | [] => (0, 0)
  | b :: buf =>
    if decide (i = MaxVarintLen64) then (0, - (Z.of_nat i + 1))
    else if decide (b2z b < 128) then
      if decide (i = 9%nat ∧ 1 < b2z b) then (0, - (Z.of_nat i + 1))
      else (Z.lor x (u64 (Z.shiftl (b2z b) s)), Z.of_nat i + 1)
    else Uvarint_loop (S i) (Z.lor x (u64 (Z.shiftl (Z.land (b2z b) 127) s))) (s + 7) buf
  end.
Definition Uvarint (buf : bytes) : Z * Z := Uvarint_loop 0 0 0 buf.
Definition Varint (buf : bytes) : Z * Z :=
  let '(ux, n) := Uvarint buf in
  let x := i64 (Z.shiftr ux 1) in
  (if decide (Z.land ux 1 ≠ 0) then - x - 1 else x, n).

Definition EncodeVarint (b : bytes) (v : Z) : bytes := b ++ PutVarint v.
Definition EncodeUvarint (b : bytes) (v : Z) : bytes := b ++ PutUvarint v.
Definition DecodeVarint (b : bytes) : outcome string (bytes * Z) :=
  let '(v, n) := Varint b in
  if decide (0 < n) then rest ← go_slice b n (zlen b); Ok (rest, v)
  else if decide (n < 0) then Err too_large else Err insufficient.
Definition DecodeUvarint (b : bytes) : outcome string (bytes * Z) :=
  let '(v, n) := Uvarint b in
  if decide (0 < n) then rest ← go_slice b n (zlen b); Ok (rest, v)
  else if decide (n < 0) then Err too_large else Err insufficient.

(** ** Comparable variable width *)

Definition negativeTagEnd : Z := 8.
Definition positiveTagStart : Z := 0xff - 8.

Definition EncodeComparableUvarint (b : bytes) (v : Z) : bytes :=
  if decide (v ≤ positiveTagStart - negativeTagEnd) then b ++ [z2b (v + negativeTagEnd)]
  else if decide (v ≤ 0xff) then b ++ z2b (positiveTagStart + 1) :: put_be 1 v
  else if decide (v ≤ 0xffff) then b ++ z2b (positiveTagStart + 2) :: put_be 2 v
  else if decide (v ≤ 0xffffff) then b ++ z2b (positiveTagStart + 3) :: put_be 3 v
  else if decide (v ≤ 0xffffffff) then b ++ z2b (positiveTagStart + 4) :: put_be 4 v
  else if decide (v ≤ 0xffffffffff) then b ++ z2b (positiveTagStart + 5) :: put_be 5 v
  else if decide (v ≤ 0xffffffffffff) then b ++ z2b (positiveTagStart + 6) :: put_be 6 v
  else if decide (v ≤ 0xffffffffffffff) then b ++ z2b (positiveTagStart + 7) :: put_be 7 v
  else b ++ z2b (positiveTagStart + 8) :: put_be 8 v.

Definition EncodeComparableVarint (b : bytes) (v : Z) : bytes :=
  if decide (v < 0) then
    if decide (- 0xff ≤ v) then b ++ z2b (negativeTagEnd - 1) :: put_be 1 v
    else if decide (- 0xffff ≤ v) then b ++ z2b (negativeTagEnd - 2) :: put_be 2 v
    else if decide (- 0xffffff ≤ v) then b ++ z2b (negativeTagEnd - 3) :: put_be 3 v
    else if decide (- 0xffffffff ≤ v) then b ++ z2b (negativeTagEnd - 4) :: put_be 4 v
    else if decide (- 0xffffffffff ≤ v) then b ++ z2b (negativeTagEnd - 5) :: put_be 5 v
    else if decide (- 0xffffffffffff ≤ v) then b ++ z2b (negativeTagEnd - 6) :: put_be 6 v
    else if decide (- 0xffffffffffffff ≤ v) then b ++ z2b (negativeTagEnd - 7) :: put_be 7 v
    else b ++ z2b (negativeTagEnd - 8) :: put_be 8 v
  else EncodeComparableUvarint b (u64 v).

(** [v = (v << 8) | uint64(c)] over the bytes. *)
Definition shift_in (v : Z) (bs : bytes) : Z :=
  fold_left (λ v c, Z.lor (u64 (Z.shiftl v 8)) (b2z c)) bs v.

Definition DecodeComparableUvarint (b : bytes) : outcome string (bytes * Z) :=
  match b with
  | [] => Err insufficient
  | first :: b =>
    if decide (b2z first < negativeTagEnd) then Err invalid_bytes
    else if decide (b2z first ≤ positiveTagStart) then Ok (b, b2z first - negativeTagEnd)
    else
      let length := b2z first - positiveTagStart in
      if decide (zlen b < length) then Err insufficient
      else
        bs ← go_slice b 0 length;
        rest ← go_slice b length (zlen b);
        Ok (rest, shift_in 0 bs)
  end.

(** A value of one byte is returned with the slice it was read from. *)
Definition DecodeComparableVarint (b : bytes) : outcome string (bytes * Z) :=
  match b with
  | [] => Err insufficient
  | first :: b' =>
    if decide (negativeTagEnd ≤ b2z first ∧ b2z first ≤ positiveTagStart) then Ok (b, b2z first - negativeTagEnd)
    else
      let b := b' in
      let '(length, v) :=
        if decide (b2z first < negativeTagEnd) then (negativeTagEnd - b2z first, max64)
        else (b2z first - positiveTagStart, 0) in
      if decide (zlen b < length) then Err insufficient
      else
        bs ← go_slice b 0 length;
        let v := shift_in v bs in
        if decide (positiveTagStart < b2z first ∧ 2 ^ 63 - 1 < v) then Err invalid_bytes
        else if decide (b2z first < negativeTagEnd ∧ v ≤ 2 ^ 63 - 1) then Err invalid_bytes
        else
          rest ← go_slice b length (zlen b);
          Ok (rest, i64 v)
  end.

(** ** Bits *)

Lemma land_shiftl_low a s b : 0 ≤ s → 0 ≤ b < 2 ^ s → Z.land (Z.shiftl a s) b = 0.
Proof.
  intros Hs Hb. apply Z.bits_inj'. intros i Hi. rewrite Z.land_spec Z.bits_0.
  destruct (decide (i < s)).
  - by rewrite Z.shiftl_spec_low.
  - rewrite -(Z.mod_small b (2 ^ s)) // Z.mod_pow2_bits_high ?andb_false_r //; lia.
Qed.

Lemma lor_shiftl_low a s b : 0 ≤ s → 0 ≤ b < 2 ^ s → Z.lor (Z.shiftl a s) b = a * 2 ^ s + b.
Proof.
  intros Hs Hb. rewrite -Z.lxor_lor ?land_shiftl_low // -Z.add_nocarry_lxor ?land_shiftl_low //.
  by rewrite Z.shiftl_mul_pow2.
Qed.

Lemma sign_split x : 0 ≤ x < 2 ^ 64 → x = Z.lor (Z.shiftl (x / 2 ^ 63) 63) (x mod 2 ^ 63).
Proof.
  intros Hx. rewrite lor_shiftl_low; [|lia|by apply Z.mod_pos_bound].
  rewrite {1}(Z.div_mod x (2 ^ 63)); lia.
Qed.

Lemma lxor_sign x : 0 ≤ x < 2 ^ 64 → Z.lxor x signMask = if decide (x < 2 ^ 63) then x + 2 ^ 63 else x - 2 ^ 63.
Proof.
  intros Hx. unfold signMask. assert (Hlow : ∀ y, 0 ≤ y < 2 ^ 63 → Z.lxor y (2 ^ 63) = y + 2 ^ 63).
  { intros y Hy. symmetry. apply Z.add_nocarry_lxor. rewrite Z.land_comm.
    pose proof (land_shiftl_low 1 63 y ltac:(lia) Hy) as Hl. by rewrite Z.shiftl_mul_pow2 in Hl. }
  case_decide; [apply Hlow; lia|]. replace x with (Z.lxor (x - 2 ^ 63) (2 ^ 63)) at 1 by (rewrite Hlow; lia).
  by rewrite Z.lxor_assoc Z.lxor_nilpotent Z.lxor_0_r.
Qed.

Lemma lor_sign x : 0 ≤ x < 2 ^ 63 → Z.lor x signMask = x + 2 ^ 63.
Proof.
  intros Hx. rewrite Z.lor_comm. pose proof (lor_shiftl_low 1 63 x ltac:(lia) Hx) as Hl.
  rewrite Z.shiftl_mul_pow2 in Hl; [|lia]. unfold signMask. rewrite Z.mul_1_l in Hl. rewrite Hl. lia.
Qed.

Lemma land_sign x : 0 ≤ x < 2 ^ 64 → 0 < Z.land x signMask ↔ 2 ^ 63 ≤ x.
Proof.
  intros Hx. unfold signMask. destruct (decide (x < 2 ^ 63)) as [Hlt|Hge].
  - pose proof (land_shiftl_low 1 63 x ltac:(lia) ltac:(lia)) as Hl. rewrite Z.shiftl_mul_pow2 in Hl; [|lia].
    rewrite Z.mul_1_l Z.land_comm in Hl. rewrite Hl. lia.
  - split; [lia|]. intros _. assert (Hb : Z.testbit x 63 = true).
    { rewrite Z.testbit_true; [|lia]. by rewrite -(Z.div_unique x (2 ^ 63) 1 (x - 2 ^ 63)); [|lia..]. }
    assert (Hn : Z.land x (2 ^ 63) ≠ 0).
    { intros E. apply (f_equal (λ z, Z.testbit z 63)) in E. rewrite Z.land_spec Hb Z.pow2_bits_true // in E. }
    pose proof (Z.land_nonneg x (2 ^ 63)). lia.
Qed.

Lemma land_not_sign x : Z.land x (not64 signMask) = x mod 2 ^ 63.
Proof. change (not64 signMask) with (Z.ones 63). by rewrite Z.land_ones. Qed.

Lemma not64_range u : is_u64 u → is_u64 (not64 u).
Proof. unfold is_u64, not64, max64. lia. Qed.
Lemma not64_not64 u : not64 (not64 u) = u.
Proof. unfold not64. lia. Qed.

(** ** Fixed width: order and round trip *)

Lemma EncodeIntToCmpUint_val v : is_i64 v → EncodeIntToCmpUint v = v + 2 ^ 63.
Proof.
  intros Hv. unfold EncodeIntToCmpUint, is_i64 in *. rewrite lxor_sign; [|apply u64_range].
  unfold u64, two64. destruct (decide (0 ≤ v)).
  - rewrite Z.mod_small; [|lia]. rewrite decide_True; lia.
  - rewrite -(Z.mod_unique v (2 ^ 64) (-1) (v + 2 ^ 64)); [|lia..]. rewrite decide_False; lia.
Qed.

Lemma EncodeIntToCmpUint_range v : is_i64 v → is_u64 (EncodeIntToCmpUint v).
Proof. intros Hv. rewrite EncodeIntToCmpUint_val //. unfold is_i64, is_u64, two64 in *. lia. Qed.

Lemma DecodeCmpUintToInt_val u : is_u64 u → DecodeCmpUintToInt u = u - 2 ^ 63.
Proof.
  intros Hu. unfold DecodeCmpUintToInt, is_u64, two64 in *. rewrite lxor_sign //. unfold i64, u64, two64.
  destruct (decide (u < 2 ^ 63)); (rewrite Z.mod_small; [|lia]); case_decide; lia.
Qed.

(** A fixed-width field compares by its number, then the rest decides. *)
Lemma Compare_field v w x y :
  is_u64 v → is_u64 w →
  Compare (PutUint64 v ++ x) (PutUint64 w ++ y) = match v ?= w with Eq => Compare x y | c => c end.
Proof. intros Hv Hw. rewrite Compare_app ?length_PutUint64 // Compare_PutUint64 //. Qed.

Lemma compare_shift k v w : (v + k ?= w + k) = (v ?= w).
Proof. destruct (Z.compare_spec v w), (Z.compare_spec (v + k) (w + k)); done || lia. Qed.
Lemma compare_not v w : (not64 v ?= not64 w) = (w ?= v).
Proof. unfold not64. destruct (Z.compare_spec w v), (Z.compare_spec (max64 - v) (max64 - w)); done || lia. Qed.

Lemma EncodeInt_compare b v w x y :
  is_i64 v → is_i64 w →
  Compare (EncodeInt b v ++ x) (EncodeInt b w ++ y) = match v ?= w with Eq => Compare x y | c => c end.
Proof.
  intros Hv Hw. unfold EncodeInt. rewrite -!app_assoc Compare_app_same Compare_field; [|by apply EncodeIntToCmpUint_range..].
  by rewrite !EncodeIntToCmpUint_val // compare_shift.
Qed.

Lemma EncodeIntDesc_compare b v w x y :
  is_i64 v → is_i64 w →
  Compare (EncodeIntDesc b v ++ x) (EncodeIntDesc b w ++ y) = match w ?= v with Eq => Compare x y | c => c end.
Proof.
  intros Hv Hw. unfold EncodeIntDesc. rewrite -!app_assoc Compare_app_same Compare_field;
    [|by apply not64_range, EncodeIntToCmpUint_range..].
  by rewrite compare_not !EncodeIntToCmpUint_val // compare_shift.
Qed.

Lemma EncodeUint_compare b v w x y :
  is_u64 v → is_u64 w →
  Compare (EncodeUint b v ++ x) (EncodeUint b w ++ y) = match v ?= w with Eq => Compare x y | c => c end.
Proof. intros Hv Hw. unfold EncodeUint. by rewrite -!app_assoc Compare_app_same Compare_field. Qed.

Lemma EncodeUintDesc_compare b v w x y :
  is_u64 v → is_u64 w →
  Compare (EncodeUintDesc b v ++ x) (EncodeUintDesc b w ++ y) = match w ?= v with Eq => Compare x y | c => c end.
Proof.
  intros Hv Hw. unfold EncodeUintDesc. rewrite -!app_assoc Compare_app_same Compare_field; [|by apply not64_range..].
  by rewrite compare_not.
Qed.

Lemma Uint64_field {A} u rest (f : Z → A) :
  is_u64 u →
  (if decide (zlen (PutUint64 u ++ rest) < 8) then Err insufficient
   else v ← Uint64 (PutUint64 u ++ rest); Ok (drop 8 (PutUint64 u ++ rest), f v)) = Ok (rest, f u).
Proof.
  intros Hu. rewrite decide_False; [|unfold zlen; rewrite length_app length_PutUint64; lia].
  by rewrite Uint64_PutUint64.
Qed.

Lemma DecodeUint_EncodeUint v rest : is_u64 v → DecodeUint (EncodeUint [] v ++ rest) = Ok (rest, v).
Proof. intros Hv. unfold DecodeUint, EncodeUint. rewrite app_nil_l. by apply (Uint64_field v rest id). Qed.

Lemma DecodeUintDesc_EncodeUintDesc v rest : is_u64 v → DecodeUintDesc (EncodeUintDesc [] v ++ rest) = Ok (rest, v).
Proof.
  intros Hv. unfold DecodeUintDesc, EncodeUintDesc. rewrite app_nil_l (Uint64_field (not64 v) rest not64).
  - by rewrite not64_not64.
  - by apply not64_range.
Qed.

Lemma DecodeInt_EncodeInt v rest : is_i64 v → DecodeInt (EncodeInt [] v ++ rest) = Ok (rest, v).
Proof.
  intros Hv. unfold DecodeInt, EncodeInt. rewrite app_nil_l (Uint64_field (EncodeIntToCmpUint v) rest DecodeCmpUintToInt).
  - rewrite DecodeCmpUintToInt_val ?EncodeIntToCmpUint_val //; [do 2 f_equal; lia|].
    rewrite -EncodeIntToCmpUint_val //. by apply EncodeIntToCmpUint_range.
  - by apply EncodeIntToCmpUint_range.
Qed.

Lemma DecodeIntDesc_EncodeIntDesc v rest : is_i64 v → DecodeIntDesc (EncodeIntDesc [] v ++ rest) = Ok (rest, v).
Proof.
  intros Hv. pose proof (EncodeIntToCmpUint_range v Hv) as Hu. unfold DecodeIntDesc, EncodeIntDesc.
  rewrite app_nil_l (Uint64_field (not64 (EncodeIntToCmpUint v)) rest (λ u, DecodeCmpUintToInt (not64 u))); [|by apply not64_range].
  rewrite not64_not64 DecodeCmpUintToInt_val // EncodeIntToCmpUint_val //. do 2 f_equal. lia.
Qed.

(** ** Floats: order and round trip *)

Lemma float_cases f :
  is_u64 f → (f < 2 ^ 63 ∧ float_ord f = f) ∨ (2 ^ 63 ≤ f ∧ float_ord f = 2 ^ 63 - f).
Proof.
  intros Hf. unfold is_u64, two64 in Hf. unfold float_ord, float_neg, float_mag, signMask. case_bool_decide.
  - right. split; [done|]. rewrite -(Z.mod_unique f (2 ^ 63) 1 (f - 2 ^ 63)); lia.
  - left. split; [lia|]. apply Z.mod_small. lia.
Qed.

(** The comparable image of a float that is not a NaN. *)
Lemma encodeFloat_val f :
  is_u64 f → is_nan f = false →
  encodeFloatToCmpUint64 f = float_ord f + 2 ^ 63 - (if decide (0 ≤ float_ord f) then 0 else 1).
Proof.
  intros Hf Hn. unfold encodeFloatToCmpUint64, float_ge0. rewrite Hn. cbn [negb andb].
  destruct (float_cases f Hf) as [[Hlt E]|[Hge E]]; rewrite E; unfold is_u64, two64 in Hf; case_bool_decide.
  - rewrite decide_True // lor_sign; lia.
  - lia.
  - rewrite decide_True //. assert (f = signMask) as -> by (unfold signMask; lia).
    rewrite Z.lor_diag. unfold signMask. lia.
  - rewrite decide_False //. unfold not64, max64, two64. lia.
Qed.

Lemma encodeFloat_range f : is_u64 f → is_nan f = false → is_u64 (encodeFloatToCmpUint64 f).
Proof.
  intros Hf Hn. rewrite encodeFloat_val //. destruct (float_cases f Hf) as [[? ->]|[? ->]];
    unfold is_u64, two64 in *; case_decide; lia.
Qed.

Lemma encodeFloat_order f g :
  is_u64 f → is_u64 g → is_nan f = false → is_nan g = false →
  (encodeFloatToCmpUint64 f ?= encodeFloatToCmpUint64 g) = (float_ord f ?= float_ord g).
Proof.
  intros Hf Hg Nf Ng. rewrite !encodeFloat_val //.
  destruct (decide (0 ≤ float_ord f)), (decide (0 ≤ float_ord g));
    destruct (Z.compare_spec (float_ord f) (float_ord g));
    match goal with |- (?a ?= ?b) = _ => destruct (Z.compare_spec a b) end; done || lia.
Qed.

Lemma EncodeFloat_compare b f g x y :
  is_u64 f → is_u64 g → is_nan f = false → is_nan g = false →
  Compare (EncodeFloat b f ++ x) (EncodeFloat b g ++ y) =
    match float_ord f ?= float_ord g with Eq => Compare x y | c => c end.
Proof.
  intros Hf Hg Nf Ng. unfold EncodeFloat. rewrite EncodeUint_compare; [|by apply encodeFloat_range..].
  by rewrite encodeFloat_order.
Qed.

(** Negative zero comes back as zero. *)
Definition float_canon (f : Z) : Z := if decide (f = signMask) then 0 else f.

Lemma decode_encodeFloat f :
  is_u64 f → is_nan f = false → decodeCmpUintToFloat (encodeFloatToCmpUint64 f) = float_canon f.
Proof.
  intros Hf Hn. pose proof (encodeFloat_range f Hf Hn) as Hr. unfold is_u64, two64 in Hr.
  unfold decodeCmpUintToFloat, float_canon, signMask. rewrite land_not_sign.
  destruct (decide (0 < Z.land (encodeFloatToCmpUint64 f) (2 ^ 63))) as [Hs|Hs];
    rewrite (land_sign _ Hr) in Hs; rewrite encodeFloat_val // in Hs |- *;
    destruct (float_cases f Hf) as [[? E]|[? E]]; rewrite E in Hs |- *; unfold is_u64, two64 in Hf.
  - rewrite decide_True; [|lia]. rewrite decide_False; [|lia].
    rewrite -(Z.mod_unique (f + 2 ^ 63 - 0) (2 ^ 63) 1 f); lia.
  - destruct (decide (0 ≤ 2 ^ 63 - f)); [|lia]. rewrite decide_True; [|lia].
    assert (f = 2 ^ 63) as -> by lia. done.
  - rewrite decide_True in Hs; lia.
  - destruct (decide (0 ≤ 2 ^ 63 - f)); [lia|]. rewrite decide_False; [|lia]. unfold not64, max64, two64. lia.
Qed.

Lemma DecodeFloat_EncodeFloat f rest :
  is_u64 f → is_nan f = false → DecodeFloat (EncodeFloat [] f ++ rest) = Ok (rest, float_canon f).
Proof.
  intros Hf Hn. unfold DecodeFloat, EncodeFloat. rewrite DecodeUint_EncodeUint; [|by apply encodeFloat_range].
  cbn. by rewrite decode_encodeFloat.
Qed.

(** ** Variable width: round trip *)

Lemma byte_low7 x : 0 ≤ x → b2z (z2b (Z.lor (x mod 256) 128)) = x mod 128 + 128.
Proof.
  intros Hx. assert (Hs : x mod 256 = Z.lor (Z.shiftl (x / 128 mod 2) 7) (x mod 128)).
  { rewrite lor_shiftl_low; [|lia|by apply Z.mod_pos_bound]. change 256 with (128 * 2). rewrite Z.rem_mul_r; lia. }
  assert (Hl : Z.lor (x mod 256) 128 = x mod 128 + 128).
  { assert (Hb : 0 ≤ x mod 128 < 2 ^ 7) by (by apply Z.mod_pos_bound). rewrite Hs -Z.lor_assoc (Z.lor_comm _ 128) Z.lor_assoc.
    replace (Z.lor (Z.shiftl (x / 128 mod 2) 7) 128) with (Z.shiftl 1 7).
    - rewrite lor_shiftl_low //. lia.
    - pose proof (Z.mod_pos_bound (x / 128) 2). assert (x / 128 mod 2 = 0 ∨ x / 128 mod 2 = 1) as [->| ->] by lia; done. }
  rewrite b2z_z2b Hl. apply Z.mod_small. pose proof (Z.mod_pos_bound x 128). lia.
Qed.

Lemma Uvarint_loop_Put n i x acc rest :
  (i + n = 10)%nat → (0 < n)%nat → 0 ≤ x < 2 ^ (7 * Z.of_nat n) → x * 2 ^ (7 * Z.of_nat i) < 2 ^ 64 →
  0 ≤ acc < 2 ^ (7 * Z.of_nat i) →
  Uvarint_loop i acc (7 * Z.of_nat i) (PutUvarint_loop n x ++ rest) =
    (acc + x * 2 ^ (7 * Z.of_nat i), Z.of_nat i + zlen (PutUvarint_loop n x)).
Proof.
  revert i x acc. induction n as [|n IH]; intros i x acc Hi Hn Hx H64 Hacc; [lia|]. cbn [PutUvarint_loop].
  assert (Hi10 : i ≠ MaxVarintLen64) by (unfold MaxVarintLen64; lia).
  assert (Hp : 0 < 2 ^ (7 * Z.of_nat i)) by (apply Z.pow_pos_nonneg; lia).
  assert (Hlor : ∀ y, 0 ≤ y ≤ x → Z.lor acc (u64 (Z.shiftl y (7 * Z.of_nat i))) = acc + y * 2 ^ (7 * Z.of_nat i)).
  { intros y Hy. rewrite u64_small; [|rewrite Z.shiftl_mul_pow2; [|lia]; unfold is_u64, two64; nia].
    rewrite Z.lor_comm lor_shiftl_low; lia. }
  case_decide as Hbig; cbn [app Uvarint_loop]; rewrite decide_False //.
  - rewrite byte_low7; [|lia]. pose proof (Z.mod_pos_bound x 128 ltac:(lia)) as Hm. rewrite decide_False; [|lia].
    replace (Z.land (x mod 128 + 128) 127) with (x mod 128).
    2: { change 127 with (Z.ones 7). rewrite Z.land_ones //. change (2 ^ 7) with 128.
         rewrite -(Z.mod_unique (x mod 128 + 128) 128 1 (x mod 128)); lia. }
    rewrite Hlor; [|pose proof (Z.mod_le x 128); lia]. rewrite Z.shiftr_div_pow2; [|lia]. change (2 ^ 7) with 128.
    assert (Hdm : x = 128 * (x / 128) + x mod 128) by (apply Z.div_mod; lia).
    replace (7 * Z.of_nat i + 7) with (7 * Z.of_nat (S i)) by lia.
    assert (Hpow : 2 ^ (7 * Z.of_nat (S i)) = 128 * 2 ^ (7 * Z.of_nat i)).
    { replace (7 * Z.of_nat (S i)) with (7 + 7 * Z.of_nat i) by lia. rewrite Z.pow_add_r; lia. }
    rewrite IH; [|lia| | | |].
    + f_equal; [rewrite Hpow; nia|]. unfold zlen. cbn [length]. lia.
    + destruct n; [|lia]. change (7 * Z.of_nat 1) with 7 in Hx. lia.
    + split; [apply Z.div_pos; lia|]. apply Z.div_lt_upper_bound; [lia|].
      replace (7 * Z.of_nat (S n)) with (7 + 7 * Z.of_nat n) in Hx by lia. rewrite Z.pow_add_r in Hx; lia.
    + rewrite Hpow. nia.
    + rewrite Hpow. nia.
  - rewrite b2z_z2b Z.mod_small; [|lia]. rewrite decide_True; [|lia]. rewrite decide_False.
    + rewrite Hlor; [|lia]. done.
    + intros [-> ?]. change (7 * Z.of_nat 9) with 63 in H64. lia.
Qed.

Lemma Uvarint_Put x rest : is_u64 x → Uvarint (PutUvarint x ++ rest) = (x, zlen (PutUvarint x)).
Proof.
  intros [H0 Hx]. unfold two64 in Hx. unfold Uvarint, PutUvarint, MaxVarintLen64.
  pose proof (Uvarint_loop_Put 10 0 x 0 rest) as H. cbn [Z.of_nat Z.mul] in H. change (7 * 0) with 0 in H.
  rewrite H; [f_equal; lia|lia|lia| |lia|lia]. split; [done|]. change (7 * Z.of_nat 10) with 70. lia.
Qed.

Lemma zlen_PutUvarint x : 0 < zlen (PutUvarint x).
Proof. unfold PutUvarint, MaxVarintLen64, zlen. cbn [PutUvarint_loop]. case_decide; cbn [length]; lia. Qed.

Lemma DecodeUvarint_EncodeUvarint v rest : is_u64 v → DecodeUvarint (EncodeUvarint [] v ++ rest) = Ok (rest, v).
Proof.
  intros Hv. unfold DecodeUvarint, EncodeUvarint. rewrite app_nil_l Uvarint_Put //.
  rewrite decide_True; [|apply zlen_PutUvarint]. by rewrite go_slice_rest.
Qed.

(** The zig-zag image of a signed number. *)
Definition zigzag (v : Z) : Z := if decide (v < 0) then - 2 * v - 1 else 2 * v.

Lemma PutVarint_zigzag v : is_i64 v → is_u64 (zigzag v) ∧ PutVarint v = PutUvarint (zigzag v).
Proof.
  intros Hv. unfold is_i64, PutVarint, zigzag, is_u64, not64, max64, two64 in *. rewrite Z.shiftl_mul_pow2; [|lia].
  case_decide; (split; [lia|]); f_equal; unfold u64, two64; rewrite Z.mul_mod_idemp_l; try lia.
  - rewrite -(Z.mod_unique (v * 2 ^ 1) (2 ^ 64) (-1) (v * 2 + 2 ^ 64)); lia.
  - rewrite Z.mod_small; lia.
Qed.

Lemma Varint_Put v rest : is_i64 v → Varint (PutVarint v ++ rest) = (v, zlen (PutVarint v)).
Proof.
  intros Hv. destruct (PutVarint_zigzag v Hv) as [Hz ->]. unfold Varint. rewrite Uvarint_Put //.
  rewrite Z.shiftr_div_pow2; [|lia]. change (Z.land (zigzag v) 1) with (Z.land (zigzag v) (Z.ones 1)).
  rewrite Z.land_ones; [|lia]. change (2 ^ 1) with 2. unfold is_i64 in Hv. f_equal. unfold zigzag. destruct (decide (v < 0)).
  - rewrite -(Z.div_unique (- 2 * v - 1) 2 (- v - 1) 1); [|lia..].
    rewrite -(Z.mod_unique (- 2 * v - 1) 2 (- v - 1) 1); [|lia..]. destruct (decide (1 ≠ 0)); [|lia]. rewrite i64_small; lia.
  - rewrite -(Z.div_unique (2 * v) 2 v 0); [|lia..].
    rewrite -(Z.mod_unique (2 * v) 2 v 0); [|lia..]. destruct (decide (0 ≠ 0)); [lia|]. rewrite i64_small; lia.
Qed.

Lemma zlen_PutVarint v : is_i64 v → 0 < zlen (PutVarint v).
Proof. intros Hv. destruct (PutVarint_zigzag v Hv) as [_ ->]. apply zlen_PutUvarint. Qed.

Lemma DecodeVarint_EncodeVarint v rest : is_i64 v → DecodeVarint (EncodeVarint [] v ++ rest) = Ok (rest, v).
Proof.
  intros Hv. unfold DecodeVarint, EncodeVarint. rewrite app_nil_l Varint_Put //.
  rewrite decide_True; [|by apply zlen_PutVarint]. by rewrite go_slice_rest.
Qed.

(** ** Comparable variable width: one shape for both encoders *)

(** The number of bytes of a magnitude. *)
Definition clen (a : Z) : nat :=
  if decide (a ≤ 0xff) then 1%nat else if decide (a ≤ 0xffff) then 2%nat else if decide (a ≤ 0xffffff) then 3%nat
  else if decide (a ≤ 0xffffffff) then 4%nat else if decide (a ≤ 0xffffffffff) then 5%nat
  else if decide (a ≤ 0xffffffffffff) then 6%nat else if decide (a ≤ 0xffffffffffffff) then 7%nat else 8%nat.

(** The payload length and the first byte of an encoded number. *)
Definition cplen (v : Z) : nat := if decide (v < 0) then clen (- v) else if decide (v ≤ 239) then 0%nat else clen v.
Definition ctag (v : Z) : Z :=
  if decide (v < 0) then 8 - Z.of_nat (clen (- v))
  else if decide (v ≤ 239) then v + 8 else 247 + Z.of_nat (clen v).
Definition is_c64 (v : Z) : Prop := - 2 ^ 63 ≤ v < 2 ^ 64.

Lemma EncodeComparableUvarint_shape b v :
  0 ≤ v → EncodeComparableUvarint b v = b ++ z2b (ctag v) :: put_be (cplen v) v.
Proof.
  intros Hv. unfold EncodeComparableUvarint, ctag, cplen, clen, positiveTagStart, negativeTagEnd.
  rewrite !(decide_False (P := v < 0)); [|lia..]. change (255 - 8 - 8) with 239. repeat case_decide; done || lia.
Qed.

Lemma EncodeComparableVarint_shape b v :
  is_i64 v → EncodeComparableVarint b v = b ++ z2b (ctag v) :: put_be (cplen v) v.
Proof.
  intros Hv. unfold EncodeComparableVarint. destruct (decide (v < 0)) as [Hn|Hn].
  - unfold ctag, cplen, clen, negativeTagEnd. rewrite !(decide_True (P := v < 0)) //. repeat case_decide; done || lia.
  - unfold is_i64 in Hv. rewrite u64_small; [|unfold is_u64, two64; lia]. apply EncodeComparableUvarint_shape. lia.
Qed.

Lemma clen_spec a : a < 2 ^ 64 → (1 ≤ clen a ≤ 8)%nat ∧ a < 256 ^ Z.of_nat (clen a).
Proof. intros Ha. unfold clen. repeat case_decide; (split; [lia|]); cbn; lia. Qed.
Lemma clen_mono a b : a ≤ b → (clen a ≤ clen b)%nat.
Proof. intros Hab. unfold clen. repeat case_decide; lia. Qed.

Lemma ctag_range v : is_c64 v → 0 ≤ ctag v < 256.
Proof.
  intros Hv. unfold is_c64, ctag in *. repeat case_decide; try lia.
  - pose proof (clen_spec (- v) ltac:(lia)). lia.
  - pose proof (clen_spec v ltac:(lia)). lia.
Qed.

Lemma ctag_mono v w : is_c64 v → is_c64 w → v ≤ w → ctag v ≤ ctag w.
Proof.
  intros Hv Hw Hvw. unfold is_c64 in *. unfold ctag. repeat case_decide; try lia.
  all: try (pose proof (clen_mono (- w) (- v) ltac:(lia))); try (pose proof (clen_mono v w ltac:(lia)));
    try (pose proof (clen_spec (- v) ltac:(lia))); try (pose proof (clen_spec w ltac:(lia))); lia.
Qed.

(** Numbers with the same first byte have payloads of one length, and the
    payloads order them. *)
Lemma ctag_eq v w :
  is_c64 v → is_c64 w → ctag v = ctag w →
  cplen v = cplen w ∧ Compare (put_be (cplen v) v) (put_be (cplen w) w) = (v ?= w).
Proof.
  intros Hv Hw. unfold is_c64 in *. unfold ctag, cplen.
  assert (Hcmp : ∀ n k, 0 ≤ v + k < 256 ^ Z.of_nat n → 0 ≤ w + k < 256 ^ Z.of_nat n →
    (k = 0 ∨ k = 256 ^ Z.of_nat n) → Compare (put_be n v) (put_be n w) = (v ?= w)).
  { intros n k Hkv Hkw Hk. rewrite Compare_get_be ?length_put_be // !get_put_be.
    assert (∀ u, 0 ≤ u + k < 256 ^ Z.of_nat n → u mod 256 ^ Z.of_nat n = u + k) as Hm.
    { intros u Hu. symmetry. destruct Hk as [->| ->]; [apply Z.mod_unique with 0|apply Z.mod_unique with (-1)]; lia. }
    by rewrite !Hm // compare_shift. }
  assert (Hpos : ∀ n : nat, (1 ≤ n)%nat → 0 < 256 ^ Z.of_nat n) by (intros; apply Z.pow_pos_nonneg; lia).
  destruct (decide (v < 0)), (decide (w < 0)).
  - pose proof (clen_spec (- v) ltac:(lia)). pose proof (clen_spec (- w) ltac:(lia)). intros E.
    assert (clen (- v) = clen (- w)) as El by lia. split; [done|]. rewrite El in H |- *.
    apply (Hcmp _ (256 ^ Z.of_nat (clen (- w)))); [lia|lia|by right].
  - pose proof (clen_spec (- v) ltac:(lia)). pose proof (clen_spec w ltac:(lia)). destruct (decide (w ≤ 239)); lia.
  - pose proof (clen_spec (- w) ltac:(lia)). pose proof (clen_spec v ltac:(lia)). destruct (decide (v ≤ 239)); lia.
  - pose proof (clen_spec v ltac:(lia)). pose proof (clen_spec w ltac:(lia)).
    destruct (decide (v ≤ 239)), (decide (w ≤ 239)); intros E; try lia.
    + split; [done|]. assert (v = w) as -> by lia. by rewrite Z.compare_refl.
    + assert (clen v = clen w) as El by lia. split; [done|]. rewrite El in H |- *.
      apply (Hcmp _ 0); [lia|lia|by left].
Qed.

Lemma comparable_compare v w x y :
  is_c64 v → is_c64 w →
  Compare (z2b (ctag v) :: put_be (cplen v) v ++ x) (z2b (ctag w) :: put_be (cplen w) w ++ y) =
    match v ?= w with Eq => Compare x y | c => c end.
Proof.
  intros Hv Hw. pose proof (ctag_range v Hv). pose proof (ctag_range w Hw). cbn [Compare].
  rewrite !b2z_z2b !Z.mod_small //. destruct (Z.compare_spec (ctag v) (ctag w)) as [E|E|E].
  - destruct (ctag_eq v w Hv Hw E) as [El Ec]. rewrite Compare_app ?length_put_be // Ec. by destruct (v ?= w).
  - destruct (Z.compare_spec v w) as [->|?|?]; [lia|done|]. pose proof (ctag_mono w v Hw Hv). lia.
  - destruct (Z.compare_spec v w) as [->|?|?]; [lia| |done]. pose proof (ctag_mono v w Hv Hw). lia.
Qed.

Lemma shift_in_val bs v : is_u64 v → shift_in v bs = u64 (v * 256 ^ zlen bs + get_be bs).
Proof.
  revert v. induction bs as [|c bs IH]; intros v Hv.
  - cbn. by rewrite Z.mul_1_r Z.add_0_r u64_small.
  - change (shift_in v (c :: bs)) with (shift_in (Z.lor (u64 (Z.shiftl v 8)) (b2z c)) bs).
    assert (Hl : Z.lor (u64 (Z.shiftl v 8)) (b2z c) = v mod 2 ^ 56 * 256 + b2z c).
    { rewrite -(lor_shiftl_8 _ _ (b2z_range c)). f_equal. rewrite !Z.shiftl_mul_pow2 /u64 /two64; [|lia..].
      change (2 ^ 64) with (2 ^ 56 * 2 ^ 8). by rewrite Z.mul_mod_distr_r. }
    pose proof (Z.mod_pos_bound v (2 ^ 56) ltac:(lia)). pose proof (b2z_range c). rewrite Hl IH.
    + rewrite get_be_cons. unfold zlen. cbn [length]. rewrite Nat2Z.inj_succ Z.pow_succ_r; [|lia].
      unfold u64, two64. pose proof (Z.div_mod v (2 ^ 56) ltac:(lia)) as Hdm.
      set (P := 256 ^ Z.of_nat (length bs)). 
      replace (v * (256 * P) + (b2z c * P + get_be bs)) with
        ((v mod 2 ^ 56 * 256 + b2z c) * P + get_be bs + (v / 2 ^ 56 * P) * 2 ^ 64) by (rewrite {3}Hdm; lia).
      by rewrite Z.mod_add.
    + unfold is_u64, two64. lia.
Qed.

Lemma DecodeComparableUvarint_Encode v rest :
  is_u64 v → DecodeComparableUvarint (EncodeComparableUvarint [] v ++ rest) = Ok (rest, v).
Proof.
  intros Hv. unfold is_u64, two64 in Hv. rewrite EncodeComparableUvarint_shape; [|lia].
  pose proof (ctag_range v ltac:(unfold is_c64; lia)) as Ht. cbn [app DecodeComparableUvarint].
  rewrite b2z_z2b Z.mod_small //. unfold negativeTagEnd, positiveTagStart.
  unfold ctag, cplen in *. rewrite !(decide_False (P := v < 0)); [|lia..]. destruct (decide (v ≤ 239)).
  - rewrite decide_False; [|lia]. rewrite decide_True; [|lia]. cbn. do 2 f_equal. lia.
  - pose proof (clen_spec v ltac:(lia)) as [Hc Hb]. rewrite decide_False; [|lia]. rewrite decide_False; [|lia].
    replace (247 + Z.of_nat (clen v) - (255 - 8)) with (zlen (put_be (clen v) v)) by (unfold zlen; rewrite length_put_be; lia).
    rewrite decide_False; [|unfold zlen; rewrite length_app; lia]. rewrite go_slice_first go_slice_rest. cbn [mbind outcome_bind].
    rewrite shift_in_val; [|done]. rewrite Z.mul_0_l Z.add_0_l get_put_be. do 2 f_equal.
    rewrite Z.mod_small; [|lia]. apply u64_small. done.
Qed.

(** The payload of a negative number, sign-extended, is the number. *)
Lemma decode_payload v s :
  is_i64 v → ¬ 0 ≤ v ≤ 239 → s = (if decide (v < 0) then max64 else 0) →
  shift_in s (put_be (cplen v) v) = u64 v.
Proof.
  intros Hv Hn ->. unfold is_i64 in Hv. rewrite shift_in_val; [|case_decide; unfold is_u64, max64, two64; lia].
  rewrite get_put_be /zlen length_put_be /cplen. case_decide.
  - pose proof (clen_spec (- v) ltac:(lia)) as [Hc Hb].
    assert (Hd : 256 ^ Z.of_nat (clen (- v)) ≤ 2 ^ 64).
    { change (2 ^ 64) with (256 ^ 8). apply Z.pow_le_mono_r; lia. }
    set (P := 256 ^ Z.of_nat (clen (- v))) in *. rewrite -(Z.mod_unique v P (-1) (v + P)); [|lia..].
    unfold u64, max64, two64. replace ((2 ^ 64 - 1) * P + (v + P)) with (v + P * 2 ^ 64) by lia. by rewrite Z.mod_add.
  - rewrite decide_False; [|lia]. pose proof (clen_spec v ltac:(lia)) as [Hc Hb].
    by rewrite Z.mul_0_l Z.add_0_l Z.mod_small; [|lia].
Qed.

Lemma i64_u64 v : is_i64 v → i64 (u64 v) = v.
Proof.
  unfold is_i64, i64, u64, two64. intros Hv. rewrite Z.mod_mod; [|lia]. destruct (decide (0 ≤ v)).
  - rewrite Z.mod_small; [|lia]. rewrite decide_True; lia.
  - rewrite -(Z.mod_unique v (2 ^ 64) (-1) (v + 2 ^ 64)); [|lia..]. rewrite decide_False; lia.
Qed.

(** [EncodeComparableVarint] is memcomparable: whatever follows them, the
    encodings of two 64-bit integers compare as the integers do, and only equal
    integers leave the decision to what follows. *)
Lemma EncodeComparableVarint_order b v w x y :
  is_i64 v → is_i64 w →
  Compare (EncodeComparableVarint b v ++ x) (EncodeComparableVarint b w ++ y) =
    match v ?= w with Eq => Compare x y | c => c end.
Proof.
  intros Hv Hw. rewrite !EncodeComparableVarint_shape // -!app_assoc Compare_app_same -!app_comm_cons.
  apply comparable_compare; unfold is_c64, is_i64 in *; lia.
Qed.

(** [DecodeComparableVarint] gives back the integer, and the bytes that
    follow it for every integer that has a tag; for an integer of 0..239, which
    is stored in one byte, the slice it returns still begins with that byte. *)
Theorem DecodeComparableVarint_spec v rest :
  is_i64 v →
  DecodeComparableVarint (EncodeComparableVarint [] v ++ rest) =
    Ok (if decide (0 ≤ v ≤ 239) then EncodeComparableVarint [] v ++ rest else rest, v).
Proof.
  intros Hv. pose proof Hv as [Hl Hh]. rewrite EncodeComparableVarint_shape //.
  pose proof (ctag_range v ltac:(unfold is_c64; lia)) as Ht. cbn [app DecodeComparableVarint].
  rewrite b2z_z2b Z.mod_small //. unfold negativeTagEnd, positiveTagStart.
  destruct (decide (0 ≤ v ≤ 239)) as [Hs|Hs].
  { unfold ctag, cplen. rewrite decide_True; [|repeat case_decide; lia]. repeat case_decide; try lia. do 2 f_equal. lia. }
  pose proof (decode_payload v (if decide (v < 0) then max64 else 0) Hv Hs eq_refl) as Hp.
  assert (Hu : is_u64 (u64 v)) by apply u64_range.
  assert (Hc : ctag v = (if decide (v < 0) then 8 - Z.of_nat (cplen v) else 247 + Z.of_nat (cplen v)) ∧ (1 ≤ cplen v ≤ 8)%nat).
  { unfold ctag, cplen. pose proof (clen_spec (- v) ltac:(lia)). pose proof (clen_spec v ltac:(lia)).
    repeat case_decide; lia. }
  destruct Hc as [Hc Hn]. rewrite decide_False; [|rewrite Hc; case_decide; lia].
  assert (Hz : Z.of_nat (cplen v) = zlen (put_be (cplen v) v)) by by rewrite /zlen length_put_be.
  assert (Hsgn : v < 0 ↔ 2 ^ 63 - 1 < u64 v).
  { unfold u64, two64. destruct (decide (0 ≤ v)); [rewrite Z.mod_small; lia|].
    rewrite -(Z.mod_unique v (2 ^ 64) (-1) (v + 2 ^ 64)); lia. }
  replace (if decide (ctag v < 8) then (8 - ctag v, max64) else (ctag v - (255 - 8), 0))
    with (zlen (put_be (cplen v) v), if decide (v < 0) then max64 else 0)
    by (rewrite -Hz Hc; repeat case_decide; f_equal; lia).
  rewrite decide_False; [|unfold zlen; rewrite length_app; lia]. rewrite go_slice_first go_slice_rest. cbn [mbind outcome_bind].
  rewrite Hp decide_False; [|rewrite Hc; case_decide; lia]. rewrite decide_False; [|rewrite Hc; case_decide; lia].
  by rewrite i64_u64.
Qed.

Lemma DecodeComparableVarint_spec_witness :
  DecodeComparableVarint (EncodeComparableVarint [] 5 ++ [xaa]) = Ok ([x0d; xaa], 5).
Proof. apply (DecodeComparableVarint_spec 5 [xaa]). unfold is_i64. lia. Defined.
