(* ===== verification/SqlBytes.v ===== *)
(** Byte strings in keys and values of the SQL layer: tinysql/util/codec/bytes.go.

    [EncodeBytes] is TinyKV's format of [Codec] appended to a slice; [decodeBytes]
    reads it in both directions, and [reverseBytes] complements a slice a machine
    word at a time where the architecture allows it.  A buffer passed in for reuse
    ([buf], [reallocBytes]) affects no value and is left out. *)

From S2P Require Import Prelude Codec SqlNumber.

(** ** Architecture *)

(** [runtime.GOARCH], of which the code asks for two values. *)
Inductive goarch := amd64 | i386 | other_arch.

(** [unsafe.Sizeof(uintptr(0))] *)
Definition wordSize (a : goarch) : nat := match a with i386 => 4 | _ => 8 end.
Definition supportsUnaligned (a : goarch) : bool := match a with i386 | amd64 => true | other_arch => false end.

(** ** Complementing a slice *)

(** [^b] on a byte. *)
Definition notb (x : byte) : byte := z2b (255 - b2z x).

(** [bw[i] = ^bw[i]]: a word of [w] bytes is read in the machine's (little
    endian) order, complemented at its width and written back. *)
Definition not_word (w : nat) (bs : bytes) : bytes :=
  rev (put_be w (256 ^ Z.of_nat w - 1 - get_be (rev bs))).

Definition set_word (w : nat) (b : bytes) (i : nat) : bytes :=
  take (i * w) b ++ not_word w (take w (drop (i * w) b)) ++ drop (i * w + w) b.

Definition fastReverseBytes (a : goarch) (b : bytes) : bytes :=
  let n := length b in
  let w := (n / wordSize a)%nat in
  let b := if decide (0 < w)%nat then fold_left (set_word (wordSize a)) (seq 0 w) b else b in
  fold_left (λ b i, alter notb i b) (seq (w * wordSize a) (n - w * wordSize a)) b.

Definition safeReverseBytes (b : bytes) : bytes := fold_left (λ b i, alter notb i b) (seq 0 (length b)) b.

Definition reverseBytes (a : goarch) (b : bytes) : bytes :=
  if supportsUnaligned a then fastReverseBytes a b else safeReverseBytes b.

(** ** Encoding *)

Section arch.
Context (a : goarch).

(** The loop is the text of TinyKV's encoder, started from the slice [b]. *)
Definition EncodeBytes (b data : bytes) : bytes :=
  EncodeBytes_loop (length data / 8 + 2) data 0 b.

Definition EncodeBytesDesc (b data : bytes) : bytes :=
  let n := length b in
  let b := EncodeBytes b data in
  take n b ++ reverseBytes a (drop n b).

Fixpoint decodeBytes_loop (fuel : nat) (b buf : bytes) (reverse : bool) : outcome string (bytes * bytes) :=
  match fuel with
  | O => OutOfFuel
  | S fuel' =>
    if decide (zlen b < encGroupSize + 1) then Err insufficient
    else
      let groupBytes := take 9 b in
      let group := take 8 groupBytes in
      marker ← go_index groupBytes encGroupSize;
      let padCount := if reverse then b2z marker else (b2z encMarker - b2z marker) mod 256 in
      if decide (encGroupSize < padCount) then Err "invalid marker byte"
      else
        let realGroupSize := encGroupSize - padCount in
        let buf := buf ++ take (Z.to_nat realGroupSize) group in
        let b := drop 9 b in
        if decide (padCount ≠ 0) then
          let padByte := if reverse then encMarker else encPad in
          if forallb (λ v, bool_decide (v = padByte)) (drop (Z.to_nat realGroupSize) group)
          then Ok (b, buf)
          else Err "invalid padding byte"
        else decodeBytes_loop fuel' b buf reverse
  end.

Definition decodeBytes (b : bytes) (reverse : bool) : outcome string (bytes * bytes) :=
  '(b, buf) ← decodeBytes_loop (S (length b)) b [] reverse;
  Ok (b, if reverse then reverseBytes a buf else buf).

Definition DecodeBytes (b : bytes) : outcome string (bytes * bytes) := decodeBytes b false.
Definition DecodeBytesDesc (b : bytes) : outcome string (bytes * bytes) := decodeBytes b true.
End arch.

Definition EncodeCompactBytes (b data : bytes) : bytes := EncodeVarint b (zlen data) ++ data.

(** [b[n:], b[:n]] is evaluated with the [n] that was read. *)
Definition DecodeCompactBytes (b : bytes) : outcome string (bytes * bytes) :=
  '(b, n) ← DecodeVarint b;
  if decide (zlen b < n) then Err insufficient
  else rest ← go_slice b n (zlen b); data ← go_slice b 0 n; Ok (rest, data).

(** ** Complement: the word loop computes the byte loop *)

Lemma b2z_notb x : b2z (notb x) = 255 - b2z x.
Proof. unfold notb. rewrite b2z_z2b Z.mod_small //. pose proof (b2z_range x). lia. Qed.
Lemma notb_notb x : notb (notb x) = x.
Proof. apply (inj b2z). rewrite !b2z_notb. lia. Qed.
Lemma map_notb_notb b : map notb (map notb b) = b.
Proof. rewrite map_map -{2}(map_id b). apply map_ext, notb_notb. Qed.

Lemma get_be_notb b : get_be (map notb b) = 256 ^ zlen b - 1 - get_be b.
Proof.
  induction b as [|x b IH]; [done|]. cbn [map]. rewrite !get_be_cons IH b2z_notb. unfold zlen. rewrite length_map. cbn [length].
  rewrite Nat2Z.inj_succ Z.pow_succ_r; lia.
Qed.

Lemma not_word_map bs : not_word (length bs) bs = map notb bs.
Proof.
  unfold not_word. rewrite -(rev_involutive (map notb bs)) -map_rev. f_equal.
  rewrite -(length_rev bs) -/(zlen (rev bs)) -get_be_notb.
  by rewrite -(length_map notb (rev bs)) put_get_be.
Qed.

Lemma fold_alter k n b :
  (k + n ≤ length b)%nat →
  fold_left (λ b i, alter notb i b) (seq k n) b = take k b ++ map notb (take n (drop k b)) ++ drop (k + n) b.
Proof.
  revert k b. induction n as [|n IH]; intros k b Hl; cbn [seq fold_left].
  { by rewrite take_0 Nat.add_0_r take_drop. }
  destruct (lookup_lt_is_Some_2 b k ltac:(lia)) as [x Hx].
  rewrite IH; [|rewrite length_alter; lia]. rewrite (drop_S b x k) //. cbn [take map].
  rewrite (take_S_r _ _ (notb x)); [|by rewrite list_lookup_alter_eq Hx]. rewrite take_alter_ge; [|lia].
  rewrite !drop_alter_lt; [|lia..]. rewrite -app_assoc /=. by rewrite Nat.add_succ_r.
Qed.

Lemma safeReverseBytes_map b : safeReverseBytes b = map notb b.
Proof.
  unfold safeReverseBytes. rewrite fold_alter; [|lia]. rewrite take_0 drop_0 Nat.add_0_l.
  by rewrite firstn_all drop_all app_nil_r.
Qed.

Lemma fold_set_word w k n b :
  ((k + n) * w ≤ length b)%nat →
  fold_left (set_word w) (seq k n) b =
    take (k * w) b ++ map notb (take (n * w) (drop (k * w) b)) ++ drop ((k + n) * w) b.
Proof.
  revert k b. induction n as [|n IH]; intros k b Hl; cbn [seq fold_left].
  { by rewrite Nat.mul_0_l take_0 Nat.add_0_r take_drop. }
  assert (Hw : not_word w (take w (drop (k * w) b)) = map notb (take w (drop (k * w) b))).
  { rewrite -{1}(not_word_map (take w (drop (k * w) b))) length_take length_drop Nat.min_l //. nia. }
  assert (Hlen : length (set_word w b k) = length b).
  { unfold set_word. rewrite Hw !length_app length_map !length_take !length_drop. nia. }
  rewrite IH; [|rewrite Hlen; nia]. unfold set_word. rewrite Hw.
  set (A := take (k * w) b). set (B := map notb (take w (drop (k * w) b))).
  assert (HAB : length (A ++ B) = (S k * w)%nat).
  { unfold A, B. rewrite length_app length_map !length_take !length_drop. nia. }
  rewrite (app_assoc A B) take_app_length' // drop_app_length' // drop_app_ge; [|rewrite HAB; nia].
  rewrite HAB drop_drop -app_assoc. f_equal. replace (S n * w)%nat with (w + n * w)%nat by lia.
  rewrite -take_take_drop map_app drop_drop -app_assoc. unfold B. do 3 f_equal. f_equal. nia.
Qed.

Lemma fastReverseBytes_map a b : fastReverseBytes a b = map notb b.
Proof.
  unfold fastReverseBytes. set (w := wordSize a). assert (Hw : w ≠ 0%nat) by (unfold w; by destruct a).
  pose proof (Nat.Div0.mul_div_le (length b) w) as Hle. set (n := (length b / w)%nat) in *.
  assert (He : (if decide (0 < n)%nat then fold_left (set_word w) (seq 0 n) b else b) =
    map notb (take (n * w) b) ++ drop (n * w) b).
  { case_decide; [|by replace n with 0%nat by lia]. rewrite fold_set_word; [|lia].
    by rewrite Nat.mul_0_l take_0 drop_0 Nat.add_0_l. }
  assert (Hl : length (map notb (take (n * w) b)) = (n * w)%nat) by (rewrite length_map length_take; lia).
  rewrite He fold_alter; [|rewrite length_app Hl length_drop; lia].
  rewrite take_app_length' // drop_app_length' // (take_ge (drop (n * w) b)); [|rewrite length_drop; lia].
  rewrite (drop_ge (map notb (take (n * w) b) ++ drop (n * w) b)); [|rewrite length_app Hl length_drop; lia]. by rewrite app_nil_r -map_app take_drop.
Qed.

Lemma reverseBytes_map a b : reverseBytes a b = map notb b.
Proof.
  unfold reverseBytes. destruct (supportsUnaligned a); [apply fastReverseBytes_map|apply safeReverseBytes_map].
Qed.

(** the optimised [fastReverseBytes], which complements a machine word at a
    time and finishes byte by byte, computes what [safeReverseBytes] computes, for
    every slice and every architecture; so [reverseBytes] complements every byte. *)
Theorem reverseBytes_equiv a b :
  fastReverseBytes a b = safeReverseBytes b ∧ reverseBytes a b = map notb b.
Proof. by rewrite reverseBytes_map fastReverseBytes_map safeReverseBytes_map. Qed.

(** ** Byte strings *)

(** [EncodeBytes] appends what TinyKV's encoder produces. *)
Lemma EncodeBytes_app b data : EncodeBytes b data = b ++ enc data.
Proof.
  unfold EncodeBytes. pose proof (Nat.div_mod_eq (length data) 8). pose proof (Nat.mod_upper_bound (length data) 8 ltac:(lia)).
  replace (length data / 8 + 2)%nat with (S (S (length data / 8))) by lia.
  by rewrite (EncodeBytes_loop_spec _ _ 0); [|lia..].
Qed.

Lemma EncodeBytesDesc_app a b data : EncodeBytesDesc a b data = b ++ map notb (enc data).
Proof. unfold EncodeBytesDesc. by rewrite EncodeBytes_app reverseBytes_map take_app_length drop_app_length. Qed.

(** The two directions of the decoding loop mirror each other. *)
Lemma forallb_notb p l :
  forallb (λ v, bool_decide (v = p)) (map notb l) = forallb (λ v, bool_decide (v = notb p)) l.
Proof.
  induction l as [|x l IH]; [done|]. cbn. rewrite IH. f_equal. apply bool_decide_ext.
  split; [intros <-; by rewrite notb_notb|intros ->; by rewrite notb_notb].
Qed.

Lemma go_index_marker {E} (b : bytes) m : b !! 8%nat = Some m → go_index (E:=E) (take 9 b) 8 = Ok m.
Proof. intros Hm. apply go_index_ok; [done|]. by rewrite lookup_take_lt; [|cbn; lia]. Qed.

Lemma decodeBytes_loop_reverse fuel b buf :
  decodeBytes_loop fuel (map notb b) (map notb buf) true =
    (λ '(rest, d), (map notb rest, map notb d)) <$> decodeBytes_loop fuel b buf false.
Proof.
  revert b buf. induction fuel as [|fuel IH]; intros b buf; [done|]. cbn [decodeBytes_loop].
  unfold zlen, encGroupSize. rewrite length_map. case_decide as Hl; [done|].
  destruct (lookup_lt_is_Some_2 b 8 ltac:(lia)) as [m Hm].
  rewrite (go_index_marker b m Hm) (go_index_marker (map notb b) (notb m)); [|by rewrite list_lookup_fmap Hm].
  cbn [mbind outcome_bind]. rewrite b2z_notb. change (b2z encMarker) with 255. pose proof (b2z_range m).
  rewrite (Z.mod_small (255 - b2z m)); [|lia]. case_decide; [done|]. rewrite !firstn_map !skipn_map -map_app forallb_notb.
  destruct (decide (255 - b2z m ≠ 0)); [|apply IH]. change (notb encMarker) with encPad.
  by destruct (forallb _ _).
Qed.

(** The forward direction accepts exactly what TinyKV's decoder accepts. *)
Lemma decodeBytes_loop_forward fuel b buf r :
  decodeBytes_loop fuel b buf false = Ok r ↔ DecodeBytes_loop fuel b buf = Ok r.
Proof.
  revert b buf. induction fuel as [|fuel IH]; intros b buf; [done|]. cbn [decodeBytes_loop DecodeBytes_loop].
  case_decide as Hl; [done|]. unfold zlen, encGroupSize in *.
  destruct (lookup_lt_is_Some_2 b 8 ltac:(lia)) as [m Hm].
  rewrite !(go_index_marker b m Hm). cbn [mbind outcome_bind].
  case_decide; [done|].
  destruct (decide ((b2z encMarker - b2z m) mod 256 = 0)) as [E|E].
  - rewrite E. apply IH.
  - rewrite decide_True //. destruct (forallb _ _); [split; by intros [= ->]|done].
Qed.

Lemma decodeBytes_loop_returns fuel b buf : (length b < fuel)%nat → decodeBytes_loop fuel b buf false ≠ OutOfFuel.
Proof.
  revert b buf. induction fuel as [|fuel IH]; intros b buf Hf; [lia|]. cbn [decodeBytes_loop].
  case_decide as Hl; [done|]. unfold zlen, encGroupSize in *.
  destruct (lookup_lt_is_Some_2 b 8 ltac:(lia)) as [m Hm]. rewrite (go_index_marker b m Hm). cbn [mbind outcome_bind].
  case_decide; [done|]. case_decide; [by destruct (forallb _ _)|]. apply IH. rewrite length_drop. lia.
Qed.

Lemma DecodeBytes_Ok a b rest d : DecodeBytes a b = Ok (rest, d) ↔ b = enc d ++ rest.
Proof.
  unfold DecodeBytes, decodeBytes. split.
  - intros H. inv_ok. apply decodeBytes_loop_forward, DecodeBytes_loop_Ok in H as (d' & -> & ->). done.
  - intros ->. assert (Hd : decodeBytes_loop (S (length (enc d ++ rest))) (enc d ++ rest) [] false = Ok (rest, d)).
    { apply decodeBytes_loop_forward. rewrite DecodeBytes_loop_enc // length_app. lia. }
    by rewrite Hd.
Qed.

Lemma DecodeBytesDesc_reverse a b :
  DecodeBytesDesc a b = (λ '(rest, d), (map notb rest, d)) <$> DecodeBytes a (map notb b).
Proof.
  unfold DecodeBytesDesc, DecodeBytes, decodeBytes. rewrite length_map.
  pose proof (decodeBytes_loop_reverse (S (length b)) (map notb b) []) as H. rewrite map_notb_notb in H.
  change (map notb []) with (@nil byte) in H. rewrite H.
  destruct (decodeBytes_loop _ (map notb b) [] false) as [[rest d]|e|w|]; cbn; try done.
  by rewrite reverseBytes_map map_notb_notb.
Qed.

(** [DecodeBytes] and [DecodeBytesDesc] accept exactly what the matching
    encoder produces: a successful decoding has found the encoding of the result
    followed by the returned rest, and nothing is lost either way. *)
Theorem decodeBytes_iff a b rest d :
  (DecodeBytes a b = Ok (rest, d) ↔ b = EncodeBytes [] d ++ rest) ∧
  (DecodeBytesDesc a b = Ok (rest, d) ↔ b = EncodeBytesDesc a [] d ++ rest).
Proof.
  rewrite EncodeBytes_app EncodeBytesDesc_app !app_nil_l. split; [apply DecodeBytes_Ok|].
  rewrite DecodeBytesDesc_reverse. split.
  - destruct (DecodeBytes a (map notb b)) as [[r d']|e|w|] eqn:E; cbn; try done. intros [= <- <-].
    apply DecodeBytes_Ok in E. by rewrite -map_app -E map_notb_notb.
  - intros ->. rewrite map_app map_notb_notb.
    replace (DecodeBytes a (enc d ++ map notb rest)) with (@Ok string _ (map notb rest, d)) by (symmetry; by apply DecodeBytes_Ok).
    cbn. by rewrite map_notb_notb.
Qed.

Lemma Compare_notb a b : length a = length b → Compare (map notb a) (map notb b) = Compare b a.
Proof.
  revert b. induction a as [|x a IH]; intros [|y b] Hl; try done. cbn. rewrite !b2z_notb IH; [|by inversion Hl].
  destruct (Z.compare_spec (b2z y) (b2z x)), (Z.compare_spec (255 - b2z x) (255 - b2z y)); done || lia.
Qed.

Lemma DecodeCompactBytes_Encode data rest :
  zlen data < 2 ^ 63 → DecodeCompactBytes (EncodeCompactBytes [] data ++ rest) = Ok (rest, data).
Proof.
  intros Hl. unfold DecodeCompactBytes, EncodeCompactBytes. rewrite -app_assoc DecodeVarint_EncodeVarint.
  - cbn [mbind outcome_bind]. rewrite decide_False; [|unfold zlen; rewrite length_app; lia].
    by rewrite go_slice_rest go_slice_first.
  - unfold is_i64, zlen in *. lia.
Qed.

(** A compact byte string whose length was written as a negative number
    passes the length check of [DecodeCompactBytes] and makes it panic on the
    slice expression, instead of being reported as an error. *)
Theorem DecodeCompactBytes_negative_panics n rest :
  - 2 ^ 63 ≤ n < 0 →
  DecodeCompactBytes (EncodeVarint [] n ++ rest) = Panic "slice bounds out of range".
Proof.
  intros Hn. unfold DecodeCompactBytes. rewrite DecodeVarint_EncodeVarint; [|unfold is_i64; lia].
  cbn [mbind outcome_bind]. rewrite decide_False; [|unfold zlen; lia]. unfold go_slice. do 2 (case_decide; [lia|]). done.
Qed.

Lemma DecodeCompactBytes_negative_panics_witness :
  DecodeCompactBytes (EncodeVarint [] (-1) ++ []) = Panic "slice bounds out of range".
Proof. by apply (DecodeCompactBytes_negative_panics (-1) []). Defined.
