(* ===== verification/SqlCodec.v ===== *)
(** Rows of values in keys and values of the SQL layer:
    tinysql/util/codec/codec.go over [types.Datum].

    [EncodeKey] and [EncodeValue] write a list of datums, each behind a flag byte;
    [Decode], [DecodeOne] and [DecodeRange] read them back; [CutOne] and
    [SetRawValues] measure an encoded value without decoding it. *)

From S2P Require Import Prelude Codec SqlNumber SqlBytes.

(** ** Datums *)

(** [types.Datum]: the kind, with the field the kind uses.  The numbers of [i]
    are read at the kind's type ([int64], [uint64], or the bits of a [float64]);
    [KindOther] stands for the kinds the codec has no case for. *)
Inductive Datum :=
| KindNull
| KindInt64 (i : Z)
| KindUint64 (i : Z)
| KindFloat32 (i : Z)
| KindFloat64 (i : Z)
| KindString (b : bytes)
| KindBytes (b : bytes)
| KindMinNotNull
| KindMaxValue
| KindRaw (b : bytes)
| KindOther (k : Z).

#[export] Instance Datum_eq_dec : EqDecision Datum.
Proof. solve_decision. Defined.

(** [d.GetInt64()] reads the field [i] as an [int64] whatever the kind. *)
Definition GetInt64 (d : Datum) : Z :=
  match d with KindInt64 i => i | KindUint64 i | KindFloat32 i | KindFloat64 i => i64 i | _ => 0 end.

Definition NilFlag : byte := x00.
Definition bytesFlag : byte := x01.
Definition compactBytesFlag : byte := x02.
Definition intFlag : byte := x03.
Definition uintFlag : byte := x04.
Definition floatFlag : byte := x05.
Definition durationFlag : byte := x07.
Definition varintFlag : byte := x08.
Definition uvarintFlag : byte := x09.
Definition maxFlag : byte := xfa.

(** ** Encoding *)

Definition encodeBytes (b v : bytes) (comparable : bool) : bytes :=
  if comparable then EncodeBytes (b ++ [bytesFlag]) v else EncodeCompactBytes (b ++ [compactBytesFlag]) v.
Definition encodeSignedInt (b : bytes) (v : Z) (comparable : bool) : bytes :=
  if comparable then EncodeInt (b ++ [intFlag]) v else EncodeVarint (b ++ [varintFlag]) v.
Definition encodeUnsignedInt (b : bytes) (v : Z) (comparable : bool) : bytes :=
  if comparable then EncodeUint (b ++ [uintFlag]) v else EncodeUvarint (b ++ [uvarintFlag]) v.

(** One turn of the loop of [encode]. *)
Definition encode_one (b : bytes) (d : Datum) (comparable : bool) : outcome string bytes :=
  match d with
  | KindInt64 i => Ok (encodeSignedInt b i comparable)
  | KindUint64 i => Ok (encodeUnsignedInt b i comparable)
  | KindFloat32 i | KindFloat64 i => Ok (EncodeFloat (b ++ [floatFlag]) i)
  | KindString v | KindBytes v => Ok (encodeBytes b v comparable)
  | KindNull => Ok (b ++ [NilFlag])
  | KindMinNotNull => Ok (b ++ [bytesFlag])
  | KindMaxValue => Ok (b ++ [maxFlag])
  | _ => Err "unsupport encode type"
  end.

Fixpoint encode (b : bytes) (vals : list Datum) (comparable : bool) : outcome string bytes :=
  match vals with
  | [] => Ok b
  | d :: vals => b ← encode_one b d comparable; encode b vals comparable
  end.

Definition EncodeKey (b : bytes) (v : list Datum) : outcome string bytes := encode b v true.
Definition EncodeValue (b : bytes) (v : list Datum) : outcome string bytes := encode b v false.

(** [for v > 0 { size++; v = v >> 7 }] *)
Fixpoint size_loop (fuel : nat) (size v : Z) : outcome string Z :=
  match fuel with
  | O => OutOfFuel
  | S fuel => if decide (0 < v) then size_loop fuel (size + 1) (Z.shiftr v 7) else Ok size
  end.

Definition valueSizeOfSignedInt (v : Z) : outcome string Z :=
  let v := if decide (v < 0) then i64 (i64 (0 - v) - 1) else v in
  size_loop 11 2 (Z.shiftr v 6).
Definition valueSizeOfUnsignedInt (v : Z) : outcome string Z := size_loop 11 2 (Z.shiftr v 7).
Definition valueSizeOfBytes (v : bytes) : outcome string Z :=
  n ← valueSizeOfSignedInt (zlen v); Ok (n + zlen v).

Definition EstimateValueSize (val : Datum) : outcome string Z :=
  match val with
  | KindInt64 i => valueSizeOfSignedInt i
  | KindUint64 i => valueSizeOfUnsignedInt i
  | KindFloat32 _ | KindFloat64 _ => Ok 9
  | KindString v | KindBytes v => valueSizeOfBytes v
  | KindNull | KindMinNotNull | KindMaxValue => Ok 1
  | _ => Err "unsupported encode type"
  end.

(** ** Decoding *)

Section arch.
Context (a : goarch).

(** An error comes with the slice returned beside it. *)
Definition with_nil {A} (c : outcome string A) : outcome (bytes * string) A :=
  match c with Ok x => Ok x | Err e => Err ([], e) | Panic w => Panic w | OutOfFuel => OutOfFuel end.

Definition DecodeOne (b : bytes) : outcome (bytes * string) (bytes * Datum) :=
  match b with
  | [] => Err ([], "invalid encoded key")
  | flag :: b =>
    if decide (flag = intFlag) then '(b, v) ← with_nil (DecodeInt b); Ok (b, KindInt64 v)
    else if decide (flag = uintFlag) then '(b, v) ← with_nil (DecodeUint b); Ok (b, KindUint64 v)
    else if decide (flag = varintFlag) then '(b, v) ← with_nil (DecodeVarint b); Ok (b, KindInt64 v)
    else if decide (flag = uvarintFlag) then '(b, v) ← with_nil (DecodeUvarint b); Ok (b, KindUint64 v)
    else if decide (flag = floatFlag) then '(b, v) ← with_nil (DecodeFloat b); Ok (b, KindFloat64 v)
    else if decide (flag = bytesFlag) then '(b, v) ← with_nil (DecodeBytes a b); Ok (b, KindBytes v)
    else if decide (flag = compactBytesFlag) then '(b, v) ← with_nil (DecodeCompactBytes b); Ok (b, KindBytes v)
    else if decide (flag = NilFlag) then Ok (b, KindNull)
    else Err (b, "invalid encoded key flag")
  end.

Fixpoint Decode_loop (fuel : nat) (b : bytes) (values : list Datum) : outcome string (list Datum) :=
  match fuel with
  | O => OutOfFuel
  | S fuel =>
    if decide (0 < zlen b) then
      match DecodeOne b with
      | Ok (b, d) => Decode_loop fuel b (values ++ [d])
      | Err (_, e) => Err e
      | Panic w => Panic w
      | OutOfFuel => OutOfFuel
      end
    else Ok values
  end.

Definition Decode (b : bytes) : outcome string (list Datum) :=
  if decide (zlen b < 1) then Err "invalid encoded key" else Decode_loop (S (length b)) b [].

(** [DecodeRange] returns the values decoded so far, what is left and the error. *)
Fixpoint DecodeRange_loop (fuel : nat) (b : bytes) (values : list Datum) :
    outcome string (list Datum * bytes * option string) :=
  match fuel with
  | O => OutOfFuel
  | S fuel =>
    if decide (1 < zlen b) then
      match DecodeOne b with
      | Ok (b, d) => DecodeRange_loop fuel b (values ++ [d])
      | Err (b, e) => Ok (values, b, Some e)
      | Panic w => Panic w
      | OutOfFuel => OutOfFuel
      end
    else
      match b with
      | [flag] =>
        if decide (flag = NilFlag) then Ok (values ++ [KindNull], [], None)
        else if decide (flag = bytesFlag) then Ok (values ++ [KindMinNotNull], [], None)
        else if decide (flag = maxFlag ∨ flag = z2b (b2z maxFlag + 1)) then Ok (values ++ [KindMaxValue], [], None)
        else Ok (values, b, Some "invalid encoded key flag")
      | _ => Ok (values, [], None)
      end
  end.

Definition DecodeRange (b : bytes) : outcome string (list Datum * bytes * option string) :=
  if decide (zlen b < 1) then Ok ([], b, Some "invalid encoded key: length of key is zero")
  else DecodeRange_loop (S (length b)) b [].
End arch.

(** ** Measuring an encoded value *)

Fixpoint peekBytes_loop (fuel : nat) (b : bytes) (offset : Z) : outcome string Z :=
  match fuel with
  | O => OutOfFuel
  | S fuel =>
    if decide (zlen b < offset + encGroupSize + 1) then Err insufficient
    else
      marker ← go_index b (offset + encGroupSize);
      let padCount := (b2z encMarker - b2z marker) mod 256 in
      let offset := offset + encGroupSize + 1 in
      if decide (padCount ≠ 0) then Ok offset else peekBytes_loop fuel b offset
  end.
Definition peekBytes (b : bytes) : outcome string Z := peekBytes_loop (S (length b)) b 0.

Definition peekCompactBytes (b : bytes) : outcome string Z :=
  let '(vi, n) := Varint b in
  if decide (n < 0) then Err too_large
  else if decide (n = 0) then Err insufficient
  else if decide (zlen b < i64 (vi + n)) then Err insufficient
  else Ok (i64 (n + vi)).

Definition peekVarint (b : bytes) : outcome string Z :=
  let '(_, n) := Varint b in if decide (n < 0) then Err too_large else Ok n.
Definition peekUvarint (b : bytes) : outcome string Z :=
  let '(_, n) := Uvarint b in if decide (n < 0) then Err too_large else Ok n.

Definition peek (b : bytes) : outcome string Z :=
  match b with
  | [] => Err "invalid encoded key"
  | flag :: b =>
    l ← (if decide (flag = NilFlag) then Ok 0
         else if decide (flag = intFlag ∨ flag = uintFlag ∨ flag = floatFlag ∨ flag = durationFlag) then Ok 8
         else if decide (flag = bytesFlag) then peekBytes b
         else if decide (flag = compactBytesFlag) then peekCompactBytes b
         else if decide (flag = varintFlag) then peekVarint b
         else if decide (flag = uvarintFlag) then peekUvarint b
         else Err "invalid encoded key flag");
    Ok (i64 (1 + l))
  end.

(** [b[:l], b[l:]]: the second expression panics whenever [l] is beyond the
    length, even if the capacity lets the first one pass. *)
Definition CutOne (b : bytes) : outcome string (bytes * bytes) :=
  l ← peek b; data ← go_slice b 0 l; remain ← go_slice b l (zlen b); Ok (data, remain).

Definition CutColumnID (b : bytes) : outcome string (bytes * Z) :=
  match b with [] => Err "invalid encoded key" | _ :: b => DecodeVarint b end.

(** The values are overwritten in place, those before an error included. *)
Fixpoint SetRawValues (data : bytes) (values : list Datum) : outcome string (list Datum * option string) :=
  match values with
  | [] => Ok ([], None)
  | v :: values =>
    match peek data with
    | Ok l =>
      raw ← go_slice data 0 l; data ← go_slice data l (zlen data);
      '(values, err) ← SetRawValues data values; Ok (KindRaw raw :: values, err)
    | Err e => Ok (v :: values, Some e)
    | Panic w => Panic w
    | OutOfFuel => OutOfFuel
    end
  end.

(** ** Encodings are appended *)

(** The values a Go datum can hold: integers of the kind's width, floats that
    are numbers, strings shorter than the address space. *)
Definition datum_ok (d : Datum) : Prop :=
  match d with
  | KindInt64 i => is_i64 i
  | KindUint64 i => is_u64 i
  | KindFloat32 i | KindFloat64 i => is_u64 i ∧ is_nan i = false
  | KindString b | KindBytes b => zlen b < 2 ^ 63
  | _ => True
  end.

Lemma encode_one_app b d c : encode_one b d c = app b <$> encode_one [] d c.
Proof.
  destruct d, c; try done; cbn [encode_one encodeSignedInt encodeUnsignedInt encodeBytes fmap outcome_fmap]; f_equal;
    unfold EncodeCompactBytes, EncodeFloat, EncodeInt, EncodeUint, EncodeVarint, EncodeUvarint;
    rewrite ?EncodeBytes_app -?app_assoc; done.
Qed.

Lemma encode_one_cons d c k : encode_one [] d c = Ok k → ∃ f k', k = f :: k'.
Proof.
  destruct d, c; try done; cbn [encode_one encodeSignedInt encodeUnsignedInt encodeBytes]; intros [= <-];
    rewrite ?EncodeBytes_app; by eexists _, _.
Qed.

Lemma encode_app b vals c : encode b vals c = app b <$> encode [] vals c.
Proof.
  revert b. induction vals as [|d vals IH]; intros b; [cbn; by rewrite app_nil_r|]. cbn [encode].
  rewrite encode_one_app. destruct (encode_one [] d c) as [k|e|w|]; [|done..]. cbn [fmap outcome_fmap mbind outcome_bind].
  rewrite IH (IH k). destruct (encode [] vals c); cbn; try done. by rewrite app_assoc.
Qed.

Lemma encode_cons d vals c :
  encode [] (d :: vals) c = k ← encode_one [] d c; app k <$> encode [] vals c.
Proof. cbn [encode]. destruct (encode_one [] d c); [|done..]. cbn. apply encode_app. Qed.

(** ** Order of keys *)

(** What a key orders a datum by: its class, then its value. *)
Inductive key_val := VNull | VBytes (b : bytes) | VInt (i : Z) | VUint (i : Z) | VFloat (ord : Z) | VMax.
Definition key_of (d : Datum) : option key_val :=
  match d with
  | KindNull => Some VNull
  | KindInt64 i => Some (VInt i)
  | KindUint64 i => Some (VUint i)
  | KindFloat32 i | KindFloat64 i => Some (VFloat (float_ord i))
  | KindString b | KindBytes b => Some (VBytes b)
  | KindMaxValue => Some VMax
  | KindMinNotNull | KindRaw _ | KindOther _ => None
  end.
Definition key_class (v : key_val) : Z :=
  match v with VNull => 0 | VBytes _ => 1 | VInt _ => 3 | VUint _ => 4 | VFloat _ => 5 | VMax => 250 end.
Definition key_val_cmp (v w : key_val) : comparison :=
  match v, w with
  | VBytes x, VBytes y => Compare x y
  | VInt x, VInt y | VUint x, VUint y | VFloat x, VFloat y => x ?= y
  | _, _ => key_class v ?= key_class w
  end.
Fixpoint key_cmp (vs ws : list key_val) : comparison :=
  match vs, ws with
  | [], [] => Eq
  | [], _ => Lt
  | _, [] => Gt
  | v :: vs, w :: ws => match key_val_cmp v w with Eq => key_cmp vs ws | c => c end
  end.

Lemma encode_one_order d e v w :
  datum_ok d → datum_ok e → key_of d = Some v → key_of e = Some w →
  ∃ kd ke, encode_one [] d true = Ok kd ∧ encode_one [] e true = Ok ke ∧
    ∀ x y, Compare (kd ++ x) (ke ++ y) = match key_val_cmp v w with Eq => Compare x y | c => c end.
Proof.
  intros Hd He Hv Hw.
  destruct d; cbn in Hv; simplify_eq; destruct e; cbn in Hw; simplify_eq; cbn in Hd, He;
    (eexists _, _; split; [reflexivity|]; split; [reflexivity|]; intros x y;
      cbn [encodeSignedInt encodeUnsignedInt encodeBytes app key_val_cmp]);
    try (rewrite ?EncodeBytes_app; reflexivity).
  all: try (apply EncodeInt_compare; done).
  all: try (apply EncodeUint_compare; done).
  all: try (destruct Hd, He; apply EncodeFloat_compare; done).
  all: rewrite !EncodeBytes_app -!app_assoc Compare_app_same; apply enc_compare.
Qed.

Lemma encode_order vs ws kvs kws :
  Forall datum_ok vs → Forall datum_ok ws → Forall2 (λ d v, key_of d = Some v) vs kvs →
  Forall2 (λ d v, key_of d = Some v) ws kws →
  ∃ x y, encode [] vs true = Ok x ∧ encode [] ws true = Ok y ∧ Compare x y = key_cmp kvs kws.
Proof.
  assert (Hex : ∀ vs kvs, Forall datum_ok vs → Forall2 (λ d v, key_of d = Some v) vs kvs → ∃ x, encode [] vs true = Ok x).
  { clear. induction vs as [|d vs IH]; intros kvs Ho Hk; [by eexists|]. apply Forall_cons in Ho as [Hd Ho].
    apply Forall2_cons_inv_l in Hk as (v & kvs' & Hv & Hk & ->). destruct (IH _ Ho Hk) as [x Hx].
    destruct (encode_one_order d d v v Hd Hd Hv Hv) as (k & _ & E & _). exists (k ++ x). by rewrite encode_cons E /= Hx. }
  revert ws kvs kws. induction vs as [|d vs IH]; intros ws kvs kws Hov How Hkv Hkw.
  - apply Forall2_nil_inv_l in Hkv as ->. destruct (Hex _ _ How Hkw) as [y Hy]. exists [], y. split; [done|].
    split; [done|]. destruct Hkw as [|e w ws kws He Hkw]; [by cbn in Hy; simplify_eq|].
    rewrite encode_cons in Hy. destruct (encode_one [] e true) eqn:E; try done. apply encode_one_cons in E as (f & k' & ->).
    destruct (encode [] ws true); cbn in Hy; by simplify_eq.
  - pose proof Hov as [Hd Hov']%Forall_cons. pose proof Hkv as (v & kvs' & Hv & Hkv' & ->)%Forall2_cons_inv_l.
    destruct Hkw as [|e w ws kws He Hkw].
    + destruct (Hex _ _ Hov Hkv) as [x Hx]. exists x, []. split; [done|]. split; [done|].
      rewrite encode_cons in Hx. destruct (encode_one [] d true) eqn:E; try done. apply encode_one_cons in E as (f & k' & ->).
      destruct (encode [] vs true); cbn in Hx; by simplify_eq.
    + apply Forall_cons in How as [Heok How]. destruct (IH ws kvs' kws) as (x & y & Hx & Hy & Hc); [done..|].
      destruct (encode_one_order d e v w) as (kd & ke & Ed & Ee & Hcmp); [done..|]. exists (kd ++ x), (ke ++ y).
      by rewrite !encode_cons Ed Ee /= Hx Hy /= Hcmp Hc.
Qed.



(** ** Round trip *)

(** The datum that comes back: a string as bytes, a float as a [float64]. *)
Definition decoded (d : Datum) : option Datum :=
  match d with
  | KindNull | KindInt64 _ | KindUint64 _ | KindBytes _ => Some d
  | KindFloat32 f | KindFloat64 f => Some (KindFloat64 (float_canon f))
  | KindString b => Some (KindBytes b)
  | _ => None
  end.

(** Decoding one value behind its flag. *)
Lemma DecodeOne_int a b : DecodeOne a (intFlag :: b) = '(b, v) ← with_nil (DecodeInt b); Ok (b, KindInt64 v).
Proof. done. Qed.
Lemma DecodeOne_uint a b : DecodeOne a (uintFlag :: b) = '(b, v) ← with_nil (DecodeUint b); Ok (b, KindUint64 v).
Proof. done. Qed.
Lemma DecodeOne_varint a b : DecodeOne a (varintFlag :: b) = '(b, v) ← with_nil (DecodeVarint b); Ok (b, KindInt64 v).
Proof. done. Qed.
Lemma DecodeOne_uvarint a b : DecodeOne a (uvarintFlag :: b) = '(b, v) ← with_nil (DecodeUvarint b); Ok (b, KindUint64 v).
Proof. done. Qed.
Lemma DecodeOne_float a b : DecodeOne a (floatFlag :: b) = '(b, v) ← with_nil (DecodeFloat b); Ok (b, KindFloat64 v).
Proof. done. Qed.
Lemma DecodeOne_bytes a b : DecodeOne a (bytesFlag :: b) = '(b, v) ← with_nil (DecodeBytes a b); Ok (b, KindBytes v).
Proof. done. Qed.
Lemma DecodeOne_compact a b :
  DecodeOne a (compactBytesFlag :: b) = '(b, v) ← with_nil (DecodeCompactBytes b); Ok (b, KindBytes v).
Proof. done. Qed.

Lemma DecodeOne_string a c v rest :
  zlen v < 2 ^ 63 → DecodeOne a (encodeBytes [] v c ++ rest) = Ok (rest, KindBytes v).
Proof.
  intros Hv. destruct c; cbn [encodeBytes].
  - rewrite EncodeBytes_app. change (([] ++ [bytesFlag]) ++ enc v) with (bytesFlag :: enc v). rewrite -app_comm_cons DecodeOne_bytes.
    by replace (DecodeBytes a (enc v ++ rest)) with (@Ok string _ (rest, v)) by (symmetry; by apply DecodeBytes_Ok).
  - change (EncodeCompactBytes ([] ++ [compactBytesFlag]) v) with (compactBytesFlag :: EncodeCompactBytes [] v).
    by rewrite -app_comm_cons DecodeOne_compact DecodeCompactBytes_Encode.
Qed.

Lemma DecodeOne_signed a c i rest : is_i64 i → DecodeOne a (encodeSignedInt [] i c ++ rest) = Ok (rest, KindInt64 i).
Proof.
  intros Hi. destruct c; cbn [encodeSignedInt].
  - change (EncodeInt ([] ++ [intFlag]) i) with (intFlag :: EncodeInt [] i).
    by rewrite -app_comm_cons DecodeOne_int DecodeInt_EncodeInt.
  - change (EncodeVarint ([] ++ [varintFlag]) i) with (varintFlag :: EncodeVarint [] i).
    by rewrite -app_comm_cons DecodeOne_varint DecodeVarint_EncodeVarint.
Qed.

Lemma DecodeOne_unsigned a c i rest : is_u64 i → DecodeOne a (encodeUnsignedInt [] i c ++ rest) = Ok (rest, KindUint64 i).
Proof.
  intros Hi. destruct c; cbn [encodeUnsignedInt].
  - change (EncodeUint ([] ++ [uintFlag]) i) with (uintFlag :: EncodeUint [] i).
    by rewrite -app_comm_cons DecodeOne_uint DecodeUint_EncodeUint.
  - change (EncodeUvarint ([] ++ [uvarintFlag]) i) with (uvarintFlag :: EncodeUvarint [] i).
    by rewrite -app_comm_cons DecodeOne_uvarint DecodeUvarint_EncodeUvarint.
Qed.

Lemma DecodeOne_real a f rest :
  is_u64 f → is_nan f = false →
  DecodeOne a (EncodeFloat ([] ++ [floatFlag]) f ++ rest) = Ok (rest, KindFloat64 (float_canon f)).
Proof.
  intros Hf Hn. change (EncodeFloat ([] ++ [floatFlag]) f) with (floatFlag :: EncodeFloat [] f).
  by rewrite -app_comm_cons DecodeOne_float DecodeFloat_EncodeFloat.
Qed.

Lemma DecodeOne_encode_one a d d' c :
  datum_ok d → decoded d = Some d' →
  ∃ k, encode_one [] d c = Ok k ∧ ∀ rest, DecodeOne a (k ++ rest) = Ok (rest, d').
Proof.
  intros Hd Hd'. destruct d; cbn in Hd, Hd'; simplify_eq; (eexists; split; [reflexivity|intros rest]).
  - done.
  - by apply DecodeOne_signed.
  - by apply DecodeOne_unsigned.
  - destruct Hd. by apply DecodeOne_real.
  - destruct Hd. by apply DecodeOne_real.
  - by apply DecodeOne_string.
  - by apply DecodeOne_string.
Qed.

Lemma Decode_loop_encode a c fuel vs vs' acc :
  Forall datum_ok vs → Forall2 (λ d v, decoded d = Some v) vs vs' →
  ∃ k, encode [] vs c = Ok k ∧ ((length k < fuel)%nat → Decode_loop a fuel k acc = Ok (acc ++ vs')).
Proof.
  intros Ho Hd. revert fuel acc Ho. induction Hd as [|d d' vs vs' Hd Hds IH]; intros fuel acc Ho.
  { exists []. split; [done|]. intros ?. destruct fuel; [lia|]. cbn. by rewrite app_nil_r. }
  apply Forall_cons in Ho as [Hod Ho]. destruct (DecodeOne_encode_one a d d' c Hod Hd) as (k & Ek & Hk).
  pose proof (encode_one_cons _ _ _ Ek) as (f & k' & Hcons).
  destruct (IH (pred fuel) (acc ++ [d']) Ho) as (ks & Eks & Hks).
  exists (k ++ ks). split; [by rewrite encode_cons Ek /= Eks|]. intros Hf. destruct fuel as [|fuel]; [lia|].
  rewrite length_app in Hf. cbn [Decode_loop]. rewrite decide_True; [|unfold zlen; rewrite length_app Hcons; cbn [length]; lia].
  rewrite Hk Hks; [|rewrite Hcons in Hf; cbn in Hf |- *; lia]. by rewrite -app_assoc.
Qed.

(** C38: [Decode] inverts [EncodeKey] and [EncodeValue] on rows of values: it
    returns the same values, with a string as bytes, a [float32] as a [float64] and
    a negative zero as zero. *)
Theorem Decode_encode_roundtrip a c vs vs' :
  vs ≠ [] → Forall datum_ok vs → mapM decoded vs = Some vs' →
  ∃ k, encode [] vs c = Ok k ∧ Decode a k = Ok vs'.
Proof.
  intros Hne Ho Hd%mapM_Some. destruct (Decode_loop_encode a c 0 vs vs' [] Ho Hd) as (k & Ek & _).
  destruct (Decode_loop_encode a c (S (length k)) vs vs' [] Ho Hd) as (k2 & Ek2 & Hk).
  rewrite Ek in Ek2. simplify_eq. exists k2. split; [done|]. unfold Decode. rewrite decide_False; [apply Hk; lia|].
  destruct vs as [|d vs]; [done|]. rewrite encode_cons in Ek.
  destruct (encode_one [] d c) eqn:E; try done. apply encode_one_cons in E as (f & k' & ->).
  destruct (encode [] vs c); cbn in Ek; simplify_eq. unfold zlen. cbn. lia.
Qed.

Lemma Decode_encode_roundtrip_witness :
  ∃ k, encode [] [KindUint64 300; KindNull; KindString [x61]] false = Ok k ∧
    Decode amd64 k = Ok [KindUint64 300; KindNull; KindBytes [x61]].
Proof.
  apply (Decode_encode_roundtrip amd64 false [KindUint64 300; KindNull; KindString [x61]]); [done| |reflexivity].
  repeat (apply Forall_cons; split; [cbn; unfold is_u64, zlen, two64; cbn; lia|]). by apply Forall_nil.
Defined.

(** ** Measuring agrees with decoding *)

Lemma DecodeVarint_inv b rest v :
  DecodeVarint b = Ok (rest, v) → ∃ p, b = p ++ rest ∧ Varint b = (v, zlen p) ∧ 0 < zlen p.
Proof.
  unfold DecodeVarint. destruct (Varint b) as [v' n]. case_decide; [|by case_decide].
  intros (r & (p & -> & <-)%go_slice_tail & [= <- <-])%bind_Ok. eauto.
Qed.
Lemma DecodeUvarint_inv b rest v :
  DecodeUvarint b = Ok (rest, v) → ∃ p, b = p ++ rest ∧ Uvarint b = (v, zlen p) ∧ 0 < zlen p.
Proof.
  unfold DecodeUvarint. destruct (Uvarint b) as [v' n]. case_decide; [|by case_decide].
  intros (r & (p & -> & <-)%go_slice_tail & [= <- <-])%bind_Ok. eauto.
Qed.

Lemma DecodeUint_inv b rest v : DecodeUint b = Ok (rest, v) → ∃ p, b = p ++ rest ∧ zlen p = 8.
Proof.
  unfold DecodeUint. case_decide as Hl; [done|]. intros (u & _ & [= <- <-])%bind_Ok. exists (take 8 b). rewrite take_drop. split; [done|].
  unfold zlen in *. rewrite length_take. lia.
Qed.
Lemma DecodeInt_inv b rest v : DecodeInt b = Ok (rest, v) → ∃ p, b = p ++ rest ∧ zlen p = 8.
Proof.
  unfold DecodeInt. case_decide as Hl; [done|]. intros (u & _ & [= <- <-])%bind_Ok. exists (take 8 b). rewrite take_drop. split; [done|].
  unfold zlen in *. rewrite length_take. lia.
Qed.
Lemma DecodeFloat_inv b rest v : DecodeFloat b = Ok (rest, v) → ∃ p, b = p ++ rest ∧ zlen p = 8.
Proof. unfold DecodeFloat. intros ([r u] & H & [= <- <-])%bind_Ok. by eapply DecodeUint_inv. Qed.

Lemma peekBytes_step fuel pre g m rest :
  length g = 8%nat →
  peekBytes_loop (S fuel) (pre ++ g ++ m :: rest) (zlen pre) =
    if decide (b2z m ≠ 255) then Ok (zlen pre + 9) else peekBytes_loop fuel (pre ++ g ++ m :: rest) (zlen pre + 9).
Proof.
  intros Hg. cbn [peekBytes_loop]. unfold encGroupSize. rewrite decide_False.
  2: { unfold zlen. rewrite !length_app length_cons Hg. lia. }
  rewrite (go_index_ok _ _ m).
  - cbn [mbind outcome_bind]. change (b2z encMarker) with 255. pose proof (b2z_range m).
    rewrite (Z.mod_small (255 - b2z m)); [|lia]. replace (zlen pre + 8 + 1) with (zlen pre + 9) by lia.
    destruct (decide (255 - b2z m ≠ 0)), (decide (b2z m ≠ 255)); done || lia.
  - unfold zlen. lia.
  - unfold zlen. replace (Z.to_nat _) with (length pre + 8)%nat by lia. rewrite lookup_app_r; [|lia].
    replace (length pre + 8 - length pre)%nat with 8%nat by lia. rewrite lookup_app_r; [|lia]. by rewrite Hg.
Qed.

Lemma peekBytes_enc d fuel pre rest :
  (length (enc d) < fuel)%nat →
  peekBytes_loop fuel (pre ++ enc d ++ rest) (zlen pre) = Ok (zlen pre + zlen (enc d)).
Proof.
  revert fuel pre. induction d as [d Hd|g r Hg IH] using group_ind; intros [|fuel] pre Hf; try lia.
  - rewrite enc_short //. replace (zlen (enc_last d)) with 9 by (unfold zlen; by rewrite length_enc_last).
    unfold enc_last. rewrite (app_assoc d) -app_assoc. cbn [app].
    rewrite peekBytes_step; [|rewrite length_app length_replicate; lia]. rewrite b2z_marker; [|lia].
    destruct (decide (247 + zlen d ≠ 255)); [done|]. unfold zlen in *. lia.
  - rewrite enc_group // in Hf |- *. rewrite -app_assoc -app_comm_cons peekBytes_step //. change (b2z xff) with 255.
    destruct (decide (255 ≠ 255)); [done|]. rewrite length_app length_cons in Hf.
    replace (pre ++ g ++ xff :: enc r ++ rest) with ((pre ++ g ++ [xff]) ++ enc r ++ rest) by by rewrite -!app_assoc.
    assert (Hz : zlen pre + 9 = zlen (pre ++ g ++ [xff])) by (unfold zlen; rewrite !length_app Hg; cbn; lia).
    rewrite Hz IH; [|lia]. f_equal. rewrite -Hz. unfold zlen. rewrite length_app length_cons Hg. lia.
Qed.

Lemma DecodeCompactBytes_inv b rest v :
  DecodeCompactBytes b = Ok (rest, v) →
  ∃ p q, b = p ++ q ++ rest ∧ 0 < zlen p ∧ Varint b = (zlen q, zlen p).
Proof.
  unfold DecodeCompactBytes. intros ([b' n] & (p & -> & Hv & Hp)%DecodeVarint_inv & Hc)%bind_Ok. case_decide as Hn; [done|].
  apply bind_Ok in Hc as (rest' & (q & -> & <-)%go_slice_tail & Hc). apply bind_Ok in Hc as (data & _ & [= <- <-]). eauto 6.
Qed.

(** Whatever [DecodeOne] accepts it takes from the front of the slice, and
    [peek] finds the same length. *)
Lemma DecodeOne_inv a b rest d :
  DecodeOne a b = Ok (rest, d) →
  ∃ data, b = data ++ rest ∧ 0 < zlen data ∧ (zlen b < 2 ^ 63 → peek b = Ok (zlen data)).
Proof.
  destruct b as [|f b]; [done|].
  assert (Hcut : ∀ p l, b = p ++ rest → zlen p = l → 
    (zlen (f :: b) < 2 ^ 63 → peek (f :: b) = Ok (i64 (1 + l))) →
    ∃ data, f :: b = data ++ rest ∧ 0 < zlen data ∧ (zlen (f :: b) < 2 ^ 63 → peek (f :: b) = Ok (zlen data))).
  { intros p l -> <- Hp. exists (f :: p). split; [done|]. split; [unfold zlen; cbn [length]; lia|].
    intros Hl. rewrite Hp //. f_equal. rewrite i64_small; unfold zlen in *; cbn [length] in *; rewrite ?length_app in Hl; lia. }
  assert (Hwn : ∀ A (c : outcome string A) x, with_nil c = Ok x → c = Ok x) by (intros A [] ? [=]; congruence).
  intros H. destruct (decide (f = intFlag)) as [->|N1].
  { rewrite DecodeOne_int in H. apply bind_Ok in H as ([r v] & (p & ? & ?)%Hwn%DecodeInt_inv & [= <- <-]). by apply (Hcut p 8). }
  destruct (decide (f = uintFlag)) as [->|N2].
  { rewrite DecodeOne_uint in H. apply bind_Ok in H as ([r v] & (p & ? & ?)%Hwn%DecodeUint_inv & [= <- <-]). by apply (Hcut p 8). }
  destruct (decide (f = varintFlag)) as [->|N3].
  { rewrite DecodeOne_varint in H. apply bind_Ok in H as ([r v] & (p & ? & Hv & ?)%Hwn%DecodeVarint_inv & [= <- <-]).
    apply (Hcut p (zlen p)); [done..|]. intros _. change ((l ← peekVarint b; Ok (i64 (1 + l))) = Ok (i64 (1 + zlen p))).
    unfold peekVarint. by rewrite Hv decide_False; [|lia]. }
  destruct (decide (f = uvarintFlag)) as [->|N4].
  { rewrite DecodeOne_uvarint in H. apply bind_Ok in H as ([r v] & (p & ? & Hv & ?)%Hwn%DecodeUvarint_inv & [= <- <-]).
    apply (Hcut p (zlen p)); [done..|]. intros _. change ((l ← peekUvarint b; Ok (i64 (1 + l))) = Ok (i64 (1 + zlen p))).
    unfold peekUvarint. by rewrite Hv decide_False; [|lia]. }
  destruct (decide (f = floatFlag)) as [->|N5].
  { rewrite DecodeOne_float in H. apply bind_Ok in H as ([r v] & (p & ? & ?)%Hwn%DecodeFloat_inv & [= <- <-]). by apply (Hcut p 8). }
  destruct (decide (f = bytesFlag)) as [->|N6].
  { rewrite DecodeOne_bytes in H. apply bind_Ok in H as ([r v] & ->%Hwn%DecodeBytes_Ok & [= <- <-]).
    apply (Hcut (enc v) (zlen (enc v))); [done..|]. intros _.
    change ((l ← peekBytes (enc v ++ r); Ok (i64 (1 + l))) = Ok (i64 (1 + zlen (enc v)))). unfold peekBytes.
    pose proof (peekBytes_enc v (S (length (enc v ++ r))) [] r) as Hp. cbn [app] in Hp. change (zlen []) with 0 in Hp.
    rewrite Hp; [done|]. rewrite length_app. lia. }
  destruct (decide (f = compactBytesFlag)) as [->|N7].
  { rewrite DecodeOne_compact in H. apply bind_Ok in H as ([r v] & Hc%Hwn & [= <- <-]).
    apply DecodeCompactBytes_inv in Hc as (p & q & -> & Hp & Hv).
    apply (Hcut (p ++ q) (zlen p + zlen q)); [by rewrite app_assoc|unfold zlen; rewrite length_app; lia|]. intros Hl.
    change ((l ← peekCompactBytes (p ++ q ++ r); Ok (i64 (1 + l))) = Ok (i64 (1 + (zlen p + zlen q)))).
    unfold peekCompactBytes. unfold zlen in Hl. cbn [length] in Hl. rewrite !length_app in Hl.
    rewrite Hv decide_False; [|lia]. rewrite decide_False; [|lia]. rewrite (i64_small (zlen q + zlen p)) ?(i64_small (zlen p + zlen q));
      [|unfold zlen in *; lia..].
    rewrite decide_False; [done|]. unfold zlen. rewrite !length_app. lia. }
  destruct (decide (f = NilFlag)) as [->|N8]; [injection H as <- <-; by apply (Hcut [] 0)|].
  cbn [DecodeOne] in H. by rewrite !decide_False in H.
Qed.

(** On every slice [DecodeOne] accepts, valid encoding or not, [CutOne]
    cuts exactly the bytes [DecodeOne] consumed: at least one, and the rest is the
    rest [DecodeOne] returns. *)
Theorem CutOne_DecodeOne a b rest d :
  zlen b < 2 ^ 63 → DecodeOne a b = Ok (rest, d) →
  ∃ data, CutOne b = Ok (data, rest) ∧ b = data ++ rest ∧ 0 < zlen data.
Proof.
  intros Hl Hd. destruct (DecodeOne_inv a b rest d Hd) as (data & -> & Hpos & Hp). exists data. split; [|done].
  unfold CutOne. by rewrite Hp //= go_slice_first go_slice_rest.
Qed.

Lemma CutOne_DecodeOne_witness :
  ∃ data, CutOne [x02; x04; x61; x62; x09] = Ok (data, [x09]) ∧ [x02; x04; x61; x62; x09] = data ++ [x09] ∧ 0 < zlen data.
Proof. by apply (CutOne_DecodeOne amd64 [x02; x04; x61; x62; x09] [x09] (KindBytes [x61; x62])). Defined.

(** ** Termination *)

Lemma DecodeVarint_returns b : DecodeVarint b ≠ OutOfFuel.
Proof. unfold DecodeVarint. solve_returns. Qed.
Lemma DecodeUvarint_returns b : DecodeUvarint b ≠ OutOfFuel.
Proof. unfold DecodeUvarint. solve_returns. Qed.
Lemma DecodeUint_returns b : DecodeUint b ≠ OutOfFuel.
Proof. unfold DecodeUint. solve_returns. Qed.
Lemma DecodeInt_returns b : DecodeInt b ≠ OutOfFuel.
Proof. unfold DecodeInt. solve_returns. Qed.
Lemma SqlDecodeBytes_returns a b : DecodeBytes a b ≠ OutOfFuel.
Proof.
  unfold DecodeBytes, decodeBytes. apply bind_returns; [apply decodeBytes_loop_returns; lia|by intros []].
Qed.
Lemma with_nil_returns {A} (c : outcome string A) : c ≠ OutOfFuel → with_nil c ≠ OutOfFuel.
Proof. by destruct c. Qed.
#[local] Hint Resolve DecodeVarint_returns DecodeUvarint_returns DecodeUint_returns DecodeInt_returns
  SqlDecodeBytes_returns with_nil_returns : returns.

Lemma DecodeOne_returns a b : DecodeOne a b ≠ OutOfFuel.
Proof.
  destruct b as [|f b]; [done|]. cbn [DecodeOne]. unfold DecodeFloat, DecodeCompactBytes.
  repeat (case_decide; [apply bind_returns; [apply with_nil_returns|by intros []]; solve_returns|]). by case_decide.
Qed.

Lemma DecodeOne_shorter a b rest d : DecodeOne a b = Ok (rest, d) → (length rest < length b)%nat.
Proof. intros (data & -> & Hp & _)%DecodeOne_inv. unfold zlen in Hp. rewrite length_app. lia. Qed.

Lemma Decode_loop_returns a fuel b acc : (length b < fuel)%nat → Decode_loop a fuel b acc ≠ OutOfFuel.
Proof.
  revert b acc. induction fuel as [|fuel IH]; intros b acc Hf; [lia|]. cbn [Decode_loop]. case_decide; [|done].
  destruct (DecodeOne a b) as [[rest d]|[r e]|w|] eqn:E; try done.
  - apply DecodeOne_shorter in E. apply IH. lia.
  - by apply DecodeOne_returns in E.
Qed.
Lemma DecodeRange_loop_returns a fuel b acc : (length b < fuel)%nat → DecodeRange_loop a fuel b acc ≠ OutOfFuel.
Proof.
  revert b acc. induction fuel as [|fuel IH]; intros b acc Hf; [lia|]. cbn [DecodeRange_loop]. case_decide.
  - destruct (DecodeOne a b) as [[rest d]|[r e]|w|] eqn:E; try done.
    + apply DecodeOne_shorter in E. apply IH. lia.
    + by apply DecodeOne_returns in E.
  - destruct b as [|f [|]]; try done. repeat case_decide; done.
Qed.


(** ** Sizes *)

Lemma size_loop_PutUvarint n x s fuel :
  (n < fuel)%nat → 0 ≤ x < 2 ^ (7 * Z.of_nat (S n)) →
  size_loop fuel s (Z.shiftr x 7) = Ok (s - 1 + zlen (PutUvarint_loop (S n) x)).
Proof.
  revert x s fuel. induction n as [|n IH]; intros x s [|fuel] Hf Hx; try lia.
  - cbn [size_loop PutUvarint_loop]. rewrite decide_False; [|rewrite Z.shiftr_div_pow2 //; change (2 ^ (7 * Z.of_nat 1)) with 128 in Hx;
      rewrite Z.div_small; lia]. change (2 ^ (7 * Z.of_nat 1)) with 128 in Hx. rewrite decide_False; [|lia]. f_equal. unfold zlen. cbn [length]. lia.
  - cbn [size_loop]. remember (S n) as n' eqn:Hn. cbn [PutUvarint_loop]. rewrite Z.shiftr_div_pow2 //. change (2 ^ 7) with 128.
    case_decide as Hd; case_decide as Hx'.
    + subst n'. rewrite IH; [|lia|].
      * f_equal. unfold zlen. rewrite length_cons. lia.
      * split; [apply Z.div_pos; lia|]. apply Z.div_lt_upper_bound; [lia|].
        replace (7 * Z.of_nat (S (S n))) with (7 + 7 * Z.of_nat (S n)) in Hx by lia. rewrite Z.pow_add_r in Hx; lia.
    + rewrite Z.div_small in Hd; lia.
    + pose proof (Z.div_le_lower_bound x 128 1). lia.
    + f_equal. unfold zlen. cbn [length]. lia.
Qed.

Lemma valueSizeOfUnsignedInt_spec v : is_u64 v → valueSizeOfUnsignedInt v = Ok (1 + zlen (PutUvarint v)).
Proof.
  intros [H0 Hv]. unfold two64 in Hv. unfold valueSizeOfUnsignedInt, PutUvarint, MaxVarintLen64.
  rewrite (size_loop_PutUvarint 9); [f_equal; lia|lia|]. change (7 * Z.of_nat 10) with 70. lia.
Qed.

Lemma valueSizeOfSignedInt_spec v : is_i64 v → valueSizeOfSignedInt v = Ok (1 + zlen (PutVarint v)).
Proof.
  intros Hv. destruct (PutVarint_zigzag v Hv) as [Hz ->]. rewrite -valueSizeOfUnsignedInt_spec //.
  unfold valueSizeOfSignedInt, valueSizeOfUnsignedInt. f_equal. unfold is_i64 in Hv. rewrite !Z.shiftr_div_pow2 //.
  change (2 ^ 7) with (2 * 2 ^ 6). rewrite -Z.div_div //. f_equal. unfold zigzag. case_decide.
  - rewrite -(Z.div_unique (- 2 * v - 1) 2 (- v - 1) 1); [|lia..].
    destruct (decide (v = - 2 ^ 63)) as [->|]; [done|]. rewrite !i64_small; lia.
  - by rewrite -(Z.div_unique (2 * v) 2 v 0); [|lia..].
Qed.

Lemma valueSizeOfBytes_spec v :
  zlen v < 2 ^ 63 → valueSizeOfBytes v = Ok (zlen (encodeBytes [] v false)).
Proof.
  intros Hv. unfold valueSizeOfBytes. rewrite valueSizeOfSignedInt_spec; [|unfold is_i64, zlen in *; lia].
  cbn [mbind outcome_bind encodeBytes]. f_equal. unfold EncodeCompactBytes, EncodeVarint, zlen.
  rewrite !length_app. cbn [length app]. lia.
Qed.

(** [EstimateValueSize] is exact: it is the number of bytes [EncodeValue]
    appends for the datum, and both refuse the same kinds. *)
Theorem EstimateValueSize_exact d :
  datum_ok d →
  match EncodeValue [] [d] with
  | Ok k => EstimateValueSize d = Ok (zlen k)
  | Err _ => ∃ e, EstimateValueSize d = Err e
  | _ => False
  end.
Proof.
  intros Hd. unfold EncodeValue. rewrite encode_cons.
  destruct d; cbn [datum_ok encode_one EstimateValueSize encode mbind outcome_bind fmap outcome_fmap] in Hd |- *; try by eexists.
  all: rewrite ?app_nil_r; try done.
  - rewrite valueSizeOfSignedInt_spec //. f_equal. unfold zlen. cbn [encodeSignedInt EncodeVarint app length]. lia.
  - rewrite valueSizeOfUnsignedInt_spec //. f_equal. unfold zlen. cbn [encodeUnsignedInt EncodeUvarint app length]. lia.
  - by apply valueSizeOfBytes_spec.
  - by apply valueSizeOfBytes_spec.
Qed.

Lemma EstimateValueSize_exact_witness : EstimateValueSize (KindInt64 (-65)) = Ok 3.
Proof.
  apply (EstimateValueSize_exact (KindInt64 (-65))). cbn. unfold is_i64. lia.
Defined.
