(* ===== verification/SqlKey.v ===== *)
(** Keys and key ranges of the SQL layer: tinysql/kv/key.go. *)

From S2P Require Import Prelude.

(** ** Keys *)

(** [Key.Next]: the key with a zero byte behind it. *)
Definition Next (k : bytes) : bytes := k ++ [x00].

(** [buf[i]++] on a byte. *)
Definition incb (x : byte) : byte := z2b (b2z x + 1).

(** The loop of [PrefixNext] from index [n - 1] down; [true] when it ran off the
    front ([i == -1]). *)
Fixpoint PrefixNext_loop (n : nat) (buf : bytes) : bytes * bool :=
  match n with
  | O => (buf, true)
  | S i =>
    let buf := alter incb i buf in
    if decide (buf !! i ≠ Some x00) then (buf, false) else PrefixNext_loop i buf
  end.

Definition PrefixNext (k : bytes) : bytes :=
  let '(buf, off) := PrefixNext_loop (length k) k in
  if off then k ++ [x00] else buf.

Definition HasPrefix (k prefix : bytes) : bool := bool_decide (prefix `prefix_of` k).

(** ** Ranges *)

Record KeyRange := { StartKey : bytes; EndKey : bytes }.

(** The loop of [IsPoint] from index [n - 1] down: [None] is [return false] in
    the loop or an exhausted key, [Some i] the index it stopped at. *)
Fixpoint IsPoint_loop (n : nat) (s e : bytes) : option nat :=
  match n with
  | O => None
  | S i =>
    if decide (s !! i ≠ Some xff) then Some i
    else if decide (e !! i ≠ Some x00) then None
    else IsPoint_loop i s e
  end.

Definition IsPoint (r : KeyRange) : bool :=
  let s := StartKey r in
  let e := EndKey r in
  if decide (length s ≠ length e) then
    bool_decide (S (length s) = length e) && bool_decide (e !! length s = Some x00) && bool_decide (s = take (length s) e)
  else
    match IsPoint_loop (length s) s e with
    | None => false
    | Some i => bool_decide (incb <$> s !! i = e !! i) && bool_decide (take i s = take i e)
    end.

(** ** The carry of [PrefixNext] *)

(** A key is all [0xff], or it has a last byte that can be incremented. *)
Lemma key_cases (k : bytes) :
  (∃ n, k = replicate n xff) ∨ ∃ p c n, c ≠ xff ∧ k = p ++ c :: replicate n xff.
Proof.
  induction k as [|c k IH] using rev_ind; [left; by exists 0%nat|]. destruct (decide (c = xff)) as [->|Hc].
  - assert (Hr : ∀ n, replicate n xff ++ [xff] = replicate (S n) xff) by (intros n; by rewrite replicate_S_end).
    destruct IH as [[n ->]|(p & c & n & Hc & ->)]; [left; eauto|]. right. exists p, c, (S n). split; [done|].
    by rewrite -app_assoc -app_comm_cons Hr.
  - right. exists k, c, 0%nat. done.
Qed.

Lemma incb_ff c : c ≠ xff → incb c ≠ x00 ∧ b2z (incb c) = b2z c + 1.
Proof.
  intros Hc. assert (b2z c ≠ 255) by (intros E; apply Hc, (inj b2z), E). pose proof (b2z_range c).
  assert (Hb : b2z (incb c) = b2z c + 1) by (unfold incb; rewrite b2z_z2b Z.mod_small; lia).
  split; [|done]. intros E. rewrite E in Hb. change (b2z x00) with 0 in Hb. lia.
Qed.

Lemma PrefixNext_loop_ff p m n :
  PrefixNext_loop (length p + n) (p ++ replicate n xff ++ replicate m x00) =
    PrefixNext_loop (length p) (p ++ replicate (n + m) x00).
Proof.
  revert m. induction n as [|n IH]; intros m; [by rewrite Nat.add_0_r|]. rewrite Nat.add_succ_r. cbn [PrefixNext_loop].
  assert (Ha : alter incb (length p + n)%nat (p ++ replicate (S n) xff ++ replicate m x00) =
    p ++ replicate n xff ++ replicate (S m) x00).
  { rewrite alter_app_r. f_equal. rewrite replicate_S_end -app_assoc alter_app_r_alt length_replicate; [|done].
    by rewrite Nat.sub_diag. }
  rewrite Ha. destruct (decide _) as [Hd|_].
  - destruct Hd. rewrite lookup_app_r; [|lia]. rewrite lookup_app_r; rewrite length_replicate; [|lia].
    by replace (length p + n - length p - n)%nat with 0%nat by lia.
  - rewrite IH. do 3 f_equal. lia.
Qed.

Lemma PrefixNext_carry p c n : c ≠ xff → PrefixNext (p ++ c :: replicate n xff) = p ++ incb c :: replicate n x00.
Proof.
  intros Hc. unfold PrefixNext. pose proof (PrefixNext_loop_ff (p ++ [c]) 0 n) as H.
  rewrite !app_nil_r Nat.add_0_r -!app_assoc in H. cbn [app] in H. rewrite !length_app in H |- *. cbn [length] in H |- *.
  rewrite length_replicate. replace (length p + S n)%nat with (length p + 1 + n)%nat by lia. rewrite H.
  rewrite Nat.add_1_r. cbn [PrefixNext_loop].
  rewrite alter_app_r_alt // Nat.sub_diag. cbn [alter list_alter].
  destruct (decide _) as [_|[]]; [done|]. rewrite lookup_app_r // Nat.sub_diag. intros [= E]. by apply (incb_ff c Hc).
Qed.

Lemma PrefixNext_all_ff n : PrefixNext (replicate n xff) = replicate n xff ++ [x00].
Proof.
  unfold PrefixNext. pose proof (PrefixNext_loop_ff [] 0 n) as H. cbn [app length] in H. rewrite app_nil_r Nat.add_0_l in H.
  by rewrite length_replicate H.
Qed.

Lemma get_be_replicate n : get_be (replicate n x00) = 0 ∧ get_be (replicate n xff) = 256 ^ Z.of_nat n - 1.
Proof.
  induction n as [|n [IH0 IH1]]; [done|]. cbn [replicate]. rewrite !get_be_cons IH0 IH1. unfold zlen. rewrite !length_replicate.
  change (b2z x00) with 0. change (b2z xff) with 255. rewrite Nat2Z.inj_succ Z.pow_succ_r; lia.
Qed.

(** As a number, the next prefix is the next number. *)
Lemma PrefixNext_succ k :
  (∃ c, c ∈ k ∧ c ≠ xff) → length (PrefixNext k) = length k ∧ get_be (PrefixNext k) = get_be k + 1.
Proof.
  intros Hk. destruct (key_cases k) as [[n ->]|(p & c & n & Hc & ->)].
  { destruct Hk as (c & [-> _]%elem_of_replicate & Hc). done. }
  rewrite PrefixNext_carry // !length_app !length_cons !length_replicate. split; [done|].
  destruct (get_be_replicate n) as [H0 H1]. destruct (incb_ff c Hc) as [_ Hi].
  rewrite !get_be_app !get_be_cons H0 H1 Hi. unfold zlen. rewrite !length_cons !length_replicate. lia.
Qed.

(** [Next] is the successor of a key in byte order: it is larger, and no
    key lies between the two. *)
Lemma Next_successor k j : blt k (Next k) ∧ (blt k j → ble (Next k) j).
Proof.
  unfold Next, blt, ble. split.
  - rewrite -{1}(app_nil_r k) Compare_app_same. done.
  - intros Hlt. assert (Hc : Compare (k ++ []) (j ++ []) = Lt) by by rewrite !app_nil_r.
    clear Hlt. revert j Hc. induction k as [|x k IH]; intros [|y j] Hc; try done.
    + cbn. change (b2z x00) with 0. pose proof (b2z_range y). destruct (Z.compare_spec 0 (b2z y)); [|done|lia].
      apply Compare_nil_l.
    + cbn in Hc |- *. destruct (b2z x ?= b2z y); [|done|done]. by apply IH.
Qed.

(** [PrefixNext] bounds the keys with a prefix: among the keys at least as
    long as [k], those between [k] and [k.PrefixNext()] are exactly the ones that
    begin with [k], unless every byte of [k] is [0xff]. *)
Theorem PrefixNext_bounds k j :
  (∃ c, c ∈ k ∧ c ≠ xff) → (length k ≤ length j)%nat →
  ble k j ∧ blt j (PrefixNext k) ↔ HasPrefix j k = true.
Proof.
  intros Hk Hl. destruct (PrefixNext_succ k Hk) as [Hlen Hs].
  assert (Hj : ∃ j1 j2, j = j1 ++ j2 ∧ length j1 = length k).
  { exists (take (length k) j), (drop (length k) j). rewrite take_drop length_take. split; [done|lia]. }
  destruct Hj as (j1 & j2 & -> & Hj). unfold HasPrefix. rewrite bool_decide_eq_true.
  unfold ble, blt. rewrite -{1}(app_nil_r k) -(app_nil_r (PrefixNext k)) !Compare_app; [|lia..].
  rewrite (Compare_get_be k j1) ?(Compare_get_be j1 (PrefixNext k)); [|lia..]. rewrite Hs. split.
  - intros [H1 H2]. exists j2. f_equal. apply get_be_inj; [lia|].
    destruct (Z.compare_spec (get_be k) (get_be j1)), (Z.compare_spec (get_be j1) (get_be k + 1)); try done; try lia.
    by destruct j2.
  - intros [t Ht]. apply app_inj_1 in Ht as [-> ->]; [|done]. rewrite Z.compare_refl. split; [by destruct t|].
    by destruct (Z.compare_spec (get_be k) (get_be k + 1)); [lia| |lia].
Qed.

Lemma PrefixNext_bounds_witness :
  ble [x61; xff] [x61; xff; x05] ∧ blt [x61; xff; x05] (PrefixNext [x61; xff]).
Proof.
  apply (PrefixNext_bounds [x61; xff] [x61; xff; x05]); [|cbn; lia|done]. exists x61. by split; [apply list_elem_of_here|].
Defined.

(** ** Points *)

Lemma IsPoint_loop_ff p q n z t u :
  length q = length p → length z = n →
  IsPoint_loop (length p + n) (p ++ replicate n xff ++ t) (q ++ z ++ u) =
    if decide (z = replicate n x00) then IsPoint_loop (length p) (p ++ replicate n xff ++ t) (q ++ z ++ u) else None.
Proof.
  intros Hq. revert z t u. induction n as [|n IH]; intros z t u Hz.
  { destruct z; [|done]. by rewrite Nat.add_0_r. }
  destruct z as [|y z _] using rev_ind; [done|]. rewrite length_app Nat.add_1_r in Hz. injection Hz as Hz.
  rewrite Nat.add_succ_r replicate_S_end -!app_assoc. cbn [app IsPoint_loop].
  assert (Hlk : ∀ (a b c : bytes) v, length a = length p → length b = n → (a ++ b ++ v :: c) !! (length p + n)%nat = Some v).
  { intros a b c v Ha Hb. rewrite lookup_app_r; [|lia]. rewrite lookup_app_r; [|lia].
    by replace (length p + n - length a - length b)%nat with 0%nat by lia. }
  rewrite (Hlk p) ?length_replicate // (Hlk q) //. destruct (decide (Some xff ≠ Some xff)); [done|].
  rewrite IH //. destruct (decide (Some y ≠ Some x00)) as [Hy|Hy].
  - rewrite decide_False //. intros E. rewrite replicate_S_end in E. apply app_inj_2 in E as [_ [= ->]]; [|done]. by destruct Hy.
  - destruct (decide (y = x00)) as [->|]; [|destruct Hy; congruence]. rewrite replicate_S_end.
    destruct (decide (z = replicate n x00)) as [->|Hne]; [by rewrite decide_True|].
    rewrite decide_False //. by intros [? _]%app_inj_2.
Qed.

Lemma IsPoint_carry p c n e :
  c ≠ xff → length (p ++ c :: replicate n xff) = length e →
  match IsPoint_loop (length (p ++ c :: replicate n xff)) (p ++ c :: replicate n xff) e with
  | None => false
  | Some i =>
    bool_decide (incb <$> (p ++ c :: replicate n xff) !! i = e !! i) &&
    bool_decide (take i (p ++ c :: replicate n xff) = take i e)
  end = true ↔ e = p ++ incb c :: replicate n x00.
Proof.
  intros Hc Hle. rewrite length_app length_cons length_replicate in Hle |- *.
  assert (He : ∃ q d z, e = q ++ d :: z ∧ length q = length p ∧ length z = n).
  { destruct (drop (length p) e) as [|d z] eqn:E; [apply (f_equal length) in E; rewrite length_drop in E; cbn in E; lia|].
    exists (take (length p) e), d, z. apply (f_equal length) in E as E'. rewrite length_drop in E'. cbn in E'.
    rewrite -E take_drop length_take. split_and!; [done|lia|lia]. }
  destruct He as (q & d & z & -> & Hq & Hz).
  pose proof (IsPoint_loop_ff (p ++ [c]) (q ++ [d]) n z [] []) as H. rewrite !length_app !app_nil_r -!app_assoc in H.
  cbn [app length] in H. replace (length p + S n)%nat with (length p + 1 + n)%nat by lia. rewrite H; [|lia|done]. clear H.
  rewrite Nat.add_1_r. cbn [IsPoint_loop]. rewrite lookup_app_r // Nat.sub_diag. cbn [lookup list_lookup].
  destruct (decide (Some c ≠ Some xff)) as [_|Hn]; [|destruct Hn; congruence].
  destruct (decide (z = replicate n x00)) as [->|Hnz].
  - rewrite andb_true_iff !bool_decide_eq_true lookup_app_r // Nat.sub_diag lookup_app_r ?Hq // Nat.sub_diag take_app_length.
    rewrite take_app_length' //. cbn. split; [intros [[= ->] ->]; done|]. intros [-> [= ->]]%app_inj_1; done.
  - split; [done|]. intros [_ [= _ ?]]%app_inj_1; done.
Qed.

(** [IsPoint] decides, without building a key, whether the range ends at
    the successor of its start or at the next prefix of its start. *)
Theorem IsPoint_equiv r :
  IsPoint r = bool_decide (EndKey r = Next (StartKey r) ∨ EndKey r = PrefixNext (StartKey r)).
Proof.
  destruct r as [s e]. unfold IsPoint. cbn [StartKey EndKey]. apply eq_true_iff_eq. rewrite bool_decide_eq_true.
  assert (Hnext : length s ≠ length e → e = PrefixNext s → e = Next s).
  { intros Hl ->. destruct (key_cases s) as [[n ->]|(p & c & n & Hc & ->)]; [by rewrite PrefixNext_all_ff|].
    destruct Hl. rewrite PrefixNext_carry // !length_app !length_cons !length_replicate //. }
  destruct (decide (length s ≠ length e)) as [Hl|Hl].
  - rewrite !andb_true_iff !bool_decide_eq_true. split.
    + intros [[H1 H2] H3]. left. unfold Next. rewrite -{1}(take_drop (length s) e) -H3. f_equal.
      rewrite (drop_S e x00) // drop_ge //. lia.
    + intros H. assert (e = Next s) as -> by (destruct H; auto). unfold Next. rewrite length_app Nat.add_1_r.
      split; [split; [done|by rewrite lookup_app_r // Nat.sub_diag]|by rewrite take_app_length].
  - assert (Hle : length s = length e) by (destruct (decide (length s = length e)); [done|by destruct Hl]). clear Hl Hnext.
    assert (Hn : e ≠ Next s) by (intros ->; unfold Next in Hle; rewrite length_app in Hle; cbn in Hle; lia).
    transitivity (e = PrefixNext s); [|naive_solver].
    destruct (key_cases s) as [[n ->]|(p & c & n & Hc & ->)].
    + rewrite PrefixNext_all_ff length_replicate in Hle |- *. pose proof (IsPoint_loop_ff [] [] n e [] [] eq_refl (eq_sym Hle)) as H.
      cbn [app length] in H. rewrite !app_nil_r Nat.add_0_l in H. rewrite H. cbn [IsPoint_loop].
      split; [by case_decide|]. intros ->. rewrite length_app length_replicate in Hle. cbn in Hle. lia.
    + rewrite PrefixNext_carry //. by apply IsPoint_carry.
Qed.
