(* ===== verification/TableCodec.v ===== *)
(** Row and index keys of the SQL layer: tinysql/tablecodec/tablecodec.go, with
    the index keys that tinysql/table/tables/index.go builds from them.

    A row key is t{table}_r{handle}, an index key t{table}_i{index}{values}; the
    numbers are [codec.EncodeInt] fields.  A class of error stands for the error
    with its text. *)

From S2P Require Import Prelude Codec SqlNumber SqlBytes SqlCodec SqlKey.

Definition tablePrefix : bytes := [x74].
Definition recordPrefixSep : bytes := [x5f; x72].
Definition indexPrefixSep : bytes := [x5f; x69].
Definition idLen : Z := 8.
Definition prefixLen : Z := 1 + idLen + 2.
Definition RecordRowKeyLen : Z := prefixLen + idLen.

Definition errInvalidKey : string := "invalid key".
Definition errInvalidRecordKey : string := "invalid record key".
Definition errInvalidIndexKey : string := "invalid index key".

(** ** Encoding *)

Definition appendTableRecordPrefix (buf : bytes) (tableID : Z) : bytes :=
  EncodeInt (buf ++ tablePrefix) tableID ++ recordPrefixSep.
Definition appendTableIndexPrefix (buf : bytes) (tableID : Z) : bytes :=
  EncodeInt (buf ++ tablePrefix) tableID ++ indexPrefixSep.

Definition EncodeRowKeyWithHandle (tableID handle : Z) : bytes :=
  EncodeInt (appendTableRecordPrefix [] tableID) handle.
Definition EncodeRowKey (tableID : Z) (encodedHandle : bytes) : bytes :=
  appendTableRecordPrefix [] tableID ++ encodedHandle.
Definition EncodeRecordKey (recordPrefix : bytes) (h : Z) : bytes := EncodeInt recordPrefix h.
Definition EncodeIndexSeekKey (tableID idxID : Z) (encodedValue : bytes) : bytes :=
  EncodeInt (appendTableIndexPrefix [] tableID) idxID ++ encodedValue.
Definition EncodeTableIndexPrefix (tableID idxID : Z) : bytes := EncodeInt (appendTableIndexPrefix [] tableID) idxID.
Definition EncodeTablePrefix (tableID : Z) : bytes := EncodeInt tablePrefix tableID.
Definition GenTableRecordPrefix (tableID : Z) : bytes := appendTableRecordPrefix [] tableID.
Definition GenTableIndexPrefix (tableID : Z) : bytes := appendTableIndexPrefix [] tableID.
Definition GenTablePrefix (tableID : Z) : bytes := EncodeInt ([] ++ tablePrefix) tableID.

(** [binary.BigEndian.PutUint64(buf[len(tablePrefix):], u)] on a buffer that is
    long enough. *)
Definition ReplaceRecordKeyTableID (buf : bytes) (tableID : Z) : bytes :=
  if decide (zlen buf < zlen tablePrefix + 8) then buf
  else take 1 buf ++ PutUint64 (EncodeIntToCmpUint tableID) ++ drop 9 buf.

(** ** Decoding *)

Definition hasTablePrefix (key : bytes) : outcome string bool :=
  c ← go_index key 0; Ok (bool_decide (c = x74)).
(** [&&] reads the second byte only behind the first test. *)
Definition hasRecordPrefixSep (key : bytes) : outcome string bool :=
  c ← go_index key 0;
  if decide (c = x5f) then d ← go_index key 1; Ok (bool_decide (d = x72)) else Ok false.

Definition DecodeRecordKey (key : bytes) : outcome string (Z * Z) :=
  if decide (zlen key ≤ prefixLen) then Err errInvalidRecordKey
  else
    p ← hasTablePrefix key;
    if negb p then Err errInvalidRecordKey
    else
      key ← go_slice key 1 (zlen key);
      '(key, tableID) ← DecodeInt key;
      s ← hasRecordPrefixSep key;
      if negb s then Err errInvalidRecordKey
      else
        key ← go_slice key 2 (zlen key);
        '(_, handle) ← DecodeInt key;
        Ok (tableID, handle).

Definition DecodeKeyHead (key : bytes) : outcome string (Z * Z * bool) :=
  if negb (HasPrefix key tablePrefix) then Err errInvalidKey
  else
    key ← go_slice key 1 (zlen key);
    '(key, tableID) ← DecodeInt key;
    if HasPrefix key recordPrefixSep then Ok (tableID, 0, true)
    else if negb (HasPrefix key indexPrefixSep) then Err errInvalidKey
    else
      key ← go_slice key 2 (zlen key);
      '(_, indexID) ← DecodeInt key;
      Ok (tableID, indexID, false).

Definition DecodeIndexKeyPrefix (key : bytes) : outcome string (Z * Z * bytes) :=
  '(tableID, indexID, isRecord) ← DecodeKeyHead key;
  if (isRecord : bool) then Err errInvalidIndexKey
  else indexValues ← go_slice key (prefixLen + idLen) (zlen key); Ok (tableID, indexID, indexValues).

(** An undecodable key is logged and gives 0. *)
Definition DecodeTableID (key : bytes) : outcome string Z :=
  if negb (HasPrefix key tablePrefix) then Ok 0
  else
    key ← go_slice key 1 (zlen key);
    match DecodeInt key with Ok (_, tableID) => Ok tableID | Err _ => Ok 0 | Panic w => Panic w | OutOfFuel => OutOfFuel end.

Definition DecodeRowKey (key : bytes) : outcome string Z :=
  if decide (zlen key ≠ RecordRowKeyLen) then Err errInvalidKey
  else
    p ← hasTablePrefix key;
    if negb p then Err errInvalidKey
    else
      k ← go_slice key (prefixLen - 2) (zlen key);
      s ← hasRecordPrefixSep k;
      if negb s then Err errInvalidKey
      else
        k ← go_slice key prefixLen (zlen key);
        u ← Uint64 k;
        Ok (DecodeCmpUintToInt u).

Definition CutRowKeyPrefix (key : bytes) : outcome string bytes := go_slice key prefixLen (zlen key).
Definition CutIndexPrefix (key : bytes) : outcome string bytes := go_slice key (prefixLen + idLen) (zlen key).

(** The loop of [CutIndexKeyNew] over [length] columns. *)
Fixpoint CutIndexKey_loop (n : nat) (values : list bytes) (b : bytes) : outcome string (list bytes * bytes) :=
  match n with
  | O => Ok (values, b)
  | S n => '(val, b) ← CutOne b; CutIndexKey_loop n (values ++ [val]) b
  end.
Definition CutIndexKeyNew (key : bytes) (length : nat) : outcome string (list bytes * bytes) :=
  b ← go_slice key (prefixLen + idLen) (zlen key); CutIndexKey_loop length [] b.

Inductive PrimaryKeyStatus := PrimaryKeyNotExists | PrimaryKeyIsSigned | PrimaryKeyIsUnsigned.
#[export] Instance PrimaryKeyStatus_eq_dec : EqDecision PrimaryKeyStatus.
Proof. solve_decision. Defined.

(** [binary.Read] of an [int64]: the first eight bytes, or an error. *)
Definition DecodeIndexValueAsHandle (data : bytes) : outcome string Z :=
  if decide (zlen data = 0) then Err "EOF"
  else if decide (zlen data < 8) then Err "unexpected EOF"
  else u ← Uint64 data; Ok (i64 u).

Definition DecodeIndexKV (key value : bytes) (colsLen : nat) (pkStatus : PrimaryKeyStatus) : outcome string (list bytes) :=
  '(values, b) ← CutIndexKeyNew key colsLen;
  if decide (0 < zlen b) then
    if decide (pkStatus ≠ PrimaryKeyNotExists) then Ok (values ++ [b]) else Ok values
  else if decide (pkStatus ≠ PrimaryKeyNotExists) then
    handle ← DecodeIndexValueAsHandle value;
    let handleDatum := if decide (pkStatus = PrimaryKeyIsUnsigned) then KindUint64 (u64 handle) else KindInt64 handle in
    handleBytes ← EncodeValue [] [handleDatum];
    Ok (values ++ [handleBytes])
  else Ok values.

Section arch.
Context (a : goarch).

(** [unflatten] returns its datum unchanged. *)
Definition DecodeColumnValue (data : bytes) : outcome string Datum :=
  match DecodeOne a data with
  | Ok (_, d) => Ok d | Err (_, e) => Err e | Panic w => Panic w | OutOfFuel => OutOfFuel
  end.

Definition DecodeIndexHandle (key value : bytes) (colsLen : nat) : outcome string Z :=
  '(_, b) ← CutIndexKeyNew key colsLen;
  if decide (0 < zlen b) then d ← DecodeColumnValue b; Ok (GetInt64 d)
  else if decide (8 ≤ zlen value) then DecodeIndexValueAsHandle value
  else Err "no handle in index key".
End arch.

Definition UnCommitIndexKVFlag : byte := x31.

Definition IsIndexKey (k : bytes) : bool :=
  bool_decide (11 < zlen k ∧ k !! 0%nat = Some x74 ∧ k !! 10%nat = Some x69).
Definition IsUntouchedIndexKValue (k v : bytes) : bool :=
  IsIndexKey k && bool_decide ((zlen v = 1 ∨ zlen v = 9) ∧ last v = Some UnCommitIndexKVFlag).

Definition TruncateToRowKeyLen (key : bytes) : bytes :=
  if decide (RecordRowKeyLen < zlen key) then take (Z.to_nat RecordRowKeyLen) key else key.

Definition GetTableHandleKeyRange (tableID : Z) : bytes * bytes :=
  (EncodeRowKeyWithHandle tableID (- 2 ^ 63), EncodeRowKeyWithHandle tableID (2 ^ 63 - 1)).
Definition GetTableIndexKeyRange (tableID indexID : Z) : bytes * bytes :=
  (EncodeIndexSeekKey tableID indexID [], EncodeIndexSeekKey tableID indexID [xff]).

(** ** Index entries (table/tables/index.go) *)

Definition EncodeHandle (h : Z) : bytes := PutUint64 (u64 h).
Definition DecodeHandle (data : bytes) : outcome string Z := u ← Uint64 data; Ok (i64 u).

(** [GenIndexKey] of an index whose columns are indexed in full (no column has a
    prefix length, so [TruncateIndexValuesIfNeeded] changes nothing): the key, and
    whether the values alone identify the entry. *)
Definition GenIndexKey (prefix : bytes) (unique : bool) (indexedValues : list Datum) (h : Z) : outcome string (bytes * bool) :=
  let distinct := unique && forallb (λ cv, negb (bool_decide (cv = KindNull))) indexedValues in
  key ← EncodeKey prefix indexedValues;
  key ← (if distinct then Ok key else EncodeKey key [KindInt64 h]);
  Ok (key, distinct).

(** ** Fields *)

Lemma DecodeInt_iff b rest v : DecodeInt b = Ok (rest, v) ↔ is_i64 v ∧ b = EncodeInt [] v ++ rest.
Proof.
  split; [|intros [Hv ->]; by apply DecodeInt_EncodeInt]. unfold DecodeInt. case_decide as Hl; [done|].
  unfold zlen in Hl. unfold Uint64. rewrite decide_True; [|lia]. cbn [mbind outcome_bind]. intros [= <- <-].
  assert (Ht : length (take 8 b) = 8%nat) by (rewrite length_take; lia).
  pose proof (get_be_bound (take 8 b)) as Hb. unfold zlen in Hb. rewrite Ht in Hb. change (256 ^ Z.of_nat 8) with (2 ^ 64) in Hb.
  assert (Hu : is_u64 (get_be (take 8 b))) by (unfold is_u64, two64; lia). rewrite DecodeCmpUintToInt_val //.
  assert (Hi : is_i64 (get_be (take 8 b) - 2 ^ 63)) by (unfold is_i64; lia). split; [done|].
  pose proof (put_get_be (take 8 b)) as Hp. rewrite Ht in Hp.
  unfold EncodeInt, PutUint64. by rewrite app_nil_l EncodeIntToCmpUint_val // Z.sub_add Hp take_drop.
Qed.

Lemma length_EncodeInt v : length (EncodeInt [] v) = 8%nat.
Proof. unfold EncodeInt. by rewrite app_nil_l length_PutUint64. Qed.

Lemma row_key_shape t h : EncodeRowKeyWithHandle t h = x74 :: EncodeInt [] t ++ x5f :: x72 :: EncodeInt [] h.
Proof.
  unfold EncodeRowKeyWithHandle, appendTableRecordPrefix, EncodeInt, tablePrefix, recordPrefixSep. by rewrite -!app_assoc.
Qed.
Lemma index_key_shape t i v : EncodeIndexSeekKey t i v = x74 :: EncodeInt [] t ++ x5f :: x69 :: EncodeInt [] i ++ v.
Proof.
  unfold EncodeIndexSeekKey, appendTableIndexPrefix, EncodeInt, tablePrefix, indexPrefixSep. by rewrite -!app_assoc.
Qed.

Lemma hasTablePrefix_cons c k : hasTablePrefix (c :: k) = Ok (bool_decide (c = x74)).
Proof. done. Qed.
Lemma hasRecordPrefixSep_cons c d k : hasRecordPrefixSep (c :: d :: k) = Ok (bool_decide (c = x5f ∧ d = x72)).
Proof.
  unfold hasRecordPrefixSep. rewrite (go_index_ok _ 0 c) //. cbn [mbind outcome_bind]. destruct (decide (c = x5f)) as [->|Hc].
  - rewrite (go_index_ok _ 1 d) //. cbn [mbind outcome_bind]. f_equal. apply bool_decide_ext. naive_solver.
  - by rewrite bool_decide_false; [|naive_solver].
Qed.
Lemma zlen_EncodeInt v : zlen (EncodeInt [] v) = 8.
Proof. unfold zlen. by rewrite length_EncodeInt. Qed.
Lemma Uint64_EncodeInt v : is_i64 v → Uint64 (E:=string) (EncodeInt [] v) = Ok (EncodeIntToCmpUint v).
Proof.
  intros Hv. unfold EncodeInt. rewrite app_nil_l -(app_nil_r (PutUint64 _)). by apply Uint64_PutUint64, EncodeIntToCmpUint_range.
Qed.

(** Eight bytes are the field of a number. *)
Lemma Int_field (k : bytes) :
  length k = 8%nat → ∃ v, is_i64 v ∧ k = EncodeInt [] v ∧ Uint64 (E:=string) k = Ok (EncodeIntToCmpUint v).
Proof.
  intros Hk. assert (Hd : ∃ v, DecodeInt k = Ok ([], v)).
  { unfold DecodeInt, zlen. case_decide; [lia|]. unfold Uint64. case_decide; [|lia].
    cbn [mbind outcome_bind]. rewrite drop_ge; [|lia]. by eexists. }
  destruct Hd as [v [Hv ->]%DecodeInt_iff]. exists v. rewrite app_nil_r. split; [done|]. split; [done|]. by apply Uint64_EncodeInt.
Qed.

Lemma zlen_row c t d e h rest : zlen (c :: EncodeInt [] t ++ d :: e :: EncodeInt [] h ++ rest) = 19 + zlen rest.
Proof. unfold zlen. rewrite length_cons length_app length_EncodeInt 2!length_cons length_app length_EncodeInt. lia. Qed.
#[local] Opaque EncodeInt.

Lemma DecodeRecordKey_iff key t h :
  DecodeRecordKey key = Ok (t, h) ↔
  is_i64 t ∧ is_i64 h ∧ ∃ rest, key = EncodeRowKeyWithHandle t h ++ rest.
Proof.
  unfold DecodeRecordKey, prefixLen, idLen. split.
  - case_decide as Hl; [done|]. destruct key as [|c key]; [done|]. rewrite hasTablePrefix_cons. cbn [mbind outcome_bind].
    case_bool_decide as Hc; [subst c|done]. cbn [negb]. rewrite go_slice_1. cbn [mbind outcome_bind].
    intros ([k t'] & (Ht & ->)%DecodeInt_iff & H)%bind_Ok. rewrite zlen_cons zlen_app zlen_EncodeInt in Hl.
    destruct k as [|d [|e k]]; [rewrite /zlen /= in Hl; lia..|]. rewrite hasRecordPrefixSep_cons in H. cbn [mbind outcome_bind] in H.
    case_bool_decide as Hs; [destruct Hs as [-> ->]|done]. cbn [negb] in H. rewrite go_slice_2 in H. cbn [mbind outcome_bind] in H.
    apply bind_Ok in H as ([r h'] & (Hh & ->)%DecodeInt_iff & [= <- <-]). split; [done|]. split; [done|].
    exists r. rewrite row_key_shape. cbn [app]. by rewrite -app_assoc.
  - intros (Ht & Hh & rest & ->). rewrite row_key_shape. cbn [app]. rewrite -app_assoc. cbn [app].
    rewrite decide_False; [|rewrite zlen_row; pose proof (zlen_nonneg rest); lia].
    rewrite hasTablePrefix_cons. cbn [mbind outcome_bind]. rewrite bool_decide_true //. cbn [negb].
    rewrite go_slice_1 /= DecodeInt_EncodeInt //. cbn [mbind outcome_bind].
    rewrite hasRecordPrefixSep_cons. cbn [mbind outcome_bind]. rewrite bool_decide_true //. cbn [negb].
    by rewrite go_slice_2 /= DecodeInt_EncodeInt.
Qed.

(** The parts of a row key that [DecodeRowKey] looks at. *)
Lemma row_key_slices (k1 : bytes) d e k2 :
  length k1 = 8%nat →
  go_slice (E:=string) (x74 :: k1 ++ d :: e :: k2) 9 (zlen (x74 :: k1 ++ d :: e :: k2)) = Ok (d :: e :: k2) ∧
  go_slice (E:=string) (x74 :: k1 ++ d :: e :: k2) 11 (zlen (x74 :: k1 ++ d :: e :: k2)) = Ok k2.
Proof.
  intros H1. rewrite !go_slice_drop; try (rewrite zlen_cons zlen_app !zlen_cons /zlen H1; lia).
  do 9 (destruct k1 as [|? k1]; [try done|]); done.
Qed.

Lemma DecodeRowKey_iff key h :
  DecodeRowKey key = Ok h ↔ is_i64 h ∧ ∃ t, is_i64 t ∧ key = EncodeRowKeyWithHandle t h.
Proof.
  unfold DecodeRowKey, RecordRowKeyLen, prefixLen, idLen. change (1 + 8 + 2 + 8) with 19. change (1 + 8 + 2 - 2) with 9.
  change (1 + 8 + 2) with 11. split.
  - destruct (decide (zlen key ≠ 19)) as [|Hl]; [done|]. assert (Hlen : length key = 19%nat) by (unfold zlen in Hl; lia). clear Hl.
    destruct key as [|c key]; [done|]. rewrite hasTablePrefix_cons. cbn [mbind outcome_bind].
    case_bool_decide as Hc; [subst c|done]. cbn [negb]. injection Hlen as Hlen.
    assert (Hk : ∃ k1 d e k2, key = k1 ++ d :: e :: k2 ∧ length k1 = 8%nat ∧ length k2 = 8%nat).
    { do 8 (destruct key as [|? key]; [done|]). destruct key as [|d [|e key]]; [done..|].
      eexists [_; _; _; _; _; _; _; _], d, e, key. split; [reflexivity|]. split; [done|]. cbn in Hlen. lia. }
    destruct Hk as (k1 & d & e & k2 & -> & H1 & H2).
    destruct (Int_field k1 H1) as (t & Ht & -> & _). destruct (Int_field k2 H2) as (v & Hv & -> & Hu).
    destruct (row_key_slices (EncodeInt [] t) d e (EncodeInt [] v)) as [-> ->]; [apply length_EncodeInt|]. cbn [mbind outcome_bind].
    rewrite hasRecordPrefixSep_cons. cbn [mbind outcome_bind]. case_bool_decide as Hs; [destruct Hs as [-> ->]|done]. cbn [negb].
    rewrite Hu. cbn [mbind outcome_bind]. intros [= <-]. rewrite EncodeIntToCmpUint_val // DecodeCmpUintToInt_val.
    + rewrite Z.add_simpl_r. split; [done|]. exists t. by rewrite row_key_shape.
    + unfold is_i64 in Hv. unfold is_u64, two64. lia.
  - intros (Hh & t & Ht & ->). rewrite row_key_shape. case_decide as Hl.
    { destruct Hl. rewrite -(app_nil_r (EncodeInt [] h)). by rewrite zlen_row. }
    rewrite hasTablePrefix_cons. cbn [mbind outcome_bind]. rewrite bool_decide_true //. cbn [negb].
    destruct (row_key_slices (EncodeInt [] t) x5f x72 (EncodeInt [] h)) as [E1 E2]; [apply length_EncodeInt|].
    rewrite E1 E2. cbn [mbind outcome_bind]. rewrite hasRecordPrefixSep_cons. cbn [mbind outcome_bind].
    rewrite bool_decide_true //. cbn [negb]. rewrite Uint64_EncodeInt //. cbn [mbind outcome_bind].
    rewrite DecodeCmpUintToInt_val; [|by apply EncodeIntToCmpUint_range]. rewrite EncodeIntToCmpUint_val //. f_equal. lia.
Qed.

Lemma HasPrefix_iff k p : HasPrefix k p = true ↔ ∃ r, k = p ++ r.
Proof. unfold HasPrefix. by rewrite bool_decide_eq_true. Qed.
Lemma HasPrefix_app p r : HasPrefix (p ++ r) p = true.
Proof. apply HasPrefix_iff. eauto. Qed.

Lemma DecodeKeyHead_index t i v : is_i64 t → is_i64 i → DecodeKeyHead (EncodeIndexSeekKey t i v) = Ok (t, i, false).
Proof.
  intros Ht Hi. rewrite index_key_shape. unfold DecodeKeyHead.
  rewrite (HasPrefix_app tablePrefix). cbn [negb]. rewrite go_slice_1 /= DecodeInt_EncodeInt //. cbn [mbind outcome_bind].
  replace (HasPrefix (x5f :: x69 :: EncodeInt [] i ++ v) recordPrefixSep) with false.
  2: { symmetry. apply not_true_iff_false. by intros [r [=]]%HasPrefix_iff. }
  rewrite (HasPrefix_app indexPrefixSep). cbn [negb]. by rewrite go_slice_2 /= DecodeInt_EncodeInt.
Qed.

Lemma DecodeIndexKeyPrefix_iff key t i v :
  DecodeIndexKeyPrefix key = Ok (t, i, v) ↔ is_i64 t ∧ is_i64 i ∧ key = EncodeIndexSeekKey t i v.
Proof.
  unfold DecodeIndexKeyPrefix, prefixLen, idLen. change (1 + 8 + 2 + 8) with 19.
  assert (Hs : ∀ t i v, go_slice (E:=string) (EncodeIndexSeekKey t i v) 19 (zlen (EncodeIndexSeekKey t i v)) = Ok v).
  { clear. intros t i v. rewrite index_key_shape.
    rewrite go_slice_drop; [|rewrite zlen_row; pose proof (zlen_nonneg v); lia]. done. }
  split.
  - unfold DecodeKeyHead. destruct (HasPrefix key tablePrefix) eqn:E; [|done]. cbn [negb].
    apply HasPrefix_iff in E as [k ->]. cbn [tablePrefix app]. rewrite go_slice_1. cbn [mbind outcome_bind].
    destruct (DecodeInt k) as [[k' t']|?|?|] eqn:Et; [|done..]. apply DecodeInt_iff in Et as [Ht ->]. cbn [mbind outcome_bind].
    destruct (HasPrefix k' recordPrefixSep); [done|]. destruct (HasPrefix k' indexPrefixSep) eqn:E; [|done]. cbn [negb].
    apply HasPrefix_iff in E as [k2 ->]. cbn [indexPrefixSep app]. rewrite go_slice_2. cbn [mbind outcome_bind].
    destruct (DecodeInt k2) as [[k3 i']|?|?|] eqn:Ei; [|done..]. apply DecodeInt_iff in Ei as [Hi ->]. cbn [mbind outcome_bind].
    rewrite -index_key_shape Hs. cbn [mbind outcome_bind]. by intros [= <- <- <-].
  - intros (Ht & Hi & ->). rewrite DecodeKeyHead_index //. cbn [mbind outcome_bind]. by rewrite Hs.
Qed.

(** The decoders of table keys accept exactly the keys the encoders
    produce.  [DecodeRowKey] yields a handle only for the row key of that handle in
    some table, [DecodeRecordKey] only for a row key that more bytes may follow,
    [DecodeIndexKeyPrefix] only for an index key, of which it returns the values. *)
Theorem table_keys_decode key t h i v :
  (DecodeRowKey key = Ok h ↔ is_i64 h ∧ ∃ t, is_i64 t ∧ key = EncodeRowKeyWithHandle t h) ∧
  (DecodeRecordKey key = Ok (t, h) ↔ is_i64 t ∧ is_i64 h ∧ ∃ rest, key = EncodeRowKeyWithHandle t h ++ rest) ∧
  (DecodeIndexKeyPrefix key = Ok (t, i, v) ↔ is_i64 t ∧ is_i64 i ∧ key = EncodeIndexSeekKey t i v).
Proof. split; [apply DecodeRowKey_iff|]. split; [apply DecodeRecordKey_iff|apply DecodeIndexKeyPrefix_iff]. Qed.

(** ** Order *)

Lemma table_prefix_compare t1 t2 x y :
  is_i64 t1 → is_i64 t2 →
  Compare (EncodeTablePrefix t1 ++ x) (EncodeTablePrefix t2 ++ y) = match t1 ?= t2 with Eq => Compare x y | c => c end.
Proof. intros H1 H2. unfold EncodeTablePrefix. by apply EncodeInt_compare. Qed.

(** Tables are laid out one after the other: row keys compare by table and
    then by handle, and the index keys of a table lie below its rows and above
    everything of the tables before it. *)
Theorem row_key_order t1 h1 t2 h2 i v :
  is_i64 t1 → is_i64 h1 → is_i64 t2 → is_i64 h2 → is_i64 i →
  Compare (EncodeRowKeyWithHandle t1 h1) (EncodeRowKeyWithHandle t2 h2) =
    (match t1 ?= t2 with Eq => h1 ?= h2 | c => c end) ∧
  Compare (EncodeIndexSeekKey t1 i v) (EncodeRowKeyWithHandle t2 h2) =
    (match t1 ?= t2 with Eq => Lt | c => c end).
Proof.
  intros Ht1 Hh1 Ht2 Hh2 Hi.
  assert (Hr : ∀ t h, EncodeRowKeyWithHandle t h = EncodeTablePrefix t ++ x5f :: x72 :: EncodeInt [] h) by (intros; by rewrite row_key_shape).
  assert (Hx : EncodeIndexSeekKey t1 i v = EncodeTablePrefix t1 ++ x5f :: x69 :: EncodeInt [] i ++ v) by by rewrite index_key_shape.
  rewrite !Hr Hx !table_prefix_compare //. split; [|by destruct (t1 ?= t2)].
  cbn [Compare]. rewrite !Z.compare_refl.
  pose proof (EncodeInt_compare [] h1 h2 [] [] Hh1 Hh2) as Hc. rewrite !app_nil_r in Hc. rewrite Hc.
  destruct (t1 ?= t2), (h1 ?= h2); done.
Qed.

Lemma row_key_order_witness :
  Compare (EncodeRowKeyWithHandle 1 (-5)) (EncodeRowKeyWithHandle 1 7) = Lt ∧
  Compare (EncodeIndexSeekKey 1 2 []) (EncodeRowKeyWithHandle 1 7) = Lt.
Proof. by apply (row_key_order 1 (-5) 1 7 2 []); unfold is_i64. Defined.

(** ** Index entries *)

Lemma CutOne_encode_one d d' k rest :
  datum_ok d → decoded d = Some d' → encode_one [] d true = Ok k → zlen (k ++ rest) < 2 ^ 63 →
  CutOne (k ++ rest) = Ok (k, rest).
Proof.
  intros Hd Hd' Hk Hl. destruct (DecodeOne_encode_one amd64 d d' true Hd Hd') as (k' & Hk' & Hdec).
  rewrite Hk in Hk'. simplify_eq. specialize (Hdec rest).
  destruct (DecodeOne_inv amd64 _ _ _ Hdec) as (data & E & _ & Hp). apply app_inv_tail in E as <-.
  unfold CutOne. by rewrite Hp //= go_slice_first go_slice_rest.
Qed.

Lemma CutIndexKey_loop_encode vs vs' k rest acc :
  Forall datum_ok vs → Forall2 (λ d v, decoded d = Some v) vs vs' → encode [] vs true = Ok k → zlen (k ++ rest) < 2 ^ 63 →
  ∃ ks, CutIndexKey_loop (length vs) acc (k ++ rest) = Ok (acc ++ ks, rest) ∧
    Forall2 (λ d kd, encode_one [] d true = Ok kd) vs ks.
Proof.
  intros Ho Hd. revert k acc Ho. induction Hd as [|d d' vs vs' Hd Hds IH]; intros k acc Ho Hk Hl.
  { cbn in Hk. simplify_eq. exists []. rewrite app_nil_r. done. }
  apply Forall_cons in Ho as [Hod Ho]. rewrite encode_cons in Hk.
  destruct (encode_one [] d true) as [kd|?|?|] eqn:Ekd; [|done..]. cbn [mbind outcome_bind] in Hk.
  destruct (encode [] vs true) as [kv|?|?|] eqn:Ekv; [|done..]. cbn in Hk. simplify_eq.
  cbn [length CutIndexKey_loop]. rewrite -app_assoc in Hl |- *. rewrite (CutOne_encode_one d d') //. cbn [mbind outcome_bind].
  destruct (IH kv (acc ++ [kd]) Ho eq_refl) as (ks & -> & Hks).
  { rewrite zlen_app in Hl. pose proof (zlen_nonneg kd). lia. }
  exists (kd :: ks). rewrite -app_assoc. by split; [|constructor].
Qed.

Lemma index_key_prefix t i x : EncodeTableIndexPrefix t i ++ x = EncodeIndexSeekKey t i x.
Proof. done. Qed.

Lemma zlen_index_prefix t i : zlen (EncodeTableIndexPrefix t i) = 19.
Proof.
  rewrite -(app_nil_r (EncodeTableIndexPrefix t i)) index_key_prefix index_key_shape. by rewrite zlen_row.
Qed.

Lemma CutIndexKeyNew_key t i vs vs' k rest :
  Forall datum_ok vs → Forall2 (λ d v, decoded d = Some v) vs vs' → encode [] vs true = Ok k →
  zlen (EncodeTableIndexPrefix t i ++ k ++ rest) < 2 ^ 63 →
  ∃ ks, CutIndexKeyNew (EncodeTableIndexPrefix t i ++ k ++ rest) (length vs) = Ok (ks, rest) ∧
    Forall2 (λ d kd, encode_one [] d true = Ok kd) vs ks.
Proof.
  intros Ho Hd Hk Hl. unfold CutIndexKeyNew, prefixLen, idLen. change (1 + 8 + 2 + 8) with 19.
  rewrite -{1}(zlen_index_prefix t i) go_slice_rest. cbn [mbind outcome_bind].
  apply (CutIndexKey_loop_encode vs vs' k rest []); [done..|]. rewrite zlen_app zlen_index_prefix in Hl. lia.
Qed.

Lemma DecodeHandle_EncodeHandle h : is_i64 h → DecodeIndexValueAsHandle (EncodeHandle h) = Ok h.
Proof.
  intros Hh. unfold DecodeIndexValueAsHandle, EncodeHandle.
  assert (Hl : zlen (PutUint64 (u64 h)) = 8) by (unfold zlen; by rewrite length_PutUint64).
  rewrite Hl. rewrite -(app_nil_r (PutUint64 (u64 h))) Uint64_PutUint64; [|apply u64_range]. cbn. by rewrite i64_u64.
Qed.


