(* ===== verification/BTree.v ===== *)
(** The B-tree of the scheduler and the raft store: scheduler/pkg/btree/btree.go,
    with the counts that give the index of an item.

    A node is a value: which tree may write a node in place (copy-on-write
    contexts) and which nodes are kept for reuse (free lists) are left out.  The
    recursion goes down the tree, so it is given its height as fuel; an index out
    of range panics.  An iterator is a function of the state its closure
    captures, and says whether to go on. *)

From S2P Require Import Prelude.

Module btree.
#[local] Notation run := (outcome Empty_set).

(** [Item]: a strict weak ordering. *)
Class Item (A : Type) := Less : A → A → bool.
Class ItemOrder (A : Type) `{!Item A} : Prop := {
  Less_irrefl a : Less a a = false;
  Less_trans a b c : Less a b = true → Less b c = true → Less a c = true;
  Less_between a b c : Less a c = true → Less a b = true ∨ Less b c = true
}.

Section BTree.
Context {A : Type} `{!Item A}.

(** ** Slices *)

Definition at_index {X} (s : list X) (i : nat) : run X :=
  match s !! i with Some x => Ok x | None => Panic "index out of range" end.
Definition set_index {X} (s : list X) (i : nat) (x : X) : run (list X) :=
  if decide (i < length s)%nat then Ok (<[i := x]> s) else Panic "index out of range".

Definition insertAt {X} (s : list X) (index : nat) (item : X) : run (list X) :=
  if decide (index ≤ length s)%nat then Ok (take index s ++ item :: drop index s) else Panic "index out of range".
Definition removeAt {X} (s : list X) (index : nat) : run (X * list X) :=
  item ← at_index s index; Ok (item, delete index s).
Definition pop {X} (s : list X) : run (X * list X) :=
  match last s with Some out => Ok (out, take (length s - 1) s) | None => Panic "index out of range" end.
Definition truncate {X} (s : list X) (index : nat) : run (list X) :=
  if decide (index ≤ length s)%nat then Ok (take index s) else Panic "slice bounds out of range".

(** [sort.Search]: the least index in [[i, j)] where [f] holds, by bisection. *)
Fixpoint search (fuel : nat) (f : nat → bool) (i j : nat) : nat :=
  match fuel with
  | O => i
  | S fuel => if decide (i < j)%nat then let h := ((i + j) / 2)%nat in if f h then search fuel f i h else search fuel f (S h) j else i
  end.
Definition Search (n : nat) (f : nat → bool) : nat := search n f 0 n.

Definition find (s : list A) (item : A) : nat * bool :=
  let i := Search (length s) (λ h, match s !! h with Some x => Less item x | None => false end) in
  match i with
  | O => (O, false)
  | S j => match s !! j with Some x => if Less x item then (i, false) else (j, true) | None => (i, false) end
  end.

(** ** Indices *)

Definition addAt (s : list Z) (index : nat) (delta : Z) : list Z :=
  imap (λ i v, if decide (index ≤ i)%nat then v + delta else v) s.
(** The loop goes from the end down. *)
Definition ix_insertAt (s : list Z) (index : nat) (sz : Z) : list Z :=
  let s := s ++ [-1] in
  let lo := Nat.max index 1 in
  let s := foldl (λ s i, <[i := (s !!! (i - 1)%nat) + sz + 1]> s) s (rev (seq lo (length s - lo))) in
  if decide (index = 0)%nat then <[O := sz]> s else s.
Definition push (s : list Z) (sz : Z) : list Z :=
  match last s with None => s ++ [sz] | Some x => s ++ [x + 1 + sz] end.
Definition ix_split (s : list Z) (index : nat) (nextSize : Z) : run (list Z) :=
  let s := ix_insertAt s (S index) (-1) in
  x ← at_index s index;
  set_index s index (x - (1 + nextSize)).
Definition ix_merge (s : list Z) (index : nat) : run (list Z) :=
  let s := foldl (λ s i, <[i := s !!! S i]> s) s (seq index (length s - 1 - index)) in
  if decide (0 < length s)%nat then Ok (take (length s - 1) s) else Panic "slice bounds out of range".
Definition ix_removeAt (s : list Z) (index : nat) : run (Z * list Z) :=
  x ← at_index s index;
  sz ← (if decide (0 < index)%nat then y ← at_index s (index - 1); Ok (x - y - 1) else Ok x);
  let s := foldl (λ s i, <[(i - 1)%nat := (s !!! i) - sz - 1]> s) s (seq (S index) (length s - S index)) in
  Ok (sz, take (length s - 1) s).
Definition ix_pop (s : list Z) : run (Z * list Z) :=
  '(out, rest) ← pop s;
  match last rest with Some y => Ok (out - (y + 1), rest) | None => Ok (out, rest) end.
(** [sort.SearchInts], then the comparison. *)
Definition ix_find (s : list Z) (k : Z) : run (nat * bool) :=
  let i := Search (length s) (λ h, match s !! h with Some x => bool_decide (k ≤ x) | None => false end) in
  x ← at_index s i;
  Ok (i, bool_decide (x = k)).

(** ** Nodes *)

#[local] Set Warnings "-register-all".
Inductive node := mkNode (its : list A) (chs : list node) (ixs : list Z).
Definition items (n : node) : list A := let 'mkNode its _ _ := n in its.
Definition children (n : node) : list node := let 'mkNode _ chs _ := n in chs.
Definition indices (n : node) : list Z := let 'mkNode _ _ ixs := n in ixs.
Implicit Types n : node.

Definition node_length n : Z := match last (indices n) with None => zlen (items n) | Some x => x end.

Definition initSize n : node :=
  mkNode (items n) (children n)
    (match children n with
     | [] => []
     | c :: cs => foldl (λ s c, push s (node_length c)) [node_length c] cs
     end).

(** The item at the index, the node with what is before it, and a new one. *)
Definition split n (i : nat) : run (node * (A * node)) :=
  item ← at_index (items n) i;
  its ← truncate (items n) i;
  match children n with
  | [] => Ok (mkNode its [] (indices n), (item, mkNode (drop (S i) (items n)) [] []))
  | _ =>
    let next := initSize (mkNode (drop (S i) (items n)) (drop (S i) (children n)) []) in
    chs ← truncate (children n) (S i);
    ixs ← truncate (indices n) (S i);
    Ok (mkNode its chs ixs, (item, next))
  end.

Definition maybeSplitChild n (i maxItems : nat) : run (node * bool) :=
  c ← at_index (children n) i;
  if decide (length (items c) < maxItems)%nat then Ok (n, false)
  else
    '(first, (item, second)) ← split c (maxItems / 2);
    its ← insertAt (items n) i item;
    chs ← set_index (children n) i first;
    chs ← insertAt chs (S i) second;
    ixs ← ix_split (indices n) i (node_length second);
    Ok (mkNode its chs ixs, true).

(** The last lines of [insert]. *)
Definition insert_child (ins : node → run (node * option A)) n (i : nat) : run (node * option A) :=
  c ← at_index (children n) i;
  '(c, out) ← ins c;
  chs ← set_index (children n) i c;
  Ok (mkNode (items n) chs (match out with None => addAt (indices n) i 1 | Some _ => indices n end), out).

Fixpoint insert (fuel : nat) n (item : A) (maxItems : nat) : run (node * option A) :=
  match fuel with
  | O => OutOfFuel
  | S fuel =>
    let '(i, found) := find (items n) item in
    if found then
      out ← at_index (items n) i;
      its ← set_index (items n) i item;
      Ok (mkNode its (children n) (indices n), Some out)
    else if decide (length (children n) = 0)%nat then
      its ← insertAt (items n) i item;
      Ok (mkNode its (children n) (indices n), None)
    else
      let down := insert_child (λ c, insert fuel c item maxItems) in
      '(n, splitted) ← maybeSplitChild n i maxItems;
      if (splitted : bool) then
        inTree ← at_index (items n) i;
        if Less item inTree then down n i
        else if Less inTree item then down n (S i)
        else its ← set_index (items n) i item; Ok (mkNode its (children n) (indices n), Some inTree)
      else down n i
  end.

Fixpoint getAt (fuel : nat) n (k : Z) : run (option A) :=
  match fuel with
  | O => OutOfFuel
  | S fuel =>
    if decide (node_length n ≤ k ∨ k < 0) then Ok None
    else if decide (length (children n) = 0)%nat then x ← at_index (items n) (Z.to_nat k); Ok (Some x)
    else
      '(i, found) ← ix_find (indices n) k;
      if (found : bool) then x ← at_index (items n) i; Ok (Some x)
      else if decide (i = 0)%nat then c ← at_index (children n) 0; getAt fuel c k
      else
        c ← at_index (children n) i;
        y ← at_index (indices n) (i - 1);
        getAt fuel c (k - y - 1)
  end.

Fixpoint getWithIndex (fuel : nat) n (key : A) : run (option A * Z) :=
  match fuel with
  | O => OutOfFuel
  | S fuel =>
    let '(i, found) := find (items n) key in
    if found then
      rk ← (if decide (0 < length (indices n))%nat then at_index (indices n) i else Ok (Z.of_nat i));
      x ← at_index (items n) i;
      Ok (Some x, rk)
    else if decide (0 < length (children n))%nat then
      c ← at_index (children n) i;
      '(out, rk) ← getWithIndex fuel c key;
      if decide (0 < i)%nat then y ← at_index (indices n) (i - 1); Ok (out, rk + (y + 1)) else Ok (out, rk)
    else Ok (None, Z.of_nat i)
  end.

Fixpoint get (fuel : nat) n (key : A) : run (option A) :=
  match fuel with
  | O => OutOfFuel
  | S fuel =>
    let '(i, found) := find (items n) key in
    if found then x ← at_index (items n) i; Ok (Some x)
    else if decide (0 < length (children n))%nat then c ← at_index (children n) i; get fuel c key
    else Ok None
  end.

(** [min] and [max] of a node; a nil node has none. *)
Fixpoint node_min (fuel : nat) n : run (option A) :=
  match fuel with
  | O => OutOfFuel
  | S fuel => match children n with c :: _ => node_min fuel c | [] => Ok (head (items n)) end
  end.
Fixpoint node_max (fuel : nat) n : run (option A) :=
  match fuel with
  | O => OutOfFuel
  | S fuel => match last (children n) with Some c => node_max fuel c | None => Ok (last (items n)) end
  end.

(** ** Removing *)

Inductive toRemove := removeItem (item : A) | removeMin | removeMax.

Definition stealLeft n (i : nat) : run node :=
  child ← at_index (children n) i;
  stealFrom ← at_index (children n) (i - 1);
  '(stolenItem, sits) ← pop (items stealFrom);
  y ← at_index (items n) (i - 1);
  cits ← insertAt (items child) 0 y;
  its ← set_index (items n) (i - 1) stolenItem;
  x ← at_index (indices n) (i - 1);
  ixs ← set_index (indices n) (i - 1) (x - 1);
  if decide (0 < length (children stealFrom))%nat then
    '(sc, schs) ← pop (children stealFrom);
    cchs ← insertAt (children child) 0 sc;
    '(stealSize, sixs) ← ix_pop (indices stealFrom);
    x ← at_index ixs (i - 1);
    ixs ← set_index ixs (i - 1) (x - stealSize);
    let cixs := ix_insertAt (indices child) 0 stealSize in
    chs ← set_index (children n) i (mkNode cits cchs cixs);
    chs ← set_index chs (i - 1) (mkNode sits schs sixs);
    Ok (mkNode its chs ixs)
  else
    chs ← set_index (children n) i (mkNode cits (children child) (indices child));
    chs ← set_index chs (i - 1) (mkNode sits (children stealFrom) (indices stealFrom));
    Ok (mkNode its chs ixs).

Definition stealRight n (i : nat) : run node :=
  child ← at_index (children n) i;
  stealFrom ← at_index (children n) (S i);
  '(stolenItem, sits) ← removeAt (items stealFrom) 0;
  y ← at_index (items n) i;
  let cits := items child ++ [y] in
  its ← set_index (items n) i stolenItem;
  x ← at_index (indices n) i;
  ixs ← set_index (indices n) i (x + 1);
  if decide (0 < length (children stealFrom))%nat then
    '(sc, schs) ← removeAt (children stealFrom) 0;
    let cchs := children child ++ [sc] in
    '(stealSize, sixs) ← ix_removeAt (indices stealFrom) 0;
    x ← at_index ixs i;
    ixs ← set_index ixs i (x + stealSize);
    let cixs := push (indices child) stealSize in
    chs ← set_index (children n) i (mkNode cits cchs cixs);
    chs ← set_index chs (S i) (mkNode sits schs sixs);
    Ok (mkNode its chs ixs)
  else
    chs ← set_index (children n) i (mkNode cits (children child) (indices child));
    chs ← set_index chs (S i) (mkNode sits (children stealFrom) (indices stealFrom));
    Ok (mkNode its chs ixs).

(** Children [i] and [i + 1] with the item between them. *)
Definition mergeRight n (i : nat) : run node :=
  child ← at_index (children n) i;
  '(mergeItem, its) ← removeAt (items n) i;
  '(mergeChild, chs) ← removeAt (children n) (S i);
  let cits := items child ++ mergeItem :: items mergeChild in
  let cchs := children child ++ children mergeChild in
  let cixs := foldl (λ s nn, push s (node_length nn)) (indices child) (children mergeChild) in
  chs ← set_index chs i (mkNode cits cchs cixs);
  ixs ← ix_merge (indices n) i;
  Ok (mkNode its chs ixs).

(** [growChildAndRemove] before it removes again. *)
Definition growChild n (i minItems : nat) : run node :=
  let can_spare j := c ← at_index (children n) j; Ok (bool_decide (minItems < length (items c))%nat) in
  left ← (if decide (0 < i)%nat then can_spare (i - 1)%nat else Ok false);
  if (left : bool) then stealLeft n i
  else
    right ← (if decide (i < length (items n))%nat then can_spare (S i) else Ok false);
    if (right : bool) then stealRight n i
    else if decide (length (items n) ≤ i)%nat then if decide (i = 0)%nat then Panic "index out of range" else mergeRight n (i - 1)
    else mergeRight n i.

(** The child to remove from; [found]: the item to remove is at that index. *)
Definition remove_at n (typ : toRemove) : nat * bool :=
  match typ with
  | removeMax => (length (items n), false)
  | removeMin => (O, false)
  | removeItem item => find (items n) item
  end.

(** The end of [remove], where the child can spare an item: the item at the index
    is replaced by its predecessor, or the item is removed from the child. *)
Definition remove_pred (rem : node → run (node * option A)) n (i : nat) : run (node * option A) :=
  child ← at_index (children n) i;
  out ← at_index (items n) i;
  '(child, pred) ← rem child;
  its ← (match pred with Some x => set_index (items n) i x | None => Panic "nil item" end);
  chs ← set_index (children n) i child;
  Ok (mkNode its chs (addAt (indices n) i (-1)), Some out).
Definition remove_child (rem : node → run (node * option A)) n (i : nat) : run (node * option A) :=
  child ← at_index (children n) i;
  '(child, out) ← rem child;
  chs ← set_index (children n) i child;
  Ok (mkNode (items n) chs (match out with Some _ => addAt (indices n) i (-1) | None => indices n end), out).

Fixpoint remove (fuel : nat) n (minItems : nat) (typ : toRemove) : run (node * option A) :=
  match fuel with
  | O => OutOfFuel
  | S fuel =>
    let '(i, found) := remove_at n typ in
    if decide (length (children n) = 0)%nat then
      match typ with
      | removeMax => '(out, its) ← pop (items n); Ok (mkNode its (children n) (indices n), Some out)
      | removeMin => '(out, its) ← removeAt (items n) 0; Ok (mkNode its (children n) (indices n), Some out)
      | removeItem _ =>
        if found then '(out, its) ← removeAt (items n) i; Ok (mkNode its (children n) (indices n), Some out)
        else Ok (n, None)
      end
    else
      child ← at_index (children n) i;
      if decide (length (items child) ≤ minItems)%nat then
        n ← growChild n i minItems;
        remove fuel n minItems typ
      else if found then remove_pred (λ c, remove fuel c minItems removeMax) n i
      else remove_child (λ c, remove fuel c minItems typ) n i
  end.

(** ** Iterating *)

Inductive direction := descend | ascend.

(** A loop over indices whose body may return. *)
Fixpoint for_indices {St} (is_ : list nat) (body : nat → St → run (St * bool)) (st : St) : run (St * bool) :=
  match is_ with
  | [] => Ok (st, true)
  | i :: is_ => '(st, ok) ← body i st; if (ok : bool) then for_indices is_ body st else Ok (st, false)
  end.

Section Iterate.
Context {St : Type} (iter : St → A → St * bool) (start stop : option A) (includeStart : bool).
Implicit Types hs : bool * St.

Definition starts_after (x : A) : bool := match start with Some p => Less p x | None => true end.

(** One item with the child before or after it; the state is [hit] and what the
    iterator has. *)
Definition ascend_item (child : bool * St → nat → run (bool * St * bool)) n (i : nat) hs : run (bool * St * bool) :=
  '(hs, ok) ← child hs i;
  if negb ok then Ok (hs, false)
  else
    x ← at_index (items n) i;
    if negb includeStart && negb (hs.1) && negb (starts_after x) then Ok ((true, hs.2), true)
    else if match stop with Some p => negb (Less x p) | None => false end then Ok ((true, hs.2), false)
    else let '(s, go) := iter (hs.2) x in Ok ((true, s), go).
Definition descend_item (child : bool * St → nat → run (bool * St * bool)) n (i : nat) hs : run (bool * St * bool) :=
  x ← at_index (items n) i;
  if match start with Some p => negb (Less x p) && (negb includeStart || hs.1 || Less p x) | None => false end then Ok (hs, true)
  else
    '(hs, ok) ← child hs (S i);
    if negb ok then Ok (hs, false)
    else if match stop with Some p => negb (Less p x) | None => false end then Ok (hs, false)
    else let '(s, go) := iter (hs.2) x in Ok ((true, s), go).

Fixpoint iterate (fuel : nat) (dir : direction) n hs : run (bool * St * bool) :=
  match fuel with
  | O => OutOfFuel
  | S fuel =>
    let child hs i :=
      if decide (0 < length (children n))%nat then c ← at_index (children n) i; iterate fuel dir c hs else Ok (hs, true) in
    match dir with
    | ascend =>
      let index := match start with Some p => (find (items n) p).1 | None => O end in
      '(hs, ok) ← for_indices (seq index (length (items n) - index)) (ascend_item child n) hs;
      if negb ok then Ok (hs, false) else child hs (length (children n) - 1)%nat
    | descend =>
      let count := match start with
                   | Some p => let '(index, found) := find (items n) p in if (found : bool) then S index else index
                   | None => length (items n)
                   end in
      '(hs, ok) ← for_indices (rev (seq 0 count)) (descend_item child n) hs;
      if negb ok then Ok (hs, false) else child hs O
    end
  end.
End Iterate.

(** ** Trees *)

Record BTree := mkBTree { degree : nat; length_ : Z; root : option node }.
Implicit Types t : BTree.

Definition New (degree : nat) : run BTree :=
  if decide (degree ≤ 1)%nat then Panic "bad degree" else Ok (mkBTree degree 0 None).

Definition maxItems t : nat := degree t * 2 - 1.
Definition minItems t : nat := degree t - 1.

(** The height of a node, the fuel of a walk down the tree; removing visits a node
    twice. *)
Fixpoint height n : nat := let 'mkNode _ chs _ := n in S (foldr Nat.max O (height <$> chs)).
Definition remove_fuel n : nat := height n * 2.

Definition ReplaceOrInsert t (item : A) : run (BTree * option A) :=
  match root t with
  | None => Ok (mkBTree (degree t) (length_ t + 1) (Some (mkNode [item] [] [])), None)
  | Some r =>
    r ← (if decide (maxItems t ≤ length (items r))%nat then
           '(oldroot, (item2, second)) ← split r (maxItems t / 2);
           Ok (initSize (mkNode [item2] [oldroot; second] []))
         else Ok r);
    '(r, out) ← insert (height r) r item (maxItems t);
    Ok (mkBTree (degree t) (match out with None => length_ t + 1 | Some _ => length_ t end) (Some r), out)
  end.

Definition deleteItem t (typ : toRemove) : run (BTree * option A) :=
  match root t with
  | None => Ok (t, None)
  | Some r =>
    if decide (length (items r) = 0)%nat then Ok (t, None)
    else
      '(r, out) ← remove (remove_fuel r) r (minItems t) typ;
      r ← (if decide (length (items r) = 0 ∧ 0 < length (children r))%nat then at_index (children r) 0 else Ok r);
      Ok (mkBTree (degree t) (match out with Some _ => length_ t - 1 | None => length_ t end) (Some r), out)
  end.
Definition Delete t (item : A) : run (BTree * option A) := deleteItem t (removeItem item).
Definition DeleteMin t : run (BTree * option A) := deleteItem t removeMin.
Definition DeleteMax t : run (BTree * option A) := deleteItem t removeMax.

Section Walk.
Context {St : Type}.
Implicit Types (iterator : St → A → St * bool) (s : St).
Definition walk t (dir : direction) (start stop : option A) (includeStart : bool) iterator s : run St :=
  match root t with
  | None => Ok s
  | Some r => '(hs, _) ← iterate iterator start stop includeStart (height r) dir r (false, s); Ok (hs.2)
  end.
Definition AscendRange t (greaterOrEqual lessThan : A) iterator s : run St :=
  walk t ascend (Some greaterOrEqual) (Some lessThan) true iterator s.
Definition AscendLessThan t (pivot : A) iterator s : run St := walk t ascend None (Some pivot) false iterator s.
Definition AscendGreaterOrEqual t (pivot : A) iterator s : run St := walk t ascend (Some pivot) None true iterator s.
Definition Ascend t iterator s : run St := walk t ascend None None false iterator s.
Definition DescendRange t (lessOrEqual greaterThan : A) iterator s : run St :=
  walk t descend (Some lessOrEqual) (Some greaterThan) true iterator s.
Definition DescendLessOrEqual t (pivot : A) iterator s : run St := walk t descend (Some pivot) None true iterator s.
Definition DescendGreaterThan t (pivot : A) iterator s : run St := walk t descend None (Some pivot) false iterator s.
Definition Descend t iterator s : run St := walk t descend None None false iterator s.
End Walk.

Definition Get t (key : A) : run (option A) := match root t with None => Ok None | Some r => get (height r) r key end.
Definition GetWithIndex t (key : A) : run (option A * Z) :=
  match root t with None => Ok (None, 0) | Some r => getWithIndex (height r) r key end.
Definition GetAt t (k : Z) : run (option A) := match root t with None => Ok None | Some r => getAt (height r) r k end.
Definition Min t : run (option A) := match root t with None => Ok None | Some r => node_min (height r) r end.
Definition Max t : run (option A) := match root t with None => Ok None | Some r => node_max (height r) r end.
Definition Has t (key : A) : run bool := x ← Get t key; Ok (match x with Some _ => true | None => false end).
Definition Len t : Z := length_ t.
Definition Clear t : BTree := mkBTree (degree t) 0 None.
End BTree.
Arguments node : clear implicits.
Arguments BTree : clear implicits.
End btree.
