(* ===== verification/BTreeSpec.v ===== *)
(** The B-tree of scheduler/pkg/btree is a sorted sequence: every operation
    returns, keeps the shape and the counts of the tree, and does to the sequence
    of its items what it should. *)

From S2P Require Import Prelude BTree.
Import btree.

(** ** The indices of a node *)

(** The indices of the items between subtrees of the given sizes. *)
Fixpoint index_from (acc : Z) (ss : list Z) : list Z :=
  match ss with [] => [] | s :: ss => (acc + s) :: index_from (acc + s + 1) ss end.
Notation index_of := (index_from 0).
Definition total (ss : list Z) : Z := foldr (λ s t, s + 1 + t) 0 ss.

Lemma length_index_from acc ss : length (index_from acc ss) = length ss.
Proof. revert acc. induction ss as [|s ss IH]; intros acc; cbn; [done|]. by rewrite IH. Qed.
Lemma total_app a b : total (a ++ b) = total a + total b.
Proof. unfold total. induction a as [|s a IH]; cbn; [done|]. rewrite IH. lia. Qed.
Lemma index_from_app acc a b : index_from acc (a ++ b) = index_from acc a ++ index_from (acc + total a) b.
Proof.
  revert acc. induction a as [|s a IH]; intros acc; cbn; [by rewrite Z.add_0_r|]. rewrite IH. do 3 f_equal. unfold total. cbn. lia.
Qed.
Lemma index_from_shift acc d ss : index_from (acc + d) ss = (λ v, v + d) <$> index_from acc ss.
Proof.
  revert acc. induction ss as [|s ss IH]; intros acc; cbn; [done|]. rewrite -IH. f_equal; [lia|]. f_equal. lia.
Qed.
Lemma index_mid a s b : index_of (a ++ s :: b) = index_of a ++ (total a + s) :: index_from (total a + s + 1) b.
Proof. by rewrite index_from_app. Qed.
Lemma lookup_index_mid a s b : index_of (a ++ s :: b) !! length a = Some (total a + s).
Proof. rewrite index_mid lookup_app_r length_index_from // Nat.sub_diag //. Qed.
Lemma last_index a s : last (index_of (a ++ [s])) = Some (total a + s).
Proof. by rewrite index_mid last_snoc. Qed.

Lemma push_index a s : push (index_of a) s = index_of (a ++ [s]).
Proof.
  destruct a as [|x a] using rev_ind; [done|]. unfold push. rewrite last_index !index_mid. cbn. f_equal. rewrite total_app. cbn. f_equal. lia.
Qed.
Lemma foldl_push {X} (f : X → Z) a cs : foldl (λ s c, push s (f c)) (index_of a) cs = index_of (a ++ (f <$> cs)).
Proof.
  revert a. induction cs as [|c cs IH]; intros a; cbn; [by rewrite app_nil_r|]. by rewrite push_index IH -app_assoc.
Qed.

Lemma addAt_index a s b d : addAt (index_of (a ++ s :: b)) (length a) d = index_of (a ++ (s + d) :: b).
Proof.
  unfold addAt. rewrite !index_mid imap_app. f_equal.
  - apply list_eq. intros i. rewrite list_lookup_imap. destruct (index_of a !! i) as [v|] eqn:E; [|done]. cbn.
    apply lookup_lt_Some in E. rewrite length_index_from in E. by destruct (decide (length a ≤ i)%nat); [lia|].
  - replace (total a + (s + d) + 1) with ((total a + s + 1) + d) by lia. rewrite (index_from_shift (total a + s + 1) d). cbn.
    destruct (decide _) as [_|H]; [|rewrite length_index_from in H; lia]. f_equal; [lia|].
    apply list_eq. intros i. rewrite list_lookup_imap list_lookup_fmap. destruct (index_from _ b !! i) as [v|]; [|done]. cbn.
    destruct (decide _) as [_|H]; [done|rewrite length_index_from in H; lia].
Qed.

(** Moving items between two neighbouring subtrees changes the index between
    them. *)
Lemma move_index a s1 s2 b w :
  set_index (index_of (a ++ s1 :: s2 :: b)) (length a) w = Ok (index_of (a ++ (w - total a) :: (s1 + s2 + total a - w) :: b)).
Proof.
  unfold set_index. destruct (decide _) as [_|H].
  - f_equal. rewrite !index_mid insert_app_r_alt length_index_from // Nat.sub_diag. cbn. f_equal. f_equal; [lia|].
    f_equal; [lia|]. f_equal. lia.
  - exfalso. apply H. rewrite length_index_from length_app. cbn. lia.
Qed.
Lemma at_index_mid a s b : at_index (index_of (a ++ s :: b)) (length a) = Ok (total a + s).
Proof. unfold at_index. by rewrite lookup_index_mid. Qed.

(** ** The loops over indices *)

Lemma shift_up (f : Z → Z) s lo k :
  (0 < lo)%nat → (lo + k ≤ length s)%nat →
  foldl (λ s i, <[i := f (s !!! (i - 1)%nat)]> s) s (rev (seq lo k)) = take lo s ++ (f <$> take k (drop (lo - 1) s)) ++ drop (lo + k) s.
Proof.
  intros Hlo. revert s. induction k as [|k IH]; intros s Hk; [cbn; by rewrite Nat.add_0_r take_drop|].
  rewrite seq_S rev_app_distr. cbn [rev app foldl]. rewrite IH; [|rewrite length_insert; lia].
  destruct (lookup_lt_is_Some_2 s (lo + k - 1)) as [v Hv]; [lia|]. rewrite (list_lookup_total_correct _ _ _ Hv).
  rewrite take_insert_ge; [|lia]. f_equal. rewrite drop_insert_ge; [|lia]. rewrite take_insert_ge; [|lia].
  rewrite drop_insert_ge; [|lia]. rewrite Nat.sub_diag.
  rewrite (take_S_r _ k v); [|rewrite lookup_drop -Hv; f_equal; lia]. rewrite fmap_app -app_assoc. f_equal. cbn.
  destruct (lookup_lt_is_Some_2 s (lo + k)) as [w Hw]; [lia|]. rewrite (drop_S _ w) //. cbn. do 2 f_equal. lia.
Qed.

Lemma ix_insertAt_index0 a s : ix_insertAt (index_of a) 0 s = index_of (s :: a).
Proof.
  unfold ix_insertAt. cbn [Nat.max]. rewrite (shift_up (λ v, v + s + 1)); [|lia|rewrite length_app length_index_from; cbn; lia].
  rewrite length_app length_index_from. cbn [length]. replace (1 + (length a + 1 - 1))%nat with (length (index_of a ++ [-1])) by (rewrite length_app length_index_from; cbn; lia).
  rewrite drop_all app_nil_r Nat.sub_diag drop_0. replace (length a + 1 - 1)%nat with (length (index_of a)) by (rewrite length_index_from; lia).
  rewrite take_app_length. cbn. destruct (decide _) as [_|]; [|done].
  assert (E : (λ v, v + s + 1) <$> index_of a = index_from (s + 1) a).
  { rewrite -(Z.add_0_l (s + 1)) index_from_shift. apply list_fmap_ext. intros. lia. }
  rewrite E. by destruct (index_of a ++ [-1]) as [|y l] eqn:F; [by destruct (index_of a)|].
Qed.

Lemma ix_split_index a s b nx : ix_split (index_of (a ++ s :: b)) (length a) nx = Ok (index_of (a ++ (s - 1 - nx) :: nx :: b)).
Proof.
  unfold ix_split, ix_insertAt. replace (Nat.max (S (length a)) 1) with (S (length a)) by lia.
  destruct (decide (S (length a) = 0)%nat) as [|_]; [done|].
  assert (Hlen : length (index_of (a ++ s :: b) ++ [-1]) = (length a + 2 + length b)%nat).
  { rewrite length_app length_index_from length_app. cbn. lia. }
  rewrite (shift_up (λ v, v + -1 + 1)); [|lia|lia]. rewrite Hlen.
  replace (S (length a) + (length a + 2 + length b - S (length a)))%nat with (length (index_of (a ++ s :: b) ++ [-1])) by lia.
  rewrite drop_all app_nil_r. replace (S (length a) - 1)%nat with (length a) by lia.
  rewrite !index_mid. rewrite -!app_assoc.
  assert (E1 : take (S (length a)) (index_of a ++ ((total a + s) :: index_from (total a + s + 1) b) ++ [-1]) = index_of a ++ [total a + s]).
  { rewrite (app_assoc (index_of a) [total a + s] (index_from (total a + s + 1) b ++ [-1])).
    apply take_app_length'. rewrite length_app length_index_from. cbn. lia. }
  rewrite E1. assert (E2 : drop (length a) (index_of a ++ ((total a + s) :: index_from (total a + s + 1) b) ++ [-1]) = ((total a + s) :: index_from (total a + s + 1) b) ++ [-1]).
  { replace (length a) with (length (index_of a)) by (by rewrite length_index_from). by rewrite drop_app_length. }
  rewrite E2. replace (length a + 2 + length b - S (length a))%nat with (length ((total a + s) :: index_from (total a + s + 1) b)) by (cbn; rewrite length_index_from; lia).
  rewrite take_app_length. unfold at_index, set_index.
  replace (length a) with (length (index_of a)) at 1 by (by rewrite length_index_from).
  rewrite -app_assoc lookup_app_r // Nat.sub_diag. cbn. destruct (decide _) as [_|H]; [|exfalso; apply H; rewrite length_app length_index_from; cbn; lia].
  f_equal. rewrite insert_app_r_alt length_index_from // Nat.sub_diag. cbn. f_equal. f_equal; [lia|]. f_equal; [lia|].
  replace (total a + (s - 1 - nx) + 1 + nx + 1) with (total a + s + 1) by lia.
  etrans; [|apply list_fmap_id]. apply list_fmap_ext. intros. cbn. lia.
Qed.

Lemma shift_down (f : Z → Z) s lo k :
  (lo + k < length s)%nat →
  foldl (λ s i, <[i := f (s !!! S i)]> s) s (seq lo k) = take lo s ++ (f <$> take k (drop (S lo) s)) ++ drop (lo + k) s.
Proof.
  revert s lo. induction k as [|k IH]; intros s lo Hk; [cbn; by rewrite Nat.add_0_r take_drop|].
  cbn [seq foldl]. rewrite IH; [|rewrite length_insert; lia].
  destruct (lookup_lt_is_Some_2 s lo) as [v Hv]; [lia|]. destruct (lookup_lt_is_Some_2 s (S lo)) as [w Hw]; [lia|].
  rewrite (list_lookup_total_correct _ _ _ Hw). rewrite drop_insert_lt; [|lia]. rewrite drop_insert_lt; [|lia].
  rewrite insert_take_drop; [|lia].
  assert (E : take (S lo) (take lo s ++ f w :: drop (S lo) s) = take lo s ++ [f w]).
  { rewrite (app_assoc (take lo s) [f w] (drop (S lo) s)). apply take_app_length'. rewrite length_app length_take. cbn. lia. }
  rewrite E -app_assoc. f_equal. cbn [app]. rewrite (drop_S s w (S lo)) //. cbn [take fmap list_fmap app]. do 3 f_equal. lia.
Qed.

Lemma ix_merge_index a s1 s2 b : ix_merge (index_of (a ++ s1 :: s2 :: b)) (length a) = Ok (index_of (a ++ (s1 + 1 + s2) :: b)).
Proof.
  unfold ix_merge. assert (Hlen : length (index_of (a ++ s1 :: s2 :: b)) = (length a + 2 + length b)%nat).
  { rewrite length_index_from length_app. cbn. lia. }
  rewrite (shift_down id); [|lia]. rewrite list_fmap_id Hlen.
  set (l := index_of _) in *. set (k := (length a + 2 + length b - 1 - length a)%nat).
  assert (Hd : take k (drop (S (length a)) l) = drop (S (length a)) l) by (apply take_ge; rewrite length_drop; lia). rewrite Hd.
  destruct (decide _) as [_|H]; [|exfalso; apply H; rewrite !length_app length_take !length_drop; lia]. f_equal. rewrite app_assoc.
  rewrite take_app_length'; [|rewrite !length_app length_take !length_drop; lia].
  subst l. rewrite !index_mid take_app_length'; [|by rewrite length_index_from]. f_equal.
  rewrite (app_assoc (index_of a) [total a + s1]) drop_app_length'; [|rewrite length_app length_index_from; cbn; lia].
  cbn. f_equal; [lia|]. f_equal. lia.
Qed.

Lemma ix_removeAt_index s b : ix_removeAt (index_of (s :: b)) 0 = Ok (s, index_of b).
Proof.
  unfold ix_removeAt, at_index. change (index_of (s :: b)) with (s :: index_from (s + 1) b). cbn [lookup list_lookup].
  destruct (decide (0 < 0)%nat) as [|_]; [lia|]. cbn [mbind outcome_bind length]. rewrite length_index_from. replace (S (length b) - 1)%nat with (length b) by lia.
  assert (E : foldl (λ (l : list Z) i, <[(i - 1)%nat := (l !!! i) - s - 1]> l) (s :: index_from (s + 1) b) (seq 1 (length b)) =
    foldl (λ l i, <[i := (λ v, v - s - 1) (l !!! S i)]> l) (s :: index_from (s + 1) b) (seq 0 (length b))).
  { rewrite -(fmap_S_seq 0). generalize (s :: index_from (s + 1) b). induction (seq 0 (length b)) as [|i ls IH]; intros l; [done|].
    cbn [fmap list_fmap foldl]. rewrite Nat.sub_1_r. cbn [Nat.pred]. apply IH. }
  rewrite E (shift_down (λ v, v - s - 1)); [|cbn; rewrite length_index_from; lia]. f_equal. f_equal. cbn [take drop app]. rewrite (take_ge (index_from _ _)); [|by rewrite length_index_from].
  rewrite take_app_length'; [|rewrite !length_app !length_fmap !length_index_from length_drop; cbn; rewrite length_index_from; lia].
  replace (s + 1) with (0 + (s + 1)) by lia. rewrite index_from_shift -list_fmap_compose.
  etrans; [|apply list_fmap_id]. apply list_fmap_ext. intros. cbn. lia.
Qed.

Lemma ix_pop_index a s : ix_pop (index_of (a ++ [s])) = Ok (s, index_of a).
Proof.
  unfold ix_pop, pop. rewrite last_index. rewrite index_mid. cbn [index_from].
  rewrite length_app length_index_from. cbn [length]. rewrite take_app_length'; [|rewrite length_index_from; lia]. cbn [mbind outcome_bind].
  destruct a as [|x a _] using rev_ind; [done|]. rewrite last_index total_app. cbn. do 2 f_equal. lia.
Qed.

Lemma truncate_index a b : truncate (index_of (a ++ b)) (length a) = Ok (index_of a).
Proof.
  unfold truncate. destruct (decide _) as [_|H]; [|exfalso; apply H; rewrite length_index_from length_app; lia].
  f_equal. rewrite index_from_app take_app_length' //. by rewrite length_index_from.
Qed.

(** ** Slices, taken apart where they are accessed *)

Section Slices.
Context {X : Type}.
Implicit Types (a b : list X) (x y : X).
Lemma at_index_mid_ok a x b : at_index (a ++ x :: b) (length a) = Ok x.
Proof. unfold at_index. by rewrite list_lookup_middle. Qed.
Lemma set_index_mid a x y b : set_index (a ++ x :: b) (length a) y = Ok (a ++ y :: b).
Proof.
  unfold set_index. destruct (decide _) as [_|H]; [|rewrite length_app in H; cbn in H; lia]. by rewrite insert_app_r_alt // Nat.sub_diag.
Qed.
Lemma insertAt_mid a x b : insertAt (a ++ b) (length a) x = Ok (a ++ x :: b).
Proof.
  unfold insertAt. destruct (decide _) as [_|H]; [|rewrite length_app in H; lia]. by rewrite take_app_length drop_app_length.
Qed.
Lemma removeAt_mid a x b : removeAt (a ++ x :: b) (length a) = Ok (x, a ++ b).
Proof. unfold removeAt. by rewrite at_index_mid_ok /= delete_middle. Qed.
Lemma pop_last a x : pop (a ++ [x]) = Ok (x, a).
Proof. unfold pop. rewrite last_snoc length_app take_app_length' //. cbn. lia. Qed.
Lemma truncate_mid a b : truncate (a ++ b) (length a) = Ok a.
Proof. unfold truncate. destruct (decide _) as [_|H]; [|rewrite length_app in H; lia]. by rewrite take_app_length. Qed.

(** A list of a known length, taken apart at an index. *)
Lemma cut_list (l : list X) i : (i ≤ length l)%nat → ∃ a b, l = a ++ b ∧ length a = i.
Proof. intros. exists (take i l), (drop i l). by rewrite take_drop length_take_le. Qed.
Lemma cut_list_at (l : list X) i : (i < length l)%nat → ∃ a x b, l = a ++ x :: b ∧ length a = i.
Proof.
  intros [x Hx]%lookup_lt_is_Some_2. exists (take i l), x, (drop (S i) l). rewrite take_drop_middle //. split; [done|].
  apply lookup_lt_Some in Hx. rewrite length_take. lia.
Qed.
End Slices.

(** ** The order *)

Section Spec.
Context {A : Type} `{!Item A} {order : ItemOrder A}.
Implicit Types (x y : A) (l : list A).

Definition lt x y : Prop := Less x y = true.
Definition eqv x y : Prop := ¬ lt x y ∧ ¬ lt y x.
#[global] Instance lt_dec : RelDecision lt.
Proof. intros x y. unfold lt. apply _. Defined.
#[global] Instance eqv_dec : RelDecision eqv.
Proof. intros x y. unfold eqv. apply _. Defined.

Lemma lt_irrefl x : ¬ lt x x.
Proof. unfold lt. by rewrite Less_irrefl. Qed.
Lemma lt_trans x y z : lt x y → lt y z → lt x z.
Proof. apply Less_trans. Qed.
Lemma lt_asym x y : lt x y → ¬ lt y x.
Proof. intros H1 H2. by apply (lt_irrefl x), (lt_trans x y x). Qed.
Lemma eqv_lt_l x y z : eqv x y → lt x z → lt y z.
Proof. intros [Hn _] H. by destruct (Less_between x y z H). Qed.
Lemma eqv_lt_r x y z : eqv x y → lt z x → lt z y.
Proof. intros [_ Hn] H. by destruct (Less_between z y x H). Qed.
Lemma eqv_sym x y : eqv x y → eqv y x.
Proof. by intros []. Qed.
Lemma lt_false x y : Less x y = false ↔ ¬ lt x y.
Proof. unfold lt. by destruct (Less x y). Qed.

Notation sorted := (StronglySorted lt).

(** ** What the operations do to a sorted sequence *)

Definition below x l : list A := filter (λ y, lt y x) l.
Definition above x l : list A := filter (λ y, lt x y) l.
Definition same x l : option A := head (filter (λ y, eqv x y) l).
Definition put x l : list A := below x l ++ x :: above x l.
Definition without x l : list A := below x l ++ above x l.

Lemma sorted_cross l k x y : sorted (l ++ k) → x ∈ l → y ∈ k → lt x y.
Proof. intros H ??. by eapply StronglySorted_app_1_elem_of. Qed.

(** Where an item belongs in a sorted sequence. *)
Lemma locate l x :
  sorted l →
  (∃ a b, l = a ++ b ∧ Forall (λ y, lt y x) a ∧ Forall (lt x) b) ∨
  (∃ a y b, l = a ++ y :: b ∧ eqv x y ∧ Forall (λ y, lt y x) a ∧ Forall (lt x) b).
Proof.
  induction l as [|z l IH]; intros Hs; [left; by exists [], []|]. apply StronglySorted_inv in Hs as [Hs Hz]. rewrite Forall_forall in Hz.
  destruct (decide (lt z x)) as [Hzx|Hzx].
  - destruct (IH Hs) as [(a & b & -> & ? & ?)|(a & y & b & -> & ? & ? & ?)]; [left; exists (z :: a), b|right; exists (z :: a), y, b]; split_and!; auto.
  - destruct (decide (lt x z)) as [Hxz|Hxz].
    + left. exists [], (z :: l). split_and!; [done..|]. constructor; [done|]. rewrite Forall_forall. intros y Hy. eauto using lt_trans.
    + right. exists [], z, l. split_and!; [done|done|done|]. rewrite Forall_forall. intros y Hy. eapply eqv_lt_l; [|by apply Hz]. done.
Qed.

Lemma filter_Forall (P : A → Prop) `{∀ x, Decision (P x)} l : Forall P l → filter P l = l.
Proof. induction 1 as [|y l Hy _ IH]; [done|]. rewrite filter_cons_True //. by rewrite IH. Qed.
Lemma filter_Forall_not (P : A → Prop) `{∀ x, Decision (P x)} l : Forall (λ y, ¬ P y) l → filter P l = [].
Proof. induction 1 as [|y l Hy _ IH]; [done|]. by rewrite filter_cons_False. Qed.

(** The parts of a sequence around an item. *)
Lemma parts_around x a c b :
  Forall (λ y, lt y x) a → Forall (lt x) b →
  below x (a ++ c ++ b) = a ++ below x c ∧ above x (a ++ c ++ b) = above x c ++ b ∧ same x (a ++ c ++ b) = same x c.
Proof.
  intros Ha Hb. assert (Fa : Forall (λ y, ¬ lt x y) a) by (eapply Forall_impl; [exact Ha|]; intros; by apply lt_asym).
  assert (Fb : Forall (λ y, ¬ lt y x) b) by (eapply Forall_impl; [exact Hb|]; intros; by apply lt_asym).
  unfold below, above, same. rewrite !filter_app (filter_Forall _ a) // (filter_Forall_not _ b) // (filter_Forall_not _ a) // (filter_Forall _ b) //.
  rewrite (filter_Forall_not _ a) ?(filter_Forall_not _ b) ?app_nil_r //.
  - eapply Forall_impl; [exact Hb|]. intros y Hy [Hn _]. done.
  - eapply Forall_impl; [exact Ha|]. intros y Hy [_ Hn]. done.
Qed.
Lemma parts_nil x : below x [] = [] ∧ above x [] = [] ∧ same x [] = None.
Proof. done. Qed.
Lemma parts_one x y : eqv x y → below x [y] = [] ∧ above x [y] = [] ∧ same x [y] = Some y.
Proof.
  intros E. pose proof E as [H1 H2]. unfold below, above, same. rewrite filter_cons_False // (filter_cons_False _ y) // filter_cons_True //.
Qed.

Lemma parts_length x l : sorted l → zlen l = zlen (below x l) + zlen (above x l) + (match same x l with Some _ => 1 | None => 0 end).
Proof.
  intros [(a & b & -> & Ha & Hb)|(a & y & b & -> & E & Ha & Hb)]%(locate _ x).
  - destruct (parts_around x a [] b Ha Hb) as (H1 & H2 & H3). cbn [app] in H1, H2, H3. rewrite H1 H2 H3 !zlen_app. cbn. unfold zlen. cbn. lia.
  - destruct (parts_around x a [y] b Ha Hb) as (H1 & H2 & H3). cbn [app] in H1, H2, H3. rewrite H1 H2 H3.
    destruct (parts_one x y E) as (-> & -> & ->). rewrite !zlen_app zlen_cons. unfold zlen. cbn. lia.
Qed.

(** ** [find] *)

Lemma search_ok f n fuel i j :
  (i ≤ j ≤ n)%nat → (j - i ≤ fuel)%nat → (∀ k, (k < i)%nat → f k = false) → (∀ k, (j ≤ k < n)%nat → f k = true) →
  (∀ k k', (k ≤ k' < n)%nat → f k = true → f k' = true) →
  let r := search fuel f i j in (r ≤ n)%nat ∧ (∀ k, (k < r)%nat → f k = false) ∧ (∀ k, (r ≤ k < n)%nat → f k = true).
Proof.
  revert i j. induction fuel as [|fuel IH]; intros i j Hij Hf Hlo Hhi Hm; cbn zeta; cbn [search].
  - split_and!; [lia|done|]. intros k Hk. apply Hhi. lia.
  - destruct (decide (i < j)%nat) as [Hlt|Hge].
    + assert (Hh : (i ≤ (i + j) / 2 < j)%nat) by (split; [apply Nat.div_le_lower_bound; lia|apply Nat.Div0.div_lt_upper_bound; lia]).
      destruct (f ((i + j) / 2)%nat) eqn:E.
      * apply IH; [lia|lia|done| |done]. intros k Hk. apply (Hm ((i + j) / 2)%nat); [lia|done].
      * apply IH; [lia|lia| |done|done]. intros k Hk. destruct (f k) eqn:Ek; [|done]. rewrite -E. symmetry. apply (Hm k); [lia|done].
    + split_and!; [lia|done|]. intros k Hk. apply Hhi. lia.
Qed.

Lemma Search_split {X} (P : X → bool) (a b : list X) :
  Forall (λ z, P z = false) a → Forall (λ z, P z = true) b →
  Search (length (a ++ b)) (λ h, match (a ++ b) !! h with Some z => P z | None => false end) = length a.
Proof.
  intros Ha Hb. set (f := λ h, _). set (n := length (a ++ b)). rewrite Forall_lookup in Ha. rewrite Forall_lookup in Hb.
  assert (Fa : ∀ k, (k < length a)%nat → f k = false).
  { intros k Hk. subst f. cbn. rewrite lookup_app_l //. destruct (a !! k) eqn:E; [by eapply Ha|done]. }
  assert (Fb : ∀ k, (length a ≤ k < n)%nat → f k = true).
  { intros k Hk. subst f n. rewrite length_app in Hk. cbn. rewrite lookup_app_r; [|lia]. destruct (lookup_lt_is_Some_2 b (k - length a)) as [y Hy]; [lia|].
    rewrite Hy. by eapply Hb. }
  destruct (search_ok f n n 0 n) as (Hr & Hlo & Hhi); [lia|lia|intros; lia|intros; lia| |].
  { intros k k' Hk Ht. destruct (decide (k < length a)%nat) as [Hka|]; [by rewrite Fa in Ht|]. apply Fb. lia. }
  fold (Search n f) in *. assert (Hn : n = (length a + length b)%nat) by (subst n; apply length_app).
  destruct (decide (Search n f < length a)%nat) as [Hlt|]; [specialize (Fa (Search n f) Hlt); rewrite Hhi in Fa; [done|lia]|].
  destruct (decide (length a < Search n f)%nat) as [Hlt|]; [specialize (Hlo (length a) Hlt); rewrite Fb in Hlo; [done|lia]|]. lia.
Qed.

Lemma find_not x a b : Forall (λ y, lt y x) a → Forall (lt x) b → find (a ++ b) x = (length a, false).
Proof.
  intros Ha Hb. unfold find. rewrite (Search_split (Less x)); [|eapply Forall_impl; [exact Ha|]; intros; apply lt_false; by apply lt_asym|exact Hb].
  destruct a as [|y a _] using rev_ind; [done|]. rewrite length_app Nat.add_1_r -app_assoc list_lookup_middle //.
  apply Forall_app in Ha as [_ Hy]. rewrite Forall_singleton in Hy. by rewrite Hy.
Qed.
Lemma find_at x y a b : eqv x y → Forall (λ y, lt y x) a → Forall (lt x) b → find (a ++ y :: b) x = (length a, true).
Proof.
  intros [E1 E2] Ha Hb. rewrite (app_assoc a [y]). unfold find. rewrite (Search_split (Less x)).
  - rewrite length_app Nat.add_1_r -app_assoc list_lookup_middle //. by apply lt_false in E2 as ->.
  - apply Forall_app. split; [eapply Forall_impl; [exact Ha|]; intros; apply lt_false; by apply lt_asym|]. apply Forall_singleton. by apply lt_false.
  - exact Hb.
Qed.

(** ** The items of a node in order *)

Fixpoint inter (its : list A) (cs : list (list A)) {struct cs} : list A :=
  match cs with
  | [] => its
  | c :: cs => match its with [] => c | x :: its => c ++ x :: inter its cs end
  end.
Fixpoint elems (n : node A) : list A := let 'mkNode its chs _ := n in inter its (elems <$> chs).
Definition size (n : node A) : Z := zlen (elems n).
Implicit Types n : node A.

Lemma elems_node n : elems n = inter (items n) (elems <$> children n).
Proof. by destruct n. Qed.

(** What is left and right of a child. *)
Definition lpart (its : list A) (cs : list (list A)) : list A := concat (zip_with (λ c x, c ++ [x]) cs its).
Definition rpart (its : list A) (cs : list (list A)) : list A := concat (zip_with (λ x c, x :: c) its cs).

Lemma inter_rpart c its cs : length cs = length its → inter its (c :: cs) = c ++ rpart its cs.
Proof.
  revert c cs. induction its as [|x its IH]; intros c [|d cs] H; simplify_eq/=; [by rewrite app_nil_r|]. by rewrite IH.
Qed.
Lemma inter_mid its1 its2 cs1 c cs2 :
  length cs1 = length its1 → length cs2 = length its2 →
  inter (its1 ++ its2) (cs1 ++ c :: cs2) = lpart its1 cs1 ++ c ++ rpart its2 cs2.
Proof.
  intros H1 H2. revert cs1 H1. induction its1 as [|x its1 IH]; intros [|d cs1] H1; simplify_eq/=; [by apply inter_rpart|].
  unfold lpart. cbn. rewrite -!app_assoc. cbn. by rewrite IH.
Qed.
Lemma inter_split its1 y its2 cs1 cs2 :
  length cs1 = S (length its1) → inter (its1 ++ y :: its2) (cs1 ++ cs2) = inter its1 cs1 ++ y :: inter its2 cs2.
Proof.
  revert cs1. induction its1 as [|x its1 IH]; intros [|d cs1] H1; simplify_eq/=.
  - by destruct cs1.
  - rewrite IH; [|done]. by rewrite -app_assoc.
Qed.
Lemma length_inter its cs : length cs = S (length its) → zlen (inter its cs) = total (zlen <$> cs) - 1.
Proof.
  revert its. induction cs as [|c cs IH]; intros [|x its] H; simplify_eq/=.
  - destruct cs; [|done]. unfold total. cbn. lia.
  - rewrite zlen_app zlen_cons IH // /total. cbn. lia.
Qed.

(** ** Well-formed nodes: all leaves at one depth, as many children as fit the
    items, the right indices, and children neither too small nor too large. *)

Context (mn : nat) (mn_pos : (1 ≤ mn)%nat).
Notation mx := (mn * 2 + 1)%nat.

Fixpoint wf (h : nat) n : Prop :=
  match h with
  | O => children n = [] ∧ indices n = []
  | S h =>
    length (children n) = S (length (items n)) ∧ indices n = index_of (size <$> children n) ∧
    Forall (λ c, wf h c ∧ (mn ≤ length (items c) ≤ mx)%nat) (children n)
  end.

Lemma size_node n : length (children n) = S (length (items n)) → size n = total (size <$> children n) - 1.
Proof. intros H. unfold size. rewrite elems_node length_inter; [|by rewrite length_fmap]. by rewrite -list_fmap_compose. Qed.

Lemma node_length_ok h n : wf h n → node_length n = size n.
Proof.
  unfold node_length. destruct h as [|h]; cbn [wf].
  - intros [Hc ->]. cbn [last]. unfold size. by rewrite elems_node Hc.
  - intros (Hl & -> & _). rewrite (size_node n Hl). destruct (children n) as [|c cs _] using rev_ind; [done|].
    rewrite fmap_app. cbn [fmap list_fmap]. rewrite last_index total_app. unfold total. cbn. lia.
Qed.

Lemma foldr_max_le (ks : list nat) b : Forall (λ k, k = b) ks → (foldr Nat.max O ks ≤ b)%nat.
Proof. induction 1 as [|k ks -> _ IH]; cbn; lia. Qed.
Lemma wf_height h n : wf h n → height n = S h.
Proof.
  revert n. induction h as [|h IH]; intros [its chs ixs]; cbn [wf children items indices]; [by intros [-> _]|]. intros (Hl & _ & Hc).
  assert (E : Forall (λ k, k = S h) (height <$> chs)) by (apply Forall_fmap; eapply Forall_impl; [exact Hc|]; intros c [? _]; by apply IH).
  destruct chs as [|c chs]; [done|]. rewrite fmap_cons in E. apply Forall_cons in E as [E0 E]. apply foldr_max_le in E.
  change (S (Nat.max (height c) (foldr Nat.max 0%nat (height <$> chs))) = S (S h)). lia.
Qed.

Lemma initSize_ok h its c chs ixs :
  Forall (wf h) (c :: chs) → initSize (mkNode its (c :: chs) ixs) = mkNode its (c :: chs) (index_of (size <$> c :: chs)).
Proof.
  intros H. unfold initSize. cbn [items children]. f_equal. apply Forall_cons in H as [Hc H]. change [node_length c] with (index_of [node_length c]) .
  rewrite (foldl_push node_length [node_length c]). rewrite (node_length_ok _ _ Hc). cbn [app fmap list_fmap]. do 2 f_equal.
  induction H as [|d ds Hd _ IH]; [done|]. cbn. rewrite (node_length_ok _ _ Hd). f_equal. exact IH.
Qed.

(** ** Splitting *)

Lemma split_ok h c a y b :
  wf h c → items c = a ++ y :: b →
  ∃ (l r : node A), split c (length a) = Ok (l, (y, r)) ∧ wf h l ∧ wf h r ∧ items l = a ∧ items r = b ∧ elems c = elems l ++ y :: elems r.
Proof.
  intros Hw Hi. unfold split. rewrite Hi at_index_mid_ok truncate_mid. cbn [mbind outcome_bind].
  assert (Hdrop : drop (S (length a)) (a ++ y :: b) = b) by (rewrite (app_assoc a [y]) drop_app_length' //; rewrite length_app; cbn; lia).
  rewrite Hdrop. destruct h as [|h].
  - destruct Hw as [Hc Hx]. rewrite Hc. do 2 eexists. split; [done|]. split_and!; [done..|]. by rewrite !elems_node Hc Hi.
  - destruct Hw as (Hl & Hx & Hc). rewrite Hi length_app in Hl. cbn in Hl.
    destruct (cut_list (children c) (S (length a))) as (ca & cb & Ec & Hca); [lia|]. rewrite Ec length_app in Hl.
    destruct ca as [|ca0 ca]; [done|]. destruct cb as [|cb0 cb]; [cbn in *; lia|]. rewrite Ec. cbn [app].
    assert (Etr : truncate (children c) (S (length a)) = Ok (ca0 :: ca)) by (rewrite Ec -Hca; apply truncate_mid). rewrite Ec in Etr. cbn [app] in Etr. rewrite Etr.
    rewrite Hx Ec fmap_app -Hca. rewrite -(length_fmap size (ca0 :: ca)) truncate_index length_fmap. cbn [mbind outcome_bind].
    rewrite Ec in Hc. apply Forall_app in Hc as [Ha Hb].
    assert (Ed : drop (length (ca0 :: ca)) (ca0 :: ca ++ cb0 :: cb) = cb0 :: cb) by (by rewrite (app_comm_cons ca) drop_app_length). rewrite Ed.
    rewrite (initSize_ok h); [|eapply Forall_impl; [exact Hb|]; by intros ? []].
    do 2 eexists. split; [done|]. split_and!; cbn [items children indices wf]; [done| |done|done|].
    + split_and!; [|done|done]. cbn in *. lia.
    + rewrite elems_node Hi Ec fmap_app inter_split; [done|]. by rewrite length_fmap.
Qed.

(** ** A node around one of its children *)

Definition child_ok (h : nat) n : Prop := wf h n ∧ (mn ≤ length (items n) ≤ mx)%nat.
Definition around its1 its2 chs1 c chs2 : node A :=
  mkNode (its1 ++ its2) (chs1 ++ c :: chs2) (index_of ((size <$> chs1) ++ size c :: (size <$> chs2))).

Record frame (h : nat) (its1 its2 : list A) (chs1 chs2 : list (node A)) : Prop := {
  fr_left : length chs1 = length its1;
  fr_right : length chs2 = length its2;
  fr_ok1 : Forall (child_ok h) chs1;
  fr_ok2 : Forall (child_ok h) chs2
}.

Lemma wf_around h its1 its2 chs1 c chs2 : frame h its1 its2 chs1 chs2 → child_ok h c → wf (S h) (around its1 its2 chs1 c chs2).
Proof.
  intros [H1 H2 F1 F2] Hc. cbn. split_and!.
  - rewrite !length_app. cbn. lia.
  - by rewrite fmap_app.
  - apply Forall_app. split; [done|]. by constructor.
Qed.
Lemma around_wf h n its1 its2 :
  wf (S h) n → items n = its1 ++ its2 →
  ∃ chs1 c chs2, n = around its1 its2 chs1 c chs2 ∧ frame h its1 its2 chs1 chs2 ∧ child_ok h c.
Proof.
  intros (Hl & Hx & Hc) Hi. rewrite Hi length_app in Hl. destruct (cut_list_at (children n) (length its1)) as (chs1 & c & chs2 & E & H1); [lia|].
  rewrite E in Hl Hx Hc. rewrite length_app in Hl. cbn in Hl. apply Forall_app in Hc as [F1 [Fc F2]%Forall_cons]. exists chs1, c, chs2. split_and!; [|split; [lia|lia|done|done]|done].
  destruct n as [its chs ixs]. cbn in *. subst. unfold around. by rewrite fmap_app.
Qed.

Notation before its1 chs1 := (lpart its1 (elems <$> chs1)).
Notation after its2 chs2 := (rpart its2 (elems <$> chs2)).
Lemma elems_around h its1 its2 chs1 c chs2 :
  frame h its1 its2 chs1 chs2 → elems (around its1 its2 chs1 c chs2) = before its1 chs1 ++ elems c ++ after its2 chs2.
Proof. intros []. unfold around. rewrite elems_node. cbn [items children]. rewrite fmap_app fmap_cons inter_mid ?length_fmap //. Qed.

Lemma lpart_last its z cs : length cs = length (its ++ [z]) → ∃ l, lpart (its ++ [z]) cs = l ++ [z].
Proof.
  intros H. rewrite length_app Nat.add_1_r in H. destruct cs as [|c cs _] using rev_ind; [done|]. rewrite length_app Nat.add_1_r in H.
  exists (lpart its cs ++ c). unfold lpart. rewrite zip_with_app; [|lia]. rewrite concat_app. cbn. by rewrite app_nil_r -app_assoc.
Qed.
Lemma before_below its cs x : length cs = length its → sorted (lpart its cs) → Forall (λ y, lt y x) its → Forall (λ y, lt y x) (lpart its cs).
Proof.
  intros Hl Hs Hx. destruct its as [|z its _] using rev_ind; [by destruct cs|]. destruct (lpart_last its z cs Hl) as [l E]. rewrite E in Hs |- *.
  apply Forall_app in Hx as [_ Hz]. rewrite Forall_singleton in Hz. apply Forall_app. split; [|by constructor].
  rewrite Forall_forall. intros y Hy. eapply lt_trans; [|exact Hz]. eapply sorted_cross; [exact Hs|exact Hy|by left].
Qed.
Lemma after_above its cs x : length cs = length its → sorted (rpart its cs) → Forall (lt x) its → Forall (lt x) (rpart its cs).
Proof.
  intros Hl Hs Hx. destruct its as [|z its]; [by destruct cs|]. destruct cs as [|c cs]; [done|]. cbn in *. apply Forall_cons in Hx as [Hz _].
  constructor; [done|]. apply StronglySorted_inv in Hs as [_ Hs]. eapply Forall_impl; [exact Hs|]. intros y. by apply lt_trans.
Qed.

(** An item that belongs into a child: what is left of the child is below it,
    what is right of it above. *)
Lemma around_parts h its1 its2 chs1 c chs2 x :
  frame h its1 its2 chs1 chs2 → sorted (elems (around its1 its2 chs1 c chs2)) → Forall (λ y, lt y x) its1 → Forall (lt x) its2 →
  Forall (λ y, lt y x) (before its1 chs1) ∧ Forall (lt x) (after its2 chs2) ∧ sorted (elems c).
Proof.
  intros Hf Hs H1 H2. rewrite (elems_around _ _ _ _ _ _ Hf) in Hs. destruct Hf as [L1 L2 _ _].
  pose proof (StronglySorted_app_1_l _ _ _ Hs) as Hb. apply StronglySorted_app_1_r in Hs.
  pose proof (StronglySorted_app_1_l _ _ _ Hs) as Hc. apply StronglySorted_app_1_r in Hs.
  split_and!; [apply before_below|apply after_above|]; rewrite ?length_fmap //.
Qed.
Lemma put_around x a c b : Forall (λ y, lt y x) a → Forall (lt x) b → put x (a ++ c ++ b) = a ++ put x c ++ b.
Proof. intros Ha Hb. unfold put. destruct (parts_around x a c b Ha Hb) as (-> & -> & _). by rewrite -!app_assoc. Qed.
Lemma put_length x l : sorted l → zlen (put x l) = zlen l + (match same x l with Some _ => 0 | None => 1 end).
Proof. clear mn mn_pos. intros Hs. unfold put. rewrite zlen_app zlen_cons (parts_length x l Hs). destruct (same x l); lia. Qed.

(** ** Inserting *)

(** [r] inserts [x] into a node with the items [l]; the node then has from [lo] to
    [hi] items itself. *)
Definition inserts (h : nat) l x (lo hi : nat) (r : outcome Empty_set (node A * option A)) : Prop :=
  ∃ n', r = Ok (n', same x l) ∧ wf h n' ∧ elems n' = put x l ∧ (lo ≤ length (items n') ≤ hi)%nat.

Lemma insert_child_ok h its1 its2 chs1 c chs2 x ins :
  frame h its1 its2 chs1 chs2 → sorted (elems (around its1 its2 chs1 c chs2)) →
  Forall (λ y, lt y x) its1 → Forall (lt x) its2 → inserts h (elems c) x mn mx (ins c) →
  inserts (S h) (elems (around its1 its2 chs1 c chs2)) x (length (its1 ++ its2)) (length (its1 ++ its2)) (insert_child ins (around its1 its2 chs1 c chs2) (length its1)).
Proof.
  intros Hf Hs H1 H2 (c' & Hins & Hw & He & Hlen). destruct (around_parts _ _ _ _ _ _ _ Hf Hs H1 H2) as (Hb & Ha & Hsc).
  pose proof (fr_left _ _ _ _ _ Hf) as L1. unfold insert_child, around. cbn [children items indices]. rewrite -L1 at_index_mid_ok. cbn [mbind outcome_bind].
  rewrite Hins. cbn [mbind outcome_bind]. rewrite set_index_mid. cbn [mbind outcome_bind].
  assert (Hix : match same x (elems c) with
    | Some _ => index_of ((size <$> chs1) ++ size c :: (size <$> chs2))
    | None => addAt (index_of ((size <$> chs1) ++ size c :: (size <$> chs2))) (length chs1) 1
    end = index_of ((size <$> chs1) ++ size c' :: (size <$> chs2))).
  { assert (Hsz : size c' = size c + match same x (elems c) with Some _ => 0 | None => 1 end) by (unfold size; rewrite He; by apply put_length).
    rewrite Hsz. destruct (same x (elems c)); [by rewrite Z.add_0_r|]. by rewrite -(length_fmap size chs1) addAt_index. }
  exists (around its1 its2 chs1 c' chs2). fold (around its1 its2 chs1 c chs2).
  rewrite !(elems_around _ _ _ _ _ _ Hf). destruct (parts_around x _ (elems c) _ Hb Ha) as (_ & _ & ->). split_and!.
  - do 2 f_equal. unfold around. f_equal. exact Hix.
  - by apply wf_around.
  - by rewrite He put_around.
  - done.
  - done.
Qed.

Lemma parts_at x y p q :
  sorted (p ++ y :: q) → eqv x y →
  Forall (λ z, lt z x) p ∧ Forall (lt x) q ∧ below x (p ++ y :: q) = p ∧ above x (p ++ y :: q) = q ∧ same x (p ++ y :: q) = Some y.
Proof.
  intros Hs He. assert (Hp : Forall (λ z, lt z x) p).
  { rewrite Forall_forall. intros z Hz. eapply eqv_lt_r; [by apply eqv_sym|]. eapply sorted_cross; [exact Hs|done|by left]. }
  assert (Hq : Forall (lt x) q).
  { apply StronglySorted_app_1_r, StronglySorted_inv in Hs as [_ Hs]. eapply Forall_impl; [exact Hs|]. intros z. apply eqv_lt_l. by apply eqv_sym. }
  destruct (parts_around x p [y] q Hp Hq) as (H1 & H2 & H3). cbn [app] in H1, H2, H3. destruct (parts_one x y He) as (E1 & E2 & E3).
  rewrite H1 H2 H3 E1 E2 E3 app_nil_r. done.
Qed.
Lemma parts_gap x p q :
  Forall (λ z, lt z x) p → Forall (lt x) q → below x (p ++ q) = p ∧ above x (p ++ q) = q ∧ same x (p ++ q) = None.
Proof. intros Hp Hq. destruct (parts_around x p [] q Hp Hq) as (H1 & H2 & H3). cbn [app] in H1, H2, H3. by rewrite H1 H2 H3 app_nil_r. Qed.

Lemma inter_sorted its cs : length cs = S (length its) → sorted (inter its cs) → sorted its.
Proof.
  revert its. induction cs as [|c cs IH]; intros its Hl Hs; [done|]. destruct its as [|x its]; [constructor|]. cbn in Hs, Hl.
  apply StronglySorted_app_1_r, StronglySorted_inv in Hs as [Hs Hx]. constructor; [apply IH; [lia|done]|].
  rewrite Forall_forall in Hx. rewrite Forall_forall. intros y Hy. apply Hx. clear -Hy Hl. assert (Hlen : length cs = S (length its)) by lia. clear Hl.
  revert its Hlen Hy. induction cs as [|d cs IH]; intros [|z its] Hlen Hy; simplify_eq/=; [by apply elem_of_nil in Hy|]. apply elem_of_app. right.
  apply elem_of_cons in Hy as [->|Hy]; [by left|right; by apply IH].
Qed.
Lemma items_sorted h n : wf h n → sorted (elems n) → sorted (items n).
Proof.
  rewrite elems_node. destruct h as [|h]; [by intros [-> _]|]. intros (Hl & _). apply inter_sorted. by rewrite length_fmap.
Qed.

(** Replacing an item of a node by an equivalent one. *)
Lemma replace_item h n a y b x :
  wf h n → sorted (elems n) → items n = a ++ y :: b → eqv x y →
  wf h (mkNode (a ++ x :: b) (children n) (indices n)) ∧ elems (mkNode (a ++ x :: b) (children n) (indices n)) = put x (elems n) ∧ same x (elems n) = Some y.
Proof.
  intros Hw Hs Hi He. assert (Hlen : length (a ++ x :: b) = length (items n)) by (rewrite Hi !length_app; done).
  split; [destruct h; cbn [wf children items indices] in *; [done|by rewrite Hlen]|].
  assert (Hd : ∃ p q, elems n = p ++ y :: q ∧ elems (mkNode (a ++ x :: b) (children n) (indices n)) = p ++ x :: q).
  { rewrite !elems_node Hi. cbn [items children]. destruct h as [|h].
    - destruct Hw as [-> _]. by exists a, b.
    - destruct Hw as (Hl & _). rewrite Hi length_app in Hl. cbn in Hl.
      destruct (cut_list (children n) (S (length a))) as (ca & cb & -> & Hca); [lia|]. rewrite fmap_app !inter_split ?length_fmap //. eauto. }
  destruct Hd as (p & q & Ep & ->). rewrite Ep in Hs |- *. unfold put. destruct (parts_at x y p q Hs He) as (_ & _ & -> & -> & ->). done.
Qed.

Lemma maybeSplit_ok h its1 its2 chs1 c chs2 :
  frame h its1 its2 chs1 chs2 → child_ok h c → (mx ≤ length (items c))%nat →
  ∃ (l : node A) y (r : node A), maybeSplitChild (around its1 its2 chs1 c chs2) (length its1) mx = Ok (around its1 (y :: its2) chs1 l (r :: chs2), true) ∧
    frame h its1 (y :: its2) chs1 (r :: chs2) ∧ child_ok h l ∧ child_ok h r ∧ (length (items l) < mx)%nat ∧ (length (items r) < mx)%nat ∧
    elems (around its1 (y :: its2) chs1 l (r :: chs2)) = elems (around its1 its2 chs1 c chs2).
Proof.
  intros Hf [Hw Hlen] Hge. pose proof Hf as [L1 L2 F1 F2].
  assert (Hhalf : (mx / 2 = mn)%nat) by (rewrite Nat.add_comm Nat.div_add //).
  destruct (cut_list_at (items c) mn) as (a & y & b & Ei & Ha); [lia|]. assert (Hb : length b = mn) by (rewrite Ei length_app in Hlen, Hge; cbn in *; lia).
  destruct (split_ok h c a y b Hw Ei) as (l & r & Hsp & Hwl & Hwr & Hil & Hir & He).
  assert (Hl : child_ok h l) by (split; [done|rewrite Hil; lia]). assert (Hr : child_ok h r) by (split; [done|rewrite Hir; lia]).
  assert (Hf' : frame h its1 (y :: its2) chs1 (r :: chs2)) by (split; [done|cbn; lia|done|by constructor]).
  exists l, y, r. split_and!; [|done|done|done|rewrite Hil; lia|rewrite Hir; lia|].
  - unfold maybeSplitChild, around. cbn [items children indices]. rewrite -L1 at_index_mid_ok. cbn [mbind outcome_bind].
    destruct (decide _) as [|_]; [lia|]. rewrite Hhalf -Ha Hsp. cbn [mbind outcome_bind]. rewrite L1 insertAt_mid -L1. cbn [mbind outcome_bind].
    rewrite set_index_mid. cbn [mbind outcome_bind].
    replace (S (length chs1)) with (length (chs1 ++ [l])) by (rewrite length_app; cbn; lia). rewrite (app_assoc chs1 [l] chs2) insertAt_mid -app_assoc. cbn [mbind outcome_bind app].
    rewrite (node_length_ok _ _ Hwr) -(length_fmap size chs1) ix_split_index. cbn [mbind outcome_bind].
    assert (Hsz : size c - 1 - size r = size l) by (unfold size; rewrite He zlen_app zlen_cons; lia). by rewrite Hsz.
  - rewrite (elems_around _ _ _ _ _ _ Hf) (elems_around _ _ _ _ _ _ Hf') He. by rewrite -!app_assoc.
Qed.

Lemma insert_found h fuel n x a y b :
  wf h n → sorted (elems n) → items n = a ++ y :: b → eqv x y →
  inserts h (elems n) x (length (items n)) (length (items n)) (insert (S fuel) n x mx).
Proof.
  intros Hw Hs E He. destruct (replace_item _ _ _ _ _ x Hw Hs E He) as (Hw' & He' & Hsm). pose proof (items_sorted _ _ Hw Hs) as Hsi. rewrite E in Hsi.
  destruct (parts_at x y a b Hsi He) as (Ha & Hb & _). cbn [insert]. rewrite E find_at // at_index_mid_ok. cbn [mbind outcome_bind].
  rewrite set_index_mid. cbn [mbind outcome_bind]. eexists. rewrite Hsm. split_and!; [done|done|done|cbn [items]; rewrite ?E !length_app; cbn; lia..].
Qed.

Lemma inserts_weaken h l x lo hi lo' hi' r : inserts h l x lo hi r → (lo' ≤ lo)%nat → (hi ≤ hi')%nat → inserts h l x lo' hi' r.
Proof. intros (n' & ? & ? & ? & ?) ??. exists n'. split_and!; [done..|lia|lia]. Qed.

Lemma insert_leaf n x : wf 0 n → sorted (elems n) → inserts 0 (elems n) x (length (items n)) (S (length (items n))) (insert 1 n x mx).
Proof.
  intros Hw Hs. pose proof (items_sorted _ _ Hw Hs) as Hsi. destruct (locate (items n) x Hsi) as [(a & b & E & Ha & Hb)|(a & y & b & E & He & Ha & Hb)].
  - cbn [insert]. rewrite E find_not //. destruct Hw as [Hc Hx]. rewrite Hc. cbn [length]. destruct (decide _) as [_|]; [|done]. rewrite insertAt_mid. cbn [mbind outcome_bind].
    assert (En : elems n = a ++ b) by (by rewrite elems_node Hc E). destruct (parts_gap x a b Ha Hb) as (H1 & H2 & H3).
    exists (mkNode (a ++ x :: b) [] (indices n)). rewrite En H3. unfold put. rewrite H1 H2. split_and!; try done; cbn [items]; rewrite ?E !length_app; cbn; lia.
  - eapply inserts_weaken; [by eapply insert_found|lia|lia].
Qed.

(** After a child was split around [y], the item goes left of it, right of it, or
    in its place. *)
Lemma insert_splitted h a b chs1 (l : node A) y r chs2 x ins :
  frame h a (y :: b) chs1 (r :: chs2) → child_ok h l → child_ok h r → sorted (elems (around a (y :: b) chs1 l (r :: chs2))) →
  Forall (λ z, lt z x) a → Forall (lt x) b →
  (∀ c, c = l ∨ c = r → sorted (elems c) → inserts h (elems c) x mn mx (ins c)) →
  let n := around a (y :: b) chs1 l (r :: chs2) in
  inserts (S h) (elems n) x (S (length (a ++ b))) (S (length (a ++ b)))
    (if Less x y then insert_child ins n (length a) else if Less y x then insert_child ins n (S (length a))
     else its ← set_index (items n) (length a) x; Ok (mkNode its (children n) (indices n), Some y)).
Proof.
  intros Hf Hl Hr Hs Ha Hb Hins n. assert (Hlen : S (length (a ++ b)) = length (a ++ y :: b)) by (rewrite !length_app; cbn; lia). rewrite Hlen.
  destruct (Less x y) eqn:Exy; [|destruct (Less y x) eqn:Eyx].
  - assert (Hb' : Forall (lt x) (y :: b)) by (by constructor). destruct (around_parts _ _ _ _ _ _ _ Hf Hs Ha Hb') as (_ & _ & Hsl).
    apply insert_child_ok; [done..|]. apply Hins; [by left|done].
  - assert (En : n = around (a ++ [y]) b (chs1 ++ [l]) r chs2) by (unfold n, around; rewrite -!app_assoc fmap_app -app_assoc //).
    assert (Hf' : frame h (a ++ [y]) b (chs1 ++ [l]) chs2).
    { destruct Hf as [L1 L2 F1 F2]. cbn in L2. apply Forall_cons in F2 as [_ F2]. split; [rewrite !length_app; cbn; lia|lia| |done]. apply Forall_app. by split; [|constructor]. }
    assert (Ha' : Forall (λ z, lt z x) (a ++ [y])) by (apply Forall_app; by split; [|constructor]).
    fold n in Hs. rewrite En in Hs |- *. destruct (around_parts _ _ _ _ _ _ _ Hf' Hs Ha' Hb) as (_ & _ & Hsr).
    replace (S (length a)) with (length (a ++ [y])) by (rewrite length_app; cbn; lia). rewrite (app_assoc a [y] b). apply insert_child_ok; [done..|]. apply Hins; [by right|done].
  - assert (He : eqv x y) by (split; by apply lt_false). destruct (replace_item (S h) n a y b x (wf_around _ _ _ _ _ _ Hf Hl) Hs eq_refl He) as (Hw' & He' & Hsm).
    unfold n at 2. unfold around at 1. cbn [items]. rewrite set_index_mid. cbn [mbind outcome_bind]. eexists. rewrite Hsm. split_and!; [done|exact Hw'|exact He'|cbn [items]; rewrite !length_app; cbn; lia..].
Qed.

Lemma insert_ok h n x : wf h n → sorted (elems n) → (length (items n) < mx)%nat → inserts h (elems n) x (length (items n)) (S (length (items n))) (insert (S h) n x mx).
Proof.
  revert n. induction h as [|h IH]; intros n Hw Hs Hlt; [by apply insert_leaf|]. pose proof (items_sorted _ _ Hw Hs) as Hsi.
  destruct (locate (items n) x Hsi) as [(a & b & E & Ha & Hb)|(a & y & b & E & He & Ha & Hb)]; [|eapply inserts_weaken; [by eapply insert_found|lia|lia]].
  remember (S h) as fuel eqn:Ef. cbn [insert]. subst fuel. rewrite E find_not //. destruct (around_wf h n a b Hw E) as (chs1 & c & chs2 & -> & Hf & Hc).
  destruct (decide (length (children (around a b chs1 c chs2)) = 0)%nat) as [Hz|_]; [cbn in Hz; rewrite length_app in Hz; cbn in Hz; lia|].
  assert (IH' : ∀ c, child_ok h c → (length (items c) < mx)%nat → sorted (elems c) → inserts h (elems c) x mn mx (insert (S h) c x mx)).
  { intros d [Hd Hld] Hmx Hsd. eapply inserts_weaken; [by apply IH|lia|lia]. }
  destruct (decide (length (items c) < mx)%nat) as [Hsmall|Hbig].
  - assert (Hms : maybeSplitChild (around a b chs1 c chs2) (length a) mx = Ok (around a b chs1 c chs2, false)).
    { unfold maybeSplitChild, around. cbn [children]. rewrite -(fr_left _ _ _ _ _ Hf) at_index_mid_ok. cbn [mbind outcome_bind]. by destruct (decide _). }
    rewrite Hms. cbn [mbind outcome_bind]. eapply inserts_weaken; [apply insert_child_ok; [done..|]|lia|lia]. apply IH'; [done|done|by eapply around_parts].
  - destruct (maybeSplit_ok h a b chs1 c chs2 Hf Hc ltac:(lia)) as (l & y & r & Hms & Hf' & Hl & Hr & Hll & Hlr & Eq).
    rewrite Hms. cbn [mbind outcome_bind]. unfold around at 2. cbn [items]. rewrite at_index_mid_ok. cbn [mbind outcome_bind]. rewrite -Eq. rewrite -Eq in Hs.
    eapply inserts_weaken; [apply insert_splitted; [done..|]|lia|lia]. intros d [->| ->]; by apply IH'.
Qed.

(** ** Removing *)

Definition taken (typ : toRemove) l : option A :=
  match typ with removeItem x => same x l | removeMin => head l | removeMax => last l end.
Definition remaining (typ : toRemove) l : list A :=
  match typ with removeItem x => without x l | removeMin => tail l | removeMax => take (length l - 1) l end.
Definition removes (h : nat) l typ (lo hi : nat) (r : outcome Empty_set (node A * option A)) : Prop :=
  ∃ n', r = Ok (n', taken typ l) ∧ wf h n' ∧ elems n' = remaining typ l ∧ (lo ≤ length (items n') ≤ hi)%nat.

Lemma removes_weaken h l typ lo hi lo' hi' r : removes h l typ lo hi r → (lo' ≤ lo)%nat → (hi ≤ hi')%nat → removes h l typ lo' hi' r.
Proof. intros (n' & ? & ? & ? & ?) ??. exists n'. split_and!; [done..|lia|lia]. Qed.

Lemma remaining_length typ l : sorted l → zlen (remaining typ l) = zlen l - match taken typ l with Some _ => 1 | None => 0 end.
Proof.
  clear mn mn_pos. intros Hs. destruct typ as [x| |]; cbn.
  - unfold without. rewrite zlen_app (parts_length x l Hs). destruct (same x l); lia.
  - destruct l; cbn; rewrite ?zlen_cons; unfold zlen; cbn; lia.
  - destruct l as [|y l _] using rev_ind; [done|]. rewrite last_snoc length_app take_app_length'; [|cbn; lia]. rewrite zlen_app. unfold zlen. cbn. lia.
Qed.

(** [typ] is looked for between [its1] and [its2], or it is the first of [its2]. *)
Definition seek (typ : toRemove) (its1 its2 : list A) : Prop :=
  match typ with
  | removeItem x => Forall (λ y, lt y x) its1 ∧ Forall (lt x) its2
  | removeMin => its1 = []
  | removeMax => its2 = []
  end.
Definition meets (typ : toRemove) (its1 : list A) (y : A) (its2 : list A) : Prop :=
  match typ with removeItem x => eqv x y ∧ Forall (λ y, lt y x) its1 ∧ Forall (lt x) its2 | _ => False end.

Lemma seek_exists n typ :
  sorted (items n) →
  (∃ its1 its2, items n = its1 ++ its2 ∧ seek typ its1 its2) ∨ (∃ its1 y its2, items n = its1 ++ y :: its2 ∧ meets typ its1 y its2).
Proof.
  intros Hs. destruct typ as [x| |].
  - destruct (locate _ x Hs) as [(a & b & ? & ? & ?)|(a & y & b & ? & ? & ? & ?)]; [left; by exists a, b|right; by exists a, y, b].
  - left. by exists [], (items n).
  - left. exists (items n), []. by rewrite app_nil_r.
Qed.
Lemma seek_at n typ its1 its2 : items n = its1 ++ its2 → seek typ its1 its2 → remove_at n typ = (length its1, false).
Proof.
  intros E Hk. unfold remove_at. rewrite E. destruct typ as [x| |]; cbn in Hk.
  - destruct Hk. by apply find_not.
  - by subst.
  - subst. by rewrite app_nil_r.
Qed.
Lemma meets_at n typ its1 y its2 : items n = its1 ++ y :: its2 → meets typ its1 y its2 → remove_at n typ = (length its1, true).
Proof. intros E Hk. unfold remove_at. rewrite E. destruct typ as [x| |]; [|done..]. destruct Hk as (? & ? & ?). by apply find_at. Qed.

Lemma remove_leaf n typ fuel :
  wf 0 n → sorted (elems n) → (0 < length (items n))%nat →
  removes 0 (elems n) typ (length (items n) - 1) (length (items n)) (remove (S fuel) n mn typ).
Proof.
  intros Hw Hs Hlen. pose proof (items_sorted _ _ Hw Hs) as Hsi. destruct Hw as [Hc Hx].
  assert (He : elems n = items n) by (by rewrite elems_node Hc). rewrite He. cbn [remove].
  destruct (seek_exists n typ Hsi) as [(a & b & E & Hk)|(a & y & b & E & Hk)].
  - rewrite (seek_at n typ a b E Hk) Hc. cbn [length]. destruct (decide _) as [_|]; [|done]. destruct typ as [x| |].
    + exists n. destruct Hk as [Ha Hb]. cbn [taken remaining]. unfold without. rewrite E. destruct (parts_gap x a b Ha Hb) as (-> & -> & ->).
      split_and!; [done|done|by rewrite He E|lia|lia].
    + destruct (items n) as [|y l]; [cbn in Hlen; lia|]. rewrite (removeAt_mid [] y l : removeAt (y :: l) 0 = Ok (y, l)). cbn [mbind outcome_bind].
      eexists. split_and!; [done|done|done|cbn; lia|cbn; lia].
    + destruct (items n) as [|y l _] using rev_ind; [cbn in Hlen; lia|]. rewrite pop_last. cbn [mbind outcome_bind].
      eexists. cbn [taken remaining]. rewrite last_snoc. split_and!; [done|done| |cbn; rewrite length_app; cbn; lia..].
      rewrite elems_node. cbn. rewrite length_app take_app_length' //. cbn. lia.
  - rewrite (meets_at n typ a y b E Hk) Hc. cbn [length]. destruct (decide _) as [_|]; [|done]. destruct typ as [x| |]; [|done..].
    rewrite E removeAt_mid. cbn [mbind outcome_bind]. destruct Hk as (Hxy & Ha & Hb). rewrite E in Hsi. eexists. cbn [taken remaining]. unfold without.
    destruct (parts_at x y a b Hsi Hxy) as (_ & _ & -> & -> & ->). split_and!; [done|done|done|cbn; rewrite !length_app; cbn; lia..].
Qed.

(** Removing from a child that can spare an item. *)
Lemma around_seek h its1 its2 chs1 c chs2 typ :
  frame h its1 its2 chs1 chs2 → sorted (elems (around its1 its2 chs1 c chs2)) → seek typ its1 its2 → elems c ≠ [] →
  taken typ (elems (around its1 its2 chs1 c chs2)) = taken typ (elems c) ∧
  remaining typ (elems (around its1 its2 chs1 c chs2)) = before its1 chs1 ++ remaining typ (elems c) ++ after its2 chs2.
Proof.
  intros Hf Hs Hk Hne. destruct typ as [x| |]; cbn [taken remaining].
  - destruct Hk as [H1 H2]. destruct (around_parts _ _ _ _ _ _ _ Hf Hs H1 H2) as (Hb & Ha & _). rewrite (elems_around _ _ _ _ _ _ Hf). unfold without.
    destruct (parts_around x _ (elems c) _ Hb Ha) as (-> & -> & ->). split; [done|]. by rewrite -!app_assoc.
  - cbn in Hk. subst its1. rewrite (elems_around _ _ _ _ _ _ Hf). destruct chs1; [|by destruct Hf]. cbn. by destruct (elems c).
  - cbn in Hk. subst its2. rewrite (elems_around _ _ _ _ _ _ Hf). destruct chs2; [|by destruct Hf]. cbn [rpart zip_with concat fmap list_fmap app]. rewrite app_nil_r.
    destruct (elems c) as [|y l _] using rev_ind; [done|]. rewrite !app_assoc !last_snoc. split; [done|].
    rewrite app_nil_r length_app take_app_length'; [|cbn; lia]. rewrite length_app take_app_length' //. cbn. lia.
Qed.

Lemma remove_child_ok h its1 its2 chs1 c chs2 typ rem :
  frame h its1 its2 chs1 chs2 → elems c ≠ [] → sorted (elems c) → sorted (elems (around its1 its2 chs1 c chs2)) → seek typ its1 its2 →
  removes h (elems c) typ mn mx (rem c) →
  removes (S h) (elems (around its1 its2 chs1 c chs2)) typ (length (its1 ++ its2)) (length (its1 ++ its2)) (remove_child rem (around its1 its2 chs1 c chs2) (length its1)).
Proof.
  intros Hf Hne Hsc Hs Hk (c' & Hrem & Hw & He & Hlen). destruct (around_seek _ _ _ _ _ _ _ Hf Hs Hk Hne) as [Ht Hr].
  pose proof (fr_left _ _ _ _ _ Hf) as L1. unfold remove_child. unfold around at 2 3 4 5. cbn [children items indices]. rewrite -L1 at_index_mid_ok. cbn [mbind outcome_bind].
  rewrite Hrem. cbn [mbind outcome_bind]. rewrite set_index_mid. cbn [mbind outcome_bind].
  assert (Hix : match taken typ (elems c) with
    | Some _ => addAt (index_of ((size <$> chs1) ++ size c :: (size <$> chs2))) (length chs1) (-1)
    | None => index_of ((size <$> chs1) ++ size c :: (size <$> chs2))
    end = index_of ((size <$> chs1) ++ size c' :: (size <$> chs2))).
  { assert (Hsz : size c' = size c - match taken typ (elems c) with Some _ => 1 | None => 0 end) by (unfold size; rewrite He; by apply remaining_length).
    rewrite Hsz. destruct (taken typ (elems c)); [|by rewrite Z.sub_0_r]. by rewrite -(length_fmap size chs1) addAt_index. }
  exists (around its1 its2 chs1 c' chs2). rewrite Ht Hr. split_and!.
  - do 2 f_equal. unfold around. f_equal. exact Hix.
  - by apply wf_around.
  - by rewrite (elems_around _ _ _ _ _ _ Hf) He.
  - done.
  - done.
Qed.

Lemma remove_pred_ok h its1 y its2 chs1 c chs2 x rem :
  frame h its1 (y :: its2) chs1 chs2 → elems c ≠ [] → sorted (elems c) → sorted (elems (around its1 (y :: its2) chs1 c chs2)) → eqv x y →
  removes h (elems c) removeMax mn mx (rem c) →
  removes (S h) (elems (around its1 (y :: its2) chs1 c chs2)) (removeItem x) (length (its1 ++ y :: its2)) (length (its1 ++ y :: its2))
    (remove_pred rem (around its1 (y :: its2) chs1 c chs2) (length its1)).
Proof.
  intros Hf Hne Hsc Hs Hxy (c' & Hrem & Hw & He & Hlen). pose proof Hf as [L1 L2 F1 F2].
  destruct (elems c) as [|z l _] eqn:Ec using rev_ind; [done|]. cbn [taken remaining] in Hrem, He. rewrite last_snoc in Hrem.
  rewrite length_app take_app_length' in He; [|cbn; lia].
  unfold remove_pred. unfold around at 2 3 4 5 6. cbn [children items indices]. rewrite -L1 at_index_mid_ok L1 at_index_mid_ok. cbn [mbind outcome_bind].
  rewrite Hrem. cbn [mbind outcome_bind]. rewrite set_index_mid. cbn [mbind outcome_bind]. rewrite -L1 set_index_mid. cbn [mbind outcome_bind].
  destruct chs2 as [|d chs2]; [done|].
  assert (Hf' : frame h its1 (z :: its2) chs1 (d :: chs2)) by (by split).
  assert (Eel : elems (around its1 (y :: its2) chs1 c (d :: chs2)) = (before its1 chs1 ++ elems c) ++ y :: (elems d ++ after its2 chs2)).
  { rewrite (elems_around _ _ _ _ _ _ Hf). by rewrite -!app_assoc. }
  rewrite Eel in Hs |- *. destruct (parts_at x y _ _ Hs Hxy) as (_ & _ & Hb & Ha & Hsm). exists (around its1 (z :: its2) chs1 c' (d :: chs2)).
  cbn [taken remaining]. unfold without. rewrite Hb Ha Hsm. split_and!.
  - do 2 f_equal. unfold around. f_equal. assert (Hsz : size c' = size c + -1) by (unfold size; rewrite He Ec zlen_app; unfold zlen; cbn; lia).
    by rewrite Hsz -(length_fmap size chs1) addAt_index.
  - by apply wf_around.
  - rewrite (elems_around _ _ _ _ _ _ Hf') He Ec. by rewrite -!app_assoc.
  - cbn. rewrite !length_app. cbn. lia.
  - cbn. rewrite !length_app. cbn. lia.
Qed.

(** ** Growing a child *)

(** Two neighbouring children and the item between them. *)
Notation pair its1 p its2 chs1 s c chs2 := (around its1 (p :: its2) chs1 s (c :: chs2)).
Lemma pair_around its1 p its2 chs1 s c chs2 : pair its1 p its2 chs1 s c chs2 = around (its1 ++ [p]) its2 (chs1 ++ [s]) c chs2.
Proof. unfold around. rewrite -!app_assoc fmap_app -app_assoc //. Qed.
Lemma frame_left h its1 p its2 chs1 s chs2 : frame h its1 its2 chs1 chs2 → child_ok h s → frame h (its1 ++ [p]) its2 (chs1 ++ [s]) chs2.
Proof. intros [L1 L2 F1 F2] Hs. split; [rewrite !length_app; cbn; lia|done| |done]. apply Forall_app. by split; [|constructor]. Qed.
Lemma frame_right h its1 p its2 chs1 c chs2 : frame h its1 its2 chs1 chs2 → child_ok h c → frame h its1 (p :: its2) chs1 (c :: chs2).
Proof. intros [L1 L2 F1 F2] Hs. split; [done|cbn; lia|done|by constructor]. Qed.
Lemma frame_right_inv h its1 p its2 chs1 c chs2 : frame h its1 (p :: its2) chs1 (c :: chs2) → frame h its1 its2 chs1 chs2 ∧ child_ok h c.
Proof. intros [L1 L2 F1 [? ?]%Forall_cons]. cbn in L2. split; [split; [done|lia|done|done]|done]. Qed.
Lemma elems_pair h its1 p its2 chs1 s c chs2 :
  frame h its1 its2 chs1 chs2 → child_ok h c →
  elems (pair its1 p its2 chs1 s c chs2) = before its1 chs1 ++ (elems s ++ p :: elems c) ++ after its2 chs2.
Proof. intros Hf Hc. rewrite (elems_around _ _ _ _ _ _ (frame_right _ _ p _ _ _ _ Hf Hc)). by rewrite -!app_assoc. Qed.

(** The slices of a node at two neighbouring children. *)
Lemma at_pair {X} (a : list X) (x y : X) b : at_index (a ++ x :: y :: b) (S (length a)) = Ok y.
Proof. replace (S (length a)) with (length (a ++ [x])) by (rewrite length_app; cbn; lia). rewrite (app_assoc a [x] (y :: b)). apply at_index_mid_ok. Qed.
Lemma set_pair {X} (a : list X) (x y z : X) b : set_index (a ++ x :: y :: b) (S (length a)) z = Ok (a ++ x :: z :: b).
Proof.
  replace (S (length a)) with (length (a ++ [x])) by (rewrite length_app; cbn; lia). rewrite (app_assoc a [x] (y :: b)) set_index_mid. by rewrite -app_assoc.
Qed.
Lemma insertAt_first {X} (x : X) b : insertAt b 0 x = Ok (x :: b).
Proof. apply (insertAt_mid [] x b). Qed.
Lemma removeAt_first {X} (x : X) b : removeAt (x :: b) 0 = Ok (x, b).
Proof. apply (removeAt_mid [] x b). Qed.

(** A node that gives away its last item, with its last child. *)
Lemma last_given h n si z :
  wf h n → items n = si ++ [z] →
  match h with
  | O => children n = [] ∧ indices n = [] ∧ elems n = si ++ [z]
  | S h => ∃ cs d, children n = cs ++ [d] ∧ indices n = index_of ((size <$> cs) ++ [size d]) ∧ wf (S h) (mkNode si cs (index_of (size <$> cs))) ∧ child_ok h d ∧
      elems n = elems (mkNode si cs (index_of (size <$> cs))) ++ z :: elems d
  end.
Proof.
  intros Hw Hi. destruct h as [|h]; [destruct Hw as [Hc Hx]; split_and!; [done..|]; by rewrite elems_node Hc Hi|].
  destruct Hw as (Hl & Hx & Hc). rewrite Hi length_app Nat.add_1_r in Hl. destruct (children n) as [|d cs _] eqn:Ec using rev_ind; [done|].
  rewrite length_app Nat.add_1_r in Hl. apply Forall_app in Hc as [F1 Fd]. rewrite Forall_singleton in Fd. exists cs, d. split_and!; [done| | |done|].
  - by rewrite Hx fmap_app.
  - cbn. split_and!; [lia|done|done].
  - rewrite (elems_node n) (elems_node (mkNode _ _ _)). cbn [items children]. rewrite Hi Ec fmap_app inter_split; [done|]. rewrite length_fmap. lia.
Qed.
(** A node that gives away its first item, with its first child. *)
Lemma first_given h n z si :
  wf h n → items n = z :: si →
  match h with
  | O => children n = [] ∧ indices n = [] ∧ elems n = z :: si
  | S h => ∃ d cs, children n = d :: cs ∧ indices n = index_of (size d :: (size <$> cs)) ∧ wf (S h) (mkNode si cs (index_of (size <$> cs))) ∧ child_ok h d ∧
      elems n = elems d ++ z :: elems (mkNode si cs (index_of (size <$> cs)))
  end.
Proof.
  intros Hw Hi. destruct h as [|h]; [destruct Hw as [Hc Hx]; split_and!; [done..|]; by rewrite elems_node Hc Hi|].
  destruct Hw as (Hl & Hx & Hc). rewrite Hi in Hl. destruct (children n) as [|d cs] eqn:Ec; [done|].
  apply Forall_cons in Hc as [Fd F1]. exists d, cs. split_and!; [done|done| |done|].
  - cbn in *. split_and!; [lia|done|done].
  - rewrite (elems_node n) (elems_node (mkNode _ _ _)). cbn [items children]. by rewrite Hi Ec.
Qed.
(** A node that gets an item and a child at its front or at its end. *)
Lemma front_got h n p d :
  wf (S h) n → child_ok h d →
  ix_insertAt (indices n) 0 (size d) = index_of (size <$> d :: children n) ∧
  wf (S h) (mkNode (p :: items n) (d :: children n) (index_of (size <$> d :: children n))) ∧
  elems (mkNode (p :: items n) (d :: children n) (index_of (size <$> d :: children n))) = elems d ++ p :: elems n.
Proof.
  intros (Hl & Hx & Hc) Hd. split_and!.
  - by rewrite Hx ix_insertAt_index0.
  - cbn [wf children items indices]. split_and!; [cbn; lia|done|by constructor].
  - rewrite (elems_node n) (elems_node (mkNode _ _ _)). cbn [items children]. done.
Qed.
Lemma back_got h n p d :
  wf (S h) n → child_ok h d →
  push (indices n) (size d) = index_of (size <$> children n ++ [d]) ∧
  wf (S h) (mkNode (items n ++ [p]) (children n ++ [d]) (index_of (size <$> children n ++ [d]))) ∧
  elems (mkNode (items n ++ [p]) (children n ++ [d]) (index_of (size <$> children n ++ [d]))) = elems n ++ p :: elems d.
Proof.
  intros (Hl & Hx & Hc) Hd. split_and!.
  - by rewrite Hx push_index fmap_app.
  - cbn [wf children items indices]. split_and!; [rewrite !length_app; cbn; lia|done|]. apply Forall_app. by split; [|constructor].
  - rewrite (elems_node n) (elems_node (mkNode _ _ _)). cbn [items children]. rewrite fmap_app inter_split; [done|]. by rewrite length_fmap.
Qed.

(** Both steals move items over the item between two children. *)
Definition moved (h : nat) (p : A) (s c : node A) (z : A) (s' c' : node A) : Prop :=
  wf h s' ∧ wf h c' ∧ elems s' ++ z :: elems c' = elems s ++ p :: elems c.

Lemma pair_ok its1 z its2 chs1 s c chs2 u v :
  u = size s → v = size c →
  Ok (mkNode (its1 ++ z :: its2) (chs1 ++ s :: c :: chs2) (index_of ((size <$> chs1) ++ u :: v :: (size <$> chs2)))) = (Ok (pair its1 z its2 chs1 s c chs2) : outcome Empty_set _).
Proof. by intros -> ->. Qed.

Lemma stealLeft_ok h its1 p its2 chs1 s c chs2 si z :
  frame h its1 its2 chs1 chs2 → wf h s → wf h c → items s = si ++ [z] →
  ∃ s' c', stealLeft (pair its1 p its2 chs1 s c chs2) (S (length its1)) = Ok (pair its1 z its2 chs1 s' c' chs2) ∧
    moved h p s c z s' c' ∧ items s' = si ∧ items c' = p :: items c.
Proof.
  intros Hf Hs Hc Hi. pose proof (fr_left _ _ _ _ _ Hf) as L1.
  assert (E0 : (S (length its1) - 1)%nat = length its1) by lia.
  unfold stealLeft. rewrite E0. unfold around at 1 2 3 4 5 6 7 8 9. cbn [children items indices]. rewrite -L1 at_pair at_index_mid_ok. cbn [mbind outcome_bind].
  rewrite Hi pop_last. cbn [mbind outcome_bind]. rewrite L1 at_index_mid_ok. cbn [mbind outcome_bind]. rewrite insertAt_first. cbn [mbind outcome_bind]. rewrite set_index_mid. cbn [mbind outcome_bind].
  rewrite -L1 -(length_fmap size chs1) fmap_cons. rewrite at_index_mid. cbn [mbind outcome_bind]. rewrite move_index. cbn [mbind outcome_bind].
  pose proof (last_given h s si z Hs Hi) as Hg. destruct h as [|h].
  - destruct Hg as (Hsc & Hsx & Hse). destruct Hc as [Hcc Hcx]. rewrite Hsc. cbn [length]. destruct (decide _) as [|_]; [lia|].
    rewrite length_fmap set_pair. cbn [mbind outcome_bind]. rewrite set_index_mid. cbn [mbind outcome_bind].
    exists (mkNode si [] (indices s)), (mkNode (p :: items c) (children c) (indices c)).
    assert (Eel : elems c = items c) by (by rewrite elems_node Hcc).
    split_and!; [|split_and!; [done|done|]|done|done].
    + apply pair_ok; rewrite ?Hcc; unfold size; rewrite ?Hse ?Eel; cbn; rewrite ?zlen_app ?zlen_cons; unfold zlen; cbn; lia.
    + rewrite Hse Eel Hcc. cbn. by rewrite -app_assoc.
  - destruct Hg as (cs & d & Hsc & Hsx & Hws & Hd & Hse). rewrite Hsc Hsx. destruct (decide _) as [_|Hn]; [|rewrite length_app in Hn; cbn in Hn; lia].
    rewrite pop_last. cbn [mbind outcome_bind]. rewrite insertAt_first. cbn [mbind outcome_bind]. rewrite ix_pop_index. cbn [mbind outcome_bind].
    destruct (front_got h c p d Hc Hd) as (Hix & Hwc & Hce). rewrite Hix.
    rewrite at_index_mid. cbn [mbind outcome_bind].
    rewrite move_index. cbn [mbind outcome_bind].
    rewrite length_fmap set_pair. cbn [mbind outcome_bind]. rewrite set_index_mid. cbn [mbind outcome_bind].
    set (s' := mkNode si cs (index_of (size <$> cs))) in *. set (c' := mkNode (p :: items c) (d :: children c) (index_of (size <$> d :: children c))) in *.
    exists s', c'. split_and!; [|split_and!; [done|done|]|done|done].
    + apply pair_ok; unfold size; rewrite Hse ?Hce !zlen_app !zlen_cons; lia.
    + rewrite Hse Hce. by rewrite -!app_assoc.
Qed.

Lemma stealRight_ok h its1 p its2 chs1 c s chs2 z si :
  frame h its1 its2 chs1 chs2 → wf h c → wf h s → items s = z :: si →
  ∃ c' s', stealRight (pair its1 p its2 chs1 c s chs2) (length its1) = Ok (pair its1 z its2 chs1 c' s' chs2) ∧
    moved h p c s z c' s' ∧ items c' = items c ++ [p] ∧ items s' = si.
Proof.
  intros Hf Hc Hs Hi. pose proof (fr_left _ _ _ _ _ Hf) as L1.
  unfold stealRight. unfold around at 1 2 3 4 5 6 7 8 9. cbn [children items indices]. rewrite -L1 at_index_mid_ok at_pair. cbn [mbind outcome_bind].
  rewrite Hi removeAt_first. cbn [mbind outcome_bind]. rewrite L1 at_index_mid_ok. cbn [mbind outcome_bind]. rewrite set_index_mid. cbn [mbind outcome_bind].
  rewrite -L1 -(length_fmap size chs1) fmap_cons. rewrite at_index_mid. cbn [mbind outcome_bind]. rewrite move_index. cbn [mbind outcome_bind].
  pose proof (first_given h s z si Hs Hi) as Hg. destruct h as [|h].
  - destruct Hg as (Hsc & Hsx & Hse). destruct Hc as [Hcc Hcx]. rewrite Hsc. cbn [length]. destruct (decide _) as [|_]; [lia|].
    rewrite length_fmap set_index_mid. cbn [mbind outcome_bind]. rewrite set_pair. cbn [mbind outcome_bind].
    exists (mkNode (items c ++ [p]) (children c) (indices c)), (mkNode si [] (indices s)).
    assert (Eel : elems c = items c) by (by rewrite elems_node Hcc).
    split_and!; [|split_and!; [done|done|]|done|done].
    + apply pair_ok; rewrite ?Hcc; unfold size; rewrite ?Hse ?Eel; cbn; rewrite ?zlen_app ?zlen_cons; unfold zlen; cbn; lia.
    + rewrite Hse Eel Hcc. cbn. by rewrite -app_assoc.
  - destruct Hg as (d & cs & Hsc & Hsx & Hws & Hd & Hse). rewrite Hsc Hsx. destruct (decide _) as [_|Hn]; [|cbn in Hn; lia].
    rewrite removeAt_first. cbn [mbind outcome_bind]. rewrite ix_removeAt_index. cbn [mbind outcome_bind].
    destruct (back_got h c p d Hc Hd) as (Hix & Hwc & Hce). rewrite Hix.
    rewrite at_index_mid. cbn [mbind outcome_bind]. rewrite move_index. cbn [mbind outcome_bind].
    rewrite length_fmap set_index_mid. cbn [mbind outcome_bind]. rewrite set_pair. cbn [mbind outcome_bind].
    set (s' := mkNode si cs (index_of (size <$> cs))) in *. set (c' := mkNode (items c ++ [p]) (children c ++ [d]) (index_of (size <$> children c ++ [d]))) in *.
    exists c', s'. split_and!; [|split_and!; [done|done|]|done|done].
    + apply pair_ok; unfold size; rewrite ?Hse ?Hce ?zlen_app ?zlen_cons; lia.
    + rewrite Hse Hce. by rewrite -!app_assoc.
Qed.

Lemma mergeRight_ok h its1 p its2 chs1 c s chs2 :
  frame h its1 its2 chs1 chs2 → wf h c → wf h s →
  ∃ m, mergeRight (pair its1 p its2 chs1 c s chs2) (length its1) = Ok (around its1 its2 chs1 m chs2) ∧
    wf h m ∧ items m = items c ++ p :: items s ∧ elems m = elems c ++ p :: elems s.
Proof.
  intros Hf Hc Hs. pose proof (fr_left _ _ _ _ _ Hf) as L1.
  unfold mergeRight. unfold around at 1 2 3 4. cbn [children items indices]. rewrite -L1 at_index_mid_ok. cbn [mbind outcome_bind].
  rewrite L1 removeAt_mid -L1. cbn [mbind outcome_bind].
  assert (Hrm : removeAt (chs1 ++ c :: s :: chs2) (S (length chs1)) = Ok (s, chs1 ++ c :: chs2)).
  { replace (S (length chs1)) with (length (chs1 ++ [c])) by (rewrite length_app; cbn; lia). rewrite (app_assoc chs1 [c] (s :: chs2)) removeAt_mid. by rewrite -app_assoc. }
  rewrite Hrm. cbn [mbind outcome_bind]. rewrite set_index_mid. cbn [mbind outcome_bind]. rewrite fmap_cons -(length_fmap size chs1) ix_merge_index. cbn [mbind outcome_bind].
  set (m := mkNode (items c ++ p :: items s) (children c ++ children s) _). exists m.
  assert (Hm : wf h m ∧ elems m = elems c ++ p :: elems s).
  { destruct h as [|h].
    - destruct Hc as [Hcc Hcx], Hs as [Hsc Hsx]. split; [subst m; cbn; by rewrite Hcc Hsc Hcx|]. rewrite (elems_node m) (elems_node c) (elems_node s). subst m. cbn [items children]. by rewrite Hcc Hsc.
    - destruct Hc as (Hcl & Hcx & Hcf), Hs as (Hsl & Hsx & Hsf). split.
      + subst m. cbn [wf items children indices]. split_and!; [rewrite !length_app; cbn; lia| |by apply Forall_app].
        rewrite Hcx foldl_push fmap_app. do 2 f_equal. apply list_fmap_ext. intros i x Hx. rewrite Forall_lookup in Hsf. destruct (Hsf i x Hx) as [Hx' _]. by eapply node_length_ok.
      + rewrite (elems_node m) (elems_node c) (elems_node s). subst m. cbn [items children]. rewrite fmap_app inter_split //. by rewrite length_fmap. }
  destruct Hm as [Hw He]. split_and!; [|done|done|done]. unfold around. do 3 f_equal. f_equal. f_equal. unfold size. rewrite He zlen_app zlen_cons. lia.
Qed.

(** The child to remove from is the one between [its1] and [its2]. *)
Definition seeks (typ : toRemove) (its1 its2 : list A) : Prop :=
  seek typ its1 its2 ∨ ∃ y b, its2 = y :: b ∧ meets typ its1 y b.

(** It stays the same one when items are moved. *)
Lemma seeks_left typ a p z b : seeks typ (a ++ [p]) b → lt z p → seeks typ (a ++ [z]) b.
Proof.
  intros [H|(y & b' & -> & H)] Hz; destruct typ as [x| |]; cbn [seek meets] in *; try done; try by destruct a.
  - destruct H as [Ha Hb]. left. apply Forall_app in Ha as [Ha Hp]. rewrite Forall_singleton in Hp. split; [|done].
    apply Forall_app. split; [done|]. rewrite Forall_singleton. by eapply lt_trans.
  - by left.
  - destruct H as (He & Ha & Hb). right. exists y, b'. apply Forall_app in Ha as [Ha Hp]. rewrite Forall_singleton in Hp. split; [done|]. split; [done|]. split; [|done].
    apply Forall_app. split; [done|]. rewrite Forall_singleton. by eapply lt_trans.
Qed.
Lemma seeks_merge typ a p b : seeks typ a (p :: b) → seeks typ a b.
Proof.
  intros [H|(y & b' & [= -> ->] & H)]; destruct typ as [x| |]; cbn [seek meets] in *; try done; left; cbn [seek]; [|done|].
  - by destruct H as [? [_ ?]%Forall_cons].
  - by destruct H as (_ & ? & ?).
Qed.
Lemma seeks_right typ a p z b : seeks typ a (p :: b) → lt p z → seeks typ a (z :: b).
Proof.
  intros [H|(y & b' & [= -> ->] & H)] Hz; destruct typ as [x| |]; cbn [seek meets] in *; try done; left; cbn [seek]; [|done|].
  - destruct H as [? [? ?]%Forall_cons]. split; [done|]. constructor; [by eapply lt_trans|done].
  - destruct H as (He & ? & ?). split; [done|]. constructor; [|done]. by eapply eqv_lt_l; [apply eqv_sym|].
Qed.
Lemma seeks_last typ a p : seeks typ (a ++ [p]) [] → seeks typ a [].
Proof.
  intros [H|(y & b' & [=] & H)]. destruct typ as [x| |]; cbn [seek meets] in *; left; cbn [seek]; [|by destruct a|done]. by destruct H as [[? _]%Forall_app ?].
Qed.

Lemma can_spare_left h its1 its2 chs1 c chs2 :
  frame h its1 its2 chs1 chs2 →
  (if decide (0 < length its1)%nat then s ← at_index (children (around its1 its2 chs1 c chs2)) (length its1 - 1); Ok (bool_decide (mn < length (items s))%nat) else Ok false) =
  (Ok (match last chs1 with Some s => bool_decide (mn < length (items s))%nat | None => false end) : outcome Empty_set bool).
Proof.
  intros [L1 _ _ _]. rewrite -L1. destruct chs1 as [|s chs1 _] using rev_ind; [done|]. rewrite last_snoc length_app. cbn [length].
  destruct (decide _) as [_|]; [|lia]. cbn [around children]. replace (length chs1 + 1 - 1)%nat with (length chs1) by lia. by rewrite -app_assoc at_index_mid_ok.
Qed.
Lemma can_spare_right h its1 its2 chs1 c chs2 :
  frame h its1 its2 chs1 chs2 →
  (if decide (length its1 < length (items (around its1 its2 chs1 c chs2)))%nat
   then s ← at_index (children (around its1 its2 chs1 c chs2)) (S (length its1)); Ok (bool_decide (mn < length (items s))%nat) else Ok false) =
  (Ok (match chs2 with s :: _ => bool_decide (mn < length (items s))%nat | [] => false end) : outcome Empty_set bool).
Proof.
  intros [L1 L2 _ _]. cbn [around items children]. rewrite length_app -L1 -L2. destruct chs2 as [|s chs2]; cbn [length].
  - destruct (decide _); [lia|done].
  - destruct (decide _) as [_|]; [|lia]. by rewrite at_pair.
Qed.

(** After growing, the child to remove from can spare an item. *)
Definition grows h (typ : toRemove) its1 its2 chs1 c chs2 (r : outcome Empty_set (node A)) : Prop :=
  ∃ its1' its2' chs1' c' chs2', r = Ok (around its1' its2' chs1' c' chs2') ∧ frame h its1' its2' chs1' chs2' ∧ child_ok h c' ∧ (mn < length (items c'))%nat ∧
    seeks typ its1' its2' ∧ elems (around its1' its2' chs1' c' chs2') = elems (around its1 its2 chs1 c chs2) ∧
    (length (its1 ++ its2) - 1 ≤ length (its1' ++ its2') ≤ length (its1 ++ its2))%nat.

Lemma pair_lt h its1 p its2 chs1 s c chs2 y z :
  frame h its1 its2 chs1 chs2 → child_ok h c → sorted (elems (pair its1 p its2 chs1 s c chs2)) →
  (y ∈ elems s → lt y p) ∧ (z ∈ elems c → lt p z).
Proof.
  intros Hf Hc Hs. rewrite (elems_pair h) // in Hs. apply StronglySorted_app_1_r, StronglySorted_app_1_l in Hs. split; intros Hy.
  - eapply sorted_cross; [exact Hs|done|by left].
  - apply StronglySorted_app_1_r, StronglySorted_inv in Hs as [_ Hs]. rewrite Forall_forall in Hs. by apply Hs.
Qed.
Lemma items_elems h n x : wf h n → x ∈ items n → x ∈ elems n.
Proof.
  intros Hw. rewrite elems_node. destruct h as [|h]; [by destruct Hw as [-> _]|]. destruct Hw as (Hl & _). assert (Hl' : length (elems <$> children n) = S (length (items n))) by (by rewrite length_fmap).
  revert Hl'. generalize (elems <$> children n). clear. generalize (items n). intros its cs. revert its. induction cs as [|c cs IH]; intros [|y its] Hl Hx; simplify_eq/=; [by apply elem_of_nil in Hx|].
  apply elem_of_app. right. apply elem_of_cons in Hx as [->|Hx]; [by left|right; by apply IH].
Qed.

Lemma grow_left h typ its1 p its2 chs1 s c chs2 :
  frame h its1 its2 chs1 chs2 → child_ok h s → child_ok h c → (length (items c) ≤ mn)%nat → (mn < length (items s))%nat →
  sorted (elems (pair its1 p its2 chs1 s c chs2)) → seeks typ (its1 ++ [p]) its2 →
  grows h typ (its1 ++ [p]) its2 (chs1 ++ [s]) c chs2 (stealLeft (around (its1 ++ [p]) its2 (chs1 ++ [s]) c chs2) (length (its1 ++ [p]))).
Proof.
  intros Hf Hs Hc Hle Hlt Hso Hk. destruct (items s) as [|z si _] eqn:Ei using rev_ind; [cbn in Hlt; lia|]. destruct Hs as [Hws Hls], Hc as [Hwc Hlc].
  destruct (stealLeft_ok h its1 p its2 chs1 s c chs2 si z Hf Hws Hwc Ei) as (s' & c' & E & (Hws' & Hwc' & Hel) & His & Hic).
  rewrite -pair_around. replace (length (its1 ++ [p])) with (S (length its1)) by (rewrite length_app; cbn; lia). rewrite E pair_around.
  rewrite Ei length_app in Hlt, Hls. cbn in Hlt, Hls.
  assert (Hs' : child_ok h s') by (split; [done|rewrite His; lia]). assert (Hc' : child_ok h c') by (split; [done|rewrite Hic; cbn; lia]).
  eexists _, _, _, _, _. split; [done|]. split_and!; [by apply frame_left|done|rewrite Hic; cbn; lia| | |rewrite !length_app; cbn; lia..].
  - eapply seeks_left; [exact Hk|]. destruct (pair_lt h its1 p its2 chs1 s c chs2 z p Hf (conj Hwc Hlc) Hso) as [Hz _]. apply Hz. eapply items_elems; [exact Hws|]. rewrite Ei. apply elem_of_app. right. by left.
  - rewrite -!pair_around !(elems_pair h) //. by rewrite Hel.
Qed.
Lemma grow_right h typ its1 p its2 chs1 c s chs2 :
  frame h its1 its2 chs1 chs2 → child_ok h s → child_ok h c → (length (items c) ≤ mn)%nat → (mn < length (items s))%nat →
  sorted (elems (pair its1 p its2 chs1 c s chs2)) → seeks typ its1 (p :: its2) →
  grows h typ its1 (p :: its2) chs1 c (s :: chs2) (stealRight (pair its1 p its2 chs1 c s chs2) (length its1)).
Proof.
  intros Hf Hs Hc Hle Hlt Hso Hk. pose proof Hs as [Hws Hls]. destruct (items s) as [|z si] eqn:Ei; [cbn in Hlt; lia|]. destruct Hc as [Hwc Hlc].
  destruct (stealRight_ok h its1 p its2 chs1 c s chs2 z si Hf Hwc Hws Ei) as (c' & s' & E & (Hwc' & Hws' & Hel) & Hic & His). rewrite E.
  cbn in Hlt, Hls.
  assert (Hs' : child_ok h s') by (split; [done|rewrite His; lia]). assert (Hc' : child_ok h c') by (split; [done|rewrite Hic length_app; cbn; lia]).
  eexists _, _, _, _, _. split; [done|]. split_and!; [by apply frame_right|done|rewrite Hic length_app; cbn; lia| | |rewrite !length_app; cbn; lia..].
  - eapply seeks_right; [exact Hk|]. destruct (pair_lt h its1 p its2 chs1 c s chs2 p z Hf Hs Hso) as [_ Hz]. apply Hz. eapply items_elems; [exact Hws|]. rewrite Ei. by left.
  - rewrite !(elems_pair h) //. by rewrite Hel.
Qed.
Lemma grow_merge h typ its1 p its2 chs1 c s chs2 :
  frame h its1 its2 chs1 chs2 → child_ok h c → child_ok h s → (length (items c) ≤ mn)%nat → (length (items s) ≤ mn)%nat → seeks typ its1 its2 →
  grows h typ its1 (p :: its2) chs1 c (s :: chs2) (mergeRight (pair its1 p its2 chs1 c s chs2) (length its1)).
Proof.
  intros Hf [Hwc Hlc] [Hws Hls] Hle Hle' Hk. destruct (mergeRight_ok h its1 p its2 chs1 c s chs2 Hf Hwc Hws) as (m & E & Hwm & Him & Hem). rewrite E.
  exists its1, its2, chs1, m, chs2. split_and!; [done|done| | |done| |rewrite !length_app; cbn; lia..].
  - split; [done|]. rewrite Him length_app. cbn. lia.
  - rewrite Him length_app. cbn. lia.
  - rewrite (elems_pair h) // (elems_around _ _ _ _ _ _ Hf) Hem //.
Qed.

Lemma grow_ok h typ its1 its2 chs1 c chs2 :
  frame h its1 its2 chs1 chs2 → child_ok h c → (length (items c) ≤ mn)%nat → (0 < length (its1 ++ its2))%nat →
  sorted (elems (around its1 its2 chs1 c chs2)) → seeks typ its1 its2 →
  grows h typ its1 its2 chs1 c chs2 (growChild (around its1 its2 chs1 c chs2) (length its1) mn).
Proof.
  intros Hf Hc Hle Hlen Hs Hk. unfold growChild. rewrite (can_spare_left _ _ _ _ _ _ Hf). cbn [mbind outcome_bind]. pose proof Hf as [L1 L2 F1 F2].
  destruct (last chs1) as [s|] eqn:El; [destruct (bool_decide (mn < length (items s))%nat) eqn:Es|].
  - apply bool_decide_eq_true in Es. apply last_Some in El as [chs1' ->]. rewrite length_app Nat.add_1_r in L1. destruct its1 as [|p its1 _] using rev_ind; [done|].
    rewrite length_app Nat.add_1_r in L1. apply Forall_app in F1 as [F1 Fs]. rewrite Forall_singleton in Fs. apply grow_left; [split; [lia|done..]|done|done|done|done|by rewrite pair_around|done].
  - apply bool_decide_eq_false in Es. rewrite (can_spare_right _ _ _ _ _ _ Hf). cbn [mbind outcome_bind].
    destruct chs2 as [|d chs2]; [|destruct its2 as [|p its2]; [done|]; destruct (bool_decide (mn < length (items d))%nat) eqn:Ed].
    + destruct its2; [|done]. cbn [around items]. rewrite app_nil_r. destruct (decide _) as [_|]; [|lia]. apply last_Some in El as [chs1' ->].
      rewrite length_app Nat.add_1_r in L1. destruct its1 as [|p its1 _] using rev_ind; [done|]. rewrite length_app Nat.add_1_r in L1.
      apply Forall_app in F1 as [F1 Fs]. rewrite Forall_singleton in Fs. destruct (decide _) as [Hz|_]; [rewrite length_app in Hz; cbn in Hz; lia|].
      replace (length (its1 ++ [p]) - 1)%nat with (length its1) by (rewrite length_app; cbn; lia). rewrite -pair_around.
      assert (Hf' : frame h its1 [] chs1' []) by (split; [lia|done..]).
      destruct (grow_merge h typ its1 p [] chs1' s c [] Hf' Fs Hc ltac:(lia) Hle (seeks_last _ _ _ Hk)) as (i1 & i2 & c1 & m & c2 & E & ? & ? & ? & ? & He & Hl).
      exists i1, i2, c1, m, c2. split_and!; [done|done|done|done|done|by rewrite He pair_around|rewrite !length_app in Hl |- *; cbn in *; lia..].
    + apply frame_right_inv in Hf as [Hf Hd]. apply bool_decide_eq_true in Ed. by apply grow_right.
    + apply frame_right_inv in Hf as [Hf Hd]. apply bool_decide_eq_false in Ed. cbn [around items]. destruct (decide _) as [Hz|_]; [rewrite length_app in Hz; cbn in Hz; lia|].
      apply grow_merge; [done|done|done|done|lia|by eapply seeks_merge].
  - apply last_None in El as ->. destruct its1; [|done]. rewrite (can_spare_right _ _ _ _ _ _ Hf). cbn [mbind outcome_bind].
    destruct its2 as [|p its2]; [cbn in Hlen; lia|]. destruct chs2 as [|d chs2]; [done|]. apply frame_right_inv in Hf as [Hf Hd].
    destruct (bool_decide (mn < length (items d))%nat) eqn:Ed.
    + apply bool_decide_eq_true in Ed. by apply grow_right.
    + apply bool_decide_eq_false in Ed. cbn [around items]. destruct (decide _) as [Hz|_]; [cbn in Hz; lia|]. apply grow_merge; [done|done|done|done|lia|by eapply seeks_merge].
Qed.

Lemma elems_nonempty h n : wf h n → (0 < length (items n))%nat → elems n ≠ [].
Proof.
  intros Hw Hl E. destruct (items n) as [|x l] eqn:Ei; [cbn in Hl; lia|]. assert (Hx : x ∈ elems n) by (eapply items_elems; [exact Hw|rewrite Ei; by left]).
  rewrite E in Hx. by apply elem_of_nil in Hx.
Qed.
Lemma around_sorted h its1 its2 chs1 c chs2 : frame h its1 its2 chs1 chs2 → sorted (elems (around its1 its2 chs1 c chs2)) → sorted (elems c).
Proof. intros Hf Hs. rewrite (elems_around _ _ _ _ _ _ Hf) in Hs. by apply StronglySorted_app_1_r, StronglySorted_app_1_l in Hs. Qed.

(** Removing where the child can spare an item. *)
Lemma remove_big h fuel typ its1 its2 chs1 c chs2 :
  frame h its1 its2 chs1 chs2 → child_ok h c → (mn < length (items c))%nat → sorted (elems (around its1 its2 chs1 c chs2)) → seeks typ its1 its2 →
  (∀ typ, removes h (elems c) typ mn mx (remove fuel c mn typ)) →
  removes (S h) (elems (around its1 its2 chs1 c chs2)) typ (length (its1 ++ its2)) (length (its1 ++ its2)) (remove (S fuel) (around its1 its2 chs1 c chs2) mn typ).
Proof.
  intros Hf Hc Hlt Hs Hk Hrem. assert (Hne : elems c ≠ []) by (apply (elems_nonempty h); [apply Hc|lia]). pose proof (around_sorted _ _ _ _ _ _ Hf Hs) as Hsc.
  pose proof (fr_left _ _ _ _ _ Hf) as L1. set (n := around its1 its2 chs1 c chs2) in *.
  assert (Hat : at_index (children n) (length its1) = Ok c) by (subst n; cbn; rewrite -L1; apply at_index_mid_ok).
  assert (Hch : length (children n) ≠ 0%nat) by (subst n; cbn; rewrite length_app; cbn; lia).
  cbn [remove]. destruct Hk as [Hk|(y & b & -> & Hk)].
  - rewrite (seek_at n typ its1 its2 eq_refl Hk). destruct (decide (length (children n) = 0)%nat) as [|_]; [done|]. rewrite Hat. cbn [mbind outcome_bind].
    destruct (decide _) as [|_]; [lia|]. by apply remove_child_ok.
  - rewrite (meets_at n typ its1 y b eq_refl Hk). destruct (decide (length (children n) = 0)%nat) as [|_]; [done|]. rewrite Hat. cbn [mbind outcome_bind].
    destruct (decide _) as [|_]; [lia|]. destruct typ as [x| |]; [|done..]. destruct Hk as (? & ? & ?). by apply remove_pred_ok.
Qed.

Lemma remove_ok h fuel n typ :
  wf h n → sorted (elems n) → (0 < length (items n))%nat → (2 * h + 1 ≤ fuel)%nat →
  removes h (elems n) typ (length (items n) - 1) (length (items n)) (remove fuel n mn typ).
Proof.
  revert fuel n typ. induction h as [|h IH]; intros fuel n typ Hw Hs Hlen Hfuel; (destruct fuel as [|fuel]; [lia|]); [by apply remove_leaf|].
  assert (Hseek : ∃ its1 its2, items n = its1 ++ its2 ∧ seeks typ its1 its2).
  { destruct (seek_exists n typ (items_sorted _ _ Hw Hs)) as [(a & b & ? & ?)|(a & y & b & ? & ?)]; [exists a, b; by split; [|left]|exists a, (y :: b)].
    split; [done|right; by exists y, b]. }
  destruct Hseek as (its1 & its2 & Ei & Hk). destruct (around_wf h n its1 its2 Hw Ei) as (chs1 & c & chs2 & -> & Hf & Hc). cbn [around items] in Hlen.
  assert (IH' : ∀ fuel c typ, (2 * h + 1 ≤ fuel)%nat → child_ok h c → (mn < length (items c))%nat → sorted (elems c) → removes h (elems c) typ mn mx (remove fuel c mn typ)).
  { intros f d t Hfl [Hd Hld] Hmn Hsd. eapply removes_weaken; [apply IH; [done|done|lia|done]|lia|lia]. }
  pose proof (around_sorted _ _ _ _ _ _ Hf Hs) as Hsc. pose proof (fr_left _ _ _ _ _ Hf) as L1.
  destruct (decide (mn < length (items c))%nat) as [Hbig|Hsmall].
  - eapply removes_weaken; [apply remove_big; try done; intros t; apply IH'; [lia|done..]|cbn; lia|done].
  - destruct (grow_ok h typ its1 its2 chs1 c chs2 Hf Hc ltac:(lia) Hlen Hs Hk) as (i1 & i2 & c1 & m & c2 & E & Hf' & Hm & Hbig & Hk' & He & Hl).
    cbn [remove]. assert (Hi : (remove_at (around its1 its2 chs1 c chs2) typ).1 = length its1).
    { destruct Hk as [Hk|(y & b & -> & Hk)]; [by rewrite (seek_at (around its1 its2 chs1 c chs2) typ its1 its2 eq_refl Hk)|by rewrite (meets_at (around its1 (y :: b) chs1 c chs2) typ its1 y b eq_refl Hk)]. }
    destruct (remove_at (around its1 its2 chs1 c chs2) typ) as [i found]. cbn in Hi. subst i.
    destruct (decide _) as [Hz|_]; [cbn in Hz; rewrite length_app in Hz; cbn in Hz; lia|].
    assert (Hat : at_index (children (around its1 its2 chs1 c chs2)) (length its1) = Ok c) by (cbn; rewrite -L1; apply at_index_mid_ok).
    rewrite Hat. cbn [mbind outcome_bind]. destruct (decide _) as [_|]; [|lia]. rewrite E. cbn [mbind outcome_bind]. rewrite -He in Hs |- *.
    destruct fuel as [|fuel]; [lia|]. eapply removes_weaken; [apply remove_big; try done; intros t; apply IH'; [lia|done|done|by eapply around_sorted]|cbn; lia|cbn; lia].
Qed.
End Spec.
