(* ===== verification/BTreeQuery.v ===== *)
(** What the queries of the B-tree of scheduler/pkg/btree return: an item, its
    index and the item at an index are those of the sorted sequence of the tree,
    and a walk gives the iterator the items of its range in order. *)

From S2P Require Import Prelude BTree BTreeSpec.
Import btree.

(** ** Walks *)

Section Visit.
Context {A : Type} `{!Item A} {order : ItemOrder A}.
Implicit Types (x y : A) (l : list A) (n : node A).
Notation sorted := (StronglySorted lt).
Context {St : Type} (iter : St → A → St * bool) (start stop : option A) (includeStart : bool).
Implicit Types (s : St) (hit : bool).

(** The iterator on a sequence, until it says not to go on. *)
Fixpoint visit (it : St → A → St * bool) l s : St * bool :=
  match l with
  | [] => (s, true)
  | x :: l => let '(s, go) := it s x in if (go : bool) then visit it l s else (s, false)
  end.
Lemma visit_app it a b s : visit it (a ++ b) s = let '(s, go) := visit it a s in if (go : bool) then visit it b s else (s, false).
Proof. revert s. induction a as [|x a IH]; intros s; cbn; [done|]. destruct (it s x) as [s' []]; [apply IH|done]. Qed.

Definition until (P : A → bool) s x : St * bool := if P x then (s, false) else iter s x.
Definition up : St → A → St * bool := until (λ x, match stop with Some p => negb (Less x p) | None => false end).
Definition down : St → A → St * bool := until (λ x, match stop with Some p => negb (Less p x) | None => false end).

(** What a run over a subtree gives: the iterator has seen a sequence. *)
Definition sees (it : St → A → St * bool) l s (r : outcome Empty_set (bool * St * bool)) : Prop :=
  ∃ hit, r = Ok (hit, (visit it l s).1, (visit it l s).2).

Definition from_start x : Prop := match start with Some p => ¬ lt x p | None => True end.
#[global] Instance from_start_dec x : Decision (from_start x).
Proof. unfold from_start. destruct start; apply _. Defined.
Definition upto_start x : Prop := match start with Some p => ¬ lt p x | None => True end.
#[global] Instance upto_start_dec x : Decision (upto_start x).
Proof. unfold upto_start. destruct start; apply _. Defined.
Definition passed x : Prop := match start with Some p => lt x p | None => True end.
Context (Hstart : start = None ∨ includeStart = true).

Lemma ascend_skips hit x : negb includeStart && negb hit && negb (starts_after start x) = false.
Proof. destruct Hstart as [->| ->]; [cbn; by rewrite andb_false_r|done]. Qed.

Lemma ascend_loop (child : bool * St → nat → outcome Empty_set (bool * St * bool)) n its1 its2 vs k hit s :
  items n = its1 ++ its2 → (∀ hs, child hs k = child hs (length its1 + length its2)%nat) → length vs = S (length its2) →
  (∀ j v, vs !! j = Some v → ∀ hit s, sees up v s (child (hit, s) (length its1 + j)%nat)) →
  sees up (inter its2 vs) s
    ('(hs, ok) ← for_indices (seq (length its1) (length its2)) (ascend_item iter start stop includeStart child n) (hit, s);
     if negb ok then Ok (hs, false) else child hs k).
Proof.
  revert its1 vs hit s. induction its2 as [|x its2 IH]; intros its1 vs hit s Ei Hk Hl Hv.
  - destruct vs as [|v [|]]; [done| |done]. cbn. rewrite Hk. apply (Hv 0%nat v eq_refl hit s).
  - destruct vs as [|v vs]; [done|]. cbn [length seq for_indices inter]. destruct (Hv 0%nat v eq_refl hit s) as [hit' Ec]. rewrite Nat.add_0_r in Ec.
    unfold sees. rewrite visit_app. unfold ascend_item at 2. rewrite Ec. destruct (visit up v s) as [s' go]. cbn [mbind outcome_bind fst snd].
    destruct go; cbn [negb]; [|by eexists]. rewrite Ei at_index_mid_ok. cbn [mbind outcome_bind fst snd]. rewrite ascend_skips. cbn [visit].
    assert (Eu : up s' x = if match stop with Some p => negb (Less x p) | None => false end then (s', false) else iter s' x) by done. rewrite Eu.
    destruct (match stop with Some p => negb (Less x p) | None => false end); [by eexists|]. destruct (iter s' x) as [s'' []]; [|by eexists]. cbn [mbind outcome_bind].
    replace (S (length its1)) with (length (its1 ++ [x])) by (rewrite length_app; cbn; lia).
    apply (IH (its1 ++ [x])); [by rewrite -app_assoc| |cbn in Hl; lia|].
    { intros hs. rewrite Hk length_app. cbn. by rewrite -Nat.add_assoc. }
    intros j w Hj hit1 s1. rewrite length_app. cbn.
    replace (length its1 + 1 + j)%nat with (length its1 + S j)%nat by lia. by apply (Hv (S j)).
Qed.

(** The items of a node the walk begins with. *)
Lemma ascend_start (its : list A) :
  sorted its → ∃ its1 its2, its = its1 ++ its2 ∧ match start with Some p => (find its p).1 | None => O end = length its1 ∧
    Forall (λ x, ¬ from_start x) its1 ∧ Forall from_start its2.
Proof.
  clear Hstart. intros Hs. unfold from_start. destruct start as [p|]; [|exists [], its; split_and!; [done..|by apply Forall_true]].
  destruct (locate its p Hs) as [(a & b & -> & Ha & Hb)|(a & y & b & -> & He & Ha & Hb)].
  - exists a, b. rewrite find_not //. split_and!; [done..| |].
    + eapply Forall_impl; [exact Ha|]. naive_solver.
    + eapply Forall_impl; [exact Hb|]. intros. by apply lt_asym.
  - exists a, (y :: b). rewrite find_at //. split_and!; [done..| |].
    + eapply Forall_impl; [exact Ha|]. naive_solver.
    + constructor; [apply He|]. eapply Forall_impl; [exact Hb|]. intros. by apply lt_asym.
Qed.

Lemma filter_inter (P : A → Prop) `{∀ x, Decision (P x)} its cs :
  Forall P its → filter P (inter its cs) = inter its (filter P <$> cs).
Proof.
  intros Hits. revert its Hits. induction cs as [|c cs IH]; intros its Hits; cbn; [by apply filter_Forall|].
  destruct Hits as [|x its Hx Hits]; [done|]. by rewrite filter_app filter_cons_True // IH.
Qed.
Lemma inter_nils (its : list A) : inter its (replicate (S (length its)) []) = its.
Proof. induction its as [|x its IH]; [done|]. cbn in *. by rewrite IH. Qed.

(** Downwards: [hit] is set only when what is left is below the start. *)

Definition sees_down l hit s (r : outcome Empty_set (bool * St * bool)) : Prop :=
  ∃ hit', r = Ok (hit', (visit down (rev l) s).1, (visit down (rev l) s).2) ∧ (hit' = true → hit = true ∨ l ≠ []).

Lemma descend_keeps hit x :
  upto_start x → (hit = true → passed x) →
  match start with Some p => negb (Less x p) && (negb includeStart || hit || Less p x) | None => false end = false.
Proof.
  unfold upto_start, passed. destruct start as [p|]; [|done]. intros Hu Hp. destruct Hstart as [|Hi]; [done|]. rewrite Hi. apply lt_false in Hu as ->.
  destruct hit; [by rewrite (Hp eq_refl)|]. apply andb_false_r.
Qed.
Lemma before_passed a x b : sorted (a ++ x :: b) → upto_start x → Forall passed a.
Proof.
  unfold upto_start, passed. intros Hs Hu. rewrite Forall_forall. intros z Hz. destruct start as [p|]; [|done].
  assert (Hzx : lt z x) by (eapply sorted_cross; [exact Hs|done|by left]). by destruct (Less_between z p x Hzx).
Qed.

Lemma descend_loop (child : bool * St → nat → outcome Empty_set (bool * St * bool)) n its1 its2 vs hit s :
  items n = its1 ++ its2 → length vs = S (length its1) → Forall upto_start (inter its1 vs) → sorted (inter its1 vs) → (hit = true → Forall passed (inter its1 vs)) →
  (∀ j v, vs !! j = Some v → ∀ hit s, (hit = true → Forall passed v) → sees_down v hit s (child (hit, s) j)) →
  sees_down (inter its1 vs) hit s
    ('(hs, ok) ← for_indices (rev (seq 0 (length its1))) (descend_item iter start stop includeStart child n) (hit, s);
     if negb ok then Ok (hs, false) else child hs O).
Proof.
  revert its2 vs hit s. induction its1 as [|x its1 IH] using rev_ind; intros its2 vs hit s Ei Hl Hu Hs Hp Hv.
  - destruct vs as [|v [|]]; [done| |done]. cbn in *. by apply (Hv 0%nat).
  - rewrite length_app Nat.add_1_r in Hl |- *. destruct vs as [|v vs _] using rev_ind; [done|]. rewrite length_app Nat.add_1_r in Hl.
    rewrite seq_S rev_app_distr. cbn [rev app for_indices Nat.add]. assert (Ei' := inter_split its1 x [] vs [v] ltac:(lia)). cbn [inter] in Ei'. rewrite Ei' in Hu Hs Hp |- *.
    pose proof Hu as [Hu1 [Hux Huv]%Forall_cons]%Forall_app.
    assert (Hpv : hit = true → passed x ∧ Forall passed v) by (intros Ht; specialize (Hp Ht); apply Forall_app in Hp as [_ [? ?]%Forall_cons]; done).
    destruct (Hv (S (length its1)) v) with (hit := hit) (s := s) as (hit' & Ec & Hh); [rewrite -(Nat.add_0_r (S _)) lookup_app_r; [|lia]; by replace (_ - _)%nat with 0%nat by lia|naive_solver|].
    unfold sees_down. rewrite rev_app_distr. cbn [rev]. rewrite -app_assoc visit_app. unfold descend_item at 2. rewrite Ei -app_assoc at_index_mid_ok.
    cbn [mbind outcome_bind fst snd]. rewrite descend_keeps; [|done|naive_solver]. rewrite Ec. destruct (visit down (rev v) s) as [s' go]. cbn [mbind outcome_bind fst snd].
    destruct go; cbn [negb]; [|exists hit'; split; [done|]; intros _; right; by destruct (inter its1 vs)]. cbn [app visit].
    assert (Eu : down s' x = if match stop with Some p => negb (Less p x) | None => false end then (s', false) else iter s' x) by done. rewrite Eu.
    assert (Hne : ∀ l, l ++ x :: v ≠ []) by (by intros []).
    destruct (match stop with Some p => negb (Less p x) | None => false end); [exists hit'; split; [done|naive_solver]|].
    destruct (iter s' x) as [s'' []]; [|exists true; split; [done|naive_solver]]. cbn [mbind outcome_bind].
    destruct (IH (x :: its2) vs true s'') as (hit'' & -> & _); [by rewrite Ei -app_assoc|lia|done|by eapply StronglySorted_app_1_l|intros _; by eapply before_passed| |].
    { intros j w Hj. apply Hv. by apply lookup_app_l_Some. }
    exists hit''. split; [done|naive_solver].
Qed.

Lemma descend_start (its : list A) :
  sorted its → ∃ its1 its2, its = its1 ++ its2 ∧
    match start with Some p => let '(index, found) := find its p in if (found : bool) then S index else index | None => length its end = length its1 ∧
    Forall upto_start its1 ∧ Forall (λ x, ¬ upto_start x) its2.
Proof.
  clear Hstart. intros Hs. unfold upto_start. destruct start as [p|]; [|exists its, []; rewrite app_nil_r; split_and!; [done..|by apply Forall_true|constructor]].
  destruct (locate its p Hs) as [(a & b & -> & Ha & Hb)|(a & y & b & -> & He & Ha & Hb)].
  - exists a, b. rewrite find_not //. split_and!; [done..| |].
    + eapply Forall_impl; [exact Ha|]. intros. by apply lt_asym.
    + eapply Forall_impl; [exact Hb|]. naive_solver.
  - exists (a ++ [y]), b. rewrite find_at // -app_assoc length_app Nat.add_1_r. split_and!; [done..| |].
    + apply Forall_app. split; [eapply Forall_impl; [exact Ha|]; intros; by apply lt_asym|]. apply Forall_singleton. apply He.
    + eapply Forall_impl; [exact Hb|]. naive_solver.
Qed.
End Visit.

Section Query.
Context {A : Type} `{!Item A} {order : ItemOrder A}.
Context (mn : nat) (mn_pos : (1 ≤ mn)%nat).
Implicit Types (x y : A) (l : list A) (n : node A).
Notation sorted := (StronglySorted lt).
Notation wf := (wf mn).
Notation frame := (frame mn).
Notation before its1 chs1 := (lpart its1 (elems <$> chs1)).
Notation after its2 chs2 := (rpart its2 (elems <$> chs2)).

(** ** Items and indices *)

Lemma zlen_lpart (its : list A) cs : length cs = length its → zlen (lpart its cs) = total (zlen <$> cs).
Proof.
  revert its. induction cs as [|c cs IH]; intros [|x its] Hl; simplify_eq/=; [done|]. unfold lpart. cbn. rewrite !zlen_app /total. cbn.
  fold (total (zlen <$> cs)). rewrite -(IH its) //.
Qed.
Lemma zlen_before (its : list A) chs : length chs = length its → zlen (before its chs) = total (size <$> chs).
Proof. intros Hl. rewrite zlen_lpart; [|by rewrite length_fmap]. by rewrite -list_fmap_compose. Qed.

Lemma around_child (its1 its2 : list A) chs1 c chs2 : length chs1 = length its1 → at_index (children (around its1 its2 chs1 c chs2)) (length its1) = Ok c.
Proof. intros L1. cbn. rewrite -L1. apply at_index_mid_ok. Qed.
Lemma around_some (its1 its2 : list A) chs1 c chs2 : (0 < length (children (around its1 its2 chs1 c chs2)))%nat.
Proof. cbn. rewrite length_app. cbn. lia. Qed.
Lemma around_prev (its1 its2 : list A) chs1 c chs2 :
  length chs1 = length its1 → (0 < length its1)%nat →
  at_index (indices (around its1 its2 chs1 c chs2)) (length its1 - 1) = Ok (total (size <$> chs1) - 1).
Proof.
  intros L1 Hp. destruct chs1 as [|d chs1 _] using rev_ind; [cbn in L1; lia|]. rewrite length_app in L1. cbn in L1. cbn [around indices].
  rewrite fmap_app -app_assoc. cbn. replace (length its1 - 1)%nat with (length (size <$> chs1)) by (rewrite length_fmap; lia).
  rewrite at_index_mid total_app. cbn. rewrite /total. cbn. f_equal. lia.
Qed.
Lemma around_here (its1 its2 : list A) chs1 c chs2 :
  length chs1 = length its1 → at_index (indices (around its1 its2 chs1 c chs2)) (length its1) = Ok (total (size <$> chs1) + size c).
Proof. intros L1. cbn [around indices]. rewrite -L1 -(length_fmap size chs1). apply at_index_mid. Qed.

Lemma get_ok h n x : wf h n → sorted (elems n) → get (S h) n x = Ok (same x (elems n)).
Proof.
  revert n. induction h as [|h IH]; intros n Hw Hs; pose proof (items_sorted mn mn_pos _ _ Hw Hs) as Hi; [|remember (S h) as fuel eqn:Ef in IH |- *].
  - destruct Hw as [Hc _]. rewrite elems_node Hc in Hs |- *. cbn in Hs. cbn [get]. rewrite Hc.
    destruct (locate _ x Hi) as [(a & b & E & Ha & Hb)|(a & y & b & E & He & Ha & Hb)]; rewrite E in Hs |- *; cbn.
    + rewrite find_not //. cbn. by destruct (parts_gap x a b Ha Hb) as (_ & _ & ->).
    + rewrite find_at // at_index_mid_ok. cbn. by destruct (parts_at x y a b Hs He) as (_ & _ & _ & _ & ->).
  - destruct (locate _ x Hi) as [(a & b & E & Ha & Hb)|(a & y & b & E & He & Ha & Hb)];
      destruct (around_wf mn mn_pos h n _ _ Hw E) as (chs1 & c & chs2 & -> & Hf & [Hc _]); cbn [get]; rewrite E.
    + rewrite find_not //. destruct (decide _) as [_|Hn]; [|by destruct Hn; apply around_some]. rewrite around_child; [|apply Hf]. cbn [mbind outcome_bind].
      destruct (around_parts mn mn_pos h a b chs1 c chs2 x Hf Hs Ha Hb) as (H1 & H2 & Hsc). rewrite IH // (elems_around _ _ _ _ _ _ _ Hf).
      by destruct (parts_around x _ (elems c) _ H1 H2) as (_ & _ & ->).
    + rewrite find_at // at_index_mid_ok. cbn [mbind outcome_bind]. rewrite (elems_around _ _ _ _ _ _ _ Hf) in Hs |- *.
      destruct chs2 as [|d chs2]; [by destruct Hf|]. cbn in Hs |- *. rewrite app_assoc in Hs |- *. by destruct (parts_at x y _ _ Hs He) as (_ & _ & _ & _ & ->).
Qed.

Lemma getWithIndex_ok h n x : wf h n → sorted (elems n) → getWithIndex (S h) n x = Ok (same x (elems n), zlen (below x (elems n))).
Proof.
  revert n. induction h as [|h IH]; intros n Hw Hs; pose proof (items_sorted mn mn_pos _ _ Hw Hs) as Hi; [|remember (S h) as fuel eqn:Ef in IH |- *].
  - destruct Hw as [Hc Hx]. rewrite elems_node Hc in Hs |- *. cbn in Hs. cbn [getWithIndex]. rewrite Hc Hx.
    destruct (locate _ x Hi) as [(a & b & E & Ha & Hb)|(a & y & b & E & He & Ha & Hb)]; rewrite E in Hs |- *; cbn [fmap list_fmap inter].
    + rewrite find_not //. destruct (decide _) as [Hz|_]; [cbn in Hz; lia|]. by destruct (parts_gap x a b Ha Hb) as (-> & _ & ->).
    + rewrite find_at // at_index_mid_ok. destruct (decide _) as [Hz|_]; [cbn in Hz; lia|]. cbn [mbind outcome_bind]. by destruct (parts_at x y a b Hs He) as (_ & _ & -> & _ & ->).
  - destruct (locate _ x Hi) as [(a & b & E & Ha & Hb)|(a & y & b & E & He & Ha & Hb)];
      destruct (around_wf mn mn_pos h n _ _ Hw E) as (chs1 & c & chs2 & -> & Hf & [Hc _]); cbn [getWithIndex]; rewrite E; pose proof (fr_left _ _ _ _ _ _ Hf) as L1.
    + rewrite find_not //. destruct (decide _) as [_|Hn]; [|by destruct Hn; apply around_some]. rewrite around_child //. cbn [mbind outcome_bind].
      destruct (around_parts mn mn_pos h a b chs1 c chs2 x Hf Hs Ha Hb) as (H1 & H2 & Hsc). rewrite IH // (elems_around _ _ _ _ _ _ _ Hf). cbn [mbind outcome_bind].
      destruct (parts_around x _ (elems c) _ H1 H2) as (-> & _ & ->). rewrite zlen_app zlen_before //. destruct (decide _) as [Hp|Hp].
      * rewrite around_prev //. cbn. do 2 f_equal. lia.
      * destruct a; [|cbn in Hp; lia]. by destruct chs1.
    + rewrite find_at // at_index_mid_ok. destruct (decide _) as [_|Hn]; [|destruct Hn; cbn; rewrite length_index_from length_app; cbn; lia].
      rewrite around_here //. cbn [mbind outcome_bind]. rewrite (elems_around _ _ _ _ _ _ _ Hf) in Hs |- *.
      destruct chs2 as [|d chs2]; [by destruct Hf|]. cbn in Hs |- *. rewrite app_assoc in Hs |- *. destruct (parts_at x y _ _ Hs He) as (_ & _ & -> & _ & ->).
      by rewrite zlen_app zlen_before.
Qed.

(** The subtree or the item at an index. *)
Lemma index_ge acc (ss : list Z) : Forall (λ s, 0 ≤ s) ss → Forall (λ v, acc ≤ v) (index_from acc ss).
Proof.
  intros H. revert acc. induction H as [|s ss Hs _ IH]; intros acc; cbn; constructor; [lia|]. eapply Forall_impl; [apply IH|]. cbn. lia.
Qed.
Lemma index_cut acc (ss : list Z) k :
  Forall (λ s, 0 ≤ s) ss → acc ≤ k < acc + total ss →
  ∃ a s b, ss = a ++ s :: b ∧ acc + total a ≤ k ≤ acc + total a + s ∧ Forall (λ v, v < k) (index_from acc a) ∧ Forall (λ v, k ≤ v) (index_from (acc + total a) (s :: b)).
Proof.
  intros H. revert acc. induction H as [|s ss Hs Hss IH]; intros acc Hk; [cbn in Hk; lia|]. unfold total in Hk. cbn in Hk. fold (total ss) in Hk.
  destruct (decide (k ≤ acc + s)) as [Hle|Hgt].
  - exists [], s, ss. cbn. rewrite Z.add_0_r. split_and!; [done|lia|lia|constructor|]. constructor; [lia|]. eapply Forall_impl; [by apply index_ge|]. cbn. lia.
  - destruct (IH (acc + s + 1)) as (a & s' & b & -> & Hin & Ha & Hb); [lia|]. exists (s :: a), s', b.
    replace (acc + total (s :: a)) with (acc + s + 1 + total a) by (unfold total; cbn; lia). split_and!; [done|lia|lia| |done]. cbn. constructor; [lia|done].
Qed.
Lemma ix_find_ok a s b k :
  Forall (λ v, v < k) (index_of a) → Forall (λ v, k ≤ v) (index_from (total a) (s :: b)) →
  ix_find (index_of (a ++ s :: b)) k = Ok (length a, bool_decide (total a + s = k)).
Proof.
  intros Ha Hb. unfold ix_find. rewrite index_from_app Z.add_0_l (Search_split (λ v, bool_decide (k ≤ v))).
  - rewrite -{1}(Z.add_0_l (total a)) -index_from_app length_index_from at_index_mid. done.
  - eapply Forall_impl; [exact Ha|]. cbn. intros v Hv. apply bool_decide_eq_false. lia.
  - eapply Forall_impl; [exact Hb|]. cbn. intros v Hv. by apply bool_decide_eq_true.
Qed.

(** The item at an index of a sequence. *)
Definition nth_item l (k : Z) : option A := if decide (0 ≤ k) then l !! Z.to_nat k else None.
Lemma nth_item_out l k : k < 0 ∨ zlen l ≤ k → nth_item l k = None.
Proof. clear mn mn_pos. unfold nth_item. intros [Hk|Hk]; (destruct (decide _); [|done]); [lia|]. apply lookup_ge_None. unfold zlen in Hk. lia. Qed.
Lemma nth_item_app a b k : zlen a ≤ k → nth_item (a ++ b) k = nth_item b (k - zlen a).
Proof.
  clear mn mn_pos. unfold nth_item. unfold zlen. intros Hk. rewrite !decide_True; [|lia..]. rewrite lookup_app_r; [|lia]. f_equal. lia.
Qed.
Lemma nth_item_l a b k : k < zlen a → nth_item (a ++ b) k = nth_item a k.
Proof. clear mn mn_pos. unfold nth_item, zlen. intros Hk. destruct (decide _); [|done]. rewrite lookup_app_l //. lia. Qed.

Lemma sizes_ok (chs : list (node A)) : Forall (λ s, 0 ≤ s) (size <$> chs).
Proof. rewrite Forall_fmap. apply Forall_true. intros c. cbn. unfold size, zlen. lia. Qed.

(** The child or the item an index is at. *)
Lemma locate_index h n k :
  wf (S h) n → 0 ≤ k < size n →
  ∃ its1 its2 chs1 c chs2, n = around its1 its2 chs1 c chs2 ∧ frame h its1 its2 chs1 chs2 ∧ child_ok mn h c ∧
    total (size <$> chs1) ≤ k ≤ total (size <$> chs1) + size c ∧ ix_find (indices n) k = Ok (length its1, bool_decide (total (size <$> chs1) + size c = k)).
Proof.
  intros Hw Hk. assert (Hsz : size n = total (size <$> children n) - 1) by (apply size_node; apply Hw).
  destruct (index_cut 0 (size <$> children n) k (sizes_ok _)) as (a & s & b & E & Hin & Ha & Hb); [lia|].
  assert (Hla : (length a < length (children n))%nat) by (rewrite -(length_fmap size (children n)) E length_app; cbn; lia).
  destruct (cut_list (items n) (length a)) as (its1 & its2 & Ei & Hl1); [destruct Hw as [Hl _]; lia|].
  destruct (around_wf mn mn_pos h n its1 its2 Hw Ei) as (chs1 & c & chs2 & -> & Hf & Hc). pose proof (fr_left _ _ _ _ _ _ Hf) as L1.
  exists its1, its2, chs1, c, chs2. cbn [around children] in E. rewrite fmap_app fmap_cons in E. apply app_inj_1 in E as [<- [= <- <-]]; [|rewrite length_fmap; lia].
  cbn [around indices]. rewrite ix_find_ok // length_fmap L1. done.
Qed.

Lemma getAt_ok h n k : wf h n → getAt (S h) n k = Ok (nth_item (elems n) k).
Proof.
  revert n k. induction h as [|h IH]; intros n k Hw; [|remember (S h) as fuel eqn:Ef in IH |- *]; cbn [getAt]; rewrite (node_length_ok mn mn_pos _ n Hw);
    (destruct (decide _) as [Hout|Hin]; [by rewrite nth_item_out; [|unfold size in Hout; lia]|]).
  - destruct Hw as [Hc _]. unfold size in Hin. rewrite elems_node Hc in Hin |- *. cbn in Hin |- *. unfold at_index, nth_item.
    rewrite decide_True; [|lia]. destruct (lookup_lt_is_Some_2 (items n) (Z.to_nat k)) as [x ->]; [unfold zlen in Hin; lia|done].
  - destruct (locate_index h n k Hw) as (its1 & its2 & chs1 & c & chs2 & -> & Hf & [Hc _] & Hk & E); [lia|]. rewrite E. pose proof (fr_left _ _ _ _ _ _ Hf) as L1.
    destruct (decide _) as [Hz|_]; [pose proof (around_some its1 its2 chs1 c chs2); lia|]. cbn [mbind outcome_bind].
    change (size (around its1 its2 chs1 c chs2)) with (zlen (elems (around its1 its2 chs1 c chs2))) in Hin. change (size c) with (zlen (elems c)) in *.
    rewrite (elems_around _ _ _ _ _ _ _ Hf) in Hin |- *. rewrite nth_item_app zlen_before //; [|lia].
    destruct (bool_decide_reflect (total (size <$> chs1) + zlen (elems c) = k)) as [Hk'|Hk'].
    + destruct chs2 as [|d chs2]; [cbn in Hin; destruct its2; cbn in Hin; rewrite app_nil_r zlen_app zlen_before // in Hin; lia|].
      destruct its2 as [|y its2]; [by destruct Hf|]. cbn [around items]. rewrite at_index_mid_ok. cbn. rewrite nth_item_app; [|lia].
      by replace (k - _ - _) with 0 by lia.
    + rewrite nth_item_l; [|lia]. destruct (decide _) as [Hz|Hz].
      * destruct its1; [|done]. destruct chs1; [|done]. cbn [around children at_index app]. cbn. rewrite IH // Z.sub_0_r //.
      * rewrite around_child // around_prev //; [|lia]. cbn [mbind outcome_bind]. rewrite IH //. do 2 f_equal. lia.
Qed.

Lemma node_min_ok h n : wf h n → (h = 0%nat ∨ (0 < length (items n))%nat) → node_min (S h) n = Ok (head (elems n)).
Proof.
  revert n. induction h as [|h IH]; intros n Hw Hne; [|remember (S h) as fuel eqn:Ef in IH |- *]; cbn [node_min]; rewrite elems_node.
  - destruct Hw as [-> _]. done.
  - destruct Hw as (Hl & _ & Hc). destruct Hne as [|Hne]; [done|]. destruct (children n) as [|c cs]; [done|]. apply Forall_cons in Hc as [[Hc Hlc] _].
    rewrite IH //; [|right; lia]. destruct (items n) as [|x its]; [cbn in Hne; lia|]. cbn. pose proof (elems_nonempty mn mn_pos h c Hc ltac:(lia)). by destruct (elems c).
Qed.
Lemma node_max_ok h n : wf h n → (h = 0%nat ∨ (0 < length (items n))%nat) → node_max (S h) n = Ok (last (elems n)).
Proof.
  revert n. induction h as [|h IH]; intros n Hw Hne; [|remember (S h) as fuel eqn:Ef in IH |- *]; cbn [node_max].
  - rewrite elems_node. destruct Hw as [-> _]. done.
  - destruct Hne as [|Hne]; [done|]. destruct (around_wf mn mn_pos h n (items n) [] Hw) as (chs1 & c & chs2 & E & Hf & [Hc Hlc]); [by rewrite app_nil_r|].
    destruct chs2; [|by destruct Hf]. rewrite E. rewrite (elems_around _ _ _ _ _ _ _ Hf). cbn. rewrite last_snoc app_nil_r IH //; [|right; lia].
    pose proof (elems_nonempty mn mn_pos h c Hc ltac:(lia)) as Hn. destruct (elems c) as [|z l _] using rev_ind; [done|]. by rewrite app_assoc !last_snoc.
Qed.

(** ** Walks over nodes *)

Section Iterate.
Context {St : Type} (iter : St → A → St * bool) (start stop : option A) (includeStart : bool).
Context (Hstart : start = None ∨ includeStart = true).
Notation from_start := (from_start start).
Notation upto_start := (upto_start start).

Lemma child_at h n i d : wf (S h) n → sorted (elems n) → children n !! i = Some d → wf h d ∧ sorted (elems d).
Proof.
  intros Hw Hs Hd. destruct (cut_list (items n) i) as (its1 & its2 & Ei & <-); [apply lookup_lt_Some in Hd; destruct Hw as [Hl _]; lia|].
  destruct (around_wf mn mn_pos h n its1 its2 Hw Ei) as (chs1 & c & chs2 & -> & Hf & [Hc _]). cbn [around children] in Hd.
  rewrite -(fr_left _ _ _ _ _ _ Hf) list_lookup_middle // in Hd. injection Hd as ->. split; [done|]. by eapply (around_sorted mn).
Qed.

Lemma ascend_before h its1 its2 chs1 c chs2 :
  frame h its1 its2 chs1 chs2 → sorted (elems (around its1 its2 chs1 c chs2)) → Forall (λ x, ¬ from_start x) its1 → Forall from_start its2 →
  filter from_start (elems (around its1 its2 chs1 c chs2)) = inter its2 (filter from_start <$> (elems <$> c :: chs2)).
Proof.
  intros Hf Hs Hn Hy. rewrite (elems_around _ _ _ _ _ _ _ Hf) in Hs |- *. destruct Hf as [L1 L2 _ _].
  rewrite filter_app -inter_rpart; [|by rewrite length_fmap]. rewrite filter_inter // filter_Forall_not //. apply StronglySorted_app_1_l in Hs.
  unfold BTreeQuery.from_start in *. destruct start as [p|].
  - eapply Forall_impl; [apply (before_below mn mn_pos _ _ p); [by rewrite length_fmap|done|]|naive_solver]. eapply Forall_impl; [exact Hn|]. intros x Hx. by apply dec_stable.
  - destruct its1; [by destruct chs1|]. by apply Forall_cons in Hn as [[] _].
Qed.

(** The visit of a child. *)
Definition into (fuel : nat) (dir : direction) n (hs : bool * St) (i : nat) : outcome Empty_set (bool * St * bool) :=
  if decide (0 < length (children n))%nat then c ← at_index (children n) i; iterate iter start stop includeStart fuel dir c hs else Ok (hs, true).
Lemma into_leaf fuel dir n hs i : children n = [] → into fuel dir n hs i = Ok (hs, true).
Proof. unfold into. by intros ->. Qed.
Lemma into_child fuel dir n hs i d : children n !! i = Some d → into fuel dir n hs i = iterate iter start stop includeStart fuel dir d hs.
Proof. unfold into, at_index. intros E. rewrite E. apply lookup_lt_Some in E. destruct (decide _) as [_|]; [done|lia]. Qed.

Lemma iterate_up fuel n its1 its2 hs :
  items n = its1 ++ its2 → match start with Some p => (find (items n) p).1 | None => O end = length its1 →
  iterate iter start stop includeStart (S fuel) ascend n hs =
    ('(hs, ok) ← for_indices (seq (length its1) (length its2)) (ascend_item iter start stop includeStart (into fuel ascend n) n) hs;
     if negb ok then Ok (hs, false) else into fuel ascend n hs (length (children n) - 1)).
Proof. intros Ei Ej. cbn [iterate]. rewrite Ej. by replace (length (items n) - length its1)%nat with (length its2) by (rewrite Ei length_app; lia). Qed.
Lemma iterate_down fuel n (its1 : list A) hs :
  match start with Some p => let '(index, found) := find (items n) p in if (found : bool) then S index else index | None => length (items n) end = length its1 →
  iterate iter start stop includeStart (S fuel) descend n hs =
    ('(hs, ok) ← for_indices (rev (seq 0 (length its1))) (descend_item iter start stop includeStart (into fuel descend n) n) hs;
     if negb ok then Ok (hs, false) else into fuel descend n hs O).
Proof. intros Ej. cbn [iterate]. by rewrite Ej. Qed.

Lemma iterate_ascend h n hit s :
  wf h n → sorted (elems n) → sees (up iter stop) (filter from_start (elems n)) s (iterate iter start stop includeStart (S h) ascend n (hit, s)).
Proof.
  revert n hit s. induction h as [|h IH]; intros n hit s Hw Hs; pose proof (items_sorted mn mn_pos _ _ Hw Hs) as Hi;
    destruct (ascend_start start _ Hi) as (its1 & its2 & Ei & Ej & Hn & Hy); rewrite (iterate_up _ n its1 its2) //.
  - destruct Hw as [Hc _]. rewrite elems_node Hc {1}Ei. cbn [fmap list_fmap inter]. rewrite filter_app filter_Forall_not // filter_Forall // -{1}(inter_nils its2).
    apply ascend_loop; [done|done|intros; by rewrite !into_leaf|by rewrite length_replicate|]. intros j v [-> _]%lookup_replicate hit' s'. rewrite into_leaf //. by eexists.
  - destruct (around_wf mn mn_pos h n its1 its2 Hw Ei) as (chs1 & c & chs2 & -> & Hf & Hc). pose proof (fr_left _ _ _ _ _ _ Hf) as L1. pose proof (fr_right _ _ _ _ _ _ Hf) as L2.
    rewrite (ascend_before _ _ _ _ _ _ Hf Hs Hn Hy). apply ascend_loop; [done|done| | |].
    { intros hs. f_equal. cbn. rewrite length_app. cbn. lia. }
    { rewrite !length_fmap. cbn. lia. }
    intros j v Hj hit' s'. rewrite !list_lookup_fmap in Hj. destruct ((c :: chs2) !! j) as [d|] eqn:Ed; [|done]. injection Hj as <-.
    assert (Ed' : children (around its1 its2 chs1 c chs2) !! (length its1 + j)%nat = Some d) by (cbn; rewrite -L1 lookup_app_r; [by replace (_ + _ - _)%nat with j by lia|lia]).
    rewrite (into_child _ _ _ _ _ d Ed'). destruct (child_at h _ _ d Hw Hs Ed'). by apply IH.
Qed.

Lemma descend_after h its1 its2 chs1 c chs2 :
  frame h its1 its2 chs1 chs2 → sorted (elems (around its1 its2 chs1 c chs2)) → Forall upto_start its1 → Forall (λ x, ¬ upto_start x) its2 →
  filter upto_start (elems (around its1 its2 chs1 c chs2)) = inter its1 (filter upto_start <$> (elems <$> chs1 ++ [c])).
Proof.
  intros Hf Hs Hy Hn. rewrite (elems_around _ _ _ _ _ _ _ Hf) in Hs |- *. destruct Hf as [L1 L2 _ _]. do 2 apply StronglySorted_app_1_r in Hs as Hs.
  assert (L1' : length (elems <$> chs1) = length its1) by (by rewrite length_fmap). pose proof (inter_mid its1 [] _ (elems c) [] L1' eq_refl) as E. unfold rpart in E at 1. cbn in E. rewrite !app_nil_r in E.
  rewrite app_assoc -E filter_app fmap_app -filter_inter // (filter_Forall_not _ (after _ _)) ?app_nil_r //.
  unfold BTreeQuery.upto_start in *. destruct start as [p|].
  - eapply Forall_impl; [apply (after_above _ _ p); [by rewrite length_fmap|done|]|naive_solver]. eapply Forall_impl; [exact Hn|]. intros x Hx. by apply dec_stable.
  - destruct its2; [by destruct chs2|]. by apply Forall_cons in Hn as [[] _].
Qed.

Lemma sorted_filter (P : A → Prop) `{∀ x, Decision (P x)} l : sorted l → sorted (filter P l).
Proof.
  induction 1 as [|x l Hs IH Hx]; [constructor|]. rewrite filter_cons. destruct (decide (P x)); [|done]. constructor; [done|].
  rewrite Forall_forall in Hx. rewrite Forall_forall. intros y [_ Hy]%list_elem_of_filter. by apply Hx.
Qed.

Lemma iterate_descend h n hit s :
  wf h n → sorted (elems n) → (hit = true → Forall (passed start) (filter upto_start (elems n))) →
  sees_down iter stop (filter upto_start (elems n)) hit s (iterate iter start stop includeStart (S h) descend n (hit, s)).
Proof.
  revert n hit s. induction h as [|h IH]; intros n hit s Hw Hs Hp; pose proof (items_sorted mn mn_pos _ _ Hw Hs) as Hi;
    assert (Hu : Forall upto_start (filter upto_start (elems n))) by (rewrite Forall_forall; intros x [? _]%list_elem_of_filter; done);
    pose proof (sorted_filter upto_start _ Hs) as Hfs;
    destruct (descend_start start _ Hi) as (its1 & its2 & Ei & Ej & Hy & Hn); rewrite (iterate_down _ n its1) //.
  - destruct Hw as [Hc _]. assert (E : filter upto_start (elems n) = inter its1 (replicate (S (length its1)) [])).
    { rewrite elems_node Hc Ei inter_nils. cbn [fmap list_fmap inter]. by rewrite filter_app (filter_Forall_not _ its2) // filter_Forall // app_nil_r. }
    rewrite E in Hu Hfs Hp |- *. eapply descend_loop; [done|done|by rewrite length_replicate|done..|]. intros j v [-> _]%lookup_replicate hit' s' _. rewrite into_leaf //. eexists. split; [done|by left].
  - destruct (around_wf mn mn_pos h n its1 its2 Hw Ei) as (chs1 & c & chs2 & -> & Hf & Hc). pose proof (fr_left _ _ _ _ _ _ Hf) as L1.
    rewrite (descend_after _ _ _ _ _ _ Hf Hs Hy Hn) in Hu Hfs Hp |- *.
    eapply descend_loop; [done|done| |done..|].
    { rewrite !length_fmap length_app. cbn. lia. }
    intros j v Hj hit' s' Hpv. rewrite !list_lookup_fmap in Hj. destruct ((chs1 ++ [c]) !! j) as [d|] eqn:Ed; [|done]. injection Hj as <-.
    assert (Ed' : children (around its1 its2 chs1 c chs2) !! j = Some d) by (cbn; rewrite (app_assoc _ [c]); by apply lookup_app_l_Some).
    rewrite (into_child _ _ _ _ _ d Ed'). destruct (child_at h _ _ d Hw Hs Ed'). by apply IH.
Qed.
End Iterate.
End Query.
