(* ===== verification/BTreeRefine.v ===== *)
(** The B-tree of scheduler/pkg/btree refines a sorted sequence: a program of its
    operations returns what the program returns on the sequence. *)

From S2P Require Import Prelude BTree BTreeSpec BTreeQuery.
Import btree.

Section Tree.
Context {A : Type} `{!Item A} {order : ItemOrder A}.
Implicit Types (x y : A) (l : list A) (n : node A) (t : BTree A).
Notation sorted := (StronglySorted lt).

(** ** Sorted sequences *)

Lemma below_above x l y z : y ∈ below x l → z ∈ above x l → lt y z.
Proof. unfold below, above. intros [Hy _]%list_elem_of_filter [Hz _]%list_elem_of_filter. by eapply lt_trans. Qed.
Lemma without_sorted x l : sorted l → sorted (without x l).
Proof. intros Hs. apply StronglySorted_app. split_and!; [intros; by eapply below_above|by apply sorted_filter..]. Qed.
Lemma put_sorted x l : sorted l → sorted (put x l).
Proof.
  intros Hs. unfold put. apply StronglySorted_app. split_and!; [|by apply sorted_filter|].
  - intros y z Hy [->|Hz]%elem_of_cons; [by apply list_elem_of_filter in Hy as [? _]|by eapply below_above].
  - constructor; [by apply sorted_filter|]. rewrite Forall_forall. intros y Hy. by apply list_elem_of_filter in Hy as [? _].
Qed.
Lemma remaining_sorted typ l : sorted l → sorted (remaining typ l).
Proof.
  intros Hs. destruct typ as [x| |]; cbn [remaining].
  - by apply without_sorted.
  - destruct l; [done|]. by apply StronglySorted_inv in Hs as [? _].
  - rewrite -(take_drop (length l - 1) l) in Hs. by apply StronglySorted_app_1_l in Hs.
Qed.

(** ** The sequence of a tree *)

Definition contents t : list A := match root t with Some r => elems r | None => [] end.

Record represents t l : Prop := {
  rp_degree : (2 ≤ degree t)%nat;
  rp_length : length_ t = zlen l;
  rp_sorted : sorted l;
  rp_contents : contents t = l;
  rp_root : match root t with
            | Some r => ∃ h, wf (minItems t) h r ∧ (length (items r) ≤ maxItems t)%nat ∧ (h = 0%nat ∨ (0 < length (items r))%nat)
            | None => True
            end
}.

Lemma min_pos t : (2 ≤ degree t)%nat → (1 ≤ minItems t)%nat.
Proof. unfold minItems. lia. Qed.
Lemma max_min t : (2 ≤ degree t)%nat → maxItems t = (minItems t * 2 + 1)%nat.
Proof. unfold minItems, maxItems. lia. Qed.

Lemma New_ok d : (2 ≤ d)%nat → ∃ t, New d = Ok t ∧ degree t = d ∧ represents t [].
Proof.
  intros Hd. exists (mkBTree d 0 None). unfold New. destruct (decide _); [lia|]. split_and!; [done..|]. split; try done. constructor.
Qed.
Lemma Clear_ok t l : represents t l → represents (Clear t) [].
Proof. intros [Hd _ _ _ _]. split; try done. constructor. Qed.

Lemma represents_root t k h r l :
  (2 ≤ degree t)%nat → k = zlen l → sorted l → elems r = l → wf (minItems t) h r → (length (items r) ≤ minItems t * 2 + 1)%nat → (h = 0%nat ∨ (0 < length (items r))%nat) →
  represents (mkBTree (degree t) k (Some r)) l.
Proof.
  intros Hd Hk Hs He Hw Hl Hne. split; [done..|]. cbn [root]. exists h. split_and!; [done| |done]. unfold maxItems. cbn [degree]. unfold minItems in Hl. lia.
Qed.

(** The root is split when it is full. *)
Lemma split_root mn (mn_pos : (1 ≤ mn)%nat) h (r : node A) :
  wf mn h r → length (items r) = (mn * 2 + 1)%nat →
  ∃ (l : node A) y r', split r mn = Ok (l, (y, r')) ∧ wf mn (S h) (initSize (mkNode [y] [l; r'] [])) ∧ elems (initSize (mkNode [y] [l; r'] [])) = elems r.
Proof.
  intros Hw Hl. destruct (cut_list_at (items r) mn) as (a & y & b & E & Ha); [lia|]. rewrite E length_app in Hl. cbn in Hl.
  destruct (split_ok mn mn_pos h r a y b Hw E) as (l & r' & Es & Hwl & Hwr & Hil & Hir & He). rewrite Ha in Es. exists l, y, r'. split; [done|].
  rewrite (initSize_ok mn mn_pos h); [|by repeat constructor]. rewrite elems_node. cbn. split; [|by rewrite He].
  split_and!; [done|done|]. rewrite !Forall_cons Hil Hir. split_and!; try done; lia.
Qed.

Lemma ReplaceOrInsert_ok t l x :
  represents t l → ∃ t', ReplaceOrInsert t x = Ok (t', same x l) ∧ degree t' = degree t ∧ represents t' (put x l).
Proof.
  intros [Hd Hl Hs Hc Hr]. unfold ReplaceOrInsert, contents in *. destruct (root t) as [r|].
  2: { subst l. eexists. split_and!; [done|done|]. apply (represents_root t _ 0); try done; [by rewrite Hl|by repeat constructor|cbn; lia|by left]. }
  destruct Hr as (h & Hw & Hlen & Hne). subst l. pose proof (min_pos t Hd) as Hp. rewrite max_min // in Hlen |- *.
  assert (Hroot : ∃ r' h', (if decide (minItems t * 2 + 1 ≤ length (items r))%nat then
                              '(oldroot, (item2, second)) ← split r ((minItems t * 2 + 1) / 2); Ok (initSize (mkNode [item2] [oldroot; second] []))
                            else Ok r) = (Ok r' : outcome Empty_set _) ∧ wf (minItems t) h' r' ∧ elems r' = elems r ∧ (length (items r') < minItems t * 2 + 1)%nat ∧ (h' = 0%nat ∨ (0 < length (items r'))%nat)).
  { destruct (decide _) as [Hfull|]; [|exists r, h; split_and!; try done; lia]. replace ((minItems t * 2 + 1) / 2)%nat with (minItems t) by (rewrite Nat.div_add_l //; cbn; lia).
    destruct (split_root (minItems t) Hp h r Hw) as (a & y & b & -> & Hw' & He); [lia|]. cbn [mbind outcome_bind]. exists (initSize (mkNode [y] [a; b] [])), (S h). split_and!; try done; cbn; [lia|right; lia]. }
  destruct Hroot as (r' & h' & -> & Hw' & He & Hlt & Hne'). cbn [mbind outcome_bind]. rewrite -He in Hs Hl |- *. rewrite (wf_height (minItems t) Hp h' r' Hw').
  destruct (insert_ok (minItems t) Hp h' r' x Hw' Hs Hlt) as (n' & -> & Hwn & Hen & Hln). cbn [mbind outcome_bind]. eexists. split_and!; [done|done|].
  apply (represents_root t _ h'); [done| |by apply put_sorted|done|done|lia|].
  - rewrite put_length // Hl. destruct (same x (elems r')); lia.
  - destruct Hne' as [->|]; [by left|right; lia].
Qed.

(** The root that remains: a root without items gives way to its child. *)
Lemma shrink_root mn (mn_pos : (1 ≤ mn)%nat) h (r : node A) :
  wf mn h r → (length (items r) ≤ mn * 2 + 1)%nat →
  ∃ h' r', (if decide (length (items r) = 0 ∧ 0 < length (children r))%nat then at_index (children r) 0 else Ok r) = Ok r' ∧ wf mn h' r' ∧ elems r' = elems r ∧
    (length (items r') ≤ mn * 2 + 1)%nat ∧ (h' = 0%nat ∨ (0 < length (items r'))%nat).
Proof.
  intros Hw Hlen. destruct h as [|h].
  - exists 0%nat, r. pose proof Hw as [-> _]. destruct (decide _) as [[_ Hz]|_]; [cbn in Hz; lia|]. split_and!; try done. by left.
  - destruct (decide _) as [[Hz _]|Hnz]; [|exists (S h), r; split_and!; try done; right; destruct Hw as [Hl _]; lia].
    destruct Hw as (Hl & _ & Hc). rewrite elems_node. destruct (items r); [|done]. destruct (children r) as [|c [|]]; [done| |done]. apply Forall_cons in Hc as [[Hc Hlc] _].
    exists h, c. split_and!; try done; [lia|right; lia].
Qed.

Lemma deleteItem_ok t l typ :
  represents t l → ∃ t', deleteItem t typ = Ok (t', taken typ l) ∧ degree t' = degree t ∧ represents t' (remaining typ l).
Proof.
  intros [Hd Hl Hs Hc Hr]. unfold deleteItem, contents in *. destruct (root t) as [r|] eqn:Er.
  2: { subst l. exists t. split_and!; [by destruct typ|done|]. replace (remaining typ []) with (@nil A) by (by destruct typ). split; [done..| |by rewrite Er]. by rewrite /contents Er. }
  destruct Hr as (h & Hw & Hlen & Hne). subst l. pose proof (min_pos t Hd) as Hp. destruct (decide _) as [Hz|Hz].
  { assert (Ee : elems r = []) by (destruct Hne as [->|]; [|lia]; destruct Hw as [Hch _]; rewrite elems_node Hch; by destruct (items r)).
    exists t. rewrite Ee. split_and!; [by destruct typ|done|]. replace (remaining typ []) with (@nil A) by (by destruct typ). rewrite Ee in Hl Hs.
    split; [done..|by rewrite /contents Er|]. rewrite Er. by exists h. }
  unfold remove_fuel. rewrite (wf_height (minItems t) Hp h r Hw). rewrite max_min // in Hlen.
  destruct (remove_ok (minItems t) Hp h (S h * 2) r typ Hw Hs) as (n' & -> & Hwn & Hen & Hln); [lia|lia|]. cbn [mbind outcome_bind].
  destruct (shrink_root (minItems t) Hp h n' Hwn) as (h' & r' & -> & Hwr & Her & Hlr & Hner); [lia|]. cbn [mbind outcome_bind]. eexists. split_and!; [done|done|].
  apply (represents_root t _ h'); [done| |by apply remaining_sorted|by rewrite Her|done..].
  rewrite remaining_length // Hl. destruct (taken typ (elems r)); lia.
Qed.

(** ** Queries *)

Lemma Get_ok t l x : represents t l → Get t x = Ok (same x l).
Proof.
  intros [Hd Hl Hs Hc Hr]. unfold Get, contents in *. destruct (root t) as [r|]; subst l; [|done]. destruct Hr as (h & Hw & _). pose proof (min_pos t Hd) as Hp.
  rewrite (wf_height _ Hp h r Hw). by apply (get_ok (minItems t)).
Qed.
Lemma GetWithIndex_ok t l x : represents t l → GetWithIndex t x = Ok (same x l, zlen (below x l)).
Proof.
  intros [Hd Hl Hs Hc Hr]. unfold GetWithIndex, contents in *. destruct (root t) as [r|]; subst l; [|done]. destruct Hr as (h & Hw & _). pose proof (min_pos t Hd) as Hp.
  rewrite (wf_height _ Hp h r Hw). by apply (getWithIndex_ok (minItems t)).
Qed.
Lemma GetAt_ok t l k : represents t l → GetAt t k = Ok (nth_item l k).
Proof.
  intros [Hd Hl Hs Hc Hr]. unfold GetAt, contents in *. destruct (root t) as [r|]; subst l; [|by unfold nth_item; destruct (decide _)].
  destruct Hr as (h & Hw & _). pose proof (min_pos t Hd) as Hp. rewrite (wf_height _ Hp h r Hw). by apply (getAt_ok (minItems t)).
Qed.
Lemma Min_ok t l : represents t l → Min t = Ok (head l).
Proof.
  intros [Hd Hl Hs Hc Hr]. unfold Min, contents in *. destruct (root t) as [r|]; subst l; [|done]. destruct Hr as (h & Hw & _ & Hne). pose proof (min_pos t Hd) as Hp.
  rewrite (wf_height _ Hp h r Hw). by apply (node_min_ok (minItems t)).
Qed.
Lemma Max_ok t l : represents t l → Max t = Ok (last l).
Proof.
  intros [Hd Hl Hs Hc Hr]. unfold Max, contents in *. destruct (root t) as [r|]; subst l; [|done]. destruct Hr as (h & Hw & _ & Hne). pose proof (min_pos t Hd) as Hp.
  rewrite (wf_height _ Hp h r Hw). by apply (node_max_ok (minItems t)).
Qed.
Lemma Has_ok t l x : represents t l → Has t x = Ok (bool_decide (is_Some (same x l))).
Proof. intros Hr. unfold Has. rewrite (Get_ok t l) //. cbn. by destruct (same x l). Qed.

(** ** Walks *)

(** Below, above an optional bound. *)
Definition under (stop : option A) x : Prop := match stop with Some p => lt x p | None => True end.
Definition over (stop : option A) x : Prop := match stop with Some p => lt p x | None => True end.
#[global] Instance under_dec stop x : Decision (under stop x).
Proof. unfold under. destruct stop; apply _. Defined.
#[global] Instance over_dec stop x : Decision (over stop x).
Proof. unfold over. destruct stop; apply _. Defined.

(** The items of a range, in the order of the walk. *)
Definition walked (dir : direction) (start stop : option A) l : list A :=
  match dir with
  | ascend => filter (λ x, from_start start x ∧ under stop x) l
  | descend => rev (filter (λ x, upto_start start x ∧ over stop x) l)
  end.

Lemma visit_until {St} (it : St → A → St * bool) (P : A → bool) (Q : A → Prop) `{∀ x, Decision (Q x)} l s :
  (∀ x, P x = false ↔ Q x) → (∀ l1 x l2, l = l1 ++ x :: l2 → P x = true → Forall (λ y, P y = true) l2) →
  (visit (until it P) l s).1 = (visit it (filter Q l) s).1.
Proof.
  intros HQ. revert s. induction l as [|x l IH]; intros s Hl; [done|]. rewrite filter_cons. cbn [visit]. unfold until at 1. destruct (P x) eqn:Ex.
  - pose proof (Hl [] x l eq_refl Ex) as Hr. rewrite decide_False; [|intros Hq; apply HQ in Hq; congruence].
    rewrite filter_Forall_not; [done|]. eapply Forall_impl; [exact Hr|]. cbn. intros y Hy Hq. apply HQ in Hq. congruence.
  - rewrite decide_True; [|by apply HQ]. cbn [visit]. destruct (it s x) as [s' []]; [|done]. apply IH. intros l1 y l2 ->. by apply (Hl (x :: l1) y l2).
Qed.

Lemma StronglySorted_mid (R : A → A → Prop) l l1 x l2 : StronglySorted R l → l = l1 ++ x :: l2 → Forall (R x) l2.
Proof. intros Hs ->. by apply StronglySorted_app_1_r, StronglySorted_inv in Hs as [_ ?]. Qed.
Lemma sorted_rev l : sorted l → StronglySorted (flip lt) (rev l).
Proof.
  induction 1 as [|x l Hs IH Hx]; [constructor|]. cbn. apply StronglySorted_app. split_and!; [|done|by repeat constructor].
  intros y z Hy [->|[]%elem_of_nil]%elem_of_cons. rewrite Forall_forall in Hx. apply Hx. by apply list_elem_of_In, in_rev, list_elem_of_In.
Qed.

Lemma up_walk {St} (it : St → A → St * bool) stop l s :
  sorted l → (visit (up it stop) l s).1 = (visit it (filter (under stop) l) s).1.
Proof.
  intros Hs. unfold up. apply visit_until.
  - intros x. destruct stop as [p|]; [|done]. cbn. unfold lt. by destruct (Less x p).
  - intros l1 x l2 El Hx. destruct stop as [p|]; [|done]. eapply Forall_impl; [by eapply StronglySorted_mid|]. cbn. intros y Hxy.
    apply negb_true_iff, lt_false. apply negb_true_iff, lt_false in Hx. intros Hy. apply Hx. by eapply lt_trans.
Qed.
Lemma down_walk {St} (it : St → A → St * bool) stop l s :
  StronglySorted (flip lt) l → (visit (down it stop) l s).1 = (visit it (filter (over stop) l) s).1.
Proof.
  intros Hs. unfold down. apply visit_until.
  - intros x. destruct stop as [p|]; [|done]. cbn. unfold lt. by destruct (Less p x).
  - intros l1 x l2 El Hx. destruct stop as [p|]; [|done]. eapply Forall_impl; [by eapply StronglySorted_mid|]. cbn. intros y Hxy.
    apply negb_true_iff, lt_false. apply negb_true_iff, lt_false in Hx. intros Hy. apply Hx. by eapply lt_trans.
Qed.
Lemma filter_rev (P : A → Prop) `{∀ x, Decision (P x)} l : filter P (rev l) = rev (filter P l).
Proof. induction l as [|x l IH]; [done|]. cbn [rev]. rewrite filter_app IH !filter_cons. destruct (decide (P x)); [done|]. by rewrite app_nil_r. Qed.

Lemma walk_ok {St} t l dir start stop includeStart (it : St → A → St * bool) s :
  represents t l → (start = None ∨ includeStart = true) → walk t dir start stop includeStart it s = Ok (visit it (walked dir start stop l) s).1.
Proof.
  intros [Hd Hl Hs Hc Hr] Hst. unfold walk, contents in *. destruct (root t) as [r|]; subst l; [|by destruct dir].
  destruct Hr as (h & Hw & _). pose proof (min_pos t Hd) as Hp. rewrite (wf_height _ Hp h r Hw). destruct dir; cbn [walked].
  - destruct (iterate_descend (minItems t) Hp it start stop includeStart Hst h r false s Hw Hs) as (hit & -> & _); [done|]. cbn. f_equal.
    rewrite down_walk; [|by apply sorted_rev, sorted_filter]. rewrite filter_rev list_filter_filter. do 3 f_equal. apply list_filter_iff. naive_solver.
  - destruct (iterate_ascend (minItems t) Hp it start stop includeStart Hst h r false s Hw Hs) as (hit & ->). cbn. f_equal.
    rewrite up_walk; [|by apply sorted_filter]. rewrite list_filter_filter. do 3 f_equal. apply list_filter_iff. naive_solver.
Qed.

(** ** The depth of a tree *)

Lemma total_bound (ss : list Z) b : Forall (λ s, b ≤ s + 1) ss → b * zlen ss ≤ total ss.
Proof. induction 1 as [|s ss Hs _ IH]; [unfold zlen; cbn; lia|]. rewrite zlen_cons /total. cbn. fold (total ss). lia. Qed.
Lemma wf_size mn h n : wf mn h n → (mn ≤ length (items n))%nat → (Z.of_nat mn + 1) ^ (Z.of_nat h + 1) ≤ size n + 1.
Proof.
  revert n. induction h as [|h IH]; intros n Hw Hl.
  - destruct Hw as [Hc _]. unfold size. rewrite elems_node Hc. cbn [fmap list_fmap inter]. unfold zlen. change (Z.of_nat 0 + 1) with 1. rewrite Z.pow_1_r. lia.
  - destruct Hw as (Hlc & _ & Hc). rewrite size_node //. assert (Hb : Forall (λ s, (Z.of_nat mn + 1) ^ (Z.of_nat h + 1) ≤ s + 1) (size <$> children n)).
    { rewrite Forall_fmap. eapply Forall_impl; [exact Hc|]. cbn. intros c [Hwc Hlc']. apply IH; [done|lia]. }
    apply total_bound in Hb. unfold zlen in Hb. rewrite length_fmap Hlc in Hb. rewrite Nat2Z.inj_succ -Z.add_1_r (Z.pow_add_r _ (Z.of_nat h + 1)) ?Z.pow_1_r; [|lia..].
    nia.
Qed.
Lemma represents_depth t l h r :
  represents t l → root t = Some r → height r = S h → (0 < h)%nat → 2 * Z.of_nat (degree t) ^ Z.of_nat h ≤ Len t + 1.
Proof.
  intros [Hd Hl Hs Hc Hr] Er Hh Hpos. unfold contents in Hc. rewrite Er in Hc, Hr. destruct Hr as (h' & Hw & Hlen & Hne). pose proof (min_pos t Hd) as Hp.
  rewrite (wf_height _ Hp h' r Hw) in Hh. injection Hh as ->. destruct h as [|h]; [lia|]. destruct Hne as [|Hne]; [done|]. unfold Len. rewrite Hl -Hc. change (zlen (elems r)) with (size r).
  destruct Hw as (Hlc & _ & Hf). rewrite size_node //. assert (Hb : Forall (λ s, Z.of_nat (degree t) ^ Z.of_nat (S h) ≤ s + 1) (size <$> children r)).
  { rewrite Forall_fmap. eapply Forall_impl; [exact Hf|]. cbn. intros c [Hwc Hlc']. assert (Hz := wf_size _ h c Hwc ltac:(lia)). unfold minItems in Hz.
    by replace (Z.of_nat (degree t - 1) + 1) with (Z.of_nat (degree t)) in Hz by lia; replace (Z.of_nat h + 1) with (Z.of_nat (S h)) in Hz by lia. }
  apply total_bound in Hb. unfold zlen in Hb. rewrite length_fmap Hlc in Hb. assert (0 < Z.of_nat (degree t) ^ Z.of_nat (S h)) by (apply Z.pow_pos_nonneg; lia). nia.
Qed.

(** ** Programs *)

Inductive walks :=
  | WAscendRange (greaterOrEqual lessThan : A) | WAscendLessThan (pivot : A) | WAscendGreaterOrEqual (pivot : A) | WAscend
  | WDescendRange (lessOrEqual greaterThan : A) | WDescendLessOrEqual (pivot : A) | WDescendGreaterThan (pivot : A) | WDescend.
Inductive tree_op :=
  | TInsert (x : A) | TDelete (x : A) | TDeleteMin | TDeleteMax | TClear
  | TGet (x : A) | TGetWithIndex (x : A) | TGetAt (k : Z) | TMin | TMax | THas (x : A) | TLen
  (** A walk that collects items up to the first [last]. *)
  | TWalk (w : walks) (last : A → bool).
Inductive tree_res := RItem (o : option A) | RIndexed (o : option A) (k : Z) | RBool (b : bool) | RInt (k : Z) | RItems (l : list A) | RUnit.

Definition collect (last : A → bool) (s : list A) (x : A) : list A * bool := (s ++ [x], negb (last x)).

Definition tree_walk t (w : walks) (it : list A → A → list A * bool) : outcome Empty_set (list A) :=
  match w with
  | WAscendRange a b => AscendRange t a b it []
  | WAscendLessThan p => AscendLessThan t p it []
  | WAscendGreaterOrEqual p => AscendGreaterOrEqual t p it []
  | WAscend => Ascend t it []
  | WDescendRange a b => DescendRange t a b it []
  | WDescendLessOrEqual p => DescendLessOrEqual t p it []
  | WDescendGreaterThan p => DescendGreaterThan t p it []
  | WDescend => Descend t it []
  end.
Definition list_walk l (w : walks) : list A :=
  match w with
  | WAscendRange a b => walked ascend (Some a) (Some b) l
  | WAscendLessThan p => walked ascend None (Some p) l
  | WAscendGreaterOrEqual p => walked ascend (Some p) None l
  | WAscend => walked ascend None None l
  | WDescendRange a b => walked descend (Some a) (Some b) l
  | WDescendLessOrEqual p => walked descend (Some p) None l
  | WDescendGreaterThan p => walked descend None (Some p) l
  | WDescend => walked descend None None l
  end.

Definition tree_step t (o : tree_op) : outcome Empty_set (BTree A * tree_res) :=
  match o with
  | TInsert x => '(t, o) ← ReplaceOrInsert t x; Ok (t, RItem o)
  | TDelete x => '(t, o) ← Delete t x; Ok (t, RItem o)
  | TDeleteMin => '(t, o) ← DeleteMin t; Ok (t, RItem o)
  | TDeleteMax => '(t, o) ← DeleteMax t; Ok (t, RItem o)
  | TClear => Ok (Clear t, RUnit)
  | TGet x => o ← Get t x; Ok (t, RItem o)
  | TGetWithIndex x => '(o, k) ← GetWithIndex t x; Ok (t, RIndexed o k)
  | TGetAt k => o ← GetAt t k; Ok (t, RItem o)
  | TMin => o ← Min t; Ok (t, RItem o)
  | TMax => o ← Max t; Ok (t, RItem o)
  | THas x => b ← Has t x; Ok (t, RBool b)
  | TLen => Ok (t, RInt (Len t))
  | TWalk w last => s ← tree_walk t w (collect last); Ok (t, RItems s)
  end.
Definition list_step l (o : tree_op) : list A * tree_res :=
  match o with
  | TInsert x => (put x l, RItem (same x l))
  | TDelete x => (without x l, RItem (same x l))
  | TDeleteMin => (tail l, RItem (head l))
  | TDeleteMax => (take (length l - 1) l, RItem (last l))
  | TClear => ([], RUnit)
  | TGet x => (l, RItem (same x l))
  | TGetWithIndex x => (l, RIndexed (same x l) (zlen (below x l)))
  | TGetAt k => (l, RItem (nth_item l k))
  | TMin => (l, RItem (head l))
  | TMax => (l, RItem (last l))
  | THas x => (l, RBool (bool_decide (is_Some (same x l))))
  | TLen => (l, RInt (zlen l))
  | TWalk w last => (l, RItems (visit (collect last) (list_walk l w) []).1)
  end.
Fixpoint tree_run t (os : list tree_op) : outcome Empty_set (BTree A * list tree_res) :=
  match os with
  | [] => Ok (t, [])
  | o :: os => '(t, r) ← tree_step t o; '(t, rs) ← tree_run t os; Ok (t, r :: rs)
  end.
Fixpoint list_run l (os : list tree_op) : list A * list tree_res :=
  match os with
  | [] => (l, [])
  | o :: os => let '(l, r) := list_step l o in let '(l, rs) := list_run l os in (l, r :: rs)
  end.

Lemma tree_walk_ok t l w it : represents t l → tree_walk t w it = Ok (visit it (list_walk l w) []).1.
Proof. intros Hr. destruct w; cbn [tree_walk list_walk]; apply walk_ok; naive_solver. Qed.

Lemma tree_step_ok t l o :
  represents t l → ∃ t', tree_step t o = Ok (t', (list_step l o).2) ∧ degree t' = degree t ∧ represents t' (list_step l o).1.
Proof.
  intros Hr. destruct o as [x|x| | | |x|x|k| | |x| |w f]; cbn [tree_step list_step fst snd].
  - destruct (ReplaceOrInsert_ok t l x Hr) as (t' & -> & ? & ?). by exists t'.
  - destruct (deleteItem_ok t l (removeItem x) Hr) as (t' & E & ? & ?). unfold Delete. rewrite E. by exists t'.
  - destruct (deleteItem_ok t l removeMin Hr) as (t' & E & ? & ?). unfold DeleteMin. rewrite E. by exists t'.
  - destruct (deleteItem_ok t l removeMax Hr) as (t' & E & ? & ?). unfold DeleteMax. rewrite E. by exists t'.
  - exists (Clear t). split_and!; [done..|by eapply Clear_ok].
  - exists t. by rewrite (Get_ok t l).
  - exists t. by rewrite (GetWithIndex_ok t l).
  - exists t. by rewrite (GetAt_ok t l).
  - exists t. by rewrite (Min_ok t l).
  - exists t. by rewrite (Max_ok t l).
  - exists t. by rewrite (Has_ok t l).
  - exists t. unfold Len. by rewrite (rp_length t l Hr).
  - exists t. by rewrite (tree_walk_ok t l).
Qed.
Lemma tree_run_ok t l os :
  represents t l → ∃ t', tree_run t os = Ok (t', (list_run l os).2) ∧ degree t' = degree t ∧ represents t' (list_run l os).1.
Proof.
  revert t l. induction os as [|o os IH]; intros t l Hr; cbn [tree_run list_run]; [by exists t|].
  destruct (tree_step_ok t l o Hr) as (t1 & -> & Hd1 & Hr1). destruct (list_step l o) as [l1 r]. cbn [mbind outcome_bind fst snd] in *.
  destruct (IH t1 l1 Hr1) as (t2 & -> & Hd2 & Hr2). destruct (list_run l1 os) as [l2 rs]. cbn in *. exists t2. split_and!; [done|congruence|done].
Qed.

(** C30: the B-tree refines a sorted sequence. A program of insertions, deletions,
    lookups by item and by index, minima, maxima, lengths and walks in both
    directions, on a tree made by [New] with a degree of at least two, returns
    what the same program returns on a sequence; no operation indexes out of
    range. The tree keeps its shape: all leaves at one depth, every node but the
    root with [minItems] to [maxItems] items, every index right. *)
Theorem btree_refines d os :
  (2 ≤ d)%nat → ∃ t t', New d = Ok t ∧ tree_run t os = Ok (t', (list_run [] os).2) ∧ represents t' (list_run [] os).1.
Proof.
  intros Hd. destruct (New_ok d Hd) as (t & Et & _ & Hr). destruct (tree_run_ok t [] os Hr) as (t' & Er & _ & Hr'). by exists t, t'.
Qed.

(** The depth of a B-tree is logarithmic: a tree whose root is above [h] levels,
    however it was made, has at least [2 * degree^h - 1] items. *)
Theorem btree_depth d os t t' h r :
  (2 ≤ d)%nat → New d = Ok t → tree_run t os = Ok (t', (list_run [] os).2) → root t' = Some r → height r = S h → (0 < h)%nat →
  2 * Z.of_nat d ^ Z.of_nat h ≤ Len t' + 1.
Proof.
  intros Hd Et Er Hroot Hh Hpos. destruct (New_ok d Hd) as (t0 & Et0 & <- & Hr). rewrite Et in Et0. injection Et0 as ->.
  destruct (tree_run_ok t0 [] os Hr) as (t1 & Er1 & <- & Hr1). rewrite Er in Er1. injection Er1 as ->. by eapply represents_depth.
Qed.
End Tree.

(** ** Witnesses: integers *)

#[local] Instance Z_Item : Item Z := Z.ltb.
#[local] Instance Z_ItemOrder : ItemOrder Z.
Proof. split; unfold Less, Z_Item; intros *; rewrite ?Z.ltb_irrefl ?Z.ltb_lt; lia. Qed.

Definition ex_ops : list tree_op :=
  (TInsert <$> [5; 1; 9; 3; 7; 2; 8; 4; 6; 10; 5]) ++
  [TGetWithIndex 7; TGetAt 0; TWalk (WAscendRange 3 7) (λ _, false); TDelete 5; TDelete 5; TDeleteMin; TDeleteMax; TWalk (WDescendLessOrEqual 7) (Z.eqb 4); TLen].
Lemma btree_refines_witness :
  (list_run [] ex_ops).1 = [2; 3; 4; 6; 7; 8; 9] ∧
  ∃ t t', New 2 = Ok t ∧ tree_run t ex_ops = Ok (t', (list_run [] ex_ops).2) ∧ represents t' (list_run [] ex_ops).1.
Proof. split; [vm_compute; reflexivity|]. apply (btree_refines 2 ex_ops). lia. Defined.

Definition ex_tree : BTree Z :=
  match tree_run (mkBTree 2 0 None) ex_ops with Ok (t, _) => t | _ => mkBTree 2 0 None end.
Definition ex_root : node Z := match root ex_tree with Some r => r | None => mkNode [] [] [] end.
Lemma btree_depth_witness : 2 * 2 ^ 1 ≤ Len ex_tree + 1.
Proof.
  apply (btree_depth 2 ex_ops (mkBTree 2 0 None) ex_tree 1 ex_root); [lia|reflexivity|vm_compute; reflexivity|vm_compute; reflexivity|vm_compute; reflexivity|lia].
Defined.
