(* ===== verification/RegionTree.v ===== *)
(** The regions the scheduler knows: scheduler/server/core/region.go and
    region_tree.go.  They are kept in a B-tree by start key, in a map by id, and in
    one B-tree per store and role (leader, follower, learner, pending peer).

    A [*RegionInfo] is read-only once created and is a value here.  The one write
    through a pointer, the item of a sub tree that is given a new region, is a map
    over the items of that tree.  [rand.Intn] is an argument. *)

From S2P Require Import Prelude Pb BTree.
Import metapb btree.

Module core.
#[local] Notation run := (outcome Empty_set).

Record RegionInfo := mkRegionInfo {
  meta : Region;
  learners : list Peer;
  voters : list Peer;
  leader : option Peer;
  pendingPeers : list Peer;
  approximateSize : Z
}.
Implicit Types region : RegionInfo.

Definition GetID region : Z := Id (meta region).
Definition GetStartKey region : bytes := StartKey (meta region).
Definition GetEndKey region : bytes := EndKey (meta region).
Definition GetPeers region : list Peer := Peers (meta region).
(** [GetId] and [GetStoreId] of a peer that may be nil. *)
Definition peer_GetId (p : option Peer) : Z := match p with Some p => Peer_Id p | None => 0 end.
Definition peer_GetStoreId (p : option Peer) : Z := match p with Some p => StoreId p | None => 0 end.

Definition classifyVoterAndLearner region : RegionInfo :=
  mkRegionInfo (meta region) (learners region) (Peers (meta region)) (leader region) (pendingPeers region) (approximateSize region).
Definition NewRegionInfo (region : Region) (leader : option Peer) (opts : list (RegionInfo → RegionInfo)) : RegionInfo :=
  classifyVoterAndLearner (foldl (λ r opt, opt r) (mkRegionInfo region [] [] leader [] 0) opts).
Definition Clone region (opts : list (RegionInfo → RegionInfo)) : RegionInfo :=
  classifyVoterAndLearner (foldl (λ r opt, opt r) (mkRegionInfo (meta region) [] [] (leader region) (pendingPeers region) (approximateSize region)) opts).

Definition EmptyRegionApproximateSize : Z := 1.
(** The fields of a [RegionHeartbeatRequest]. *)
Record RegionHeartbeatRequest := mkRegionHeartbeatRequest {
  hb_Region : Region;
  hb_Leader : option Peer;
  hb_PendingPeers : list Peer;
  hb_ApproximateSize : Z
}.
Definition RegionFromHeartbeat (heartbeat : RegionHeartbeatRequest) : RegionInfo :=
  let regionSize := hb_ApproximateSize heartbeat / 2 ^ 20 in
  let regionSize := if decide (regionSize < EmptyRegionApproximateSize) then EmptyRegionApproximateSize else regionSize in
  classifyVoterAndLearner (mkRegionInfo (hb_Region heartbeat) [] [] (hb_Leader heartbeat) (hb_PendingPeers heartbeat) (i64 regionSize)).

Definition GetPeer region (peerID : Z) : option Peer := list_find (λ p, Peer_Id p = peerID) (GetPeers region) ≫= λ p, Some p.2.
Definition GetPendingPeer region (peerID : Z) : option Peer := list_find (λ p, Peer_Id p = peerID) (pendingPeers region) ≫= λ p, Some p.2.
Definition GetStorePeer region (storeID : Z) : option Peer := list_find (λ p, StoreId p = storeID) (GetPeers region) ≫= λ p, Some p.2.
Definition GetStoreIds region : gset Z := list_to_set (StoreId <$> GetPeers region).
(** The follower of each store; a later peer of a store replaces an earlier one. *)
Definition is_follower region (p : Peer) : Prop := leader region = None ∨ peer_GetId (leader region) ≠ Peer_Id p.
#[global] Instance is_follower_dec region p : Decision (is_follower region p).
Proof. unfold is_follower. apply _. Defined.
Definition GetFollowers region : gmap Z Peer :=
  foldl (λ m p, if decide (is_follower region p) then <[StoreId p := p]> m else m) ∅ (voters region).

(** ** [regionItem] and [regionTree] *)

#[global] Instance region_Item : Item RegionInfo := λ r other, bltb (GetStartKey r) (GetStartKey other).
Definition Contains region (key : bytes) : bool :=
  bleb (GetStartKey region) key && (bool_decide (GetEndKey region = []) || bltb key (GetEndKey region)).

Definition defaultBTreeDegree : nat := 64.
Notation regionTree := (BTree RegionInfo).
Implicit Types t : regionTree.
Definition newRegionTree : run regionTree := btree.New defaultBTreeDegree.

(** [&RegionInfo{meta: &metapb.Region{StartKey: key}}] *)
Definition key_region (key : bytes) : RegionInfo := mkRegionInfo (mkRegion 0 key [] (mkRegionEpoch 0 0) []) [] [] None [] 0.

Definition rt_find t region : run (option RegionInfo) :=
  result ← DescendLessOrEqual t region (λ _ i, (Some i, false)) None;
  Ok (match result with Some r => if Contains r (GetStartKey region) then Some r else None | None => None end).

Definition getOverlaps t region : run (list RegionInfo) :=
  result ← rt_find t region;
  let result := match result with Some r => r | None => region end in
  AscendGreaterOrEqual t result
    (λ overlaps over,
       if negb (bool_decide (GetEndKey region = [])) && bleb (GetEndKey region) (GetStartKey over) then (overlaps, false) else (overlaps ++ [over], true)) [].

Fixpoint for_range {X St} (body : X → St → run St) (xs : list X) (st : St) : run St :=
  match xs with [] => Ok st | x :: xs => st ← body x st; for_range body xs st end.

Definition rt_update t region : run (regionTree * list RegionInfo) :=
  overlaps ← getOverlaps t region;
  t ← for_range (λ item t, '(t, _) ← btree.Delete t item; Ok t) overlaps t;
  '(t, _) ← ReplaceOrInsert t region;
  Ok (t, overlaps).

Definition rt_remove t region : run regionTree :=
  if decide (Len t = 0) then Ok t
  else
    result ← rt_find t region;
    match result with
    | None => Ok t
    | Some r => if decide (GetID r ≠ GetID region) then Ok t else '(t, _) ← btree.Delete t r; Ok t
    end.

Definition search t (regionKey : bytes) : run (option RegionInfo) := rt_find t (key_region regionKey).

Definition getAdjacentRegions t region : run (option RegionInfo * option RegionInfo) :=
  let item := key_region (GetStartKey region) in
  let other (o : option RegionInfo) i := if decide (GetStartKey item = GetStartKey i) then (o, true) else (Some i, false) in
  next ← AscendGreaterOrEqual t item other None;
  prev ← DescendLessOrEqual t item other None;
  Ok (prev, next).

Definition searchPrev t (regionKey : bytes) : run (option RegionInfo) :=
  cur ← rt_find t (key_region regionKey);
  match cur with
  | None => Ok None
  | Some cur =>
    '(prev, _) ← getAdjacentRegions t cur;
    match prev with
    | None => Ok None
    | Some prev => Ok (if decide (GetEndKey prev = GetStartKey cur) then Some prev else None)
    end
  end.

Definition scanRange {St} t (startKey : bytes) (f : St → RegionInfo → St * bool) (s : St) : run St :=
  startItem ← rt_find t (key_region startKey);
  let startItem := match startItem with Some r => r | None => key_region startKey end in
  AscendGreaterOrEqual t startItem f s.

(** The item at an index, which must be there. *)
Definition item_at t (k : Z) : run RegionInfo :=
  x ← GetAt t k; match x with Some r => Ok r | None => Panic "interface conversion: nil" end.
Definition RandomRegion (Intn : Z → Z) t (startKey endKey : bytes) : run (option RegionInfo) :=
  if decide (Len t = 0) then Ok None
  else
    '(startRegion, startIndex) ← GetWithIndex t (key_region startKey);
    endIndex ← (if decide (endKey ≠ []) then '(_, i) ← GetWithIndex t (key_region endKey); Ok i else Ok (Len t));
    startIndex ← (if decide (startIndex ≠ 0 ∧ startRegion = None) then
                    r ← item_at t (startIndex - 1);
                    Ok (if Contains r startKey then startIndex - 1 else startIndex)
                  else Ok startIndex);
    if decide (endIndex ≤ startIndex) then Ok None
    else r ← item_at t (Intn (endIndex - startIndex) + startIndex); Ok (Some r).

(** ** [regionMap] *)

Record regionMap := mkRegionMap { rm_m : gmap Z RegionInfo; rm_totalSize : Z }.
Definition newRegionMap : regionMap := mkRegionMap ∅ 0.
Definition rm_Len (rm : regionMap) : Z := Z.of_nat (base.size (rm_m rm)).
Definition rm_Get (rm : regionMap) (id : Z) : option RegionInfo := rm_m rm !! id.
Definition rm_Put (rm : regionMap) region : regionMap :=
  let total := match rm_m rm !! GetID region with Some old => i64 (rm_totalSize rm - approximateSize old) | None => rm_totalSize rm end in
  mkRegionMap (<[GetID region := region]> (rm_m rm)) (i64 (total + approximateSize region)).
Definition rm_Delete (rm : regionMap) (id : Z) : regionMap :=
  match rm_m rm !! id with
  | Some old => mkRegionMap (delete id (rm_m rm)) (i64 (rm_totalSize rm - approximateSize old))
  | None => rm
  end.
Definition rm_TotalSize (rm : regionMap) : Z := if decide (rm_Len rm = 0) then 0 else rm_totalSize rm.

(** ** [regionSubTree]; a store without one has a nil pointer *)

Record regionSubTree := mkRegionSubTree { rst_tree : regionTree; rst_totalSize : Z }.
Definition newRegionSubTree : run regionSubTree := t ← newRegionTree; Ok (mkRegionSubTree t 0).
Definition rst_length (rst : option regionSubTree) : Z := match rst with None => 0 | Some rst => Len (rst_tree rst) end.
Definition rst_TotalSize (rst : option regionSubTree) : Z :=
  if decide (rst_length rst = 0) then 0 else match rst with Some rst => rst_totalSize rst | None => 0 end.
Definition scanRanges (rst : option regionSubTree) : run (list RegionInfo) :=
  match rst with
  | Some rst' => if decide (rst_length rst = 0) then Ok [] else scanRange (rst_tree rst') [] (λ res region, (res ++ [region], true)) []
  | None => Ok []
  end.

(** [r.region = region] for the item [r] of a tree. *)
Fixpoint node_map (f : RegionInfo → RegionInfo) (n : node RegionInfo) : node RegionInfo :=
  let 'mkNode its chs ixs := n in mkNode (f <$> its) (node_map f <$> chs) ixs.
Definition set_item t (r region : RegionInfo) : regionTree :=
  mkBTree (degree t) (length_ t) (node_map (λ i, if decide (GetStartKey i = GetStartKey r) then region else i) <$> root t).

Definition rst_update (rst : regionSubTree) region : run regionSubTree :=
  r ← rt_find (rst_tree rst) region;
  match r with
  | Some r => Ok (mkRegionSubTree (set_item (rst_tree rst) r region) (i64 (rst_totalSize rst + (approximateSize region - approximateSize r))))
  | None => '(t, _) ← rt_update (rst_tree rst) region; Ok (mkRegionSubTree t (i64 (rst_totalSize rst + approximateSize region)))
  end.
Definition rst_remove (rst : option regionSubTree) region : run (option regionSubTree) :=
  match rst with
  | Some rst' =>
    if decide (rst_length rst = 0) then Ok rst
    else t ← rt_remove (rst_tree rst') region; Ok (Some (mkRegionSubTree t (rst_totalSize rst')))
  | None => Ok None
  end.
Definition rst_RandomRegion (Intn : Z → Z) (rst : option regionSubTree) (startKey endKey : bytes) : run (option RegionInfo) :=
  match rst with
  | Some rst' => if decide (rst_length rst = 0) then Ok None else RandomRegion Intn (rst_tree rst') startKey endKey
  | None => Ok None
  end.

(** ** [RegionsInfo] *)

Notation subTrees := (gmap Z regionSubTree).
Record RegionsInfo := mkRegionsInfo {
  tree : regionTree;
  regions : regionMap;
  leaders : subTrees;
  followers : subTrees;
  ri_learners : subTrees;
  ri_pendingPeers : subTrees
}.
Implicit Types r : RegionsInfo.

Definition NewRegionsInfo : run RegionsInfo := t ← newRegionTree; Ok (mkRegionsInfo t newRegionMap ∅ ∅ ∅ ∅).

Definition GetRegion r (regionID : Z) : option RegionInfo := rm_Get (regions r) regionID.

(** [m[storeID].remove(region)] and the [update] of a sub tree that is created
    when it is missing. *)
Definition sub_remove (m : subTrees) (storeID : Z) region : run subTrees :=
  s ← rst_remove (m !! storeID) region; Ok (match s with Some s => <[storeID := s]> m | None => m end).
Definition sub_update (m : subTrees) (storeID : Z) region : run subTrees :=
  store ← (match m !! storeID with Some store => Ok store | None => newRegionSubTree end);
  store ← rst_update store region;
  Ok (<[storeID := store]> m).

Definition RemoveRegion r region : run RegionsInfo :=
  t ← rt_remove (tree r) region;
  for_range (λ peer r,
    l ← sub_remove (leaders r) (StoreId peer) region;
    f ← sub_remove (followers r) (StoreId peer) region;
    n ← sub_remove (ri_learners r) (StoreId peer) region;
    p ← sub_remove (ri_pendingPeers r) (StoreId peer) region;
    Ok (mkRegionsInfo (tree r) (regions r) l f n p))
    (GetPeers region) (mkRegionsInfo t (rm_Delete (regions r) (GetID region)) (leaders r) (followers r) (ri_learners r) (ri_pendingPeers r)).

Definition add_voter region (peer : Peer) r : run RegionsInfo :=
  if decide (Peer_Id peer = peer_GetId (leader region)) then
    l ← sub_update (leaders r) (StoreId peer) region; Ok (mkRegionsInfo (tree r) (regions r) l (followers r) (ri_learners r) (ri_pendingPeers r))
  else
    f ← sub_update (followers r) (StoreId peer) region; Ok (mkRegionsInfo (tree r) (regions r) (leaders r) f (ri_learners r) (ri_pendingPeers r)).
Definition AddRegion r region : run (RegionsInfo * list RegionInfo) :=
  '(t, overlaps) ← rt_update (tree r) region;
  r ← for_range (λ item r, match GetRegion r (GetID item) with Some x => RemoveRegion r x | None => Panic "nil pointer dereference" end)
        overlaps (mkRegionsInfo t (regions r) (leaders r) (followers r) (ri_learners r) (ri_pendingPeers r));
  r ← for_range (add_voter region) (voters region) (mkRegionsInfo (tree r) (rm_Put (regions r) region) (leaders r) (followers r) (ri_learners r) (ri_pendingPeers r));
  n ← for_range (λ peer m, sub_update m (StoreId peer) region) (learners region) (ri_learners r);
  p ← for_range (λ peer m, sub_update m (StoreId peer) region) (pendingPeers region) (ri_pendingPeers r);
  Ok (mkRegionsInfo (tree r) (regions r) (leaders r) (followers r) n p, overlaps).
Definition SetRegion r region : run (RegionsInfo * list RegionInfo) :=
  r ← (match rm_Get (regions r) (GetID region) with Some origin => RemoveRegion r origin | None => Ok r end);
  AddRegion r region.

Definition Length r : Z := rm_Len (regions r).
Definition TreeLength r : Z := Len (tree r).
Definition GetOverlaps r region : run (list RegionInfo) := getOverlaps (tree r) region.
Definition SearchRegion r (regionKey : bytes) : run (option RegionInfo) :=
  region ← search (tree r) regionKey; Ok (match region with Some region => GetRegion r (GetID region) | None => None end).
Definition SearchPrevRegion r (regionKey : bytes) : run (option RegionInfo) :=
  region ← searchPrev (tree r) regionKey; Ok (match region with Some region => GetRegion r (GetID region) | None => None end).
Definition GetStoreRegions r (storeID : Z) : run (list RegionInfo) :=
  l ← scanRanges (leaders r !! storeID); f ← scanRanges (followers r !! storeID); Ok (l ++ f).
Definition GetStoreLeaderRegionSize r (storeID : Z) : Z := rst_TotalSize (leaders r !! storeID).
Definition GetStoreFollowerRegionSize r (storeID : Z) : Z := rst_TotalSize (followers r !! storeID).
Definition GetStoreLearnerRegionSize r (storeID : Z) : Z := rst_TotalSize (ri_learners r !! storeID).
Definition GetStoreRegionSize r (storeID : Z) : Z :=
  i64 (i64 (GetStoreLeaderRegionSize r storeID + GetStoreFollowerRegionSize r storeID) + GetStoreLearnerRegionSize r storeID).
Definition GetStoreLeaderCount r (storeID : Z) : Z := rst_length (leaders r !! storeID).
Definition GetStoreFollowerCount r (storeID : Z) : Z := rst_length (followers r !! storeID).
Definition GetStoreLearnerCount r (storeID : Z) : Z := rst_length (ri_learners r !! storeID).
Definition GetStorePendingPeerCount r (storeID : Z) : Z := rst_length (ri_pendingPeers r !! storeID).
Definition GetRegionCount r : Z := rm_Len (regions r).
Definition GetStoreRegionCount r (storeID : Z) : Z := GetStoreLeaderCount r storeID + GetStoreFollowerCount r storeID + GetStoreLearnerCount r storeID.
Definition ScanRange r (startKey endKey : bytes) (limit : Z) : run (list (option RegionInfo)) :=
  scanRange (tree r) startKey
    (λ res region,
       if negb (bool_decide (endKey = [])) && bleb endKey (GetStartKey region) then (res, false)
       else if bool_decide (0 < limit) && bool_decide (limit ≤ zlen res) then (res, false)
       else (res ++ [GetRegion r (GetID region)], true)) [].
Definition GetAverageRegionSize r : Z := if decide (rm_Len (regions r) = 0) then 0 else Z.quot (rm_TotalSize (regions r)) (rm_Len (regions r)).

(** [randRegion]: ten attempts to find a region that the options select. *)
Definition randomRegionMaxRetry : nat := 10.
Fixpoint randRegion_loop (retry : nat) (random : nat → run (option RegionInfo)) (opts : list (RegionInfo → bool)) : run (option RegionInfo) :=
  match retry with
  | O => Ok None
  | S retry =>
    region ← random retry;
    match region with
    | None => Ok None
    | Some region => if forallb (λ opt, opt region) opts then Ok (Some region) else randRegion_loop retry random opts
    end
  end.
Definition randRegion (random : nat → run (option RegionInfo)) (opts : list (RegionInfo → bool)) : run (option RegionInfo) :=
  randRegion_loop randomRegionMaxRetry random opts.
Definition RandRegion (Intn : nat → Z → Z) r opts : run (option RegionInfo) := randRegion (λ i, RandomRegion (Intn i) (tree r) [] []) opts.
Definition RandPendingRegion (Intn : nat → Z → Z) r (storeID : Z) opts : run (option RegionInfo) :=
  randRegion (λ i, rst_RandomRegion (Intn i) (ri_pendingPeers r !! storeID) [] []) opts.
Definition RandLeaderRegion (Intn : nat → Z → Z) r (storeID : Z) opts : run (option RegionInfo) :=
  randRegion (λ i, rst_RandomRegion (Intn i) (leaders r !! storeID) [] []) opts.
Definition RandFollowerRegion (Intn : nat → Z → Z) r (storeID : Z) opts : run (option RegionInfo) :=
  randRegion (λ i, rst_RandomRegion (Intn i) (followers r !! storeID) [] []) opts.
End core.
