(* ===== verification/RegionTreeSpec.v ===== *)
(** The regions of the scheduler are disjoint key ranges: the tree finds the region
    of a key, an update removes exactly the regions it overlaps, and the map and
    the trees of the stores agree with the tree. *)

From S2P Require Import Prelude Pb BTree BTreeSpec BTreeQuery BTreeRefine RegionTree.
Import metapb btree core.

#[global] Instance region_ItemOrder : ItemOrder RegionInfo.
Proof.
  split; unfold Less, region_Item.
  - intros a. apply not_true_iff_false. rewrite bltb_spec. apply blt_irrefl.
  - intros a b c. rewrite !bltb_spec. apply blt_trans.
  - intros a b c. rewrite !bltb_spec. intros Hac. destruct (decide (blt (GetStartKey a) (GetStartKey b))) as [|Hn]; [by left|right].
    apply ble_not_blt in Hn. by eapply ble_blt_trans.
Qed.
#[global] Instance RegionInfo_eq_dec : EqDecision RegionInfo.
Proof. solve_decision. Defined.

Implicit Types (x y region : RegionInfo) (l : list RegionInfo) (t : BTree RegionInfo) (key : bytes).
Notation lts := (StronglySorted (lt (A:=RegionInfo))).

Lemma lt_start x y : lt x y ↔ blt (GetStartKey x) (GetStartKey y).
Proof. apply bltb_spec. Qed.

(** ** Ranges *)

(** A key before an end; an empty end is no bound. *)
Definition key_below key (e : bytes) : Prop := e = [] ∨ blt key e.
#[global] Instance key_below_dec key e : Decision (key_below key e).
Proof. unfold key_below. apply _. Defined.

Definition has_range region : Prop := key_below (GetStartKey region) (GetEndKey region).
Definition holds region key : Prop := ble (GetStartKey region) key ∧ key_below key (GetEndKey region).
(** Ranges [[startKey, endKey)] that meet. *)
Definition meets (startKey endKey : bytes) x : Prop := key_below (GetStartKey x) endKey ∧ key_below startKey (GetEndKey x).
Definition overlap region x : Prop := meets (GetStartKey region) (GetEndKey region) x.
Definition precedes x y : Prop := GetEndKey x ≠ [] ∧ ble (GetEndKey x) (GetStartKey y).
#[global] Instance holds_dec region key : Decision (holds region key).
Proof. unfold holds. apply _. Defined.
#[global] Instance meets_dec s e x : Decision (meets s e x).
Proof. unfold meets. apply _. Defined.
#[global] Instance overlap_dec region x : Decision (overlap region x).
Proof. unfold overlap. apply _. Defined.

Lemma not_key_below key e : ¬ key_below key e ↔ e ≠ [] ∧ ble e key.
Proof. unfold key_below. rewrite ble_not_blt. destruct (decide (e = [])); naive_solver. Qed.
Lemma key_below_le a b e : ble a b → key_below b e → key_below a e.
Proof. intros Hab [->|Hb]; [by left|right]. by eapply ble_blt_trans. Qed.
Lemma Contains_holds region key : Contains region key = true ↔ holds region key.
Proof. unfold Contains, holds, key_below. rewrite andb_true_iff orb_true_iff bleb_spec bool_decide_eq_true bltb_spec. done. Qed.

Record disjoint l : Prop := { dj_range : Forall has_range l; dj_apart : StronglySorted precedes l }.

Lemma precedes_lt x y : has_range x → precedes x y → lt x y.
Proof. intros [Hx|Hx] [Hn Hp]; [done|]. apply lt_start. by eapply blt_ble_trans. Qed.
Lemma disjoint_sorted l : disjoint l → lts l.
Proof.
  intros [Hr Ha]. induction Ha as [|x l Ha IH Hx]; [constructor|]. apply Forall_cons in Hr as [Hx' Hr]. constructor; [by apply IH|].
  eapply Forall_impl; [exact Hx|]. intros y. by apply precedes_lt.
Qed.
Lemma disjoint_filter (P : RegionInfo → Prop) `{∀ x, Decision (P x)} l : disjoint l → disjoint (filter P l).
Proof.
  intros [Hr Ha]. split.
  - rewrite Forall_forall in Hr. rewrite Forall_forall. intros x [_ Hx]%list_elem_of_filter. by apply Hr.
  - clear Hr. induction Ha as [|x l Ha IH Hx]; [constructor|]. rewrite filter_cons. destruct (decide (P x)); [|done]. constructor; [done|].
    rewrite Forall_forall in Hx. rewrite Forall_forall. intros y [_ Hy]%list_elem_of_filter. by apply Hx.
Qed.
Lemma disjoint_app a b : disjoint (a ++ b) ↔ disjoint a ∧ disjoint b ∧ ∀ x y, x ∈ a → y ∈ b → precedes x y.
Proof.
  split.
  - intros [Hr Ha]. apply Forall_app in Hr as [? ?]. apply StronglySorted_app in Ha as (? & ? & ?). by split_and!.
  - intros ([? ?] & [? ?] & ?). split; [by apply Forall_app|]. by apply StronglySorted_app.
Qed.
Lemma disjoint_cons x l : disjoint (x :: l) ↔ has_range x ∧ disjoint l ∧ ∀ y, y ∈ l → precedes x y.
Proof.
  split.
  - intros [Hr Ha]. apply Forall_cons in Hr as [? ?]. apply StronglySorted_inv in Ha as [? Hx]. rewrite Forall_forall in Hx. by split_and!.
  - intros (? & [? ?] & Hx). split; [by constructor|]. constructor; [done|]. by rewrite Forall_forall.
Qed.

(** The regions up to a key and those after it. *)
Lemma split_key l key : lts l → ∃ a b, l = a ++ b ∧ Forall (λ x, ble (GetStartKey x) key) a ∧ Forall (λ x, blt key (GetStartKey x)) b.
Proof.
  induction l as [|x l IH]; intros Hs; [by exists [], []|]. apply StronglySorted_inv in Hs as [Hs Hx]. destruct (decide (ble (GetStartKey x) key)) as [Hle|Hgt].
  - destruct (IH Hs) as (a & b & -> & Ha & Hb). exists (x :: a), b. split_and!; [done|by constructor|done].
  - exists [], (x :: l). split_and!; [done|constructor|]. assert (Hk : blt key (GetStartKey x)) by (by apply blt_not_ble). constructor; [done|].
    eapply Forall_impl; [exact Hx|]. intros y Hy%lt_start. by eapply blt_trans.
Qed.

(** The region of a key. *)
Definition holder l key : option RegionInfo := head (filter (λ x, holds x key) l).

Lemma not_holds_after key x : blt key (GetStartKey x) → ¬ holds x key.
Proof. intros Hk [Hs _]. apply ble_not_blt in Hs. done. Qed.
Lemma not_holds_before key x y : precedes x y → ble (GetStartKey y) key → ¬ holds x key.
Proof. intros [Hn Hp] Hy [_ Hk]. apply (not_key_below key (GetEndKey x)); [|done]. split; [done|]. by eapply ble_trans. Qed.

Lemma holder_split a b key :
  disjoint (a ++ b) → Forall (λ x, ble (GetStartKey x) key) a → Forall (λ x, blt key (GetStartKey x)) b →
  filter (λ x, holds x key) (a ++ b) = match last a with Some x => if decide (holds x key) then [x] else [] | None => [] end.
Proof.
  intros Hd Ha Hb. rewrite filter_app (filter_Forall_not _ b) ?app_nil_r; [|eapply Forall_impl; [exact Hb|]; intros; by apply not_holds_after].
  destruct a as [|x a _] using rev_ind; [done|]. rewrite last_snoc filter_app. apply Forall_app in Ha as [_ Hx]. rewrite Forall_singleton in Hx.
  apply disjoint_app in Hd as (Hd & _). apply disjoint_app in Hd as (_ & _ & Hp).
  rewrite (filter_Forall_not _ a); [|rewrite Forall_forall; intros y Hy; apply (not_holds_before key y x); [apply Hp; [done|by left]|done]].
  rewrite filter_cons. by destruct (decide (holds x key)).
Qed.

Lemma disjoint_holder l x key : disjoint l → x ∈ l → holds x key → holder l key = Some x.
Proof.
  intros Hd Hx Hk. destruct (split_key l key (disjoint_sorted l Hd)) as (a & b & -> & Ha & Hb). unfold holder. rewrite (holder_split a b) //.
  assert (Hf : x ∈ filter (λ x, holds x key) (a ++ b)) by (by apply list_elem_of_filter). rewrite (holder_split a b) // in Hf.
  destruct (last a) as [y|]; [|by apply elem_of_nil in Hf]. destruct (decide (holds y key)); [|by apply elem_of_nil in Hf]. by apply list_elem_of_singleton in Hf as ->.
Qed.
Lemma holder_Some l key x : holder l key = Some x → x ∈ l ∧ holds x key.
Proof.
  unfold holder. intros H%head_Some. destruct H as [k Hk]. assert (Hx : x ∈ filter (λ x, holds x key) l) by (rewrite Hk; by left).
  by apply list_elem_of_filter in Hx as [? ?].
Qed.
Lemma holder_None l key x : holder l key = None → x ∈ l → ¬ holds x key.
Proof.
  unfold holder. intros H Hx Hk. assert (Hf : x ∈ filter (λ x, holds x key) l) by (by apply list_elem_of_filter).
  destruct (filter _ l); [by apply elem_of_nil in Hf|done].
Qed.

(** ** Walks from a key *)

Lemma walked_down region a b :
  Forall (λ x, ble (GetStartKey x) (GetStartKey region)) a → Forall (λ x, blt (GetStartKey region) (GetStartKey x)) b →
  walked descend (Some region) None (a ++ b) = rev a.
Proof.
  intros Ha Hb. unfold walked. f_equal. rewrite filter_app filter_Forall ?filter_Forall_not ?app_nil_r //.
  - eapply Forall_impl; [exact Hb|]. intros x Hx [Hn _]. apply Hn. by apply lt_start.
  - eapply Forall_impl; [exact Ha|]. intros x Hx. split; [|done]. cbn. rewrite lt_start. by apply ble_not_blt.
Qed.
Lemma walked_up region a b :
  Forall (λ x, blt (GetStartKey x) (GetStartKey region)) a → Forall (λ x, ble (GetStartKey region) (GetStartKey x)) b →
  walked ascend (Some region) None (a ++ b) = b.
Proof.
  intros Ha Hb. unfold walked. rewrite filter_app filter_Forall_not ?filter_Forall //.
  - eapply Forall_impl; [exact Hb|]. intros x Hx. split; [|done]. cbn. rewrite lt_start. by apply ble_not_blt.
  - eapply Forall_impl; [exact Ha|]. intros x Hx [Hn _]. apply Hn. by apply lt_start.
Qed.

Lemma rt_find_ok t l region : represents t l → disjoint l → rt_find t region = Ok (holder l (GetStartKey region)).
Proof.
  intros Hr Hd. unfold rt_find, DescendLessOrEqual. rewrite (walk_ok t l) //; [|by right]. cbn [mbind outcome_bind]. f_equal.
  destruct (split_key l (GetStartKey region) (disjoint_sorted l Hd)) as (a & b & -> & Ha & Hb). rewrite walked_down //.
  unfold holder. rewrite (holder_split a b) //. destruct a as [|x a _] using rev_ind; [done|]. rewrite rev_app_distr last_snoc. cbn.
  destruct (decide (holds x (GetStartKey region))) as [Hh|Hh]; [by rewrite (proj2 (Contains_holds _ _) Hh)|].
  destruct (Contains x (GetStartKey region)) eqn:E; [by apply Contains_holds in E|done].
Qed.

(** Where a scan from a key begins: at the region of the key, or after the key. *)
Definition reaches key x : Prop := key_below key (GetEndKey x).
#[global] Instance reaches_dec key x : Decision (reaches key x).
Proof. unfold reaches. apply _. Defined.
Definition scan_start l key : RegionInfo := match holder l key with Some r => r | None => key_region key end.

Lemma scan_from l region key :
  disjoint l → GetStartKey region = key →
  walked ascend (Some (match holder l key with Some r => r | None => region end)) None l = filter (reaches key) l.
Proof.
  intros Hd Hk. destruct (split_key l key (disjoint_sorted l Hd)) as (a & b & -> & Ha & Hb). unfold holder. rewrite (holder_split a b) //.
  pose proof Hd as (Hda & Hdb & Hab)%disjoint_app. assert (Fb : Forall (reaches key) b).
  { destruct Hdb as [Hr _]. rewrite Forall_forall in Hr. rewrite Forall_forall in Hb. rewrite Forall_forall. intros y Hy. unfold reaches. eapply key_below_le; [|by apply Hr]. by apply blt_ble, Hb. }
  rewrite filter_app (filter_Forall _ b) //. destruct a as [|x a _] using rev_ind.
  { cbn. apply (walked_up _ [] b); [constructor|]. rewrite Hk. eapply Forall_impl; [exact Hb|]. intros. by apply blt_ble. }
  rewrite last_snoc. pose proof Hda as (Hda' & _ & Hax)%disjoint_app. apply Forall_app in Ha as [Ha Hx]. rewrite Forall_singleton in Hx.
  assert (Fa : Forall (λ y, ¬ reaches key y) a).
  { rewrite Forall_forall. intros y Hy. apply not_key_below. destruct (Hax y x Hy) as [? Hp]; [by left|]. split; [done|by eapply ble_trans]. }
  rewrite filter_app (filter_Forall_not _ a) // filter_cons filter_nil. cbn [app].
  destruct (decide (holds x key)) as [Hh|Hh].
  - rewrite decide_True; [|apply Hh]. rewrite -app_assoc. apply walked_up.
    + rewrite Forall_forall. intros y Hy. apply lt_start. eapply (sorted_cross a [x]); [by apply disjoint_sorted|done|by left].
    + constructor; [apply ble_refl|]. eapply Forall_impl; [exact Hb|]. cbn. intros y Hy. eapply ble_trans; [exact Hx|by apply blt_ble].
  - assert (Hn : ¬ reaches key x) by (intros Hn; by apply Hh). rewrite decide_False //. apply walked_up.
    + rewrite Hk. assert (Hxk : ∀ z, ble (GetStartKey z) key → has_range z → ¬ reaches key z → blt (GetStartKey z) key).
      { intros z Hz Hr Hnz. apply not_key_below in Hnz as [Hne Hez]. destruct Hr as [?|Hr]; [done|]. by eapply blt_ble_trans. }
      destruct Hda as [Hr _]. apply Forall_app in Hr as [Hra Hrx]. rewrite Forall_singleton in Hrx. apply Forall_app. split; [|by apply Forall_singleton, Hxk].
      rewrite Forall_forall in Ha. rewrite Forall_forall in Fa. rewrite Forall_forall in Hra. rewrite Forall_forall. intros y Hy. by apply Hxk; [apply Ha|apply Hra|apply Fa].
    + rewrite Hk. eapply Forall_impl; [exact Hb|]. intros. by apply blt_ble.
Qed.

(** A walk that collects the regions up to an end key. *)
Lemma visit_collect_until {St} (g : St → RegionInfo → St) (P : RegionInfo → bool) (Q : RegionInfo → Prop) `{∀ x, Decision (Q x)} l s :
  (∀ x, P x = false ↔ Q x) → (∀ l1 x l2, l = l1 ++ x :: l2 → P x = true → Forall (λ y, P y = true) l2) →
  (visit (λ s x, if P x then (s, false) else (g s x, true)) l s).1 = foldl g s (filter Q l).
Proof.
  intros HQ Hm. rewrite (visit_until (λ s x, (g s x, true)) P Q) //. clear Hm. revert s. induction (filter Q l) as [|x k IH]; intros s; [done|]. cbn. apply IH.
Qed.
Lemma foldl_snoc {X Y} (f : X → Y) (k : list X) (s : list Y) : foldl (λ s (z : X), s ++ [f z]) s k = s ++ (f <$> k).
Proof. revert s. induction k as [|x k IH]; intros s; cbn; [by rewrite app_nil_r|]. by rewrite IH -app_assoc. Qed.

(** The test that ends a scan: the end key is not after the region's start. *)
Definition beyond (e : bytes) x : bool := negb (bool_decide (e = [])) && bleb e (GetStartKey x).
Lemma beyond_spec e x : beyond e x = false ↔ key_below (GetStartKey x) e.
Proof.
  unfold beyond, key_below. destruct (bool_decide_reflect (e = [])) as [->|Hn]; cbn; [naive_solver|]. rewrite -not_true_iff_false bleb_spec -blt_not_ble. naive_solver.
Qed.
Lemma beyond_mono e l l1 x l2 : lts l → l = l1 ++ x :: l2 → beyond e x = true → Forall (λ y, beyond e y = true) l2.
Proof.
  intros Hs E Hx. eapply Forall_impl; [by eapply StronglySorted_mid|]. intros y Hy%lt_start. apply not_false_iff_true. rewrite beyond_spec. intros Hb.
  apply not_false_iff_true in Hx. apply Hx. apply beyond_spec. eapply key_below_le; [by apply blt_ble|done].
Qed.

Lemma getOverlaps_ok t l region : represents t l → disjoint l → getOverlaps t region = Ok (filter (overlap region) l).
Proof.
  intros Hr Hd. unfold getOverlaps. rewrite (rt_find_ok t l) //. cbn [mbind outcome_bind]. unfold AscendGreaterOrEqual. rewrite (walk_ok t l) //; [|by right]. f_equal.
  rewrite (scan_from l region) //. rewrite (visit_collect_until (λ s x, s ++ [x]) (beyond (GetEndKey region)) (λ x, key_below (GetStartKey x) (GetEndKey region))).
  - rewrite (foldl_snoc id) list_fmap_id list_filter_filter. apply list_filter_iff. intros x. unfold overlap, meets, reaches. naive_solver.
  - intros x. apply beyond_spec.
  - intros l1 x l2 E. eapply beyond_mono; [|exact E]. apply sorted_filter. by apply disjoint_sorted.
Qed.

(** ** Updates *)

Lemma eqv_start x y : eqv x y ↔ GetStartKey x = GetStartKey y.
Proof.
  unfold eqv. rewrite !lt_start -!ble_not_blt. split.
  - intros [H1 H2]. apply ble_lteq in H1 as [H1|H1]; [|done]. apply ble_not_blt in H2. done.
  - intros ->. split; apply ble_refl.
Qed.
Lemma sorted_start_inj l x y : lts l → x ∈ l → y ∈ l → GetStartKey x = GetStartKey y → x = y.
Proof.
  intros Hs Hx Hy E. apply list_elem_of_split in Hx as (a & b & ->). apply eqv_start in E as [H1 H2]. apply elem_of_app in Hy as [Hy|Hy].
  - destruct H2. eapply sorted_cross; [exact Hs|done|by left].
  - apply elem_of_cons in Hy as [->|Hy]; [done|]. destruct H1. apply StronglySorted_app_1_r, StronglySorted_inv in Hs as [_ Hs]. rewrite Forall_forall in Hs. by apply Hs.
Qed.
Lemma without_spec x l : lts l → (∀ y, y ∈ l → GetStartKey y = GetStartKey x → y = x) → without x l = filter (λ y, y ≠ x) l.
Proof.
  intros Hs Hx. destruct (locate l x Hs) as [(a & b & -> & Ha & Hb)|(a & y & b & -> & He & Ha & Hb)].
  - unfold without. destruct (parts_gap x a b Ha Hb) as (-> & -> & _). rewrite filter_Forall //. apply Forall_app.
    split; [eapply Forall_impl; [exact Ha|]|eapply Forall_impl; [exact Hb|]]; cbn; intros z Hz ->; by apply lt_irrefl in Hz.
  - unfold without. destruct (parts_at x y a b Hs He) as (_ & _ & -> & -> & _). assert (y = x) as ->.
    { apply Hx; [apply elem_of_app; right; by left|]. symmetry. by apply eqv_start. }
    rewrite filter_app filter_cons_False; [|naive_solver]. rewrite !filter_Forall //;
    [eapply Forall_impl; [exact Hb|]|eapply Forall_impl; [exact Ha|]]; cbn; intros z Hz ->; by apply lt_irrefl in Hz.
Qed.

Lemma Delete_ok t l l0 x :
  represents t l → lts l0 → (∀ y, y ∈ l → y ∈ l0) → x ∈ l0 →
  ∃ t' o, btree.Delete t x = Ok (t', o) ∧ represents t' (filter (λ y, y ≠ x) l).
Proof.
  intros Hr Hs Hl Hx. destruct (deleteItem_ok t l (removeItem x) Hr) as (t' & E & _ & Hr'). exists t', (taken (removeItem x) l). split; [done|].
  cbn [remaining] in Hr'. rewrite without_spec in Hr'; [done|by destruct Hr|]. intros y Hy E'. by eapply sorted_start_inj; [|apply Hl| |].
Qed.
Lemma delete_all_ok l0 (k : list RegionInfo) t l :
  represents t l → lts l0 → (∀ y, y ∈ l → y ∈ l0) → (∀ x, x ∈ k → x ∈ l0) →
  ∃ t', for_range (λ item t, '(t, _) ← btree.Delete t item; Ok t) k t = Ok t' ∧ represents t' (filter (λ y, y ∉ k) l).
Proof.
  revert t l. induction k as [|x k IH]; intros t l Hr Hs Hl Hk.
  - exists t. split; [done|]. rewrite filter_Forall //. apply Forall_true. intros y. apply not_elem_of_nil.
  - destruct (Delete_ok t l l0 x Hr Hs Hl) as (t1 & o & E1 & Hr1); [apply Hk; by left|]. cbn [for_range]. rewrite E1. cbn [mbind outcome_bind].
    destruct (IH t1 _ Hr1 Hs) as (t2 & E2 & Hr2); [intros y [_ Hy]%list_elem_of_filter; by apply Hl|intros y Hy; apply Hk; by right|].
    exists t2. split; [exact E2|]. rewrite list_filter_filter in Hr2. erewrite list_filter_iff; [exact Hr2|]. intros y. cbn. rewrite not_elem_of_cons. naive_solver.
Qed.

Lemma disjoint_put region l : disjoint l → has_range region → Forall (λ x, ¬ overlap region x) l → disjoint (put region l).
Proof.
  intros Hd Hr Ho. unfold put, below, above. rewrite Forall_forall in Ho. pose proof Hd as [Hrl _]. rewrite Forall_forall in Hrl.
  assert (Hb : ∀ x, x ∈ l → lt x region → precedes x region).
  { intros x Hx Hlt%lt_start. apply not_key_below. intros Hk. apply (Ho x Hx). split; [|done]. by eapply key_below_le; [apply blt_ble|]. }
  assert (Ha : ∀ x, x ∈ l → lt region x → precedes region x).
  { intros x Hx Hlt%lt_start. apply not_key_below. intros Hk. apply (Ho x Hx). split; [done|]. by eapply key_below_le; [apply blt_ble|apply Hrl]. }
  apply disjoint_app. split_and!; [by apply disjoint_filter|apply disjoint_cons; split_and!; [done|by apply disjoint_filter|]|].
  - intros y [Hy Hyl]%list_elem_of_filter. by apply Ha.
  - intros x y [Hx Hxl]%list_elem_of_filter [->|[Hy Hyl]%list_elem_of_filter]%elem_of_cons; [by apply Hb|].
    destruct (Hb x Hxl Hx) as [Hne Hle]. split; [done|]. eapply ble_trans; [exact Hle|]. by apply blt_ble, lt_start.
Qed.
Lemma filter_in (P Q : RegionInfo → Prop) `{∀ x, Decision (P x)} `{∀ x, Decision (Q x)} l :
  (∀ x, x ∈ l → P x ↔ Q x) → filter P l = filter Q l.
Proof.
  induction l as [|x l IH]; intros HPQ; [done|]. rewrite !filter_cons IH; [|intros y Hy; apply HPQ; by right].
  pose proof (HPQ x ltac:(by left)). destruct (decide (P x)), (decide (Q x)); naive_solver.
Qed.

Lemma filter_comm (P Q : RegionInfo → Prop) `{∀ x, Decision (P x)} `{∀ x, Decision (Q x)} l : filter P (filter Q l) = filter Q (filter P l).
Proof. rewrite !list_filter_filter. apply list_filter_iff. naive_solver. Qed.

(** The regions after an update. *)
Definition updated region l : list RegionInfo := put region (filter (λ x, ¬ overlap region x) l).
Lemma updated_disjoint region l : disjoint l → has_range region → disjoint (updated region l).
Proof.
  intros Hd Hr. apply disjoint_put; [by apply disjoint_filter|done|]. rewrite Forall_forall. intros x Hx. by apply list_elem_of_filter in Hx as [? _].
Qed.

Lemma rt_update_ok t l region :
  represents t l → disjoint l → ∃ t', rt_update t region = Ok (t', filter (overlap region) l) ∧ represents t' (updated region l).
Proof.
  intros Hr Hd. unfold rt_update. rewrite (getOverlaps_ok t l) //. cbn [mbind outcome_bind].
  destruct (delete_all_ok l (filter (overlap region) l) t l Hr) as (t1 & E1 & Hr1); [by apply disjoint_sorted|done|by intros x [_ ?]%list_elem_of_filter|].
  rewrite E1. cbn [mbind outcome_bind]. destruct (ReplaceOrInsert_ok t1 _ region Hr1) as (t2 & -> & _ & Hr2). cbn [mbind outcome_bind]. exists t2. split; [done|].
  unfold updated. assert (E : filter (λ x, ¬ overlap region x) l = filter (λ y, y ∉ filter (overlap region) l) l); [|by rewrite E].
  apply filter_in. intros x Hx. rewrite list_elem_of_filter. naive_solver.
Qed.

Lemma rt_remove_ok t l x :
  represents t l → disjoint l → has_range x → (∀ y, y ∈ l → holds y (GetStartKey x) → GetID y = GetID x → y = x) →
  ∃ t', rt_remove t x = Ok t' ∧ represents t' (filter (λ y, y ≠ x) l).
Proof.
  intros Hr Hd Hx Hid. assert (Hxx : holds x (GetStartKey x)) by (split; [apply ble_refl|done]).
  assert (Hkeep : x ∉ l → represents t (filter (λ y, y ≠ x) l)).
  { intros Hn. rewrite filter_Forall //. rewrite Forall_forall. intros y Hy ->. done. }
  unfold rt_remove. destruct (decide (Len t = 0)) as [Hz|_].
  { exists t. split; [done|]. apply Hkeep. unfold Len in Hz. rewrite (rp_length t l Hr) in Hz. unfold zlen in Hz. destruct l; [apply not_elem_of_nil|cbn in Hz; lia]. }
  rewrite (rt_find_ok t l) //. cbn [mbind outcome_bind]. destruct (holder l (GetStartKey x)) as [y|] eqn:Eh.
  - apply holder_Some in Eh as [Hy Hh]. destruct (decide (GetID y ≠ GetID x)) as [Hne|He].
    + exists t. split; [done|]. apply Hkeep. intros Hxl. pose proof (disjoint_holder l x _ Hd Hxl Hxx) as E1. pose proof (disjoint_holder l y _ Hd Hy Hh) as E2.
      rewrite E1 in E2. naive_solver.
    + apply dec_stable in He. assert (y = x) as -> by (by apply Hid).
      destruct (Delete_ok t l l x Hr) as (t' & o & -> & Hr'); [by apply disjoint_sorted|done|done|]. by exists t'.
  - exists t. split; [done|]. apply Hkeep. intros Hxl. by eapply holder_None.
Qed.

(** ** Queries *)

Lemma rt_search_ok t l key : represents t l → disjoint l → core.search t key = Ok (holder l key).
Proof. intros. unfold core.search. by rewrite (rt_find_ok t l). Qed.

Lemma scanRange_ok {St} t l key (f : St → RegionInfo → St * bool) s :
  represents t l → disjoint l → scanRange t key f s = Ok (visit f (filter (reaches key) l) s).1.
Proof.
  intros Hr Hd. unfold scanRange. rewrite (rt_find_ok t l) //. cbn [mbind outcome_bind GetStartKey key_region meta StartKey].
  unfold AscendGreaterOrEqual. rewrite (walk_ok t l) //; [|by right]. do 3 f_equal. by apply (scan_from l (key_region key)).
Qed.

(** The region that ends where the region of the key begins. *)
Definition previous l key : option RegionInfo :=
  match holder l key with
  | Some cur => head (filter (λ y, lt y cur ∧ GetEndKey y = GetStartKey cur) l)
  | None => None
  end.

Lemma getAdjacent_ok t a cur b :
  represents t (a ++ cur :: b) → getAdjacentRegions t cur = Ok (last a, head b).
Proof.
  intros Hr. pose proof (rp_sorted _ _ Hr) as Hs. unfold getAdjacentRegions. set (item := key_region (GetStartKey cur)).
  assert (Ei : GetStartKey item = GetStartKey cur) by done.
  assert (Ha : Forall (λ x, blt (GetStartKey x) (GetStartKey cur)) a).
  { rewrite Forall_forall. intros x Hx. apply lt_start. eapply sorted_cross; [exact Hs|done|by left]. }
  assert (Hb : Forall (λ x, blt (GetStartKey cur) (GetStartKey x)) b).
  { apply StronglySorted_app_1_r, StronglySorted_inv in Hs as [_ Hs]. eapply Forall_impl; [exact Hs|]. intros x. by apply lt_start. }
  unfold AscendGreaterOrEqual, DescendLessOrEqual. rewrite !(walk_ok t (a ++ cur :: b)) //; [|by right..]. cbn [mbind outcome_bind].
  rewrite walked_up; [|by rewrite Ei|rewrite Ei; constructor; [apply ble_refl|eapply Forall_impl; [exact Hb|]; intros; by apply blt_ble]].
  rewrite (app_assoc a [cur]) walked_down; [|rewrite Ei; apply Forall_app; split; [eapply Forall_impl; [exact Ha|]; intros; by apply blt_ble|apply Forall_singleton, ble_refl]|by rewrite Ei].
  rewrite rev_app_distr. cbn [rev app visit]. rewrite decide_True //. do 2 f_equal.
  - destruct a as [|x a _] using rev_ind; [done|]. rewrite rev_app_distr last_snoc. cbn. apply Forall_app in Ha as [_ Hx]. rewrite Forall_singleton in Hx.
    rewrite decide_False //. intros E. exact (blt_ne _ _ Hx (eq_sym E)).
  - destruct b as [|x b]; [done|]. cbn. apply Forall_cons in Hb as [Hx _]. rewrite decide_False //. intros E. exact (blt_ne _ _ Hx E).
Qed.
Lemma searchPrev_ok t l key : represents t l → disjoint l → searchPrev t key = Ok (previous l key).
Proof.
  intros Hr Hd. unfold searchPrev, previous. rewrite (rt_find_ok t l) //. cbn [mbind outcome_bind GetStartKey key_region meta StartKey].
  destruct (holder l key) as [cur|] eqn:Eh; [|done]. apply holder_Some in Eh as [Hc _]. apply list_elem_of_split in Hc as (a & b & ->).
  rewrite (getAdjacent_ok t a cur b) //. cbn [mbind outcome_bind]. pose proof (disjoint_sorted _ Hd) as Hs. apply disjoint_app in Hd as (Hda & _ & Hac).
  rewrite filter_app (filter_Forall_not _ (cur :: b)) ?app_nil_r.
  2: { rewrite Forall_forall. intros y [->|Hy]%elem_of_cons [Hlt _]; [by apply lt_irrefl in Hlt|]. apply StronglySorted_app_1_r, StronglySorted_inv in Hs as [_ Hs].
       rewrite Forall_forall in Hs. by apply (lt_asym _ _ Hlt), Hs. }
  destruct a as [|y a _] using rev_ind; [done|]. rewrite last_snoc filter_app (filter_Forall_not _ a).
  - rewrite filter_cons. assert (Hlt : lt y cur) by (eapply sorted_cross; [exact Hs|apply elem_of_app; right; by left|by left]).
    destruct (decide (GetEndKey y = GetStartKey cur)); [by rewrite decide_True|by rewrite decide_False; [|naive_solver]].
  - rewrite Forall_forall. intros z Hz [_ Ez]. apply disjoint_app in Hda as (_ & Hdy & Hzy). destruct (Hzy z y Hz) as [_ Hle]; [by left|]. rewrite Ez in Hle.
    apply ble_not_blt in Hle. apply Hle. apply lt_start. eapply sorted_cross; [exact Hs|apply elem_of_app; right; by left|by left].
Qed.

Lemma prefix_strict l key :
  lts l → ∃ a b, l = a ++ b ∧ Forall (λ x, blt (GetStartKey x) key) a ∧ Forall (λ x, ble key (GetStartKey x)) b ∧
    below (key_region key) l = a ∧ (same (key_region key) l = None ∨ ∃ y b', b = y :: b' ∧ GetStartKey y = key ∧ same (key_region key) l = Some y).
Proof.
  intros Hs. destruct (locate l (key_region key) Hs) as [(a & b & -> & Ha & Hb)|(a & y & b & -> & He & Ha & Hb)].
  - exists a, b. destruct (parts_gap (key_region key) a b Ha Hb) as (-> & _ & ->). split_and!; [done| | |done|by left].
    + eapply Forall_impl; [exact Ha|]. intros x Hx%lt_start. done.
    + eapply Forall_impl; [exact Hb|]. intros x Hx%lt_start. by apply blt_ble.
  - exists a, (y :: b). destruct (parts_at (key_region key) y a b Hs He) as (_ & _ & -> & _ & ->). apply eqv_start in He. cbn in He.
    split_and!; [done| | |done|right; by exists y, b].
    + eapply Forall_impl; [exact Ha|]. intros x Hx%lt_start. done.
    + constructor; [rewrite He; apply ble_refl|]. eapply Forall_impl; [exact Hb|]. intros x Hx%lt_start. by apply blt_ble.
Qed.

(** The regions that reach a key and those that begin before one, as a suffix and
    a prefix. *)
Lemma reaches_suffix t l key :
  represents t l → disjoint l →
  ∃ p q, l = p ++ q ∧ filter (reaches key) l = q ∧ Forall (λ x, ¬ reaches key x) p ∧
    (if decide (zlen (below (key_region key) l) ≠ 0 ∧ same (key_region key) l = None) then
       r ← item_at t (zlen (below (key_region key) l) - 1);
       Ok (if Contains r key then zlen (below (key_region key) l) - 1 else zlen (below (key_region key) l))
     else Ok (zlen (below (key_region key) l))) = (Ok (zlen p) : outcome Empty_set Z).
Proof.
  intros Hr Hd. destruct (prefix_strict l key (disjoint_sorted l Hd)) as (a & b & -> & Ha & Hb & -> & Hsame). pose proof Hd as (Hda & Hdb & Hab)%disjoint_app.
  assert (Fb : Forall (reaches key) b).
  { destruct Hdb as [Hrb _]. rewrite Forall_forall in Hrb. rewrite Forall_forall in Hb. rewrite Forall_forall. intros y Hy. unfold reaches. by eapply key_below_le; [apply Hb|apply Hrb]. }
  destruct a as [|x a _] using rev_ind.
  { exists [], b. split_and!; [done|by apply filter_Forall|constructor|]. destruct (decide _) as [[Hz _]|_]; [by destruct Hz|done]. }
  apply Forall_app in Ha as [Ha Hx]. rewrite Forall_singleton in Hx. pose proof Hda as (_ & _ & Hax)%disjoint_app.
  assert (Fa : Forall (λ y, ¬ reaches key y) a).
  { rewrite Forall_forall. intros y Hy. apply not_key_below. destruct (Hax y x Hy) as [? Hp]; [by left|]. split; [done|]. eapply ble_trans; [exact Hp|by apply blt_ble]. }
  assert (Hitem : item_at t (zlen (a ++ [x]) - 1) = Ok x).
  { unfold item_at. rewrite (GetAt_ok t _ _ Hr). cbn [mbind outcome_bind]. rewrite -app_assoc nth_item_app; [|rewrite zlen_app; unfold zlen; cbn; lia].
    by replace (zlen (a ++ [x]) - 1 - zlen a) with 0 by (rewrite zlen_app; unfold zlen; cbn; lia). }
  assert (Hc : Contains x key = true ↔ reaches key x).
  { rewrite Contains_holds. unfold holds, reaches. split; [naive_solver|]. split; [by apply blt_ble|done]. }
  destruct (decide (reaches key x)) as [Hreach|Hreach].
  - assert (Hnone : same (key_region key) ((a ++ [x]) ++ b) = None).
    { destruct Hsame as [?|(y & b' & -> & Hy & _)]; [done|]. destruct (Hab x y) as [Hne Hle]; [apply elem_of_app; right; by left|by left|].
      exfalso. revert Hreach. apply not_key_below. split; [done|]. by rewrite -Hy. }
    exists a, (x :: b). split_and!; [by rewrite -app_assoc|rewrite -app_assoc|done|].
    2: { destruct (decide _) as [_|Hn]; [|destruct Hn; split; [rewrite zlen_app; unfold zlen; cbn; lia|done]]. rewrite Hitem. cbn [mbind outcome_bind]. rewrite (proj2 Hc Hreach).
         f_equal. rewrite zlen_app. unfold zlen. cbn. lia. }
    rewrite filter_app (filter_Forall_not _ a) // (filter_Forall _ (x :: b)) //. by constructor.
  - exists (a ++ [x]), b. assert (Hnp : Forall (λ y, ¬ reaches key y) (a ++ [x])) by (apply Forall_app; split; [done|by apply Forall_singleton]).
    split_and!; [done|by rewrite filter_app (filter_Forall_not _ (a ++ [x])) // filter_Forall|done|]. destruct (decide _); [|done].
    rewrite Hitem. cbn [mbind outcome_bind]. destruct (Contains x key); [naive_solver|done].
Qed.
Lemma before_prefix l key : lts l → key ≠ [] → ∃ u v, l = u ++ v ∧ below (key_region key) l = u ∧ Forall (λ x, key_below (GetStartKey x) key) u ∧ Forall (λ x, ¬ key_below (GetStartKey x) key) v.
Proof.
  intros Hs Hk. destruct (prefix_strict l key Hs) as (a & b & -> & Ha & Hb & -> & _). exists a, b. split_and!; [done|done| |].
  - eapply Forall_impl; [exact Ha|]. intros x Hx. by right.
  - eapply Forall_impl; [exact Hb|]. intros x Hx. by apply not_key_below.
Qed.

(** A region drawn from a sequence. *)
Definition draw (Intn : Z → Z) l : option RegionInfo := if decide (l = []) then None else nth_item l (Intn (zlen l)).
Definition in_range (Intn : Z → Z) : Prop := ∀ n, 0 < n → 0 ≤ Intn n < n.

Lemma RandomRegion_ok Intn t l startKey endKey :
  in_range Intn → represents t l → disjoint l → RandomRegion Intn t startKey endKey = Ok (draw Intn (filter (meets startKey endKey) l)).
Proof.
  intros HI Hr Hd. unfold RandomRegion. destruct (decide (Len t = 0)) as [Hz|_].
  { unfold Len in Hz. rewrite (rp_length t l Hr) in Hz. unfold zlen in Hz. destruct l; [done|cbn in Hz; lia]. }
  rewrite (GetWithIndex_ok t l (key_region startKey)) //. cbn [mbind outcome_bind]. pose proof (disjoint_sorted l Hd) as Hs.
  assert (He : ∃ u v, l = u ++ v ∧ (∀ d : Decision (endKey ≠ []), (if d then '(_, i) ← GetWithIndex t (key_region endKey); Ok i else Ok (Len t)) = Ok (zlen u)) ∧
    Forall (λ x, key_below (GetStartKey x) endKey) u ∧ Forall (λ x, ¬ key_below (GetStartKey x) endKey) v).
  { destruct (decide (endKey ≠ [])) as [Hne|He].
    - destruct (before_prefix l endKey Hs Hne) as (u & v & El & Eb & Hu & Hv). exists u, v. split_and!; [done| |done|done]. intros [_|]; [by rewrite (GetWithIndex_ok t l) // Eb|done].
    - apply dec_stable in He as ->. exists l, []. rewrite app_nil_r. split_and!; [done|intros [|_]; [done|unfold Len; by rewrite (rp_length t l Hr)]|apply Forall_true; by left|constructor]. }
  destruct He as (u & v & Euv & E & Hu & Hv). rewrite E. clear E. cbn [mbind outcome_bind]. destruct (reaches_suffix t l startKey Hr Hd) as (p & q & Epq & Eq & Hp & ->). cbn [mbind outcome_bind].
  assert (Em : filter (meets startKey endKey) l = filter (λ x, key_below (GetStartKey x) endKey) q).
  { rewrite -Eq list_filter_filter. apply list_filter_iff. intros x. unfold meets, reaches. naive_solver. }
  rewrite Em. unfold draw. destruct (decide (zlen u ≤ zlen p)) as [Hle|Hgt].
  - assert (q `suffix_of` v) as [w Ew]. { rewrite Epq in Euv. apply app_eq_inv in Euv as [(w & -> & ->)|(w & -> & ->)]; [by exists w|].
      rewrite zlen_app in Hle. assert (w = []) as -> by (unfold zlen in Hle; destruct w; [done|cbn in Hle; lia]). by exists []. }
    rewrite Ew in Hv. apply Forall_app in Hv as [_ Hv]. rewrite filter_Forall_not //.
  - rewrite Epq in Euv. apply app_eq_inv in Euv as [(w & -> & ->)|(w & -> & ->)]; [rewrite zlen_app in Hgt; pose proof (zlen_nonneg w); lia|].
    apply Forall_app in Hu as [_ Hw]. rewrite filter_app (filter_Forall _ w) // (filter_Forall_not _ v) // app_nil_r. rewrite zlen_app in Hgt |- *.
    replace (zlen p + zlen w - zlen p) with (zlen w) by lia. assert (Hwpos : 0 < zlen w) by lia. rewrite decide_False; [|intros ->; unfold zlen in Hwpos; cbn in Hwpos; lia].
    pose proof (HI _ Hwpos) as Hi. unfold item_at. rewrite (GetAt_ok t l) // Epq nth_item_app; [|lia]. replace (Intn (zlen w) + zlen p - zlen p) with (Intn (zlen w)) by lia.
    rewrite nth_item_l; [|lia]. cbn [mbind outcome_bind]. unfold nth_item. rewrite decide_True; [|lia].
    destruct (lookup_lt_is_Some_2 w (Z.to_nat (Intn (zlen w)))) as [x ->]; [unfold zlen in *; lia|done].
Qed.
