(* ===== verification/RegionsSpec.v ===== *)
(** [RegionsInfo] keeps a set of disjoint regions: its tree, its map and the trees
    of the stores always describe the same regions, and [SetRegion] replaces what
    the new region overlaps. *)

From S2P Require Import Prelude Pb BTree BTreeSpec BTreeQuery BTreeRefine RegionTree RegionTreeSpec.
Import metapb btree core.

Implicit Types (x y region : RegionInfo) (l : list RegionInfo) (r : RegionsInfo) (m : gmap Z regionSubTree).
Notation lts := (StronglySorted (lt (A:=RegionInfo))).

(** ** Roles *)

Inductive role := RLeader | RFollower | RLearner | RPending.
Implicit Types ro : role.
(** The peers of a role. *)
Definition leads region (p : Peer) : Prop := Peer_Id p = peer_GetId (leader region).
#[global] Instance leads_dec region p : Decision (leads region p).
Proof. unfold leads. apply _. Defined.
Definition role_peers ro region : list Peer :=
  match ro with
  | RLeader => filter (leads region) (voters region)
  | RFollower => filter (λ p, ¬ leads region p) (voters region)
  | RLearner => learners region
  | RPending => pendingPeers region
  end.
(** The store has a peer of the role. *)
Definition in_role ro (s : Z) region : Prop := s ∈ StoreId <$> role_peers ro region.
#[global] Instance in_role_dec ro s region : Decision (in_role ro s region).
Proof. unfold in_role. apply _. Defined.

Record region_wf region : Prop := {
  rw_range : has_range region;
  rw_stores ro s : in_role ro s region → s ∈ StoreId <$> GetPeers region
}.

Definition subs ro r : gmap Z regionSubTree :=
  match ro with RLeader => leaders r | RFollower => followers r | RLearner => ri_learners r | RPending => ri_pendingPeers r end.

(** ** The invariant *)

Definition subs_ok m (F : Z → list RegionInfo) : Prop :=
  ∀ s, match m !! s with Some rst => represents (rst_tree rst) (F s) | None => F s = [] end.
Definition total_size l : Z := foldr (λ x n, approximateSize x + n) 0 l.

(** The tree has the regions [lt], the rest of the state describes [l]. *)
Record state_ok r (lt l : list RegionInfo) : Prop := {
  so_tree : represents (tree r) lt;
  so_tree_disjoint : disjoint lt;
  so_disjoint : disjoint l;
  so_wf : Forall region_wf l;
  so_map id x : rm_m (regions r) !! id = Some x ↔ x ∈ l ∧ GetID x = id;
  so_len : rm_Len (regions r) = zlen l;
  so_size : rm_totalSize (regions r) = i64 (total_size l);
  so_subs ro : subs_ok (subs ro r) (λ s, filter (in_role ro s) l)
}.

Lemma so_ids r lt l x y : state_ok r lt l → x ∈ l → y ∈ l → GetID x = GetID y → x = y.
Proof.
  intros Hs Hx Hy E. assert (H1 := proj2 (so_map _ _ _ Hs (GetID x) x) (conj Hx eq_refl)). assert (H2 := proj2 (so_map _ _ _ Hs (GetID x) y) (conj Hy (eq_sym E))). congruence.
Qed.

(** ** Sub trees *)

(** The size a sub tree has counted. *)
Definition counted m (s : Z) : Z := match m !! s with Some rst => rst_totalSize rst | None => 0 end.

Definition unique_in x l : Prop := ∀ y, y ∈ l → holds y (GetStartKey x) → GetID y = GetID x → y = x.

Lemma rst_remove_ok (o : option regionSubTree) l x :
  match o with Some rst => represents (rst_tree rst) l | None => l = [] end → disjoint l → has_range x → unique_in x l →
  ∃ o', rst_remove o x = Ok o' ∧ match o' with Some rst => represents (rst_tree rst) (filter (λ y, y ≠ x) l) | None => filter (λ y, y ≠ x) l = [] end ∧ (o' = None → o = None).
Proof.
  intros Ho Hd Hx Hu. unfold rst_remove. destruct o as [rst|]; [|subst l; by exists None]. cbn [rst_length]. destruct (decide _) as [Hz|_].
  - exists (Some rst). split_and!; [done| |done]. unfold Len in Hz. rewrite (rp_length _ _ Ho) in Hz. unfold zlen in Hz. destruct l; [done|cbn in Hz; lia].
  - destruct (rt_remove_ok (rst_tree rst) l x Ho Hd Hx Hu) as (t' & -> & Hr). cbn [mbind outcome_bind]. by eexists (Some _).
Qed.
Lemma sub_remove_ok m F s x :
  subs_ok m F → disjoint (F s) → has_range x → unique_in x (F s) →
  ∃ m', sub_remove m s x = Ok m' ∧ subs_ok m' (λ s', if decide (s' = s) then filter (λ y, y ≠ x) (F s) else F s').
Proof.
  intros Hm Hd Hx Hu. unfold sub_remove. destruct (rst_remove_ok (m !! s) (F s) x (Hm s) Hd Hx Hu) as (o' & -> & Ho & Hn). cbn [mbind outcome_bind]. eexists. split; [done|].
  intros s'. destruct (decide (s' = s)) as [->|Hne].
  - destruct o' as [rst|]; [by rewrite lookup_insert_eq|]. by rewrite (Hn eq_refl).
  - specialize (Hm s'). destruct o' as [rst|]; [by rewrite lookup_insert_ne|done].
Qed.

Lemma sub_remove_counted m s x m' s' : sub_remove m s x = Ok m' → counted m' s' = counted m s'.
Proof.
  unfold sub_remove, rst_remove, counted. intros H. destruct (m !! s) as [rst|] eqn:E; [|cbn in H; by injection H as <-].
  destruct (decide _); [|destruct (rt_remove (rst_tree rst) x); [|done..]]; cbn in H; injection H as <-; (destruct (decide (s' = s)) as [->|]; [by rewrite lookup_insert_eq E|by rewrite lookup_insert_ne]).
Qed.

Lemma child_elems mn (mn_pos : (1 ≤ mn)%nat) h (n : node RegionInfo) c x : wf mn (S h) n → c ∈ children n → x ∈ elems c → wf mn h c ∧ x ∈ elems n.
Proof.
  intros Hw Hc Hx. apply list_elem_of_lookup_1 in Hc as [i Hi]. destruct (cut_list (items n) i) as (its1 & its2 & Ei & <-); [apply lookup_lt_Some in Hi; destruct Hw as [Hl _]; lia|].
  destruct (around_wf mn mn_pos h n its1 its2 Hw Ei) as (chs1 & d & chs2 & -> & Hf & [Hd _]). cbn [around children] in Hi.
  rewrite -(fr_left _ _ _ _ _ _ Hf) list_lookup_middle // in Hi. injection Hi as ->. split; [done|]. rewrite (elems_around _ _ _ _ _ _ _ Hf).
  apply elem_of_app. right. apply elem_of_app. by left.
Qed.
Lemma node_map_id mn (mn_pos : (1 ≤ mn)%nat) f h (n : node RegionInfo) : wf mn h n → (∀ x, x ∈ elems n → f x = x) → node_map f n = n.
Proof.
  revert n. induction h as [|h IH]; intros n Hw Hf; assert (Hits : f <$> items n = items n).
  1, 3: rewrite -{2}(list_fmap_id (items n)); apply list_fmap_ext; intros i x Hx; apply Hf; eapply (items_elems mn); [exact Hw|by eapply list_elem_of_lookup_2].
  - destruct Hw as [Hc _]. destruct n as [its chs ixs]. cbn in *. subst. by rewrite Hits.
  - assert (Hch : node_map f <$> children n = children n).
    { rewrite -{2}(list_fmap_id (children n)). apply list_fmap_ext. intros i c Hc. apply list_elem_of_lookup_2 in Hc. destruct Hw as (Hl & Hx & Hall). 
      assert (Hwc : wf mn h c) by (rewrite Forall_forall in Hall; by apply Hall). apply IH; [done|]. intros x Hxc. apply Hf.
      by eapply (child_elems mn mn_pos h n c x). }
    destruct n as [its chs ixs]. cbn in *. by rewrite Hits Hch.
Qed.
Lemma set_item_id t l y region : represents t l → (∀ x, x ∈ l → GetStartKey x = GetStartKey y → x = region) → set_item t y region = t.
Proof.
  intros [Hd Hl Hs Hc Hr] Hx. unfold set_item. destruct t as [d k ro]. unfold contents in Hc. cbn in *. f_equal. destruct ro as [n|]; [|done]. cbn. f_equal.
  destruct Hr as (h & Hw & _). eapply (node_map_id (d - 1)); [lia|exact Hw|]. intros x Hxn. rewrite Hc in Hxn. destruct (decide _); [|done]. symmetry. by apply Hx.
Qed.

Lemma put_found region l : lts l → region ∈ l → put region l = l.
Proof.
  intros Hs Hx. apply list_elem_of_split in Hx as (a & b & ->). unfold put. assert (He : eqv region region) by (split; apply lt_irrefl).
  by destruct (parts_at region region a b Hs He) as (_ & _ & -> & -> & _).
Qed.
Lemma put_elem region l x : x ∈ put region l ↔ x = region ∨ (x ∈ l ∧ GetStartKey x ≠ GetStartKey region).
Proof.
  unfold put, below, above. rewrite elem_of_app elem_of_cons !list_elem_of_filter !lt_start. split.
  - intros [[Hlt Hx]|[->|[Hlt Hx]]]; [right|by left|right]; (split; [done|]); [by apply blt_ne|]. intros E. by apply (blt_ne _ _ Hlt).
  - intros [->|[Hx Hne]]; [naive_solver|]. destruct (decide (blt (GetStartKey x) (GetStartKey region))) as [|Hge]; [naive_solver|].
    apply ble_not_blt, ble_lteq in Hge as [?|?]; [naive_solver|by destruct Hne].
Qed.
Lemma no_overlap_start region x : has_range region → has_range x → ¬ overlap region x → GetStartKey x ≠ GetStartKey region.
Proof. intros Hr Hx Ho E. apply Ho. unfold overlap, meets. unfold has_range in *. rewrite -E in Hr |- *. done. Qed.

Lemma i64_mod a b : a mod two64 = b mod two64 → i64 a = i64 b.
Proof. unfold i64, u64. by intros ->. Qed.
Lemma i64_of_u64 a : i64 a mod two64 = a mod two64.
Proof. unfold i64, u64. destruct (decide _); [apply Z.mod_mod; done|]. rewrite -Zminus_mod_idemp_r Z_mod_same_full Z.sub_0_r. by apply Z.mod_mod. Qed.
Lemma i64_sub a b : i64 (i64 a - b) = i64 (a - b).
Proof. apply i64_mod. by rewrite -Zminus_mod_idemp_l i64_of_u64 Zminus_mod_idemp_l. Qed.
Lemma i64_add a b : i64 (i64 a + b) = i64 (a + b).
Proof. apply i64_mod. by rewrite -Zplus_mod_idemp_l i64_of_u64 Zplus_mod_idemp_l. Qed.

Lemma rst_update_ok (rst : regionSubTree) l region :
  represents (rst_tree rst) l → disjoint l → has_range region → (Forall (λ x, ¬ overlap region x) l ∨ region ∈ l) →
  ∃ rst', rst_update rst region = Ok rst' ∧ represents (rst_tree rst') (put region l) ∧
    rst_totalSize rst' = i64 (rst_totalSize rst + if decide (region ∈ l) then 0 else approximateSize region).
Proof.
  intros Hr Hd Hx Ho. unfold rst_update. rewrite (rt_find_ok _ l) //. cbn [mbind outcome_bind].
  assert (Hh : holds region (GetStartKey region)) by (split; [apply ble_refl|done]). destruct Ho as [Ho|Hin].
  - destruct (holder l (GetStartKey region)) as [y|] eqn:Eh.
    + apply holder_Some in Eh as [Hy [H1 H2]]. rewrite Forall_forall in Ho. destruct (Ho y Hy). split; [by eapply key_below_le|done].
    + destruct (rt_update_ok (rst_tree rst) l region Hr Hd) as (t' & -> & Hr'). cbn [mbind outcome_bind]. eexists. split; [done|]. cbn.
      unfold updated in Hr'. rewrite filter_Forall in Hr'; [|done]. split; [done|]. destruct (decide (region ∈ l)) as [Hin|]; [by destruct (holder_None l _ region Eh Hin)|done].
  - rewrite (disjoint_holder l region) //. eexists. split; [done|]. cbn. rewrite put_found //; [|by apply disjoint_sorted].
    rewrite Z.sub_diag. destruct (decide (region ∈ l)); [|done]. split; [|done].
    rewrite (set_item_id _ l) //. intros x Hx' E. by eapply sorted_start_inj; [by apply disjoint_sorted|..].
Qed.

(** The stores [D] have been given the region; [base] is what was counted before. *)
Definition added region m (F : Z → list RegionInfo) (base : Z → Z) (D : gset Z) : Prop :=
  subs_ok m (λ s, if decide (s ∈ D) then put region (F s) else F s) ∧
  ∀ s, counted m s = if decide (s ∈ D) then i64 (base s + approximateSize region) else base s.

Lemma sub_update_ok m F base D s region :
  added region m F base D → disjoint (F s) → has_range region → Forall (λ x, ¬ overlap region x) (F s) →
  ∃ m', sub_update m s region = Ok m' ∧ added region m' F base ({[s]} ∪ D).
Proof.
  intros [Hm Hb] Hd Hx Ho. unfold sub_update. set (k := if decide (s ∈ D) then put region (F s) else F s).
  assert (Hst : ∃ rst, (match m !! s with Some store => Ok store | None => newRegionSubTree end) = Ok rst ∧ represents (rst_tree rst) k ∧ rst_totalSize rst = counted m s).
  { specialize (Hm s). cbn in Hm. fold k in Hm. unfold counted. destruct (m !! s) as [rst|]; [by exists rst|]. unfold newRegionSubTree, newRegionTree.
    destruct (New_ok (A:=RegionInfo) defaultBTreeDegree) as (t & -> & _ & Hr); [unfold defaultBTreeDegree; lia|]. cbn [mbind outcome_bind]. eexists. split; [done|]. cbn. by rewrite Hm. }
  destruct Hst as (rst & -> & Hr & Ec). cbn [mbind outcome_bind]. destruct (rst_update_ok rst k region Hr) as (rst' & -> & Hr' & Et).
  - subst k. destruct (decide (s ∈ D)); [by apply disjoint_put|done].
  - done.
  - subst k. destruct (decide (s ∈ D)); [right; apply put_elem; by left|by left].
  - cbn [mbind outcome_bind]. eexists. split; [done|]. assert (Hself : overlap region region) by (split; done). rewrite Forall_forall in Ho. split; intros s'; (destruct (decide (s' = s)) as [->|Hne]).
    + rewrite lookup_insert_eq. destruct (decide (s ∈ {[s]} ∪ D)) as [_|Hn]; [|set_solver]. subst k. destruct (decide (s ∈ D)); [|done].
      rewrite put_found in Hr'; [done|apply disjoint_sorted, disjoint_put; [done|done|by rewrite Forall_forall]|apply put_elem; by left].
    + rewrite lookup_insert_ne //. specialize (Hm s'). cbn in Hm. destruct (decide (s' ∈ D)) as [Hin|Hin], (decide (s' ∈ {[s]} ∪ D)); try done; set_solver.
    + unfold counted at 1. rewrite lookup_insert_eq Et Ec Hb. destruct (decide (s ∈ {[s]} ∪ D)) as [_|Hn]; [|set_solver]. subst k. destruct (decide (s ∈ D)).
      * destruct (decide (region ∈ put region (F s))) as [_|Hn]; [|destruct Hn; apply put_elem; by left]. by rewrite i64_add Z.add_0_r.
      * destruct (decide (region ∈ F s)) as [Hin|_]; [by destruct (Ho region Hin)|done].
    + unfold counted at 1. rewrite lookup_insert_ne //. fold (counted m s'). rewrite Hb. destruct (decide (s' ∈ D)) as [Hin|Hin], (decide (s' ∈ {[s]} ∪ D)); try done; set_solver.
Qed.

(** ** Removing a region *)

Lemma subs_ok_ext m F G : (∀ s, F s = G s) → subs_ok m F → subs_ok m G.
Proof. intros E H s. specialize (H s). by rewrite -E. Qed.

Definition remove_peer region (peer : Peer) r : outcome Empty_set RegionsInfo :=
  l ← sub_remove (leaders r) (StoreId peer) region;
  f ← sub_remove (followers r) (StoreId peer) region;
  n ← sub_remove (ri_learners r) (StoreId peer) region;
  p ← sub_remove (ri_pendingPeers r) (StoreId peer) region;
  Ok (mkRegionsInfo (tree r) (regions r) l f n p).

Lemma remove_peers_ok x (ps : list Peer) r (F : role → Z → list RegionInfo) :
  (∀ ro, subs_ok (subs ro r) (F ro)) → (∀ ro s, disjoint (F ro s) ∧ unique_in x (F ro s)) → has_range x →
  ∃ r', for_range (remove_peer x) ps r = Ok r' ∧ tree r' = tree r ∧ regions r' = regions r ∧
    ∀ ro, subs_ok (subs ro r') (λ s, if decide (s ∈ StoreId <$> ps) then filter (λ y, y ≠ x) (F ro s) else F ro s).
Proof.
  intros Hm HF Hx. revert r F Hm HF. induction ps as [|p ps IH]; intros r F Hm HF.
  - exists r. split_and!; [done..|]. intros ro. eapply subs_ok_ext; [|apply Hm]. intros s. cbn beta. destruct (decide _) as [Hn|]; [by apply elem_of_nil in Hn|done].
  - cbn [for_range]. set (F1 := λ ro s, if decide (s = StoreId p) then filter (λ y, y ≠ x) (F ro (StoreId p)) else F ro s).
    assert (Hrm : ∀ ro, ∃ m', sub_remove (subs ro r) (StoreId p) x = Ok m' ∧ subs_ok m' (F1 ro)) by (intros ro; apply sub_remove_ok; [apply Hm|apply HF|done|apply HF]).
    destruct (Hrm RLeader) as (ml & El & Hl). destruct (Hrm RFollower) as (mf & Ef & Hf). destruct (Hrm RLearner) as (mn & En & Hn). destruct (Hrm RPending) as (mp & Ep & Hp).
    cbn [subs] in El, Ef, En, Ep. unfold remove_peer at 2. rewrite El. cbn [mbind outcome_bind]. rewrite Ef. cbn [mbind outcome_bind]. rewrite En. cbn [mbind outcome_bind]. rewrite Ep. cbn [mbind outcome_bind].
    destruct (IH (mkRegionsInfo (tree r) (regions r) ml mf mn mp) F1) as (r' & E & Ht & Hreg & Hsub).
    + intros []; done.
    + intros ro s. unfold F1. destruct (decide (s = StoreId p)) as [->|]; [|apply HF]. destruct (HF ro (StoreId p)) as [Hd Hu].
      split; [by apply disjoint_filter|]. intros y [_ Hy]%list_elem_of_filter. by apply Hu.
    + exists r'. split_and!; [done..|]. intros ro. eapply subs_ok_ext; [|apply (Hsub ro)]. intros s. cbn beta. unfold F1. cbn [fmap list_fmap].
      destruct (decide (s = StoreId p)) as [->|Hne].
      * destruct (decide (StoreId p ∈ StoreId p :: _)) as [_|Hno]; [|destruct Hno; by left]. destruct (decide _); [|done]. rewrite list_filter_filter. apply list_filter_iff. naive_solver.
      * destruct (decide (s ∈ StoreId p :: _)) as [[->|Hs]%elem_of_cons|Hno]; [done| |].
        -- destruct (decide _) as [_|Hno]; [done|]. by destruct Hno.
        -- destruct (decide _) as [Hs|_]; [|done]. destruct Hno. by right.
Qed.

Lemma sorted_NoDup l : lts l → NoDup l.
Proof.
  induction 1 as [|x l Hs IH Hx]; constructor; [|done]. intros Hin. rewrite Forall_forall in Hx. by apply (lt_irrefl x), Hx.
Qed.
Lemma filter_ne_total l x : NoDup l → x ∈ l → total_size l = approximateSize x + total_size (filter (λ y, y ≠ x) l) ∧ zlen l = 1 + zlen (filter (λ y, y ≠ x) l).
Proof.
  induction 1 as [|y l Hy Hnd IH]; intros Hx; [by apply elem_of_nil in Hx|]. rewrite filter_cons. destruct (decide (y = x)) as [->|Hne].
  - rewrite (decide_False (P:=x ≠ x)); [|naive_solver]. rewrite filter_Forall; [|rewrite Forall_forall; naive_solver]. split; [done|]. by rewrite zlen_cons.
  - apply elem_of_cons in Hx as [->|Hx]; [done|]. destruct (IH Hx) as [E1 E2]. rewrite decide_True //. rewrite !zlen_cons E2. unfold total_size in *. cbn. lia.
Qed.
Lemma RemoveRegion_ok r lt l x :
  state_ok r lt l → x ∈ l → unique_in x lt → ∃ r', RemoveRegion r x = Ok r' ∧ state_ok r' (filter (λ y, y ≠ x) lt) (filter (λ y, y ≠ x) l).
Proof.
  intros Hs Hx Hu. pose proof Hs as [Ht Htd Hd Hwf Hmap Hlen Hsize Hsub]. assert (Hxw : region_wf x) by (rewrite Forall_forall in Hwf; by apply Hwf).
  destruct (rt_remove_ok (tree r) lt x Ht Htd (rw_range _ Hxw) Hu) as (t' & Et & Hrt). unfold RemoveRegion. rewrite Et. cbn [mbind outcome_bind].
  assert (Hget : rm_m (regions r) !! GetID x = Some x) by (by apply Hmap).
  destruct (remove_peers_ok x (GetPeers x) (mkRegionsInfo t' (rm_Delete (regions r) (GetID x)) (leaders r) (followers r) (ri_learners r) (ri_pendingPeers r))
              (λ ro s, filter (in_role ro s) l)) as (r' & E & Etr & Ereg & Hsub').
  - intros ro. specialize (Hsub ro). by destruct ro.
  - intros ro s. split; [by apply disjoint_filter|]. intros y [_ Hy]%list_elem_of_filter _ Eid. by eapply so_ids.
  - apply Hxw.
  - exists r'. split; [exact E|]. cbn [tree regions] in Etr, Ereg. destruct (filter_ne_total l x) as [Et1 Et2]; [by apply sorted_NoDup, disjoint_sorted|done|].
    unfold rm_Delete in Ereg. rewrite Hget in Ereg. split; rewrite ?Etr ?Ereg; cbn [rm_m rm_totalSize].
    + done.
    + by apply disjoint_filter.
    + by apply disjoint_filter.
    + rewrite Forall_forall in Hwf. rewrite Forall_forall. intros y [_ Hy]%list_elem_of_filter. by apply Hwf.
    + intros id y. rewrite lookup_delete_Some Hmap list_elem_of_filter. split; [naive_solver|]. intros [[Hne Hy] <-]. split_and!; [|done|done]. intros Eid. apply Hne. by eapply so_ids.
    + unfold rm_Len in *. cbn. rewrite map_size_delete_Some; [|by eexists]. rewrite Et2 in Hlen.
      assert (base.size (rm_m (regions r)) ≠ 0%nat) by (pose proof (zlen_nonneg (filter (λ y, y ≠ x) l)); lia). lia.
    + rewrite Hsize i64_sub Et1. f_equal. lia.
    + intros ro. eapply subs_ok_ext; [|apply Hsub']. intros s. cbn. rewrite (filter_comm (in_role ro s)). destruct (decide (s ∈ StoreId <$> GetPeers x)) as [|Hn]; [done|].
      rewrite (filter_Forall (λ y, y ≠ x)) //. rewrite Forall_forall. intros y [Hy _]%list_elem_of_filter ->. by apply Hn, (rw_stores _ Hxw ro).
Qed.

(** ** Adding a region *)

Definition remove_overlap (item : RegionInfo) r : outcome Empty_set RegionsInfo :=
  match GetRegion r (GetID item) with Some x => RemoveRegion r x | None => Panic "nil pointer dereference" end.
Lemma remove_overlaps_ok r lt (k l : list RegionInfo) :
  state_ok r lt l → NoDup k → (∀ x, x ∈ k → x ∈ l ∧ (x ∉ lt) ∧ unique_in x lt) →
  ∃ r', for_range remove_overlap k r = Ok r' ∧ state_ok r' lt (filter (λ y, y ∉ k) l).
Proof.
  revert r l. induction k as [|x k IH]; intros r l Hs Hnd Hk.
  - exists r. split; [done|]. rewrite filter_Forall //. apply Forall_true. intros y. apply not_elem_of_nil.
  - apply NoDup_cons in Hnd as [Hxk Hnd]. destruct (Hk x) as (Hx & Hxt & Hu); [by left|]. cbn [for_range]. unfold remove_overlap at 2, GetRegion, rm_Get.
    rewrite (proj2 (so_map _ _ _ Hs (GetID x) x)) //. destruct (RemoveRegion_ok r lt l x Hs Hx Hu) as (r1 & -> & Hs1). cbn [mbind outcome_bind].
    rewrite (filter_Forall (λ y, y ≠ x) lt) in Hs1; [|rewrite Forall_forall; naive_solver]. destruct (IH r1 _ Hs1 Hnd) as (r' & E & Hs').
    { intros y Hy. destruct (Hk y) as (Hyl & ? & ?); [by right|]. split_and!; [|done|done]. apply list_elem_of_filter. split; [|done]. by intros ->. }
    exists r'. split; [done|]. rewrite list_filter_filter in Hs'. erewrite list_filter_iff; [exact Hs'|]. intros y. rewrite not_elem_of_cons. naive_solver.
Qed.

Lemma sub_updates_ok m F base D (ps : list Peer) region :
  added region m F base D → (∀ s, disjoint (F s) ∧ Forall (λ x, ¬ overlap region x) (F s)) → has_range region →
  ∃ m', for_range (λ peer m, sub_update m (StoreId peer) region) ps m = Ok m' ∧ added region m' F base (list_to_set (StoreId <$> ps) ∪ D).
Proof.
  intros Hm HF Hx. revert m D Hm. induction ps as [|p ps IH]; intros m D Hm.
  - exists m. split; [done|]. by replace (list_to_set (StoreId <$> []) ∪ D) with D by set_solver.
  - cbn [for_range]. destruct (HF (StoreId p)). destruct (sub_update_ok m F base D (StoreId p) region Hm) as (m1 & -> & Hm1); [done..|]. cbn [mbind outcome_bind].
    destruct (IH m1 _ Hm1) as (m' & -> & Hm'). exists m'. split; [done|]. by replace (list_to_set (StoreId <$> p :: ps) ∪ D) with (list_to_set (StoreId <$> ps) ∪ ({[StoreId p]} ∪ D)) by set_solver.
Qed.
Lemma add_voters_ok (ps : list Peer) r FL FF bl bf DL DF region :
  added region (leaders r) FL bl DL → added region (followers r) FF bf DF →
  (∀ s, disjoint (FL s) ∧ Forall (λ x, ¬ overlap region x) (FL s)) → (∀ s, disjoint (FF s) ∧ Forall (λ x, ¬ overlap region x) (FF s)) → has_range region →
  ∃ ml mf, for_range (add_voter region) ps r = Ok (mkRegionsInfo (tree r) (regions r) ml mf (ri_learners r) (ri_pendingPeers r)) ∧
    added region ml FL bl (list_to_set (StoreId <$> filter (leads region) ps) ∪ DL) ∧ added region mf FF bf (list_to_set (StoreId <$> filter (λ p, ¬ leads region p) ps) ∪ DF).
Proof.
  intros Hl Hf HFL HFF Hx. revert r DL DF Hl Hf. induction ps as [|p ps IH]; intros r DL DF Hl Hf.
  - exists (leaders r), (followers r). destruct r. cbn. split; [done|]. replace (∅ ∪ DL) with DL by set_solver. by replace (∅ ∪ DF) with DF by set_solver.
  - cbn [for_range]. unfold add_voter at 2. fold (leads region p). rewrite !filter_cons. destruct (decide (leads region p)) as [Hlead|Hlead].
    + destruct (HFL (StoreId p)). destruct (sub_update_ok (leaders r) FL bl DL (StoreId p) region Hl) as (m1 & -> & Hm1); [done..|]. cbn [mbind outcome_bind].
      destruct (IH (mkRegionsInfo (tree r) (regions r) m1 (followers r) (ri_learners r) (ri_pendingPeers r)) _ DF Hm1 Hf) as (ml & mf & -> & Hml & Hmf).
      exists ml, mf. destruct (decide (¬ leads region p)); [done|]. split_and!; [done| |done].
      by replace (list_to_set (StoreId <$> p :: filter (leads region) ps) ∪ DL) with (list_to_set (StoreId <$> filter (leads region) ps) ∪ ({[StoreId p]} ∪ DL)) by set_solver.
    + destruct (HFF (StoreId p)). destruct (sub_update_ok (followers r) FF bf DF (StoreId p) region Hf) as (m1 & -> & Hm1); [done..|]. cbn [mbind outcome_bind].
      destruct (IH (mkRegionsInfo (tree r) (regions r) (leaders r) m1 (ri_learners r) (ri_pendingPeers r)) DL _ Hl Hm1) as (ml & mf & -> & Hml & Hmf).
      exists ml, mf. destruct (decide (¬ leads region p)); [|done]. split_and!; [done|done|].
      by replace (list_to_set (StoreId <$> p :: filter (λ p, ¬ leads region p) ps) ∪ DF) with (list_to_set (StoreId <$> filter (λ p, ¬ leads region p) ps) ∪ ({[StoreId p]} ∪ DF)) by set_solver.
Qed.

Lemma filter_put (P : RegionInfo → Prop) `{∀ x, Decision (P x)} region l : filter P (put region l) = if decide (P region) then put region (filter P l) else filter P (put region l).
Proof.
  destruct (decide (P region)); [|done]. unfold put, below, above. rewrite filter_app filter_cons_True //.
  by rewrite (filter_comm P (λ y, lt y region)) (filter_comm P (λ y, lt region y)).
Qed.
Lemma filter_put_not (P : RegionInfo → Prop) `{∀ x, Decision (P x)} region l :
  ¬ P region → lts l → Forall (λ x, GetStartKey x ≠ GetStartKey region) l → filter P (put region l) = filter P l.
Proof.
  intros Hn Hs Hne. destruct (locate l region Hs) as [(a & b & -> & Ha & Hb)|(a & y & b & -> & He & _)].
  - unfold put. destruct (parts_gap region a b Ha Hb) as (-> & -> & _). by rewrite !filter_app filter_cons_False.
  - exfalso. apply Forall_app in Hne as [_ [Hy _]%Forall_cons]. apply Hy. symmetry. by apply eqv_start.
Qed.
Lemma put_gap region l : lts l → Forall (λ x, GetStartKey x ≠ GetStartKey region) l → total_size (put region l) = total_size l + approximateSize region ∧ zlen (put region l) = zlen l + 1.
Proof.
  intros Hs Hne. destruct (locate l region Hs) as [(a & b & -> & Ha & Hb)|(a & y & b & -> & He & _)].
  - unfold put. destruct (parts_gap region a b Ha Hb) as (-> & -> & _). rewrite !zlen_app zlen_cons. split; [|lia].
    clear. induction a as [|x a IH]; unfold total_size in *; cbn; lia.
  - exfalso. apply Forall_app in Hne as [_ [Hy _]%Forall_cons]. apply Hy. symmetry. by apply eqv_start.
Qed.

(** What is added to a sub tree is what the regions of the role are. *)
Lemma added_role region m ro base (D : gset Z) l :
  added region m (λ s, filter (in_role ro s) l) base D → (∀ s, s ∈ D ↔ in_role ro s region) → lts l → Forall (λ x, GetStartKey x ≠ GetStartKey region) l →
  subs_ok m (λ s, filter (in_role ro s) (put region l)).
Proof.
  intros [Hm _] HD Hs Hne. eapply subs_ok_ext; [|exact Hm]. intros s. cbn beta. destruct (decide (s ∈ D)) as [Hin|Hin].
  - rewrite (filter_put (in_role ro s)). destruct (decide (in_role ro s region)) as [|Hn]; [done|]. by destruct Hn; apply HD.
  - rewrite filter_put_not //. by rewrite -HD.
Qed.

(** What the sub trees count is not touched when a region is removed. *)
Lemma for_range_keeps {X St Y} (body : X → St → outcome Empty_set St) (f : St → Y) (xs : list X) (st st' : St) :
  (∀ z s s', body z s = Ok s' → f s' = f s) → for_range body xs st = Ok st' → f st' = f st.
Proof.
  intros Hb. revert st. induction xs as [|z xs IH]; intros st; cbn [for_range]; [by intros [= <-]|]. destruct (body z st) as [s1| | |] eqn:E; cbn [mbind outcome_bind]; [|done..].
  intros H. rewrite (IH s1 H). by apply (Hb z).
Qed.
Lemma RemoveRegion_counted r x r' ro s : RemoveRegion r x = Ok r' → counted (subs ro r') s = counted (subs ro r) s.
Proof.
  unfold RemoveRegion. destruct (rt_remove (tree r) x) as [t| | |]; cbn [mbind outcome_bind]; [|done..]. intros H.
  rewrite (for_range_keeps _ (λ r, counted (subs ro r) s) _ _ _ _ H); [by destruct ro|]. clear H. intros p r1 r2 H. cbn beta in H.
  destruct (sub_remove (leaders r1) (StoreId p) x) as [ml| | |] eqn:El; cbn [mbind outcome_bind] in H; [|done..].
  destruct (sub_remove (followers r1) (StoreId p) x) as [mf| | |] eqn:Ef; cbn [mbind outcome_bind] in H; [|done..].
  destruct (sub_remove (ri_learners r1) (StoreId p) x) as [mn| | |] eqn:En; cbn [mbind outcome_bind] in H; [|done..].
  destruct (sub_remove (ri_pendingPeers r1) (StoreId p) x) as [mp| | |] eqn:Ep; cbn [mbind outcome_bind] in H; [|done..].
  injection H as <-. destruct ro; cbn; by eapply sub_remove_counted.
Qed.

Lemma overlaps_removed r l region t' :
  state_ok r l l → has_range region → (∀ x, x ∈ l → GetID x ≠ GetID region) → represents t' (updated region l) →
  ∃ r1, for_range remove_overlap (filter (overlap region) l) (mkRegionsInfo t' (regions r) (leaders r) (followers r) (ri_learners r) (ri_pendingPeers r)) = Ok r1 ∧
    state_ok r1 (updated region l) (filter (λ x, ¬ overlap region x) l) ∧ ∀ ro s, counted (subs ro r1) s = counted (subs ro r) s.
Proof.
  intros Hs Hx Hid Hrt. pose proof Hs as [Ht _ Hd Hwf Hmap Hlen Hsize Hsub]. set (k := filter (overlap region) l).
  assert (Hl2 : filter (λ y, y ∉ k) l = filter (λ x, ¬ overlap region x) l) by (apply filter_in; intros x Hxl; unfold k; rewrite list_elem_of_filter; naive_solver).
  destruct (remove_overlaps_ok (mkRegionsInfo t' (regions r) (leaders r) (followers r) (ri_learners r) (ri_pendingPeers r)) (updated region l) k l) as (r1 & E1 & Hs1).
  { split; cbn [tree regions]; [done|by apply updated_disjoint|done..|]. intros ro. specialize (Hsub ro). by destruct ro. }
  { apply NoDup_filter, sorted_NoDup. by apply disjoint_sorted. }
  { intros x [Hox Hxl]%list_elem_of_filter. assert (Hxr : x ≠ region) by (intros ->; by apply (Hid region)). split_and!; [done| |].
    - unfold updated. rewrite put_elem. intros [->|[[? _]%list_elem_of_filter _]]; done.
    - intros y Hy _ Eid. unfold updated in Hy. apply put_elem in Hy as [->|[[_ Hyl]%list_elem_of_filter _]]; [by destruct (Hid x Hxl)|]. by eapply so_ids. }
  exists r1. rewrite Hl2 in Hs1. split_and!; [done..|]. intros ro s. rewrite (for_range_keeps _ (λ r, counted (subs ro r) s) _ _ _ _ E1); [by destruct ro|].
  intros x r2 r3 H. unfold remove_overlap in H. destruct (GetRegion r2 (GetID x)); [|done]. by eapply RemoveRegion_counted.
Qed.

Definition counts_region ro region r r' : Prop :=
  ∀ s, counted (subs ro r') s = if decide (in_role ro s region) then i64 (counted (subs ro r) s + approximateSize region) else counted (subs ro r) s.
Lemma added_counts region m ro r r' (D : gset Z) F :
  added region m F (counted (subs ro r)) D → (∀ s, s ∈ D ↔ in_role ro s region) → m = subs ro r' → counts_region ro region r r'.
Proof. intros [_ Hc] HD -> s. rewrite Hc. destruct (decide (s ∈ D)) as [Hin|Hin], (decide (in_role ro s region)); naive_solver. Qed.

(** [AddRegion] once the overlapping regions are gone. *)
Definition put_region region r : outcome Empty_set RegionsInfo :=
  r ← for_range (add_voter region) (voters region) (mkRegionsInfo (tree r) (rm_Put (regions r) region) (leaders r) (followers r) (ri_learners r) (ri_pendingPeers r));
  n ← for_range (λ peer m, sub_update m (StoreId peer) region) (learners region) (ri_learners r);
  p ← for_range (λ peer m, sub_update m (StoreId peer) region) (pendingPeers region) (ri_pendingPeers r);
  Ok (mkRegionsInfo (tree r) (regions r) (leaders r) (followers r) n p).

Lemma put_subs_ok r l2 region :
  state_ok r (put region l2) l2 → region_wf region → Forall (λ x, ¬ overlap region x) l2 → Forall (λ x, GetStartKey x ≠ GetStartKey region) l2 →
  ∃ r', put_region region r = Ok r' ∧ tree r' = tree r ∧ regions r' = rm_Put (regions r) region ∧
    ∀ ro, subs_ok (subs ro r') (λ s, filter (in_role ro s) (put region l2)) ∧ counts_region ro region r r'.
Proof.
  intros Hs Hw Ho Hne. pose proof (rw_range _ Hw) as Hx. pose proof (so_disjoint _ _ _ Hs) as Hd. pose proof (disjoint_sorted _ Hd) as Hs2. rewrite Forall_forall in Ho.
  assert (Hadd : ∀ ro, added region (subs ro r) (λ s, filter (in_role ro s) l2) (counted (subs ro r)) ∅).
  { intros ro. split; [|intros s; destruct (decide (s ∈ ∅)); [set_solver|done]]. eapply subs_ok_ext; [|apply (so_subs _ _ _ Hs ro)]. intros s. cbn beta. destruct (decide (s ∈ ∅)); [set_solver|done]. }
  assert (HF : ∀ ro s, disjoint (filter (in_role ro s) l2) ∧ Forall (λ x, ¬ overlap region x) (filter (in_role ro s) l2)).
  { intros ro s. split; [by apply disjoint_filter|]. rewrite Forall_forall. intros x [_ Hx2]%list_elem_of_filter. by apply Ho. }
  unfold put_region. destruct (add_voters_ok (voters region) (mkRegionsInfo (tree r) (rm_Put (regions r) region) (leaders r) (followers r) (ri_learners r) (ri_pendingPeers r))
              _ _ _ _ ∅ ∅ region (Hadd RLeader) (Hadd RFollower) (HF RLeader) (HF RFollower) Hx) as (ml & mf & -> & Hml & Hmf). cbn [mbind outcome_bind ri_learners ri_pendingPeers tree regions leaders followers].
  destruct (sub_updates_ok (ri_learners r) _ _ ∅ (learners region) region (Hadd RLearner) (HF RLearner) Hx) as (mn & -> & Hmn). cbn [mbind outcome_bind].
  destruct (sub_updates_ok (ri_pendingPeers r) _ _ ∅ (pendingPeers region) region (Hadd RPending) (HF RPending) Hx) as (mp & -> & Hmp). cbn [mbind outcome_bind].
  eexists. split_and!; [done|done|done|].
  intros [| | |]; cbn [subs leaders followers ri_learners ri_pendingPeers]; (split; [eapply added_role; [eassumption| |done|done]|eapply added_counts; [eassumption| |reflexivity]]);
    intros s; unfold in_role, role_peers; set_solver.
Qed.

Lemma AddRegion_ok r l region :
  state_ok r l l → region_wf region → (∀ x, x ∈ l → GetID x ≠ GetID region) →
  ∃ r', AddRegion r region = Ok (r', filter (overlap region) l) ∧ state_ok r' (updated region l) (updated region l) ∧ ∀ ro, counts_region ro region r r'.
Proof.
  intros Hs Hw Hid. pose proof (so_disjoint _ _ _ Hs) as Hd. pose proof (rw_range _ Hw) as Hx. unfold AddRegion.
  destruct (rt_update_ok (tree r) l region (so_tree _ _ _ Hs) Hd) as (t' & -> & Hrt). cbn [mbind outcome_bind].
  destruct (overlaps_removed r l region t' Hs Hx Hid Hrt) as (r1 & E1 & Hs1 & Hc1). unfold remove_overlap in E1. rewrite E1. cbn [mbind outcome_bind]. clear E1.
  set (l2 := filter (λ x, ¬ overlap region x) l) in *. assert (Hno : ∀ x, x ∈ l2 → x ∈ l ∧ ¬ overlap region x) by (intros x [? ?]%list_elem_of_filter; done).
  pose proof Hs1 as [Ht1 Htd1 Hd1 Hwf1 Hmap1 Hlen1 Hsize1 _]. assert (Hne : ∀ x, x ∈ l2 → GetStartKey x ≠ GetStartKey region).
  { intros x Hx2. destruct (Hno x Hx2). apply no_overlap_start; [done| |done]. destruct Hd1 as [Hr _]. rewrite Forall_forall in Hr. by apply Hr. }
  destruct (put_subs_ok r1 l2 region Hs1 Hw) as (r' & E & Et & Er & Hsubs); [rewrite Forall_forall; by apply Hno|by rewrite Forall_forall|].
  exists r'. split_and!; [| |intros ro s; rewrite (proj2 (Hsubs ro)) Hc1; done].
  { unfold put_region in E. destruct (for_range (add_voter region) _ _) as [r2| | |]; cbn [mbind outcome_bind] in E |- *; [|done..].
    destruct (for_range _ (learners region) _) as [mn| | |]; cbn [mbind outcome_bind] in E |- *; [|done..].
    destruct (for_range _ (pendingPeers region) _) as [mp| | |]; cbn [mbind outcome_bind] in E |- *; [|done..]. by injection E as ->. }
  assert (Hg : rm_m (regions r1) !! GetID region = None).
  { destruct (rm_m (regions r1) !! GetID region) as [x|] eqn:Ex; [|done]. apply Hmap1 in Ex as [Hx2 Eid]. apply Hno in Hx2 as [Hxl _]. by destruct (Hid x Hxl). }
  destruct (put_gap region l2) as [Etot Ezl]; [by apply disjoint_sorted|by rewrite Forall_forall|]. fold (updated region l) in Etot, Ezl.
  split; rewrite ?Et ?Er; cbn [rm_m rm_totalSize rm_Put].
  - done.
  - done.
  - done.
  - rewrite Forall_forall. intros x. unfold updated. rewrite put_elem. intros [->|[Hx2 _]]; [done|]. rewrite Forall_forall in Hwf1. by apply Hwf1.
  - intros id x. unfold updated. rewrite put_elem lookup_insert_Some Hmap1. split.
    + intros [[<- <-]|[_ [? ?]]]; [naive_solver|]. split; [right; split; [done|by apply Hne]|done].
    + intros [[->|[Hx2 _]] <-]; [by left|]. right. split; [|done]. destruct (Hno x Hx2) as [Hxl _]. intros E'. by apply (Hid x Hxl).
  - unfold rm_Len in *. cbn. rewrite map_size_insert_None //. rewrite Ezl. lia.
  - rewrite Hg Hsize1 i64_add Etot. done.
  - intros ro. apply Hsubs.
Qed.

(** The regions after [SetRegion]. *)
Definition replaced region l : list RegionInfo := updated region (filter (λ x, GetID x ≠ GetID region) l).

Lemma SetRegion_ok r l region :
  state_ok r l l → region_wf region →
  ∃ r', SetRegion r region = Ok (r', filter (overlap region) (filter (λ x, GetID x ≠ GetID region) l)) ∧ state_ok r' (replaced region l) (replaced region l) ∧
    ∀ ro, counts_region ro region r r'.
Proof.
  intros Hs Hw. unfold SetRegion, rm_Get. set (l1 := filter (λ x, GetID x ≠ GetID region) l).
  assert (Hrm : ∃ r1, (match rm_m (regions r) !! GetID region with Some origin => RemoveRegion r origin | None => Ok r end) = Ok r1 ∧ state_ok r1 l1 l1 ∧ ∀ ro s, counted (subs ro r1) s = counted (subs ro r) s).
  { destruct (rm_m (regions r) !! GetID region) as [o|] eqn:E.
    - apply (so_map _ _ _ Hs) in E as [Ho Eid]. destruct (RemoveRegion_ok r l l o Hs Ho) as (r1 & E1 & Hs1); [intros y Hy _ E'; by eapply so_ids|].
      exists r1. split; [done|]. split; [|intros; by eapply RemoveRegion_counted]. assert (El : filter (λ y, y ≠ o) l = l1); [|by rewrite El in Hs1]. apply filter_in. intros x Hx. rewrite -Eid. split; [|naive_solver].
      intros Hne E'. apply Hne. by apply (so_ids r l l).
    - exists r. split; [done|]. split; [|done]. unfold l1. rewrite filter_Forall //. rewrite Forall_forall. intros x Hx E'. assert (H := proj2 (so_map _ _ _ Hs _ x) (conj Hx E')). congruence. }
  destruct Hrm as (r1 & -> & Hs1 & Hc). cbn [mbind outcome_bind]. destruct (AddRegion_ok r1 l1 region Hs1 Hw) as (r' & E & Hs' & Hc'); [by intros x [? _]%list_elem_of_filter|].
  exists r'. split_and!; [done|done|]. intros ro s. by rewrite Hc' Hc.
Qed.

Lemma NewRegionsInfo_ok : ∃ r, NewRegionsInfo = Ok r ∧ state_ok r [] [].
Proof.
  unfold NewRegionsInfo, newRegionTree. destruct (New_ok (A:=RegionInfo) defaultBTreeDegree) as (t & -> & _ & Hr); [unfold defaultBTreeDegree; lia|].
  cbn [mbind outcome_bind]. eexists. split; [done|]. split; cbn; [done|by split; constructor|by split; constructor|constructor| |done|done|].
  - intros id x. rewrite lookup_empty. split; [done|]. intros [[]%elem_of_nil _].
  - intros ro s. by destruct ro.
Qed.

(** ** Queries *)

Lemma GetRegion_ok r l x : state_ok r l l → x ∈ l → GetRegion r (GetID x) = Some x.
Proof. intros Hs Hx. unfold GetRegion, rm_Get. by apply (so_map _ _ _ Hs). Qed.
Definition by_id l (id : Z) : option RegionInfo := head (filter (λ x, GetID x = id) l).
Lemma GetRegion_by_id r l id : state_ok r l l → GetRegion r id = by_id l id.
Proof.
  intros Hs. unfold GetRegion, rm_Get, by_id. destruct (filter (λ x, GetID x = id) l) as [|x k] eqn:E.
  - destruct (rm_m (regions r) !! id) as [x|] eqn:Ex; [|done]. apply (so_map _ _ _ Hs) in Ex as [Hx Hid].
    assert (Hf : x ∈ filter (λ x, GetID x = id) l) by (by apply list_elem_of_filter). rewrite E in Hf. by apply elem_of_nil in Hf.
  - assert (Hf : x ∈ filter (λ x, GetID x = id) l) by (rewrite E; by left). apply list_elem_of_filter in Hf as [Hid Hx]. by apply (so_map _ _ _ Hs).
Qed.
Lemma SearchRegion_ok r l key : state_ok r l l → SearchRegion r key = Ok (holder l key).
Proof.
  intros Hs. unfold SearchRegion. rewrite (rt_search_ok (tree r) l key (so_tree _ _ _ Hs) (so_disjoint _ _ _ Hs)). cbn [mbind outcome_bind]. f_equal.
  destruct (holder l key) as [x|] eqn:E; [|done]. apply holder_Some in E as [Hx _]. by eapply GetRegion_ok.
Qed.
Lemma SearchPrevRegion_ok r l key : state_ok r l l → SearchPrevRegion r key = Ok (previous l key).
Proof.
  intros Hs. unfold SearchPrevRegion. rewrite (searchPrev_ok (tree r) l key (so_tree _ _ _ Hs) (so_disjoint _ _ _ Hs)). cbn [mbind outcome_bind]. f_equal.
  unfold previous. destruct (holder l key) as [cur|]; [|done]. destruct (head (filter (λ y, lt y cur ∧ GetEndKey y = GetStartKey cur) l)) as [x|] eqn:E; [|done].
  apply head_Some in E as [k Ek]. assert (Hf : x ∈ filter (λ y, lt y cur ∧ GetEndKey y = GetStartKey cur) l) by (rewrite Ek; by left).
  apply list_elem_of_filter in Hf as [_ Hx]. by eapply GetRegion_ok.
Qed.
Lemma GetOverlaps_ok r l region : state_ok r l l → GetOverlaps r region = Ok (filter (overlap region) l).
Proof. intros Hs. apply getOverlaps_ok; [by apply Hs|by apply Hs]. Qed.

(** At most [limit] of a list, if there is a limit. *)
Definition limited {X} (limit : Z) (k : list X) : list X := if decide (0 < limit) then take (Z.to_nat limit) k else k.
Lemma visit_limited (g : RegionInfo → option RegionInfo) (e : bytes) limit (q : list RegionInfo) (res : list (option RegionInfo)) :
  lts q → (0 < limit → zlen res ≤ limit) →
  (visit (λ res region, if beyond e region then (res, false)
                        else if bool_decide (0 < limit) && bool_decide (limit ≤ zlen res) then (res, false) else (res ++ [g region], true)) q res).1 =
  limited limit (res ++ (g <$> filter (λ x, key_below (GetStartKey x) e) q)).
Proof.
  intros Hs. revert res. induction Hs as [|x q Hs IH Hx]; intros res Hl.
  - cbn. rewrite app_nil_r. unfold limited. destruct (decide (0 < limit)); [|done]. rewrite take_ge //. unfold zlen in Hl. lia.
  - cbn [visit]. rewrite filter_cons. destruct (beyond e x) eqn:Eb.
    + assert (Hall := beyond_mono e (x :: q) [] x q ltac:(by constructor) eq_refl Eb). destruct (decide (key_below (GetStartKey x) e)) as [Hk|_]; [apply beyond_spec in Hk; congruence|].
      rewrite filter_Forall_not; [|eapply Forall_impl; [exact Hall|]; cbn; intros y Hy Hk; apply beyond_spec in Hk; congruence]. cbn. rewrite app_nil_r.
      unfold limited. destruct (decide (0 < limit)); [|done]. rewrite take_ge //. unfold zlen in Hl. lia.
    + apply beyond_spec in Eb. destruct (decide (key_below (GetStartKey x) e)); [|done]. destruct (bool_decide_reflect (0 < limit)) as [Hpos|Hnp]; cbn [andb].
      * destruct (bool_decide_reflect (limit ≤ zlen res)) as [Hfull|Hroom].
        -- assert (Hlen : length res = Z.to_nat limit) by (specialize (Hl Hpos); unfold zlen in *; lia). unfold limited. destruct (decide (0 < limit)); [|lia].
           rewrite -Hlen take_app_length. done.
        -- rewrite IH; [|intros _; rewrite zlen_app; unfold zlen in *; cbn; lia]. rewrite fmap_cons. by rewrite -app_assoc.
      * rewrite IH; [|lia]. rewrite fmap_cons. by rewrite -app_assoc.
Qed.
Lemma ScanRange_ok r l startKey endKey limit : state_ok r l l → ScanRange r startKey endKey limit = Ok (Some <$> limited limit (filter (meets startKey endKey) l)).
Proof.
  intros Hs. unfold ScanRange. rewrite (scanRange_ok (tree r) l startKey _ [] (so_tree _ _ _ Hs) (so_disjoint _ _ _ Hs)). f_equal.
  rewrite (visit_limited (λ region, GetRegion r (GetID region)) endKey limit); [|apply sorted_filter, disjoint_sorted, Hs|unfold zlen; cbn; lia]. cbn [app].
  rewrite list_filter_filter. assert (E : filter (λ x, key_below (GetStartKey x) endKey ∧ reaches startKey x) l = filter (meets startKey endKey) l) by done. rewrite E.
  assert (Em : (λ region, GetRegion r (GetID region)) <$> filter (meets startKey endKey) l = Some <$> filter (meets startKey endKey) l).
  { apply list_fmap_ext. intros i x Hx. apply list_elem_of_lookup_2 in Hx. apply list_elem_of_filter in Hx as [_ Hx]. by eapply GetRegion_ok. }
  rewrite Em. unfold limited. destruct (decide (0 < limit)); [by rewrite fmap_take|done].
Qed.

Lemma reaches_nil x : reaches [] x.
Proof. unfold reaches, key_below. destruct (GetEndKey x); [by left|right]. by cbv. Qed.
Lemma scanRanges_ok (o : option regionSubTree) l :
  match o with Some rst => represents (rst_tree rst) l | None => l = [] end → disjoint l → scanRanges o = Ok l ∧ rst_length o = zlen l.
Proof.
  intros Ho Hd. destruct o as [rst|]; [|by subst l]. unfold scanRanges. cbn [rst_length]. unfold Len. rewrite (rp_length _ _ Ho). split; [|done].
  destruct (decide (zlen l = 0)) as [Hz|_]; [unfold zlen in Hz; destruct l; [done|cbn in Hz; lia]|]. rewrite (scanRange_ok _ l) //. f_equal.
  rewrite (visit_collect_until (λ res region, res ++ [region]) (λ _, false) (λ _, True)); [|done|done]. rewrite (foldl_snoc id) list_fmap_id.
  rewrite filter_Forall; [|by apply Forall_true]. rewrite filter_Forall //. apply Forall_true. intros. apply reaches_nil.
Qed.
Lemma GetStoreRegions_ok r l s : state_ok r l l → GetStoreRegions r s = Ok (filter (in_role RLeader s) l ++ filter (in_role RFollower s) l).
Proof.
  intros Hs. unfold GetStoreRegions. destruct (scanRanges_ok (leaders r !! s) _ (so_subs _ _ _ Hs RLeader s)) as [-> _]; [apply disjoint_filter, Hs|].
  cbn [mbind outcome_bind]. destruct (scanRanges_ok (followers r !! s) _ (so_subs _ _ _ Hs RFollower s)) as [-> _]; [apply disjoint_filter, Hs|]. done.
Qed.
Lemma store_count_ok r l ro s : state_ok r l l → rst_length (subs ro r !! s) = zlen (filter (in_role ro s) l).
Proof. intros Hs. apply scanRanges_ok; [apply (so_subs _ _ _ Hs ro s)|apply disjoint_filter, Hs]. Qed.
