(* ===== verification/RegionsRefine.v ===== *)
(** [RegionsInfo] refines a set of disjoint regions: a program of its operations
    returns what the program returns on a sequence of regions in key order. *)

From S2P Require Import Prelude Pb BTree BTreeSpec BTreeQuery BTreeRefine RegionTree RegionTreeSpec RegionsSpec.
Import metapb btree core.

Implicit Types (x y region : RegionInfo) (l : list RegionInfo) (r : RegionsInfo).

(** ** Random regions *)

(** The first of ten draws that the options select. *)
Fixpoint draws (retry : nat) (Intn : nat → Z → Z) (opts : list (RegionInfo → bool)) l : option RegionInfo :=
  match retry with
  | O => None
  | S retry =>
    match draw (Intn retry) l with
    | Some x => if forallb (λ opt, opt x) opts then Some x else draws retry Intn opts l
    | None => None
    end
  end.
Lemma randRegion_ok (random : nat → outcome Empty_set (option RegionInfo)) Intn opts l :
  (∀ i, random i = Ok (draw (Intn i) l)) → randRegion random opts = Ok (draws randomRegionMaxRetry Intn opts l).
Proof.
  intros Hr. unfold randRegion. induction randomRegionMaxRetry as [|k IH]; [done|]. cbn [randRegion_loop draws]. rewrite Hr. cbn [mbind outcome_bind].
  destruct (draw (Intn k) l) as [x|]; [|done]. destruct (forallb _ opts); [done|exact IH].
Qed.
Lemma draws_elem retry Intn opts l x : draws retry Intn opts l = Some x → x ∈ l ∧ Forall (λ opt, opt x = true) opts.
Proof.
  induction retry as [|k IH]; [done|]. cbn. destruct (draw (Intn k) l) as [y|] eqn:Ed; [|done]. destruct (forallb _ opts) eqn:Eo; [|exact IH]. intros [= <-]. split.
  - unfold draw in Ed. destruct (decide (l = [])); [done|]. unfold nth_item in Ed. destruct (decide _); [|done]. by eapply list_elem_of_lookup_2.
  - rewrite Forall_forall. rewrite forallb_forall in Eo. intros opt Ho. apply Eo. by apply list_elem_of_In.
Qed.
Lemma meets_all l : filter (meets [] []) l = l.
Proof. apply filter_Forall, Forall_true. intros x. split; [by left|apply reaches_nil]. Qed.
Lemma rst_RandomRegion_ok Intn (o : option regionSubTree) l :
  in_range Intn → match o with Some rst => represents (rst_tree rst) l | None => l = [] end → disjoint l → rst_RandomRegion Intn o [] [] = Ok (draw Intn l).
Proof.
  intros HI Ho Hd. unfold rst_RandomRegion. destruct o as [rst|]; [|by subst l]. cbn [rst_length]. unfold Len. rewrite (rp_length _ _ Ho).
  destruct (decide (zlen l = 0)) as [Hz|_]; [unfold zlen in Hz; destruct l; [done|cbn in Hz; lia]|]. by rewrite (RandomRegion_ok Intn _ l) // meets_all.
Qed.

(** ** Programs *)

Inductive region_op :=
  | OSet (region : RegionInfo) | ODrop (id : Z)
  | OGet (id : Z) | OSearch (key : bytes) | OSearchPrev (key : bytes) | OScan (startKey endKey : bytes) (limit : Z) | OOverlaps (region : RegionInfo)
  | OStoreRegions (s : Z) | OStoreCount (ro : role) (s : Z) | OStoreRegionCount (s : Z) | OLength | OAverageSize
  | ORand (Intn : nat → Z → Z) (opts : list (RegionInfo → bool)) | ORandRole (ro : role) (s : Z) (Intn : nat → Z → Z) (opts : list (RegionInfo → bool)).
Inductive region_res := QRegion (o : option RegionInfo) | QRegions (l : list RegionInfo) | QFound (l : list (option RegionInfo)) | QInt (k : Z) | QUnit.

(** [DropCacheRegion] of cluster.go. *)
Definition DropCacheRegion r (id : Z) : outcome Empty_set RegionsInfo :=
  match GetRegion r id with Some region => RemoveRegion r region | None => Ok r end.

Definition rand_role (ro : role) : (nat → Z → Z) → RegionsInfo → Z → list (RegionInfo → bool) → outcome Empty_set (option RegionInfo) :=
  match ro with
  | RLeader => RandLeaderRegion
  | RFollower => RandFollowerRegion
  | RPending => RandPendingRegion
  | RLearner => λ _ _ _ _, Ok None
  end.
Definition region_step r (o : region_op) : outcome Empty_set (RegionsInfo * region_res) :=
  match o with
  | OSet region => '(r, overlaps) ← SetRegion r region; Ok (r, QRegions overlaps)
  | ODrop id => r ← DropCacheRegion r id; Ok (r, QUnit)
  | OGet id => Ok (r, QRegion (GetRegion r id))
  | OSearch key => x ← SearchRegion r key; Ok (r, QRegion x)
  | OSearchPrev key => x ← SearchPrevRegion r key; Ok (r, QRegion x)
  | OScan startKey endKey limit => k ← ScanRange r startKey endKey limit; Ok (r, QFound k)
  | OOverlaps region => k ← GetOverlaps r region; Ok (r, QRegions k)
  | OStoreRegions s => k ← GetStoreRegions r s; Ok (r, QRegions k)
  | OStoreCount ro s =>
    Ok (r, QInt (match ro with
                 | RLeader => GetStoreLeaderCount r s
                 | RFollower => GetStoreFollowerCount r s
                 | RLearner => GetStoreLearnerCount r s
                 | RPending => GetStorePendingPeerCount r s
                 end))
  | OStoreRegionCount s => Ok (r, QInt (GetStoreRegionCount r s))
  | OLength => Ok (r, QInt (Length r))
  | OAverageSize => Ok (r, QInt (GetAverageRegionSize r))
  | ORand Intn opts => x ← RandRegion Intn r opts; Ok (r, QRegion x)
  | ORandRole ro s Intn opts => x ← rand_role ro Intn r s opts; Ok (r, QRegion x)
  end.

Definition store_regions ro (s : Z) l : list RegionInfo := filter (in_role ro s) l.
Definition set_step l (o : region_op) : list RegionInfo * region_res :=
  match o with
  | OSet region => (replaced region l, QRegions (filter (overlap region) (filter (λ x, GetID x ≠ GetID region) l)))
  | ODrop id => (filter (λ x, GetID x ≠ id) l, QUnit)
  | OGet id => (l, QRegion (by_id l id))
  | OSearch key => (l, QRegion (holder l key))
  | OSearchPrev key => (l, QRegion (previous l key))
  | OScan startKey endKey limit => (l, QFound (Some <$> limited limit (filter (meets startKey endKey) l)))
  | OOverlaps region => (l, QRegions (filter (overlap region) l))
  | OStoreRegions s => (l, QRegions (store_regions RLeader s l ++ store_regions RFollower s l))
  | OStoreCount ro s => (l, QInt (zlen (store_regions ro s l)))
  | OStoreRegionCount s => (l, QInt (zlen (store_regions RLeader s l) + zlen (store_regions RFollower s l) + zlen (store_regions RLearner s l)))
  | OLength => (l, QInt (zlen l))
  | OAverageSize => (l, QInt (if decide (l = []) then 0 else Z.quot (i64 (total_size l)) (zlen l)))
  | ORand Intn opts => (l, QRegion (draws randomRegionMaxRetry Intn opts l))
  | ORandRole ro s Intn opts => (l, QRegion (match ro with RLearner => None | _ => draws randomRegionMaxRetry Intn opts (store_regions ro s l) end))
  end.
(** What the operations may be given. *)
Definition op_ok (o : region_op) : Prop :=
  match o with
  | OSet region => region_wf region
  | ORand Intn _ | ORandRole _ _ Intn _ => ∀ i, in_range (Intn i)
  | _ => True
  end.

Fixpoint region_run r (os : list region_op) : outcome Empty_set (RegionsInfo * list region_res) :=
  match os with
  | [] => Ok (r, [])
  | o :: os => '(r, a) ← region_step r o; '(r, res) ← region_run r os; Ok (r, a :: res)
  end.
Fixpoint set_run l (os : list region_op) : list RegionInfo * list region_res :=
  match os with
  | [] => (l, [])
  | o :: os => let '(l, a) := set_step l o in let '(l, res) := set_run l os in (l, a :: res)
  end.

Lemma DropCacheRegion_ok r l id : state_ok r l l → ∃ r', DropCacheRegion r id = Ok r' ∧ state_ok r' (filter (λ x, GetID x ≠ id) l) (filter (λ x, GetID x ≠ id) l).
Proof.
  intros Hs. unfold DropCacheRegion, GetRegion, rm_Get. destruct (rm_m (regions r) !! id) as [o|] eqn:E.
  - apply (so_map _ _ _ Hs) in E as [Ho <-]. destruct (RemoveRegion_ok r l l o Hs Ho) as (r1 & E1 & Hs1); [intros y Hy _ E'; by apply (so_ids r l l)|].
    exists r1. split; [done|]. assert (El : filter (λ y, y ≠ o) l = filter (λ x, GetID x ≠ GetID o) l); [|by rewrite El in Hs1].
    apply filter_in. intros x Hx. split; [|naive_solver]. intros Hne E'. apply Hne. by apply (so_ids r l l).
  - exists r. split; [done|]. rewrite filter_Forall //. rewrite Forall_forall. intros x Hx E'. assert (H := proj2 (so_map _ _ _ Hs _ x) (conj Hx E')). congruence.
Qed.
Lemma rand_role_ok ro r l s Intn opts :
  state_ok r l l → (∀ i, in_range (Intn i)) →
  rand_role ro Intn r s opts = Ok (match ro with RLearner => None | _ => draws randomRegionMaxRetry Intn opts (store_regions ro s l) end).
Proof.
  intros Hs HI. destruct ro; cbn [rand_role]; try done; apply randRegion_ok; intros i; apply rst_RandomRegion_ok; try apply HI; try (apply disjoint_filter, Hs);
    [apply (so_subs _ _ _ Hs RLeader s)|apply (so_subs _ _ _ Hs RFollower s)|apply (so_subs _ _ _ Hs RPending s)].
Qed.

Lemma region_step_ok r l o :
  state_ok r l l → op_ok o → ∃ r', region_step r o = Ok (r', (set_step l o).2) ∧ state_ok r' (set_step l o).1 (set_step l o).1.
Proof.
  intros Hs Ho. destruct o as [region|id|id|key|key|sk ek lim|region|s|ro s|s| | |Intn opts|ro s Intn opts]; cbn [region_step set_step fst snd].
  - destruct (SetRegion_ok r l region Hs Ho) as (r' & -> & Hs' & _). by exists r'.
  - destruct (DropCacheRegion_ok r l id Hs) as (r' & -> & Hs'). by exists r'.
  - exists r. by rewrite (GetRegion_by_id r l).
  - exists r. by rewrite (SearchRegion_ok r l).
  - exists r. by rewrite (SearchPrevRegion_ok r l).
  - exists r. by rewrite (ScanRange_ok r l).
  - exists r. by rewrite (GetOverlaps_ok r l).
  - exists r. by rewrite (GetStoreRegions_ok r l).
  - exists r. split; [|done]. rewrite -(store_count_ok r l) //. by destruct ro.
  - exists r. split; [|done]. unfold store_regions. by rewrite -!(store_count_ok r l).
  - exists r. split; [|done]. unfold Length. by rewrite (so_len _ _ _ Hs).
  - exists r. split; [|done]. unfold GetAverageRegionSize, rm_TotalSize. rewrite (so_len _ _ _ Hs) (so_size _ _ _ Hs). destruct (decide (zlen l = 0)) as [Hz|Hz].
    + destruct l; [done|unfold zlen in Hz; cbn in Hz; lia].
    + destruct (decide (l = [])) as [->|]; [done|done].
  - exists r. split; [|done]. unfold RandRegion. rewrite (randRegion_ok _ Intn opts l) //. intros i.
    rewrite (RandomRegion_ok (Intn i) _ l) ?meets_all //; apply Hs.
  - exists r. by rewrite (rand_role_ok ro r l).
Qed.
Lemma region_run_ok r l os :
  state_ok r l l → Forall op_ok os → ∃ r', region_run r os = Ok (r', (set_run l os).2) ∧ state_ok r' (set_run l os).1 (set_run l os).1.
Proof.
  intros Hs Ho. revert r l Hs. induction Ho as [|o os Ho _ IH]; intros r l Hs; cbn [region_run set_run]; [by exists r|].
  destruct (region_step_ok r l o Hs Ho) as (r1 & -> & Hs1). destruct (set_step l o) as [l1 a]. cbn [mbind outcome_bind fst snd] in *.
  destruct (IH r1 l1 Hs1) as (r2 & -> & Hs2). destruct (set_run l1 os) as [l2 res]. cbn in *. by exists r2.
Qed.

(** C35: the scheduler's region cache refines a set of regions with disjoint key
    ranges. A program that sets and drops regions and looks them up (by id, by key,
    by range, by store and role, at random) returns what it returns on the regions
    in key order: [SetRegion] removes the region with the same id and exactly the
    regions it overlaps, which it returns; every key is held by at most one region;
    and the map by id, the tree by key and the trees of the stores agree. *)
Theorem region_cache_refines os :
  Forall op_ok os → ∃ r r', NewRegionsInfo = Ok r ∧ region_run r os = Ok (r', (set_run [] os).2) ∧ disjoint (set_run [] os).1 ∧ state_ok r' (set_run [] os).1 (set_run [] os).1.
Proof.
  intros Ho. destruct NewRegionsInfo_ok as (r & Er & Hs). destruct (region_run_ok r [] os Hs Ho) as (r' & E & Hs'). exists r, r'. split_and!; [done|done|apply Hs'|done].
Qed.

(** A region is in the range it covers and nowhere else. *)
Lemma RegionFromHeartbeat_wf heartbeat :
  has_range (RegionFromHeartbeat heartbeat) → (∀ p, p ∈ hb_PendingPeers heartbeat → StoreId p ∈ StoreId <$> Peers (hb_Region heartbeat)) →
  region_wf (RegionFromHeartbeat heartbeat).
Proof.
  intros Hr Hp. split; [done|]. intros ro s. unfold in_role, role_peers, GetPeers. cbn. intros Hs. apply list_elem_of_fmap in Hs as (p & -> & Hin). destruct ro.
  - apply list_elem_of_filter in Hin as [_ Hin]. by apply list_elem_of_fmap_2.
  - apply list_elem_of_filter in Hin as [_ Hin]. by apply list_elem_of_fmap_2.
  - by apply elem_of_nil in Hin.
  - by apply Hp.
Qed.

(** ** Examples *)

Definition ex_key (z : Z) : bytes := [z2b z].
Definition ex_region (id : Z) (s e : bytes) (version : Z) : RegionInfo :=
  RegionFromHeartbeat (mkRegionHeartbeatRequest (mkRegion id s e (mkRegionEpoch 1 version) [mkPeer (id * 10 + 1) 1; mkPeer (id * 10 + 2) 2]) (Some (mkPeer (id * 10 + 1) 1)) [] (10 * 2 ^ 20)).
Definition ex_region_ops : list region_op :=
  [OSet (ex_region 1 [] [] 1); OSearch (ex_key 5);
   OSet (ex_region 1 [] (ex_key 5) 2); OSet (ex_region 2 (ex_key 5) [] 2); OSearch (ex_key 5); OSearchPrev (ex_key 7);
   OScan (ex_key 3) (ex_key 6) 0; OStoreCount RLeader 1; OStoreRegions 2; OSet (ex_region 3 (ex_key 4) (ex_key 9) 3); OLength; OSearch (ex_key 2); ODrop 3; OLength].
Lemma ex_region_wf id s e v : key_below s e → region_wf (ex_region id s e v).
Proof. intros Hr. apply RegionFromHeartbeat_wf; [done|]. intros p Hp. by apply elem_of_nil in Hp. Qed.
Lemma region_cache_refines_witness :
  (set_run [] ex_region_ops).1 = [] ∧
  ∃ r r', NewRegionsInfo = Ok r ∧ region_run r ex_region_ops = Ok (r', (set_run [] ex_region_ops).2) ∧ disjoint (set_run [] ex_region_ops).1 ∧
    state_ok r' (set_run [] ex_region_ops).1 (set_run [] ex_region_ops).1.
Proof.
  split; [vm_compute; reflexivity|]. apply (region_cache_refines ex_region_ops).
  rewrite !Forall_cons. split_and!; try done; apply ex_region_wf; first [by left|right; vm_compute; reflexivity].
Defined.

(** ** The size of a store *)

Lemma disjoint_no_overlap x y : has_range x → has_range y → precedes x y → ¬ overlap x y ∧ ¬ overlap y x.
Proof.
  intros Hx Hy [Hne Hle]. assert (Hn : ¬ key_below (GetStartKey y) (GetEndKey x)) by (by apply not_key_below). unfold overlap, meets. naive_solver.
Qed.
Lemma replaced_same r l region : state_ok r l l → region ∈ l → replaced region l = l ∧ filter (overlap region) (filter (λ x, GetID x ≠ GetID region) l) = [].
Proof.
  intros Hs Hin. pose proof (so_disjoint _ _ _ Hs) as Hd. pose proof (disjoint_sorted _ Hd) as Hso.
  apply list_elem_of_split in Hin as (a & b & ->). pose proof Hd as (Hda & Hdb & Hab)%disjoint_app. apply disjoint_cons in Hdb as (Hr & Hdb & Hrb).
  assert (Hin : region ∈ a ++ region :: b) by (apply elem_of_app; right; by left).
  assert (Hne : ∀ x, x ∈ a ++ b → GetID x ≠ GetID region ∧ ¬ overlap region x).
  { intros x Hx. assert (Hxl : x ∈ a ++ region :: b) by (apply elem_of_app in Hx as [?|?]; apply elem_of_app; [by left|right; by right]). split.
    - intros E. assert (x = region) as -> by (by apply (so_ids r _ _ x region Hs)). apply sorted_NoDup in Hso. apply NoDup_app in Hso as (_ & Hna & [Hnb _]%NoDup_cons).
      apply elem_of_app in Hx as [Hx|Hx]; [by apply (Hna region Hx); left|done].
    - destruct Hda as [Hra _], Hdb as [Hrb' _]. rewrite Forall_forall in Hra. rewrite Forall_forall in Hrb'. apply elem_of_app in Hx as [Hx|Hx].
      + apply (disjoint_no_overlap x region); [by apply Hra|done|apply Hab; [done|by left]].
      + apply (disjoint_no_overlap region x); [done|by apply Hrb'|by apply Hrb]. }
  assert (E1 : filter (λ x, GetID x ≠ GetID region) (a ++ region :: b) = a ++ b).
  { rewrite filter_app filter_cons_False; [|naive_solver]. rewrite -filter_app. apply filter_Forall. rewrite Forall_forall. intros x Hx. by apply Hne. }
  rewrite E1. split.
  - unfold replaced, updated. rewrite E1 filter_Forall; [|rewrite Forall_forall; intros x Hx; by apply Hne]. unfold put. assert (He : eqv region region) by (split; apply lt_irrefl).
    destruct (parts_at region region a b Hso He) as (Ha & Hb & _). by destruct (parts_gap region a b Ha Hb) as (-> & -> & _).
  - apply filter_Forall_not. rewrite Forall_forall. intros x Hx. by apply Hne.
Qed.
Lemma leader_size_counted r l region s : state_ok r l l → region ∈ l → in_role RLeader s region → GetStoreLeaderRegionSize r s = counted (leaders r) s.
Proof.
  intros Hs Hin Hro. unfold GetStoreLeaderRegionSize, rst_TotalSize, counted. pose proof (store_count_ok r l RLeader s Hs) as Hc. cbn [subs] in Hc. rewrite Hc.
  destruct (decide _) as [Hz|_]; [|done]. assert (Hf : region ∈ filter (in_role RLeader s) l) by (by apply list_elem_of_filter). unfold zlen in Hz.
  destruct (filter (in_role RLeader s) l); [by apply elem_of_nil in Hf|cbn in Hz; lia].
Qed.

(** C36: the size of the leader regions of a store only grows. [regionSubTree.remove]
    leaves [totalSize] as it is, and [SetRegion] of a region that is already there
    removes it and adds it again: the regions stay the same, and the size the store
    of its leader is said to lead grows by the size of the region each time. *)
Theorem store_size_grows r l region s :
  state_ok r l l → region_wf region → region ∈ l → in_role RLeader s region →
  ∃ r', SetRegion r region = Ok (r', []) ∧ state_ok r' l l ∧ GetStoreLeaderRegionSize r' s = i64 (GetStoreLeaderRegionSize r s + approximateSize region).
Proof.
  intros Hs Hw Hin Hro. destruct (SetRegion_ok r l region Hs Hw) as (r' & E & Hs' & Hc). exists r'. destruct (replaced_same r l region Hs Hin) as [El Eo].
  rewrite Eo in E. rewrite El in Hs'. split_and!; [done|done|]. rewrite !(leader_size_counted _ l region) //. specialize (Hc RLeader s). cbn [subs] in Hc. rewrite Hc.
  by destruct (decide (in_role RLeader s region)).
Qed.
Lemma store_size_grows_witness :
  ∃ r', SetRegion (match region_run (mkRegionsInfo (mkBTree 64 0 None) newRegionMap ∅ ∅ ∅ ∅) [OSet (ex_region 1 [] [] 1)] with Ok (r, _) => r | _ => mkRegionsInfo (mkBTree 64 0 None) newRegionMap ∅ ∅ ∅ ∅ end)
          (ex_region 1 [] [] 1) = Ok (r', []) ∧ GetStoreLeaderRegionSize r' 1 = 20.
Proof.
  destruct (region_run_ok (mkRegionsInfo (mkBTree 64 0 None) newRegionMap ∅ ∅ ∅ ∅) [] [OSet (ex_region 1 [] [] 1)]) as (r1 & E1 & Hs1).
  - destruct NewRegionsInfo_ok as (r & [= <-] & Hs). exact Hs.
  - rewrite Forall_singleton. apply ex_region_wf. by left.
  - destruct (store_size_grows r1 [ex_region 1 [] [] 1] (ex_region 1 [] [] 1) 1) as (r' & E & _ & Hsz); [exact Hs1|apply ex_region_wf; by left|by left|vm_compute; left|].
    rewrite E1. exists r'. split; [exact E|]. rewrite Hsz. injection E1 as <-. vm_compute. reflexivity.
Defined.
