(* ===== verification/Tso.v ===== *)
(** What the scheduler allocates: timestamps (scheduler/server/tso/tso.go) and ids
    (scheduler/server/id/id.go), under the leadership of
    scheduler/server/member/leader.go.

    etcd is a library: a state with a linearizable read and a transaction that
    compares and then puts or deletes.  A request may also fail, after it was
    applied or without; a [fault] says which.  A [time.Time] is the number of
    nanoseconds since 1970; [UnixNano] wraps as Go's does. *)

From S2P Require Import Prelude.

(** ** etcd *)

Inductive Cmp := CmpValue (key value : bytes) | CmpAbsent (key : bytes).
Inductive Op := OpPut (key value : bytes) | OpDelete (key : bytes).
Class Etcd (D : Type) := { etcd_get : D → bytes → option bytes; etcd_commit : D → list Cmp → Op → D * bool }.

Section Etcd.
Context {D : Type} `{!Etcd D}.
Definition cmp_holds (d : D) (c : Cmp) : bool :=
  match c with CmpValue k v => bool_decide (etcd_get d k = Some v) | CmpAbsent k => bool_decide (etcd_get d k = None) end.
(** The documented behaviour of a transaction. *)
Class EtcdLaws : Prop := {
  commit_ok d cs o : (etcd_commit d cs o).2 = forallb (cmp_holds d) cs;
  commit_failed d cs o : forallb (cmp_holds d) cs = false → (etcd_commit d cs o).1 = d;
  commit_get d cs o k : forallb (cmp_holds d) cs = true →
    etcd_get (etcd_commit d cs o).1 k =
      match o with OpPut k' v => if decide (k = k') then Some v else etcd_get d k | OpDelete k' => if decide (k = k') then None else etcd_get d k end
}.
End Etcd.
Arguments EtcdLaws D {_}.

(** How a request goes. *)
Inductive fault := Fine | Lost | AppliedButFailed.
Inductive alloc_error :=
  | ErrEtcd | ErrInvalidData | ErrLostLeader | ErrNotLeader | ErrLeaseExpired | ErrTooSmall | ErrTooLarge | ErrCountZero | ErrCannotGet | ErrCampaign.
#[local] Notation result := (outcome alloc_error).

Definition etcd_txn {D} `{!Etcd D} (f : fault) (d : D) (cs : list Cmp) (o : Op) : D * result bool :=
  match f with
  | Fine => let '(d, ok) := etcd_commit d cs o in (d, Ok ok)
  | Lost => (d, Err ErrEtcd)
  | AppliedButFailed => ((etcd_commit d cs o).1, Err ErrEtcd)
  end.

(** [path.Join] of a clean path and a name. *)
Definition slash : byte := Byte.x2f.
Definition path_join (root name : bytes) : bytes := root ++ slash :: name.
Definition leader_name : bytes := String.list_byte_of_string "leader".
Definition timestamp_name : bytes := String.list_byte_of_string "timestamp".
Definition alloc_id_name : bytes := String.list_byte_of_string "alloc_id".

(** ** typeutil *)

Definition Uint64ToBytes (v : Z) : bytes := PutUint64 (u64 v).
Definition BytesToUint64 (b : bytes) : result Z := if decide (length b = 8%nat) then Uint64 b else Err ErrInvalidData.
Definition Second : Z := 1000000000.
Definition Millisecond : Z := 1000000.
(** [time.Time{}], the first of January of year 1. *)
Definition ZeroTime : Z := -62135596800 * Second.
Definition UnixNano (t : Z) : Z := i64 t.
Definition ParseTimestamp (data : bytes) : result Z := nano ← BytesToUint64 data; Ok (i64 nano).
Definition SubTimeByWallClock (after before : Z) : Z := i64 (UnixNano after - UnixNano before).
(** tsoutil *)
Definition tso_PhysicalShiftBits : Z := 18.
Definition ParseTS (ts : Z) : Z * Z :=
  let logical := Z.land ts (2 ^ tso_PhysicalShiftBits - 1) in
  let physical := Z.shiftr ts tso_PhysicalShiftBits in
  (physical / 1000 * Second + physical mod 1000 * Millisecond, logical).

(** ** Leadership *)

Definition leader_path (rootPath : bytes) : bytes := path_join rootPath leader_name.
Definition leaderCmp (rootPath memberValue : bytes) : Cmp := CmpValue (leader_path rootPath) memberValue.

Section Member.
Context {D : Type} `{!Etcd D}.
(** [CampaignLeader], once the lease is granted. *)
Definition CampaignLeader (f : fault) (d : D) (rootPath memberValue : bytes) : D * result unit :=
  let leaderKey := leader_path rootPath in
  let '(d, r) := etcd_txn f d [CmpAbsent leaderKey] (OpPut leaderKey memberValue) in
  (d, ok ← r; if (ok : bool) then Ok () else Err ErrCampaign).
Definition deleteLeaderKey (f : fault) (d : D) (rootPath memberValue : bytes) : D * result unit :=
  let '(d, r) := etcd_txn f d [leaderCmp rootPath memberValue] (OpDelete (leader_path rootPath)) in
  (d, ok ← r; if (ok : bool) then Ok () else Err ErrNotLeader).
End Member.

(** A lease, by the time it expires; nil before the first campaign. *)
Definition lease_expired (now : Z) (lease : option Z) : bool := match lease with Some e => bool_decide (e < now) | None => true end.

(** ** Timestamps *)

Definition UpdateTimestampStep : Z := 50 * Millisecond.
Definition updateTimestampGuard : Z := Millisecond.
Definition maxLogical : Z := 2 ^ 18.
Definition maxRetryCount : nat := 100.

Record atomicObject := mkObject { physical : Z; logical : Z }.
Record TimestampOracle := mkOracle {
  ts : option atomicObject;
  lastSavedTime : Z;
  lease : option Z;
  rootPath : bytes;
  member : bytes;
  saveInterval : Z;
  maxResetTsGap : Z
}.
Definition set_ts (o : option atomicObject) (t : TimestampOracle) : TimestampOracle :=
  mkOracle o (lastSavedTime t) (lease t) (rootPath t) (member t) (saveInterval t) (maxResetTsGap t).
Definition set_saved (s : Z) (t : TimestampOracle) : TimestampOracle :=
  mkOracle (ts t) s (lease t) (rootPath t) (member t) (saveInterval t) (maxResetTsGap t).
Definition set_lease (l : option Z) (t : TimestampOracle) : TimestampOracle :=
  mkOracle (ts t) (lastSavedTime t) l (rootPath t) (member t) (saveInterval t) (maxResetTsGap t).

Definition NewTimestampOracle (rootPath member : bytes) (saveInterval maxResetTsGap : Z) : TimestampOracle :=
  mkOracle None ZeroTime None rootPath member saveInterval maxResetTsGap.
Definition getTimestampPath (t : TimestampOracle) : bytes := path_join (rootPath t) timestamp_name.

Section Tso.
Context {D : Type} `{!Etcd D}.
Implicit Types (d : D) (t : TimestampOracle).

Definition loadTimestamp (f : fault) d t : result Z :=
  match f with
  | Fine => match etcd_get d (getTimestampPath t) with None | Some [] => Ok ZeroTime | Some data => ParseTimestamp data end
  | _ => Err ErrEtcd
  end.
Definition saveTimestamp (f : fault) d t (time : Z) : D * TimestampOracle * result unit :=
  let data := Uint64ToBytes (UnixNano time) in
  let '(d, r) := etcd_txn f d [leaderCmp (rootPath t) (member t)] (OpPut (getTimestampPath t) data) in
  match r with
  | Ok true => (d, set_saved time t, Ok ())
  | Ok false => (d, t, Err ErrLostLeader)
  | Err e => (d, t, Err e)
  | Panic s => (d, t, Panic s)
  | OutOfFuel => (d, t, OutOfFuel)
  end.

(** Where the timestamps of a new leader begin. *)
Definition sync_next (last now : Z) : Z := if decide (SubTimeByWallClock now last < updateTimestampGuard) then last + updateTimestampGuard else now.
(** [SyncTimestamp] after [loadTimestamp]. *)
Definition sync_save (f : fault) d t (last now : Z) (newLease : option Z) : D * TimestampOracle * result unit :=
  let next := sync_next last now in
  let '(d, t, r) := saveTimestamp f d t (next + saveInterval t) in
  match r with Ok _ => (d, set_lease newLease (set_ts (Some (mkObject next 0)) t), r) | _ => (d, t, r) end.
(** Others may change etcd between the two requests. *)
Definition SyncTimestamp (f1 f2 : fault) (others : D → D) d t (now : Z) (newLease : option Z) : D * TimestampOracle * result unit :=
  match loadTimestamp f1 d t with
  | Ok last => sync_save f2 (others d) t last now newLease
  | Err e => (d, t, Err e)
  | Panic s => (d, t, Panic s)
  | OutOfFuel => (d, t, OutOfFuel)
  end.

(** The next physical time, if it is to change. *)
Definition update_next (prev : atomicObject) (now : Z) : option Z :=
  let jetLag := SubTimeByWallClock now (physical prev) in
  if decide (updateTimestampGuard < jetLag) then Some now
  else if decide (maxLogical / 2 < logical prev) then Some (physical prev + Millisecond)
  else None.
(** Whether the window has to be saved before the time is moved to [next]. *)
Definition must_save t (next : Z) : Prop := SubTimeByWallClock (lastSavedTime t) next ≤ updateTimestampGuard.
#[global] Instance must_save_dec t next : Decision (must_save t next).
Proof. unfold must_save. apply _. Defined.
Definition UpdateTimestamp (f : fault) d t (now : Z) : D * TimestampOracle * result unit :=
  match ts t with
  | None => (d, t, Panic "nil pointer dereference")
  | Some prev =>
    match update_next prev now with
    | None => (d, t, Ok ())
    | Some next =>
      let '(d, t, r) := if decide (must_save t next) then saveTimestamp f d t (next + saveInterval t) else (d, t, Ok ()) in
      match r with Ok _ => (d, set_ts (Some (mkObject next 0)) t, r) | _ => (d, t, r) end
    end
  end.

(** [CompareAndSwapPointer] finds [prev] when nothing else stores [ts]. *)
Definition ResetUserTimestamp (f : fault) d t (now tso : Z) : D * TimestampOracle * result unit :=
  if lease_expired now (lease t) then (d, t, Err ErrLeaseExpired)
  else
    let next := (ParseTS tso).1 + Millisecond in
    match ts t with
    | None => (d, t, Panic "nil pointer dereference")
    | Some prev =>
      if decide (SubTimeByWallClock next (physical prev) ≤ 3 * updateTimestampGuard) then (d, t, Err ErrTooSmall)
      else if decide (maxResetTsGap t ≤ SubTimeByWallClock next (physical prev)) then (d, t, Err ErrTooLarge)
      else
        let '(d, t, r) := saveTimestamp f d t (next + saveInterval t) in
        match r with Ok _ => (d, set_ts (Some (mkObject next 0)) t, r) | _ => (d, t, r) end
    end.
End Tso.

Definition ResetTimestamp (t : TimestampOracle) : TimestampOracle := set_ts (Some (mkObject ZeroTime 0)) t.

(** A timestamp: milliseconds and the last of [count] logical times. *)
Record Timestamp := mkTimestamp { Physical : Z; Logical : Z }.
(** The milliseconds of a physical time. *)
Definition millis (time : Z) : Z := Z.quot (UnixNano time) Millisecond.
(** One attempt: the object after [atomic.AddInt64], and the answer; [None]: retry. *)
Definition get_attempt (o : atomicObject) (expired : bool) (count : Z) : atomicObject * option (result Timestamp) :=
  if decide (physical o = ZeroTime) then (o, None)
  else
    let l := i64 (logical o + count) in
    (mkObject (physical o) l,
     if decide (maxLogical ≤ l) then None
     else if expired then Some (Err ErrLeaseExpired)
     else Some (Ok (mkTimestamp (millis (physical o)) l))).
(** Others may change the oracle while the loop sleeps; [nows] are the times the
    lease is checked at. *)
Fixpoint GetRespTS_loop (retry : nat) (others : nat → TimestampOracle → TimestampOracle) (nows : nat → Z) (t : TimestampOracle) (count : Z) : TimestampOracle * result Timestamp :=
  match retry with
  | O => (t, Err ErrCannotGet)
  | S retry =>
    match ts t with
    | None => (t, Panic "nil pointer dereference")
    | Some current =>
      let '(current, r) := get_attempt current (lease_expired (nows retry) (lease t)) count in
      let t := set_ts (Some current) t in
      match r with Some r => (t, r) | None => GetRespTS_loop retry others nows (others retry t) count end
    end
  end.
Definition GetRespTS (others : nat → TimestampOracle → TimestampOracle) (nows : nat → Z) (t : TimestampOracle) (count : Z) : TimestampOracle * result Timestamp :=
  if decide (count = 0) then (t, Err ErrCountZero) else GetRespTS_loop maxRetryCount others nows t count.

(** ** Ids *)

Definition allocStep : Z := 1000.
Record AllocatorImpl := mkAllocator { base_ : Z; end_ : Z; a_rootPath : bytes; a_member : bytes }.
Definition NewAllocatorImpl (rootPath member : bytes) : AllocatorImpl := mkAllocator 0 0 rootPath member.
Definition getAllocIDPath (a : AllocatorImpl) : bytes := path_join (a_rootPath a) alloc_id_name.

Section Alloc.
Context {D : Type} `{!Etcd D}.
Implicit Types (d : D) (a : AllocatorImpl).
(** [generate]: the read, and the transaction on what was read. *)
Definition generate_read (f : fault) d a : result (option bytes) := match f with Fine => Ok (etcd_get d (getAllocIDPath a)) | _ => Err ErrEtcd end.
Definition generate_txn (f : fault) d a (value : option bytes) : D * result Z :=
  let key := getAllocIDPath a in
  match (match value with None => Ok (CmpAbsent key, 0) | Some v => end_ ← BytesToUint64 v; Ok (CmpValue key v, end_) end) with
  | Ok (cmp, old) =>
    let new := u64 (old + allocStep) in
    let '(d, r) := etcd_txn f d [cmp; leaderCmp (a_rootPath a) (a_member a)] (OpPut key (Uint64ToBytes new)) in
    (d, ok ← r; if (ok : bool) then Ok new else Err ErrNotLeader)
  | Err e => (d, Err e)
  | Panic s => (d, Panic s)
  | OutOfFuel => (d, OutOfFuel)
  end.
Definition generate (f1 f2 : fault) (others : D → D) d a : D * result Z :=
  match generate_read f1 d a with
  | Ok value => generate_txn f2 (others d) a value
  | Err e => (d, Err e)
  | Panic s => (d, Panic s)
  | OutOfFuel => (d, OutOfFuel)
  end.
(** What [Alloc] does with a new range, and the id it returns. *)
Definition take_range a (e : Z) : AllocatorImpl := mkAllocator (u64 (e - allocStep)) e (a_rootPath a) (a_member a).
Definition take_id a : AllocatorImpl * Z := let b := u64 (base_ a + 1) in (mkAllocator b (end_ a) (a_rootPath a) (a_member a), b).
Definition Alloc (f1 f2 : fault) (others : D → D) d a : D * AllocatorImpl * result Z :=
  if decide (base_ a = end_ a) then
    match generate f1 f2 others d a with
    | (d, Ok e) => let '(a, id) := take_id (take_range a e) in (d, a, Ok id)
    | (d, Err e) => (d, a, Err e)
    | (d, Panic s) => (d, a, Panic s)
    | (d, OutOfFuel) => (d, a, OutOfFuel)
    end
  else let '(a, id) := take_id a in (d, a, Ok id).
End Alloc.
