(* ===== verification/TsoSystem.v ===== *)
(** The schedulers of a cluster: every server runs the leader loop of
    scheduler/server/server.go, answers timestamp requests and allocates ids; they
    share etcd.

    An object that [ts] pointed to may still be used by a request that loaded the
    pointer before it was replaced, so a server keeps the objects it published and
    [ts] is the last of them.  A request to etcd is one action; it may fail, applied
    or not.  The leader key disappears when its lease ends, at any time.  [act] runs
    one action and is [None] where it is not enabled; the clocks and the times saved
    stay between 1970 and 2043 ([era]), where the differences of times do not wrap. *)

From S2P Require Import Prelude Tso.

Definition era (t : Z) : Prop := 0 ≤ t < 2 ^ 61.
#[export] Instance era_dec t : Decision (era t).
Proof. unfold era. apply _. Defined.

(** Where [campaignLeader] is. *)
Inductive phase := Idle | Campaigned | Loaded (last : Z) | Serving.
#[export] Instance phase_eq_dec : EqDecision phase.
Proof. solve_decision. Defined.

Record server := mkServer {
  n_tso : TimestampOracle;
  n_objects : list atomicObject;
  n_phase : phase;
  n_alloc : AllocatorImpl;
  n_pending : option (option bytes)
}.
#[export] Instance atomicObject_eq_dec : EqDecision atomicObject.
Proof. solve_decision. Defined.
(** The oracle as its methods see it, and after one of them. *)
Definition oracle (x : server) : TimestampOracle := set_ts (last (n_objects x)) (n_tso x).
Definition store_ts (objects : list atomicObject) (o : option atomicObject) : list atomicObject :=
  if decide (o = last objects) then objects else objects ++ option_list o.
Definition put_oracle (t : TimestampOracle) (p : phase) (x : server) : server :=
  mkServer t (store_ts (n_objects x) (ts t)) p (n_alloc x) (n_pending x).
Definition set_phase (p : phase) (x : server) : server := mkServer (n_tso x) (n_objects x) p (n_alloc x) (n_pending x).
Definition set_objects (l : list atomicObject) (x : server) : server := mkServer (n_tso x) l (n_phase x) (n_alloc x) (n_pending x).
Definition set_alloc (a : AllocatorImpl) (p : option (option bytes)) (x : server) : server := mkServer (n_tso x) (n_objects x) (n_phase x) a p.

(** The deferred [ResetTimestamp] of a leader that steps down. *)
Definition step_down (t : TimestampOracle) (x : server) : server := put_oracle (ResetTimestamp t) Idle x.
Definition start_server (root value : bytes) (interval gap : Z) : server :=
  mkServer (NewTimestampOracle root value interval gap) [] Idle (NewAllocatorImpl root value) None.

(** An answer to [GetRespTS]: the logical times from [a_logical - a_count + 1] to
    [a_logical] of a millisecond. *)
Record answer := mkAnswer { a_physical : Z; a_logical : Z; a_count : Z }.
Record system (D : Type) := mkSystem {
  db : D;
  servers : list server;
  answers : list answer;
  ids : list Z;
  last_synced : option nat
}.
Arguments mkSystem {D}.
Arguments db {D}.
Arguments servers {D}.
Arguments answers {D}.
Arguments ids {D}.
Arguments last_synced {D}.

Inductive action :=
  | Campaign (n : nat) (f : fault)
  | DeleteLeader (n : nat) (f : fault)
  | Expire
  | Foreign (cs : list Cmp) (o : Op)
  | SyncLoad (n : nat) (f : fault)
  | SyncSave (n : nat) (f : fault) (now : Z) (newLease : option Z)
  | Update (n : nat) (f : fault) (now : Z)
  | StepDown (n : nat)
  | Ask (n k : nat) (expired : bool) (count : Z)
  | AllocRead (n : nat) (f : fault)
  | AllocTxn (n : nat) (f : fault)
  | AllocLocal (n : nat)
  | Crash (n : nat).

Definition op_key (o : Op) : bytes := match o with OpPut k _ | OpDelete k => k end.

Section System.
Context {D : Type} `{!Etcd D}.
Variables (root : bytes) (interval gap : Z).
Implicit Types (s : system D) (x : server).

Definition timestamp_path : bytes := path_join root timestamp_name.
Definition alloc_id_path : bytes := path_join root alloc_id_name.

Definition with_server (n : nat) (x : server) (d : D) s : system D := mkSystem d (<[n := x]> (servers s)) (answers s) (ids s) (last_synced s).

Definition act_campaign n f s : option (system D) :=
  x ← servers s !! n;
  guard (n_phase x = Idle);;
  let '(d, r) := CampaignLeader f (db s) root (member (n_tso x)) in
  Some (with_server n (set_phase (match r with Ok _ => Campaigned | _ => Idle end) x) d s).
Definition act_delete n f s : option (system D) :=
  x ← servers s !! n;
  guard (n_phase x = Idle);;
  let '(d, _) := deleteLeaderKey f (db s) root (member (n_tso x)) in
  Some (with_server n x d s).
Definition act_commit cs o s : system D := mkSystem (etcd_commit (db s) cs o).1 (servers s) (answers s) (ids s) (last_synced s).
Definition act_sync_load n f s : option (system D) :=
  x ← servers s !! n;
  guard (n_phase x = Campaigned);;
  Some (with_server n (set_phase (match loadTimestamp f (db s) (oracle x) with Ok last => Loaded last | _ => Idle end) x) (db s) s).
Definition act_sync_save n f now newLease s : option (system D) :=
  x ← servers s !! n;
  match n_phase x with
  | Loaded last =>
    guard (era now ∧ era (sync_next last now + saveInterval (n_tso x)));;
    let '(d, t, r) := sync_save f (db s) (oracle x) last now newLease in
    Some (match r with
          | Ok _ => let s := with_server n (put_oracle t Serving x) d s in mkSystem (db s) (servers s) (answers s) (ids s) (Some n)
          | _ => with_server n (put_oracle t Idle x) d s
          end)
  | _ => None
  end.
Definition next_in_era (prev : atomicObject) (now save : Z) : Prop := match update_next prev now with Some next => era (next + save) | None => True end.
#[global] Instance next_in_era_dec prev now save : Decision (next_in_era prev now save).
Proof. unfold next_in_era. destruct (update_next _ _); apply _. Defined.
Definition act_update n f now s : option (system D) :=
  x ← servers s !! n;
  guard (n_phase x = Serving ∧ era now);;
  prev ← last (n_objects x);
  guard (next_in_era prev now (saveInterval (n_tso x)));;
  let '(d, t, r) := UpdateTimestamp f (db s) (oracle x) now in
  Some (with_server n (match r with Ok _ => put_oracle t Serving x | _ => step_down t x end) d s).
Definition act_step_down n s : option (system D) :=
  x ← servers s !! n;
  guard (n_phase x = Serving);;
  Some (with_server n (step_down (oracle x) x) (db s) s).
(** One attempt of [GetRespTS] on the object it loaded. *)
Definition act_ask n k expired count s : option (system D) :=
  x ← servers s !! n;
  o ← n_objects x !! k;
  guard (0 < count < 2 ^ 32 ∧ logical o + count < 2 ^ 63);;
  let '(o', r) := get_attempt o expired count in
  let s := with_server n (set_objects (<[k := o']> (n_objects x)) x) (db s) s in
  Some (mkSystem (db s) (servers s) (answers s ++ match r with Some (Ok a) => [mkAnswer (Physical a) (Logical a) count] | _ => [] end) (ids s) (last_synced s)).
Definition act_alloc_read n f s : option (system D) :=
  x ← servers s !! n;
  guard (n_pending x = None ∧ base_ (n_alloc x) = end_ (n_alloc x));;
  Some (with_server n (set_alloc (n_alloc x) (match generate_read f (db s) (n_alloc x) with Ok v => Some v | _ => None end) x) (db s) s).
Definition give_id n (d : D) a x s : system D :=
  let '(a, id) := take_id a in
  let s := with_server n (set_alloc a None x) d s in
  mkSystem (db s) (servers s) (answers s) (ids s ++ [id]) (last_synced s).
(** The range must fit 64 bits. *)
Definition fits (value : option bytes) : bool :=
  match value with None => true | Some v => match BytesToUint64 v with Ok e => bool_decide (e + allocStep < two64) | _ => true end end.
Definition act_alloc_txn n f s : option (system D) :=
  x ← servers s !! n;
  value ← n_pending x;
  guard (fits value = true);;
  let '(d, r) := generate_txn f (db s) (n_alloc x) value in
  Some (match r with Ok e => give_id n d (take_range (n_alloc x) e) x s | _ => with_server n (set_alloc (n_alloc x) None x) d s end).
Definition act_alloc_local n s : option (system D) :=
  x ← servers s !! n;
  guard (n_pending x = None ∧ base_ (n_alloc x) ≠ end_ (n_alloc x));;
  Some (give_id n (db s) (n_alloc x) x s).
Definition act_crash n s : option (system D) :=
  x ← servers s !! n;
  Some (with_server n (start_server root (member (n_tso x)) interval gap) (db s) s).

Definition act (a : action) s : option (system D) :=
  match a with
  | Campaign n f => act_campaign n f s
  | DeleteLeader n f => act_delete n f s
  | Expire => Some (act_commit [] (OpDelete (leader_path root)) s)
  | Foreign cs o => guard (op_key o ∉ [leader_path root; timestamp_path; alloc_id_path]);; Some (act_commit cs o s)
  | SyncLoad n f => act_sync_load n f s
  | SyncSave n f now l => act_sync_save n f now l s
  | Update n f now => act_update n f now s
  | StepDown n => act_step_down n s
  | Ask n k expired count => act_ask n k expired count s
  | AllocRead n f => act_alloc_read n f s
  | AllocTxn n f => act_alloc_txn n f s
  | AllocLocal n => act_alloc_local n s
  | Crash n => act_crash n s
  end.
Fixpoint run (l : list action) s : option (system D) := match l with [] => Some s | a :: l => act a s ≫= run l end.

Definition initial (d : D) (values : list bytes) : system D := mkSystem d ((λ v, start_server root v interval gap) <$> values) [] [] None.
End System.
