(* ===== verification/TsoSpec.v ===== *)
(** Lemmas on the timestamp oracle: what a request to etcd leaves, the arithmetic of
    times, and the invariant of the cluster's timestamps. *)

From S2P Require Import Prelude Tso TsoSystem.

(** ** Times *)

Lemma era_i64 t : era t → i64 t = t.
Proof. intros [? ?]. apply i64_small. lia. Qed.
Lemma i64_minus z : - 2 ^ 63 ≤ z < 2 ^ 63 → i64 z = z.
Proof.
  intros ?. unfold i64, u64, two64. destruct (decide (0 ≤ z)).
  - rewrite Z.mod_small; [|lia]. case_decide; lia.
  - rewrite -(Z_mod_plus_full z 1) Z.mod_small; [|lia]. case_decide; lia.
Qed.
Lemma sub_era a b : era a → era b → SubTimeByWallClock a b = a - b.
Proof. intros Ha Hb. unfold SubTimeByWallClock, UnixNano. rewrite (era_i64 a) // (era_i64 b) //. apply i64_minus. unfold era in *. lia. Qed.
Lemma sub_ZeroTime now : era now → updateTimestampGuard ≤ SubTimeByWallClock now ZeroTime.
Proof.
  intros Hn. unfold SubTimeByWallClock, UnixNano. rewrite (era_i64 now) //.
  replace (i64 ZeroTime) with (-6795364578871345152) by (by vm_compute). rewrite i64_minus; unfold era, updateTimestampGuard, Millisecond in *; lia.
Qed.
(** What is saved is read back. *)
Lemma ParseTimestamp_saved t : era t → ParseTimestamp (Uint64ToBytes (UnixNano t)) = Ok t.
Proof.
  intros Ht. unfold ParseTimestamp, BytesToUint64, Uint64ToBytes, UnixNano. destruct (decide _) as [_|[]]; [|apply length_PutUint64].
  rewrite -(app_nil_r (PutUint64 _)) Uint64_PutUint64; [|apply u64_range].
  cbn [mbind outcome_bind]. rewrite (era_i64 t) // u64_small; [|unfold is_u64, two64, era in *; lia]. by rewrite era_i64.
Qed.
Lemma Uint64ToBytes_inj a b : is_u64 a → is_u64 b → Uint64ToBytes a = Uint64ToBytes b → a = b.
Proof.
  intros Ha Hb E. unfold Uint64ToBytes in E. rewrite !u64_small // in E.
  pose proof (Uint64_PutUint64 (E:=alloc_error) a [] Ha) as A. rewrite E Uint64_PutUint64 // in A. congruence.
Qed.
Lemma millis_gap p q : era p → era q → p + Millisecond ≤ q → millis p < millis q.
Proof.
  intros Hp Hq H. unfold millis, UnixNano, Millisecond, era in *. rewrite !i64_small; [|lia|lia].
  rewrite !Z.quot_div_nonneg; [|lia..].
  apply Z.lt_le_trans with (p / 1000000 + 1); [lia|]. apply Z.div_le_lower_bound; [lia|]. pose proof (Z.mul_div_le p 1000000). lia.
Qed.

Lemma sync_next_ok last now :
  era now → last = ZeroTime ∨ era last → (last = ZeroTime → sync_next last now = now) ∧ last + Millisecond ≤ sync_next last now.
Proof.
  intros Hn Hl. unfold sync_next. pose proof (sub_ZeroTime now Hn) as Hz.
  destruct Hl as [->|Hl].
  - case_decide; [lia|]. split; [done|]. unfold ZeroTime, Second, Millisecond, era in *. lia.
  - rewrite sub_era //. unfold updateTimestampGuard in *. case_decide; (split; [intros ->; unfold era, ZeroTime, Second in *; lia|lia]).
Qed.
Lemma update_next_ok prev now next : era (physical prev) → era now → update_next prev now = Some next → physical prev + Millisecond ≤ next.
Proof.
  intros Hp Hn. unfold update_next. rewrite sub_era // /updateTimestampGuard. repeat case_decide; intros [= <-]; lia.
Qed.
Lemma next_era n save : 0 ≤ n → 0 ≤ save → era (n + save) → era n.
Proof. unfold era. lia. Qed.

(** ** etcd *)

Section Views.
Context {D : Type} `{!Etcd D, !EtcdLaws D}.
Implicit Types d : D.

Definition after (o : Op) (k : bytes) (v : option bytes) : option bytes :=
  match o with OpPut k' w => if decide (k = k') then Some w else v | OpDelete k' => if decide (k = k') then None else v end.
Lemma etcd_txn_ok f d cs o d' r : etcd_txn f d cs o = (d', r) →
  (r ≠ Ok true ∧ d' = d) ∨ (r ≠ Ok false ∧ forallb (cmp_holds d) cs = true ∧ ∀ k, etcd_get d' k = after o k (etcd_get d k)).
Proof.
  unfold etcd_txn. pose proof (commit_ok d cs o) as Hok. pose proof (commit_failed d cs o) as Hf. pose proof (commit_get d cs o) as Hg.
  destruct (etcd_commit d cs o) as [d1 ok] eqn:E. cbn in *. destruct (forallb (cmp_holds d) cs) eqn:Hcs.
  - destruct f; intros [= <- <-]; [right|left|right]; subst ok; split_and?; try done; intros k; by apply Hg.
  - rewrite Hf //. destruct f; intros [= <- <-]; left; subst ok; done.
Qed.
Lemma commit_view d cs o k : etcd_get (etcd_commit d cs o).1 k = etcd_get d k ∨ etcd_get (etcd_commit d cs o).1 k = after o k (etcd_get d k).
Proof.
  destruct (forallb (cmp_holds d) cs) eqn:Hcs; [right; by apply commit_get|left; by rewrite commit_failed].
Qed.
Lemma after_other o k v : op_key o ≠ k → after o k v = v.
Proof. destruct o; cbn; intros; case_decide; congruence. Qed.
Lemma leaderCmp_holds root v d : cmp_holds d (leaderCmp root v) = true ↔ etcd_get d (leader_path root) = Some v.
Proof. cbn. apply bool_decide_eq_true. Qed.

(** [saveTimestamp] changes the saved time only under the leader key. *)
Lemma saveTimestamp_ok f d t time d' t' r : saveTimestamp f d t time = (d', t', r) →
  t' = (match r with Ok _ => set_saved time t | _ => t end) ∧
  ((r ≠ Ok () ∧ d' = d) ∨
   (etcd_get d (leader_path (rootPath t)) = Some (member t) ∧ ∀ k, etcd_get d' k = after (OpPut (getTimestampPath t) (Uint64ToBytes (UnixNano time))) k (etcd_get d k))).
Proof.
  unfold saveTimestamp. destruct (etcd_txn _ _ _ _) as [d1 r1] eqn:E. apply etcd_txn_ok in E.
  assert (Hl : forallb (cmp_holds d) [leaderCmp (rootPath t) (member t)] = true → etcd_get d (leader_path (rootPath t)) = Some (member t)).
  { intros [H _]%andb_true_iff. by apply leaderCmp_holds in H. }
  destruct r1 as [[]| | |]; intros [= <- <- <-]; (split; [done|]);
    destruct E as [[Hr ->]|(Hr & H & Hk)]; try done; first [by left|right; by auto].
Qed.
Definition time_written (d d' : D) t (time : Z) : Prop :=
  etcd_get d (leader_path (rootPath t)) = Some (member t) ∧ ∀ k, etcd_get d' k = after (OpPut (getTimestampPath t) (Uint64ToBytes (UnixNano time))) k (etcd_get d k).
(** The three ways of [UpdateTimestamp]: nothing to do, inside the window, a new window. *)
Lemma UpdateTimestamp_ok f d t now prev d' t' r : ts t = Some prev → UpdateTimestamp f d t now = (d', t', r) →
  (update_next prev now = None ∧ d' = d ∧ t' = t ∧ r = Ok ()) ∨
  (∃ next, update_next prev now = Some next ∧
    ((¬ must_save t next ∧ d' = d ∧ t' = set_ts (Some (mkObject next 0)) t ∧ r = Ok ()) ∨
     (must_save t next ∧ r = Ok () ∧ t' = set_ts (Some (mkObject next 0)) (set_saved (next + saveInterval t) t) ∧ time_written d d' t (next + saveInterval t)) ∨
     (must_save t next ∧ r ≠ Ok () ∧ t' = t ∧ (d' = d ∨ time_written d d' t (next + saveInterval t))))).
Proof.
  intros Ht. unfold UpdateTimestamp. rewrite Ht. destruct (update_next prev now) as [next|]; [|intros [= <- <- <-]; by left].
  intros H. right. exists next. split; [done|]. destruct (decide (must_save t next)) as [Hs|Hs]; [|injection H as <- <- <-; by left]. right.
  destruct (saveTimestamp _ _ _ _) as [[d1 t1] r1] eqn:E. apply saveTimestamp_ok in E as [-> Hd].
  destruct r1 as [[]| | |]; injection H as <- <- <-; [left|right..].
  - split_and!; try done. all: by destruct Hd as [[? _]|[? ?]].
  - split_and!; try done. unfold time_written. naive_solver.
  - split_and!; try done. unfold time_written. naive_solver.
  - split_and!; try done. unfold time_written. naive_solver.
Qed.
(** The end of the ranges given out, as stored. *)
Definition end_is (value : option bytes) (e : Z) : Prop := match value with None => e = 0 | Some v => BytesToUint64 v = Ok e end.
Lemma generate_txn_ok f d a value d' r : generate_txn f d a value = (d', r) →
  (d' = d ∧ ∀ e, r ≠ Ok e) ∨
  (∃ old, end_is value old ∧ etcd_get d (getAllocIDPath a) = value ∧
     (∀ k, etcd_get d' k = after (OpPut (getAllocIDPath a) (Uint64ToBytes (u64 (old + allocStep)))) k (etcd_get d k)) ∧ ∀ e, r = Ok e → e = u64 (old + allocStep)).
Proof.
  unfold generate_txn. intros H.
  assert (Hc : ∀ cmp old, (∀ b, cmp_holds d cmp = b → b = true → etcd_get d (getAllocIDPath a) = value) → end_is value old →
     (let '(d1, r1) := etcd_txn f d [cmp; leaderCmp (a_rootPath a) (a_member a)] (OpPut (getAllocIDPath a) (Uint64ToBytes (u64 (old + allocStep)))) in
        (d1, ok ← r1; if (ok : bool) then Ok (u64 (old + allocStep)) else Err ErrNotLeader)) = (d', r) →
     (d' = d ∧ ∀ e, r ≠ Ok e) ∨ (∃ old, end_is value old ∧ etcd_get d (getAllocIDPath a) = value ∧
     (∀ k, etcd_get d' k = after (OpPut (getAllocIDPath a) (Uint64ToBytes (u64 (old + allocStep)))) k (etcd_get d k)) ∧ ∀ e, r = Ok e → e = u64 (old + allocStep))).
  { intros cmp old Hv He E. destruct (etcd_txn _ _ _ _) as [d1 r1] eqn:E1. injection E as <- <-. apply etcd_txn_ok in E1 as [[Hr ->]|(Hr & Hcs & Hk)].
    - left. split; [done|]. by destruct r1 as [[]| | |].
    - right. exists old. cbn in Hcs. apply andb_true_iff in Hcs as [Hcs _]. split_and!; [done|by eapply Hv|done|]. destruct r1 as [[]| | |]; intros e'; cbn; congruence. }
  destruct value as [v|]; cbn [mbind outcome_bind] in H.
  - destruct (BytesToUint64 v) as [old| | |] eqn:Ev; cbn [mbind outcome_bind] in H; [|injection H as <- <-; by left..].
    eapply Hc; [|exact Ev|exact H]. cbn. intros b <- Hb. by apply bool_decide_eq_true in Hb.
  - eapply Hc; [|done|exact H]. cbn. intros b <- Hb. by apply bool_decide_eq_true in Hb.
Qed.
End Views.

Lemma path_join_inj root a b : path_join root a = path_join root b → a = b.
Proof. unfold path_join. intros H%app_inv_head. congruence. Qed.
Lemma leader_not_timestamp root : leader_path root ≠ timestamp_path root.
Proof. intros H%path_join_inj. done. Qed.
Lemma leader_not_alloc root : leader_path root ≠ alloc_id_path root.
Proof. intros H%path_join_inj. done. Qed.
Lemma timestamp_not_alloc root : timestamp_path root ≠ alloc_id_path root.
Proof. intros H%path_join_inj. done. Qed.

Lemma last_store_ts l o : (o = None → l = []) → last (store_ts l o) = o.
Proof.
  intros H. unfold store_ts. case_decide as E; [done|]. destruct o; cbn; [by rewrite last_snoc|by rewrite H].
Qed.
