(* ===== verification/TsoInv.v ===== *)
(** The invariant of the cluster's timestamps, and that every action keeps it. *)

From S2P Require Import Prelude Tso TsoSystem TsoSpec.

(** Two answers share no timestamp. *)
Definition apart (a b : answer) : Prop :=
  a_physical a ≠ a_physical b ∨ a_logical a ≤ a_logical b - a_count b ∨ a_logical b ≤ a_logical a - a_count a.
(** Every timestamp of [a] is before every timestamp of [b]. *)
Definition before (a b : answer) : Prop :=
  a_physical a < a_physical b ∨ (a_physical a = a_physical b ∧ a_logical a ≤ a_logical b - a_count b).
Definition answers_apart (l : list answer) : Prop := ∀ i j a b, l !! i = Some a → l !! j = Some b → i ≠ j → apart a b.

Lemma answers_apart_snoc l a : answers_apart l → (∀ b, b ∈ l → apart b a) → answers_apart (l ++ [a]).
Proof.
  intros Hl Ha i j b c Hb Hc Hij.
  apply lookup_app_Some in Hb as [Hb|[? Hb]]; apply lookup_app_Some in Hc as [Hc|[? Hc]].
  - by eapply Hl.
  - apply list_lookup_singleton_Some in Hc as [? <-]. apply Ha. by eapply list_elem_of_lookup_2.
  - apply list_lookup_singleton_Some in Hb as [? <-]. specialize (Ha c ltac:(by eapply list_elem_of_lookup_2)). unfold apart in *. naive_solver.
  - apply list_lookup_singleton_Some in Hb as [? _]. apply list_lookup_singleton_Some in Hc as [? _]. lia.
Qed.
Lemma before_apart a b : before a b → apart a b.
Proof. unfold before, apart. lia. Qed.

Section Inv.
Context {D : Type} `{!Etcd D, !EtcdLaws D}.
Variables (root : bytes) (interval gap : Z) (vals : list bytes).
Hypotheses (Hint : Millisecond ≤ interval) (Hvals : NoDup vals).
Implicit Types (s : system D) (x y : server) (pub : list Z) (z p : Z).

(** The saved time; none is the zero time. *)
Definition saved_is (d : D) z : Prop :=
  match etcd_get d (timestamp_path root) with None => z = ZeroTime | Some b => era z ∧ b = Uint64ToBytes (UnixNano z) end.
Definition leads (d : D) x : Prop := etcd_get d (leader_path root) = Some (member (n_tso x)).
Definition saved x : Z := lastSavedTime (n_tso x).

Record server_id (n : nat) x : Prop := {
  id_member : vals !! n = Some (member (n_tso x));
  id_root : rootPath (n_tso x) = root;
  id_interval : saveInterval (n_tso x) = interval
}.
(** A serving leader: its physical time is inside its window, and no other time is. *)
Definition on_ok z pub x c : Prop :=
  last (n_objects x) = Some c ∧ physical c ∈ pub ∧ physical c < saved x ≤ z ∧ ∀ p, p ∈ pub → p ≤ physical c ∨ saved x + Millisecond ≤ p.
Definition phase_ok s z pub (n : nat) x : Prop :=
  match n_phase x with
  | Serving => (∃ c, on_ok z pub x c ∧ (last_synced s = Some n → ∀ p, p ∈ pub → p ≤ physical c)) ∧ (leads (db s) x → saved x = z ∧ last_synced s = Some n)
  | q => (∀ c, last (n_objects x) = Some c → physical c = ZeroTime) ∧ (leads (db s) x → ∀ l, q = Loaded l → l = z)
  end.
Definition object_at s (n k : nat) (o : atomicObject) : Prop := ∃ x, servers s !! n = Some x ∧ n_objects x !! k = Some o ∧ physical o ≠ ZeroTime.
Definition answer_ok s pub (a : answer) : Prop :=
  0 < a_count a ∧ ∃ p, p ∈ pub ∧ a_physical a = millis p ∧ ∀ n k o, object_at s n k o → physical o = p → a_logical a ≤ logical o.

Record tso_inv s pub z : Prop := {
  ti_saved : saved_is (db s) z;
  ti_pub p : p ∈ pub → era p ∧ p < z;
  ti_gap p q : p ∈ pub → q ∈ pub → p ≠ q → Millisecond ≤ Z.abs (p - q);
  ti_id n x : servers s !! n = Some x → server_id n x;
  ti_phase n x : servers s !! n = Some x → phase_ok s z pub n x;
  ti_obj n k o : object_at s n k o → physical o ∈ pub ∧ 0 ≤ logical o;
  ti_inj n k o n' k' o' : object_at s n k o → object_at s n' k' o' → physical o = physical o' → n = n' ∧ k = k';
  ti_ans a : a ∈ answers s → answer_ok s pub a;
  ti_apart : answers_apart (answers s)
}.

Lemma saved_is_era d z : saved_is d z → z = ZeroTime ∨ era z.
Proof. unfold saved_is. destruct (etcd_get _ _); naive_solver. Qed.
Lemma saved_is_write d d' z : era z → (∀ k, etcd_get d' k = after (OpPut (timestamp_path root) (Uint64ToBytes (UnixNano z))) k (etcd_get d k)) → saved_is d' z.
Proof. intros Hz Hk. unfold saved_is. rewrite Hk /=. destruct (decide _); done. Qed.
Lemma saved_is_same d d' z : etcd_get d' (timestamp_path root) = etcd_get d (timestamp_path root) → saved_is d z → saved_is d' z.
Proof. unfold saved_is. by intros ->. Qed.
Lemma loadTimestamp_ok f d t z last : rootPath t = root → saved_is d z → loadTimestamp f d t = Ok last → last = z.
Proof.
  intros Hr Hs. unfold loadTimestamp. destruct f; [|done..]. unfold getTimestampPath, saved_is in *. rewrite Hr.
  fold (timestamp_path root). destruct (etcd_get _ _) as [b|]; [|congruence]. destruct Hs as [Hz ->].
  destruct (Uint64ToBytes (UnixNano z)) as [|b0 bs] eqn:E.
  - pose proof (length_PutUint64 (u64 (UnixNano z))) as L. unfold Uint64ToBytes in E. by rewrite E in L.
  - rewrite -E ParseTimestamp_saved //. congruence.
Qed.

Lemma same_leader s pub z n m x y : tso_inv s pub z → servers s !! n = Some x → servers s !! m = Some y → leads (db s) x → leads (db s) y → n = m.
Proof.
  intros HI Hx Hy Lx Ly. destruct (ti_id _ _ _ HI n x Hx) as [Ix _ _]. destruct (ti_id _ _ _ HI m y Hy) as [Iy _ _].
  unfold leads in *. eapply NoDup_lookup; [exact Hvals|exact Ix|]. congruence.
Qed.

Lemma same_fields t t' : set_ts None t = set_ts None t' →
  member t = member t' ∧ rootPath t = rootPath t' ∧ saveInterval t = saveInterval t' ∧ lastSavedTime t = lastSavedTime t'.
Proof. destruct t, t'. cbn. intros [= -> -> -> -> -> ->]. done. Qed.

(** Actions that only move phases, or change other keys. *)
Lemma quiet_ok s s' pub z : tso_inv s pub z → saved_is (db s') z → answers s' = answers s → last_synced s' = last_synced s →
  (∀ n x', servers s' !! n = Some x' → ∃ x, servers s !! n = Some x ∧ set_ts None (n_tso x') = set_ts None (n_tso x) ∧ n_objects x' = n_objects x ∧
     (n_phase x' = Serving ↔ n_phase x = Serving) ∧ (leads (db s') x' → (n_phase x' = Serving → leads (db s) x) ∧ ∀ l, n_phase x' = Loaded l → l = z)) →
  tso_inv s' pub z.
Proof.
  intros HI Hs Ha Hl Hx.
  assert (Ho : ∀ n k o, object_at s' n k o → object_at s n k o).
  { intros n k o (x' & Hx' & Hk & Hz). destruct (Hx n x' Hx') as (x & ? & _ & E & _). exists x. by rewrite -E. }
  destruct HI as [_ Hp Hg Hi Hph Hob Hin Han Hap]. split; try done.
  - intros n x' Hx'. destruct (Hx n x' Hx') as (x & Hxx & E & _). destruct (Hi n x Hxx). destruct (same_fields _ _ E) as (Em & Er & Ei & _). split; congruence.
  - intros n x' Hx'. destruct (Hx n x' Hx') as (x & Hxx & Et & Eo & Ep & El). specialize (Hph n x Hxx).
    destruct (same_fields _ _ Et) as (_ & _ & _ & Es).
    assert (E : ∀ c, on_ok z pub x c → on_ok z pub x' c) by (intros c; unfold on_ok, saved; by rewrite Es Eo).
    unfold phase_ok in *. rewrite Hl Eo.
    destruct (decide (n_phase x' = Serving)) as [S|S].
    + rewrite S. apply Ep in S as S0. rewrite S0 in Hph. unfold saved. rewrite Es. destruct Hph as [(c & Hc & Hm) Hld].
      split; [exists c; by auto|]. intros L. apply Hld. by apply El.
    + assert (S0 : n_phase x ≠ Serving) by (by rewrite -Ep). destruct (n_phase x), (n_phase x'); try done;
        destruct Hph as [Hc _]; (split; [done|]); intros L l [= <-]; by eapply El.
  - intros n k o H%Ho. by apply Hob in H.
  - intros n k o n' k' o' H%Ho H'%Ho. by eapply Hin.
  - rewrite Ha. intros a (Hc & p & Hpp & Hm & Hlo)%Han. split; [done|]. exists p. split_and!; [done..|]. intros n k o H%Ho. by eapply Hlo.
  - by rewrite Ha.
Qed.
Lemma with_server_lookup s n x' d m y : servers (with_server n x' d s) !! m = Some y → (m = n ∧ y = x') ∨ (m ≠ n ∧ servers s !! m = Some y).
Proof. cbn. intros [(-> & -> & _)|[? ?]]%list_lookup_insert_Some; auto. Qed.
Lemma phase_ok_mono s s' z z' pub n x :
  phase_ok s z pub n x → last_synced s' = last_synced s → z ≤ z' → (leads (db s') x → leads (db s) x ∧ z' = z) → phase_ok s' z' pub n x.
Proof.
  unfold phase_ok. intros Hp Hl Hz Hle. destruct (n_phase x).
  1-3: destruct Hp as [Hc Hl0]; (split; [done|]); intros [L ->]%Hle; by apply Hl0.
  destruct Hp as [(c & (? & ? & ? & ?) & Hm) Hl0]. rewrite Hl. split.
  - exists c. split; [|done]. split_and!; try done; lia.
  - intros [L ->]%Hle. auto.
Qed.

(** A server stops serving: its oracle is reset, or it restarts. *)
Lemma off_ok s pub z z' n x x' d' : tso_inv s pub z → servers s !! n = Some x → server_id n x' → n_phase x' = Idle →
  (∀ c, last (n_objects x') = Some c → physical c = ZeroTime) →
  (∀ k o, n_objects x' !! k = Some o → physical o ≠ ZeroTime → n_objects x !! k = Some o) →
  etcd_get d' (leader_path root) = etcd_get (db s) (leader_path root) → saved_is d' z' → z' = z ∨ leads (db s) x ∧ z ≤ z' →
  tso_inv (with_server n x' d' s) pub z'.
Proof.
  intros HI Hx Hid Hph Hlast Hobj Hlead Hs Hz. assert (Hle : z ≤ z') by lia.
  assert (Ho : ∀ m k o, object_at (with_server n x' d' s) m k o → object_at s m k o).
  { intros m k o (y & Hy & Hk & Hnz). apply with_server_lookup in Hy as [[-> ->]|[? Hy]]; [|by exists y]. exists x. auto. }
  split; try done.
  - intros p Hp. destruct (ti_pub _ _ _ HI p Hp). split; [done|lia].
  - apply HI.
  - intros m y [[-> ->]|[? Hy]]%with_server_lookup; [done|by eapply ti_id].
  - intros m y [[-> ->]|[Hne Hy]]%with_server_lookup.
    + unfold phase_ok. rewrite Hph. split; [done|]. by intros _ l.
    + eapply phase_ok_mono; [by eapply ti_phase|done|done|]. unfold leads. cbn. rewrite Hlead. intros L. split; [done|].
      destruct Hz as [->|[Lx _]]; [done|]. destruct Hne. by eapply same_leader.
  - intros m k o H%Ho. by eapply ti_obj.
  - intros m k o m' k' o' H%Ho H'%Ho. by eapply ti_inj.
  - intros a (Hc & p & Hpp & Hm & Hlo)%(ti_ans _ _ _ HI). split; [done|]. exists p. split_and!; [done..|]. intros m k o H%Ho. by eapply Hlo.
  - apply HI.
Qed.

(** A leader publishes a new physical time [next], under the window [saved x']. *)
Lemma publish_ok s pub z z' n x x' d' next ls : tso_inv s pub z → servers s !! n = Some x → server_id n x' →
  n_phase x' = Serving → n_objects x' = n_objects x ++ [mkObject next 0] → era next → next < saved x' ≤ z' → z ≤ z' →
  etcd_get d' (leader_path root) = etcd_get (db s) (leader_path root) → saved_is d' z' → z' = z ∨ leads (db s) x →
  (∀ p, p ∈ pub → p + Millisecond ≤ next ∨ saved x' + Millisecond ≤ p) →
  (∀ m y c, m ≠ n → servers s !! m = Some y → n_phase y = Serving → last (n_objects y) = Some c →
     (next ≤ physical c ∨ saved y + Millisecond ≤ next) ∧ (ls = Some m → last_synced s = Some m ∧ next ≤ physical c) ∧ (leads (db s) y → ls = Some m)) →
  (ls = Some n → ∀ p, p ∈ pub → p ≤ next) → (leads (db s) x → saved x' = z' ∧ ls = Some n) → member (n_tso x') = member (n_tso x) →
  tso_inv (mkSystem d' (<[n := x']> (servers s)) (answers s) (ids s) ls) (next :: pub) z'.
Proof.
  intros HI Hx Hid Hph Hobj Hera Hnext Hz Hlead Hs Hzz Hgap Hother Hlast Hld Hmem.
  assert (Hin : next ∉ pub) by (intros Hp; destruct (Hgap next Hp); unfold Millisecond in *; lia).
  assert (Hlk : ∀ m y, (<[n := x']> (servers s)) !! m = Some y → (m = n ∧ y = x') ∨ (m ≠ n ∧ servers s !! m = Some y)) by (intros m y; apply (with_server_lookup s n x' d')).
  assert (Ho : ∀ m k o, object_at (mkSystem d' (<[n := x']> (servers s)) (answers s) (ids s) ls) m k o →
     object_at s m k o ∨ (m = n ∧ k = length (n_objects x) ∧ o = mkObject next 0)).
  { intros m k o (y & Hy & Hk & Hnz). apply Hlk in Hy as [[-> ->]|[? Hy]]; [|left; by exists y].
    rewrite Hobj in Hk. apply lookup_app_Some in Hk as [Hk|[? Hk]]; [left; by exists x|].
    apply list_lookup_singleton_Some in Hk as [? <-]. right. split_and!; [done|lia|done]. }
  assert (Hnew : ∀ m k o, object_at s m k o → physical o = next → False).
  { intros m k o Ho' <-. destruct Hin. by eapply ti_obj. }
  split; cbn.
  - done.
  - intros p [->|Hp]%elem_of_cons; [split; [done|lia]|]. destruct (ti_pub _ _ _ HI p Hp). split; [done|lia].
  - intros p q [->|Hp]%elem_of_cons [->|Hq]%elem_of_cons Hne; [done| | |by eapply ti_gap].
    + specialize (Hgap q Hq). lia.
    + specialize (Hgap p Hp). lia.
  - intros m y [[-> ->]|[? Hy]]%Hlk; [done|by eapply ti_id].
  - intros m y [[-> ->]|[Hne Hy]]%Hlk.
    + unfold phase_ok. rewrite Hph. split.
      * exists (mkObject next 0). split; [|intros H p [->|Hp]%elem_of_cons; [done|by apply Hlast]].
        split_and!; [by rewrite Hobj last_snoc|by left|cbn; lia..|]. intros p [->|Hp]%elem_of_cons; [by left|]. cbn. specialize (Hgap p Hp). unfold Millisecond in *. lia.
      * unfold leads. cbn. rewrite Hlead Hmem. exact Hld.
    + pose proof (ti_phase _ _ _ HI m y Hy) as Hp. unfold phase_ok in *. unfold leads. cbn. rewrite Hlead. destruct (n_phase y) eqn:Ey.
      1-3: destruct Hp as [Hc Hl0]; (split; [done|]); intros L l Hl; (destruct Hzz as [->|Lx]; [by eapply Hl0|destruct Hne; by eapply same_leader]).
      destruct Hp as [(c & (Hc & Hcp & Hcs & Hcw) & Hm) Hl0]. destruct (Hother m y c Hne Hy Ey Hc) as (Hw & Hls & Hlm). split.
      * exists c. split.
        -- split_and!; [done|by right|lia..|]. intros p [->|Hp]%elem_of_cons; [done|by apply Hcw].
        -- intros [? ?]%Hls p [->|Hp]%elem_of_cons; [done|by apply Hm].
      * intros L. split; [|by apply Hlm]. destruct Hzz as [->|Lx]; [by apply Hl0|destruct Hne; by eapply same_leader].
  - intros m k o [H|(-> & -> & ->)]%Ho; [|split; [by left|done]]. destruct (ti_obj _ _ _ HI m k o H). split; [by right|done].
  - intros m k o m' k' o' [H|(-> & -> & ->)]%Ho [H'|(-> & -> & ->)]%Ho; [by eapply ti_inj| | |done].
    + intros E. by destruct (Hnew m k o H).
    + intros E. by destruct (Hnew m' k' o' H').
  - intros a (Hc & p & Hpp & Hm & Hlo)%(ti_ans _ _ _ HI). split; [done|]. exists p. split_and!; [by right|done|].
    intros m k o [H|(-> & -> & ->)]%Ho E; [by eapply Hlo|]. destruct Hin. by rewrite -E in Hpp.
  - apply HI.
Qed.
(** What one attempt does to an object. *)
Definition attempted (o o' : atomicObject) (count : Z) (r : option (outcome alloc_error Timestamp)) : Prop :=
  physical o' = physical o ∧ logical o' = logical o + count ∧
  (r = Some (Ok (mkTimestamp (millis (physical o)) (logical o + count))) ∨ r = None ∨ r = Some (Err ErrLeaseExpired)).
Lemma get_attempt_ok o expired count o' r : 0 ≤ logical o → 0 < count → logical o + count < 2 ^ 63 → physical o ≠ ZeroTime →
  get_attempt o expired count = (o', r) → attempted o o' count r.
Proof.
  intros Hl Hc Hm Hz. unfold get_attempt. destruct (decide _) as [|_]; [done|]. rewrite i64_small; [|lia].
  unfold attempted. destruct (decide _); [intros [= <- <-]; auto|]. destruct expired; intros [= <- <-]; auto.
Qed.
Lemma pub_millis s pub z p q : tso_inv s pub z → p ∈ pub → q ∈ pub → millis p = millis q → p = q.
Proof.
  intros HI Hp Hq E. destruct (decide (p = q)) as [|Hne]; [done|]. pose proof (ti_gap _ _ _ HI p q Hp Hq Hne).
  destruct (ti_pub _ _ _ HI p Hp), (ti_pub _ _ _ HI q Hq).
  destruct (Z.lt_total p q) as [?|[?|?]]; [|done|].
  - pose proof (millis_gap p q ltac:(done) ltac:(done) ltac:(lia)). lia.
  - pose proof (millis_gap q p ltac:(done) ltac:(done) ltac:(lia)). lia.
Qed.
Lemma last_insert (l : list atomicObject) k o o' c : l !! k = Some o → last (<[k := o']> l) = Some c →
  last l = Some c ∨ (last l = Some o ∧ c = o').
Proof.
  rewrite !last_lookup length_insert. intros Hk. destruct (decide (k = pred (length l))) as [->|?].
  - rewrite list_lookup_insert_eq; [|by eapply lookup_lt_Some]. intros [= <-]. auto.
  - rewrite list_lookup_insert_ne //. auto.
Qed.
Lemma last_insert_some (l : list atomicObject) k o o' c : l !! k = Some o → physical o' = physical o → last l = Some c →
  ∃ c', last (<[k := o']> l) = Some c' ∧ physical c' = physical c.
Proof.
  rewrite !last_lookup length_insert. intros Hk Hp Hc. destruct (decide (k = pred (length l))) as [->|?].
  - exists o'. rewrite list_lookup_insert_eq; [|by eapply lookup_lt_Some]. split; [done|congruence].
  - exists c. by rewrite list_lookup_insert_ne.
Qed.

(** The timestamps of a new answer are after those given from the same object. *)
Lemma new_answer_apart s pub z n k o count a : tso_inv s pub z → object_at s n k o → a ∈ answers s →
  a_physical a = millis (physical o) → a_logical a ≤ logical o + count - count.
Proof.
  intros HI Ho Ha E. destruct (ti_ans _ _ _ HI a Ha) as (_ & p & Hp & Em & Hlo). destruct (ti_obj _ _ _ HI n k o Ho) as [Hpo _].
  assert (physical o = p) by (eapply pub_millis; [done..|congruence]). specialize (Hlo n k o Ho). lia.
Qed.

Lemma ask_phase_ok s s' z pub n x k o o' : phase_ok s z pub n x → n_objects x !! k = Some o → physical o' = physical o →
  db s' = db s → last_synced s' = last_synced s → phase_ok s' z pub n (set_objects (<[k := o']> (n_objects x)) x).
Proof.
  unfold phase_ok, leads, on_ok, saved. cbn. intros Hp Hk Ep -> ->. destruct (n_phase x).
  1-3: destruct Hp as [Hc Hl]; (split; [|done]); intros c [E|[E ->]]%(last_insert _ _ _ _ _ Hk); [by apply Hc|rewrite Ep; by apply Hc].
  destruct Hp as [(c & (Hc & H1 & H2 & H3) & Hm) Hl]. split; [|done].
  destruct (last_insert_some _ _ _ _ _ Hk Ep Hc) as (c' & Ec & Ec'). exists c'. rewrite Ec'. done.
Qed.

Lemma ask_ok s pub z n x k o o' count r : tso_inv s pub z → servers s !! n = Some x → n_objects x !! k = Some o → physical o ≠ ZeroTime →
  0 < count → attempted o o' count r →
  tso_inv (mkSystem (db s) (<[n := set_objects (<[k := o']> (n_objects x)) x]> (servers s))
    (answers s ++ match r with Some (Ok a) => [mkAnswer (Physical a) (Logical a) count] | _ => [] end) (ids s) (last_synced s)) pub z.
Proof.
  intros HI Hx Hk Hnz Hcount (Ep & El & Hr).
  assert (Hat : object_at s n k o) by (by exists x). destruct (ti_obj _ _ _ HI n k o Hat) as [Hpub Hlog].
  set (s' := mkSystem _ _ _ _ _).
  assert (Hlk : ∀ m y, servers s' !! m = Some y → (m = n ∧ y = set_objects (<[k := o']> (n_objects x)) x) ∨ (m ≠ n ∧ servers s !! m = Some y))
    by (intros m y; apply (with_server_lookup s n _ (db s))).
  assert (Ho : ∀ m k' o2, object_at s' m k' o2 → ∃ o1, object_at s m k' o1 ∧ physical o1 = physical o2 ∧ logical o1 ≤ logical o2 ∧ (m = n → k' = k → o2 = o')).
  { intros m k' o2 (y & Hy & Hk' & Hnz'). apply Hlk in Hy as [[-> ->]|[? Hy]]; [|exists o2; split_and!; [by exists y|done..]].
    cbn in Hk'. apply list_lookup_insert_Some in Hk' as [(-> & -> & _)|[? Hk']].
    - exists o. split_and!; [done|done|lia|done].
    - exists o2. split_and!; [by exists x|done..]. }
  assert (Hans : ∀ a, a ∈ answers s → answer_ok s' pub a).
  { intros a (Hc & p & Hpp & Hm & Hlo)%(ti_ans _ _ _ HI). split; [done|]. exists p. split_and!; [done..|].
    intros m k' o2 (o1 & H1 & E1 & E2 & _)%Ho E. specialize (Hlo m k' o1 H1). lia. }
  assert (Hans' : answer_ok s' pub (mkAnswer (millis (physical o)) (logical o + count) count)).
  { split; [done|]. exists (physical o). split_and!; [done..|]. intros m k' o2 (o1 & H1 & E1 & E2 & E3)%Ho E. cbn.
    destruct (ti_inj _ _ _ HI m k' o1 n k o H1 Hat) as [-> ->]; [congruence|]. rewrite E3 //. lia. }
  split; try apply HI.
  - intros m y [[-> ->]|[? Hy]]%Hlk; [|by eapply ti_id]. destruct (ti_id _ _ _ HI n x Hx). by split.
  - intros m y [[-> ->]|[? Hy]]%Hlk; [eapply ask_phase_ok; [by eapply ti_phase|done..]|].
    eapply phase_ok_mono; [by eapply ti_phase|done..|]. by intros L.
  - intros m k' o2 (o1 & H1 & E1 & E2 & _)%Ho. destruct (ti_obj _ _ _ HI m k' o1 H1). rewrite -E1. split; [done|lia].
  - intros m k1 o1 m' k2 o2 H1 H2 E. apply Ho in H1 as (o3 & H3 & E3 & _). apply Ho in H2 as (o4 & H4 & E4 & _). eapply ti_inj; [done..|congruence].
  - cbn. intros a [Ha|Ha]%elem_of_app; [by apply Hans|]. destruct Hr as [Hr|[Hr|Hr]]; rewrite Hr in Ha; [|by apply elem_of_nil in Ha..].
    by apply list_elem_of_singleton in Ha as ->.
  - cbn. destruct Hr as [Hr|[Hr|Hr]]; rewrite Hr; [|rewrite app_nil_r; apply HI..]. apply answers_apart_snoc; [apply HI|].
    intros b Hb. unfold apart. cbn. destruct (decide (a_physical b = millis (physical o))); [|by left]. right. left. by eapply new_answer_apart.
Qed.
Lemma loaded_is s pub z n x l : tso_inv s pub z → servers s !! n = Some x → leads (db s) x → n_phase x = Loaded l → l = z.
Proof. intros HI Hx L E. pose proof (ti_phase _ _ _ HI n x Hx) as Hp. unfold phase_ok in Hp. rewrite E in Hp. by eapply Hp. Qed.
Lemma quiet_server s pub z n x x' d' : tso_inv s pub z → servers s !! n = Some x → set_ts None (n_tso x') = set_ts None (n_tso x) → n_objects x' = n_objects x →
  (n_phase x' = Serving ↔ n_phase x = Serving) → saved_is d' z → (∀ m y, m ≠ n → servers s !! m = Some y → leads d' y → leads (db s) y) →
  (leads d' x' → (n_phase x' = Serving → leads (db s) x) ∧ ∀ l, n_phase x' = Loaded l → l = z) → tso_inv (with_server n x' d' s) pub z.
Proof.
  intros HI Hx Et Eo Ep Hs Hm Hl. eapply quiet_ok; [done..|]. intros m y [[-> ->]|[? Hy]]%with_server_lookup.
  - by exists x.
  - exists y. split_and!; try done. intros L. specialize (Hm m y ltac:(done) Hy L). split; [done|]. intros l. by eapply loaded_is.
Qed.
Lemma expire_ok s pub z cs : tso_inv s pub z → tso_inv (act_commit cs (OpDelete (leader_path root)) s) pub z.
Proof.
  intros HI. eapply quiet_ok; [done| |done..|].
  - eapply saved_is_same, HI. destruct (commit_view (db s) cs (OpDelete (leader_path root)) (timestamp_path root)) as [E|E]; [done|].
    cbn [act_commit db]. rewrite E after_other //. apply leader_not_timestamp.
  - intros n x Hx. exists x. split_and!; try done. intros L. assert (leads (db s) x); [|split; [done|intros l; by eapply loaded_is]].
    unfold leads in *. destruct (commit_view (db s) cs (OpDelete (leader_path root)) (leader_path root)) as [E|E]; cbn [act_commit db] in L; rewrite E in L; [done|].
    cbn in L. by destruct (decide _).
Qed.
Lemma foreign_ok s pub z cs o : tso_inv s pub z → op_key o ≠ timestamp_path root → op_key o ≠ leader_path root → tso_inv (act_commit cs o s) pub z.
Proof.
  intros HI Ht Hl. assert (E : ∀ k, op_key o ≠ k → etcd_get (etcd_commit (db s) cs o).1 k = etcd_get (db s) k).
  { intros k Hk. destruct (commit_view (db s) cs o k) as [E|E]; [done|]. by rewrite E after_other. }
  eapply quiet_ok; [done| |done..|].
  - eapply saved_is_same, HI. by apply E.
  - intros n x Hx. exists x. split_and!; try done. unfold leads. cbn [act_commit db]. rewrite E //. intros L. split; [done|]. intros l. by eapply loaded_is.
Qed.

Lemma act_campaign_ok n f s s' pub z : tso_inv s pub z → act_campaign root n f s = Some s' → tso_inv s' pub z.
Proof.
  intros HI. unfold act_campaign. intros (x & Hx & H)%bind_Some. case_guard as Hp; [|done]. cbn in H.
  unfold CampaignLeader in H. destruct (etcd_txn _ _ _ _) as [d r] eqn:E. injection H as <-. apply etcd_txn_ok in E.
  destruct E as [[Hr ->]|(Hr & Hc & Hk)].
  - assert (tso_inv (with_server n (set_phase Idle x) (db s) s) pub z).
    { eapply quiet_server; [done..|cbn; by rewrite Hp|apply HI|done|done]. }
    destruct r as [[]| | |]; done.
  - eapply quiet_server; [done..| | | |].
    + rewrite Hp. cbn. destruct r as [[]| | |]; done.
    + eapply saved_is_same, HI. rewrite Hk after_other //. apply leader_not_timestamp.
    + intros m y Hm Hy L. unfold leads in L. rewrite Hk /= in L. destruct (decide _) as [_|]; [|done]. destruct Hm.
      destruct (ti_id _ _ _ HI n x Hx) as [Ix _ _]. destruct (ti_id _ _ _ HI m y Hy) as [Iy _ _]. eapply NoDup_lookup; [exact Hvals|exact Iy|congruence].
    + intros _. cbn. destruct r as [[]| | |]; done.
Qed.
Lemma act_delete_ok n f s s' pub z : tso_inv s pub z → act_delete root n f s = Some s' → tso_inv s' pub z.
Proof.
  intros HI. unfold act_delete. intros (x & Hx & H)%bind_Some. case_guard as Hp; [|done]. cbn in H.
  unfold deleteLeaderKey in H. destruct (etcd_txn _ _ _ _) as [d r] eqn:E. injection H as <-. apply etcd_txn_ok in E.
  destruct E as [[Hr ->]|(Hr & Hc & Hk)].
  - eapply quiet_server; [done..|apply HI|done|by rewrite Hp].
  - eapply quiet_server; [done..| | |by rewrite Hp].
    + eapply saved_is_same, HI. rewrite Hk after_other //. apply leader_not_timestamp.
    + intros m y Hm Hy L. unfold leads in L. rewrite Hk /= in L. by destruct (decide _).
Qed.
Lemma act_sync_load_ok n f s s' pub z : tso_inv s pub z → act_sync_load n f s = Some s' → tso_inv s' pub z.
Proof.
  intros HI. unfold act_sync_load. intros (x & Hx & H)%bind_Some. case_guard as Hp; [|done]. injection H as <-.
  eapply quiet_server; [done..| |apply HI|done|].
  - rewrite Hp. cbn. by destruct (loadTimestamp _ _ _).
  - intros L. cbn. destruct (loadTimestamp f (db s) (oracle x)) eqn:E; (split; [done|]); intros l; [|done..].
    intros [= <-]. eapply loadTimestamp_ok; [|apply HI|done]. cbn. by apply (ti_id _ _ _ HI n x).
Qed.
(** The invariant after an action; the saved time has not decreased. *)
Definition kept z s' : Prop := ∃ pub' z', tso_inv s' pub' z' ∧ z ≤ z'.
Lemma kept_same s' pub z : tso_inv s' pub z → kept z s'.
Proof. intros HI. exists pub, z. done. Qed.
Lemma off_phase s pub z n x c : tso_inv s pub z → servers s !! n = Some x → n_phase x ≠ Serving → last (n_objects x) = Some c → physical c = ZeroTime.
Proof. intros HI Hx Hp. pose proof (ti_phase _ _ _ HI n x Hx) as H. unfold phase_ok in H. destruct (n_phase x); [by apply H..|done]. Qed.
Lemma on_phase s pub z n x : tso_inv s pub z → servers s !! n = Some x → n_phase x = Serving →
  ∃ c, on_ok z pub x c ∧ (last_synced s = Some n → ∀ p, p ∈ pub → p ≤ physical c) ∧ (leads (db s) x → saved x = z ∧ last_synced s = Some n) ∧
    object_at s n (pred (length (n_objects x))) c.
Proof.
  intros HI Hx Hp. pose proof (ti_phase _ _ _ HI n x Hx) as H. unfold phase_ok in H. rewrite Hp in H. destruct H as [(c & Hc & Hm) Hl].
  exists c. split_and!; try done. exists x. destruct Hc as (Hc & Hcp & _). rewrite last_lookup in Hc. split_and!; [done..|].
  destruct (ti_pub _ _ _ HI _ Hcp) as [[? _] _]. unfold ZeroTime, Second. lia.
Qed.
(** The windows of two serving leaders are apart. *)
Lemma windows s pub z n x c m y c' : tso_inv s pub z → n ≠ m → servers s !! n = Some x → servers s !! m = Some y →
  n_phase x = Serving → n_phase y = Serving → last (n_objects x) = Some c → last (n_objects y) = Some c' →
  saved x + Millisecond ≤ physical c' ∨ saved y + Millisecond ≤ physical c.
Proof.
  intros HI Hne Hx Hy Px Py Hc Hc'. destruct (on_phase _ _ _ _ _ HI Hx Px) as (c1 & (E1 & P1 & S1 & W1) & _ & _ & O1).
  destruct (on_phase _ _ _ _ _ HI Hy Py) as (c2 & (E2 & P2 & S2 & W2) & _ & _ & O2). simplify_eq.
  destruct (W1 _ P2) as [?|?]; [|by left]. destruct (W2 _ P1) as [?|?]; [|by right].
  destruct (ti_inj _ _ _ HI _ _ _ _ _ _ O1 O2) as [? _]; [lia|done].
Qed.

Lemma store_ts_new objects o : physical o ≠ ZeroTime → (∀ c, last objects = Some c → physical c = ZeroTime ∨ physical c < physical o) →
  store_ts objects (Some o) = objects ++ [o].
Proof. intros Hz Hc. unfold store_ts. destruct (decide _) as [E|E]; [|done]. symmetry in E. apply Hc in E. lia. Qed.
Lemma era_not_zero p : era p → p ≠ ZeroTime.
Proof. unfold era, ZeroTime, Second. lia. Qed.

(** A failed save: the leader gives up, whether or not the time was saved. *)
Lemma save_failed s pub z n x x' d' time : tso_inv s pub z → servers s !! n = Some x → server_id n x' → n_phase x' = Idle →
  (∀ c, last (n_objects x') = Some c → physical c = ZeroTime) →
  (∀ k o, n_objects x' !! k = Some o → physical o ≠ ZeroTime → n_objects x !! k = Some o) → era time → (leads (db s) x → z ≤ time) →
  d' = db s ∨ (leads (db s) x ∧ ∀ k, etcd_get d' k = after (OpPut (timestamp_path root) (Uint64ToBytes (UnixNano time))) k (etcd_get (db s) k)) →
  kept z (with_server n x' d' s).
Proof.
  intros HI Hx Hid Hp Hl Ho Ht Hz [->|[L Hk]].
  - eapply kept_same, off_ok; try done; [apply HI|by left].
  - exists pub, time. split; [|by auto]. eapply off_ok; try done; [|by eapply saved_is_write|right; by auto].
    rewrite Hk after_other //. intros E. by destruct (leader_not_timestamp root).
Qed.

Lemma act_sync_save_ok n f now l s s' pub z : tso_inv s pub z → act_sync_save n f now l s = Some s' → kept z s'.
Proof.
  intros HI. unfold act_sync_save. intros (x & Hx & H)%bind_Some. destruct (n_phase x) as [| |old|] eqn:Hp; try done.
  case_guard as Hg; [|done]. cbn [mbind option_bind mret option_ret] in H. destruct Hg as [Hnow Hera].
  destruct (ti_id _ _ _ HI n x Hx) as [Im Ir Ii]. rewrite Ii in Hera.
  assert (Hold : leads (db s) x → old = z) by (intros L; by eapply loaded_is).
  assert (Hoff : ∀ c, last (n_objects x) = Some c → physical c = ZeroTime) by (intros c; eapply off_phase; [done..|by rewrite Hp]).
  unfold sync_save in H. set (next := sync_next old now) in *. cbn [saveInterval set_ts oracle] in H. rewrite Ii in H.
  destruct (saveTimestamp f (db s) (oracle x) (next + interval)) as [[d t] r] eqn:E. apply saveTimestamp_ok in E as [Et Hd].
  unfold getTimestampPath in Hd. cbn [rootPath member oracle set_ts] in Hd. rewrite Ir in Hd. fold (timestamp_path root) (leads (db s) x) in Hd.
  assert (Hnext : leads (db s) x → z + Millisecond ≤ next ∧ era next).
  { intros L. specialize (Hold L) as ->. destruct (sync_next_ok z now Hnow) as [Hn1 Hn2]; [eapply saved_is_era, HI|]. split; [done|].
    destruct (saved_is_era _ _ (ti_saved _ _ _ HI)) as [Hz|Hz]; [unfold next; by rewrite Hn1|].
    fold next in Hn2. unfold era, Millisecond in *. lia. }
  assert (Hlz : leads (db s) x → z ≤ next + interval) by (intros [? ?]%Hnext; unfold Millisecond in *; lia).
  assert (Hfail : r ≠ Ok () → kept z (with_server n (put_oracle t Idle x) d s)).
  { intros Hr. assert (t = oracle x) as -> by (by destruct r as [[]| | |]).
    eapply save_failed; [done..| | | | |exact Hlz|naive_solver]; try done; cbn; unfold store_ts; by destruct (decide _). }
  destruct r as [[]| | |]; injection H as <-; [|by apply Hfail..].
  destruct Hd as [[? _]|[L Hk]]; [done|]. destruct (Hnext L) as [Hn1 Hn2]. subst t.
  exists (next :: pub), (next + interval). split; [|by auto].
  eapply publish_ok; try done.
  - cbn. apply store_ts_new; [by apply era_not_zero|]. intros c Hc. left. by apply Hoff.
  - cbn. unfold saved, Millisecond in *. cbn. lia.
  - by auto.
  - rewrite Hk after_other //. intros E. by destruct (leader_not_timestamp root).
  - by eapply saved_is_write.
  - by right.
  - intros p Hpp. left. destruct (ti_pub _ _ _ HI p Hpp). lia.
  - intros m y c Hne Hy Py Hc. destruct (on_phase _ _ _ _ _ HI Hy Py) as (c1 & (_ & _ & S1 & _) & _). split_and!.
    + right. lia.
    + intros [= ->]. done.
    + intros Ly. destruct Hne. by eapply same_leader.
  - intros _ p Hpp. destruct (ti_pub _ _ _ HI p Hpp). unfold Millisecond in *. lia.
Qed.
Lemma step_down_objects x : let l := store_ts (n_objects x) (Some (mkObject ZeroTime 0)) in
  (∀ c, last l = Some c → physical c = ZeroTime) ∧ (∀ k o, l !! k = Some o → physical o ≠ ZeroTime → n_objects x !! k = Some o).
Proof.
  cbn. split.
  - intros c. rewrite last_store_ts //. by intros [= <-].
  - intros k o. unfold store_ts. destruct (decide _); [done|]. intros [H|[_ H]]%lookup_app_Some; [done|].
    apply list_lookup_singleton_Some in H as [_ <-]. by intros [].
Qed.

(** A leader moves its time: inside its window, or after saving a new one. *)
Lemma move_ok s pub z n x c next x' d' : tso_inv s pub z → servers s !! n = Some x → n_phase x = Serving → last (n_objects x) = Some c →
  server_id n x' → n_phase x' = Serving → n_objects x' = n_objects x ++ [mkObject next 0] → member (n_tso x') = member (n_tso x) →
  physical c + Millisecond ≤ next → era next →
  (saved x' = saved x ∧ next < saved x ∧ d' = db s) ∨
  (leads (db s) x ∧ next < saved x' ∧ z ≤ saved x' ∧ saved_is d' (saved x') ∧ etcd_get d' (leader_path root) = etcd_get (db s) (leader_path root)) →
  kept z (with_server n x' d' s).
Proof.
  intros HI Hx Hp Hc Hid Hp' Ho Hm Hnext Hera Hcase.
  destruct (on_phase _ _ _ _ _ HI Hx Hp) as (c1 & (E1 & P1 & S1 & W1) & M1 & L1 & O1). simplify_eq.
  assert (Hls : leads (db s) x → ∀ p, p ∈ pub → p + Millisecond ≤ next) by (intros [_ L]%L1 p Hpp; specialize (M1 L p Hpp); lia).
  assert (∃ z', next < saved x' ≤ z' ∧ z ≤ z' ∧ saved_is d' z' ∧ (z' = z ∨ leads (db s) x) ∧ (leads (db s) x → saved x' = z') ∧
     etcd_get d' (leader_path root) = etcd_get (db s) (leader_path root)) as (z' & A1 & A2 & A3 & A4 & A5 & A6).
  { destruct Hcase as [(E' & ? & ->)|(? & ? & ? & ? & ?)].
    - exists z. split_and!; try lia; try done; try apply HI; try (by left). rewrite E'. intros L. by apply L1.
    - exists (saved x'). split_and!; try done. by right. }
  exists (next :: pub), z'. split; [|done].
  eapply publish_ok; try done.
  - intros p Hpp. destruct Hcase as [(E' & ? & _)|(L & _)]; [|left; by apply Hls]. rewrite E'. destruct (W1 p Hpp); [left; lia|by right].
  - intros m y c' Hne Hy Py Hc'. pose proof (windows s pub z n x c m y c' HI ltac:(done) Hx Hy Hp Py Hc Hc') as Hw.
    assert (Hleads : leads (db s) x → saved y + Millisecond ≤ next).
    { intros L. destruct Hw as [?|?]; [|unfold Millisecond in *; lia]. destruct (on_phase _ _ _ _ _ HI Hy Py) as (c2 & (E2 & P2 & _) & _). simplify_eq.
      destruct (L1 L) as [_ Ll]. specialize (M1 Ll _ P2). unfold Millisecond in *. lia. }
    split_and!.
    + destruct Hcase as [(E' & ? & _)|(L & _)]; [|right; by apply Hleads]. unfold Millisecond in *. lia.
    + intros Lm. split; [done|]. destruct (on_phase _ _ _ _ _ HI Hy Py) as (c2 & (E2 & P2 & _) & M2 & _ & O2). simplify_eq.
      pose proof (M2 Lm _ P1). destruct Hcase as [(E' & ? & _)|(L & _)].
      * destruct Hw as [?|Hw]; [unfold Millisecond in *; lia|]. destruct (on_phase _ _ _ _ _ HI Hy Py) as (c3 & (E3 & _ & S3 & _) & _). simplify_eq. unfold Millisecond in *. lia.
      * destruct (L1 L) as [_ ?]. congruence.
    + intros Ly. destruct (on_phase _ _ _ _ _ HI Hy Py) as (_ & _ & _ & L2 & _). by apply L2.
  - intros L p Hpp. specialize (M1 L p Hpp). unfold Millisecond in *. lia.
  - intros L. split; [by apply A5|by apply L1].
Qed.
Lemma window_era s pub z n x c : tso_inv s pub z → servers s !! n = Some x → n_phase x = Serving → last (n_objects x) = Some c →
  era (physical c) ∧ era (saved x).
Proof.
  intros HI Hx Hp Hc. destruct (on_phase _ _ _ _ _ HI Hx Hp) as (c1 & (E1 & P1 & S1 & W1) & _). simplify_eq.
  destruct (ti_pub _ _ _ HI _ P1) as [? ?]. split; [done|].
  destruct (saved_is_era _ _ (ti_saved _ _ _ HI)) as [->|?]; unfold era, ZeroTime, Second in *; lia.
Qed.
Lemma act_update_ok n f now s s' pub z : tso_inv s pub z → act_update n f now s = Some s' → kept z s'.
Proof.
  intros HI. unfold act_update. intros (x & Hx & H)%bind_Some. case_guard as Hg; [|done]. cbn [mbind option_bind mret option_ret] in H.
  destruct Hg as [Hp Hnow]. apply bind_Some in H as (c & Hc & H). case_guard as Hera; [|done]. cbn [mbind option_bind mret option_ret] in H.
  destruct (ti_id _ _ _ HI n x Hx) as [Im Ir Ii]. rewrite Ii in Hera. destruct (window_era _ _ _ _ _ _ HI Hx Hp Hc) as [Ec Es].
  destruct (on_phase _ _ _ _ _ HI Hx Hp) as (c1 & (E1 & _ & S1 & _) & _ & L1 & _). simplify_eq.
  assert (Hcur : put_oracle (oracle x) Serving x = mkServer (oracle x) (n_objects x) Serving (n_alloc x) (n_pending x)).
  { unfold put_oracle, store_ts. by destruct (decide _). }
  destruct (UpdateTimestamp f (db s) (oracle x) now) as [[d t] r] eqn:E. apply UpdateTimestamp_ok with (prev := c) in E; [|done].
  destruct E as [(_ & -> & -> & ->)|(next & En & E)].
  { injection H as <-. rewrite Hcur. eapply kept_same, (quiet_server s pub z n x); try done. apply HI. }
  unfold next_in_era in Hera. rewrite En in Hera. pose proof (update_next_ok c now next Ec Hnow En) as Hn.
  assert (Hne : era next) by (unfold era, Millisecond in *; lia).
  assert (Hst : store_ts (n_objects x) (Some (mkObject next 0)) = n_objects x ++ [mkObject next 0]).
  { apply store_ts_new; [by apply era_not_zero|]. intros c' Hc'. simplify_eq. right. cbn. unfold Millisecond in *. lia. }
  unfold must_save, time_written, getTimestampPath in E. cbn [rootPath member saveInterval lastSavedTime oracle set_ts] in E. rewrite Ir Ii sub_era // in E.
  fold (timestamp_path root) (leads (db s) x) (saved x) in E.
  destruct E as [(Hw & -> & -> & ->)|[(Hw & -> & -> & L & Hk)|(Hw & Hr & -> & Hd)]].
  - injection H as <-. eapply move_ok; try done. left. unfold updateTimestampGuard, Millisecond in *. split_and!; [done|lia|done].
  - injection H as <-. assert (z ≤ next + interval) by (destruct (L1 L) as [? _]; unfold updateTimestampGuard in *; lia).
    eapply move_ok; try done. right. unfold Millisecond in *. split_and!; [done|unfold saved; cbn; lia|done|by eapply saved_is_write|].
    rewrite Hk after_other //. intros E. by destruct (leader_not_timestamp root).
  - assert (s' = with_server n (step_down (oracle x) x) d s) as -> by (destruct r as [[]| | |]; by injection H as <-).
    destruct (step_down_objects x) as [Hl Ho].
    eapply save_failed; [done..|exact Hl|exact Ho|exact Hera| |naive_solver].
    intros [? _]%L1. unfold updateTimestampGuard in *. lia.
Qed.
Lemma act_step_down_ok n s s' pub z : tso_inv s pub z → act_step_down n s = Some s' → kept z s'.
Proof.
  intros HI. unfold act_step_down. intros (x & Hx & H)%bind_Some. case_guard as Hg; [|done]. injection H as <-.
  destruct (ti_id _ _ _ HI n x Hx) as [Im Ir Ii]. destruct (step_down_objects x) as [Hl Ho]. apply (kept_same _ pub).
  eapply off_ok; [done..|exact Hl|exact Ho|done|apply HI|by left].
Qed.
Lemma act_crash_ok n s s' pub z : tso_inv s pub z → act_crash root interval gap n s = Some s' → kept z s'.
Proof.
  intros HI. unfold act_crash. intros (x & Hx & H)%bind_Some. injection H as <-.
  destruct (ti_id _ _ _ HI n x Hx) as [Im Ir Ii]. apply (kept_same _ pub). eapply off_ok; [done..|apply HI|by left].
Qed.
Lemma act_ask_ok n k expired count s s' pub z : tso_inv s pub z → act_ask n k expired count s = Some s' → tso_inv s' pub z.
Proof.
  intros HI. unfold act_ask. intros (x & Hx & H)%bind_Some. apply bind_Some in H as (o & Ho & H). case_guard as Hg; [|done].
  cbn [mbind option_bind mret option_ret] in H. destruct (get_attempt o expired count) as [o' r] eqn:E. injection H as <-.
  destruct (decide (physical o = ZeroTime)) as [Hz|Hz].
  - unfold get_attempt in E. destruct (decide _) as [_|]; [|done]. injection E as <- <-.
    eapply quiet_ok; [done|apply HI|cbn; by rewrite app_nil_r|done|]. intros m y [[-> ->]|[? Hy]]%(with_server_lookup s n _ (db s)).
    + exists x. cbn. rewrite list_insert_id //. split_and!; try done. intros L. split; [done|]. intros l. by eapply loaded_is.
    + exists y. split_and!; try done. intros L. split; [done|]. intros l. by eapply loaded_is.
  - eapply ask_ok; try done; [lia|]. apply (get_attempt_ok _ expired); try done; try lia.
    by eapply (ti_obj _ _ _ HI n k); exists x.
Qed.
Lemma alloc_server_ok s pub z n x a (q : option (option bytes)) d' : tso_inv s pub z → servers s !! n = Some x →
  (∀ k, k ≠ alloc_id_path root → etcd_get d' k = etcd_get (db s) k) → tso_inv (with_server n (set_alloc a q x) d' s) pub z.
Proof.
  intros HI Hx Hk. assert (Hl : etcd_get d' (leader_path root) = etcd_get (db s) (leader_path root)) by (apply Hk, leader_not_alloc).
  eapply quiet_server; try done.
  - eapply saved_is_same, HI. apply Hk, timestamp_not_alloc.
  - unfold leads. by rewrite Hl.
  - unfold leads. rewrite Hl. intros L. split; [done|]. intros l. apply (loaded_is s pub z n x l HI Hx L).
Qed.
Lemma give_id_ok s pub z n x a d' : tso_inv s pub z → servers s !! n = Some x →
  (∀ k, k ≠ alloc_id_path root → etcd_get d' k = etcd_get (db s) k) → tso_inv (give_id n d' a x s) pub z.
Proof.
  intros HI Hx Hk. unfold give_id, take_id. pose proof (alloc_server_ok s pub z n x (mkAllocator (u64 (base_ a + 1)) (end_ a) (a_rootPath a) (a_member a)) None d' HI Hx Hk) as H.
  destruct H. split; done.
Qed.
Lemma act_alloc_txn_ok n f s s' pub z : tso_inv s pub z → (∀ x, servers s !! n = Some x → a_rootPath (n_alloc x) = root) →
  act_alloc_txn n f s = Some s' → tso_inv s' pub z.
Proof.
  intros HI Hroot. unfold act_alloc_txn. intros (x & Hx & H)%bind_Some. apply bind_Some in H as (v & Hv & H). case_guard as Hg; [|done].
  cbn [mbind option_bind mret option_ret] in H. destruct (generate_txn f (db s) (n_alloc x) v) as [d r] eqn:E. injection H as <-.
  assert (Hk : ∀ k, k ≠ alloc_id_path root → etcd_get d k = etcd_get (db s) k).
  { apply generate_txn_ok in E as [[-> _]|(old & _ & _ & Hk & _)]; [done|]. intros k Hne. rewrite Hk after_other //.
    cbn. unfold getAllocIDPath. rewrite (Hroot x Hx). done. }
  destruct r; [by apply give_id_ok|by apply alloc_server_ok..].
Qed.
End Inv.
