(* ===== verification/TsoProps.v ===== *)
(** What the cluster's allocation promises: timestamps are unique and later leaders
    give later ones, the saved time bounds every leader, ids are unique. *)

From S2P Require Import Prelude Tso TsoSystem TsoSpec TsoInv.

Section Ids.
Context {D : Type} `{!Etcd D, !EtcdLaws D}.
Variables (root : bytes) (interval gap : Z) (vals : list bytes).
Hypotheses (Hinterval : Millisecond ≤ interval) (Hvals : NoDup vals).
Implicit Types (s : system D) (x y : server) (e : Z).

Definition in_range (id : Z) x : Prop := base_ (n_alloc x) < id ≤ end_ (n_alloc x).
Record id_inv s e : Prop := {
  ii_end : end_is (etcd_get (db s) (alloc_id_path root)) e ∧ is_u64 e;
  ii_server n x : servers s !! n = Some x → a_rootPath (n_alloc x) = root ∧ 0 ≤ base_ (n_alloc x) ≤ end_ (n_alloc x) ∧ end_ (n_alloc x) ≤ e;
  ii_apart n m x y id : servers s !! n = Some x → servers s !! m = Some y → in_range id x → in_range id y → n = m;
  ii_ids id : id ∈ ids s → id ≤ e ∧ ∀ n x, servers s !! n = Some x → ¬ in_range id x;
  ii_nodup : NoDup (ids s)
}.

Lemma id_frame s s' e : id_inv s e → etcd_get (db s') (alloc_id_path root) = etcd_get (db s) (alloc_id_path root) → ids s' = ids s →
  (∀ n x', servers s' !! n = Some x' → ∃ x, servers s !! n = Some x ∧ (n_alloc x' = n_alloc x ∨ n_alloc x' = NewAllocatorImpl root (a_member (n_alloc x')))) → id_inv s' e.
Proof.
  intros HI Hk Hids Hx.
  assert (Hr : ∀ n x' id, servers s' !! n = Some x' → in_range id x' → ∃ x, servers s !! n = Some x ∧ in_range id x).
  { intros n x' id Hx' Hin. destruct (Hx n x' Hx') as (x & Hxx & [E|E]); unfold in_range in *; rewrite E in Hin; [by exists x|]. cbn in Hin. lia. }
  split.
  - rewrite Hk. apply HI.
  - intros n x' Hx'. destruct (Hx n x' Hx') as (x & Hxx & [E|E]); rewrite E; [by eapply ii_server|]. cbn. destruct (ii_end _ _ HI) as [_ [? _]]. done.
  - intros n m x' y' id Hx' Hy' Ix Iy. destruct (Hr n x' id Hx' Ix) as (x & ? & ?). destruct (Hr m y' id Hy' Iy) as (y & ? & ?). by eapply ii_apart.
  - rewrite Hids. intros id Hid. destruct (ii_ids _ _ HI id Hid) as [? Hn]. split; [done|]. intros n x' Hx' Hin. destruct (Hr n x' id Hx' Hin) as (x & Hxx & Hi). by eapply Hn.
  - rewrite Hids. apply HI.
Qed.
Lemma id_with_server s e n x x' d : id_inv s e → servers s !! n = Some x → n_alloc x' = n_alloc x ∨ n_alloc x' = NewAllocatorImpl root (a_member (n_alloc x')) →
  etcd_get d (alloc_id_path root) = etcd_get (db s) (alloc_id_path root) → id_inv (with_server n x' d s) e.
Proof.
  intros HI Hx Ha Hk. eapply id_frame; [done..|]. intros m y [[-> ->]|[? Hy]]%with_server_lookup; [by exists x|]. exists y. auto.
Qed.

(** One id of a range that is the server's own. *)
Lemma give_id_inv s e n x a d : id_inv s e → servers s !! n = Some x → a_rootPath a = root → 0 ≤ base_ a < end_ a → end_ a ≤ e →
  end_is (etcd_get d (alloc_id_path root)) e →
  (∀ id, base_ a < id ≤ end_ a → (id ∉ ids s) ∧ ∀ m y, m ≠ n → servers s !! m = Some y → ¬ in_range id y) →
  id_inv (give_id n d a x s) e.
Proof.
  intros HI Hx Hr Hb He Hd Hown. destruct (ii_end _ _ HI) as [_ Hu]. unfold give_id, take_id. rewrite u64_small; [|unfold is_u64 in *; lia].
  assert (Hlk : ∀ x' m y, (<[n := x']> (servers s)) !! m = Some y → (m = n ∧ y = x') ∨ (m ≠ n ∧ servers s !! m = Some y)) by (intros x' m y; apply (with_server_lookup s n x' d)).
  split; cbn.
  - done.
  - intros m y [[-> ->]|[? Hy]]%Hlk; [cbn; split_and!; [done|lia..]|by eapply ii_server].
  - intros m m' y y' id [[-> ->]|[? Hy]]%Hlk [[-> ->]|[? Hy']]%Hlk; unfold in_range; cbn.
    + done.
    + intros I1 I2. by destruct (proj2 (Hown id ltac:(lia)) m' y').
    + intros I1 I2. by destruct (proj2 (Hown id ltac:(lia)) m y).
    + intros I1 I2. by eapply ii_apart.
  - intros id [Hid|Hid]%elem_of_app.
    + destruct (ii_ids _ _ HI id Hid) as [? Hn]. split; [done|]. intros m y [[-> ->]|[? Hy]]%Hlk; [|by eapply Hn].
      unfold in_range. cbn. intros I. by destruct (proj1 (Hown id ltac:(lia))).
    + apply list_elem_of_singleton in Hid as ->. split; [lia|]. intros m y [[-> ->]|[? Hy]]%Hlk; [unfold in_range; cbn; lia|].
      apply (proj2 (Hown (base_ a + 1) ltac:(lia)) m y); done.
  - apply NoDup_app. split_and!; [apply HI| |apply NoDup_singleton]. intros id Hid ->%list_elem_of_singleton.
    by destruct (proj1 (Hown (base_ a + 1) ltac:(lia))).
Qed.

Lemma end_is_written v : is_u64 v → end_is (Some (Uint64ToBytes v)) v.
Proof.
  intros Hv. unfold end_is, BytesToUint64, Uint64ToBytes. destruct (decide _) as [_|[]]; [|apply length_PutUint64].
  rewrite u64_small // -(app_nil_r (PutUint64 v)). by apply Uint64_PutUint64.
Qed.
Lemma end_is_functional v e e' : end_is v e → end_is v e' → e = e'.
Proof. destruct v; cbn; congruence. Qed.
(** The stored end moves to the end of a new range. *)
Lemma id_inv_grow s e n x d : id_inv s e → servers s !! n = Some x → is_u64 (e + allocStep) →
  etcd_get d (alloc_id_path root) = Some (Uint64ToBytes (e + allocStep)) → id_inv (with_server n (set_alloc (n_alloc x) None x) d s) (e + allocStep).
Proof.
  intros HI Hx Hu Hd. assert (Hlk := with_server_lookup s n (set_alloc (n_alloc x) None x) d).
  assert (H := id_with_server s e n x (set_alloc (n_alloc x) None x) (db s) HI Hx ltac:(by left) ltac:(done)). destruct H as [_ Hs Ha Hi Hn].
  split; [|cbn in *|done| |done].
  - cbn. rewrite Hd. split; [by apply end_is_written|done].
  - intros m y Hy. specialize (Hs m y Hy). unfold allocStep in *. naive_solver lia.
  - intros id Hid. destruct (Hi id Hid). unfold allocStep in *. split; [lia|done].
Qed.

Lemma act_alloc_txn_inv n f s s' e : id_inv s e → act_alloc_txn n f s = Some s' → ∃ e', id_inv s' e'.
Proof.
  intros HI. unfold act_alloc_txn. intros (x & Hx & H)%bind_Some. apply bind_Some in H as (v & Hv & H). case_guard as Hg; [|done].
  cbn [mbind option_bind mret option_ret] in H. destruct (generate_txn f (db s) (n_alloc x) v) as [d r] eqn:E. injection H as <-.
  destruct (ii_server _ _ HI n x Hx) as (Hr & Hb & He). destruct (ii_end _ _ HI) as [Hend Hu].
  apply generate_txn_ok in E as [[-> Hno]|(old & Ho & Hget & Hk & Hres)].
  { exists e. destruct r; [by destruct (Hno a)|eapply id_with_server; [done..|by left|done]..]. }
  unfold getAllocIDPath in Hget, Hk. rewrite Hr in Hget, Hk. fold (alloc_id_path root) in Hget, Hk. rewrite Hget in Hend.
  assert (old = e) as -> by (by eapply end_is_functional).
  assert (Hu' : is_u64 (e + allocStep)).
  { destruct v as [v|]; cbn in Hg, Ho; [rewrite Ho in Hg; apply bool_decide_eq_true in Hg|]; unfold is_u64, allocStep, two64 in *; lia. }
  rewrite u64_small // in Hk. rewrite u64_small // in Hres.
  assert (Hd : etcd_get d (alloc_id_path root) = Some (Uint64ToBytes (e + allocStep))) by (rewrite Hk; cbn; by destruct (decide _)).
  pose proof (id_inv_grow s e n x d HI Hx Hu' Hd) as HG. exists (e + allocStep). destruct r as [e1| | |]; [|done..].
  specialize (Hres e1 eq_refl) as ->. clear HG.
  assert (HG := id_inv_grow s e n x d HI Hx Hu' Hd).
  assert (Hgive : give_id n d (take_range (n_alloc x) (e + allocStep)) x s = give_id n d (take_range (n_alloc x) (e + allocStep)) (set_alloc (n_alloc x) None x) (with_server n (set_alloc (n_alloc x) None x) d s)).
  { unfold give_id, with_server. cbn. by rewrite list_insert_insert_eq. }
  rewrite Hgive. eapply give_id_inv; [exact HG|..]; try done.
  - cbn. apply list_lookup_insert_eq. by eapply lookup_lt_Some.
  - cbn. rewrite u64_small; unfold is_u64, allocStep, two64 in *; lia.
  - cbn. rewrite Hd. by apply end_is_written.
  - cbn. intros id Hid. rewrite u64_small in Hid; [|unfold is_u64, allocStep, two64 in *; lia]. split.
    + intros Hin. destruct (ii_ids _ _ HI id Hin). lia.
    + intros m y Hm Hy Hin. rewrite list_lookup_insert_ne // in Hy. destruct (ii_server _ _ HI m y Hy) as (_ & ? & ?). unfold in_range in Hin. lia.
Qed.
Lemma act_alloc_local_inv n s s' e : id_inv s e → act_alloc_local n s = Some s' → id_inv s' e.
Proof.
  intros HI. unfold act_alloc_local. intros (x & Hx & H)%bind_Some. case_guard as Hg; [|done].
  cbn [mbind option_bind mret option_ret] in H. injection H as <-. destruct (ii_server _ _ HI n x Hx) as (Hr & Hb & He).
  eapply give_id_inv; try done; [lia|apply HI|]. intros id Hid. split.
  - intros Hin. by destruct (proj2 (ii_ids _ _ HI id Hin) n x).
  - intros m y Hm Hy Hin. destruct Hm. by eapply ii_apart.
Qed.

(** Requests on the other keys leave the ids alone. *)
Lemma commit_other (d : D) cs o k : op_key o ≠ k → etcd_get (etcd_commit d cs o).1 k = etcd_get d k.
Proof. intros H. destruct (commit_view d cs o k) as [E|E]; [done|]. by rewrite E after_other. Qed.
Lemma txn_other f (d : D) cs o d' r k : op_key o ≠ k → etcd_txn f d cs o = (d', r) → etcd_get d' k = etcd_get d k.
Proof. intros H [[_ ->]|(_ & _ & Hk)]%etcd_txn_ok; [done|]. by rewrite Hk after_other. Qed.
Lemma save_other f (d : D) t time d' t' r : rootPath t = root → saveTimestamp f d t time = (d', t', r) →
  etcd_get d' (alloc_id_path root) = etcd_get d (alloc_id_path root).
Proof.
  intros Hr [_ [[_ ->]|[_ Hk]]]%saveTimestamp_ok; [done|]. rewrite Hk after_other //. cbn. unfold getTimestampPath. rewrite Hr. apply timestamp_not_alloc.
Qed.
Lemma update_other f (d : D) t now d' t' r : rootPath t = root → UpdateTimestamp f d t now = (d', t', r) →
  etcd_get d' (alloc_id_path root) = etcd_get d (alloc_id_path root).
Proof.
  intros Hr. unfold UpdateTimestamp. destruct (ts t); [|by intros [= <- <- <-]]. destruct (update_next _ _); [|by intros [= <- <- <-]].
  destruct (decide _); [|by intros [= <- <- <-]]. destruct (saveTimestamp _ _ _ _) as [[d1 t1] r1] eqn:E. apply save_other in E; [|done].
  destruct r1; by intros [= <- <- <-].
Qed.
Lemma sync_other f (d : D) t old now l d' t' r : rootPath t = root → sync_save f d t old now l = (d', t', r) →
  etcd_get d' (alloc_id_path root) = etcd_get d (alloc_id_path root).
Proof.
  intros Hr. unfold sync_save. destruct (saveTimestamp _ _ _ _) as [[d1 t1] r1] eqn:E. apply save_other in E; [|done].
  destruct r1; by intros [= <- <- <-].
Qed.

Lemma act_ids a s s' pub z e : tso_inv root interval vals s pub z → id_inv s e → act root interval gap a s = Some s' → ∃ e', id_inv s' e'.
Proof.
  intros HT HI. pose proof (leader_not_alloc root) as Hla. destruct a as [n f|n f| |cs o|n f|n f now l|n f now|n|n k b c|n f|n f|n|n]; cbn [act].
  - intros (x & Hx & H)%bind_Some. case_guard; [|done]. cbn [mbind option_bind mret option_ret] in H. unfold CampaignLeader in H.
    destruct (etcd_txn _ _ _ _) as [d r] eqn:E. injection H as <-. exists e. eapply id_with_server; [done..|by left|]. eapply txn_other; [|exact E]; done.
  - intros (x & Hx & H)%bind_Some. case_guard; [|done]. cbn [mbind option_bind mret option_ret] in H. unfold deleteLeaderKey in H.
    destruct (etcd_txn _ _ _ _) as [d r] eqn:E. injection H as <-. exists e. eapply id_with_server; [done..|by left|]. eapply txn_other; [|exact E]; done.
  - intros [= <-]. exists e. eapply id_frame; [done|by apply commit_other|done|]. intros n x Hx. exists x. auto.
  - case_guard as Hg; [|done]. intros [= <-]. exists e. eapply id_frame; [done|apply commit_other; set_solver|done|]. intros n x Hx. exists x. auto.
  - intros (x & Hx & H)%bind_Some. case_guard; [|done]. injection H as <-. exists e. eapply id_with_server; [done..|by left|done].
  - intros (x & Hx & H)%bind_Some. destruct (n_phase x) as [| |old|] eqn:Hp; try done. case_guard; [|done]. cbn [mbind option_bind mret option_ret] in H.
    destruct (sync_save _ _ _ _ _ _) as [[d t] r] eqn:E. apply sync_other in E; [|by apply (ti_id _ _ _ _ _ _ HT n x)].
    exists e. destruct r; injection H as <-; [|eapply id_with_server; [done..|by left|done]..].
    destruct (id_with_server s e n x (put_oracle t Serving x) d HI Hx ltac:(by left) E). by split.
  - intros (x & Hx & H)%bind_Some. case_guard; [|done]. cbn [mbind option_bind mret option_ret] in H. apply bind_Some in H as (c & Hc & H).
    case_guard; [|done]. cbn [mbind option_bind mret option_ret] in H.
    destruct (UpdateTimestamp _ _ _ _) as [[d t] r] eqn:E. apply update_other in E; [|by apply (ti_id _ _ _ _ _ _ HT n x)].
    injection H as <-. exists e. eapply id_with_server; [done..|left; by destruct r|done].
  - intros (x & Hx & H)%bind_Some. case_guard; [|done]. injection H as <-. exists e. eapply id_with_server; [done..|by left|done].
  - intros (x & Hx & H)%bind_Some. apply bind_Some in H as (o & Ho & H). case_guard; [|done]. cbn [mbind option_bind mret option_ret] in H.
    destruct (get_attempt _ _ _) as [o' r]. injection H as <-. exists e.
    destruct (id_with_server s e n x (set_objects (<[k := o']> (n_objects x)) x) (db s) HI Hx ltac:(by left) ltac:(done)). by split.
  - intros (x & Hx & H)%bind_Some. case_guard; [|done]. injection H as <-. exists e. eapply id_with_server; [done..|by left|done].
  - by eapply act_alloc_txn_inv.
  - intros H. exists e. by eapply act_alloc_local_inv.
  - intros (x & Hx & H)%bind_Some. injection H as <-. exists e. eapply id_with_server; [done..|by right|done].
Qed.
Lemma act_tso a s s' pub z e : tso_inv root interval vals s pub z → id_inv s e → act root interval gap a s = Some s' → kept root interval vals z s'.
Proof.
  intros HT HI. destruct a; cbn [act].
  - intros H. eapply kept_same, act_campaign_ok; done.
  - intros H. eapply kept_same, act_delete_ok; done.
  - intros [= <-]. eapply kept_same, expire_ok; done.
  - case_guard; [|done]. intros [= <-]. eapply kept_same, foreign_ok; [done|set_solver..].
  - intros H. eapply kept_same, act_sync_load_ok; done.
  - by eapply act_sync_save_ok.
  - by eapply act_update_ok.
  - by eapply act_step_down_ok.
  - intros H. eapply kept_same, act_ask_ok; done.
  - intros (x & Hx & H)%bind_Some. case_guard; [|done]. injection H as <-. eapply kept_same, alloc_server_ok; done.
  - intros H. eapply kept_same, act_alloc_txn_ok; [done| |done]. intros x Hx. by eapply ii_server.
  - intros (x & Hx & H)%bind_Some. case_guard; [|done]. injection H as <-. eapply kept_same, give_id_ok; done.
  - by eapply act_crash_ok.
Qed.

(** The states of a cluster that starts on an etcd without its keys. *)
Definition fresh (d : D) : Prop := etcd_get d (timestamp_path root) = None ∧ etcd_get d (alloc_id_path root) = None.
Lemma initial_servers (d : D) n x : servers (initial root interval gap d vals) !! n = Some x → ∃ v, vals !! n = Some v ∧ x = start_server root v interval gap.
Proof. cbn. intros (v & -> & ?)%list_lookup_fmap_Some. by exists v. Qed.
Lemma initial_tso d : fresh d → tso_inv root interval vals (initial root interval gap d vals) [] ZeroTime.
Proof.
  intros [Ht _].
  assert (Ho : ∀ n k o, ¬ object_at (initial root interval gap d vals) n k o).
  { intros n k o (x & (v & _ & ->)%initial_servers & Hk & _). done. }
  split.
  - unfold saved_is. cbn. by rewrite Ht.
  - intros p Hp. by apply elem_of_nil in Hp.
  - intros p q Hp. by apply elem_of_nil in Hp.
  - intros n x (v & Hv & ->)%initial_servers. by split.
  - intros n x (v & Hv & ->)%initial_servers. done.
  - intros n k o H. by destruct (Ho n k o).
  - intros n k o n' k' o' H. by destruct (Ho n k o).
  - intros a Ha. by apply elem_of_nil in Ha.
  - intros i j a b Ha. done.
Qed.
Lemma initial_ids d : fresh d → id_inv (initial root interval gap d vals) 0.
Proof.
  intros [_ Ha]. split.
  - cbn. rewrite Ha. by split.
  - intros n x (v & Hv & ->)%initial_servers. done.
  - intros n m x y id (v & Hv & ->)%initial_servers _. unfold in_range. cbn. lia.
  - intros id Hid. by apply elem_of_nil in Hid.
  - apply NoDup_nil_2.
Qed.
Lemma run_inv l s s' pub z e : tso_inv root interval vals s pub z → id_inv s e → run root interval gap l s = Some s' →
  ∃ pub' z' e', tso_inv root interval vals s' pub' z' ∧ id_inv s' e'.
Proof.
  revert s pub z e. induction l as [|a l IH]; intros s pub z e HT HI; cbn.
  - intros [= <-]. by exists pub, z, e.
  - intros (s1 & Ha & Hr)%bind_Some. destruct (act_tso a s s1 pub z e HT HI Ha) as (pub1 & z1 & HT1 & _).
    destruct (act_ids a s s1 pub z e HT HI Ha) as (e1 & HI1). by eapply IH.
Qed.
Lemma reachable_inv d l s : fresh d → run root interval gap l (initial root interval gap d vals) = Some s →
  ∃ pub z e, tso_inv root interval vals s pub z ∧ id_inv s e.
Proof. intros Hd. eapply run_inv; [by apply initial_tso|by apply initial_ids]. Qed.
End Ids.

(** ** Etcd as a finite map, for the examples *)

#[export] Instance map_etcd : Etcd (gmap bytes bytes) := {
  etcd_get d k := d !! k;
  etcd_commit d cs o :=
    if forallb (λ c, match c with CmpValue k v => bool_decide (d !! k = Some v) | CmpAbsent k => bool_decide (d !! k = None) end) cs
    then (match o with OpPut k v => <[k := v]> d | OpDelete k => delete k d end, true) else (d, false)
}.
#[export] Instance map_etcd_laws : EtcdLaws (gmap bytes bytes).
Proof.
  assert (E : ∀ (d : gmap bytes bytes) cs, forallb (cmp_holds d) cs =
    forallb (λ c, match c with CmpValue k v => bool_decide (d !! k = Some v) | CmpAbsent k => bool_decide (d !! k = None) end) cs) by done.
  split; intros d cs o; rewrite E; cbn -[lookup insert delete].
  - by destruct (forallb _ _).
  - by intros ->.
  - intros k ->. destruct o as [k' v|k']; cbn -[lookup insert delete].
    + rewrite lookup_insert. by repeat case_decide.
    + rewrite lookup_delete. by repeat case_decide.
Qed.

(** ** Theorems *)

Lemma set_ts_id t : set_ts (ts t) t = t.
Proof. by destruct t. Qed.
Lemma loop_unsynced k nows t count o : ts t = Some o → physical o = ZeroTime → GetRespTS_loop k (λ _ t, t) nows t count = (t, Err ErrCannotGet).
Proof.
  intros Ht Hz. induction k as [|k IH]; [done|]. cbn. rewrite Ht. unfold get_attempt. destruct (decide _) as [_|]; [|done]. by rewrite -Ht set_ts_id.
Qed.
Lemma loop_exhausted k nows t count o : ts t = Some o → physical o ≠ ZeroTime → 0 < count < 2 ^ 32 → 0 ≤ logical o → logical o + Z.of_nat k * count < 2 ^ 63 →
  maxLogical ≤ logical o + count → GetRespTS_loop k (λ _ t, t) nows t count = (set_ts (Some (mkObject (physical o) (logical o + Z.of_nat k * count))) t, Err ErrCannotGet).
Proof.
  revert t o. induction k as [|k IH]; intros t o Ht Hz Hc Hl Hk Hm.
  - cbn. rewrite Z.add_0_r. rewrite -{1}(set_ts_id t) Ht. by destruct o.
  - cbn [GetRespTS_loop]. rewrite Ht. unfold get_attempt. destruct (decide _) as [|_]; [done|]. rewrite i64_small; [|lia].
    destruct (decide _) as [_|]; [|done]. rewrite (IH _ (mkObject (physical o) (logical o + count))); cbn [ts set_ts physical logical]; try done; try lia.
    by replace (logical o + count + Z.of_nat k * count) with (logical o + Z.of_nat (S k) * count) by lia.
Qed.
Lemma loop_first k nows t count o : ts t = Some o → physical o ≠ ZeroTime → 0 ≤ logical o + count → logical o + count < maxLogical →
  GetRespTS_loop (S k) (λ _ t, t) nows t count = (set_ts (Some (mkObject (physical o) (logical o + count))) t,
    if lease_expired (nows k) (lease t) then Err ErrLeaseExpired else Ok (mkTimestamp (millis (physical o)) (logical o + count))).
Proof.
  intros Ht Hz Hl Hm. cbn. rewrite Ht. unfold get_attempt. destruct (decide _) as [|_]; [done|]. rewrite i64_small; [|unfold maxLogical in *; lia].
  destruct (decide _) as [|_]; [lia|]. by destruct (lease_expired _ _).
Qed.
Lemma loop_nil k nows t count : ts t = None → GetRespTS_loop (S k) (λ _ t, t) nows t count = (t, Panic "nil pointer dereference").
Proof. intros Ht. cbn. by rewrite Ht. Qed.

Section Theorems.
Context {D : Type} `{!Etcd D, !EtcdLaws D}.
Variables (root : bytes) (interval gap : Z) (vals : list bytes).
Implicit Types (d : D) (s : system D) (x : server).

(** What one successful [UpdateTimestamp] moves. *)
Lemma update_moves f d t now prev d' t' : ts t = Some prev → era (physical prev) → era now → era (lastSavedTime t) → Millisecond ≤ saveInterval t →
  next_in_era prev now (saveInterval t) → UpdateTimestamp f d t now = (d', t', Ok ()) →
  ∃ c, ts t' = Some c ∧ physical prev ≤ physical c ∧ lastSavedTime t ≤ lastSavedTime t'.
Proof.
  intros Ht Hp Hn Hs Hi He E. apply UpdateTimestamp_ok with (prev := prev) in E; [|done]. unfold next_in_era in He.
  destruct E as [(_ & -> & -> & _)|(next & En & E)]; [by exists prev|]. rewrite En in He. pose proof (update_next_ok prev now next Hp Hn En).
  assert (era next) by (unfold era, Millisecond in *; lia). unfold must_save in E. rewrite sub_era // in E.
  destruct E as [(_ & _ & -> & _)|[(Hw & _ & -> & _)|(_ & ? & _)]]; [| |done]; exists (mkObject next 0); unfold updateTimestampGuard, Millisecond in *; cbn; split_and!; (done || lia).
Qed.

Lemma act_update_some n f now s s' x c : act_update n f now s = Some s' → servers s !! n = Some x → last (n_objects x) = Some c →
  ∃ d t r, n_phase x = Serving ∧ era now ∧ next_in_era c now (saveInterval (n_tso x)) ∧ UpdateTimestamp f (db s) (oracle x) now = (d, t, r) ∧
    s' = with_server n (match r with Ok _ => put_oracle t Serving x | _ => step_down t x end) d s.
Proof.
  unfold act_update. intros Ha Hx Hc. rewrite Hx in Ha. cbn [mbind option_bind] in Ha. case_guard as Hg; [|done]. cbn [mbind option_bind mret option_ret] in Ha.
  rewrite Hc in Ha. cbn [mbind option_bind] in Ha. case_guard as He; [|done]. cbn [mbind option_bind mret option_ret] in Ha.
  destruct Hg as [Hp Hnow]. destruct (UpdateTimestamp f (db s) (oracle x) now) as [[d t] r] eqn:E. injection Ha as <-. by exists d, t, r.
Qed.

(** C31: No timestamp is given twice: two answers of any servers, at any time, under lost
    and unacknowledged etcd requests, expired leases, crashes and clocks that jump,
    cover disjoint ranges of timestamps. *)
Theorem tso_unique d l s : Millisecond ≤ interval → NoDup vals → fresh root d →
  run root interval gap l (initial root interval gap d vals) = Some s → answers_apart (answers s).
Proof.
  intros Hi Hv Hd Hr. destruct (reachable_inv root interval gap vals Hi Hv d l s Hd Hr) as (pub & z & e & HT & _). apply HT.
Qed.

(** C32: A timestamp that the last server to synchronize gives from its current time is
    later than every timestamp given before, by any server. *)
Theorem tso_order d l s n x expired count s' b : Millisecond ≤ interval → NoDup vals → fresh root d →
  run root interval gap l (initial root interval gap d vals) = Some s →
  last_synced s = Some n → servers s !! n = Some x → n_phase x = Serving →
  act root interval gap (Ask n (pred (length (n_objects x))) expired count) s = Some s' → answers s' = answers s ++ [b] →
  ∀ a, a ∈ answers s → before a b.
Proof.
  intros Hi Hv Hd Hr Hl Hx Hp Ha Hb a Hin. destruct (reachable_inv root interval gap vals Hi Hv d l s Hd Hr) as (pub & z & e & HT & _).
  destruct (on_phase _ _ _ _ _ _ _ _ HT Hx Hp) as (c & (Hc & Hcp & _) & Hm & _ & Ho). specialize (Hm Hl).
  cbn [act] in Ha. unfold act_ask in Ha. rewrite Hx in Ha. cbn [mbind option_bind] in Ha. rewrite -last_lookup Hc in Ha. cbn [mbind option_bind] in Ha.
  case_guard as Hg; [|done]. cbn [mbind option_bind mret option_ret] in Ha. destruct (get_attempt c expired count) as [o' r] eqn:E.
  injection Ha as <-. cbn in Hb. apply app_inv_head in Hb. destruct (ti_obj _ _ _ _ _ _ HT _ _ _ Ho) as [_ Hlog].
  assert (physical c ≠ ZeroTime) by (apply era_not_zero; by apply (ti_pub _ _ _ _ _ _ HT)).
  apply get_attempt_ok in E as (_ & _ & Hres); [|done|lia|lia|done]. destruct Hres as [Er|[Er|Er]]; rewrite Er in Hb; try done. injection Hb as <-.
  destruct (ti_ans _ _ _ _ _ _ HT a Hin) as (_ & p & Hpp & Em & _). unfold before. cbn. rewrite Em.
  destruct (decide (p = physical c)) as [->|Hne].
  - right. split; [done|]. by eapply new_answer_apart.
  - left. apply millis_gap; [by apply (ti_pub _ _ _ _ _ _ HT)..|]. pose proof (ti_gap _ _ _ _ _ _ HT p (physical c) Hpp Hcp Hne). specialize (Hm p Hpp). lia.
Qed.

(** The three constraints that [UpdateTimestamp] documents: a leader's physical time
    and saved time never decrease, nor does the time saved in etcd, and the physical
    time stays below the saved one. *)
Theorem update_constraints d l s n f now s' x c x' : Millisecond ≤ interval → NoDup vals → fresh root d →
  run root interval gap l (initial root interval gap d vals) = Some s →
  servers s !! n = Some x → last (n_objects x) = Some c →
  act root interval gap (Update n f now) s = Some s' → servers s' !! n = Some x' → n_phase x' = Serving →
  ∃ c' z z', last (n_objects x') = Some c' ∧ saved_is root (db s) z ∧ saved_is root (db s') z' ∧
    physical c ≤ physical c' ∧ saved x ≤ saved x' ∧ z ≤ z' ∧ physical c' < saved x' ≤ z'.
Proof.
  intros Hi Hv Hd Hr Hx Hc Ha Hx' Hp'. destruct (reachable_inv root interval gap vals Hi Hv d l s Hd Hr) as (pub & z & e & HT & HI).
  destruct (act_tso root interval gap vals Hi Hv _ _ _ _ _ _ HT HI Ha) as (pub' & z' & HT' & Hz).
  destruct (on_phase _ _ _ _ _ _ _ _ HT' Hx' Hp') as (c' & (Hc' & _ & Hs & _) & _).
  exists c', z, z'. destruct (act_update_some n f now s s' x c Ha Hx Hc) as (d1 & t1 & r1 & Hp & Hnow & He & E & Es').
  destruct (window_era _ _ _ _ _ _ _ _ _ HT Hx Hp Hc) as [Ec Es]. destruct (ti_id _ _ _ _ _ _ HT n x Hx) as [_ _ Ei].
  rewrite Es' /= list_lookup_insert_eq in Hx'; [|by eapply lookup_lt_Some]. injection Hx' as <-. destruct r1 as [[]| | |]; [|done..].
  destruct (update_moves f (db s) (oracle x) now c d1 t1) as (c1 & E1 & E2 & E3); try done; [cbn; by rewrite Ei|].
  rewrite /= last_store_ts in Hc'; [|congruence]. split_and!; [rewrite /= last_store_ts; congruence|apply HT|apply HT'|congruence|done|done|lia..].
Qed.

(** C33: An id is allocated at most once in the cluster's life: ids of all servers,
    across changes of leader, crashes and requests of unknown outcome, are distinct. *)
Theorem ids_unique d l s : Millisecond ≤ interval → NoDup vals → fresh root d →
  run root interval gap l (initial root interval gap d vals) = Some s → NoDup (ids s).
Proof.
  intros Hi Hv Hd Hr. destruct (reachable_inv root interval gap vals Hi Hv d l s Hd Hr) as (pub & z & e & _ & HI). apply HI.
Qed.
End Theorems.

(** C34: Every branch of [GetRespTS] when nothing else touches the oracle: a zero count is
    refused, an oracle whose server never synchronized makes the server panic, one that
    was reset answers nothing after a hundred attempts, logical times that are used up
    stay used up, an expired lease is refused, and otherwise the answer is the
    millisecond with the next [count] logical times. *)
Theorem GetRespTS_branches nows t count : 0 ≤ count < 2 ^ 32 → (∀ o, ts t = Some o → 0 ≤ logical o < 2 ^ 62) →
  GetRespTS (λ _ t, t) nows t count =
    if decide (count = 0) then (t, Err ErrCountZero)
    else match ts t with
         | None => (t, Panic "nil pointer dereference")
         | Some o =>
           if decide (physical o = ZeroTime) then (t, Err ErrCannotGet)
           else if decide (maxLogical ≤ logical o + count) then (set_ts (Some (mkObject (physical o) (logical o + 100 * count))) t, Err ErrCannotGet)
           else (set_ts (Some (mkObject (physical o) (logical o + count))) t,
                 if lease_expired (nows 99%nat) (lease t) then Err ErrLeaseExpired else Ok (mkTimestamp (millis (physical o)) (logical o + count)))
         end.
Proof.
  intros Hc Hl. unfold GetRespTS. destruct (decide (count = 0)) as [|Hn]; [done|]. destruct (ts t) as [o|] eqn:Ht; [|by apply (loop_nil 99)].
  specialize (Hl o eq_refl). destruct (decide (physical o = ZeroTime)) as [Hz|Hz]; [by eapply loop_unsynced|].
  destruct (decide (maxLogical ≤ logical o + count)) as [Hm|Hm].
  - unfold maxRetryCount. rewrite (loop_exhausted 100 nows t count o); [done|done|done|lia..].
  - unfold maxRetryCount. apply (loop_first 99); [done|done|lia|lia].
Qed.

(** ** Examples *)

(** Two servers: the first leads and loses its leadership with a save of unknown
    outcome, the second takes over; both gave timestamps and ids. *)
Definition tso_root : bytes := String.list_byte_of_string "/pd/1".
Definition tso_values : list bytes := [String.list_byte_of_string "a"; String.list_byte_of_string "b"].
Definition tso_start : system (gmap bytes bytes) := initial tso_root (3 * Second) 0 ∅ tso_values.
Definition tso_actions : list action :=
  [Campaign 0 Fine; SyncLoad 0 Fine; SyncSave 0 Fine (1000 * Second) (Some (2000 * Second)); Ask 0 0 false 10; Update 0 Fine (1001 * Second);
   Ask 0 0 false 5; Ask 0 1 false 1; AllocRead 0 Fine; AllocTxn 0 Fine; AllocLocal 0; Update 0 AppliedButFailed (1003 * Second); Expire;
   Campaign 1 Fine; SyncLoad 1 Fine; SyncSave 1 Fine (900 * Second) (Some (2000 * Second)); AllocRead 1 Fine; AllocTxn 1 Fine; Ask 1 0 false 3].
Definition tso_end : option (system (gmap bytes bytes)) := run tso_root (3 * Second) 0 tso_actions tso_start.
Lemma tso_fresh : fresh (D:=gmap bytes bytes) tso_root ∅.
Proof. by split; vm_compute. Qed.
Lemma tso_values_nodup : NoDup tso_values.
Proof. by apply (bool_decide_unpack _); vm_compute. Qed.

Lemma tso_unique_witness : answers <$> tso_end = Some [mkAnswer 1000000 10 10; mkAnswer 1000000 15 5; mkAnswer 1001000 1 1; mkAnswer 1006001 3 3] ∧
  answers_apart [mkAnswer 1000000 10 10; mkAnswer 1000000 15 5; mkAnswer 1001000 1 1; mkAnswer 1006001 3 3].
Proof.
  assert (E : answers <$> tso_end = Some [mkAnswer 1000000 10 10; mkAnswer 1000000 15 5; mkAnswer 1001000 1 1; mkAnswer 1006001 3 3]) by (vm_compute; reflexivity).
  split; [exact E|]. destruct tso_end as [s|] eqn:Hs; [|discriminate]. injection E as <-.
  apply (tso_unique tso_root (3 * Second) 0 tso_values ∅ tso_actions s); [vm_compute; discriminate|exact tso_values_nodup|exact tso_fresh|exact Hs].
Defined.

(** The last answer, and those before it. *)
Definition tso_before : option (system (gmap bytes bytes)) := run tso_root (3 * Second) 0 (take 17 tso_actions) tso_start.
Lemma tso_order_witness : answers <$> tso_before = Some [mkAnswer 1000000 10 10; mkAnswer 1000000 15 5; mkAnswer 1001000 1 1] ∧
  ∀ a, a ∈ [mkAnswer 1000000 10 10; mkAnswer 1000000 15 5; mkAnswer 1001000 1 1] → before a (mkAnswer 1006001 3 3).
Proof.
  assert (E1 : answers <$> tso_before = Some [mkAnswer 1000000 10 10; mkAnswer 1000000 15 5; mkAnswer 1001000 1 1]) by (vm_compute; reflexivity).
  assert (E2 : last_synced <$> tso_before = Some (Some 1%nat)) by (vm_compute; reflexivity).
  assert (E3 : (s ← tso_before; x ← servers s !! 1%nat; Some (n_phase x, length (n_objects x))) = Some (Serving, 1%nat)) by (vm_compute; reflexivity).
  assert (E4 : (s ← tso_before; s' ← act tso_root (3 * Second) 0 (Ask 1 0 false 3) s; Some (answers s')) =
    Some [mkAnswer 1000000 10 10; mkAnswer 1000000 15 5; mkAnswer 1001000 1 1; mkAnswer 1006001 3 3]) by (vm_compute; reflexivity).
  split; [exact E1|]. destruct tso_before as [s|] eqn:Hs; [|discriminate]. injection E1 as E1. injection E2 as E2.
  apply bind_Some in E3 as (s1 & [= <-] & E3). apply bind_Some in E3 as (x & Hx & [= Hp Hn]).
  apply bind_Some in E4 as (s2 & [= <-] & E4). apply bind_Some in E4 as (s' & Ha & [= E4]). rewrite -E1.
  apply (tso_order tso_root (3 * Second) 0 tso_values ∅ (take 17 tso_actions) s 1 x false 3 s');
    [vm_compute; discriminate|exact tso_values_nodup|exact tso_fresh|exact Hs|exact E2|exact Hx|exact Hp|rewrite Hn; exact Ha|rewrite E4 E1; reflexivity].
Defined.

(** The leader's first update. *)
Definition tso_synced : option (system (gmap bytes bytes)) := run tso_root (3 * Second) 0 (take 4 tso_actions) tso_start.
Lemma update_constraints_witness : ∃ s s' x c x', tso_synced = Some s ∧ servers s !! 0%nat = Some x ∧ last (n_objects x) = Some c ∧ physical c = 1000 * Second ∧
  act tso_root (3 * Second) 0 (Update 0 Fine (1001 * Second)) s = Some s' ∧ servers s' !! 0%nat = Some x' ∧
  ∃ c' z z', last (n_objects x') = Some c' ∧ saved_is tso_root (db s) z ∧ saved_is tso_root (db s') z' ∧
    physical c ≤ physical c' ∧ saved x ≤ saved x' ∧ z ≤ z' ∧ physical c' < saved x' ≤ z'.
Proof.
  assert (E : (s ← tso_synced; x ← servers s !! 0%nat; c ← last (n_objects x); s' ← act tso_root (3 * Second) 0 (Update 0 Fine (1001 * Second)) s;
    x' ← servers s' !! 0%nat; Some (physical c, n_phase x')) = Some (1000 * Second, Serving)) by (vm_compute; reflexivity).
  apply bind_Some in E as (s & Hs & E). apply bind_Some in E as (x & Hx & E). apply bind_Some in E as (c & Hc & E).
  apply bind_Some in E as (s' & Ha & E). apply bind_Some in E as (x' & Hx' & E). injection E as Hp Hph.
  exists s, s', x, c, x'. split_and!; try assumption.
  apply (update_constraints tso_root (3 * Second) 0 tso_values ∅ (take 4 tso_actions) s 0 Fine (1001 * Second) s' x c x');
    [vm_compute; discriminate|exact tso_values_nodup|exact tso_fresh|assumption..].
Defined.

Lemma ids_unique_witness : ids <$> tso_end = Some [1; 2; 1001] ∧ NoDup [1; 2; 1001].
Proof.
  assert (E : ids <$> tso_end = Some [1; 2; 1001]) by (vm_compute; reflexivity).
  split; [exact E|]. destruct tso_end as [s|] eqn:Hs; [|discriminate]. injection E as <-.
  apply (ids_unique tso_root (3 * Second) 0 tso_values ∅ tso_actions s); [vm_compute; discriminate|exact tso_values_nodup|exact tso_fresh|exact Hs].
Defined.

Lemma GetRespTS_branches_witness : (GetRespTS (λ _ t, t) (λ _, 0) (set_lease (Some 5) (set_ts (Some (mkObject Second 7)) (NewTimestampOracle [] [] Second 0))) 3).2 = Ok (mkTimestamp 1000 10) ∧
  (GetRespTS (λ _ t, t) (λ _, 0) (NewTimestampOracle [] [] Second 0) 3).2 = Panic "nil pointer dereference".
Proof.
  split.
  - rewrite GetRespTS_branches; [reflexivity|lia|]. intros o [= <-]. vm_compute. split; [discriminate|reflexivity].
  - rewrite GetRespTS_branches; [reflexivity|lia|]. intros o [=].
Defined.
